(* ===== verification/_CoqProject ===== *)
-Q . S2P
Prelude.v
Layout.v
OffsetMap.v
OffsetMapRep.v
Blocks.v
Inode.v
FileState.v
BlockArray.v
BlockList.v
BlockArrayRep.v
Data.v
FileRep.v
DataAlloc.v
DataIO.v
DataRemove.v
FileTx.v
FileIO.v
Undo.v
FileSpec.v
FileOps.v
FileMeta.v
HashMap.v
Creds.v
CString.v
Pool.v
InodeArray.v
Vinode.v
Dir.v
PoolTx.v
DirRep.v
NameSpec.v
Namespace.v
NameRep.v
NameTx.v
NameOps.v
PoolFile.v
File.v
Attr.v
Stats.v
Getdents.v
GetdentsRep.v
VfdTable.v
VfdRep.v
VfdOps.v
VfdSpec.v
PathResolve.v
PathRep.v
PathSpec.v
Hooks.v
HookSpec.v
Mount.v
MountSpec.v
