(* ===== verification/Prelude.v ===== *)
(** * pmemfile: verification development

    pmemfile keeps a file system in a persistent memory pool of libpmemobj.  Its
    two libraries are libpmemfile-posix, which implements the calls of POSIX on a
    pool (src/src/libpmemfile-posix), and libpmemfile, which intercepts the system
    calls of an application and sends those on files of a pool to the former
    (src/src/libpmemfile).  This development translates both into functions on
    explicit states, keeping the names of the source, and proves them correct.

    ** The program and its model

    A pool holds inodes.  A regular file has a chain of block arrays
    (block_array.c) whose descriptors form a list ordered by offset, and a
    volatile tree from offsets to blocks (offset_mapping.c); data.c allocates,
    copies and releases blocks, and read.c, write.c, truncate.c, fallocate.c and
    lseek.c are the calls on an open file.  A directory has a chain of parts with
    entries (dir.c); unlink.c, rmdir.c, mkdir.c, link.c, symlink.c and rename.c
    change names in transactions.  inode.c keeps the volatile inodes, found
    through the hash map of hash_map.c, and the life of the persistent ones;
    inode_array.c registers deleted inodes that are still open; creds.c decides
    about access; pool.c creates, opens, suspends and closes a pool.  On top of
    it the table of vfd_table.c counts the descriptors an application holds, and
    path_resolve.c and preload.c decide which pool a path leads into.

    Code is a function of the monad [M S A] of this file: it takes a state and
    ends in [Ok] with a result, in [Abort] with the error number of an aborted
    transaction, or in a [Fault] (a failed assertion, a NULL or dangling pointer,
    an access outside an array, a lock that cannot be taken, lack of fuel).
    [wp m Q E s] says that [m] started in [s] ends in [Ok] with [Q] or in [Abort]
    with [E]; it does not hold of a fault, so each theorem in terms of [wp] also
    says that the code terminates and fails no assertion.  Integers are [Z] with
    the wrap-around of their width written out ([u32], [u64], [i64]).

    ** The files

    Foundations.
    - [Prelude]: the monad, its rules, tactics and hints, machine integers.
    - [Layout], [Inode]: the structures of layout.h, the slots and accessors of
      inode.h, and the volatile allocator of alloc.h.
    - [CString]: C strings and the functions on names of utils.c.

    One regular file; the state is [fstate] (persistent objects, open transaction
    with its undo log, volatile inode), and [io] adds a handle and the locks.
    - [OffsetMap], [OffsetMapRep]: offset_mapping.c; the tree refines the ordered
      list of the blocks of a file.
    - [Blocks]: blocks.c and the block sizes of pmemfile-posix.c.
    - [FileState], [BlockArray], [Data], [FileIO]: the code of block_array.c,
      data.c, read.c, write.c, truncate.c, fallocate.c and lseek.c.
    - [BlockList], [BlockArrayRep], [FileRep], [DataAlloc], [DataIO],
      [DataRemove], [FileTx], [Undo]: the invariant of a file and what every
      operation on blocks does to the bytes of the file, also when a transaction
      is aborted and when the tree is rebuilt from the medium.
    - [FileSpec], [FileOps], [FileMeta]: the abstract file, a size and a byte at
      each position, and the refinement of each call on an open file to it.

    Services.
    - [HashMap]: hash_map.c refines a finite map; [Creds]: creds.c and creds.h.

    The pool; the state is [pool] (all persistent objects, the open transaction
    with its undo log and callbacks, volatile inodes, locks, credentials, errno).
    - [Pool]: the state and the primitives of libpmemobj, callbacks.c, locks.c;
      [InodeArray]: inode_array.c; [Vinode]: inode.c; [Dir]: dir.c; [Namespace]:
      unlink.c, rmdir.c, mkdir.c, link.c, symlink.c, rename.c; [PoolFile]: pool.c;
      [File]: file.c, fcntl.c, mknod.c and the path part of truncate.c, which
      embeds the calls of [FileIO] in a pool; [Attr]: access.c, chdir.c, chmod.c,
      chown.c, timestamps.c, stat.c, readlink.c, statfs.c; [Stats]: stats.c;
      [Getdents]: getdents.c.
    - [PoolTx]: the judgement [txop] for code in a transaction: what it does to
      the objects, and that its part of the undo log takes them back.
    - [DirRep]: a directory as a finite map from names to inodes.
    - [NameSpec]: the abstract name space, its well-formedness (a forest under the
      roots in which ".." leads to the parent) and its steps.
    - [NameRep], [NameTx], [NameOps]: the directories of a pool represent a name
      space, and each transaction on names is one step of it or changes nothing.
    - [GetdentsRep]: what listing a directory returns.

    The descriptor table; the state is [vfd_state].
    - [VfdTable]: vfd_table.c and the hooks of preload.c that open files and
      change the directory; the kernel and libpmemfile-posix are the class
      [VfdEnv], with the documented behaviour the table relies on in [VfdEnvOk].
    - [VfdRep], [VfdOps]: the invariant on the reference counts and the
      specification of each operation; [VfdSpec]: all interleavings of the
      operations with references in use, as a transition system.

    Path resolution; the state is [hook_state] (the descriptor table, the open
    pools), and the class [PathEnv] has what the kernel and a pool answer.
    - [PathResolve]: path_resolve.c, which rewrites a path in a buffer, and the code
      of preload.c that opens a pool when a path first leads into it.
    - [PathRep]: a walk over strings that has no buffer and no offsets, and the
      simulation of the former by the latter; [PathSpec]: the walk ends, and what
      it leaves unchanged.
    - [Hooks]: the hook of each system call, the dispatchers and the guard of
      preload.c, and the table of syscall_early_filter.c, in the build without
      checked pointers; the memory of the application is a [user_mem], a process
      that exits is an aborted run.  [HookSpec]: what a hook takes it gives back.
    - [Mount]: reading the configuration and mounting its pools at the start;
      [MountSpec]: which configurations are accepted, and that the hooks can run
      afterwards.

    ** What is shown

    - Reading, writing, truncating, preallocating, punching holes and seeking do
      to a file what POSIX says of the abstract file, for all contents, offsets
      and allocation failures; a failed call leaves the file as it was; the
      update of an inode after a write is atomic on the medium
      ([FileOps.pmemfile_pwritev_correct], [FileOps.pmemfile_preadv_correct],
      [FileOps.write_read_round_trip], [FileMeta.pmemfile_ftruncate_correct] and
      their neighbours; [Undo.failed_allocate_space_undone];
      [FileOps.write_update_inode_atomic]).
    - Below them: the tree of blocks, the allocation and release of intervals, the
      rebuilding of the tree ([OffsetMapRep], [DataAlloc], [DataRemove],
      [FileTx]), block sizes ([Blocks]).
    - The transactions of mkdir, unlink, rmdir and rename make one step of the
      well-formed name space or none ([NameOps]); adding an entry to a directory
      ([DirRep]); registering an inode ([InodeArray]).
    - Listing a directory ends and returns every entry exactly once, and a stored
      offset resumes it ([GetdentsRep]).
    - In every reachable state of the descriptor table the counts are exact, each
      opened file is closed once or still referenced, and no operation faults
      ([VfdSpec]).
    - Resolving a path over directories of the kernel, symbolic links and mounted
      pools computes the walk over strings, which always ends; no access leaves
      the buffer, and pools stay in use as often as before ([PathSpec]).
    - A system call comes back from its hook with every reference returned, the
      pools in use as often as before and the mutex free; a call on a descriptor
      of the kernel is passed on unchanged ([HookSpec.hooked_call_comes_back]).
      The hook of fchdir is excluded: it unlocks a mutex that is free.
    - Start-up accepts exactly the configurations of the documented form, and
      leaves a state in which system calls can be hooked
      ([MountSpec.start_up_mounts]).
    - The hash map is a finite map for every sequence of coefficients ([HashMap]);
      credentials stay well formed and access is decided by the mode bits
      ([Creds]).
    - Where the code does not do what it means to, a theorem shows it on a concrete
      state: a read across a hole ([FileOps.read_across_hole]), SEEK_DATA behind
      the end ([FileMeta.seek_data_past_end]), a hash map that loses an entry
      ([HashMap.hash_map_put_enomem_loses_entry]), an array of inodes that keeps a
      dangling pointer ([InodeArray.inode_array_add_abort_dangles]), components
      ".." that are resolved at the wrong place ([PathSpec.resolve_stray_dotdot]).

    ** Fuel and bounds

    A loop that is not structural has fuel, and running out of it is a fault, so
    the theorems show that the fuel is enough.  Walks over the blocks of a file
    get the number of descriptor slots of its arrays, walks over a byte range its
    length, walks over the parts of a directory the number of objects of the pool
    ([dir_fuel]), the search for coefficients of the hash map a bound from the
    sequence of random numbers.  Following symbolic links is unbounded in
    libpmemfile-posix; the fuel there is an argument of the calls that resolve a
    path.  libpmemfile follows at most 40 links in a path of at most [PATH_MAX]
    characters, and a component is looked at twice at most ([walk_fuel]).  A pair of
    a configuration takes more than one character of it.  Sizes in hypotheses are
    those of the C types.

    ** Parameters

    libpmemobj's allocator is the class [PoolAlloc] (which object address a
    transaction gets), with [PoolAllocOk] (an address that is not in use); the
    class ids of its control interface, the clock, random numbers, failing
    allocations and the results of opening a pool are arguments.  [VfdEnv] and
    [PathEnv] are the kernel and the pools below libpmemfile.

    ** Not modelled

    Threads run one at a time: locks are part of the states, and taking a held
    lock is a fault, but steps of two threads are not interleaved within an
    operation; the loops that retry after a race run once.  The persistence of
    single stores is modelled where the code relies on it outside transactions
    (the inode slots); inside transactions libpmemobj's undo log is taken to
    work.  Not modelled are logging (out.c), fault injection and the thin layers
    over pthread and the C library (alloc.c, os_thread_pthread.c, os_util_*.c),
    the debug paths of vinodes, the generated wrappers of libpmemfile
    (libpmemfile-posix-wrappers.h), the environment variables and the scan of
    /proc/self/mountinfo in the constructor of preload.c, the FUSE daemon and the
    command line tools: they pass arguments on or do input and output. *)
From Stdlib Require Export ZArith Lia Bool.
From stdpp Require Export base gmap numbers.
From stdpp Require Export list.
#[global] Open Scope Z_scope.

(** ** Machine integers *)

Definition UINT64_MAX : Z := 2 ^ 64 - 1.
Definition UINT32_MAX : Z := 2 ^ 32 - 1.
Definition INT64_MAX : Z := 2 ^ 63 - 1.

(** Wrap-around of the fixed-width unsigned types, and the two's complement
    reading of a 64-bit word. *)
Definition u64 (z : Z) : Z := z mod 2 ^ 64.
Definition u32 (z : Z) : Z := z mod 2 ^ 32.
Definition i64 (z : Z) : Z :=
  let w := u64 z in if w <=? INT64_MAX then w else w - 2 ^ 64.

(** ** Outcomes and the state monad of the model *)

(** Why the C code would not continue: dereferencing NULL, indexing past an
    array, a failed ASSERT / FATAL, using a pointer of the wrong kind, dividing
    by zero; [NoFuel] is the model's own and is shown never to occur. *)
Inductive fault :=
  | NullDeref | OutOfBounds | AssertFail | BadPointer | DivByZero | NoFuel.

(** [Abort err s] is [pmemobj_tx_abort(err)] (a longjmp to TX_ONABORT). *)
Inductive outcome (S A : Type) :=
  | Ok (a : A) (s : S)
  | Abort (err : Z) (s : S)
  | Fault (f : fault).
Arguments Ok {_ _} _ _.
Arguments Abort {_ _} _ _.
Arguments Fault {_ _} _.

Definition M (S A : Type) : Type := S → outcome S A.

#[global] Instance M_ret (S : Type) : MRet (M S) := λ A a s, Ok a s.
#[global] Instance M_bind (S : Type) : MBind (M S) := λ A B f m s,
  match m s with
  | Ok a s' => f a s'
  | Abort e s' => Abort e s'
  | Fault x => Fault x
  end.

Section primitives.
Context {S : Type}.

Definition get_st : M S S := λ s, Ok s s.
Definition gets {A} (f : S → A) : M S A := λ s, Ok (f s) s.
Definition modify (f : S → S) : M S unit := λ s, Ok tt (f s).
Definition fault_ {A} (f : fault) : M S A := λ _, Fault f.
Definition tx_abort {A} (err : Z) : M S A := λ s, Abort err s.
Definition assert_ (b : bool) : M S unit :=
  λ s, if b then Ok tt s else Fault AssertFail.
Definition of_option {A} (f : fault) (o : option A) : M S A :=
  match o with Some a => mret a | None => fault_ f end.
End primitives.

(** A computation on a part of the state. *)
Definition zoom {S T A} (get : S → T) (set : T → S → S) (m : M T A) : M S A := λ s,
  match m (get s) with
  | Ok a t => Ok a (set t s)
  | Abort e t => Abort e (set t s)
  | Fault f => Fault f
  end.

(** ** Weakest preconditions: total correctness, with a postcondition for
    normal returns and one for aborts; no fault is allowed. *)

Definition wp {S A} (m : M S A) (Q : A → S → Prop) (E : Z → S → Prop) (s : S) : Prop :=
  match m s with
  | Ok a s' => Q a s'
  | Abort e s' => E e s'
  | Fault _ => False
  end.

(** No abort can happen. *)
Definition noabort {S} : Z → S → Prop := λ _ _, False.

Section wp_rules.
Context {S : Type}.
Implicit Types (s : S).

Lemma wp_ret {A} (a : A) (Q : A → S → Prop) E s : Q a s → wp (mret a) Q E s.
Proof. done. Qed.

Lemma wp_bind {A B} (m : M S A) (f : A → M S B) Q E s :
  wp m (λ a s', wp (f a) Q E s') E s → wp (m ≫= f) Q E s.
Proof. unfold wp, mbind, M_bind. by destruct (m s). Qed.

Lemma wp_bind_inv {A B} (m : M S A) (f : A → M S B) Q E s :
  wp (m ≫= f) Q E s → wp m (λ a s', wp (f a) Q E s') E s.
Proof. unfold wp, mbind, M_bind. by destruct (m s). Qed.

Lemma wp_assoc {A B C} (m : M S A) (f : A → M S B) (g : B → M S C) Q E s :
  wp ((m ≫= f) ≫= g) Q E s → wp (m ≫= λ a, f a ≫= g) Q E s.
Proof. unfold wp, mbind, M_bind. by destruct (m s). Qed.

Lemma wp_mono {A} (m : M S A) (Q Q' : A → S → Prop) (E E' : Z → S → Prop) s :
  wp m Q E s → (∀ a s', Q a s' → Q' a s') → (∀ e s', E e s' → E' e s') → wp m Q' E' s.
Proof. unfold wp, noabort. destruct (m s); naive_solver. Qed.

Lemma wp_conseq {A} (m : M S A) (Q Q' : A → S → Prop) E s :
  wp m Q E s → (∀ a s', Q a s' → Q' a s') → wp m Q' E s.
Proof. intros H HQ. by eapply wp_mono. Qed.

Lemma wp_seq {A B} (m : M S A) (f : A → M S B) (Q' : A → S → Prop) Q E s :
  wp m Q' E s → (∀ a s', Q' a s' → wp (f a) Q E s') → wp (m ≫= f) Q E s.
Proof. intros H HQ. apply wp_bind. by eapply wp_conseq. Qed.

Lemma wp_gets {A} (f : S → A) (Q : A → S → Prop) E s : Q (f s) s → wp (gets f) Q E s.
Proof. done. Qed.

Lemma wp_get_st (Q : S → S → Prop) E s : Q s s → wp get_st Q E s.
Proof. done. Qed.

Lemma wp_modify (f : S → S) (Q : unit → S → Prop) E s : Q tt (f s) → wp (modify f) Q E s.
Proof. done. Qed.

Lemma wp_assert (b : bool) (Q : unit → S → Prop) E s :
  b = true → Q tt s → wp (assert_ b) Q E s.
Proof. by intros ->. Qed.

Lemma wp_of_option {A} f (o : option A) a (Q : A → S → Prop) E s :
  o = Some a → Q a s → wp (of_option f o) Q E s.
Proof. by intros ->. Qed.

Lemma wp_abort {A} err (Q : A → S → Prop) (E : Z → S → Prop) s :
  E err s → wp (tx_abort err) Q E s.
Proof. done. Qed.

(** [wp] describes the actual run of the program. *)
Lemma wp_ok {A} (m : M S A) (Q : A → S → Prop) s :
  wp m Q noabort s → ∃ a s', m s = Ok a s' ∧ Q a s'.
Proof. unfold wp, noabort. destruct (m s); naive_solver. Qed.

Lemma wp_and {A} (m : M S A) (Q1 Q2 : A → S → Prop) (E1 E2 : Z → S → Prop) s :
  wp m Q1 E1 s → wp m Q2 E2 s →
  wp m (λ a s', Q1 a s' ∧ Q2 a s') (λ e s', E1 e s' ∧ E2 e s') s.
Proof. unfold wp. by destruct (m s). Qed.
End wp_rules.

(** A run of a sequence is a run of its parts. *)
Lemma bind_ok {S A B} (m : M S A) (f : A → M S B) s b s' : mbind f m s = Ok b s' → ∃ a s1, m s = Ok a s1 ∧ f a s1 = Ok b s'.
Proof. unfold mbind, M_bind. destruct (m s); naive_solver. Qed.
Lemma bind_run {S A B} (m : M S A) (f : A → M S B) s a s1 : m s = Ok a s1 → (m ≫= f) s = f a s1.
Proof. unfold mbind, M_bind. by intros ->. Qed.

Lemma wp_zoom {S T A} (get : S → T) (set : T → S → S) (m : M T A) Q E s :
  wp m (λ a t, Q a (set t s)) (λ e t, E e (set t s)) (get s) → wp (zoom get set m) Q E s.
Proof. unfold wp, zoom. by destruct (m (get s)). Qed.

(** ** Tactics *)

(** Turn boolean comparisons in the context and in the goal into propositions. *)
Ltac b2p :=
  repeat match goal with
  | H : (_ && _) = true |- _ => apply andb_prop in H; destruct H
  | H : (_ && _) = false |- _ => apply andb_false_iff in H
  | H : (_ || _) = false |- _ => apply orb_false_iff in H; destruct H
  | H : (_ || _) = true |- _ => apply orb_true_iff in H
  | H : negb _ = true |- _ => apply negb_true_iff in H
  | H : negb _ = false |- _ => apply negb_false_iff in H
  | H : (_ <? _) = true |- _ => apply Z.ltb_lt in H
  | H : (_ <? _) = false |- _ => apply Z.ltb_ge in H
  | H : (_ <=? _) = true |- _ => apply Z.leb_le in H
  | H : (_ <=? _) = false |- _ => apply Z.leb_gt in H
  | H : (_ =? _) = true |- _ => apply Z.eqb_eq in H
  | H : (_ =? _) = false |- _ => apply Z.eqb_neq in H
  end.

Tactic Notation "zcase" constr(b) := destruct b eqn:?; b2p.

(** One symbolic step through a monadic program. *)
Ltac wp_step :=
  lazymatch goal with
  | |- wp (_ ≫= _) _ _ _ => apply wp_bind
  | |- wp (mret _) _ _ _ => apply wp_ret
  | |- wp (gets _) _ _ _ => apply wp_gets
  | |- wp get_st _ _ _ => apply wp_get_st
  | |- wp (modify _) _ _ _ => apply wp_modify
  | |- wp (tx_abort _) _ _ _ => apply wp_abort
  | |- wp (of_option _ (Some _)) _ _ _ => apply wp_ret
  | |- wp (assert_ _) _ _ _ => apply wp_assert
  end; cbn beta iota.
Ltac wp_steps := repeat wp_step.

Create HintDb pmem.
#[export] Hint Resolve wp_ret wp_gets wp_modify : pmem.

(** ** Lists *)

Lemma i64_small z : - 2 ^ 63 ≤ z < 2 ^ 63 → i64 z = z.
Proof.
  intros Hz. unfold i64, u64, INT64_MAX. destruct (decide (0 ≤ z)).
  - rewrite Z.mod_small by lia. zcase (z <=? 2 ^ 63 - 1); lia.
  - replace (z mod 2 ^ 64) with (z + 2 ^ 64) by (rewrite <-(Z_mod_plus_full z 1), Z.mod_small; lia).
    zcase (z + 2 ^ 64 <=? 2 ^ 63 - 1); lia.
Qed.

Lemma nodup_mid {A} (L1 L2 : list A) b : NoDup (L1 ++ b :: L2) → b ∉ L1 ++ L2 ∧ NoDup (L1 ++ L2).
Proof. rewrite <-Permutation_middle. by intros [? ?]%NoDup_cons. Qed.

Lemma elem_of_mid {A} (L1 L2 : list A) b x : x ∈ L1 ++ b :: L2 ↔ x = b ∨ x ∈ L1 ++ L2.
Proof. rewrite !elem_of_app, elem_of_cons. tauto. Qed.

(** ** Error codes (Linux numbering) *)
Definition EPERM : Z := 1.
Definition ENOENT : Z := 2.
Definition ENXIO : Z := 6.
Definition EBADF : Z := 9.
Definition ENOMEM : Z := 12.
Definition EACCES : Z := 13.
Definition EFAULT : Z := 14.
Definition EBUSY : Z := 16.
Definition EEXIST : Z := 17.
Definition EXDEV : Z := 18.
Definition ENOTDIR : Z := 20.
Definition EISDIR : Z := 21.
Definition EINVAL : Z := 22.
Definition EFBIG : Z := 27.
Definition ENOSPC : Z := 28.
Definition ERANGE : Z := 34.
Definition ENAMETOOLONG : Z := 36.
Definition ENOTEMPTY : Z := 39.
Definition ELOOP : Z := 40.
Definition EOPNOTSUPP : Z := 95.
