(* ===== verification/Layout.v ===== *)
(** On-media structures of src/libpmemfile-posix/layout.h used by the data
    path, the block sizes of blocks.h, and the volatile allocator behind
    [pf_calloc] / [pf_free] (alloc.c). *)
From S2P Require Import Prelude.

Definition METADATA_BLOCK_SIZE : Z := 4096.
Definition MIN_BLOCK_SIZE : Z := 0x4000.
Definition BLOCK_INITIALIZED : Z := 1.

(** Object identifiers; a null TOID is [None]. *)
Notation oid := positive (only parsing).
(** A block array: [None] is the one embedded in the inode. *)
Notation aid := (option positive) (only parsing).
(** The address of a [struct pmemfile_block_desc]: an array and an index. *)
Notation bptr := (option positive * nat)%type (only parsing).

Record block_desc := BlockDesc {
  bd_data : option oid;
  bd_size : Z;
  bd_flags : Z;
  bd_offset : Z;
  bd_next : option bptr;
  bd_prev : option bptr;
}.

(** ** Volatile memory

    [dram_tick] counts the calls of [pf_calloc]; the allocator itself is a
    parameter [calloc_ok] that decides whether the n-th call succeeds.
    [dram_live] is the number of chunks allocated and not yet freed. *)
Record dram := Dram { dram_tick : nat; dram_live : Z }.

Definition pf_calloc (calloc_ok : nat → bool) : M dram bool := λ d,
  if calloc_ok (dram_tick d)
  then Ok true (Dram (S (dram_tick d)) (dram_live d + 1))
  else Ok false (Dram (S (dram_tick d)) (dram_live d)).

Definition pf_free : M dram unit :=
  modify (λ d, Dram (dram_tick d) (dram_live d - 1)).

(** A read-write lock as its owner sees it; other threads are not modelled. *)
Inductive lock_state := Unlocked | RdLocked | WrLocked.
