(* ===== verification/OffsetMap.v ===== *)
(** The tree that maps file offsets to blocks, src/libpmemfile-posix/
    offset_mapping.c: the data structure, its operations as they are written,
    the partial map from pages to blocks it denotes ([om_lookup]), its invariant
    ([om_wf]) and the effect of [insert_block] and [remove_block] on both. *)
From S2P Require Import Prelude Layout.

Definition N_CHILDREN_POW : Z := 4.
Definition N_CHILDREN : Z := Z.shiftl 1 N_CHILDREN_POW.
(** [__builtin_ctzll(MIN_BLOCK_SIZE)] *)
Definition MIN_BLOCK_BITS : Z := Z.log2 MIN_BLOCK_SIZE.

(** [struct offset_map_entry]: a NULL pointer, a pointer to a block
    ([internal == false]) or an array of children ([internal == true]). *)
Inductive entry :=
  | ENull
  | ELeaf (b : bptr)
  | ENode (children : list entry).

Definition is_null (e : entry) : bool := match e with ENull => true | _ => false end.

Record offset_map := OffsetMap {
  om_entry : entry;
  om_range_length_bits : Z;
}.

(** A calloc'ed array of entries. *)
Definition no_children : list entry := replicate (Z.to_nat N_CHILDREN) ENull.

Definition max_map_offset (m : offset_map) : Z :=
  if om_range_length_bits m <? 64
  then Z.shiftl 1 (om_range_length_bits m) - MIN_BLOCK_SIZE
  else UINT64_MAX - MIN_BLOCK_SIZE + 1.

Section offset_mapping.
Variable calloc_ok : nat → bool.

Definition offset_map_new : M dram offset_map :=
  ok ← pf_calloc calloc_ok;
  if (ok : bool) then mret (OffsetMap ENull MIN_BLOCK_BITS)
  else fault_ NullDeref.

Fixpoint offset_entry_delete (e : entry) : M dram unit :=
  match e with
  | ENode children =>
    (fix go (l : list entry) : M dram unit :=
       match l with
       | [] => mret tt
       | c :: l => offset_entry_delete c;; go l
       end) children;;
    pf_free
  | _ => mret tt
  end.

Definition offset_map_delete (m : offset_map) : M dram unit :=
  offset_entry_delete (om_entry m);; pf_free.

Definition add_new_level (m : offset_map) : M dram (Z * offset_map) :=
  if 64 <? om_range_length_bits m then mret (1, m) else
  let bits := om_range_length_bits m + N_CHILDREN_POW in
  match om_entry m with
  | ENull => mret (0, OffsetMap ENull bits)
  | e =>
    ok ← pf_calloc calloc_ok;
    if (ok : bool)
    then mret (0, OffsetMap (ENode (<[0%nat := e]> no_children)) bits)
    else mret (1, OffsetMap e bits)
  end.

(** The descent [while (entry->internal)] of [block_find_closest]: the entry
    reached, and the array and index it was found at ([None] at the root). *)
Fixpoint find_entry (fuel : nat) (e : entry) (at_ : option (list entry * Z))
    (range_bits offset : Z) : M dram (entry * option (list entry * Z)) :=
  match e with
  | ENode children =>
    match fuel with
    | O => fault_ NoFuel
    | S fuel =>
      let range_bits := range_bits - N_CHILDREN_POW in
      let i := Z.land (Z.shiftr offset range_bits) (Z.shiftl 1 N_CHILDREN_POW - 1) in
      e' ← of_option OutOfBounds (children !! Z.to_nat i);
      find_entry fuel e' (Some (children, i)) range_bits offset
    end
  | _ => mret (e, at_)
  end.

(** The first loop of the search for a neighbour: towards lower offsets.
    [moved] records that [children] no longer is the array of [entry]; leaving
    the loop then would compare pointers into different arrays. *)
Fixpoint search_left (fuel : nat) (children : list entry) (i : Z) (moved : bool)
    : M dram (option bptr) :=
  match fuel with
  | O => fault_ NoFuel
  | S fuel =>
    if 0 <=? i then
      e ← of_option OutOfBounds (children !! Z.to_nat i);
      match e with
      | ENull => search_left fuel children (i - 1) moved
      | ELeaf b => mret (Some b)
      | ENode children => search_left fuel children (N_CHILDREN - 1) true
      end
    else if moved then fault_ BadPointer
    else mret None
  end.

(** The second loop: towards higher offsets, up to the first block. *)
Fixpoint search_right (fuel : nat) (children : list entry) (i : Z) : M dram (option bptr) :=
  match fuel with
  | O => fault_ NoFuel
  | S fuel =>
    if i <? N_CHILDREN then
      e ← of_option OutOfBounds (children !! Z.to_nat i);
      match e with
      | ENull => search_right fuel children (i + 1)
      | ELeaf b => mret (Some b)
      | ENode children => search_right fuel children 0
      end
    else mret None
  end.

(** Every loop below visits at most 17 entries per level of a tree of at most
    13 levels. *)
Definition tree_fuel : nat := 256.

(** [mem] reads a block descriptor. *)
Definition block_find_closest (mem : bptr → option block_desc) (m : offset_map)
    (offset : Z) : M dram (option bptr) :=
  let max_offset := max_map_offset m in
  let offset := if max_offset <? offset then max_offset else offset in
  '(e, at_) ← find_entry tree_fuel (om_entry m) None (om_range_length_bits m) offset;
  match e with
  | ELeaf b => mret (Some b)
  | _ =>
    match at_ with
    | None => mret None
    | Some (children, i) =>
      l ← search_left tree_fuel children (i - 1) false;
      match l with
      | Some b => mret (Some b)
      | None =>
        r ← search_right tree_fuel children (i + 1);
        match r with
        | Some b => d ← of_option BadPointer (mem b); mret (bd_prev d)
        | None => mret None
        end
      end
    end
  end.

Definition check_and_free_range (e : entry) : M dram entry :=
  match e with
  | ENode children =>
    if forallb is_null children then pf_free;; mret ENull else mret e
  | ENull => fault_ NullDeref
  | ELeaf _ => fault_ BadPointer
  end.

Definition check_and_allocate_range (e : entry) : M dram (Z * entry) :=
  match e with
  | ENull =>
    ok ← pf_calloc calloc_ok;
    if (ok : bool) then mret (0, ENode no_children) else mret (1, ENull)
  | _ => mret (0, e)
  end.

(** [entry->data.children] used as an array. *)
Definition children_of (e : entry) : M dram (list entry) :=
  match e with
  | ENode children => mret children
  | ENull => fault_ NullDeref
  | ELeaf _ => fault_ BadPointer
  end.

Definition entry_of (block : option bptr) : entry :=
  match block with Some b => ELeaf b | None => ENull end.

(** The [while (remaining > 0)] loop of [set_range]; [i] is the index of
    [entry] in its array. *)
Fixpoint set_range_loop (fuel : nat) (es : list entry) (i : Z) (block : option bptr)
    (offset remaining range : Z) : M dram (Z * list entry) :=
  match fuel with
  | O => fault_ NoFuel
  | S fuel =>
    if 0 <? remaining then
      e ← of_option OutOfBounds (es !! Z.to_nat i);
      if (offset mod range =? 0) && (range <=? remaining) then
        set_range_loop fuel (<[Z.to_nat i := entry_of block]> es) (i + 1) block
          (offset + range) (remaining - range) range
      else
        '(ret, e) ← check_and_allocate_range e;
        if negb (ret =? 0) then mret (ret, <[Z.to_nat i := e]> es) else
        children ← children_of e;
        let sub_offset := offset mod range in
        let sub_remaining := range - sub_offset in
        let sub_remaining := if remaining <? sub_remaining then remaining else sub_remaining in
        let sub_range := Z.shiftr range N_CHILDREN_POW in
        if sub_range =? 0 then fault_ DivByZero else
        '(ret, children) ← set_range_loop fuel children (sub_offset / sub_range) block
                             sub_offset sub_remaining sub_range;
        if negb (ret =? 0) then mret (ret, <[Z.to_nat i := ENode children]> es) else
        e ← match block with
            | None => check_and_free_range (ENode children)
            | Some _ => mret (ENode children)
            end;
        set_range_loop fuel (<[Z.to_nat i := e]> es) (i + 1) block
          (offset + sub_remaining) (remaining - sub_remaining) range
    else mret (0, es)
  end.

Definition set_range (es : list entry) (block : option bptr) (offset remaining range : Z)
    : M dram (Z * list entry) :=
  if range =? 0 then fault_ DivByZero
  else set_range_loop tree_fuel es (offset / range) block offset remaining range.

(** The [while] loop of [insert_block] that adds levels. *)
Fixpoint add_levels (fuel : nat) (m : offset_map) (block_end : Z) : M dram (Z * offset_map) :=
  match fuel with
  | O => fault_ NoFuel
  | S fuel =>
    if (om_range_length_bits m <? 64) && (max_map_offset m + MIN_BLOCK_SIZE <=? block_end) then
      '(ret, m) ← add_new_level m;
      if negb (ret =? 0) then mret (ret, m) else add_levels fuel m block_end
    else mret (0, m)
  end.

Definition insert_block (mem : bptr → option block_desc) (m : offset_map) (b : bptr)
    : M dram (Z * offset_map) :=
  block ← of_option BadPointer (mem b);
  assert_ (bd_size block - 1 <=? UINT64_MAX - bd_offset block);;
  let block_end := u64 (bd_offset block + bd_size block) in
  '(ret, m) ← add_levels tree_fuel m block_end;
  if negb (ret =? 0) then mret (ret, m) else
  assert_ ((om_range_length_bits m <? 64) || (block_end <? max_map_offset m));;
  (* the result of check_and_allocate_range is not looked at *)
  '(_, e) ← check_and_allocate_range (om_entry m);
  let range := Z.shiftl 1 (om_range_length_bits m - N_CHILDREN_POW) in
  children ← children_of e;
  '(ret, children) ← set_range children (Some b) (bd_offset block) (bd_size block) range;
  mret (ret, OffsetMap (ENode children) (om_range_length_bits m)).

(** The clean-up loop of [remove_block]. *)
Fixpoint remove_levels (fuel : nat) (m : offset_map) : M dram offset_map :=
  match fuel with
  | O => fault_ NoFuel
  | S fuel =>
    if MIN_BLOCK_BITS <? om_range_length_bits m then
      match om_entry m with
      | ENode child =>
        match child with
        | ENode grandchild :: rest =>
          if forallb is_null rest then
            pf_free;;
            remove_levels fuel
              (OffsetMap (ENode grandchild) (om_range_length_bits m - N_CHILDREN_POW))
          else mret m
        | _ => mret m
        end
      | e => remove_levels fuel (OffsetMap e MIN_BLOCK_BITS)
      end
    else mret m
  end.

Definition remove_block (mem : bptr → option block_desc) (m : offset_map) (b : bptr)
    : M dram (Z * offset_map) :=
  block ← of_option BadPointer (mem b);
  let range := Z.shiftl 1 (om_range_length_bits m - N_CHILDREN_POW) in
  children ← children_of (om_entry m);
  '(ret, children) ← set_range children None (bd_offset block) (bd_size block) range;
  let m := OffsetMap (ENode children) (om_range_length_bits m) in
  if negb (ret =? 0) then mret (ret, m) else
  e ← check_and_free_range (om_entry m);
  m ← remove_levels tree_fuel (OffsetMap e (om_range_length_bits m));
  mret (0, m).

End offset_mapping.

(** ** Abstract view: pages to blocks

    The tree denotes a partial map from pages (units of [MIN_BLOCK_SIZE]) to
    blocks.  An entry at level [n] covers [pages n] pages. *)

Definition pages (n : nat) : Z := 16 ^ Z.of_nat n.

Fixpoint elookup (n : nat) (e : entry) (p : Z) : option bptr :=
  match e, n with
  | ELeaf b, _ => Some b
  | ENode es, S n' => es !! Z.to_nat (p / pages n') ≫= λ e', elookup n' e' (p mod pages n')
  | _, _ => None
  end.

(** Lookup in an array of entries of level [n]. *)
Definition flookup (n : nat) (es : list entry) (p : Z) : option bptr :=
  es !! Z.to_nat (p / pages n) ≫= λ e, elookup n e (p mod pages n).

(** Well-formed entries: 16 children, at least one of them not NULL, and no
    array all of whose pages map to the same block. *)
Fixpoint wf (n : nat) (e : entry) : Prop :=
  match e, n with
  | ENode es, S n' =>
    length es = 16%nat ∧ Exists (λ e, e ≠ ENull) es ∧ Forall (wf n') es ∧
    (∀ b, ∃ p, 0 ≤ p < pages n ∧ flookup n' es p ≠ Some b)
  | ENode _, O => False
  | _, _ => True
  end.

(** Number of child arrays below an entry. *)
Fixpoint nodes (e : entry) : Z :=
  match e with
  | ENode es => 1 + (fix go l := match l with [] => 0 | c :: l => nodes c + go l end) es
  | _ => 0
  end.
Fixpoint nodes_l (l : list entry) : Z :=
  match l with [] => 0 | c :: l => nodes c + nodes_l l end.

Lemma nodes_ENode es : nodes (ENode es) = 1 + nodes_l es.
Proof. done. Qed.

Lemma nodes_l_insert (l : list entry) i e e' :
  l !! i = Some e → nodes_l (<[i := e']> l) = nodes_l l - nodes e + nodes e'.
Proof.
  revert i; induction l as [|c l IH]; intros [|i] H; simpl in *; simplify_eq; [lia|].
  rewrite IH by done. lia.
Qed.

Lemma nodes_l_null k : nodes_l (replicate k ENull) = 0.
Proof. induction k; simpl; lia. Qed.

(** ** Arithmetic of pages *)

Lemma pages_pos n : 0 < pages n.
Proof. unfold pages. lia. Qed.
#[local] Hint Resolve pages_pos : pmem.

Lemma pages_S n : pages (S n) = 16 * pages n.
Proof. unfold pages. rewrite Nat2Z.inj_succ, Z.pow_succ_r; lia. Qed.

Lemma page_split n i q : 0 ≤ q < pages n → (i * pages n + q) / pages n = i ∧ (i * pages n + q) mod pages n = q.
Proof.
  intros Hq. pose proof (pages_pos n). split.
  - rewrite Z.div_add_l by lia. rewrite Z.div_small by lia. lia.
  - rewrite Z.add_comm, Z.mod_add by lia. by apply Z.mod_small.
Qed.

Lemma page_eq n p : p = p / pages n * pages n + p mod pages n.
Proof. pose proof (pages_pos n). rewrite Z.mul_comm. apply Z.div_mod. lia. Qed.

Lemma page_idx n p : 0 ≤ p < pages (S n) → 0 ≤ p / pages n < 16.
Proof.
  rewrite pages_S. intros. pose proof (pages_pos n).
  split; [apply Z.div_pos; lia|apply Z.div_lt_upper_bound; lia].
Qed.

Lemma page_off n p : 0 ≤ p mod pages n < pages n.
Proof. apply Z.mod_pos_bound, pages_pos. Qed.

Lemma flookup_at n es i q : 0 ≤ i → 0 ≤ q < pages n →
  flookup n es (i * pages n + q) = es !! Z.to_nat i ≫= λ e, elookup n e q.
Proof. intros Hi Hq. unfold flookup. by destruct (page_split n i q Hq) as [-> ->]. Qed.

Lemma elookup_Node n es p : elookup (S n) (ENode es) p = flookup n es p.
Proof. done. Qed.

Lemma flookup_insert n es i e p : length es = 16%nat → 0 ≤ i < 16 → 0 ≤ p < pages (S n) →
  flookup n (<[Z.to_nat i := e]> es) p =
  if decide (i * pages n ≤ p < (i + 1) * pages n) then elookup n e (p - i * pages n)
  else flookup n es p.
Proof.
  intros Hl Hi Hp. pose proof (page_idx _ _ Hp) as Hd. pose proof (page_off n p) as Ho.
  pose proof (page_eq n p) as He. pose proof (pages_pos n) as Hpos. unfold flookup.
  case_decide as Hin.
  - assert (p / pages n = i) as Hpi by nia.
    rewrite Hpi, list_lookup_insert_eq by lia. simpl. f_equal. nia.
  - rewrite list_lookup_insert_ne; [done|].
    intros Heq. apply Hin. assert (p / pages n = i) as Hpi by lia. nia.
Qed.

(** ** Facts on well-formed entries *)

Lemma wf_nonnull n e : wf n e → e ≠ ENull → ∃ p b, 0 ≤ p < pages n ∧ elookup n e p = Some b.
Proof.
  revert e; induction n as [|n IH]; intros [|b|es] Hwf Hne; try done.
  - exists 0, b. split; [unfold pages; simpl; lia|done].
  - exists 0, b. split; [pose proof (pages_pos (S n)); lia|done].
  - destruct Hwf as (Hl & Hex & Hall & _).
    apply Exists_exists in Hex as (e & Hin & He).
    apply list_elem_of_lookup in Hin as [i Hi].
    pose proof (lookup_lt_Some _ _ _ Hi) as Hlt. rewrite Hl in Hlt.
    pose proof (proj1 (Forall_lookup _ _) Hall _ _ Hi) as Hwfe.
    destruct (IH e Hwfe He) as (p & b & Hp & Hb).
    exists (Z.of_nat i * pages n + p), b. split; [rewrite pages_S; nia|].
    rewrite elookup_Node, flookup_at by lia. rewrite Nat2Z.id, Hi. done.
Qed.

Lemma wf_all_none n e : wf n e → (∀ p, 0 ≤ p < pages n → elookup n e p = None) → e = ENull.
Proof.
  intros Hwf Hn. destruct e as [|b|es]; [done|..].
  - pose proof (pages_pos n). specialize (Hn 0 ltac:(lia)). by destruct n.
  - destruct (wf_nonnull n (ENode es) Hwf) as (p & b & Hp & Hb); [done|].
    rewrite Hn in Hb by done. done.
Qed.

Lemma forallb_is_null es : forallb is_null es = true ↔ Forall (eq ENull) es.
Proof.
  rewrite forallb_forall, Forall_forall.
  setoid_rewrite <-list_elem_of_In || idtac.
  split; intros H x Hx; specialize (H x Hx); by destruct x.
Qed.

(** ** [set_range] *)

Section set_range.
Variable calloc_ok : nat → bool.
Implicit Types (d : dram) (es : list entry) (e : entry).

Abbreviation U := MIN_BLOCK_SIZE.

(** When a range of pages may be set to [block]: to insert a block the range
    must be free and the block not present; to clear it, the range must be the
    set of pages of one block. *)
Definition writable (n : nat) es (block : option bptr) (po pr : Z) : Prop :=
  match block with
  | Some b =>
    (∀ p, po ≤ p < po + pr → flookup n es p = None) ∧
    (0 < pr → ∀ p, po / pages n * pages n ≤ p < pages (S n) → flookup n es p ≠ Some b)
  | None =>
    ∃ b, (∀ p, po ≤ p < po + pr → flookup n es p = Some b) ∧
      (∀ p, 0 ≤ p < pages (S n) → ¬ (po ≤ p < po + pr) → flookup n es p ≠ Some b)
  end.

(** The effect of [set_range] on the page map. *)
Definition range_set (n : nat) es es' (block : option bptr) (po pr : Z) : Prop :=
  ∀ p, 0 ≤ p < pages (S n) →
    flookup n es' p = if decide (po ≤ p < po + pr) then block else flookup n es p.

Definition set_range_post (n : nat) es (block : option bptr) (po pr : Z) d
    (r : Z * list entry) (d' : dram) : Prop :=
  let '(ret, es') := r in
  length es' = 16%nat ∧ (ret = 0 ∨ ret = 1) ∧
  ((∀ k, calloc_ok k = true) ∨ block = None → ret = 0) ∧
  dram_live d' - nodes_l es' = dram_live d - nodes_l es ∧
  (ret = 0 → Forall (wf n) es' ∧ range_set n es es' block po pr).

Lemma wp_check_and_allocate_range n e d :
  wf n e → (∀ b, e ≠ ELeaf b) →
  wp (check_and_allocate_range calloc_ok e) (λ '(ret, e') d',
     dram_live d' - nodes e' = dram_live d - nodes e ∧
     ((ret = 0 ∧ ∃ es, e' = ENode es ∧ (e = ENode es ∨ e = ENull ∧ es = no_children))
      ∨ ret = 1 ∧ e = ENull ∧ e' = ENull ∧ calloc_ok (dram_tick d) = false)) noabort d.
Proof.
  intros Hwf Hnl. unfold check_and_allocate_range. destruct e as [|b|es].
  - unfold wp, pf_calloc, mbind, M_bind. destruct (calloc_ok _) eqn:Hok; simpl; [|split; [lia|by right]].
    split; [lia|]. left. split; [done|]. by exists no_children; auto.
  - by destruct (Hnl b).
  - wp_steps. split; [lia|]. left. naive_solver.
Qed.

Lemma wp_check_and_free_range es d :
  wp (check_and_free_range (ENode es)) (λ e' d',
     dram_live d' - nodes e' = dram_live d - nodes (ENode es) ∧
     (e' = ENull ∧ Forall (eq ENull) es ∨
      e' = ENode es ∧ Exists (λ e, e ≠ ENull) es)) noabort d.
Proof.
  unfold check_and_free_range. destruct (forallb is_null es) eqn:Hall.
  - apply forallb_is_null in Hall. wp_steps. split; [|by left].
    rewrite nodes_ENode; simpl.
    assert (nodes_l es = 0) as ->; [|lia].
    clear d. induction Hall as [|? ? <- _ IH]; simpl; lia.
  - wp_steps. split; [lia|]. right. split; [done|].
    apply not_true_iff_false in Hall. rewrite forallb_is_null in Hall.
    apply not_Forall_Exists in Hall; [|intros []; (left; done) || (right; done)].
    revert Hall. eapply List.Exists_impl. intros ? H ->. by apply H.
Qed.

Lemma flookup_no_children n p : flookup n no_children p = None.
Proof.
  unfold flookup, no_children. destruct (replicate _ _ !! _) eqn:H; [|done].
  apply lookup_replicate in H as [-> _]. by destruct n.
Qed.

Lemma Forall_wf_no_children n : Forall (wf n) no_children.
Proof. apply Forall_replicate. by destruct n. Qed.

Lemma flookup_all_null n es p : Forall (eq ENull) es → flookup n es p = None.
Proof.
  intros H. unfold flookup. destruct (es !! _) as [e|] eqn:He; [|done].
  rewrite Forall_lookup in H. specialize (H _ _ He). subst e. by destruct n.
Qed.

Lemma flookup_some_nonnull n es p b : flookup n es p = Some b → Exists (λ e, e ≠ ENull) es.
Proof.
  unfold flookup. destruct (es !! _) as [e|] eqn:He; [simpl|done]. intros Hb.
  apply Exists_exists. exists e. split; [by eapply list_elem_of_lookup_2|].
  intros ->. by destruct n.
Qed.

(** The pages of the [i]-th entry of an array. *)
Lemma flookup_entry n es i e q : es !! Z.to_nat i = Some e → 0 ≤ i → 0 ≤ q < pages n →
  flookup n es (i * pages n + q) = elookup n e q.
Proof. intros He Hi Hq. rewrite flookup_at by done. by rewrite He. Qed.

(** The case of an entry that the block covers entirely. *)
Lemma set_range_whole n es i block e po pr :
  length es = 16%nat → 0 ≤ i < 16 → es !! Z.to_nat i = Some e → Forall (wf n) es →
  po = i * pages n → pages n ≤ pr → po + pr ≤ pages (S n) →
  writable n es block po pr →
  let es' := <[Z.to_nat i := entry_of block]> es in
  Forall (wf n) es' ∧ nodes_l es' = nodes_l es ∧
  range_set n es es' block po (pages n) ∧
  writable n es' block (po + pages n) (pr - pages n).
Proof.
  intros Hlen Hi He Hwf -> Hpr Hbnd Hw es'. pose proof (pages_pos n) as Hpos.
  assert (Hset : range_set n es es' block (i * pages n) (pages n)).
  { intros p Hp. unfold es'. rewrite flookup_insert by done.
    rewrite Z.mul_add_distr_r, Z.mul_1_l. case_decide; [|done]. destruct block; by destruct n. }
  assert (Hwfe : wf n e) by (by eapply (proj1 (Forall_lookup _ _) Hwf)).
  split_and!; [| |done|].
  - apply Forall_insert; [done|]. destruct block; by destruct n.
  - unfold es'. rewrite (nodes_l_insert _ _ e) by done.
    destruct e as [|b|ch]; [destruct block; simpl; lia..|].
    exfalso. destruct block as [b|].
    + destruct (wf_nonnull n (ENode ch)) as (p & b' & Hp & Hb'); [done|done|].
      destruct Hw as [Hw _]. rewrite <-(flookup_entry _ _ _ _ _ He) in Hb' by lia.
      rewrite Hw in Hb' by lia. done.
    + destruct n as [|n]; [done|]. destruct Hwfe as (_ & _ & _ & Huni).
      destruct Hw as (b & Hw & _). destruct (Huni b) as (q & Hq & Hnb). apply Hnb.
      rewrite <-elookup_Node, <-(flookup_entry _ _ _ _ _ He) by lia. apply Hw. lia.
  - destruct block as [b|]; simpl in *.
    + destruct Hw as [Hw1 Hw2]. split; [intros p Hp|intros Hpr' p Hp].
      * rewrite Hset, decide_False by lia. apply Hw1. lia.
      * replace (i * pages n + pages n) with ((i + 1) * pages n) in Hp by lia.
        rewrite Z.div_mul in Hp by lia. rewrite Z.div_mul in Hw2 by lia.
        rewrite Hset, decide_False by lia. apply Hw2; lia.
    + destruct Hw as (b & Hw1 & Hw2). exists b. split; intros p Hp.
      * rewrite Hset, decide_False by lia. apply Hw1. lia.
      * intros Hn. rewrite Hset by lia. case_decide; [done|]. apply Hw2; lia.
Qed.

(** The case of an entry that the block covers in part: what holds of its
    children before the recursive call ... *)
Lemma set_range_part_pre n es i block e ch po pr :
  length es = 16%nat → 0 ≤ i < 16 → es !! Z.to_nat i = Some e → Forall (wf (S n)) es →
  i = po / pages (S n) → 0 ≤ po → 0 < pr → po + pr ≤ pages (S (S n)) →
  ¬ (po mod pages (S n) = 0 ∧ pages (S n) ≤ pr) →
  writable (S n) es block po pr →
  (e = ENode ch ∨ e = ENull ∧ ch = no_children) →
  let so := po mod pages (S n) in let sr := Z.min pr (pages (S n) - so) in
  length ch = 16%nat ∧ Forall (wf n) ch ∧
  (∀ q, 0 ≤ q < pages (S n) → flookup n ch q = flookup (S n) es (i * pages (S n) + q)) ∧
  writable n ch block so sr.
Proof.
  intros Hlen Hi He Hwf Hidx Hpo Hpr Hbnd Hpart Hw Hch so sr.
  pose proof (pages_pos (S n)) as Hpos. pose proof (page_eq (S n) po) as Hpe.
  pose proof (page_off (S n) po) as Hoff. fold so in Hpe, Hoff, Hpart. rewrite <-Hidx in Hpe.
  assert (wf (S n) e) as Hwfe by (by eapply (proj1 (Forall_lookup _ _) Hwf)).
  assert (Hlk : ∀ q, 0 ≤ q < pages (S n) → flookup n ch q = flookup (S n) es (i * pages (S n) + q)).
  { intros q Hq. rewrite (flookup_entry _ _ _ _ _ He) by lia.
    destruct Hch as [->|[-> ->]]; [done|]. by rewrite flookup_no_children. }
  split_and!; [..|done|].
  - destruct Hch as [->|[-> ->]]; [by destruct Hwfe|done].
  - destruct Hch as [->|[-> ->]]; [by destruct Hwfe as (_ & _ & ? & _)|apply Forall_wf_no_children].
  - destruct block as [b|]; simpl in *.
    + destruct Hw as [Hw1 Hw2]. rewrite <-Hidx in Hw2. split; [intros p Hp|intros _ p Hp].
      * rewrite Hlk by lia. apply Hw1. lia.
      * pose proof (pages_pos n). assert (0 ≤ so / pages n) by (apply Z.div_pos; lia).
        rewrite Hlk by nia. apply Hw2; [done|]. rewrite (pages_S (S n)). nia.
    + destruct Hw as (b & Hw1 & Hw2). exists b. split; intros p Hp.
      * rewrite Hlk by lia. apply Hw1. lia.
      * intros Hn. rewrite Hlk by lia. apply Hw2; rewrite ?(pages_S (S n)); nia.
Qed.

(** ... and what holds of the array after it. *)
Lemma set_range_part_post n es i block e e' ch' po pr :
  length es = 16%nat → 0 ≤ i < 16 → es !! Z.to_nat i = Some e → Forall (wf (S n)) es →
  i = po / pages (S n) → 0 ≤ po → 0 < pr → po + pr ≤ pages (S (S n)) →
  ¬ (po mod pages (S n) = 0 ∧ pages (S n) ≤ pr) →
  writable (S n) es block po pr →
  let so := po mod pages (S n) in let sr := Z.min pr (pages (S n) - so) in
  length ch' = 16%nat → Forall (wf n) ch' →
  (∀ q, 0 ≤ q < pages (S n) → flookup n ch' q =
     if decide (so ≤ q < so + sr) then block else flookup (S n) es (i * pages (S n) + q)) →
  (e' = ENode ch' ∧ Exists (λ e, e ≠ ENull) ch' ∨
   e' = ENull ∧ block = None ∧ Forall (eq ENull) ch') →
  let es' := <[Z.to_nat i := e']> es in
  Forall (wf (S n)) es' ∧ range_set (S n) es es' block po sr ∧
  writable (S n) es' block (po + sr) (pr - sr).
Proof.
  intros Hlen Hi He Hwf Hidx Hpo Hpr Hbnd Hpart Hw so sr Hlen' Hwf' Hlk' He' es'.
  pose proof (pages_pos (S n)) as Hpos. pose proof (page_eq (S n) po) as Hpe.
  pose proof (page_off (S n) po) as Hoff. fold so in Hpe, Hoff, Hpart. rewrite <-Hidx in Hpe.
  pose proof (pages_S (S n)) as HSS.
  assert (Hlke : ∀ q, 0 ≤ q < pages (S n) → elookup (S n) e' q = flookup n ch' q).
  { intros q Hq. destruct He' as [[-> _]|(-> & -> & Hnull)]; [done|]. by rewrite flookup_all_null. }
  assert (Hset : range_set (S n) es es' block po sr).
  { intros p Hp. unfold es'. rewrite flookup_insert by done. case_decide.
    - rewrite Hlke, Hlk' by lia. replace (i * pages (S n) + (p - i * pages (S n))) with p by lia.
      repeat case_decide; try done; lia.
    - rewrite decide_False by lia. done. }
  split_and!; [|done|].
  - apply Forall_insert; [done|]. destruct He' as [[-> Hex]|(-> & _)]; [|done].
    split_and!; [done..|]. intros b.
    assert (∃ q, 0 ≤ q < pages (S n) ∧ ¬ (so ≤ q < so + sr)) as (q & Hq & Hqn).
    { destruct (decide (so = 0)); [exists (pages (S n) - 1)|exists 0]; lia. }
    assert (0 ≤ so < pages (S n) ∧ so < so + sr) as [Hso Hsr] by lia.
    destruct (decide (block = Some b)) as [->|Hne].
    + exists q. split; [done|]. rewrite Hlk', decide_False by lia.
      destruct Hw as [_ Hw]. apply Hw; nia.
    + exists so. split; [done|]. rewrite Hlk', decide_True by lia. done.
  - destruct block as [b|]; simpl in *.
    + destruct Hw as [Hw1 Hw2]. split; [intros p Hp|intros Hpr' p Hp].
      * rewrite Hset, decide_False by lia. apply Hw1. lia.
      * replace (po + sr) with ((i + 1) * pages (S n)) in Hp by lia.
        rewrite Z.div_mul in Hp by lia. rewrite <-Hidx in Hw2.
        rewrite Hset, decide_False by lia. apply Hw2; lia.
    + destruct Hw as (b & Hw1 & Hw2). exists b. split; intros p Hp.
      * rewrite Hset, decide_False by lia. apply Hw1. lia.
      * intros Hn. rewrite Hset by lia. case_decide; [done|]. apply Hw2; lia.
Qed.

Lemma range_set_trans n es es1 es2 block po a pr : 0 ≤ a ≤ pr →
  range_set n es es1 block po a → range_set n es1 es2 block (po + a) (pr - a) →
  range_set n es es2 block po pr.
Proof.
  intros Ha H1 H2 p Hp. rewrite H2, H1 by done. repeat case_decide; try done; lia.
Qed.

Lemma set_range_post_step n es es1 block po a pr d d1 r d' : 0 ≤ a ≤ pr →
  range_set n es es1 block po a →
  dram_live d1 - nodes_l es1 = dram_live d - nodes_l es →
  set_range_post n es1 block (po + a) (pr - a) d1 r d' →
  set_range_post n es block po pr d r d'.
Proof.
  intros Ha Hset Hlive. destruct r as [ret es']. unfold set_range_post.
  intros (? & ? & ? & Hl & Hr). split_and!; [done..|lia|].
  intros Hret. destruct (Hr Hret). split; [done|]. by eapply range_set_trans.
Qed.

(** A leaf is never split by a range that may be written. *)
Lemma writable_not_leaf n es i block b po pr :
  0 ≤ i < 16 → es !! Z.to_nat i = Some (ELeaf b) →
  i = po / pages n → 0 ≤ po → 0 < pr → po + pr ≤ pages (S n) →
  writable n es block po pr → po mod pages n = 0 ∧ pages n ≤ pr.
Proof.
  intros Hi He Hidx Hpo Hpr Hbnd Hw.
  pose proof (pages_pos n) as Hpos. pose proof (page_eq n po) as Hpe.
  pose proof (page_off n po) as Hoff. pose proof (pages_S n) as HS. rewrite <-Hidx in Hpe.
  assert (Hlk : ∀ q, 0 ≤ q < pages n → flookup n es (i * pages n + q) = Some b).
  { intros q Hq. rewrite (flookup_entry _ _ _ _ _ He) by lia. by destruct n. }
  pose proof (Hlk _ Hoff) as Hb. rewrite <-Hpe in Hb.
  destruct block as [b'|]; simpl in Hw.
  - destruct Hw as [Hw _]. rewrite Hw in Hb by lia. done.
  - destruct Hw as (b' & Hw1 & Hw2). rewrite Hw1 in Hb by lia. injection Hb as ->.
    split.
    + destruct (decide (po mod pages n = 0)); [done|]. exfalso.
      apply (Hw2 (i * pages n + 0)); [nia..|]. apply Hlk. lia.
    + destruct (decide (pages n ≤ pr)); [done|]. exfalso.
      destruct (decide (po mod pages n = 0)) as [Hz|Hz].
      * apply (Hw2 (i * pages n + (pages n - 1))); [nia..|]. apply Hlk. lia.
      * apply (Hw2 (i * pages n + 0)); [nia..|]. apply Hlk. lia.
Qed.

(** What the loop promises with a given fuel. *)
Definition loop_spec (fuel : nat) (block : option bptr) : Prop :=
  ∀ n es i po pr d,
  length es = 16%nat → Forall (wf n) es → 0 ≤ i ≤ 16 → 0 ≤ po → 0 ≤ pr →
  po + pr ≤ pages (S n) → (0 < pr → i = po / pages n) →
  writable n es block po pr →
  17 * Z.of_nat n + (17 - i) ≤ Z.of_nat fuel →
  wp (set_range_loop calloc_ok fuel es i block (po * U) (pr * U) (pages n * U))
     (set_range_post n es block po pr d) noabort d.

Lemma sub_range_eq n : Z.shiftr (pages (S n) * U) N_CHILDREN_POW = pages n * U.
Proof.
  rewrite Z.shiftr_div_pow2, pages_S by done. change (2 ^ N_CHILDREN_POW) with 16.
  replace (16 * pages n * U) with (pages n * U * 16) by lia. by rewrite Z.div_mul.
Qed.

Lemma sub_remaining_eq n po pr :
  (if pr * U <? pages n * U - po mod pages n * U then pr * U
   else pages n * U - po mod pages n * U) = Z.min pr (pages n - po mod pages n) * U.
Proof. unfold U, MIN_BLOCK_SIZE. case_match; b2p; lia. Qed.

Lemma whole_range_iff n po pr :
  ((po * U) mod (pages n * U) =? 0) && (pages n * U <=? pr * U) = true ↔
  po mod pages n = 0 ∧ pages n ≤ pr.
Proof.
  pose proof (pages_pos n).
  rewrite Z.mul_mod_distr_r, andb_true_iff, Z.eqb_eq, Z.leb_le by (unfold U; lia).
  unfold U, MIN_BLOCK_SIZE. lia.
Qed.

(** The rest of an iteration after the recursive call on the children. *)
Lemma set_range_loop_tail fuel block n es i e ch' po pr d d2 :
  loop_spec fuel block →
  length es = 16%nat → 0 ≤ i < 16 → es !! Z.to_nat i = Some e → Forall (wf (S n)) es →
  i = po / pages (S n) → 0 ≤ po → 0 < pr → po + pr ≤ pages (S (S n)) →
  ¬ (po mod pages (S n) = 0 ∧ pages (S n) ≤ pr) →
  writable (S n) es block po pr →
  17 * Z.of_nat (S n) + (17 - i) ≤ Z.of_nat (S fuel) →
  let so := po mod pages (S n) in let sr := Z.min pr (pages (S n) - so) in
  length ch' = 16%nat → Forall (wf n) ch' →
  (∀ q, 0 ≤ q < pages (S n) → flookup n ch' q =
     if decide (so ≤ q < so + sr) then block else flookup (S n) es (i * pages (S n) + q)) →
  dram_live d2 - nodes (ENode ch') = dram_live d - nodes e →
  wp (e ← match block with
          | None => check_and_free_range (ENode ch')
          | Some _ => mret (ENode ch')
          end;
      set_range_loop calloc_ok fuel (<[Z.to_nat i := e]> es) (i + 1) block
        (po * U + sr * U) (pr * U - sr * U) (pages (S n) * U))
     (set_range_post (S n) es block po pr d) noabort d2.
Proof.
  intros IH Hlen Hi He Hwf Hidx Hpo Hpr Hbnd Hpart Hw Hfuel so sr Hlen' Hwf' Hlk' Hlive.
  pose proof (page_off (S n) po) as Hoff. pose proof (page_eq (S n) po) as Hpe.
  fold so in Hpe, Hoff, Hpart. rewrite <-Hidx in Hpe.
  eapply (wp_seq _ _ (λ e' d3,
    dram_live d3 - nodes e' = dram_live d2 - nodes (ENode ch') ∧
    (e' = ENode ch' ∧ Exists (λ e, e ≠ ENull) ch' ∨
     e' = ENull ∧ block = None ∧ Forall (eq ENull) ch'))).
  { destruct block as [b|].
    - wp_steps. split; [done|]. left. split; [done|].
      apply (flookup_some_nonnull n _ so b). rewrite Hlk', decide_True by lia. done.
    - eapply wp_conseq; [apply wp_check_and_free_range|].
      intros e' d3 [Hl3 Hc3]. destruct Hc3 as [[-> Hn3]|[-> Hn3]]; auto. }
  intros e' d3 [Hlive3 He'].
  destruct (set_range_part_post n es i block e e' ch' po pr) as (Hwf3 & Hset3 & Hw3); try done.
  fold so in Hset3, Hw3. fold sr in Hset3, Hw3.
  rewrite <-Z.mul_add_distr_r, <-Z.mul_sub_distr_r.
  eapply wp_conseq; [eapply IH|].
  all: try (rewrite ?length_insert; done || lia).
  - intros Hlt. replace (po + sr) with ((i + 1) * pages (S n)) by lia.
    rewrite Z.div_mul by lia. done.
  - intros r d' Hpost. eapply set_range_post_step; [|exact Hset3| |exact Hpost]; [lia|].
    rewrite (nodes_l_insert _ _ e) by done. lia.
Qed.

(** An iteration on an entry covered in part. *)
Lemma set_range_loop_part fuel block n es i e po pr d :
  loop_spec fuel block →
  length es = 16%nat → 0 ≤ i < 16 → es !! Z.to_nat i = Some e → Forall (wf (S n)) es →
  i = po / pages (S n) → 0 ≤ po → 0 < pr → po + pr ≤ pages (S (S n)) →
  ¬ (po mod pages (S n) = 0 ∧ pages (S n) ≤ pr) →
  writable (S n) es block po pr →
  17 * Z.of_nat (S n) + (17 - i) ≤ Z.of_nat (S fuel) →
  wp (set_range_loop calloc_ok (S fuel) es i block (po * U) (pr * U) (pages (S n) * U))
     (set_range_post (S n) es block po pr d) noabort d.
Proof.
  intros IH Hlen Hi He Hwf Hidx Hpo Hpr Hbnd Hpart Hw Hfuel. cbn [set_range_loop].
  destruct (0 <? pr * U) eqn:Hlt; [|unfold U in Hlt; b2p; lia].
  rewrite He. wp_steps.
  pose proof (pages_pos n) as Hposn. pose proof (page_off (S n) po) as Hoff.
  destruct (_ && _) eqn:Hb; [by apply whole_range_iff in Hb|]. clear Hb.
  assert (wf (S n) e) as Hwfe by (by eapply (proj1 (Forall_lookup _ _) Hwf)).
  eapply wp_seq; [eapply (wp_check_and_allocate_range (S n)); [done|]|].
  { intros b ->. apply Hpart. by eapply (writable_not_leaf (S n)). }
  intros [ret e1] d1 [Hlive1 Hc]. cbn beta iota in Hlive1, Hc |- *.
  destruct Hc as [(-> & ch & -> & Hch)|(-> & -> & -> & Hfail)]; last first.
  { cbn [Z.eqb negb]. wp_steps. unfold set_range_post. rewrite length_insert.
    rewrite list_insert_id by done.
    split_and!; [done|by right| |lia|done]. intros [Hall | ->]; [by rewrite Hall in Hfail|].
    destruct Hw as (b & Hw & _). pose proof (page_eq (S n) po) as Hpe. rewrite <-Hidx in Hpe.
    specialize (Hw po ltac:(lia)). rewrite Hpe, (flookup_entry _ _ _ _ _ He) in Hw by lia. done. }
  destruct (set_range_part_pre n es i block e ch po pr) as (Hlch & Hwfch & Hlkch & Hwch); [done..|].
  rewrite Z.eqb_refl. cbn [negb children_of]. wp_steps.
  rewrite sub_range_eq, Z.mul_mod_distr_r, sub_remaining_eq by (unfold U; lia).
  destruct (pages n * U =? 0) eqn:Hz; [unfold U in Hz; b2p; lia|]. clear Hz.
  rewrite Z.div_mul_cancel_r by (unfold U; lia).
  assert (0 ≤ (po mod pages (S n)) / pages n < 16) by (apply page_idx; lia).
  eapply wp_seq; [eapply IH; try done; try lia|].
  intros [ret ch'] d2 (Hlch' & Hret & Hok & Hlive2 & Hpost2). cbn beta iota.
  rewrite nodes_ENode in Hlive1.
  destruct Hret as [-> | ->]; last first.
  { cbn [Z.eqb negb]. wp_steps. unfold set_range_post.
    rewrite length_insert, (nodes_l_insert _ _ e), nodes_ENode by done.
    split_and!; [done|by right|by intros Hall%Hok|lia|done]. }
  rewrite Z.eqb_refl. cbn [negb]. destruct (Hpost2 eq_refl) as [Hwf' Hset'].
  eapply set_range_loop_tail; try done.
  - intros q Hq. rewrite Hset' by lia. by rewrite Hlkch.
  - rewrite nodes_ENode. lia.
Qed.

Lemma set_range_loop_ok fuel block : loop_spec fuel block.
Proof.
  induction fuel as [|fuel IH]; [intros ?; lia|].
  intros n es i po pr d Hlen Hwf Hi Hpo Hpr Hbnd Hidx Hw Hfuel.
  pose proof (pages_pos n) as Hpos.
  destruct (decide (pr = 0)) as [->|Hpr0].
  { cbn [set_range_loop]. destruct (0 <? 0 * U) eqn:Hlt; [unfold U in Hlt; b2p; lia|].
    wp_steps. unfold set_range_post.
    split_and!; try done; [by left|]. intros _. split; [done|]. intros p Hp.
    rewrite decide_False by lia. done. }
  specialize (Hidx ltac:(lia)).
  assert (0 ≤ i < 16) as Hi' by (rewrite Hidx; apply page_idx; lia).
  destruct (lookup_lt_is_Some_2 es (Z.to_nat i)) as [e He]; [lia|].
  destruct (decide (po mod pages n = 0 ∧ pages n ≤ pr)) as [Hwhole|Hpart].
  - cbn [set_range_loop]. destruct (0 <? pr * U) eqn:Hlt; [|unfold U in Hlt; b2p; lia].
    rewrite He. wp_steps. rewrite (proj2 (whole_range_iff n po pr) Hwhole).
    destruct Hwhole as [Hmod Hle].
    assert (po = i * pages n) as Hpoi by (pose proof (page_eq n po); lia).
    destruct (set_range_whole n es i block e po pr) as (Hwf1 & Hn1 & Hset1 & Hw1); [done..|].
    rewrite <-Z.mul_add_distr_r, <-Z.mul_sub_distr_r.
    eapply wp_conseq; [eapply IH|].
    all: try (rewrite ?length_insert; done || lia).
    + intros _. rewrite Hpoi. replace (i * pages n + pages n) with ((i + 1) * pages n) by lia.
      rewrite Z.div_mul by lia. done.
    + intros r d' Hpost. eapply set_range_post_step; [|exact Hset1| |exact Hpost]; lia.
  - destruct n as [|n].
    { exfalso. apply Hpart. unfold pages; simpl. rewrite Z.mod_1_r. lia. }
    eapply set_range_loop_part; done || lia.
Qed.

Lemma wp_set_range n es block po pr d :
  (n < 13)%nat → length es = 16%nat → Forall (wf n) es → 0 ≤ po → 0 < pr →
  po + pr ≤ pages (S n) → writable n es block po pr →
  wp (set_range calloc_ok es block (po * U) (pr * U) (pages n * U))
     (set_range_post n es block po pr d) noabort d.
Proof.
  intros Hn Hlen Hwf Hpo Hpr Hbnd Hw. pose proof (pages_pos n) as Hpos. unfold set_range.
  destruct (pages n * U =? 0) eqn:Hz; [unfold U in Hz; b2p; lia|].
  rewrite Z.div_mul_cancel_r by (unfold U; lia).
  assert (0 ≤ po / pages n < 16) by (apply page_idx; lia).
  apply set_range_loop_ok; try done; try lia. change (Z.of_nat tree_fuel) with 256. lia.
Qed.
End set_range.

(** ** The whole map *)

Definition om_level (m : offset_map) : nat :=
  Z.to_nat ((om_range_length_bits m - MIN_BLOCK_BITS) / N_CHILDREN_POW).

(** The invariant of [struct offset_map]. *)
Record om_wf (m : offset_map) : Prop := {
  om_bits : om_range_length_bits m = MIN_BLOCK_BITS + N_CHILDREN_POW * Z.of_nat (om_level m);
  om_height : (om_level m ≤ 13)%nat;
  om_tree : wf (om_level m) (om_entry m);
  om_root : ∀ b, om_entry m ≠ ELeaf b;
}.

(** The block a page belongs to. *)
Definition om_lookup (m : offset_map) (p : Z) : option bptr :=
  if decide (0 ≤ p < pages (om_level m)) then elookup (om_level m) (om_entry m) p else None.

Lemma om_level_eq e n : om_level (OffsetMap e (MIN_BLOCK_BITS + N_CHILDREN_POW * Z.of_nat n)) = n.
Proof.
  unfold om_level. cbn [om_range_length_bits].
  rewrite Z.add_simpl_l, Z.mul_comm, Z.div_mul by done. lia.
Qed.

Lemma om_wf_intro e n : (n ≤ 13)%nat → wf n e → (∀ b, e ≠ ELeaf b) →
  om_wf (OffsetMap e (MIN_BLOCK_BITS + N_CHILDREN_POW * Z.of_nat n)).
Proof. intros. split; rewrite ?om_level_eq; done. Qed.

(** Every well-formed map has this shape. *)
Lemma om_wf_inv m : om_wf m → ∃ n e,
  m = OffsetMap e (MIN_BLOCK_BITS + N_CHILDREN_POW * Z.of_nat n) ∧ (n ≤ 13)%nat ∧ wf n e ∧
  (∀ b, e ≠ ELeaf b).
Proof.
  intros [Hb Hh Ht Hr]. exists (om_level m), (om_entry m). split_and!; [|done..].
  destruct m as [e bits]; simpl in *. by rewrite <-Hb.
Qed.

Lemma om_lookup_eq e n p :
  om_lookup (OffsetMap e (MIN_BLOCK_BITS + N_CHILDREN_POW * Z.of_nat n)) p =
  if decide (0 ≤ p < pages n) then elookup n e p else None.
Proof. unfold om_lookup. by rewrite om_level_eq. Qed.

Lemma shiftl_bits n :
  Z.shiftl 1 (MIN_BLOCK_BITS + N_CHILDREN_POW * Z.of_nat n) = pages n * MIN_BLOCK_SIZE.
Proof.
  rewrite Z.shiftl_1_l. change MIN_BLOCK_BITS with 14. unfold N_CHILDREN_POW.
  rewrite Z.pow_add_r, Z.pow_mul_r by lia. apply Z.mul_comm.
Qed.

Lemma bits_lt_64 n : MIN_BLOCK_BITS + N_CHILDREN_POW * Z.of_nat n < 64 ↔ (n ≤ 12)%nat.
Proof. change MIN_BLOCK_BITS with 14. unfold N_CHILDREN_POW. lia. Qed.

Lemma pages_13 : pages 13 = 2 ^ 52.
Proof. done. Qed.

Lemma max_map_offset_eq e n : (n ≤ 12)%nat →
  max_map_offset (OffsetMap e (MIN_BLOCK_BITS + N_CHILDREN_POW * Z.of_nat n)) =
  (pages n - 1) * MIN_BLOCK_SIZE.
Proof.
  intros Hn. unfold max_map_offset. cbn [om_range_length_bits].
  apply bits_lt_64 in Hn. apply Z.ltb_lt in Hn. rewrite Hn, shiftl_bits. lia.
Qed.

(** One level up: the old root becomes the first child. *)
Lemma elookup_grow n e p : 0 ≤ p < pages (S n) →
  flookup n (<[0%nat := e]> no_children) p = if decide (p < pages n) then elookup n e p else None.
Proof.
  intros Hp. pose proof (pages_pos n).
  change 0%nat with (Z.to_nat 0). rewrite flookup_insert by (done || lia).
  rewrite flookup_no_children.
  repeat case_decide; try lia; [|done]. by rewrite Z.sub_0_r.
Qed.

Lemma wf_grow n e : wf n e → e ≠ ENull → wf (S n) (ENode (<[0%nat := e]> no_children)).
Proof.
  intros Hwf Hne. pose proof (pages_pos n). split_and!; [done|..].
  - apply Exists_cons_hd. done.
  - apply Forall_insert; [apply Forall_wf_no_children|done].
  - intros b. exists (pages n). rewrite pages_S. split; [lia|].
    rewrite elookup_grow, decide_False by (rewrite ?pages_S; lia). done.
Qed.

Section map_operations.
Variable calloc_ok : nat → bool.
Implicit Types (d : dram) (m : offset_map).

Lemma wp_add_new_level e n d :
  (n ≤ 12)%nat → wf n e → (∀ b, e ≠ ELeaf b) →
  wp (add_new_level calloc_ok (OffsetMap e (MIN_BLOCK_BITS + N_CHILDREN_POW * Z.of_nat n)))
    (λ '(ret, m') d',
      dram_live d' - nodes (om_entry m') = dram_live d - nodes e ∧
      (e = ENull → d' = d) ∧
      (ret = 1 ∧ e ≠ ENull ∧ calloc_ok (dram_tick d) = false ∨
       ret = 0 ∧ om_wf m' ∧ (e = ENull ↔ om_entry m' = ENull) ∧
       om_range_length_bits m' = MIN_BLOCK_BITS + N_CHILDREN_POW * Z.of_nat (S n) ∧
       ∀ p, om_lookup m' p =
         om_lookup (OffsetMap e (MIN_BLOCK_BITS + N_CHILDREN_POW * Z.of_nat n)) p)) noabort d.
Proof.
  intros Hn Hwf Hnl. pose proof (pages_pos n) as Hpos. pose proof (pages_S n) as HS.
  unfold add_new_level. cbn [om_range_length_bits om_entry].
  pose proof (proj2 (bits_lt_64 n) Hn) as Hbits.
  destruct (64 <? _) eqn:Hlt; [b2p; lia|]. clear Hlt.
  replace (MIN_BLOCK_BITS + N_CHILDREN_POW * Z.of_nat n + N_CHILDREN_POW)
    with (MIN_BLOCK_BITS + N_CHILDREN_POW * Z.of_nat (S n)) by lia.
  destruct e as [|b|es]; [..|].
  - wp_steps. split_and!; [done..|]. right. split_and!; try done; [apply om_wf_intro; done || lia|].
    intros p. rewrite !om_lookup_eq. repeat case_decide; try done; by destruct n.
  - by destruct (Hnl b).
  - unfold wp, pf_calloc, mbind, M_bind. destruct (calloc_ok (dram_tick d)) eqn:Hok; cbn [mret M_ret om_entry dram_live]; last first.
    { split_and!; [lia|done|]. by left. }
    split_and!; [|done|].
    { rewrite (nodes_ENode (<[_ := _]> _)), (nodes_l_insert _ _ ENull) by done.
      unfold no_children. rewrite nodes_l_null. change (nodes ENull) with 0. lia. }
    right. split_and!; try done.
    + apply om_wf_intro; [lia|by apply wf_grow|done].
    + intros p. rewrite !om_lookup_eq. rewrite elookup_Node.
      repeat case_decide; try done; [..|lia].
      * rewrite elookup_grow, decide_True by lia. done.
      * rewrite elookup_grow, decide_False by lia. done.
Qed.

Lemma wp_add_levels fuel m block_end d :
  om_wf m → (13 - om_level m < fuel)%nat →
  wp (add_levels calloc_ok fuel m block_end)
    (λ '(ret, m') d',
      dram_live d' - nodes (om_entry m') = dram_live d - nodes (om_entry m) ∧
      (om_entry m = ENull → ret = 0 ∧ d' = d ∧ om_entry m' = ENull) ∧
      (ret = 0 ∨ ret = 1) ∧ ((∀ k, calloc_ok k = true) → ret = 0) ∧
      (ret = 0 → om_wf m' ∧ (om_entry m' = ENull → om_entry m = ENull) ∧
        (om_level m' = 13%nat ∨ block_end < pages (om_level m') * MIN_BLOCK_SIZE) ∧
        ∀ p, om_lookup m' p = om_lookup m p)) noabort d.
Proof.
  revert m d. induction fuel as [|fuel IH]; [lia|]. intros m d Hm Hfuel.
  destruct (om_wf_inv m Hm) as (n & e & -> & Hn & Hwf & Hnl). cbn [add_levels om_entry].
  cbn [om_range_length_bits]. rewrite om_level_eq in Hfuel.
  destruct (_ <? 64) eqn:Hbits; cbn [andb]; b2p; last first.
  { wp_steps. split_and!; try done; [by left|]. intros _. split_and!; try done.
    left. rewrite om_level_eq. rewrite <-Z.nlt_ge, bits_lt_64 in Hbits. lia. }
  apply bits_lt_64 in Hbits. rewrite max_map_offset_eq by done.
  destruct (_ <=? block_end) eqn:Hend; b2p; last first.
  { wp_steps. split_and!; try done; [by left|]. intros _. split_and!; try done.
    right. rewrite om_level_eq. lia. }
  eapply wp_seq; [by apply wp_add_new_level|].
  intros [ret m1] d1 (Hlive1 & Hd1 & Hc). cbn beta iota.
  destruct Hc as [(-> & Hne & Hfail)|(-> & Hwf1 & Hnull & Hb1 & Hlk1)].
  { cbn [Z.eqb negb]. wp_steps. split_and!; try done; [by right|].
    intros Hok. by rewrite Hok in Hfail. }
  cbn [Z.eqb negb]. eapply wp_conseq; [apply IH; [done|]|].
  { destruct m1 as [e1 bits1]. cbn in Hb1. subst bits1. rewrite om_level_eq. lia. }
  intros [ret m2] d2 (Hlive2 & Hd2 & Hret & Hok & Hr). cbn beta iota in *.
  split_and!; [lia| |done|done|].
  - intros He. destruct Hd2 as (-> & -> & ->); [by apply Hnull|]. split_and!; auto.
  - intros Hr0. destruct (Hr Hr0) as (? & ? & ? & Hlk2). split_and!; [done|tauto|done|].
    intros p. by rewrite Hlk2.
Qed.

(** The pages a block descriptor covers: [pr] pages from page [po]. *)
Record block_range (b : block_desc) (po pr : Z) : Prop := {
  br_offset : bd_offset b = po * MIN_BLOCK_SIZE;
  br_size : bd_size b = pr * MIN_BLOCK_SIZE;
  br_pos : 0 ≤ po;
  br_nonempty : 0 < pr;
  br_bound : bd_offset b + bd_size b < 2 ^ 64 - MIN_BLOCK_SIZE;
}.

Lemma bits_S n : MIN_BLOCK_BITS + N_CHILDREN_POW * Z.of_nat (S n) - N_CHILDREN_POW =
  MIN_BLOCK_BITS + N_CHILDREN_POW * Z.of_nat n.
Proof. lia. Qed.

Lemma wf_insert_root n ch ch' b po pr :
  length ch' = 16%nat → Forall (wf n) ch' → range_set n ch ch' (Some b) po pr →
  0 ≤ po → 0 < pr → po + pr < pages (S n) →
  (∀ p, 0 ≤ p < pages (S n) → flookup n ch p ≠ Some b) → wf (S n) (ENode ch').
Proof.
  intros Hlen Hwf Hset Hpo Hpr Hfit Hfresh. split_and!; [done| |done|].
  - apply (flookup_some_nonnull n _ po b). rewrite Hset, decide_True by lia. done.
  - intros b'. destruct (decide (b' = b)) as [->|Hne].
    + exists (po + pr). split; [lia|]. rewrite Hset, decide_False by lia. apply Hfresh. lia.
    + exists po. split; [lia|]. rewrite Hset, decide_True by lia. congruence.
Qed.

(** [insert_block] on a map whose root array can be allocated. *)
Lemma wp_insert_block mem m b bd po pr d :
  om_wf m → mem b = Some bd → block_range bd po pr →
  (∀ p, po ≤ p < po + pr → om_lookup m p = None) → (∀ p, om_lookup m p ≠ Some b) →
  (om_entry m = ENull → calloc_ok (dram_tick d) = true) →
  wp (insert_block calloc_ok mem m b)
    (λ '(ret, m') d',
      dram_live d' - nodes (om_entry m') = dram_live d - nodes (om_entry m) ∧
      (ret = 0 ∨ ret = 1) ∧ ((∀ k, calloc_ok k = true) → ret = 0) ∧
      (ret = 0 → om_wf m' ∧
        ∀ p, om_lookup m' p = if decide (po ≤ p < po + pr) then Some b else om_lookup m p))
    noabort d.
Proof.
  intros Hm Hb [Hoff Hsize Hpo Hpr Hbnd] Hfree Hfresh Hroot. unfold insert_block.
  rewrite Hb. wp_steps; [unfold UINT64_MAX, MIN_BLOCK_SIZE in *; apply Z.leb_le; lia|].
  assert (u64 (bd_offset bd + bd_size bd) = (po + pr) * MIN_BLOCK_SIZE) as ->.
  { unfold u64, MIN_BLOCK_SIZE in *. rewrite Z.mod_small; lia. }
  eapply wp_conseq; [apply wp_add_levels; [done|unfold tree_fuel; lia]|].
  intros [ret m1] d1 (Hlive1 & Hnull & [-> | ->] & Hok1 & Hr); cbn beta iota; last first.
  { cbn [Z.eqb negb]. wp_steps. split_and!; try done. by right. }
  destruct (Hr eq_refl) as (Hm1 & Hnull' & Hcov & Hlk1). clear Hr.
  destruct (om_wf_inv m1 Hm1) as (n & e & -> & Hn & Hwf & Hnl).
  rewrite Z.eqb_refl. cbn [negb om_range_length_bits om_entry] in *. rewrite om_level_eq in Hcov.
  assert (Hfit : po + pr < pages n).
  { destruct Hcov as [->|Hcov]; [rewrite pages_13|]; unfold MIN_BLOCK_SIZE in *; lia. }
  wp_steps.
  { destruct (_ <? 64) eqn:H64; [done|]. unfold max_map_offset. cbn [om_range_length_bits].
    rewrite H64. unfold UINT64_MAX, MIN_BLOCK_SIZE in *. apply Z.ltb_lt. lia. }
  destruct n as [|n].
  { exfalso. destruct Hcov as [?|Hcov]; [done|]. unfold MIN_BLOCK_SIZE, pages in *. lia. }
  eapply wp_conseq; [apply (wp_check_and_allocate_range calloc_ok (S n)); done|].
  intros [ret e1] d2 [Hlive2 Hc]. cbn beta iota in *.
  destruct Hc as [(-> & ch & -> & Hch)|(-> & -> & -> & Hfail)]; last first.
  { exfalso. destruct (Hnull (Hnull' eq_refl)) as (_ & -> & _).
    by rewrite (Hroot (Hnull' eq_refl)) in Hfail. }
  assert (Hlkch : ∀ p, 0 ≤ p < pages (S n) → flookup n ch p = om_lookup m p).
  { intros p Hp. rewrite <-Hlk1, om_lookup_eq, decide_True by done.
    destruct Hch as [->|[-> ->]]; [done|]. apply flookup_no_children. }
  cbn [children_of]. wp_steps. rewrite bits_S, shiftl_bits, Hoff, Hsize.
  eapply wp_conseq; [apply wp_set_range; try done; try lia|].
  - destruct Hch as [->|[-> ->]]; [by destruct Hwf|done].
  - destruct Hch as [->|[-> ->]]; [by destruct Hwf as (_ & _ & ? & _)|apply Forall_wf_no_children].
  - split; [intros p Hp|intros _ p Hp]; [rewrite Hlkch by lia; by apply Hfree|].
    pose proof (pages_pos n). assert (0 ≤ po / pages n) by (apply Z.div_pos; lia).
    rewrite Hlkch by nia. apply Hfresh.
  - intros [ret ch'] d3 (Hl' & Hret & Hok & Hlive3 & Hr). wp_steps. cbn [om_entry].
    rewrite !nodes_ENode in *. split_and!; [lia|done|by auto|]. intros Hr0.
    destruct (Hr Hr0) as [Hwf' Hset]. split.
    + apply om_wf_intro; [done| |done]. apply (wf_insert_root _ ch _ b po pr); try done.
      intros p Hp. rewrite Hlkch by done. apply Hfresh.
    + intros p. rewrite om_lookup_eq. case_decide as Hp; [by rewrite elookup_Node, Hset, Hlkch|].
      rewrite decide_False, <-Hlk1, om_lookup_eq, decide_False by lia. done.
Qed.

Lemma all_null_replicate es : Forall (eq ENull) es → es = replicate (length es) ENull.
Proof. induction 1 as [|? ? <- ? IH]; simpl; congruence. Qed.

Lemma nodes_l_all_null es : Forall (eq ENull) es → nodes_l es = 0.
Proof. induction 1 as [|? ? <- ? IH]; simpl; lia. Qed.

Lemma wp_remove_levels fuel m d :
  om_wf m → (om_level m < fuel)%nat →
  wp (remove_levels fuel m)
    (λ m' d', om_wf m' ∧ (∀ p, om_lookup m' p = om_lookup m p) ∧
      dram_live d' - nodes (om_entry m') = dram_live d - nodes (om_entry m)) noabort d.
Proof.
  revert m d. induction fuel as [|fuel IH]; [lia|]. intros m d Hm Hfuel.
  destruct (om_wf_inv m Hm) as (n & e & -> & Hn & Hwf & Hnl). rewrite om_level_eq in Hfuel.
  cbn [remove_levels om_range_length_bits om_entry].
  destruct (_ <? _) eqn:Hlt; b2p; [|by wp_steps].
  destruct n as [|n]; [lia|]. destruct e as [|b|child]; [|by destruct (Hnl b)|].
  { eapply wp_conseq; [apply (IH (OffsetMap ENull (MIN_BLOCK_BITS + N_CHILDREN_POW * Z.of_nat 0)))|].
    - by apply om_wf_intro; [lia|..].
    - rewrite om_level_eq. lia.
    - intros m' d' (? & Hlk & ?). split_and!; try done. intros p. rewrite Hlk, !om_lookup_eq.
      repeat case_decide; try done; by destruct n. }
  destruct child as [|[|b|gc] rest]; [by wp_steps..|].
  destruct (forallb is_null rest) eqn:Hrest; [|by wp_steps]. apply forallb_is_null in Hrest.
  unfold pf_free. wp_steps. rewrite bits_S. destruct Hwf as (Hl & _ & Hall & _). inversion Hall as [|? ? Hgc Hr]; subst.
  eapply wp_conseq; [apply IH|].
  - apply om_wf_intro; [lia|done|done].
  - rewrite om_level_eq. lia.
  - intros m' d' (? & Hlk & Hlive). cbn [om_entry dram_live] in Hlive |- *. split_and!; [done| |].
    + intros p. rewrite Hlk, !om_lookup_eq, elookup_Node. pose proof (pages_S n). pose proof (pages_pos n).
      assert (Hgrow : flookup n (ENode gc :: rest) p = flookup n (<[0%nat := ENode gc]> no_children) p).
      { injection Hl as Hl. by rewrite (all_null_replicate rest Hrest), Hl. }
      rewrite Hgrow. destruct (decide (0 ≤ p < pages (S n))); [|by rewrite decide_False by lia].
      rewrite elookup_grow by done. repeat case_decide; done || lia.
    + rewrite Hlive, (nodes_ENode (_ :: _)). cbn [nodes_l].
      rewrite (nodes_l_all_null rest) by done. lia.
Qed.

Lemma wp_remove_block mem m b bd po pr d :
  om_wf m → mem b = Some bd → block_range bd po pr →
  (∀ p, om_lookup m p = Some b ↔ po ≤ p < po + pr) →
  wp (remove_block calloc_ok mem m b)
    (λ '(ret, m') d', ret = 0 ∧ om_wf m' ∧
      dram_live d' - nodes (om_entry m') = dram_live d - nodes (om_entry m) ∧
      (∀ p, om_lookup m' p = if decide (po ≤ p < po + pr) then None else om_lookup m p))
    noabort d.
Proof.
  intros Hm Hb [Hoff Hsize Hpo Hpr Hbnd] Hlk. unfold remove_block. rewrite Hb. wp_steps.
  destruct (om_wf_inv m Hm) as (n & e & -> & Hn & Hwf & Hnl).
  cbn [om_entry om_range_length_bits] in *.
  assert (Hin : ∀ p, po ≤ p < po + pr → 0 ≤ p < pages n ∧ elookup n e p = Some b).
  { intros p Hp. apply Hlk in Hp. rewrite om_lookup_eq in Hp. by case_decide. }
  destruct e as [|b'|ch]; [|by destruct (Hnl b')|].
  { destruct (Hin po) as [_ Hbad]; [lia|]. by destruct n. }
  destruct n as [|n]; [done|]. cbn [children_of]. wp_steps.
  rewrite bits_S, shiftl_bits, Hoff, Hsize. destruct Hwf as (Hl & Hex & Hall & _).
  assert (Hout : ∀ p, 0 ≤ p < pages (S n) → ¬ (po ≤ p < po + pr) → flookup n ch p ≠ Some b).
  { intros p Hp Hn' Heq. apply Hn', Hlk. by rewrite om_lookup_eq, decide_True. }
  eapply wp_conseq; [apply (wp_set_range calloc_ok n ch None po pr); try done; try lia|].
  { destruct (Hin (po + pr - 1)) as [? _]; lia. }
  { exists b. split; [intros p Hp; by apply Hin|done]. }
  intros [ret ch'] d1 (Hl' & Hret & Hok & Hlive1 & Hr). cbn beta iota.
  rewrite (Hok (or_intror eq_refl)) in *. destruct (Hr eq_refl) as [Hwf' Hset].
  cbn [Z.eqb negb om_entry om_range_length_bits]. wp_steps.
  eapply wp_conseq; [apply wp_check_and_free_range|]. intros e' d2 [Hlive2 He']. cbn beta.
  eapply wp_seq; [apply wp_remove_levels|].
  - apply om_wf_intro; [done| |by destruct He' as [[-> _]|[-> _]]].
    destruct He' as [[-> _]|[-> Hex']]; [done|]. split_and!; [done..|]. intros b'.
    exists po. destruct (Hin po) as [? _]; [lia|]. split; [done|].
    by rewrite Hset, decide_True by lia.
  - rewrite om_level_eq. unfold tree_fuel. lia.
  - intros m' d3 (Hm' & Hlk' & Hlive3). wp_steps. cbn [om_entry] in Hlive3.
    rewrite !nodes_ENode in *. split_and!; [done|done|lia|].
    intros p. rewrite Hlk', !om_lookup_eq.
    assert (Hlke : elookup (S n) e' p = flookup n ch' p).
    { destruct He' as [[-> Hnull]|[-> _]]; [|done]. by rewrite flookup_all_null. }
    destruct (decide (0 ≤ p < pages (S n))) as [Hp|Hp]; [by rewrite Hlke, Hset|].
    case_decide; done.
Qed.
End map_operations.

Lemma om_wf_empty : om_wf (OffsetMap ENull MIN_BLOCK_BITS).
Proof.
  assert (OffsetMap ENull MIN_BLOCK_BITS =
    OffsetMap ENull (MIN_BLOCK_BITS + N_CHILDREN_POW * Z.of_nat 0)) as -> by done.
  by apply om_wf_intro; [lia|..].
Qed.

(** ** Release of the tree *)

Section entry_ind.
Variable P : entry → Prop.
Hypothesis Pnull : P ENull.
Hypothesis Pleaf : ∀ b, P (ELeaf b).
Hypothesis Pnode : ∀ es, Forall P es → P (ENode es).

Fixpoint entry_ind' (e : entry) : P e :=
  match e with
  | ENull => Pnull
  | ELeaf b => Pleaf b
  | ENode es => Pnode es
      ((fix go (l : list entry) : Forall P l :=
          match l with
          | [] => Forall_nil_2 P
          | c :: l => Forall_cons_2 P c l (entry_ind' c) (go l)
          end) es)
  end.
End entry_ind.

Lemma offset_entry_delete_eq e d :
  offset_entry_delete e d = Ok tt (Dram (dram_tick d) (dram_live d - nodes e)).
Proof.
  revert d. induction e as [|b|es IH] using entry_ind'; intros d.
  1, 2: simpl; rewrite Z.sub_0_r; by destruct d.
  rewrite nodes_ENode. cbn [offset_entry_delete].
  assert (Hgo : ∀ d, (fix go (l : list entry) : M dram unit :=
       match l with [] => mret tt | c :: l => offset_entry_delete c;; go l end) es d
       = Ok tt (Dram (dram_tick d) (dram_live d - nodes_l es))).
  { clear d. induction IH as [|c l Hc _ IHl]; intros d; [simpl; rewrite Z.sub_0_r; by destruct d|].
    unfold mbind, M_bind. rewrite Hc, IHl. simpl. do 2 f_equal. lia. }
  unfold mbind, M_bind in *. rewrite Hgo. unfold pf_free, modify. simpl. do 2 f_equal. lia.
Qed.

(** Deleting a map frees the map object and every array of its tree, once. *)
Theorem offset_map_delete_frees m d :
  offset_map_delete m d = Ok tt (Dram (dram_tick d) (dram_live d - nodes (om_entry m) - 1)).
Proof.
  unfold offset_map_delete, mbind, M_bind. by rewrite offset_entry_delete_eq.
Qed.

(** Inserting the first block of a file crashes when the allocation of the
    root array fails: [insert_block] does not look at the result of
    [check_and_allocate_range] and uses the NULL pointer as an array. *)
Theorem insert_block_root_oom calloc_ok mem b bd po pr d :
  mem b = Some bd → block_range bd po pr → calloc_ok (dram_tick d) = false →
  insert_block calloc_ok mem (OffsetMap ENull MIN_BLOCK_BITS) b d = Fault NullDeref.
Proof.
  intros Hbd [Ho Hs Hpo Hpr Hbnd] Hoom.
  pose proof (wp_add_levels calloc_ok tree_fuel (OffsetMap ENull MIN_BLOCK_BITS)
    (u64 (bd_offset bd + bd_size bd)) d) as H.
  apply wp_ok in H as ([ret m1] & d1 & Hrun & _ & Hnull & _ & _ & Hpost).
  2: exact om_wf_empty. 2: unfold tree_fuel; lia.
  destruct (Hnull eq_refl) as (-> & -> & Hm1). destruct (Hpost eq_refl) as (Hwf1 & _ & _ & _).
  unfold insert_block. rewrite Hbd. unfold of_option, assert_, mbind, M_bind, mret, M_ret.
  destruct (_ <=? _) eqn:Hle; [|unfold UINT64_MAX, MIN_BLOCK_SIZE in *; b2p; lia].
  rewrite Hrun. cbn [Z.eqb negb]. rewrite Hm1.
  destruct (_ || _) eqn:Has.
  - unfold check_and_allocate_range, pf_calloc, mbind, M_bind. by rewrite Hoom.
  - exfalso. destruct (_ <? 64) eqn:H64; [done|]. unfold max_map_offset in Has. rewrite H64 in Has.
    simpl in Has. b2p. unfold u64, UINT64_MAX, MIN_BLOCK_SIZE in *.
    rewrite Z.mod_small in Has; lia.
Qed.

(** The block of the second example of the comment in offset_mapping.c: 256k at
    offset 240k. *)
Definition ex_b1 : bptr := (None, 0%nat).
Definition ex_b2 : bptr := (None, 1%nat).
Definition ex_d1 : block_desc :=
  BlockDesc (Some 1%positive) 0x40000 0 0x3c000 None (Some ex_b2).
Definition ex_d2 : block_desc :=
  BlockDesc (Some 2%positive) 0x4000 0 0 (Some ex_b1) None.
Definition ex_mem (b : bptr) : option block_desc :=
  if decide (b = ex_b1) then Some ex_d1 else if decide (b = ex_b2) then Some ex_d2 else None.

Lemma ex_range1 : block_range ex_d1 15 16.
Proof. by split. Qed.

Lemma insert_block_root_oom_witness :
  insert_block (λ _, false) ex_mem (OffsetMap ENull MIN_BLOCK_BITS) ex_b1 (Dram 0 1) = Fault NullDeref.
Proof. apply (insert_block_root_oom _ _ _ ex_d1 15 16); [done|exact ex_range1|done]. Defined.
