(* ===== verification/OffsetMapRep.v ===== *)
(** The lookup of offset_mapping.c ([block_find_closest]) and the contract of
    the tree seen by its clients: a map represents the list of blocks of a file
    ([om_rep]); every operation refines the corresponding operation on that
    list. *)
From S2P Require Import Prelude Layout OffsetMap.

(** ** [block_find_closest] *)

(** Where [find_entry] ends when it is looking for page [P]: an entry that is
    no array; [at_] tells the array of level [k] it is in, the index, and the
    page [B] where that array starts. *)
Definition entry_at (m : offset_map) (P : Z) (e : entry) (k : nat) (ch : list entry) (i B : Z) : Prop :=
  length ch = 16%nat ∧ Forall (wf k) ch ∧ Exists (λ e, e ≠ ENull) ch ∧
  0 ≤ i < 16 ∧ ch !! Z.to_nat i = Some e ∧
  0 ≤ B ∧ B + i * pages k ≤ P < B + (i + 1) * pages k ∧ (k < 13)%nat ∧
  (∀ q, 0 ≤ q < pages (S k) → om_lookup m (B + q) = flookup k ch q).

Definition found_at (m : offset_map) (P : Z) (r : entry * option (list entry * Z)) : Prop :=
  match r with
  | (e, None) => e = om_entry m
  | (e, Some (ch, i)) => ∃ k B, entry_at m P e k ch i B
  end.

Lemma shiftr_page n off : 0 ≤ off →
  Z.shiftr off (MIN_BLOCK_BITS + N_CHILDREN_POW * Z.of_nat n) = off / MIN_BLOCK_SIZE / pages n.
Proof.
  intros Hoff. rewrite Z.shiftr_div_pow2, <-Z.shiftl_1_l, shiftl_bits by (change MIN_BLOCK_BITS with 14; unfold N_CHILDREN_POW; lia).
  rewrite Z.div_div, (Z.mul_comm (pages n)); [done|done|apply pages_pos].
Qed.

Lemma page_idx_mod n P : (P mod pages (S n)) / pages n = (P / pages n) mod 16.
Proof.
  pose proof (pages_pos n). rewrite pages_S, (Z.mul_comm 16), Z.rem_mul_r by lia.
  rewrite Z.add_comm, Z.mul_comm, Z.div_add_l, (Z.div_small (P mod _)) by (apply page_off || lia). lia.
Qed.

Section find.
Implicit Types (d : dram) (m : offset_map).

Lemma wp_find_entry m n : ∀ fuel e at_ off d,
  0 ≤ off → let P := off / MIN_BLOCK_SIZE in let B := P - P mod pages n in
  (n ≤ 13)%nat → wf n e → (n ≤ fuel)%nat →
  (∀ q, 0 ≤ q < pages n → om_lookup m (B + q) = elookup n e q) →
  found_at m P (e, at_) →
  wp (find_entry fuel e at_ (MIN_BLOCK_BITS + N_CHILDREN_POW * Z.of_nat n) off)
    (λ r d', d' = d ∧ (∀ ch, r.1 ≠ ENode ch) ∧ found_at m P r ∧
             ∀ b, r.1 = ELeaf b → om_lookup m P = Some b) noabort d.
Proof.
  induction n as [|n IH]; intros fuel e at_ off d Hoff P B Hn Hwf Hfuel Hlk Hat.
  - destruct e as [|b|ch]; [| |done].
    + destruct fuel; simpl; split_and!; done.
    + destruct fuel; simpl; (split_and!; [done..|]); intros b' [= ->].
      all: specialize (Hlk 0 ltac:(done)); unfold B, pages in Hlk; simpl in Hlk.
      all: rewrite Z.mod_1_r in Hlk; by replace (P - 0 + 0) with P in Hlk by lia.
  - pose proof (page_off (S n) P) as Hmod.
    destruct e as [|b|ch].
    + destruct fuel; simpl; split_and!; done.
    + destruct fuel; simpl; (split_and!; [done..|]); intros b' [= ->].
      all: specialize (Hlk _ Hmod); unfold B in Hlk; by rewrite Z.sub_add in Hlk.
    + destruct fuel as [|fuel]; [lia|]. cbn [find_entry]. rewrite bits_S, shiftr_page by done.
      fold P. change (Z.shiftl 1 N_CHILDREN_POW - 1) with (Z.ones 4).
      rewrite Z.land_ones by lia. change (2 ^ 4) with 16. rewrite <-page_idx_mod.
      destruct Hwf as (Hl & Hex & Hall & Huni).
      pose proof (page_idx _ _ Hmod) as Hi. set (i := P mod pages (S n) / pages n) in *.
      destruct (lookup_lt_is_Some_2 ch (Z.to_nat i)) as [e' He']; [lia|]. rewrite He'. wp_steps.
      pose proof (page_eq n (P mod pages (S n))) as Hpe. fold i in Hpe.
      assert (Hmm : (P mod pages (S n)) mod pages n = P mod pages n).
      { apply Z.mod_mod_divide. exists 16. apply pages_S. }
      rewrite Hmm in Hpe. pose proof (page_off n P) as Hoffn.
      assert (Hch : ∀ q, 0 ≤ q < pages (S n) → om_lookup m (B + q) = flookup n ch q) by done.
      pose proof (pages_S n) as HS.
      assert (0 ≤ B). { unfold B. pose proof (Z.mod_le P (pages (S n))). 
        assert (0 ≤ P) by (unfold P, MIN_BLOCK_SIZE; apply Z.div_pos; lia). lia. }
      apply IH; try done; try lia.
      * eapply (proj1 (Forall_lookup _ _) Hall); done.
      * intros q Hq. fold P. replace (P - P mod pages n + q) with (B + (i * pages n + q)) by (unfold B; lia).
        rewrite Hch by nia. by rewrite (flookup_entry _ _ _ _ _ He') by lia.
      * fold P. exists n, B. split_and!; try done; try lia; unfold B; lia.
Qed.

Lemma flookup_null_chunk k ch i q : ch !! Z.to_nat i = Some ENull → 0 ≤ i →
  i * pages k ≤ q < (i + 1) * pages k → flookup k ch q = None.
Proof.
  intros He Hi Hq. replace q with (i * pages k + (q - i * pages k)) by lia.
  rewrite (flookup_entry _ _ _ _ _ He) by lia. by destruct k.
Qed.

Lemma flookup_leaf_chunk k ch i b q : ch !! Z.to_nat i = Some (ELeaf b) → 0 ≤ i →
  i * pages k ≤ q < (i + 1) * pages k → flookup k ch q = Some b.
Proof.
  intros He Hi Hq. replace q with (i * pages k + (q - i * pages k)) by lia.
  rewrite (flookup_entry _ _ _ _ _ He) by lia. by destruct k.
Qed.

Lemma flookup_node_chunk k ch i ch' q : ch !! Z.to_nat i = Some (ENode ch') → 0 ≤ i →
  0 ≤ q < pages (S k) → flookup (S k) ch (i * pages (S k) + q) = flookup k ch' q.
Proof. intros He Hi Hq. by rewrite (flookup_entry _ _ _ _ _ He) by lia. Qed.

Lemma wf_child k ch i e : Forall (wf k) ch → ch !! i = Some e → wf k e.
Proof. intros H He. by eapply (proj1 (Forall_lookup _ _) H). Qed.

(** The nearest mapped page below page [(i + 1) * pages k] of the array. *)
Lemma wp_search_left fuel : ∀ k ch i moved d,
  length ch = 16%nat → Forall (wf k) ch → -1 ≤ i < 16 →
  17 * Z.of_nat k + i + 2 ≤ Z.of_nat fuel →
  (moved = true → ∃ p b, 0 ≤ p < (i + 1) * pages k ∧ flookup k ch p = Some b) →
  wp (search_left fuel ch i moved) (λ r d', d' = d ∧
    match r with
    | Some b => ∃ p, 0 ≤ p < (i + 1) * pages k ∧ flookup k ch p = Some b ∧
                  ∀ q, p < q < (i + 1) * pages k → flookup k ch q = None
    | None => ∀ q, 0 ≤ q < (i + 1) * pages k → flookup k ch q = None
    end) noabort d.
Proof.
  induction fuel as [|fuel IH]; intros k ch i moved d Hl Hwf Hi Hfuel Hmv; [lia|].
  pose proof (pages_pos k) as Hpos. cbn [search_left]. destruct (0 <=? i) eqn:Hi0; b2p; last first.
  { destruct moved; [destruct Hmv as (p & b & Hp & _); [done|nia]|].
    wp_steps. split; [done|]. intros q Hq. nia. }
  destruct (lookup_lt_is_Some_2 ch (Z.to_nat i)) as [e He]; [lia|]. rewrite He. wp_steps.
  destruct e as [|b|ch'].
  - pose proof (λ q, flookup_null_chunk k ch i q He Hi0) as Hnone.
    eapply wp_conseq; [apply (IH k); try done; try lia|].
    + intros Hm. destruct (Hmv Hm) as (p & b & Hp & Hb). exists p, b. split; [|done].
      destruct (decide (p < i * pages k)); [nia|]. rewrite Hnone in Hb by lia. done.
    + intros r d' [-> Hr]. split; [done|]. replace (i - 1 + 1) with i in Hr by lia.
      destruct r as [b|].
      * destruct Hr as (p & Hp & Hb & Hq). exists p. split_and!; [lia..|done|].
        intros q Hq'. destruct (decide (q < i * pages k)); [apply Hq; lia|apply Hnone; lia].
      * intros q Hq'. destruct (decide (q < i * pages k)); [apply Hr; lia|apply Hnone; lia].
  - wp_steps. split; [done|]. exists ((i + 1) * pages k - 1). split_and!; [nia|lia| |lia].
    eapply flookup_leaf_chunk; [done..|]. nia.
  - pose proof (wf_child _ _ _ _ Hwf He) as Hwfe. destruct k as [|k]; [done|].
    destruct (wf_nonnull (S k) _ Hwfe) as (p & b & Hp & Hb); [done|].
    destruct Hwfe as (Hl' & _ & Hwf' & _). change (N_CHILDREN - 1) with 15.
    pose proof (pages_S k) as HS.
    eapply wp_conseq; [apply (IH k); try done; try lia|].
    + intros _. exists p, b. split; [lia|done].
    + intros r d' [-> Hr]. split; [done|]. replace (15 + 1) with 16 in Hr by lia. rewrite <-HS in Hr.
      destruct r as [b'|]; [|rewrite elookup_Node, Hr in Hb; done].
      destruct Hr as (p' & Hp' & Hb' & Hq). exists (i * pages (S k) + p').
      split_and!; [nia|nia|by erewrite flookup_node_chunk|]. intros q Hq'.
      replace q with (i * pages (S k) + (q - i * pages (S k))) by lia.
      erewrite flookup_node_chunk by (done || lia). apply Hq. lia.
Qed.

(** The nearest mapped page from page [i * pages k] of the array on. *)
Lemma wp_search_right fuel : ∀ k ch i d,
  length ch = 16%nat → Forall (wf k) ch → 0 ≤ i ≤ 16 →
  17 * Z.of_nat k + (17 - i) ≤ Z.of_nat fuel →
  wp (search_right fuel ch i) (λ r d', d' = d ∧
    match r with
    | Some b => ∃ p, i * pages k ≤ p < pages (S k) ∧ flookup k ch p = Some b ∧
                  ∀ q, i * pages k ≤ q < p → flookup k ch q = None
    | None => ∀ q, i * pages k ≤ q < pages (S k) → flookup k ch q = None
    end) noabort d.
Proof.
  induction fuel as [|fuel IH]; intros k ch i d Hl Hwf Hi Hfuel; [lia|].
  pose proof (pages_pos k) as Hpos. pose proof (pages_S k) as HSk. cbn [search_right].
  change N_CHILDREN with 16. destruct (i <? 16) eqn:Hi0; b2p; last first.
  { wp_steps. split; [done|]. intros q Hq. nia. }
  destruct (lookup_lt_is_Some_2 ch (Z.to_nat i)) as [e He]; [lia|]. rewrite He. wp_steps.
  destruct e as [|b|ch'].
  - pose proof (λ q, flookup_null_chunk k ch i q He (proj1 Hi)) as Hnone.
    eapply wp_conseq; [apply (IH k); try done; try lia|].
    intros r d' [-> Hr]. split; [done|]. destruct r as [b|].
    + destruct Hr as (p & Hp & Hb & Hq). exists p. split_and!; [lia..|done|].
      intros q Hq'. destruct (decide (q < (i + 1) * pages k)); [apply Hnone; lia|apply Hq; lia].
    + intros q Hq'. destruct (decide (q < (i + 1) * pages k)); [apply Hnone; lia|apply Hr; lia].
  - wp_steps. split; [done|]. exists (i * pages k). split_and!; [nia..| |lia].
    eapply flookup_leaf_chunk; [done|lia|nia].
  - pose proof (wf_child _ _ _ _ Hwf He) as Hwfe. destruct k as [|k]; [done|].
    destruct (wf_nonnull (S k) _ Hwfe) as (p & b & Hp & Hb); [done|].
    destruct Hwfe as (Hl' & _ & Hwf' & _). pose proof (pages_S k) as HS.
    eapply wp_conseq; [apply (IH k); try done; try lia|].
    intros r d' [-> Hr]. split; [done|].
    destruct r as [b'|]; [|rewrite elookup_Node, Hr in Hb; [done|lia]].
    destruct Hr as (p' & Hp' & Hb' & Hq). exists (i * pages (S k) + p').
    split_and!; [nia|nia|erewrite flookup_node_chunk; [done|done|lia..]|]. intros q Hq'.
    replace q with (i * pages (S k) + (q - i * pages (S k))) by lia.
    erewrite flookup_node_chunk by (done || lia). apply Hq. lia.
Qed.

(** The page the search is for, after the offset is cut to the range of the
    map. *)
Definition target_page (m : offset_map) (offset : Z) : Z :=
  Z.min offset (max_map_offset m) / MIN_BLOCK_SIZE.

Lemma max_map_offset_bounds m : om_wf m →
  ∃ n, om_level m = n ∧ 0 ≤ max_map_offset m ∧
  max_map_offset m / MIN_BLOCK_SIZE < pages n ∧ max_map_offset m mod MIN_BLOCK_SIZE = 0.
Proof.
  intros Hm. destruct (om_wf_inv m Hm) as (n & e & -> & Hn & _). exists n.
  rewrite om_level_eq. split; [done|]. pose proof (pages_pos n).
  destruct (decide (n ≤ 12)%nat) as [H12|H12].
  - rewrite max_map_offset_eq by done. unfold MIN_BLOCK_SIZE in *.
    rewrite Z.div_mul, Z.mod_mul by lia. lia.
  - assert (n = 13)%nat as -> by lia. split_and!; done.
Qed.

(** What the search finds, in terms of pages: the nearest mapped page at or
    below the target; or, when the whole array is free below it, the [prev] of
    the first block above; or nothing when the map is empty. *)
Definition find_pages (mem : bptr → option block_desc) m (P : Z) (r : option bptr) : Prop :=
  (∃ b p, r = Some b ∧ p ≤ P ∧ om_lookup m p = Some b ∧ ∀ q, p < q ≤ P → om_lookup m q = None) ∨
  (∃ b bd p B, P < p ∧ 0 ≤ B ≤ P ∧ om_lookup m p = Some b ∧ mem b = Some bd ∧ r = bd_prev bd ∧
     ∀ q, B ≤ q < p → om_lookup m q = None) ∨
  (r = None ∧ ∀ q, om_lookup m q = None).

Section neighbour.
Variables (mem : bptr → option block_desc) (m : offset_map) (P : Z).
Variables (k : nat) (ch : list entry) (i B : Z).
Hypothesis Hat : entry_at m P ENull k ch i B.

Lemma entry_at_lookup q : B ≤ q < B + pages (S k) → om_lookup m q = flookup k ch (q - B).
Proof.
  intros Hq. destruct Hat as (_ & _ & _ & _ & _ & _ & _ & _ & Hlk).
  rewrite <-Hlk by lia. f_equal. lia.
Qed.

Lemma entry_at_none q : B + i * pages k ≤ q < B + (i + 1) * pages k → om_lookup m q = None.
Proof.
  intros Hq. destruct Hat as (_ & _ & _ & Hi & He & HB & _ & _ & Hlk).
  pose proof (pages_S k). pose proof (pages_pos k). rewrite entry_at_lookup by nia.
  eapply flookup_null_chunk; [exact He|lia|lia].
Qed.

Lemma found_left b p : 0 ≤ p < i * pages k → flookup k ch p = Some b →
  (∀ q, p < q < i * pages k → flookup k ch q = None) → find_pages mem m P (Some b).
Proof.
  intros Hp Hb Hq. destruct Hat as (_ & _ & _ & Hi & _ & HB & HBP & _ & _).
  pose proof (pages_S k). pose proof (pages_pos k). left. exists b, (B + p).
  split_and!; [done|nia|rewrite entry_at_lookup by nia; by replace (B + p - B) with p by lia|].
  intros q Hq'. destruct (decide (q < B + i * pages k)); [|apply entry_at_none; lia].
  rewrite entry_at_lookup by nia. apply Hq. lia.
Qed.

Hypothesis Hleft : ∀ q, 0 ≤ q < i * pages k → flookup k ch q = None.

Lemma free_below q : B ≤ q < B + (i + 1) * pages k → om_lookup m q = None.
Proof.
  intros Hq. destruct Hat as (_ & _ & _ & Hi & _). pose proof (pages_S k). pose proof (pages_pos k).
  destruct (decide (q < B + i * pages k)); [|apply entry_at_none; lia].
  rewrite entry_at_lookup by nia. apply Hleft. lia.
Qed.

Lemma found_right b bd p : (i + 1) * pages k ≤ p < pages (S k) → flookup k ch p = Some b →
  (∀ q, (i + 1) * pages k ≤ q < p → flookup k ch q = None) →
  mem b = Some bd → find_pages mem m P (bd_prev bd).
Proof.
  intros Hp Hb Hq Hbd. destruct Hat as (_ & _ & _ & Hi & _ & HB & HBP & _ & _).
  pose proof (pages_S k). pose proof (pages_pos k). right. left. exists b, bd, (B + p), B.
  split_and!; [nia..|rewrite entry_at_lookup by nia; by replace (B + p - B) with p by lia|done|done|].
  intros q Hq'. destruct (decide (q < B + (i + 1) * pages k)); [apply free_below; lia|].
  rewrite entry_at_lookup by lia. apply Hq. lia.
Qed.

Lemma found_nothing : ¬ (∀ q, (i + 1) * pages k ≤ q < pages (S k) → flookup k ch q = None).
Proof.
  intros Hright. destruct Hat as (Hl & Hwf & Hex & Hi & He & _ & _ & _ & _).
  apply Exists_exists in Hex as (e & (j & Hj)%list_elem_of_lookup & Hne).
  destruct (wf_nonnull k e) as (p & b & Hp & Hb); [by eapply wf_child|done|].
  pose proof (lookup_lt_Some _ _ _ Hj) as Hjl. rewrite <-(Nat2Z.id j) in Hj.
  rewrite <-(flookup_entry _ _ _ _ _ Hj) in Hb by lia. set (q := Z.of_nat j * pages k + p) in *.
  pose proof (pages_S k). pose proof (pages_pos k). assert (0 ≤ q < pages (S k)) by (unfold q; nia).
  assert (flookup k ch q = None) as Hno; [|congruence].
  destruct (decide (q < i * pages k)); [apply Hleft; lia|].
  destruct (decide ((i + 1) * pages k ≤ q)); [apply Hright; lia|].
  eapply flookup_null_chunk; [exact He|lia|lia].
Qed.
End neighbour.

Lemma wp_find_pages mem m offset d :
  om_wf m → 0 ≤ offset → (∀ p b, om_lookup m p = Some b → is_Some (mem b)) →
  wp (block_find_closest mem m offset)
    (λ r d', d' = d ∧ find_pages mem m (target_page m offset) r) noabort d.
Proof.
  intros Hm Hoff Hmem. destruct (max_map_offset_bounds m Hm) as (n & Hlev & Hmax & Hpg & _).
  unfold block_find_closest.
  replace (if max_map_offset m <? offset then max_map_offset m else offset)
    with (Z.min offset (max_map_offset m)) by (case_match; b2p; lia).
  assert (HP : 0 ≤ target_page m offset < pages n).
  { unfold target_page. split; [apply Z.div_pos; [lia|done]|].
    eapply Z.le_lt_trans; [apply Z.div_le_mono; [done|]|done]. lia. }
  pose proof (om_height m Hm) as Hh. rewrite Hlev in Hh.
  wp_steps. rewrite (om_bits m Hm), Hlev.
  eapply wp_conseq; [apply (wp_find_entry m n); try done; try lia|].
  { rewrite <-Hlev. apply Hm. } { unfold tree_fuel. lia. }
  { fold (target_page m offset). intros q Hq. rewrite (Z.mod_small (target_page _ _)) by done.
    rewrite Z.sub_diag, Z.add_0_l. unfold om_lookup. by rewrite Hlev, decide_True by done. }
  fold (target_page m offset).
  intros [e at_] d1 (-> & Hnn & Hat & Hleaf). cbn beta iota in *. simpl in Hnn, Hleaf.
  destruct e as [|b|ch]; [| |by destruct (Hnn ch)].
  2: { wp_steps. split; [done|]. left. exists b, (target_page m offset).
       split_and!; [done..|by apply Hleaf|]. lia. }
  destruct at_ as [[ch i]|]; last first.
  { wp_steps. split; [done|]. right. right. split; [done|]. intros q. unfold om_lookup.
    rewrite <-Hat. case_decide; [|done]. by destruct (om_level m). }
  destruct Hat as (k & B & Hat). pose proof Hat as (Hl & Hwf & _ & Hi & _ & HB & _ & Hk & Hlk).
  wp_steps. eapply wp_conseq; [apply (wp_search_left tree_fuel k); try done; try lia|].
  { change (Z.of_nat tree_fuel) with 256. lia. }
  replace (i - 1 + 1) with i by lia. intros l d1 [-> Hleft]. cbn beta.
  destruct l as [b|].
  { wp_steps. split; [done|]. destruct Hleft as (p & Hp & Hb & Hq). by eapply found_left. }
  wp_steps. eapply wp_conseq; [apply (wp_search_right tree_fuel k); try done; try lia|].
  { change (Z.of_nat tree_fuel) with 256. lia. }
  intros r d1 [-> Hright]. cbn beta.
  destruct r as [b|]; [|by destruct (found_nothing m _ k ch i B Hat Hleft)].
  destruct Hright as (p & Hp & Hb & Hq). pose proof (pages_pos k).
  destruct (Hmem (B + p) b) as [bd Hbd]; [rewrite Hlk; [done|nia]|].
  rewrite Hbd. wp_steps. split; [done|]. by eapply found_right.
Qed.

(** ** Representation of a list of blocks *)

(** The map [m] holds exactly the blocks of [L], each at its pages. *)
Record om_rep (mem : bptr → option block_desc) m (L : list bptr) : Prop := {
  rep_wf : om_wf m;
  rep_block : ∀ b, b ∈ L → ∃ bd po pr, mem b = Some bd ∧ block_range bd po pr ∧
    ∀ p, om_lookup m p = Some b ↔ po ≤ p < po + pr;
  rep_page : ∀ p b, om_lookup m p = Some b → b ∈ L;
}.

(** The blocks of [L] are in the order of their offsets, do not overlap, and
    their [prev] links follow the list. *)
Record block_chain (mem : bptr → option block_desc) (L : list bptr) : Prop := {
  bc_sorted : ∀ i j bi bj di dj, (i < j)%nat → L !! i = Some bi → L !! j = Some bj →
    mem bi = Some di → mem bj = Some dj → bd_offset di + bd_size di ≤ bd_offset dj;
  bc_prev : ∀ i b bd, L !! i = Some b → mem b = Some bd →
    bd_prev bd = match i with O => None | S j => L !! j end;
}.

(** The block with the highest offset that is not above [offset]. *)
Definition is_closest (mem : bptr → option block_desc) (L : list bptr) (offset : Z)
    (r : option bptr) : Prop :=
  match r with
  | Some b => b ∈ L ∧ ∃ bd, mem b = Some bd ∧ bd_offset bd ≤ offset ∧
      ∀ b' bd', b' ∈ L → mem b' = Some bd' → bd_offset bd' ≤ offset → bd_offset bd' ≤ bd_offset bd
  | None => ∀ b bd, b ∈ L → mem b = Some bd → offset < bd_offset bd
  end.

Lemma rep_mem mem m L p b : om_rep mem m L → om_lookup m p = Some b → is_Some (mem b).
Proof.
  intros Hrep Hb. destruct (rep_block _ _ _ Hrep b) as (bd & _ & _ & Hbd & _); [|eauto].
  by eapply rep_page.
Qed.

(** Every mapped page is in the range the offset is cut to. *)
Lemma rep_page_bound mem m L p b : om_rep mem m L → om_lookup m p = Some b →
  0 ≤ p ∧ p * MIN_BLOCK_SIZE ≤ max_map_offset m.
Proof.
  intros Hrep Hb. pose proof Hb as Hb'. unfold om_lookup in Hb'. case_decide as Hp; [|done].
  destruct (rep_block _ _ _ Hrep b) as (bd & po & pr & _ & [Ho Hs ? ? Hbnd] & Hiff);
    [by eapply rep_page|]. apply Hiff in Hb. split; [lia|].
  destruct (om_wf_inv m (rep_wf _ _ _ Hrep)) as (n & e & -> & Hn & _). rewrite om_level_eq in Hp.
  destruct (decide (n ≤ 12)%nat); [rewrite max_map_offset_eq by done; unfold MIN_BLOCK_SIZE; lia|].
  assert (n = 13)%nat as -> by lia. unfold max_map_offset. simpl.
  unfold UINT64_MAX, MIN_BLOCK_SIZE in *. lia.
Qed.

(** The target page separates the offsets: a block starts at or below
    [offset] iff its first page is at or below the target. *)
Lemma target_page_le mem m L offset p b : om_rep mem m L → 0 ≤ offset →
  om_lookup m p = Some b → p * MIN_BLOCK_SIZE ≤ offset ↔ p ≤ target_page m offset.
Proof.
  intros Hrep Hoff Hb. destruct (rep_page_bound _ _ _ _ _ Hrep Hb) as [Hp Hmax].
  destruct (max_map_offset_bounds m (rep_wf _ _ _ Hrep)) as (n & _ & Hm0 & _ & _).
  unfold target_page, MIN_BLOCK_SIZE in *. split; intros H.
  - apply Z.div_le_lower_bound; lia.
  - assert (p * 16384 ≤ Z.min offset (max_map_offset m)); [|lia].
    pose proof (Z.mul_div_le (Z.min offset (max_map_offset m)) 16384). lia.
Qed.

Lemma chain_offset_le mem L i j bi bj di dj : block_chain mem L → (i ≤ j)%nat →
  (∀ b bd, b ∈ L → mem b = Some bd → 0 ≤ bd_size bd) →
  L !! i = Some bi → L !! j = Some bj → mem bi = Some di → mem bj = Some dj →
  bd_offset di ≤ bd_offset dj.
Proof.
  intros Hc Hij Hsz Hi Hj Hdi Hdj. destruct (decide (i = j)) as [->|Hne].
  - assert (bi = bj) as -> by congruence. assert (di = dj) as -> by congruence. done.
  - pose proof (bc_sorted _ _ Hc i j bi bj di dj ltac:(lia) Hi Hj Hdi Hdj).
    specialize (Hsz bi di (list_elem_of_lookup_2 _ _ _ Hi) Hdi). lia.
Qed.

Section closest.
Variables (mem : bptr → option block_desc) (m : offset_map) (L : list bptr) (offset : Z).
Hypothesis (Hrep : om_rep mem m L) (Hchain : block_chain mem L) (Hoff : 0 ≤ offset).

Lemma chain_size b bd : b ∈ L → mem b = Some bd → 0 ≤ bd_size bd.
Proof.
  intros Hin Hbd. destruct (rep_block _ _ _ Hrep b Hin) as (bd' & po & pr & Hbd' & [] & _).
  simplify_eq. unfold MIN_BLOCK_SIZE in *. lia.
Qed.

Lemma closest_below b p : p ≤ target_page m offset → om_lookup m p = Some b →
  (∀ q, p < q ≤ target_page m offset → om_lookup m q = None) → is_closest mem L offset (Some b).
Proof.
  intros Hp Hb Hq. pose proof (rep_page _ _ _ Hrep _ _ Hb) as Hin. split; [done|].
  destruct (rep_block _ _ _ Hrep b Hin) as (bd & po & pr & Hbd & [Ho Hs] & Hiff).
  pose proof (proj1 (Hiff p) Hb) as Hpp. exists bd. split_and!; [done|..].
  { rewrite Ho. eapply target_page_le; [done..|apply Hiff; lia|lia]. }
  intros b' bd' Hin' Hbd' Hle.
  destruct (rep_block _ _ _ Hrep b' Hin') as (bd'' & po' & pr' & Hbd'' & [Ho' Hs'] & Hiff').
  assert (bd'' = bd') as -> by congruence.
  assert (Hpo' : om_lookup m po' = Some b') by (apply Hiff'; lia).
  rewrite Ho' in Hle. eapply target_page_le in Hle; [|done..].
  assert (po' ≤ p) as Hpp'.
  { destruct (decide (po' ≤ p)); [done|]. rewrite Hq in Hpo' by lia. done. }
  apply list_elem_of_lookup in Hin as [i Hi]. apply list_elem_of_lookup in Hin' as [j Hj].
  destruct (decide (j ≤ i)%nat); [eapply chain_offset_le; eauto using chain_size|].
  exfalso. pose proof (bc_sorted _ _ Hchain i j b b' bd bd' ltac:(lia) Hi Hj Hbd Hbd').
  unfold MIN_BLOCK_SIZE in *. lia.
Qed.

Lemma closest_above b bd p B : target_page m offset < p → 0 ≤ B ≤ target_page m offset →
  om_lookup m p = Some b → mem b = Some bd → (∀ q, B ≤ q < p → om_lookup m q = None) →
  is_closest mem L offset (bd_prev bd).
Proof.
  intros Hp HB Hb Hbd Hq. pose proof (rep_page _ _ _ Hrep _ _ Hb) as Hin.
  destruct (rep_block _ _ _ Hrep b Hin) as (bd' & po & pr & Hbd' & [Ho Hs] & Hiff).
  assert (bd' = bd) as -> by congruence. pose proof (proj1 (Hiff p) Hb) as Hpp.
  assert (po = p) as ->.
  { destruct (decide (po = p)); [done|]. assert (om_lookup m (p - 1) = Some b) as Hb1 by (apply Hiff; lia).
    rewrite Hq in Hb1 by lia. done. }
  assert (offset < bd_offset bd) as Hgt.
  { rewrite Ho. apply Z.nle_gt. rewrite (target_page_le mem m L offset p b) by done. lia. }
  apply list_elem_of_lookup in Hin as [i Hi].
  assert (Habove : ∀ j b' bd', (i ≤ j)%nat → L !! j = Some b' → mem b' = Some bd' →
            offset < bd_offset bd').
  { intros j b' d' Hij Hj Hd'. eapply Z.lt_le_trans; [done|].
    eapply (chain_offset_le mem L i j); eauto using chain_size. }
  rewrite (bc_prev _ _ Hchain i b bd Hi Hbd). destruct i as [|i].
  { intros b' d' (j & Hj)%list_elem_of_lookup Hd'. eapply Habove; [|done..]. lia. }
  destruct (L !! i) as [b1|] eqn:Hi1;
    [|apply lookup_lt_Some in Hi; apply lookup_ge_None in Hi1; lia].
  pose proof (list_elem_of_lookup_2 _ _ _ Hi1) as Hin1. split; [done|].
  destruct (rep_block _ _ _ Hrep b1 Hin1) as (d1 & po1 & pr1 & Hd1 & [Ho1 Hs1] & Hiff1).
  pose proof (bc_sorted _ _ Hchain i (S i) b1 b d1 bd ltac:(lia) Hi1 Hi Hd1 Hbd) as Hend.
  assert (Hpo1 : om_lookup m po1 = Some b1) by (apply Hiff1; lia).
  exists d1. split_and!; [done|..].
  - rewrite Ho1. eapply target_page_le; [done..|].
    destruct (decide (po1 < B)); [lia|]. exfalso.
    rewrite Hq in Hpo1; [done|]. unfold MIN_BLOCK_SIZE in *. lia.
  - intros b' d' (j & Hj)%list_elem_of_lookup Hd' Hle.
    destruct (decide (S i ≤ j)%nat) as [Hij|Hij].
    + pose proof (Habove j b' d' Hij Hj Hd'). lia.
    + eapply (chain_offset_le mem L j i); eauto using chain_size. lia.
Qed.
End closest.

Lemma wp_block_find_closest mem m L offset d :
  om_rep mem m L → block_chain mem L → 0 ≤ offset →
  wp (block_find_closest mem m offset)
    (λ r d', d' = d ∧ is_closest mem L offset r) noabort d.
Proof.
  intros Hrep Hchain Hoff.
  eapply wp_conseq; [apply wp_find_pages; [apply Hrep|done|]|].
  { intros p b. by eapply rep_mem. }
  intros r d' [-> Hfind]. split; [done|].
  destruct Hfind as [(b & p & -> & ? & ? & ?)|[(b & bd & p & B & ? & ? & ? & ? & -> & ?)|[-> Hnone]]].
  - by eapply closest_below.
  - by eapply closest_above.
  - intros b bd Hin _. destruct (rep_block _ _ _ Hrep b Hin) as (bd0 & po & pr & _ & [] & Hiff).
    assert (om_lookup m po = Some b) as Hb by (apply Hiff; lia). by rewrite Hnone in Hb.
Qed.
End find.

(** ** Operations on represented lists *)

(** Two blocks that share no byte. *)
Definition disjoint_blocks (x y : block_desc) : Prop :=
  bd_offset x + bd_size x ≤ bd_offset y ∨ bd_offset y + bd_size y ≤ bd_offset x.

Section rep_operations.
Variable calloc_ok : nat → bool.
Implicit Types (m : offset_map) (L : list bptr).

Lemma rep_free mem m L bd po pr :
  om_rep mem m L → block_range bd po pr →
  (∀ b' bd', b' ∈ L → mem b' = Some bd' → disjoint_blocks bd bd') →
  ∀ p, po ≤ p < po + pr → om_lookup m p = None.
Proof.
  intros Hrep [Ho Hs] Hdis p Hp. destruct (om_lookup m p) as [b'|] eqn:Hb'; [|done]. exfalso.
  pose proof (rep_page _ _ _ Hrep _ _ Hb') as Hin.
  destruct (rep_block _ _ _ Hrep b' Hin) as (bd' & po' & pr' & Hbd' & [Ho' Hs'] & Hiff).
  apply Hiff in Hb'. destruct (Hdis b' bd' Hin Hbd'); unfold MIN_BLOCK_SIZE in *; lia.
Qed.

Lemma rep_after_insert mem m m' L L' b bd po pr :
  om_rep mem m L → mem b = Some bd → block_range bd po pr → b ∉ L →
  (∀ x, x ∈ L' ↔ x = b ∨ x ∈ L) →
  (∀ p, po ≤ p < po + pr → om_lookup m p = None) → om_wf m' →
  (∀ p, om_lookup m' p = if decide (po ≤ p < po + pr) then Some b else om_lookup m p) →
  om_rep mem m' L'.
Proof.
  intros Hrep Hbd Hr Hnin HL' Hfree Hwf Hlk. split; [done|..].
  - intros x Hx. apply HL' in Hx as [->|Hx].
    + exists bd, po, pr. split_and!; [done..|]. intros p. rewrite Hlk. case_decide; [done|].
      split; [|done]. intros Hp%(rep_page _ _ _ Hrep). done.
    + destruct (rep_block _ _ _ Hrep x Hx) as (bx & pox & prx & Hbx & Hrx & Hiff).
      exists bx, pox, prx. split_and!; [done..|]. intros p. rewrite Hlk. case_decide; [|apply Hiff].
      split; [by intros [= ->]|]. intros Hp%Hiff. by rewrite Hfree in Hp.
  - intros p x. rewrite Hlk, HL'. case_decide; [intros [= ->]; by left|].
    intros Hx%(rep_page _ _ _ Hrep). by right.
Qed.

Lemma wp_insert_rep mem m L L' b bd po pr d :
  om_rep mem m L → mem b = Some bd → block_range bd po pr → b ∉ L →
  (∀ x, x ∈ L' ↔ x = b ∨ x ∈ L) →
  (∀ b' bd', b' ∈ L → mem b' = Some bd' → disjoint_blocks bd bd') →
  (om_entry m = ENull → calloc_ok (dram_tick d) = true) →
  wp (insert_block calloc_ok mem m b)
    (λ '(ret, m') d',
      dram_live d' - nodes (om_entry m') = dram_live d - nodes (om_entry m) ∧
      (ret = 0 ∨ ret = 1) ∧ ((∀ k, calloc_ok k = true) → ret = 0) ∧
      (ret = 0 → om_rep mem m' L')) noabort d.
Proof.
  intros Hrep Hbd Hr Hnin HL' Hdis Hroot. pose proof (rep_free _ _ _ _ _ _ Hrep Hr Hdis) as Hfree.
  eapply wp_conseq; [eapply wp_insert_block; try done; [apply Hrep|]|].
  { intros p Hp. by apply Hnin, (rep_page _ _ _ Hrep p). }
  intros [ret m'] d' (Hlive & Hret & Hok & Hpost). split_and!; [done..|].
  intros Hr0. destruct (Hpost Hr0). by eapply rep_after_insert.
Qed.

Lemma wp_remove_rep mem m L L' b d :
  om_rep mem m L → b ∈ L → (∀ x, x ∈ L' ↔ x ≠ b ∧ x ∈ L) →
  wp (remove_block calloc_ok mem m b)
    (λ '(ret, m') d', ret = 0 ∧ om_rep mem m' L' ∧
      dram_live d' - nodes (om_entry m') = dram_live d - nodes (om_entry m)) noabort d.
Proof.
  intros Hrep Hin HL'. destruct (rep_block _ _ _ Hrep b Hin) as (bd & po & pr & Hbd & Hr & Hiff).
  eapply wp_conseq; [eapply wp_remove_block; try done; apply Hrep|].
  intros [ret m'] d' (-> & Hwf & Hlive & Hlk). split_and!; [done| |done]. split; [done|..].
  - intros x [Hne Hx]%HL'. destruct (rep_block _ _ _ Hrep x Hx) as (bx & pox & prx & Hbx & Hrx & Hiffx).
    exists bx, pox, prx. split_and!; [done..|]. intros p. rewrite Hlk. case_decide as Hp; [|apply Hiffx].
    split; [done|]. intros Hpx%Hiffx. apply Hiff in Hp. congruence.
  - intros p x. rewrite Hlk, HL'. case_decide as Hp; [done|]. intros Hx. split.
    + intros ->. by apply Hp, Hiff.
    + by eapply rep_page.
Qed.

(** Representation only looks at the descriptors of the blocks held. *)
Lemma om_rep_mono mem mem' m L :
  (∀ b bd, b ∈ L → mem b = Some bd → ∃ bd', mem' b = Some bd' ∧
     bd_offset bd' = bd_offset bd ∧ bd_size bd' = bd_size bd) →
  om_rep mem m L → om_rep mem' m L.
Proof.
  intros Hmem [Hwf Hblk Hpg]. split; [done| |done]. intros b Hin.
  destruct (Hblk b Hin) as (bd & po & pr & Hbd & [] & Hiff).
  destruct (Hmem b bd Hin Hbd) as (bd' & Hbd' & Ho & Hs).
  exists bd', po, pr. split_and!; [done| |done]. split; congruence || done.
Qed.
End rep_operations.

Lemma om_rep_empty mem : om_rep mem (OffsetMap ENull MIN_BLOCK_BITS) [].
Proof.
  split; [exact om_wf_empty|by intros b ?%not_elem_of_nil|].
  intros p b. unfold om_lookup. case_decide; [|done]. by destruct (om_level _).
Qed.

(** ** Main results *)

(** C31: looking up an offset in a map that holds the blocks [L] of a file (kept
    in offset order, linked by [prev]) always ends, changes nothing, and returns
    the block with the highest offset that is lower than or equal to the
    requested one, or NULL when every block starts above it. *)
Theorem block_find_closest_correct mem m L offset d :
  om_rep mem m L → block_chain mem L → 0 ≤ offset →
  ∃ r, block_find_closest mem m offset d = Ok r d ∧ is_closest mem L offset r.
Proof.
  intros Hrep Hc Ho. pose proof (wp_block_find_closest mem m L offset d Hrep Hc Ho) as H.
  apply wp_ok in H as (r & d' & Hrun & -> & Hcl). eauto.
Qed.

(** C29: inserting a block of page-aligned, non-empty extent that overlaps none
    of the blocks held returns 0 when volatile memory is available; the new map
    holds exactly the old blocks and the new one, and every array allocated is
    part of the new tree. *)
Theorem insert_block_correct calloc_ok mem m L L' b bd po pr d :
  om_rep mem m L → mem b = Some bd → block_range bd po pr → b ∉ L →
  (∀ x, x ∈ L' ↔ x = b ∨ x ∈ L) →
  (∀ b' bd', b' ∈ L → mem b' = Some bd' → disjoint_blocks bd bd') →
  (∀ k, calloc_ok k = true) →
  ∃ m' d', insert_block calloc_ok mem m b d = Ok (0, m') d' ∧ om_rep mem m' L' ∧
    dram_live d' - nodes (om_entry m') = dram_live d - nodes (om_entry m).
Proof.
  intros Hrep Hbd Hr Hnin HL' Hdis Hok.
  pose proof (wp_insert_rep calloc_ok mem m L L' b bd po pr d Hrep Hbd Hr Hnin HL' Hdis) as H.
  apply wp_ok in H as ([ret m'] & d' & Hrun & Hlive & _ & Hret & Hpost); [|done].
  rewrite (Hret Hok) in *. eauto 10.
Qed.

(** C30: removing a block that the map holds returns 0 without allocating
    anything that survives, whatever the allocator does; the new map holds
    exactly the other blocks and no array is leaked. *)
Theorem remove_block_correct calloc_ok mem m L L' b d :
  om_rep mem m L → b ∈ L → (∀ x, x ∈ L' ↔ x ≠ b ∧ x ∈ L) →
  ∃ m' d', remove_block calloc_ok mem m b d = Ok (0, m') d' ∧ om_rep mem m' L' ∧
    dram_live d' - nodes (om_entry m') = dram_live d - nodes (om_entry m).
Proof.
  intros Hrep Hin HL'. pose proof (wp_remove_rep calloc_ok mem m L L' b d Hrep Hin HL') as H.
  apply wp_ok in H as ([ret m'] & d' & Hrun & -> & Hrep' & Hlive). eauto 10.
Qed.

(** ** Witnesses: the second example of the comment in offset_mapping.c, a
    block of 256k at offset 240k, and a block of 16k at offset 0. *)

Definition ex_map1 : offset_map :=
  match insert_block (λ _, true) ex_mem (OffsetMap ENull MIN_BLOCK_BITS) ex_b1 (Dram 0 1) with
  | Ok (_, m) _ => m | _ => OffsetMap ENull 0
  end.
Definition ex_map2 : offset_map :=
  match insert_block (λ _, true) ex_mem ex_map1 ex_b2 (Dram 3 4) with
  | Ok (_, m) _ => m | _ => OffsetMap ENull 0
  end.

Lemma ex_range2 : block_range ex_d2 0 1.
Proof. by split. Qed.

Lemma elem_of_cons_iff (b : bptr) (L : list bptr) x : x ∈ b :: L ↔ x = b ∨ x ∈ L.
Proof. apply elem_of_cons. Qed.

Lemma ex_b2_new : ex_b2 ∉ [ex_b1].
Proof. intros ?%list_elem_of_singleton. discriminate. Qed.

Lemma ex_rep1 : om_rep ex_mem ex_map1 [ex_b1].
Proof.
  pose proof (wp_insert_rep (λ _, true) ex_mem (OffsetMap ENull MIN_BLOCK_BITS) [] [ex_b1]
    ex_b1 ex_d1 15 16 (Dram 0 1) (om_rep_empty _) eq_refl ex_range1 (not_elem_of_nil _)
    (elem_of_cons_iff _ _)) as H.
  ospecialize (H _ _); [by intros b' bd' ?%not_elem_of_nil|done|].
  unfold ex_map1. apply wp_ok in H as ([ret m'] & d' & -> & _ & _ & Hret & Hpost).
  apply Hpost, Hret. intros _. reflexivity.
Qed.

Lemma ex_disjoint b' bd' : b' ∈ [ex_b1] → ex_mem b' = Some bd' → disjoint_blocks ex_d2 bd'.
Proof. intros ->%list_elem_of_singleton [= <-]. left. unfold ex_d1, ex_d2. simpl. lia. Qed.

Lemma ex_rep2 : om_rep ex_mem ex_map2 [ex_b2; ex_b1].
Proof.
  pose proof (wp_insert_rep (λ _, true) ex_mem ex_map1 [ex_b1] [ex_b2; ex_b1]
    ex_b2 ex_d2 0 1 (Dram 3 4) ex_rep1 eq_refl ex_range2 ex_b2_new (elem_of_cons_iff _ _)
    ex_disjoint (λ _, eq_refl)) as H.
  unfold ex_map2. apply wp_ok in H as ([ret m'] & d' & -> & _ & _ & Hret & Hpost).
  apply Hpost, Hret. intros _. reflexivity.
Qed.

Lemma ex_remove2 x : x ∈ [ex_b1] ↔ x ≠ ex_b2 ∧ x ∈ [ex_b2; ex_b1].
Proof.
  rewrite list_elem_of_singleton, elem_of_cons_iff, list_elem_of_singleton.
  split; [intros ->; split; [discriminate|by right]|]. intros [? [?|?]]; [contradiction|done].
Qed.

Lemma ex_chain : block_chain ex_mem [ex_b2; ex_b1].
Proof.
  split.
  - intros [|[|i]] [|[|j]] bi bj di dj; try lia; simpl; try done. by intros _ [= <-] [= <-] [= <-] [= <-].
  - intros [|[|i]] b bd; simpl; [..|done]; by intros [= <-] [= <-].
Qed.

Lemma block_find_closest_witness : ∃ r,
  block_find_closest ex_mem ex_map2 0x8000 (Dram 0 0) = Ok r (Dram 0 0) ∧ r = Some ex_b2.
Proof.
  destruct (block_find_closest_correct ex_mem ex_map2 [ex_b2; ex_b1] 0x8000 (Dram 0 0)
    ex_rep2 ex_chain ltac:(lia)) as (r & Hrun & _).
  exists r. split; [exact Hrun|]. cut (Ok r (Dram 0 0) = Ok (Some ex_b2) (Dram 0 0)); [by intros [= ->]|].
  rewrite <-Hrun. vm_compute. reflexivity.
Defined.

Lemma insert_block_witness : ∃ m' d',
  insert_block (λ _, true) ex_mem ex_map1 ex_b2 (Dram 3 4) = Ok (0, m') d' ∧
  om_rep ex_mem m' [ex_b2; ex_b1].
Proof.
  destruct (insert_block_correct (λ _, true) ex_mem ex_map1 [ex_b1] [ex_b2; ex_b1] ex_b2 ex_d2 0 1
    (Dram 3 4) ex_rep1 eq_refl ex_range2 ex_b2_new (elem_of_cons_iff _ _) ex_disjoint
    (λ _, eq_refl)) as (m' & d' & Hrun & Hrep & _).
  exists m', d'. split; assumption.
Defined.

Lemma remove_block_witness : ∃ m' d',
  remove_block (λ _, false) ex_mem ex_map2 ex_b2 (Dram 3 4) = Ok (0, m') d' ∧
  om_rep ex_mem m' [ex_b1].
Proof.
  destruct (remove_block_correct (λ _, false) ex_mem ex_map2 [ex_b2; ex_b1] [ex_b1] ex_b2
    (Dram 3 4) ex_rep2 (proj2 (elem_of_cons_iff _ _ _) (or_introl eq_refl)) ex_remove2) as (m' & d' & Hrun & Hrep & _).
  exists m', d'. split; assumption.
Defined.

