(* ===== verification/Blocks.v ===== *)
(** Block sizes and allocation classes: blocks.c, blocks.h and the block-size
    part of [libpmemfile_posix_init] (pmemfile-posix.c).  The global variables
    [metadata_block], [data_blocks] and [block_alignment] form the record
    [block_cfg]. *)
From Stdlib Require Import Sorted.
From S2P Require Import Prelude Layout.

Definition METADATA_ID : Z := 128.
Definition FIRST_BLOCK_ID : Z := 129.
Definition CONST_BLOCK_N_UNITS : Z := 16.

Record pmem_block_info := BlockInfo {
  bi_size : Z; bi_units_per_block : Z; bi_class_id : Z;
}.

Record block_cfg := BlockCfg {
  metadata_block : pmem_block_info;
  data_blocks : list pmem_block_info;
  block_alignment : Z;
}.

Definition default_cfg : block_cfg := BlockCfg
  (BlockInfo METADATA_BLOCK_SIZE 128 0)
  [BlockInfo MIN_BLOCK_SIZE 128 0; BlockInfo (256 * 1024) 16 0;
   BlockInfo (2 * 1024 * 1024) 8 0; BlockInfo 0 0 0]
  MIN_BLOCK_SIZE.

Definition MAX_BLOCK_SIZE (c : block_cfg) : Z := UINT32_MAX - UINT32_MAX mod block_alignment c.

(** [n & ~(block_alignment - 1)] on [size_t] *)
Definition block_rounddown (c : block_cfg) (n : Z) : Z :=
  Z.land n (u64 (Z.lnot (u64 (block_alignment c - 1)))).

Definition block_roundup (c : block_cfg) (n : Z) : Z :=
  block_rounddown c (u64 (u64 (n + block_alignment c) - 1)).

Definition set_block_size (size : Z) (c : block_cfg) : option block_cfg :=
  match data_blocks c with
  | b0 :: b1 :: l =>
      Some (BlockCfg (metadata_block c)
        (BlockInfo size CONST_BLOCK_N_UNITS (bi_class_id b0) ::
         BlockInfo 0 (bi_units_per_block b1) (bi_class_id b1) :: l) size)
  | _ => None
  end.

Definition metadata_block_info (c : block_cfg) : pmem_block_info := metadata_block c.

(** The loop of [data_block_info]; [prev] is [block - 1]. *)
Fixpoint data_block_loop {S} (prev : option pmem_block_info) (blocks : list pmem_block_info)
    (size limit : Z) : M S pmem_block_info :=
  match blocks with
  | [] => fault_ OutOfBounds
  | block :: blocks' =>
      if bi_size block =? 0 then of_option OutOfBounds prev
      else if limit <? bi_size block then of_option OutOfBounds prev
      else if size <=? bi_size block then mret block
      else data_block_loop (Some block) blocks' size limit
  end.

(** A build with assertions stops at the first line; without them
    ([checked = false]) the loop runs whatever [limit] is. *)
Definition data_block_info_at (checked : bool) {S} (c : block_cfg) (size limit : Z)
    : M S pmem_block_info :=
  b0 ← of_option OutOfBounds (head (data_blocks c));
  (if checked then assert_ (bi_size b0 <=? limit) else mret tt);;
  data_block_loop None (data_blocks c) size limit.

Definition data_block_info {S} := @data_block_info_at true S.

(** [pmemobj_ctl_set] of "heap.alloc_class.<id>.desc": the control interface of
    libpmemobj is the parameter [ctl_set], a query on (id, unit size, units),
    and its macro POBJ_CLASS_ID the parameter [class_of]. *)
Section alloc_classes.
Variables (ctl_set : Z → Z → Z → Z) (class_of : Z → Z).

Definition set_alloc_class (b : pmem_block_info) (id : Z) : Z * pmem_block_info :=
  let ret := ctl_set id (bi_size b) (bi_units_per_block b) in
  if negb (ret =? 0) then (ret, b)
  else (0, BlockInfo (bi_size b) (bi_units_per_block b) (class_of id)).

Fixpoint set_alloc_classes (id : Z) (l : list pmem_block_info)
    : Z * list pmem_block_info :=
  match l with
  | [] => (0, [])
  | b :: l' =>
      if bi_size b =? 0 then (0, l)
      else
        let '(ret, b') := set_alloc_class b id in
        if negb (ret =? 0) then (ret, b' :: l')
        else let '(ret', l'') := set_alloc_classes (id + 1) l' in (ret', b' :: l'')
  end.

Definition initialize_alloc_classes (c : block_cfg) : Z * block_cfg :=
  let '(ret, mb) := set_alloc_class (metadata_block c) METADATA_ID in
  if negb (ret =? 0) then (ret, BlockCfg mb (data_blocks c) (block_alignment c))
  else
    let '(ret', l) := set_alloc_classes FIRST_BLOCK_ID (data_blocks c) in
    (ret', BlockCfg mb l (block_alignment c)).
End alloc_classes.

Definition expand_to_full_pages (c : block_cfg) (offset length : Z) : Z * Z :=
  let length := u64 (length + offset mod block_alignment c) in
  let offset := u64 (offset - offset mod block_alignment c) in
  (offset, block_roundup c length).

(** ** Load-time configuration

    What [getenv] and [strtoull] report about PMEMFILE_BLOCK_SIZE: the number
    read and whether the whole (non-empty) text was read. *)
Record env_number := EnvNumber { en_value : Z; en_complete : bool }.

Definition ULLONG_MAX : Z := 2 ^ 64 - 1.

Definition posix_block_size (c : block_cfg) (env : option env_number) : Z :=
  match env with
  | None => 0
  | Some e =>
      if negb (en_complete e) || (en_value e =? ULLONG_MAX) || (en_value e <? MIN_BLOCK_SIZE)
      then 0
      else if MAX_BLOCK_SIZE c <? en_value e then MAX_BLOCK_SIZE c
      else block_roundup c (en_value e)
  end.

(** The configuration and [pmemfile_overallocate_on_append] after
    [libpmemfile_posix_init]; [over_env] is the first character of
    PMEMFILE_OVERALLOCATE_ON_APPEND being '0'. *)
Definition libpmemfile_posix_init (env : option env_number) (over_env : bool)
    : option (block_cfg * bool) :=
  let size := posix_block_size default_cfg env in
  if size =? 0 then Some (default_cfg, negb over_env)
  else c ← set_block_size size default_cfg; Some (c, false).

(** ** Well-formed configurations *)

(** The classes before the terminator have increasing sizes, all multiples of
    the alignment, which is the smallest size and a power of two. *)
Record cfg_wf (c : block_cfg) (bs : list pmem_block_info) : Prop := {
  cw_blocks : ∃ t rest, data_blocks c = bs ++ t :: rest ∧ bi_size t = 0;
  cw_first : ∃ b0 bs', bs = b0 :: bs' ∧ bi_size b0 = block_alignment c;
  cw_size : ∀ b, b ∈ bs → (block_alignment c | bi_size b) ∧ 0 < bi_size b ≤ MAX_BLOCK_SIZE c;
  cw_sorted : StronglySorted (λ x y, bi_size x < bi_size y) bs;
  cw_pow2 : ∃ k, 14 ≤ k ≤ 31 ∧ block_alignment c = 2 ^ k;
  cw_metadata : bi_size (metadata_block c) = METADATA_BLOCK_SIZE;
}.

Section cfg.
Context (c : block_cfg) (bs : list pmem_block_info) (Hc : cfg_wf c bs).
Notation A := (block_alignment c).

Lemma cfg_align_pos : 0 < A.
Proof. destruct (cw_pow2 _ _ Hc) as (k & ? & ->). lia. Qed.

Lemma cfg_align_page : (MIN_BLOCK_SIZE | A).
Proof.
  destruct (cw_pow2 _ _ Hc) as (k & Hk & ->). change MIN_BLOCK_SIZE with (2 ^ 14).
  exists (2 ^ (k - 14)). rewrite <-Z.pow_add_r by lia. f_equal. lia.
Qed.

Lemma cfg_align_word : (A | 2 ^ 64).
Proof.
  destruct (cw_pow2 _ _ Hc) as (k & Hk & ->). exists (2 ^ (64 - k)).
  rewrite <-Z.pow_add_r by lia. f_equal. lia.
Qed.

Lemma cfg_align_max : A ≤ MAX_BLOCK_SIZE c.
Proof.
  destruct (cw_first _ _ Hc) as (b0 & bs' & -> & Hb0).
  destruct (cw_size _ _ Hc b0) as [_ ?]; [by left|lia].
Qed.

Lemma MAX_BLOCK_SIZE_bound : MAX_BLOCK_SIZE c ≤ UINT32_MAX.
Proof. unfold MAX_BLOCK_SIZE. pose proof (Z.mod_pos_bound UINT32_MAX A cfg_align_pos). lia. Qed.

(** The bit mask is a division: the page an offset is in. *)
Lemma block_rounddown_eq n : 0 ≤ n < 2 ^ 64 → block_rounddown c n = n - n mod A.
Proof.
  intros Hn. unfold block_rounddown. destruct (cw_pow2 _ _ Hc) as (k & Hk & ->).
  assert (2 ^ k ≤ 2 ^ 31) by (apply Z.pow_le_mono_r; lia).
  unfold u64 at 2. rewrite (Z.mod_small (2 ^ k - 1)) by lia.
  rewrite <-(Z.ones_equiv k : Z.ones k = 2 ^ k - 1). unfold u64.
  rewrite <-(Z.land_ones _ 64) by lia. rewrite (Z.land_comm _ (Z.ones 64)), Z.land_assoc.
  rewrite Z.land_ones, (Z.mod_small n) by lia.
  rewrite <-Z.ldiff_land, Z.ldiff_ones_r by lia.
  rewrite Z.shiftl_mul_pow2, Z.shiftr_div_pow2 by lia.
  pose proof (Z.div_mod n (2 ^ k)). lia.
Qed.

Lemma block_roundup_eq n : 0 ≤ n → n + A ≤ 2 ^ 64 →
  block_roundup c n = (n + A - 1) / A * A.
Proof.
  intros Hn Ho. pose proof cfg_align_pos. unfold block_roundup, u64.
  assert ((n + A) mod 2 ^ 64 - 1 = n + A - 1 ∨ (n + A) mod 2 ^ 64 - 1 = -1 ∧ n + A = 2 ^ 64) as [-> | [-> He]].
  { destruct (decide (n + A = 2 ^ 64)) as [He|He]; [right|left].
    - rewrite He, Z.mod_same by lia. lia.
    - rewrite Z.mod_small by lia. lia. }
  - rewrite Z.mod_small by lia. rewrite block_rounddown_eq by lia.
    pose proof (Z.div_mod (n + A - 1) A). lia.
  - change ((-1) mod 2 ^ 64) with (2 ^ 64 - 1). rewrite block_rounddown_eq by lia.
    replace (n + A - 1) with (2 ^ 64 - 1) by lia. pose proof (Z.div_mod (2 ^ 64 - 1) A). lia.
Qed.

Lemma block_roundup_bounds n : 0 ≤ n → n + A ≤ 2 ^ 64 →
  (A | block_roundup c n) ∧ n ≤ block_roundup c n < n + A.
Proof.
  intros Hn Ho. rewrite block_roundup_eq by done. pose proof cfg_align_pos.
  split; [by exists ((n + A - 1) / A)|]. pose proof (Z.div_mod (n + A - 1) A).
  pose proof (Z.mod_pos_bound (n + A - 1) A). lia.
Qed.

Lemma expand_spec offset length o' l' :
  0 ≤ offset → 0 < length → offset + length + A ≤ 2 ^ 64 →
  expand_to_full_pages c offset length = (o', l') →
  (A | o') ∧ (A | l') ∧ 0 < l' ∧ 0 ≤ o' ∧
  o' ≤ offset < o' + A ∧ offset + length ≤ o' + l' < offset + length + A.
Proof.
  intros Ho Hl Hw. unfold expand_to_full_pages. pose proof cfg_align_pos.
  pose proof (Z.mod_pos_bound offset A ltac:(lia)). pose proof (Z.mod_le offset A ltac:(lia) ltac:(lia)).
  unfold u64. rewrite (Z.mod_small (length + _)), (Z.mod_small (offset - _)) by lia. intros [= <- <-].
  destruct (block_roundup_bounds (length + offset mod A)) as [? ?]; [lia..|].
  split; [|split_and!; done || lia]. exists (offset / A). pose proof (Z.div_mod offset A). lia.
Qed.

End cfg.

(** ** Choosing a block class *)

(** [b] is the class of [bs] to use for [size] bytes in a gap of [limit] bytes:
    it fits the gap; it is the smallest class that holds [size] if one fits
    the gap, and the largest class that fits the gap otherwise. *)
Record best_class (bs : list pmem_block_info) (size limit : Z) (b : pmem_block_info) : Prop := {
  best_in : b ∈ bs;
  best_fits : bi_size b ≤ limit;
  best_smallest : ∀ b', b' ∈ bs → bi_size b' ≤ limit → size ≤ bi_size b' → bi_size b ≤ bi_size b';
  best_largest : bi_size b < size → ∀ b', b' ∈ bs → bi_size b' ≤ limit → bi_size b' ≤ bi_size b;
}.

Lemma sorted_head x l y : StronglySorted (λ x y, bi_size x < bi_size y) (x :: l) →
  y ∈ x :: l → y = x ∨ bi_size x < bi_size y.
Proof.
  intros [_ Hall]%StronglySorted_inv [-> | Hy]%elem_of_cons; [by left|right].
  rewrite Forall_forall in Hall. by apply Hall.
Qed.

Lemma data_block_loop_spec {S} (s : S) size limit t rest bs : ∀ prev,
  bi_size t = 0 → (∀ b, b ∈ bs → 0 < bi_size b) →
  StronglySorted (λ x y, bi_size x < bi_size y) (prev :: bs) →
  bi_size prev ≤ limit → bi_size prev < size →
  ∃ b, data_block_loop (Some prev) (bs ++ t :: rest) size limit s = Ok b s ∧
    best_class (prev :: bs) size limit b.
Proof.
  induction bs as [|b bs IH]; intros prev Ht Hpos Hsort Hlim Hsz; cbn [app data_block_loop].
  { rewrite Ht. exists prev. split; [done|]. split; [by left|done|..];
    intros; set_unfold; destruct_or?; subst; done || lia. }
  pose proof (Hpos b ltac:(by left)). zcase (bi_size b =? 0); [lia|].
  pose proof (StronglySorted_inv Hsort) as [Hsort' _].
  zcase (limit <? bi_size b); [|zcase (size <=? bi_size b)].
  - exists prev. split; [done|]. split; [by left|done|..]; intros;
      repeat match goal with H : _ ∈ prev :: _ |- _ =>
        apply elem_of_cons in H as [-> | H]; [lia|] end;
      match goal with H : _ ∈ b :: _ |- _ => apply (sorted_head _ _ _ Hsort') in H as [-> | ?]; lia end.
  - exists b. split; [done|]. split; [by right; left|done| |lia]. intros b' Hb' _ ?.
    apply elem_of_cons in Hb' as [-> | Hb']; [lia|].
    apply (sorted_head _ _ _ Hsort') in Hb' as [-> | ?]; lia.
  - destruct (IH b) as (r & Hr & [Hin Hfit Hs Hl]); [done|by intros; apply Hpos; right|done|done|done|].
    exists r. split; [done|]. split; [by right|done|..].
    + intros b' [-> | Hb']%elem_of_cons ? ?; [lia|by apply Hs].
    + intros ? b' [-> | Hb']%elem_of_cons ?; [|by apply Hl].
      assert (r ∈ prev :: b :: bs) as Hr' by (by right).
      apply (sorted_head _ _ _ Hsort) in Hr' as [-> | ?]; lia.
Qed.

Lemma data_block_info_spec {S} c bs size limit (s : S) :
  cfg_wf c bs → block_alignment c ≤ limit →
  ∃ b, data_block_info c size limit s = Ok b s ∧ best_class bs size limit b.
Proof.
  intros Hc Hlim. destruct (cw_first _ _ Hc) as (b0 & bs' & -> & Hb0).
  destruct (cw_blocks _ _ Hc) as (t & rest & Hbs & Ht).
  unfold data_block_info, data_block_info_at. rewrite Hbs. cbn [app head data_block_loop of_option].
  unfold mbind, M_bind, mret, M_ret, assert_.
  assert (bi_size b0 <=? limit = true) as -> by (apply Z.leb_le; lia).
  destruct (cw_size _ _ Hc b0) as [_ Hpos]; [by left|].
  zcase (bi_size b0 =? 0); [lia|]. zcase (limit <? bi_size b0); [lia|].
  zcase (size <=? bi_size b0).
  - exists b0. split; [done|]. split; [by left|done| |lia].
    intros b' Hb' _ _. apply (sorted_head _ _ _ (cw_sorted _ _ Hc)) in Hb' as [-> | ?]; lia.
  - apply data_block_loop_spec; [done| |apply Hc|done|done].
    intros b Hb. apply (cw_size _ _ Hc). by right.
Qed.

Lemma default_cfg_wf : cfg_wf default_cfg (take 3 (data_blocks default_cfg)).
Proof.
  split.
  - by exists (BlockInfo 0 0 0), [].
  - by eexists _, _.
  - intros b Hb. cbn in Hb. set_unfold. destruct_or! Hb; subst; split; try done;
      by apply Z.mod_divide.
  - repeat constructor.
  - by exists 14.
  - done.
Qed.

(** A block size set by the administrator that is a power of two. *)
Lemma const_cfg_wf k u id b1 rest mb : 14 ≤ k ≤ 31 → bi_size b1 = 0 →
  bi_size mb = METADATA_BLOCK_SIZE →
  cfg_wf (BlockCfg mb (BlockInfo (2 ^ k) u id :: b1 :: rest) (2 ^ k)) [BlockInfo (2 ^ k) u id].
Proof.
  intros Hk Hb1 Hmb. assert (2 ^ 14 ≤ 2 ^ k) by (apply Z.pow_le_mono_r; lia).
  split; cbn [data_blocks block_alignment].
  - by exists b1, rest.
  - by eexists _, _.
  - intros b ->%list_elem_of_singleton. split; [done|]. cbn [bi_size].
    unfold MAX_BLOCK_SIZE, UINT32_MAX. cbn [block_alignment].
    assert (2 ^ 32 = 2 ^ (32 - k) * 2 ^ k) as Hp by (rewrite <-Z.pow_add_r by lia; f_equal; lia).
    assert (2 ^ 1 ≤ 2 ^ (32 - k)) by (apply Z.pow_le_mono_r; lia).
    rewrite Hp. replace (2 ^ (32 - k) * 2 ^ k - 1) with (2 ^ k - 1 + (2 ^ (32 - k) - 1) * 2 ^ k) by lia.
    rewrite Z.mod_add, Z.mod_small by lia. nia.
  - repeat constructor.
  - by exists k.
  - done.
Qed.

(** ** Main results *)

(** C37: when the alignment is a power of two, [expand_to_full_pages] returns the
    smallest interval of whole pages that contains the given one: both ends
    are multiples of the alignment, the given interval lies inside, and
    neither end is moved by a page or more.  It holds up to the last interval
    whose expansion fits in 64 bits. *)
Theorem expand_to_full_pages_correct c bs offset length :
  cfg_wf c bs → 0 ≤ offset → 0 < length → offset + length + block_alignment c ≤ 2 ^ 64 →
  ∃ o' l', expand_to_full_pages c offset length = (o', l') ∧
    (block_alignment c | o') ∧ (block_alignment c | o' + l') ∧ 0 ≤ o' ∧
    o' ≤ offset < o' + block_alignment c ∧
    offset + length ≤ o' + l' < offset + length + block_alignment c.
Proof.
  intros Hc ???. destruct (expand_to_full_pages c offset length) as [o' l'] eqn:He.
  destruct (expand_spec c bs Hc _ _ _ _ ltac:(done) ltac:(done) ltac:(done) He) as (?&?&?&?&?&?).
  exists o', l'. split_and!; done || lia || by apply Z.divide_add_r.
Qed.

Lemma expand_to_full_pages_witness : ∃ o' l',
  expand_to_full_pages default_cfg 20000 15000 = (o', l') ∧ o' = 16384 ∧ l' = 32768.
Proof.
  destruct (expand_to_full_pages_correct default_cfg _ 20000 15000 default_cfg_wf) as (o' & l' & He & _);
    [lia|lia|done|].
  exists o', l'. split; [exact He|]. vm_compute in He. by simplify_eq.
Defined.

(** [data_block_info] returns a class that fits in [limit]; it is the
    smallest class holding [size] bytes when such a class fits in [limit], and
    the largest class that fits in [limit] otherwise.  It neither faults nor
    changes anything whenever [limit] admits the smallest class. *)
Theorem data_block_info_correct (S : Type) c bs size limit (s : S) :
  cfg_wf c bs → block_alignment c ≤ limit →
  ∃ b, data_block_info c size limit s = Ok b s ∧ best_class bs size limit b.
Proof. apply data_block_info_spec. Qed.

Lemma data_block_info_witness : ∃ b,
  data_block_info default_cfg 300000 1000000 tt = Ok b tt ∧ bi_size b = 262144.
Proof.
  destruct (data_block_info_correct unit default_cfg _ 300000 1000000 tt default_cfg_wf)
    as (b & Hb & _); [done|].
  exists b. split; [exact Hb|]. vm_compute in Hb. by simplify_eq.
Defined.

(** The load-time configuration is well formed when PMEMFILE_BLOCK_SIZE is
    unset, and when it is a power of two between 2^14 and 2^31; in the second
    case there is a single class of exactly that size and no overallocation. *)
Theorem posix_init_well_formed k over_env :
  14 ≤ k ≤ 31 →
  libpmemfile_posix_init None over_env = Some (default_cfg, negb over_env) ∧
  (∃ bs, cfg_wf default_cfg bs) ∧
  ∃ c b, libpmemfile_posix_init (Some (EnvNumber (2 ^ k) true)) over_env = Some (c, false) ∧
    cfg_wf c [b] ∧ bi_size b = 2 ^ k ∧ block_alignment c = 2 ^ k.
Proof.
  intros Hk. split; [done|]. split; [eexists; apply default_cfg_wf|].
  assert (2 ^ 14 ≤ 2 ^ k ≤ 2 ^ 31) by (split; apply Z.pow_le_mono_r; lia).
  assert (posix_block_size default_cfg (Some (EnvNumber (2 ^ k) true)) = 2 ^ k) as Hs.
  { unfold posix_block_size. cbn [en_complete en_value negb orb].
    change ULLONG_MAX with (2 ^ 64 - 1). change MIN_BLOCK_SIZE with (2 ^ 14).
    change (MAX_BLOCK_SIZE default_cfg) with 4294950912.
    zcase (2 ^ k =? 2 ^ 64 - 1); [lia|]. zcase (2 ^ k <? 2 ^ 14); [lia|]. cbn [orb].
    zcase (4294950912 <? 2 ^ k); [lia|].
    rewrite (block_roundup_eq _ _ default_cfg_wf) by (change (block_alignment default_cfg) with 16384; lia).
    change (block_alignment default_cfg) with (2 ^ 14).
    replace (2 ^ k) with (2 ^ (k - 14) * 2 ^ 14) by (rewrite <-Z.pow_add_r by lia; f_equal; lia).
    replace (2 ^ (k - 14) * 2 ^ 14 + 2 ^ 14 - 1) with (2 ^ 14 - 1 + 2 ^ (k - 14) * 2 ^ 14) by lia.
    by rewrite Z.div_add. }
  unfold libpmemfile_posix_init. rewrite Hs. zcase (2 ^ k =? 0); [lia|].
  cbn [set_block_size data_blocks default_cfg mbind option_bind].
  eexists _, _. split; [done|]. split; [by apply const_cfg_wf|done].
Qed.

Lemma posix_init_well_formed_witness :
  ∃ c b, libpmemfile_posix_init (Some (EnvNumber (2 ^ 16) true)) false = Some (c, false) ∧
    cfg_wf c [b] ∧ bi_size b = 2 ^ 16 ∧ block_alignment c = 2 ^ 16.
Proof. by apply (posix_init_well_formed 16 false). Defined.

(** PMEMFILE_BLOCK_SIZE is only rounded up to a multiple of 16 KiB.  With
    48 KiB the mask of [block_rounddown] no longer computes multiples of the
    alignment: [expand_to_full_pages] turns one byte at offset 0 into an
    interval of 16 KiB, and choosing a class for a gap of that size (the
    case of a hole before the first block) reads [data_blocks\[-1\]] in a build
    without assertions and stops at the ASSERT in a build with them. *)
Theorem block_size_not_power_of_two : ∃ c,
  libpmemfile_posix_init (Some (EnvNumber 49152 true)) false = Some (c, false) ∧
  block_alignment c = 49152 ∧
  expand_to_full_pages c 0 1 = (0, 16384) ∧
  data_block_info_at false c 16384 16384 tt = Fault OutOfBounds ∧
  data_block_info_at true c 16384 16384 tt = Fault AssertFail.
Proof. eexists. repeat split; vm_compute; reflexivity. Qed.
