(* ===== verification/Inode.v ===== *)
(** The persistent inode of layout.h and the accessors of inode.h: every field
    that changes while the file is in use has two slots, and the bits of
    [slots] say which of the two is valid. *)
From S2P Require Import Prelude.

Record pmemfile_time := Time { tm_sec : Z; tm_nsec : Z }.

(** [T field[2]] *)
Record slot2 (A : Type) := Slot2 { slot0 : A; slot1 : A }.
Arguments Slot2 {_} _ _.
Arguments slot0 {_} _.
Arguments slot1 {_} _.

Definition sget {A} (i : bool) (x : slot2 A) : A := if i then slot1 x else slot0 x.
Definition sset {A} (i : bool) (v : A) (x : slot2 A) : slot2 A :=
  if i then Slot2 (slot0 x) v else Slot2 v (slot1 x).

(** [union pmemfile_inode_slots]: written with one 8-byte store. *)
Record inode_slots := Slots {
  s_atime : bool; s_ctime : bool; s_mtime : bool; s_nlink : bool;
  s_size : bool; s_allocated_space : bool; s_flags : bool;
}.

Record inode := Inode {
  i_version : Z; i_uid : Z; i_gid : Z; i_suspended_references : Z;
  i_flags : slot2 Z; i_allocated_space : slot2 Z; i_size : slot2 Z; i_nlink : slot2 Z;
  i_atime : slot2 pmemfile_time; i_ctime : slot2 pmemfile_time; i_mtime : slot2 pmemfile_time;
  i_slots : inode_slots;
}.

(** ** Slot selection *)

(** [(slots.bits.x + 1) % 2] *)
Definition next_slot (b : bool) : bool := negb b.

Definition inode_next_atime_slot (i : inode) : bool := next_slot (s_atime (i_slots i)).
Definition inode_next_mtime_slot (i : inode) : bool := next_slot (s_mtime (i_slots i)).
Definition inode_next_ctime_slot (i : inode) : bool := next_slot (s_ctime (i_slots i)).
Definition inode_next_nlink_slot (i : inode) : bool := next_slot (s_nlink (i_slots i)).
Definition inode_next_size_slot (i : inode) : bool := next_slot (s_size (i_slots i)).
Definition inode_next_allocated_space_slot (i : inode) : bool :=
  next_slot (s_allocated_space (i_slots i)).
Definition inode_next_flags_slot (i : inode) : bool := next_slot (s_flags (i_slots i)).

(** ** Getters *)

Definition inode_get_atime (i : inode) : pmemfile_time := sget (s_atime (i_slots i)) (i_atime i).
Definition inode_get_ctime (i : inode) : pmemfile_time := sget (s_ctime (i_slots i)) (i_ctime i).
Definition inode_get_mtime (i : inode) : pmemfile_time := sget (s_mtime (i_slots i)) (i_mtime i).
Definition inode_get_nlink (i : inode) : Z := sget (s_nlink (i_slots i)) (i_nlink i).
Definition inode_get_size (i : inode) : Z := sget (s_size (i_slots i)) (i_size i).
Definition inode_get_allocated_space (i : inode) : Z :=
  sget (s_allocated_space (i_slots i)) (i_allocated_space i).
Definition inode_get_flags (i : inode) : Z := sget (s_flags (i_slots i)) (i_flags i).

(** ** Field updates *)

Definition set_i_flags (x : slot2 Z) (i : inode) : inode :=
  Inode (i_version i) (i_uid i) (i_gid i) (i_suspended_references i) x (i_allocated_space i)
    (i_size i) (i_nlink i) (i_atime i) (i_ctime i) (i_mtime i) (i_slots i).
Definition set_i_allocated_space (x : slot2 Z) (i : inode) : inode :=
  Inode (i_version i) (i_uid i) (i_gid i) (i_suspended_references i) (i_flags i) x
    (i_size i) (i_nlink i) (i_atime i) (i_ctime i) (i_mtime i) (i_slots i).
Definition set_i_size (x : slot2 Z) (i : inode) : inode :=
  Inode (i_version i) (i_uid i) (i_gid i) (i_suspended_references i) (i_flags i)
    (i_allocated_space i) x (i_nlink i) (i_atime i) (i_ctime i) (i_mtime i) (i_slots i).
Definition set_i_nlink (x : slot2 Z) (i : inode) : inode :=
  Inode (i_version i) (i_uid i) (i_gid i) (i_suspended_references i) (i_flags i)
    (i_allocated_space i) (i_size i) x (i_atime i) (i_ctime i) (i_mtime i) (i_slots i).
Definition set_i_atime (x : slot2 pmemfile_time) (i : inode) : inode :=
  Inode (i_version i) (i_uid i) (i_gid i) (i_suspended_references i) (i_flags i)
    (i_allocated_space i) (i_size i) (i_nlink i) x (i_ctime i) (i_mtime i) (i_slots i).
Definition set_i_ctime (x : slot2 pmemfile_time) (i : inode) : inode :=
  Inode (i_version i) (i_uid i) (i_gid i) (i_suspended_references i) (i_flags i)
    (i_allocated_space i) (i_size i) (i_nlink i) (i_atime i) x (i_mtime i) (i_slots i).
Definition set_i_mtime (x : slot2 pmemfile_time) (i : inode) : inode :=
  Inode (i_version i) (i_uid i) (i_gid i) (i_suspended_references i) (i_flags i)
    (i_allocated_space i) (i_size i) (i_nlink i) (i_atime i) (i_ctime i) x (i_slots i).
Definition set_i_slots (x : inode_slots) (i : inode) : inode :=
  Inode (i_version i) (i_uid i) (i_gid i) (i_suspended_references i) (i_flags i)
    (i_allocated_space i) (i_size i) (i_nlink i) (i_atime i) (i_ctime i) (i_mtime i) x.

(** ** Transactional setters: [TX_ADD_DIRECT] of the valid slot, then a store
    to it.  The undo record is the old value of that slot (see [Pmem]). *)

Definition inode_tx_set_atime (tm : pmemfile_time) (i : inode) : inode :=
  set_i_atime (sset (s_atime (i_slots i)) tm (i_atime i)) i.
Definition inode_tx_set_mtime (tm : pmemfile_time) (i : inode) : inode :=
  set_i_mtime (sset (s_mtime (i_slots i)) tm (i_mtime i)) i.
Definition inode_tx_set_ctime (tm : pmemfile_time) (i : inode) : inode :=
  set_i_ctime (sset (s_ctime (i_slots i)) tm (i_ctime i)) i.
Definition inode_tx_inc_nlink (i : inode) : inode :=
  set_i_nlink (sset (s_nlink (i_slots i)) (u64 (inode_get_nlink i + 1)) (i_nlink i)) i.
Definition inode_tx_dec_nlink (i : inode) : inode :=
  set_i_nlink (sset (s_nlink (i_slots i)) (u64 (inode_get_nlink i - 1)) (i_nlink i)) i.
Definition inode_tx_set_size (sz : Z) (i : inode) : inode :=
  set_i_size (sset (s_size (i_slots i)) sz (i_size i)) i.
Definition inode_tx_set_allocated_space (sz : Z) (i : inode) : inode :=
  if inode_get_allocated_space i =? sz then i
  else set_i_allocated_space (sset (s_allocated_space (i_slots i)) sz (i_allocated_space i)) i.
Definition inode_tx_set_flags (f : Z) (i : inode) : inode :=
  set_i_flags (sset (s_flags (i_slots i)) f (i_flags i)) i.

(** ** File types *)

Definition PMEMFILE_S_IFMT : Z := 0xF000.
Definition PMEMFILE_S_IFREG : Z := 0x8000.
Definition PMEMFILE_S_IFDIR : Z := 0x4000.
Definition PMEMFILE_S_IFLNK : Z := 0xA000.
Definition PMEMFILE_S_LONGSYMLINK : Z := 0x10000.

Definition inode_is_dir (i : inode) : bool :=
  Z.land (inode_get_flags i) PMEMFILE_S_IFMT =? PMEMFILE_S_IFDIR.
Definition inode_is_regular_file (i : inode) : bool :=
  Z.land (inode_get_flags i) PMEMFILE_S_IFMT =? PMEMFILE_S_IFREG.
Definition inode_is_symlink (i : inode) : bool :=
  Z.land (inode_get_flags i) PMEMFILE_S_IFMT =? PMEMFILE_S_IFLNK.
Definition inode_is_longsymlink (i : inode) : bool :=
  inode_is_symlink i && negb (Z.land (inode_get_flags i) PMEMFILE_S_LONGSYMLINK =? 0).

Lemma sget_sset {A} (i : bool) (v : A) x : sget i (sset i v x) = v.
Proof. by destruct i. Qed.
Lemma sget_sset_ne {A} (i j : bool) (v : A) x : i ≠ j → sget i (sset j v x) = sget i x.
Proof. by destruct i, j. Qed.
