(* ===== verification/FileState.v ===== *)
(** The state of one regular file: the persistent objects (block arrays, block
    data, inode), the open transaction with its undo log, the volatile inode
    and the volatile allocator; with the primitives of libpmemobj the data
    path uses ([TX_ADD_DIRECT], [TX_SET_DIRECT], [TX_XALLOC], [TX_FREE], abort
    and commit). *)
From S2P Require Import Prelude Layout Inode OffsetMap.

(** ** Persistent objects *)

(** [struct pmemfile_block_array]; [ba_blocks] is the storage of the object. *)
Record block_array := BlockArray {
  ba_version : Z; ba_next : option oid; ba_length : nat; ba_blocks : list block_desc;
}.

Definition zero_desc : block_desc := BlockDesc None 0 0 0 None None.

(** The contents of a data block: a byte for each position. *)
Notation bytes := (Z → Z) (only parsing).

Record pmem := Pmem {
  pm_arrays : gmap aid block_array;
  pm_data : gmap oid bytes;
  pm_inode : inode;
}.

(** One entry of the undo log: what a snapshot saved, or an object that exists
    only if the transaction commits. *)
Inductive undo :=
  | UDesc (p : bptr) (old : block_desc)
  | UNext (p : bptr) (old : option bptr)
  | UPrev (p : bptr) (old : option bptr)
  | UArrayNext (a : aid) (old : option oid)
  | UNewArray (o : oid)
  | UNewData (o : oid)
  | UData (o : oid) (from len : Z) (old : bytes)
  | USize (slot : bool) (old : Z)
  | UAllocatedSpace (slot : bool) (old : Z)
  | UMtime (slot : bool) (old : pmemfile_time)
  | UCtime (slot : bool) (old : pmemfile_time).

(** Objects released by [TX_FREE]: they disappear when the transaction commits. *)
Inductive released := FreeArray (o : oid) | FreeData (o : oid).

Record tx := Tx { tx_log : list undo; tx_frees : list released }.

(** ** Volatile inode ([struct pmemfile_vinode], the fields of the data path) *)
Record vinode := Vinode {
  v_first_free_block : option (aid * nat);
  v_first_block : option bptr;
  v_blocks : option offset_map;
  v_block_pointer_invalidation_counter : Z;
  v_snapshot : option (aid * nat) * option bptr;
}.

(** [fs_tx = None] is TX_STAGE_NONE, [Some _] TX_STAGE_WORK. *)
Record fstate := FState {
  fs_pm : pmem; fs_tx : option tx; fs_v : vinode; fs_dram : dram;
}.

(** ** Field updates *)

Definition set_pm (x : pmem) (s : fstate) := FState x (fs_tx s) (fs_v s) (fs_dram s).
Definition set_tx (x : option tx) (s : fstate) := FState (fs_pm s) x (fs_v s) (fs_dram s).
Definition set_v (x : vinode) (s : fstate) := FState (fs_pm s) (fs_tx s) x (fs_dram s).
Definition set_dram (x : dram) (s : fstate) := FState (fs_pm s) (fs_tx s) (fs_v s) x.
Definition set_first_free x (v : vinode) := Vinode x (v_first_block v) (v_blocks v)
  (v_block_pointer_invalidation_counter v) (v_snapshot v).
Definition set_first_block x (v : vinode) := Vinode (v_first_free_block v) x (v_blocks v)
  (v_block_pointer_invalidation_counter v) (v_snapshot v).
Definition set_blocks x (v : vinode) := Vinode (v_first_free_block v) (v_first_block v) x
  (v_block_pointer_invalidation_counter v) (v_snapshot v).
Definition set_counter x (v : vinode) := Vinode (v_first_free_block v) (v_first_block v) (v_blocks v)
  x (v_snapshot v).
Definition set_snapshot x (v : vinode) := Vinode (v_first_free_block v) (v_first_block v) (v_blocks v)
  (v_block_pointer_invalidation_counter v) x.
Definition set_arrays x (p : pmem) := Pmem x (pm_data p) (pm_inode p).
Definition set_data x (p : pmem) := Pmem (pm_arrays p) x (pm_inode p).
Definition set_inode x (p : pmem) := Pmem (pm_arrays p) (pm_data p) x.
Definition set_bd_data x (d : block_desc) :=
  BlockDesc x (bd_size d) (bd_flags d) (bd_offset d) (bd_next d) (bd_prev d).
Definition set_bd_size x (d : block_desc) :=
  BlockDesc (bd_data d) x (bd_flags d) (bd_offset d) (bd_next d) (bd_prev d).
Definition set_bd_flags x (d : block_desc) :=
  BlockDesc (bd_data d) (bd_size d) x (bd_offset d) (bd_next d) (bd_prev d).
Definition set_bd_offset x (d : block_desc) :=
  BlockDesc (bd_data d) (bd_size d) (bd_flags d) x (bd_next d) (bd_prev d).
Definition set_bd_next x (d : block_desc) :=
  BlockDesc (bd_data d) (bd_size d) (bd_flags d) (bd_offset d) x (bd_prev d).
Definition set_bd_prev x (d : block_desc) :=
  BlockDesc (bd_data d) (bd_size d) (bd_flags d) (bd_offset d) (bd_next d) x.
Definition set_ba_next x (a : block_array) := BlockArray (ba_version a) x (ba_length a) (ba_blocks a).
Definition set_ba_blocks x (a : block_array) := BlockArray (ba_version a) (ba_next a) (ba_length a) x.

(** ** Block descriptors in the arrays *)

Definition desc_at (arrs : gmap aid block_array) (p : bptr) : option block_desc :=
  a ← arrs !! p.1; ba_blocks a !! p.2.

Definition desc_upd (p : bptr) (f : block_desc → block_desc) (arrs : gmap aid block_array)
    : gmap aid block_array :=
  alter (λ a, set_ba_blocks (alter f p.2 (ba_blocks a)) a) p.1 arrs.

(** ** Undoing *)

Definition restore_range (from len : Z) (old cur : bytes) : bytes :=
  λ i, if (from <=? i) && (i <? from + len) then old i else cur i.

Definition apply_undo (u : undo) (p : pmem) : pmem :=
  match u with
  | UDesc b old => set_arrays (desc_upd b (λ _, old) (pm_arrays p)) p
  | UNext b old => set_arrays (desc_upd b (set_bd_next old) (pm_arrays p)) p
  | UPrev b old => set_arrays (desc_upd b (set_bd_prev old) (pm_arrays p)) p
  | UArrayNext a old => set_arrays (alter (set_ba_next old) a (pm_arrays p)) p
  | UNewArray o => set_arrays (delete (Some o) (pm_arrays p)) p
  | UNewData o => set_data (delete o (pm_data p)) p
  | UData o from len old => set_data (alter (restore_range from len old) o (pm_data p)) p
  | USize i old => set_inode (set_i_size (sset i old (i_size (pm_inode p))) (pm_inode p)) p
  | UAllocatedSpace i old =>
      set_inode (set_i_allocated_space (sset i old (i_allocated_space (pm_inode p))) (pm_inode p)) p
  | UMtime i old => set_inode (set_i_mtime (sset i old (i_mtime (pm_inode p))) (pm_inode p)) p
  | UCtime i old => set_inode (set_i_ctime (sset i old (i_ctime (pm_inode p))) (pm_inode p)) p
  end.

(** The log holds the newest entry first. *)
Fixpoint rollback (log : list undo) (p : pmem) : pmem :=
  match log with [] => p | u :: log' => rollback log' (apply_undo u p) end.

Definition apply_free (r : released) (p : pmem) : pmem :=
  match r with
  | FreeArray o => set_arrays (delete (Some o) (pm_arrays p)) p
  | FreeData o => set_data (delete o (pm_data p)) p
  end.

(** ** Transactions *)

Definition assert_in_tx : M fstate unit := t ← gets fs_tx; assert_ (bool_decide (is_Some t)).
Definition assert_not_in_tx : M fstate unit := t ← gets fs_tx; assert_ (bool_decide (t = None)).

(** [TX_BEGIN(pop) { body } TX_ONABORT { on_abort } TX_END]: the body runs with
    an empty log; on a normal end the releases take effect, on an abort the
    log is undone and the handler runs with the error code.  [get] and [set]
    give the state of the file inside the state of the program. *)
Definition tx_commit (t : tx) (s : fstate) : fstate :=
  set_tx None (set_pm (foldr apply_free (fs_pm s) (tx_frees t)) s).

Definition tx_rollback (t : tx) (s : fstate) : fstate :=
  set_tx None (set_pm (rollback (tx_log t) (fs_pm s)) s).

Definition tx_begin_on {S A} (get : S → fstate) (set : fstate → S → S)
    (body : M S A) (on_abort : Z → M S A) : M S A :=
  λ s,
    match fs_tx (get s) with
    | Some _ => Fault AssertFail
    | None =>
        match body (set (set_tx (Some (Tx [] [])) (get s)) s) with
        | Ok a s' =>
            match fs_tx (get s') with
            | Some t => Ok a (set (tx_commit t (get s')) s')
            | None => Fault AssertFail
            end
        | Abort e s' =>
            match fs_tx (get s') with
            | Some t => on_abort e (set (tx_rollback t (get s')) s')
            | None => Fault AssertFail
            end
        | Fault f => Fault f
        end
    end.

Definition tx_begin {A} (body : M fstate A) (on_abort : Z → M fstate A) : M fstate A :=
  tx_begin_on id (λ x _, x) body on_abort.

Definition tx_record (u : undo) : M fstate unit :=
  t ← gets fs_tx;
  match t with
  | None => fault_ AssertFail
  | Some t => modify (set_tx (Some (Tx (u :: tx_log t) (tx_frees t))))
  end.

Definition tx_release (r : released) : M fstate unit :=
  t ← gets fs_tx;
  match t with
  | None => fault_ AssertFail
  | Some t => modify (set_tx (Some (Tx (tx_log t) (r :: tx_frees t))))
  end.

(** ** Access to block descriptors *)

Definition desc_get (p : bptr) : M fstate block_desc :=
  arrs ← gets (λ s, pm_arrays (fs_pm s)); of_option BadPointer (desc_at arrs p).

Definition desc_modify (p : bptr) (f : block_desc → block_desc) : M fstate unit :=
  _ ← desc_get p;
  modify (λ s, set_pm (set_arrays (desc_upd p f (pm_arrays (fs_pm s))) (fs_pm s)) s).

(** Dereferencing a possibly NULL pointer. *)
Definition deref (p : option bptr) : M fstate bptr := of_option NullDeref p.

(** [TX_ADD_DIRECT(block)] *)
Definition tx_add_desc (p : bptr) : M fstate unit := d ← desc_get p; tx_record (UDesc p d).
(** [TX_SET_DIRECT(block, next, v)] *)
Definition tx_set_next (p : bptr) (v : option bptr) : M fstate unit :=
  d ← desc_get p; tx_record (UNext p (bd_next d));; desc_modify p (set_bd_next v).
(** [TX_SET_DIRECT(block, prev, v)] *)
Definition tx_set_prev (p : bptr) (v : option bptr) : M fstate unit :=
  d ← desc_get p; tx_record (UPrev p (bd_prev d));; desc_modify p (set_bd_prev v).

Definition array_get (a : aid) : M fstate block_array :=
  arrs ← gets (λ s, pm_arrays (fs_pm s)); of_option BadPointer (arrs !! a).

(** [TX_SET_DIRECT(array, next, v)] *)
Definition tx_set_array_next (a : aid) (v : option oid) : M fstate unit :=
  arr ← array_get a; tx_record (UArrayNext a (ba_next arr));;
  modify (λ s, set_pm (set_arrays (alter (set_ba_next v) a (pm_arrays (fs_pm s))) (fs_pm s)) s).

(** ** The persistent allocator

    libpmemobj's allocator is the parameter [palloc]: given the heap and a size
    it returns a new object or fails, in which case [TX_XALLOC] aborts the
    transaction with ENOMEM.  [garbage] is what an object that was not
    zeroed contains. *)
Class Pobj := {
  palloc : pmem → Z → option oid;
  garbage : oid → bytes;
}.

(** What the code relies on: a new object is not one of those in use. *)
Class PobjOk `{!Pobj} : Prop := {
  palloc_fresh_array p size o : palloc p size = Some o → pm_arrays p !! Some o = None;
  palloc_fresh_data p size o : palloc p size = Some o → pm_data p !! o = None;
}.

Section alloc.
Context `{!Pobj}.

Definition tx_xalloc_array (size : Z) (arr : block_array) : M fstate oid :=
  p ← gets fs_pm;
  match palloc p size with
  | None => tx_abort ENOMEM
  | Some o =>
      tx_record (UNewArray o);;
      modify (λ s, set_pm (set_arrays (<[Some o := arr]> (pm_arrays (fs_pm s))) (fs_pm s)) s);;
      mret o
  end.

Definition tx_xalloc_data (size : Z) : M fstate oid :=
  p ← gets fs_pm;
  match palloc p size with
  | None => tx_abort ENOMEM
  | Some o =>
      tx_record (UNewData o);;
      modify (λ s, set_pm (set_data (<[o := garbage o]> (pm_data (fs_pm s))) (fs_pm s)) s);;
      mret o
  end.
End alloc.
