(* ===== verification/BlockArray.v ===== *)
(** Block arrays and the list of blocks of a file: block_array.c.  The block
    descriptors live in a chain of arrays that starts in the inode; only the
    first array of the chain after the embedded one (or the embedded one, when
    it is alone) has free slots. *)
From S2P Require Import Prelude Layout Inode Blocks OffsetMap OffsetMapRep FileState.

Definition SIZEOF_BLOCK_ARRAY : Z := 32.
Definition SIZEOF_BLOCK_DESC : Z := 64.
Definition PMEMFILE_BLOCK_ARRAY_VERSION (a : Z) : Z := Z.lor 0x00414C42 (Z.shiftl (a + 48) 24).

(** ** Small accessors *)

Definition get_first_free : M fstate (aid * nat) :=
  v ← gets fs_v; of_option NullDeref (v_first_free_block v).
Definition put_first_free (x : aid * nat) : M fstate unit :=
  modify (λ s, set_v (set_first_free (Some x) (fs_v s)) s).
Definition put_first_block (x : option bptr) : M fstate unit :=
  modify (λ s, set_v (set_first_block x (fs_v s)) s).

(** ** The first free slot *)

(** [while (idx < length && blocks\[idx\].size != 0) idx++] *)
Fixpoint first_free_index (length : nat) (blocks : list block_desc) (idx : nat) : M fstate nat :=
  match length with
  | O => mret idx
  | S length' =>
      match blocks with
      | [] => fault_ OutOfBounds
      | b :: blocks' =>
          if negb (bd_size b =? 0) then first_free_index length' blocks' (S idx) else mret idx
      end
  end.

Definition update_first_block_info : M fstate unit :=
  v ← gets fs_v;
  match v_first_free_block v with
  | Some _ => mret tt
  | None =>
      arr0 ← array_get None;
      let a : aid := ba_next arr0 in
      arr ← array_get a;
      idx ← first_free_index (ba_length arr) (ba_blocks arr) 0;
      put_first_free (a, idx)
  end.

Definition has_free_block_entry : M fstate bool :=
  '(a, idx) ← get_first_free;
  arr ← array_get a;
  mret (bool_decide (idx < ba_length arr)%nat).

Section block_array.
Context `{!Pobj}.
Variables (cfg : block_cfg) (calloc_ok : nat → bool).

Definition allocate_new_block_array : M fstate unit :=
  assert_in_tx;;
  has ← has_free_block_entry; assert_ (negb has);;
  let info := metadata_block_info cfg in
  let n := Z.to_nat ((bi_size info - SIZEOF_BLOCK_ARRAY) / SIZEOF_BLOCK_DESC) in
  arr0 ← array_get None;
  new ← tx_xalloc_array (bi_size info)
    (BlockArray (PMEMFILE_BLOCK_ARRAY_VERSION 1) (ba_next arr0) n (replicate n zero_desc));
  tx_set_array_next None (Some new);;
  put_first_free (Some new, 0%nat).

#[global] Instance block_desc_eq_dec : EqDecision block_desc.
Proof. solve_decision. Defined.

(** The second half of [acquire_new_entry]: the free entry is there. *)
Definition take_free_entry : M fstate bptr :=
  has ← has_free_block_entry; assert_ has;;
  '(a, idx) ← get_first_free;
  let block := (a, idx) in
  put_first_free (a, S idx);;
  d ← desc_get block;
  assert_ (bool_decide (d = zero_desc));;
  tx_add_desc block;;
  mret block.

Definition acquire_new_entry : M fstate bptr :=
  assert_in_tx;;
  has ← has_free_block_entry;
  (if negb has then allocate_new_block_array else mret tt);;
  take_free_entry.

Definition block_list_insert_after (prev : option bptr) : M fstate bptr :=
  assert_in_tx;;
  update_first_block_info;;
  block ← acquire_new_entry;
  match prev with
  | None =>
      v ← gets fs_v;
      match v_first_block v with
      | Some f =>
          desc_modify block (set_bd_next (Some f));;
          tx_set_prev f (Some block)
      | None => mret tt
      end;;
      put_first_block (Some block)
  | Some p =>
      desc_modify block (set_bd_prev (Some p));;
      dp ← desc_get p;
      desc_modify block (set_bd_next (bd_next dp));;
      tx_set_next p (Some block);;
      db ← desc_get block;
      match bd_next db with
      | Some next => tx_set_prev next (Some block)
      | None => mret tt
      end
  end;;
  mret block.

Definition last_used_block : M fstate bptr :=
  '(a, idx) ← get_first_free;
  assert_ (bool_decide (0 < idx)%nat);;
  mret (a, (idx - 1)%nat).

Definition unlink_block (block : bptr) : M fstate unit :=
  assert_in_tx;;
  d ← desc_get block;
  match bd_prev d with
  | Some prev => tx_set_next prev (bd_next d)
  | None => mret tt
  end;;
  d ← desc_get block;
  match bd_next d with
  | Some next => tx_set_prev next (bd_prev d)
  | None => mret tt
  end.

Definition relocate_block (dst src : bptr) : M fstate unit :=
  assert_in_tx;;
  assert_ (negb (bool_decide (dst = src)));;
  tx_add_desc dst;;
  d ← desc_get src;
  match bd_prev d with
  | Some prev => tx_set_next prev (Some dst)
  | None => mret tt
  end;;
  d ← desc_get src;
  match bd_next d with
  | Some next => tx_set_prev next (Some dst)
  | None => mret tt
  end;;
  d ← desc_get src;
  tx_add_desc dst;;
  desc_modify dst (λ _, d).

Definition is_first_block_array_empty : M fstate bool :=
  '(a, idx) ← get_first_free;
  mret (bool_decide (idx = 0%nat) && negb (bool_decide (a = None))).

Definition remove_first_block_array : M fstate unit :=
  assert_in_tx;;
  arr0 ← array_get None;
  to_remove ← of_option NullDeref (ba_next arr0);
  arr ← array_get (Some to_remove);
  let new_next := ba_next arr in
  tx_set_array_next None new_next;;
  tx_release (FreeArray to_remove);;
  first ← array_get new_next;
  put_first_free (new_next, ba_length first).

(** The tree of the vinode: [insert_block(vinode->blocks, b)] and
    [remove_block(vinode->blocks, b)]. *)
Definition vinode_blocks_insert (b : bptr) : M fstate Z :=
  s ← get_st;
  m ← of_option NullDeref (v_blocks (fs_v s));
  '(ret, m') ← zoom fs_dram set_dram (insert_block calloc_ok (desc_at (pm_arrays (fs_pm s))) m b);
  modify (λ s, set_v (set_blocks (Some m') (fs_v s)) s);;
  mret ret.

Definition vinode_blocks_remove (b : bptr) : M fstate Z :=
  s ← get_st;
  m ← of_option NullDeref (v_blocks (fs_v s));
  '(ret, m') ← zoom fs_dram set_dram (remove_block calloc_ok (desc_at (pm_arrays (fs_pm s))) m b);
  modify (λ s, set_v (set_blocks (Some m') (fs_v s)) s);;
  mret ret.

(** [block_list_remove], the body of [if (moving_block != block)]: the last
    used descriptor fills the hole. *)
Definition move_last_block (block moving_block : bptr) : M fstate unit :=
  v ← gets fs_v;
  (if decide (v_first_block v = Some moving_block) then put_first_block (Some block) else mret tt);;
  vinode_blocks_remove moving_block;;
  relocate_block block moving_block;;
  ret ← vinode_blocks_insert block;
  if negb (ret =? 0) then tx_abort ENOMEM else mret tt.

(** [block_list_remove], from [TX_MEMSET] on: the last used slot is released. *)
Definition release_last_entry (moving_block : bptr) : M fstate unit :=
  tx_add_desc moving_block;;
  desc_modify moving_block (λ _, zero_desc);;
  '(a, idx) ← get_first_free;
  put_first_free (a, (idx - 1)%nat);;
  first_is_empty ← is_first_block_array_empty;
  if first_is_empty : bool then remove_first_block_array else mret tt.

Definition block_list_remove (block : bptr) : M fstate (option bptr) :=
  assert_in_tx;;
  update_first_block_info;;
  ff ← get_first_free; assert_ (bool_decide (0 < ff.2)%nat);;
  moving_block ← last_used_block;
  unlink_block block;;
  d ← desc_get block;
  let prev := if decide (bd_prev d = Some moving_block) then Some block else bd_prev d in
  v ← gets fs_v;
  (if decide (v_first_block v = Some block) then put_first_block (bd_next d) else mret tt);;
  match bd_data d with Some o => tx_release (FreeData o) | None => mret tt end;;
  (if decide (moving_block = block) then mret tt else move_last_block block moving_block);;
  release_last_entry moving_block;;
  mret prev.
End block_array.
