(* ===== verification/BlockList.v ===== *)
(** The doubly linked list of block descriptors, its representation by a list
    of addresses, and the invariant on the chain of block arrays.  Pure lemmas,
    used by [BlockArrayRep] to verify block_array.c. *)
From S2P Require Import Prelude Layout FileState.

(** ** Linked lists *)

Definition link (mem : bptr → option block_desc) (p : bptr) : option (option bptr * option bptr) :=
  (λ d, (bd_prev d, bd_next d)) <$> mem p.

(** [L] is a doubly linked list entered from [prv] and left to [nxt]. *)
Fixpoint dll (mem : bptr → option block_desc) (prv : option bptr) (L : list bptr)
    (nxt : option bptr) : Prop :=
  match L with
  | [] => True
  | p :: L' =>
      link mem p = Some (prv, match L' with [] => nxt | q :: _ => Some q end) ∧
      dll mem (Some p) L' nxt
  end.

(** One descriptor changed. *)
Definition mupd (p : bptr) (f : block_desc → block_desc) (mem : bptr → option block_desc)
    : bptr → option block_desc :=
  λ q, if decide (q = p) then f <$> mem q else mem q.

Definition head_or (L : list bptr) (x : option bptr) : option bptr :=
  match L with [] => x | p :: _ => Some p end.
Definition last_or (L : list bptr) (x : option bptr) : option bptr :=
  match last L with Some p => Some p | None => x end.

Section dll.
Implicit Types (mem : bptr → option block_desc) (L : list bptr).

Lemma dll_frame mem mem' prv L nxt :
  (∀ q, q ∈ L → link mem' q = link mem q) → dll mem prv L nxt → dll mem' prv L nxt.
Proof.
  revert prv. induction L as [|p L IH]; intros prv Hl; [done|]. cbn [dll]. intros [Hp HL].
  split; [rewrite Hl by (by left); done|]. apply IH; [|done]. intros q Hq. apply Hl. by right.
Qed.

Lemma dll_app mem prv L1 L2 nxt :
  dll mem prv (L1 ++ L2) nxt ↔ dll mem prv L1 (head_or L2 nxt) ∧ dll mem (last_or L1 prv) L2 nxt.
Proof.
  revert prv. induction L1 as [|p L1 IH]; intros prv; cbn [app dll]; [tauto|].
  rewrite IH. destruct L1 as [|q L1]; cbn [app].
  - unfold last_or. cbn [last]. destruct L2; cbn [head_or dll]; tauto.
  - unfold last_or. rewrite (last_cons_cons p q L1). destruct (last (q :: L1)) eqn:?; [tauto|].
    by apply last_None in Heqo.
Qed.

Lemma link_mupd_ne mem p f q : q ≠ p → link (mupd p f mem) q = link mem q.
Proof. intros ?. unfold link, mupd. by rewrite decide_False. Qed.

Lemma link_mupd_eq mem p f : link (mupd p f mem) p = (λ d, (bd_prev (f d), bd_next (f d))) <$> mem p.
Proof. unfold link, mupd. rewrite decide_True by done. by destruct (mem p). Qed.

(** A change that keeps the links. *)
Lemma dll_mupd_keep mem p f prv L nxt :
  (∀ d, bd_prev (f d) = bd_prev d ∧ bd_next (f d) = bd_next d) →
  dll mem prv L nxt → dll (mupd p f mem) prv L nxt.
Proof.
  intros Hf. apply dll_frame. intros q _. destruct (decide (q = p)) as [-> | ?].
  - rewrite link_mupd_eq. unfold link. destruct (mem p) as [d|]; [|done]. cbn. by destruct (Hf d) as [-> ->].
  - by apply link_mupd_ne.
Qed.

Lemma dll_mupd_out mem p f prv L nxt :
  p ∉ L → dll mem prv L nxt → dll (mupd p f mem) prv L nxt.
Proof. intros Hp. apply dll_frame. intros q Hq. apply link_mupd_ne. by intros ->. Qed.

(** Redirecting the exit of a non-empty segment, and its entry. *)
Lemma dll_set_exit mem prv L p nxt x : NoDup (L ++ [p]) →
  dll mem prv (L ++ [p]) nxt → dll (mupd p (set_bd_next x) mem) prv (L ++ [p]) x.
Proof.
  rewrite !dll_app. intros [_ [Hnin _]]%NoDup_app [HL [Hp _]]. cbn [head_or] in *. split.
  - apply dll_mupd_out; [|done]. intros Hin. by apply (Hnin p Hin), list_elem_of_singleton.
  - split; [|done]. rewrite link_mupd_eq. unfold link in Hp. destruct (mem p); simplify_eq/=. congruence.
Qed.

Lemma dll_set_entry mem prv p L nxt x : NoDup (p :: L) →
  dll mem prv (p :: L) nxt → dll (mupd p (set_bd_prev x) mem) x (p :: L) nxt.
Proof.
  intros [Hnin _]%NoDup_cons [Hp HL]. split; [|by apply dll_mupd_out].
  rewrite link_mupd_eq. unfold link in Hp. destruct (mem p); simplify_eq/=; congruence.
Qed.

Lemma dll_link_in mem prv L nxt p : dll mem prv L nxt → p ∈ L → is_Some (mem p).
Proof.
  revert prv. induction L as [|q L IH]; intros prv; [by intros _ ?%not_elem_of_nil|].
  intros [Hq HL] [-> | Hp]%elem_of_cons; [|by eapply IH].
  unfold link in Hq. by destruct (mem q).
Qed.
End dll.

Definition upd_opt (o : option bptr) (f : block_desc → block_desc) mem :=
  match o with Some q => mupd q f mem | None => mem end.

Section redirect.
Implicit Types (mem : bptr → option block_desc) (L : list bptr).

Lemma link_upd_opt_ne mem o f q : o ≠ Some q → link (upd_opt o f mem) q = link mem q.
Proof. destruct o as [p|]; [|done]. intros Hne. apply link_mupd_ne. congruence. Qed.

Lemma last_in L q : last L = Some q → q ∈ L.
Proof. apply last_Some_elem_of. Qed.

Lemma head_in L q : head L = Some q → q ∈ L.
Proof. apply head_Some_elem_of. Qed.

Lemma dll_upd_opt_out mem o f prv L nxt :
  (∀ q, o = Some q → q ∉ L) → dll mem prv L nxt → dll (upd_opt o f mem) prv L nxt.
Proof. intros Ho. apply dll_frame. intros q Hq. apply link_upd_opt_ne. intros ->. by apply (Ho q). Qed.

(** Both neighbours of a gap are redirected. *)
Lemma dll_redirect mem L1 L2 n1 p2 x y :
  NoDup (L1 ++ L2) → dll mem None L1 n1 → dll mem p2 L2 None →
  dll (upd_opt (head L2) (set_bd_prev y) (upd_opt (last L1) (set_bd_next x) mem)) None L1 x ∧
  dll (upd_opt (head L2) (set_bd_prev y) (upd_opt (last L1) (set_bd_next x) mem)) y L2 None.
Proof.
  intros (Hnd1 & Hdis & Hnd2)%NoDup_app H1 H2. split.
  - apply dll_upd_opt_out; [intros q Hq%head_in Hq1; by apply (Hdis q)|].
    destruct (last L1) as [l|] eqn:Hl; [|by apply last_None in Hl as ->].
    apply last_Some in Hl as [L' ->]. by eapply dll_set_exit.
  - assert (dll (upd_opt (last L1) (set_bd_next x) mem) p2 L2 None) as H2'.
    { apply dll_upd_opt_out; [|done]. intros q Hq%last_in. by apply Hdis. }
    destruct L2 as [|h L2]; [done|]. by eapply dll_set_entry.
Qed.

Lemma last_or_None L : last_or L None = last L.
Proof. unfold last_or. by destruct (last L). Qed.

Lemma head_or_None L : head_or L None = head L.
Proof. by destruct L. Qed.

Lemma dll_insert mem L1 p L2 : NoDup (L1 ++ p :: L2) → dll mem None (L1 ++ L2) None →
  link mem p = Some (last L1, head L2) →
  dll (upd_opt (head L2) (set_bd_prev (Some p)) (upd_opt (last L1) (set_bd_next (Some p)) mem))
    None (L1 ++ p :: L2) None.
Proof.
  intros Hnd Hd Hp. apply dll_app in Hd as [H1 H2].
  assert (p ∉ L1 ++ L2 ∧ NoDup (L1 ++ L2)) as [Hpn Hnd']
    by (apply NoDup_cons; by rewrite Permutation_middle).
  destruct (dll_redirect mem L1 L2 _ _ (Some p) (Some p) Hnd' H1 H2) as [H1' H2'].
  apply dll_app. split; [done|]. cbn [dll]. split; [|done].
  rewrite last_or_None, link_upd_opt_ne, link_upd_opt_ne; [by destruct L2|..].
  - intros Hq%last_in. apply Hpn, elem_of_app. by left.
  - intros Hq%head_in. apply Hpn, elem_of_app. by right.
Qed.

Lemma dll_unlink mem L1 p L2 : NoDup (L1 ++ p :: L2) → dll mem None (L1 ++ p :: L2) None →
  dll (upd_opt (head L2) (set_bd_prev (last L1)) (upd_opt (last L1) (set_bd_next (head L2)) mem))
    None (L1 ++ L2) None.
Proof.
  intros Hnd Hd. apply dll_app in Hd as [H1 [_ H2]].
  assert (NoDup (L1 ++ L2)) as Hnd'
    by (apply (NoDup_cons_1_2 p); by rewrite Permutation_middle).
  destruct (dll_redirect mem L1 L2 _ _ (head L2) (last L1) Hnd' H1 H2) as [H1' H2'].
  apply dll_app. by rewrite head_or_None, last_or_None.
Qed.

(** The element [mv] is stored at the free place [b] instead. *)
Lemma dll_relocate mem L1 mv L2 b d : NoDup (L1 ++ mv :: L2) → b ∉ L1 ++ mv :: L2 →
  dll mem None (L1 ++ mv :: L2) None → mem mv = Some d → is_Some (mem b) →
  dll (mupd b (λ _, d)
        (upd_opt (head L2) (set_bd_prev (Some b)) (upd_opt (last L1) (set_bd_next (Some b)) mem)))
    None (L1 ++ b :: L2) None.
Proof.
  intros Hnd Hb Hd Hmv [db Hmb]. apply dll_app in Hd as [H1 [Hl H2]].
  assert (b ∉ L1 ∧ b ≠ mv ∧ b ∉ L2) as (Hb1 & Hbm & Hb2).
  { rewrite elem_of_app, elem_of_cons in Hb. tauto. }
  assert (NoDup (L1 ++ L2)) as Hnd' by (apply (NoDup_cons_1_2 mv); by rewrite Permutation_middle).
  destruct (dll_redirect mem L1 L2 _ _ (Some b) (Some b) Hnd' H1 H2) as [H1' H2'].
  apply dll_app. split; [by apply dll_mupd_out|]. cbn [dll]. split; [|by apply dll_mupd_out].
  rewrite link_mupd_eq. unfold link in Hl. rewrite Hmv in Hl. cbn in Hl.
  assert (upd_opt (head L2) (set_bd_prev (Some b)) (upd_opt (last L1) (set_bd_next (Some b)) mem) b
    = Some db) as ->; [|done].
  unfold upd_opt, mupd. repeat case_match; subst; try done; exfalso;
    repeat match goal with H : last _ = _ |- _ => apply last_in in H
      | H : head _ = _ |- _ => apply head_in in H end; done.
Qed.
End redirect.

(** ** Descriptors in arrays *)

Lemma desc_at_upd arrs p f q : desc_at (desc_upd p f arrs) q = mupd p f (desc_at arrs) q.
Proof.
  unfold desc_at, desc_upd, mupd. destruct p as [a i], q as [b j]; cbn [fst snd].
  destruct (decide (b = a)) as [-> | Hne].
  - rewrite lookup_alter. case_decide; [|done]. destruct (arrs !! a) as [arr|]; [|by case_decide]. cbn.
    destruct (decide (j = i)) as [-> | Hji].
    + rewrite list_lookup_alter. case_decide; [|done]. by rewrite decide_True.
    + rewrite list_lookup_alter_ne by done. rewrite decide_False; [done|congruence].
  - rewrite lookup_alter_ne by done. rewrite decide_False; [done|congruence].
Qed.

Lemma desc_upd_is_Some arrs p f q : is_Some (desc_at (desc_upd p f arrs) q) ↔ is_Some (desc_at arrs q).
Proof. rewrite desc_at_upd. unfold mupd. case_decide; [|done]. by rewrite fmap_is_Some. Qed.

Lemma desc_at_alter_next arrs a x q : desc_at (alter (set_ba_next x) a arrs) q = desc_at arrs q.
Proof.
  unfold desc_at. rewrite lookup_alter. case_decide; subst; [|done]. by destruct (arrs !! q.1).
Qed.

(** ** The chain of arrays *)

Fixpoint array_chain (arrs : gmap aid block_array) (a : aid) (rest : list oid) : Prop :=
  ∃ arr, arrs !! a = Some arr ∧ ba_next arr = head rest ∧
    match rest with [] => True | o :: rest' => array_chain arrs (Some o) rest' end.

(** The array with the free slots. *)
Definition first_array (rest : list oid) : aid := head rest.

Definition in_chain (rest : list oid) (a : aid) : Prop :=
  match a with None => True | Some o => o ∈ rest end.

(** The arrays of the chain [None :: rest] hold exactly the blocks [L]: every
    slot is used except those from [idx] on in the first array, which are
    zeroed. *)
Record store_ok (arrs : gmap aid block_array) (rest : list oid) (idx : nat) (L : list bptr) : Prop := {
  st_chain : array_chain arrs None rest;
  st_nodup : NoDup rest;
  st_len : ∀ a arr, in_chain rest a → arrs !! a = Some arr → ba_length arr = length (ba_blocks arr);
  st_pos : ∀ a arr, in_chain rest a → arrs !! a = Some arr → (0 < ba_length arr)%nat;
  st_used : ∀ p, in_chain rest p.1 → is_Some (desc_at arrs p) →
    (p ∈ L ↔ (p.1 = first_array rest → (p.2 < idx)%nat));
  st_free : ∀ p d, in_chain rest p.1 → desc_at arrs p = Some d → p ∉ L → d = zero_desc;
  st_in : ∀ p, p ∈ L → in_chain rest p.1 ∧ is_Some (desc_at arrs p);
  st_idx : ∃ arr, arrs !! first_array rest = Some arr ∧ (idx ≤ ba_length arr)%nat;
}.

Section store.
Implicit Types (arrs : gmap aid block_array) (rest : list oid) (L : list bptr).

Lemma in_chain_first_array rest : in_chain rest (first_array rest).
Proof. destruct rest; [done|]. by left. Qed.

Lemma array_chain_lookup arrs a rest b : array_chain arrs a rest → b = a ∨ in_chain rest b ∧ b ≠ None →
  is_Some (arrs !! b).
Proof.
  revert a. induction rest as [|o rest IH]; intros a (arr & Ha & _ & Hc) [-> | [Hin Hne]];
    try by eexists.
  - destruct b as [o|]; [|done]. by apply not_elem_of_nil in Hin.
  - apply (IH (Some o) Hc). destruct b as [o'|]; [|done].
    apply elem_of_cons in Hin as [-> | Hin]; [by left|by right].
Qed.

Lemma array_chain_head arrs a rest : array_chain arrs a rest →
  ∃ arr, arrs !! a = Some arr ∧ ba_next arr = head rest.
Proof. destruct rest; intros (arr & ? & ? & _); eauto. Qed.

Lemma store_array arrs rest idx L a : store_ok arrs rest idx L → in_chain rest a →
  ∃ arr, arrs !! a = Some arr ∧ ba_length arr = length (ba_blocks arr).
Proof.
  intros Hs Ha. destruct (array_chain_lookup arrs None rest a (st_chain _ _ _ _ Hs)) as [arr Harr].
  - destruct a; [by right|by left].
  - exists arr. split; [done|]. by eapply st_len.
Qed.

(** Any change of the chain's arrays that keeps [next] keeps the chain. *)
Lemma array_chain_mono arrs arrs' a rest :
  (∀ b arr, b = a ∨ in_chain rest b ∧ b ≠ None → arrs !! b = Some arr →
    ∃ arr', arrs' !! b = Some arr' ∧ ba_next arr' = ba_next arr) →
  array_chain arrs a rest → array_chain arrs' a rest.
Proof.
  revert a. induction rest as [|o rest IH]; intros a Hb (arr & Ha & Hn & Hc);
    destruct (Hb a arr (or_introl eq_refl) Ha) as (arr' & Ha' & Hn');
    exists arr'; (split; [done|split; [congruence|]]); [done|].
  apply IH; [|done]. intros b arrb Hor. apply Hb. right.
  destruct Hor as [-> | [Hin ?]]; (split; [|done]); [by left|]. destruct b; [by right|done].
Qed.

Lemma desc_upd_lookup arrs p f a : desc_upd p f arrs !! a =
  (λ arr, if decide (a = p.1) then set_ba_blocks (alter f p.2 (ba_blocks arr)) arr else arr) <$> arrs !! a.
Proof.
  unfold desc_upd. destruct (decide (a = p.1)) as [-> | ?].
  - by rewrite lookup_alter_eq.
  - rewrite lookup_alter_ne by done. by destruct (arrs !! a).
Qed.

Lemma store_ok_upd arrs rest idx L p f : p ∈ L → store_ok arrs rest idx L →
  store_ok (desc_upd p f arrs) rest idx L.
Proof.
  intros Hp [Hc Hnd Hlen Hpos Hu Hf Hin Hidx].
  assert (∀ q, is_Some (desc_at (desc_upd p f arrs) q) ↔ is_Some (desc_at arrs q)) as Hdom.
  { intros q. rewrite desc_at_upd. unfold mupd. case_decide; [|done]. by rewrite fmap_is_Some. }
  split; [|done|..].
  - eapply array_chain_mono; [|done]. intros b arr _ Hb. rewrite desc_upd_lookup, Hb. cbn.
    eexists. split; [done|]. by case_decide.
  - intros a arr Ha. rewrite desc_upd_lookup. destruct (arrs !! a) as [arr0|] eqn:Harr; [|done].
    cbn. intros [= <-]. specialize (Hlen a arr0 Ha Harr).
    case_decide; [|done]. cbn. by rewrite length_alter.
  - intros a arr Ha. rewrite desc_upd_lookup. destruct (arrs !! a) as [arr0|] eqn:Harr; [|done].
    cbn. intros [= <-]. specialize (Hpos a arr0 Ha Harr). by case_decide.
  - intros q Hq ?%Hdom. by apply Hu.
  - intros q d Hq. rewrite desc_at_upd. unfold mupd. case_decide; [by subst|by apply Hf].
  - intros q Hq. rewrite Hdom. by apply Hin.
  - destruct Hidx as (arr & Ha & Hi). eexists. split; [by rewrite desc_upd_lookup, Ha|].
    cbn. by case_decide.
Qed.

Lemma store_ok_ext arrs rest idx L L' : (∀ p, p ∈ L' ↔ p ∈ L) →
  store_ok arrs rest idx L → store_ok arrs rest idx L'.
Proof.
  intros HL [Hc Hnd Hlen Hpos Hu Hf Hin Hidx]. split; [done|done|done|done| | | |done].
  - intros p ??. rewrite HL. by apply Hu.
  - intros p d ??. rewrite HL. by apply Hf.
  - intros p. rewrite HL. apply Hin.
Qed.

Lemma desc_at_bound arrs p arr : arrs !! p.1 = Some arr →
  is_Some (desc_at arrs p) ↔ (p.2 < length (ba_blocks arr))%nat.
Proof. intros Ha. unfold desc_at. rewrite Ha. cbn. by rewrite lookup_lt_is_Some. Qed.

(** The next free slot is used. *)
Lemma store_ok_acquire arrs rest idx L arr : store_ok arrs rest idx L →
  arrs !! first_array rest = Some arr → (idx < ba_length arr)%nat →
  store_ok arrs rest (S idx) ((first_array rest, idx) :: L) ∧
  desc_at arrs (first_array rest, idx) = Some zero_desc ∧ (first_array rest, idx) ∉ L.
Proof.
  intros [Hc Hnd Hlen Hpos Hu Hf Hin Hidx] Harr Hlt. pose proof (in_chain_first_array rest) as Hh.
  pose proof (Hlen _ _ Hh Harr) as Hl.
  assert (is_Some (desc_at arrs (first_array rest, idx))) as Hsome.
  { rewrite desc_at_bound; [|done]. cbn. lia. }
  assert ((first_array rest, idx) ∉ L) as Hnin.
  { rewrite (Hu (first_array rest, idx)) by done. cbn. intros H. specialize (H eq_refl). lia. }
  split; [|split; [|done]].
  - split; [done|done|done|done|..].
    + intros p Hp Hd. rewrite elem_of_cons, (Hu p) by done. destruct p as [a i]; cbn in *. split.
      * intros [[= -> ->] | Hi] Ha; [lia|]. specialize (Hi Ha). lia.
      * intros Hi. destruct (decide ((a, i) = (first_array rest, idx))) as [|Hne]; [by left|right].
        intros Ha. specialize (Hi Ha). assert (i ≠ idx) by congruence. lia.
    + intros p d Hp Hd Hn. apply (Hf p d Hp Hd). intros ?. apply Hn. by right.
    + intros p [-> | Hp]%elem_of_cons; [done|by apply Hin].
    + exists arr. split; [done|lia].
  - destruct Hsome as [d Hd]. rewrite Hd. f_equal. by apply (Hf (first_array rest, idx) d).
Qed.

(** A new array is put in front when every slot is used. *)
Lemma store_ok_new_array arrs rest idx L arr o new : store_ok arrs rest idx L →
  arrs !! first_array rest = Some arr → (ba_length arr ≤ idx)%nat → arrs !! Some o = None →
  ba_next new = head rest → ba_length new = length (ba_blocks new) →
  (0 < ba_length new)%nat → Forall (eq zero_desc) (ba_blocks new) →
  store_ok (alter (set_ba_next (Some o)) None (<[Some o := new]> arrs)) (o :: rest) 0 L.
Proof.
  intros Hs Harr Hfull Hnone Hnext Hlen' Hpos' Hzero. pose proof Hs as [Hc Hnd Hlen Hpos Hu Hf Hin Hidx].
  assert (o ∉ rest) as Hor.
  { intros Ho. destruct (store_array _ _ _ _ (Some o) Hs Ho) as (?&?&_). congruence. }
  assert (∀ p, p.1 ≠ Some o → desc_at (alter (set_ba_next (Some o)) None (<[Some o := new]> arrs)) p
    = desc_at arrs p) as Hold.
  { intros p Hp. rewrite desc_at_alter_next. unfold desc_at. by rewrite lookup_insert_ne by (by apply not_eq_sym). }
  assert (∀ i, desc_at (alter (set_ba_next (Some o)) None (<[Some o := new]> arrs)) (Some o, i)
    = ba_blocks new !! i) as Hnew.
  { intros i. rewrite desc_at_alter_next. unfold desc_at. cbn. by rewrite lookup_insert_eq. }
  assert (∀ a, in_chain (o :: rest) a → a ≠ Some o → in_chain rest a) as Hch.
  { intros [o'|]; [|done]. cbn. rewrite elem_of_cons. intros [-> | ?]; done. }
  assert (∀ a, a ≠ None → alter (set_ba_next (Some o)) None (<[Some o := new]> arrs) !! a
    = <[Some o := new]> arrs !! a) as Halt by (intros; by rewrite lookup_alter_ne).
  split.
  - destruct (array_chain_lookup _ _ _ None Hc) as [arr0 H0]; [by left|].
    exists (set_ba_next (Some o) arr0). split; [|split; [done|]].
    { by rewrite lookup_alter_eq, lookup_insert_ne, H0. }
    assert (array_chain (alter (set_ba_next (Some o)) None (<[Some o:=new]> arrs)) (Some o) rest); [|by destruct rest].
    assert (Hn : alter (set_ba_next (Some o)) None (<[Some o:=new]> arrs) !! Some o = Some new)
      by (rewrite Halt by done; apply lookup_insert_eq).
    destruct rest as [|o1 rest]; (exists new; split; [done|split; [done|]]); [done|].
    destruct Hc as (? & _ & _ & Hc). revert Hc. apply array_chain_mono. intros b arrb Hb Hlk.
    exists arrb. split; [|done]. destruct Hb as [-> | [Hb ?]]; [|destruct b as [ob|]; [|done]].
    + rewrite Halt, lookup_insert_ne by (done || congruence). done.
    + rewrite Halt, lookup_insert_ne by (done || congruence). done.
  - by constructor.
  - intros a arra Ha. destruct (decide (a = Some o)) as [-> | Hne].
    { rewrite Halt, lookup_insert_eq by done. by intros [= <-]. }
    destruct (decide (a = None)) as [-> | Hne'].
    + rewrite lookup_alter_eq, lookup_insert_ne by done. destruct (arrs !! None) as [arr0|] eqn:H0; [|done].
      cbn. intros [= <-]. cbn. by apply (Hlen None).
    + rewrite Halt, lookup_insert_ne by (done || by apply not_eq_sym). apply Hlen. by apply Hch.
  - intros a arra Ha. destruct (decide (a = Some o)) as [-> | Hne].
    { rewrite Halt, lookup_insert_eq by done. by intros [= <-]. }
    destruct (decide (a = None)) as [-> | Hne'].
    + rewrite lookup_alter_eq, lookup_insert_ne by done. destruct (arrs !! None) as [arr0|] eqn:H0; [|done].
      cbn. intros [= <-]. cbn. by apply (Hpos None).
    + rewrite Halt, lookup_insert_ne by (done || by apply not_eq_sym). apply Hpos. by apply Hch.
  - intros p Hp Hd. cbn [first_array head]. destruct (decide (p.1 = Some o)) as [Heq|Hne].
    + split; [|intros Hlt; specialize (Hlt Heq); lia]. intros Hp'%Hin. rewrite Heq in Hp'. by destruct Hp'.
    + rewrite Hold in Hd by done. rewrite (Hu p) by (auto || done). split; [done|]. intros _ Hpa.
      rewrite desc_at_bound in Hd by (rewrite Hpa; done). rewrite <-(Hlen p.1 arr) in Hd; [lia|by apply Hch|congruence].
  - intros p d Hp. destruct (decide (p.1 = Some o)) as [Heq|Hne].
    + destruct p as [a i]; cbn in Heq. subst a. rewrite Hnew. intros Hi _.
      symmetry. by apply (proj1 (Forall_lookup _ _) Hzero _ _ Hi).
    + rewrite Hold by done. apply Hf. by apply Hch.
  - intros p Hp. destruct (Hin p Hp) as [Hpc Hpd]. assert (p.1 ≠ Some o) as Hne.
    { intros Heq. rewrite Heq in Hpc. done. }
    rewrite Hold by done. split; [|done]. destruct p as [[o'|] i]; [|done]. cbn in *. by right.
  - exists new. split; [|lia]. cbn [first_array head]. rewrite Halt by done. apply lookup_insert_eq.
Qed.
End store.

Section store_release.
Implicit Types (arrs : gmap aid block_array) (rest : list oid) (L : list bptr).

(** The last used slot is given back. *)
Lemma store_ok_release arrs rest idx L L' : store_ok arrs rest (S idx) L →
  (∀ p, p ∈ L' ↔ p ≠ (first_array rest, idx) ∧ p ∈ L) →
  store_ok (desc_upd (first_array rest, idx) (λ _, zero_desc) arrs) rest idx L'.
Proof.
  intros Hs HL'. pose proof Hs as [_ _ _ _ Hu0 _ _ (arr & Harr & Hidx)].
  assert ((first_array rest, idx) ∈ L) as Hin0.
  { apply Hu0; [apply in_chain_first_array| |cbn; lia]. rewrite desc_at_bound by done. cbn.
    rewrite <-(st_len _ _ _ _ Hs _ _ (in_chain_first_array rest) Harr). lia. }
  apply (store_ok_upd _ _ _ _ (first_array rest, idx) (λ _, zero_desc)) in Hs; [|done].
  destruct Hs as [Hc Hnd Hlen Hpos Hu Hf Hin (arr' & Harr' & Hidx')]. split; [done..| | | |].
  - intros p Hp Hd. rewrite HL', (Hu p) by done. destruct p as [a i]; cbn in *. split.
    + intros [Hne Hi] Ha. specialize (Hi Ha). assert (i ≠ idx) by congruence. lia.
    + intros Hi. split; [intros [= -> ->]; specialize (Hi eq_refl); lia|]. intros Ha. specialize (Hi Ha). lia.
  - intros p d Hp Hd Hn. destruct (decide (p = (first_array rest, idx))) as [-> | Hne].
    + rewrite desc_at_upd in Hd. unfold mupd in Hd. rewrite decide_True in Hd by done.
      destruct (desc_at arrs _); by simplify_eq/=.
    + apply (Hf p d Hp Hd). intros ?. by apply Hn, HL'.
  - intros p [_ Hp]%HL'. by apply Hin.
  - exists arr'. split; [done|lia].
Qed.

(** The first array is unlinked when it has become empty. *)
Lemma store_ok_drop_array arrs o rest L arr : store_ok arrs (o :: rest) 0 L →
  arrs !! first_array rest = Some arr →
  store_ok (alter (set_ba_next (head rest)) None arrs) rest (ba_length arr) L.
Proof.
  intros [Hc Hnd Hlen Hpos Hu Hf Hin _] Harr. apply NoDup_cons in Hnd as [Hor Hnd].
  assert (∀ a, in_chain rest a → in_chain (o :: rest) a) as Hch by (intros [?|]; [by right|done]).
  assert (∀ a, a ≠ None → alter (set_ba_next (head rest)) None arrs !! a = arrs !! a) as Halt
    by (intros; by rewrite lookup_alter_ne).
  assert (∀ p, p ∈ L → p.1 ≠ Some o) as Hno.
  { intros p Hp Heq. destruct (Hin p Hp) as [Hpc Hpd]. pose proof (proj1 (Hu p Hpc Hpd) Hp Heq). lia. }
  split; [|done|..].
  - destruct Hc as (arr0 & H0 & _ & Hc). cbn in Hc.
    assert (alter (set_ba_next (head rest)) None arrs !! None = Some (set_ba_next (head rest) arr0)) as Hn
      by (by rewrite lookup_alter_eq, H0).
    destruct rest as [|o1 rest]; (eexists; split; [done|split; [done|]]); [done|].
    destruct Hc as (_ & _ & _ & Hc). revert Hc. apply array_chain_mono. intros b arrb Hb Hlk.
    exists arrb. split; [|done]. rewrite Halt; [done|]. by destruct Hb as [-> | [_ ?]].
  - intros a arra Ha. destruct (decide (a = None)) as [-> | Hne].
    + rewrite lookup_alter_eq. destruct (arrs !! None) as [arr0|] eqn:H0; [|done].
      cbn. intros [= <-]. cbn. by apply (Hlen None).
    + rewrite Halt by done. apply Hlen. by apply Hch.
  - intros a arra Ha. destruct (decide (a = None)) as [-> | Hne].
    + rewrite lookup_alter_eq. destruct (arrs !! None) as [arr0|] eqn:H0; [|done].
      cbn. intros [= <-]. cbn. by apply (Hpos None).
    + rewrite Halt by done. apply Hpos. by apply Hch.
  - intros p Hp. rewrite desc_at_alter_next. intros Hd. rewrite (Hu p) by auto. split.
    + intros _ Heq. rewrite desc_at_bound in Hd by (by rewrite Heq).
      rewrite <-(Hlen (first_array rest) arr) in Hd; [done|apply Hch, in_chain_first_array|done].
    + intros _ Heq. rewrite Heq in Hp. by destruct Hor.
  - intros p d Hp. rewrite desc_at_alter_next. apply Hf. by apply Hch.
  - intros p Hp. rewrite desc_at_alter_next. destruct (Hin p Hp) as [Hpc Hpd]. split; [|done].
    specialize (Hno p Hp). destruct p as [[o'|] i]; [|done]. cbn in *.
    apply elem_of_cons in Hpc as [-> | ?]; done.
  - destruct (decide (first_array rest = None)) as [Heq|Hne].
    + rewrite Heq in *. eexists. by rewrite lookup_alter_eq, Harr.
    + exists arr. by rewrite Halt.
Qed.
End store_release.

(** ** Extents: what a descriptor says besides its links *)

Record extent := Extent {
  ex_data : option oid; ex_size : Z; ex_flags : Z; ex_offset : Z;
}.

Definition payload (d : block_desc) : extent :=
  Extent (bd_data d) (bd_size d) (bd_flags d) (bd_offset d).

Definition payload_at (mem : bptr → option block_desc) (p : bptr) : option extent := payload <$> mem p.

Lemma payload_at_mupd_keep mem p f q : (∀ d, payload (f d) = payload d) →
  payload_at (mupd p f mem) q = payload_at mem q.
Proof.
  intros Hf. unfold payload_at, mupd. case_decide; [|done]. destruct (mem q); [|done]. cbn. by rewrite Hf.
Qed.

Lemma payload_at_upd_opt_keep mem o f q : (∀ d, payload (f d) = payload d) →
  payload_at (upd_opt o f mem) q = payload_at mem q.
Proof. destruct o; [apply payload_at_mupd_keep|done]. Qed.

Lemma dll_ext mem mem' prv L nxt : (∀ q, mem' q = mem q) → dll mem prv L nxt → dll mem' prv L nxt.
Proof. intros Heq. apply dll_frame. intros q _. unfold link. by rewrite Heq. Qed.

Lemma mupd_ext mem mem' p f q : (∀ q, mem' q = mem q) → mupd p f mem' q = mupd p f mem q.
Proof. intros Heq. unfold mupd. by rewrite Heq. Qed.

(** The arrays known before are still there, and the chain only gains new ones. *)
Definition grows (arrs : gmap aid block_array) (rest : list oid) (arrs' : gmap aid block_array)
    (rest' : list oid) : Prop :=
  (∀ o, o ∈ rest' → o ∈ rest ∨ arrs !! Some o = None) ∧
  (∀ a, is_Some (arrs !! a) → is_Some (arrs' !! a)).

Lemma grows_refl arrs rest : grows arrs rest arrs rest.
Proof. split; auto. Qed.

Lemma grows_upd arrs rest arrs' rest' p f : grows arrs rest arrs' rest' →
  grows arrs rest (desc_upd p f arrs') rest'.
Proof.
  intros [H1 H2]. split; [done|]. intros a Ha%H2. rewrite desc_upd_lookup. by apply fmap_is_Some.
Qed.

Lemma dll_last_next mem L1 L2 p : dll mem None (L1 ++ L2) None → last L1 = Some p →
  ∃ d, mem p = Some d ∧ bd_next d = head L2.
Proof.
  intros [H1 _]%dll_app [L' ->]%last_Some. apply dll_app in H1 as [_ [Hp _]].
  unfold link in Hp. destruct (mem p) as [d|]; [|done]. exists d. split; [done|].
  cbn in Hp. rewrite head_or_None in Hp. congruence.
Qed.

Lemma dll_mid mem L1 p L2 : dll mem None (L1 ++ p :: L2) None →
  ∃ d, mem p = Some d ∧ bd_prev d = last L1 ∧ bd_next d = head L2.
Proof.
  intros [_ [Hp _]]%dll_app. unfold link in Hp. destruct (mem p) as [d|]; [|done].
  exists d. rewrite last_or_None in Hp. cbn in Hp. destruct L2; simplify_eq/=; done.
Qed.

(** What inserting a new block [p] between [L1] and [L2] leaves. *)
Record inserted (arrs : gmap aid block_array) (rest : list oid) (L1 L2 : list bptr)
    (arrs' : gmap aid block_array) (rest' : list oid) (idx' : nat) (p : bptr) : Prop := {
  ins_store : store_ok arrs' rest' idx' (L1 ++ p :: L2);
  ins_new : p ∉ L1 ++ L2;
  ins_dll : dll (desc_at arrs') None (L1 ++ p :: L2) None;
  ins_zero : payload_at (desc_at arrs') p = Some (payload zero_desc);
  ins_keep : ∀ q, q ∈ L1 ++ L2 → payload_at (desc_at arrs') q = payload_at (desc_at arrs) q;
  ins_grows : grows arrs rest arrs' rest';
  ins_idx : idx' ≠ 0%nat;
}.

Lemma inserted_intro arrs rest L1 L2 arrs' rest' idx' p mem :
  NoDup (L1 ++ L2) → dll (desc_at arrs) None (L1 ++ L2) None →
  (∀ q, q ∈ L1 ++ L2 → mem q = desc_at arrs q) →
  link mem p = Some (last L1, head L2) → payload_at mem p = Some (payload zero_desc) →
  (∀ q, desc_at arrs' q =
    upd_opt (head L2) (set_bd_prev (Some p)) (upd_opt (last L1) (set_bd_next (Some p)) mem) q) →
  store_ok arrs' rest' idx' (p :: L1 ++ L2) → p ∉ L1 ++ L2 → grows arrs rest arrs' rest' →
  idx' ≠ 0%nat → inserted arrs rest L1 L2 arrs' rest' idx' p.
Proof.
  intros Hnd Hd Hmem Hlink Hpay Harrs Hs Hp Hgr Hidx.
  assert (∀ q, payload_at (desc_at arrs') q = payload_at mem q) as Hpay'.
  { intros q. unfold payload_at at 1. rewrite Harrs. fold (payload_at (upd_opt (head L2) (set_bd_prev (Some p)) (upd_opt (last L1) (set_bd_next (Some p)) mem)) q).
    by rewrite !payload_at_upd_opt_keep. }
  split; [|done| |by rewrite Hpay'| |done|done].
  - revert Hs. apply store_ok_ext. intros q. rewrite elem_of_cons, !elem_of_app, elem_of_cons. tauto.
  - eapply dll_ext; [exact Harrs|]. apply dll_insert; [|by eapply dll_frame; [|exact Hd]; intros q Hq; unfold link; rewrite Hmem|done].
    rewrite <-Permutation_middle. by constructor.
  - intros q Hq. rewrite Hpay'. unfold payload_at. by rewrite Hmem.
Qed.
