(* ===== verification/BlockArrayRep.v ===== *)
(** Correctness of block_array.c: inserting and removing a block changes the
    list of blocks, the chain of arrays and the volatile inode the way the
    abstract list of extents says. *)
From S2P Require Import Prelude Layout Inode Blocks OffsetMap OffsetMapRep FileState BlockList BlockArray.

(** ** Symbolic execution on file states *)

Section primitives.
Implicit Types (s : fstate).

Lemma wp_desc_get s p d Q E : desc_at (pm_arrays (fs_pm s)) p = Some d → Q d s →
  wp (desc_get p) Q E s.
Proof. intros Hd HQ. unfold desc_get. wp_steps. by rewrite Hd. Qed.

Lemma wp_desc_modify s p f Q E : is_Some (desc_at (pm_arrays (fs_pm s)) p) →
  Q tt (set_pm (set_arrays (desc_upd p f (pm_arrays (fs_pm s))) (fs_pm s)) s) →
  wp (desc_modify p f) Q E s.
Proof. intros [d Hd] HQ. unfold desc_modify. wp_steps. by eapply wp_desc_get. Qed.

Lemma wp_array_get s a arr Q E : pm_arrays (fs_pm s) !! a = Some arr → Q arr s →
  wp (array_get a) Q E s.
Proof. intros Ha HQ. unfold array_get. wp_steps. by rewrite Ha. Qed.

Lemma wp_assert_in_tx s t Q E : fs_tx s = Some t → Q tt s → wp assert_in_tx Q E s.
Proof. intros Ht HQ. unfold assert_in_tx. wp_steps; [|done]. rewrite Ht. by apply bool_decide_eq_true. Qed.

Lemma wp_tx_record s t u Q E : fs_tx s = Some t →
  Q tt (set_tx (Some (Tx (u :: tx_log t) (tx_frees t))) s) → wp (tx_record u) Q E s.
Proof. intros Ht HQ. unfold tx_record. wp_steps. rewrite Ht. by wp_steps. Qed.

Lemma wp_tx_release s t r Q E : fs_tx s = Some t →
  Q tt (set_tx (Some (Tx (tx_log t) (r :: tx_frees t))) s) → wp (tx_release r) Q E s.
Proof. intros Ht HQ. unfold tx_release. wp_steps. rewrite Ht. by wp_steps. Qed.
End primitives.

#[local] Arguments desc_upd : simpl never.
#[local] Arguments desc_at : simpl never.

Ltac fs_simpl :=
  unfold set_pm, set_tx, set_v, set_dram, set_arrays, set_data, set_inode, set_first_free,
    set_first_block, set_blocks, set_counter, set_snapshot;
  cbn [fs_pm fs_tx fs_v fs_dram pm_arrays pm_data pm_inode tx_log tx_frees v_first_free_block
    v_first_block v_blocks v_block_pointer_invalidation_counter v_snapshot].

(** One step; the side conditions that the context does not solve are left. *)
Ltac fs_step :=
  lazymatch goal with
  | |- wp assert_in_tx _ _ _ => eapply wp_assert_in_tx; [done|]
  | |- wp (desc_get _) _ _ _ => eapply wp_desc_get; [eassumption|]
  | |- wp (desc_modify _ _) _ _ _ =>
      apply wp_desc_modify; [fs_simpl; rewrite ?desc_upd_is_Some; try by eauto|]
  | |- wp (array_get _) _ _ _ => eapply wp_array_get; [eassumption|]
  | |- wp (tx_record _) _ _ _ => eapply wp_tx_record; [done|]
  | |- wp (tx_release _) _ _ _ => eapply wp_tx_release; [done|]
  | |- wp (tx_add_desc _) _ _ _ => unfold tx_add_desc
  | |- wp (tx_set_next _ _) _ _ _ => unfold tx_set_next
  | |- wp (tx_set_prev _ _) _ _ _ => unfold tx_set_prev
  | |- wp (put_first_free _) _ _ _ => unfold put_first_free
  | |- wp (put_first_block _) _ _ _ => unfold put_first_block
  | |- wp get_first_free _ _ _ => unfold get_first_free
  | |- _ => wp_step
  end; fs_simpl.
Ltac fs_steps := repeat fs_step.

Section block_array.
Context {HP : Pobj} {HPok : PobjOk}.
Variables (cfg : block_cfg) (bs : list pmem_block_info) (calloc_ok : nat → bool).
Hypothesis Hcfg : cfg_wf cfg bs.
Variables (data : gmap oid bytes) (ino : inode) (cnt : Z) (snap : option (aid * nat) * option bptr).

Notation st arrs log frees ff fb blk dr := (FState (Pmem arrs data ino) (Some (Tx log frees))
  (Vinode ff fb blk cnt snap) dr).

(** ** The first free slot *)

Lemma wp_first_free_index s blocks Q E : ∀ idx n,
  (idx ≤ length blocks)%nat →
  (∀ i b, (i < idx)%nat → blocks !! i = Some b → bd_size b ≠ 0) →
  (∀ b, blocks !! idx = Some b → bd_size b = 0) →
  Q (n + idx)%nat s → wp (first_free_index (length blocks) blocks n) Q E s.
Proof.
  induction blocks as [|b blocks IH]; intros idx n Hidx Hused Hfree HQ; cbn [length first_free_index].
  - wp_steps. cbn in Hidx. replace (n + idx)%nat with n in HQ by lia. done.
  - destruct idx as [|idx].
    + rewrite (Hfree b) by done. cbn. wp_steps. by rewrite Nat.add_0_r in HQ.
    + pose proof (Hused 0%nat b ltac:(lia) eq_refl). zcase (bd_size b =? 0); [done|]. cbn [negb].
      apply (IH idx); [cbn in Hidx; lia| |done|by rewrite <-Nat.add_succ_comm in HQ].
      intros i b' Hi Hb'. by apply (Hused (S i)); [lia|].
Qed.

Lemma wp_update_first_block_info arrs rest idx L log frees ff fb blk dr Q E :
  store_ok arrs rest idx L → (ff = None ∨ ff = Some (first_array rest, idx)) →
  (∀ p d, p ∈ L → desc_at arrs p = Some d → bd_size d ≠ 0) →
  Q tt (st arrs log frees (Some (first_array rest, idx)) fb blk dr) →
  wp update_first_block_info Q E (st arrs log frees ff fb blk dr).
Proof.
  intros Hs Hff Hsz HQ. unfold update_first_block_info. fs_steps.
  destruct Hff as [-> | ->]; [|by fs_steps].
  destruct (store_array _ _ _ _ None Hs) as (arr0 & H0 & _); [done|]. fs_steps.
  destruct (array_chain_head _ _ _ (st_chain _ _ _ _ Hs)) as (arr0' & H0' & Hn).
  assert (arr0' = arr0) as -> by congruence. rewrite Hn.
  destruct (store_array _ _ _ _ (first_array rest) Hs) as (arr & Ha & Hl); [apply in_chain_first_array|].
  change (head rest) with (first_array rest). fs_steps. rewrite Hl, ?Hn.
  destruct (st_idx _ _ _ _ Hs) as (arr' & Ha' & Hidx). assert (arr' = arr) as -> by congruence.
  assert (∀ i b, ba_blocks arr !! i = Some b → desc_at arrs (first_array rest, i) = Some b) as Hdesc.
  { intros i b Hi. unfold desc_at. cbn. by rewrite Ha. }
  eapply (wp_first_free_index _ _ _ _ idx); [lia| | |by fs_steps].
  - intros i b Hi Hb. apply (Hsz (first_array rest, i)); [|by apply Hdesc].
    apply (st_used _ _ _ _ Hs); [apply in_chain_first_array|by rewrite (Hdesc i b)|done].
  - intros b Hb. assert (b = zero_desc) as ->; [|done].
    apply (st_free _ _ _ _ Hs (first_array rest, idx)); [apply in_chain_first_array|by apply Hdesc|].
    intros Hin. apply (st_used _ _ _ _ Hs) in Hin;
      [cbn in Hin; lia|apply in_chain_first_array|by rewrite (Hdesc idx b)|done].
Qed.

(** ** A new entry *)

Lemma array_slots_pos : (0 < Z.to_nat ((bi_size (metadata_block_info cfg) - SIZEOF_BLOCK_ARRAY) / SIZEOF_BLOCK_DESC))%nat.
Proof. unfold metadata_block_info. rewrite (cw_metadata _ _ Hcfg). by apply Nat.ltb_lt. Qed.

Lemma wp_allocate_new_block_array arrs rest idx L arr log frees fb blk dr Q E :
  store_ok arrs rest idx L → arrs !! first_array rest = Some arr → (ba_length arr ≤ idx)%nat →
  (∀ s, E ENOMEM s) →
  (∀ o new log', arrs !! Some o = None → (0 < ba_length new)%nat →
    let arrs' := alter (set_ba_next (Some o)) None (<[Some o := new]> arrs) in
    store_ok arrs' (o :: rest) 0 L → arrs' !! Some o = Some new →
    (∀ q, q ∈ L → desc_at arrs' q = desc_at arrs q) →
    Q tt (st arrs' log' frees (Some (Some o, 0%nat)) fb blk dr)) →
  wp (allocate_new_block_array cfg) Q E (st arrs log frees (Some (first_array rest, idx)) fb blk dr).
Proof.
  intros Hs Ha Hfull HE HQ. unfold allocate_new_block_array, has_free_block_entry. fs_steps.
  { apply negb_true_iff, bool_decide_eq_false. lia. }
  destruct (array_chain_head _ _ _ (st_chain _ _ _ _ Hs)) as (arr0 & H0 & Hn). fs_steps.
  unfold tx_xalloc_array. fs_steps. rewrite Hn.
  destruct (palloc _ _) as [o|] eqn:Hal; [|by fs_steps].
  pose proof (palloc_fresh_array _ _ _ Hal) as Hfresh. fs_simpl. cbn in Hfresh.
  set (new := BlockArray _ _ _ _). fs_steps. unfold tx_set_array_next. fs_steps.
  eapply wp_array_get; [fs_simpl; rewrite lookup_insert_ne by done; exact H0|]. fs_steps.
  assert (store_ok (alter (set_ba_next (Some o)) None (<[Some o := new]> arrs)) (o :: rest) 0 L) as Hs'.
  { eapply store_ok_new_array; [done|done|done|done|done| |apply array_slots_pos|].
    - by cbn; rewrite length_replicate.
    - apply Forall_replicate. done. }
  apply HQ; [done|apply array_slots_pos|done|..].
  - by rewrite lookup_alter_ne, lookup_insert_eq.
  - intros q Hq. rewrite desc_at_alter_next. unfold desc_at. rewrite lookup_insert_ne; [done|].
    intros Heq. destruct (st_in _ _ _ _ Hs q Hq) as [_ [d Hd]]. unfold desc_at in Hd.
    rewrite <-Heq, Hfresh in Hd. done.
Qed.

Lemma wp_take_free_entry arrs rest idx L arr log frees fb blk dr Q E :
  store_ok arrs rest idx L → arrs !! first_array rest = Some arr → (idx < ba_length arr)%nat →
  (∀ log' p, store_ok arrs rest (S idx) (p :: L) → p ∉ L → desc_at arrs p = Some zero_desc →
    Q p (st arrs log' frees (Some (first_array rest, S idx)) fb blk dr)) →
  wp take_free_entry Q E (st arrs log frees (Some (first_array rest, idx)) fb blk dr).
Proof.
  intros Hs Ha Hlt HQ. destruct (store_ok_acquire _ _ _ _ _ Hs Ha Hlt) as (Hs2 & Hz & Hn).
  unfold take_free_entry, has_free_block_entry. fs_steps; [by apply bool_decide_eq_true..|].
  by apply HQ.
Qed.

Lemma wp_acquire_new_entry arrs rest idx L log frees fb blk dr Q E :
  store_ok arrs rest idx L → (∀ s, E ENOMEM s) →
  (∀ arrs' rest' idx' log' p,
    store_ok arrs' rest' idx' (p :: L) → p ∉ L → desc_at arrs' p = Some zero_desc →
    (∀ q, q ∈ L → desc_at arrs' q = desc_at arrs q) → grows arrs rest arrs' rest' → idx' ≠ 0%nat →
    Q p (st arrs' log' frees (Some (first_array rest', idx')) fb blk dr)) →
  wp (acquire_new_entry cfg) Q E (st arrs log frees (Some (first_array rest, idx)) fb blk dr).
Proof.
  intros Hs HE HQ. unfold acquire_new_entry, has_free_block_entry.
  destruct (st_idx _ _ _ _ Hs) as (arr & Ha & Hidx). fs_steps.
  destruct (bool_decide (idx < ba_length arr)%nat) eqn:Hb; cbn [negb].
  - apply bool_decide_eq_true in Hb. fs_steps. eapply wp_take_free_entry; [done..|].
    intros log' p Hs' Hn Hz. eapply HQ; [done|done|done|done|apply grows_refl|done].
  - apply bool_decide_eq_false in Hb. eapply wp_allocate_new_block_array; [done|done|lia|done|].
    intros o new log' Hnone Hpos arrs' Hs' Hnew Hsame.
    eapply (wp_take_free_entry _ (o :: rest)); [done..|]. intros log2 p Hs2 Hn Hz.
    eapply (HQ _ (o :: rest)); [done|done|done|done| |done]. split.
    + intros o' [-> | ?]%elem_of_cons; [by right|by left].
    + intros a [x Hx]. unfold arrs'. destruct (decide (a = None)) as [-> | Hne].
      * by rewrite lookup_alter_eq, lookup_insert_ne, Hx.
      * rewrite lookup_alter_ne by done. rewrite lookup_insert_ne; [by rewrite Hx|congruence].
Qed.

Lemma desc_at_upd_ne arrs p f q : q ≠ p → desc_at (desc_upd p f arrs) q = desc_at arrs q.
Proof. intros ?. rewrite desc_at_upd. unfold mupd. by rewrite decide_False. Qed.

Lemma desc_at_upd_eq arrs p f d : desc_at arrs p = Some d → desc_at (desc_upd p f arrs) p = Some (f d).
Proof. intros Hd. rewrite desc_at_upd. unfold mupd. by rewrite decide_True, Hd. Qed.

(** ** Insertion *)

Section insert.
Variables (arrs : gmap aid block_array) (rest : list oid) (L1 L2 : list bptr).
Hypothesis Hnd : NoDup (L1 ++ L2).
Hypothesis Hdll : dll (desc_at arrs) None (L1 ++ L2) None.
Variables (arrs1 : gmap aid block_array) (rest1 : list oid) (idx1 : nat) (p : bptr).
Hypothesis Hs1 : store_ok arrs1 rest1 idx1 (p :: L1 ++ L2).
Hypothesis Hp : p ∉ L1 ++ L2.
Hypothesis Hz : desc_at arrs1 p = Some zero_desc.
Hypothesis Hsame : ∀ q, q ∈ L1 ++ L2 → desc_at arrs1 q = desc_at arrs q.
Hypothesis Hgr : grows arrs rest arrs1 rest1.
Hypothesis Hidx1 : idx1 ≠ 0%nat.

(** The new block becomes the first of the list. *)
Lemma wp_link_first frees ff blk dr log Q E : L1 = [] →
  (∀ arrs' log', inserted arrs rest L1 L2 arrs' rest1 idx1 p →
    Q tt (st arrs' log' frees ff (Some p) blk dr)) →
  wp (match head L2 with
      | Some f => desc_modify p (set_bd_next (Some f));; tx_set_prev f (Some p)
      | None => mret tt
      end;; put_first_block (Some p)) Q E (st arrs1 log frees ff (head L2) blk dr).
Proof.
  intros -> HQ. cbn [app] in *. destruct L2 as [|f L2'] eqn:HL2; cbn [head hd_error].
  - fs_steps. apply HQ. eapply (inserted_intro _ _ _ _ _ _ _ _ (desc_at arrs1)); try done.
    + unfold link. by rewrite Hz.
    + unfold payload_at. by rewrite Hz.
  - assert (f ≠ p) as Hfp by (intros ->; apply Hp; by left).
    destruct (dll_mid _ [] f L2' Hdll) as (df & Hdf & _).
    rewrite <-Hsame in Hdf by (by left).
    fs_steps. eapply wp_desc_get; [fs_simpl; rewrite desc_at_upd_ne by done; eassumption|].
    fs_steps. apply HQ.
    eapply (inserted_intro _ _ _ _ _ _ _ _ (desc_at (desc_upd p (set_bd_next (Some f)) arrs1))); try done.
    + intros q Hq. rewrite desc_at_upd_ne by (by intros ->). by apply Hsame.
    + unfold link. by rewrite (desc_at_upd_eq _ _ _ _ Hz).
    + unfold payload_at. by rewrite (desc_at_upd_eq _ _ _ _ Hz).
    + intros q. cbn [upd_opt last head hd_error]. by rewrite desc_at_upd.
    + apply store_ok_upd; [right; by left|]. apply store_ok_upd; [by left|done].
    + by do 2 apply grows_upd.
Qed.

(** The new block is linked after the last block of [L1]. *)
Lemma wp_link_after pl frees ff fb blk dr log Q E : last L1 = Some pl →
  (∀ arrs' log', inserted arrs rest L1 L2 arrs' rest1 idx1 p →
    Q tt (st arrs' log' frees ff fb blk dr)) →
  wp (desc_modify p (set_bd_prev (Some pl));;
      dp ← desc_get pl;
      desc_modify p (set_bd_next (bd_next dp));;
      tx_set_next pl (Some p);;
      db ← desc_get p;
      match bd_next db with
      | Some next => tx_set_prev next (Some p)
      | None => mret tt
      end) Q E (st arrs1 log frees ff fb blk dr).
Proof.
  intros Hl HQ. destruct (dll_last_next _ _ _ _ Hdll Hl) as (dpl & Hdpl & Hnext).
  assert (pl ∈ L1 ++ L2) as Hpl by (apply elem_of_app; left; by apply last_in).
  assert (pl ≠ p) as Hne by (by intros ->). rewrite <-Hsame in Hdpl by done.
  fs_steps. eapply wp_desc_get; [fs_simpl; rewrite desc_at_upd_ne by done; eassumption|]. fs_steps.
  eapply wp_desc_get; [fs_simpl; rewrite !desc_at_upd_ne by done; eassumption|]. fs_steps.
  eapply wp_desc_get; [fs_simpl; rewrite desc_at_upd_ne by done; eapply desc_at_upd_eq, desc_at_upd_eq, Hz|].
  fs_simpl. cbn [set_bd_next set_bd_prev bd_next]. rewrite Hnext.
  set (arrs2 := desc_upd p (set_bd_next (head L2)) (desc_upd p (set_bd_prev (Some pl)) arrs1)).
  assert (desc_at arrs2 p = Some (set_bd_next (head L2) (set_bd_prev (Some pl) zero_desc))) as Hp2
    by (unfold arrs2; by apply desc_at_upd_eq, desc_at_upd_eq).
  assert (∀ q, q ∈ L1 ++ L2 → desc_at arrs2 q = desc_at arrs q) as Hsame2.
  { intros q Hq. unfold arrs2. rewrite !desc_at_upd_ne by (by intros ->). by apply Hsame. }
  assert (store_ok (desc_upd pl (set_bd_next (Some p)) arrs2) rest1 idx1 (p :: L1 ++ L2)) as Hs3.
  { apply store_ok_upd; [by right|]. by do 2 (apply store_ok_upd; [by left|]). }
  assert (∀ arrs' log', (∀ q, desc_at arrs' q = upd_opt (head L2) (set_bd_prev (Some p))
      (mupd pl (set_bd_next (Some p)) (desc_at arrs2)) q) →
    store_ok arrs' rest1 idx1 (p :: L1 ++ L2) → grows arrs rest arrs' rest1 →
    Q tt (st arrs' log' frees ff fb blk dr)) as HQ'.
  { intros arrs' log' Harrs' Hs' Hgr'. apply HQ.
    eapply (inserted_intro _ _ _ _ _ _ _ _ (desc_at arrs2)); try done.
    - unfold link. by rewrite Hp2, Hl.
    - unfold payload_at. by rewrite Hp2.
    - by rewrite Hl. }
  destruct L2 as [|n L2'] eqn:HL2; cbn [head hd_error].
  - fs_steps. apply HQ'; [|done|by do 3 apply grows_upd]. intros q. cbn. by rewrite desc_at_upd.
  - assert (n ∈ L1 ++ n :: L2') as Hn by (apply elem_of_app; right; by left).
    destruct (dll_mid _ L1 n L2' Hdll) as (dn & Hdn & _). rewrite <-Hsame2 in Hdn by done.
    assert (n ≠ pl) as Hnpl.
    { intros ->. apply NoDup_app in Hnd as (_ & Hdis & _). apply (Hdis pl); [by apply last_in|by left]. }
    fs_steps. eapply wp_desc_get; [fs_simpl; rewrite desc_at_upd_ne by done; eassumption|]. fs_steps.
    apply HQ'; [|apply store_ok_upd; [by right|done]|by do 4 apply grows_upd].
    intros q. cbn. rewrite desc_at_upd. apply mupd_ext. intros q'. by rewrite desc_at_upd.
Qed.
End insert.

Lemma head_app_last (L1 L2 : list bptr) p : last L1 = Some p → ∀ L3, head (L1 ++ L2) = head (L1 ++ L3).
Proof. by destruct L1. Qed.

Lemma wp_block_list_insert_after arrs rest idx L1 L2 log frees ff blk dr Q E :
  store_ok arrs rest idx (L1 ++ L2) → NoDup (L1 ++ L2) → dll (desc_at arrs) None (L1 ++ L2) None →
  (ff = None ∨ ff = Some (first_array rest, idx)) →
  (∀ p d, p ∈ L1 ++ L2 → desc_at arrs p = Some d → bd_size d ≠ 0) → (∀ s, E ENOMEM s) →
  (∀ arrs' rest' idx' log' p, inserted arrs rest L1 L2 arrs' rest' idx' p →
    Q p (st arrs' log' frees (Some (first_array rest', idx')) (head (L1 ++ p :: L2)) blk dr)) →
  wp (block_list_insert_after cfg (last L1)) Q E (st arrs log frees ff (head (L1 ++ L2)) blk dr).
Proof.
  intros Hs Hnd Hd Hff Hsz HE HQ. unfold block_list_insert_after. fs_steps.
  eapply wp_update_first_block_info; [done..|]. fs_steps.
  apply (wp_acquire_new_entry _ rest idx (L1 ++ L2)); [done..|].
  intros arrs1 rest1 idx1 log1 p Hs1 Hp Hz Hsame Hgr Hidx1. fs_simpl.
  destruct (last L1) as [pl|] eqn:Hl.
  - apply wp_bind. eapply (wp_link_after arrs rest L1 L2); [done..|]. intros arrs' log' Hins. fs_steps.
    rewrite (head_app_last L1 L2 pl Hl (p :: L2)). by apply HQ.
  - apply last_None in Hl as ->. cbn [app] in *. apply wp_bind, wp_bind, wp_gets. fs_simpl.
    apply (wp_link_first arrs rest [] L2 Hnd Hd arrs1 rest1 idx1 p); [done..|].
    intros arrs' log' Hins. fs_steps. by apply (HQ arrs' rest1 idx1 log' p).
Qed.

(** ** The tree of blocks *)

Hypothesis Hcalloc : ∀ k, calloc_ok k = true.

Lemma wp_vinode_blocks_insert arrs L L' b bd po pr log frees ff fb m dr Q E :
  om_rep (desc_at arrs) m L → desc_at arrs b = Some bd → block_range bd po pr → b ∉ L →
  (∀ x, x ∈ L' ↔ x = b ∨ x ∈ L) →
  (∀ b' bd', b' ∈ L → desc_at arrs b' = Some bd' → disjoint_blocks bd bd') →
  (∀ m' dr', om_rep (desc_at arrs) m' L' → Q 0 (st arrs log frees ff fb (Some m') dr')) →
  wp (vinode_blocks_insert calloc_ok b) Q E (st arrs log frees ff fb (Some m) dr).
Proof.
  intros Hrep Hb Hr Hn HL' Hdis HQ. unfold vinode_blocks_insert.
  fs_steps. apply wp_zoom. fs_simpl.
  eapply wp_mono; [eapply (wp_insert_rep _ _ _ _ L'); eauto| |done].
  intros [ret m'] d' (_ & _ & Hret & Hrep'). fs_steps. rewrite Hret by done. apply HQ, Hrep'. by apply Hret.
Qed.

Lemma wp_vinode_blocks_remove arrs L L' b log frees ff fb m dr Q E :
  om_rep (desc_at arrs) m L → b ∈ L → (∀ x, x ∈ L' ↔ x ≠ b ∧ x ∈ L) →
  (∀ m' dr', om_rep (desc_at arrs) m' L' → Q 0 (st arrs log frees ff fb (Some m') dr')) →
  wp (vinode_blocks_remove calloc_ok b) Q E (st arrs log frees ff fb (Some m) dr).
Proof.
  intros Hrep Hb HL' HQ. unfold vinode_blocks_remove.
  fs_steps. apply wp_zoom. fs_simpl.
  eapply wp_mono; [by eapply wp_remove_rep| |done].
  intros [ret m'] d' (-> & Hrep' & _). fs_steps. by apply HQ.
Qed.

(** ** Unlinking and relocating *)

Lemma wp_tx_set_next arrs p d x log frees ff fb blk dr Q E : desc_at arrs p = Some d →
  (∀ log', Q tt (st (desc_upd p (set_bd_next x) arrs) log' frees ff fb blk dr)) →
  wp (tx_set_next p x) Q E (st arrs log frees ff fb blk dr).
Proof. intros Hp HQ. fs_steps. apply HQ. Qed.

Lemma wp_tx_set_prev arrs p d x log frees ff fb blk dr Q E : desc_at arrs p = Some d →
  (∀ log', Q tt (st (desc_upd p (set_bd_prev x) arrs) log' frees ff fb blk dr)) →
  wp (tx_set_prev p x) Q E (st arrs log frees ff fb blk dr).
Proof. intros Hp HQ. fs_steps. apply HQ. Qed.

(** The two halves of [unlink_block] and of [relocate_block]: a neighbour of
    the descriptor [q] is redirected. *)
Lemma wp_redirect_prev arrs q d L n log frees ff fb blk dr rest idx Q E :
  store_ok arrs rest idx L → desc_at arrs q = Some d →
  (∀ x, bd_prev d = Some x → x ∈ L ∧ x ≠ q) →
  (∀ arrs' log', store_ok arrs' rest idx L → desc_at arrs' q = Some d →
    (∀ x, desc_at arrs' x = upd_opt (bd_prev d) (set_bd_next n) (desc_at arrs) x) →
    (∀ a, is_Some (arrs !! a) ↔ is_Some (arrs' !! a)) →
    Q tt (st arrs' log' frees ff fb blk dr)) →
  wp (match bd_prev d with Some prev => tx_set_next prev n | None => mret tt end)
    Q E (st arrs log frees ff fb blk dr).
Proof.
  intros Hs Hq Hprev HQ. destruct (bd_prev d) as [x|] eqn:Hx; [|fs_steps; by apply HQ].
  destruct (Hprev x eq_refl) as [Hin Hne]. destruct (st_in _ _ _ _ Hs x Hin) as [_ [dx Hdx]].
  eapply wp_tx_set_next; [done|]. intros log'. apply HQ.
  - by apply store_ok_upd.
  - by rewrite desc_at_upd_ne.
  - intros y. by rewrite desc_at_upd.
  - intros a. by rewrite desc_upd_lookup, fmap_is_Some.
Qed.

Lemma wp_redirect_next arrs q d L p log frees ff fb blk dr rest idx Q E :
  store_ok arrs rest idx L → desc_at arrs q = Some d →
  (∀ x, bd_next d = Some x → x ∈ L ∧ x ≠ q) →
  (∀ arrs' log', store_ok arrs' rest idx L → desc_at arrs' q = Some d →
    (∀ x, desc_at arrs' x = upd_opt (bd_next d) (set_bd_prev p) (desc_at arrs) x) →
    (∀ a, is_Some (arrs !! a) ↔ is_Some (arrs' !! a)) →
    Q tt (st arrs' log' frees ff fb blk dr)) →
  wp (match bd_next d with Some next => tx_set_prev next p | None => mret tt end)
    Q E (st arrs log frees ff fb blk dr).
Proof.
  intros Hs Hq Hnext HQ. destruct (bd_next d) as [x|] eqn:Hx; [|fs_steps; by apply HQ].
  destruct (Hnext x eq_refl) as [Hin Hne]. destruct (st_in _ _ _ _ Hs x Hin) as [_ [dx Hdx]].
  eapply wp_tx_set_prev; [done|]. intros log'. apply HQ.
  - by apply store_ok_upd.
  - by rewrite desc_at_upd_ne.
  - intros y. by rewrite desc_at_upd.
  - intros a. by rewrite desc_upd_lookup, fmap_is_Some.
Qed.

Lemma upd_opt_ext o f mem mem' q : (∀ q, mem' q = mem q) → upd_opt o f mem' q = upd_opt o f mem q.
Proof. destruct o; [apply mupd_ext|auto]. Qed.

Lemma neighbours_in L1 L2 b d :
  NoDup (L1 ++ b :: L2) → bd_prev d = last L1 → bd_next d = head L2 →
  (∀ x, bd_prev d = Some x → x ∈ L1 ++ L2 ∧ x ≠ b) ∧ (∀ x, bd_next d = Some x → x ∈ L1 ++ L2 ∧ x ≠ b).
Proof.
  intros [Hb _]%nodup_mid -> ->. split.
  - intros x Hx%last_in. assert (x ∈ L1 ++ L2) by (apply elem_of_app; by left). split; [done|by intros ->].
  - intros x Hx%head_in. assert (x ∈ L1 ++ L2) by (apply elem_of_app; by right). split; [done|by intros ->].
Qed.

Lemma payload_redirect mem mem' o1 o2 n p q :
  (∀ x, mem' x = upd_opt o2 (set_bd_prev p) (upd_opt o1 (set_bd_next n) mem) x) →
  payload_at mem' q = payload_at mem q.
Proof.
  intros Heq. unfold payload_at at 1. rewrite Heq.
  change (payload_at (upd_opt o2 (set_bd_prev p) (upd_opt o1 (set_bd_next n) mem)) q = payload_at mem q).
  by rewrite !payload_at_upd_opt_keep.
Qed.

Lemma wp_unlink_block arrs rest idx L1 b L2 log frees ff fb blk dr Q E :
  store_ok arrs rest idx (L1 ++ b :: L2) → NoDup (L1 ++ b :: L2) →
  dll (desc_at arrs) None (L1 ++ b :: L2) None →
  (∀ arrs' log', store_ok arrs' rest idx (L1 ++ b :: L2) → desc_at arrs' b = desc_at arrs b →
    dll (desc_at arrs') None (L1 ++ L2) None →
    (∀ q, payload_at (desc_at arrs') q = payload_at (desc_at arrs) q) →
    (∀ a, is_Some (arrs !! a) ↔ is_Some (arrs' !! a)) →
    Q tt (st arrs' log' frees ff fb blk dr)) →
  wp (unlink_block b) Q E (st arrs log frees ff fb blk dr).
Proof.
  intros Hs Hnd Hd HQ. destruct (dll_mid _ _ _ _ Hd) as (d & Hb & Hp & Hn).
  destruct (neighbours_in _ _ _ _ Hnd Hp Hn) as [Hpi Hni]. destruct (nodup_mid _ _ _ Hnd) as [Hbn _].
  unfold unlink_block. apply wp_bind. fs_step. apply wp_bind. fs_step. apply wp_bind.
  eapply wp_redirect_prev; [done|done| |].
  { intros x Hx. destruct (Hpi x Hx). by rewrite elem_of_mid; auto. }
  intros arrs1 log1 Hs1 Hb1 Heq1 Hdom1. apply wp_bind. fs_step. eapply wp_redirect_next; [done|done| |].
  { intros x Hx. destruct (Hni x Hx). by rewrite elem_of_mid; auto. }
  intros arrs2 log2 Hs2 Hb2 Heq2 Hdom2.
  assert (∀ x, desc_at arrs2 x = upd_opt (head L2) (set_bd_prev (last L1))
    (upd_opt (last L1) (set_bd_next (head L2)) (desc_at arrs)) x) as Heq.
  { intros x. rewrite Heq2, Hn, Hp. apply upd_opt_ext. intros y. by rewrite Heq1, Hp, Hn. }
  apply HQ; [done|by rewrite Hb2| | |by intros; rewrite Hdom1].
  - eapply dll_ext; [exact Heq|]. by apply (dll_unlink _ _ b).
  - intros q. eapply payload_redirect, Heq.
Qed.

Lemma wp_relocate_block arrs rest idx L1 mv L2 b log frees ff fb blk dr Q E :
  store_ok arrs rest idx (b :: L1 ++ mv :: L2) → NoDup (L1 ++ mv :: L2) → b ∉ L1 ++ mv :: L2 →
  dll (desc_at arrs) None (L1 ++ mv :: L2) None →
  (∀ arrs' log', store_ok arrs' rest idx (b :: L1 ++ mv :: L2) →
    dll (desc_at arrs') None (L1 ++ b :: L2) None →
    payload_at (desc_at arrs') b = payload_at (desc_at arrs) mv →
    (∀ q, q ≠ b → payload_at (desc_at arrs') q = payload_at (desc_at arrs) q) →
    (∀ a, is_Some (arrs !! a) ↔ is_Some (arrs' !! a)) →
    Q tt (st arrs' log' frees ff fb blk dr)) →
  wp (relocate_block b mv) Q E (st arrs log frees ff fb blk dr).
Proof.
  intros Hs Hnd Hb Hd HQ. destruct (dll_mid _ _ _ _ Hd) as (d & Hmv & Hp & Hn).
  destruct (neighbours_in _ _ _ _ Hnd Hp Hn) as [Hpi Hni].
  destruct (st_in _ _ _ _ Hs b) as [_ [db Hdb]]; [by left|].
  assert (b ≠ mv) as Hbmv by (intros ->; apply Hb, elem_of_mid; by left).
  unfold relocate_block. fs_steps; [by rewrite bool_decide_false|].
  eapply wp_redirect_prev; [done|done| |].
  { intros x Hx. destruct (Hpi x Hx). split; [|done]. right. apply elem_of_mid. by right. }
  intros arrs1 log1 Hs1 Hmv1 Heq1 Hdom1. fs_steps. eapply wp_redirect_next; [done|done| |].
  { intros x Hx. destruct (Hni x Hx). split; [|done]. right. apply elem_of_mid. by right. }
  intros arrs2 log2 Hs2 Hmv2 Heq2 Hdom2.
  assert (∀ x, desc_at arrs2 x = upd_opt (head L2) (set_bd_prev (Some b))
    (upd_opt (last L1) (set_bd_next (Some b)) (desc_at arrs)) x) as Heq.
  { intros x. rewrite Heq2, Hn. apply upd_opt_ext. intros y. by rewrite Heq1, Hp. }
  assert (is_Some (desc_at arrs2 b)) as [db2 Hdb2] by (apply (st_in _ _ _ _ Hs2); by left).
  fs_steps. apply HQ.
  - apply store_ok_upd; [by left|done].
  - eapply dll_ext; [intros q; rewrite desc_at_upd; apply mupd_ext; exact Heq|].
    eapply dll_relocate; eauto.
  - unfold payload_at. rewrite (desc_at_upd_eq _ _ _ _ Hdb2), Hmv. done.
  - intros q Hq. unfold payload_at at 1. rewrite desc_at_upd_ne by done. eapply payload_redirect, Heq.
  - intros a. by rewrite Hdom1, Hdom2, desc_upd_lookup, fmap_is_Some.
Qed.

(** ** Removal *)

Definition all_disjoint (mem : bptr → option block_desc) (L : list bptr) : Prop :=
  ∀ p q dp dq, p ∈ L → q ∈ L → p ≠ q → mem p = Some dp → mem q = Some dq → disjoint_blocks dp dq.

Lemma payload_at_some mem mem' p q d : payload_at mem' q = payload_at mem p → mem p = Some d →
  ∃ d', mem' q = Some d' ∧ payload d' = payload d.
Proof.
  unfold payload_at. intros Heq Hp. rewrite Hp in Heq. destruct (mem' q) as [d'|]; [|done].
  exists d'. split; [done|]. by apply (inj Some) in Heq.
Qed.

Lemma om_rep_payload mem mem' m L : (∀ q, q ∈ L → payload_at mem' q = payload_at mem q) →
  om_rep mem m L → om_rep mem' m L.
Proof.
  intros Hpay. apply om_rep_mono. intros b bd Hb Hbd.
  destruct (payload_at_some _ _ _ _ _ (Hpay b Hb) Hbd) as (d' & Hd' & Heq).
  exists d'. split; [done|]. unfold payload in Heq. by simplify_eq.
Qed.

Lemma wp_move_last_block arrs rest idx L1 mv L2 b log frees ff m dr Q E :
  store_ok arrs rest idx (b :: L1 ++ mv :: L2) → NoDup (L1 ++ mv :: L2) → b ∉ L1 ++ mv :: L2 →
  dll (desc_at arrs) None (L1 ++ mv :: L2) None → all_disjoint (desc_at arrs) (L1 ++ mv :: L2) →
  om_rep (desc_at arrs) m (L1 ++ mv :: L2) →
  (∀ arrs' log' m' dr', store_ok arrs' rest idx (b :: L1 ++ mv :: L2) →
    dll (desc_at arrs') None (L1 ++ b :: L2) None →
    payload_at (desc_at arrs') b = payload_at (desc_at arrs) mv →
    (∀ q, q ≠ b → payload_at (desc_at arrs') q = payload_at (desc_at arrs) q) →
    (∀ a, is_Some (arrs !! a) ↔ is_Some (arrs' !! a)) →
    om_rep (desc_at arrs') m' (L1 ++ b :: L2) →
    Q tt (st arrs' log' frees ff (head (L1 ++ b :: L2)) (Some m') dr')) →
  wp (move_last_block calloc_ok b mv) Q E
    (st arrs log frees ff (head (L1 ++ mv :: L2)) (Some m) dr).
Proof.
  intros Hs Hnd Hb Hd Hdis Hrep HQ. unfold move_last_block. apply wp_bind, wp_gets, wp_bind. fs_simpl.
  destruct (nodup_mid _ _ _ Hnd) as [Hmvn Hnd'].
  assert (∀ fb, fb = head (L1 ++ b :: L2) →
    wp (vinode_blocks_remove calloc_ok mv;; relocate_block b mv;;
        ret ← vinode_blocks_insert calloc_ok b;
        if negb (ret =? 0) then tx_abort ENOMEM else mret tt) Q E
      (st arrs log frees ff fb (Some m) dr)) as Hmain.
  { intros fb ->. apply wp_bind. eapply (wp_vinode_blocks_remove _ _ (L1 ++ L2)); [done| | |].
    { apply elem_of_mid. by left. }
    { intros x. rewrite elem_of_mid. split; [|naive_solver]. intros Hx. split; [by intros ->|by right]. }
    intros m1 dr1 Hrep1. apply wp_bind. eapply wp_relocate_block; [done..|].
    intros arrs' log' Hs' Hd' Hpb Hpq Hdom. apply wp_bind.
    destruct (rep_block _ _ _ Hrep mv) as (dmv & po & pr & Hmv & Hr & _); [apply elem_of_mid; by left|].
    destruct (payload_at_some _ _ _ _ _ Hpb Hmv) as (db & Hdb & Heq).
    assert (b ∉ L1 ++ L2) as Hb' by (intros ?; apply Hb, elem_of_mid; by right).
    assert (block_range db po pr) as Hr'.
    { destruct Hr. unfold payload in Heq. split; congruence || done. }
    assert (∀ q, q ∈ L1 ++ L2 → payload_at (desc_at arrs') q = payload_at (desc_at arrs) q) as Hpay
      by (intros q Hq; apply Hpq; by intros ->).
    eapply (wp_vinode_blocks_insert arrs' (L1 ++ L2) (L1 ++ b :: L2) b db po pr); [|done|done|done|..].
    - by eapply om_rep_payload.
    - intros x. by rewrite elem_of_mid.
    - intros b' bd' Hb1 Hbd'. symmetry in Heq. destruct (payload_at_some _ _ _ _ _ (eq_sym (Hpay b' Hb1)) Hbd') as (bd0 & Hbd0 & Heq0).
      assert (disjoint_blocks dmv bd0) as Hdj.
      { eapply Hdis; [| | |exact Hmv|exact Hbd0]; [apply elem_of_mid; by left|apply elem_of_mid; by right|by intros <-]. }
      injection Heq. injection Heq0. unfold disjoint_blocks in *. lia.
    - intros m2 dr2 Hrep2. cbn. fs_steps. by apply HQ. }
  case_decide as Hh; [unfold put_first_block; apply wp_modify|apply wp_ret]; fs_simpl; apply Hmain.
  - destruct L1 as [|x L1]; [done|]. injection Hh as ->. exfalso. apply Hmvn. by left.
  - by destruct L1 as [|x L1].
Qed.

Lemma wp_release_last_entry arrs rest idx L mv log frees fb blk dr Q E :
  store_ok arrs rest (S idx) (mv :: L) → mv = (first_array rest, idx) → mv ∉ L →
  (∀ arrs' rest' idx' log' frees', store_ok arrs' rest' idx' L →
    (∀ q, q ≠ mv → desc_at arrs' q = desc_at arrs q) →
    (∀ a, is_Some (arrs !! a) ↔ is_Some (arrs' !! a)) →
    (frees' = frees ∧ rest' = rest ∨ ∃ o, frees' = FreeArray o :: frees ∧ rest = o :: rest') →
    (idx' = 0%nat → rest' = []) →
    Q tt (st arrs' log' frees' (Some (first_array rest', idx')) fb blk dr)) →
  wp (release_last_entry mv) Q E (st arrs log frees (Some (first_array rest, S idx)) fb blk dr).
Proof.
  intros Hs -> Hn HQ. unfold release_last_entry, is_first_block_array_empty.
  destruct (st_in _ _ _ _ Hs (first_array rest, idx)) as [_ [d Hd]]; [by left|].
  fs_steps. replace (S idx - 1)%nat with idx by lia.
  set (arrs1 := desc_upd _ _ arrs).
  assert (store_ok arrs1 rest idx L) as Hs1.
  { eapply store_ok_release; [done|]. intros p. rewrite elem_of_cons. naive_solver. }
  assert (∀ q, q ≠ (first_array rest, idx) → desc_at arrs1 q = desc_at arrs q) as Hold
    by (intros; by apply desc_at_upd_ne).
  assert (∀ a, is_Some (arrs !! a) ↔ is_Some (arrs1 !! a)) as Hdom.
  { intros a. unfold arrs1. by rewrite desc_upd_lookup, fmap_is_Some. }
  destruct (bool_decide (idx = 0%nat) && _) eqn:Hb; last first.
  { fs_steps. apply (HQ arrs1 rest idx); [done|done|done|by left|]. intros ->. cbn in Hb.
    apply negb_false_iff, bool_decide_eq_true in Hb. by destruct rest. }
  apply andb_prop in Hb as [->%bool_decide_eq_true Hb%negb_true_iff%bool_decide_eq_false].
  destruct rest as [|o rest]; [done|]. unfold remove_first_block_array. fs_steps.
  destruct (array_chain_head _ _ _ (st_chain _ _ _ _ Hs1)) as (arr0 & H0 & Hn0).
  destruct (st_chain _ _ _ _ Hs1) as (arr0' & _ & _ & Hc). cbn in Hc.
  destruct (array_chain_head _ _ _ Hc) as (arro & Ho & Hno).
  fs_steps. rewrite Hn0. cbn [head hd_error]. fs_steps. unfold tx_set_array_next. fs_steps. rewrite Hno.
  destruct (store_array _ _ _ _ (first_array rest) Hs1) as (arr & Ha & _).
  { destruct rest; [done|]. right. by left. }
  assert (store_ok (alter (set_ba_next (head rest)) None arrs1) rest (ba_length arr) L) as Hs2
    by (by eapply store_ok_drop_array).
  assert (∃ arr2, alter (set_ba_next (head rest)) None arrs1 !! first_array rest = Some arr2 ∧
    ba_length arr2 = ba_length arr) as (arr2 & Ha2 & Hl2).
  { destruct (decide (first_array rest = None)) as [Heq|Hne].
    - rewrite Heq in *. eexists. by rewrite lookup_alter_eq, Ha.
    - exists arr. by rewrite lookup_alter_ne. }
  change (head rest) with (first_array rest) in *. fs_steps. rewrite Hl2.
  eapply (HQ _ rest); [done| | |right; by exists o|].
  - intros q Hq. rewrite desc_at_alter_next. by apply Hold.
  - intros a. rewrite Hdom, lookup_alter. case_decide; subst; [by rewrite fmap_is_Some|done].
  - pose proof (st_pos _ _ _ _ Hs2 _ _ (in_chain_first_array rest) Ha2). lia.
Qed.

(** After a removal the descriptor that was last in the arrays is found at the
    address of the removed one. *)
Definition ren (mv b q : bptr) : bptr := if decide (q = mv) then b else q.

Lemma fmap_ren_out mv b (L : list bptr) : mv ∉ L → ren mv b <$> L = L.
Proof.
  intros Hn. rewrite <-(list_fmap_id L) at 2. apply list_fmap_ext. intros i x Hx. unfold ren.
  rewrite decide_False; [done|]. intros ->. by eapply Hn, list_elem_of_lookup_2.
Qed.

Lemma fmap_ren_mid mv b (L1 L2 : list bptr) : mv ∉ L1 ++ L2 →
  ren mv b <$> (L1 ++ mv :: L2) = L1 ++ b :: L2.
Proof.
  intros Hn. rewrite fmap_app, fmap_cons. unfold ren at 2. rewrite decide_True by done.
  rewrite !fmap_ren_out; [done|..]; intros ?; apply Hn, elem_of_app; auto.
Qed.

Lemma last_fmap_ren mv b (L : list bptr) :
  last (ren mv b <$> L) = if decide (last L = Some mv) then Some b else last L.
Proof.
  rewrite fmap_last. unfold ren. destruct (last L) as [x|]; cbn; [|by rewrite decide_False].
  destruct (decide (x = mv)) as [-> | Hne]; [by rewrite decide_True|].
  rewrite decide_False; [done|congruence].
Qed.

(** What [block_list_remove] leaves, up to the renaming [f] of descriptors. *)
Record removed (arrs : gmap aid block_array) (K : list bptr) (f : bptr → bptr)
    (arrs' : gmap aid block_array) (rest' : list oid) (idx' : nat) (m' : offset_map) : Prop := {
  rem_store : store_ok arrs' rest' idx' (f <$> K);
  rem_idx : idx' = 0%nat → rest' = [];
  rem_nodup : NoDup (f <$> K);
  rem_dll : dll (desc_at arrs') None (f <$> K) None;
  rem_keep : ∀ q, q ∈ K → payload_at (desc_at arrs') (f q) = payload_at (desc_at arrs) q;
  rem_rep : om_rep (desc_at arrs') m' (f <$> K);
  rem_dom : ∀ a, is_Some (arrs !! a) ↔ is_Some (arrs' !! a);
}.

Definition frees_data (d : block_desc) (frees : list released) : list released :=
  match bd_data d with Some o => FreeData o :: frees | None => frees end.

Definition frees_after_remove (d : block_desc) (frees : list released) (rest : list oid)
    (frees' : list released) (rest' : list oid) : Prop :=
  frees' = frees_data d frees ∧ rest' = rest ∨
  ∃ o, frees' = FreeArray o :: frees_data d frees ∧ rest = o :: rest'.

Lemma wp_unlink_first arrs L1 b L2 d log frees ff blk dr Q E :
  b ∉ L1 ++ L2 → bd_next d = head L2 →
  Q tt (st arrs log frees ff (head (L1 ++ L2)) blk dr) →
  wp (if decide (head (L1 ++ b :: L2) = Some b) then put_first_block (bd_next d) else mret tt) Q E
    (st arrs log frees ff (head (L1 ++ b :: L2)) blk dr).
Proof.
  intros Hb Hn HQ. destruct L1 as [|x L1]; cbn [app head hd_error] in *.
  - rewrite decide_True by done. unfold put_first_block. fs_steps. by rewrite Hn.
  - rewrite decide_False; [by fs_steps|]. intros [= ->]. apply Hb. by left.
Qed.

Lemma wp_release_data arrs d log frees ff fb blk dr Q E :
  Q tt (st arrs log (frees_data d frees) ff fb blk dr) →
  wp (match bd_data d with Some o => tx_release (FreeData o) | None => mret tt end) Q E
    (st arrs log frees ff fb blk dr).
Proof. unfold frees_data. intros HQ. destruct (bd_data d); by fs_steps. Qed.

(** The hole at [b] is filled, unless [b] itself was the last descriptor. *)
Lemma wp_fill_hole arrs rest idx K b mv log frees ff m dr Q E :
  store_ok arrs rest idx (b :: K) → NoDup K → b ∉ K → mv ∈ b :: K →
  dll (desc_at arrs) None K None → all_disjoint (desc_at arrs) K → om_rep (desc_at arrs) m K →
  (∀ arrs' log' m' dr', store_ok arrs' rest idx (mv :: (ren mv b <$> K)) → mv ∉ ren mv b <$> K →
    NoDup (ren mv b <$> K) → dll (desc_at arrs') None (ren mv b <$> K) None →
    (∀ q, q ∈ K → payload_at (desc_at arrs') (ren mv b q) = payload_at (desc_at arrs) q) →
    om_rep (desc_at arrs') m' (ren mv b <$> K) →
    (∀ a, is_Some (arrs !! a) ↔ is_Some (arrs' !! a)) →
    Q tt (st arrs' log' frees ff (head (ren mv b <$> K)) (Some m') dr')) →
  wp (if decide (mv = b) then mret tt else move_last_block calloc_ok b mv) Q E
    (st arrs log frees ff (head K) (Some m) dr).
Proof.
  intros Hs Hnd Hb Hmv Hd Hdis Hrep HQ. case_decide as Hmb.
  - subst mv. fs_steps. specialize (HQ arrs log m dr). rewrite fmap_ren_out in HQ by done.
    apply HQ; try done. intros q Hq. unfold ren. rewrite decide_False; [done|]. by intros ->.
  - apply elem_of_cons in Hmv as [? | Hmv]; [done|].
    apply list_elem_of_split in Hmv as (L1 & L2 & ->). destruct (nodup_mid _ _ _ Hnd) as [Hmvn Hnd'].
    eapply wp_move_last_block; [done..|]. intros arrs' log' m' dr' Hs' Hd' Hpb Hpq Hdom Hrep'.
    specialize (HQ arrs' log' m' dr'). rewrite fmap_ren_mid in HQ by done.
    assert (b ∉ L1 ++ L2) as Hb' by (intros ?; apply Hb, elem_of_mid; by right).
    apply HQ; try done.
    + revert Hs'. apply store_ok_ext. intros q. rewrite !elem_of_cons, !elem_of_mid. tauto.
    + rewrite elem_of_mid. naive_solver.
    + rewrite <-Permutation_middle. by constructor.
    + intros q Hq. unfold ren. case_decide as Hqm; [by subst|]. apply Hpq. by intros ->.
Qed.

Lemma wp_block_list_remove arrs rest idx L1 b L2 d log frees ff m dr Q E :
  store_ok arrs rest idx (L1 ++ b :: L2) → (idx = 0%nat → rest = []) →
  NoDup (L1 ++ b :: L2) → dll (desc_at arrs) None (L1 ++ b :: L2) None →
  (ff = None ∨ ff = Some (first_array rest, idx)) →
  (∀ p d, p ∈ L1 ++ b :: L2 → desc_at arrs p = Some d → bd_size d ≠ 0) →
  all_disjoint (desc_at arrs) (L1 ++ L2) → om_rep (desc_at arrs) m (L1 ++ L2) →
  desc_at arrs b = Some d →
  (∀ arrs' rest' idx' log' frees' m' dr' f,
    removed arrs (L1 ++ L2) f arrs' rest' idx' m' →
    frees_after_remove d frees rest frees' rest' →
    Q (last (f <$> L1))
      (st arrs' log' frees' (Some (first_array rest', idx')) (head (f <$> (L1 ++ L2))) (Some m') dr')) →
  wp (block_list_remove calloc_ok b) Q E (st arrs log frees ff (head (L1 ++ b :: L2)) (Some m) dr).
Proof.
  intros Hs Hidx Hnd Hd Hff Hsz Hdis Hrep Hb HQ.
  destruct (nodup_mid _ _ _ Hnd) as [Hbn Hnd']. destruct (dll_mid _ _ _ _ Hd) as (d' & Hb' & Hp & Hn).
  assert (d' = d) as -> by congruence.
  assert (b ∈ L1 ++ b :: L2) as Hbin by (apply elem_of_mid; by left).
  destruct idx as [|idx].
  { rewrite Hidx in Hs by done. destruct (st_in _ _ _ _ Hs b Hbin) as [Hc Hsome].
    apply (st_used _ _ _ _ Hs) in Hbin; [lia|done|done|].
    destruct b as [[o|] i]; [by apply not_elem_of_nil in Hc|done]. }
  set (mv := (first_array rest, idx)).
  assert (mv ∈ L1 ++ b :: L2) as Hmv.
  { destruct (st_idx _ _ _ _ Hs) as (arr & Ha & Hle).
    apply (st_used _ _ _ _ Hs); [apply in_chain_first_array| |cbn; lia].
    rewrite desc_at_bound by done. cbn.
    rewrite <-(st_len _ _ _ _ Hs _ _ (in_chain_first_array rest) Ha). lia. }
  unfold block_list_remove, last_used_block. fs_steps.
  eapply wp_update_first_block_info; [done..|]. fs_steps; [done|done|].
  replace (S idx - 1)%nat with idx by lia. fold mv.
  eapply wp_unlink_block; [done..|]. intros arrs1 log1 Hs1 Hb1 Hd1 Hpay1 Hdom1.
  rewrite Hb in Hb1. fs_steps. eapply wp_unlink_first; [done..|]. fs_steps. apply wp_release_data. fs_steps.
  assert (store_ok arrs1 rest (S idx) (b :: L1 ++ L2)) as Hs1'.
  { revert Hs1. apply store_ok_ext. intros q. by rewrite elem_of_cons, elem_of_mid. }
  eapply (wp_fill_hole _ rest (S idx) (L1 ++ L2) b mv); [done..| |done| | |].
  { rewrite elem_of_cons. by apply elem_of_mid. }
  { intros p q dp dq Hp1 Hq1 Hne Hdp Hdq.
    destruct (payload_at_some _ _ _ _ _ (eq_sym (Hpay1 p)) Hdp) as (dp0 & Hdp0 & Hep).
    destruct (payload_at_some _ _ _ _ _ (eq_sym (Hpay1 q)) Hdq) as (dq0 & Hdq0 & Heq).
    specialize (Hdis p q dp0 dq0 Hp1 Hq1 Hne Hdp0 Hdq0). injection Hep. injection Heq.
    unfold disjoint_blocks in *. lia. }
  { eapply om_rep_payload; [|done]. by intros. }
  intros arrs2 log2 m2 dr2 Hs2 Hmvn Hnd2 Hd2 Hpay2 Hrep2 Hdom2. fs_steps.
  eapply wp_release_last_entry; [done|done|done|].
  intros arrs3 rest3 idx3 log3 frees3 Hs3 Hold Hdom3 Hfr Hidx3. fs_steps.
  rewrite Hp, <-last_fmap_ren. apply HQ; [|done].
  assert (∀ q, q ∈ ren mv b <$> (L1 ++ L2) → desc_at arrs3 q = desc_at arrs2 q) as Hsame.
  { intros q Hq. apply Hold. by intros ->. }
  split; [done|done|done|..].
  - eapply dll_frame; [|done]. intros q Hq. unfold link. by rewrite Hsame.
  - intros q Hq. rewrite <-Hpay1, <-Hpay2 by done. unfold payload_at. rewrite Hsame; [done|].
    apply list_elem_of_fmap. by exists q.
  - eapply om_rep_payload; [|done]. intros q Hq. unfold payload_at. by rewrite Hsame.
  - intros a. by rewrite Hdom1, Hdom2, Hdom3.
Qed.
End block_array.
