(* ===== verification/Data.v ===== *)
(** Allocating, reading, writing and releasing the data of a regular file:
    data.c.  Operations work on the state of one file ([FileState]). *)
From S2P Require Import Prelude Layout Inode Blocks OffsetMap FileState BlockArray.

(** Every descriptor slot of the arrays; their number bounds every walk over
    the blocks of a file. *)
Definition all_slots (arrs : gmap aid block_array) : list bptr :=
  map_to_list arrs ≫= λ '(a, arr), (λ i, (a, i)) <$> seq 0 (length (ba_blocks arr)).

Definition walk_fuel (s : fstate) : nat := S (length (all_slots (pm_arrays (fs_pm s)))).

Definition inode_of : M fstate inode := gets (λ s, pm_inode (fs_pm s)).

(** ** Looking up blocks *)

Definition find_closest_block (off : Z) : M fstate (option bptr) :=
  s ← get_st;
  m ← of_option NullDeref (v_blocks (fs_v s));
  zoom fs_dram set_dram (block_find_closest (desc_at (pm_arrays (fs_pm s))) m off).

Definition find_last_block : M fstate (option bptr) := find_closest_block UINT64_MAX.

Definition is_offset_in_block (block : option bptr) (offset : Z) : M fstate bool :=
  match block with
  | None => mret false
  | Some b =>
      d ← desc_get b;
      mret ((bd_offset d <=? offset) && (offset <? u64 (bd_offset d + bd_size d)))
  end.

Definition is_block_data_initialized (b : bptr) : M fstate bool :=
  d ← desc_get b; mret (negb (Z.land (bd_flags d) BLOCK_INITIALIZED =? 0)).

Definition find_closest_block_with_hint (offset : Z) (last_block : option bptr)
    : M fstate (option bptr) :=
  inside ← is_offset_in_block last_block offset;
  if inside : bool then mret last_block else find_closest_block offset.

Definition find_following_block (block : option bptr) : M fstate (option bptr) :=
  match block with
  | Some b => d ← desc_get b; mret (bd_next d)
  | None => v ← gets fs_v; mret (v_first_block v)
  end.

Section data.
Context `{!Pobj}.
Variables (cfg : block_cfg) (calloc_ok : nat → bool).
(** [pmemfile_overallocate_on_append] *)
Variable overallocate_on_append : bool.

(** ** The tree of blocks *)

Definition block_cache_insert_block (b : bptr) : M fstate Z := vinode_blocks_insert calloc_ok b.

Definition block_cache_insert_block_in_tx (b : bptr) : M fstate unit :=
  assert_in_tx;;
  err ← block_cache_insert_block b;
  if negb (err =? 0) then tx_abort err else mret tt.

(** The inner loop of [vinode_rebuild_block_tree], over one array from index
    [i]; [inl err] is the early return. *)
Fixpoint rebuild_array (a : aid) (n i : nat) (c : offset_map) (first : option bptr)
    : M fstate (Z * offset_map * option bptr) :=
  match n with
  | O => mret (0, c, first)
  | S n' =>
      s ← get_st;
      block ← desc_get (a, i);
      if bd_size block =? 0 then mret (0, c, first)
      else
        '(err, c) ← zoom fs_dram set_dram
          (insert_block calloc_ok (desc_at (pm_arrays (fs_pm s))) c (a, i));
        if negb (err =? 0) then
          zoom fs_dram set_dram (offset_map_delete c);; mret (err, c, first)
        else
          first ← match first with
                  | None => mret (Some (a, i))
                  | Some f =>
                      df ← desc_get f;
                      mret (if bd_offset block <? bd_offset df then Some (a, i) else Some f)
                  end;
          rebuild_array a n' (S i) c first
  end.

Fixpoint rebuild_arrays (fuel : nat) (block_array : option aid) (c : offset_map)
    (first : option bptr) : M fstate (Z * offset_map * option bptr) :=
  match block_array with
  | None => mret (0, c, first)
  | Some a =>
      match fuel with
      | O => fault_ NoFuel
      | S fuel' =>
          arr ← array_get a;
          '(err, c, first) ← rebuild_array a (ba_length arr) 0 c first;
          if negb (err =? 0) then mret (err, c, first)
          else rebuild_arrays fuel' (match ba_next arr with Some o => Some (Some o) | None => None end) c first
      end
  end.

Definition vinode_rebuild_block_tree : M fstate Z :=
  assert_not_in_tx;;
  c ← zoom fs_dram set_dram (offset_map_new calloc_ok);
  s ← get_st;
  '(err, c, first) ← rebuild_arrays (size (pm_arrays (fs_pm s))) (Some None) c None;
  if negb (err =? 0) then mret err
  else
    modify (λ s, set_v (set_blocks (Some c) (set_first_block first (fs_v s))) s);;
    mret 0.

(** ** Allocation *)

Definition file_allocate_block_data (block : bptr) (info : pmem_block_info) : M fstate unit :=
  assert_in_tx;;
  assert_ (MIN_BLOCK_SIZE <=? bi_size info);;
  assert_ (bi_size info mod block_alignment cfg =? 0);;
  o ← tx_xalloc_data (bi_size info);
  desc_modify block (set_bd_data (Some o));;
  desc_modify block (set_bd_size (u32 (bi_size info)));;
  desc_modify block (set_bd_flags 0).

Definition is_append (offset size : Z) : M fstate bool :=
  i ← inode_of;
  if u64 (offset + size) <=? inode_get_size i then mret false
  else
    block ← find_last_block;
    match block with
    | None => mret true
    | Some b => d ← desc_get b; mret (u64 (bd_offset d + bd_size d) <? u64 (offset + size))
    end.

Definition overallocate_size (size : Z) : Z :=
  if size <=? 4096 then 16 * 1024
  else if size <=? 64 * 1024 then 256 * 1024
  else if size <=? 1024 * 1024 then 4 * 1024 * 1024
  else if size <=? 64 * 1024 * 1024 then 64 * 1024 * 1024
  else size.

(** The five lines that put a new block of class [info] at [offset] after
    [prev]; they occur in four branches of [vinode_allocate_interval]. *)
Definition add_block (prev : option bptr) (offset : Z) (info : pmem_block_info) : M fstate (bptr * Z) :=
  block ← block_list_insert_after cfg prev;
  desc_modify block (set_bd_offset offset);;
  file_allocate_block_data block info;;
  block_cache_insert_block_in_tx block;;
  d ← desc_get block;
  mret (block, bd_size d).

(** The loop of [vinode_allocate_interval]. *)
Fixpoint allocate_loop (fuel : nat) (block : option bptr) (offset size allocated_space : Z)
    : M fstate Z :=
  match fuel with
  | O => fault_ NoFuel
  | S fuel' =>
      let next_iteration block offset size allocated_space : M fstate Z :=
        if 0 <? size then allocate_loop fuel' block offset size allocated_space
        else mret allocated_space in
      inside ← is_offset_in_block block offset;
      v ← gets fs_v;
      match block, v_first_block v with
      | Some b, _ =>
          d ← desc_get b;
          if inside : bool then
            (* case 1 *)
            let available := u64 (bd_size d - u64 (offset - bd_offset d)) in
            if size <=? available then mret allocated_space
            else next_iteration block (u64 (offset + available)) (u64 (size - available)) allocated_space
          else
            match bd_next d with
            | None =>
                (* case 2, after the last block *)
                info ← data_block_info cfg size (MAX_BLOCK_SIZE cfg);
                '(block, bsize) ← add_block (Some b) offset info;
                next_iteration (Some block) offset size (u64 (allocated_space + bsize))
            | Some next =>
                (* case 2, between two blocks *)
                dn ← desc_get next;
                let hole_count := u64 (bd_offset dn - offset) in
                if 0 <? hole_count then
                  info ← data_block_info cfg size hole_count;
                  '(block, bsize) ← add_block (Some b) offset info;
                  next_iteration (Some block) offset size (u64 (allocated_space + bsize))
                else next_iteration (Some next) offset size allocated_space
            end
      | None, None =>
          (* case 3 *)
          info ← data_block_info cfg size (MAX_BLOCK_SIZE cfg);
          '(block, bsize) ← add_block None offset info;
          next_iteration (Some block) offset size (u64 (allocated_space + bsize))
      | None, Some f =>
          (* case 4 *)
          df ← desc_get f;
          let count := if bd_offset df <? u64 (offset + size)
                       then u32 (u64 (bd_offset df - offset)) else size in
          info ← data_block_info cfg size count;
          '(block, bsize) ← add_block None offset info;
          next_iteration (Some block) offset size (u64 (allocated_space + bsize))
      end
  end.

(** Two iterations cover at least one page. *)
Definition interval_fuel (size : Z) : nat := Z.to_nat (2 * (size / MIN_BLOCK_SIZE) + 4).

Definition vinode_allocate_interval (offset size : Z) : M fstate Z :=
  assert_in_tx;;
  assert_ (0 <? size);;
  assert_ (offset <? u64 (offset + size));;
  append ← (if overallocate_on_append then is_append offset size else mret false);
  let size := if append : bool then overallocate_size size else size in
  let '(offset, size) := expand_to_full_pages cfg offset size in
  block ← find_closest_block offset;
  allocate_loop (interval_fuel size) block offset size 0.

Fixpoint interval_allocated_loop (fuel : nat) (b : bptr) (end_ : Z) : M fstate bool :=
  match fuel with
  | O => fault_ NoFuel
  | S fuel' =>
      d ← desc_get b;
      let iterator := u64 (bd_offset d + bd_size d) in
      let next := bd_next d in
      if iterator <? end_ then
        inside ← is_offset_in_block next iterator;
        if inside : bool then b' ← deref next; interval_allocated_loop fuel' b' end_
        else mret (end_ <=? iterator)
      else mret (end_ <=? iterator)
  end.

Definition vinode_is_interval_allocated (offset size : Z) (block : option bptr) : M fstate bool :=
  assert_ (0 <? size);;
  assert_ (offset <? u64 (offset + size));;
  inside ← is_offset_in_block block offset;
  block ← (if inside : bool then mret block else find_closest_block offset);
  inside ← is_offset_in_block block offset;
  if negb inside then mret false
  else
    b ← deref block;
    s ← get_st;
    interval_allocated_loop (walk_fuel s) b (u64 (offset + size)).

(** ** Copying

    A user buffer is a function from positions to bytes; [pos] is how far the
    pointer [buf] has advanced. *)

Definition copy_bytes (src : bytes) (from : Z) (dst : bytes) (to len : Z) : bytes :=
  λ i, if (to <=? i) && (i <? to + len) then src (from + (i - to)) else dst i.

Definition zero_bytes : bytes := λ _, 0.

Definition data_get (b : bptr) : M fstate oid := d ← desc_get b; of_option NullDeref (bd_data d).

Definition data_read (o : oid) : M fstate bytes :=
  p ← gets fs_pm; of_option BadPointer (pm_data p !! o).

Definition data_write (o : oid) (f : bytes → bytes) : M fstate unit :=
  data_read o;;
  modify (λ s, set_pm (set_data (alter f o (pm_data (fs_pm s))) (fs_pm s)) s).

Definition read_block_range (block : option bptr) (offset len : Z) (buf : bytes) (pos : Z)
    : M fstate bytes :=
  assert_ (0 <? len);;
  match block with
  | None => mret (copy_bytes zero_bytes 0 buf pos len)
  | Some b =>
      d ← desc_get b;
      assert_ (offset <? bd_size d);;
      assert_ (u64 (offset + len) <=? bd_size d);;
      init ← is_block_data_initialized b;
      if init : bool then
        o ← data_get b;
        data ← data_read o;
        mret (copy_bytes data offset buf pos len)
      else mret (copy_bytes zero_bytes 0 buf pos len)
  end.

Definition write_block_range (block : option bptr) (offset len : Z) (buf : bytes) (pos : Z)
    : M fstate unit :=
  b ← of_option AssertFail block;
  assert_ (0 <? len);;
  d ← desc_get b;
  assert_ (offset <? bd_size d);;
  assert_ (u64 (offset + len) <=? bd_size d);;
  o ← data_get b;
  init ← is_block_data_initialized b;
  (if negb init then
     (if negb (offset =? 0) then data_write o (λ c, copy_bytes zero_bytes 0 c 0 offset) else mret tt);;
     let count := u64 (bd_size d - u64 (offset + len)) in
     if negb (count =? 0) then
       data_write o (λ c, copy_bytes zero_bytes 0 c (offset + len) count)
     else mret tt
   else mret tt);;
  data_write o (λ c, copy_bytes buf pos c offset len);;
  init ← is_block_data_initialized b;
  if negb init then desc_modify b (λ d, set_bd_flags (Z.lor (bd_flags d) BLOCK_INITIALIZED) d)
  else mret tt.

Inductive cpy_direction := read_from_blocks | write_to_blocks.

Definition is_read (dir : cpy_direction) : bool :=
  match dir with read_from_blocks => true | write_to_blocks => false end.

(** The loop of [iterate_on_file_range]; the result is [last_block] and the
    buffer. *)
Fixpoint iterate_loop (fuel : nat) (block last_block : option bptr) (offset len : Z)
    (buf : bytes) (pos : Z) (dir : cpy_direction) : M fstate (option bptr * bytes) :=
  if 0 <? len then
    match fuel with
    | O => fault_ NoFuel
    | S fuel' =>
        (match block with None => assert_ (is_read dir) | Some _ => mret tt end);;
        inside ← is_offset_in_block block offset;
        if negb inside then
          assert_ (is_read dir);;
          next_block ← find_following_block block;
          '(read_hole_count, block) ←
            match next_block with
            | None => mret (len, block)
            | Some nb =>
                dn ← desc_get nb;
                let hole_end := u64 (bd_offset dn - offset) in
                mret (if hole_end <? len then hole_end else len, next_block)
            end;
          buf ← read_block_range None 0 read_hole_count buf pos;
          iterate_loop fuel' block last_block (u64 (offset + read_hole_count))
            (u64 (len - read_hole_count)) buf (pos + read_hole_count) dir
        else
          b ← deref block;
          d ← desc_get b;
          let in_block_start := u64 (offset - bd_offset d) in
          let in_block_len := u64 (bd_size d - in_block_start) in
          let in_block_len := if len <? in_block_len then len else in_block_len in
          assert_ (in_block_start <? bd_size d);;
          assert_ (u64 (in_block_start + in_block_len) <=? bd_size d);;
          buf ← match dir with
                | read_from_blocks => read_block_range block in_block_start in_block_len buf pos
                | write_to_blocks =>
                    write_block_range block in_block_start in_block_len buf pos;; mret buf
                end;
          d ← desc_get b;
          iterate_loop fuel' (bd_next d) block (u64 (offset + in_block_len))
            (u64 (len - in_block_len)) buf (pos + in_block_len) dir
    end
  else mret (last_block, buf).

Definition iterate_on_file_range (starting_block : option bptr) (offset len : Z) (buf : bytes)
    (dir : cpy_direction) : M fstate (option bptr * bytes) :=
  iterate_loop (interval_fuel len) starting_block starting_block offset len buf 0 dir.

(** ** Releasing an interval *)

Definition is_block_contained_by_interval (d : block_desc) (start len : Z) : bool :=
  (start <=? bd_offset d) && (u64 (bd_offset d + bd_size d) <=? u64 (start + len)).

Definition is_interval_contained_by_block (d : block_desc) (start len : Z) : bool :=
  (bd_offset d <? start) && (u64 (start + len) <? u64 (bd_offset d + bd_size d)).

Definition is_block_at_right_edge (d : block_desc) (start len : Z) : M fstate bool :=
  assert_ (negb (is_block_contained_by_interval d start len));;
  mret (u64 (start + len) <? u64 (bd_offset d + bd_size d)).

(** Snapshot a range of a block's data and zero it ([pmemobj_tx_add_range] and
    [memset], or [TX_MEMSET]). *)
Definition tx_zero_range (b : bptr) (from len : Z) : M fstate unit :=
  o ← data_get b;
  old ← data_read o;
  tx_record (UData o from len old);;
  data_write o (λ c, copy_bytes zero_bytes 0 c from len).

Fixpoint remove_loop (fuel : nat) (block : option bptr) (offset len deallocated_space : Z)
    : M fstate Z :=
  match block with
  | None => mret deallocated_space
  | Some b =>
      d ← desc_get b;
      if offset <? u64 (bd_offset d + bd_size d) then
        match fuel with
        | O => fault_ NoFuel
        | S fuel' =>
            if is_block_contained_by_interval d offset len then
              vinode_blocks_remove calloc_ok b;;
              prev ← block_list_remove calloc_ok b;
              remove_loop fuel' prev offset len (u64 (deallocated_space + bd_size d))
            else if is_interval_contained_by_block d offset len then
              init ← is_block_data_initialized b;
              (if init : bool then tx_zero_range b (u64 (offset - bd_offset d)) len else mret tt);;
              mret deallocated_space
            else
              right_edge ← is_block_at_right_edge d offset len;
              (if right_edge : bool then
                 init ← is_block_data_initialized b;
                 if init : bool then tx_zero_range b 0 (u64 (offset + len - bd_offset d)) else mret tt
               else
                 init ← is_block_data_initialized b;
                 if init : bool then
                   let block_offset := u64 (offset - bd_offset d) in
                   tx_zero_range b block_offset (u64 (bd_size d - block_offset))
                 else mret tt);;
              d ← desc_get b;
              remove_loop fuel' (bd_prev d) offset len deallocated_space
        end
      else mret deallocated_space
  end.

Definition vinode_remove_interval (offset len : Z) : M fstate Z :=
  assert_in_tx;;
  assert_ (0 <? len);;
  modify (λ s, set_v (set_counter (u64 (v_block_pointer_invalidation_counter (fs_v s) + 1)) (fs_v s)) s);;
  block ← find_closest_block (u64 (offset + len - 1));
  s ← get_st;
  remove_loop (walk_fuel s) block offset len 0.
End data.

(** ** Volatile snapshots (inode.c) *)

Definition vinode_snapshot : M fstate unit :=
  modify (λ s, set_v (set_snapshot (v_first_free_block (fs_v s), v_first_block (fs_v s)) (fs_v s)) s).

Definition vinode_restore_on_abort : M fstate unit :=
  modify (λ s, set_v (set_first_free (v_snapshot (fs_v s)).1
    (set_first_block (v_snapshot (fs_v s)).2 (fs_v s))) s);;
  v ← gets fs_v;
  match v_blocks v with
  | Some m =>
      zoom fs_dram set_dram (offset_map_delete m);;
      modify (λ s, set_v (set_blocks None (fs_v s)) s)
  | None => mret tt
  end.
