(* ===== verification/FileRep.v ===== *)
(** The invariant of a regular file and its abstract content: a sorted list of
    extents, and the byte at each position. *)
From stdpp Require Import sorting.
From S2P Require Import Prelude Layout Inode Blocks OffsetMap OffsetMapRep FileState BlockList.
From S2P Require Import BlockArray BlockArrayRep Data.

(** ** Extents *)

Definition ex_end (e : extent) : Z := ex_offset e + ex_size e.
Definition ex_init (e : extent) : bool := negb (Z.land (ex_flags e) BLOCK_INITIALIZED =? 0).

Definition covers (e : extent) (i : Z) : bool := (ex_offset e <=? i) && (i <? ex_end e).

(** The byte at position [j] of an extent: zero as long as the extent was never
    written to. *)
Definition ext_byte (data : gmap oid bytes) (e : extent) (j : Z) : Z :=
  if ex_init e then
    match ex_data e with
    | Some o => match data !! o with Some c => c j | None => 0 end
    | None => 0
    end
  else 0.

(** The byte at position [i] of the file; a hole reads as zero. *)
Fixpoint content (data : gmap oid bytes) (es : list extent) (i : Z) : Z :=
  match es with
  | [] => 0
  | e :: es' => if covers e i then ext_byte data e (i - ex_offset e) else content data es' i
  end.

Definition covered (es : list extent) (i : Z) : Prop := ∃ e, e ∈ es ∧ covers e i = true.

Definition before (x y : extent) : Prop := ex_end x ≤ ex_offset y.

Section file_rep.
Variable cfg : block_cfg.
Notation A := (block_alignment cfg).

Record ext_ok (e : extent) : Prop := {
  eo_offset : (A | ex_offset e);
  eo_size : (A | ex_size e);
  eo_pos : 0 ≤ ex_offset e;
  eo_nonempty : 0 < ex_size e;
  eo_size_bound : ex_size e ≤ UINT32_MAX;
  eo_bound : ex_end e < 2 ^ 64 - MIN_BLOCK_SIZE;
}.

Record extents_ok (data : gmap oid bytes) (es : list extent) : Prop := {
  es_ext : Forall ext_ok es;
  es_sorted : StronglySorted before es;
  es_data : ∀ e, e ∈ es → ∃ o c, ex_data e = Some o ∧ data !! o = Some c;
  es_distinct : NoDup (ex_data <$> es);
}.

(** Objects released in the current transaction are in use no more. *)
Definition frees_ok (arrs : gmap aid block_array) (data : gmap oid bytes) (rest : list oid)
    (es : list extent) (frees : list released) : Prop :=
  (∀ o, FreeArray o ∈ frees → o ∉ rest ∧ is_Some (arrs !! Some o)) ∧
  (∀ o, FreeData o ∈ frees → Some o ∉ ex_data <$> es ∧ is_Some (data !! o)).

Definition tx_frees_of (s : fstate) : list released :=
  match fs_tx s with Some t => tx_frees t | None => [] end.

Definition store_of (s : fstate) (L : list bptr) (es : list extent) : Prop :=
  ∃ rest idx, store_ok (pm_arrays (fs_pm s)) rest idx L ∧ (idx = 0%nat → rest = []) ∧
    (v_first_free_block (fs_v s) = None ∨ v_first_free_block (fs_v s) = Some (first_array rest, idx)) ∧
    frees_ok (pm_arrays (fs_pm s)) (pm_data (fs_pm s)) rest es (tx_frees_of s).

(** The file holds the extents [es], described by the descriptors [L]. *)
Record file_rep (s : fstate) (L : list bptr) (es : list extent) : Prop := {
  fr_store : store_of s L es;
  fr_nodup : NoDup L;
  fr_dll : dll (desc_at (pm_arrays (fs_pm s))) None L None;
  fr_ext : Forall2 (λ p e, payload_at (desc_at (pm_arrays (fs_pm s))) p = Some e) L es;
  fr_ok : extents_ok (pm_data (fs_pm s)) es;
  fr_first : v_first_block (fs_v s) = head L;
  fr_map : ∃ m, v_blocks (fs_v s) = Some m ∧ om_rep (desc_at (pm_arrays (fs_pm s))) m L;
}.

(** ** Consequences *)

Section extents.
Context (bs : list pmem_block_info) (Hcfg : cfg_wf cfg bs).

Lemma ext_block_range d : ext_ok (payload d) → ∃ po pr, block_range d po pr.
Proof.
  intros [Ho Hs Hp Hn _ Hb]. cbn in *. pose proof (cfg_align_page _ _ Hcfg) as Hpage.
  destruct (Z.divide_trans _ _ _ Hpage Ho) as [po Hpo]. destruct (Z.divide_trans _ _ _ Hpage Hs) as [pr Hpr].
  exists po, pr. unfold ex_end in Hb. cbn in Hb. unfold MIN_BLOCK_SIZE in *.
  split; unfold MIN_BLOCK_SIZE; lia.
Qed.

Lemma ext_end_u64 e : ext_ok e → u64 (ex_offset e + ex_size e) = ex_end e.
Proof. intros [_ _ ? ? _ Hb]. unfold ex_end in *. unfold u64. apply Z.mod_small. unfold MIN_BLOCK_SIZE in Hb. lia. Qed.

Lemma ext_size_align e : ext_ok e → A ≤ ex_size e.
Proof. intros [_ ? _ ? _ _]. by apply Z.divide_pos_le. Qed.
End extents.

Lemma sorted_app_before es1 es2 x y : StronglySorted before (es1 ++ es2) → x ∈ es1 → y ∈ es2 → before x y.
Proof. intros Hs Hx Hy. by eapply StronglySorted_app_1_elem_of. Qed.

Lemma sorted_mid es1 e es2 : StronglySorted before (es1 ++ e :: es2) →
  (∀ x, x ∈ es1 → before x e) ∧ (∀ y, y ∈ es2 → before e y) ∧ StronglySorted before (es1 ++ es2).
Proof.
  intros Hs. split; [|split].
  - intros x Hx. eapply sorted_app_before; [done|done|by left].
  - intros y Hy. apply StronglySorted_app_1_r, StronglySorted_inv in Hs as [_ Hall].
    rewrite Forall_forall in Hall. by apply Hall.
  - apply StronglySorted_app in Hs as (Hb & H1 & H2). apply StronglySorted_inv in H2 as [H2 _].
    apply StronglySorted_app. split; [|done]. intros x y Hx Hy. apply Hb; [done|by right].
Qed.
End file_rep.

(** ** Sorted lists and linked lists by position *)

Lemma sorted_lookup_lt {X} (R : relation X) (l : list X) i j x y :
  StronglySorted R l → (i < j)%nat → l !! i = Some x → l !! j = Some y → R x y.
Proof.
  intros Hs Hij Hx Hy. rewrite <-(take_drop (S i) l) in Hs.
  eapply StronglySorted_app_1_elem_of; [exact Hs|..].
  - eapply (list_elem_of_lookup_2 _ i). rewrite lookup_take_lt by lia. done.
  - eapply (list_elem_of_lookup_2 _ (j - S i)). rewrite lookup_drop. by replace (S i + (j - S i))%nat with j by lia.
Qed.

Lemma dll_prev_at mem L : ∀ prv nxt i b d, dll mem prv L nxt → L !! i = Some b → mem b = Some d →
  bd_prev d = match i with O => prv | S j => L !! j end.
Proof.
  induction L as [|q L IH]; intros prv nxt i b d; [done|]. intros [Hq HL] Hi Hb.
  destruct i as [|i]; cbn in Hi.
  - simplify_eq. unfold link in Hq. rewrite Hb in Hq. cbn in Hq. by simplify_eq.
  - rewrite (IH _ _ i b d HL Hi Hb). by destruct i.
Qed.

Section rep.
Variable cfg : block_cfg.
Context (bs : list pmem_block_info) (Hcfg : cfg_wf cfg bs).
Implicit Types (s : fstate) (L : list bptr) (es : list extent).

Lemma rep_chain s L es : file_rep cfg s L es → block_chain (desc_at (pm_arrays (fs_pm s))) L.
Proof.
  intros Hr. split.
  - intros i j bi bj di dj Hij Hi Hj Hdi Hdj. pose proof (fr_ext _ _ _ _ Hr) as Hext.
    destruct (Forall2_lookup_l _ _ _ _ _ Hext Hi) as (ei & Hei & Hpi).
    destruct (Forall2_lookup_l _ _ _ _ _ Hext Hj) as (ej & Hej & Hpj).
    pose proof (sorted_lookup_lt _ _ _ _ _ _ (es_sorted _ _ _ (fr_ok _ _ _ _ Hr)) Hij Hei Hej) as Hb.
    unfold payload_at in *. rewrite Hdi in Hpi. rewrite Hdj in Hpj. by simplify_eq/=.
  - intros i b d Hi Hb. rewrite (dll_prev_at _ _ _ _ _ _ _ (fr_dll _ _ _ _ Hr) Hi Hb). done.
Qed.

Lemma rep_split s L1 p L2 es : file_rep cfg s (L1 ++ p :: L2) es →
  ∃ es1 e es2 d, es = es1 ++ e :: es2 ∧ length L1 = length es1 ∧
    desc_at (pm_arrays (fs_pm s)) p = Some d ∧ payload d = e ∧ bd_prev d = last L1 ∧ bd_next d = head L2.
Proof.
  intros Hr. destruct (dll_mid _ _ _ _ (fr_dll _ _ _ _ Hr)) as (d & Hd & Hp & Hn).
  destruct (proj1 (Forall2_app_inv_l _ _ _ _) (fr_ext _ _ _ _ Hr)) as (es1 & es2' & H1 & H2 & ->).
  apply Forall2_cons_inv_l in H2 as (e & es2 & He & H2 & ->).
  exists es1, e, es2, d. split_and!; [done|by eapply Forall2_length|done| |done|done].
  unfold payload_at in He. rewrite Hd in He. by simplify_eq/=.
Qed.

Lemma rep_ext s L es e : file_rep cfg s L es → e ∈ es → ext_ok cfg e.
Proof. intros Hr He. pose proof (es_ext _ _ _ (fr_ok _ _ _ _ Hr)) as H. rewrite Forall_forall in H. by apply H. Qed.

Lemma rep_elem s L es e : file_rep cfg s L es → e ∈ es →
  ∃ p d, p ∈ L ∧ desc_at (pm_arrays (fs_pm s)) p = Some d ∧ payload d = e.
Proof.
  intros Hr [i Hi]%list_elem_of_lookup.
  destruct (Forall2_lookup_r _ _ _ _ _ (fr_ext _ _ _ _ Hr) Hi) as (p & Hp & Hpay).
  unfold payload_at in Hpay. destruct (desc_at _ p) as [d|] eqn:Hd; [|done].
  exists p, d. split_and!; [by eapply list_elem_of_lookup_2|done|by simplify_eq/=].
Qed.

(** ** Looking up the block at or before an offset *)

Lemma set_dram_id s : set_dram (fs_dram s) s = s.
Proof. by destruct s. Qed.

Lemma wp_find_closest_block s L es off Q E : file_rep cfg s L es → 0 ≤ off →
  ((∀ e, e ∈ es → off < ex_offset e) → Q None s) →
  (∀ L1 p L2 es1 e es2, L = L1 ++ p :: L2 → es = es1 ++ e :: es2 → length L1 = length es1 →
    ex_offset e ≤ off → (∀ e', e' ∈ es2 → off < ex_offset e') → Q (Some p) s) →
  wp (find_closest_block off) Q E s.
Proof.
  intros Hr Hoff HN HS. destruct (fr_map _ _ _ _ Hr) as (m & Hm & Hrep).
  unfold find_closest_block. wp_steps. rewrite Hm. wp_steps. apply wp_zoom.
  eapply wp_mono; [apply wp_block_find_closest; [exact Hrep|by eapply rep_chain|done]| |done].
  intros r d [-> Hc]. rewrite set_dram_id. destruct r as [p|].
  - destruct Hc as (Hp & bd & Hbd & Hle & Hmax).
    apply list_elem_of_split in Hp as (L1 & L2 & ->).
    destruct (rep_split _ _ _ _ _ Hr) as (es1 & e & es2 & d & -> & Hlen & Hd & He & _).
    assert (d = bd) as -> by congruence. subst e.
    apply (HS L1 p L2 es1 (payload bd) es2); [done|done|done|done|]. intros e' He'.
    destruct (rep_elem _ _ _ e' Hr) as (p' & d' & Hp' & Hd' & <-); [apply elem_of_app; right; by right|].
    destruct (decide (bd_offset d' ≤ off)) as [Hle'|]; [|cbn; lia]. exfalso.
    pose proof (Hmax p' d' Hp' Hd' Hle').
    destruct (sorted_mid _ _ _ (es_sorted _ _ _ (fr_ok _ _ _ _ Hr))) as (_ & Hafter & _).
    specialize (Hafter _ He'). unfold before, ex_end in Hafter. cbn in Hafter.
    destruct (rep_ext _ _ _ (payload bd) Hr) as [_ _ _ Hpos _ _]; [apply elem_of_app; right; by left|].
    cbn in Hpos. lia.
  - apply HN. intros e He. destruct (rep_elem _ _ _ e Hr He) as (p & d & Hp & Hd & <-). by apply (Hc p d).
Qed.

(** The test whether an offset lies in a block. *)
Lemma wp_is_offset_in_block s L es L1 p L2 d off Q E : file_rep cfg s L es → L = L1 ++ p :: L2 →
  desc_at (pm_arrays (fs_pm s)) p = Some d → Q (covers (payload d) off) s →
  wp (is_offset_in_block (Some p) off) Q E s.
Proof.
  intros Hr -> Hd HQ. unfold is_offset_in_block. wp_steps. eapply wp_desc_get; [done|]. wp_steps.
  destruct (rep_split _ _ _ _ _ Hr) as (es1 & e & es2 & d' & -> & _ & Hd' & <- & _).
  assert (d' = d) as -> by congruence.
  change (bd_offset d + bd_size d) with (ex_offset (payload d) + ex_size (payload d)).
  rewrite (ext_end_u64 cfg); [done|]. eapply rep_ext; [done|]. apply elem_of_app. right. by left.
Qed.
End rep.

Lemma forall2_impl_in {X Y} (P Q : X → Y → Prop) (l : list X) (k : list Y) :
  Forall2 P l k → (∀ x y, x ∈ l → P x y → Q x y) → Forall2 Q l k.
Proof.
  intros H. induction H as [|x y l k Hxy _ IH]; intros HPQ; constructor.
  - apply HPQ; [by left|done].
  - apply IH. intros x' y' Hx'. apply HPQ. by right.
Qed.

Lemma forall2_payload_in mem L es p d : Forall2 (λ p e, payload_at mem p = Some e) L es →
  p ∈ L → mem p = Some d → payload d ∈ es.
Proof.
  intros HF [i Hi]%list_elem_of_lookup Hd. destruct (Forall2_lookup_l _ _ _ _ _ HF Hi) as (e & He & Hpay).
  unfold payload_at in Hpay. rewrite Hd in Hpay. simplify_eq/=. by eapply list_elem_of_lookup_2.
Qed.

(** ** Content *)

Section content.
Implicit Types (data : gmap oid bytes) (es : list extent).

Lemma covers_true e i : covers e i = true ↔ ex_offset e ≤ i < ex_end e.
Proof. unfold covers. rewrite andb_true_iff, Z.leb_le, Z.ltb_lt. done. Qed.

Lemma covers_false e i : covers e i = false ↔ ¬ (ex_offset e ≤ i < ex_end e).
Proof. by rewrite <-covers_true, not_true_iff_false. Qed.

Lemma content_hole data es i : (∀ e, e ∈ es → covers e i = false) → content data es i = 0.
Proof.
  induction es as [|e es IH]; intros He; [done|]. cbn. rewrite (He e) by (by left).
  apply IH. intros x Hx. apply He. by right.
Qed.

Lemma content_skip data es1 es2 i : (∀ e, e ∈ es1 → covers e i = false) →
  content data (es1 ++ es2) i = content data es2 i.
Proof.
  induction es1 as [|e es1 IH]; intros He; [done|]. cbn. rewrite (He e) by (by left).
  apply IH. intros x Hx. apply He. by right.
Qed.

Lemma content_at data es1 e es2 i : StronglySorted before (es1 ++ e :: es2) → covers e i = true →
  content data (es1 ++ e :: es2) i = ext_byte data e (i - ex_offset e).
Proof.
  intros Hs Hc. rewrite content_skip; [cbn; by rewrite Hc|]. intros x Hx.
  destruct (sorted_mid _ _ _ Hs) as (Hb & _ & _). specialize (Hb x Hx). unfold before in Hb.
  apply covers_true in Hc. apply covers_false. lia.
Qed.

(** An extent that was never written to reads like a hole. *)
Lemma content_uninit data es1 e es2 i : ex_init e = false → (∀ y, y ∈ es2 → before e y) →
  content data (es1 ++ e :: es2) i = content data (es1 ++ es2) i.
Proof.
  intros Hi Hb. induction es1 as [|x es1 IH]; cbn; [|by rewrite IH].
  destruct (covers e i) eqn:Hc; [|done]. unfold ext_byte. rewrite Hi. symmetry.
  apply content_hole. intros y Hy. specialize (Hb y Hy). unfold before in Hb.
  apply covers_true in Hc. apply covers_false. lia.
Qed.

Lemma ext_byte_ext data data' e j : (∀ o, ex_data e = Some o → data' !! o = data !! o) →
  ext_byte data' e j = ext_byte data e j.
Proof.
  intros Hd. unfold ext_byte. destruct (ex_init e); [|done]. destruct (ex_data e) as [o|]; [|done].
  by rewrite (Hd o eq_refl).
Qed.

Lemma content_ext data data' es i :
  (∀ e o, e ∈ es → ex_data e = Some o → data' !! o = data !! o) →
  content data' es i = content data es i.
Proof.
  induction es as [|e es IH]; intros Hd; [done|]. cbn. rewrite IH.
  - case_match; [|done]. apply ext_byte_ext. intros o Ho. apply (Hd e); [by left|done].
  - intros x o Hx. apply Hd. by right.
Qed.
End content.

(** ** Adding a block *)

(** What the operations inside a transaction leave alone. *)
Record frame (s s' : fstate) : Prop := {
  frame_inode : pm_inode (fs_pm s') = pm_inode (fs_pm s);
  frame_tx : is_Some (fs_tx s) → is_Some (fs_tx s');
  frame_snapshot : v_snapshot (fs_v s') = v_snapshot (fs_v s);
  frame_counter : v_block_pointer_invalidation_counter (fs_v s') =
    v_block_pointer_invalidation_counter (fs_v s);
}.

Lemma frame_refl s : frame s s.
Proof. by split. Qed.

Lemma frame_trans s1 s2 s3 : frame s1 s2 → frame s2 s3 → frame s1 s3.
Proof. intros [? ? ? ?] [? ? ? ?]. split; [congruence|auto|congruence..]. Qed.

Section add_block.
Context {HP : Pobj} {HPok : PobjOk}.
Variables (cfg : block_cfg) (bs : list pmem_block_info) (calloc_ok : nat → bool).
Hypothesis Hcfg : cfg_wf cfg bs.
Hypothesis Hcalloc : ∀ k, calloc_ok k = true.
Implicit Types (s : fstate) (L : list bptr) (es : list extent).

Definition new_extent (o : oid) (info : pmem_block_info) (offset : Z) : extent :=
  Extent (Some o) (bi_size info) 0 offset.

(** A block of class [info] fits between [es1] and [es2] at [offset]. *)
Record fits (es1 es2 : list extent) (offset : Z) (info : pmem_block_info) : Prop := {
  fit_class : info ∈ bs;
  fit_align : (block_alignment cfg | offset);
  fit_pos : 0 ≤ offset;
  fit_left : ∀ x, x ∈ es1 → ex_end x ≤ offset;
  fit_right : ∀ y, y ∈ es2 → offset + bi_size info ≤ ex_offset y;
  fit_bound : offset + bi_size info < 2 ^ 64 - MIN_BLOCK_SIZE;
}.

Lemma new_extent_ok es1 es2 offset info o : fits es1 es2 offset info → ext_ok cfg (new_extent o info offset).
Proof.
  intros [Hin Ha Hp _ _ Hb]. destruct (cw_size _ _ Hcfg _ Hin) as [Hd [Hs1 Hs2]].
  pose proof (MAX_BLOCK_SIZE_bound _ _ Hcfg). split; cbn; [done|done|done|done|lia|done].
Qed.

Lemma extents_ok_insert data es1 es2 offset info o c :
  extents_ok cfg data (es1 ++ es2) → fits es1 es2 offset info → data !! o = None →
  extents_ok cfg (<[o := c]> data) (es1 ++ new_extent o info offset :: es2).
Proof.
  intros [He Hs Hd Hn] Hf Ho.
  assert (∀ e, e ∈ es1 ++ es2 → ex_data e ≠ Some o) as Hne.
  { intros e Hin Heq. destruct (Hd e Hin) as (o' & c' & Ho' & Hc'). congruence. }
  split.
  - apply Forall_app in He as [H1 H2]. apply Forall_app. split; [done|]. constructor; [|done].
    by eapply new_extent_ok.
  - apply StronglySorted_app in Hs as (Hb & H1 & H2). apply StronglySorted_app. split; [|split; [done|]].
    + intros x y Hx [-> | Hy]%elem_of_cons; [|by apply Hb]. by apply (fit_left _ _ _ _ Hf).
    + apply StronglySorted_cons. split; [|done]. apply Forall_forall. intros y Hy. by apply (fit_right _ _ _ _ Hf).
  - intros e Hin. rewrite <-Permutation_middle in Hin.
    apply elem_of_cons in Hin as [-> | Hin].
    + exists o, c. by rewrite lookup_insert_eq.
    + destruct (Hd e Hin) as (o' & c' & Ho' & Hc'). exists o', c'. split; [done|].
      rewrite lookup_insert_ne; [done|]. intros ->. congruence.
  - rewrite <-Permutation_middle, fmap_cons. constructor; [|done].
    intros (e & Heq & Hin)%list_elem_of_fmap. by apply (Hne e).
Qed.

(** The descriptor of the new block, filled in by [add_block]. *)
Definition fill_desc (o : oid) (info : pmem_block_info) (offset : Z) (d : block_desc) : block_desc :=
  set_bd_flags 0 (set_bd_size (u32 (bi_size info)) (set_bd_data (Some o) (set_bd_offset offset d))).

Lemma class_u32 info : info ∈ bs → u32 (bi_size info) = bi_size info.
Proof.
  intros Hin. destruct (cw_size _ _ Hcfg _ Hin) as [_ Hs].
  pose proof (MAX_BLOCK_SIZE_bound _ _ Hcfg). unfold UINT32_MAX in *. apply Z.mod_small. lia.
Qed.

Lemma fill_desc_payload o info offset d : info ∈ bs →
  payload (fill_desc o info offset d) = new_extent o info offset.
Proof. intros Hin. unfold payload, fill_desc, new_extent. cbn. by rewrite class_u32. Qed.

Definition filled (p : bptr) (o : oid) (info : pmem_block_info) (offset : Z) (arrs : gmap aid block_array) : gmap aid block_array :=
  desc_upd p (set_bd_flags 0) (desc_upd p (set_bd_size (u32 (bi_size info)))
    (desc_upd p (set_bd_data (Some o)) (desc_upd p (set_bd_offset offset) arrs))).

Lemma desc_at_filled p o info offset arrs q :
  desc_at (filled p o info offset arrs) q = mupd p (fill_desc o info offset) (desc_at arrs) q.
Proof.
  unfold filled. rewrite !desc_at_upd. unfold mupd. case_decide; [|by rewrite !desc_at_upd_ne].
  subst q. repeat (rewrite desc_at_upd; unfold mupd; rewrite decide_True by done).
  by destruct (desc_at arrs p).
Qed.

Lemma frees_ok_insert arrs data rest es1 es2 frees arrs' rest' o c info offset :
  frees_ok arrs data rest (es1 ++ es2) frees → grows arrs rest arrs' rest' → data !! o = None →
  frees_ok arrs' (<[o := c]> data) rest' (es1 ++ new_extent o info offset :: es2) frees.
Proof.
  intros [Ha Hd] [Hg1 Hg2] Ho. split.
  - intros o' Ho'. destruct (Ha o' Ho') as [Hn Hs]. split; [|by apply Hg2].
    intros [?|He]%Hg1; [done|]. rewrite He in Hs. by destruct Hs.
  - intros o' Ho'. destruct (Hd o' Ho') as [Hn Hs]. split.
    + rewrite <-Permutation_middle, fmap_cons, elem_of_cons. intros [Heq|?]; [|done]. cbn in Heq.
      simplify_eq. rewrite Ho in Hs. by destruct Hs.
    + apply lookup_insert_is_Some'. by right.
Qed.

Lemma rep_sizes s L es p d : file_rep cfg s L es → p ∈ L →
  desc_at (pm_arrays (fs_pm s)) p = Some d → bd_size d ≠ 0.
Proof.
  intros Hr Hp Hd. apply list_elem_of_lookup in Hp as [i Hi].
  destruct (Forall2_lookup_l _ _ _ _ _ (fr_ext _ _ _ _ Hr) Hi) as (e & He & Hpay).
  unfold payload_at in Hpay. rewrite Hd in Hpay. simplify_eq/=.
  destruct (rep_ext _ _ _ _ _ Hr (list_elem_of_lookup_2 _ _ _ He)). cbn in *. lia.
Qed.

(** The invariant after the new block is linked and filled in. *)
Lemma file_rep_after_insert arrs rest L1 L2 es1 es2 arrs1 rest1 idx1 p data ino t t' ff fb m cnt snap dr m' dr' o c info offset :
  file_rep cfg (FState (Pmem arrs data ino) (Some t) (Vinode ff fb m cnt snap) dr) (L1 ++ L2) (es1 ++ es2) →
  length L1 = length es1 → fits es1 es2 offset info → data !! o = None →
  frees_ok arrs data rest (es1 ++ es2) (tx_frees t) → tx_frees t' = tx_frees t →
  inserted arrs rest L1 L2 arrs1 rest1 idx1 p →
  om_rep (desc_at (filled p o info offset arrs1)) m' (L1 ++ p :: L2) →
  file_rep cfg (FState (Pmem (filled p o info offset arrs1) (<[o := c]> data) ino) (Some t')
      (Vinode (Some (first_array rest1, idx1)) (head (L1 ++ p :: L2)) (Some m') cnt snap) dr')
    (L1 ++ p :: L2) (es1 ++ new_extent o info offset :: es2).
Proof.
  intros Hr Hlen Hf Ho Hfr Ht [Hs Hn Hd Hz Hk Hg Hi] Hrep.
  assert (p ∈ L1 ++ p :: L2) as Hp by (rewrite elem_of_app, elem_of_cons; tauto).
  split; cbn [fs_pm fs_v pm_arrays pm_data v_first_block v_blocks].
  - exists rest1, idx1. split; [|split; [done|split; [by right|]]].
    + by do 4 (apply store_ok_upd; [done|]).
    + cbn. rewrite Ht. eapply frees_ok_insert; [done| |done]. by do 4 apply grows_upd.
  - rewrite <-Permutation_middle. constructor; [done|]. by apply (fr_nodup _ _ _ _ Hr).
  - eapply dll_ext; [apply desc_at_filled|]. by apply dll_mupd_keep.
  - pose proof (fr_ext _ _ _ _ Hr) as Hext. cbn in Hext.
    apply Forall2_app_inv in Hext as [H1 H2]; [|done].
    assert (∀ q, q ∈ L1 ++ L2 → payload_at (desc_at (filled p o info offset arrs1)) q = payload_at (desc_at arrs) q) as Hq.
    { intros q Hq. unfold payload_at at 1. rewrite desc_at_filled. unfold mupd. rewrite decide_False by (by intros ->). by apply Hk. }
    apply Forall2_app; [|constructor].
    + eapply forall2_impl_in; [exact H1|]. intros q e Hin <-. apply Hq, elem_of_app. by left.
    + unfold payload_at. rewrite desc_at_filled. unfold mupd. rewrite decide_True by done.
      unfold payload_at in Hz. destruct (desc_at arrs1 p); [|done]. cbn. f_equal. apply fill_desc_payload, Hf.
    + eapply forall2_impl_in; [exact H2|]. intros q e Hin <-. apply Hq, elem_of_app. by right.
  - by eapply extents_ok_insert; [apply Hr|..].
  - done.
  - by exists m'.
Qed.

Lemma wp_add_block s L1 L2 es1 es2 offset info Q E :
  file_rep cfg s (L1 ++ L2) (es1 ++ es2) → length L1 = length es1 → is_Some (fs_tx s) →
  fits es1 es2 offset info → (∀ s', E ENOMEM s') →
  (∀ s' p o, file_rep cfg s' (L1 ++ p :: L2) (es1 ++ new_extent o info offset :: es2) →
    pm_data (fs_pm s) !! o = None → pm_data (fs_pm s') = <[o := garbage o]> (pm_data (fs_pm s)) →
    frame s s' → Q (p, bi_size info) s') →
  wp (add_block cfg calloc_ok (last L1) offset info) Q E s.
Proof.
  destruct s as [[arrs data ino] tx [ff fb blk cnt snap] dr]. intros Hr Hlen [[log frees] Htx] Hf HE HQ.
  cbn in Htx. subst tx. pose proof Hr as [(rest & idx & Hs & Hidx & Hff & Hfr) Hnd Hd Hext Hok Hfirst (m & Hm & Hrep)].
  cbn in *. subst fb blk. unfold add_block. apply wp_bind.
  eapply (wp_block_list_insert_after cfg bs Hcfg data ino cnt snap arrs rest idx L1 L2); [done..| |done|].
  { intros q dq Hq Hdq. by eapply rep_sizes. }
  intros arrs1 rest1 idx1 log1 p Hins.
  assert (∃ dp, desc_at arrs1 p = Some dp) as [dp Hdp].
  { pose proof (ins_zero _ _ _ _ _ _ _ _ Hins) as Hz. unfold payload_at in Hz. destruct (desc_at arrs1 p); [by eauto|done]. }
  destruct (cw_size _ _ Hcfg _ (fit_class _ _ _ _ Hf)) as [Hdiv [Hpos _]].
  unfold file_allocate_block_data, tx_xalloc_data. fs_steps.
  { apply Z.leb_le. apply Z.le_trans with (block_alignment cfg); [|by apply Z.divide_pos_le].
    apply Z.divide_pos_le; [by eapply cfg_align_pos|by eapply cfg_align_page]. }
  { apply Z.eqb_eq, Z.mod_divide; [|done]. pose proof (cfg_align_pos _ _ Hcfg). lia. }
  destruct (palloc _ _) as [o|] eqn:Hal; [|by fs_steps].
  pose proof (palloc_fresh_data _ _ _ Hal) as Ho. cbn in Ho. fs_steps.
  fold (filled p o info offset arrs1). unfold block_cache_insert_block_in_tx. fs_steps.
  assert (desc_at (filled p o info offset arrs1) p = Some (fill_desc o info offset dp)) as Hp'.
  { rewrite desc_at_filled. unfold mupd. by rewrite decide_True, Hdp. }
  pose proof (fill_desc_payload o info offset dp (fit_class _ _ _ _ Hf)) as Hpay.
  assert (∀ q, q ∈ L1 ++ L2 →
    payload_at (desc_at (filled p o info offset arrs1)) q = payload_at (desc_at arrs) q) as Hold.
  { intros q Hq. unfold payload_at at 1. rewrite desc_at_filled. unfold mupd.
    rewrite decide_False; [by apply (ins_keep _ _ _ _ _ _ _ _ Hins)|]. intros ->.
    by apply (ins_new _ _ _ _ _ _ _ _ Hins). }
  destruct (ext_block_range cfg bs Hcfg (fill_desc o info offset dp)) as (po & pr & Hrange).
  { rewrite Hpay. by eapply new_extent_ok. }
  eapply (wp_vinode_blocks_insert _ _ _ _ _ Hcalloc _ (L1 ++ L2) (L1 ++ p :: L2)); [|exact Hp'|exact Hrange|..].
  - by eapply om_rep_payload.
  - apply (ins_new _ _ _ _ _ _ _ _ Hins).
  - intros x. by rewrite elem_of_mid.
  - intros b' bd' Hb' Hbd'. destruct (payload_at_some _ _ _ _ _ (eq_sym (Hold b' Hb')) Hbd') as (d0 & Hd0 & Heq).
    apply Forall2_app_inv in Hext as [H1 H2]; [|done].
    assert (fill : ex_offset (payload (fill_desc o info offset dp)) = offset ∧
      ex_size (payload (fill_desc o info offset dp)) = bi_size info) by (by rewrite Hpay).
    destruct fill as [Ho1 Ho2]. cbn [payload ex_offset ex_size] in Ho1, Ho2.
    injection Heq as _ Hsz _ Hof. unfold disjoint_blocks. rewrite Ho1, Ho2.
    apply elem_of_app in Hb' as [Hb'|Hb'].
    + right. pose proof (fit_left _ _ _ _ Hf _ (forall2_payload_in _ _ _ _ _ H1 Hb' Hd0)) as Hl.
      unfold ex_end in Hl. cbn in Hl. lia.
    + left. pose proof (fit_right _ _ _ _ Hf _ (forall2_payload_in _ _ _ _ _ H2 Hb' Hd0)) as Hl. cbn in Hl. lia.
  - intros m' dr' Hrep'. cbn. fs_steps.
    replace (bd_size (fill_desc o info offset dp)) with (bi_size info)
      by (by injection Hpay).
    apply (HQ _ p o); [|done|done|by split].
    eapply (file_rep_after_insert arrs rest L1 L2 es1 es2); try done.
Qed.
End add_block.

(** ** A concrete file, for the examples *)

Module Ex.
(** An allocator that never fails. *)
Definition used_oids (p : pmem) : list oid :=
  (map_to_list (pm_data p)).*1 ++ omap id (map_to_list (pm_arrays p)).*1.

Definition next_oid (p : pmem) : oid := Pos.succ (foldr Pos.max 1%positive (used_oids p)).

#[export] Instance pobj : Pobj := {| palloc p _ := Some (next_oid p); garbage _ _ := 0x66 |}.

Lemma fold_max_le (l : list positive) x : x ∈ l → (x ≤ foldr Pos.max 1 l)%positive.
Proof.
  induction l as [|y l IH]; [by intros ?%not_elem_of_nil|]. cbn. intros [-> | Hx]%elem_of_cons; [lia|].
  specialize (IH Hx). lia.
Qed.

#[export] Instance pobj_ok : PobjOk.
Proof.
  split.
  - intros p size o [= <-]. apply eq_None_not_Some. intros [arr Harr].
    assert (next_oid p ∈ used_oids p) as Hin.
    { apply elem_of_app. right. apply list_elem_of_omap. exists (Some (next_oid p)). split; [|done].
      apply list_elem_of_fmap. exists (Some (next_oid p), arr). split; [done|]. by apply elem_of_map_to_list. }
    apply fold_max_le in Hin. unfold next_oid in *. lia.
  - intros p size o [= <-]. apply eq_None_not_Some. intros [c Hc].
    assert (next_oid p ∈ used_oids p) as Hin.
    { apply elem_of_app. left. apply list_elem_of_fmap. exists (next_oid p, c). split; [done|].
      by apply elem_of_map_to_list. }
    apply fold_max_le in Hin. unfold next_oid in *. lia.
Qed.

Definition calloc (_ : nat) : bool := true.

Definition time0 : pmemfile_time := Time 0 0.
Definition inode0 (size : Z) : inode :=
  Inode 0 0 0 0 (Slot2 PMEMFILE_S_IFREG 0) (Slot2 0 0) (Slot2 size 0) (Slot2 1 0)
    (Slot2 time0 time0) (Slot2 time0 time0) (Slot2 time0 time0)
    (Slots false false false false false false false).

(** A new file whose embedded array has two slots. *)
Definition arrays0 : gmap aid block_array :=
  {[ None := BlockArray (PMEMFILE_BLOCK_ARRAY_VERSION 1) None 2 [zero_desc; zero_desc] ]}.

Definition file0 (tx : option tx) : fstate :=
  FState (Pmem arrays0 ∅ (inode0 0)) tx
    (Vinode None None (Some (OffsetMap ENull MIN_BLOCK_BITS)) 0 (None, None)) (Dram 0 1).

Lemma store0 : store_ok arrays0 [] 0 [].
Proof.
  assert (∀ i, arrays0 !! None = Some (BlockArray (PMEMFILE_BLOCK_ARRAY_VERSION 1) None 2 [zero_desc; zero_desc]) ∧
    desc_at arrays0 (None, i) = [zero_desc; zero_desc] !! i) as H by done.
  split.
  - eexists. split; [apply H|done]. exact 0%nat.
  - constructor.
  - intros [?|] arr Hc Ha; [by apply not_elem_of_nil in Hc|]. destruct (H 0%nat) as [H' _]. by simplify_eq.
  - intros [?|] arr Hc Ha; [by apply not_elem_of_nil in Hc|]. destruct (H 0%nat) as [H' _]. simplify_eq. cbn. lia.
  - intros [[?|] i] Hc Hd; [by apply not_elem_of_nil in Hc|]. split; [by intros ?%not_elem_of_nil|].
    cbn. intros Hi. specialize (Hi eq_refl). lia.
  - intros [[?|] i] d Hc; [by apply not_elem_of_nil in Hc|]. rewrite (proj2 (H i)).
    by destruct i as [|[|?]]; intros; simplify_eq/=.
  - by intros p ?%not_elem_of_nil.
  - eexists. split; [apply (H 0%nat)|]. cbn. lia.
Qed.

Lemma rep0 tx : tx_frees_of (file0 tx) = [] → file_rep default_cfg (file0 tx) [] [].
Proof.
  intros Htx. split; cbn.
  - exists [], 0%nat. split; [exact store0|]. split; [done|]. split; [by left|]. rewrite Htx.
    by split; intros o ?%not_elem_of_nil.
  - constructor.
  - done.
  - constructor.
  - split; [constructor|constructor|by intros e ?%not_elem_of_nil|constructor].
  - done.
  - eexists. split; [done|]. apply om_rep_empty.
Qed.
End Ex.
