(* ===== verification/DataAlloc.v ===== *)
(** Correctness of [vinode_allocate_interval] (data.c): every byte of the
    interval gets a block, the content of the file does not change, and the
    number returned is the space that was added. *)
From stdpp Require Import sorting.
From S2P Require Import Prelude Layout Inode Blocks OffsetMap OffsetMapRep FileState BlockList.
From S2P Require Import BlockArray BlockArrayRep Data FileRep.

(** The space the extents occupy. *)
Definition total (es : list extent) : Z := foldr (λ e n, ex_size e + n) 0 es.

Lemma total_cons e es : total (e :: es) = ex_size e + total es.
Proof. done. Qed.

Lemma total_app es1 es2 : total (es1 ++ es2) = total es1 + total es2.
Proof. induction es1 as [|e es1 IH]; [done|]. cbn [app]. rewrite !total_cons, IH. lia. Qed.

Lemma total_mid es1 e es2 : total (es1 ++ e :: es2) = ex_size e + total (es1 ++ es2).
Proof. rewrite !total_app, total_cons. lia. Qed.

Lemma total_bound lo hi es : lo ≤ hi → StronglySorted before es →
  (∀ e, e ∈ es → lo ≤ ex_offset e ∧ 0 ≤ ex_size e ∧ ex_end e ≤ hi) → 0 ≤ total es ≤ hi - lo.
Proof.
  revert lo. induction es as [|e es IH]; intros lo Hlo Hs He; [cbn; lia|].
  apply StronglySorted_cons in Hs as [Hall Hs]. rewrite Forall_forall in Hall.
  destruct (He e) as (? & ? & ?); [by left|]. unfold ex_end in *.
  destruct (IH (ex_offset e + ex_size e)) as [? ?]; [lia|done| |rewrite total_cons; lia].
  intros x Hx. specialize (Hall x Hx). unfold before, ex_end in Hall.
  destruct (He x) as (? & ? & ?); [by right|]. unfold ex_end in *. lia.
Qed.

Section allocate.
Context {HP : Pobj} {HPok : PobjOk}.
Variables (cfg : block_cfg) (bs : list pmem_block_info) (calloc_ok : nat → bool).
Hypothesis Hcfg : cfg_wf cfg bs.
Hypothesis Hcalloc : ∀ k, calloc_ok k = true.
Implicit Types (s : fstate) (L : list bptr) (es : list extent).
Notation A := (block_alignment cfg).

Lemma rep_total s L es : file_rep cfg s L es → 0 ≤ total es < 2 ^ 64.
Proof.
  intros Hr. destruct (total_bound 0 (2 ^ 64 - MIN_BLOCK_SIZE) es) as [? ?].
  - done.
  - apply Hr.
  - intros e He. destruct (rep_ext _ _ _ _ _ Hr He). lia.
  - unfold MIN_BLOCK_SIZE in *. lia.
Qed.

(** Blocks were added, and nothing else changed. *)
Record extends s L es s' L' es' : Prop := {
  ext_frame : frame s s';
  ext_hints : ∀ p, p ∈ L → p ∈ L';
  ext_content : ∀ i, content (pm_data (fs_pm s')) es' i = content (pm_data (fs_pm s)) es i;
  ext_subset : ∀ e, e ∈ es → e ∈ es';
}.

Lemma extends_refl s L es : extends s L es s L es.
Proof. split; [apply frame_refl|done|done|done]. Qed.

Lemma extends_trans s1 L1 es1 s2 L2 es2 s3 L3 es3 :
  extends s1 L1 es1 s2 L2 es2 → extends s2 L2 es2 s3 L3 es3 → extends s1 L1 es1 s3 L3 es3.
Proof.
  intros [? ? Hc1 ?] [? ? Hc2 ?]. split; [by eapply frame_trans|auto|intros; by rewrite Hc2, Hc1|auto].
Qed.

(** Every new block starts at a byte of the interval that was in a hole. *)
Definition fills (offset size : Z) es es' : Prop := ∀ e, e ∈ es' →
  e ∈ es ∨ offset ≤ ex_offset e < offset + size ∧ ¬ covered es (ex_offset e).

Lemma fills_new offset size es1 es2 o info es' : 0 < size → fits cfg bs es1 es2 offset info →
  fills offset size (es1 ++ new_extent o info offset :: es2) es' → fills offset size (es1 ++ es2) es'.
Proof.
  intros Hs Hfit Hf e He. destruct (cw_size _ _ Hcfg _ (fit_class _ _ _ _ _ _ Hfit)) as [_ [Hp _]].
  destruct (Hf e He) as [Hin|[Hb Hn]].
  - rewrite elem_of_app, elem_of_cons in Hin. rewrite elem_of_app.
    destruct Hin as [?|[-> |?]]; [tauto| |tauto]. right. cbn [new_extent ex_offset]. split; [lia|].
    intros (x & [Hx|Hx]%elem_of_app & Hc%covers_true).
    + pose proof (fit_left _ _ _ _ _ _ Hfit x Hx). lia.
    + pose proof (fit_right _ _ _ _ _ _ Hfit x Hx). lia.
  - right. split; [done|]. intros (x & Hx & Hc). apply Hn. exists x. split; [|done].
    rewrite elem_of_app in *. rewrite elem_of_cons. tauto.
Qed.

Lemma fills_sub offset size offset' size' es es' : offset' ≤ offset → offset + size ≤ offset' + size' →
  fills offset size es es' → fills offset' size' es es'.
Proof. intros H1 H2 Hf e He. destruct (Hf e He) as [?|[? ?]]; [by left|right]. split; [lia|done]. Qed.

Lemma extends_new s L1 p L2 es1 es2 s' o info offset :
  file_rep cfg s (L1 ++ L2) (es1 ++ es2) → pm_data (fs_pm s) !! o = None →
  pm_data (fs_pm s') = <[o := garbage o]> (pm_data (fs_pm s)) →
  fits cfg bs es1 es2 offset info → frame s s' →
  extends s (L1 ++ L2) (es1 ++ es2) s' (L1 ++ p :: L2) (es1 ++ new_extent o info offset :: es2).
Proof.
  intros Hr Ho Hdata Hf Hfr. split; [done| | |].
  - intros q. rewrite !elem_of_app, elem_of_cons. tauto.
  - intros i. rewrite content_uninit; [|done|by apply (fit_right _ _ _ _ _ _ Hf)].
    apply content_ext. intros e o' He Ho'. rewrite Hdata, lookup_insert_ne; [done|]. intros <-.
    destruct (es_data _ _ _ (fr_ok _ _ _ _ Hr) e He) as (o1 & c & Ho1 & Hc). congruence.
  - intros e. rewrite !elem_of_app, elem_of_cons. tauto.
Qed.

Lemma wp_data_block_info s size limit Q E : A ≤ limit →
  (∀ info, best_class bs size limit info → Q info s) → wp (data_block_info cfg size limit) Q E s.
Proof.
  intros Hl HQ. destruct (data_block_info_spec cfg bs size limit s Hcfg Hl) as (b & Hb & Hbest).
  unfold wp. rewrite Hb. by apply HQ.
Qed.

(** ** The position of the loop *)

(** The current block is the last one at or before [offset]. *)
Inductive position (L : list bptr) (es : list extent) (offset : Z) : option bptr → Prop :=
  | pos_before : (∀ e, e ∈ es → offset < ex_offset e) → position L es offset None
  | pos_at L1 p L2 es1 e es2 :
      L = L1 ++ p :: L2 → es = es1 ++ e :: es2 → length L1 = length es1 →
      ex_offset e ≤ offset → (∀ e', e' ∈ es2 → offset ≤ ex_offset e') →
      position L es offset (Some p).

(** Intervals the loop works on: whole pages below the largest file offset. *)
Record interval (offset size : Z) : Prop := {
  iv_offset : (A | offset);
  iv_size : (A | size);
  iv_pos : 0 ≤ offset;
  iv_nonempty : 0 < size;
  iv_bound : offset + size ≤ 2 ^ 63 + 2 ^ 33;
}.

Lemma class_size info : info ∈ bs → A ≤ bi_size info ∧ bi_size info ≤ UINT32_MAX.
Proof.
  intros Hin. destruct (cw_size _ _ Hcfg _ Hin) as [Hd [Hp Hm]]. pose proof (MAX_BLOCK_SIZE_bound _ _ Hcfg).
  split; [by apply Z.divide_pos_le|lia].
Qed.

Lemma fits_intro es1 es2 offset size limit info :
  interval offset size → best_class bs size limit info →
  (∀ x, x ∈ es1 → ex_end x ≤ offset) → (∀ y, y ∈ es2 → offset + limit ≤ ex_offset y) →
  fits cfg bs es1 es2 offset info.
Proof.
  intros [? ? ? ? Hb] [Hin Hfit _ _] H1 H2. destruct (class_size _ Hin) as [_ Hmax].
  split; [done..| |].
  - intros y Hy. specialize (H2 y Hy). lia.
  - unfold UINT32_MAX, MIN_BLOCK_SIZE in *. lia.
Qed.

Lemma fits_intro_last es1 offset size limit info :
  interval offset size → best_class bs size limit info →
  (∀ x, x ∈ es1 → ex_end x ≤ offset) → fits cfg bs es1 [] offset info.
Proof. intros Hi Hb H1. eapply fits_intro; [done..|]. by intros y ?%not_elem_of_nil. Qed.

(** In the hole before the first block the code truncates the size of the hole
    to 32 bits; the result must not be zero. *)
Definition gap_ok (es : list extent) (block : option bptr) (offset size : Z) : Prop :=
  block = None → ∀ e, head es = Some e →
    offset + size ≤ ex_offset e ∨ (ex_offset e - offset) mod 2 ^ 32 ≠ 0.

(** Iterations left: a block that covers [offset] takes one, moving to such a
    block takes another. *)
Definition enough (fuel : nat) (s : fstate) (block : option bptr) (offset size : Z) : Prop :=
  2 * (size / MIN_BLOCK_SIZE) + 1 ≤ Z.of_nat fuel ∨
  2 * (size / MIN_BLOCK_SIZE) ≤ Z.of_nat fuel ∧
    ∃ p e, block = Some p ∧ payload_at (desc_at (pm_arrays (fs_pm s))) p = Some e ∧ covers e offset = true.

Definition loop_spec (fuel : nat) : Prop := ∀ s L es block offset size acc Q E,
  file_rep cfg s L es → is_Some (fs_tx s) → interval offset size → position L es offset block →
  enough fuel s block offset size → gap_ok es block offset size → 0 ≤ acc ≤ total es →
  (∀ s', E ENOMEM s') →
  (∀ s' L' es', file_rep cfg s' L' es' → extends s L es s' L' es' →
    fills offset size es es' → (∀ i, offset ≤ i < offset + size → covered es' i) →
    Q (acc + (total es' - total es)) s') →
  wp (allocate_loop cfg calloc_ok fuel block offset size acc) Q E s.

Lemma page_count_pos size : (A | size) → 0 < size → 1 ≤ size / MIN_BLOCK_SIZE.
Proof.
  intros Hd Hp. apply Z.div_le_lower_bound; [done|]. rewrite Z.mul_1_r.
  apply Z.divide_pos_le; [done|]. by eapply Z.divide_trans; [eapply cfg_align_page|].
Qed.

(** The branches that put a new block at [offset]. *)
Lemma wp_add_and_continue fuel s L1 L2 es1 es2 offset size acc info Q E :
  loop_spec fuel → file_rep cfg s (L1 ++ L2) (es1 ++ es2) → length L1 = length es1 →
  is_Some (fs_tx s) → interval offset size → fits cfg bs es1 es2 offset info →
  2 * (size / MIN_BLOCK_SIZE) ≤ Z.of_nat fuel → 0 ≤ acc ≤ total (es1 ++ es2) →
  (∀ s', E ENOMEM s') →
  (∀ s' L' es', file_rep cfg s' L' es' → extends s (L1 ++ L2) (es1 ++ es2) s' L' es' →
    fills offset size (es1 ++ es2) es' → (∀ i, offset ≤ i < offset + size → covered es' i) →
    Q (acc + (total es' - total (es1 ++ es2))) s') →
  wp ('(block, bsize) ← add_block cfg calloc_ok (last L1) offset info;
      if 0 <? size then allocate_loop cfg calloc_ok fuel (Some block) offset size (u64 (acc + bsize))
      else mret (u64 (acc + bsize))) Q E s.
Proof.
  intros IH Hr Hlen Htx Hiv Hfit Hfuel Hacc HE HQ. apply wp_bind.
  eapply (wp_add_block cfg bs calloc_ok Hcfg Hcalloc s L1 L2); [done..|].
  intros s' p o Hr' Ho Hdata Hfr. destruct Hiv as [Hio His Hip Hin Hib] eqn:Hiv'. clear Hiv'.
  zcase (0 <? size); [|lia].
  destruct (class_size info (fit_class _ _ _ _ _ _ Hfit)) as [Hc1 Hc2]. pose proof (cfg_align_pos _ _ Hcfg).
  pose proof (rep_total _ _ _ Hr') as Ht. rewrite total_mid in Ht. cbn [new_extent ex_size] in Ht.
  pose proof (extends_new s L1 p L2 es1 es2 s' o info offset Hr Ho Hdata Hfit Hfr) as Hext.
  assert (u64 (acc + bi_size info) = acc + bi_size info) as -> by (apply Z.mod_small; lia).
  eapply (IH s' (L1 ++ p :: L2) (es1 ++ new_extent o info offset :: es2)); [done|by apply Hfr|by split|..].
  - eapply pos_at; [done|done|done|done|]. intros e' He'. pose proof (fit_right _ _ _ _ _ _ Hfit e' He'). lia.
  - right. split; [done|]. exists p, (new_extent o info offset). split; [done|]. split.
    + destruct (rep_split _ _ _ _ _ _ Hr') as (es1' & e & es2' & d & Heq & Hl' & Hd & Hpay & _).
      apply app_inj_1 in Heq as [_ [= <- _]]; [|congruence]. unfold payload_at. rewrite Hd. cbn. by rewrite Hpay.
    + apply covers_true. unfold ex_end. cbn. lia.
  - by intros.
  - rewrite total_mid. cbn. lia.
  - done.
  - intros s2 L2' es2' Hr2 Hext2 Hfl Hcov. rewrite total_mid. cbn [new_extent ex_size].
    replace (acc + bi_size info + (total es2' - (bi_size info + total (es1 ++ es2))))
      with (acc + (total es2' - total (es1 ++ es2))) by lia.
    eapply HQ; [done|by eapply extends_trans|by eapply fills_new|done].
Qed.

(** ** The branches of the loop *)

(** Case 1: the current block covers [offset]. *)
Lemma wp_loop_inside fuel s L1 p L2 es1 d es2 offset size acc Q E :
  loop_spec fuel →
  file_rep cfg s (L1 ++ p :: L2) (es1 ++ payload d :: es2) → length L1 = length es1 →
  covers (payload d) offset = true → is_Some (fs_tx s) → interval offset size →
  2 * (size / MIN_BLOCK_SIZE) ≤ Z.of_nat (S fuel) → 0 ≤ acc ≤ total (es1 ++ payload d :: es2) →
  (∀ s', E ENOMEM s') →
  (∀ s' L' es', file_rep cfg s' L' es' → extends s (L1 ++ p :: L2) (es1 ++ payload d :: es2) s' L' es' →
    fills offset size (es1 ++ payload d :: es2) es' → (∀ i, offset ≤ i < offset + size → covered es' i) →
    Q (acc + (total es' - total (es1 ++ payload d :: es2))) s') →
  wp (let available := u64 (bd_size d - u64 (offset - bd_offset d)) in
      if size <=? available then mret acc
      else if 0 <? u64 (size - available)
           then allocate_loop cfg calloc_ok fuel (Some p) (u64 (offset + available)) (u64 (size - available)) acc
           else mret acc) Q E s.
Proof.
  intros IH Hr Hlen Hcov Htx Hiv Hfuel Hacc HE HQ. apply covers_true in Hcov.
  pose proof (rep_ext _ _ _ _ (payload d) Hr ltac:(rewrite elem_of_app, elem_of_cons; tauto)) as Hok.
  destruct Hiv as [Hio His Hip Hin Hib]. pose proof Hok as [Heo Hes Hep Hen Heb1 Heb2].
  unfold ex_end in *. cbn [payload ex_offset ex_size] in *. unfold MIN_BLOCK_SIZE in Heb2.
  assert (u64 (offset - bd_offset d) = offset - bd_offset d) as -> by (apply Z.mod_small; lia).
  assert (u64 (bd_size d - (offset - bd_offset d)) = bd_offset d + bd_size d - offset) as ->.
  { unfold u64. rewrite Z.mod_small; lia. }
  set (avail := bd_offset d + bd_size d - offset). cbv zeta.
  assert (A | avail) as Hda by (unfold avail; apply Z.divide_sub_r; [by apply Z.divide_add_r|done]).
  assert (∀ i, offset ≤ i < offset + avail → covers (payload d) i = true) as Hcv.
  { intros i Hi. apply covers_true. unfold ex_end. cbn. unfold avail in Hi. lia. }
  zcase (size <=? avail).
  - wp_steps. replace acc with (acc + (total (es1 ++ payload d :: es2) - total (es1 ++ payload d :: es2))) by lia.
    eapply HQ; [done|apply extends_refl|by left|]. intros i Hi. exists (payload d).
    split; [rewrite elem_of_app, elem_of_cons; tauto|]. apply Hcv. lia.
  - assert (u64 (size - avail) = size - avail) as -> by (apply Z.mod_small; lia).
    assert (u64 (offset + avail) = offset + avail) as -> by (apply Z.mod_small; lia).
    zcase (0 <? size - avail); [|lia].
    pose proof (page_count_pos avail Hda ltac:(unfold avail; lia)).
    assert ((size - avail) / MIN_BLOCK_SIZE + avail / MIN_BLOCK_SIZE ≤ size / MIN_BLOCK_SIZE) as Hdiv.
    { apply Z.div_le_lower_bound; [done|]. pose proof (Z.mul_div_le (size - avail) MIN_BLOCK_SIZE ltac:(done)).
      pose proof (Z.mul_div_le avail MIN_BLOCK_SIZE ltac:(done)). lia. }
    destruct (sorted_mid _ _ _ (es_sorted _ _ _ (fr_ok _ _ _ _ Hr))) as (_ & Hafter & _).
    eapply (IH s (L1 ++ p :: L2) (es1 ++ payload d :: es2)); [done|done| | | |done|done|done|].
    + split; [by apply Z.divide_add_r|by apply Z.divide_sub_r|unfold avail; lia|lia|lia].
    + eapply pos_at; [done|done|done|cbn; unfold avail; lia|]. intros e' He'. specialize (Hafter e' He').
      unfold before, ex_end in Hafter. cbn in Hafter. unfold avail. lia.
    + left. lia.
    + intros s' L' es' Hr' Hext Hfl Hcov'. eapply HQ; [done|done|eapply fills_sub; [..|done]; unfold avail; lia|]. intros i Hi.
      destruct (decide (i < offset + avail)).
      * exists (payload d). split; [|apply Hcv; lia]. apply Hext. rewrite elem_of_app, elem_of_cons. tauto.
      * apply Hcov'. lia.
Qed.

Lemma pos_at_ends s L es1 e es2 offset : file_rep cfg s L (es1 ++ e :: es2) →
  ex_offset e ≤ offset → covers e offset = false → ∀ x, x ∈ es1 ++ [e] → ex_end x ≤ offset.
Proof.
  intros Hr Hle Hnc x Hx. apply covers_false in Hnc.
  destruct (sorted_mid _ _ _ (es_sorted _ _ _ (fr_ok _ _ _ _ Hr))) as (Hb & _ & _).
  apply elem_of_app in Hx as [Hx|Hx%list_elem_of_singleton].
  - specialize (Hb x Hx). unfold before in Hb. lia.
  - subst. lia.
Qed.

Lemma interval_u64 offset size : interval offset size → u64 (offset + size) = offset + size.
Proof. intros [? ? ? ? ?]. apply Z.mod_small. lia. Qed.

Lemma align_gap x y : (A | x) → (A | y) → x < y → A ≤ y - x.
Proof. intros Hx Hy Hlt. apply Z.divide_pos_le; [lia|]. by apply Z.divide_sub_r. Qed.

(** Case 4: the class chosen for the hole before the first block fits in it. *)
Lemma gap_count s L e es offset size : file_rep cfg s L (e :: es) → interval offset size →
  offset < ex_offset e → gap_ok (e :: es) None offset size →
  let count := if ex_offset e <? u64 (offset + size)
               then u32 (u64 (ex_offset e - offset)) else size in
  A ≤ count ∧ offset + count ≤ ex_offset e.
Proof.
  intros Hr Hiv Hlt Hgap. rewrite interval_u64 by done. destruct Hiv as [Hio His Hip Hin Hib].
  destruct (rep_ext _ _ _ _ e Hr ltac:(by left)) as [Heo _ Hep Hen _ Heb].
  unfold ex_end, MIN_BLOCK_SIZE in Heb. cbv zeta.
  zcase (ex_offset e <? offset + size); [|split; [by apply Z.divide_pos_le|lia]].
  assert (u64 (ex_offset e - offset) = ex_offset e - offset) as -> by (apply Z.mod_small; lia).
  destruct (Hgap eq_refl e eq_refl) as [?|Hnz]; [lia|]. unfold u32.
  pose proof (Z.mod_pos_bound (ex_offset e - offset) (2 ^ 32) ltac:(lia)).
  pose proof (Z.mod_le (ex_offset e - offset) (2 ^ 32) ltac:(lia) ltac:(lia)).
  split; [|lia]. apply Z.divide_pos_le; [lia|]. rewrite Z.mod_eq by done.
  apply Z.divide_sub_r; [by apply Z.divide_sub_r|]. apply Z.divide_mul_l.
  destruct (cw_pow2 _ _ Hcfg) as (k & Hk & ->). exists (2 ^ (32 - k)).
  rewrite <-Z.pow_add_r by lia. f_equal. lia.
Qed.

(** Case 2 between two blocks: fill the hole, or go to the next block. *)
Lemma wp_loop_between fuel s L1 p n L2 es1 dn es2 offset size acc Q E :
  loop_spec fuel →
  file_rep cfg s (L1 ++ n :: L2) (es1 ++ payload dn :: es2) → length L1 = length es1 →
  last L1 = Some p → (∀ x, x ∈ es1 → ex_end x ≤ offset) → offset ≤ bd_offset dn →
  is_Some (fs_tx s) → interval offset size →
  2 * (size / MIN_BLOCK_SIZE) ≤ Z.of_nat fuel → 0 ≤ acc ≤ total (es1 ++ payload dn :: es2) →
  (∀ s', E ENOMEM s') →
  (∀ s' L' es', file_rep cfg s' L' es' → extends s (L1 ++ n :: L2) (es1 ++ payload dn :: es2) s' L' es' →
    fills offset size (es1 ++ payload dn :: es2) es' → (∀ i, offset ≤ i < offset + size → covered es' i) →
    Q (acc + (total es' - total (es1 ++ payload dn :: es2))) s') →
  wp (if 0 <? u64 (bd_offset dn - offset) then
        info ← data_block_info cfg size (u64 (bd_offset dn - offset));
        '(block, bsize) ← add_block cfg calloc_ok (Some p) offset info;
        if 0 <? size then allocate_loop cfg calloc_ok fuel (Some block) offset size (u64 (acc + bsize))
        else mret (u64 (acc + bsize))
      else if 0 <? size then allocate_loop cfg calloc_ok fuel (Some n) offset size acc else mret acc) Q E s.
Proof.
  intros IH Hr Hlen Hlast Hends Hle Htx Hiv Hfuel Hacc HE HQ.
  destruct (rep_ext _ _ _ _ (payload dn) Hr ltac:(rewrite elem_of_app, elem_of_cons; tauto)) as [Heo _ Hep Hen _ Heb].
  destruct (sorted_mid _ _ _ (es_sorted _ _ _ (fr_ok _ _ _ _ Hr))) as (_ & Hafter & _).
  pose proof Hiv as [Hio His Hip Hin Hib]. unfold ex_end, MIN_BLOCK_SIZE in Heb. cbn in Heo, Hep, Hen, Heb.
  assert (u64 (bd_offset dn - offset) = bd_offset dn - offset) as -> by (apply Z.mod_small; lia).
  zcase (0 <? bd_offset dn - offset).
  - apply wp_bind, wp_data_block_info; [apply align_gap; done || lia|]. intros info Hbest.
    rewrite <-Hlast. apply (wp_add_and_continue fuel s L1 (n :: L2) es1 (payload dn :: es2)); try done.
    eapply fits_intro; [done..|]. intros y [-> | Hy]%elem_of_cons; [cbn; lia|].
    specialize (Hafter y Hy). unfold before, ex_end in Hafter. cbn in Hafter. lia.
  - zcase (0 <? size); [|lia]. eapply (IH s); [done|done|done| | | |done|done|done].
    + eapply pos_at; [done|done|done|cbn; lia|]. intros e' He'. specialize (Hafter e' He').
      unfold before, ex_end in Hafter. cbn in Hafter. lia.
    + right. split; [done|]. exists n, (payload dn). split; [done|]. split.
      * pose proof (fr_ext _ _ _ _ Hr) as HF. apply Forall2_app_inv in HF as [_ HF]; [|done].
        by inv HF.
      * apply covers_true. unfold ex_end. cbn. lia.
    + by intros.
Qed.

(** ** The loop *)

Lemma allocate_loop_ok fuel : loop_spec fuel.
Proof.
  induction fuel as [|fuel IH]; intros s L es block offset size acc Q E Hr Htx Hiv Hpos Hen Hgap Hacc HE HQ.
  { exfalso. pose proof (page_count_pos size (iv_size _ _ Hiv) (iv_nonempty _ _ Hiv)).
    destruct Hen as [?|[? _]]; lia. }
  cbn [allocate_loop]. destruct Hpos as [Hbefore|L1 p L2 es1 e es2 -> -> Hlen Hle Hafter].
  - assert (2 * (size / MIN_BLOCK_SIZE) ≤ Z.of_nat fuel) as Hfuel.
    { destruct Hen as [?|[_ (?&?&?&_)]]; [lia|done]. }
    cbn [is_offset_in_block]. wp_steps. rewrite (fr_first _ _ _ _ Hr).
    pose proof (Forall2_length _ _ _ (fr_ext _ _ _ _ Hr)) as Hll.
    destruct L as [|f L], es as [|e es]; try done; cbn [head hd_error].
    + (* case 3 *)
      apply wp_bind, wp_data_block_info; [by eapply cfg_align_max|]. intros info Hbest.
      apply (wp_add_and_continue fuel s [] [] [] []); try done.
      eapply fits_intro_last; [done..|]. by intros x ?%not_elem_of_nil.
    + (* case 4 *)
      destruct (rep_split _ _ [] f L _ Hr) as (es1 & e' & es2 & d & Heq & Hl & Hd & <- & _).
      destruct es1; [|done]. injection Heq as -> ->. wp_steps. eapply wp_desc_get; [done|]. wp_steps.
      destruct (gap_count s (f :: L) (payload d) es2 offset size) as [Hc1 Hc2]; [done|done|by apply Hbefore; left|done|].
      cbn [payload ex_offset] in Hc1, Hc2.
      apply wp_data_block_info; [done|]. intros info Hbest.
      apply (wp_add_and_continue fuel s [] (f :: L) [] (payload d :: es2)); try done.
      eapply fits_intro; [done..| |]; [by intros x ?%not_elem_of_nil|].
      intros y [-> | Hy]%elem_of_cons; [exact Hc2|].
      destruct (sorted_mid [] _ _ (es_sorted _ _ _ (fr_ok _ _ _ _ Hr))) as (_ & Ha & _).
      specialize (Ha y Hy). destruct (rep_ext _ _ _ _ (payload d) Hr ltac:(by left)).
      unfold before, ex_end in *. cbn in *. lia.
  - destruct (rep_split _ _ _ _ _ _ Hr) as (es1' & e' & es2' & d & Heq & Hl & Hd & <- & Hprev & Hnext).
    apply app_inj_1 in Heq as [-> [= -> ->]]; [|congruence].
    wp_steps. eapply wp_is_offset_in_block; [done|done|done|]. wp_steps. eapply wp_desc_get; [done|]. wp_steps.
    destruct (covers (payload d) offset) eqn:Hcov.
    + eapply wp_loop_inside; [done..| |done|done|done]. destruct Hen as [?|[? _]]; lia.
    + assert (2 * (size / MIN_BLOCK_SIZE) ≤ Z.of_nat fuel) as Hfuel.
      { destruct Hen as [?|[_ (p' & e' & [= <-] & Hp' & Hc')]]; [lia|]. unfold payload_at in Hp'.
        rewrite Hd in Hp'. simplify_eq/=. congruence. }
      pose proof (pos_at_ends _ _ _ _ _ _ Hr Hle Hcov) as Hends.
      rewrite Hnext. destruct L2 as [|n L2]; cbn [head hd_error].
      * (* case 2, after the last block *)
        pose proof (Forall2_length _ _ _ (fr_ext _ _ _ _ Hr)) as Hll. rewrite !length_app in Hll. cbn in Hll.
        destruct es2' as [|? ?]; [|cbn in Hll; lia].
        apply wp_bind, wp_data_block_info; [by eapply cfg_align_max|]. intros info Hbest.
        pose proof (wp_add_and_continue fuel s (L1 ++ [p]) [] (es1' ++ [payload d]) [] offset size acc info Q E) as Hadd.
        rewrite last_snoc in Hadd. rewrite !app_nil_r in Hadd.
        apply Hadd; try done; [rewrite !length_app; cbn; lia|].
        eapply fits_intro_last; done.
      * (* case 2, between two blocks *)
        replace (L1 ++ p :: n :: L2) with ((L1 ++ [p]) ++ n :: L2) in * by (by rewrite <-app_assoc).
        destruct (rep_split _ _ _ _ _ _ Hr) as (es1 & en & es3 & dn & Heq & Hl3 & Hdn & <- & _).
        replace (es1' ++ payload d :: es2') with ((es1' ++ [payload d]) ++ es2') in * by (by rewrite <-app_assoc).
        apply app_inj_1 in Heq as [<- ->]; [|rewrite length_app in *; cbn in *; lia].
        wp_steps. eapply wp_desc_get; [done|]. cbv zeta.
        eapply wp_loop_between; try done; [by apply last_snoc|].
        apply (Hafter (payload dn)). by left.
Qed.

(** ** The whole operation *)

Lemma overallocate_size_bounds size : size ≤ overallocate_size size ≤ Z.max size (2 ^ 26).
Proof. unfold overallocate_size. repeat case_match; b2p; lia. Qed.

Lemma covered_cons_before es1 e es2 i : StronglySorted before (es1 ++ e :: es2) → es2 = [] →
  covered (es1 ++ e :: es2) i → (∀ x, x ∈ es1 ++ e :: es2 → 0 < ex_size x) → i < ex_end e.
Proof.
  intros Hs -> (x & Hx & Hc%covers_true) Hpos. destruct (sorted_mid _ _ _ Hs) as (Hb & _ & _).
  specialize (Hpos e ltac:(rewrite elem_of_app, elem_of_cons; tauto)).
  rewrite elem_of_app, list_elem_of_singleton in Hx. destruct Hx as [Hx| ->]; [|lia].
  specialize (Hb x Hx). unfold before, ex_end in *. lia.
Qed.

Lemma wp_is_append s L es offset size Q E :
  file_rep cfg s L es → 0 ≤ offset → 0 < size → offset + size ≤ 2 ^ 63 →
  (∀ b : bool, (b = true → ¬ covered es (offset + size - 1)) → Q b s) →
  wp (is_append offset size) Q E s.
Proof.
  intros Hr Ho Hs Hb HQ. unfold is_append, inode_of, find_last_block.
  assert (u64 (offset + size) = offset + size) as -> by (apply Z.mod_small; lia).
  wp_steps. case_match; wp_steps; [by apply HQ|].
  eapply wp_find_closest_block; [done|done|intros Hbef; wp_steps; apply HQ; intros _ (e & He & Hc%covers_true)|].
  { specialize (Hbef e He). unfold UINT64_MAX in Hbef. lia. }
  intros L1 p L2 es1 e es2 -> -> Hlen _ Haft.
  destruct (rep_split _ _ _ _ _ _ Hr) as (es1' & e' & es2' & d & Heq & Hl & Hd & Hp & _).
  apply app_inj_1 in Heq as [<- [= <- <-]]; [|congruence]. subst e.
  destruct (rep_ext _ _ _ _ (payload d) Hr ltac:(rewrite elem_of_app, elem_of_cons; tauto)) as [_ _ Hp1 Hp2 _ Hp3].
  unfold ex_end, MIN_BLOCK_SIZE in Hp3. cbn in Hp1, Hp2, Hp3.
  assert (u64 (bd_offset d + bd_size d) = bd_offset d + bd_size d) as Hu by (apply Z.mod_small; lia).
  wp_steps. eapply wp_desc_get; [done|]. wp_steps. rewrite Hu. apply HQ. intros Hlt%Z.ltb_lt Hc.
  apply covered_cons_before in Hc; [unfold ex_end in Hc; cbn in Hc; lia|apply Hr| |].
  - destruct es2 as [|y es2]; [done|]. specialize (Haft y ltac:(by left)).
    destruct (rep_ext _ _ _ _ y Hr ltac:(rewrite elem_of_app, !elem_of_cons; tauto)) as [_ _ _ ? _ ?].
    unfold UINT64_MAX, ex_end, MIN_BLOCK_SIZE in *. lia.
  - intros x Hx. by eapply rep_ext.
Qed.

(** Extents consist of whole pages. *)
Lemma covered_page s L es i j : file_rep cfg s L es → i / A = j / A → covered es i → covered es j.
Proof.
  intros Hr Hij (e & He & Hc%covers_true). exists e. split; [done|]. apply covers_true. unfold ex_end in *.
  destruct (rep_ext _ _ _ _ e Hr He) as [[a Ha] [b Hb] _ _ _ _]. pose proof (cfg_align_pos _ _ Hcfg).
  pose proof (Z.div_mod j A ltac:(lia)). pose proof (Z.mod_pos_bound j A ltac:(lia)).
  assert (a ≤ j / A) by (rewrite <-Hij; apply Z.div_le_lower_bound; lia).
  assert (j / A < a + b) by (rewrite <-Hij; apply Z.div_lt_upper_bound; lia). nia.
Qed.

Lemma covered_expand s L es offset size o' l' :
  file_rep cfg s L es → 0 ≤ offset → 0 < size → offset + size + A ≤ 2 ^ 64 →
  expand_to_full_pages cfg offset size = (o', l') →
  (∀ i, offset ≤ i < offset + size → covered es i) → ∀ i, o' ≤ i < o' + l' → covered es i.
Proof.
  intros Hr Ho Hs Hb He Hc i Hi. pose proof (cfg_align_pos _ _ Hcfg).
  destruct (expand_spec cfg bs Hcfg offset size o' l') as ([a Ha] & [b Hb'] & Hl & Hp & Hx1 & Hx2); [done..|].
  destruct (decide (i < offset)); [|destruct (decide (i < offset + size)); [apply Hc; lia|]].
  - apply (covered_page s L es offset i); [done| |apply Hc; lia].
    rewrite <-(Z.div_unique offset A a (offset - a * A)), <-(Z.div_unique i A a (i - a * A)); lia.
  - apply (covered_page s L es (offset + size - 1) i); [done| |apply Hc; lia].
    rewrite <-(Z.div_unique (offset + size - 1) A (a + b - 1) (offset + size - 1 - (a + b - 1) * A)),
      <-(Z.div_unique i A (a + b - 1) (i - (a + b - 1) * A)); lia.
Qed.

Lemma total_perm es es' : es ≡ₚ es' → total es = total es'.
Proof. unfold total. induction 1; cbn in *; lia. Qed.

Lemma rep_nodup s L es : file_rep cfg s L es → NoDup es.
Proof. intros Hr. eapply NoDup_fmap_1, es_distinct. apply Hr. Qed.

(** Nothing new: the same blocks. *)
Lemma total_same s L es s' L' es' offset size : file_rep cfg s L es → file_rep cfg s' L' es' →
  (∀ e, e ∈ es → e ∈ es') → fills offset size es es' →
  (∀ i, offset ≤ i < offset + size → covered es i) → total es' = total es.
Proof.
  intros Hr Hr' Hsub Hf Hc. apply total_perm, NoDup_Permutation; [by eapply rep_nodup..|].
  intros e. split; [|apply Hsub]. intros He. destruct (Hf e He) as [?|[Hi []]]; [done|]. by apply Hc.
Qed.

(** A byte that was in a hole and is not any more costs space. *)
Lemma total_grows s L es s' L' es' i : file_rep cfg s L es → file_rep cfg s' L' es' →
  (∀ e, e ∈ es → e ∈ es') → ¬ covered es i → covered es' i → total es < total es'.
Proof.
  intros Hr Hr' Hsub Hn (e & He & Hc). pose proof (rep_nodup _ _ _ Hr') as Hnd.
  apply list_elem_of_split in He as (l1 & l2 & Heq). rewrite Heq, <-Permutation_middle in Hnd.
  assert (es ⊆+ l1 ++ l2) as [k Hk]%submseteq_Permutation.
  { apply NoDup_submseteq; [by eapply rep_nodup|]. intros x Hx. pose proof (Hsub x Hx) as Hx'.
    rewrite Heq, elem_of_app, elem_of_cons in Hx'. rewrite elem_of_app. destruct Hx' as [?|[-> |?]]; [tauto| |tauto].
    exfalso. apply Hn. by exists e. }
  rewrite Heq, total_mid, (total_perm _ _ Hk), total_app.
  destruct (rep_ext _ _ _ _ e Hr') as [_ _ _ Hpos _ _]; [rewrite Heq, elem_of_app, elem_of_cons; tauto|].
  assert (0 ≤ total k); [|lia]. assert (∀ x, x ∈ k → 0 ≤ ex_size x) as Hk0.
  { intros x Hx. destruct (rep_ext _ _ _ _ x Hr') as [_ _ _ ? _ _]; [|lia].
    assert (x ∈ l1 ++ l2) as Hin by (rewrite Hk, elem_of_app; by right). rewrite Heq.
    rewrite elem_of_app in *. rewrite elem_of_cons. tauto. }
  clear -Hk0. induction k as [|x k IH]; [done|]. rewrite total_cons. pose proof (Hk0 x ltac:(by left)).
  specialize (IH ltac:(intros; apply Hk0; by right)). lia.
Qed.

(** The hole before the first block is not one whose size the code truncates
    to zero. *)
Definition hole_ok (es : list extent) (offset size : Z) : Prop :=
  ∀ e, head es = Some e → offset < ex_offset e →
    offset + Z.max size (2 ^ 26) + A ≤ ex_offset e ∨
    (ex_offset e - (offset - offset mod A)) mod 2 ^ 32 ≠ 0.

Lemma hole_gap s L es block offset size size' o' l' :
  file_rep cfg s L es → 0 ≤ offset → 0 < size' → offset + size' ≤ 2 ^ 63 + 2 ^ 26 →
  size' ≤ Z.max size (2 ^ 26) → hole_ok es offset size →
  expand_to_full_pages cfg offset size' = (o', l') →
  position L es o' block → gap_ok es block o' l'.
Proof.
  intros Hr Ho Hs' Hb Hmax Hh He Hpos -> e Hhead. inversion Hpos as [Hbef|]; subst.
  pose proof (cfg_align_pos _ _ Hcfg). pose proof (cfg_align_max _ _ Hcfg). pose proof (MAX_BLOCK_SIZE_bound _ _ Hcfg).
  assert (e ∈ es) as Hin by (destruct es; [done|]; simplify_eq/=; by left).
  destruct (expand_spec cfg bs Hcfg offset size' o' l') as (Hd1 & _ & _ & Hp' & [Hx1 Hx2] & [Hx3 Hx4]);
    [done|done|unfold UINT32_MAX in *; lia|done|].
  assert (o' = offset - offset mod A) as Heq.
  { unfold expand_to_full_pages in He. injection He as He _. rewrite <-He.
    pose proof (Z.mod_pos_bound offset A ltac:(lia)). pose proof (Z.mod_le offset A ltac:(lia) ltac:(lia)).
    apply Z.mod_small. lia. }
  specialize (Hbef e Hin). pose proof (eo_offset _ _ (rep_ext _ _ _ _ _ Hr Hin)) as Hde.
  pose proof (align_gap _ _ Hd1 Hde Hbef).
  destruct (Hh e Hhead) as [?|?]; [lia|left; lia|right; by rewrite Heq].
Qed.

Lemma wp_vinode_allocate_interval over s L es offset size Q E :
  file_rep cfg s L es → is_Some (fs_tx s) → 0 ≤ offset → 0 < size → offset + size ≤ 2 ^ 63 →
  hole_ok es offset size → (∀ s', E ENOMEM s') →
  (∀ s' L' es', file_rep cfg s' L' es' → extends s L es s' L' es' →
    (∀ i, offset ≤ i < offset + size → covered es' i) →
    ((∀ i, offset ≤ i < offset + size → covered es i) → total es' = total es) → Q (total es' - total es) s') →
  wp (vinode_allocate_interval cfg calloc_ok over offset size) Q E s.
Proof.
  intros Hr [t Ht] Ho Hs Hb Hh HE HQ. unfold vinode_allocate_interval.
  assert (u64 (offset + size) = offset + size) as Hu by (apply Z.mod_small; lia).
  apply wp_bind. eapply wp_assert_in_tx; [done|]. wp_steps; [by apply Z.ltb_lt|rewrite Hu; apply Z.ltb_lt; lia|].
  assert (∀ append : bool, (append = true → ¬ covered es (offset + size - 1)) →
    wp (let size := if append then overallocate_size size else size in
        let '(offset, size) := expand_to_full_pages cfg offset size in
        block ← find_closest_block offset;
        allocate_loop cfg calloc_ok (interval_fuel size) block offset size 0) Q E s) as Hmain.
  2:{ destruct over; [|wp_steps; by apply (Hmain false)]. eapply wp_is_append; [done..|]. exact Hmain. }
  intros append Happ. cbv zeta. pose proof (overallocate_size_bounds size).
  set (size' := if append then overallocate_size size else size).
  assert (size ≤ size' ≤ Z.max size (2 ^ 26)) as Hs' by (unfold size'; destruct append; lia).
  pose proof (cfg_align_pos _ _ Hcfg). pose proof (cfg_align_max _ _ Hcfg). pose proof (MAX_BLOCK_SIZE_bound _ _ Hcfg).
  unfold UINT32_MAX in *.
  destruct (expand_to_full_pages cfg offset size') as [o' l'] eqn:He.
  destruct (expand_spec cfg bs Hcfg offset size' o' l') as (Hd1 & Hd2 & Hl' & Hp' & [Hx1 Hx2] & [Hx3 Hx4]);
    [done|lia|lia|done|].
  assert (∀ block, position L es o' block →
    wp (allocate_loop cfg calloc_ok (interval_fuel l') block o' l' 0) Q E s) as Hloop.
  { intros block Hpos. eapply allocate_loop_ok; [done|by exists t| |exact Hpos| | | |done|].
    - split; [done|done|done|done|lia].
    - left. unfold interval_fuel. pose proof (page_count_pos l' Hd2 Hl'). lia.
    - eapply (hole_gap _ _ _ _ offset size size'); done || lia.
    - pose proof (rep_total _ _ _ Hr). lia.
    - intros s' L' es' Hr' Hext Hfl Hcov. eapply HQ; [done|done|intros i Hi; apply Hcov; lia|]. intros Hall.
      destruct append; [by destruct Happ; [|apply Hall; lia]|].
      eapply total_same; [done|done|apply Hext|done|]. eapply covered_expand; [exact Hr|..|exact Hall]; done || lia. }
  wp_steps. eapply wp_find_closest_block; [done|done|..].
  - intros Hbef. apply Hloop. by constructor.
  - intros L1 p L2 es1 e es2 -> -> Hlen Hle Haft. apply Hloop. eapply pos_at; [done..|].
    intros e' He'. specialize (Haft e' He'). lia.
Qed.
End allocate.

(** ** Main results *)

(** C26: allocating an interval of a file inside a transaction.  Whatever holes
    the interval has, afterwards every byte of it is covered by a block; the
    blocks that were there stay, the content of the file does not change (new
    blocks read as zero), the invariant of the file holds, and the result is
    the space the new blocks occupy, zero if the interval had no hole.  The only failure is the abort with
    ENOMEM when the persistent allocator has no space.  [hole_ok] excludes
    the holes before the first block whose size the code truncates to zero. *)
Theorem vinode_allocate_interval_correct (HP : Pobj) (HPok : PobjOk) cfg bs calloc_ok over s L es offset size :
  cfg_wf cfg bs → (∀ k, calloc_ok k = true) →
  file_rep cfg s L es → is_Some (fs_tx s) → 0 ≤ offset → 0 < size → offset + size ≤ 2 ^ 63 →
  hole_ok cfg es offset size →
  wp (vinode_allocate_interval cfg calloc_ok over offset size)
    (λ r s', ∃ L' es', file_rep cfg s' L' es' ∧ extends s L es s' L' es' ∧
      (∀ i, offset ≤ i < offset + size → covered es' i) ∧ r = total es' - total es ∧
      ((∀ i, offset ≤ i < offset + size → covered es i) → r = 0))
    (λ e _, e = ENOMEM) s.
Proof.
  intros Hcfg Hcalloc Hr Htx Ho Hs Hb Hh. eapply wp_vinode_allocate_interval; [done..|].
  intros s' L' es' Hr' Hext Hcov Hnone. exists L', es'. split_and!; [done..|]. intros Hall. rewrite Hnone by done. lia.
Qed.

Lemma vinode_allocate_interval_witness :
  wp (@vinode_allocate_interval Ex.pobj default_cfg Ex.calloc true 20000 100000)
    (λ r s', ∃ L' es', file_rep default_cfg s' L' es' ∧
      extends (Ex.file0 (Some (Tx [] []))) [] [] s' L' es' ∧
      (∀ i, 20000 ≤ i < 20000 + 100000 → covered es' i) ∧ r = total es' - total [] ∧
      ((∀ i, 20000 ≤ i < 20000 + 100000 → covered [] i) → r = 0))
    (λ e _, e = ENOMEM) (Ex.file0 (Some (Tx [] []))).
Proof.
  apply (vinode_allocate_interval_correct _ Ex.pobj_ok default_cfg _ Ex.calloc true _ [] [] 20000 100000 default_cfg_wf);
    [done|by apply Ex.rep0|by eexists|lia|lia|lia|done].
Defined.

(** A file with a single block at offset 4 GiB. *)
Definition file_4g : option fstate :=
  match @vinode_allocate_interval Ex.pobj default_cfg Ex.calloc false (2 ^ 32) 1
    (Ex.file0 (Some (Tx [] []))) with
  | Ok _ s => Some s
  | _ => None
  end.

(** A file whose first block starts exactly 4 GiB after the (aligned) start
    of the interval: the 32-bit cast of the size of the hole gives zero, and
    the choice of a block class stops at its ASSERT (without assertions it
    returns the element before [data_blocks]). *)
Theorem vinode_allocate_interval_4g_hole : ∃ s, file_4g = Some s ∧
  @vinode_allocate_interval Ex.pobj default_cfg Ex.calloc false 0 (2 ^ 32 + 1) s = Fault AssertFail.
Proof. eexists. split; [vm_compute; reflexivity|]. vm_compute. reflexivity. Qed.

(** ** A file with some blocks, for the examples *)

Module ExAlloc.
Definition run1 : outcome fstate Z :=
  @vinode_allocate_interval Ex.pobj default_cfg Ex.calloc true 20000 100000 (Ex.file0 (Some (Tx [] []))).
Definition file1 : fstate := match run1 with Ok _ s => s | _ => Ex.file0 None end.

Lemma rep1 : ∃ L es, file_rep default_cfg file1 L es ∧ ∀ i, 20000 ≤ i < 120000 → covered es i.
Proof.
  pose proof (wp_vinode_allocate_interval (HPok := Ex.pobj_ok) default_cfg _ Ex.calloc default_cfg_wf (λ _, eq_refl) true
    (Ex.file0 (Some (Tx [] []))) [] [] 20000 100000
    (λ r s, ∃ L es, file_rep default_cfg s L es ∧ ∀ i, 20000 ≤ i < 120000 → covered es i) (λ _ _, True)) as H.
  fold run1 in H. unfold wp in H. change (@vinode_allocate_interval _ _ _ _ _ _ _) with run1 in H.
  unfold file1. destruct run1 eqn:Hrun; [|by vm_compute in Hrun..].
  apply H; [by apply Ex.rep0|by eexists|lia|lia|lia|done|done|].
  intros s' L' es' Hr _ Hc _. exists L', es'. split; [done|]. intros i Hi. apply Hc. lia.
Qed.

Lemma tx1 : is_Some (fs_tx file1).
Proof. vm_compute. by eexists. Qed.
End ExAlloc.
