(* ===== verification/DataIO.v ===== *)
(** Correctness of [iterate_on_file_range] (data.c): reading returns the
    content of the file, writing replaces it in the range. *)
From stdpp Require Import sorting.
From S2P Require Import Prelude Layout Inode Blocks OffsetMap OffsetMapRep FileState BlockList.
From S2P Require Import BlockArray BlockArrayRep Data FileRep.

(** ** Copied bytes *)

Lemma copy_bytes_in src from dst to len i : to ≤ i < to + len →
  copy_bytes src from dst to len i = src (from + (i - to)).
Proof.
  intros Hi. unfold copy_bytes. zcase (to <=? i); [|lia]. zcase (i <? to + len); [done|lia].
Qed.

Lemma copy_bytes_out src from dst to len i : ¬ (to ≤ i < to + len) →
  copy_bytes src from dst to len i = dst i.
Proof.
  intros Hi. unfold copy_bytes. zcase (to <=? i); [|done]. zcase (i <? to + len); [lia|done].
Qed.

(** After a block the next one in the range starts where the block ends: the
    range has no hole between two blocks. *)
Definition no_hole_between (es : list extent) (offset len : Z) : Prop :=
  ∀ es1 e e' es2, es = es1 ++ e :: e' :: es2 → offset < ex_end e →
    ex_offset e' < offset + len → ex_end e = ex_offset e'.

Lemma no_hole_advance es offset len k : 0 ≤ k → no_hole_between es offset len →
  no_hole_between es (offset + k) (len - k).
Proof. intros Hk Hn es1 e e' es2 -> H1 H2. eapply Hn; [done|lia|lia]. Qed.

Section read.
Variables (cfg : block_cfg) (bs : list pmem_block_info).
Hypothesis Hcfg : cfg_wf cfg bs.
Variables (s : fstate) (L : list bptr) (es : list extent).
Hypothesis Hr : file_rep cfg s L es.
Notation byte := (content (pm_data (fs_pm s)) es).

(** What [buf] must hold after [len] bytes from [offset] were read to [pos]. *)
Definition read_into (offset len pos : Z) (buf buf' : bytes) : Prop :=
  ∀ i, buf' i = if decide (pos ≤ i < pos + len) then byte (offset + (i - pos)) else buf i.

Lemma read_into_nil offset pos buf : read_into offset 0 pos buf buf.
Proof. intros i. rewrite decide_False by lia. done. Qed.

Lemma read_into_step offset len k pos buf buf1 buf2 : 0 ≤ k ≤ len →
  read_into offset k pos buf buf1 → read_into (offset + k) (len - k) (pos + k) buf1 buf2 →
  read_into offset len pos buf buf2.
Proof.
  intros Hk H1 H2 i. rewrite H2, H1. repeat case_decide; try lia; f_equal; lia.
Qed.

Lemma read_zero offset len pos buf : 0 ≤ len →
  (∀ i, offset ≤ i < offset + len → byte i = 0) →
  read_into offset len pos buf (copy_bytes zero_bytes 0 buf pos len).
Proof.
  intros Hl Hz i. case_decide.
  - rewrite copy_bytes_in by done. symmetry. apply Hz. lia.
  - by rewrite copy_bytes_out.
Qed.

(** The block the loop is at, for the remaining range. *)
Inductive read_pos (offset len : Z) : option bptr → Prop :=
  | rp_start : (∀ e, e ∈ es → offset < ex_offset e) → read_pos offset len None
  | rp_end : (∀ e, e ∈ es → ex_end e ≤ offset) → read_pos offset len None
  | rp_at L1 p L2 es1 e es2 :
      L = L1 ++ p :: L2 → es = es1 ++ e :: es2 → length L1 = length es1 →
      ex_offset e ≤ offset → (∀ e', e' ∈ es2 → offset < ex_offset e') → read_pos offset len (Some p)
  | rp_gap L1 p L2 es1 e es2 :
      L = L1 ++ p :: L2 → es = es1 ++ e :: es2 → length L1 = length es1 →
      (∀ x, x ∈ es1 → ex_end x ≤ offset) → offset + len ≤ ex_offset e → read_pos offset len (Some p).

Definition aligned (offset : Z) : Prop := (block_alignment cfg | offset).

(** Iterations left: each one but the last reaches a page boundary. *)
Definition read_fuel (fuel : nat) (offset len : Z) : Prop :=
  len / MIN_BLOCK_SIZE + 2 ≤ Z.of_nat fuel ∨
  aligned offset ∧ len / MIN_BLOCK_SIZE + 1 ≤ Z.of_nat fuel.

Lemma page_step fuel offset len k : read_fuel (S fuel) offset len → 0 < k < len → aligned (offset + k) →
  read_fuel fuel (offset + k) (len - k).
Proof.
  intros Hf Hk Ha. right. split; [done|]. destruct Hf as [Hf|[Ho Hf]].
  - pose proof (Z.div_le_mono (len - k) len MIN_BLOCK_SIZE ltac:(done) ltac:(lia)). lia.
  - assert (block_alignment cfg | k) as Hd.
    { replace k with (offset + k - offset) by lia. by apply Z.divide_sub_r. }
    assert (MIN_BLOCK_SIZE ≤ k) as Hm.
    { apply Z.divide_pos_le; [lia|]. eapply Z.divide_trans; [by eapply cfg_align_page|done]. }
    pose proof (Z.div_le_mono (len - k) (len - MIN_BLOCK_SIZE) MIN_BLOCK_SIZE ltac:(done) ltac:(lia)).
    replace (len - MIN_BLOCK_SIZE) with (len + (-1) * MIN_BLOCK_SIZE) in H by lia.
    rewrite Z.div_add in H by done. lia.
Qed.

(** A block remembered for the next call. *)
Definition hint_ok (L : list bptr) (b : option bptr) : Prop := ∀ p, b = Some p → p ∈ L.

Definition read_spec (fuel : nat) : Prop := ∀ block last_block offset len buf pos,
  hint_ok L last_block →
  0 ≤ offset → 0 ≤ len → offset + len ≤ 2 ^ 63 → read_fuel fuel offset len →
  no_hole_between es offset len → read_pos offset len block →
  wp (iterate_loop fuel block last_block offset len buf pos read_from_blocks)
    (λ '(lb, buf') s', s' = s ∧ read_into offset len pos buf buf' ∧ hint_ok L lb) noabort s.

(** The result of a step that consumed [k] bytes. *)
Lemma wp_read_continue fuel block last_block offset len k buf buf1 pos :
  read_spec fuel → hint_ok L last_block → 0 ≤ offset → 0 < k ≤ len → offset + len ≤ 2 ^ 63 →
  read_fuel (S fuel) offset len → no_hole_between es offset len →
  read_into offset k pos buf buf1 → (k < len → aligned (offset + k)) →
  (k < len → read_pos (offset + k) (len - k) block) →
  wp (iterate_loop fuel block last_block (u64 (offset + k)) (u64 (len - k)) buf1 (pos + k) read_from_blocks)
    (λ '(lb, buf') s', s' = s ∧ read_into offset len pos buf buf' ∧ hint_ok L lb) noabort s.
Proof.
  intros IH Hh Ho Hk Hb Hf Hn Hbuf Hal Hpos.
  assert (u64 (offset + k) = offset + k) as -> by (apply Z.mod_small; lia).
  assert (u64 (len - k) = len - k) as -> by (apply Z.mod_small; lia).
  destruct (decide (k < len)) as [Hlt|Hge].
  - eapply wp_conseq; [apply IH; [done|lia|lia|lia|by eapply page_step; [done|lia|auto]|by apply no_hole_advance; [lia|]|by auto]|].
    intros [lb buf'] s' (-> & Hb' & Hlb). split; [done|]. split; [|done]. by eapply read_into_step; [|done..]; lia.
  - replace (len - k) with 0 by lia. assert (k = len) as -> by lia.
    destruct fuel; cbn [iterate_loop]; wp_steps; done.
Qed.

(** ** Holes *)

(** [nb] is the block after the hole: everything before [nb] ends at or before
    [offset]. *)
Lemma hole_zero es1 es2 offset i : es = es1 ++ es2 → (∀ x, x ∈ es1 → ex_end x ≤ offset) →
  offset ≤ i → (∀ y, y ∈ es2 → i < ex_offset y) → byte i = 0.
Proof.
  intros Heq H1 Hi H2. apply content_hole. intros e He. apply covers_false. rewrite Heq in He.
  apply elem_of_app in He as [He|He]; [specialize (H1 e He)|specialize (H2 e He)]; lia.
Qed.

(** A hole that ends at the block [n], or reaches past the range. *)
Lemma wp_read_hole fuel L1 L2 es1 es2 last_block block offset len buf pos :
  read_spec fuel → hint_ok L last_block → L = L1 ++ L2 → es = es1 ++ es2 → length L1 = length es1 →
  (∀ x, x ∈ es1 → ex_end x ≤ offset) → (∀ y, y ∈ es2 → offset < ex_offset y) →
  0 ≤ offset → 0 < len → offset + len ≤ 2 ^ 63 →
  read_fuel (S fuel) offset len → no_hole_between es offset len →
  wp ('(read_hole_count, block) ←
        match head L2 with
        | None => mret (len, block)
        | Some nb =>
            dn ← desc_get nb;
            let hole_end := u64 (bd_offset dn - offset) in
            mret (if hole_end <? len then hole_end else len, head L2)
        end;
      buf ← read_block_range None 0 read_hole_count buf pos;
      iterate_loop fuel block last_block (u64 (offset + read_hole_count))
        (u64 (len - read_hole_count)) buf (pos + read_hole_count) read_from_blocks)
    (λ '(lb, buf') s', s' = s ∧ read_into offset len pos buf buf' ∧ hint_ok L lb) noabort s.
Proof.
  intros IH Hh HL Hes Hlen H1 H2 Ho Hl Hb Hf Hn. apply wp_bind.
  assert (∀ blk k, 0 < k ≤ len → (∀ y, y ∈ es2 → offset + k ≤ ex_offset y) →
    (k < len → aligned (offset + k)) → (k < len → read_pos (offset + k) (len - k) blk) →
    wp (buf ← read_block_range None 0 k buf pos;
        iterate_loop fuel blk last_block (u64 (offset + k)) (u64 (len - k)) buf (pos + k) read_from_blocks)
      (λ '(lb, buf') s', s' = s ∧ read_into offset len pos buf buf' ∧ hint_ok L lb) noabort s) as Hgo.
  { intros blk k Hk Hy Hal Hpos. unfold read_block_range. wp_steps; [apply Z.ltb_lt; lia|].
    apply wp_read_continue; try done. apply read_zero; [lia|]. intros i Hi.
    eapply hole_zero; [done|done|lia|]. intros y Hy'. specialize (Hy y Hy'). lia. }
  destruct L2 as [|n L2]; cbn [head hd_error].
  - apply wp_ret. assert (es2 = []) as ->.
    { pose proof (Forall2_length _ _ _ (fr_ext _ _ _ _ Hr)) as Hll. rewrite HL, Hes, !length_app in Hll.
      destruct es2; [done|cbn in Hll; lia]. }
    apply (Hgo _ len); [lia|by intros y ?%not_elem_of_nil|lia|lia].
  - destruct (rep_split cfg s L1 n L2 es) as (es1' & e & es3 & d & Heq & Hl' & Hd & <- & _); [by rewrite <-HL|].
    rewrite Hes in Heq. apply app_inj_1 in Heq as [<- ->]; [|congruence].
    apply wp_bind. eapply wp_desc_get; [done|]. apply wp_ret.
    assert (payload d ∈ es) as Hin by (rewrite Hes, elem_of_app, elem_of_cons; tauto).
    pose proof (rep_ext _ _ _ _ _ Hr Hin) as [Heo _ Hep Hen _ Heb]. unfold ex_end, MIN_BLOCK_SIZE in Heb. cbn in Heo, Hep, Hen, Heb.
    assert (offset < bd_offset d) as Hlt by (apply (H2 (payload d)); by left).
    assert (u64 (bd_offset d - offset) = bd_offset d - offset) as -> by (apply Z.mod_small; lia).
    assert (∀ y, y ∈ es3 → bd_offset d < ex_offset y) as H3.
    { intros y Hy. pose proof (es_sorted _ _ _ (fr_ok _ _ _ _ Hr)) as Hs. rewrite Hes in Hs.
      destruct (sorted_mid _ _ _ Hs) as (_ & Ha & _). specialize (Ha y Hy). unfold before, ex_end in Ha. cbn in Ha. lia. }
    zcase (bd_offset d - offset <? len).
    + apply Hgo; [lia| | |].
      * intros y [-> | Hy]%elem_of_cons; [cbn; lia|]. specialize (H3 y Hy). lia.
      * intros _. unfold aligned. by replace (offset + (bd_offset d - offset)) with (bd_offset d) by lia.
      * intros _. eapply (rp_at _ _ L1 n L2 es1 (payload d) es3); [done|done|done|cbn; lia|].
        intros y Hy. specialize (H3 y Hy). lia.
    + apply (Hgo _ len); [lia| |lia|lia].
      intros y [-> | Hy]%elem_of_cons; [cbn; lia|]. specialize (H3 y Hy). lia.
Qed.

(** A hole that extends past the end of the range, whatever block follows:
    the distance to the block the code looks at is at least [len]. *)
Lemma wp_read_rest fuel nb last_block block offset len buf pos :
  read_spec fuel → hint_ok L last_block → 0 ≤ offset → 0 < len → offset + len ≤ 2 ^ 63 →
  read_fuel (S fuel) offset len → no_hole_between es offset len →
  (∀ i, offset ≤ i < offset + len → byte i = 0) →
  (∀ b, nb = Some b → ∃ d, desc_at (pm_arrays (fs_pm s)) b = Some d ∧ len ≤ u64 (bd_offset d - offset)) →
  wp ('(read_hole_count, block) ←
        match nb with
        | None => mret (len, block)
        | Some nb' =>
            dn ← desc_get nb';
            let hole_end := u64 (bd_offset dn - offset) in
            mret (if hole_end <? len then hole_end else len, nb)
        end;
      buf ← read_block_range None 0 read_hole_count buf pos;
      iterate_loop fuel block last_block (u64 (offset + read_hole_count))
        (u64 (len - read_hole_count)) buf (pos + read_hole_count) read_from_blocks)
    (λ '(lb, buf') s', s' = s ∧ read_into offset len pos buf buf' ∧ hint_ok L lb) noabort s.
Proof.
  intros IH Hh Ho Hl Hb Hf Hn Hz Hnb. apply wp_bind.
  assert (∀ blk, wp (buf ← read_block_range None 0 len buf pos;
        iterate_loop fuel blk last_block (u64 (offset + len)) (u64 (len - len)) buf (pos + len) read_from_blocks)
      (λ '(lb, buf') s', s' = s ∧ read_into offset len pos buf buf' ∧ hint_ok L lb) noabort s) as Hgo.
  { intros blk. unfold read_block_range. wp_steps; [apply Z.ltb_lt; lia|].
    apply wp_read_continue; try done; try lia. apply read_zero; [lia|done]. }
  destruct nb as [b|]; [apply wp_bind|apply wp_ret; apply Hgo].
  destruct (Hnb b eq_refl) as (d & Hd & Hle). eapply wp_desc_get; [done|]. apply wp_ret.
  zcase (u64 (bd_offset d - offset) <? len); [lia|]. apply Hgo.
Qed.

(** ** Inside a block *)

Lemma is_init_eq d : negb (Z.land (bd_flags d) BLOCK_INITIALIZED =? 0) = ex_init (payload d).
Proof. done. Qed.

Lemma wp_read_block_range p d o c off k buf pos offset :
  desc_at (pm_arrays (fs_pm s)) p = Some d → bd_data d = Some o → pm_data (fs_pm s) !! o = Some c →
  0 ≤ off → 0 < k → off + k ≤ bd_size d → bd_size d ≤ UINT32_MAX →
  (∀ j, 0 ≤ j < k → byte (offset + j) = ext_byte (pm_data (fs_pm s)) (payload d) (off + j)) →
  wp (read_block_range (Some p) off k buf pos)
    (λ buf1 s', s' = s ∧ read_into offset k pos buf buf1) noabort s.
Proof.
  intros Hd Ho Hc Hoff Hk Hsz Hmax Hbyte. unfold read_block_range. wp_steps; [by apply Z.ltb_lt|].
  eapply wp_desc_get; [done|]. wp_steps; [apply Z.ltb_lt; lia| |].
  { apply Z.leb_le. unfold u64. unfold UINT32_MAX in *. rewrite Z.mod_small; lia. }
  unfold is_block_data_initialized. wp_steps. eapply wp_desc_get; [done|]. wp_steps. rewrite is_init_eq.
  unfold ext_byte in Hbyte. cbn [payload ex_data] in Hbyte. rewrite Ho, Hc in Hbyte.
  destruct (ex_init (payload d)).
  - unfold data_get, data_read. wp_steps. eapply wp_desc_get; [done|]. rewrite Ho. wp_steps.
    rewrite Hc. wp_steps. split; [done|]. intros i. case_decide.
    + rewrite copy_bytes_in by done. rewrite Hbyte by lia. done.
    + by rewrite copy_bytes_out.
  - wp_steps. split; [done|]. apply read_zero; [lia|]. intros i Hi.
    replace i with (offset + (i - offset)) by lia. apply Hbyte. lia.
Qed.

(** The block after the one just read. *)
Lemma read_pos_next L1 p L2 es1 e es2 offset len k :
  L = L1 ++ p :: L2 → es = es1 ++ e :: es2 → length L1 = length es1 →
  covers e offset = true → offset + k = ex_end e → 0 < k < len → no_hole_between es offset len →
  read_pos (offset + k) (len - k) (head L2).
Proof.
  intros HL Hes Hlen Hcov Hk Hkl Hn. apply covers_true in Hcov.
  pose proof (es_sorted _ _ _ (fr_ok _ _ _ _ Hr)) as Hs. rewrite Hes in Hs.
  destruct (sorted_mid _ _ _ Hs) as (Hbef & Haft & _).
  destruct L2 as [|n L2]; cbn [head hd_error].
  - assert (es2 = []) as ->.
    { pose proof (Forall2_length _ _ _ (fr_ext _ _ _ _ Hr)) as Hll. rewrite HL, Hes, !length_app in Hll.
      destruct es2; [done|cbn in Hll; lia]. }
    apply rp_end. intros x Hx. rewrite Hes in Hx. apply elem_of_app in Hx as [Hx|Hx%list_elem_of_singleton].
    + specialize (Hbef x Hx). unfold before in Hbef. lia.
    + subst. lia.
  - destruct (rep_split cfg s (L1 ++ [p]) n L2 es) as (es1' & e' & es3 & d & Heq & Hl' & _ & _ & _).
    { rewrite <-app_assoc. cbn. by rewrite <-HL. }
    rewrite Hes in Heq. replace (es1 ++ e :: es2) with ((es1 ++ [e]) ++ es2) in Heq by (by rewrite <-app_assoc).
    apply app_inj_1 in Heq as [<- ->]; [|rewrite length_app in *; cbn in *; lia].
    assert (L = (L1 ++ [p]) ++ n :: L2) as HL' by (rewrite HL; by rewrite <-app_assoc).
    assert (es = (es1 ++ [e]) ++ e' :: es3) as Hes' by (rewrite Hes; by rewrite <-app_assoc).
    assert (before e e') as Hbe by (apply Haft; by left). unfold before in Hbe.
    destruct (decide (ex_offset e' < offset + len)) as [Hlt|Hge].
    + assert (ex_end e = ex_offset e') as Heq by (eapply Hn; [exact Hes|lia|done]).
      eapply (rp_at _ _ _ n L2 _ e' es3); [done|done|done|lia|]. intros y Hy.
      pose proof (es_sorted _ _ _ (fr_ok _ _ _ _ Hr)) as Hs2. rewrite Hes' in Hs2.
      destruct (sorted_mid _ e' es3 Hs2) as (_ & Ha & _). specialize (Ha y Hy).
      pose proof (rep_ext _ _ _ _ e' Hr ltac:(rewrite Hes', elem_of_app, elem_of_cons; tauto)) as [_ _ _ ? _ _].
      unfold before, ex_end in *. lia.
    + eapply (rp_gap _ _ _ n L2 _ e' es3); [done|done|done| |lia].
      intros x [Hx|Hx%list_elem_of_singleton]%elem_of_app; [|subst; lia].
      specialize (Hbef x Hx). unfold before in Hbef. lia.
Qed.

Lemma wp_read_inside fuel L1 p L2 es1 d es2 last_block offset len buf pos :
  read_spec fuel → hint_ok L last_block → L = L1 ++ p :: L2 → es = es1 ++ payload d :: es2 → length L1 = length es1 →
  desc_at (pm_arrays (fs_pm s)) p = Some d → bd_next d = head L2 → covers (payload d) offset = true →
  0 ≤ offset → 0 < len → offset + len ≤ 2 ^ 63 →
  read_fuel (S fuel) offset len → no_hole_between es offset len →
  wp (let in_block_start := u64 (offset - bd_offset d) in
      let in_block_len := u64 (bd_size d - in_block_start) in
      let in_block_len := if len <? in_block_len then len else in_block_len in
      assert_ (in_block_start <? bd_size d);;
      assert_ (u64 (in_block_start + in_block_len) <=? bd_size d);;
      buf ← read_block_range (Some p) in_block_start in_block_len buf pos;
      d ← desc_get p;
      iterate_loop fuel (bd_next d) last_block (u64 (offset + in_block_len))
        (u64 (len - in_block_len)) buf (pos + in_block_len) read_from_blocks)
    (λ '(lb, buf') s', s' = s ∧ read_into offset len pos buf buf' ∧ hint_ok L lb) noabort s.
Proof.
  intros IH Hh HL Hes Hlen Hd Hnext Hcov Ho Hl Hb Hf Hn. pose proof Hcov as Hcov'. apply covers_true in Hcov'.
  assert (payload d ∈ es) as Hin by (rewrite Hes, elem_of_app, elem_of_cons; tauto).
  pose proof (rep_ext _ _ _ _ _ Hr Hin) as [Heo Hes' Hep Hen Hmax Heb].
  destruct (es_data _ _ _ (fr_ok _ _ _ _ Hr) _ Hin) as (o & c & Hdo & Hc).
  unfold ex_end, MIN_BLOCK_SIZE in *. cbn [payload ex_offset ex_size ex_data] in *.
  assert (u64 (offset - bd_offset d) = offset - bd_offset d) as -> by (apply Z.mod_small; lia).
  assert (u64 (bd_size d - (offset - bd_offset d)) = bd_offset d + bd_size d - offset) as ->.
  { unfold u64. rewrite Z.mod_small; lia. }
  cbv zeta. set (k := if len <? bd_offset d + bd_size d - offset then len else bd_offset d + bd_size d - offset).
  assert (0 < k ≤ len ∧ (k < len → k = bd_offset d + bd_size d - offset) ∧ k ≤ bd_offset d + bd_size d - offset)
    as (Hk & Hk' & Hk2) by (unfold k; zcase (len <? bd_offset d + bd_size d - offset); lia).
  wp_steps; [apply Z.ltb_lt; lia| |].
  { apply Z.leb_le. unfold u64. unfold UINT32_MAX in *. rewrite Z.mod_small; lia. }
  eapply wp_conseq; [apply (wp_read_block_range p d o c _ _ _ _ offset); try done; try lia|].
  { intros j Hj. rewrite Hes. rewrite content_at.
    - f_equal. cbn. lia.
    - rewrite <-Hes. apply Hr.
    - apply covers_true. unfold ex_end. cbn. lia. }
  intros buf1 s' [-> Hbuf]. wp_steps. eapply wp_desc_get; [done|]. rewrite Hnext.
  apply wp_read_continue; try done.
  - intros Hlt. rewrite Hk' by done. unfold aligned.
    replace (offset + (bd_offset d + bd_size d - offset)) with (bd_offset d + bd_size d) by lia. by apply Z.divide_add_r.
  - intros Hlt. eapply read_pos_next; try done; [|lia]. rewrite Hk' by done. unfold ex_end. cbn. lia.
Qed.

(** ** The loop *)

Lemma first_at_end : ∀ b, head L = Some b → ∃ d, desc_at (pm_arrays (fs_pm s)) b = Some d ∧ payload d ∈ es.
Proof.
  intros b Hb. destruct L as [|f L'] eqn:HL; [done|]. injection Hb as ->.
  destruct (rep_split cfg s [] b L' es) as (es1 & e & es2 & d & -> & _ & Hd & <- & _); [done|].
  exists d. split; [done|]. rewrite elem_of_app, elem_of_cons. tauto.
Qed.

Lemma read_loop_ok fuel : read_spec fuel.
Proof.
  induction fuel as [|fuel IH]; intros block last_block offset len buf pos Hh Ho Hl Hb Hf Hn Hpos.
  { exfalso. pose proof (Z.div_pos len MIN_BLOCK_SIZE Hl ltac:(done)). destruct Hf as [?|[_ ?]]; lia. }
  cbn [iterate_loop]. zcase (0 <? len); last first.
  { wp_steps. split; [done|]. assert (len = 0) as -> by lia. split; [apply read_into_nil|done]. }
  destruct Hpos as [Hs|He|L1 p L2 es1 e es2 HL Hes Hlen Hle Haft|L1 p L2 es1 e es2 HL Hes Hlen Hbef Hge].
  - cbn [is_offset_in_block find_following_block is_read]. wp_steps; [done|]. cbn [negb]. wp_steps; [done|].
    rewrite (fr_first _ _ _ _ Hr). apply wp_bind_inv.
    eapply (wp_read_hole fuel [] L [] es); try done. by intros x ?%not_elem_of_nil.
  - cbn [is_offset_in_block find_following_block is_read]. wp_steps; [done|]. cbn [negb]. wp_steps; [done|].
    rewrite (fr_first _ _ _ _ Hr). apply wp_bind_inv. apply wp_read_rest; try done.
    + intros i Hi. eapply (hole_zero es []); [by rewrite app_nil_r|exact He|lia|by intros y ?%not_elem_of_nil].
    + intros b Hb'. destruct (first_at_end b Hb') as (d & Hd & Hin). exists d. split; [done|].
      pose proof (rep_ext _ _ _ _ _ Hr Hin) as [_ _ Hep Hen _ _]. specialize (He _ Hin). unfold ex_end in He. cbn in *.
      replace (u64 (bd_offset d - offset)) with (bd_offset d - offset + 2 ^ 64); [lia|].
      unfold u64. rewrite <-(Z.mod_add _ 1) by lia. rewrite Z.mod_small; lia.
  - destruct (rep_split cfg s L1 p L2 es) as (es1' & e' & es2' & d & Heq & Hl' & Hd & <- & _ & Hnext); [by rewrite <-HL|].
    rewrite Hes in Heq. apply app_inj_1 in Heq as [<- [= -> <-]]; [|congruence].
    wp_steps. eapply wp_is_offset_in_block; [done|done|done|]. wp_steps.
    destruct (covers (payload d) offset) eqn:Hcov; cbn [negb].
    + unfold deref. wp_steps. eapply wp_desc_get; [done|]. eapply wp_read_inside; try done.
      intros q [= <-]. rewrite HL, elem_of_app, elem_of_cons. tauto.
    + cbn [is_read find_following_block]. wp_steps; [done|]. eapply wp_desc_get; [done|]. wp_steps.
      rewrite Hnext. apply wp_bind_inv.
      replace (es1 ++ payload d :: es2) with ((es1 ++ [payload d]) ++ es2) in Hes by (by rewrite <-app_assoc).
      replace (L1 ++ p :: L2) with ((L1 ++ [p]) ++ L2) in HL by (by rewrite <-app_assoc).
      eapply (wp_read_hole fuel (L1 ++ [p]) L2 (es1 ++ [payload d]) es2); try done.
      { rewrite !length_app. cbn. lia. }
      intros x [Hx|Hx%list_elem_of_singleton]%elem_of_app; apply covers_false in Hcov; [|subst; lia].
      pose proof (es_sorted _ _ _ (fr_ok _ _ _ _ Hr)) as Hsort. rewrite Hes, <-app_assoc in Hsort.
      destruct (sorted_mid _ _ _ Hsort) as (Hb' & _ & _). specialize (Hb' x Hx). unfold before in Hb'. lia.
  - destruct (rep_split cfg s L1 p L2 es) as (es1' & e' & es2' & d & Heq & Hl' & Hd & <- & _ & Hnext); [by rewrite <-HL|].
    rewrite Hes in Heq. apply app_inj_1 in Heq as [<- [= -> <-]]; [|congruence].
    assert (covers (payload d) offset = false) as Hcov by (apply covers_false; lia).
    wp_steps. eapply wp_is_offset_in_block; [done|done|done|]. rewrite Hcov. wp_steps. cbn [negb is_read find_following_block].
    wp_steps; [done|]. eapply wp_desc_get; [done|]. wp_steps. rewrite Hnext. apply wp_bind_inv.
    pose proof (es_sorted _ _ _ (fr_ok _ _ _ _ Hr)) as Hsort. rewrite Hes in Hsort.
    destruct (sorted_mid _ _ _ Hsort) as (_ & Ha & _).
    apply wp_read_rest; try done.
    + intros i Hi. eapply (hole_zero es1 (payload d :: es2)); [done|done|lia|].
      pose proof (rep_ext _ _ _ _ (payload d) Hr ltac:(rewrite Hes, elem_of_app, elem_of_cons; tauto)) as [_ _ _ ? _ _].
      intros y [-> | Hy]%elem_of_cons; [lia|]. specialize (Ha y Hy). unfold before, ex_end in Ha. lia.
    + intros b Hb'. destruct L2 as [|n L2]; [done|]. injection Hb' as ->.
      destruct (rep_split cfg s (L1 ++ [p]) b L2 es) as (es1' & e' & es3 & dn & Heq & Hl3 & Hdn & <- & _).
      { rewrite <-app_assoc. cbn. by rewrite <-HL. }
      exists dn. split; [done|]. rewrite Hes in Heq.
      replace (es1 ++ payload d :: es2) with ((es1 ++ [payload d]) ++ es2) in Heq by (by rewrite <-app_assoc).
      apply app_inj_1 in Heq as [<- ->]; [|rewrite length_app in *; cbn in *; lia].
      assert (before (payload d) (payload dn)) as Hbe by (apply Ha; by left).
      pose proof (rep_ext _ _ _ _ (payload d) Hr ltac:(rewrite Hes, elem_of_app, elem_of_cons; tauto)) as [_ _ _ ? _ _].
      pose proof (rep_ext _ _ _ _ (payload dn) Hr ltac:(rewrite Hes, elem_of_app, !elem_of_cons; tauto)) as [_ _ ? ? _ Heb].
      unfold before, ex_end, MIN_BLOCK_SIZE in *. cbn in *. unfold u64. rewrite Z.mod_small; lia.
Qed.
End read.

(** ** Writing *)

Section write.
Variables (cfg : block_cfg) (bs : list pmem_block_info).
Hypothesis Hcfg : cfg_wf cfg bs.
Implicit Types (s : fstate) (L : list bptr) (es : list extent).

(** The extent after it was written to. *)
Definition written (e : extent) : extent :=
  if ex_init e then e else Extent (ex_data e) (ex_size e) (Z.lor (ex_flags e) BLOCK_INITIALIZED) (ex_offset e).

Lemma written_init e : ex_init (written e) = true.
Proof.
  unfold written. destruct (ex_init e) eqn:Hi; [done|]. unfold ex_init. cbn.
  apply negb_true_iff, Z.eqb_neq. intros H.
  assert (Z.testbit (Z.land (Z.lor (ex_flags e) BLOCK_INITIALIZED) BLOCK_INITIALIZED) 0 = true) as Ht.
  { rewrite Z.land_spec, Z.lor_spec. change (Z.testbit BLOCK_INITIALIZED 0) with true.
    by rewrite orb_true_r. }
  by rewrite H in Ht.
Qed.

Lemma written_same e : ex_data (written e) = ex_data e ∧ ex_size (written e) = ex_size e ∧
  ex_offset (written e) = ex_offset e ∧ ex_end (written e) = ex_end e.
Proof. unfold written, ex_end. by destruct (ex_init e). Qed.

(** Two lists of extents that describe the same blocks of storage. *)
Definition same_blocks : list extent → list extent → Prop :=
  Forall2 (λ e e', ex_data e' = ex_data e ∧ ex_size e' = ex_size e ∧ ex_offset e' = ex_offset e).

Lemma same_blocks_refl es : same_blocks es es.
Proof. induction es; by constructor. Qed.

Lemma same_blocks_trans es1 es2 es3 : same_blocks es1 es2 → same_blocks es2 es3 → same_blocks es1 es3.
Proof.
  intros H12. revert es3. induction H12 as [|e1 e2 es1 es2 (?&?&?) _ IH]; intros es3 H23; inv H23; constructor.
  - naive_solver congruence.
  - by apply IH.
Qed.

Lemma same_blocks_written es1 e es2 : same_blocks (es1 ++ e :: es2) (es1 ++ written e :: es2).
Proof.
  apply Forall2_app; [apply same_blocks_refl|]. constructor; [|apply same_blocks_refl].
  by destruct (written_same e) as (?&?&?&_).
Qed.

Lemma same_blocks_ok data data' es es' : same_blocks es es' →
  (∀ o, is_Some (data !! o) → is_Some (data' !! o)) →
  extents_ok cfg data es → extents_ok cfg data' es'.
Proof.
  intros Hs Hd [He Hsort Hdat Hn].
  assert (ex_data <$> es' = ex_data <$> es) as Hdeq.
  { clear -Hs. induction Hs as [|x y l k (Hx&_) _ IH]; [done|]. cbn. by rewrite Hx, IH. }
  split.
  - clear -He Hs. induction Hs as [|x y l k (H1&H2&H3) _ IH]; inv He; constructor; [|by apply IH].
    destruct H4. split; unfold ex_end in *; rewrite ?H2, ?H3; done.
  - clear -Hsort Hs. induction Hs as [|x y l k (H1&H2&H3) Hs IH]; [constructor|].
    apply StronglySorted_cons in Hsort as [Hall Hsort]. apply StronglySorted_cons. split; [|by apply IH].
    clear -Hs Hall H2 H3. induction Hs as [|x' y' l k (?&?&H3') _ IH]; inv Hall; constructor; [|by apply IH].
    unfold before, ex_end in *. lia.
  - intros e' Hin. assert (ex_data e' ∈ ex_data <$> es) as Hin'.
    { rewrite <-Hdeq. apply list_elem_of_fmap. by exists e'. }
    apply list_elem_of_fmap in Hin' as (e & Heq & Hine). destruct (Hdat e Hine) as (o & c & Ho & Hc).
    destruct (Hd o) as [c' Hc']; [by eexists|]. exists o, c'. split; [congruence|done].
  - by rewrite Hdeq.
Qed.

(** The state after [write_block_range] on the block [p]. *)
Definition after_write (s : fstate) (p : bptr) (d : block_desc) (o : oid) (c : bytes) : fstate :=
  FState (Pmem (if ex_init (payload d) then pm_arrays (fs_pm s)
                else desc_upd p (λ d, set_bd_flags (Z.lor (bd_flags d) BLOCK_INITIALIZED) d) (pm_arrays (fs_pm s)))
            (<[o := c]> (pm_data (fs_pm s))) (pm_inode (fs_pm s))) (fs_tx s) (fs_v s) (fs_dram s).

Lemma after_write_payload s p d o c q : desc_at (pm_arrays (fs_pm s)) p = Some d →
  payload_at (desc_at (pm_arrays (fs_pm (after_write s p d o c)))) q =
  if decide (q = p) then Some (written (payload d)) else payload_at (desc_at (pm_arrays (fs_pm s))) q.
Proof.
  intros Hd. unfold after_write, written, payload_at. cbn. case_decide as Hq.
  - subst q. destruct (ex_init (payload d)); [by rewrite Hd|]. by erewrite desc_at_upd_eq.
  - destruct (ex_init (payload d)); [done|]. by rewrite desc_at_upd_ne.
Qed.

Lemma after_write_rep s L1 p L2 es1 d es2 o c :
  file_rep cfg s (L1 ++ p :: L2) (es1 ++ payload d :: es2) → length L1 = length es1 →
  desc_at (pm_arrays (fs_pm s)) p = Some d → bd_data d = Some o →
  file_rep cfg (after_write s p d o c) (L1 ++ p :: L2) (es1 ++ written (payload d) :: es2).
Proof.
  intros Hr Hlen Hd Ho. pose proof (after_write_payload s p d o c) as Hpay.
  assert (p ∈ L1 ++ p :: L2) as Hp by (rewrite elem_of_app, elem_of_cons; tauto).
  assert (∀ o', is_Some (pm_data (fs_pm s) !! o') → is_Some (<[o := c]> (pm_data (fs_pm s)) !! o')) as Hdata.
  { intros o' ?. apply lookup_insert_is_Some'. by right. }
  assert (ex_data <$> es1 ++ written (payload d) :: es2 = ex_data <$> es1 ++ payload d :: es2) as Hdeq.
  { rewrite !fmap_app, !fmap_cons. by destruct (written_same (payload d)) as (-> & _). }
  destruct Hr as [(rest & idx & Hs & Hidx & Hff & Hfr) Hnd Hdl Hext Hok Hfirst (m & Hm & Hrep)].
  split.
  - exists rest, idx. split; [|split; [done|split; [done|]]].
    + unfold after_write. cbn. destruct (ex_init (payload d)); [done|]. by apply store_ok_upd.
    + destruct Hfr as [Hf1 Hf2]. split.
      * intros o' Ho'. destruct (Hf1 o' Ho') as [? ?]. split; [done|]. unfold after_write. cbn.
        destruct (ex_init (payload d)); [done|]. rewrite desc_upd_lookup. by apply fmap_is_Some.
      * intros o' Ho'. rewrite Hdeq. destruct (Hf2 o' Ho') as [? ?]. split; [done|]. by apply Hdata.
  - done.
  - unfold after_write. cbn. destruct (ex_init (payload d)); [done|].
    eapply dll_ext; [intros q; by rewrite desc_at_upd|]. by apply dll_mupd_keep.
  - assert (∀ q e, q ∈ L1 ++ L2 → payload_at (desc_at (pm_arrays (fs_pm s))) q = Some e →
      payload_at (desc_at (pm_arrays (fs_pm (after_write s p d o c)))) q = Some e) as Hq.
    { intros q e Hq He. rewrite Hpay by done. rewrite decide_False; [done|]. intros ->. by apply (nodup_mid _ _ _ Hnd). }
    apply Forall2_app_inv in Hext as [H1 H2]; [|done]. inv H2. apply Forall2_app; [|constructor].
    + eapply forall2_impl_in; [exact H1|]. intros q e Hin. apply Hq, elem_of_app. by left.
    + rewrite Hpay by done. by rewrite decide_True.
    + eapply forall2_impl_in; [done|]. intros q e Hin. apply Hq, elem_of_app. by right.
  - by eapply same_blocks_ok; [apply same_blocks_written| |].
  - done.
  - exists m. split; [done|]. unfold after_write. cbn. destruct (ex_init (payload d)); [done|].
    eapply om_rep_mono; [|done]. intros b bd Hb Hbd. rewrite desc_at_upd. unfold mupd.
    case_decide; [|by exists bd]. subst. rewrite Hbd. cbn. by eexists.
Qed.

Lemma alter_as_insert {X} (m : gmap oid X) o f x : m !! o = Some x → alter f o m = <[o := f x]> m.
Proof.
  intros Hx. apply map_eq. intros i. rewrite lookup_alter, lookup_insert. case_decide; [|done].
  subst. by rewrite Hx.
Qed.

Lemma wp_data_write s o c f Q E : pm_data (fs_pm s) !! o = Some c →
  Q tt (set_pm (set_data (<[o := f c]> (pm_data (fs_pm s))) (fs_pm s)) s) →
  wp (data_write o f) Q E s.
Proof.
  intros Hc HQ. unfold data_write, data_read. wp_steps. rewrite Hc. wp_steps.
  by rewrite (alter_as_insert _ _ _ _ Hc).
Qed.

(** The bytes of the block after the write. *)
Definition block_bytes (d : block_desc) (c : bytes) (off k : Z) (buf : bytes) (pos : Z) : bytes :=
  let zeroed := copy_bytes zero_bytes 0 (copy_bytes zero_bytes 0 c 0 off) (off + k) (bd_size d - (off + k)) in
  copy_bytes buf pos (if ex_init (payload d) then c else zeroed) off k.

Lemma copy_bytes_nil src from dst to i : copy_bytes src from dst to 0 i = dst i.
Proof. apply copy_bytes_out. lia. Qed.

Lemma wp_write_block_range s p d o c off k buf pos Q E :
  desc_at (pm_arrays (fs_pm s)) p = Some d → bd_data d = Some o → pm_data (fs_pm s) !! o = Some c →
  0 ≤ off → 0 < k → off + k ≤ bd_size d → bd_size d ≤ UINT32_MAX →
  (∀ c', (∀ j, c' j = block_bytes d c off k buf pos j) → Q tt (after_write s p d o c')) →
  wp (write_block_range (Some p) off k buf pos) Q E s.
Proof.
  intros Hd Ho Hc Hoff Hk Hsz Hmax HQ. unfold UINT32_MAX in Hmax.
  assert (u64 (off + k) = off + k) as Hu1 by (apply Z.mod_small; lia).
  assert (u64 (bd_size d - (off + k)) = bd_size d - (off + k)) as Hu2 by (apply Z.mod_small; lia).
  unfold write_block_range. cbn [of_option]. wp_steps; [by apply Z.ltb_lt|].
  eapply wp_desc_get; [done|]. wp_steps; [apply Z.ltb_lt; lia|rewrite Hu1; apply Z.leb_le; lia|].
  unfold data_get, is_block_data_initialized. wp_steps. eapply wp_desc_get; [done|]. rewrite Ho. wp_steps.
  eapply wp_desc_get; [done|]. wp_steps. rewrite is_init_eq, Hu1, Hu2.
  unfold block_bytes, after_write in HQ. destruct (ex_init (payload d)) eqn:Hi; cbn [negb].
  - wp_steps. eapply wp_data_write; [done|]. wp_steps. eapply wp_desc_get; [done|]. wp_steps.
    rewrite is_init_eq, Hi. cbn. by apply HQ.
  - assert (∀ s1 c1, s1 = set_pm (set_data (<[o := c1]> (pm_data (fs_pm s))) (fs_pm s)) s →
      (∀ j, c1 j = copy_bytes zero_bytes 0 (copy_bytes zero_bytes 0 c 0 off) (off + k) (bd_size d - (off + k)) j) →
      wp (data_write o (λ c, copy_bytes buf pos c off k);;
          init ← (d ← desc_get p; mret (negb (Z.land (bd_flags d) BLOCK_INITIALIZED =? 0)));
          if negb init then desc_modify p (λ d, set_bd_flags (Z.lor (bd_flags d) BLOCK_INITIALIZED) d)
          else mret tt) Q E s1) as Hlast.
    { intros s1 c1 -> Hc1. wp_steps. eapply wp_data_write; [cbn; by rewrite lookup_insert_eq|]. wp_steps.
      eapply wp_desc_get; [done|]. wp_steps. rewrite is_init_eq, Hi. cbn [negb].
      apply wp_desc_modify; [cbn; by eexists|]. cbn. rewrite insert_insert_eq. apply HQ.
      intros j. unfold copy_bytes at 1 2. by rewrite Hc1. }
    wp_steps. assert (∀ s1 c1, s1 = set_pm (set_data (<[o := c1]> (pm_data (fs_pm s))) (fs_pm s)) s →
      (∀ j, c1 j = copy_bytes zero_bytes 0 c 0 off j) →
      wp (if negb (bd_size d - (off + k) =? 0) then
            data_write o (λ c, copy_bytes zero_bytes 0 c (off + k) (bd_size d - (off + k)))
          else mret tt)
        (λ _ s', wp (data_write o (λ c, copy_bytes buf pos c off k);;
          init ← (d ← desc_get p; mret (negb (Z.land (bd_flags d) BLOCK_INITIALIZED =? 0)));
          if negb init then desc_modify p (λ d, set_bd_flags (Z.lor (bd_flags d) BLOCK_INITIALIZED) d)
          else mret tt) Q E s') E s1) as Hmid.
    { intros s1 c1 -> Hc1. zcase (bd_size d - (off + k) =? 0); cbn [negb].
      - wp_step. eapply Hlast; [done|]. intros j. by rewrite Heqb, copy_bytes_nil.
      - eapply wp_data_write; [cbn; by rewrite lookup_insert_eq|]. eapply Hlast.
        + unfold set_pm, set_data. cbn. by rewrite insert_insert_eq.
        + intros j. unfold copy_bytes at 1. unfold copy_bytes at 1. by rewrite Hc1. }
    zcase (off =? 0); cbn [negb].
    + wp_step. eapply (Hmid _ c).
      * unfold set_pm, set_data. rewrite insert_id by done. by destruct s as [[] ? ? ?].
      * intros j. by rewrite Heqb, copy_bytes_nil.
    + eapply wp_data_write; [done|]. by eapply Hmid.
Qed.

Lemma block_bytes_eq d c off k buf pos data o j :
  bd_data d = Some o → data !! o = Some c → 0 ≤ off → 0 < k → off + k ≤ bd_size d → 0 ≤ j < bd_size d →
  block_bytes d c off k buf pos j =
  if decide (off ≤ j < off + k) then buf (pos + (j - off)) else ext_byte data (payload d) j.
Proof.
  intros Ho Hc Hoff Hk Hs Hj. unfold block_bytes, ext_byte. cbn [payload ex_data]. rewrite Ho, Hc. case_decide.
  - by rewrite copy_bytes_in.
  - rewrite copy_bytes_out by done. destruct (ex_init (payload d)); [done|].
    destruct (decide (off + k ≤ j)).
    + rewrite copy_bytes_in by lia. done.
    + rewrite copy_bytes_out by lia. rewrite copy_bytes_in by lia. done.
Qed.

(** ** The effect on the content *)

Lemma content_drop data es1 e es2 i : covers e i = false →
  content data (es1 ++ e :: es2) i = content data (es1 ++ es2) i.
Proof. intros Hc. induction es1 as [|x es1 IH]; cbn; [by rewrite Hc|by rewrite IH]. Qed.

Lemma distinct_other es1 e es2 x o : NoDup (ex_data <$> es1 ++ e :: es2) → ex_data e = Some o →
  x ∈ es1 ++ es2 → ex_data x ≠ Some o.
Proof.
  rewrite <-Permutation_middle, fmap_cons. intros [Hn _]%NoDup_cons Ho Hx Heq.
  apply Hn, list_elem_of_fmap. exists x. split; [congruence|done].
Qed.

Lemma content_after_write s L es1 d es2 o c c' offset k buf pos i :
  file_rep cfg s L (es1 ++ payload d :: es2) → bd_data d = Some o → pm_data (fs_pm s) !! o = Some c →
  bd_offset d ≤ offset → 0 < k → offset + k ≤ bd_offset d + bd_size d →
  (∀ j, c' j = block_bytes d c (offset - bd_offset d) k buf pos j) →
  content (<[o := c']> (pm_data (fs_pm s))) (es1 ++ written (payload d) :: es2) i =
  if decide (offset ≤ i < offset + k) then buf (pos + (i - offset))
  else content (pm_data (fs_pm s)) (es1 ++ payload d :: es2) i.
Proof.
  intros Hr Ho Hc Hle Hk Hend Hc'. destruct (written_same (payload d)) as (Hw1 & Hw2 & Hw3 & Hw4).
  pose proof (fr_ok _ _ _ _ Hr) as Hok.
  destruct (covers (payload d) i) eqn:Hcov.
  - pose proof Hcov as Hi. apply covers_true in Hi. unfold ex_end in Hi. cbn in Hi.
    rewrite !content_at; [|apply Hok|done| |].
    + unfold ext_byte at 1. rewrite written_init, Hw1. cbn [payload ex_data]. rewrite Ho, lookup_insert_eq, Hw3, Hc'.
      cbn [payload ex_offset]. rewrite (block_bytes_eq _ _ _ _ _ _ (pm_data (fs_pm s)) o) by (done || lia).
      repeat case_decide; try lia; f_equal; lia.
    + eapply (es_sorted cfg), same_blocks_ok; [apply same_blocks_written| |exact Hok]. done.
    + unfold covers in *. by rewrite Hw4, Hw3.
  - assert (covers (written (payload d)) i = false) as Hcov' by (unfold covers in *; by rewrite Hw4, Hw3).
    rewrite !content_drop by done. rewrite decide_False; last first.
    { apply covers_false in Hcov. unfold ex_end in Hcov. cbn in Hcov. lia. }
    apply content_ext. intros e o' He Ho'. rewrite lookup_insert_ne; [done|]. intros <-.
    by eapply (distinct_other es1 (payload d) es2 e o); [apply Hok| | |].
Qed.

(** ** The loop *)

(** Writing leaves everything but the data and the flags of the blocks. *)
Record write_frame s s' : Prop := {
  wf_inode : pm_inode (fs_pm s') = pm_inode (fs_pm s);
  wf_tx : fs_tx s' = fs_tx s;
  wf_v : fs_v s' = fs_v s;
  wf_dram : fs_dram s' = fs_dram s;
}.

Lemma write_frame_trans s1 s2 s3 : write_frame s1 s2 → write_frame s2 s3 → write_frame s1 s3.
Proof. intros [] []. split; congruence. Qed.

Record write_post s es offset len buf pos s' es' : Prop := {
  wp_frame : write_frame s s';
  wp_blocks : same_blocks es es';
  wp_content : ∀ i, content (pm_data (fs_pm s')) es' i =
    if decide (offset ≤ i < offset + len) then buf (pos + (i - offset))
    else content (pm_data (fs_pm s)) es i;
}.

Lemma write_post_nil s es offset buf pos : write_post s es offset 0 buf pos s es.
Proof. split; [done|apply same_blocks_refl|]. intros i. rewrite decide_False by lia. done. Qed.

Lemma write_post_step s es offset len k buf pos s1 es1 s2 es2 : 0 ≤ k ≤ len →
  write_post s es offset k buf pos s1 es1 →
  write_post s1 es1 (offset + k) (len - k) buf (pos + k) s2 es2 →
  write_post s es offset len buf pos s2 es2.
Proof.
  intros Hk [F1 B1 C1] [F2 B2 C2]. split; [by eapply write_frame_trans|by eapply same_blocks_trans|].
  intros i. rewrite C2, C1. repeat case_decide; try lia; try done; f_equal; lia.
Qed.

Inductive write_pos L es offset len : option bptr → Prop :=
  | wpos_done b : len = 0 → write_pos L es offset len b
  | wpos_at L1 p L2 es1 e es2 :
      L = L1 ++ p :: L2 → es = es1 ++ e :: es2 → length L1 = length es1 →
      covers e offset = true → write_pos L es offset len (Some p).

Lemma same_covers es es' i : same_blocks es es' → covered es i → covered es' i.
Proof.
  intros Hs (e & [j Hj]%list_elem_of_lookup & Hc). destruct (Forall2_lookup_l _ _ _ _ _ Hs Hj) as (e' & Hj' & _ & H2 & H3).
  exists e'. split; [by eapply list_elem_of_lookup_2|]. unfold covers, ex_end in *. by rewrite H2, H3.
Qed.

Lemma write_pos_next s L1 p L2 es1 e es2 offset len k :
  file_rep cfg s (L1 ++ p :: L2) (es1 ++ e :: es2) → length L1 = length es1 →
  offset + k = ex_end e → k < len → (∀ i, offset + k ≤ i < offset + len → covered (es1 ++ e :: es2) i) →
  write_pos (L1 ++ p :: L2) (es1 ++ e :: es2) (offset + k) (len - k) (head L2).
Proof.
  intros Hr Hlen Hk Hlt Hcov. destruct (Hcov (offset + k)) as (x & Hx & Hcx); [lia|]. apply covers_true in Hcx.
  pose proof (es_sorted _ _ _ (fr_ok _ _ _ _ Hr)) as Hs. destruct (sorted_mid _ _ _ Hs) as (Hb & Ha & _).
  pose proof (rep_ext _ _ _ _ e Hr ltac:(rewrite elem_of_app, elem_of_cons; tauto)) as [_ _ _ Hep _ _].
  apply elem_of_app in Hx as [Hx|Hx]; [specialize (Hb x Hx); unfold before, ex_end in *; lia|].
  apply elem_of_cons in Hx as [-> | Hx]; [unfold ex_end in *; lia|].
  destruct es2 as [|y es2]; [by apply not_elem_of_nil in Hx|].
  assert (covers y (offset + k) = true) as Hcy.
  { apply covers_true. apply elem_of_cons in Hx as [-> | Hx]; [done|]. exfalso.
    assert (before e y) as Hey by (apply Ha; by left).
    replace (es1 ++ e :: y :: es2) with ((es1 ++ [e]) ++ y :: es2) in Hs by (by rewrite <-app_assoc).
    destruct (sorted_mid _ _ _ Hs) as (_ & Ha' & _). specialize (Ha' x Hx).
    pose proof (rep_ext _ _ _ _ y Hr ltac:(rewrite elem_of_app, !elem_of_cons; tauto)) as [_ _ _ Hey' _ _].
    unfold before, ex_end in *. lia. }
  destruct L2 as [|n L2].
  { pose proof (Forall2_length _ _ _ (fr_ext _ _ _ _ Hr)) as Hll. rewrite !length_app in Hll. cbn in Hll. lia. }
  cbn. eapply (wpos_at _ _ _ _ (L1 ++ [p]) n L2 (es1 ++ [e]) y es2); [by rewrite <-app_assoc..| |done].
  rewrite !length_app. cbn. lia.
Qed.

Lemma wp_write_continue fuel s L1 p L2 es1 d es2 o c' c last_block offset len k buf pos :
  (∀ s es block last_block offset len pos, hint_ok (L1 ++ p :: L2) last_block →
    file_rep cfg s (L1 ++ p :: L2) es → write_pos (L1 ++ p :: L2) es offset len block →
    (∀ i, offset ≤ i < offset + len → covered es i) →
    0 ≤ offset → 0 ≤ len → offset + len ≤ 2 ^ 63 → (0 < len → read_fuel cfg fuel offset len) →
    wp (iterate_loop fuel block last_block offset len buf pos write_to_blocks)
      (λ '(lb, buf') s', buf' = buf ∧ hint_ok (L1 ++ p :: L2) lb ∧
        ∃ es', file_rep cfg s' (L1 ++ p :: L2) es' ∧ write_post s es offset len buf pos s' es') noabort s) →
  hint_ok (L1 ++ p :: L2) last_block →
  file_rep cfg s (L1 ++ p :: L2) (es1 ++ payload d :: es2) → length L1 = length es1 →
  desc_at (pm_arrays (fs_pm s)) p = Some d → bd_next d = head L2 →
  bd_data d = Some o → pm_data (fs_pm s) !! o = Some c →
  (∀ j, c' j = block_bytes d c (offset - bd_offset d) k buf pos j) →
  (∀ i, offset ≤ i < offset + len → covered (es1 ++ payload d :: es2) i) →
  bd_offset d ≤ offset → 0 < k ≤ len → offset + k ≤ bd_offset d + bd_size d →
  (k < len → offset + k = bd_offset d + bd_size d) → 0 ≤ offset → offset + len ≤ 2 ^ 63 →
  read_fuel cfg (S fuel) offset len →
  wp (d ← desc_get p;
      iterate_loop fuel (bd_next d) last_block (u64 (offset + k)) (u64 (len - k)) buf (pos + k) write_to_blocks)
    (λ '(lb, buf') s', buf' = buf ∧ hint_ok (L1 ++ p :: L2) lb ∧
      ∃ es', file_rep cfg s' (L1 ++ p :: L2) es' ∧
        write_post s (es1 ++ payload d :: es2) offset len buf pos s' es') noabort (after_write s p d o c').
Proof.
  intros IH Hh Hr Hlen Hd Hnext Ho Hc Hc' Hcov Hle Hk Hend Hfull Hpos Hb Hf.
  assert (u64 (offset + k) = offset + k) as -> by (apply Z.mod_small; lia).
  assert (u64 (len - k) = len - k) as -> by (apply Z.mod_small; lia).
  pose proof (after_write_rep s L1 p L2 es1 d es2 o c' Hr Hlen Hd Ho) as Hr'.
  assert (write_post s (es1 ++ payload d :: es2) offset k buf pos (after_write s p d o c')
    (es1 ++ written (payload d) :: es2)) as Hpost.
  { split; [done|apply same_blocks_written|]. intros i. eapply content_after_write; try done. lia. }
  destruct (written_same (payload d)) as (_ & _ & _ & Hw4).
  assert (∃ d', desc_at (pm_arrays (fs_pm (after_write s p d o c'))) p = Some d' ∧ bd_next d' = head L2) as (d' & Hd' & Hn').
  { unfold after_write. cbn. destruct (ex_init (payload d)); [by exists d|].
    eexists. split; [by eapply desc_at_upd_eq|done]. }
  apply wp_bind. eapply wp_desc_get; [exact Hd'|]. rewrite Hn'.
  assert (∀ i, offset + k ≤ i < offset + len → covered (es1 ++ written (payload d) :: es2) i) as Hcov'.
  { intros i Hi. eapply same_covers; [apply same_blocks_written|]. apply Hcov. lia. }
  eapply wp_conseq; [apply (IH _ (es1 ++ written (payload d) :: es2)); [done|done| | |lia|lia|lia|]|].
  - destruct (decide (k < len)) as [Hlt|]; [|apply wpos_done; lia].
    eapply write_pos_next; [done|done| |done|done]. rewrite Hw4. unfold ex_end. cbn. by apply Hfull.
  - intros i Hi. apply Hcov'. lia.
  - intros Hlt. eapply page_step; [done|done|lia|]. rewrite Hfull by lia. unfold aligned.
    pose proof (rep_ext _ _ _ _ (payload d) Hr ltac:(rewrite elem_of_app, elem_of_cons; tauto)) as [? ? _ _ _ _].
    by apply Z.divide_add_r.
  - intros [lb buf'] s' (-> & Hlb & es' & Hr2 & Hpost2). split; [done|]. split; [done|]. exists es'.
    split; [done|]. eapply write_post_step; [|done|done]. lia.
Qed.

Lemma write_loop_ok fuel L buf : ∀ s es block last_block offset len pos,
  hint_ok L last_block → file_rep cfg s L es → write_pos L es offset len block →
  (∀ i, offset ≤ i < offset + len → covered es i) →
  0 ≤ offset → 0 ≤ len → offset + len ≤ 2 ^ 63 → (0 < len → read_fuel cfg fuel offset len) →
  wp (iterate_loop fuel block last_block offset len buf pos write_to_blocks)
    (λ '(lb, buf') s', buf' = buf ∧ hint_ok L lb ∧
      ∃ es', file_rep cfg s' L es' ∧ write_post s es offset len buf pos s' es') noabort s.
Proof.
  induction fuel as [|fuel IH]; intros s es block last_block offset len pos Hh Hr Hpos Hcov Ho Hl Hb Hf;
    cbn [iterate_loop]; (zcase (0 <? len); last first);
    [wp_steps; split; [done|]; split; [done|]; exists es; split; [done|]; assert (len = 0) as -> by lia; apply write_post_nil| |
     wp_steps; split; [done|]; split; [done|]; exists es; split; [done|]; assert (len = 0) as -> by lia; apply write_post_nil|].
  { exfalso. pose proof (Z.div_pos len MIN_BLOCK_SIZE Hl ltac:(done)). destruct (Hf Heqb) as [?|[_ ?]]; lia. }
  destruct Hpos as [b ?|L1 p L2 es1 e es2 -> -> Hlen Hce]; [lia|].
  destruct (rep_split cfg s L1 p L2 _ Hr) as (es1' & e' & es2' & d & Heq & Hl' & Hd & <- & _ & Hnext).
  apply app_inj_1 in Heq as [<- [= -> <-]]; [|congruence].
  wp_steps. eapply wp_is_offset_in_block; [done|done|done|]. rewrite Hce. cbn [negb]. unfold deref. wp_steps.
  eapply wp_desc_get; [done|]. apply covers_true in Hce.
  assert (payload d ∈ es1 ++ payload d :: es2) as Hin by (rewrite elem_of_app, elem_of_cons; tauto).
  pose proof (rep_ext _ _ _ _ _ Hr Hin) as [Heo Hes' Hep Hen Hmax Heb].
  destruct (es_data _ _ _ (fr_ok _ _ _ _ Hr) _ Hin) as (o & c & Hdo & Hc).
  unfold ex_end, MIN_BLOCK_SIZE in *. cbn [payload ex_offset ex_size ex_data] in *.
  assert (u64 (offset - bd_offset d) = offset - bd_offset d) as -> by (apply Z.mod_small; lia).
  assert (u64 (bd_size d - (offset - bd_offset d)) = bd_offset d + bd_size d - offset) as ->.
  { unfold u64. rewrite Z.mod_small; lia. }
  cbv zeta. set (k := if len <? bd_offset d + bd_size d - offset then len else bd_offset d + bd_size d - offset).
  assert (0 < k ≤ len ∧ (k < len → k = bd_offset d + bd_size d - offset) ∧ k ≤ bd_offset d + bd_size d - offset)
    as (Hk & Hk' & Hk2) by (unfold k; zcase (len <? bd_offset d + bd_size d - offset); lia).
  wp_steps; [apply Z.ltb_lt; lia| |].
  { apply Z.leb_le. unfold u64. unfold UINT32_MAX in *. rewrite Z.mod_small; lia. }
  eapply (wp_write_block_range s p d o c); try done; try lia. intros c' Hc'. wp_steps.
  apply wp_bind_inv. eapply wp_write_continue; try done; try lia; [|by apply Hf].
  intros q [= <-]. rewrite elem_of_app, elem_of_cons. tauto.
Qed.
End write.
