(* ===== verification/DataRemove.v ===== *)
(** Correctness of [vinode_remove_interval] (data.c): the interval reads as
    zero afterwards, everything else is unchanged, the blocks inside the
    interval are gone. *)
From stdpp Require Import sorting.
From S2P Require Import Prelude Layout Inode Blocks OffsetMap OffsetMapRep FileState BlockList.
From S2P Require Import BlockArray BlockArrayRep Data FileRep DataAlloc DataIO.

Section remove.
Variables (cfg : block_cfg) (bs : list pmem_block_info) (calloc_ok : nat → bool).
Hypothesis Hcfg : cfg_wf cfg bs.
Hypothesis Hcalloc : ∀ k, calloc_ok k = true.
Implicit Types (s : fstate) (L : list bptr) (es : list extent).

(** ** Removing a block *)

Lemma extents_ok_remove data es1 e es2 :
  extents_ok cfg data (es1 ++ e :: es2) → extents_ok cfg data (es1 ++ es2).
Proof.
  intros [He Hs Hd Hn]. split.
  - apply Forall_app in He as [H1 H2]. inv H2. by apply Forall_app.
  - by apply sorted_mid in Hs as (_ & _ & ?).
  - intros x Hx. apply Hd. rewrite elem_of_app in Hx. rewrite elem_of_app, elem_of_cons. tauto.
  - rewrite <-Permutation_middle, fmap_cons in Hn. by apply NoDup_cons in Hn as [_ ?].
Qed.

Lemma rep_disjoint s L es : file_rep cfg s L es → all_disjoint (desc_at (pm_arrays (fs_pm s))) L.
Proof.
  intros Hr p q dp dq [i Hi]%list_elem_of_lookup [j Hj]%list_elem_of_lookup Hne Hdp Hdq.
  pose proof (bc_sorted _ _ (rep_chain _ _ _ _ Hr)) as Hs. unfold disjoint_blocks.
  destruct (lt_eq_lt_dec i j) as [[Hij| ->]|Hij].
  - left. eapply (Hs i j); eauto.
  - exfalso. apply Hne. congruence.
  - right. eapply (Hs j i); eauto.
Qed.

Lemma frees_ok_remove arrs data rest es1 d es2 frees arrs' rest' frees' :
  frees_ok arrs data rest (es1 ++ payload d :: es2) frees →
  NoDup rest → (∀ o, o ∈ rest → is_Some (arrs !! Some o)) →
  NoDup (ex_data <$> es1 ++ payload d :: es2) →
  (∀ o, bd_data d = Some o → is_Some (data !! o)) →
  (∀ a, is_Some (arrs !! a) ↔ is_Some (arrs' !! a)) →
  frees_after_remove d frees rest frees' rest' →
  frees_ok arrs' data rest' (es1 ++ es2) frees'.
Proof.
  intros [Ha Hd] Hnd Hrest Hn Hdata Hdom Hfr.
  rewrite <-Permutation_middle, fmap_cons in Hn. apply NoDup_cons in Hn as [Hn1 Hn2]. cbn [payload ex_data] in Hn1.
  assert (frees_ok arrs' data rest (es1 ++ es2) (frees_data d frees)) as [Ha' Hd'].
  { assert (frees_ok arrs' data rest (es1 ++ es2) frees) as [Ha' Hd'].
    { split; [intros o Ho; rewrite <-Hdom; by apply Ha|]. intros o Ho. destruct (Hd o Ho) as [Hx ?]. split; [|done].
      intros Hin. apply Hx. rewrite <-Permutation_middle, fmap_cons. by right. }
    unfold frees_data. destruct (bd_data d) as [o|] eqn:Hbd; [|done]. split.
    - intros o' [?|?]%elem_of_cons; [done|by apply Ha'].
    - intros o' [Heq|?]%elem_of_cons; [|by apply Hd']. injection Heq as ->. split; [done|by apply Hdata]. }
  destruct Hfr as [[-> ->]|(o & -> & ->)]; [done|]. apply NoDup_cons in Hnd as [Hno _]. split.
  - intros o' [Heq|Ho']%elem_of_cons.
    + injection Heq as ->. split; [done|]. apply Hdom, Hrest. by left.
    + destruct (Ha' o' Ho') as [Hx ?]. split; [|done]. intros ?. apply Hx. by right.
  - intros o' [?|?]%elem_of_cons; [done|by apply Hd'].
Qed.

Lemma wp_remove_block_step s L1 p L2 es1 e es2 (k : option bptr → M fstate Z) Q E :
  file_rep cfg s (L1 ++ p :: L2) (es1 ++ e :: es2) → length L1 = length es1 → is_Some (fs_tx s) →
  (∀ s' L1' L2', file_rep cfg s' (L1' ++ L2') (es1 ++ es2) → length L1' = length L1 →
    pm_data (fs_pm s') = pm_data (fs_pm s) → frame s s' → wp (k (last L1')) Q E s') →
  wp (vinode_blocks_remove calloc_ok p;; prev ← block_list_remove calloc_ok p; k prev) Q E s.
Proof.
  destruct s as [[arrs data ino] tx [ff fb blk cnt snap] dr]. intros Hr Hlen [[log frees] Htx] HQ.
  cbn in Htx. subst tx.
  destruct (rep_split _ _ _ _ _ _ Hr) as (es1' & e' & es2' & d & Heq & Hl' & Hd & <- & Hprev & Hnext).
  apply app_inj_1 in Heq as [<- [= -> <-]]; [|congruence].
  pose proof (rep_disjoint _ _ _ Hr) as Hdis.
  pose proof Hr as [(rest & idx & Hs & Hidx & Hff & Hfr) Hnd Hdl Hext Hok Hfirst (m & Hm & Hrep)].
  cbn in *. subst fb blk. destruct (nodup_mid _ _ _ Hnd) as [Hpn Hnd'].
  apply wp_bind. eapply (wp_vinode_blocks_remove calloc_ok _ _ _ _ _ (L1 ++ p :: L2) (L1 ++ L2) p); [done|..].
  { rewrite elem_of_app. right. by left. }
  { intros x. rewrite elem_of_mid. split; [intros Hx; split; [by intros ->|by right]|naive_solver]. }
  intros m1 dr1 Hrep1. apply wp_bind.
  eapply (wp_block_list_remove calloc_ok data ino cnt snap Hcalloc arrs rest idx L1 p L2 d); [done..| | |done|done|].
  { intros q dq Hq Hdq. by eapply rep_sizes. }
  { intros q1 q2 d1 d2 H1 H2. apply Hdis; apply elem_of_mid; by right. }
  intros arrs' rest' idx' log' frees' m' dr' f [Hs' Hi' Hn' Hd' Hk' Hrep' Hdom'] Hfr'.
  rewrite fmap_app in *. apply (HQ _ _ (f <$> L2)); [|by rewrite length_fmap|done|by split].
  split; cbn.
  - exists rest', idx'. split; [done|]. split; [done|]. split; [by right|]. cbn. eapply frees_ok_remove; try done.
    + apply Hs.
    + intros o Ho. destruct (store_array _ _ _ _ (Some o) Hs Ho) as (arr & Harr & _). by eexists.
    + apply Hok.
    + intros o Ho. destruct (es_data _ _ _ Hok (payload d)) as (o' & c & Ho' & Hc).
      { rewrite elem_of_app, elem_of_cons. tauto. }
      cbn in Ho'. simplify_eq. by eexists.
  - done.
  - done.
  - apply Forall2_app_inv in Hext as [H1 H2]; [|done]. inv H2. apply Forall2_app; apply Forall2_fmap_l;
      (eapply forall2_impl_in; [done|]); intros q x Hin Hq; cbn; rewrite <-Hq; apply Hk', elem_of_app; auto.
  - by eapply extents_ok_remove.
  - done.
  - by exists m'.
Qed.

(** ** Zeroing a part of a block *)

Lemma rep_record s L es t u : file_rep cfg s L es → fs_tx s = Some t →
  file_rep cfg (set_tx (Some (Tx (u :: tx_log t) (tx_frees t))) s) L es.
Proof.
  intros [(rest & idx & H1 & H2 & H3 & H4) ? ? ? ? ? ?] Ht. split; [|done..].
  exists rest, idx. split_and!; [done..|]. unfold tx_frees_of in *. by rewrite Ht in H4.
Qed.

Definition zeroed s es from len s' : Prop := ∀ i,
  content (pm_data (fs_pm s')) es i =
  if decide (from ≤ i < from + len) then 0 else content (pm_data (fs_pm s)) es i.

Lemma wp_zero_block s L1 p L2 es1 d es2 from k Q E :
  file_rep cfg s (L1 ++ p :: L2) (es1 ++ payload d :: es2) → length L1 = length es1 →
  is_Some (fs_tx s) → desc_at (pm_arrays (fs_pm s)) p = Some d →
  0 ≤ from → 0 < k → from + k ≤ bd_size d →
  (∀ s', file_rep cfg s' (L1 ++ p :: L2) (es1 ++ payload d :: es2) → frame s s' →
    zeroed s (es1 ++ payload d :: es2) (bd_offset d + from) k s' →
    pm_arrays (fs_pm s') = pm_arrays (fs_pm s) → Q tt s') →
  wp (init ← is_block_data_initialized p; if init : bool then tx_zero_range p from k else mret tt) Q E s.
Proof.
  intros Hr Hlen [t Ht] Hd Hfrom Hk Hsz HQ. unfold is_block_data_initialized. wp_steps.
  eapply wp_desc_get; [done|]. wp_steps. rewrite is_init_eq. destruct (ex_init (payload d)) eqn:Hi.
  - destruct (es_data _ _ _ (fr_ok _ _ _ _ Hr) (payload d)) as (o & c & Ho & Hc);
      [rewrite elem_of_app, elem_of_cons; tauto|]. cbn in Ho.
    unfold tx_zero_range, data_get, data_read. wp_steps. eapply wp_desc_get; [done|]. rewrite Ho. wp_steps.
    rewrite Hc. wp_steps. eapply wp_tx_record; [done|]. eapply wp_data_write; [done|].
    set (s1 := set_tx _ s). set (c' := copy_bytes zero_bytes 0 c from k).
    replace (set_pm _ s1) with (after_write s1 p d o c') by (unfold after_write; by rewrite Hi).
    assert (written (payload d) = payload d) as Hw by (unfold written; by rewrite Hi).
    assert (file_rep cfg s1 (L1 ++ p :: L2) (es1 ++ payload d :: es2)) as Hr1 by (by apply rep_record).
    apply HQ.
    + rewrite <-Hw. by apply after_write_rep.
    + by split.
    + intros i. pose proof (content_after_write cfg s1 _ es1 d es2 o c c' (bd_offset d + from) k zero_bytes 0 i Hr1 Ho Hc) as Hcw.
      rewrite Hw in Hcw. apply Hcw; [lia|done|lia|]. intros j. unfold block_bytes. rewrite Hi.
      by replace (bd_offset d + from - bd_offset d) with from by lia.
    + unfold after_write. by rewrite Hi.
  - wp_steps. apply HQ; [done|apply frame_refl| |done]. intros i. case_decide; [|done].
    rewrite content_at; [unfold ext_byte; by rewrite Hi|apply Hr|]. apply covers_true. unfold ex_end. cbn. lia.
Qed.

(** ** The loop *)

Lemma total_nonneg es : (∀ e, e ∈ es → ext_ok cfg e) → 0 ≤ total es.
Proof.
  induction es as [|e es IH]; intros He; [done|]. rewrite total_cons.
  pose proof (eo_nonempty _ _ (He e ltac:(by left))). assert (0 ≤ total es); [|lia]. apply IH. intros x Hx. apply He. by right.
Qed.

Section loop.
Variables (offset len : Z).
Hypothesis Hoff : 0 ≤ offset.
Hypothesis Hlen : 0 < len.
Hypothesis Hend : offset + len < 2 ^ 64.

(** The extents that lie in the interval, and those that stay. *)
Definition inside (e : extent) : bool := (offset <=? ex_offset e) && (ex_end e <=? offset + len).
Definition outside es : list extent := filter (λ e, inside e = false) es.

Lemma outside_app es1 es2 : outside (es1 ++ es2) = outside es1 ++ outside es2.
Proof. apply filter_app. Qed.

Lemma outside_id es : (∀ e, e ∈ es → inside e = false) → outside es = es.
Proof.
  induction es as [|e es IH]; intros He; [done|]. unfold outside. rewrite filter_cons_True by (apply He; by left).
  f_equal. apply IH. intros x Hx. apply He. by right.
Qed.

Lemma inside_contained d : ext_ok cfg (payload d) →
  is_block_contained_by_interval d offset len = inside (payload d).
Proof.
  intros He. unfold is_block_contained_by_interval, inside.
  change (bd_offset d + bd_size d) with (ex_offset (payload d) + ex_size (payload d)).
  rewrite (ext_end_u64 cfg) by done. unfold u64 at 1. by rewrite Z.mod_small by lia.
Qed.

(** What the loop does to the file, when the blocks [es2] are done. *)
Definition punched s es s' es' : Prop :=
  es' = outside es ∧ frame s s' ∧ ∀ i, content (pm_data (fs_pm s')) es' i =
    if decide (offset ≤ i < offset + len) then 0 else content (pm_data (fs_pm s)) es i.

Definition cleared s es2 : Prop :=
  outside es2 = es2 ∧ ∀ i, offset ≤ i < offset + len → content (pm_data (fs_pm s)) es2 i = 0.

(** Nothing of the file lies in the interval any more. *)
Lemma punched_done s es1 es2 : (∀ e, e ∈ es1 → ext_ok cfg e ∧ ex_end e ≤ offset) → cleared s es2 →
  punched s (es1 ++ es2) s (es1 ++ es2).
Proof.
  intros H1 [Ho2 Hc2]. split; [|split; [apply frame_refl|]].
  - rewrite outside_app, Ho2, outside_id; [done|]. intros e He. destruct (H1 e He) as [[] ?].
    unfold inside, ex_end in *. apply andb_false_iff. left. apply Z.leb_gt. lia.
  - intros i. case_decide as Hi; [|done]. rewrite content_skip; [by apply Hc2|].
    intros e He. destruct (H1 e He). apply covers_false. lia.
Qed.

Lemma sorted_before_mid s L es1 e es2 x : file_rep cfg s L (es1 ++ e :: es2) → x ∈ es1 → ex_end x ≤ ex_offset e.
Proof. intros Hr Hx. by apply (sorted_mid _ _ _ (es_sorted _ _ _ (fr_ok _ _ _ _ Hr))). Qed.

Lemma sorted_after_mid s L es1 e es2 x : file_rep cfg s L (es1 ++ e :: es2) → x ∈ es2 → ex_end e ≤ ex_offset x.
Proof. intros Hr Hx. by apply (sorted_mid _ _ _ (es_sorted _ _ _ (fr_ok _ _ _ _ Hr))). Qed.

(** Zeroing the common part of the interval and the block [e] clears [e :: es2]. *)
Lemma cleared_zeroed s s' L es1 e es2 from k : file_rep cfg s L (es1 ++ e :: es2) → cleared s es2 →
  inside e = false → zeroed s (es1 ++ e :: es2) from k s' →
  (∀ i, ex_offset e ≤ i < ex_end e → offset ≤ i < offset + len → from ≤ i < from + k) →
  cleared s' (e :: es2).
Proof.
  intros Hr [Ho2 Hc2] Hi Hz Hk. split.
  { unfold outside in *. by rewrite filter_cons_True, Ho2. }
  intros i Hin. destruct (decide (i < ex_offset e)) as [Hlt|Hge].
  - apply content_hole. intros x [-> |Hx]%elem_of_cons; apply covers_false; [lia|].
    pose proof (sorted_after_mid _ _ _ _ _ _ Hr Hx).
    destruct (rep_ext _ _ _ _ e Hr); [rewrite elem_of_mid; by left|]. unfold ex_end in *. lia.
  - assert (∀ data, content data (es1 ++ e :: es2) i = content data (e :: es2) i) as Hskip.
    { intros data. apply content_skip. intros x Hx. pose proof (sorted_before_mid _ _ _ _ _ _ Hr Hx).
      apply covers_false. lia. }
    rewrite <-Hskip, Hz. case_decide as Hz'; [done|]. rewrite Hskip. cbn.
    destruct (covers e i) eqn:Hcov; [|by apply Hc2]. apply covers_true in Hcov. naive_solver.
Qed.

Lemma punched_zeroed s s1 s' es es' from k : punched s1 es s' es' → frame s s1 →
  zeroed s es from k s1 → offset ≤ from → from + k ≤ offset + len → punched s es s' es'.
Proof.
  intros (-> & Hf & Hc) Hf1 Hz Hfrom Hk. split; [done|]. split; [by eapply frame_trans|].
  intros i. rewrite Hc. case_decide; [done|]. rewrite Hz, decide_False by lia. done.
Qed.

Definition remove_spec (fuel : nat) : Prop := ∀ s L1 L2 es1 es2 acc Q E,
  file_rep cfg s (L1 ++ L2) (es1 ++ es2) → length L1 = length es1 → (length L1 ≤ fuel)%nat →
  is_Some (fs_tx s) → (∀ e, e ∈ es1 → ex_offset e < offset + len) → cleared s es2 →
  0 ≤ acc → acc + total es1 < 2 ^ 64 →
  (∀ s' L' es', file_rep cfg s' L' es' → punched s (es1 ++ es2) s' es' →
    Q (acc + (total (es1 ++ es2) - total es')) s') →
  wp (remove_loop calloc_ok fuel (last L1) offset len acc) Q E s.


Lemma wp_remove_inside fuel s L1 p L2 es1 d es2 acc Q E : remove_spec fuel →
  file_rep cfg s (L1 ++ p :: L2) (es1 ++ payload d :: es2) → length L1 = length es1 → (length L1 ≤ fuel)%nat →
  is_Some (fs_tx s) → (∀ e, e ∈ es1 → ex_offset e < offset + len) → cleared s es2 →
  0 ≤ acc → acc + ex_size (payload d) + total es1 < 2 ^ 64 → inside (payload d) = true →
  (∀ s' L' es', file_rep cfg s' L' es' → punched s (es1 ++ payload d :: es2) s' es' →
    Q (acc + (total (es1 ++ payload d :: es2) - total es')) s') →
  wp (vinode_blocks_remove calloc_ok p;; prev ← block_list_remove calloc_ok p;
      remove_loop calloc_ok fuel prev offset len (u64 (acc + bd_size d))) Q E s.
Proof.
  intros IH Hr Hl Hfuel Htx Hlt Hcl Hacc Hsum Hin HQ. pose proof (eo_nonempty _ _ (rep_ext _ _ _ _ (payload d) Hr
    ltac:(rewrite elem_of_mid; by left))) as Hpos. cbn [payload ex_size] in Hpos, Hsum.
  assert (0 ≤ total es1) by (apply total_nonneg; intros e He; apply (rep_ext _ _ _ _ e Hr); rewrite elem_of_app; by left).
  eapply (wp_remove_block_step s L1 p L2 es1 (payload d) es2 (λ prev, remove_loop _ _ prev _ _ _)); [done..|].
  intros s' L1' L2' Hr' Hl' Hd' Hf. unfold u64. rewrite Z.mod_small by lia.
  eapply IH; [exact Hr'|lia|lia|by apply Hf|done| |lia|lia|].
  { unfold cleared in *. by rewrite Hd'. }
  intros s2 L2'' es' Hr2 (-> & Hf2 & Hc2).
  replace (acc + bd_size d + _) with (acc + (total (es1 ++ payload d :: es2) - total (outside (es1 ++ es2))))
    by (rewrite total_mid; cbn; lia).
  eapply HQ; [exact Hr2|]. split; [|split; [by eapply frame_trans|]].
  - rewrite !outside_app. f_equal. unfold outside. rewrite filter_cons_False; [done|]. by rewrite Hin.
  - intros i. rewrite Hc2, Hd'. case_decide; [done|]. rewrite content_drop; [done|].
    unfold inside in Hin. b2p. apply covers_false. lia.
Qed.

Lemma wp_remove_edge fuel s L1 p L2 es1 d es2 from k acc Q E : remove_spec fuel →
  file_rep cfg s (L1 ++ p :: L2) (es1 ++ payload d :: es2) → length L1 = length es1 → (length L1 ≤ fuel)%nat →
  desc_at (pm_arrays (fs_pm s)) p = Some d → bd_prev d = last L1 →
  is_Some (fs_tx s) → (∀ e, e ∈ es1 → ex_offset e < offset + len) → cleared s es2 →
  0 ≤ acc → acc + total es1 < 2 ^ 64 → inside (payload d) = false →
  0 ≤ from → 0 < k → from + k ≤ bd_size d →
  bd_offset d + from = Z.max offset (bd_offset d) →
  bd_offset d + from + k = Z.min (offset + len) (bd_offset d + bd_size d) →
  (∀ s' L' es', file_rep cfg s' L' es' → punched s (es1 ++ payload d :: es2) s' es' →
    Q (acc + (total (es1 ++ payload d :: es2) - total es')) s') →
  wp ((init ← is_block_data_initialized p; if init : bool then tx_zero_range p from k else mret tt);;
      d ← desc_get p; remove_loop calloc_ok fuel (bd_prev d) offset len acc) Q E s.
Proof.
  intros IH Hr Hl Hfuel Hd Hprev Htx Hlt Hcl Hacc Hsum Hin Hf Hk Hfk Hfrom Hto HQ.
  apply wp_bind. eapply wp_zero_block; [done..|]. intros s1 Hr1 Hf1 Hz Harr. apply wp_bind.
  eapply wp_desc_get; [by rewrite Harr|]. rewrite Hprev.
  eapply IH; [exact Hr1|done|lia|by apply Hf1|done| |done|done|].
  - eapply (cleared_zeroed s); [exact Hr|done|done|exact Hz|]. unfold ex_end. cbn. lia.
  - intros s' L' es' Hr' Hp'. eapply HQ; [done|]. eapply punched_zeroed; [done..| |]; lia.
Qed.

Lemma wp_remove_in_block s L1 p L2 es1 d es2 acc Q E :
  file_rep cfg s (L1 ++ p :: L2) (es1 ++ payload d :: es2) → length L1 = length es1 →
  desc_at (pm_arrays (fs_pm s)) p = Some d → is_Some (fs_tx s) → cleared s es2 →
  bd_offset d < offset → offset + len < bd_offset d + bd_size d →
  (∀ s' L' es', file_rep cfg s' L' es' → punched s (es1 ++ payload d :: es2) s' es' →
    Q (acc + (total (es1 ++ payload d :: es2) - total es')) s') →
  wp (init ← is_block_data_initialized p;
      (if init : bool then tx_zero_range p (u64 (offset - bd_offset d)) len else mret tt);;
      mret acc) Q E s.
Proof.
  intros Hr Hl Hd Htx [Ho2 Hc2] Hb1 Hb2 HQ. destruct (rep_ext _ _ _ _ (payload d) Hr) as [_ _ Hp0 _ _ _];
    [rewrite elem_of_mid; by left|]. cbn in Hp0. unfold u64. rewrite Z.mod_small by lia.
  apply wp_assoc, wp_bind. eapply (wp_zero_block s L1 p L2 es1 d es2); [done..|lia|lia|lia|].
  intros s1 Hr1 Hf1 Hz _. wp_steps. replace acc with (acc + (total (es1 ++ payload d :: es2) - total (es1 ++ payload d :: es2))) by lia.
  eapply HQ; [exact Hr1|]. split; [|split; [done|]].
  - symmetry. rewrite outside_app, outside_id; last first.
    { intros e He. pose proof (sorted_before_mid _ _ _ _ _ _ Hr He). cbn in *.
      destruct (rep_ext _ _ _ _ e Hr) as [_ _ _ ? _ _]; [rewrite elem_of_app; by left|].
      unfold inside, ex_end in *. apply andb_false_iff. left. apply Z.leb_gt. lia. }
    unfold outside in *. rewrite filter_cons_True; [by rewrite Ho2|].
    unfold inside. apply andb_false_iff. left. apply Z.leb_gt. cbn. lia.
  - intros i. rewrite Hz. by repeat case_decide; try lia.
Qed.

Lemma remove_loop_ok fuel : remove_spec fuel.
Proof.
  induction fuel as [|fuel IH]; intros s L1 L2 es1 es2 acc Q E Hr Hl Hfuel Htx Hlt Hcl Hacc Hsum HQ;
    (destruct L1 as [|p L1 _] using rev_ind;
     [destruct es1; [|done]; cbn; wp_steps;
      replace acc with (acc + (total es2 - total es2)) by lia; eapply (HQ s L2 es2); [done|];
      apply (punched_done s []); [by intros ? ?%elem_of_nil|done]|]).
  { rewrite length_app in Hfuel. cbn in Hfuel. lia. }
  rewrite last_snoc. destruct es1 as [|e es1 _] using rev_ind; [rewrite length_app in Hl; cbn in Hl; lia|].
  rewrite (length_app es1), length_app in Hl. rewrite length_app in Hfuel. cbn in Hl, Hfuel. rewrite <-!app_assoc in *. cbn [app] in *.
  destruct (rep_split _ _ _ _ _ _ Hr) as (es1' & e' & es2' & d & Heq & Hl' & Hd & <- & Hprev & _).
  apply app_inj_1 in Heq as [<- [= -> <-]]; [|lia].
  pose proof (rep_ext _ _ _ _ (payload d) Hr ltac:(rewrite elem_of_mid; by left)) as Hext.
  destruct (Hext) as [_ _ Hp0 Hp1 _ Hp2]. unfold ex_end in Hp2. cbn in Hp0, Hp1, Hp2. unfold MIN_BLOCK_SIZE in Hp2.
  assert (bd_offset d < offset + len) as Hdlt by (apply (Hlt (payload d)); rewrite elem_of_app; right; by left).
  assert (∀ e, e ∈ es1 → ex_offset e < offset + len) as Hlt' by (intros x Hx; apply Hlt; rewrite elem_of_app; by left).
  rewrite total_app in Hsum. cbn [total foldr payload ex_size] in Hsum.
  assert (u64 (bd_offset d + bd_size d) = bd_offset d + bd_size d) as Hu1 by (apply Z.mod_small; lia).
  assert (u64 (offset + len) = offset + len) as Hu2 by (apply Z.mod_small; lia).
  cbn [remove_loop]. apply wp_bind. eapply wp_desc_get; [done|]. rewrite Hu1. zcase (offset <? bd_offset d + bd_size d).
  2:{ wp_steps. replace acc with (acc + (total (es1 ++ payload d :: es2) - total (es1 ++ payload d :: es2))) by lia.
      eapply HQ; [done|].
      rewrite cons_middle, app_assoc. apply punched_done; [|done]. intros x Hx. split.
      - eapply rep_ext; [exact Hr|]. rewrite cons_middle, app_assoc, elem_of_app. by left.
      - rewrite elem_of_app, list_elem_of_singleton in Hx. destruct Hx as [Hx| ->]; [|unfold ex_end; cbn; lia].
        pose proof (sorted_before_mid _ _ _ _ _ _ Hr Hx). cbn in *. lia. }
  rewrite inside_contained by done. destruct (inside (payload d)) eqn:Hin.
  { eapply wp_remove_inside; try done; [lia..|cbn; lia]. }
  unfold inside, ex_end in Hin. cbn in Hin. apply andb_false_iff in Hin.
  assert (inside (payload d) = false) as Hin' by (unfold inside, ex_end; cbn; by apply andb_false_iff).
  unfold is_interval_contained_by_block. rewrite Hu1, Hu2. zcase ((bd_offset d <? offset) && (offset + len <? bd_offset d + bd_size d)).
  { by eapply wp_remove_in_block. }
  apply wp_bind. unfold is_block_at_right_edge. wp_steps; [by rewrite inside_contained, Hin'|].
  rewrite Hu1, Hu2. zcase (offset + len <? bd_offset d + bd_size d).
  - assert (offset ≤ bd_offset d) by (destruct Heqb0; b2p; lia).
    unfold u64. rewrite Z.mod_small by lia. apply wp_bind_inv; eapply wp_remove_edge; try done; lia.
  - assert (bd_offset d < offset) by (destruct Hin; b2p; lia).
    unfold u64. rewrite (Z.mod_small (offset - bd_offset d)) by lia.
    rewrite Z.mod_small by lia. apply wp_bind_inv; eapply wp_remove_edge; try done; lia.
Qed.
End loop.

(** ** The whole operation *)

Lemma elem_of_all_slots arrs p : is_Some (desc_at arrs p) → p ∈ all_slots arrs.
Proof.
  destruct p as [a i]. intros [d Hd]. unfold desc_at in Hd. cbn in Hd.
  destruct (arrs !! a) as [arr|] eqn:Ha; [|done]. cbn in Hd. unfold all_slots. apply list_elem_of_bind.
  exists (a, arr). split; [|by apply elem_of_map_to_list]. apply list_elem_of_fmap. exists i. split; [done|].
  apply elem_of_seq. apply lookup_lt_Some in Hd. lia.
Qed.

(** The walk over the blocks of a file never needs more steps than there are
    descriptor slots. *)
Lemma rep_walk_fuel s L es : file_rep cfg s L es → (length L < walk_fuel s)%nat.
Proof.
  intros Hr. unfold walk_fuel. apply le_n_S, submseteq_length, NoDup_submseteq; [apply Hr|].
  intros p Hp. apply elem_of_all_slots. by eapply dll_link_in; [apply Hr|].
Qed.

Definition invalidate s : fstate :=
  set_v (set_counter (u64 (v_block_pointer_invalidation_counter (fs_v s) + 1)) (fs_v s)) s.

Lemma rep_invalidate s L es : file_rep cfg s L es → file_rep cfg (invalidate s) L es.
Proof. intros []. by split. Qed.

Lemma wp_vinode_remove_interval s L es offset len Q E :
  file_rep cfg s L es → is_Some (fs_tx s) → 0 ≤ offset → 0 < len → offset + len < 2 ^ 64 →
  (∀ s' L' es', file_rep cfg s' L' es' → punched offset len (invalidate s) es s' es' →
    Q (total es - total es') s') →
  wp (vinode_remove_interval calloc_ok offset len) Q E s.
Proof.
  intros Hr [t Ht] Ho Hl Hb HQ. unfold vinode_remove_interval. apply wp_bind. eapply wp_assert_in_tx; [done|].
  wp_steps; [by apply Z.ltb_lt|]. apply rep_invalidate in Hr as Hr1. fold (invalidate s).
  unfold u64. rewrite Z.mod_small by lia. pose proof (rep_total _ _ _ _ Hr) as Htot.
  eapply wp_find_closest_block; [exact Hr1|lia|..].
  - intros Hno. wp_steps. eapply (remove_loop_ok _ _ Ho Hl Hb _ _ [] L [] es); [done|done|cbn; lia|by exists t|by intros ? ?%elem_of_nil| |done|done|].
    + split; [|intros i Hi; apply content_hole; intros e He; specialize (Hno e He); apply covers_false; lia].
      apply outside_id. intros e He. specialize (Hno e He). destruct (rep_ext _ _ _ _ e Hr He). unfold inside, ex_end in *.
      apply andb_false_iff. right. apply Z.leb_gt. lia.
    + intros s' L' es' Hr' Hp. by eapply HQ.
  - intros L1 p L2 es1 e es2 -> -> Hlen Hle Haft. wp_steps.
    pose proof (rep_walk_fuel _ _ _ Hr1) as Hfuel. rewrite length_app in Hfuel. cbn in Hfuel.
    assert (L1 ++ p :: L2 = (L1 ++ [p]) ++ L2) as HL by (by rewrite <-app_assoc).
    assert (es1 ++ e :: es2 = (es1 ++ [e]) ++ es2) as He by (by rewrite <-app_assoc).
    rewrite He in HQ, Htot, Hr, Hr1. rewrite HL in Hr1.
    replace (Some p) with (last (L1 ++ [p])) by apply last_snoc.
    eapply (remove_loop_ok _ _ Ho Hl Hb _ _ (L1 ++ [p]) L2 (es1 ++ [e]) es2); [done| | |by exists t| | |done| |].
    + rewrite !length_app. cbn. lia.
    + rewrite length_app. cbn. lia.
    + intros x Hx. rewrite elem_of_app, list_elem_of_singleton in Hx. destruct Hx as [Hx| ->]; [|lia].
      rewrite <-app_assoc in Hr; cbn in Hr; pose proof (sorted_before_mid _ _ _ _ _ _ Hr Hx).
      destruct (rep_ext _ _ _ _ x Hr); [rewrite elem_of_app; by left|]. unfold ex_end in *. lia.
    + split; [|intros i Hi; apply content_hole; intros x Hx; specialize (Haft x Hx); apply covers_false; lia].
      apply outside_id. intros x Hx. specialize (Haft x Hx). destruct (rep_ext _ _ _ _ x Hr); [rewrite elem_of_app; by right|].
      unfold inside, ex_end in *. apply andb_false_iff. right. apply Z.leb_gt. lia.
    + rewrite total_app in Htot. assert (0 ≤ total es2); [|lia]. apply total_nonneg. intros x Hx.
      eapply rep_ext; [exact Hr|]. rewrite elem_of_app. by right.
    + intros s' L' es' Hr' Hp. by eapply HQ.
Qed.
End remove.

(** C27: [vinode_remove_interval] punches a hole.  Afterwards every byte of
    the interval reads as zero and every other byte is what it was; exactly
    the blocks that lie inside the interval are gone, and the result is the
    space they occupied; the invariant of the file holds and the counter that
    invalidates cached block pointers was incremented. *)
Theorem vinode_remove_interval_correct cfg bs calloc_ok s L es offset len :
  cfg_wf cfg bs → (∀ k, calloc_ok k = true) → file_rep cfg s L es → is_Some (fs_tx s) →
  0 ≤ offset → 0 < len → offset + len < 2 ^ 64 →
  wp (vinode_remove_interval calloc_ok offset len)
    (λ r s', ∃ L', file_rep cfg s' L' (outside offset len es) ∧
      punched offset len (invalidate s) es s' (outside offset len es) ∧
      r = total es - total (outside offset len es))
    noabort s.
Proof.
  intros Hcfg Hcalloc Hr Htx Ho Hl Hb. eapply wp_vinode_remove_interval; [done..|].
  intros s' L' es' Hr' Hp. pose proof Hp as (-> & _). by exists L'.
Qed.

Lemma vinode_remove_interval_witness : ∃ (L : list bptr) (es : list extent), es ≠ [] ∧
  wp (vinode_remove_interval Ex.calloc 30000 60000)
    (λ r s', ∃ L', file_rep default_cfg s' L' (outside 30000 60000 es) ∧
      punched 30000 60000 (invalidate ExAlloc.file1) es s' (outside 30000 60000 es) ∧
      r = total es - total (outside 30000 60000 es))
    noabort ExAlloc.file1.
Proof.
  destruct ExAlloc.rep1 as (L & es & Hr & Hc). exists L, es. split.
  - intros ->. destruct (Hc 20000 ltac:(lia)) as (e & He & _). by apply elem_of_nil in He.
  - apply (vinode_remove_interval_correct default_cfg _ Ex.calloc _ L es 30000 60000 default_cfg_wf);
      [done|done|apply ExAlloc.tx1|lia|lia|lia].
Defined.
