(* ===== verification/FileTx.v ===== *)
(** Transactions on a file as a whole: what is on the medium ([disk_rep]),
    committing, rebuilding the volatile tree of blocks from the medium
    ([vinode_rebuild_block_tree] of data.c). *)
From stdpp Require Import sorting.
From S2P Require Import Prelude Layout Inode Blocks OffsetMap OffsetMapRep FileState BlockList.
From S2P Require Import BlockArray BlockArrayRep Data FileRep DataAlloc DataIO DataRemove.

(** The persistent part of the invariant: it says nothing about the tree and
    the pointer to the first block. *)
Record disk_rep (cfg : block_cfg) (s : fstate) (L : list bptr) (es : list extent) : Prop := {
  dr_store : store_of s L es;
  dr_nodup : NoDup L;
  dr_dll : dll (desc_at (pm_arrays (fs_pm s))) None L None;
  dr_ext : Forall2 (λ p e, payload_at (desc_at (pm_arrays (fs_pm s))) p = Some e) L es;
  dr_ok : extents_ok cfg (pm_data (fs_pm s)) es;
}.

Section disk.
Variables (cfg : block_cfg) (bs : list pmem_block_info) (calloc_ok : nat → bool).
Hypothesis Hcfg : cfg_wf cfg bs.
Hypothesis Hcalloc : ∀ k, calloc_ok k = true.
Implicit Types (s : fstate) (L V : list bptr) (es : list extent).

Lemma file_disk_rep s L es : file_rep cfg s L es → disk_rep cfg s L es.
Proof. by intros []. Qed.

(** The tree and the pointer to the first block are not on the medium. *)
Lemma disk_rep_volatile s L es c f :
  disk_rep cfg s L es → disk_rep cfg (set_v (set_blocks c (set_first_block f (fs_v s))) s) L es.
Proof. intros [H1 H2 H3 H4 H5]. by split. Qed.

(** ** Commit *)

Lemma apply_frees_arrays frees pm a : (∀ o, FreeArray o ∈ frees → a ≠ Some o) →
  pm_arrays (foldr apply_free pm frees) !! a = pm_arrays pm !! a.
Proof.
  induction frees as [|[o|o] frees IH]; intros Ha; [done|..]; cbn.
  - rewrite lookup_delete_ne; [|symmetry; apply Ha; by left]. apply IH. intros o' Ho'. apply Ha. by right.
  - apply IH. intros o' Ho'. apply Ha. by right.
Qed.

Lemma apply_frees_data frees pm o : FreeData o ∉ frees →
  pm_data (foldr apply_free pm frees) !! o = pm_data pm !! o.
Proof.
  induction frees as [|[o'|o'] frees IH]; intros Ha; [done|..]; cbn; rewrite elem_of_cons in Ha.
  - apply IH. tauto.
  - rewrite lookup_delete_ne; [apply IH; tauto|]. intros ->. tauto.
Qed.

Lemma apply_frees_inode frees pm : pm_inode (foldr apply_free pm frees) = pm_inode pm.
Proof. by induction frees as [|[o|o] frees IH]. Qed.

(** Committing a transaction releases only what the file does not use. *)
Lemma disk_rep_commit s L es t : disk_rep cfg s L es → fs_tx s = Some t →
  disk_rep cfg (tx_commit t s) L es ∧
  ∀ i, content (pm_data (fs_pm (tx_commit t s))) es i = content (pm_data (fs_pm s)) es i.
Proof.
  intros [(rest & idx & Hs & Hidx & Hff & Hfr1 & Hfr2) Hnd Hd Hext Hok] Ht.
  unfold tx_frees_of in Hfr1, Hfr2. rewrite Ht in Hfr1, Hfr2.
  set (pm' := foldr apply_free (fs_pm s) (tx_frees t)).
  assert (∀ a, in_chain rest a → pm_arrays pm' !! a = pm_arrays (fs_pm s) !! a) as Ha.
  { intros a Hin. apply apply_frees_arrays. intros o Ho ->. by apply (Hfr1 o Ho). }
  assert (∀ p, in_chain rest p.1 → desc_at (pm_arrays pm') p = desc_at (pm_arrays (fs_pm s)) p) as Hdesc.
  { intros p Hp. unfold desc_at. by rewrite Ha. }
  assert (∀ p, p ∈ L → desc_at (pm_arrays pm') p = desc_at (pm_arrays (fs_pm s)) p) as HdescL.
  { intros p Hp. apply Hdesc. by apply (st_in _ _ _ _ Hs). }
  assert (∀ e o, e ∈ es → ex_data e = Some o → pm_data pm' !! o = pm_data (fs_pm s) !! o) as Hdata.
  { intros e o He Ho. apply apply_frees_data. intros Hin. destruct (Hfr2 o Hin) as [Hx _].
    apply Hx, list_elem_of_fmap. by exists e. }
  split; [split|]; cbn; fold pm'.
  - exists rest, idx. cbn. fold pm'. split_and!; [|done|done|by split; intros ? ?%elem_of_nil].
    destruct Hs as [Hc Hn Hl Hp Hu Hf Hi Hx]. split; [|done|..].
    + eapply array_chain_mono; [|done]. intros b arr Hb Harr. exists arr. split; [|done].
      rewrite Ha; [done|]. by destruct Hb as [-> | [? _]].
    + intros a arr Hin. rewrite Ha by done. by apply Hl.
    + intros a arr Hin. rewrite Ha by done. by apply Hp.
    + intros p Hin. rewrite Hdesc by done. by apply Hu.
    + intros p d Hin. rewrite Hdesc by done. by apply Hf.
    + intros p Hin. rewrite HdescL by done. by apply Hi.
    + rewrite Ha by apply in_chain_first_array. done.
  - done.
  - eapply dll_frame; [|done]. intros q Hq. unfold link. by rewrite HdescL.
  - eapply forall2_impl_in; [done|]. intros q e Hq. unfold payload_at. by rewrite HdescL.
  - destruct Hok as [? ? Hdat ?]. split; [done|done| |done]. intros e He. destruct (Hdat e He) as (o & c & Ho & Hc).
    exists o, c. by rewrite (Hdata e).
  - intros i. by apply content_ext.
Qed.

Lemma file_rep_commit s L es t : file_rep cfg s L es → fs_tx s = Some t →
  file_rep cfg (tx_commit t s) L es.
Proof.
  intros Hr Ht. destruct (disk_rep_commit _ _ _ _ (file_disk_rep _ _ _ Hr) Ht) as [[H1 H2 H3 H4 H5] _].
  pose proof (fr_first _ _ _ _ Hr) as Hf. destruct (fr_map _ _ _ _ Hr) as (m & Hm & Hrep).
  split; [done..|]. exists m. split; [done|]. eapply om_rep_payload; [|exact Hrep]. intros q Hq.
  destruct (proj1 (list_elem_of_lookup _ _) Hq) as [i Hi].
  destruct (Forall2_lookup_l _ _ _ _ _ H4 Hi) as (e & He & ->).
  destruct (Forall2_lookup_l _ _ _ _ _ (fr_ext _ _ _ _ Hr) Hi) as (e' & He' & ->). congruence.
Qed.

(** ** Rebuilding the tree *)

Lemma disk_disjoint s L es : disk_rep cfg s L es → all_disjoint (desc_at (pm_arrays (fs_pm s))) L.
Proof.
  intros [_ _ _ Hext Hok] p q dp dq [i Hi]%list_elem_of_lookup [j Hj]%list_elem_of_lookup Hne Hdp Hdq.
  destruct (Forall2_lookup_l _ _ _ _ _ Hext Hi) as (ei & Hei & Hpi).
  destruct (Forall2_lookup_l _ _ _ _ _ Hext Hj) as (ej & Hej & Hpj).
  unfold payload_at in Hpi, Hpj. rewrite Hdp in Hpi. rewrite Hdq in Hpj. simplify_eq/=.
  pose proof (es_sorted _ _ _ Hok) as Hs. unfold disjoint_blocks.
  destruct (lt_eq_lt_dec i j) as [[Hij| ->]|Hij]; [left|exfalso; apply Hne; congruence|right];
    [pose proof (sorted_lookup_lt _ _ _ _ _ _ Hs Hij Hei Hej) as Hb|
     pose proof (sorted_lookup_lt _ _ _ _ _ _ Hs Hij Hej Hei) as Hb]; apply Hb.
Qed.

Lemma disk_desc s L es p : disk_rep cfg s L es → p ∈ L →
  ∃ d, desc_at (pm_arrays (fs_pm s)) p = Some d ∧ payload d ∈ es ∧ ext_ok cfg (payload d).
Proof.
  intros [_ _ _ Hext Hok] [i Hi]%list_elem_of_lookup.
  destruct (Forall2_lookup_l _ _ _ _ _ Hext Hi) as (e & He & Hp). unfold payload_at in Hp.
  destruct (desc_at _ p) as [d|]; [|done]. simplify_eq/=. exists d.
  assert (payload d ∈ es) as Hin by (by eapply list_elem_of_lookup_2).
  split_and!; [done|done|]. pose proof (es_ext _ _ _ Hok) as HF. rewrite Forall_forall in HF. by apply HF.
Qed.

(** The candidate for the first block among the blocks visited so far. *)
Definition first_of (mem : bptr → option block_desc) V (first : option bptr) : Prop :=
  match first with
  | None => V = []
  | Some f => f ∈ V ∧ ∀ q df dq, q ∈ V → mem f = Some df → mem q = Some dq → bd_offset df ≤ bd_offset dq
  end.

Lemma first_of_snoc mem V first p dp : mem p = Some dp → first_of mem V first →
  (∀ f, first = Some f → is_Some (mem f)) →
  first_of mem (V ++ [p])
    (match first with
     | None => Some p
     | Some f => match mem f with
                 | Some df => if bd_offset dp <? bd_offset df then Some p else Some f
                 | None => Some f end
     end).
Proof.
  intros Hp Hf Hsome. destruct first as [f|]; cbn in Hf.
  - destruct Hf as [Hin Hmin]. destruct (Hsome f eq_refl) as [df Hdf]. rewrite Hdf.
    zcase (bd_offset dp <? bd_offset df); cbn; (split; [rewrite elem_of_app, list_elem_of_singleton; tauto|]);
      intros q d1 d2 [Hq| ->%list_elem_of_singleton]%elem_of_app Hd1 Hd2; simplify_eq; try lia.
    + specialize (Hmin q df d2 Hq Hdf Hd2). lia.
    + by eapply Hmin.
  - subst V. cbn. split; [by left|]. intros q d1 d2 ->%list_elem_of_singleton ? ?. simplify_eq. lia.
Qed.

Definition slots (a : aid) (n : nat) : list bptr := (λ j, (a, j)) <$> seq 0 n.

Lemma slots_S a n : slots a (S n) = slots a n ++ [(a, n)].
Proof. unfold slots. by rewrite seq_S, fmap_app. Qed.

Lemma elem_of_slots a n p : p ∈ slots a n ↔ p.1 = a ∧ (p.2 < n)%nat.
Proof.
  unfold slots. rewrite list_elem_of_fmap. setoid_rewrite elem_of_seq. destruct p as [b j]. cbn. split.
  - intros (k & [= -> ->] & Hk). split; [done|lia].
  - intros [-> Hj]. exists j. split; [done|lia].
Qed.

(** How many slots of an array of the chain are in use. *)
Definition used_slots (rest : list oid) (idx : nat) (a : aid) (arr : block_array) : nat :=
  if decide (a = first_array rest) then idx else length (ba_blocks arr).

Section rebuild.
Variables (s : fstate) (L : list bptr) (es : list extent) (rest : list oid) (idx : nat).
Hypothesis Hrep : disk_rep cfg s L es.
Notation mem := (desc_at (pm_arrays (fs_pm s))).
Hypothesis Hs : store_ok (pm_arrays (fs_pm s)) rest idx L.

Lemma used_slots_le a arr : in_chain rest a → pm_arrays (fs_pm s) !! a = Some arr →
  (used_slots rest idx a arr ≤ length (ba_blocks arr))%nat.
Proof.
  intros Hc Ha. unfold used_slots. case_decide as Hf; [|done]. destruct (st_idx _ _ _ _ Hs) as (arr' & Ha' & Hle).
  subst a. rewrite Ha in Ha'. injection Ha' as <-. by rewrite <-(st_len _ _ _ _ Hs _ _ Hc Ha).
Qed.

Lemma used_slot a arr i d : in_chain rest a → pm_arrays (fs_pm s) !! a = Some arr →
  mem (a, i) = Some d → ((a, i) ∈ L ↔ (i < used_slots rest idx a arr)%nat).
Proof.
  intros Hc Ha Hd. rewrite (st_used _ _ _ _ Hs (a, i)) by (done || by eexists). cbn. unfold used_slots.
  unfold desc_at in Hd. cbn in Hd. rewrite Ha in Hd. cbn in Hd. apply lookup_lt_Some in Hd.
  case_decide; naive_solver lia.
Qed.

Lemma first_some V first : (∀ p, p ∈ V → p ∈ L) → first_of mem V first → ∀ f, first = Some f → is_Some (mem f).
Proof.
  intros HV Hf f ->. destruct Hf as [Hin _]. destruct (disk_desc _ _ _ f Hrep (HV f Hin)) as (d & ? & _). by eexists.
Qed.

Lemma wp_rebuild_array a arr V0 Q E : in_chain rest a → pm_arrays (fs_pm s) !! a = Some arr →
  (∀ p, p ∈ V0 → p ∈ L) → (∀ p, p ∈ V0 → p.1 ≠ a) →
  ∀ n i c first d, (n + i = length (ba_blocks arr))%nat → (i ≤ used_slots rest idx a arr)%nat →
  om_rep mem c (V0 ++ slots a i) → first_of mem (V0 ++ slots a i) first →
  (∀ c' first' d', om_rep mem c' (V0 ++ slots a (used_slots rest idx a arr)) →
    first_of mem (V0 ++ slots a (used_slots rest idx a arr)) first' → Q (0, c', first') (set_dram d' s)) →
  wp (rebuild_array calloc_ok a n i c first) Q E (set_dram d s).
Proof.
  intros Hc Ha HV0 HVa n. induction n as [|n IH]; intros i c first d Hn Hi Hom Hfirst HQ; cbn [rebuild_array].
  { pose proof (used_slots_le a arr Hc Ha). wp_steps.
    replace (used_slots rest idx a arr) with i in HQ by lia. by apply HQ. }
  apply wp_bind, wp_get_st. apply wp_bind.
  assert (is_Some (mem (a, i))) as [di Hdi].
  { unfold desc_at. cbn. rewrite Ha. cbn. apply lookup_lt_is_Some. lia. }
  eapply wp_desc_get; [exact Hdi|]. pose proof (used_slot a arr i di Hc Ha Hdi) as Hu.
  destruct (decide (i < used_slots rest idx a arr)%nat) as [Hlt|Hge].
  - assert ((a, i) ∈ L) as Hin by (by apply Hu).
    destruct (disk_desc _ _ _ _ Hrep Hin) as (di' & Hdi' & Hpin & Hext). assert (di' = di) as -> by congruence.
    pose proof (eo_nonempty _ _ Hext) as Hne. cbn in Hne. zcase (bd_size di =? 0); [lia|].
    destruct (ext_block_range cfg bs Hcfg di Hext) as (po & pr & Hrange).
    assert (∀ p, p ∈ V0 ++ slots a i → p ∈ L) as HVL.
    { intros [b j] [Hp|Hp]%elem_of_app; [by apply HV0|]. apply elem_of_slots in Hp as [Hp1 Hp2]. cbn in *. subst b.
      assert (is_Some (mem (a, j))) as [dj Hdj].
      { unfold desc_at. cbn. rewrite Ha. cbn. apply lookup_lt_is_Some. lia. }
      apply (used_slot a arr j dj); [done..|lia]. }
    assert ((a, i) ∉ V0 ++ slots a i) as Hnin.
    { rewrite elem_of_app, elem_of_slots. cbn. intros [Hx|Hx]; [by apply (HVa _ Hx)|lia]. }
    apply wp_bind, wp_zoom. cbn [set_dram fs_dram fs_pm fs_tx fs_v].
    eapply wp_mono; [eapply (wp_insert_rep calloc_ok mem c (V0 ++ slots a i) (V0 ++ slots a (S i)) (a, i) di); [done..| | |by intros]| |done].
    { intros x. rewrite slots_S, app_assoc, elem_of_app, list_elem_of_singleton. tauto. }
    { intros b' bd' Hb' Hbd'. eapply (disk_disjoint _ _ _ Hrep (a, i) b'); [done|by apply HVL| |done|done]. by intros <-. }
    intros [ret m'] d' (_ & _ & Hret & Hom'). rewrite Hret in * by done. cbn.
    specialize (Hom' eq_refl). pose proof (first_of_snoc mem _ _ (a, i) di Hdi Hfirst (first_some _ _ HVL Hfirst)) as Hfirst'.
    rewrite <-app_assoc, <-slots_S in Hfirst'.
    assert (∀ fi, first_of mem (V0 ++ slots a (S i)) fi →
      wp (rebuild_array calloc_ok a n (S i) m' fi) Q E (set_dram d' s)) as Hnext.
    { intros fi Hfi. apply IH; [lia|lia|done|done|done]. }
    destruct first as [f|]; cbn [mbind M_bind].
    + destruct (first_some _ _ HVL Hfirst f eq_refl) as [df Hdf]. rewrite Hdf in Hfirst'.
      apply wp_bind. apply wp_bind. eapply wp_desc_get; [exact Hdf|]. wp_step. by apply Hnext.
    + apply wp_bind. wp_step. by apply Hnext.
  - assert (di = zero_desc) as ->.
    { apply (st_free _ _ _ _ Hs (a, i)); [done|done|]. intros Hx. by apply Hge, Hu. }
    change (bd_size zero_desc =? 0) with true. cbv iota. wp_step. replace (used_slots rest idx a arr) with i in HQ by lia. by apply HQ.
Qed.

Lemma om_rep_ext mem m V V' : (∀ x, x ∈ V' ↔ x ∈ V) → om_rep mem m V → om_rep mem m V'.
Proof.
  intros Hx [Hwf Hb Hp]. split; [done| |].
  - intros b Hin. apply Hb. by apply Hx.
  - intros p b Hl. apply Hx. by eapply Hp.
Qed.

Lemma slots_used a arr p : in_chain rest a → pm_arrays (fs_pm s) !! a = Some arr →
  (p ∈ slots a (used_slots rest idx a arr) ↔ p ∈ L ∧ p.1 = a).
Proof.
  intros Hc Ha. rewrite elem_of_slots. destruct p as [b j]. cbn. split.
  - intros [-> Hj]. pose proof (used_slots_le a arr Hc Ha). split; [|done].
    assert (is_Some (mem (a, j))) as [dj Hdj].
    { unfold desc_at. cbn. rewrite Ha. cbn. apply lookup_lt_is_Some. lia. }
    by apply (used_slot a arr j dj).
  - intros [Hin ->]. split; [done|]. destruct (st_in _ _ _ _ Hs _ Hin) as [_ [d Hd]].
    by apply (used_slot a arr j d) in Hin.
Qed.

Lemma wp_rebuild_arrays rem Q E : ∀ fuel a c first d V0,
  array_chain (pm_arrays (fs_pm s)) a rem → in_chain rest a → (∀ o, o ∈ rem → o ∈ rest) →
  NoDup (a :: (Some <$> rem)) → (length rem < fuel)%nat → om_rep mem c V0 → first_of mem V0 first →
  (∀ p, p ∈ V0 → p ∈ L ∧ p.1 ∉ a :: (Some <$> rem)) →
  (∀ c' first' d' V', om_rep mem c' V' → first_of mem V' first' →
    (∀ p, p ∈ V' ↔ p ∈ V0 ∨ p ∈ L ∧ p.1 ∈ a :: (Some <$> rem)) → Q (0, c', first') (set_dram d' s)) →
  wp (rebuild_arrays calloc_ok fuel (Some a) c first) Q E (set_dram d s).
Proof.
  induction rem as [|o rem IH]; intros fuel a c first d V0 (arr & Ha & Hnext & Hrest) Hc Hrem Hnd Hfuel Hom Hf HV HQ;
    (destruct fuel as [|fuel]; [cbn in Hfuel; lia|]); cbn [rebuild_arrays];
    apply wp_bind; (eapply wp_array_get; [exact Ha|]); apply wp_bind;
    rewrite (st_len _ _ _ _ Hs _ _ Hc Ha);
    (eapply (wp_rebuild_array a arr V0);
      [done|done|by intros; apply HV|intros p Hp Heq; destruct (HV p Hp) as [_ Hx]; apply Hx; rewrite Heq; by left|lia|lia
      |by rewrite app_nil_r|by rewrite app_nil_r|]);
    intros c' first' d' Hom' Hf'; cbn [negb Z.eqb]; rewrite Hnext; cbn [head hd_error].
  - destruct fuel; cbn [rebuild_arrays]; wp_step; (eapply HQ; [done..|]); intros p; rewrite elem_of_app, slots_used by done;
      cbn; rewrite list_elem_of_singleton; tauto.
  - apply NoDup_cons in Hnd as [Hna Hnd]. cbn in Hfuel. eapply (IH fuel (Some o) c' first' d' _ Hrest); [| |done|lia|done|done|..].
    + apply Hrem. by left.
    + intros o' Ho'. apply Hrem. by right.
    + intros p [Hp|Hp]%elem_of_app.
      * destruct (HV p Hp) as [? Hx]. split; [done|]. intros ?. apply Hx. by right.
      * apply slots_used in Hp as [? ->]; done.
    + intros c2 f2 d2 V2 Hom2 Hf2 HV2. eapply HQ; [done..|]. intros p. rewrite HV2, elem_of_app, slots_used by done.
      cbn. rewrite (elem_of_cons (Some o :: _)). tauto.
Qed.

Lemma chain_fuel : (length rest < size (pm_arrays (fs_pm s)))%nat.
Proof.
  assert (length (None :: (Some <$> rest)) ≤ length (map_to_list (pm_arrays (fs_pm s))).*1)%nat as Hle.
  { apply submseteq_length, NoDup_submseteq.
    - apply NoDup_cons. split; [by intros (? & ? & _)%list_elem_of_fmap|]. apply NoDup_fmap_2; [apply _|apply Hs].
    - intros a Hin. destruct (array_chain_lookup _ None rest a (st_chain _ _ _ _ Hs)) as [arr Harr].
      { apply elem_of_cons in Hin as [->|(o & -> & Ho)%list_elem_of_fmap]; [by left|]. right. by split. }
      apply list_elem_of_fmap. exists (a, arr). split; [done|]. by apply elem_of_map_to_list. }
  cbn in Hle. rewrite !length_fmap, length_map_to_list in Hle. lia.
Qed.

Lemma first_of_head V first : (∀ p, p ∈ V ↔ p ∈ L) → first_of mem V first → first = head L.
Proof.
  intros HV Hf. destruct L as [|h L'] eqn:HL.
  - destruct first as [f|]; [|done]. destruct Hf as [Hin _]. by apply HV, elem_of_nil in Hin.
  - destruct first as [f|]; cbn in *; last first.
    { subst V. exfalso. apply (elem_of_nil h). apply HV. by left. }
    destruct Hf as [Hin Hmin]. apply HV in Hin. f_equal.
    destruct (disk_desc _ _ _ h Hrep) as (dh & Hdh & _ & Heh); [by left|].
    destruct (disk_desc _ _ _ f Hrep Hin) as (df & Hdf & _ & Hef).
    pose proof (Hmin h df dh ltac:(apply HV; by left) Hdf Hdh) as Hle.
    apply list_elem_of_lookup in Hin as [[|i] Hi]; [by injection Hi|]. exfalso. cbn in Hi.
    pose proof (dr_ext _ _ _ _ Hrep) as Hext. destruct es as [|eh es']; [by inv Hext|].
    destruct (Forall2_lookup_l _ _ _ (S i) f Hext Hi) as (ef & Hfe & Hpf).
    destruct (Forall2_lookup_l _ _ _ 0%nat h Hext eq_refl) as (eh' & Hhe & Hph).
    unfold payload_at in Hpf, Hph. rewrite Hdf in Hpf. rewrite Hdh in Hph. simplify_eq/=.
    pose proof (sorted_lookup_lt _ _ 0%nat (S i) _ _ (es_sorted _ _ _ (dr_ok _ _ _ _ Hrep)) ltac:(lia) eq_refl Hfe) as Hb.
    pose proof (eo_nonempty _ _ Heh). unfold before, ex_end in Hb. cbn in *. lia.
Qed.
End rebuild.

Lemma wp_vinode_rebuild_block_tree s L es Q E : disk_rep cfg s L es → fs_tx s = None →
  (∀ c d, let s' := set_v (set_blocks (Some c) (set_first_block (head L) (fs_v s))) (set_dram d s) in
    file_rep cfg s' L es → Q 0 s') →
  wp (vinode_rebuild_block_tree calloc_ok) Q E s.
Proof.
  intros Hrep Htx HQ. unfold vinode_rebuild_block_tree, assert_not_in_tx. wp_steps; [by rewrite Htx|].
  apply wp_zoom. unfold offset_map_new. apply wp_bind. unfold wp at 1, pf_calloc. rewrite Hcalloc. wp_steps.
  destruct (dr_store _ _ _ _ Hrep) as (rest & idx & Hs & Hidx & Hff & Hfr).
  eapply (wp_rebuild_arrays s L es rest idx Hrep Hs rest _ _ (size (pm_arrays (fs_pm s))) None _ None _ []).
  - apply Hs.
  - done.
  - done.
  - apply NoDup_cons. split; [by intros (? & ? & _)%list_elem_of_fmap|]. apply NoDup_fmap_2; [apply _|apply Hs].
  - by eapply chain_fuel.
  - apply om_rep_empty.
  - done.
  - by intros p ?%elem_of_nil.
  - intros c first d V Hom Hfirst HV. cbn [negb Z.eqb]. wp_steps.
    assert (∀ p, p ∈ V ↔ p ∈ L) as HVL.
    { intros p. rewrite HV, elem_of_nil. split; [tauto|]. intros Hp. right. split; [done|].
      destruct (st_in _ _ _ _ Hs p Hp) as [Hc _]. destruct (p.1) as [o|]; [|by left]. right. apply list_elem_of_fmap. by exists o. }
    assert (first = head L) as -> by (by eapply first_of_head). apply HQ.
    destruct Hrep as [H1 H2 H3 H4 H5]. split; [done..|]. exists c. split; [done|]. eapply om_rep_ext; [|exact Hom]. intros x. symmetry. apply HVL.
Qed.
End disk.

(** C28: rebuilding the tree from the persistent arrays.  For every file on
    disk that is well formed, whatever order its blocks have in the arrays, the
    scan terminates without error and the volatile inode then represents the
    same list of extents: the tree has exactly the blocks in use and
    [first_block] is the head of the list. *)
Theorem vinode_rebuild_block_tree_correct cfg bs calloc_ok s L es :
  cfg_wf cfg bs → (∀ k, calloc_ok k = true) → disk_rep cfg s L es → fs_tx s = None →
  wp (vinode_rebuild_block_tree calloc_ok)
    (λ r s', r = 0 ∧ fs_pm s' = fs_pm s ∧ fs_tx s' = None ∧ file_rep cfg s' L es) noabort s.
Proof. intros Hcfg Hc Hd Htx. eapply wp_vinode_rebuild_block_tree; [done..|]. intros c d s' Hr. by split_and!. Qed.

(** The file of the example after a crash-free shutdown: committed, no tree. *)
Module ExTx.
Definition tx_of1 : tx := match fs_tx ExAlloc.file1 with Some t => t | None => Tx [] [] end.
Definition committed : fstate := tx_commit tx_of1 ExAlloc.file1.
Definition file2 : fstate := set_v (set_blocks None (set_first_block None (fs_v committed))) committed.

Lemma disk2 : ∃ L es, disk_rep default_cfg file2 L es ∧ ∀ i, 20000 ≤ i < 120000 → covered es i.
Proof.
  destruct ExAlloc.rep1 as (L & es & Hr & Hc). exists L, es. split; [|done].
  apply disk_rep_volatile. eapply disk_rep_commit; [by apply file_disk_rep|].
  unfold tx_of1. by destruct (fs_tx ExAlloc.file1) eqn:Htx; [|vm_compute in Htx].
Qed.
End ExTx.

Lemma vinode_rebuild_block_tree_witness : ∃ (L : list bptr) (es : list extent),
  (∀ i, 20000 ≤ i < 120000 → covered es i) ∧
  wp (vinode_rebuild_block_tree Ex.calloc)
    (λ r s', r = 0 ∧ fs_pm s' = fs_pm ExTx.file2 ∧ fs_tx s' = None ∧ file_rep default_cfg s' L es)
    noabort ExTx.file2.
Proof.
  destruct ExTx.disk2 as (L & es & Hd & Hc). exists L, es. split; [done|].
  apply (vinode_rebuild_block_tree_correct default_cfg _ Ex.calloc ExTx.file2 L es default_cfg_wf);
    [intros k; reflexivity|exact Hd|reflexivity].
Defined.
