(* ===== verification/FileIO.v ===== *)
(** Operations on an open regular file: read.c, write.c, truncate.c,
    fallocate.c and lseek.c, with the locking helper
    [vinode_rdlock_with_block_tree] of inode.c.

    The state is one file handle ([struct pmemfile_file]) on one regular file.
    The rwlock of the vinode and the mutex of the handle are part of the state:
    taking a lock that is held, or releasing one that is not, is a fault. *)
From S2P Require Import Prelude Layout Inode Blocks OffsetMap FileState BlockArray Data.

Definition PFILE_READ : Z := Z.shiftl 1 0.
Definition PFILE_WRITE : Z := Z.shiftl 1 1.
Definition PFILE_NOATIME : Z := Z.shiftl 1 2.
Definition PFILE_APPEND : Z := Z.shiftl 1 3.
Definition PFILE_PATH : Z := Z.shiftl 1 4.

Definition SSIZE_MAX : Z := INT64_MAX.
Definition SIZE_MAX : Z := UINT64_MAX.

Definition has_flag (flags f : Z) : bool := negb (Z.land flags f =? 0).

(** ** State *)

(** [struct pmemfile_file], the fields used for regular files *)
Record pfile := PFile {
  f_flags : Z;
  f_offset : Z;
  f_block_pointer_cache : option bptr;
  f_last_block_pointer_invalidation_observed : Z;
}.

Record io := Io {
  io_fs : fstate;
  io_atime : pmemfile_time;    (* vinode->atime *)
  io_atime_dirty : bool;       (* vinode->atime_dirty *)
  io_file : pfile;
  io_rwlock : lock_state;      (* vinode->rwlock *)
  io_mutex : bool;             (* file->mutex is held *)
  io_errno : Z;
  io_ticks : nat;              (* calls of get_current_time so far *)
}.

Definition set_io_fs x (s : io) :=
  Io x (io_atime s) (io_atime_dirty s) (io_file s) (io_rwlock s) (io_mutex s) (io_errno s) (io_ticks s).
Definition set_io_atime t d (s : io) :=
  Io (io_fs s) t d (io_file s) (io_rwlock s) (io_mutex s) (io_errno s) (io_ticks s).
Definition set_io_file x (s : io) :=
  Io (io_fs s) (io_atime s) (io_atime_dirty s) x (io_rwlock s) (io_mutex s) (io_errno s) (io_ticks s).
Definition set_io_rwlock x (s : io) :=
  Io (io_fs s) (io_atime s) (io_atime_dirty s) (io_file s) x (io_mutex s) (io_errno s) (io_ticks s).
Definition set_io_mutex x (s : io) :=
  Io (io_fs s) (io_atime s) (io_atime_dirty s) (io_file s) (io_rwlock s) x (io_errno s) (io_ticks s).
Definition set_io_errno x (s : io) :=
  Io (io_fs s) (io_atime s) (io_atime_dirty s) (io_file s) (io_rwlock s) (io_mutex s) x (io_ticks s).
Definition set_io_ticks x (s : io) :=
  Io (io_fs s) (io_atime s) (io_atime_dirty s) (io_file s) (io_rwlock s) (io_mutex s) (io_errno s) x.
Definition set_f_offset x (f : pfile) :=
  PFile (f_flags f) x (f_block_pointer_cache f) (f_last_block_pointer_invalidation_observed f).
Definition set_f_cache x (f : pfile) :=
  PFile (f_flags f) (f_offset f) x (f_last_block_pointer_invalidation_observed f).
Definition set_f_observed x (f : pfile) :=
  PFile (f_flags f) (f_offset f) (f_block_pointer_cache f) x.

(** A computation on the file inside a computation on the handle. *)
Definition on_file {A} (m : M fstate A) : M io A := zoom io_fs set_io_fs m.

(** ** Locks (os_thread_pthread.c: every failure of pthread is FATAL) *)

Definition os_rwlock_rdlock : M io unit :=
  l ← gets io_rwlock;
  assert_ (match l with Unlocked => true | _ => false end);; modify (set_io_rwlock RdLocked).
Definition os_rwlock_wrlock : M io unit :=
  l ← gets io_rwlock;
  assert_ (match l with Unlocked => true | _ => false end);; modify (set_io_rwlock WrLocked).
Definition os_rwlock_unlock : M io unit :=
  l ← gets io_rwlock;
  assert_ (match l with Unlocked => false | _ => true end);; modify (set_io_rwlock Unlocked).
Definition os_mutex_lock : M io unit :=
  b ← gets io_mutex; assert_ (negb b);; modify (set_io_mutex true).
Definition os_mutex_unlock : M io unit :=
  b ← gets io_mutex; assert_ b;; modify (set_io_mutex false).

(** [errno = e; return -1;] *)
Definition fail_with (e : Z) : M io Z := modify (set_io_errno e);; mret (-1).

Definition io_inode : M io inode := gets (λ s, pm_inode (fs_pm (io_fs s))).

(** ** Scatter/gather vectors: a NULL base is [None] *)
Record iovec := Iovec { iov_base : option bytes; iov_len : Z }.

Definition iov_at (iov : list iovec) (i : nat) : M io iovec := of_option OutOfBounds (iov !! i).

(** [for (i = 0; i < iovcnt; ++i) if (iov\[i\].iov_base == NULL) ...] *)
Fixpoint iov_has_null (iov : list iovec) (n i : nat) : M io bool :=
  match n with
  | O => mret false
  | S n' =>
      v ← iov_at iov i;
      match iov_base v with
      | None => mret true
      | Some _ => iov_has_null iov n' (S i)
      end
  end.

Section io.
Context `{!Pobj}.
Variables (cfg : block_cfg) (calloc_ok : nat → bool) (overallocate_on_append : bool).
(** [get_current_time]: the clock is read once per call. *)
Variable clock : nat → pmemfile_time.

Definition get_current_time : M io pmemfile_time :=
  n ← gets io_ticks; modify (set_io_ticks (S n));; mret (clock n).

(** ** inode.c *)

(** At most one turn of the loop is needed: [vinode_rebuild_block_tree] either
    fails or leaves a tree. *)
Fixpoint rdlock_loop (fuel : nat) : M io Z :=
  blocks ← gets (λ s, v_blocks (fs_v (io_fs s)));
  match blocks with
  | Some _ => mret 0
  | None =>
      match fuel with
      | O => fault_ NoFuel
      | S fuel' =>
          os_rwlock_unlock;;
          os_rwlock_wrlock;;
          blocks ← gets (λ s, v_blocks (fs_v (io_fs s)));
          err ← match blocks with
                | None => on_file (vinode_rebuild_block_tree calloc_ok)
                | Some _ => mret 0
                end;
          os_rwlock_unlock;;
          if negb (err =? 0) then mret (- err)
          else os_rwlock_rdlock;; rdlock_loop fuel'
      end
  end.

Definition vinode_rdlock_with_block_tree : M io Z := os_rwlock_rdlock;; rdlock_loop 1.

(** ** read.c *)

(** The result: the number of bytes, the new [*last_block] and the buffer. *)
Definition vinode_read (offset : Z) (last_block : option bptr) (buf : bytes) (count : Z)
    : M fstate (Z * option bptr * bytes) :=
  i ← inode_of;
  let size := inode_get_size i in
  if size <=? offset then mret (0, last_block, buf)
  else
    let count := if u64 (size - offset) <? count then u64 (size - offset) else count in
    block ← find_closest_block_with_hint offset last_block;
    '(block, buf) ← iterate_on_file_range block offset count buf read_from_blocks;
    mret (count, match block with Some b => Some b | None => last_block end, buf).

Definition time_cmp (t1 t2 : pmemfile_time) : Z :=
  if tm_sec t1 <? tm_sec t2 then -1
  else if tm_sec t2 <? tm_sec t1 then 1
  else if tm_nsec t1 <? tm_nsec t2 then -1
  else if tm_nsec t2 <? tm_nsec t1 then 1
  else 0.

Definition pmemfile_preadv_args_check (iov : option (list iovec)) (iovcnt : Z) : M io Z :=
  i ← io_inode;
  if negb (inode_is_regular_file i) then fail_with (if inode_is_dir i then EISDIR else EINVAL)
  else
    f ← gets io_file;
    if negb (has_flag (f_flags f) PFILE_READ) then fail_with EBADF
    else
      match iov with
      | None => if 0 <? iovcnt then fail_with EFAULT else mret 0
      | Some v =>
          null ← iov_has_null v (Z.to_nat iovcnt) 0;
          if null : bool then fail_with EFAULT else mret 0
      end.

(** The loop; [bufs] are the buffers filled so far. *)
Fixpoint preadv_loop (iov : list iovec) (n i : nat) (ret offset : Z) (last_block : option bptr)
    (bufs : list bytes) : M fstate (Z * option bptr * list bytes) :=
  match n with
  | O => mret (ret, last_block, bufs)
  | S n' =>
      v ← of_option OutOfBounds (iov !! i);
      base ← of_option NullDeref (iov_base v);
      let len := iov_len v in
      let len := if i64 (u64 ret + len) <? 0 then u64 (SSIZE_MAX - ret) else len in
      assert_ (0 <=? i64 (u64 ret + len));;
      '(bytes_read, last_block, buf) ← vinode_read offset last_block base len;
      let ret := ret + i64 bytes_read in
      let offset := u64 (offset + bytes_read) in
      if negb (bytes_read =? len) then mret (ret, last_block, bufs ++ [buf])
      else preadv_loop iov n' (S i) ret offset last_block (bufs ++ [buf])
  end.

Definition pmemfile_preadv_internal (last_block : option bptr) (offset : Z) (iov : list iovec)
    (iovcnt : Z) : M fstate (Z * option bptr * list bytes) :=
  preadv_loop iov (Z.to_nat iovcnt) 0 0 offset last_block [].

Definition handle_atime (file_flags : Z) : M io unit :=
  if has_flag file_flags PFILE_NOATIME then mret tt
  else
    tm ← get_current_time;
    let tm1d := Time (tm_sec tm - 86400) (tm_nsec tm) in
    atime ← gets io_atime;
    inode ← io_inode;
    if (0 <=? time_cmp atime tm1d) && (0 <=? time_cmp atime (inode_get_ctime inode))
       && (0 <=? time_cmp atime (inode_get_mtime inode))
    then mret tt
    else
      os_rwlock_wrlock;;
      modify (set_io_atime tm true);;
      os_rwlock_unlock.

(** The check of the block pointer cache shared by [readv] and [writev]. *)
Definition refresh_block_pointer_cache : M io unit :=
  f ← gets io_file;
  c ← gets (λ s, v_block_pointer_invalidation_counter (fs_v (io_fs s)));
  if negb (f_last_block_pointer_invalidation_observed f =? c)
  then modify (set_io_file (set_f_observed c (set_f_cache None f)))
  else mret tt.

(** The end of [readv] and [writev]: the file offset moves by [ret]. *)
Definition advance_file (ret : Z) (last_block : option bptr) : M io unit :=
  f ← gets io_file;
  modify (set_io_file
    (if 0 <? ret then set_f_cache last_block (set_f_offset (u64 (f_offset f + ret)) f)
     else set_f_cache None f)).

(** A [read] returns the count and the contents of the buffers. *)
Definition iov_list (iov : option (list iovec)) : list iovec := default [] iov.

Definition pmemfile_readv_under_filelock (iov : option (list iovec)) (iovcnt : Z)
    : M io (Z * list bytes) :=
  ret ← pmemfile_preadv_args_check iov iovcnt;
  if negb (ret =? 0) then mret (ret, [])
  else if iovcnt =? 0 then mret (0, [])
  else
    ret ← vinode_rdlock_with_block_tree;
    if negb (ret =? 0) then mret (ret, [])
    else
      refresh_block_pointer_cache;;
      f ← gets io_file;
      let flags := f_flags f in
      '(ret, last_block, bufs) ←
        on_file (pmemfile_preadv_internal (f_block_pointer_cache f) (f_offset f) (iov_list iov) iovcnt);
      os_rwlock_unlock;;
      advance_file ret last_block;;
      handle_atime flags;;
      mret (ret, bufs).

(** [pfp] and [file] say whether the pointers are not NULL. *)
Definition pmemfile_readv (pfp file : bool) (iov : option (list iovec)) (iovcnt : Z)
    : M io (Z * list bytes) :=
  if negb pfp then r ← fail_with EFAULT; mret (r, [])
  else if negb file then r ← fail_with EFAULT; mret (r, [])
  else
    os_mutex_lock;;
    r ← pmemfile_readv_under_filelock iov iovcnt;
    os_mutex_unlock;;
    mret r.

Definition pmemfile_read (pfp file : bool) (buf : option bytes) (count : Z) : M io (Z * list bytes) :=
  pmemfile_readv pfp file (Some [Iovec buf count]) 1.

Definition pmemfile_preadv (pfp file : bool) (iov : option (list iovec)) (iovcnt offset : Z)
    : M io (Z * list bytes) :=
  if negb pfp then r ← fail_with EFAULT; mret (r, [])
  else if negb file then r ← fail_with EFAULT; mret (r, [])
  else if offset <? 0 then r ← fail_with EINVAL; mret (r, [])
  else
    os_mutex_lock;;
    ret ← pmemfile_preadv_args_check iov iovcnt;
    f ← gets io_file;
    let last_bp_iv_obs := f_last_block_pointer_invalidation_observed f in
    let last_block := f_block_pointer_cache f in
    let flags := f_flags f in
    os_mutex_unlock;;
    if negb (ret =? 0) then mret (ret, [])
    else if iovcnt =? 0 then mret (0, [])
    else
      ret ← vinode_rdlock_with_block_tree;
      if negb (ret =? 0) then mret (ret, [])
      else
        c ← gets (λ s, v_block_pointer_invalidation_counter (fs_v (io_fs s)));
        let last_block := if negb (last_bp_iv_obs =? c) then None else last_block in
        '(ret, _, bufs) ← on_file (pmemfile_preadv_internal last_block (u64 offset) (iov_list iov) iovcnt);
        os_rwlock_unlock;;
        handle_atime flags;;
        mret (ret, bufs).

Definition pmemfile_pread (pfp file : bool) (buf : option bytes) (count offset : Z)
    : M io (Z * list bytes) :=
  pmemfile_preadv pfp file (Some [Iovec buf count]) 1 offset.

(** ** Inode updates inside a transaction: the setters of inode.h, with the
    undo record of [TX_ADD_DIRECT] *)

Definition inode_upd (f : inode → inode) : M fstate unit :=
  modify (λ s, set_pm (set_inode (f (pm_inode (fs_pm s))) (fs_pm s)) s).

Definition tx_set_size (sz : Z) : M fstate unit :=
  i ← inode_of; tx_record (USize (s_size (i_slots i)) (inode_get_size i));; inode_upd (inode_tx_set_size sz).
Definition tx_set_mtime (tm : pmemfile_time) : M fstate unit :=
  i ← inode_of; tx_record (UMtime (s_mtime (i_slots i)) (inode_get_mtime i));; inode_upd (inode_tx_set_mtime tm).
Definition tx_set_ctime (tm : pmemfile_time) : M fstate unit :=
  i ← inode_of; tx_record (UCtime (s_ctime (i_slots i)) (inode_get_ctime i));; inode_upd (inode_tx_set_ctime tm).
Definition tx_set_allocated_space (sz : Z) : M fstate unit :=
  i ← inode_of;
  if inode_get_allocated_space i =? sz then mret tt
  else
    tx_record (UAllocatedSpace (s_allocated_space (i_slots i)) (inode_get_allocated_space i));;
    inode_upd (inode_tx_set_allocated_space sz).

(** ** write.c *)

Definition vinode_write (offset : Z) (last_block : option bptr) (buf : bytes) (count : Z)
    : M fstate (option bptr) :=
  assert_ (0 <? count);;
  block ← find_closest_block_with_hint offset last_block;
  '(block, _) ← iterate_on_file_range block offset count buf write_to_blocks;
  mret (match block with Some b => Some b | None => last_block end).

Definition pmemfile_pwritev_args_check (iov : option (list iovec)) (iovcnt : Z) : M io Z :=
  i ← io_inode;
  if negb (inode_is_regular_file i) then fail_with EINVAL
  else
    f ← gets io_file;
    if negb (has_flag (f_flags f) PFILE_WRITE) then fail_with EBADF
    else
      match iov with
      | None => if 0 <? iovcnt then fail_with EFAULT else mret 0
      | Some v =>
          null ← iov_has_null v (Z.to_nat iovcnt) 0;
          if null : bool then fail_with EFAULT else mret 0
      end.

(** The body of the transaction of [pmemfile_allocate_space]. *)
Definition allocate_space_tx (offset len : Z) (expect_changes : bool) : M fstate unit :=
  i ← inode_of;
  n ← vinode_allocate_interval cfg calloc_ok overallocate_on_append offset len;
  let allocated_space := u64 (inode_get_allocated_space i + n) in
  i ← inode_of;
  (if expect_changes then assert_ (negb (inode_get_allocated_space i =? allocated_space))
   else assert_ (inode_get_allocated_space i =? allocated_space));;
  tx_set_allocated_space allocated_space.

Definition enomem_to (e' e : Z) : Z := if e =? ENOMEM then e' else e.

Definition pmemfile_allocate_space (offset len : Z) (expect_changes : bool) : M fstate Z :=
  vinode_snapshot;;
  tx_begin (allocate_space_tx offset len expect_changes;; mret 0)
    (λ errno, vinode_restore_on_abort;; mret (enomem_to ENOSPC errno)).

(** The first loop of [pmemfile_pwritev_internal]: how many bytes to write. *)
Definition clamp_len (sum_len len : Z) : Z :=
  let len := if i64 len <? 0 then SSIZE_MAX else len in
  if i64 (sum_len + len) <? 0 then u64 (SSIZE_MAX - sum_len) else len.

Fixpoint sum_iov (iov : list iovec) (n i : nat) (offset sum_len : Z) : M io Z :=
  match n with
  | O => mret sum_len
  | S n' =>
      v ← iov_at iov i;
      let len := clamp_len sum_len (iov_len v) in
      let len := if u64 (offset + sum_len + len) <? offset
                 then u64 (SIZE_MAX - offset - sum_len) else len in
      let sum_len := u64 (sum_len + len) in
      if negb (len =? iov_len v) then mret sum_len else sum_iov iov n' (S i) offset sum_len
  end.

(** The second loop: write the buffers one after the other; the result is
    [ret], [offset] and [*last_block]. *)
Fixpoint pwritev_loop (iov : list iovec) (n i : nat) (ret offset : Z) (last_block : option bptr)
    : M fstate (Z * Z * option bptr) :=
  match n with
  | O => mret (ret, offset, last_block)
  | S n' =>
      v ← of_option OutOfBounds (iov !! i);
      base ← of_option NullDeref (iov_base v);
      let len := clamp_len ret (iov_len v) in
      let len := if u64 (offset + len) <? offset then u64 (SIZE_MAX - offset) else len in
      last_block ← (if 0 <? len then vinode_write offset last_block base len else mret last_block);
      let ret := u64 (ret + len) in
      let offset := u64 (offset + len) in
      if negb (len =? iov_len v) then mret (ret, offset, last_block)
      else pwritev_loop iov n' (S i) ret offset last_block
  end.

(** The slot word with new bits for the four fields [write] changes. *)
Definition with_slots (atime ctime size mtime : bool) (x : inode_slots) : inode_slots :=
  Slots atime ctime mtime (s_nlink x) size (s_allocated_space x) (s_flags x).

(** Storing a field in the slot that is not valid yet. *)
Definition store_mtime (slot : bool) (tm : pmemfile_time) (i : inode) : inode :=
  set_i_mtime (sset slot tm (i_mtime i)) i.
Definition store_ctime (slot : bool) (tm : pmemfile_time) (i : inode) : inode :=
  set_i_ctime (sset slot tm (i_ctime i)) i.
Definition store_atime (slot : bool) (tm : pmemfile_time) (i : inode) : inode :=
  set_i_atime (sset slot tm (i_atime i)) i.
Definition store_size (slot : bool) (sz : Z) (i : inode) : inode :=
  set_i_size (sset slot sz (i_size i)) i.

(** [inode->slots.bits.mtime = slot] *)
Definition select_mtime (slot : bool) (i : inode) : inode :=
  set_i_slots (with_slots (s_atime (i_slots i)) (s_ctime (i_slots i)) (s_size (i_slots i)) slot (i_slots i)) i.

(** The update of mtime before the data is written. *)
Definition write_mtime_first (tm : pmemfile_time) : M fstate unit :=
  i ← inode_of;
  let mtime_slot := inode_next_mtime_slot i in
  inode_upd (store_mtime mtime_slot tm);;
  inode_upd (select_mtime mtime_slot).

(** The update of the inode after the data was written. *)
Definition write_update_inode (starttm tm : pmemfile_time) (offset : Z) : M io unit :=
  inode ← io_inode;
  let tm_diff := i64 ((tm_sec tm - tm_sec starttm) * 1000000000 + tm_nsec tm - tm_nsec starttm) in
  let update_size := inode_get_size inode <? offset in
  let update_mtime := (1000000 <=? tm_diff) || update_size in
  dirty ← gets io_atime_dirty;
  let update_atime := dirty && (update_mtime || update_size) in
  let mtime_slot := if update_mtime then inode_next_mtime_slot inode else s_mtime (i_slots inode) in
  let atime_slot := if update_atime then inode_next_atime_slot inode else s_atime (i_slots inode) in
  let size_slot := if update_size then inode_next_size_slot inode else s_size (i_slots inode) in
  let ctime_slot := if update_size then inode_next_ctime_slot inode else s_ctime (i_slots inode) in
  (if update_mtime then on_file (inode_upd (store_mtime mtime_slot tm)) else mret tt);;
  (if update_atime then
     atime ← gets io_atime;
     on_file (inode_upd (store_atime atime_slot atime));;
     modify (set_io_atime atime false)
   else mret tt);;
  (if update_size then
     on_file (inode_upd (store_size size_slot offset));;
     on_file (inode_upd (store_ctime ctime_slot tm))
   else mret tt);;
  if update_mtime || update_size || update_atime then
    on_file (inode_upd (λ i, set_i_slots (with_slots atime_slot ctime_slot size_slot mtime_slot (i_slots i)) i))
  else mret tt.

(** [verify]: the check of debug builds that an interval reported as allocated
    needs no new block. *)
Variable verify : bool.

Definition pmemfile_pwritev_internal (last_block : option bptr) (file_flags offset : Z)
    (iov : list iovec) (iovcnt : Z) : M io (Z * option bptr) :=
  let n := Z.to_nat iovcnt in
  on_file assert_not_in_tx;;
  blocks ← gets (λ s, v_blocks (fs_v (io_fs s)));
  error ← match blocks with
          | None => on_file (vinode_rebuild_block_tree calloc_ok)
          | Some _ => mret 0
          end;
  if negb (error =? 0) then r ← fail_with error; mret (r, last_block)
  else
    inode ← io_inode;
    let offset := if has_flag file_flags PFILE_APPEND then inode_get_size inode else offset in
    sum_len ← sum_iov iov n 0 offset 0;
    if sum_len =? 0 then mret (0, last_block)
    else
      allocated ← on_file (vinode_is_interval_allocated offset sum_len last_block);
      error ← (if negb allocated then on_file (pmemfile_allocate_space offset sum_len true)
               else if verify then on_file (pmemfile_allocate_space offset sum_len false)
               else mret 0);
      if negb (error =? 0) then r ← fail_with error; mret (r, last_block)
      else
        starttm ← get_current_time;
        on_file (write_mtime_first starttm);;
        '(ret, offset, last_block) ← on_file (pwritev_loop iov n 0 0 offset last_block);
        assert_ (0 <? ret);;
        tm ← get_current_time;
        write_update_inode starttm tm offset;;
        mret (i64 ret, last_block).

Definition pmemfile_writev_under_filelock (iov : option (list iovec)) (iovcnt : Z) : M io Z :=
  ret ← pmemfile_pwritev_args_check iov iovcnt;
  if negb (ret =? 0) then mret ret
  else if iovcnt =? 0 then mret 0
  else
    os_rwlock_wrlock;;
    refresh_block_pointer_cache;;
    f ← gets io_file;
    '(ret, last_block) ←
      pmemfile_pwritev_internal (f_block_pointer_cache f) (f_flags f) (f_offset f) (iov_list iov) iovcnt;
    os_rwlock_unlock;;
    advance_file ret last_block;;
    mret ret.

Definition pmemfile_writev (pfp file : bool) (iov : option (list iovec)) (iovcnt : Z) : M io Z :=
  if negb pfp then fail_with EFAULT
  else if negb file then fail_with EFAULT
  else
    os_mutex_lock;;
    ret ← pmemfile_writev_under_filelock iov iovcnt;
    os_mutex_unlock;;
    mret ret.

Definition pmemfile_write (pfp file : bool) (buf : option bytes) (count : Z) : M io Z :=
  pmemfile_writev pfp file (Some [Iovec buf count]) 1.

Definition pmemfile_pwritev (pfp file : bool) (iov : option (list iovec)) (iovcnt offset : Z) : M io Z :=
  if negb pfp then fail_with EFAULT
  else if negb file then fail_with EFAULT
  else if offset <? 0 then fail_with EINVAL
  else
    os_mutex_lock;;
    ret ← pmemfile_pwritev_args_check iov iovcnt;
    f ← gets io_file;
    let last_bp_iv_obs := f_last_block_pointer_invalidation_observed f in
    let last_block := f_block_pointer_cache f in
    let flags := f_flags f in
    os_mutex_unlock;;
    if negb (ret =? 0) then mret ret
    else if iovcnt =? 0 then mret 0
    else
      os_rwlock_wrlock;;
      c ← gets (λ s, v_block_pointer_invalidation_counter (fs_v (io_fs s)));
      let last_block := if negb (last_bp_iv_obs =? c) then None else last_block in
      '(ret, _) ← pmemfile_pwritev_internal last_block flags (u64 offset) (iov_list iov) iovcnt;
      os_rwlock_unlock;;
      mret ret.

Definition pmemfile_pwrite (pfp file : bool) (buf : option bytes) (count offset : Z) : M io Z :=
  pmemfile_pwritev pfp file (Some [Iovec buf count]) 1 offset.

(** ** truncate.c *)

(** The body of the transaction of [vinode_truncate]. *)
Definition truncate_tx (size : Z) : M io unit :=
  i ← io_inode;
  let allocated_space := inode_get_allocated_space i in
  n ← on_file (vinode_remove_interval calloc_ok size (u64 (UINT64_MAX - size)));
  let allocated_space := u64 (allocated_space - n) in
  i ← io_inode;
  let inode_size := inode_get_size i in
  allocated_space ← (if inode_size <? size then
    n ← on_file (vinode_allocate_interval cfg calloc_ok overallocate_on_append inode_size
                   (u64 (size - inode_size)));
    mret (u64 (allocated_space + n)) else mret allocated_space);
  i ← io_inode;
  (if negb (inode_get_size i =? size) then
     on_file (tx_set_size size);;
     tm ← get_current_time;
     on_file (tx_set_mtime tm);;
     on_file (tx_set_ctime tm)
   else mret tt);;
  on_file (tx_set_allocated_space allocated_space).

Definition vinode_truncate (size : Z) : M io Z :=
  on_file assert_not_in_tx;;
  blocks ← gets (λ s, v_blocks (fs_v (io_fs s)));
  err ← match blocks with
        | None => on_file (vinode_rebuild_block_tree calloc_ok)
        | Some _ => mret 0
        end;
  if negb (err =? 0) then mret err
  else
    on_file vinode_snapshot;;
    tx_begin_on io_fs set_io_fs (truncate_tx size;; mret 0)
      (λ errno, on_file vinode_restore_on_abort;; mret (enomem_to EFBIG errno)).

(** [_pmemfile_ftruncate] *)
Definition ftruncate_vinode (length : Z) : M io Z :=
  on_file assert_not_in_tx;;
  i ← io_inode;
  if negb (inode_is_regular_file i) then mret EINVAL
  else
    os_rwlock_wrlock;;
    error ← vinode_truncate length;
    os_rwlock_unlock;;
    mret error.

Definition pmemfile_ftruncate (pfp file : bool) (length : Z) : M io Z :=
  if negb pfp then fail_with EFAULT
  else if negb file then fail_with EFAULT
  else if length <? 0 then fail_with EINVAL
  else
    os_mutex_lock;;
    f ← gets io_file;
    let flags := f_flags f in
    os_mutex_unlock;;
    i ← io_inode;
    if inode_is_dir i then fail_with EINVAL
    else if has_flag flags PFILE_PATH then fail_with EBADF
    else if negb (has_flag flags PFILE_WRITE) then fail_with EINVAL
    else
      err ← ftruncate_vinode (u64 length);
      if negb (err =? 0) then fail_with err else mret 0.

(** ** fallocate.c *)

Definition PMEMFILE_FALLOC_FL_KEEP_SIZE : Z := 0x01.
Definition PMEMFILE_FALLOC_FL_PUNCH_HOLE : Z := 0x02.
Definition PMEMFILE_FALLOC_FL_COLLAPSE_RANGE : Z := 0x08.
Definition PMEMFILE_FALLOC_FL_ZERO_RANGE : Z := 0x10.
Definition PMEMFILE_FALLOC_FL_INSERT_RANGE : Z := 0x20.

Definition fallocate_tx (mode offset length off_plus_len : Z) : M fstate unit :=
  i ← inode_of;
  let allocated_space := inode_get_allocated_space i in
  allocated_space ←
    (if has_flag mode PMEMFILE_FALLOC_FL_PUNCH_HOLE then
       assert_ (has_flag mode PMEMFILE_FALLOC_FL_KEEP_SIZE);;
       n ← vinode_remove_interval calloc_ok offset length;
       mret (u64 (allocated_space - n))
     else
       n ← vinode_allocate_interval cfg calloc_ok overallocate_on_append offset length;
       i ← inode_of;
       (if negb (has_flag mode PMEMFILE_FALLOC_FL_KEEP_SIZE) && (inode_get_size i <? off_plus_len)
        then tx_set_size off_plus_len else mret tt);;
       mret (u64 (allocated_space + n)));
  tx_set_allocated_space allocated_space.

Definition vinode_fallocate (mode offset length : Z) : M fstate Z :=
  assert_not_in_tx;;
  i ← inode_of;
  if negb (inode_is_regular_file i) then mret EBADF
  else
    let off_plus_len := u64 (offset + length) in
    let '(offset, length) :=
      if negb (has_flag mode PMEMFILE_FALLOC_FL_PUNCH_HOLE)
      then expand_to_full_pages cfg offset length else (offset, length) in
    if length =? 0 then mret 0
    else
      vinode_snapshot;;
      v ← gets fs_v;
      error ← match v_blocks v with
              | None => vinode_rebuild_block_tree calloc_ok
              | Some _ => mret 0
              end;
      if negb (error =? 0) then mret error
      else
        tx_begin (fallocate_tx mode offset length off_plus_len;; mret 0)
          (λ errno, vinode_restore_on_abort;; mret (enomem_to ENOSPC errno)).

Definition fallocate_check_arguments (mode offset length : Z) : Z :=
  if (length <=? 0) || (offset <? 0) then EINVAL
  else if SSIZE_MAX <? u64 (offset + length) then EFBIG
  else if has_flag mode PMEMFILE_FALLOC_FL_COLLAPSE_RANGE then EOPNOTSUPP
  else if has_flag mode PMEMFILE_FALLOC_FL_ZERO_RANGE then EOPNOTSUPP
  else if has_flag mode PMEMFILE_FALLOC_FL_INSERT_RANGE then EOPNOTSUPP
  else if has_flag mode PMEMFILE_FALLOC_FL_PUNCH_HOLE then
    (if negb (mode =? Z.lor PMEMFILE_FALLOC_FL_PUNCH_HOLE PMEMFILE_FALLOC_FL_KEEP_SIZE)
     then EOPNOTSUPP else 0)
  else if negb (Z.land mode (Z.lnot PMEMFILE_FALLOC_FL_KEEP_SIZE) =? 0) then EINVAL
  else 0.

Definition pmemfile_fallocate (pfp file : bool) (mode offset length : Z) : M io Z :=
  if negb pfp then fail_with EFAULT
  else if negb file then fail_with EFAULT
  else
    let error := fallocate_check_arguments mode offset length in
    if negb (error =? 0) then fail_with error
    else
      assert_ (0 <=? offset);;
      assert_ (0 <? length);;
      os_mutex_lock;;
      f ← gets io_file;
      let flags := f_flags f in
      os_mutex_unlock;;
      if negb (has_flag flags PFILE_WRITE) then fail_with EBADF
      else
        os_rwlock_wrlock;;
        error ← on_file (vinode_fallocate mode offset length);
        os_rwlock_unlock;;
        if negb (error =? 0) then fail_with error else mret 0.

Definition pmemfile_posix_fallocate (pfp file : bool) (offset length : Z) : M io Z :=
  pmemfile_fallocate pfp file 0 offset length.

(** ** lseek.c, for regular files *)

Definition PMEMFILE_SEEK_SET : Z := 0.
Definition PMEMFILE_SEEK_CUR : Z := 1.
Definition PMEMFILE_SEEK_END : Z := 2.
Definition PMEMFILE_SEEK_DATA : Z := 3.
Definition PMEMFILE_SEEK_HOLE : Z := 4.

Definition lseek_seek_data (offset fsize : Z) : M fstate Z :=
  v ← gets fs_v;
  assert_ (bool_decide (is_Some (v_blocks v)));;
  block ← find_closest_block (u64 offset);
  match block with
  | None =>
      match v_first_block v with
      | None => mret fsize
      | Some f => d ← desc_get f; mret (i64 (bd_offset d))
      end
  | Some b =>
      inside ← is_offset_in_block block (u64 offset);
      if inside : bool then mret offset
      else
        d ← desc_get b;
        match bd_next d with
        | None => mret fsize
        | Some next => dn ← desc_get next; mret (i64 (bd_offset dn))
        end
  end.

Fixpoint seek_hole_loop (fuel : nat) (block : option bptr) (offset fsize : Z) : M fstate Z :=
  match block with
  | None => mret offset
  | Some b =>
      if offset <? fsize then
        match fuel with
        | O => fault_ NoFuel
        | S fuel' =>
            d ← desc_get b;
            let block_end := i64 (bd_offset d) + bd_size d in
            let offset := if offset <=? block_end then block_end else offset in
            match bd_next d with
            | None => mret offset
            | Some next =>
                dn ← desc_get next;
                if offset <? i64 (bd_offset dn) then mret offset
                else seek_hole_loop fuel' (Some next) offset fsize
            end
        end
      else mret offset
  end.

Definition lseek_seek_hole (offset fsize : Z) : M fstate Z :=
  v ← gets fs_v;
  assert_ (bool_decide (is_Some (v_blocks v)));;
  block ← find_closest_block (u64 offset);
  s ← get_st;
  seek_hole_loop (walk_fuel s) block offset fsize.

(** [lseek_end_directory] walks the directory entries of a directory inode,
    which is not part of the state of a regular file: its result is the
    parameter [end_directory]. *)
Variable end_directory : Z → Z.

Definition lseek_seek_data_or_hole (offset whence : Z) : M io Z :=
  i ← io_inode;
  let fsize := i64 (inode_get_size i) in
  if inode_is_symlink i then mret (- ENXIO)
  else if inode_is_regular_file i && ((offset <? 0) || (fsize <=? offset)) then mret (- ENXIO)
  else if negb (inode_is_regular_file i) && negb (inode_is_dir i) then mret (- ENXIO)
  else
    r ← vinode_rdlock_with_block_tree;
    if negb (r =? 0) then mret r
    else
      offset ←
        (if inode_is_regular_file i then
           if whence =? PMEMFILE_SEEK_DATA then
             offset ← on_file (lseek_seek_data offset fsize);
             assert_ (offset <=? fsize);;
             mret offset
           else
             assert_ (whence =? PMEMFILE_SEEK_HOLE);;
             offset ← on_file (lseek_seek_hole offset fsize);
             mret (if fsize <? offset then fsize else offset)
         else
           let end_ := end_directory 0 in
           if whence =? PMEMFILE_SEEK_DATA then
             mret (if offset <? 0 then - EINVAL else if end_ <=? offset then - ENXIO else offset)
           else
             assert_ (whence =? PMEMFILE_SEEK_HOLE);;
             mret (if end_ <=? offset then - ENXIO else end_));
      os_rwlock_unlock;;
      mret offset.

(** [-1] when the sum is not representable. *)
Definition add_off (cur off : Z) : M io Z :=
  assert_ (cur <=? INT64_MAX);;
  let cur := u64 (cur + u64 off) in
  mret (if INT64_MAX <? cur then -1 else cur).

Definition pmemfile_lseek_locked (offset whence : Z) : M io Z :=
  f ← gets io_file;
  i ← io_inode;
  if has_flag (f_flags f) PFILE_PATH then fail_with EBADF
  else if negb (inode_is_dir i) && negb (inode_is_regular_file i) then fail_with EINVAL
  else
    '(ret, new_errno) ←
      (if whence =? PMEMFILE_SEEK_SET then mret (offset, EINVAL)
       else if whence =? PMEMFILE_SEEK_CUR then ret ← add_off (f_offset f) offset; mret (ret, EINVAL)
       else if whence =? PMEMFILE_SEEK_END then
         os_rwlock_rdlock;;
         ret ← (if inode_is_dir i then mret (end_directory offset)
                else add_off (inode_get_size i) offset);
         os_rwlock_unlock;;
         mret (ret, EINVAL)
       else if (whence =? PMEMFILE_SEEK_DATA) || (whence =? PMEMFILE_SEEK_HOLE) then
         ret ← lseek_seek_data_or_hole offset whence;
         mret (if ret <? 0 then (-1, - ret) else (ret, EINVAL))
       else mret (-1, EINVAL));
    if ret <? 0 then fail_with new_errno
    else
      modify (λ s, set_io_file (set_f_offset (u64 ret) (io_file s)) s);;
      mret ret.

Definition pmemfile_lseek (pfp file : bool) (offset whence : Z) : M io Z :=
  if negb pfp then fail_with EFAULT
  else if negb file then fail_with EFAULT
  else
    os_mutex_lock;;
    ret ← pmemfile_lseek_locked offset whence;
    os_mutex_unlock;;
    mret ret.
End io.
