(* ===== verification/Undo.v ===== *)
(** Undoing: whatever a transaction of the data path did before it aborted, the
    undo log takes the persistent state back to where the transaction started.
    Every store inside a transaction is either recorded, goes to a descriptor
    that was snapshotted before, or to an object that the transaction
    allocated. *)
From S2P Require Import Prelude Layout Inode Blocks OffsetMap OffsetMapRep FileState BlockList.
From S2P Require Import BlockArray Data FileRep FileIO.

(** ** Equality of persistent states, with block contents compared byte by byte *)

Definition data_eq (d1 d2 : gmap oid bytes) : Prop := ∀ o,
  match d1 !! o, d2 !! o with
  | Some c1, Some c2 => ∀ i, c1 i = c2 i
  | None, None => True
  | _, _ => False
  end.

Record pm_eq (p q : pmem) : Prop := {
  pe_arrays : pm_arrays p = pm_arrays q;
  pe_data : data_eq (pm_data p) (pm_data q);
  pe_inode : pm_inode p = pm_inode q;
}.

#[global] Instance data_eq_equiv : Equivalence data_eq.
Proof.
  split.
  - intros d o. by destruct (d !! o).
  - intros d1 d2 H o. specialize (H o). destruct (d1 !! o), (d2 !! o); naive_solver.
  - intros d1 d2 d3 H1 H2 o. specialize (H1 o). specialize (H2 o).
    destruct (d1 !! o), (d2 !! o), (d3 !! o); try done. intros i. by rewrite H1.
Qed.

#[global] Instance pm_eq_equiv : Equivalence pm_eq.
Proof.
  split.
  - intros p. by split.
  - intros p q []. by split.
  - intros p q r [] []. split; [congruence|by etrans|congruence].
Qed.

Lemma data_eq_delete o d1 d2 : data_eq d1 d2 → data_eq (delete o d1) (delete o d2).
Proof.
  intros H x. rewrite !lookup_delete. destruct (decide (o = x)); [done|apply H].
Qed.

Lemma data_eq_alter f o d1 d2 : (∀ c1 c2, (∀ i, c1 i = c2 i) → ∀ i, f c1 i = f c2 i) →
  data_eq d1 d2 → data_eq (alter f o d1) (alter f o d2).
Proof.
  intros Hf H x. rewrite !lookup_alter. destruct (decide (o = x)) as [<- |?]; [|apply H].
  specialize (H o). destruct (d1 !! o), (d2 !! o); naive_solver.
Qed.

#[global] Instance apply_undo_proper u : Proper (pm_eq ==> pm_eq) (apply_undo u).
Proof.
  intros p q [Ha Hd Hi]. destruct u; split; cbn; try (by rewrite ?Ha, ?Hi); try done.
  - by apply data_eq_delete.
  - apply data_eq_alter; [|done]. intros c1 c2 Hc i. unfold restore_range. by case_match.
Qed.

#[global] Instance rollback_proper log : Proper (pm_eq ==> pm_eq) (rollback log).
Proof.
  induction log as [|u log IH]; intros p q H; [done|]. cbn. apply IH. by rewrite H.
Qed.

(** ** Snapshotted descriptors *)

Definition pm_upd (p : bptr) (f : block_desc → block_desc) (pm : pmem) : pmem :=
  set_arrays (desc_upd p f (pm_arrays pm)) pm.

Lemma desc_upd_commute p q f g arrs : p ≠ q →
  desc_upd p f (desc_upd q g arrs) = desc_upd q g (desc_upd p f arrs).
Proof.
  intros Hne. apply map_eq. intros a. rewrite !desc_upd_lookup. destruct (arrs !! a) as [arr|]; [|done]. cbn. f_equal.
  destruct p as [pa pi], q as [qa qi]. cbn. repeat case_decide; subst; try done.
  unfold set_ba_blocks. cbn. f_equal. apply list_eq. intros i.
  rewrite !list_lookup_alter. repeat case_decide; subst; try done; congruence.
Qed.

Lemma desc_upd_compose p f g arrs : desc_upd p f (desc_upd p g arrs) = desc_upd p (f ∘ g) arrs.
Proof.
  apply map_eq. intros a. rewrite !desc_upd_lookup. destruct (arrs !! a) as [arr|]; [|done]. cbn. f_equal.
  case_decide; [|done]. unfold set_ba_blocks. cbn. f_equal. apply list_eq. intros i.
  rewrite !list_lookup_alter. repeat case_decide; try done. by destruct (ba_blocks arr !! p.2).
Qed.

Lemma desc_upd_ext p f g arrs : (∀ d, desc_at arrs p = Some d → f d = g d) →
  desc_upd p f arrs = desc_upd p g arrs.
Proof.
  intros Hfg. apply map_eq. intros a. rewrite !desc_upd_lookup. destruct (arrs !! a) as [arr|] eqn:Ha; [|done]. cbn. f_equal.
  case_decide as Heq; [|done]. unfold set_ba_blocks. f_equal. apply list_eq. intros i. rewrite !list_lookup_alter.
  case_decide as Hi; [|done]. subst. destruct (ba_blocks arr !! p.2) as [d|] eqn:Hd; [|done]. cbn. f_equal.
  apply Hfg. unfold desc_at. by rewrite Ha.
Qed.

Lemma desc_upd_id p arrs d : desc_at arrs p = Some d → desc_upd p (λ _, d) arrs = arrs.
Proof.
  intros Hd. apply map_eq. intros a. rewrite desc_upd_lookup. destruct (arrs !! a) as [arr|] eqn:Ha; [|done]. cbn. f_equal.
  case_decide as Heq; [|done]. subst. unfold desc_at in Hd. rewrite Ha in Hd. cbn in Hd.
  destruct arr as [v n l bl]. unfold set_ba_blocks. cbn in *. f_equal. apply list_eq. intros i.
  rewrite list_lookup_alter. case_decide; [|done]. subst. by rewrite Hd.
Qed.

Lemma desc_upd_alter_next p f a x arrs :
  alter (set_ba_next x) a (desc_upd p f arrs) = desc_upd p f (alter (set_ba_next x) a arrs).
Proof.
  apply map_eq. intros b. rewrite desc_upd_lookup, !lookup_alter.
  destruct (decide (a = b)) as [<- |?]; rewrite desc_upd_lookup; [|done].
  destruct (arrs !! a); [|done]. cbn. by case_decide.
Qed.

Lemma desc_upd_delete p f a arrs : delete a (desc_upd p f arrs) = desc_upd p f (delete a arrs).
Proof.
  apply map_eq. intros b. rewrite desc_upd_lookup, !lookup_delete.
  destruct (decide (a = b)) as [<- |?]; [done|]. by rewrite desc_upd_lookup.
Qed.

(** An undo step turns a change of one descriptor into a change of that descriptor. *)
Lemma apply_undo_upd u p f pm : ∃ f', apply_undo u (pm_upd p f pm) = pm_upd p f' (apply_undo u pm).
Proof.
  assert (∀ g b, ∃ f', desc_upd b g (desc_upd p f (pm_arrays pm)) = desc_upd p f' (desc_upd b g (pm_arrays pm))) as Hd.
  { intros g b. destruct (decide (b = p)) as [-> |Hne]; [|exists f; by apply desc_upd_commute].
    exists (λ _, match desc_at (pm_arrays pm) p with Some d => g (f d) | None => zero_desc end).
    rewrite !desc_upd_compose. apply desc_upd_ext. intros d ->. done. }
  unfold pm_upd. destruct u as [b old|b old|b old|a old|o|o|o from len old|i old|i old|i old|i old]; cbn.
  - destruct (Hd (λ _, old) b) as [f' Hf']. exists f'. unfold set_arrays. cbn. by rewrite Hf'.
  - destruct (Hd (set_bd_next old) b) as [f' Hf']. exists f'. unfold set_arrays. cbn. by rewrite Hf'.
  - destruct (Hd (set_bd_prev old) b) as [f' Hf']. exists f'. unfold set_arrays. cbn. by rewrite Hf'.
  - exists f. unfold set_arrays. cbn. by rewrite desc_upd_alter_next.
  - exists f. unfold set_arrays. cbn. by rewrite desc_upd_delete.
  - by exists f.
  - by exists f.
  - by exists f.
  - by exists f.
  - by exists f.
  - by exists f.
Qed.

Lemma rollback_masks log p old f pm : UDesc p old ∈ log → rollback log (pm_upd p f pm) = rollback log pm.
Proof.
  revert f pm. induction log as [|u log IH]; intros f pm; [by intros ?%elem_of_nil|]. cbn.
  intros [<- |Hin]%elem_of_cons.
  - f_equal. unfold pm_upd. cbn. unfold set_arrays. cbn. by rewrite desc_upd_compose.
  - destruct (apply_undo_upd u p f pm) as [f' ->]. by apply IH.
Qed.

(** ** Programs whose effect the log can undo *)

(** Partial correctness: nothing is said about runs that end in a fault. *)
Definition wlp {S A} (m : M S A) (Q : A → S → Prop) (E : Z → S → Prop) (s : S) : Prop :=
  match m s with Ok a s' => Q a s' | Abort e s' => E e s' | Fault _ => True end.

(** Evaluate a primitive on a state. *)
Ltac run :=
  unfold wlp, mbind, option_bind, M_bind, gets, of_option, modify, mret, M_ret, fault_, tx_abort; cbn.

(** The volatile fields that a failed transaction does not restore. *)
Definition vol (s : fstate) : (option (aid * nat) * option bptr) * Z :=
  (v_snapshot (fs_v s), v_block_pointer_invalidation_counter (fs_v s)).

Section undo.
(** [vok]: what is known of the volatile snapshot and the invalidation counter. *)
Variables (pm0 : pmem) (vok : (option (aid * nat) * option bptr) * Z → Prop).

(** The log leads back to [pm0]; the descriptors [P] are snapshotted. *)
Definition undoable (P : list bptr) (s : fstate) : Prop :=
  ∃ t, fs_tx s = Some t ∧ pm_eq (rollback (tx_log t) (fs_pm s)) pm0 ∧
    (∀ p, p ∈ P → ∃ old, UDesc p old ∈ tx_log t) ∧ vok (vol s).

Lemma undoable_sub P P' s : (∀ p, p ∈ P' → p ∈ P) → undoable P s → undoable P' s.
Proof. intros HP (t & Ht & Hr & Hs & Hsn). exists t. split_and!; [done..| |done]. intros p Hp. by apply Hs, HP. Qed.

Lemma undoable_same P s s' : fs_pm s' = fs_pm s → fs_tx s' = fs_tx s →
  vol s' = vol s → undoable P s → undoable P s'.
Proof. intros Hp Ht Hsn (t & H1 & H2 & H3 & H4). exists t. rewrite Hp, Ht, Hsn. done. Qed.

Section keeps.
Context {S : Type} (get : S → fstate).

Definition keeps {A} (P : list bptr) (m : M S A) (P' : A → list bptr) : Prop := ∀ s,
  undoable P (get s) → wlp m (λ a s', undoable (P' a) (get s')) (λ _ s', undoable [] (get s')) s.

Lemma keeps_bind {A B} P (m : M S A) (f : A → M S B) P' P'' :
  keeps P m P' → (∀ a, keeps (P' a) (f a) P'') → keeps P (m ≫= f) P''.
Proof.
  intros Hm Hf s Hs. specialize (Hm s Hs). unfold wlp, mbind, M_bind in *.
  destruct (m s) as [a s'|e s'|x]; [|done|done]. by apply Hf.
Qed.

Lemma keeps_ret {A} P (a : A) P' : (∀ p, p ∈ P' a → p ∈ P) → keeps P (mret a) P'.
Proof. intros HP s Hs. by eapply undoable_sub. Qed.

Lemma keeps_gets {A} P (f : S → A) : keeps P (gets f) (λ _, P).
Proof. by intros s Hs. Qed.

Lemma keeps_get_st P : keeps P get_st (λ _, P).
Proof. by intros s Hs. Qed.

Lemma keeps_fault {A} P f P' : keeps P (fault_ f : M S A) P'.
Proof. by intros s Hs. Qed.

Lemma keeps_abort {A} P e P' : keeps P (tx_abort e : M S A) P'.
Proof. intros s Hs. eapply undoable_sub; [|done]. by intros p ?%elem_of_nil. Qed.

Lemma keeps_assert P b : keeps P (assert_ b) (λ _, P).
Proof. intros s Hs. by destruct b. Qed.

Lemma keeps_of_option {A} P f (o : option A) : keeps P (of_option f o) (λ _, P).
Proof. intros s Hs. by destruct o. Qed.

Lemma keeps_modify P f : (∀ s, fs_pm (get (f s)) = fs_pm (get s) ∧ fs_tx (get (f s)) = fs_tx (get s) ∧
    vol (get (f s)) = vol (get s)) →
  keeps P (modify f) (λ _, P).
Proof. intros Hf s Hs. destruct (Hf s) as (? & ? & ?). by eapply undoable_same. Qed.

Lemma keeps_sub {A} P P0 (m : M S A) P' P0' : (∀ p, p ∈ P0 → p ∈ P) → (∀ a p, p ∈ P' a → p ∈ P0' a) →
  keeps P0 m P0' → keeps P m P'.
Proof.
  intros H1 H2 Hm s Hs. specialize (Hm s (undoable_sub _ _ _ H1 Hs)). unfold wlp in *.
  destruct (m s); [|done|done]. eapply undoable_sub; [|done]. by apply H2.
Qed.
End keeps.

Notation fkeeps := (keeps (λ s : fstate, s)).

Lemma keeps_dram {A} P (m : M dram A) : fkeeps P (zoom fs_dram set_dram m) (λ _, P).
Proof.
  intros s Hs. unfold wlp, zoom. destruct (m (fs_dram s)); [by eapply undoable_same| |done].
  eapply undoable_sub; [|by eapply undoable_same]. by intros p ?%elem_of_nil.
Qed.

Lemma keeps_desc_get P p : fkeeps P (desc_get p) (λ _, P).
Proof. eapply keeps_bind; [apply keeps_gets|]. intros arrs. apply keeps_of_option. Qed.

Lemma keeps_array_get P a : fkeeps P (array_get a) (λ _, P).
Proof. eapply keeps_bind; [apply keeps_gets|]. intros arrs. apply keeps_of_option. Qed.

(** A recorded store: [u] undoes it. *)
Lemma undoable_store P s s' t u : fs_tx s = Some t →
  fs_tx s' = Some (Tx (u :: tx_log t) (tx_frees t)) → pm_eq (apply_undo u (fs_pm s')) (fs_pm s) →
  vol s' = vol s → undoable P s → undoable P s'.
Proof.
  intros Ht Ht' Hu Hv (t' & Ht2 & Hr & HP & Hsn). assert (t' = t) as -> by congruence. eexists. split; [done|]. cbn. split_and!.
  - by rewrite Hu.
  - intros p Hp. destruct (HP p Hp) as [old ?]. exists old. by right.
  - by rewrite Hv.
Qed.

Lemma keeps_tx_add_desc P p : fkeeps P (tx_add_desc p) (λ _, p :: P).
Proof.
  intros s (t & Ht & Hr & HP & Hsn). unfold tx_add_desc, desc_get, tx_record. run.
  destruct (desc_at (pm_arrays (fs_pm s)) p) as [d|] eqn:Hd; [|done]. cbn. rewrite Ht. cbn. eexists. split; [done|]. cbn. split_and!.
  - rewrite (desc_upd_id _ _ _ Hd). by destruct (fs_pm s).
  - intros q [-> |Hq]%elem_of_cons; [exists d; by left|]. destruct (HP q Hq) as [old ?]. exists old. by right.
  - done.
Qed.

Lemma keeps_desc_modify P p f : p ∈ P → fkeeps P (desc_modify p f) (λ _, P).
Proof.
  intros Hp s (t & Ht & Hr & HP & Hsn). unfold desc_modify, desc_get. run.
  destruct (desc_at (pm_arrays (fs_pm s)) p) as [d|] eqn:Hd; [|done]. cbn. exists t. split_and!; [done| |done|done].
  destruct (HP p Hp) as [old Hold]. pose proof (rollback_masks (tx_log t) p old f (fs_pm s) Hold) as Hm. by rewrite <-Hm in Hr.
Qed.

Lemma keeps_set_link P p set_link (u : option bptr → undo) (get_link : block_desc → option bptr) v :
  (∀ d, set_link (get_link d) (set_link v d) = d) →
  (∀ old pm, apply_undo (u old) pm = pm_upd p (set_link old) pm) →
  fkeeps P (d ← desc_get p; tx_record (u (get_link d));; desc_modify p (set_link v)) (λ _, P).
Proof.
  intros Hset Hu s Hs. pose proof Hs as (t & Ht & _). unfold desc_modify, desc_get, tx_record. run.
  destruct (desc_at (pm_arrays (fs_pm s)) p) as [d|] eqn:Hd; [|done]. cbn. rewrite Ht. cbn. rewrite Hd. cbn.
  eapply (undoable_store _ s); [done|done| |done|done]. cbn. rewrite Hu. unfold pm_upd, set_arrays. cbn.
  rewrite desc_upd_compose, (desc_upd_ext _ _ (λ _, d)).
  2:{ intros d' Hd'. rewrite Hd in Hd'. injection Hd' as <-. apply Hset. }
  rewrite (desc_upd_id _ _ _ Hd). by destruct (fs_pm s).
Qed.

Lemma keeps_tx_set_next P p v : fkeeps P (tx_set_next p v) (λ _, P).
Proof. apply (keeps_set_link P p set_bd_next (UNext p) bd_next v); [by intros []|done]. Qed.

Lemma keeps_tx_set_prev P p v : fkeeps P (tx_set_prev p v) (λ _, P).
Proof. apply (keeps_set_link P p set_bd_prev (UPrev p) bd_prev v); [by intros []|done]. Qed.

Lemma keeps_tx_set_array_next P a v : fkeeps P (tx_set_array_next a v) (λ _, P).
Proof.
  intros s Hs. pose proof Hs as (t & Ht & _). unfold tx_set_array_next, array_get, tx_record. run.
  destruct (pm_arrays (fs_pm s) !! a) as [arr|] eqn:Ha; [|done]. rewrite Ht. run.
  eapply (undoable_store _ s); [done|done| |done|done]. run. split; run; [|done|done].
  apply map_eq. intros b. rewrite lookup_alter, lookup_alter_eq. destruct (decide (a = b)) as [<- |?].
  - rewrite Ha. cbn. by destruct arr.
  - by rewrite lookup_alter_ne.
Qed.

Lemma keeps_tx_release P r : fkeeps P (tx_release r) (λ _, P).
Proof.
  intros s (t & Ht & Hr & HP & Hsn). unfold tx_release. run. rewrite Ht. run. eexists. split; [done|]. done.
Qed.

Lemma keeps_inode_store P u (f : inode → inode) (i : fstate → inode) : (∀ s, i s = pm_inode (fs_pm s)) →
  (∀ pm, apply_undo (u (pm_inode pm)) (set_inode (f (pm_inode pm)) pm) = pm) →
  fkeeps P (tx_i ← gets i; tx_record (u tx_i);; inode_upd f) (λ _, P).
Proof.
  intros Hi Hu s Hs. pose proof Hs as (t & Ht & _). unfold inode_upd, tx_record. run. rewrite Ht. run.
  eapply (undoable_store _ s); [done|done| |done|done]. cbn [fs_pm set_pm]. rewrite Hi, Hu. done.
Qed.

Lemma sset_sget_id {A} (b : bool) (v : A) x : sset b (sget b x) (sset b v x) = x.
Proof. by destruct b, x. Qed.

Ltac inode_undo := intros [arrs data []]; unfold apply_undo, set_inode; cbn;
  unfold inode_get_size, inode_get_mtime, inode_get_ctime, inode_tx_set_size, inode_tx_set_mtime, inode_tx_set_ctime,
    set_i_size, set_i_mtime, set_i_ctime; cbn; by rewrite sset_sget_id.

Lemma keeps_tx_set_size P sz : fkeeps P (tx_set_size sz) (λ _, P).
Proof.
  apply (keeps_inode_store P (λ i, USize (s_size (i_slots i)) (inode_get_size i)) (inode_tx_set_size sz)); [done|inode_undo].
Qed.

Lemma keeps_tx_set_mtime P tm : fkeeps P (tx_set_mtime tm) (λ _, P).
Proof.
  apply (keeps_inode_store P (λ i, UMtime (s_mtime (i_slots i)) (inode_get_mtime i)) (inode_tx_set_mtime tm)); [done|inode_undo].
Qed.

Lemma keeps_tx_set_ctime P tm : fkeeps P (tx_set_ctime tm) (λ _, P).
Proof.
  apply (keeps_inode_store P (λ i, UCtime (s_ctime (i_slots i)) (inode_get_ctime i)) (inode_tx_set_ctime tm)); [done|inode_undo].
Qed.

Lemma keeps_tx_set_allocated_space P sz : fkeeps P (tx_set_allocated_space sz) (λ _, P).
Proof.
  intros s Hs. pose proof Hs as (t & Ht & _). unfold tx_set_allocated_space, inode_of, inode_upd, tx_record. run.
  destruct (inode_get_allocated_space (pm_inode (fs_pm s)) =? sz) eqn:He; [done|]. rewrite Ht. run.
  eapply (undoable_store _ s); [done|done| |done|done]. cbn. unfold inode_tx_set_allocated_space. rewrite He.
  destruct (fs_pm s) as [arrs data []]. cbn. unfold set_inode, set_i_allocated_space. cbn. unfold inode_get_allocated_space. cbn.
  by rewrite sset_sget_id.
Qed.

Lemma keeps_tx_zero_range P b from len : fkeeps P (tx_zero_range b from len) (λ _, P).
Proof.
  intros s Hs. pose proof Hs as (t & Ht & _). unfold tx_zero_range, data_get, data_read, data_write, desc_get, tx_record. run.
  destruct (desc_at (pm_arrays (fs_pm s)) b) as [d|]; [|done]. destruct (bd_data d) as [o|]; [|done].
  destruct (pm_data (fs_pm s) !! o) as [c|] eqn:Hc; [|done]. rewrite Ht. run. unfold data_read. run. rewrite Hc. run.
  eapply (undoable_store _ s); [done|done| |done|done]. split; cbn; [done| |done]. intros x.
  rewrite lookup_alter. destruct (decide (o = x)) as [<- |?].
  - rewrite lookup_alter_eq, Hc. cbn. intros i. unfold restore_range, copy_bytes. by case_match.
  - rewrite lookup_alter_ne by done. by destruct (pm_data (fs_pm s) !! x).
Qed.

Section alloc.
Context {HP : Pobj} {HPok : PobjOk}.

Lemma keeps_tx_xalloc_array P size arr : fkeeps P (tx_xalloc_array size arr) (λ _, P).
Proof.
  intros s Hs. pose proof Hs as (t & Ht & _). unfold tx_xalloc_array, tx_record. run.
  destruct (palloc (fs_pm s) size) as [o|] eqn:Ho.
  - run. rewrite Ht. run. eapply (undoable_store _ s); [done|done| |done|done]. cbn. split; cbn; [|done|done].
    apply delete_insert_id. by eapply palloc_fresh_array.
  - run. eapply undoable_sub; [|done]. by intros p ?%elem_of_nil.
Qed.

Lemma keeps_tx_xalloc_data P size : fkeeps P (tx_xalloc_data size) (λ _, P).
Proof.
  intros s Hs. pose proof Hs as (t & Ht & _). unfold tx_xalloc_data, tx_record. run.
  destruct (palloc (fs_pm s) size) as [o|] eqn:Ho.
  - run. rewrite Ht. run. eapply (undoable_store _ s); [done|done| |done|done]. cbn. split; cbn; [done| |done].
    rewrite delete_insert_id; [done|]. by eapply palloc_fresh_data.
  - run. eapply undoable_sub; [|done]. by intros p ?%elem_of_nil.
Qed.
End alloc.

(** ** The operations of the data path *)

Lemma keeps_ret_same {S A} (get : S → fstate) P (a : A) : keeps get P (mret a) (λ _, P).
Proof. by apply keeps_ret. Qed.

Create HintDb keeps.
#[local] Hint Resolve keeps_gets keeps_get_st keeps_fault keeps_abort keeps_assert keeps_of_option keeps_dram
  keeps_desc_get keeps_array_get keeps_tx_add_desc keeps_tx_set_next keeps_tx_set_prev keeps_tx_set_array_next
  keeps_tx_release keeps_tx_set_size keeps_tx_set_mtime keeps_tx_set_ctime keeps_tx_set_allocated_space
  keeps_tx_zero_range keeps_tx_xalloc_array keeps_tx_xalloc_data keeps_ret_same : keeps.

(** One step: split a sequence, a branch, or use a lemma on the operation. *)
Ltac keep_step :=
  match goal with
  | |- ∀ _, _ => intros ?
  | |- keeps _ _ (_ ≫= _) _ => eapply keeps_bind
  | |- keeps _ _ (let '_ := ?x in _) _ => destruct x
  | |- keeps _ _ (match ?x with _ => _ end) _ => destruct x
  | |- keeps _ _ (modify _) _ => apply keeps_modify; done
  | |- keeps _ _ (desc_modify _ _) _ => apply keeps_desc_modify; set_solver
  | |- keeps _ _ _ _ => solve [eauto with keeps]
  | |- keeps _ _ (mret _) _ => apply keeps_ret; set_solver
  end; cbn beta.
Ltac keep := repeat keep_step.

Lemma keeps_update_first_block_info P : fkeeps P update_first_block_info (λ _, P).
Proof.
  assert (∀ n bs i, fkeeps P (first_free_index n bs i) (λ _, P)) as Hff.
  { induction n as [|n IH]; intros [|b bs] i; cbn [first_free_index]; keep. }
  unfold update_first_block_info, put_first_free. keep.
Qed.

Lemma keeps_has_free P : fkeeps P has_free_block_entry (λ _, P).
Proof. unfold has_free_block_entry, get_first_free. keep. Qed.

#[local] Hint Resolve keeps_update_first_block_info keeps_has_free : keeps.

Lemma keeps_assert_in_tx P : fkeeps P assert_in_tx (λ _, P).
Proof. unfold assert_in_tx. keep. Qed.
#[local] Hint Resolve keeps_assert_in_tx : keeps.

Section programs.
Context {HP : Pobj} {HPok : PobjOk}.
Variables (cfg : block_cfg) (calloc_ok : nat → bool).

Lemma keeps_allocate_new_block_array P : fkeeps P (allocate_new_block_array cfg) (λ _, P).
Proof. unfold allocate_new_block_array, put_first_free. keep. Qed.
#[local] Hint Resolve keeps_allocate_new_block_array : keeps.

Lemma keeps_acquire_new_entry P : fkeeps P (acquire_new_entry cfg) (λ b, b :: P).
Proof. unfold acquire_new_entry, take_free_entry, get_first_free, put_first_free. keep. Qed.
#[local] Hint Resolve keeps_acquire_new_entry : keeps.

Lemma keeps_block_list_insert_after P prev : fkeeps P (block_list_insert_after cfg prev) (λ b, b :: P).
Proof. unfold block_list_insert_after, put_first_block. keep. Qed.
#[local] Hint Resolve keeps_block_list_insert_after : keeps.

Lemma keeps_find_closest_block P off : fkeeps P (find_closest_block off) (λ _, P).
Proof. unfold find_closest_block. keep. Qed.

Lemma keeps_is_offset_in_block P b off : fkeeps P (is_offset_in_block b off) (λ _, P).
Proof. unfold is_offset_in_block. keep. Qed.

Lemma keeps_is_init P b : fkeeps P (is_block_data_initialized b) (λ _, P).
Proof. unfold is_block_data_initialized. keep. Qed.

Lemma keeps_vinode_blocks_insert P b : fkeeps P (vinode_blocks_insert calloc_ok b) (λ _, P).
Proof. unfold vinode_blocks_insert. keep. Qed.

Lemma keeps_vinode_blocks_remove P b : fkeeps P (vinode_blocks_remove calloc_ok b) (λ _, P).
Proof. unfold vinode_blocks_remove. keep. Qed.

#[local] Hint Resolve keeps_find_closest_block keeps_is_offset_in_block keeps_is_init keeps_vinode_blocks_insert
  keeps_vinode_blocks_remove : keeps.

Lemma keeps_add_block P prev offset info : fkeeps P (add_block cfg calloc_ok prev offset info) (λ _, P).
Proof.
  unfold add_block, file_allocate_block_data, block_cache_insert_block_in_tx, block_cache_insert_block. keep.
Qed.
#[local] Hint Resolve keeps_add_block : keeps.

Lemma keeps_data_block_info P size limit : fkeeps P (data_block_info cfg size limit) (λ _, P).
Proof.
  assert (∀ l prev, fkeeps P (data_block_loop prev l size limit) (λ _, P)) as Hl.
  { induction l as [|b l IH]; intros prev; cbn [data_block_loop]; keep. }
  unfold data_block_info, data_block_info_at. keep.
Qed.
#[local] Hint Resolve keeps_data_block_info : keeps.

Lemma keeps_allocate_loop P fuel : ∀ block offset size acc,
  fkeeps P (allocate_loop cfg calloc_ok fuel block offset size acc) (λ _, P).
Proof.
  induction fuel as [|fuel IH]; intros block offset size acc; cbn [allocate_loop]; keep; apply IH.
Qed.
#[local] Hint Resolve keeps_allocate_loop : keeps.

Lemma keeps_vinode_allocate_interval P over offset size :
  fkeeps P (vinode_allocate_interval cfg calloc_ok over offset size) (λ _, P).
Proof. unfold vinode_allocate_interval, is_append, find_last_block, inode_of. keep. Qed.

#[local] Hint Resolve keeps_vinode_allocate_interval : keeps.

Lemma keeps_unlink_block P b : fkeeps P (unlink_block b) (λ _, P).
Proof. unfold unlink_block. keep. Qed.

Lemma keeps_relocate_block P dst src : fkeeps P (relocate_block dst src) (λ _, dst :: dst :: P).
Proof. unfold relocate_block. keep. Qed.

(** What [P] held before is still snapshotted. *)
Lemma keeps_forget {A} (get : fstate → fstate) P (m : M fstate A) P' :
  keeps get P m P' → (∀ a p, p ∈ P → p ∈ P' a) → keeps get P m (λ _, P).
Proof. intros Hm HP'. eapply keeps_sub; [by intros p ?| |done]. done. Qed.

Lemma keeps_move_last_block P b mv : fkeeps P (move_last_block calloc_ok b mv) (λ _, P).
Proof.
  unfold move_last_block, put_first_block. repeat first [eapply keeps_forget; [apply keeps_relocate_block|set_solver]|keep_step].
Qed.

Lemma keeps_remove_first_block_array P : fkeeps P remove_first_block_array (λ _, P).
Proof. unfold remove_first_block_array, put_first_free. keep. Qed.

Lemma keeps_is_first_empty P : fkeeps P is_first_block_array_empty (λ _, P).
Proof. unfold is_first_block_array_empty, get_first_free. keep. Qed.

Lemma keeps_last_used_block P : fkeeps P last_used_block (λ _, P).
Proof. unfold last_used_block, get_first_free. keep. Qed.

#[local] Hint Resolve keeps_unlink_block keeps_move_last_block keeps_remove_first_block_array keeps_is_first_empty
  keeps_last_used_block : keeps.

Lemma keeps_release_last_entry P mv : fkeeps P (release_last_entry mv) (λ _, P).
Proof.
  eapply (keeps_forget _ _ _ (λ _, mv :: P)); [|set_solver].
  unfold release_last_entry, get_first_free, put_first_free. keep.
Qed.
#[local] Hint Resolve keeps_release_last_entry : keeps.

Lemma keeps_block_list_remove P b : fkeeps P (block_list_remove calloc_ok b) (λ _, P).
Proof. unfold block_list_remove, get_first_free, put_first_block. keep. Qed.
#[local] Hint Resolve keeps_block_list_remove : keeps.

Lemma keeps_remove_loop P fuel : ∀ block offset len acc,
  fkeeps P (remove_loop calloc_ok fuel block offset len acc) (λ _, P).
Proof.
  induction fuel as [|fuel IH]; intros block offset len acc; cbn [remove_loop]; unfold is_block_at_right_edge; keep.
Qed.
#[local] Hint Resolve keeps_remove_loop : keeps.

Lemma keeps_invalidate P : (∀ x c, vok (x, c) → vok (x, u64 (c + 1))) →
  fkeeps P (modify (λ s, set_v (set_counter (u64 (v_block_pointer_invalidation_counter (fs_v s) + 1)) (fs_v s)) s)) (λ _, P).
Proof. intros Hc s (t & H1 & H2 & H3 & H4). run. exists t. split_and!; [done..|]. by apply Hc. Qed.
#[local] Hint Resolve keeps_invalidate : keeps.

Lemma keeps_vinode_remove_interval P offset len : (∀ x c, vok (x, c) → vok (x, u64 (c + 1))) →
  fkeeps P (vinode_remove_interval calloc_ok offset len) (λ _, P).
Proof. intros Hc. unfold vinode_remove_interval. keep. Qed.
#[local] Hint Resolve keeps_vinode_remove_interval : keeps.

Lemma keeps_allocate_space_tx P over offset len e : fkeeps P (allocate_space_tx cfg calloc_ok over offset len e) (λ _, P).
Proof. unfold allocate_space_tx, inode_of. keep. Qed.

Lemma keeps_fallocate_tx P over mode offset len opl : (∀ x c, vok (x, c) → vok (x, u64 (c + 1))) →
  fkeeps P (fallocate_tx cfg calloc_ok over mode offset len opl) (λ _, P).
Proof. intros Hc. unfold fallocate_tx, inode_of. keep. Qed.

Lemma keeps_on_file {A} P (m : M fstate A) P' : fkeeps P m P' → keeps io_fs P (on_file m) P'.
Proof.
  intros Hm s Hs. specialize (Hm (io_fs s) Hs). unfold wlp, on_file, zoom in *.
  by destruct (m (io_fs s)).
Qed.

Lemma keeps_truncate_tx P over clock size : (∀ x c, vok (x, c) → vok (x, u64 (c + 1))) →
  keeps io_fs P (truncate_tx cfg calloc_ok over clock size) (λ _, P).
Proof.
  intros Hc. unfold truncate_tx, io_inode, get_current_time.
  repeat first [apply keeps_on_file; solve [eauto with keeps]|keep_step].
Qed.
End programs.
End undo.

(** ** Failed transactions *)

(** What [vinode_restore_on_abort] leaves after a rollback. *)
Record restored (s s' : fstate) : Prop := {
  res_pm : pm_eq (fs_pm s') (fs_pm s);
  res_tx : fs_tx s' = None;
  res_first_free : v_first_free_block (fs_v s') = v_first_free_block (fs_v s);
  res_first : v_first_block (fs_v s') = v_first_block (fs_v s);
  res_blocks : v_blocks (fs_v s') = None;
}.

Lemma tx_begin_on_abort {S A} (get : S → fstate) (set : fstate → S → S) (body : M S A) vok on_abort P' s a s' :
  (∀ x s, get (set x s) = x) → keeps (fs_pm (get s)) vok get [] body P' → vok (vol (get s)) →
  tx_begin_on get set body on_abort s = Ok a s' →
  (∃ s1 t, body (set (set_tx (Some (Tx [] [])) (get s)) s) = Ok a s1 ∧ fs_tx (get s1) = Some t ∧
     s' = set (tx_commit t (get s1)) s1) ∨
  (∃ e s1, on_abort e s1 = Ok a s' ∧ pm_eq (fs_pm (get s1)) (fs_pm (get s)) ∧ fs_tx (get s1) = None ∧
     vok (vol (get s1))).
Proof.
  intros Hgs Hk Hvok. unfold tx_begin_on. destruct (fs_tx (get s)); [done|].
  specialize (Hk (set (set_tx (Some (Tx [] [])) (get s)) s)).
  rewrite Hgs in Hk. unfold wlp in Hk. destruct (body _) as [b s1|e s1|f] eqn:Hb.
  - destruct (fs_tx (get s1)) as [t|] eqn:Ht; [|done]. intros [= <- <-]. left. by exists s1, t.
  - destruct Hk as (t & Ht & Hr & _ & Hsn).
    { exists (Tx [] []). split_and!; [done|done| |done]. by intros p ?%elem_of_nil. }
    rewrite Ht. intros Hon. right. exists e, (set (tx_rollback t (get s1)) s1). rewrite Hgs. by split_and!.
  - done.
Qed.

Lemma restore_on_abort_ok s s' u : vinode_restore_on_abort s = Ok u s' →
  fs_pm s' = fs_pm s ∧ fs_tx s' = fs_tx s ∧ v_first_free_block (fs_v s') = (v_snapshot (fs_v s)).1 ∧
  v_first_block (fs_v s') = (v_snapshot (fs_v s)).2 ∧ v_blocks (fs_v s') = None ∧ vol s' = vol s.
Proof.
  unfold vinode_restore_on_abort. run. destruct (v_blocks (fs_v s)) as [m|] eqn:Hm; run.
  - unfold zoom. destruct (offset_map_delete m _); [|done|done]. by intros [= <- <-].
  - by intros [= <- <-].
Qed.

(** A program that only adds a result to a body that cannot be undone otherwise. *)
Lemma keeps_then_ret {S A B} pm0 vok (get : S → fstate) (m : M S A) (b : B) :
  keeps pm0 vok get [] m (λ _, []) → keeps pm0 vok get [] (m;; mret b) (λ _, []).
Proof. intros Hm. eapply keeps_bind; [done|]. intros a. by apply keeps_ret. Qed.

(** A transaction of the file that returns a non-zero error. *)
Lemma failed_tx {S} (get : S → fstate) (set : fstate → S → S) (body : M S unit) (restore : M S unit) (h : Z → Z) s r s' :
  (∀ x s, get (set x s) = x) →
  (∀ u s s', restore s = Ok u s' → vinode_restore_on_abort (get s) = Ok u (get s')) →
  keeps (fs_pm (get s)) (λ x, x.1 = v_snapshot (fs_v (get s))) get [] body (λ _, []) →
  v_snapshot (fs_v (get s)) = (v_first_free_block (fs_v (get s)), v_first_block (fs_v (get s))) →
  tx_begin_on get set (body;; mret 0) (λ e, restore;; mret (h e)) s = Ok r s' →
  r ≠ 0 → restored (get s) (get s').
Proof.
  intros Hgs Hres Hk Hsn0 Htx Hr.
  eapply (tx_begin_on_abort get set) in Htx as [(s1 & t & Hb & _)|(e & s1 & Hon & Hpm & Ht & Hsn)];
    [| |done|by apply keeps_then_ret|done].
  - exfalso. revert Hb. unfold mbind, M_bind. destruct (body _); [|done|done]. by intros [= <- _].
  - revert Hon. unfold mbind, M_bind. destruct (restore s1) as [u s2|? ?|?] eqn:Hro; [|done|done].
    intros [= <- <-]. destruct (restore_on_abort_ok _ _ _ (Hres _ _ _ Hro)) as (H1 & H2 & H3 & H4 & H5 & _).
    cbn in Hsn. rewrite Hsn, Hsn0 in *. by split; [rewrite H1|congruence|..].
Qed.

(** C18: when allocating space for a write fails, the persistent state of the
    file (block arrays, block data, inode) is what it was before, and the
    volatile pointers are back where they were; the tree of blocks is gone and
    is rebuilt by the next operation.  Nothing is assumed about the file. *)
Theorem failed_allocate_space_undone (HP : Pobj) (HPok : PobjOk) cfg calloc_ok over offset len expect_changes s r s' :
  pmemfile_allocate_space cfg calloc_ok over offset len expect_changes s = Ok r s' → r ≠ 0 → restored s s'.
Proof.
  unfold pmemfile_allocate_space. run. intros Hrun Hr.
  eapply (failed_tx id (λ x _, x)) in Hrun; [by destruct Hrun|done|done|by apply keeps_allocate_space_tx|done|done].
Qed.

(** A failed [fallocate] leaves the persistent state of the file as it was,
    for allocation and for hole punching. *)
Theorem failed_fallocate_undone (HP : Pobj) (HPok : PobjOk) cfg calloc_ok over mode offset len s r s' :
  is_Some (v_blocks (fs_v s)) →
  vinode_fallocate cfg calloc_ok over mode offset len s = Ok r s' → r ≠ 0 → r ≠ EBADF → restored s s'.
Proof.
  intros [m Hm] Hrun Hr Hb. revert Hrun. unfold vinode_fallocate, assert_not_in_tx, inode_of. run.
  destruct (fs_tx s) eqn:Htx; run; [done|]. destruct (inode_is_regular_file _); run; [|by intros [= <- _]].
  destruct (if negb _ then _ else _) as [o l]. destruct (l =? 0); run; [by intros [= <- _]|]. rewrite Hm. run. intros Hrun.
  eapply (failed_tx id (λ x _, x)) in Hrun; [by destruct Hrun|done|done|by apply keeps_fallocate_tx|done|done].
Qed.

(** A failed truncation leaves the persistent state of the file as it was,
    although it frees blocks and allocates others on the way. *)
Theorem failed_truncate_undone (HP : Pobj) (HPok : PobjOk) cfg calloc_ok over clock size s r s' :
  is_Some (v_blocks (fs_v (io_fs s))) →
  vinode_truncate cfg calloc_ok over clock size s = Ok r s' → r ≠ 0 → restored (io_fs s) (io_fs s').
Proof.
  intros [m Hm] Hrun Hr. revert Hrun. unfold vinode_truncate, on_file, assert_not_in_tx. run. unfold zoom at 1. run.
  destruct (fs_tx (io_fs s)) eqn:Htx; run; [done|]. cbn. rewrite Hm. run. unfold zoom at 1. run. intros Hrun.
  eapply (failed_tx io_fs set_io_fs) in Hrun; [by destruct Hrun|done| |by apply keeps_truncate_tx|done|done].
  intros u s1 s2. unfold zoom. destruct (vinode_restore_on_abort (io_fs s1)); [|done|done]. by intros [= <- <-].
Qed.

(** ** An example: a pool with room for one object *)

Module ExUndo.
#[export] Instance pobj : Pobj :=
  {| palloc p _ := if bool_decide (size (pm_data p) < 1)%nat then Some (Ex.next_oid p) else None;
     garbage _ _ := 0x66 |}.

#[export] Instance pobj_ok : PobjOk.
Proof.
  split; intros p sz o; cbn; (case_bool_decide; [|done]); intros H'.
  - by apply (palloc_fresh_array (PobjOk := Ex.pobj_ok) p sz).
  - by apply (palloc_fresh_data (PobjOk := Ex.pobj_ok) p sz).
Qed.

Definition clock (_ : nat) : pmemfile_time := Time 7 0.
Definition io0 : io :=
  Io (Ex.file0 None) Ex.time0 false (PFile (Z.lor PFILE_READ PFILE_WRITE) 0 None 0) Unlocked false 0 0.
End ExUndo.

(** Writing far behind the end needs a second block, which the pool does not have. *)
Lemma failed_allocate_space_witness :
  match @pmemfile_allocate_space ExUndo.pobj default_cfg Ex.calloc true 0 100000000 false (Ex.file0 None) with
  | Ok r s' => r = ENOSPC ∧ restored (Ex.file0 None) s'
  | _ => False
  end.
Proof.
  destruct (@pmemfile_allocate_space _ _ _ _ _ _ _ _) as [r s'|? ?|?] eqn:Hrun; [|by vm_compute in Hrun..].
  assert (r = ENOSPC) as -> by (vm_compute in Hrun; by injection Hrun). split; [done|].
  by apply (failed_allocate_space_undone ExUndo.pobj ExUndo.pobj_ok default_cfg Ex.calloc true 0 100000000 false _ ENOSPC).
Defined.

Lemma failed_fallocate_witness :
  match @vinode_fallocate ExUndo.pobj default_cfg Ex.calloc true 0 0 100000000 (Ex.file0 None) with
  | Ok r s' => r = ENOSPC ∧ restored (Ex.file0 None) s'
  | _ => False
  end.
Proof.
  destruct (@vinode_fallocate _ _ _ _ _ _ _ _) as [r s'|? ?|?] eqn:Hrun; [|by vm_compute in Hrun..].
  assert (r = ENOSPC) as -> by (vm_compute in Hrun; by injection Hrun). split; [done|].
  by apply (failed_fallocate_undone ExUndo.pobj ExUndo.pobj_ok default_cfg Ex.calloc true 0 0 100000000 _ ENOSPC).
Defined.

Lemma failed_truncate_witness :
  match @vinode_truncate ExUndo.pobj default_cfg Ex.calloc true ExUndo.clock 100000000 ExUndo.io0 with
  | Ok r s' => r = EFBIG ∧ restored (io_fs ExUndo.io0) (io_fs s')
  | _ => False
  end.
Proof.
  destruct (@vinode_truncate _ _ _ _ _ _ _) as [r s'|? ?|?] eqn:Hrun; [|by vm_compute in Hrun..].
  assert (r = EFBIG) as -> by (vm_compute in Hrun; by injection Hrun). split; [done|].
  by apply (failed_truncate_undone ExUndo.pobj ExUndo.pobj_ok default_cfg Ex.calloc true ExUndo.clock 100000000 _ EFBIG).
Defined.
