(* ===== verification/FileSpec.v ===== *)
(** The abstract file (a size and a byte for each position), the state of a
    file between two operations ([file_open]), and the parts of the file
    operations that work on blocks: reading, writing, asking whether an
    interval is allocated, allocating space in a transaction. *)
From stdpp Require Import sorting.
From S2P Require Import Prelude Layout Inode Blocks OffsetMap OffsetMapRep FileState BlockList.
From S2P Require Import BlockArray BlockArrayRep Data FileRep DataAlloc DataIO DataRemove FileTx FileIO Undo.

Section blocks.
Variables (cfg : block_cfg) (bs : list pmem_block_info).
Hypothesis Hcfg : cfg_wf cfg bs.
Implicit Types (s : fstate) (L : list bptr) (es : list extent).

(** ** Finding the block of an offset *)

Lemma hint_split s L es p : file_rep cfg s L es → p ∈ L → ∃ L1 L2 es1 d es2,
  L = L1 ++ p :: L2 ∧ es = es1 ++ payload d :: es2 ∧ length L1 = length es1 ∧
  desc_at (pm_arrays (fs_pm s)) p = Some d ∧ bd_next d = head L2.
Proof.
  intros Hr Hp. apply list_elem_of_split in Hp as (L1 & L2 & ->).
  destruct (rep_split _ _ _ _ _ _ Hr) as (es1 & e & es2 & d & -> & Hl & Hd & <- & _ & Hn).
  by exists L1, L2, es1, d, es2.
Qed.

(** Only the closest block can cover the offset. *)
Lemma at_covers es1 e es2 off : StronglySorted before (es1 ++ e :: es2) → ex_offset e ≤ off →
  (∀ e', e' ∈ es2 → off < ex_offset e') → covered (es1 ++ e :: es2) off → covers e off = true.
Proof.
  intros Hs Hle Haft (x & Hx & Hc). apply elem_of_app in Hx as [Hx|[-> |Hx]%elem_of_cons]; [|done|]; exfalso;
    apply covers_true in Hc.
  - destruct (sorted_mid _ _ _ Hs) as (Hb & _). specialize (Hb x Hx). unfold before in Hb. lia.
  - specialize (Haft x Hx). lia.
Qed.

(** The cached block is an optimisation: the block found is the one without it. *)
Lemma wp_find_closest_block_with_hint s L es off hint Q E :
  file_rep cfg s L es → hint_ok L hint → 0 ≤ off →
  ((∀ e, e ∈ es → off < ex_offset e) → Q None s) →
  (∀ L1 p L2 es1 e es2, L = L1 ++ p :: L2 → es = es1 ++ e :: es2 → length L1 = length es1 →
    ex_offset e ≤ off → (∀ e', e' ∈ es2 → off < ex_offset e') → Q (Some p) s) →
  wp (find_closest_block_with_hint off hint) Q E s.
Proof.
  intros Hr Hh Ho HN HS. unfold find_closest_block_with_hint. destruct hint as [p|].
  - destruct (hint_split _ _ _ p Hr (Hh p eq_refl)) as (L1 & L2 & es1 & d & es2 & -> & -> & Hl & Hd & _).
    wp_steps. eapply wp_is_offset_in_block; [done|done|done|].
    destruct (covers (payload d) off) eqn:Hc; wp_steps; [|by eapply wp_find_closest_block].
    apply covers_true in Hc. eapply HS; [done|done|done|lia|]. intros e' He'.
    destruct (sorted_mid _ _ _ (es_sorted _ _ _ (fr_ok _ _ _ _ Hr))) as (_ & Ha & _).
    specialize (Ha e' He'). unfold before in Ha. lia.
  - cbn [is_offset_in_block]. wp_steps. by eapply wp_find_closest_block.
Qed.

Lemma interval_fuel_ok offset len : 0 ≤ len → read_fuel cfg (interval_fuel len) offset len.
Proof.
  intros Hl. left. unfold interval_fuel. pose proof (Z.div_pos len MIN_BLOCK_SIZE Hl ltac:(done)). lia.
Qed.

(** ** Reading *)

(** How many bytes a read of [count] bytes at [offset] gets. *)
Definition read_count (size offset count : Z) : Z := Z.max 0 (Z.min count (size - offset)).

Lemma wp_vinode_read s L es offset hint buf count size Q E :
  file_rep cfg s L es → hint_ok L hint → 0 ≤ offset → 0 ≤ count →
  inode_get_size (pm_inode (fs_pm s)) = size → 0 ≤ size ≤ 2 ^ 63 →
  no_hole_between es offset (read_count size offset count) →
  (∀ lb buf', hint_ok L lb → read_into s es offset (read_count size offset count) 0 buf buf' →
    Q (read_count size offset count, lb, buf') s) →
  wp (vinode_read offset hint buf count) Q E s.
Proof.
  intros Hr Hh Ho Hc <- Hsz Hn HQ. unfold vinode_read, inode_of. wp_steps.
  set (size := inode_get_size (pm_inode (fs_pm s))) in *. unfold read_count in *.
  zcase (size <=? offset).
  { wp_steps. rewrite Z.max_l in HQ, Hn by lia. apply HQ; [done|]. apply read_into_nil. }
  assert (u64 (size - offset) = size - offset) as -> by (apply Z.mod_small; lia).
  assert ((if size - offset <? count then size - offset else count) = Z.max 0 (Z.min count (size - offset))) as ->.
  { zcase (size - offset <? count); lia. }
  set (n := Z.max 0 (Z.min count (size - offset))) in *. wp_steps.
  assert (∀ block, read_pos L es offset n block → (∀ p, block = Some p → p ∈ L) →
    wp ('(block, buf') ← iterate_on_file_range block offset n buf read_from_blocks;
        mret (n, match block with Some b => Some b | None => hint end, buf')) Q E s) as Hmain.
  { intros block Hpos Hb. apply wp_bind. unfold iterate_on_file_range. eapply wp_mono.
    - eapply (read_loop_ok cfg bs Hcfg s L es Hr); [exact Hb|done|lia|lia|apply interval_fuel_ok; lia|done|done].
    - intros [lb buf'] s' (-> & Hri & Hlb). wp_steps. apply HQ; [|done]. by destruct lb.
    - done. }
  eapply wp_find_closest_block_with_hint; [done|done|done|..].
  - intros Hbef. apply Hmain; [by apply rp_start|done].
  - intros L1 p L2 es1 e es2 HL Hes Hlen Hle Haft. apply Hmain; [by eapply rp_at|].
    intros p' [= <-]. rewrite HL, elem_of_app, elem_of_cons. tauto.
Qed.

(** ** Writing *)

Lemma wp_vinode_write s L es offset hint buf count Q E :
  file_rep cfg s L es → hint_ok L hint → 0 ≤ offset → 0 < count → offset + count ≤ 2 ^ 63 →
  (∀ i, offset ≤ i < offset + count → covered es i) →
  (∀ lb s' es', hint_ok L lb → file_rep cfg s' L es' → write_post s es offset count buf 0 s' es' → Q lb s') →
  wp (vinode_write offset hint buf count) Q E s.
Proof.
  intros Hr Hh Ho Hc Hb Hcov HQ. unfold vinode_write. wp_steps; [by apply Z.ltb_lt|].
  eapply wp_find_closest_block_with_hint; [done|done|done|..].
  - intros Hbef. exfalso. destruct (Hcov offset) as (e & He & Hce%covers_true); [lia|]. specialize (Hbef e He). lia.
  - intros L1 p L2 es1 e es2 HL Hes Hlen Hle Haft. wp_steps. unfold iterate_on_file_range. eapply wp_mono.
    + eapply (write_loop_ok cfg bs Hcfg _ L buf s es); [|exact Hr| |exact Hcov|done|lia|lia|].
      * intros p' [= <-]. rewrite HL, elem_of_app, elem_of_cons. tauto.
      * eapply wpos_at; [done..|]. eapply at_covers; [|done|done|rewrite <-Hes; apply Hcov; lia].
        rewrite <-Hes. apply Hr.
      * intros _. apply interval_fuel_ok. lia.
    + intros [lb buf'] s' (-> & Hlb & es' & Hr' & Hpost). wp_steps. apply (HQ _ _ es'); [by destruct lb|done|done].
    + done.
Qed.

(** ** Is an interval allocated? *)

(** The end of a block is in a hole unless the next block covers it. *)
Lemma end_not_covered es1 e es2 e' : StronglySorted before ((es1 ++ [e]) ++ e' :: es2) →
  (∀ x, x ∈ (es1 ++ [e]) ++ e' :: es2 → 0 < ex_size x) → covers e' (ex_end e) = false →
  ¬ covered ((es1 ++ [e]) ++ e' :: es2) (ex_end e).
Proof.
  intros Hs Hpos Hc Hall. pose proof (Hpos e ltac:(rewrite !elem_of_app, list_elem_of_singleton; tauto)) as He.
  pose proof (Hpos e' ltac:(apply elem_of_app; right; by left)) as He'. apply covers_false in Hc.
  destruct (sorted_mid _ _ _ Hs) as (Hb & Ha & _). specialize (Hb e ltac:(apply elem_of_app; right; by left)).
  rewrite <-app_assoc in Hs, Hall. cbn in Hs, Hall. apply at_covers in Hall; [|done|unfold ex_end; lia|].
  - apply covers_true in Hall. lia.
  - unfold before, ex_end in *. intros y [-> |Hy]%elem_of_cons; [lia|]. specialize (Ha y Hy). lia.
Qed.

Lemma interval_allocated_loop_ok fuel L1 p L2 es1 d es2 s from to Q E :
  file_rep cfg s (L1 ++ p :: L2) (es1 ++ payload d :: es2) → length L1 = length es1 →
  desc_at (pm_arrays (fs_pm s)) p = Some d → bd_next d = head L2 → (length L2 < fuel)%nat →
  bd_offset d ≤ from < ex_end (payload d) →
  (∀ b : bool, (b = true ↔ ∀ i, from ≤ i < to → covered (es1 ++ payload d :: es2) i) → Q b s) →
  wp (interval_allocated_loop fuel p to) Q E s.
Proof.
  revert L1 p L2 es1 d es2 from. induction fuel as [|fuel IH]; intros L1 p L2 es1 d es2 from Hr Hlen Hd Hn Hf Hfrom HQ; [lia|].
  cbn [interval_allocated_loop]. wp_steps. eapply wp_desc_get; [done|]. wp_steps.
  pose proof (rep_ext _ _ _ _ (payload d) Hr ltac:(rewrite elem_of_app, elem_of_cons; tauto)) as [_ _ Hp1 Hp2 _ Hp3].
  unfold ex_end, MIN_BLOCK_SIZE in *. cbn [payload ex_offset ex_size] in *.
  assert (u64 (bd_offset d + bd_size d) = bd_offset d + bd_size d) as -> by (apply Z.mod_small; lia).
  assert (∀ i, from ≤ i < bd_offset d + bd_size d → covered (es1 ++ payload d :: es2) i) as Hin.
  { intros i Hi. exists (payload d). split; [rewrite elem_of_app, elem_of_cons; tauto|].
    apply covers_true. unfold ex_end. cbn. lia. }
  zcase (bd_offset d + bd_size d <? to); last first.
  { wp_steps. apply HQ. zcase (to <=? bd_offset d + bd_size d); [|lia]. split; [|done]. intros _ i Hi. apply Hin. lia. }
  assert (bd_offset d ≤ bd_offset d + bd_size d) as Hmid by lia.
  pose proof (es_sorted _ _ _ (fr_ok _ _ _ _ Hr)) as Hsort. destruct (sorted_mid _ _ _ Hsort) as (_ & Ha & _).
  rewrite Hn. destruct L2 as [|p' L2]; cbn [head hd_error].
  - cbn [is_offset_in_block]. wp_steps. apply HQ. zcase (to <=? bd_offset d + bd_size d); [lia|]. split; [done|]. intros Hall. exfalso.
    pose proof (Forall2_length _ _ _ (fr_ext _ _ _ _ Hr)) as Hll. rewrite !length_app in Hll. cbn in Hll.
    destruct es2 as [|? ?]; [|cbn in Hll; lia]. specialize (Hall (bd_offset d + bd_size d) ltac:(lia)).
    apply at_covers in Hall; [|done|cbn; lia|by intros ? ?%elem_of_nil]. apply covers_true in Hall. unfold ex_end in Hall. cbn in Hall. lia.
  - replace (L1 ++ p :: p' :: L2) with ((L1 ++ [p]) ++ p' :: L2) in * by (by rewrite <-app_assoc).
    destruct (rep_split _ _ _ _ _ _ Hr) as (es1' & e' & es2' & d' & Heq & Hl' & Hd' & <- & _ & Hn').
    replace (es1 ++ payload d :: es2) with ((es1 ++ [payload d]) ++ es2) in * by (by rewrite <-app_assoc).
    apply app_inj_1 in Heq as [<- ->]; [|rewrite length_app in *; cbn in *; lia].
    wp_steps. eapply wp_is_offset_in_block; [exact Hr|done|done|].
    destruct (covers (payload d') (bd_offset d + bd_size d)) eqn:Hc; wp_steps.
    + apply covers_true in Hc. unfold ex_end in Hc. cbn in Hc.
      eapply (IH (L1 ++ [p]) p' L2 (es1 ++ [payload d]) d' es2' (bd_offset d + bd_size d)); [done|done|done|done|cbn in Hf; lia| |].
      { unfold ex_end. cbn. lia. }
      intros b Hb. apply HQ. rewrite Hb. split; intros Hall i Hi; [|apply Hall; lia].
      destruct (decide (i < bd_offset d + bd_size d)); [apply Hin; lia|apply Hall; lia].
    + apply HQ. zcase (to <=? bd_offset d + bd_size d); [lia|]. split; [done|]. intros Hall. exfalso.
      eapply (end_not_covered es1 (payload d) es2'); [exact Hsort| |exact Hc|apply Hall; unfold ex_end; cbn; lia].
      intros x Hx. by eapply rep_ext.
Qed.

(** The part of [vinode_is_interval_allocated] after the block was chosen. *)
Lemma wp_allocated_from s L es offset size block Q E :
  file_rep cfg s L es → hint_ok L block → 0 ≤ offset → 0 < size →
  (∀ p d, block = Some p → desc_at (pm_arrays (fs_pm s)) p = Some d → covers (payload d) offset = false →
    ¬ covered es offset) →
  (block = None → ¬ covered es offset) →
  (∀ b : bool, (b = true ↔ ∀ i, offset ≤ i < offset + size → covered es i) → Q b s) →
  wp (inside ← is_offset_in_block block offset;
      if negb inside then mret false
      else b ← deref block; s ← get_st; interval_allocated_loop (walk_fuel s) b (offset + size)) Q E s.
Proof.
  intros Hr Hh Ho Hs Hb1 Hb2 HQ. destruct block as [p|]; last first.
  { cbn [is_offset_in_block]. wp_steps. apply HQ. split; [done|]. intros Hall. by destruct Hb2; [|apply Hall; lia]. }
  destruct (hint_split _ _ _ p Hr (Hh p eq_refl)) as (L1 & L2 & es1 & d & es2 & -> & -> & Hl & Hd & Hn).
  wp_steps. eapply wp_is_offset_in_block; [done|done|done|]. destruct (covers (payload d) offset) eqn:Hc; wp_steps.
  - apply covers_true in Hc. eapply interval_allocated_loop_ok; [done|done|done|done| |done|done].
    pose proof (rep_walk_fuel cfg _ _ _ Hr) as Hf. rewrite length_app in Hf. cbn in Hf. lia.
  - apply HQ. split; [done|]. intros Hall. exfalso. eapply Hb1; [done..|]. apply Hall. lia.
Qed.

Lemma wp_vinode_is_interval_allocated s L es offset size hint Q E :
  file_rep cfg s L es → hint_ok L hint → 0 ≤ offset → 0 < size → offset + size ≤ 2 ^ 63 →
  (∀ b : bool, (b = true ↔ ∀ i, offset ≤ i < offset + size → covered es i) → Q b s) →
  wp (vinode_is_interval_allocated offset size hint) Q E s.
Proof.
  intros Hr Hh Ho Hs Hb HQ. unfold vinode_is_interval_allocated.
  assert (u64 (offset + size) = offset + size) as -> by (apply Z.mod_small; lia).
  wp_steps; [by apply Z.ltb_lt|apply Z.ltb_lt; lia|].
  assert (wp (find_closest_block offset) (λ block s', wp (inside ← is_offset_in_block block offset;
        if negb inside then mret false
        else b ← deref block; s ← get_st; interval_allocated_loop (walk_fuel s) b (offset + size)) Q E s') E s) as Hclosest.
  { eapply wp_find_closest_block; [done|done|..].
    - intros Hbef. eapply wp_allocated_from; try done. intros _ (e & He & Hc%covers_true). specialize (Hbef e He). lia.
    - intros L1 p L2 es1 e es2 -> -> Hl Hle Haft. eapply wp_allocated_from; try done.
      + intros p' [= <-]. rewrite elem_of_app, elem_of_cons. tauto.
      + destruct (rep_split _ _ _ _ _ _ Hr) as (es1' & e' & es2' & d & Heq & Hl' & Hd & <- & _).
        apply app_inj_1 in Heq as [<- [= -> <-]]; [|congruence]. intros p' d' [= <-] Hd' Hc Hcov.
        apply at_covers in Hcov; [|apply Hr|done|done]. congruence. }
  destruct hint as [p|]; [|cbn [is_offset_in_block]; wp_steps; exact Hclosest].
  destruct (hint_split _ _ _ p Hr (Hh p eq_refl)) as (L1 & L2 & es1 & d & es2 & -> & -> & Hl & Hd & Hn).
  wp_steps. eapply wp_is_offset_in_block; [done|done|done|].
  destruct (covers (payload d) offset) eqn:Hc; wp_steps; [|exact Hclosest].
  apply wp_bind_inv. eapply wp_allocated_from; try done. intros p' d' [= <-] Hd' Hc'. congruence.
Qed.
End blocks.

(** ** The abstract file *)

Record afile := AFile { a_size : Z; a_bytes : bytes }.

Definition a_write (offset len : Z) (data : bytes) (a : afile) : afile :=
  AFile (Z.max (a_size a) (offset + len))
    (λ i, if decide (offset ≤ i < offset + len) then data (i - offset) else a_bytes a i).

Definition a_truncate (size : Z) (a : afile) : afile :=
  AFile size (λ i, if decide (i < size) then a_bytes a i else 0).

Definition a_punch (offset len : Z) (a : afile) : afile :=
  AFile (a_size a) (λ i, if decide (offset ≤ i < offset + len) then 0 else a_bytes a i).

Definition a_grow (size : Z) (a : afile) : afile := AFile (Z.max (a_size a) size) (a_bytes a).

(** ** Transactions *)

Lemma wp_tx_begin_on {S A} (get : S → fstate) (set : fstate → S → S) (body : M S A) on_abort Q E s :
  fs_tx (get s) = None →
  wp body (λ a s1, ∃ t, fs_tx (get s1) = Some t ∧ Q a (set (tx_commit t (get s1)) s1))
    (λ e s1, ∃ t, fs_tx (get s1) = Some t ∧ wp (on_abort e) Q E (set (tx_rollback t (get s1)) s1))
    (set (set_tx (Some (Tx [] [])) (get s)) s) →
  wp (tx_begin_on get set body on_abort) Q E s.
Proof.
  intros Htx. unfold wp at 1, wp at 2, tx_begin_on. rewrite Htx. destruct (body _) as [a s1|e s1|f]; [..|done].
  - by intros (t & -> & HQ).
  - by intros (t & -> & HQ).
Qed.

(** The state of a file between two operations: the file on the medium, the
    tree of blocks if there is one, and the inode. *)
Record file_open (cfg : block_cfg) (s : fstate) (a : afile) (L : list bptr) (es : list extent) : Prop := {
  fo_disk : disk_rep cfg s L es;
  fo_tree : is_Some (v_blocks (fs_v s)) → file_rep cfg s L es;
  fo_tx : fs_tx s = None;
  fo_regular : inode_is_regular_file (pm_inode (fs_pm s)) = true;
  fo_size : inode_get_size (pm_inode (fs_pm s)) = a_size a;
  fo_bound : 0 ≤ a_size a ≤ SSIZE_MAX;
  fo_space : inode_get_allocated_space (pm_inode (fs_pm s)) = total es;
  fo_bytes : ∀ i, content (pm_data (fs_pm s)) es i = a_bytes a i;
  fo_tail : ∀ i, a_size a ≤ i → a_bytes a i = 0;
}.

(** What the invariant of the blocks depends on. *)
Record same_store (s s' : fstate) : Prop := {
  ss_arrays : pm_arrays (fs_pm s') = pm_arrays (fs_pm s);
  ss_data : pm_data (fs_pm s') = pm_data (fs_pm s);
  ss_frees : tx_frees_of s' = tx_frees_of s;
  ss_first_free : v_first_free_block (fs_v s') = v_first_free_block (fs_v s);
  ss_first : v_first_block (fs_v s') = v_first_block (fs_v s);
  ss_blocks : v_blocks (fs_v s') = v_blocks (fs_v s);
}.

Section open.
Context {HP : Pobj} {HPok : PobjOk}.
Variables (cfg : block_cfg) (bs : list pmem_block_info) (calloc_ok : nat → bool) (over : bool).
Hypothesis Hcfg : cfg_wf cfg bs.
Hypothesis Hcalloc : ∀ k, calloc_ok k = true.
Implicit Types (s : fstate) (a : afile) (L : list bptr) (es : list extent).

Lemma disk_rep_same s s' L es : same_store s s' → disk_rep cfg s L es → disk_rep cfg s' L es.
Proof.
  intros [H1 H2 H3 H4 H5 H6] [(rest & idx & Hs) Hn Hd Hext Hok].
  split; rewrite ?H1, ?H2; [|done..]. exists rest, idx. by rewrite H1, H2, H3, H4.
Qed.

Lemma file_rep_same s s' L es : same_store s s' → file_rep cfg s L es → file_rep cfg s' L es.
Proof.
  intros Hss Hr. destruct (disk_rep_same _ _ _ _ Hss (file_disk_rep _ _ _ _ Hr)) as [? ? ? ? ?].
  destruct Hss as [H1 H2 H3 H4 H5 H6]. split; [done..|by rewrite H5; apply Hr|].
  rewrite H1, H6. apply Hr.
Qed.

(** ** Building the tree when there is none *)

(** Only the tree and the pointer to the first block may have changed. *)
Record tree_only s s' : Prop := {
  to_pm : fs_pm s' = fs_pm s;
  to_tx : fs_tx s' = fs_tx s;
  to_first_free : v_first_free_block (fs_v s') = v_first_free_block (fs_v s);
  to_counter : v_block_pointer_invalidation_counter (fs_v s') = v_block_pointer_invalidation_counter (fs_v s);
  to_snapshot : v_snapshot (fs_v s') = v_snapshot (fs_v s);
}.

Lemma file_open_tree s s' a L es : tree_only s s' → file_rep cfg s' L es → file_open cfg s a L es →
  file_open cfg s' a L es.
Proof.
  intros [H1 H2 H3 H4 H5] Hr []. split; rewrite ?H1, ?H2; [by apply file_disk_rep|done..].
Qed.

Lemma wp_rebuild s a L es Q E : file_open cfg s a L es →
  (∀ s', tree_only s s' → file_open cfg s' a L es → file_rep cfg s' L es → Q 0 s') →
  v_blocks (fs_v s) = None → wp (vinode_rebuild_block_tree calloc_ok) Q E s.
Proof.
  intros Ho HQ Hb. eapply wp_vinode_rebuild_block_tree; [done..|by apply Ho|by apply Ho|].
  intros c d s' Hr. apply HQ; [done| |done]. eapply file_open_tree; [|done|exact Ho]. done.
Qed.

(** ** After a failed transaction *)

Lemma content_data_eq d1 d2 es i : data_eq d1 d2 → content d1 es i = content d2 es i.
Proof.
  intros Hd. induction es as [|e es IH]; [done|]. cbn. rewrite IH. case_match; [|done]. unfold ext_byte.
  case_match; [|done]. destruct (ex_data e) as [o|]; [|done]. specialize (Hd o).
  destruct (d1 !! o), (d2 !! o); done.
Qed.

(** What matters of [restored]: the pointer to the first block is set again when
    the tree is rebuilt. *)
Record undone s s' : Prop := {
  un_pm : pm_eq (fs_pm s') (fs_pm s);
  un_tx : fs_tx s' = None;
  un_first_free : v_first_free_block (fs_v s') = v_first_free_block (fs_v s);
  un_blocks : v_blocks (fs_v s') = None;
}.

Lemma undone_open s s' a L es : undone s s' → file_open cfg s a L es → file_open cfg s' a L es.
Proof.
  intros [[Ha Hd Hi] Htx Hff Hb] Ho. pose proof (fo_tx _ _ _ _ _ Ho) as Htx0.
  split; rewrite ?Hi; try by apply Ho.
  - destruct (fo_disk _ _ _ _ _ Ho) as [(rest & idx & Hs & Hidx & Hst & Hfr) Hn Hdl Hext Hok].
    split; rewrite ?Ha; [|done..|].
    + exists rest, idx. rewrite Ha, Hff. split_and!; [done..|]. unfold tx_frees_of. rewrite Htx.
      split; by intros o ?%elem_of_nil.
    + destruct Hok as [H1 H2 H3 H4]. split; [done|done| |done]. intros e He. destruct (H3 e He) as (o & c & Ho' & Hc).
      specialize (Hd o). rewrite Hc in Hd. destruct (pm_data (fs_pm s') !! o) as [c'|] eqn:Hc'; [|done].
      by exists o, c'.
  - intros [m Hm]. congruence.
  - done.
  - intros i. rewrite (content_data_eq _ _ _ _ Hd). by apply Ho.
Qed.

(** ** Allocating space for a write *)

Lemma total_u64 s L es : file_rep cfg s L es → 0 ≤ total es < 2 ^ 64.
Proof. apply rep_total. Qed.

(** The inode with another amount of allocated space. *)
Definition with_space (sz : Z) (i : inode) : inode := inode_tx_set_allocated_space sz i.

Lemma wp_tx_set_allocated_space s t sz Q E : fs_tx s = Some t →
  (∀ log, Q tt (set_pm (set_inode (with_space sz (pm_inode (fs_pm s))) (fs_pm s))
    (set_tx (Some (Tx log (tx_frees t))) s))) →
  wp (tx_set_allocated_space sz) Q E s.
Proof.
  intros Ht HQ. unfold tx_set_allocated_space, inode_of, with_space, inode_tx_set_allocated_space in *. wp_steps.
  destruct (inode_get_allocated_space (pm_inode (fs_pm s)) =? sz) eqn:Heq; wp_steps.
  - specialize (HQ (tx_log t)). destruct s as [[] ? ? ?], t. cbn in *. by subst.
  - unfold tx_record. wp_steps. rewrite Ht. wp_steps. unfold inode_upd. wp_steps. cbn. rewrite Heq. apply HQ.
Qed.

(** The fields that an operation on the blocks leaves alone. *)
Record after_blocks s s' (f : inode → inode) : Prop := {
  ab_inode : pm_inode (fs_pm s') = f (pm_inode (fs_pm s));
  ab_counter : v_block_pointer_invalidation_counter (fs_v s') = v_block_pointer_invalidation_counter (fs_v s);
}.

Lemma with_space_get sz i : inode_get_allocated_space (with_space sz i) = sz.
Proof.
  unfold with_space, inode_tx_set_allocated_space. case_match; b2p; [done|]. apply sget_sset.
Qed.
Lemma with_space_size sz i : inode_get_size (with_space sz i) = inode_get_size i.
Proof. unfold with_space, inode_tx_set_allocated_space. by case_match. Qed.
Lemma with_space_regular sz i : inode_is_regular_file (with_space sz i) = inode_is_regular_file i.
Proof. unfold with_space, inode_tx_set_allocated_space. by case_match. Qed.

(** Committing a transaction that leaves the file in state [s]. *)
Lemma commit_open s t a L es :
  file_rep cfg s L es → fs_tx s = Some t → inode_is_regular_file (pm_inode (fs_pm s)) = true →
  inode_get_size (pm_inode (fs_pm s)) = a_size a → 0 ≤ a_size a ≤ SSIZE_MAX →
  inode_get_allocated_space (pm_inode (fs_pm s)) = total es →
  (∀ i, content (pm_data (fs_pm s)) es i = a_bytes a i) → (∀ i, a_size a ≤ i → a_bytes a i = 0) →
  file_open cfg (tx_commit t s) a L es ∧ file_rep cfg (tx_commit t s) L es.
Proof.
  intros Hr Ht Hreg Hsz Hb Hsp Hby Htl. pose proof (file_rep_commit _ _ _ _ _ Hr Ht) as Hr'.
  destruct (disk_rep_commit _ _ _ _ _ (file_disk_rep _ _ _ _ Hr) Ht) as [_ Hc].
  split; [|done]. pose proof (apply_frees_inode (tx_frees t) (fs_pm s)) as Hi.
  split; cbn [tx_commit set_tx set_pm fs_pm fs_tx]; rewrite ?Hi; try done.
  - by apply file_disk_rep.
  - intros i. rewrite <-Hby. apply Hc.
Qed.

Lemma begin_same s : fs_tx s = None → same_store s (set_tx (Some (Tx [] [])) s).
Proof. intros Ht. split; try done. unfold tx_frees_of. by rewrite Ht. Qed.

Lemma snapshot_same s : same_store s (set_v (set_snapshot (v_first_free_block (fs_v s), v_first_block (fs_v s)) (fs_v s)) s).
Proof. by split. Qed.

Lemma restore_on_abort_total s : ∃ s', vinode_restore_on_abort s = Ok tt s'.
Proof.
  unfold vinode_restore_on_abort. run. destruct (v_blocks (fs_v s)) as [m|]; run; [|by eexists].
  unfold zoom, offset_map_delete, mbind, M_bind. rewrite offset_entry_delete_eq. by eexists.
Qed.

(** A transaction that can only fail for lack of space: if it does, the file is
    restored before the handler returns. *)
Lemma wp_file_tx {S} (get : S → fstate) (set : fstate → S → S) (body restore : M S unit) (h : Z → Z) vok (w : S) Q E :
  (∀ x w, get (set x w) = x) → (∀ x y w, set x (set y w) = set x w) →
  (∀ w u x, vinode_restore_on_abort (get w) = Ok u x → restore w = Ok u (set x w)) →
  keeps (fs_pm (get w)) vok get [] body (λ _, []) → vok (vol (get w)) →
  (∀ x, vok x → x.1 = v_snapshot (fs_v (get w))) →
  (v_snapshot (fs_v (get w))).1 = v_first_free_block (fs_v (get w)) →
  fs_tx (get w) = None →
  wp body (λ _ w1, ∃ t, fs_tx (get w1) = Some t ∧ Q 0 (set (tx_commit t (get w1)) w1))
    (λ e w1, ∀ x, undone (get w) x → vok (vol x) → Q (h e) (set x w1)) (set (set_tx (Some (Tx [] [])) (get w)) w) →
  wp (tx_begin_on get set (body;; mret 0) (λ e, restore;; mret (h e))) Q E w.
Proof.
  intros Hgs Hss Hres Hk Hvok Hvsn Hsn Htx Hbody. apply wp_tx_begin_on; [done|].
  specialize (Hk (set (set_tx (Some (Tx [] [])) (get w)) w)). rewrite Hgs in Hk.
  unfold wlp in Hk. unfold wp in Hbody |- *. unfold mbind at 1, M_bind at 1.
  destruct (body _) as [u w1|e w1|f] eqn:Hb; [done| |done].
  destruct Hk as (t & Ht & Hr & _ & Hvok1).
  { exists (Tx [] []). split_and!; [done|done| |done]. by intros p ?%elem_of_nil. }
  exists t. split; [done|]. set (w2 := set (tx_rollback t (get w1)) w1).
  destruct (restore_on_abort_total (get w2)) as [x Hx].
  unfold mbind, M_bind. rewrite (Hres w2 tt x Hx). cbn. unfold w2. rewrite Hss.
  destruct (restore_on_abort_ok _ _ _ Hx) as (H1 & H2 & H3 & H4 & H5 & H6). unfold w2 in *. rewrite Hgs in *.
  pose proof (Hvsn _ Hvok1) as Hsn1. cbn in H1, H2, H3, H4, Hsn1. apply Hbody; [|by rewrite H6].
  rewrite Hsn1, Hsn in *. split; [by rewrite H1|done..].
Qed.

#[global] Instance covered_dec es i : Decision (covered es i).
Proof.
  refine (cast_if (decide (Exists (λ e, covers e i = true) es))); by rewrite <-Exists_exists || rewrite Exists_exists in *.
Defined.

(** The space of a file that grew. *)
Lemma allocated_space_eq s L es s' L' es' (i : inode) : file_rep cfg s L es → file_rep cfg s' L' es' →
  inode_get_allocated_space i = total es →
  u64 (inode_get_allocated_space i + (total es' - total es)) = total es'.
Proof.
  intros Hr Hr' ->. replace (total es + (total es' - total es)) with (total es') by lia.
  apply Z.mod_small. by eapply rep_total.
Qed.

Lemma wp_allocate_space_tx s a L es offset len (expect : bool) Q (E : Z → fstate → Prop) :
  file_open cfg s a L es → file_rep cfg s L es → 0 ≤ offset → 0 < len → offset + len ≤ 2 ^ 63 →
  hole_ok cfg es offset len →
  (expect = false ↔ ∀ i, offset ≤ i < offset + len → covered es i) → (∀ s', E ENOMEM s') →
  (∀ s1 t L' es', let s' := tx_commit t s1 in fs_tx s1 = Some t →
    file_open cfg s' a L' es' → file_rep cfg s' L' es' →
    (∀ i, offset ≤ i < offset + len → covered es' i) → (∀ p, p ∈ L → p ∈ L') →
    after_blocks s s' (with_space (total es')) → Q tt s1) →
  wp (allocate_space_tx cfg calloc_ok over offset len expect) Q E (set_tx (Some (Tx [] [])) s).
Proof.
  intros Ho Hr Hoff Hlen Hb Hhole Hexp HE HQ. pose proof (fo_tx _ _ _ _ _ Ho) as Htx.
  pose proof (file_rep_same _ _ _ _ (begin_same s Htx) Hr) as Hr0. set (s0 := set_tx _ s) in *.
  unfold allocate_space_tx, inode_of. wp_steps.
  eapply (wp_vinode_allocate_interval cfg bs calloc_ok Hcfg Hcalloc over s0 L es); [done|by eexists|done..|].
  intros s1 L' es' Hr1 [[Hfi Hftx Hfs Hfc] Hh Hc Hsub] Hcov Hsame. wp_steps.
  rewrite Hfi. change (pm_inode (fs_pm s0)) with (pm_inode (fs_pm s)).
  rewrite (allocated_space_eq _ _ _ _ _ _ _ Hr0 Hr1 (fo_space _ _ _ _ _ Ho)), (fo_space _ _ _ _ _ Ho).
  apply wp_mono with (Q := λ _ s2, s2 = s1) (E := E); [| |done].
  { destruct expect; wp_steps; try done; [|apply Z.eqb_eq; symmetry; by apply Hsame, Hexp].
    apply negb_true_iff, Z.eqb_neq. intros Heq. enough (true = false) by done. apply Hexp. intros i Hi.
    destruct (decide (covered es i)) as [|Hn]; [done|]. exfalso.
    pose proof (total_grows cfg _ _ _ _ _ _ i Hr0 Hr1 Hsub Hn (Hcov i Hi)). lia. }
  intros _ s2 ->. destruct (Hftx ltac:(by eexists)) as [t Ht]. eapply wp_tx_set_allocated_space; [done|].
  intros log. set (s2 := set_pm _ _).
  assert (same_store s1 s2) as Hss by (split; try done; unfold tx_frees_of; by rewrite Ht).
  destruct (commit_open s2 (Tx log (tx_frees t)) a L' es') as [Ho2 Hr2].
  - by eapply file_rep_same.
  - done.
  - cbn. rewrite with_space_regular, Hfi. apply Ho.
  - cbn. rewrite with_space_size, Hfi. apply Ho.
  - apply Ho.
  - apply with_space_get.
  - intros i. cbn. rewrite Hc. apply Ho.
  - apply Ho.
  - eapply (HQ s2); [done|done|done|done|done|]. split; cbn; [by rewrite apply_frees_inode; cbn; rewrite Hfi|done].
Qed.

Lemma wp_pmemfile_allocate_space s a L es offset len (expect : bool) Q E :
  file_open cfg s a L es → file_rep cfg s L es → 0 ≤ offset → 0 < len → offset + len ≤ 2 ^ 63 →
  hole_ok cfg es offset len →
  (expect = false ↔ ∀ i, offset ≤ i < offset + len → covered es i) →
  (∀ s', undone s s' → v_block_pointer_invalidation_counter (fs_v s') = v_block_pointer_invalidation_counter (fs_v s) → file_open cfg s' a L es → Q ENOSPC s') →
  (∀ s' L' es', file_open cfg s' a L' es' → file_rep cfg s' L' es' →
    (∀ i, offset ≤ i < offset + len → covered es' i) → (∀ p, p ∈ L → p ∈ L') →
    after_blocks s s' (with_space (total es')) → Q 0 s') →
  wp (pmemfile_allocate_space cfg calloc_ok over offset len expect) Q E s.
Proof.
  intros Ho Hr Hoff Hlen Hb Hhole Hexp HE HQ. unfold pmemfile_allocate_space, vinode_snapshot. wp_steps.
  set (s0 := set_v _ s). pose proof (snapshot_same s) as Hss. fold s0 in Hss.
  assert (file_rep cfg s0 L es) as Hr0 by (by eapply file_rep_same).
  assert (file_open cfg s0 a L es) as Ho0.
  { destruct Ho. split; try done. by eapply disk_rep_same. }
  apply (wp_file_tx id (λ x _, x) _ _ _ (λ x, x = vol s0)); [done|done|done|by apply keeps_allocate_space_tx|done|by intros x -> |done|by apply Ho|].
  eapply wp_allocate_space_tx; [exact Ho0|done..| |].
  - intros s1 x [H1 H2 H3 H4] [= _ Hcnt]. assert (undone s x) as Hres by (by split).
    apply HE; [done|done|by eapply undone_open].
  - intros s1 t L' es' s' Ht Ho' Hr' Hc Hh [Hi Hcnt]. exists t. split; [done|]. by eapply HQ.
Qed.

(** ** Buffers *)

Definition iov_ok (iov : list iovec) : Prop := Forall (λ v, is_Some (iov_base v) ∧ 0 ≤ iov_len v) iov.

Definition iov_total (iov : list iovec) : Z := foldr (λ v n, iov_len v + n) 0 iov.

(** The buffers one after the other. *)
Fixpoint iov_byte (iov : list iovec) (i : Z) : Z :=
  match iov with
  | [] => 0
  | v :: iov' => if i <? iov_len v then default zero_bytes (iov_base v) i else iov_byte iov' (i - iov_len v)
  end.

Lemma iov_total_nonneg iov : iov_ok iov → 0 ≤ iov_total iov.
Proof. induction 1 as [|v iov [_ Hv] _ IH]; cbn; [done|]. unfold iov_total in IH. lia. Qed.

Lemma clamp_len_id sum len : 0 ≤ sum → 0 ≤ len → sum + len ≤ SSIZE_MAX → clamp_len sum len = len.
Proof.
  intros Hs Hl Hb. unfold SSIZE_MAX, INT64_MAX in Hb. unfold clamp_len.
  rewrite (i64_small len) by lia. zcase (len <? 0); [lia|].
  rewrite i64_small by lia. zcase (sum + len <? 0); [lia|done].
Qed.

Lemma wp_sum_iov l1 l2 offset sum w Q E : iov_ok l2 → 0 ≤ offset → 0 ≤ sum →
  offset + sum + iov_total l2 ≤ SSIZE_MAX → Q (sum + iov_total l2) w →
  wp (sum_iov (l1 ++ l2) (length l2) (length l1) offset sum) Q E w.
Proof.
  intros Hok. revert l1 sum. induction Hok as [|v l2 [[base Hbase] Hv] Hok IH]; intros l1 sum Ho Hs Hb HQ; cbn.
  - wp_steps. by rewrite Z.add_0_r in HQ.
  - unfold iov_at. rewrite list_lookup_middle by done. wp_steps.
    cbn in Hb, HQ. fold (iov_total l2) in Hb, HQ. pose proof (iov_total_nonneg _ Hok). unfold SSIZE_MAX, INT64_MAX in Hb.
    rewrite clamp_len_id by (unfold SSIZE_MAX, INT64_MAX; lia).
    unfold u64. rewrite (Z.mod_small (offset + sum + iov_len v)) by lia.
    zcase (offset + sum + iov_len v <? offset); [lia|]. rewrite (Z.mod_small (sum + iov_len v)) by lia.
    rewrite Z.eqb_refl. cbn [negb].
    replace (l1 ++ v :: l2) with ((l1 ++ [v]) ++ l2) by (by rewrite <-app_assoc).
    replace (S (length l1)) with (length (l1 ++ [v])) by (rewrite length_app; cbn; lia).
    apply IH; [done|lia|unfold SSIZE_MAX, INT64_MAX; lia|]. by rewrite <-Z.add_assoc.
Qed.

Lemma write_post_buf s es offset len buf buf' pos pos' s' es' :
  (∀ j, 0 ≤ j < len → buf (pos + j) = buf' (pos' + j)) →
  write_post s es offset len buf pos s' es' → write_post s es offset len buf' pos' s' es'.
Proof.
  intros Hb [Hf Hs Hc]. split; [done|done|]. intros i. rewrite Hc. case_decide; [|done].
  apply Hb. lia.
Qed.

Lemma wp_pwritev_loop l1 l2 s L es ret offset hint Q E :
  iov_ok l2 → file_rep cfg s L es → hint_ok L hint → 0 ≤ offset → 0 ≤ ret →
  offset + iov_total l2 ≤ SSIZE_MAX → ret + iov_total l2 ≤ SSIZE_MAX →
  (∀ i, offset ≤ i < offset + iov_total l2 → covered es i) →
  (∀ s' es' lb, hint_ok L lb → file_rep cfg s' L es' →
    write_post s es offset (iov_total l2) (iov_byte l2) 0 s' es' →
    Q (ret + iov_total l2, offset + iov_total l2, lb) s') →
  wp (pwritev_loop (l1 ++ l2) (length l2) (length l1) ret offset hint) Q E s.
Proof.
  intros Hok. revert l1 s es ret offset hint Q.
  induction Hok as [|v l2 [[base Hbase] Hv] Hok IH]; intros l1 s es ret offset hint Q Hr Hh Ho Hret Hb1 Hb2 Hcov HQ; cbn [pwritev_loop length].
  { wp_steps. cbn in HQ. rewrite !Z.add_0_r in HQ. apply (HQ _ es); [done|done|apply write_post_nil]. }
  rewrite list_lookup_middle by done. wp_steps. rewrite Hbase. wp_steps.
  change (iov_total (v :: l2)) with (iov_len v + iov_total l2) in *. pose proof (iov_total_nonneg _ Hok).
  unfold SSIZE_MAX, INT64_MAX in Hb1, Hb2. rewrite clamp_len_id by (unfold SSIZE_MAX, INT64_MAX; lia).
  assert (u64 (offset + iov_len v) = offset + iov_len v) as -> by (apply Z.mod_small; lia).
  zcase (offset + iov_len v <? offset); [lia|].
  assert (u64 (ret + iov_len v) = ret + iov_len v) as -> by (apply Z.mod_small; lia).
  assert (u64 (offset + iov_len v) = offset + iov_len v) as -> by (apply Z.mod_small; lia). rewrite Z.eqb_refl. cbn [negb].
  apply wp_mono with (E := E) (Q := λ lb s1, hint_ok L lb ∧ ∃ es1, file_rep cfg s1 L es1 ∧
    write_post s es offset (iov_len v) (iov_byte (v :: l2)) 0 s1 es1); [| |done].
  - zcase (0 <? iov_len v).
    + eapply (wp_vinode_write cfg bs Hcfg); [done|done|done|done|lia|intros i Hi; apply Hcov; lia|].
      intros lb s1 es1 Hlb Hr1 Hw. split; [done|]. exists es1. split; [done|]. eapply write_post_buf; [|exact Hw].
      intros j Hj. cbn [iov_byte]. rewrite Hbase. zcase (0 + j <? iov_len v); [done|lia].
    + assert (iov_len v = 0) as -> by lia. wp_steps. split; [done|]. exists es. split; [done|]. apply write_post_nil.
  - intros lb s1 (Hlb & es1 & Hr1 & Hw1).
    replace (l1 ++ v :: l2) with ((l1 ++ [v]) ++ l2) by (by rewrite <-app_assoc).
    replace (S (length l1)) with (length (l1 ++ [v])) by (rewrite length_app; cbn; lia).
    eapply IH; [done|done|lia|lia|unfold SSIZE_MAX, INT64_MAX; lia..| |].
    { intros i Hi. eapply same_covers; [apply Hw1|]. apply Hcov. lia. }
    intros s2 es2 lb2 Hlb2 Hr2 Hw2. rewrite <-!Z.add_assoc. eapply HQ; [done|done|].
    eapply (write_post_step _ _ _ _ (iov_len v)); [lia|exact Hw1|].
    replace (iov_len v + iov_total l2 - iov_len v) with (iov_total l2) by lia.
    eapply write_post_buf; [|exact Hw2]. intros j Hj. cbn [iov_byte]. zcase (0 + iov_len v + j <? iov_len v); [lia|].
    f_equal. lia.
Qed.
End open.
