(* ===== verification/FileOps.v ===== *)
(** The entry points on an open file (read.c, write.c, truncate.c,
    fallocate.c): each implements the operation of the abstract file, returns
    its locks and keeps the block pointer cache valid. *)
From S2P Require Import Prelude Layout Inode Blocks OffsetMap OffsetMapRep FileState BlockList.
From S2P Require Import BlockArray BlockArrayRep Data FileRep DataAlloc DataIO DataRemove FileTx FileIO Undo FileSpec.

(** ** Updating the inode outside a transaction *)

(** What a reader of the inode sees. *)
Record visible := Visible {
  vis_size : Z; vis_space : Z; vis_nlink : Z; vis_flags : Z;
  vis_atime : pmemfile_time; vis_ctime : pmemfile_time; vis_mtime : pmemfile_time;
}.

Definition view (i : inode) : visible :=
  Visible (inode_get_size i) (inode_get_allocated_space i) (inode_get_nlink i) (inode_get_flags i)
    (inode_get_atime i) (inode_get_ctime i) (inode_get_mtime i).

(** The stores of [write_update_inode] before the drain, and the store of the
    slot word after it. *)
Definition write_stores (um ua us : bool) (tm atime : pmemfile_time) (offset : Z) (i : inode) : list (inode → inode) :=
  (if um then [store_mtime (inode_next_mtime_slot i) tm] else []) ++
  (if ua then [store_atime (inode_next_atime_slot i) atime] else []) ++
  (if us then [store_size (inode_next_size_slot i) offset; store_ctime (inode_next_ctime_slot i) tm] else []).

Definition slot_store (um ua us : bool) (i0 i : inode) : inode :=
  set_i_slots (with_slots
    (if ua then inode_next_atime_slot i0 else s_atime (i_slots i0))
    (if us then inode_next_ctime_slot i0 else s_ctime (i_slots i0))
    (if us then inode_next_size_slot i0 else s_size (i_slots i0))
    (if um then inode_next_mtime_slot i0 else s_mtime (i_slots i0)) (i_slots i)) i.

Definition apply_stores (l : list (inode → inode)) (i : inode) : inode := foldl (λ i f, f i) i l.

(** The new view. *)
Definition write_view (um ua us : bool) (tm atime : pmemfile_time) (offset : Z) (v : visible) : visible :=
  Visible (if us then offset else vis_size v) (vis_space v) (vis_nlink v) (vis_flags v)
    (if ua then atime else vis_atime v) (if us then tm else vis_ctime v) (if um then tm else vis_mtime v).

(** A store to the slot that is not selected. *)
Lemma view_hidden_store i0 um ua us tm atime offset f i :
  f ∈ write_stores um ua us tm atime offset i0 → i_slots i = i_slots i0 →
  view (f i) = view i ∧ i_slots (f i) = i_slots i0.
Proof.
  unfold write_stores. rewrite !elem_of_app. intros Hf Hs.
  assert (f = store_mtime (inode_next_mtime_slot i0) tm ∨ f = store_atime (inode_next_atime_slot i0) atime ∨
    f = store_size (inode_next_size_slot i0) offset ∨ f = store_ctime (inode_next_ctime_slot i0) tm) as Hcases.
  { destruct um, ua, us; rewrite ?elem_of_cons, ?elem_of_nil in Hf; tauto. }
  unfold view, inode_get_size, inode_get_mtime, inode_get_atime, inode_get_ctime.
  destruct Hcases as [-> |[-> |[-> | ->]]]; cbn; rewrite Hs; (split; [|done]); f_equal; apply sget_sset_ne;
    unfold inode_next_mtime_slot, inode_next_atime_slot, inode_next_size_slot, inode_next_ctime_slot, next_slot;
    by destruct (i_slots i0) as [[] [] [] [] [] [] []].
Qed.

(** Whatever subset of the stores has reached the medium, in whatever order, the
    view is the old one. *)
Lemma view_before_drain i um ua us tm atime offset l :
  (∀ f, f ∈ l → f ∈ write_stores um ua us tm atime offset i) →
  view (apply_stores l i) = view i ∧ i_slots (apply_stores l i) = i_slots i.
Proof.
  assert (∀ i', i_slots i' = i_slots i → (∀ f, f ∈ l → f ∈ write_stores um ua us tm atime offset i) →
    view (apply_stores l i') = view i' ∧ i_slots (apply_stores l i') = i_slots i) as H; [|by apply H].
  induction l as [|f l IH]; intros i' Hs Hl; [done|].
  destruct (view_hidden_store i um ua us tm atime offset f i') as [Hv Hs']; [apply Hl; by left|done|].
  destruct (IH (f i')) as [IH1 IH2]; [done|intros g Hg; apply Hl; by right|]. change (apply_stores (f :: l) i') with (apply_stores l (f i')).
  by rewrite IH1, Hv.
Qed.

Lemma view_after_slot_store i um ua us tm atime offset :
  view (slot_store um ua us i (apply_stores (write_stores um ua us tm atime offset i) i)) =
  write_view um ua us tm atime offset (view i).
Proof.
  destruct i as [? ? ? ? ? ? ? ? ? ? ? [sa sc sm sn ss sp sf]].
  destruct um, ua, us, sa, sc, sm, ss; reflexivity.
Qed.

Definition set_fs_inode (i : inode) (w : io) : io :=
  set_io_fs (set_pm (set_inode i (fs_pm (io_fs w))) (io_fs w)) w.

(** [write_update_inode] performs the stores and then selects the new slots. *)
Lemma wp_write_update_inode starttm tm offset w Q E :
  let i := pm_inode (fs_pm (io_fs w)) in
  let us := inode_get_size i <? offset in
  let um := (1000000 <=? i64 ((tm_sec tm - tm_sec starttm) * 1000000000 + tm_nsec tm - tm_nsec starttm)) || us in
  let ua := io_atime_dirty w && (um || us) in
  Q tt (set_io_atime (io_atime w) (io_atime_dirty w && negb ua)
    (set_fs_inode (slot_store um ua us i (apply_stores (write_stores um ua us tm (io_atime w) offset i) i)) w)) →
  wp (write_update_inode starttm tm offset) Q E w.
Proof.
  cbv zeta. destruct w as [[[arrs data ino] tx v dr] at_ ad fl rw mu er ti]. cbn [io_fs fs_pm pm_inode io_atime io_atime_dirty].
  unfold write_update_inode, io_inode, on_file, inode_upd. intros HQ. repeat wp_step. cbn [io_fs fs_pm pm_inode io_atime_dirty] in *.
  set (us := inode_get_size ino <? offset) in *.
  set (um := (1000000 <=? i64 _) || us) in *. set (ua := ad && (um || us)) in *.
  assert (ad && negb ua = if ua then false else ad) as Hd by (destruct ad, ua; done). rewrite Hd in HQ.
  assert (ua = true → um || us = true) as Hua by (unfold ua; by intros [_ ?]%andb_true_iff).
  clearbody us um ua. clear Hd.
  destruct um, ua, us; cbn [orb] in *; try (by discriminate Hua); repeat (wp_step || apply wp_zoom); try exact HQ.
  revert HQ. cbn. by destruct ino as [? ? ? ? ? ? ? ? ? ? ? []].
Qed.

(** ** Writing *)

Record same_handle (w w' : io) : Prop := {
  sh_file : io_file w' = io_file w;
  sh_rwlock : io_rwlock w' = io_rwlock w;
  sh_mutex : io_mutex w' = io_mutex w;
}.

Lemma same_handle_refl w : same_handle w w.
Proof. by split. Qed.
Lemma same_handle_trans w1 w2 w3 : same_handle w1 w2 → same_handle w2 w3 → same_handle w1 w3.
Proof. intros [] []. split; congruence. Qed.

Definition counter_of (w : io) : Z := v_block_pointer_invalidation_counter (fs_v (io_fs w)).

Section ops.
Context {HP : Pobj} {HPok : PobjOk}.
Variables (cfg : block_cfg) (bs : list pmem_block_info) (calloc_ok : nat → bool) (over : bool).
Variables (clock : nat → pmemfile_time) (verify : bool).
Hypothesis Hcfg : cfg_wf cfg bs.
Hypothesis Hcalloc : ∀ k, calloc_ok k = true.
Implicit Types (w : io) (a : afile) (L : list bptr) (es : list extent).

(** Another inode with the same file. *)
Lemma file_open_inode s a a' L es i : file_open cfg s a L es → file_rep cfg s L es →
  inode_get_flags i = inode_get_flags (pm_inode (fs_pm s)) →
  inode_get_allocated_space i = inode_get_allocated_space (pm_inode (fs_pm s)) →
  inode_get_size i = a_size a' → 0 ≤ a_size a' ≤ SSIZE_MAX → (∀ j, a_bytes a' j = a_bytes a j) →
  (∀ j, a_size a' ≤ j → a_bytes a j = 0) →
  file_open cfg (set_pm (set_inode i (fs_pm s)) s) a' L es ∧
  file_rep cfg (set_pm (set_inode i (fs_pm s)) s) L es.
Proof.
  intros Ho Hr Hf Hsp Hsz Hb Hby Htl. assert (same_store s (set_pm (set_inode i (fs_pm s)) s)) as Hss by done.
  pose proof (file_rep_same _ _ _ _ _ Hss Hr) as Hr'. split; [|done].
  split; cbn; try done; [by apply file_disk_rep|apply Ho| | | |].
  - unfold inode_is_regular_file. rewrite Hf. apply Ho.
  - rewrite Hsp. apply Ho.
  - intros j. rewrite Hby. apply Ho.
  - intros j Hj. rewrite Hby. by apply Htl.
Qed.

Lemma wp_write_mtime_first tm s Q E :
  Q tt (set_pm (set_inode (slot_store true false false (pm_inode (fs_pm s))
    (apply_stores (write_stores true false false tm tm 0 (pm_inode (fs_pm s))) (pm_inode (fs_pm s)))) (fs_pm s)) s) →
  wp (write_mtime_first tm) Q E s.
Proof. intros HQ. unfold write_mtime_first, inode_of, inode_upd. by wp_steps. Qed.

(** After the data was written and the inode updated. *)
Lemma file_open_written s a L es s' es' offset len buf i : file_open cfg s a L es → file_rep cfg s' L es' →
  write_post s es offset len buf 0 s' es' → 0 ≤ offset → 0 < len → offset + len ≤ SSIZE_MAX →
  inode_get_flags i = inode_get_flags (pm_inode (fs_pm s)) →
  inode_get_allocated_space i = inode_get_allocated_space (pm_inode (fs_pm s)) →
  inode_get_size i = Z.max (a_size a) (offset + len) →
  file_open cfg (set_pm (set_inode i (fs_pm s')) s') (a_write offset len buf a) L es' ∧
  file_rep cfg (set_pm (set_inode i (fs_pm s')) s') L es'.
Proof.
  intros Ho Hr [[Hi Ht Hv _] Hsb Hc] H1 H2 H3 Hf Hsp Hsz. assert (same_store s' (set_pm (set_inode i (fs_pm s')) s')) as Hss by done.
  pose proof (file_rep_same _ _ _ _ _ Hss Hr) as Hr'. split; [|done].
  split; cbn; [by apply file_disk_rep|done|rewrite Ht; apply Ho| |done| | | |].
  - unfold inode_is_regular_file. rewrite Hf. apply Ho.
  - pose proof (fo_bound _ _ _ _ _ Ho). lia.
  - rewrite Hsp, (fo_space _ _ _ _ _ Ho). clear -Hsb. induction Hsb as [|e e' es es' (_ & He & _) _ IH]; [done|].
    rewrite !total_cons. congruence.
  - intros j. rewrite Hc. case_decide; [done|apply Ho].
  - intros j Hj. rewrite decide_False by lia. apply Ho. lia.
Qed.

(** The times a write leaves. *)
Definition write_times (n : nat) (grows : bool) (i : inode) : Prop :=
  (inode_get_mtime i = clock n ∨ inode_get_mtime i = clock (S n)) ∧
  (grows = true → inode_get_mtime i = clock (S n) ∧ inode_get_ctime i = clock (S n)).

Definition write_data (iov : list iovec) (offset : Z) (last_block : option bptr) : M io (Z * option bptr) :=
  starttm ← get_current_time clock;
  on_file (write_mtime_first starttm);;
  '(ret, offset, last_block) ← on_file (pwritev_loop iov (length iov) 0 0 offset last_block);
  assert_ (0 <? ret);;
  tm ← get_current_time clock;
  write_update_inode starttm tm offset;;
  mret (i64 ret, last_block).

Lemma wp_write_data w a L es iov offset hint Q E :
  file_open cfg (io_fs w) a L es → file_rep cfg (io_fs w) L es → hint_ok L hint → iov_ok iov →
  0 ≤ offset → 0 < iov_total iov → offset + iov_total iov ≤ SSIZE_MAX →
  (∀ i, offset ≤ i < offset + iov_total iov → covered es i) →
  (∀ w' es' lb, same_handle w w' → counter_of w' = counter_of w →
    file_open cfg (io_fs w') (a_write offset (iov_total iov) (iov_byte iov) a) L es' →
    file_rep cfg (io_fs w') L es' → hint_ok L lb →
    (∀ i, offset ≤ i < offset + iov_total iov → covered es' i) →
    write_times (io_ticks w) (a_size a <? offset + iov_total iov) (pm_inode (fs_pm (io_fs w'))) →
    Q (iov_total iov, lb) w') →
  wp (write_data iov offset hint) Q E w.
Proof.
  intros Ho Hr Hh Hok Hoff Hpos Hb Hcov HQ. set (T := iov_total iov) in *.
  unfold write_data, get_current_time. wp_steps. apply wp_zoom, wp_write_mtime_first. cbn [io_fs set_io_ticks io_ticks].
  set (i0 := pm_inode (fs_pm (io_fs w))). set (tm0 := clock (io_ticks w)).
  set (i1 := slot_store true false false i0 _).
  assert (view i1 = write_view true false false tm0 tm0 0 (view i0)) as Hv1 by apply view_after_slot_store.
  destruct (file_open_inode (io_fs w) a a L es i1 Ho Hr) as [Ho1 Hr1]; [..|done|apply Ho|].
  { by apply (f_equal vis_flags) in Hv1. }
  { by apply (f_equal vis_space) in Hv1. }
  { apply (f_equal vis_size) in Hv1. cbn in Hv1. rewrite Hv1. apply Ho. }
  { apply Ho. }
  wp_steps. apply wp_zoom. cbn [io_fs set_io_fs set_io_ticks].
  eapply (wp_pwritev_loop cfg bs Hcfg [] iov _ L es 0 offset hint); [done|exact Hr1|done|done|done|done|fold T; lia|done|].
  fold T. intros s2 es2 lb Hlb Hr2 Hw. wp_steps; [apply Z.ltb_lt; lia|]. rewrite Z.add_0_l.
  apply wp_write_update_inode. cbn [io_fs set_io_fs set_io_ticks io_atime io_atime_dirty io_ticks].
  assert (pm_inode (fs_pm s2) = i1) as Hi2 by apply Hw. rewrite Hi2.
  assert (inode_get_size i1 = a_size a) as Hsz by (apply (fo_size _ _ _ _ _ Ho1)). rewrite Hsz.
  set (us := a_size a <? offset + T). set (um := (1000000 <=? i64 _) || us). set (ua := _ && (um || us)). set (i3 := slot_store um ua us i1 _).
  assert (view i3 = write_view um ua us (clock (S (io_ticks w))) (io_atime w) (offset + T) (view i1)) as Hv3
    by apply view_after_slot_store.
  destruct (file_open_written _ a L es s2 es2 offset T (iov_byte iov) i3 Ho1 Hr2 Hw) as [Ho3 Hr3]; [done..| | | |].
  { by apply (f_equal vis_flags) in Hv3. }
  { by apply (f_equal vis_space) in Hv3. }
  { apply (f_equal vis_size) in Hv3. cbn in Hv3. rewrite Hv3, Hsz. unfold us. zcase (a_size a <? offset + T); lia. }
  wp_steps. rewrite i64_small by (unfold SSIZE_MAX, INT64_MAX in Hb; lia).
  eapply HQ; [done| |exact Ho3|exact Hr3|done|intros i Hi; eapply same_covers; [apply Hw|by apply Hcov]|].
  { unfold counter_of. cbn. by rewrite (wf_v _ _ (wp_frame _ _ _ _ _ _ _ _ Hw)). }
  pose proof (f_equal vis_mtime Hv1) as Hm1. pose proof (f_equal vis_mtime Hv3) as Hm3.
  pose proof (f_equal vis_ctime Hv3) as Hc3. cbn in Hm1, Hm3, Hc3. cbn. rewrite Hm1 in Hm3. split.
  - destruct um; auto.
  - fold us. intros Hus. assert (um = true) as Hum by (unfold um; rewrite Hus; apply orb_true_r).
    rewrite Hum in Hm3. by rewrite Hus in Hc3.
Qed.

(** [pmemfile_allocate_space] seen from the handle. *)
Lemma wp_allocate_if_needed w a L es offset len (hint : option bptr) Q E :
  file_open cfg (io_fs w) a L es → file_rep cfg (io_fs w) L es → hint_ok L hint →
  0 ≤ offset → 0 < len → offset + len ≤ 2 ^ 63 → hole_ok cfg es offset len →
  (∀ w', same_handle w w' → counter_of w' = counter_of w → undone (io_fs w) (io_fs w') →
    file_open cfg (io_fs w') a L es → Q ENOSPC w') →
  (∀ w' L' es', same_handle w w' → io_ticks w' = io_ticks w → counter_of w' = counter_of w →
    file_open cfg (io_fs w') a L' es' → file_rep cfg (io_fs w') L' es' →
    (∀ i, offset ≤ i < offset + len → covered es' i) → (∀ p, p ∈ L → p ∈ L') → Q 0 w') →
  wp (allocated ← on_file (vinode_is_interval_allocated offset len hint);
      (if negb allocated then on_file (pmemfile_allocate_space cfg calloc_ok over offset len true)
       else if verify then on_file (pmemfile_allocate_space cfg calloc_ok over offset len false)
       else mret 0)) Q E w.
Proof.
  intros Ho Hr Hh Hoff Hlen Hb Hhole HE HQ. wp_steps. apply wp_zoom.
  eapply wp_vinode_is_interval_allocated; [done..|]. intros b Hall.
  assert (set_io_fs (io_fs w) w = w) as -> by (by destruct w).
  assert (∀ expect : bool, expect = negb b →
    wp (on_file (pmemfile_allocate_space cfg calloc_ok over offset len expect)) Q E w) as Halloc.
  { intros expect ->. apply wp_zoom. eapply (wp_pmemfile_allocate_space cfg bs); [done..| | |].
    - rewrite <-Hall. by destruct b.
    - intros s' Hres Hcnt Ho'. by apply HE.
    - intros s' L' es' Ho' Hr' Hc Hh' [_ Hcnt]. by eapply (HQ (set_io_fs s' w)). }
  destruct b; cbn [negb]; [|by apply Halloc]. destruct verify; [by apply Halloc|]. wp_steps.
  eapply HQ; [by apply same_handle_refl|done|done|done|done|by apply Hall|done].
Qed.

(** The result of [pmemfile_pwritev_internal]. *)
Inductive pwritev_post (w : io) a L es (off : Z) (iov : list iovec) (hint : option bptr) :
    Z * option bptr → io → Prop :=
  | pwritev_nothing w' : iov_total iov = 0 → same_handle w w' → counter_of w' = counter_of w →
      file_open cfg (io_fs w') a L es → pwritev_post w a L es off iov hint (0, hint) w'
  | pwritev_nospace w' : same_handle w w' → counter_of w' = counter_of w → io_errno w' = ENOSPC →
      file_open cfg (io_fs w') a L es → pwritev_post w a L es off iov hint (-1, hint) w'
  | pwritev_done w' L' es' lb : 0 < iov_total iov → same_handle w w' → counter_of w' = counter_of w →
      file_open cfg (io_fs w') (a_write off (iov_total iov) (iov_byte iov) a) L' es' →
      hint_ok L' lb → (∀ p, p ∈ L → p ∈ L') → (∀ i, off ≤ i < off + iov_total iov → covered es' i) →
      write_times (io_ticks w) (a_size a <? off + iov_total iov) (pm_inode (fs_pm (io_fs w'))) →
      pwritev_post w a L es off iov hint (iov_total iov, lb) w'.

Definition write_offset (a : afile) (flags offset : Z) : Z :=
  if has_flag flags PFILE_APPEND then a_size a else offset.

Lemma wp_pmemfile_pwritev_internal w a L es hint flags offset iov :
  file_open cfg (io_fs w) a L es → hint_ok L hint → iov_ok iov → 0 ≤ offset →
  let off := write_offset a flags offset in
  off + iov_total iov ≤ SSIZE_MAX → hole_ok cfg es off (iov_total iov) →
  wp (pmemfile_pwritev_internal cfg calloc_ok over clock verify hint flags offset iov (Z.of_nat (length iov)))
    (pwritev_post w a L es off iov hint) noabort w.
Proof.
  intros Ho Hh Hok Hoff0 off Hb Hhole. unfold pmemfile_pwritev_internal, assert_not_in_tx. rewrite Nat2Z.id.
  wp_steps. apply wp_zoom. wp_steps. { by rewrite (fo_tx _ _ _ _ _ Ho). }
  assert (set_io_fs (io_fs w) w = w) as -> by (by destruct w).
  assert (0 ≤ off) as Hoff. { pose proof (fo_bound _ _ _ _ _ Ho). unfold off, write_offset. case_match; lia. }
  apply wp_mono with (E := noabort) (Q := λ r w1, r = 0 ∧ same_handle w w1 ∧ io_ticks w1 = io_ticks w ∧ counter_of w1 = counter_of w ∧
    file_open cfg (io_fs w1) a L es ∧ file_rep cfg (io_fs w1) L es); [| |done].
  { destruct (v_blocks (fs_v (io_fs w))) as [m|] eqn:Hm; wp_steps.
    - split_and!; [done|apply same_handle_refl|done..|]. apply Ho. by eexists.
    - apply wp_zoom. eapply wp_rebuild; [done|done|done| |done]. intros s' [_ _ _ Hc _] Ho' Hr'. by split_and!. }
  intros r w1 (-> & Hsh & Ht & Hc & Ho1 & Hr1). cbn [Z.eqb negb]. unfold io_inode. wp_steps.
  rewrite (fo_size _ _ _ _ _ Ho1). fold (write_offset a flags offset). fold off. set (T := iov_total iov) in *.
  apply (wp_sum_iov [] iov); [done|done|done|fold T; lia|]. fold T. rewrite Z.add_0_l.
  pose proof (iov_total_nonneg _ Hok) as HT. fold T in HT. zcase (T =? 0).
  { wp_steps. by apply pwritev_nothing. }
  apply wp_assoc, wp_bind. unfold SSIZE_MAX, INT64_MAX in Hb.
  eapply wp_allocate_if_needed; [done|done|done|done|lia|lia|done|..].
  - intros w2 Hsh2 Hc2 _ Ho2. cbn [Z.eqb ENOSPC negb]. unfold fail_with. wp_steps.
    apply pwritev_nospace; [|etrans; [exact Hc2|exact Hc]|done|done]. eapply same_handle_trans; [exact Hsh|]. by destruct Hsh2.
  - intros w2 L2 es2 Hsh2 Ht2 Hc2 Ho2 Hr2 Hcov Hsub. cbn [Z.eqb negb]. fold (write_data iov off hint).
    eapply wp_write_data; [done|done|by intros p Hp; apply Hsub, Hh|done|done|fold T; lia|done|done|].
    intros w3 es3 lb Hsh3 Hc3 Ho3 Hr3 Hlb Hcov3 Htimes. rewrite Ht2, Ht in Htimes.
    eapply pwritev_done; [fold T; lia| |congruence|done|done|done|done|done].
    by eapply same_handle_trans; [|eapply same_handle_trans].
Qed.

(** ** The entry points *)

(** A handle between two operations. *)
Record handle_ok (w : io) a L es : Prop := {
  h_file : file_open cfg (io_fs w) a L es;
  h_rwlock : io_rwlock w = Unlocked;
  h_mutex : io_mutex w = false;
  h_offset : 0 ≤ f_offset (io_file w) ≤ SSIZE_MAX;
  h_cache : f_last_block_pointer_invalidation_observed (io_file w) = counter_of w →
    hint_ok L (f_block_pointer_cache (io_file w));
  h_seen : f_last_block_pointer_invalidation_observed (io_file w) ≤ counter_of w;
}.

(** Releasing the lock after an operation that left the handle alone. *)
Lemma handle_unlocked w w1 w' a a' L L' es es' : handle_ok w a L es →
  io_file w1 = io_file w → io_mutex w1 = false → same_handle w1 w' → counter_of w' = counter_of w →
  file_open cfg (io_fs w') a' L' es' → (∀ p, p ∈ L → p ∈ L') → handle_ok (set_io_rwlock Unlocked w') a' L' es'.
Proof.
  intros [Ho Hrw Hmu Hof Hca Hsee] Hf1 Hm1 [Hf2 _ Hm2] Hcnt Ho' Hsub. split; cbn; [done|done|congruence|by rewrite Hf2, Hf1|..];
    change (counter_of (set_io_rwlock Unlocked w')) with (counter_of w'); rewrite Hf2, Hf1, Hcnt; [|done].
  intros Heq p Hp. by apply Hsub, (Hca Heq).
Qed.

Lemma wp_unlock w Q E : io_rwlock w ≠ Unlocked → Q tt (set_io_rwlock Unlocked w) → wp os_rwlock_unlock Q E w.
Proof. intros Hl HQ. unfold os_rwlock_unlock. wp_steps; [by destruct (io_rwlock w)|done]. Qed.

Lemma wp_iov_has_null l1 l2 w Q E : iov_ok l2 → Q false w →
  wp (iov_has_null (l1 ++ l2) (length l2) (length l1)) Q E w.
Proof.
  intros Hok. revert l1. induction Hok as [|v l2 [[base Hbase] _] Hok IH]; intros l1 HQ; cbn [iov_has_null length]; wp_steps; [done|].
  unfold iov_at. rewrite list_lookup_middle by done. wp_steps. rewrite Hbase.
  replace (l1 ++ v :: l2) with ((l1 ++ [v]) ++ l2) by (by rewrite <-app_assoc).
  replace (S (length l1)) with (length (l1 ++ [v])) by (rewrite length_app; cbn; lia). by apply IH.
Qed.

Lemma wp_pwritev_args_check iov w Q E : inode_is_regular_file (pm_inode (fs_pm (io_fs w))) = true →
  has_flag (f_flags (io_file w)) PFILE_WRITE = true → iov_ok iov → Q 0 w →
  wp (pmemfile_pwritev_args_check (Some iov) (Z.of_nat (length iov))) Q E w.
Proof.
  intros Hreg Hfl Hok HQ. unfold pmemfile_pwritev_args_check, io_inode. wp_steps. rewrite Hreg. cbn [negb].
  wp_steps. rewrite Hfl. cbn [negb]. rewrite Nat2Z.id. wp_steps. apply (wp_iov_has_null [] iov); [done|]. by wp_steps.
Qed.

(** The file after writing the buffers at [off]; writing nothing does not extend it. *)
Definition a_writev (off : Z) (iov : list iovec) (a : afile) : afile :=
  if iov_total iov =? 0 then a else a_write off (iov_total iov) (iov_byte iov) a.

(** What a caller of [write] sees: the bytes are in the file, or there was no
    space and nothing happened. *)
Definition write_result (w : io) a L es (off : Z) (iov : list iovec) (moved : Z) (r : Z) (w' : io) : Prop :=
  f_flags (io_file w') = f_flags (io_file w) ∧
  ((r = iov_total iov ∧ (∃ L' es', handle_ok w' (a_writev off iov a) L' es' ∧ ∀ i, off ≤ i < off + r → covered es' i) ∧
     f_offset (io_file w') = f_offset (io_file w) + moved ∧
     (0 < r → write_times (io_ticks w) (a_size a <? off + r) (pm_inode (fs_pm (io_fs w'))))) ∨
  (r = -1 ∧ io_errno w' = ENOSPC ∧ handle_ok w' a L es ∧ f_offset (io_file w') = f_offset (io_file w))).

Ltac same_file := match goal with H : same_handle _ _ |- _ => rewrite (sh_file _ _ H) end.

Lemma pwritev_result w w1 w' a L es off iov hint r lb : handle_ok w a L es →
  io_file w1 = io_file w → io_mutex w1 = false → io_fs w1 = io_fs w ∧ io_ticks w1 = io_ticks w →
  pwritev_post w1 a L es off iov hint (r, lb) w' →
  write_result w a L es off iov 0 r (set_io_rwlock Unlocked w').
Proof.
  intros Hw Hf Hm [Hfs Ht] Hpost. assert (counter_of w1 = counter_of w) as Hc1 by (unfold counter_of; by rewrite Hfs).
  unfold write_result, a_writev. split; [inv Hpost; cbn; same_file; by rewrite Hf|]. inv Hpost.
  - match goal with H : iov_total _ = 0 |- _ => rename H into HT end. rewrite HT. left.
    split; [done|]. split; [|split; [|lia]].
    + exists L, es. split; [|lia]. eapply handle_unlocked; [exact Hw|done..|congruence|done|done].
    + cbn. same_file. rewrite Hf. lia.
  - right. split; [done|]. split; [done|]. split.
    + eapply handle_unlocked; [exact Hw|done..|congruence|done|done].
    + cbn. same_file. by rewrite Hf.
  - left. split; [done|]. zcase (iov_total iov =? 0); [lia|]. split; [|split].
    + exists L', es'. split; [|done]. eapply handle_unlocked; [exact Hw|done..|congruence|done|done].
    + cbn. same_file. rewrite Hf. lia.
    + intros _. cbn. by rewrite <-Ht.
Qed.

Lemma wp_pmemfile_pwritev w a L es iov offset :
  handle_ok w a L es → has_flag (f_flags (io_file w)) PFILE_WRITE = true → iov_ok iov → 0 ≤ offset →
  let off := write_offset a (f_flags (io_file w)) offset in
  off + iov_total iov ≤ SSIZE_MAX → offset ≤ SSIZE_MAX → hole_ok cfg es off (iov_total iov) →
  wp (pmemfile_pwritev cfg calloc_ok over clock verify true true (Some iov) (Z.of_nat (length iov)) offset)
    (write_result w a L es off iov 0) noabort w.
Proof.
  intros Hw Hfl Hok Hoff off Hb Hb2 Hhole. pose proof Hw as [Ho Hrw Hmu Hof Hca Hsee].
  unfold pmemfile_pwritev. cbn [negb]. zcase (offset <? 0); [lia|].
  unfold os_mutex_lock, os_mutex_unlock. wp_steps; [by rewrite Hmu|].
  eapply wp_pwritev_args_check; [apply Ho|exact Hfl|done|]. wp_steps; [done|].
  cbn [Z.eqb negb]. cbn [io_file set_io_mutex].
  assert (set_io_mutex false (set_io_mutex true w) = w) as -> by (destruct w; cbn in *; by subst).
  zcase (Z.of_nat (length iov) =? 0).
  { wp_steps. destruct iov; [|done]. split; [done|]. left. split; [done|]. split; [exists L, es; split; [by split|cbn; lia]|]. split; [lia|]. lia. }
  unfold os_rwlock_wrlock. wp_steps; [by rewrite Hrw|].
  set (w1 := set_io_rwlock WrLocked w). set (hint := if negb _ then None else _).
  assert (u64 offset = offset) as -> by (unfold SSIZE_MAX, INT64_MAX in *; apply Z.mod_small; lia).
  eapply wp_conseq; [apply (wp_pmemfile_pwritev_internal w1 a L es hint); [exact Ho| |done|done|done|done]|].
  { unfold hint. change (v_block_pointer_invalidation_counter _) with (counter_of w). zcase (f_last_block_pointer_invalidation_observed (io_file w) =? counter_of w); [by apply Hca|done]. }
  intros [r lb] w' Hpost. wp_steps. apply wp_unlock.
  { by inv Hpost; match goal with H : same_handle _ _ |- _ => rewrite (sh_rwlock _ _ H) end. }
  wp_steps. eapply (pwritev_result w w1); [exact Hw|done|done|done|exact Hpost].
Qed.

(** The cache is dropped when blocks have moved since it was filled. *)
Lemma wp_refresh_cache w L Q E :
  (f_last_block_pointer_invalidation_observed (io_file w) = counter_of w →
    hint_ok L (f_block_pointer_cache (io_file w))) →
  (∀ f, hint_ok L (f_block_pointer_cache f) → f_last_block_pointer_invalidation_observed f = counter_of w →
    f_offset f = f_offset (io_file w) → f_flags f = f_flags (io_file w) → Q tt (set_io_file f w)) →
  wp refresh_block_pointer_cache Q E w.
Proof.
  intros Hca HQ. unfold refresh_block_pointer_cache. wp_steps.
  change (v_block_pointer_invalidation_counter (fs_v (io_fs w))) with (counter_of w).
  zcase (f_last_block_pointer_invalidation_observed (io_file w) =? counter_of w); cbn [negb]; wp_steps.
  - replace w with (set_io_file (io_file w) w) at 1 by (by destruct w). apply HQ; [by apply Hca|done..].
  - by apply HQ.
Qed.

(** Moving the file offset after [ret] bytes. *)
Lemma wp_advance_file ret lb w Q E : 0 ≤ f_offset (io_file w) → Z.max 0 ret + f_offset (io_file w) ≤ SSIZE_MAX →
  (∀ f, f_offset f = f_offset (io_file w) + Z.max 0 ret → f_flags f = f_flags (io_file w) →
    f_last_block_pointer_invalidation_observed f = f_last_block_pointer_invalidation_observed (io_file w) →
    f_block_pointer_cache f = (if 0 <? ret then lb else None) → Q tt (set_io_file f w)) →
  wp (advance_file ret lb) Q E w.
Proof.
  intros Ho Hb HQ. unfold advance_file. wp_steps. zcase (0 <? ret); apply HQ; try done; cbn; [|lia].
  unfold SSIZE_MAX, INT64_MAX in Hb. unfold u64. rewrite Z.mod_small; lia.
Qed.

Lemma wp_pmemfile_writev w a L es iov :
  handle_ok w a L es → has_flag (f_flags (io_file w)) PFILE_WRITE = true → iov_ok iov →
  let off := write_offset a (f_flags (io_file w)) (f_offset (io_file w)) in
  off + iov_total iov ≤ SSIZE_MAX → f_offset (io_file w) + iov_total iov ≤ SSIZE_MAX → hole_ok cfg es off (iov_total iov) →
  wp (pmemfile_writev cfg calloc_ok over clock verify true true (Some iov) (Z.of_nat (length iov)))
    (λ r w', write_result w a L es off iov (Z.max 0 r) r w') noabort w.
Proof.
  intros Hw Hfl Hok off Hb Hb2 Hhole. pose proof Hw as [Ho Hrw Hmu Hof Hca Hsee].
  unfold pmemfile_writev, pmemfile_writev_under_filelock, os_mutex_lock, os_mutex_unlock. cbn [negb].
  wp_steps; [by rewrite Hmu|]. eapply wp_pwritev_args_check; [apply Ho|exact Hfl|done|]. cbn [Z.eqb negb].
  zcase (Z.of_nat (length iov) =? 0).
  { wp_steps; [done|]. destruct iov; [|done]. split; [done|]. left. split; [done|].
    assert (set_io_mutex false (set_io_mutex true w) = w) as -> by (destruct w; cbn in *; by subst).
    split; [exists L, es; split; [by split|cbn; lia]|]. split; [lia|]. lia. }
  unfold os_rwlock_wrlock. wp_steps; [by cbn; rewrite Hrw|]. eapply (wp_refresh_cache _ L); [exact Hca|].
  intros f Hfc Hfo Hff Hffl. wp_steps. cbn [io_file set_io_file set_io_rwlock set_io_mutex] in *.
  rewrite Hff, Hffl. set (w1 := set_io_file f _).
  eapply wp_conseq; [apply (wp_pmemfile_pwritev_internal w1 a L es); [exact Ho|done|done|lia|done|done]|].
  intros [r lb] w' Hpost. wp_steps.
  assert (same_handle w1 w' ∧ counter_of w' = counter_of w1) as [Hsh Hcnt] by (by inv Hpost).
  apply wp_unlock; [by rewrite (sh_rwlock _ _ Hsh)|]. pose proof (iov_total_nonneg _ Hok).
  assert (0 ≤ r ≤ iov_total iov ∨ r = -1) as Hrange by (inv Hpost; lia).
  apply wp_bind. eapply wp_advance_file; cbn; rewrite (sh_file _ _ Hsh); cbn; rewrite Hff; [lia|lia|].
  intros f' Hfo' Hffl' Hobs' Hch'. wp_steps; [by cbn; rewrite (sh_mutex _ _ Hsh)|].
  set (wf := set_io_mutex false _).
  assert (∀ a' L' es', file_open cfg (io_fs w') a' L' es' → hint_ok L' (f_block_pointer_cache f') → handle_ok wf a' L' es') as Hfin.
  { intros a' L' es' Ho' Hh'. split; cbn; [done|done|done|rewrite Hfo'; lia|done|].
    rewrite Hobs'. change (f_last_block_pointer_invalidation_observed f ≤ counter_of w'). rewrite Hcnt, Hfo. done. }
  assert (f_offset (io_file wf) = f_offset (io_file w) + Z.max 0 r) as Hoffw by done.
  unfold write_result, a_writev. split; [by cbn; rewrite Hffl'|]. inv Hpost.
  - left. match goal with H : iov_total _ = 0 |- _ => rewrite H end. split; [done|]. split; [|split; [done|lia]].
    exists L, es. split; [|lia]. apply Hfin; [done|by rewrite Hch'].
  - right. split; [done|]. split; [done|]. split; [|lia]. apply Hfin; [done|by rewrite Hch'].
  - left. split; [done|]. zcase (iov_total iov =? 0); [lia|]. split; [|split; [done|done]].
    exists L', es'. split; [|done]. apply Hfin; [done|]. rewrite Hch'. zcase (0 <? iov_total iov); [done|lia].
Qed.

(** ** Reading *)

(** What a read of [n] bytes at [offset] leaves in the buffers it reached. *)
Fixpoint read_bufs (a : afile) (iov : list iovec) (offset n : Z) (bufs : list bytes) : Prop :=
  match iov with
  | [] => bufs = []
  | v :: iov' => ∃ b bufs', bufs = b :: bufs' ∧
      (∀ i, b i = if decide (0 ≤ i < n ∧ i < iov_len v) then a_bytes a (offset + i)
                  else default zero_bytes (iov_base v) i) ∧
      if n <? iov_len v then bufs' = [] else read_bufs a iov' (offset + iov_len v) (n - iov_len v) bufs'
  end.

Lemma no_hole_shrink es offset n k : k ≤ n → no_hole_between es offset n → no_hole_between es offset k.
Proof. intros Hk Hn es1 e e' es2 -> H1 H2. eapply Hn; [done|lia|lia]. Qed.

Lemma read_into_bytes s a L es offset n v base buf :
  file_open cfg s a L es → iov_base v = Some base → read_into s es offset (Z.min n (iov_len v)) 0 base buf →
  ∀ i, buf i = if decide (0 ≤ i < n ∧ i < iov_len v) then a_bytes a (offset + i)
               else default zero_bytes (iov_base v) i.
Proof.
  intros Ho Hbase Hri i. rewrite Hri, Hbase. cbn. repeat case_decide; try (exfalso; lia); try done.
  rewrite (fo_bytes _ _ _ _ _ Ho). f_equal. lia.
Qed.

Lemma wp_preadv_loop l1 l2 s a L es ret offset hint bufs (Q : _ → _ → Prop) E :
  iov_ok l2 → file_open cfg s a L es → file_rep cfg s L es → hint_ok L hint → 0 ≤ offset → 0 ≤ ret →
  offset + iov_total l2 ≤ SSIZE_MAX → ret + iov_total l2 ≤ SSIZE_MAX →
  let n := read_count (a_size a) offset (iov_total l2) in
  no_hole_between es offset n →
  (∀ lb bufs2, hint_ok L lb → read_bufs a l2 offset n bufs2 → Q (ret + n, lb, bufs ++ bufs2) s) →
  wp (preadv_loop (l1 ++ l2) (length l2) (length l1) ret offset hint bufs) Q E s.
Proof.
  intros Hok. revert l1 ret offset hint bufs Q.
  induction Hok as [|v l2 [[base Hbase] Hv] Hok IH]; intros l1 ret offset hint bufs Q Ho Hr Hh Hoff Hret Hb1 Hb2 n Hn HQ; cbn [preadv_loop length].
  { wp_steps. cbn in n. specialize (HQ hint [] Hh eq_refl). unfold n, read_count in HQ.
    rewrite app_nil_r, Z.max_l, Z.add_0_r in HQ by lia. done. }
  change (iov_total (v :: l2)) with (iov_len v + iov_total l2) in *. pose proof (iov_total_nonneg _ Hok).
  pose proof (fo_bound _ _ _ _ _ Ho) as Hsz. unfold SSIZE_MAX, INT64_MAX in Hb1, Hb2, Hsz.
  assert (i64 (u64 ret + iov_len v) = ret + iov_len v) as Hi.
  { unfold u64. rewrite Z.mod_small by lia. apply i64_small. lia. }
  assert ((if i64 (u64 ret + iov_len v) <? 0 then u64 (SSIZE_MAX - ret) else iov_len v) = iov_len v) as Hlen.
  { rewrite Hi. zcase (ret + iov_len v <? 0); [lia|done]. }
  rewrite list_lookup_middle by done. wp_steps. rewrite Hbase. wp_steps; rewrite Hlen; [rewrite Hi; apply Z.leb_le; lia|].
  set (k := read_count (a_size a) offset (iov_len v)).
  assert (k ≤ n ∧ 0 ≤ k ≤ iov_len v) as [Hkn Hk] by (unfold k, n, read_count; lia).
  eapply (wp_vinode_read cfg bs Hcfg); [done|done|done|done|apply Ho|lia|by eapply no_hole_shrink|].
  intros lb buf Hlb Hri. fold k in Hri. fold k. wp_steps.
  assert (k = Z.min n (iov_len v)) as Hmin by (unfold k, n, read_count; lia). rewrite Hmin in Hri.
  pose proof (read_into_bytes _ _ _ _ _ _ _ _ _ Ho Hbase Hri) as Hbuf.
  rewrite (i64_small k) by lia. assert (u64 (offset + k) = offset + k) as -> by (apply Z.mod_small; lia).
  zcase (k =? iov_len v); cbn [negb]; wp_steps.
  - replace (l1 ++ v :: l2) with ((l1 ++ [v]) ++ l2) by (by rewrite <-app_assoc).
    replace (S (length l1)) with (length (l1 ++ [v])) by (rewrite length_app; cbn; lia).
    assert (n = k + read_count (a_size a) (offset + k) (iov_total l2)) as Hsplit by (unfold k, n, read_count in *; lia).
    eapply IH; [done|done|done|lia|lia|unfold SSIZE_MAX, INT64_MAX; lia..| |].
    + replace (read_count (a_size a) (offset + k) (iov_total l2)) with (n - k) by lia. apply no_hole_advance; [lia|done].
    + intros lb2 bufs2 Hlb2 Hbufs. rewrite <-app_assoc, <-Z.add_assoc, <-Hsplit. apply HQ; [done|].
      exists buf, bufs2. split; [done|]. split; [done|]. zcase (n <? iov_len v); [lia|].
      replace (n - iov_len v) with (read_count (a_size a) (offset + k) (iov_total l2)) by lia.
      by replace (iov_len v) with k.
  - assert (n = k) as Hnk by (unfold k, n, read_count in *; lia). rewrite <-Hnk. apply HQ; [done|].
    exists buf, []. split; [done|]. split; [done|]. zcase (n <? iov_len v); [done|lia].
Qed.

(** Taking the read lock, with the tree of blocks built if it was not there. *)
Lemma wp_rdlock w a L es Q E : file_open cfg (io_fs w) a L es → io_rwlock w = Unlocked →
  (∀ s', tree_only (io_fs w) s' → file_open cfg s' a L es → file_rep cfg s' L es →
    Q 0 (set_io_rwlock RdLocked (set_io_fs s' w))) →
  wp (vinode_rdlock_with_block_tree calloc_ok) Q E w.
Proof.
  intros Ho Hrw HQ. unfold vinode_rdlock_with_block_tree, os_rwlock_rdlock. wp_steps; [by rewrite Hrw|].
  cbn [rdlock_loop]. wp_steps. cbn [io_fs set_io_rwlock].
  destruct (v_blocks (fs_v (io_fs w))) as [m|] eqn:Hm.
  { wp_steps. replace w with (set_io_fs (io_fs w) w) at 1 by (by destruct w).
    apply HQ; [done|done|]. apply Ho. by eexists. }
  unfold os_rwlock_unlock, os_rwlock_wrlock. wp_steps; [done|done|]. cbn [io_fs set_io_rwlock]. rewrite Hm.
  apply wp_zoom. eapply wp_rebuild; [done|done|done| |done]. intros s' Hto Ho' Hr'. wp_steps; [done|].
  cbn [Z.eqb negb]. unfold os_rwlock_rdlock. wp_steps; [done|]. destruct (fr_map _ _ _ _ Hr') as (m' & Hm' & _).
  cbn [rdlock_loop]. wp_steps.
  cbn [io_fs set_io_rwlock set_io_fs]. rewrite Hm'. wp_steps. destruct w. by apply HQ.
Qed.

(** [handle_atime] only touches the volatile access time. *)
Lemma wp_handle_atime flags w Q E : io_rwlock w = Unlocked →
  (∀ w', same_handle w w' → io_fs w' = io_fs w → Q tt w') → wp (handle_atime clock flags) Q E w.
Proof.
  intros Hrw HQ. unfold handle_atime. case_match; wp_steps; [by apply HQ|].
  unfold get_current_time, io_inode, os_rwlock_wrlock, os_rwlock_unlock. wp_steps. case_match; wp_steps; [by apply HQ|..].
  - by cbn; rewrite Hrw.
  - done.
  - by apply HQ.
Qed.

Lemma wp_preadv_args_check iov w Q E : inode_is_regular_file (pm_inode (fs_pm (io_fs w))) = true →
  has_flag (f_flags (io_file w)) PFILE_READ = true → iov_ok iov → Q 0 w →
  wp (pmemfile_preadv_args_check (Some iov) (Z.of_nat (length iov))) Q E w.
Proof.
  intros Hreg Hfl Hok HQ. unfold pmemfile_preadv_args_check, io_inode. wp_steps. rewrite Hreg. cbn [negb].
  wp_steps. rewrite Hfl. cbn [negb]. rewrite Nat2Z.id. wp_steps. apply (wp_iov_has_null [] iov); [done|]. by wp_steps.
Qed.

(** What a caller of [read] sees. *)
Definition read_result (w : io) a L es (offset : Z) (iov : list iovec) (r : Z * list bytes) (w' : io) : Prop :=
  let n := read_count (a_size a) offset (iov_total iov) in
  r.1 = n ∧ (iov ≠ [] → read_bufs a iov offset n r.2) ∧ handle_ok w' a L es.

Lemma wp_pmemfile_preadv w a L es iov offset :
  handle_ok w a L es → has_flag (f_flags (io_file w)) PFILE_READ = true → iov_ok iov → 0 ≤ offset →
  offset + iov_total iov ≤ SSIZE_MAX → no_hole_between es offset (read_count (a_size a) offset (iov_total iov)) →
  wp (pmemfile_preadv calloc_ok clock true true (Some iov) (Z.of_nat (length iov)) offset)
    (λ r w', read_result w a L es offset iov r w' ∧ f_offset (io_file w') = f_offset (io_file w)) noabort w.
Proof.
  intros Hw Hfl Hok Hoff Hb Hn. pose proof Hw as [Ho Hrw Hmu Hof Hca Hsee]. pose proof (iov_total_nonneg _ Hok).
  unfold pmemfile_preadv. cbn [negb]. zcase (offset <? 0); [lia|]. unfold os_mutex_lock, os_mutex_unlock.
  wp_steps; [by rewrite Hmu|]. eapply wp_preadv_args_check; [apply Ho|exact Hfl|done|]. wp_steps; [done|].
  cbn [Z.eqb negb io_file set_io_mutex].
  assert (set_io_mutex false (set_io_mutex true w) = w) as -> by (destruct w; cbn in *; by subst).
  zcase (Z.of_nat (length iov) =? 0).
  { wp_steps. destruct iov; [|done]. split; [|done]. split; [cbn; unfold read_count; lia|done]. }
  wp_steps. eapply wp_rdlock; [done|done|]. intros s' [Hpm Htx Hff Hcnt Hsn] Ho' Hr'. cbn [Z.eqb negb]. wp_steps.
  set (hint := if negb _ then None else _).
  assert (hint_ok L hint) as Hhint.
  { unfold hint. cbn. rewrite Hcnt. change (v_block_pointer_invalidation_counter _) with (counter_of w).
    zcase (f_last_block_pointer_invalidation_observed (io_file w) =? counter_of w); [by apply Hca|done]. }
  assert (u64 offset = offset) as -> by (unfold SSIZE_MAX, INT64_MAX in *; apply Z.mod_small; lia).
  apply wp_zoom. unfold pmemfile_preadv_internal. rewrite Nat2Z.id.
  apply (wp_preadv_loop [] iov _ a L es); [done|done|done|done|done|done|done|lia|done|].
  intros lb bufs Hlb Hbufs. wp_steps. apply wp_unlock; [done|]. wp_steps. apply wp_handle_atime; [done|].
  intros w' [Hf' Hrw' Hm'] Hfs'. wp_steps. cbn in *. split; [|by rewrite Hf']. split; [done|]. split; [done|].
  split; [by rewrite Hfs'|done|congruence|by rewrite Hf'|..];
    rewrite Hf'; unfold counter_of; rewrite Hfs'; cbn; rewrite Hcnt; [exact Hca|exact Hsee].
Qed.

Lemma wp_pmemfile_readv w a L es iov :
  handle_ok w a L es → has_flag (f_flags (io_file w)) PFILE_READ = true → iov_ok iov →
  let offset := f_offset (io_file w) in
  offset + iov_total iov ≤ SSIZE_MAX → no_hole_between es offset (read_count (a_size a) offset (iov_total iov)) →
  wp (pmemfile_readv calloc_ok clock true true (Some iov) (Z.of_nat (length iov)))
    (λ r w', read_result w a L es offset iov r w' ∧ f_offset (io_file w') = offset + r.1) noabort w.
Proof.
  intros Hw Hfl Hok offset Hb Hn. pose proof Hw as [Ho Hrw Hmu Hof Hca Hsee]. pose proof (iov_total_nonneg _ Hok).
  unfold pmemfile_readv, pmemfile_readv_under_filelock, os_mutex_lock, os_mutex_unlock. cbn [negb].
  wp_steps; [by rewrite Hmu|]. eapply wp_preadv_args_check; [apply Ho|exact Hfl|done|]. cbn [Z.eqb negb].
  zcase (Z.of_nat (length iov) =? 0).
  { wp_steps; [done|]. destruct iov; [|done].
    assert (set_io_mutex false (set_io_mutex true w) = w) as -> by (destruct w; cbn in *; by subst).
    split; [|fold offset; cbn; lia]. split; [cbn; unfold read_count; lia|done]. }
  wp_steps. eapply wp_rdlock; [exact Ho|done|]. intros s' [Hpm Htx Hff Hcnt Hsn] Ho' Hr'. cbn [Z.eqb negb]. wp_steps.
  assert (counter_of (set_io_fs s' w) = counter_of w) as Hcnt' by exact Hcnt.
  eapply (wp_refresh_cache _ L).
  { cbn. change (counter_of _) with (counter_of (set_io_fs s' w)). rewrite Hcnt'. exact Hca. }
  intros f Hfc Hfo Hfof Hffl. wp_steps. cbn [io_file set_io_file set_io_rwlock set_io_mutex set_io_fs] in *.
  apply wp_zoom. unfold pmemfile_preadv_internal. rewrite Nat2Z.id, Hfof.
  set (n := read_count (a_size a) offset (iov_total iov)) in *.
  assert (0 ≤ n ≤ iov_total iov) as Hnb by (unfold n, read_count; lia).
  apply (wp_preadv_loop [] iov _ a L es); [done|done|done|done|apply Hof|done|exact Hb|fold offset in Hb; lia|done|].
  fold offset. fold n. rewrite Z.add_0_l.
  intros lb bufs Hlb Hbufs. wp_steps. apply wp_unlock; [done|]. wp_steps.
  eapply wp_advance_file; cbn; rewrite ?Hfof; [apply Hof|fold offset; lia|].
  intros f' Hfo' Hffl' Hobs' Hch'. wp_steps. apply wp_handle_atime; [done|].
  intros w' [Hf' Hrw' Hm'] Hfs'. cbn in Hf', Hrw', Hm', Hfs'. wp_steps; [done|]. cbn. rewrite Hf', Hfo'.
  split; [|fold offset; lia]. split; [done|]. split; [done|].
  split; cbn; [by rewrite Hfs'|done|done|rewrite Hf', Hfo'; fold offset; lia|..].
  - intros _. rewrite Hf', Hch'. by case_match.
  - rewrite Hf', Hobs', Hfo. unfold counter_of. cbn. by rewrite Hfs'.
Qed.


(** A range without holes can be read in one go. *)
Lemma covered_no_hole s L es offset len : disk_rep cfg s L es →
  (∀ i, offset ≤ i < offset + len → covered es i) → no_hole_between es offset len.
Proof.
  intros Hr Hc es1 e e' es2 -> H1 H2. pose proof (es_sorted _ _ _ (dr_ok _ _ _ _ Hr)) as Hs.
  replace (es1 ++ e :: e' :: es2) with ((es1 ++ [e]) ++ e' :: es2) in * by (by rewrite <-app_assoc).
  destruct (sorted_mid _ _ _ Hs) as (Hb & _). specialize (Hb e ltac:(apply elem_of_app; right; by left)).
  unfold before in Hb. destruct (covers e' (ex_end e)) eqn:Hcov.
  - apply covers_true in Hcov. lia.
  - exfalso. eapply (end_not_covered es1 e es2 e' Hs); [|done|apply Hc; lia].
    pose proof (es_ext _ _ _ (dr_ok _ _ _ _ Hr)) as Hext. rewrite <-app_assoc in Hext.
    intros x Hx. rewrite <-app_assoc in Hx. rewrite Forall_forall in Hext. by apply Hext.
Qed.
End ops.

(** ** Main results *)

(** C1: [pmemfile_pwritev] writes the buffers one after the other at the given
    offset (at the end of the file for a handle opened for appending).  Either
    it returns the total length and the file is the old one with exactly those
    bytes replaced, its size extended if needed and its times updated; or it
    returns -1 with ENOSPC and file and handle are as before.  In both cases
    the locks are released and the handle's block pointer cache is valid.
    Nothing else can happen: no assertion fails, no pointer is invalid. *)
Theorem pmemfile_pwritev_correct (HP : Pobj) (HPok : PobjOk) cfg bs calloc_ok over clock verify w a L es iov offset :
  cfg_wf cfg bs → (∀ k, calloc_ok k = true) → handle_ok cfg w a L es →
  has_flag (f_flags (io_file w)) PFILE_WRITE = true → iov_ok iov → 0 ≤ offset ≤ SSIZE_MAX →
  let off := write_offset a (f_flags (io_file w)) offset in
  off + iov_total iov ≤ SSIZE_MAX → hole_ok cfg es off (iov_total iov) →
  wp (pmemfile_pwritev cfg calloc_ok over clock verify true true (Some iov) (Z.of_nat (length iov)) offset)
    (write_result cfg clock w a L es off iov 0) noabort w.
Proof. intros Hcfg Hc Hw Hf Hok Ho off Hb Hh. eapply wp_pmemfile_pwritev; done || lia. Qed.

(** C14: [pmemfile_writev] does the same at the offset of the handle, and moves
    that offset by the number of bytes written. *)
Theorem pmemfile_writev_correct (HP : Pobj) (HPok : PobjOk) cfg bs calloc_ok over clock verify w a L es iov :
  cfg_wf cfg bs → (∀ k, calloc_ok k = true) → handle_ok cfg w a L es →
  has_flag (f_flags (io_file w)) PFILE_WRITE = true → iov_ok iov →
  let off := write_offset a (f_flags (io_file w)) (f_offset (io_file w)) in
  off + iov_total iov ≤ SSIZE_MAX → f_offset (io_file w) + iov_total iov ≤ SSIZE_MAX →
  hole_ok cfg es off (iov_total iov) →
  wp (pmemfile_writev cfg calloc_ok over clock verify true true (Some iov) (Z.of_nat (length iov)))
    (λ r w', write_result cfg clock w a L es off iov (Z.max 0 r) r w') noabort w.
Proof. intros Hcfg Hc Hw Hf Hok off Hb Hb2 Hh. by eapply wp_pmemfile_writev. Qed.

(** C2: [pmemfile_preadv] returns the number of bytes between the offset and
    the end of the file that fit into the buffers, and fills the buffers with
    those bytes of the file in order; the rest of the buffers, the file and the
    handle's offset are unchanged.  The range must not have a hole between two
    blocks, see [read_across_hole]. *)
Theorem pmemfile_preadv_correct cfg bs calloc_ok clock w a L es iov offset :
  cfg_wf cfg bs → (∀ k, calloc_ok k = true) → handle_ok cfg w a L es →
  has_flag (f_flags (io_file w)) PFILE_READ = true → iov_ok iov → 0 ≤ offset → offset + iov_total iov ≤ SSIZE_MAX →
  no_hole_between es offset (read_count (a_size a) offset (iov_total iov)) →
  wp (pmemfile_preadv calloc_ok clock true true (Some iov) (Z.of_nat (length iov)) offset)
    (λ r w', read_result cfg w a L es offset iov r w' ∧ f_offset (io_file w') = f_offset (io_file w)) noabort w.
Proof. intros Hcfg Hc Hw Hf Hok Ho Hb Hn. by eapply wp_pmemfile_preadv. Qed.

(** C15: [pmemfile_readv] reads at the offset of the handle and moves it by the
    number of bytes read. *)
Theorem pmemfile_readv_correct cfg bs calloc_ok clock w a L es iov :
  cfg_wf cfg bs → (∀ k, calloc_ok k = true) → handle_ok cfg w a L es →
  has_flag (f_flags (io_file w)) PFILE_READ = true → iov_ok iov →
  let offset := f_offset (io_file w) in offset + iov_total iov ≤ SSIZE_MAX →
  no_hole_between es offset (read_count (a_size a) offset (iov_total iov)) →
  wp (pmemfile_readv calloc_ok clock true true (Some iov) (Z.of_nat (length iov)))
    (λ r w', read_result cfg w a L es offset iov r w' ∧ f_offset (io_file w') = offset + r.1) noabort w.
Proof. intros Hcfg Hc Hw Hf Hok offset Hb Hn. by eapply wp_pmemfile_readv. Qed.


(** C12: what was written is read back.  Writing [len] bytes at [off] and then
    reading [len] bytes at [off] returns the bytes written, unless the pool was
    full. *)
Theorem write_read_round_trip (HP : Pobj) (HPok : PobjOk) cfg bs calloc_ok over clock verify w a L es data buf len off :
  cfg_wf cfg bs → (∀ k, calloc_ok k = true) → handle_ok cfg w a L es →
  f_flags (io_file w) = Z.lor PFILE_READ PFILE_WRITE → 0 ≤ off → 0 < len → off + len ≤ SSIZE_MAX → hole_ok cfg es off len →
  wp (r ← pmemfile_pwrite cfg calloc_ok over clock verify true true (Some data) len off;
      if r <? 0 then mret (r, []) else pmemfile_pread calloc_ok clock true true (Some buf) len off)
    (λ r w', (r.1 = len ∧ ∃ b, r.2 = [b] ∧ ∀ i, 0 ≤ i < len → b i = data i) ∨
             (r.1 = -1 ∧ io_errno w' = ENOSPC ∧ handle_ok cfg w' a L es)) noabort w.
Proof.
  intros Hcfg Hc Hw Hf Ho Hl Hb Hh. apply wp_bind. unfold pmemfile_pwrite.
  assert (iov_total [Iovec (Some data) len] = len) as HT by (cbn; lia).
  assert (write_offset a (f_flags (io_file w)) off = off) as Hoff by (unfold write_offset; by rewrite Hf).
  assert (iov_ok [Iovec (Some data) len]) as Hok by (repeat constructor; [by eexists|cbn; lia]).
  eapply wp_conseq.
  { eapply (wp_pmemfile_pwritev cfg bs calloc_ok over clock verify Hcfg Hc w a L es [Iovec (Some data) len] off);
      [done|by rewrite Hf|done|done|..]; rewrite ?Hoff, ?HT; done || lia. }
  intros r w' [Hfl [(-> & (L' & es' & Hw' & Hcov) & Hfo & _)|(-> & He & Hw' & _)]]; [|wp_steps; by right].
  rewrite HT in *. rewrite Hoff in *. zcase (len <? 0); [lia|]. unfold a_writev in Hw'. rewrite HT in Hw'.
  zcase (len =? 0); [lia|]. set (a' := a_write off len _ a) in *.
  assert (read_count (a_size a') off len = len) as Hn by (unfold read_count; cbn; lia).
  eapply wp_conseq.
  { eapply (wp_pmemfile_preadv cfg bs calloc_ok clock Hcfg Hc w' a' L' es' [Iovec (Some buf) len] off);
      [done|by rewrite Hfl, Hf|repeat constructor; [by eexists|cbn; lia]|done|cbn; lia|].
    change (iov_total _) with (len + 0). rewrite Z.add_0_r, Hn. eapply covered_no_hole; [apply Hw'|done]. }
  intros [n bufs] w2 [(Hrn & Hbufs & _) _]. change (iov_total _) with (len + 0) in *. rewrite Z.add_0_r, Hn in *. left.
  split; [done|]. destruct (Hbufs ltac:(done)) as (b & bufs' & Heq & Hb' & Hrest). cbn [iov_len snd] in *.
  zcase (len <? len); [lia|]. cbn in Hrest. subst bufs'. exists b. split; [done|]. intros i Hi. rewrite Hb'.
  rewrite decide_True by lia. cbn. rewrite decide_True by lia. replace (off + i - off) with i by lia.
  cbn. by zcase (i <? len); [|lia].
Qed.

(** ** Examples *)

Module ExOps.
Definition w0 : io := ExUndo.io0.
Definition a0 : afile := AFile 0 zero_bytes.
Definition text (c : Z) : bytes := λ _, c.
Definition buf0 : bytes := λ _, 255.

Lemma handle0 : handle_ok default_cfg w0 a0 [] [].
Proof.
  pose proof (Ex.rep0 None eq_refl) as Hr. split; [|done|done|done|done|done].
  split; [by apply file_disk_rep|done|done|done|done|done|done|done|done].
Qed.

(** Ten bytes at the start. *)
Definition iov1 : list iovec := [Iovec (Some (text 65)) 4; Iovec (Some (text 66)) 6].
Definition write1 : M io Z :=
  @pmemfile_pwritev Ex.pobj default_cfg Ex.calloc true ExUndo.clock true true true (Some iov1) 2 0.
Definition w1 : io := match write1 w0 with Ok _ w => w | _ => w0 end.

Lemma iov1_ok : iov_ok iov1.
Proof. repeat apply Forall_cons_2; [by split; [eexists|]..|by apply Forall_nil_2]. Qed.

Lemma handle1 : f_flags (io_file w1) = Z.lor PFILE_READ PFILE_WRITE ∧ f_offset (io_file w1) = 0 ∧
  ∃ L es, handle_ok default_cfg w1 (a_writev 0 iov1 a0) L es ∧ ∀ i, 0 ≤ i < 0 + 10 → covered es i.
Proof.
  assert (wp write1 (write_result default_cfg ExUndo.clock w0 a0 [] [] 0 iov1 0) noabort w0) as H.
  { apply (wp_pmemfile_pwritev (HPok := Ex.pobj_ok) default_cfg _ Ex.calloc true ExUndo.clock true default_cfg_wf
      (λ _, eq_refl) w0 a0 [] [] iov1 0 handle0 eq_refl iov1_ok); done. }
  apply wp_ok in H as (r & w' & Hrun & H). unfold w1. rewrite Hrun.
  assert (match write1 w0 with Ok r _ => r =? 10 | _ => false end = true) as Hr by (vm_compute; reflexivity).
  rewrite Hrun in Hr. apply Z.eqb_eq in Hr as ->.
  destruct H as [Hf [H|[H _]]]; [|discriminate H]. destruct H as (_ & (L & es & Hw & Hc) & Ho & _).
  split; [exact Hf|]. split; [exact Ho|]. exists L, es. split; [exact Hw|exact Hc].
Qed.
End ExOps.

Lemma pmemfile_pwritev_witness :
  wp (@pmemfile_pwritev Ex.pobj default_cfg Ex.calloc true ExUndo.clock true true true (Some ExOps.iov1) 2 5)
    (write_result default_cfg ExUndo.clock ExOps.w0 ExOps.a0 [] [] 5 ExOps.iov1 0) noabort ExOps.w0.
Proof.
  apply (pmemfile_pwritev_correct _ Ex.pobj_ok default_cfg _ Ex.calloc true ExUndo.clock true ExOps.w0 ExOps.a0 [] []
    ExOps.iov1 5 default_cfg_wf);
    [done|apply ExOps.handle0|done|apply ExOps.iov1_ok|by split|done|done].
Defined.

Lemma pmemfile_writev_witness :
  wp (@pmemfile_writev Ex.pobj default_cfg Ex.calloc true ExUndo.clock true true true (Some ExOps.iov1) 2)
    (λ r w', write_result default_cfg ExUndo.clock ExOps.w0 ExOps.a0 [] [] 0 ExOps.iov1 (Z.max 0 r) r w')
    noabort ExOps.w0.
Proof.
  apply (pmemfile_writev_correct _ Ex.pobj_ok default_cfg _ Ex.calloc true ExUndo.clock true ExOps.w0 ExOps.a0 [] []
    ExOps.iov1 default_cfg_wf);
    [done|apply ExOps.handle0|done|apply ExOps.iov1_ok|done|done|done].
Defined.

Lemma pmemfile_preadv_witness : ∃ (L : list bptr) (es : list extent), es ≠ [] ∧
  wp (pmemfile_preadv Ex.calloc ExUndo.clock true true (Some [Iovec (Some ExOps.buf0) 7]) 1 3)
    (λ r w', read_result default_cfg ExOps.w1 (a_writev 0 ExOps.iov1 ExOps.a0) L es 3 [Iovec (Some ExOps.buf0) 7] r w' ∧
      f_offset (io_file w') = f_offset (io_file ExOps.w1)) noabort ExOps.w1.
Proof.
  destruct ExOps.handle1 as (Hf & _ & L & es & Hw & Hc). exists L, es. split.
  { intros ->. destruct (Hc 5 ltac:(lia)) as (e & He & _). by apply elem_of_nil in He. }
  apply (pmemfile_preadv_correct default_cfg _ Ex.calloc ExUndo.clock ExOps.w1 _ L es [Iovec (Some ExOps.buf0) 7] 3 default_cfg_wf);
    [intros k; reflexivity|exact Hw|rewrite Hf; reflexivity|by apply Forall_singleton; split; [eexists|]|lia|by vm_compute|].
  eapply covered_no_hole; [apply Hw|]. intros i Hi. apply Hc. change (read_count _ _ _) with 7 in Hi. lia.
Defined.

Lemma pmemfile_readv_witness : ∃ (L : list bptr) (es : list extent), es ≠ [] ∧
  wp (pmemfile_readv Ex.calloc ExUndo.clock true true (Some [Iovec (Some ExOps.buf0) 3]) 1)
    (λ r w', read_result default_cfg ExOps.w1 (a_writev 0 ExOps.iov1 ExOps.a0) L es (f_offset (io_file ExOps.w1))
        [Iovec (Some ExOps.buf0) 3] r w' ∧
      f_offset (io_file w') = f_offset (io_file ExOps.w1) + r.1) noabort ExOps.w1.
Proof.
  destruct ExOps.handle1 as (Hf & Ho & L & es & Hw & Hc). exists L, es. split.
  { intros ->. destruct (Hc 5 ltac:(lia)) as (e & He & _). by apply elem_of_nil in He. }
  apply (pmemfile_readv_correct default_cfg _ Ex.calloc ExUndo.clock ExOps.w1 _ L es [Iovec (Some ExOps.buf0) 3] default_cfg_wf);
    [intros k; reflexivity|exact Hw|rewrite Hf; reflexivity|by apply Forall_singleton; split; [eexists|]|rewrite Ho; by vm_compute|].
  rewrite Ho. eapply covered_no_hole; [apply Hw|]. intros i Hi. apply Hc. change (read_count _ _ _) with 3 in Hi. lia.
Defined.

Lemma write_read_round_trip_witness :
  wp (r ← @pmemfile_pwrite Ex.pobj default_cfg Ex.calloc true ExUndo.clock true true true (Some (ExOps.text 65)) 20000 100;
      if r <? 0 then mret (r, []) else pmemfile_pread Ex.calloc ExUndo.clock true true (Some ExOps.buf0) 20000 100)
    (λ r w', (r.1 = 20000 ∧ ∃ b, r.2 = [b] ∧ ∀ i, 0 ≤ i < 20000 → b i = ExOps.text 65 i) ∨
             (r.1 = -1 ∧ io_errno w' = ENOSPC ∧ handle_ok default_cfg w' ExOps.a0 [] [])) noabort ExOps.w0.
Proof.
  apply (write_read_round_trip _ Ex.pobj_ok default_cfg _ Ex.calloc true ExUndo.clock true ExOps.w0 ExOps.a0 [] []
    (ExOps.text 65) ExOps.buf0 20000 100 default_cfg_wf);
    [done|apply ExOps.handle0|done|lia|lia|done|done].
Defined.

(** ** Two behaviours of the code that are not those of a file *)

Section examples.
Notation pwrite := (@pmemfile_pwrite Ex.pobj default_cfg Ex.calloc true ExUndo.clock true true true).
Notation pread := (pmemfile_pread Ex.calloc ExUndo.clock true true).

(** Write a byte at 0 and one at 32768, which leaves a hole between the two
    blocks; read the second byte, alone and as part of a read from 0. *)
Definition read_sparse : M io (Z * Z * Z) :=
  pwrite (Some (ExOps.text 65)) 1 0;;
  pwrite (Some (ExOps.text 66)) 1 32768;;
  '(_, alone) ← pread (Some ExOps.buf0) 1 32768;
  '(n, all) ← pread (Some ExOps.buf0) 32769 0;
  mret (n, default 0 ((λ b : bytes, b 0) <$> head alone), default 0 ((λ b : bytes, b 32768) <$> head all)).

(** Write 5 bytes, then 3 more through a handle opened for appending that has not
    moved; the offset of the handle and the size of the file. *)
Definition append_offset : M io (Z * Z) :=
  pwrite (Some (ExOps.text 65)) 5 0;;
  modify (λ w, set_io_file (PFile (Z.lor (f_flags (io_file w)) PFILE_APPEND) 0 None 0) w);;
  @pmemfile_write Ex.pobj default_cfg Ex.calloc true ExUndo.clock true true true (Some (ExOps.text 66)) 3;;
  f ← gets io_file;
  i ← io_inode;
  mret (f_offset f, inode_get_size i).
End examples.


(** After an appending write the offset of the handle is not the end of the
    file: it moved by the number of bytes written from where it was. *)
Theorem append_leaves_offset : ∃ w, append_offset ExOps.w0 = Ok (3, 8) w.
Proof.
  assert (match append_offset ExOps.w0 with Ok (a, b) _ => (a =? 3) && (b =? 8) | _ => false end = true) as H
    by (vm_compute; reflexivity).
  destruct (append_offset ExOps.w0) as [[a b] w|? ?|?]; [|discriminate H..]. b2p. subst. by exists w.
Qed.
