(* ===== verification/FileMeta.v ===== *)
(** Truncation, preallocation, hole punching and seeking (truncate.c,
    fallocate.c, lseek.c): each implements the operation of the abstract file. *)
From stdpp Require Import sorting.
From S2P Require Import Prelude Layout Inode Blocks OffsetMap OffsetMapRep FileState BlockList.
From S2P Require Import BlockArray BlockArrayRep Data FileRep DataAlloc DataIO DataRemove FileTx FileIO Undo FileSpec FileOps.

Lemma wp_assoc2 {S A B C D} (m : M S A) (h : A → M S B) (f : A → B → M S C) (g : C → M S D) Q E s :
  wp ((m ≫= λ a, h a ≫= λ b, f a b) ≫= g) Q E s → wp (m ≫= λ a, h a ≫= λ b, f a b ≫= g) Q E s.
Proof. unfold wp, mbind, M_bind. destruct (m s) as [a s1|? ?|?]; [|done|done]. by destruct (h a s1). Qed.

Section meta.
Context {HP : Pobj} {HPok : PobjOk}.
Variables (cfg : block_cfg) (bs : list pmem_block_info) (calloc_ok : nat → bool) (over : bool).
Variable clock : nat → pmemfile_time.
Hypothesis Hcfg : cfg_wf cfg bs.
Hypothesis Hcalloc : ∀ k, calloc_ok k = true.
Implicit Types (s : fstate) (w : io) (a : afile) (L : list bptr) (es : list extent).

(** ** Updates of the inode in a transaction *)

Definition inode_in_tx (f : inode → inode) (log : list undo) (t : tx) (s : fstate) : fstate :=
  set_pm (set_inode (f (pm_inode (fs_pm s))) (fs_pm s)) (set_tx (Some (Tx log (tx_frees t))) s).

Lemma inode_in_tx_rep f log t s L es : fs_tx s = Some t → file_rep cfg s L es → file_rep cfg (inode_in_tx f log t s) L es.
Proof.
  intros Ht. apply file_rep_same. split; try done. unfold tx_frees_of, inode_in_tx. cbn. by rewrite Ht.
Qed.

Lemma wp_tx_set_size sz s t Q E : fs_tx s = Some t →
  (∀ log, Q tt (inode_in_tx (inode_tx_set_size sz) log t s)) → wp (tx_set_size sz) Q E s.
Proof.
  intros Ht HQ. unfold tx_set_size, inode_of, tx_record, inode_upd. wp_steps. rewrite Ht. wp_steps. apply HQ.
Qed.

Lemma wp_tx_set_mtime tm s t Q E : fs_tx s = Some t →
  (∀ log, Q tt (inode_in_tx (inode_tx_set_mtime tm) log t s)) → wp (tx_set_mtime tm) Q E s.
Proof.
  intros Ht HQ. unfold tx_set_mtime, inode_of, tx_record, inode_upd. wp_steps. rewrite Ht. wp_steps. apply HQ.
Qed.

Lemma wp_tx_set_ctime tm s t Q E : fs_tx s = Some t →
  (∀ log, Q tt (inode_in_tx (inode_tx_set_ctime tm) log t s)) → wp (tx_set_ctime tm) Q E s.
Proof.
  intros Ht HQ. unfold tx_set_ctime, inode_of, tx_record, inode_upd. wp_steps. rewrite Ht. wp_steps. apply HQ.
Qed.

(** The end of such a transaction: the space is recorded and the transaction commits. *)
Lemma wp_finish_tx s t a L es Q E : fs_tx s = Some t → file_rep cfg s L es →
  inode_is_regular_file (pm_inode (fs_pm s)) = true →
  inode_get_size (pm_inode (fs_pm s)) = a_size a → 0 ≤ a_size a ≤ SSIZE_MAX →
  (∀ i, content (pm_data (fs_pm s)) es i = a_bytes a i) → (∀ i, a_size a ≤ i → a_bytes a i = 0) →
  (∀ log, let s1 := inode_in_tx (with_space (total es)) log t s in
    file_open cfg (tx_commit (Tx log (tx_frees t)) s1) a L es →
    file_rep cfg (tx_commit (Tx log (tx_frees t)) s1) L es → Q tt s1) →
  wp (tx_set_allocated_space (total es)) Q E s.
Proof.
  intros Ht Hr Hreg Hsz Hb Hby Htl HQ. eapply wp_tx_set_allocated_space; [done|]. intros log.
  pose proof (inode_in_tx_rep (with_space (total es)) log t s L es Ht Hr) as Hr'.
  destruct (commit_open cfg (inode_in_tx (with_space (total es)) log t s) (Tx log (tx_frees t)) a L es Hr' eq_refl)
    as [Ho' Hr2]; [..|by apply HQ].
  - cbn. by rewrite with_space_regular.
  - cbn. by rewrite with_space_size.
  - done.
  - apply with_space_get.
  - done.
  - done.
Qed.

(** ** Truncation *)

(** Removing everything from [size] on. *)
Lemma truncated_content s es s' es' size a : 0 ≤ size ≤ SSIZE_MAX →
  (∀ i, content (pm_data (fs_pm s)) es i = a_bytes a i) → (∀ i, a_size a ≤ i → a_bytes a i = 0) → a_size a ≤ SSIZE_MAX →
  punched size (UINT64_MAX - size) (invalidate s) es s' es' →
  ∀ i, content (pm_data (fs_pm s')) es' i = a_bytes (a_truncate size a) i.
Proof.
  intros Hsz Hby Htl Hb (_ & _ & Hc) i. rewrite Hc. cbn. unfold UINT64_MAX, SSIZE_MAX, INT64_MAX in *.
  cbn. rewrite Hby. repeat case_decide; try lia. apply Htl. lia.
Qed.

(** The blocks after [vinode_truncate] removed and added some. *)
Lemma wp_truncate_blocks w a L es size Q (E : Z → io → Prop) :
  let s := io_fs w in
  file_rep cfg s L es → is_Some (fs_tx s) → 0 ≤ size ≤ SSIZE_MAX →
  inode_get_allocated_space (pm_inode (fs_pm s)) = total es → inode_get_size (pm_inode (fs_pm s)) = a_size a →
  0 ≤ a_size a ≤ SSIZE_MAX →
  (∀ i, content (pm_data (fs_pm s)) es i = a_bytes a i) → (∀ i, a_size a ≤ i → a_bytes a i = 0) →
  (a_size a < size → hole_ok cfg (outside size (UINT64_MAX - size) es) (a_size a) (size - a_size a)) →
  (∀ s', E ENOMEM (set_io_fs s' w)) →
  (∀ s' L' es', file_rep cfg s' L' es' → frame (invalidate s) s' →
    (∀ i, content (pm_data (fs_pm s')) es' i = a_bytes (a_truncate size a) i) →
    Q (total es') (set_io_fs s' w)) →
  wp (n ← on_file (vinode_remove_interval calloc_ok size (u64 (UINT64_MAX - size)));
      let allocated_space := u64 (inode_get_allocated_space (pm_inode (fs_pm s)) - n) in
      i ← io_inode;
      let inode_size := inode_get_size i in
      if inode_size <? size then
        n ← on_file (vinode_allocate_interval cfg calloc_ok over inode_size (u64 (size - inode_size)));
        mret (u64 (allocated_space + n)) else mret allocated_space) Q E w.
Proof.
  intros s Hr Htx Hsz Hsp His Hb Hby Htl Hhole HE HQ. unfold SSIZE_MAX, INT64_MAX, UINT64_MAX in *.
  assert (u64 (2 ^ 64 - 1 - size) = 2 ^ 64 - 1 - size) as -> by (apply Z.mod_small; lia).
  apply wp_bind, wp_zoom. fold s. eapply (wp_vinode_remove_interval cfg calloc_ok Hcalloc); [done|done|lia|lia|lia|].
  intros s1 L1 es1 Hr1 Hp. pose proof Hp as (Hes1 & Hf1 & _).
  assert (∀ i, content (pm_data (fs_pm s1)) es1 i = a_bytes (a_truncate size a) i) as Hc1.
  { eapply truncated_content; [unfold SSIZE_MAX, INT64_MAX; lia|done|done|unfold SSIZE_MAX, INT64_MAX; lia|done]. }
  rewrite Hsp. replace (total es - (total es - total es1)) with (total es1) by lia.
  pose proof (rep_total _ _ _ _ Hr1) as Ht1. unfold io_inode. wp_steps. cbn [io_fs set_io_fs].
  rewrite (frame_inode _ _ Hf1). change (pm_inode (fs_pm (invalidate s))) with (pm_inode (fs_pm s)). rewrite His.
  assert (u64 (total es1) = total es1) as -> by (apply Z.mod_small; lia).
  zcase (a_size a <? size); [|wp_steps; by eapply HQ].
  assert (u64 (size - a_size a) = size - a_size a) as -> by (apply Z.mod_small; lia). wp_steps.
  apply wp_zoom. eapply (wp_vinode_allocate_interval cfg bs calloc_ok Hcfg Hcalloc over s1 L1 es1);
    [done|by apply Hf1|lia|lia|lia|rewrite Hes1; by apply Hhole|done|].
  intros s2 L2 es2 Hr2 [Hf2 _ Hc2 _] _ _. wp_steps. replace (total es1 + (total es2 - total es1)) with (total es2) by lia.
  pose proof (rep_total _ _ _ _ Hr2) as Ht2. assert (u64 (total es2) = total es2) as -> by (apply Z.mod_small; lia).
  eapply HQ; [done|by eapply frame_trans|]. intros i. by rewrite Hc2.
Qed.

(** The update of size and times. *)
Lemma wp_truncate_inode w t size Q E : fs_tx (io_fs w) = Some t →
  (∀ w1 log, fs_tx (io_fs w1) = Some (Tx log (tx_frees t)) → same_handle w w1 → io_errno w1 = io_errno w →
    same_store (io_fs w) (io_fs w1) → counter_of w1 = counter_of w →
    inode_get_size (pm_inode (fs_pm (io_fs w1))) = size →
    inode_get_flags (pm_inode (fs_pm (io_fs w1))) = inode_get_flags (pm_inode (fs_pm (io_fs w))) → Q tt w1) →
  wp (i ← io_inode;
      if negb (inode_get_size i =? size) then
        on_file (tx_set_size size);;
        tm ← get_current_time clock;
        on_file (tx_set_mtime tm);;
        on_file (tx_set_ctime tm)
      else mret tt) Q E w.
Proof.
  intros Ht HQ. unfold io_inode, get_current_time. wp_steps.
  zcase (inode_get_size (pm_inode (fs_pm (io_fs w))) =? size); cbn [negb].
  - wp_steps. eapply (HQ w (tx_log t)); [by destruct t|apply same_handle_refl|done..].
  - wp_steps. apply wp_zoom. eapply wp_tx_set_size; [done|]. intros log1. wp_steps. apply wp_zoom.
    eapply wp_tx_set_mtime; [done|]. intros log2. wp_steps. apply wp_zoom. eapply wp_tx_set_ctime; [done|]. intros log3.
    eapply (HQ _ log3); [done|done|done| |done|apply sget_sset|done]. split; try done. unfold tx_frees_of. cbn. by rewrite Ht.
Qed.

Lemma wp_truncate_tx w a L es size Q (E : Z → io → Prop) :
  file_open cfg (io_fs w) a L es → file_rep cfg (io_fs w) L es → 0 ≤ size ≤ SSIZE_MAX →
  (a_size a < size → hole_ok cfg (outside size (UINT64_MAX - size) es) (a_size a) (size - a_size a)) →
  (∀ w1, same_handle w w1 → io_errno w1 = io_errno w → E ENOMEM w1) →
  (∀ w1 t L' es', fs_tx (io_fs w1) = Some t → same_handle w w1 → io_errno w1 = io_errno w →
    file_open cfg (tx_commit t (io_fs w1)) (a_truncate size a) L' es' →
    v_block_pointer_invalidation_counter (fs_v (io_fs w1)) = u64 (counter_of w + 1) → Q tt w1) →
  wp (truncate_tx cfg calloc_ok over clock size) Q E (set_io_fs (set_tx (Some (Tx [] [])) (io_fs w)) w).
Proof.
  intros Ho Hr Hsz Hhole HE HQ. unfold truncate_tx. set (w0 := set_io_fs _ w).
  assert (file_rep cfg (io_fs w0) L es) as Hr0. { eapply file_rep_same; [apply begin_same, Ho|done]. }
  unfold io_inode at 1. apply wp_bind, wp_gets, wp_assoc2, wp_bind.
  eapply (wp_truncate_blocks w0 a L es size); [done|by eexists|done|apply Ho|apply Ho|apply Ho|apply Ho|apply Ho|done|by intros s'; apply HE|].
  intros s1 L1 es1 Hr1 [Hf1 Hf2 Hf3 Hf4] Hc1. destruct (Hf2 ltac:(by eexists)) as [t1 Ht1].
  apply wp_assoc, wp_bind. eapply wp_truncate_inode; [exact Ht1|].
  intros w2 log2 Ht2 Hsh2 He2 Hss Hcnt2 Hsz2 Hfl2. apply wp_zoom.
  eapply (wp_finish_tx (io_fs w2) _ (a_truncate size a) L1 es1); [done|by eapply file_rep_same| |done|done| | |].
  - unfold inode_is_regular_file. rewrite Hfl2. cbn. rewrite Hf1. apply Ho.
  - intros i. rewrite (ss_data _ _ Hss). apply Hc1.
  - intros i Hi. cbn. rewrite decide_False; [done|]. cbn in Hi. lia.
  - intros log s3 Ho3 Hr3. eapply (HQ (set_io_fs s3 w2) (Tx log (tx_frees t1)) L1 es1); [done| |done|done|].
    + by destruct Hsh2.
    + unfold counter_of in Hcnt2. cbn in Hcnt2. cbn. by rewrite Hcnt2, Hf4.
Qed.

(** The result of an operation that changes the file in one transaction. *)
Definition meta_result (w : io) a L es (a' : afile) (e r : Z) (w' : io) : Prop :=
  same_handle w w' ∧ io_errno w' = io_errno w ∧
  ((r = 0 ∧ ∃ L' es', file_open cfg (io_fs w') a' L' es' ∧
      (counter_of w' = u64 (counter_of w + 1) ∨ counter_of w' = counter_of w ∧ ∀ p, p ∈ L → p ∈ L')) ∨
   (r = e ∧ file_open cfg (io_fs w') a L es)).

Lemma wp_vinode_truncate w a L es size :
  file_open cfg (io_fs w) a L es → 0 ≤ size ≤ SSIZE_MAX →
  (a_size a < size → hole_ok cfg (outside size (UINT64_MAX - size) es) (a_size a) (size - a_size a)) →
  wp (vinode_truncate cfg calloc_ok over clock size) (meta_result w a L es (a_truncate size a) EFBIG) noabort w.
Proof.
  intros Ho Hsz Hhole. unfold vinode_truncate, assert_not_in_tx. wp_steps. apply wp_zoom. wp_steps.
  { by rewrite (fo_tx _ _ _ _ _ Ho). }
  assert (set_io_fs (io_fs w) w = w) as -> by (by destruct w).
  apply wp_mono with (E := noabort) (Q := λ r w1, r = 0 ∧ ∃ s1, w1 = set_io_fs s1 w ∧ counter_of w1 = counter_of w ∧
    file_open cfg s1 a L es ∧ file_rep cfg s1 L es); [| |done].
  { destruct (v_blocks (fs_v (io_fs w))) as [m|] eqn:Hm; wp_steps.
    - split; [done|]. exists (io_fs w). split; [by destruct w|]. split; [done|]. split; [done|]. apply Ho. by eexists.
    - apply wp_zoom. eapply wp_rebuild; [done|done|done| |done]. intros s' [_ _ _ Hc _] Ho' Hr'.
      split; [done|]. by exists s'. }
  intros r w1 (-> & s1 & -> & Hc1 & Ho1 & Hr1). cbn [Z.eqb negb]. unfold vinode_snapshot. wp_steps. apply wp_zoom. wp_steps.
  cbn [io_fs set_io_fs]. set (s2 := set_v _ s1). pose proof (snapshot_same s1) as Hss. fold s2 in Hss.
  assert (file_rep cfg s2 L es) as Hr2 by (by eapply file_rep_same).
  assert (file_open cfg s2 a L es) as Ho2.
  { destruct Ho1. split; try done. by eapply disk_rep_same. }
  apply (wp_file_tx io_fs set_io_fs _ _ _ (λ x, x.1 = v_snapshot (fs_v s2))); [done|done| |by apply keeps_truncate_tx|done|done|done|apply Ho2|].
  { intros w' u x Hx. unfold on_file, zoom. by rewrite Hx. }
  eapply (wp_truncate_tx (set_io_fs s2 (set_io_fs s1 w)) a L es size); [exact Ho2|exact Hr2|done|done|..].
  - intros w1 [Hf Hrw Hm] He x Hres _. split; [by split|]. split; [done|]. right. split; [done|]. by eapply undone_open.
  - intros w1 t L' es' Ht [Hf Hrw Hm] He Ho' Hcnt'. exists t. split; [done|]. split; [by split|]. split; [done|]. left.
    split; [done|]. exists L', es'. split; [done|]. left. unfold counter_of in *. cbn in *. by rewrite Hcnt', Hc1.
Qed.

Lemma wp_ftruncate_vinode w a L es size :
  file_open cfg (io_fs w) a L es → io_rwlock w = Unlocked → 0 ≤ size ≤ SSIZE_MAX →
  (a_size a < size → hole_ok cfg (outside size (UINT64_MAX - size) es) (a_size a) (size - a_size a)) →
  wp (ftruncate_vinode cfg calloc_ok over clock size) (meta_result w a L es (a_truncate size a) EFBIG) noabort w.
Proof.
  intros Ho Hrw Hsz Hhole. unfold ftruncate_vinode, assert_not_in_tx, io_inode, os_rwlock_wrlock. wp_steps. apply wp_zoom. wp_steps.
  { by rewrite (fo_tx _ _ _ _ _ Ho). }
  cbn [io_fs set_io_fs]. rewrite (fo_regular _ _ _ _ _ Ho). cbn [negb]. wp_steps; [by cbn; rewrite Hrw|].
  eapply wp_conseq; [apply (wp_vinode_truncate (set_io_rwlock WrLocked (set_io_fs (io_fs w) w)) a L es); [exact Ho|done|done]|].
  intros r w' (Hsh & He & Hres). wp_steps. apply wp_unlock; [by rewrite (sh_rwlock _ _ Hsh)|]. wp_steps.
  destruct Hsh as [Hf _ Hm]. split; [split; cbn; [done|by rewrite Hrw|done]|]. split; [done|]. exact Hres.
Qed.

(** ** The entry point of truncation *)

Lemma handle_after_meta w a L es a' e w' r : handle_ok cfg w a L es → 0 ≤ counter_of w < UINT64_MAX →
  meta_result w a L es a' e r w' → r = 0 → e ≠ 0 → ∃ L' es', handle_ok cfg w' a' L' es'.
Proof.
  intros [Ho Hrw Hmu Hof Hca Hsee] Hcnt ([Hf Hrw' Hm] & He & [(-> & L' & es' & Ho' & Hc)|(-> & _)]) Hr0 Hne; [|done].
  exists L', es'. split; [done|congruence|congruence|by rewrite Hf|..]; rewrite Hf.
  - destruct Hc as [Hc|[Hc Hsub]]; rewrite Hc.
    + unfold UINT64_MAX in Hcnt. unfold u64. rewrite Z.mod_small by lia. lia.
    + intros Heq p Hp. by apply Hsub, (Hca Heq).
  - destruct Hc as [Hc|[Hc _]]; rewrite Hc; [|done]. unfold UINT64_MAX in Hcnt. unfold u64. rewrite Z.mod_small by lia. lia.
Qed.

Lemma regular_not_dir i : inode_is_regular_file i = true → inode_is_dir i = false.
Proof. unfold inode_is_regular_file, inode_is_dir. intros ->%Z.eqb_eq. done. Qed.

(** What a caller sees. *)
Definition meta_call (w : io) a L es (a' : afile) (e r : Z) (w' : io) : Prop :=
  io_file w' = io_file w ∧
  ((r = 0 ∧ ∃ L' es', handle_ok cfg w' a' L' es') ∨
   (r = -1 ∧ io_errno w' = e ∧ file_open cfg (io_fs w') a L es ∧ io_rwlock w' = Unlocked ∧ io_mutex w' = false)).

Lemma meta_return w a L es a' e r w' : handle_ok cfg w a L es → 0 ≤ counter_of w < UINT64_MAX → e ≠ 0 →
  meta_result w a L es a' e r w' →
  wp (if negb (r =? 0) then fail_with r else mret 0) (meta_call w a L es a' e) noabort w'.
Proof.
  intros Hw Hcnt Hne Hm. zcase (r =? 0); cbn [negb].
  - wp_steps. pose proof Hm as (Hsh & _). split; [apply Hsh|]. left. split; [done|]. by eapply handle_after_meta.
  - unfold fail_with. wp_steps. destruct Hm as ([Hf Hrw Hmu] & _ & [[? _]|(-> & Ho)]); [done|]. split; [done|]. right.
    split; [done|]. split; [done|]. split; [done|]. cbn. rewrite Hrw, Hmu. split; apply Hw.
Qed.

Lemma wp_pmemfile_ftruncate w a L es length :
  handle_ok cfg w a L es → has_flag (f_flags (io_file w)) PFILE_PATH = false →
  has_flag (f_flags (io_file w)) PFILE_WRITE = true → 0 ≤ length ≤ SSIZE_MAX → 0 ≤ counter_of w < UINT64_MAX →
  (a_size a < length → hole_ok cfg (outside length (UINT64_MAX - length) es) (a_size a) (length - a_size a)) →
  wp (pmemfile_ftruncate cfg calloc_ok over clock true true length) (meta_call w a L es (a_truncate length a) EFBIG) noabort w.
Proof.
  intros Hw Hp Hwr Hl Hcnt Hhole. pose proof Hw as [Ho Hrw Hmu Hof Hca Hsee].
  unfold pmemfile_ftruncate, os_mutex_lock, os_mutex_unlock, io_inode. cbn [negb]. zcase (length <? 0); [lia|].
  wp_steps; [by rewrite Hmu|done|]. cbn [io_file io_fs set_io_mutex].
  assert (set_io_mutex false (set_io_mutex true w) = w) as -> by (destruct w; cbn in *; by subst).
  rewrite (regular_not_dir _ (fo_regular _ _ _ _ _ Ho)), Hp, Hwr. cbn [negb].
  assert (u64 length = length) as -> by (unfold SSIZE_MAX, INT64_MAX in *; apply Z.mod_small; lia).
  wp_steps. eapply wp_conseq; [by apply (wp_ftruncate_vinode w a L es)|]. intros r w' Hm. by apply meta_return.
Qed.

(** ** Preallocation and hole punching *)

(** What [fallocate] does to the file. *)
Definition a_fallocate (mode offset length : Z) (a : afile) : afile :=
  if has_flag mode PMEMFILE_FALLOC_FL_PUNCH_HOLE then a_punch offset length a
  else if has_flag mode PMEMFILE_FALLOC_FL_KEEP_SIZE then a
  else a_grow (offset + length) a.

Lemma expand_bound offset length o' l' : 0 ≤ offset → 0 < length → offset + length ≤ SSIZE_MAX →
  expand_to_full_pages cfg offset length = (o', l') → 0 ≤ o' ∧ 0 < l' ∧ o' + l' ≤ 2 ^ 63.
Proof.
  intros Ho Hl Hb He. unfold SSIZE_MAX, INT64_MAX in Hb. destruct (cw_pow2 _ _ Hcfg) as (k & Hk & HA).
  pose proof (Z.pow_le_mono_r 2 k 31 ltac:(lia) ltac:(lia)) as HA31.
  destruct (expand_spec cfg bs Hcfg offset length o' l') as ([x Hx] & [y Hy] & Hl' & Hp & H1 & H2); [lia|lia|rewrite HA; lia|done|].
  split; [done|]. split; [done|].
  assert (2 ^ 63 = 2 ^ (63 - k) * block_alignment cfg) as Hpow by (rewrite HA, <-Z.pow_add_r by lia; f_equal; lia).
  pose proof (cfg_align_pos _ _ Hcfg). set (A := block_alignment cfg) in *. set (P := 2 ^ (63 - k)) in *.
  assert (x + y < P + 1) by (apply (Z.mul_lt_mono_pos_r A); lia). rewrite Hx, Hy, Hpow. nia.
Qed.

(** The hypothesis on holes for the interval [fallocate] allocates. *)
Definition fallocate_ok es (mode offset length : Z) : Prop :=
  has_flag mode PMEMFILE_FALLOC_FL_PUNCH_HOLE = false →
  let '(o, l) := expand_to_full_pages cfg offset length in hole_ok cfg es o l.

(** The end of the transaction of [vinode_fallocate]. *)
Definition fallocate_done s L a' (Q : unit → fstate → Prop) : Prop := ∀ s1 t L' es',
  fs_tx s1 = Some t → file_open cfg (tx_commit t s1) a' L' es' →
  (v_block_pointer_invalidation_counter (fs_v s1) = u64 (v_block_pointer_invalidation_counter (fs_v s) + 1) ∨
   v_block_pointer_invalidation_counter (fs_v s1) = v_block_pointer_invalidation_counter (fs_v s) ∧ ∀ p, p ∈ L → p ∈ L') →
  Q tt s1.

Lemma wp_fallocate_punch s a L es mode offset length opl Q E :
  file_open cfg s a L es → file_rep cfg s L es → 0 ≤ offset → 0 < length → offset + length ≤ SSIZE_MAX →
  has_flag mode PMEMFILE_FALLOC_FL_PUNCH_HOLE = true → has_flag mode PMEMFILE_FALLOC_FL_KEEP_SIZE = true →
  fallocate_done s L (a_punch offset length a) Q →
  wp (fallocate_tx cfg calloc_ok over mode offset length opl) Q E (set_tx (Some (Tx [] [])) s).
Proof.
  intros Ho Hr Hoff Hlen Hb Hpunch Hkeep HQ. set (s0 := set_tx _ s).
  assert (file_rep cfg s0 L es) as Hr0. { eapply file_rep_same; [apply begin_same, Ho|done]. }
  unfold fallocate_tx, inode_of. wp_steps. change (pm_inode (fs_pm s0)) with (pm_inode (fs_pm s)). rewrite (fo_space _ _ _ _ _ Ho).
  rewrite Hpunch, Hkeep. unfold SSIZE_MAX, INT64_MAX in Hb. wp_steps; [done|].
  eapply (wp_vinode_remove_interval cfg calloc_ok Hcalloc); [done|by eexists|lia|lia|lia|].
  intros s1 L1 es1 Hr1 (Hes1 & Hf1 & Hc1). destruct (frame_tx _ _ Hf1 ltac:(by eexists)) as [t1 Ht1]. wp_steps.
  replace (total es - (total es - total es1)) with (total es1) by lia. pose proof (rep_total _ _ _ _ Hr1).
  assert (u64 (total es1) = total es1) as -> by (apply Z.mod_small; lia).
  assert (pm_inode (fs_pm s1) = pm_inode (fs_pm s)) as Hi1 by apply Hf1.
  eapply (wp_finish_tx s1 t1 (a_punch offset length a) L1 es1); [done|done|rewrite ?Hi1; apply Ho|rewrite ?Hi1; apply Ho|apply Ho|..].
  - intros i. cbn. rewrite Hc1. case_decide; [done|apply Ho].
  - intros i Hi. cbn. case_decide; [done|]. by apply Ho.
  - intros log s2 Ho2 Hr2. eapply HQ; [done|exact Ho2|left; apply Hf1].
Qed.

Lemma wp_fallocate_alloc s a L es mode offset length o l Q (E : Z → fstate → Prop) :
  file_open cfg s a L es → file_rep cfg s L es → 0 ≤ offset → 0 < length → offset + length ≤ SSIZE_MAX →
  expand_to_full_pages cfg offset length = (o, l) → hole_ok cfg es o l →
  has_flag mode PMEMFILE_FALLOC_FL_PUNCH_HOLE = false → (∀ s', E ENOMEM s') →
  fallocate_done s L (if has_flag mode PMEMFILE_FALLOC_FL_KEEP_SIZE then a else a_grow (offset + length) a) Q →
  wp (fallocate_tx cfg calloc_ok over mode o l (offset + length)) Q E (set_tx (Some (Tx [] [])) s).
Proof.
  intros Ho Hr Hoff Hlen Hb He Hhole Hpunch HE HQ. set (s0 := set_tx _ s).
  assert (file_rep cfg s0 L es) as Hr0. { eapply file_rep_same; [apply begin_same, Ho|done]. }
  destruct (expand_bound offset length o l) as (Ho1 & Hl1 & Hb1); [done..|]. pose proof (fo_bound _ _ _ _ _ Ho).
  unfold fallocate_tx, inode_of. wp_steps. change (pm_inode (fs_pm s0)) with (pm_inode (fs_pm s)). rewrite (fo_space _ _ _ _ _ Ho).
  rewrite Hpunch. wp_steps.
  eapply (wp_vinode_allocate_interval cfg bs calloc_ok Hcfg Hcalloc over s0 L es); [done|by eexists|done|done|done|done|done|].
  intros s1 L1 es1 Hr1 [Hf1 Hh1 Hc1 _] _ _. destruct (frame_tx _ _ Hf1 ltac:(by eexists)) as [t1 Ht1]. wp_steps.
  replace (total es + (total es1 - total es)) with (total es1) by lia. pose proof (rep_total _ _ _ _ Hr1).
  assert (u64 (total es1) = total es1) as -> by (apply Z.mod_small; lia).
  assert (pm_inode (fs_pm s1) = pm_inode (fs_pm s)) as Hi1 by apply Hf1. rewrite Hi1, (fo_size _ _ _ _ _ Ho).
  set (keep := has_flag mode PMEMFILE_FALLOC_FL_KEEP_SIZE) in *. set (a' := if keep then a else _) in *.
  apply wp_mono with (E := E) (Q := λ _ s2, ∃ f log, s2 = inode_in_tx f log t1 s1 ∧
    inode_get_size (f (pm_inode (fs_pm s))) = a_size a' ∧
    inode_get_flags (f (pm_inode (fs_pm s))) = inode_get_flags (pm_inode (fs_pm s))); [| |done].
  { unfold a'. destruct keep; cbn [negb andb]; [|zcase (a_size a <? offset + length)].
    - wp_steps. exists id, (tx_log t1). split; [destruct s1 as [[] ? ? ?], t1; cbn in *; by subst|]. split; [apply Ho|done].
    - eapply wp_tx_set_size; [done|]. intros log. exists (inode_tx_set_size (offset + length)), log. split; [done|].
      split; [|done]. cbn. rewrite Z.max_r by lia. apply sget_sset.
    - wp_steps. exists id, (tx_log t1). split; [destruct s1 as [[] ? ? ?], t1; cbn in *; by subst|]. split; [|done].
      cbn. rewrite Z.max_l by lia. apply Ho. }
  intros _ s2 (f & log & -> & Hsz2 & Hfl2). wp_steps.
  assert (∀ i, a_bytes a' i = a_bytes a i) as Hby by (intros i; unfold a'; by destruct keep).
  assert (a_size a ≤ a_size a' ≤ SSIZE_MAX) as Hszb by (unfold a'; destruct keep; cbn; lia).
  eapply (wp_finish_tx (inode_in_tx f log t1 s1) _ a' L1 es1); [done|by apply inode_in_tx_rep|..].
  - cbn. rewrite Hi1. unfold inode_is_regular_file. rewrite Hfl2. apply Ho.
  - cbn. by rewrite Hi1.
  - lia.
  - intros i. cbn. rewrite Hc1, Hby. apply Ho.
  - intros i Hi. rewrite Hby. apply Ho. lia.
  - intros log2 s3 Ho3 Hr3. eapply HQ; [done|exact Ho3|right]. split; [apply Hf1|done].
Qed.

Lemma wp_vinode_fallocate s a L es mode offset length Q E :
  file_open cfg s a L es → 0 ≤ offset → 0 < length → offset + length ≤ SSIZE_MAX →
  (has_flag mode PMEMFILE_FALLOC_FL_PUNCH_HOLE = true → has_flag mode PMEMFILE_FALLOC_FL_KEEP_SIZE = true) →
  fallocate_ok es mode offset length →
  (∀ s', file_open cfg s' a L es → Q ENOSPC s') →
  (∀ s' L' es', file_open cfg s' (a_fallocate mode offset length a) L' es' →
    (v_block_pointer_invalidation_counter (fs_v s') = u64 (v_block_pointer_invalidation_counter (fs_v s) + 1) ∨
     v_block_pointer_invalidation_counter (fs_v s') = v_block_pointer_invalidation_counter (fs_v s) ∧ ∀ p, p ∈ L → p ∈ L') →
    Q 0 s') →
  wp (vinode_fallocate cfg calloc_ok over mode offset length) Q E s.
Proof.
  intros Ho Hoff Hlen Hb Hkeep Hhole HE HQ. unfold vinode_fallocate, assert_not_in_tx, inode_of, vinode_snapshot.
  wp_steps. { by rewrite (fo_tx _ _ _ _ _ Ho). }
  rewrite (fo_regular _ _ _ _ _ Ho). cbn [negb].
  assert (u64 (offset + length) = offset + length) as -> by (unfold SSIZE_MAX, INT64_MAX in Hb; apply Z.mod_small; lia).
  destruct (if negb (has_flag mode PMEMFILE_FALLOC_FL_PUNCH_HOLE) then _ else _) as [o l] eqn:Hol.
  assert (0 < l) as Hl.
  { destruct (has_flag mode PMEMFILE_FALLOC_FL_PUNCH_HOLE); cbn in Hol; [by simplify_eq|]. by eapply expand_bound in Hol as (_ & ? & _). }
  zcase (l =? 0); [lia|]. wp_steps. set (s1 := set_v _ s).
  assert (file_open cfg s1 a L es) as Ho1.
  { pose proof (snapshot_same s) as Hss. fold s1 in Hss. destruct Ho. split; try done; [by eapply disk_rep_same|].
    intros Hm. eapply file_rep_same; [done|by apply fo_tree]. }
  apply wp_mono with (E := E) (Q := λ r s2, r = 0 ∧ tree_only s1 s2 ∧ file_open cfg s2 a L es ∧ file_rep cfg s2 L es); [| |done].
  { destruct (v_blocks (fs_v s1)) as [m|] eqn:Hm; wp_steps.
    - split; [done|]. split; [done|]. split; [done|]. apply Ho1. by eexists.
    - eapply wp_rebuild; [done|done|done| |done]. intros s' Hto Ho' Hr'. by split_and!. }
  intros r s2 (-> & [Hpm Htx Hff Hcnt Hsn] & Ho2 & Hr2). cbn [Z.eqb negb].
  apply (wp_file_tx id (λ x _, x) _ _ _ (λ x, x.1 = v_snapshot (fs_v s2))); [done|done|done|by apply keeps_fallocate_tx|done|done| |apply Ho2|].
  { unfold id. by rewrite Hsn, Hff. }
  assert (fallocate_done s2 L (a_fallocate mode offset length a)
    (λ _ s3, ∃ t, fs_tx s3 = Some t ∧ Q 0 (tx_commit t s3))) as Hdone.
  { intros s3 t L' es' Ht Ho3 Hc3. exists t. split; [done|]. eapply HQ; [exact Ho3|]. by rewrite Hcnt in Hc3. }
  unfold a_fallocate, fallocate_ok in *. unfold id. destruct (has_flag mode PMEMFILE_FALLOC_FL_PUNCH_HOLE) eqn:Hpunch; cbn [negb] in Hol.
  - injection Hol as <- <-. eapply wp_fallocate_punch; [exact Ho2|done|done|done|done|done|by apply Hkeep|done].
  - specialize (Hhole eq_refl). rewrite Hol in Hhole. eapply wp_fallocate_alloc; [exact Ho2|done|done|done|done|done|done|done| |done].
    intros s3 x Hun _. apply HE. by eapply undone_open.
Qed.

Lemma fallocate_check_ok mode offset length : fallocate_check_arguments mode offset length = 0 → offset < 2 ^ 63 → length < 2 ^ 63 →
  0 ≤ offset ∧ 0 < length ∧ offset + length ≤ SSIZE_MAX ∧
  (has_flag mode PMEMFILE_FALLOC_FL_PUNCH_HOLE = true → has_flag mode PMEMFILE_FALLOC_FL_KEEP_SIZE = true).
Proof.
  unfold fallocate_check_arguments. zcase (length <=? 0); [done|]. zcase (offset <? 0); [done|]. cbn [orb].
  intros H H1 H2. assert (u64 (offset + length) = offset + length) as Hu by (apply Z.mod_small; lia). rewrite Hu in H.
  zcase (SSIZE_MAX <? offset + length); [done|]. split; [done|]. split; [done|]. split; [done|]. intros Hp. rewrite Hp in H.
  repeat (case_match; [done|]). b2p. by subst mode.
Qed.

Lemma wp_pmemfile_fallocate w a L es mode offset length :
  handle_ok cfg w a L es → has_flag (f_flags (io_file w)) PFILE_WRITE = true →
  fallocate_check_arguments mode offset length = 0 → offset < 2 ^ 63 → length < 2 ^ 63 → 0 ≤ counter_of w < UINT64_MAX →
  fallocate_ok es mode offset length →
  wp (pmemfile_fallocate cfg calloc_ok over true true mode offset length)
    (meta_call w a L es (a_fallocate mode offset length a) ENOSPC) noabort w.
Proof.
  intros Hw Hwr Hchk Ho63 Hl63 Hcnt Hhole. pose proof Hw as [Ho Hrw Hmu Hof Hca Hsee].
  destruct (fallocate_check_ok _ _ _ Hchk Ho63 Hl63) as (Hoff & Hlen & Hb & Hkeep).
  unfold pmemfile_fallocate, os_mutex_lock, os_mutex_unlock, os_rwlock_wrlock. cbn [negb]. rewrite Hchk. cbn [Z.eqb negb].
  wp_steps; [by apply Z.leb_le|by apply Z.ltb_lt|by rewrite Hmu|done|]. cbn [io_file set_io_mutex].
  assert (set_io_mutex false (set_io_mutex true w) = w) as -> by (destruct w; cbn in *; by subst).
  rewrite Hwr. cbn [negb]. wp_steps; [by rewrite Hrw|].
  apply wp_mono with (E := noabort) (Q := λ r w1, meta_result w a L es (a_fallocate mode offset length a) ENOSPC r (set_io_rwlock Unlocked w1) ∧
    io_rwlock w1 = WrLocked); [| |done].
  - apply wp_zoom. cbn [io_fs set_io_rwlock]. eapply wp_vinode_fallocate; [done..| |].
    + intros s' Ho'. split; [|done]. split; [by split; cbn|]. split; [done|]. by right.
    + intros s' L' es' Ho' Hc'. split; [|done]. split; [by split; cbn|]. split; [done|]. left. split; [done|]. by exists L', es'.
  - intros r w1 [Hm Hl1]. wp_steps. apply wp_unlock; [by rewrite Hl1|]. by apply meta_return.
Qed.

(** ** Seeking data and holes *)

(** [r] is the first byte at or after [offset] that a block covers, or the size
    if there is none. *)
Definition next_data es (offset fsize r : Z) : Prop :=
  (r = fsize ∧ ∀ i, offset ≤ i → ¬ covered es i) ∨
  (offset ≤ r ∧ covered es r ∧ ∀ i, offset ≤ i < r → ¬ covered es i).

(** All bytes from [offset] to [r] are covered, and [r] is in a hole or not
    before the end of the file. *)
Definition next_hole es (offset fsize r : Z) : Prop :=
  offset ≤ r ∧ (∀ i, offset ≤ i < r → covered es i) ∧ (fsize ≤ r ∨ ¬ covered es r).

(** Bytes before the first of a sorted list of extents. *)
Lemma not_covered_before es1 es2 i : (∀ x, x ∈ es1 → ex_end x ≤ i) → (∀ y, y ∈ es2 → i < ex_offset y) →
  ¬ covered (es1 ++ es2) i.
Proof.
  intros H1 H2 (e & [He|He]%elem_of_app & Hc%covers_true); [specialize (H1 e He)|specialize (H2 e He)]; lia.
Qed.

Lemma ext_i64 e : ext_ok cfg e → ex_end e ≤ 2 ^ 63 → i64 (ex_offset e) = ex_offset e.
Proof. intros [_ _ ? ? _ _] Hb. unfold ex_end in Hb. apply i64_small. lia. Qed.

(** The first extent after [offset]. *)
Lemma next_data_at es1 e es2 offset fsize : StronglySorted before (es1 ++ e :: es2) → 0 < ex_size e →
  (∀ x, x ∈ es1 → ex_end x ≤ offset) → offset < ex_offset e → next_data (es1 ++ e :: es2) offset fsize (ex_offset e).
Proof.
  intros Hs Hp H1 H2. right. destruct (sorted_mid _ _ _ Hs) as (_ & Ha & _). split; [lia|]. split.
  - exists e. split; [rewrite elem_of_app, elem_of_cons; tauto|]. apply covers_true. unfold ex_end. lia.
  - intros i Hi. apply not_covered_before; [intros x Hx; specialize (H1 x Hx); lia|].
    intros y [-> |Hy]%elem_of_cons; [lia|]. specialize (Ha y Hy). unfold before, ex_end in Ha. lia.
Qed.

(** The block after another one. *)
Lemma rep_next s L1 p p2 L2 es1 e es2 : file_rep cfg s (L1 ++ p :: p2 :: L2) (es1 ++ e :: es2) → length L1 = length es1 →
  ∃ d' es2', es2 = payload d' :: es2' ∧ desc_at (pm_arrays (fs_pm s)) p2 = Some d' ∧ bd_next d' = head L2.
Proof.
  rewrite (cons_middle p L1), (cons_middle e es1), !app_assoc. intros Hr Hlen.
  destruct (rep_split _ _ _ _ _ _ Hr) as (es1' & e' & es2' & d' & Heq & Hl' & Hd' & <- & _ & Hn).
  apply app_inj_1 in Heq as [_ ->]; [by exists d', es2'|]. rewrite length_app in *. cbn in *. lia.
Qed.

(** From the end of a block to the next one. *)
Lemma wp_seek_data_next s L1 p L2 es1 d es2 offset fsize Q E :
  file_rep cfg s (L1 ++ p :: L2) (es1 ++ payload d :: es2) → length L1 = length es1 → bd_next d = head L2 →
  StronglySorted before (es1 ++ payload d :: es2) → (∀ e, e ∈ es1 ++ payload d :: es2 → ex_end e ≤ 2 ^ 63) →
  (∀ e', e' ∈ es2 → offset < ex_offset e') → (∀ x, x ∈ es1 ++ [payload d] → ex_end x ≤ offset) →
  (∀ r, next_data (es1 ++ payload d :: es2) offset fsize r → Q r s) →
  wp (match bd_next d with
      | None => mret fsize
      | Some next => dn ← desc_get next; mret (i64 (bd_offset dn))
      end) Q E s.
Proof.
  intros Hr Hlen Hn Hs Hends Haft Hbefore HQ. rewrite Hn.
  destruct L2 as [|p2 L2]; cbn [head hd_error].
  - wp_steps. apply HQ. left. split; [done|]. pose proof (Forall2_length _ _ _ (fr_ext _ _ _ _ Hr)) as Hll.
    rewrite !length_app in Hll. cbn in Hll. destruct es2; [|cbn in Hll; lia]. intros i Hi.
    rewrite <-(app_nil_r (es1 ++ [payload d])). apply not_covered_before; [|by intros y ?%elem_of_nil].
    intros x Hx. specialize (Hbefore x Hx). lia.
  - destruct (rep_next _ _ _ _ _ _ _ _ Hr Hlen) as (d' & es2' & -> & Hd' & _).
    wp_steps. eapply wp_desc_get; [done|]. wp_steps. change (bd_offset d') with (ex_offset (payload d')).
    assert (payload d' ∈ es1 ++ payload d :: payload d' :: es2') as Hin by (rewrite elem_of_app, !elem_of_cons; tauto).
    pose proof (rep_ext _ _ _ _ (payload d') Hr Hin) as Hok. rewrite ext_i64; [|done|by apply Hends].
    replace (es1 ++ payload d :: payload d' :: es2') with ((es1 ++ [payload d]) ++ payload d' :: es2') in *
      by (by rewrite <-app_assoc).
    apply HQ, next_data_at; [done|apply Hok|done|]. apply Haft. by left.
Qed.

Lemma wp_lseek_seek_data s L es offset fsize Q E :
  file_rep cfg s L es → 0 ≤ offset → offset < 2 ^ 63 → (∀ e, e ∈ es → ex_end e ≤ 2 ^ 63) →
  (∀ r, next_data es offset fsize r → Q r s) → wp (lseek_seek_data offset fsize) Q E s.
Proof.
  intros Hr Ho Hb Hends HQ. pose proof (es_sorted _ _ _ (fr_ok _ _ _ _ Hr)) as Hs.
  destruct (fr_map _ _ _ _ Hr) as (m & Hm & _). unfold lseek_seek_data. wp_steps. { by rewrite Hm. }
  assert (u64 offset = offset) as -> by (apply Z.mod_small; lia).
  eapply wp_find_closest_block; [done|done|..].
  - intros Hbef. wp_steps. rewrite (fr_first _ _ _ _ Hr). destruct L as [|p L2]; cbn [head hd_error].
    + wp_steps. apply HQ. left. split; [done|]. pose proof (Forall2_length _ _ _ (fr_ext _ _ _ _ Hr)). destruct es; [|done].
      intros i _ (e & He & _). by apply elem_of_nil in He.
    + destruct (rep_split _ _ [] p L2 _ Hr) as (es1 & e & es2 & d & -> & Hl & Hd & <- & _). destruct es1; [|done].
      wp_steps. eapply wp_desc_get; [done|]. wp_steps. change (bd_offset d) with (ex_offset (payload d)).
      pose proof (rep_ext _ _ _ _ (payload d) Hr ltac:(by left)) as Hok. rewrite ext_i64; [|done|apply Hends; by left].
      apply HQ, (next_data_at [] _ es2); [done|apply Hok|by intros x ?%elem_of_nil|]. apply Hbef. by left.
  - intros L1 p L2 es1 e es2 -> -> Hlen Hle Haft.
    destruct (rep_split _ _ _ _ _ _ Hr) as (es1' & e' & es2' & d & Heq & Hl & Hd & <- & _ & Hn).
    apply app_inj_1 in Heq as [<- [= -> <-]]; [|congruence].
    wp_steps. eapply wp_is_offset_in_block; [done|done|done|]. destruct (covers (payload d) offset) eqn:Hc; wp_steps.
    { apply HQ. right. split; [lia|]. split; [|lia]. exists (payload d). split; [rewrite elem_of_app, elem_of_cons; tauto|done]. }
    eapply wp_desc_get; [done|]. eapply wp_seek_data_next; [done|done|done|done|done|done|by eapply pos_at_ends|done].
Qed.

(** The loop of [lseek_seek_hole], at a block from which everything up to
    [offset] was covered. *)
Lemma seek_hole_loop_ok fuel s L1 p L2 es1 d es2 start offset fsize Q E :
  file_rep cfg s (L1 ++ p :: L2) (es1 ++ payload d :: es2) → length L1 = length es1 →
  desc_at (pm_arrays (fs_pm s)) p = Some d → bd_next d = head L2 → (length L2 < fuel)%nat →
  (∀ e, e ∈ es1 ++ payload d :: es2 → ex_end e ≤ 2 ^ 63) →
  bd_offset d ≤ offset → (∀ y, y ∈ es2 → offset < ex_offset y) →
  start ≤ offset → (∀ i, start ≤ i < offset → covered (es1 ++ payload d :: es2) i) →
  (∀ r, next_hole (es1 ++ payload d :: es2) start fsize r → Q r s) →
  wp (seek_hole_loop fuel (Some p) offset fsize) Q E s.
Proof.
  revert L1 p L2 es1 d es2 offset. induction fuel as [|fuel IH]; intros L1 p L2 es1 d es2 offset Hr Hlen Hd Hn Hf Hends Hle Haft Hst Hcov HQ; [lia|].
  pose proof (es_sorted _ _ _ (fr_ok _ _ _ _ Hr)) as Hs. destruct (sorted_mid _ _ _ Hs) as (Hb & Ha & _).
  assert (payload d ∈ es1 ++ payload d :: es2) as Hin by (rewrite elem_of_app, elem_of_cons; tauto).
  pose proof (rep_ext _ _ _ _ _ Hr Hin) as Hok. pose proof (ext_i64 _ Hok (Hends _ Hin)) as Hi64.
  cbn [payload ex_offset] in Hi64. destruct Hok as [_ _ _ Hsz _ _]. cbn [payload ex_size] in Hsz.
  cbn [seek_hole_loop]. zcase (offset <? fsize); [|wp_steps; apply HQ; split; [lia|]; split; [done|left; lia]].
  wp_steps. eapply wp_desc_get; [done|]. wp_steps. rewrite Hi64.
  set (offset' := if offset <=? bd_offset d + bd_size d then bd_offset d + bd_size d else offset).
  assert (offset ≤ offset' ∧ bd_offset d + bd_size d ≤ offset') as [Ho1 Ho2] by (unfold offset'; case_match; b2p; lia).
  assert (∀ i, start ≤ i < offset' → covered (es1 ++ payload d :: es2) i) as Hcov'.
  { intros i Hi. destruct (decide (i < offset)); [apply Hcov; lia|]. exists (payload d). split; [done|].
    apply covers_true. unfold ex_end. cbn. unfold offset' in Hi. case_match; b2p; lia. }
  assert (∀ x, x ∈ es1 ++ [payload d] → ex_end x ≤ offset') as Hbef.
  { intros x [Hx|Hx%list_elem_of_singleton]%elem_of_app; [|by subst x; unfold ex_end; cbn; lia].
    specialize (Hb x Hx). unfold before, ex_end in *. cbn in Hb. lia. }
  rewrite Hn. destruct L2 as [|p2 L2]; cbn [head hd_error].
  - wp_steps. apply HQ. split; [lia|]. split; [done|right]. pose proof (Forall2_length _ _ _ (fr_ext _ _ _ _ Hr)) as Hll.
    rewrite !length_app in Hll. cbn in Hll. destruct es2; [|cbn in Hll; lia].
    rewrite <-(app_nil_r (es1 ++ [payload d])). apply not_covered_before; [done|by intros y ?%elem_of_nil].
  - destruct (rep_next _ _ _ _ _ _ _ _ Hr Hlen) as (d' & es2' & -> & Hd' & Hn').
    assert (payload d' ∈ es1 ++ payload d :: payload d' :: es2') as Hin' by (rewrite elem_of_app, !elem_of_cons; tauto).
    pose proof (ext_i64 _ (rep_ext _ _ _ _ _ Hr Hin') (Hends _ Hin')) as Hi64'. cbn [payload ex_offset] in Hi64'.
    destruct (rep_ext _ _ _ _ _ Hr Hin') as [_ _ _ Hsz' _ _]. cbn [payload ex_size] in Hsz'.
    wp_steps. eapply wp_desc_get; [done|]. rewrite Hi64'.
    replace (es1 ++ payload d :: payload d' :: es2') with ((es1 ++ [payload d]) ++ payload d' :: es2') in * by (by rewrite <-app_assoc).
    replace (L1 ++ p :: p2 :: L2) with ((L1 ++ [p]) ++ p2 :: L2) in * by (by rewrite <-app_assoc).
    destruct (sorted_mid _ _ _ Hs) as (_ & Ha2 & _).
    assert (∀ y, y ∈ es2' → offset' < ex_offset y) as Haft2.
    { intros y Hy. specialize (Ha2 y Hy). specialize (Ha (payload d') ltac:(by left)). specialize (Haft (payload d') ltac:(by left)).
      unfold before, ex_end in *. cbn in *. unfold offset'. case_match; b2p; lia. }
    zcase (offset' <? bd_offset d').
    + wp_steps. apply HQ. split; [lia|]. split; [done|right]. apply not_covered_before; [done|].
      intros y [-> |Hy]%elem_of_cons; [done|by apply Haft2].
    + eapply (IH (L1 ++ [p]) p2 L2 (es1 ++ [payload d]) d' es2' offset'); try done; [rewrite !length_app; cbn; lia|cbn in Hf; lia|lia].
Qed.

Lemma wp_lseek_seek_hole s L es offset fsize Q E :
  file_rep cfg s L es → 0 ≤ offset → offset < 2 ^ 63 → (∀ e, e ∈ es → ex_end e ≤ 2 ^ 63) →
  (∀ r, next_hole es offset fsize r → Q r s) → wp (lseek_seek_hole offset fsize) Q E s.
Proof.
  intros Hr Ho Hb Hends HQ. destruct (fr_map _ _ _ _ Hr) as (m & Hm & _). unfold lseek_seek_hole. wp_steps. { by rewrite Hm. }
  assert (u64 offset = offset) as -> by (apply Z.mod_small; lia). eapply wp_find_closest_block; [done|done|..].
  - intros Hbef. wp_steps. destruct (walk_fuel s); cbn [seek_hole_loop]; wp_steps; apply HQ;
      (split; [lia|]; split; [lia|right]); by apply (not_covered_before []); [intros x ?%elem_of_nil|].
  - intros L1 p L2 es1 e es2 -> -> Hlen Hle Haft.
    destruct (rep_split _ _ _ _ _ _ Hr) as (es1' & e' & es2' & d & Heq & Hl & Hd & <- & _ & Hn).
    apply app_inj_1 in Heq as [<- [= -> <-]]; [|congruence]. wp_steps.
    eapply seek_hole_loop_ok; [done|done|done|done| |done|done|done|reflexivity|lia|done].
    pose proof (rep_walk_fuel cfg _ _ _ Hr) as Hf. rewrite length_app in Hf. cbn in Hf. lia.
Qed.

Lemma regular_not_symlink i : inode_is_regular_file i = true → inode_is_symlink i = false.
Proof. unfold inode_is_regular_file, inode_is_symlink. intros ->%Z.eqb_eq. done. Qed.

(** The position [lseek] finds for SEEK_DATA and SEEK_HOLE. *)
Definition seek_found es (whence offset fsize r : Z) : Prop :=
  if whence =? PMEMFILE_SEEK_DATA then next_data es offset fsize r
  else ∃ r0, next_hole es offset fsize r0 ∧ r = Z.min r0 fsize.

Lemma wp_lseek_seek_data_or_hole end_dir w a L es offset whence Q E :
  file_open cfg (io_fs w) a L es → io_rwlock w = Unlocked → 0 ≤ offset < a_size a →
  whence = PMEMFILE_SEEK_DATA ∨ whence = PMEMFILE_SEEK_HOLE →
  (∀ e, e ∈ es → ex_end e ≤ 2 ^ 63) → (whence = PMEMFILE_SEEK_DATA → ∀ e, e ∈ es → ex_offset e ≤ a_size a) →
  (∀ r s', 0 ≤ r ≤ a_size a → seek_found es whence offset (a_size a) r → file_open cfg s' a L es →
    v_block_pointer_invalidation_counter (fs_v s') = counter_of w → Q r (set_io_fs s' w)) →
  wp (lseek_seek_data_or_hole calloc_ok end_dir offset whence) Q E w.
Proof.
  intros Ho Hrw Hoff Hwh Hends Hstart HQ. unfold lseek_seek_data_or_hole, io_inode. wp_steps.
  pose proof (fo_bound _ _ _ _ _ Ho) as Hsz. unfold SSIZE_MAX, INT64_MAX in Hsz.
  rewrite (fo_size _ _ _ _ _ Ho), (fo_regular _ _ _ _ _ Ho), i64_small by lia.
  rewrite (regular_not_symlink _ (fo_regular _ _ _ _ _ Ho)). cbn [negb andb].
  zcase (offset <? 0); [lia|]. zcase (a_size a <=? offset); [lia|]. cbn [orb]. wp_steps.
  eapply wp_rdlock; [done|done|done|done|]. intros s' [_ _ _ Hcnt _] Ho' Hr'. cbn [Z.eqb negb].
  assert (∀ r, 0 ≤ r ≤ a_size a → seek_found es whence offset (a_size a) r →
    wp (os_rwlock_unlock;; mret r) Q E (set_io_rwlock RdLocked (set_io_fs s' w))) as Hend.
  { intros r Hr0 Hf. wp_steps. apply wp_unlock; [done|]. wp_steps.
    replace (set_io_rwlock Unlocked (set_io_rwlock RdLocked (set_io_fs s' w))) with (set_io_fs s' w) by (destruct w; cbn in *; by subst).
    by apply HQ. }
  wp_steps. zcase (whence =? PMEMFILE_SEEK_DATA).
  - wp_steps. apply wp_zoom. eapply wp_lseek_seek_data; [exact Hr'|lia|lia|done|]. intros r Hnext.
    assert (0 ≤ r ≤ a_size a) as Hrb.
    { destruct Hnext as [[-> _]|(H1 & (e & He & Hc%covers_true) & Hnone)]; [lia|]. split; [lia|].
      destruct (decide (r ≤ a_size a)); [done|]. exfalso. pose proof (Hstart ltac:(done) e He) as Hse.
      apply (Hnone (r - 1)); [lia|]. exists e. split; [done|]. apply covers_true. lia. }
    wp_steps; [apply Z.leb_le; lia|]. change (set_io_fs s' (set_io_rwlock RdLocked (set_io_fs s' w))) with (set_io_rwlock RdLocked (set_io_fs s' w)).
    apply wp_bind_inv, Hend; [lia|]. unfold seek_found. by zcase (whence =? PMEMFILE_SEEK_DATA).
  - assert (whence = PMEMFILE_SEEK_HOLE) as -> by (by destruct Hwh). wp_steps; [done|]. apply wp_zoom.
    eapply wp_lseek_seek_hole; [exact Hr'|lia|lia|done|]. intros r Hnext. wp_steps.
    change (set_io_fs s' (set_io_rwlock RdLocked (set_io_fs s' w))) with (set_io_rwlock RdLocked (set_io_fs s' w)).
    replace (if a_size a <? r then a_size a else r) with (Z.min r (a_size a)) by (zcase (a_size a <? r); lia).
    apply wp_bind_inv, Hend; [destruct Hnext; lia|]. by exists r.
Qed.

Lemma wp_pmemfile_lseek end_dir w a L es offset whence :
  handle_ok cfg w a L es → has_flag (f_flags (io_file w)) PFILE_PATH = false → 0 ≤ offset < a_size a →
  whence = PMEMFILE_SEEK_DATA ∨ whence = PMEMFILE_SEEK_HOLE →
  (∀ e, e ∈ es → ex_end e ≤ 2 ^ 63) → (whence = PMEMFILE_SEEK_DATA → ∀ e, e ∈ es → ex_offset e ≤ a_size a) →
  wp (pmemfile_lseek calloc_ok end_dir true true offset whence)
    (λ r w', seek_found es whence offset (a_size a) r ∧ f_offset (io_file w') = r ∧ handle_ok cfg w' a L es) noabort w.
Proof.
  intros Hw Hp Hoff Hwh Hends Hstart. pose proof Hw as [Ho Hrw Hmu Hof Hca Hsee].
  unfold pmemfile_lseek, pmemfile_lseek_locked, os_mutex_lock, os_mutex_unlock, io_inode. cbn [negb].
  wp_steps; [by rewrite Hmu|]. cbn [io_file io_fs set_io_mutex]. rewrite Hp, (fo_regular _ _ _ _ _ Ho), andb_false_r. cbn [negb].
  assert ((whence =? PMEMFILE_SEEK_SET) = false ∧ (whence =? PMEMFILE_SEEK_CUR) = false ∧ (whence =? PMEMFILE_SEEK_END) = false ∧
    (whence =? PMEMFILE_SEEK_DATA) || (whence =? PMEMFILE_SEEK_HOLE) = true) as (-> & -> & -> & ->) by (by destruct Hwh as [-> | ->]).
  wp_steps. eapply wp_lseek_seek_data_or_hole; [exact Ho|done|done|done|done|done|]. intros r s' Hr0 Hfound Ho' Hcnt. wp_steps.
  pose proof (fo_bound _ _ _ _ _ Ho) as Hsz. zcase (r <? 0); [lia|]. wp_steps. zcase (r <? 0); [lia|]. wp_steps; [done|]. split; [done|].
  assert (u64 r = r) as Hu by (unfold SSIZE_MAX, INT64_MAX in Hsz; apply Z.mod_small; lia).
  split; [done|]. split; cbn; [done|done|done|rewrite Hu; lia|..];
    change (counter_of _) with (v_block_pointer_invalidation_counter (fs_v s')); by rewrite Hcnt.
Qed.

End meta.

(** ** Main results *)

(** C13: [pmemfile_ftruncate] sets the size: the bytes before the new size stay,
    the bytes after it are zero (also when the file grows again later).  If the
    pool is full while growing it returns -1 with EFBIG and the file is as it
    was.  The locks are released in both cases. *)
Theorem pmemfile_ftruncate_correct (HP : Pobj) (HPok : PobjOk) cfg bs calloc_ok over clock w a L es length :
  cfg_wf cfg bs → (∀ k, calloc_ok k = true) → handle_ok cfg w a L es →
  has_flag (f_flags (io_file w)) PFILE_PATH = false → has_flag (f_flags (io_file w)) PFILE_WRITE = true →
  0 ≤ length ≤ SSIZE_MAX → 0 ≤ counter_of w < UINT64_MAX →
  (a_size a < length → hole_ok cfg (outside length (UINT64_MAX - length) es) (a_size a) (length - a_size a)) →
  wp (pmemfile_ftruncate cfg calloc_ok over clock true true length)
    (meta_call cfg w a L es (a_truncate length a) EFBIG) noabort w.
Proof. intros Hcfg Hc Hw Hp Hwr Hl Hcnt Hh. by eapply wp_pmemfile_ftruncate. Qed.

(** C16: [pmemfile_fallocate] changes no byte and at most extends the size, or,
    with PUNCH_HOLE, zeroes exactly the given bytes and keeps the size; on a full
    pool it returns -1 with ENOSPC and the file is as it was. *)
Theorem pmemfile_fallocate_correct (HP : Pobj) (HPok : PobjOk) cfg bs calloc_ok over w a L es mode offset length :
  cfg_wf cfg bs → (∀ k, calloc_ok k = true) → handle_ok cfg w a L es →
  has_flag (f_flags (io_file w)) PFILE_WRITE = true → fallocate_check_arguments mode offset length = 0 →
  offset < 2 ^ 63 → length < 2 ^ 63 → 0 ≤ counter_of w < UINT64_MAX → fallocate_ok cfg es mode offset length →
  wp (pmemfile_fallocate cfg calloc_ok over true true mode offset length)
    (meta_call cfg w a L es (a_fallocate mode offset length a) ENOSPC) noabort w.
Proof. intros Hcfg Hc Hw Hwr Hchk H1 H2 Hcnt Hh. by eapply wp_pmemfile_fallocate. Qed.

(** C17: [pmemfile_lseek] with SEEK_DATA moves to the first byte at or after the
    offset that lies in a block, with SEEK_HOLE to the first that does not or to
    the end of the file.  For SEEK_DATA no block may start behind the end of
    the file, see [seek_data_past_end]. *)
Theorem pmemfile_lseek_data_hole_correct cfg bs calloc_ok end_dir w a L es offset whence :
  cfg_wf cfg bs → (∀ k, calloc_ok k = true) → handle_ok cfg w a L es →
  has_flag (f_flags (io_file w)) PFILE_PATH = false → 0 ≤ offset < a_size a →
  whence = PMEMFILE_SEEK_DATA ∨ whence = PMEMFILE_SEEK_HOLE →
  (∀ e, e ∈ es → ex_end e ≤ 2 ^ 63) → (whence = PMEMFILE_SEEK_DATA → ∀ e, e ∈ es → ex_offset e ≤ a_size a) →
  wp (pmemfile_lseek calloc_ok end_dir true true offset whence)
    (λ r w', seek_found es whence offset (a_size a) r ∧ f_offset (io_file w') = r ∧ handle_ok cfg w' a L es) noabort w.
Proof. intros Hcfg Hc Hw Hp Ho Hwh He Hs. by eapply wp_pmemfile_lseek. Qed.

(** ** Examples *)

Lemma pmemfile_ftruncate_witness : ∃ (L : list bptr) (es : list extent), es ≠ [] ∧
  wp (@pmemfile_ftruncate Ex.pobj default_cfg Ex.calloc true ExUndo.clock true true 4)
    (meta_call default_cfg ExOps.w1 (a_writev 0 ExOps.iov1 ExOps.a0) L es
      (a_truncate 4 (a_writev 0 ExOps.iov1 ExOps.a0)) EFBIG) noabort ExOps.w1.
Proof.
  destruct ExOps.handle1 as (Hf & _ & L & es & Hw & Hc). exists L, es. split.
  { intros ->. destruct (Hc 5 ltac:(lia)) as (e & He & _). by apply elem_of_nil in He. }
  assert (counter_of ExOps.w1 = 0) as Hcnt by (vm_compute; reflexivity).
  apply (pmemfile_ftruncate_correct _ Ex.pobj_ok default_cfg _ Ex.calloc true ExUndo.clock ExOps.w1 _ L es 4 default_cfg_wf);
    [intros k; reflexivity|exact Hw|rewrite Hf; reflexivity|rewrite Hf; reflexivity|by split|rewrite Hcnt; by split|].
  intros H. vm_compute in H. discriminate H.
Defined.

Lemma pmemfile_fallocate_witness :
  wp (@pmemfile_fallocate Ex.pobj default_cfg Ex.calloc true true true 0 100 50000)
    (meta_call default_cfg ExOps.w0 ExOps.a0 [] [] (a_fallocate 0 100 50000 ExOps.a0) ENOSPC) noabort ExOps.w0.
Proof.
  apply (pmemfile_fallocate_correct _ Ex.pobj_ok default_cfg _ Ex.calloc true ExOps.w0 ExOps.a0 [] [] 0 100 50000 default_cfg_wf);
    [intros k; reflexivity|apply ExOps.handle0|reflexivity|reflexivity|lia|lia|by split|].
  intros _. cbn. by intros e.
Defined.

(** All blocks of the example lie below 2 GiB. *)
Definition low_blocks (arrs : gmap aid block_array) : bool :=
  forallb (λ x : aid * block_array, forallb (λ d, bd_offset d + bd_size d <=? 2 ^ 31) (ba_blocks x.2)) (map_to_list arrs).

Lemma low_blocks_ok cfg s L es e : file_rep cfg s L es → low_blocks (pm_arrays (fs_pm s)) = true → e ∈ es → ex_end e ≤ 2 ^ 31.
Proof.
  intros Hr Hlow He. destruct (rep_elem _ _ _ _ e Hr He) as ([ar i] & d & Hp & Hd & <-). unfold desc_at in Hd. cbn in Hd.
  destruct (pm_arrays (fs_pm s) !! ar) as [arr|] eqn:Harr; [|done]. cbn in Hd.
  unfold low_blocks in Hlow. rewrite forallb_forall in Hlow.
  specialize (Hlow (ar, arr) ltac:(apply list_elem_of_In, elem_of_map_to_list, Harr)). cbn in Hlow.
  rewrite forallb_forall in Hlow. apply Z.leb_le, Hlow, list_elem_of_In. by eapply list_elem_of_lookup_2.
Qed.

Lemma pmemfile_lseek_data_hole_witness : ∃ (L : list bptr) (es : list extent), es ≠ [] ∧
  wp (pmemfile_lseek Ex.calloc (λ x, x) true true 3 PMEMFILE_SEEK_HOLE)
    (λ r w', seek_found es PMEMFILE_SEEK_HOLE 3 (a_size (a_writev 0 ExOps.iov1 ExOps.a0)) r ∧ f_offset (io_file w') = r ∧
      handle_ok default_cfg w' (a_writev 0 ExOps.iov1 ExOps.a0) L es) noabort ExOps.w1.
Proof.
  destruct ExOps.handle1 as (Hf & _ & L & es & Hw & Hc). exists L, es. split.
  { intros ->. destruct (Hc 5 ltac:(lia)) as (e & He & _). by apply elem_of_nil in He. }
  assert (low_blocks (pm_arrays (fs_pm (io_fs ExOps.w1))) = true) as Hlow by (vm_compute; reflexivity).
  assert (is_Some (v_blocks (fs_v (io_fs ExOps.w1)))) as Hm by (vm_compute; by eexists).
  apply (pmemfile_lseek_data_hole_correct default_cfg _ Ex.calloc (λ x, x) ExOps.w1 _ L es 3 PMEMFILE_SEEK_HOLE default_cfg_wf);
    [intros k; reflexivity|exact Hw|rewrite Hf; reflexivity|by split|by right| |discriminate].
  intros e He. pose proof (low_blocks_ok _ _ _ _ e (fo_tree _ _ _ _ _ (h_file _ _ _ _ _ Hw) Hm) Hlow He). lia.
Defined.

(** ** SEEK_DATA behind the last data *)

Section seek.
Notation pwrite := (@pmemfile_pwrite Ex.pobj default_cfg Ex.calloc true ExUndo.clock true true true).
Notation fallocate := (@pmemfile_fallocate Ex.pobj default_cfg Ex.calloc true true true).

(** Write a byte at 0 and one at 100000, punch out the block of the second,
    preallocate 16 KiB at 1 MiB without changing the size, and look for data
    after 50000: there is none before the end of the file. *)
Definition seek_data_prealloc : M io Z :=
  pwrite (Some (ExOps.text 65)) 1 0;;
  pwrite (Some (ExOps.text 66)) 1 100000;;
  fallocate (Z.lor PMEMFILE_FALLOC_FL_KEEP_SIZE PMEMFILE_FALLOC_FL_PUNCH_HOLE) 98304 262144;;
  fallocate PMEMFILE_FALLOC_FL_KEEP_SIZE 1048576 16384;;
  pmemfile_lseek Ex.calloc (λ x, x) true true 50000 PMEMFILE_SEEK_DATA.
End seek.

(** SEEK_DATA fails the assertion that its result is within the file when
    blocks were preallocated behind the end of the file: the next block after the
    hole is one of those. *)
Theorem seek_data_past_end : seek_data_prealloc ExOps.w0 = Fault AssertFail.
Proof. vm_compute. reflexivity. Qed.
