(* ===== verification/HashMap.v ===== *)
(** The hash map of hash_map.c, which finds the volatile inode of a persistent
    one by its offset: two slots per bucket, a random linear hash function, and
    a rebuild with new coefficients or twice the buckets on a conflict. *)
From S2P Require Import Prelude Layout.

Definition INITIAL_NBUCKETS : Z := 2.
Definition HASH_P_COEFF : Z := 32212254719.
Definition BUCKET_SIZE : nat := 2.
Definition SIZEOF_BUCKET : Z := 32.

(** [key = 0] marks a slot that is not used; values are addresses, NULL is
    [None]. *)
Record slot := Slot { sl_key : Z; sl_value : option positive }.
Definition zero_slot : slot := Slot 0 None.

(** [struct hash_map_bucket] *)
Notation bucket := (list slot) (only parsing).
Definition zero_bucket : bucket := replicate BUCKET_SIZE zero_slot.

Record hash_map := HashMap {
  hash_fun_a : Z; hash_fun_b : Z; hash_fun_p : Z; hm_seed : Z;
  nbuckets : Z; buckets : list bucket; entries : Z;
}.

Definition set_params a b seed (m : hash_map) :=
  HashMap a b (hash_fun_p m) seed (nbuckets m) (buckets m) (entries m).
Definition set_buckets n bs (m : hash_map) :=
  HashMap (hash_fun_a m) (hash_fun_b m) (hash_fun_p m) (hm_seed m) n bs (entries m).
Definition set_entries n (m : hash_map) :=
  HashMap (hash_fun_a m) (hash_fun_b m) (hash_fun_p m) (hm_seed m) (nbuckets m) (buckets m) n.

(** [nrand48(3)]: a step of the 48-bit linear congruential generator; the
    result is its upper 31 bits. *)
Definition nrand48 (x : Z) : Z * Z :=
  let x' := (0x5DEECE66D * x + 0xB) mod 2 ^ 48 in (Z.shiftr x' 17, x').

Section hash_map.
Variable calloc_ok : nat → bool.

(** [do a = nrand48(seed); while (a == 0)] *)
Fixpoint rand_nonzero (fuel : nat) (seed : Z) : M dram (Z * Z) :=
  match fuel with
  | O => fault_ NoFuel
  | S fuel' =>
      let '(r, seed) := nrand48 seed in
      if u32 r =? 0 then rand_nonzero fuel' seed else mret (u32 r, seed)
  end.

(** The generator returns 0 for a state below 2^17, which never happens three
    times in a row. *)
Definition hash_map_rand_params (map : hash_map) : M dram hash_map :=
  '(a, seed) ← rand_nonzero 3 (hm_seed map);
  let '(b, seed) := nrand48 seed in
  mret (set_params a (u32 b) seed map).

(** [pf_calloc(n, sizeof(struct hash_map_bucket))]: calloc fails when the product
    does not fit a [size_t]. *)
Definition calloc_buckets (n : Z) : M dram (option (list bucket)) :=
  if UINT64_MAX <? n * SIZEOF_BUCKET then mret None
  else
    ok ← pf_calloc calloc_ok;
    mret (if ok : bool then Some (replicate (Z.to_nat n) zero_bucket) else None).

Definition hash_map_alloc : M dram (option hash_map) :=
  ok ← pf_calloc calloc_ok;
  if negb ok then mret None
  else
    bs ← calloc_buckets INITIAL_NBUCKETS;
    match bs with
    | None => pf_free;; mret None
    | Some bs =>
        map ← hash_map_rand_params (HashMap 0 0 0 0 INITIAL_NBUCKETS bs 0);
        mret (Some (HashMap (hash_fun_a map) (hash_fun_b map) HASH_P_COEFF (hm_seed map) (nbuckets map)
                      (buckets map) (entries map)))
    end.

Definition hash_map_free (map : hash_map) : M dram unit := pf_free;; pf_free.

(** The callback runs on every entry, in the order of the slots (the counter of
    the loop is 32 bits wide: for tables of less than 2^32 buckets). *)
Fixpoint traverse_slots {S} (fun_ : Z → positive → M S unit) (ss : list slot) (num : Z) : M S Z :=
  match ss with
  | [] => mret num
  | s :: ss' =>
      match sl_value s with
      | Some v => fun_ (sl_key s) v;; traverse_slots fun_ ss' (num + 1)
      | None => traverse_slots fun_ ss' num
      end
  end.
Definition hash_map_traverse {S} (fun_ : Z → positive → M S unit) (map : hash_map) : M S Z :=
  traverse_slots fun_ (concat (buckets map)) 0.

Definition pf_hash (map : hash_map) (key : Z) : Z :=
  u64 (hash_fun_a map * key + hash_fun_b map) mod hash_fun_p map.

Definition bucket_index (map : hash_map) (key : Z) : nat := Z.to_nat (pf_hash map key mod nbuckets map).

Fixpoint first_empty (b : bucket) (j : nat) : option nat :=
  match b with
  | [] => None
  | s :: b' => if sl_key s =? 0 then Some j else first_empty b' (S j)
  end.

(** The loops over the old buckets and their slots; [None] on a conflict. *)
Fixpoint rehash (c : hash_map) (new_sz : Z) (ss : list slot) (new_buckets : list bucket)
    : M dram (option (list bucket)) :=
  match ss with
  | [] => mret (Some new_buckets)
  | s :: ss' =>
      if sl_key s =? 0 then rehash c new_sz ss' new_buckets
      else
        let idx := Z.to_nat (pf_hash c (sl_key s) mod new_sz) in
        newbucket ← of_option OutOfBounds (new_buckets !! idx);
        match first_empty newbucket 0 with
        | Some k => rehash c new_sz ss' (<[idx := <[k := s]> newbucket]> new_buckets)
        | None => mret None
        end
  end.

Definition hash_map_rebuild (c : hash_map) (new_sz : Z) : M dram (Z * hash_map) :=
  new_buckets ← calloc_buckets new_sz;
  match new_buckets with
  | None => mret (- ENOMEM, c)
  | Some new_buckets =>
      r ← rehash c new_sz (concat (buckets c)) new_buckets;
      match r with
      | None => pf_free;; mret (1, c)
      | Some bs => pf_free;; mret (0, set_buckets new_sz bs c)
      end
  end.

Fixpoint find_value (b : bucket) (value : positive) (j : nat) : option nat :=
  match b with
  | [] => None
  | s :: b' => if decide (sl_value s = Some value) then Some j else find_value b' value (S j)
  end.

Definition hash_map_remove (map : hash_map) (key : Z) (value : positive) : M dram (Z * hash_map) :=
  let idx := bucket_index map key in
  b ← of_option OutOfBounds (buckets map !! idx);
  match find_value b value 0 with
  | None => mret (- ENOENT, map)
  | Some j =>
      mret (0, set_entries (u64 (entries map - 1))
                 (set_buckets (nbuckets map) (<[idx := <[j := zero_slot]> b]> (buckets map)) map))
  end.

Fixpoint find_key (b : bucket) (key : Z) : option slot :=
  match b with
  | [] => None
  | s :: b' => if sl_key s =? key then Some s else find_key b' key
  end.

Definition hash_map_get (map : hash_map) (key : Z) : M dram (option positive) :=
  b ← of_option OutOfBounds (buckets map !! bucket_index map key);
  mret (s ← find_key b key; sl_value s).

(** Every round either consumes one of two tries or doubles the size, which
    calloc refuses from 2^59 on. *)
Definition put_fuel : nat := 200.

(** The inner loop of [hash_map_put]: new coefficients, after two tries twice as
    many buckets, until the map can be rebuilt. *)
Fixpoint rebuild_loop (fuel : nat) (map : hash_map) (new_sz : Z) (tries : nat) : M dram (Z * hash_map * nat) :=
  match fuel with
  | O => fault_ NoFuel
  | S fuel' =>
      '(map, new_sz, tries) ←
        (if (u64 (2 * new_sz) <? entries map) || Nat.eqb tries 2 then mret (map, u64 (new_sz * 2), 0%nat)
         else map ← hash_map_rand_params map; mret (map, new_sz, S tries));
      '(res, map) ← hash_map_rebuild map new_sz;
      if res =? 1 then rebuild_loop fuel' map new_sz tries else mret (res, map, tries)
  end.

(** The outer loop: until the bucket of the key has room.  The result is the
    free slot, or the error. *)
Fixpoint make_room (fuel : nat) (map : hash_map) (key : Z) (tries : nat) : M dram (Z * hash_map * nat) :=
  match fuel with
  | O => fault_ NoFuel
  | S fuel' =>
      '(res, map, tries) ← rebuild_loop put_fuel map (nbuckets map) tries;
      if res <? 0 then mret (res, map, 0%nat)
      else
        b ← of_option OutOfBounds (buckets map !! bucket_index map key);
        match first_empty b 0 with
        | Some j => mret (0, map, j)
        | None => make_room fuel' map key tries
        end
  end.

Definition fill_slot (map : hash_map) (key : Z) (value : positive) (j : nat) : M dram (option positive * Z * hash_map) :=
  let idx := bucket_index map key in
  b ← of_option OutOfBounds (buckets map !! idx);
  mret (Some value, 0,
    set_entries (u64 (entries map + 1))
      (set_buckets (nbuckets map) (<[idx := <[j := Slot key (Some value)]> b]> (buckets map)) map)).

(** The result, [errno] (0 if not set) and the map. *)
Definition hash_map_put (map : hash_map) (key : Z) (value : positive) : M dram (option positive * Z * hash_map) :=
  b ← of_option OutOfBounds (buckets map !! bucket_index map key);
  match find_key b key with
  | Some s => mret (sl_value s, 0, map)
  | None =>
      match first_empty b 0 with
      | Some j => fill_slot map key value j
      | None =>
          '(res, map, j) ← make_room put_fuel map key 0;
          if res <? 0 then mret (None, - res, map) else fill_slot map key value j
      end
  end.
End hash_map.

(** ** Contents of a table *)

Definition slot_pairs (s : slot) : list (Z * positive) :=
  if sl_key s =? 0 then [] else match sl_value s with Some v => [(sl_key s, v)] | None => [] end.
Definition content (bs : list bucket) : list (Z * positive) := concat bs ≫= slot_pairs.

Definition slot_ok (s : slot) : Prop :=
  s = zero_slot ∨ (0 < sl_key s ∧ is_Some (sl_value s)).

(** Buckets of two slots whose entries are [l]. *)
Record stored (bs : list bucket) (l : list (Z * positive)) : Prop := {
  st_two : Forall (λ b, length b = BUCKET_SIZE) bs;
  st_slots : Forall slot_ok (concat bs);
  st_content : content bs ≡ₚ l;
}.

(** ... and every entry is in the bucket its hash says. *)
Record table (hash : Z → Z) (n : Z) (bs : list bucket) (l : list (Z * positive)) : Prop := {
  tb_stored : stored bs l;
  tb_length : length bs = Z.to_nat n;
  tb_place i b s : bs !! i = Some b → s ∈ b → sl_key s ≠ 0 → i = Z.to_nat (hash (sl_key s) mod n);
}.

(** The number of buckets is a power of two that calloc can still allocate. *)
Definition size_ok (k : Z) : Prop := 0 ≤ k ≤ 58.

(** The map with any coefficients: only the entries are right. *)
Record unplaced (map : hash_map) (m : gmap Z positive) : Prop := {
  up_stored : stored (buckets map) (map_to_list m);
  up_size : ∃ k, size_ok k ∧ nbuckets map = 2 ^ k;
  up_length : length (buckets map) = Z.to_nat (nbuckets map);
  up_entries : entries map = Z.of_nat (size m);
  up_p : hash_fun_p map = HASH_P_COEFF;
  up_seed : 0 ≤ hm_seed map < 2 ^ 48;
}.

Record hm_rep (map : hash_map) (m : gmap Z positive) : Prop := {
  hr_unplaced : unplaced map m;
  hr_table : table (pf_hash map) (nbuckets map) (buckets map) (map_to_list m);
}.

Lemma concat_insert {A} (bs : list (list A)) i b j x y :
  bs !! i = Some b → b !! j = Some x →
  ∃ R, concat bs ≡ₚ x :: R ∧ concat (<[i := <[j := y]> b]> bs) ≡ₚ y :: R.
Proof.
  intros Hb Hx. exists (concat (take i bs) ++ take j b ++ drop (S j) b ++ concat (drop (S i) bs)).
  pose proof (lookup_lt_Some _ _ _ Hb). pose proof (lookup_lt_Some _ _ _ Hx). split.
  - rewrite <-(take_drop_middle bs i b Hb) at 1. rewrite concat_app, concat_cons.
    rewrite <-(take_drop_middle b j x Hx) at 1. rewrite <-!app_assoc. cbn. solve_Permutation.
  - rewrite insert_take_drop by done. rewrite (insert_take_drop b) by done.
    rewrite concat_app, concat_cons, <-!app_assoc. cbn. solve_Permutation.
Qed.

Lemma content_insert bs i b j s s' :
  bs !! i = Some b → b !! j = Some s →
  ∃ R, content bs ≡ₚ slot_pairs s ++ R ∧ content (<[i := <[j := s']> b]> bs) ≡ₚ slot_pairs s' ++ R.
Proof.
  intros Hb Hs. destruct (concat_insert bs i b j s s' Hb Hs) as (R & H1 & H2).
  exists (R ≫= slot_pairs). unfold content. by rewrite H1, H2.
Qed.

Lemma concat_elem {A} (bs : list (list A)) x : x ∈ concat bs ↔ ∃ i b, bs !! i = Some b ∧ x ∈ b.
Proof.
  rewrite list_elem_of_In, in_concat. split.
  - intros (b & Hb & Hx). apply list_elem_of_In in Hb, Hx. apply list_elem_of_lookup in Hb as [i Hi]. by exists i, b.
  - intros (i & b & Hi & Hx). exists b. rewrite <-!list_elem_of_In. split; [by eapply list_elem_of_lookup_2|done].
Qed.

Lemma slots_insert bs i b j s s' :
  bs !! i = Some b → b !! j = Some s → Forall slot_ok (concat bs) → slot_ok s' →
  Forall slot_ok (concat (<[i := <[j := s']> b]> bs)).
Proof.
  intros Hb Hs Hok Hs'. destruct (concat_insert bs i b j s s' Hb Hs) as (R & H1 & H2).
  rewrite H2. rewrite H1 in Hok. inv Hok. by constructor.
Qed.

Lemma two_insert (bs : list bucket) i b (j : nat) (s : slot) :
  Forall (λ b, length b = BUCKET_SIZE) bs → bs !! i = Some b →
  Forall (λ b, length b = BUCKET_SIZE) (<[i := <[j := s]> b]> bs).
Proof.
  intros H Hb. apply Forall_insert; [done|]. rewrite length_insert. exact (Forall_lookup_1 _ _ _ _ H Hb).
Qed.

(** Replacing one slot of a table. *)
Lemma table_update hash n bs l l' i b j s s' :
  table hash n bs l → bs !! i = Some b → b !! j = Some s → slot_ok s' →
  (sl_key s' ≠ 0 → i = Z.to_nat (hash (sl_key s') mod n)) →
  (∀ R, l ≡ₚ slot_pairs s ++ R → slot_pairs s' ++ R ≡ₚ l') →
  table hash n (<[i := <[j := s']> b]> bs) l'.
Proof.
  intros [[Ht Hok Hc] Hlen Hpl] Hb Hs Hs' Hi Hl. destruct (content_insert bs i b j s s' Hb Hs) as (R & H1 & H2).
  split; [split| |].
  - by apply two_insert.
  - by eapply slots_insert.
  - rewrite H2. apply Hl. by rewrite <-Hc.
  - by rewrite length_insert.
  - intros i' b' x [(-> & <- & _)|[Hne Hb']]%list_lookup_insert_Some Hx Hk; [|by eapply Hpl].
    apply list_elem_of_lookup in Hx as [j' [(-> & <- & _)|[Hj Hj']]%list_lookup_insert_Some]; [by apply Hi|].
    eapply Hpl; [done| |done]. by eapply list_elem_of_lookup_2.
Qed.

Lemma first_empty_spec b j k : first_empty b j = Some k →
  ∃ i s, k = (j + i)%nat ∧ b !! i = Some s ∧ sl_key s = 0.
Proof.
  revert j. induction b as [|s b IH]; intros j; cbn; [done|]. zcase (sl_key s =? 0).
  - intros [= <-]. exists 0%nat, s. split; [lia|done].
  - intros (i & s' & -> & ? & ?)%IH. exists (S i), s'. split; [lia|done].
Qed.

Lemma find_key_Some b key s : find_key b key = Some s → s ∈ b ∧ sl_key s = key.
Proof.
  induction b as [|s' b IH]; cbn; [done|]. zcase (sl_key s' =? key).
  - intros [= <-]. split; [by left|done].
  - intros [? ?]%IH. split; [by right|done].
Qed.

Lemma find_key_None b key s : find_key b key = None → s ∈ b → sl_key s ≠ key.
Proof.
  induction b as [|s' b IH]; cbn; intros Hf; [by intros ?%elem_of_nil|].
  zcase (sl_key s' =? key); [done|]. intros [->|Hs]%elem_of_cons; [done|]. by apply IH.
Qed.

Lemma length_two (bs : list bucket) : Forall (λ b, length b = BUCKET_SIZE) bs → length (concat bs) = (2 * length bs)%nat.
Proof. induction 1 as [|b bs Hb _ IH]; cbn; [done|]. rewrite length_app, Hb, IH. unfold BUCKET_SIZE. lia. Qed.

Lemma length_pairs (ss : list slot) : (length (ss ≫= slot_pairs) ≤ length ss)%nat.
Proof.
  induction ss as [|s ss IH]; cbn; [lia|]. rewrite length_app. unfold slot_pairs at 1.
  destruct (sl_key s =? 0), (sl_value s); cbn; lia.
Qed.

Lemma unplaced_bound map m : unplaced map m → 0 ≤ entries map ≤ 2 * nbuckets map ∧ nbuckets map ≤ 2 ^ 58.
Proof.
  intros [[Ht _ Hc] (k & Hk & Hn) Hl He _ _]. pose proof (Z.pow_le_mono_r 2 k 58). unfold size_ok in Hk.
  rewrite He, Hn in *. assert (size m = length (content (buckets map))) as ->.
  { by rewrite Hc, length_map_to_list. }
  pose proof (length_pairs (concat (buckets map))) as Hp. unfold content. rewrite (length_two _ Ht), Hl in Hp. lia.
Qed.

(** ** Coefficients *)

Definition nrand_next (x : Z) : Z := (nrand48 x).2.

Lemma nrand_next_range x : 0 ≤ nrand_next x < 2 ^ 48.
Proof. apply Z.mod_pos_bound. lia. Qed.

Lemma nrand48_zero x : u32 (nrand48 x).1 = 0 → nrand_next x < 2 ^ 17.
Proof.
  pose proof (nrand_next_range x) as Hr. unfold nrand_next, nrand48, u32 in *. cbn [fst snd] in *.
  set (y := _ mod 2 ^ 48) in *. rewrite Z.shiftr_div_pow2 by lia. intros H.
  assert (0 ≤ y / 2 ^ 17 < 2 ^ 31) by (split; [apply Z.div_pos; lia|apply Z.div_lt_upper_bound; lia]).
  rewrite Z.mod_small in H by lia. apply Z.div_small_iff in H; lia.
Qed.

(** A state below 2^17 is followed by another one only if it is 0. *)
Lemma nrand_next_small x : 0 ≤ x < 2 ^ 17 → nrand_next x < 2 ^ 17 → x = 0.
Proof.
  intros Hx Hy. pose proof (nrand_next_range x) as Hr. unfold nrand_next, nrand48 in *. cbn [snd] in *.
  pose proof (Z.div_mod (0x5DEECE66D * x + 0xB) (2 ^ 48) ltac:(lia)) as Hd.
  set (q := _ / _) in *. set (y := _ mod _) in *. clearbody q y.
  assert (q = 0 ∨ q = 1 ∨ q = 2 ∨ q = 3 ∨ q = 4 ∨ q = 5 ∨ q = 6 ∨ q = 7 ∨ q = 8 ∨ q = 9 ∨ q = 10 ∨ q = 11) as Hq by lia.
  repeat destruct Hq as [->|Hq]; subst; lia.
Qed.

Lemma nrand48_progress x : 0 ≤ x < 2 ^ 17 → 2 ^ 17 ≤ nrand_next x ∨ 2 ^ 17 ≤ nrand_next (nrand_next x).
Proof.
  intros Hx. destruct (decide (nrand_next x < 2 ^ 17)) as [Hy|]; [|lia].
  rewrite (nrand_next_small x Hx Hy). right. vm_compute. discriminate.
Qed.

Lemma rand_step fuel seed (Q : Z * Z → dram → Prop) E d :
  (∀ a, 0 < a < 2 ^ 32 → Q (a, nrand_next seed) d) →
  (nrand_next seed < 2 ^ 17 → wp (rand_nonzero fuel (nrand_next seed)) Q E d) →
  wp (rand_nonzero (S fuel) seed) Q E d.
Proof.
  intros HQ Hs. cbn [rand_nonzero]. pose proof (nrand48_zero seed) as Hz. unfold nrand_next in *.
  destruct (nrand48 seed) as [r sd] eqn:Hr. cbn [fst snd] in *. zcase (u32 r =? 0); [by apply Hs, Hz|].
  apply wp_ret, HQ. pose proof (Z.mod_pos_bound r (2 ^ 32)). unfold u32 in *. lia.
Qed.

Lemma wp_rand_params map (Q : hash_map → dram → Prop) E d :
  0 ≤ hm_seed map < 2 ^ 48 →
  (∀ a b seed, 0 ≤ seed < 2 ^ 48 → Q (set_params a b seed map) d) → wp (hash_map_rand_params map) Q E d.
Proof.
  intros Hseed HQ. unfold hash_map_rand_params. apply wp_bind.
  assert (∀ s0 a (d : dram), (let '(b, seed) := nrand48 s0 in wp (mret (set_params a (u32 b) seed map)) Q E d) ↔
    Q (set_params a (u32 (nrand48 s0).1) (nrand_next s0) map) d) as Hq.
  { intros. unfold nrand_next. by destruct (nrand48 s0). }
  pose proof nrand_next_range.
  apply rand_step; [intros a _; apply Hq, HQ; auto|intros H1].
  apply rand_step; [intros a _; apply Hq, HQ; auto|intros H2].
  apply rand_step; [intros a _; apply Hq, HQ; auto|intros H3].
  destruct (nrand48_progress (nrand_next (hm_seed map))) as [?|?]; [|lia|lia]. split; [apply nrand_next_range|done].
Qed.

Section proofs.
Variable calloc_ok : nat → bool.
Implicit Types (map : hash_map) (m : gmap Z positive).

(** Only memory that is released again was allocated. *)
Notation same_live d d' := (dram_live d' = dram_live d).

(** ** Rebuilding *)

Lemma pairs_filled s : slot_ok s → sl_key s ≠ 0 → ∃ v, s = Slot (sl_key s) (Some v) ∧ slot_pairs s = [(sl_key s, v)].
Proof.
  intros [->|[Hk [v Hv]]] Hn; [done|]. exists v. destruct s as [k x]. cbn in *. subst x. split; [done|].
  unfold slot_pairs. cbn. by rewrite (proj2 (Z.eqb_neq k 0)).
Qed.

Lemma pairs_empty s : slot_ok s → sl_key s = 0 → slot_pairs s = [].
Proof. intros [->|[Hk _]] Hn; [done|lia]. Qed.

Lemma wp_rehash c n ss bs l d :
  0 < n → Forall slot_ok ss → table (pf_hash c) n bs l →
  wp (rehash c n ss bs) (λ r d', d' = d ∧ ∀ bs', r = Some bs' → table (pf_hash c) n bs' (l ++ (ss ≫= slot_pairs))) noabort d.
Proof.
  intros Hn. revert bs l. induction ss as [|s ss IH]; intros bs l Hss Ht; cbn [rehash].
  { apply wp_ret. split; [done|]. intros ? [= <-]. cbn. by rewrite app_nil_r. }
  inv Hss. zcase (sl_key s =? 0).
  { eapply wp_conseq; [by apply IH|]. intros r d' [-> Hr]. split; [done|]. intros bs' ->. cbn.
    rewrite (pairs_empty s) by done. by apply Hr. }
  pose proof (Z.mod_pos_bound (pf_hash c (sl_key s)) n Hn) as Hi. set (idx := Z.to_nat _).
  destruct (lookup_lt_is_Some_2 bs idx) as [b Hb].
  { rewrite (tb_length _ _ _ _ Ht). unfold idx. lia. }
  rewrite Hb. apply wp_bind, wp_ret. destruct (first_empty b 0) as [k|] eqn:Hk; [|apply wp_ret; naive_solver].
  apply first_empty_spec in Hk as (i & s0 & -> & Hs0 & Hz). cbn.
  destruct (pairs_filled s) as (v & Hs & Hp); [done..|].
  eapply wp_conseq; [apply (IH _ (l ++ slot_pairs s)); [done|]|].
  - eapply table_update; [done..|]. intros R HR. rewrite HR, (pairs_empty s0); [cbn; solve_Permutation| |done].
    eapply Forall_forall; [apply Ht|]. apply concat_elem. exists idx, b. split; [done|]. by eapply list_elem_of_lookup_2.
  - intros r d' [-> Hr]. split; [done|]. intros bs' Hbs. cbn. rewrite app_assoc. by apply Hr.
Qed.

Lemma table_empty hash n : table hash n (replicate (Z.to_nat n) zero_bucket) [].
Proof.
  assert (Forall (λ b, b = zero_bucket) (replicate (Z.to_nat n) zero_bucket)) as Hf by (by apply Forall_replicate).
  assert (∀ s, s ∈ concat (replicate (Z.to_nat n) zero_bucket) → s = zero_slot) as Hz.
  { intros s (i & b & Hb & Hs)%concat_elem. apply lookup_replicate_1 in Hb as [-> _]. by apply elem_of_replicate_inv in Hs. }
  split; [split| |].
  - eapply Forall_impl; [done|]. by intros b ->.
  - apply Forall_forall. intros s Hs. left. by apply Hz.
  - unfold content. induction (Z.to_nat n); [done|]. apply IHn0; [|intros s Hs; apply Hz; cbn; set_solver].
    by apply Forall_replicate.
  - by rewrite length_replicate.
  - intros i b s Hb Hs []. rewrite (Hz s); [done|]. apply concat_elem. by exists i, b.
Qed.

(** [hash_map_rebuild] stores the entries in a new table, or leaves the map. *)
Lemma wp_hash_map_rebuild map m k (Q : Z * hash_map → dram → Prop) E d :
  unplaced map m → size_ok k →
  (∀ d', same_live d d' → Q (- ENOMEM, map) d') →
  (∀ d', same_live d d' → Q (1, map) d') →
  (∀ d' bs, same_live d d' → hm_rep (set_buckets (2 ^ k) bs map) m → Q (0, set_buckets (2 ^ k) bs map) d') →
  wp (hash_map_rebuild calloc_ok map (2 ^ k)) Q E d.
Proof.
  intros Hu Hk Qm Q1 Q0. pose proof (Z.pow_pos_nonneg 2 k). pose proof (Z.pow_le_mono_r 2 k 58). unfold size_ok in Hk.
  unfold hash_map_rebuild, calloc_buckets, SIZEOF_BUCKET, UINT64_MAX. zcase (2 ^ 64 - 1 <? 2 ^ k * 32); [lia|].
  apply wp_bind. unfold pf_calloc. unfold wp at 1, mbind, M_bind. destruct (calloc_ok (dram_tick d)) eqn:Hc; [|by apply Qm].
  cbn [mret M_ret]. pose proof (up_stored _ _ Hu) as Hst. eapply wp_seq.
  { eapply wp_mono; [eapply wp_rehash; [lia|apply Hst|apply table_empty]|done|done]. }
  intros r d' [-> Hr]. destruct r as [bs|]; unfold pf_free; wp_steps.
  - apply Q0; [cbn; lia|]. specialize (Hr bs eq_refl). cbn in Hr.
    assert (table (pf_hash map) (2 ^ k) bs (map_to_list m)) as Ht.
    { destruct Hr as [[H1 H2 H3] H4 H5]. split; [split| |]; try done. rewrite H3. apply Hst. }
    split; [|done]. destruct Hu as [_ _ _ He Hp Hs]. split; try done; [apply Ht|by exists k|by apply Ht].
  - apply Q1. cbn. lia.
Qed.

(** ** Termination: every round uses up a try or doubles the size *)

Definition rounds (k : Z) (tries : nat) : Z := 3 * (58 - k) + 2 - Z.of_nat tries.

Lemma unplaced_params map m a b seed : 0 ≤ seed < 2 ^ 48 → unplaced map m → unplaced (set_params a b seed map) m.
Proof. intros Hs []. by split. Qed.

Lemma rebuild_2_59 map (Q : Z * hash_map → dram → Prop) E d :
  Q (- ENOMEM, map) d → wp (hash_map_rebuild calloc_ok map (2 ^ 59)) Q E d.
Proof. done. Qed.

Lemma wp_rebuild_loop fuel map m k tries (Q : Z * hash_map * nat → dram → Prop) E d :
  unplaced map m → size_ok k → (tries ≤ 2)%nat → rounds k tries < Z.of_nat fuel →
  (∀ map' t d', unplaced map' m → same_live d d' → Q (- ENOMEM, map', t) d') →
  (∀ map' k' t d', hm_rep map' m → size_ok k' → nbuckets map' = 2 ^ k' → (t ≤ 2)%nat → rounds k' t < rounds k tries →
    same_live d d' → Q (0, map', t) d') →
  wp (rebuild_loop calloc_ok fuel map (2 ^ k) tries) Q E d.
Proof.
  revert map k tries d. induction fuel as [|fuel IH]; intros map k tries d Hu Hk Ht Hf Qm Q0.
  { unfold rounds, size_ok in *. lia. }
  cbn [rebuild_loop]. assert (∀ map' k' t' d', unplaced map' m → size_ok k' → (t' ≤ 2)%nat → rounds k' t' < rounds k tries →
      same_live d d' →
      wp ('(res, map) ← hash_map_rebuild calloc_ok map' (2 ^ k');
          if res =? 1 then rebuild_loop calloc_ok fuel map (2 ^ k') t' else mret (res, map, t')) Q E d') as Hstep.
  { intros map' k' t' d' Hu' Hk' Ht' Hr Hl. apply wp_bind. eapply wp_hash_map_rebuild; [done..| | |].
    - intros d1 Hd. apply wp_ret, Qm; [done|congruence].
    - intros d1 Hd. apply IH; [done..|lia| |].
      + intros. apply Qm; [done|congruence].
      + intros. eapply Q0; [done..|lia|congruence].
    - intros d1 bs Hd Hrep. apply wp_ret. by eapply (Q0 _ k'); [..|congruence]. }
  apply wp_bind. zcase ((u64 (2 * 2 ^ k) <? entries map) || Nat.eqb tries 2).
  - apply wp_ret. unfold size_ok in Hk. assert (u64 (2 ^ k * 2) = 2 ^ (k + 1)) as ->.
    { rewrite Z.pow_add_r by lia. apply Z.mod_small. pose proof (Z.pow_le_mono_r 2 k 58). lia. }
    destruct (decide (k = 58)) as [->|].
    { apply wp_bind, (rebuild_2_59 map), wp_ret. by apply Qm. }
    apply Hstep; [done|unfold size_ok; lia|lia|unfold rounds; lia|done].
  - apply wp_bind, wp_rand_params; [apply Hu|]. intros a b seed Hs. apply wp_ret.
    apply Hstep; [by apply unplaced_params|done| | |done].
    + apply Nat.eqb_neq in H0. lia.
    + unfold rounds. lia.
Qed.

Lemma hm_bucket map m key : hm_rep map m → ∃ b, buckets map !! bucket_index map key = Some b ∧ length b = BUCKET_SIZE.
Proof.
  intros [Hu Ht]. destruct (up_size _ _ Hu) as (k & Hk & Hn). pose proof (Z.pow_pos_nonneg 2 k). unfold size_ok in Hk.
  destruct (lookup_lt_is_Some_2 (buckets map) (bucket_index map key)) as [b Hb].
  - rewrite (tb_length _ _ _ _ Ht). unfold bucket_index. pose proof (Z.mod_pos_bound (pf_hash map key) (nbuckets map)). lia.
  - exists b. split; [done|]. eapply (Forall_lookup_1 (λ b, length b = BUCKET_SIZE)); [apply Ht|done].
Qed.

Lemma wp_make_room fuel map m k key tries (Q : Z * hash_map * nat → dram → Prop) E d :
  unplaced map m → size_ok k → nbuckets map = 2 ^ k → (tries ≤ 2)%nat →
  rounds k tries < Z.of_nat fuel → (fuel ≤ put_fuel)%nat →
  (∀ map' d', unplaced map' m → same_live d d' → Q (- ENOMEM, map', 0%nat) d') →
  (∀ map' b j d', hm_rep map' m → buckets map' !! bucket_index map' key = Some b → first_empty b 0 = Some j →
    same_live d d' → Q (0, map', j) d') →
  wp (make_room calloc_ok fuel map key tries) Q E d.
Proof.
  revert map k tries d. induction fuel as [|fuel IH]; intros map k tries d Hu Hk Hn Ht Hf Hp Qm Q0.
  { unfold rounds, size_ok in *. lia. }
  cbn [make_room]. apply wp_bind. rewrite Hn. eapply wp_rebuild_loop; [done..| | |].
  - unfold put_fuel in *. lia.
  - intros map' t d' Hu' Hl. apply wp_ret. by apply Qm.
  - intros map' k' t d' Hr Hk' Hn' Ht' Hrd Hl. cbn. destruct (hm_bucket _ _ key Hr) as (b & Hb & _). rewrite Hb.
    apply wp_bind, wp_ret. destruct (first_empty b 0) as [j|] eqn:Hj; [apply wp_ret; by eapply Q0|].
    eapply IH; [apply Hr|done..|lia|lia| |].
    + intros. apply Qm; [done|congruence].
    + intros. eapply Q0; [done..|congruence].
Qed.

(** ** The operations *)

Lemma slot_in_map map m i b s v : hm_rep map m → buckets map !! i = Some b → s ∈ b →
  sl_key s ≠ 0 → sl_value s = Some v → m !! sl_key s = Some v.
Proof.
  intros [_ Ht] Hb Hs Hk Hv. apply elem_of_map_to_list. rewrite <-(st_content _ _ (tb_stored _ _ _ _ Ht)).
  apply list_elem_of_bind. exists s. split; [|apply concat_elem; eauto].
  unfold slot_pairs. rewrite (proj2 (Z.eqb_neq _ _) Hk), Hv. by left.
Qed.

Lemma map_in_slot map m key v : hm_rep map m → m !! key = Some v →
  ∃ b, buckets map !! bucket_index map key = Some b ∧ Slot key (Some v) ∈ b ∧ key ≠ 0.
Proof.
  intros [_ Ht] Hm. apply elem_of_map_to_list in Hm. rewrite <-(st_content _ _ (tb_stored _ _ _ _ Ht)) in Hm.
  apply list_elem_of_bind in Hm as (s & Hp & (i & b & Hb & Hs)%concat_elem). unfold slot_pairs in Hp.
  zcase (sl_key s =? 0); [by apply elem_of_nil in Hp|]. destruct s as [k [x|]]; cbn in *; [|by apply elem_of_nil in Hp].
  apply list_elem_of_singleton in Hp as [= -> ->].
  pose proof (tb_place _ _ _ _ Ht i b _ Hb Hs) as Hi. cbn in Hi. specialize (Hi ltac:(done)). subst i. by exists b.
Qed.

Lemma wp_hash_map_get map m key (Q : option positive → dram → Prop) E d :
  hm_rep map m → 0 < key → Q (m !! key) d → wp (hash_map_get map key) Q E d.
Proof.
  intros Hr Hk HQ. destruct (hm_bucket _ _ key Hr) as (b & Hb & _). unfold hash_map_get. rewrite Hb.
  apply wp_bind, wp_ret, wp_ret. destruct (find_key b key) as [s|] eqn:Hf; cbn.
  - apply find_key_Some in Hf as [Hs <-].
    assert (slot_ok s) as [->|[_ [v Hv]]].
    { eapply Forall_forall; [apply Hr|]. apply concat_elem. eauto. }
    + done.
    + rewrite Hv. erewrite slot_in_map in HQ; [done..|lia|done].
  - destruct (m !! key) as [v|] eqn:Hm; [|done]. destruct (map_in_slot _ _ _ _ Hr Hm) as (b' & Hb' & Hs & _).
    simplify_eq. by destruct (find_key_None _ _ _ Hf Hs).
Qed.

(** One slot of the map changes. *)
Lemma hm_update map m m' i b j s s' :
  hm_rep map m → (sl_key s' ≠ 0 → i = bucket_index map (sl_key s')) → buckets map !! i = Some b → b !! j = Some s → slot_ok s' →
  (∀ R, map_to_list m ≡ₚ slot_pairs s ++ R → slot_pairs s' ++ R ≡ₚ map_to_list m') →
  hm_rep (set_entries (Z.of_nat (size m')) (set_buckets (nbuckets map) (<[i := <[j := s']> b]> (buckets map)) map)) m'.
Proof.
  intros [Hu Ht] Hi Hb Hs Hok Hl.
  assert (table (pf_hash map) (nbuckets map) (<[i := <[j := s']> b]> (buckets map)) (map_to_list m')) as Ht'.
  { by eapply table_update. }
  split; [|done]. destruct Hu as [_ Hsz Hlen _ Hp Hseed]. split; try done; cbn; [apply Ht'|].
  by rewrite length_insert.
Qed.

Lemma wp_fill_slot map m key value b j (Q : option positive * Z * hash_map → dram → Prop) E d :
  hm_rep map m → 0 < key → m !! key = None →
  buckets map !! bucket_index map key = Some b → first_empty b 0 = Some j →
  (∀ map', hm_rep map' (<[key := value]> m) → Q (Some value, 0, map') d) → wp (fill_slot map key value j) Q E d.
Proof.
  intros Hr Hk Hm Hb Hj HQ. unfold fill_slot. rewrite Hb. apply wp_bind, wp_ret, wp_ret, HQ.
  apply first_empty_spec in Hj as (i & s & -> & Hs & Hz). cbn [Nat.add].
  destruct (unplaced_bound map m) as [He Hn]; [apply Hr|]. pose proof Hr as [Hu Ht].
  replace (u64 (entries map + 1)) with (Z.of_nat (size (<[key := value]> m))).
  2:{ rewrite map_size_insert_None by done. rewrite (up_entries _ _ Hu) in *. unfold u64. rewrite Z.mod_small; lia. }
  eapply (hm_update _ m); [done..|right; split; [done|by eexists]|].
  intros R HR. rewrite map_to_list_insert by done. rewrite HR, (pairs_empty s) by
    (done || (eapply Forall_forall; [apply Ht|]; apply concat_elem; do 2 eexists; split; [done|by eapply list_elem_of_lookup_2])).
  unfold slot_pairs. cbn. by rewrite (proj2 (Z.eqb_neq key 0)) by lia.
Qed.

(** What [hash_map_put] promises. *)
Definition put_result (map : hash_map) (m : gmap Z positive) (key : Z) (value : positive)
    (d : dram) (r : option positive * Z * hash_map) (d' : dram) : Prop :=
  let '(ret, err, map') := r in
  same_live d d' ∧
  match m !! key with
  | Some v => ret = Some v ∧ err = 0 ∧ map' = map ∧ d' = d
  | None =>
      (ret = Some value ∧ err = 0 ∧ hm_rep map' (<[key := value]> m)) ∨
      (ret = None ∧ err = ENOMEM ∧ unplaced map' m)
  end.

Lemma wp_hash_map_put map m key value d :
  hm_rep map m → 0 < key → wp (hash_map_put calloc_ok map key value) (put_result map m key value d) noabort d.
Proof.
  intros Hr Hk. destruct (hm_bucket _ _ key Hr) as (b & Hb & _). unfold hash_map_put. rewrite Hb.
  apply wp_bind, wp_ret. destruct (find_key b key) as [s|] eqn:Hf.
  - apply find_key_Some in Hf as [Hs <-]. apply wp_ret. unfold put_result. split; [done|].
    assert (slot_ok s) as [->|[_ [v Hv]]].
    { eapply Forall_forall; [apply Hr|]. apply concat_elem. eauto. }
    + done.
    + erewrite slot_in_map; [done..|lia|done].
  - assert (m !! key = None) as Hm.
    { destruct (m !! key) as [v|] eqn:Hm; [|done]. destruct (map_in_slot _ _ _ _ Hr Hm) as (b' & Hb' & Hs & _).
      simplify_eq. by destruct (find_key_None _ _ _ Hf Hs). }
    destruct (first_empty b 0) as [j|] eqn:Hj.
    { eapply wp_fill_slot; [done..|]. intros map' Hr'. unfold put_result. rewrite Hm. auto. }
    destruct (up_size _ _ (hr_unplaced _ _ Hr)) as (k & Hsz & Hn).
    apply wp_bind. eapply (wp_make_room put_fuel map m k); [apply Hr|done|done|lia| |done| |].
    + unfold rounds, put_fuel, size_ok in *. lia.
    + intros map' d' Hu Hl. apply wp_ret. unfold put_result. rewrite Hm. auto.
    + intros map' b' j d' Hr' Hb' Hj' Hl. cbn. eapply wp_fill_slot; [done..|]. intros map2 Hr2.
      unfold put_result. rewrite Hm. auto.
Qed.

Lemma find_value_spec b value j k : find_value b value j = Some k →
  ∃ i s, k = (j + i)%nat ∧ b !! i = Some s ∧ sl_value s = Some value.
Proof.
  revert j. induction b as [|s b IH]; intros j; cbn; [done|]. case_decide as Hv.
  - intros [= <-]. exists 0%nat, s. split; [lia|done].
  - intros (i & s' & -> & ? & ?)%IH. exists (S i), s'. split; [lia|done].
Qed.

Lemma find_value_None b value j s : find_value b value j = None → s ∈ b → sl_value s ≠ Some value.
Proof.
  revert j. induction b as [|s' b IH]; intros j; cbn; intros Hf; [by intros ?%elem_of_nil|].
  case_decide; [done|]. intros [->|Hs]%elem_of_cons; [done|]. by eapply IH.
Qed.

(** [hash_map_remove] goes by the value, which is stored once. *)
Lemma wp_hash_map_remove map m key value (Q : Z * hash_map → dram → Prop) E d :
  hm_rep map m → m !! key = Some value → (∀ k, m !! k = Some value → k = key) →
  (∀ map', hm_rep map' (delete key m) → Q (0, map') d) → wp (hash_map_remove map key value) Q E d.
Proof.
  intros Hr Hm Huniq HQ. destruct (map_in_slot _ _ _ _ Hr Hm) as (b & Hb & Hs & Hk).
  unfold hash_map_remove. rewrite Hb. apply wp_bind, wp_ret.
  destruct (find_value b value 0) as [j|] eqn:Hf; [|by destruct (find_value_None _ _ _ _ Hf Hs)].
  apply find_value_spec in Hf as (i & s & -> & Hi & Hv). cbn [Nat.add]. apply wp_ret, HQ.
  assert (s ∈ b) as Hsb by (by eapply list_elem_of_lookup_2).
  assert (slot_ok s) as [->|[Hpos _]]; [|done|].
  { eapply Forall_forall; [apply Hr|]. apply concat_elem. eauto. }
  assert (sl_key s = key) as Heq.
  { apply Huniq. eapply slot_in_map; [done..|lia|done]. }
  destruct (unplaced_bound map m) as [He Hn]; [apply Hr|]. pose proof (up_entries _ _ (hr_unplaced _ _ Hr)) as Hent.
  assert (size (delete key m) = Nat.pred (size m)) as Hsz by (apply map_size_delete_Some; by eexists).
  assert (size m ≠ 0%nat). { intros ->%map_size_empty_inv. done. }
  replace (u64 (entries map - 1)) with (Z.of_nat (size (delete key m))).
  2:{ unfold u64. rewrite Z.mod_small; lia. }
  eapply (hm_update _ m); [done|done|done|done|by left|]. intros R HR. cbn.
  rewrite <-(map_to_list_delete m key value Hm) in HR. apply (Permutation_cons_inv (a := (key, value))). rewrite HR.
  unfold slot_pairs. rewrite Hv, Heq. by rewrite (proj2 (Z.eqb_neq key 0)) by lia.
Qed.

Lemma wp_pf_calloc (Q : bool → dram → Prop) E d :
  (calloc_ok (dram_tick d) = true → Q true (Dram (S (dram_tick d)) (dram_live d + 1))) →
  (calloc_ok (dram_tick d) = false → Q false (Dram (S (dram_tick d)) (dram_live d))) →
  wp (pf_calloc calloc_ok) Q E d.
Proof. unfold wp, pf_calloc. destruct (calloc_ok (dram_tick d)); auto. Qed.

Lemma wp_hash_map_alloc d :
  wp (hash_map_alloc calloc_ok)
    (λ r d', match r with
             | None => dram_live d' = dram_live d
             | Some map => hm_rep map ∅ ∧ dram_live d' = dram_live d + 2
             end) noabort d.
Proof.
  unfold hash_map_alloc, calloc_buckets. change (UINT64_MAX <? INITIAL_NBUCKETS * SIZEOF_BUCKET) with false.
  apply wp_bind, wp_pf_calloc; intros _; [|by apply wp_ret]. cbn [negb]. apply wp_bind, wp_bind, wp_pf_calloc; intros _.
  2:{ unfold pf_free. wp_steps. cbn. lia. }
  apply wp_ret, wp_bind, wp_rand_params; [done|]. intros a b seed Hs. apply wp_ret. split; [|cbn; lia].
  assert (table (λ key, u64 (a * key + b) mod HASH_P_COEFF) 2 (replicate (Z.to_nat 2) zero_bucket) (map_to_list ∅)) as Ht.
  { rewrite map_to_list_empty. apply table_empty. }
  split; [|done]. split; try done; [apply Ht|exists 1; split; [unfold size_ok; lia|done]].
Qed.

(** [hash_map_traverse] calls the function on every entry once. *)
Fixpoint visit {S} (f : Z → positive → M S unit) (l : list (Z * positive)) : M S unit :=
  match l with [] => mret tt | (k, v) :: l' => f k v;; visit f l' end.

Lemma traverse_slots_spec {S} (f : Z → positive → M S unit) ss num (s : S) : Forall slot_ok ss →
  traverse_slots f ss num s = (visit f (ss ≫= slot_pairs);; mret (num + Z.of_nat (length (ss ≫= slot_pairs)))) s.
Proof.
  intros Hok. revert num s. induction Hok as [|x ss [->|[Hk [v Hv]]] Hss IH]; intros num s; cbn [traverse_slots].
  - cbn. unfold mret, M_ret, mbind, M_bind. f_equal. lia.
  - cbn. apply IH.
  - rewrite Hv. destruct (pairs_filled x) as (v' & Hx & Hp); [right; eauto|lia|]. rewrite Hx in Hv. injection Hv as ->.
    cbn [mbind list_bind]. rewrite Hp. cbn [app visit length].
    change (list_bind _ _ slot_pairs ss) with (ss ≫= slot_pairs). set (l := ss ≫= slot_pairs) in *. clearbody l.
    unfold mbind, M_bind. destruct (f (sl_key x) v s) as [[] s1|? ?|?]; [|done|done]. rewrite IH.
    unfold mbind, M_bind. destruct (visit f l s1); [|done|done]. unfold mret, M_ret. f_equal. lia.
Qed.

Lemma hash_map_traverse_visits {S} (f : Z → positive → M S unit) map m (s : S) : hm_rep map m →
  ∃ l, l ≡ₚ map_to_list m ∧ hash_map_traverse f map s = (visit f l;; mret (Z.of_nat (size m))) s.
Proof.
  intros [_ [[_ Hok Hc] _ _]]. exists (content (buckets map)). split; [done|]. unfold hash_map_traverse.
  rewrite traverse_slots_spec by done. change (concat (buckets map) ≫= slot_pairs) with (content (buckets map)).
  replace (size m) with (length (content (buckets map))); [done|]. by rewrite Hc, length_map_to_list.
Qed.
End proofs.

(** ** Main results *)


(** C34: in a well-formed map [hash_map_get] returns what is stored for the key,
    and [hash_map_remove] of an entry whose value is stored once removes exactly
    that entry. *)
Theorem hash_map_get_remove_correct map m key value d :
  hm_rep map m → m !! key = Some value → (∀ k, m !! k = Some value → k = key) → 0 < key →
  hash_map_get map key d = Ok (Some value) d ∧
  ∃ map', hash_map_remove map key value d = Ok (0, map') d ∧ hm_rep map' (delete key m) ∧
    hash_map_get map' key d = Ok None d.
Proof.
  intros Hr Hm Hu Hk.
  assert (∀ map m, hm_rep map m → hash_map_get map key d = Ok (m !! key) d) as Hget.
  { intros map' m' Hr'. destruct (wp_ok (hash_map_get map' key) (λ r d', r = m' !! key ∧ d' = d) d) as (r & d' & -> & -> & ->);
      [by eapply wp_hash_map_get|done]. }
  split; [by rewrite (Hget _ _ Hr), Hm|].
  destruct (wp_ok (hash_map_remove map key value) (λ r d', d' = d ∧ r.1 = 0 ∧ hm_rep r.2 (delete key m)) d)
    as ([z map'] & d' & -> & -> & Hz & Hr'); [by eapply wp_hash_map_remove|]. cbn in Hz, Hr'. subst z.
  exists map'. split; [done|]. split; [done|]. by rewrite (Hget _ _ Hr'), lookup_delete_eq.
Qed.

(** ** Examples *)

Module ExHash.
Definition d0 : dram := Dram 0 0.
Definition map0 : hash_map := match hash_map_alloc (λ _, true) d0 with Ok (Some m) _ => m | _ => HashMap 0 0 0 0 0 [] 0 end.
Definition put (calloc_ok : nat → bool) (k : Z) (v : positive) : M (hash_map * dram) (option positive) := λ '(map, d),
  match hash_map_put calloc_ok map k v d with
  | Ok (r, _, map') d' => Ok r (map', d')
  | Abort e d' => Abort e (map, d')
  | Fault f => Fault f
  end.

Lemma map0_rep : hm_rep map0 ∅.
Proof.
  destruct (wp_ok _ _ _ (wp_hash_map_alloc (λ _, true) d0)) as (r & d' & Hrun & Hr). unfold map0. rewrite Hrun.
  destruct r as [map|]; [by destruct Hr|]. exfalso.
  assert (match hash_map_alloc (λ _, true) d0 with Ok (Some _) _ => true | _ => false end = true) as H by (vm_compute; reflexivity).
  rewrite Hrun in H. discriminate H.
Qed.

(** Four inodes, then a fifth whose bucket is full when memory runs out; the
    first inode is looked up before and after. *)
Definition fill : M (hash_map * dram) (list (option positive)) :=
  put (λ _, true) 64 1;; put (λ _, true) 128 2;; put (λ _, true) 192 3;; put (λ _, true) 256 4;;
  before ← gets (λ s, match hash_map_get s.1 64 s.2 with Ok r _ => r | _ => None end);
  r ← put (λ _, false) 320 5;
  after ← gets (λ s, match hash_map_get s.1 64 s.2 with Ok r _ => r | _ => None end);
  mret [before; r; after].
End ExHash.

(** A [hash_map_put] that fails for lack of memory loses entries: it has
    already drawn new coefficients for the hash function, but the table is still
    the one built with the old ones.  The inode with offset 64 is found before
    the call and not after it. *)
Theorem hash_map_put_enomem_loses_entry :
  ∃ s, ExHash.fill (ExHash.map0, ExHash.d0) = Ok [Some 1%positive; None; None] s.
Proof. eexists. vm_compute. reflexivity. Qed.


(** The map with one entry. *)
Definition map1 : hash_map := match hash_map_put (λ _, true) ExHash.map0 64 1 ExHash.d0 with Ok r _ => r.2 | _ => ExHash.map0 end.

Lemma map1_rep : hm_rep map1 {[64 := 1%positive]}.
Proof.
  destruct (wp_ok _ _ _ (wp_hash_map_put (λ _, true) ExHash.map0 ∅ 64 1 ExHash.d0 ExHash.map0_rep ltac:(lia)))
    as ([[ret err] map'] & d' & Hrun & _ & Hr).
  rewrite lookup_empty in Hr. unfold map1. rewrite Hrun. cbn [snd]. destruct Hr as [(_ & _ & Hr)|(Hret & _ & _)].
  - by rewrite insert_empty in Hr.
  - exfalso. assert (match hash_map_put (λ _, true) ExHash.map0 64 1 ExHash.d0 with Ok (Some _, _, _) _ => true | _ => false end = true)
      as H by (vm_compute; reflexivity).
    rewrite Hrun, Hret in H. discriminate H.
Qed.

Lemma hash_map_get_remove_witness :
  hash_map_get map1 64 ExHash.d0 = Ok (Some 1%positive) ExHash.d0 ∧
  ∃ map', hash_map_remove map1 64 1 ExHash.d0 = Ok (0, map') ExHash.d0 ∧ hm_rep map' (delete 64 {[64 := 1%positive]}) ∧
    hash_map_get map' 64 ExHash.d0 = Ok None ExHash.d0.
Proof.
  apply (hash_map_get_remove_correct map1 {[64 := 1%positive]} 64 1 ExHash.d0 map1_rep); [reflexivity| |lia].
  intros k Hk. by apply lookup_singleton_Some in Hk as [-> _].
Defined.
