(* ===== verification/Creds.v ===== *)
(** Credentials: creds.c.  The credentials of the pool, the setters and getters,
    the copies that operations work with, and the access check. *)
From S2P Require Import Prelude Layout.

Definition INT_MAX : Z := 2 ^ 31 - 1.
(** [(pmemfile_uid_t)-1] *)
Definition NO_ID : Z := UINT32_MAX.

Definition PFILE_WANT_READ : Z := Z.shiftl 1 0.
Definition PFILE_WANT_WRITE : Z := Z.shiftl 1 1.
Definition PFILE_WANT_EXECUTE : Z := Z.shiftl 1 2.
Definition PFILE_USE_FACCESS : Z := Z.shiftl 0 3.
Definition PFILE_USE_EACCESS : Z := Z.shiftl 1 3.
Definition PFILE_USE_RACCESS : Z := Z.shiftl 2 3.
Definition PFILE_ACCESS_MASK : Z := Z.shiftl 3 3.

Definition PMEMFILE_CAP_CHOWN : Z := 0.
Definition PMEMFILE_CAP_FOWNER : Z := 3.
Definition PMEMFILE_CAP_FSETID : Z := 4.

Definition PMEMFILE_S_IRUSR : Z := 0x100.
Definition PMEMFILE_S_IWUSR : Z := 0x80.
Definition PMEMFILE_S_IXUSR : Z := 0x40.
Definition PMEMFILE_S_IRGRP : Z := 0x20.
Definition PMEMFILE_S_IWGRP : Z := 0x10.
Definition PMEMFILE_S_IXGRP : Z := 0x8.
Definition PMEMFILE_S_IROTH : Z := 0x4.
Definition PMEMFILE_S_IWOTH : Z := 0x2.
Definition PMEMFILE_S_IXOTH : Z := 0x1.
Definition PMEMFILE_ACCESSPERMS : Z := 0x1FF.

(** The array of supplementary groups: NULL, an array, or memory that was
    already given back. *)
Inductive groups_ptr := GroupsNull | Groups (l : list Z) | GroupsFreed.

Record pmemfile_cred := Cred {
  ruid : Z; rgid : Z; euid : Z; egid : Z; fsuid : Z; fsgid : Z;
  groups : groups_ptr; groupsnum : Z; caps : Z;
}.

Record inode_perms := Perms { p_flags : Z; p_uid : Z; p_gid : Z }.

(** The credentials of the pool, their lock, errno and the memory. *)
Record cstate := CState { cs_cred : pmemfile_cred; cs_rwlock : lock_state; cs_errno : Z; cs_dram : dram }.

Definition set_cred x (s : cstate) := CState x (cs_rwlock s) (cs_errno s) (cs_dram s).
Definition set_cred_rwlock x (s : cstate) := CState (cs_cred s) x (cs_errno s) (cs_dram s).
Definition set_cred_errno x (s : cstate) := CState (cs_cred s) (cs_rwlock s) x (cs_dram s).
Definition set_cred_dram x (s : cstate) := CState (cs_cred s) (cs_rwlock s) (cs_errno s) x.

Definition set_ids ru rg eu eg fu fg (c : pmemfile_cred) := Cred ru rg eu eg fu fg (groups c) (groupsnum c) (caps c).
Definition set_groups g n (c : pmemfile_cred) := Cred (ruid c) (rgid c) (euid c) (egid c) (fsuid c) (fsgid c) g n (caps c).
Definition set_caps x (c : pmemfile_cred) :=
  Cred (ruid c) (rgid c) (euid c) (egid c) (fsuid c) (fsgid c) (groups c) (groupsnum c) x.

Definition cred_lock (l : lock_state) : M cstate unit :=
  x ← gets cs_rwlock; assert_ (match x with Unlocked => true | _ => false end);; modify (set_cred_rwlock l).
Definition cred_unlock : M cstate unit :=
  x ← gets cs_rwlock; assert_ (match x with Unlocked => false | _ => true end);; modify (set_cred_rwlock Unlocked).
(** [errno = e; return -1;] *)
Definition cred_fail (e : Z) : M cstate Z := modify (set_cred_errno e);; mret (-1).
Definition update_cred (f : pmemfile_cred → pmemfile_cred) : M cstate unit := modify (λ s, set_cred (f (cs_cred s)) s).

Section creds.
(** Whether the n-th allocation succeeds. *)
Variable calloc_ok : nat → bool.

(** ** Identifiers *)

Definition bad_id (id : Z) : bool := negb (id =? NO_ID) && (INT_MAX <? id).

Definition pmemfile_setreuid (pfp : bool) (ru eu : Z) : M cstate Z :=
  if negb pfp then cred_fail EFAULT
  else if bad_id ru then cred_fail EINVAL
  else if bad_id eu then cred_fail EINVAL
  else
    cred_lock WrLocked;;
    (if negb (ru =? NO_ID) then update_cred (λ c, set_ids ru (rgid c) (euid c) (egid c) (fsuid c) (fsgid c) c) else mret tt);;
    (if negb (eu =? NO_ID) then update_cred (λ c, set_ids (ruid c) (rgid c) eu (egid c) eu (fsgid c) c) else mret tt);;
    cred_unlock;;
    mret 0.

Definition pmemfile_setregid (pfp : bool) (rg eg : Z) : M cstate Z :=
  if negb pfp then cred_fail EFAULT
  else if bad_id rg then cred_fail EINVAL
  else if bad_id eg then cred_fail EINVAL
  else
    cred_lock WrLocked;;
    (if negb (rg =? NO_ID) then update_cred (λ c, set_ids (ruid c) rg (euid c) (egid c) (fsuid c) (fsgid c) c) else mret tt);;
    (if negb (eg =? NO_ID) then update_cred (λ c, set_ids (ruid c) (rgid c) (euid c) eg (fsuid c) eg c) else mret tt);;
    cred_unlock;;
    mret 0.

Definition pmemfile_setuid (pfp : bool) (uid : Z) : M cstate Z := pmemfile_setreuid pfp NO_ID uid.
Definition pmemfile_setgid (pfp : bool) (gid : Z) : M cstate Z := pmemfile_setregid pfp NO_ID gid.
Definition pmemfile_seteuid (pfp : bool) (uid : Z) : M cstate Z := pmemfile_setreuid pfp NO_ID uid.
Definition pmemfile_setegid (pfp : bool) (gid : Z) : M cstate Z := pmemfile_setregid pfp NO_ID gid.

Definition get_id (field : pmemfile_cred → Z) : M cstate Z :=
  cred_lock RdLocked;; c ← gets cs_cred; cred_unlock;; mret (field c).
Definition pmemfile_getuid : M cstate Z := get_id ruid.
Definition pmemfile_getgid : M cstate Z := get_id rgid.
Definition pmemfile_geteuid : M cstate Z := get_id euid.
Definition pmemfile_getegid : M cstate Z := get_id egid.

Definition pmemfile_setfsuid (pfp : bool) (fu : Z) : M cstate Z :=
  if negb pfp then cred_fail EFAULT
  else if INT_MAX <? fu then cred_fail EINVAL
  else
    cred_lock WrLocked;;
    c ← gets cs_cred;
    update_cred (λ c, set_ids (ruid c) (rgid c) (euid c) (egid c) fu (fsgid c) c);;
    cred_unlock;;
    mret (fsuid c).

Definition pmemfile_setfsgid (pfp : bool) (fg : Z) : M cstate Z :=
  if negb pfp then cred_fail EFAULT
  else if INT_MAX <? fg then cred_fail EINVAL
  else
    cred_lock WrLocked;;
    c ← gets cs_cred;
    update_cred (λ c, set_ids (ruid c) (rgid c) (euid c) (egid c) (fsuid c) fg c);;
    cred_unlock;;
    mret (fsgid c).

(** ** Supplementary groups *)

(** Reading [n] elements of the array. *)
Definition read_groups (g : groups_ptr) (n : Z) : M cstate (list Z) :=
  if n =? 0 then mret []
  else
    match g with
    | GroupsNull => fault_ NullDeref
    | GroupsFreed => fault_ BadPointer
    | Groups l => if n <=? Z.of_nat (length l) then mret (take (Z.to_nat n) l) else fault_ OutOfBounds
    end.

(** The result and what was copied to [list\[\]]. *)
Definition pmemfile_getgroups (pfp : bool) (size : Z) : M cstate (Z * list Z) :=
  if negb pfp then r ← cred_fail EFAULT; mret (r, [])
  else if size <? 0 then r ← cred_fail EINVAL; mret (r, [])
  else
    cred_lock RdLocked;;
    c ← gets cs_cred;
    if size <? groupsnum c then r ← cred_fail EINVAL; cred_unlock;; mret (r, [])
    else
      l ← read_groups (groups c) (groupsnum c);
      cred_unlock;;
      mret (groupsnum c, l).

(** [realloc(ptr, n * sizeof(gid))]: with size 0 an array is released and the
    result is NULL; [realloc(NULL, 0)] returns a new object. *)
Definition realloc_groups (g : groups_ptr) (n : Z) : M cstate (option groups_ptr) :=
  match g with
  | GroupsFreed => fault_ BadPointer
  | Groups l =>
      if n =? 0 then
        update_cred (λ c, set_groups GroupsFreed (groupsnum c) c);; zoom cs_dram set_cred_dram pf_free;; mret None
      else
        ok ← zoom cs_dram set_cred_dram (pf_calloc calloc_ok);
        if ok : bool then
          zoom cs_dram set_cred_dram pf_free;; mret (Some (Groups (take (Z.to_nat n) (l ++ replicate (Z.to_nat n) 0))))
        else modify (set_cred_errno ENOMEM);; mret None
  | GroupsNull =>
      ok ← zoom cs_dram set_cred_dram (pf_calloc calloc_ok);
      if ok : bool then mret (Some (Groups (replicate (Z.to_nat n) 0))) else modify (set_cred_errno ENOMEM);; mret None
  end.

(** [memcpy(groups, list, n * sizeof( *list))] *)
Definition write_groups (l : list Z) : M cstate unit :=
  match l with
  | [] => mret tt
  | _ =>
      c ← gets cs_cred;
      match groups c with
      | GroupsNull => fault_ NullDeref
      | GroupsFreed => fault_ BadPointer
      | Groups old =>
          if (length l <=? length old)%nat
          then update_cred (set_groups (Groups (l ++ drop (length l) old)) (groupsnum c))
          else fault_ OutOfBounds
      end
  end.

(** [list] holds [size] elements. *)
Definition pmemfile_setgroups (pfp : bool) (list_ : list Z) : M cstate Z :=
  if negb pfp then cred_fail EFAULT
  else
    let size := Z.of_nat (length list_) in
    cred_lock WrLocked;;
    c ← gets cs_cred;
    error ←
      (if negb (size =? groupsnum c) then
         r ← realloc_groups (groups c) size;
         match r with
         | None => e ← gets cs_errno; mret (Some e)
         | Some g => update_cred (set_groups g size);; mret None
         end
       else mret None);
    match error with
    | None => write_groups list_;; cred_unlock;; mret 0
    | Some error =>
        cred_unlock;;
        if negb (error =? 0) then cred_fail error else mret 0
    end.

(** ** Capabilities *)

Definition known_cap (cap : Z) : bool :=
  (cap =? PMEMFILE_CAP_CHOWN) || (cap =? PMEMFILE_CAP_FOWNER) || (cap =? PMEMFILE_CAP_FSETID).

Definition pmemfile_setcap (pfp : bool) (cap : Z) : M cstate Z :=
  if negb pfp then cred_fail EFAULT
  else
    cred_lock WrLocked;;
    ret ← (if known_cap cap then update_cred (λ c, set_caps (Z.lor (caps c) (Z.shiftl 1 cap)) c);; mret 0
           else cred_fail EINVAL);
    cred_unlock;;
    mret ret.

Definition pmemfile_clrcap (pfp : bool) (cap : Z) : M cstate Z :=
  if negb pfp then cred_fail EFAULT
  else
    cred_lock WrLocked;;
    ret ← (if known_cap cap then update_cred (λ c, set_caps (Z.ldiff (caps c) (Z.shiftl 1 cap)) c);; mret 0
           else cred_fail EINVAL);
    cred_unlock;;
    mret ret.

(** ** Copies *)

(** The result (0 or -1) and the copy. *)
Definition copy_cred (src : pmemfile_cred) : M cstate (Z * pmemfile_cred) :=
  if negb (groupsnum src =? 0) then
    ok ← zoom cs_dram set_cred_dram (pf_calloc calloc_ok);
    if ok : bool then l ← read_groups (groups src) (groupsnum src); mret (0, set_groups (Groups l) (groupsnum src) src)
    else modify (set_cred_errno ENOMEM);; mret (-1, set_groups GroupsNull (groupsnum src) src)
  else mret (0, set_groups GroupsNull (groupsnum src) src).

Definition cred_acquire : M cstate (Z * pmemfile_cred) :=
  cred_lock RdLocked;; c ← gets cs_cred; r ← copy_cred c; cred_unlock;; mret r.

(** [free(NULL)] does nothing. *)
Definition cred_release (cred : pmemfile_cred) : M cstate unit :=
  match groups cred with
  | GroupsNull => mret tt
  | Groups _ => zoom cs_dram set_cred_dram pf_free
  | GroupsFreed => fault_ BadPointer
  end.
End creds.

(** ** The access check *)

Definition cred_groups (cred : pmemfile_cred) : list Z := match groups cred with Groups l => l | _ => [] end.

(** The copy made by [copy_cred] has exactly [groupsnum] elements. *)
Definition gid_in_list (cred : pmemfile_cred) (gid : Z) : bool :=
  existsb (Z.eqb gid) (take (Z.to_nat (groupsnum cred)) (cred_groups cred)).

Definition wants (acc f : Z) : bool := negb (Z.land acc f =? 0).

(** The mode bits needed, given those of one class of users. *)
Definition required_bits (acc r w x : Z) : Z :=
  let req := 0 in
  let req := if wants acc PFILE_WANT_READ then Z.lor req r else req in
  let req := if wants acc PFILE_WANT_WRITE then Z.lor req w else req in
  if wants acc PFILE_WANT_EXECUTE then Z.lor req x else req.

Definition can_access (cred : pmemfile_cred) (perms : inode_perms) (acc : Z) : bool :=
  if negb (Z.land (caps cred) (Z.shiftl 1 PMEMFILE_CAP_FOWNER) =? 0) then true
  else
    let perm := Z.land (p_flags perms) PMEMFILE_ACCESSPERMS in
    let acctype := Z.land acc PFILE_ACCESS_MASK in
    let ids :=
      if acctype =? PFILE_USE_FACCESS then Some (fsuid cred, fsgid cred)
      else if acctype =? PFILE_USE_EACCESS then Some (euid cred, egid cred)
      else if acctype =? PFILE_USE_RACCESS then Some (ruid cred, rgid cred)
      else None in
    match ids with
    | None => false
    | Some (uid, gid) =>
        let req :=
          if p_uid perms =? uid then required_bits acc PMEMFILE_S_IRUSR PMEMFILE_S_IWUSR PMEMFILE_S_IXUSR
          else if (p_gid perms =? gid) || gid_in_list cred (p_gid perms)
          then required_bits acc PMEMFILE_S_IRGRP PMEMFILE_S_IWGRP PMEMFILE_S_IXGRP
          else required_bits acc PMEMFILE_S_IROTH PMEMFILE_S_IWOTH PMEMFILE_S_IXOTH in
        Z.land perm req =? req
    end.

(** ** What the check means *)

(** The rights of one of the three classes of users, and those asked for, as
    (read, write, execute). *)
Inductive right := Read | Write | Execute.
Inductive user_class := Owner | Group | Others.

Definition class_of (cred : pmemfile_cred) (uid gid : Z) (perms : inode_perms) : user_class :=
  if decide (p_uid perms = uid) then Owner
  else if decide (p_gid perms = gid ∨ p_gid perms ∈ take (Z.to_nat (groupsnum cred)) (cred_groups cred)) then Group
  else Others.

Definition right_bit (r : right) : Z := match r with Read => 2 | Write => 1 | Execute => 0 end.
Definition class_bit (c : user_class) : Z := match c with Owner => 6 | Group => 3 | Others => 0 end.
Definition want_bit (r : right) : Z := match r with Read => 0 | Write => 1 | Execute => 2 end.

(** Bit [class_bit c + right_bit r] of the mode grants the right [r]. *)
Definition granted (flags : Z) (c : user_class) (r : right) : bool := Z.testbit flags (class_bit c + right_bit r).
Definition requested (acc : Z) (r : right) : bool := Z.testbit acc (want_bit r).

(** Which identifiers count: bits 3 and 4 of [acc]. *)
Definition checked_ids (cred : pmemfile_cred) (acc : Z) : option (Z * Z) :=
  match Z.testbit acc 3, Z.testbit acc 4 with
  | false, false => Some (fsuid cred, fsgid cred)
  | true, false => Some (euid cred, egid cred)
  | false, true => Some (ruid cred, rgid cred)
  | true, true => None
  end.

Lemma land_bit a n : 0 ≤ n → negb (Z.land a (Z.shiftl 1 n) =? 0) = Z.testbit a n.
Proof.
  intros Hn. rewrite Z.shiftl_1_l. destruct (Z.testbit a n) eqn:Ht.
  - apply negb_true_iff, Z.eqb_neq. intros H. assert (Z.testbit (Z.land a (2 ^ n)) n = true) as H'.
    { rewrite Z.land_spec, Ht, Z.pow2_bits_true by done. done. }
    rewrite H, Z.bits_0 in H'. done.
  - apply negb_false_iff, Z.eqb_eq, Z.bits_inj'. intros i Hi. rewrite Z.land_spec, Z.bits_0.
    destruct (decide (i = n)) as [->|Hne]; [by rewrite Ht|]. rewrite (Z.pow2_bits_false n i) by congruence. apply andb_false_r.
Qed.

(** A mask of required bits. *)
Lemma land_subset a m : 0 ≤ m → (Z.land a m =? m) = true ↔ ∀ i, 0 ≤ i → Z.testbit m i = true → Z.testbit a i = true.
Proof.
  intros Hm. rewrite Z.eqb_eq. split.
  - intros H i Hi Hb. rewrite <-H, Z.land_spec in Hb. by apply andb_prop in Hb as [? _].
  - intros H. apply Z.bits_inj'. intros i Hi. rewrite Z.land_spec. destruct (Z.testbit m i) eqn:Hb.
    + by rewrite (H i Hi Hb).
    + apply andb_false_r.
Qed.

(** The mask built by the code for one class. *)
Definition class_mask (acc : Z) (c : user_class) : Z :=
  Z.lor (Z.lor (if requested acc Read then 2 ^ (class_bit c + 2) else 0)
    (if requested acc Write then 2 ^ (class_bit c + 1) else 0))
    (if requested acc Execute then 2 ^ (class_bit c + 0) else 0).

Lemma class_mask_subset flags acc c :
  (Z.land (Z.land flags PMEMFILE_ACCESSPERMS) (class_mask acc c) =? class_mask acc c) = true ↔
  ∀ r, requested acc r = true → granted flags c r = true.
Proof.
  assert (∀ r, 0 ≤ class_bit c + right_bit r) as Hnn by (intros []; destruct c; cbn; lia).
  assert (∀ r, requested acc r = true → Z.testbit (class_mask acc c) (class_bit c + right_bit r) = true) as Hin.
  { intros r Hr. unfold class_mask. rewrite !Z.lor_spec. pose proof (Z.pow2_bits_true _ (Hnn r)) as Hb.
    destruct r; rewrite Hr; cbn [right_bit] in *; rewrite Hb, ?orb_true_r; done. }
  assert (∀ i, Z.testbit (class_mask acc c) i = true → ∃ r, requested acc r = true ∧ i = class_bit c + right_bit r) as Hout.
  { intros i. unfold class_mask. rewrite !Z.lor_spec.
    assert (∀ b n, Z.testbit (if b : bool then 2 ^ n else 0) i = true → b = true ∧ (0 ≤ n → i = n)) as Hb.
    { intros [] n; [|by rewrite Z.bits_0]. intros Ht. split; [done|]. intros Hn. destruct (decide (i = n)); [done|].
      rewrite Z.pow2_bits_false in Ht by congruence. done. }
    intros [[H|H]%orb_prop|H]%orb_prop; apply Hb in H as [Hr Hi]; eexists; (split; [exact Hr|]); cbn [right_bit];
      apply Hi, (Hnn Read) || apply Hi, (Hnn Write) || apply Hi, (Hnn Execute). }
  assert (0 ≤ class_mask acc c) as Hpos.
  { unfold class_mask. destruct (requested acc Read), (requested acc Write), (requested acc Execute), c; by vm_compute. }
  rewrite land_subset by done. split.
  - intros H r Hr. specialize (H (class_bit c + right_bit r) (Hnn r) (Hin r Hr)).
    rewrite Z.land_spec in H. by apply andb_prop in H as [? _].
  - intros H i Hi Hb. destruct (Hout i Hb) as (r & Hr & ->). rewrite Z.land_spec. apply andb_true_intro.
    split; [by apply H|]. by destruct c, r.
Qed.

Lemma high_bits a i : 0 ≤ a < 32 → 5 ≤ i → Z.testbit a i = false.
Proof.
  intros Ha Hi. destruct (decide (a = 0)) as [->|]; [by rewrite Z.bits_0|]. apply Z.bits_above_log2; [lia|].
  apply Z.lt_le_trans with 5; [|done]. apply Z.log2_lt_pow2; lia.
Qed.

Lemma acctype_ids cred acc :
  (let acctype := Z.land acc PFILE_ACCESS_MASK in
   if acctype =? PFILE_USE_FACCESS then Some (fsuid cred, fsgid cred)
   else if acctype =? PFILE_USE_EACCESS then Some (euid cred, egid cred)
   else if acctype =? PFILE_USE_RACCESS then Some (ruid cred, rgid cred)
   else None) = checked_ids cred acc.
Proof.
  assert (Z.land acc PFILE_ACCESS_MASK = Z.b2z (Z.testbit acc 3) * 8 + Z.b2z (Z.testbit acc 4) * 16) as ->.
  { apply Z.bits_inj'. intros i Hi. unfold PFILE_ACCESS_MASK. rewrite Z.land_spec.
    destruct (decide (5 ≤ i)) as [H5|H5].
    - rewrite (high_bits (Z.shiftl 3 3)), andb_false_r by (done || by split). symmetry. apply high_bits; [|done].
      destruct (Z.testbit acc 3), (Z.testbit acc 4); by split.
    - assert (i = 0 ∨ i = 1 ∨ i = 2 ∨ i = 3 ∨ i = 4) as Hc by lia.
      destruct Hc as [->|[->|[->|[->| ->]]]]; destruct (Z.testbit acc 3), (Z.testbit acc 4); by rewrite ?andb_false_r. }
  unfold checked_ids. by destruct (Z.testbit acc 3), (Z.testbit acc 4).
Qed.

Lemma class_mask_eq acc c :
  required_bits acc (2 ^ (class_bit c + 2)) (2 ^ (class_bit c + 1)) (2 ^ (class_bit c + 0)) = class_mask acc c.
Proof.
  unfold required_bits, wants, PFILE_WANT_READ, PFILE_WANT_WRITE, PFILE_WANT_EXECUTE, class_mask, requested. cbn [want_bit].
  rewrite !land_bit by lia. destruct (Z.testbit acc 0), (Z.testbit acc 1), (Z.testbit acc 2); by destruct c.
Qed.

Lemma gid_in_list_spec cred gid :
  gid_in_list cred gid = bool_decide (gid ∈ take (Z.to_nat (groupsnum cred)) (cred_groups cred)).
Proof.
  unfold gid_in_list. apply Bool.eq_iff_eq_true. rewrite existsb_exists, bool_decide_eq_true. split.
  - intros (x & Hx & ->%Z.eqb_eq). by apply list_elem_of_In.
  - intros Hg. exists gid. rewrite Z.eqb_refl. split; [by apply list_elem_of_In|done].
Qed.

Lemma can_access_class cred perms acc :
  can_access cred perms acc =
    if Z.testbit (caps cred) PMEMFILE_CAP_FOWNER then true
    else match checked_ids cred acc with
         | None => false
         | Some (uid, gid) =>
             let c := class_of cred uid gid perms in
             Z.land (Z.land (p_flags perms) PMEMFILE_ACCESSPERMS) (class_mask acc c) =? class_mask acc c
         end.
Proof.
  unfold can_access. rewrite land_bit by done. destruct (Z.testbit (caps cred) PMEMFILE_CAP_FOWNER); [done|].
  rewrite acctype_ids. destruct (checked_ids cred acc) as [[uid gid]|]; [|done]. cbv zeta. unfold class_of.
  rewrite gid_in_list_spec. set (gs := take _ _).
  destruct (decide (p_uid perms = uid)) as [->|Hu].
  { rewrite Z.eqb_refl. by rewrite <-(class_mask_eq acc Owner). }
  rewrite (proj2 (Z.eqb_neq _ _) Hu). destruct (decide (p_gid perms = gid ∨ p_gid perms ∈ gs)) as [Hg|Hg].
  - replace ((p_gid perms =? gid) || bool_decide (p_gid perms ∈ gs)) with true; [by rewrite <-(class_mask_eq acc Group)|].
    symmetry. apply orb_true_iff. rewrite Z.eqb_eq, bool_decide_eq_true. done.
  - replace ((p_gid perms =? gid) || bool_decide (p_gid perms ∈ gs)) with false; [by rewrite <-(class_mask_eq acc Others)|].
    symmetry. apply orb_false_iff. rewrite Z.eqb_neq, bool_decide_eq_false. tauto.
Qed.

(** ** Well-formed credentials *)

Definition id_ok (id : Z) : Prop := 0 ≤ id ≤ INT_MAX.

Record cred_ok (c : pmemfile_cred) : Prop := {
  co_ids : Forall id_ok [ruid c; rgid c; euid c; egid c; fsuid c; fsgid c];
  co_groups : match groups c with
              | GroupsNull => groupsnum c = 0
              | Groups l => groupsnum c = Z.of_nat (length l)
              | GroupsFreed => False
              end;
}.

(** A call of one of the setters by a caller that has a pool; identifiers are
    32-bit unsigned. *)
Inductive cred_call :=
  | SetReUid (ru eu : Z) | SetReGid (rg eg : Z) | SetFsUid (u : Z) | SetFsGid (g : Z)
  | SetGroups (l : list Z) | SetCap (cap : Z) | ClrCap (cap : Z).

Definition run_call (calloc_ok : nat → bool) (c : cred_call) : M cstate Z :=
  match c with
  | SetReUid ru eu => pmemfile_setreuid true ru eu
  | SetReGid rg eg => pmemfile_setregid true rg eg
  | SetFsUid u => pmemfile_setfsuid true u
  | SetFsGid g => pmemfile_setfsgid true g
  | SetGroups l => pmemfile_setgroups calloc_ok true l
  | SetCap cap => pmemfile_setcap true cap
  | ClrCap cap => pmemfile_clrcap true cap
  end.

(** The arguments have their C types; see [setgroups_empty] for the excluded
    case. *)
Definition call_ok (c : pmemfile_cred) (x : cred_call) : Prop :=
  match x with
  | SetReUid a b | SetReGid a b => 0 ≤ a ≤ UINT32_MAX ∧ 0 ≤ b ≤ UINT32_MAX
  | SetFsUid a | SetFsGid a => 0 ≤ a ≤ UINT32_MAX
  | SetGroups l => l ≠ [] ∨ groupsnum c = 0
  | SetCap _ | ClrCap _ => True
  end.

Lemma bad_id_ok a : 0 ≤ a ≤ UINT32_MAX → bad_id a = false → a ≠ NO_ID → id_ok a.
Proof. unfold bad_id, id_ok. intros Ha H Hn. b2p. destruct H as [H|H]; b2p; [done|lia]. Qed.

Section kept.
Variable calloc_ok : nat → bool.

(** The effect of a call on well-formed credentials. *)
Definition call_done (c : cred_call) (s : cstate) (r : Z) (s' : cstate) : Prop :=
  cred_ok (cs_cred s') ∧ cs_rwlock s' = Unlocked ∧ (r = -1 → cs_cred s' = cs_cred s) ∧
  match c with
  | SetReUid ru eu => r = 0 → (ru ≠ NO_ID → ruid (cs_cred s') = ru) ∧ (eu ≠ NO_ID → euid (cs_cred s') = eu ∧ fsuid (cs_cred s') = eu)
  | SetReGid rg eg => r = 0 → (rg ≠ NO_ID → rgid (cs_cred s') = rg) ∧ (eg ≠ NO_ID → egid (cs_cred s') = eg ∧ fsgid (cs_cred s') = eg)
  | SetFsUid u => r ≠ -1 → r = fsuid (cs_cred s) ∧ fsuid (cs_cred s') = u
  | SetFsGid g => r ≠ -1 → r = fsgid (cs_cred s) ∧ fsgid (cs_cred s') = g
  | SetGroups l => r = 0 → cred_groups (cs_cred s') = l
  | SetCap cap => r = 0 → Z.testbit (caps (cs_cred s')) cap = true
  | ClrCap cap => r = 0 → Z.testbit (caps (cs_cred s')) cap = false
  end.

Lemma cred_fail_done c s e : cred_ok (cs_cred s) → cs_rwlock s = Unlocked → wp (cred_fail e) (call_done c s) noabort s.
Proof.
  intros Hok Hl. unfold cred_fail. wp_steps. unfold call_done. split; [done|]. split; [done|]. split; [done|].
  destruct c; lia.
Qed.

Ltac ids := constructor; cbn; [repeat (apply Forall_cons; split; [auto|]); by apply Forall_nil|done].

Lemma setids_kept c s : cred_ok (cs_cred s) → cs_rwlock s = Unlocked → call_ok (cs_cred s) c →
  match c with SetReUid _ _ | SetReGid _ _ | SetFsUid _ | SetFsGid _ => True | _ => False end →
  wp (run_call calloc_ok c) (call_done c s) noabort s.
Proof.
  destruct s as [[ru rg eu eg fu fg g n cap] l err d]. cbn [cs_cred cs_rwlock]. intros Hcred -> Hok Hc.
  pose proof Hcred as [Hids Hg].
  repeat (apply Forall_cons in Hids as [? Hids]). cbn [ruid rgid euid egid fsuid fsgid groups groupsnum] in *.
  destruct c as [a b|a b|a|a|l|cap'|cap']; try done; cbn [run_call call_ok] in *.
  - unfold pmemfile_setreuid. cbn [negb]. zcase (bad_id a); [by apply cred_fail_done|].
    zcase (bad_id b); [by apply cred_fail_done|]. unfold cred_lock, cred_unlock, update_cred.
    pose proof (bad_id_ok a (proj1 Hok) Heqb0). pose proof (bad_id_ok b (proj2 Hok) Heqb1).
    zcase (a =? NO_ID); zcase (b =? NO_ID); wp_steps; try done; cbn; (split; [ids|]); repeat split; done.
  - unfold pmemfile_setregid. cbn [negb]. zcase (bad_id a); [by apply cred_fail_done|].
    zcase (bad_id b); [by apply cred_fail_done|]. unfold cred_lock, cred_unlock, update_cred.
    pose proof (bad_id_ok a (proj1 Hok) Heqb0). pose proof (bad_id_ok b (proj2 Hok) Heqb1).
    zcase (a =? NO_ID); zcase (b =? NO_ID); wp_steps; try done; cbn; (split; [ids|]); repeat split; done.
  - unfold pmemfile_setfsuid. cbn [negb]. zcase (INT_MAX <? a); [by apply cred_fail_done|].
    unfold cred_lock, cred_unlock, update_cred. wp_steps; try done. cbn. assert (id_ok a) by (unfold id_ok; lia).
    split; [ids|]. unfold id_ok in *. repeat split; try done; lia.
  - unfold pmemfile_setfsgid. cbn [negb]. zcase (INT_MAX <? a); [by apply cred_fail_done|].
    unfold cred_lock, cred_unlock, update_cred. wp_steps; try done. cbn. assert (id_ok a) by (unfold id_ok; lia).
    split; [ids|]. unfold id_ok in *. repeat split; try done; lia.
Qed.

Lemma known_cap_range cap : known_cap cap = true → 0 ≤ cap.
Proof. unfold known_cap, PMEMFILE_CAP_CHOWN, PMEMFILE_CAP_FOWNER, PMEMFILE_CAP_FSETID. intros H. b2p. lia. Qed.

Lemma setcap_kept c s : cred_ok (cs_cred s) → cs_rwlock s = Unlocked →
  match c with SetCap _ | ClrCap _ => True | _ => False end → wp (run_call calloc_ok c) (call_done c s) noabort s.
Proof.
  destruct s as [[ru rg eu eg fu fg g n cap] l err d]. cbn [cs_cred cs_rwlock]. intros [Hids Hg] -> Hc.
  destruct c as [a b|a b|a|a|l|cap'|cap']; try done; cbn [run_call].
  - unfold pmemfile_setcap, cred_lock, cred_unlock, update_cred, cred_fail. cbn [negb].
    destruct (known_cap cap') eqn:Hk; wp_steps; try done; (split; [by split|]); repeat split; try done. intros _.
    apply known_cap_range in Hk. cbn. by rewrite Z.lor_spec, Z.shiftl_1_l, Z.pow2_bits_true, orb_true_r.
  - unfold pmemfile_clrcap, cred_lock, cred_unlock, update_cred, cred_fail. cbn [negb].
    destruct (known_cap cap') eqn:Hk; wp_steps; try done; (split; [by split|]); repeat split; try done. intros _.
    apply known_cap_range in Hk. cbn. by rewrite Z.ldiff_spec, Z.shiftl_1_l, Z.pow2_bits_true, andb_false_r.
Qed.

(** A realloc to another size, except to size 0. *)
Lemma wp_realloc_groups s n (Q : option groups_ptr → cstate → Prop) E :
  cred_ok (cs_cred s) → n ≠ groupsnum (cs_cred s) → 0 < n ∨ groupsnum (cs_cred s) = 0 → 0 ≤ n →
  (∀ l d, Z.of_nat (length l) = n → Q (Some (Groups l)) (set_cred_dram d s)) →
  (∀ d, Q None (set_cred_errno ENOMEM (set_cred_dram d s))) →
  wp (realloc_groups calloc_ok (groups (cs_cred s)) n) Q E s.
Proof.
  intros [_ Hg] Hne Hn Hpos Qok Qfail. unfold realloc_groups. destruct s as [c lk err d]. cbn [cs_cred] in *.
  destruct (groups c) as [|l|] eqn:Hgr; [| |done].
  - apply wp_bind, wp_zoom. unfold wp at 1, pf_calloc.
    destruct (calloc_ok _); [|apply wp_bind, wp_modify, wp_ret, Qfail]. apply wp_ret, Qok. rewrite length_replicate. lia.
  - zcase (n =? 0); [lia|]. apply wp_bind, wp_zoom. unfold wp at 1, pf_calloc.
    destruct (calloc_ok _); [|apply wp_bind, wp_modify, wp_ret, Qfail].
    apply wp_bind, wp_zoom, wp_modify, wp_ret. apply (Qok _ (Dram _ _)).
    rewrite length_take, length_app, length_replicate. lia.
Qed.

Lemma wp_write_groups s l l0 (Q : unit → cstate → Prop) E :
  groups (cs_cred s) = Groups l0 ∨ l = [] → (l ≠ [] → length l = length l0) →
  (∀ g, (l ≠ [] → g = Groups l) → (l = [] → g = groups (cs_cred s)) →
    Q tt (set_cred (set_groups g (groupsnum (cs_cred s)) (cs_cred s)) s)) →
  wp (write_groups l) Q E s.
Proof.
  intros Hg Hl HQ. destruct s as [[ru rg eu eg fu fg g n cap] lk err d]. cbn in *. destruct l as [|x l].
  - apply wp_ret. by apply HQ.
  - destruct Hg as [->|?]; [|done]. specialize (Hl ltac:(done)). unfold write_groups. apply wp_bind, wp_gets. cbn [groups cs_cred].
    rewrite (proj2 (Nat.leb_le _ _)) by lia. apply wp_modify. rewrite (drop_ge l0), app_nil_r by lia. by apply HQ.
Qed.

Lemma setgroups_kept l s : cred_ok (cs_cred s) → cs_rwlock s = Unlocked → call_ok (cs_cred s) (SetGroups l) →
  wp (run_call calloc_ok (SetGroups l)) (call_done (SetGroups l) s) noabort s.
Proof.
  intros Hok Hl Hc. cbn [run_call call_ok] in *. unfold pmemfile_setgroups, cred_lock, cred_unlock. cbn [negb].
  wp_steps; [by rewrite Hl|]. cbn [cs_cred set_cred_rwlock]. zcase (Z.of_nat (length l) =? groupsnum (cs_cred s)).
  - destruct Hok as [Hids Hg]. apply wp_ret, wp_bind, (wp_write_groups _ l (cred_groups (cs_cred s))); cbn [cs_cred set_cred_rwlock].
    + unfold cred_groups. destruct (groups (cs_cred s)) in Hg |- *; [right|by left|done]. apply nil_length_inv. lia.
    + intros _. unfold cred_groups. destruct (groups (cs_cred s)) in Hg |- *; [cbn; lia|lia|done].
    + intros g Hg1 Hg2. wp_steps; try done. destruct l as [|x l].
      * rewrite (Hg2 eq_refl). repeat split; try done. intros _. unfold cred_groups. cbn.
        destruct (groups (cs_cred s)) in Hg |- *; [done| |done]. apply nil_length_inv. cbn in *. lia.
      * rewrite (Hg1 ltac:(done)). by repeat split.
  - cbn [negb]. apply wp_bind. apply (wp_realloc_groups (set_cred_rwlock WrLocked s)); cbn [cs_cred set_cred_rwlock]; try done.
    + destruct Hc as [Hc|Hc]; [left|by right]. destruct l; [done|]. cbn. lia.
    + lia.
    + intros l0 d Hlen. apply wp_bind, wp_modify, wp_ret, wp_bind, (wp_write_groups _ l l0); [by left|lia|]. intros g Hg1 Hg2. wp_steps; try done.
      assert (g = Groups l) as -> by (destruct l as [|x l]; [rewrite (Hg2 eq_refl); cbn in *; f_equal; apply nil_length_inv; lia|by apply Hg1]).
      destruct Hok as [Hids _]. repeat split; done.
Qed.
End kept.

(** ** Main results *)

(** C36: [can_access] grants an access exactly if the caller has the FOWNER
    capability, or every requested right is granted by the mode bits of the
    caller's class: owner, else group (primary or supplementary), else others,
    with the identifiers (file system, effective or real) the access type asks
    for. *)
Theorem can_access_correct cred perms acc :
  can_access cred perms acc = true ↔
    Z.testbit (caps cred) PMEMFILE_CAP_FOWNER = true ∨
    ∃ uid gid, checked_ids cred acc = Some (uid, gid) ∧
      ∀ r, requested acc r = true → granted (p_flags perms) (class_of cred uid gid perms) r = true.
Proof.
  rewrite can_access_class. destruct (Z.testbit (caps cred) PMEMFILE_CAP_FOWNER); [naive_solver|].
  destruct (checked_ids cred acc) as [[uid gid]|] eqn:Hids; cbv zeta.
  - rewrite class_mask_subset. naive_solver.
  - naive_solver.
Qed.


(** ** Examples *)

Definition cred_example : cstate := CState (Cred 1000 1000 1000 1000 1000 1000 GroupsNull 0 0) Unlocked 0 (Dram 0 0).

Lemma cred_example_ok : cred_ok (cs_cred cred_example).
Proof. split; [|done]. repeat (apply Forall_cons; split; [by split|]). by apply Forall_nil. Qed.


(** Set one supplementary group, then none, then read them. *)
Definition clear_groups : M cstate (Z * list Z) :=
  pmemfile_setgroups (λ _, true) true [100];;
  pmemfile_setgroups (λ _, true) true [];;
  pmemfile_getgroups true 1.

(** Clearing the supplementary groups releases the array but keeps the
    pointer and the count: [realloc] to size 0 returns NULL, which is taken
    for a failure.  The next [pmemfile_getgroups] reads released memory. *)
Theorem setgroups_empty : clear_groups cred_example = Fault BadPointer.
Proof. vm_compute. reflexivity. Qed.
