(* ===== verification/CString.v ===== *)
(** C strings and the functions on file names and paths of utils.c.  A pointer to
    characters is the list of the characters from there on; reading past the
    end of the list reads the terminating NUL. *)
From Stdlib Require Export Ascii String.
From stdpp Require Export strings.
From S2P Require Import Prelude.
#[global] Open Scope Z_scope.

Notation cstring := (list ascii) (only parsing).

Definition NUL : ascii := "000"%char.
Definition SLASH : ascii := "/"%char.
Definition cstr (s : string) : cstring := list_ascii_of_string s.

(** [s\[i\]] *)
Definition char_at (s : cstring) (i : nat) : ascii := nth i s NUL.

(** The string up to the first NUL, as [strlen], [strcpy] and the like see it. *)
Fixpoint until_nul (s : cstring) : cstring :=
  match s with
  | [] => []
  | c :: s' => if decide (c = NUL) then [] else c :: until_nul s'
  end.

Definition strlen (s : cstring) : nat := length (until_nul s).

(** [strncmp]: the sign of the first difference within [n] characters; a NUL in
    both ends the comparison. *)
Fixpoint strncmp (s1 s2 : cstring) (n : nat) : Z :=
  match n with
  | O => 0
  | S n' =>
      let c1 := char_at s1 0 in let c2 := char_at s2 0 in
      if decide (c1 = c2) then if decide (c1 = NUL) then 0 else strncmp (tail s1) (tail s2) n'
      else if (N_of_ascii c1 <? N_of_ascii c2)%N then -1 else 1
  end.

Definition str_compare (s1 s2 : cstring) (s2n : nat) : Z :=
  let ret := strncmp s1 s2 s2n in
  if negb (ret =? 0) then ret
  else if decide (char_at s1 s2n = NUL) then 0 else 1.

Fixpoint str_contains (str : cstring) (len : nat) (c : ascii) : bool :=
  match len with
  | O => false
  | S len' => if decide (char_at str 0 = c) then true else str_contains (tail str) len' c
  end.

(** [strchr(s, c)] for a character other than NUL: the rest from its first
    occurrence on. *)
Fixpoint strchr (s : cstring) (c : ascii) : option cstring :=
  match s with
  | [] => None
  | x :: s' => if decide (x = NUL) then None else if decide (x = c) then Some s else strchr s' c
  end.

(** [while ( *path == '/') path++] *)
Fixpoint skip_slashes (path : cstring) : cstring :=
  match path with
  | [] => []
  | c :: path' => if decide (c = SLASH) then skip_slashes path' else path
  end.

Definition more_than_1_component (path : cstring) : bool :=
  match strchr path SLASH with
  | None => false
  | Some path => if decide (char_at (skip_slashes path) 0 = NUL) then false else true
  end.

Definition component_length (path : cstring) : nat :=
  match strchr path SLASH with
  | None => strlen path
  | Some slash => (strlen path - strlen slash)%nat
  end.

(** [is_zeroed] on a buffer of characters *)
Definition is_zeroed (buf : cstring) : bool := forallb (λ c, bool_decide (c = NUL)) buf.

(** ** File names *)

Definition PMEMFILE_MAX_FILE_NAME : nat := 255.

(** A name that can be stored in a directory entry. *)
Definition name_ok (n : cstring) : Prop :=
  n ≠ [] ∧ (length n ≤ PMEMFILE_MAX_FILE_NAME)%nat ∧ NUL ∉ n ∧ SLASH ∉ n.

Lemma until_nul_id s : NUL ∉ s → until_nul s = s.
Proof.
  induction s as [|c s IH]; cbn; [done|]. intros [Hc Hs]%not_elem_of_cons. rewrite decide_False by congruence.
  by rewrite IH.
Qed.

Lemma until_nul_no_nul s : NUL ∉ until_nul s.
Proof.
  induction s as [|c s IH]; cbn; [apply not_elem_of_nil|].
  destruct (decide (c = NUL)) as [|Hc]; [apply not_elem_of_nil|]. apply not_elem_of_cons. by split.
Qed.

Lemma until_nul_app s t : NUL ∉ s → until_nul (s ++ NUL :: t) = s.
Proof.
  induction s as [|c s IH]; cbn; [done|]. intros [Hc Hs]%not_elem_of_cons. rewrite decide_False by congruence.
  by rewrite IH.
Qed.

(** Comparing a stored string with the first [n] characters of a path. *)
Lemma strncmp_zero s1 s2 n : NUL ∉ take n s2 → (n ≤ length s2)%nat →
  strncmp s1 s2 n = 0 ↔ take n (until_nul s1) = take n s2.
Proof.
  revert s1 s2. induction n as [|n IH]; intros s1 s2 Hn Hl; cbn [strncmp]; [by rewrite !take_0|].
  destruct s2 as [|c2 s2]; [cbn in Hl; lia|]. rewrite firstn_cons in Hn. apply not_elem_of_cons in Hn as [Hc Hn].
  unfold char_at. cbn [nth]. destruct s1 as [|c1 s1]; cbn [nth until_nul].
  - rewrite decide_False by done. cbn. split; [|done]. by destruct (_ <? _)%N.
  - destruct (decide (c1 = c2)) as [->|Hne].
    + rewrite !(decide_False (P := c2 = NUL)) by (intros ->; done). cbn [tail]. rewrite IH by (done || (cbn in Hl; lia)).
      rewrite !firstn_cons. split; [by intros ->|by intros [= ->]].
    + split; [by destruct (_ <? _)%N|]. destruct (decide (c1 = NUL)); [done|]. rewrite !firstn_cons. congruence.
Qed.

Lemma char_at_until s n : (n ≤ length (until_nul s))%nat → char_at s n = NUL ↔ length (until_nul s) = n.
Proof.
  unfold char_at. revert n. induction s as [|c s IH]; intros n; cbn [until_nul].
  - cbn. intros ?. destruct n; [done|lia].
  - destruct (decide (c = NUL)) as [->|Hc]; cbn [length].
    + destruct n; [done|lia].
    + destruct n as [|n]; cbn [nth]; [split; [done|lia]|]. intros Hn. rewrite IH by lia. lia.
Qed.

(** [str_compare] tests whether the string is exactly the given name. *)
Lemma str_compare_zero s1 s2 n : NUL ∉ take n s2 → (n ≤ length s2)%nat →
  (str_compare s1 s2 n =? 0) = bool_decide (until_nul s1 = take n s2).
Proof.
  intros Hn Hl. unfold str_compare. pose proof (strncmp_zero s1 s2 n Hn Hl) as Hz.
  zcase (strncmp s1 s2 n =? 0); cbn [negb].
  - apply Hz in Heqb. assert (n ≤ length (until_nul s1))%nat as Hle.
    { apply (f_equal length) in Heqb. rewrite !length_take in Heqb. lia. }
    pose proof (char_at_until s1 n Hle) as Hc. destruct (decide (char_at s1 n = NUL)) as [He|He].
    + symmetry. apply bool_decide_eq_true. rewrite <-Heqb. symmetry. apply take_ge. apply Hc in He. lia.
    + symmetry. apply bool_decide_eq_false. intros He'. apply He, Hc. rewrite He', length_take. lia.
  - rewrite (proj2 (Z.eqb_neq _ _)) by done. symmetry. apply bool_decide_eq_false. intros He. apply Heqb, Hz.
    rewrite He. by rewrite take_take, Nat.min_id.
Qed.
