(* ===== verification/Pool.v ===== *)
(** The state of a pool: all persistent objects of the file system, the open
    transaction with its undo log and callbacks (callbacks.c), the volatile
    inodes, the locks (locks.c, os_thread_pthread.c), and the primitives of
    libpmemobj on them. *)
From S2P Require Import Prelude Layout Inode OffsetMap FileState HashMap Creds CString.

(** ** Persistent objects (layout.h) *)

(** [struct pmemfile_dirent]: the name is a buffer of 256 characters. *)
Record dirent := Dirent { de_inode : option oid; de_name : cstring }.

(** [struct pmemfile_dir]; [d_dirents] is the storage of the object. *)
Record dir := Dir { d_version : Z; d_num_elements : nat; d_next : option oid; d_dirents : list dirent }.

(** The union [file_data]: what the object holds for each type of file.  The
    blocks of a regular file are those of [FileState]. *)
Inductive file_data :=
  | DataBlocks (arrays : gmap aid block_array) (data : gmap oid bytes)
  | DataDir (d : dir)
  | DataShortSymlink (target : cstring)
  | DataLongSymlink (o : oid).

Record minode := Minode { mi_inode : inode; mi_data : file_data }.

Definition NUMINODES_PER_ENTRY : nat := 249.

Record inode_array := InodeArray {
  ia_version : Z; ia_used : Z; ia_prev : option oid; ia_next : option oid; ia_inodes : list (option oid);
}.

Record super := Super {
  su_version : Z; su_orphaned_inodes : option oid; su_suspended_inodes : option oid; su_root_inode : list (option oid);
}.

(** Everything that survives a crash. *)
Record ppool := PPool {
  pp_inodes : gmap oid minode;
  pp_dirs : gmap oid dir;
  pp_inode_arrays : gmap oid inode_array;
  pp_chars : gmap oid cstring;
  pp_super : super;
}.

(** The address of a [struct pmemfile_dir]: embedded in an inode, or an object. *)
Inductive dirp := InInode (i : oid) | DirObj (o : oid).
(** The address of a directory entry. *)
Notation deptr := (dirp * nat)%type (only parsing).

#[global] Instance dirp_eq_dec : EqDecision dirp.
Proof. solve_decision. Defined.

(** ** Locks *)

Inductive lockid :=
  | LSuper | LCwd | LInodeMap
  | LVinode (v : positive)      (* vinode->rwlock *)
  | LArray (o : oid).           (* inode_array->mtx *)

#[global] Instance lockid_eq_dec : EqDecision lockid.
Proof. solve_decision. Defined.

#[global] Instance lockid_countable : Countable lockid.
Proof.
  refine (inj_countable'
    (λ l, match l with
          | LSuper => inl 1%positive | LCwd => inl 2%positive | LInodeMap => inl 3%positive
          | LVinode v => inr (inl v) | LArray o => inr (inr o)
          end)
    (λ x, match x with
          | inl 1%positive => LSuper | inl 2%positive => LCwd | inl _ => LInodeMap
          | inr (inl v) => LVinode v | inr (inr o) => LArray o
          end) _).
  by intros [].
Defined.

(** ** Transactions *)

(** Callbacks of one stage: all of them release a lock. *)
Record callbacks := Callbacks { cb_forward : list lockid; cb_backward : list lockid }.

(** The undo log is the list of restoring functions, newest first; objects
    released by [TX_FREE] disappear at the commit. *)
Record ptx := PTx {
  pt_log : list (ppool → ppool);
  pt_frees : list (ppool → ppool);
  pt_oncommit : callbacks;
  pt_onabort : callbacks;
}.

(** ** Volatile state *)

(** [struct pmemfile_vinode]; the fields of the data path are in [vn_file]. *)
Record vnode := Vnode {
  vn_ref : Z; vn_tinode : oid; vn_parent : option positive;
  vn_orphaned : option (oid * nat); vn_suspended : option (oid * nat);
  vn_atime : pmemfile_time; vn_atime_dirty : bool; vn_file : vinode;
}.

(** [struct pmemfilepool] with the state of the machine it runs on. *)
Record pool := Pool {
  po_pm : ppool;
  po_tx : option ptx;
  po_vnodes : gmap positive vnode;
  po_inode_map : hash_map;
  po_root : list positive;
  po_cwd : positive;
  po_umask : Z;
  po_cred : pmemfile_cred;
  po_cred_rwlock : lock_state;
  po_locks : gmap lockid lock_state;   (* a lock that is not here is free *)
  po_dram : dram;
  po_errno : Z;
  po_ticks : nat;
}.

Definition set_po_pm x (s : pool) := Pool x (po_tx s) (po_vnodes s) (po_inode_map s) (po_root s) (po_cwd s)
  (po_umask s) (po_cred s) (po_cred_rwlock s) (po_locks s) (po_dram s) (po_errno s) (po_ticks s).
Definition set_po_tx x (s : pool) := Pool (po_pm s) x (po_vnodes s) (po_inode_map s) (po_root s) (po_cwd s)
  (po_umask s) (po_cred s) (po_cred_rwlock s) (po_locks s) (po_dram s) (po_errno s) (po_ticks s).
Definition set_po_vnodes x (s : pool) := Pool (po_pm s) (po_tx s) x (po_inode_map s) (po_root s) (po_cwd s)
  (po_umask s) (po_cred s) (po_cred_rwlock s) (po_locks s) (po_dram s) (po_errno s) (po_ticks s).
Definition set_po_inode_map x (s : pool) := Pool (po_pm s) (po_tx s) (po_vnodes s) x (po_root s) (po_cwd s)
  (po_umask s) (po_cred s) (po_cred_rwlock s) (po_locks s) (po_dram s) (po_errno s) (po_ticks s).
Definition set_po_cwd x (s : pool) := Pool (po_pm s) (po_tx s) (po_vnodes s) (po_inode_map s) (po_root s) x
  (po_umask s) (po_cred s) (po_cred_rwlock s) (po_locks s) (po_dram s) (po_errno s) (po_ticks s).
Definition set_po_umask x (s : pool) := Pool (po_pm s) (po_tx s) (po_vnodes s) (po_inode_map s) (po_root s) (po_cwd s)
  x (po_cred s) (po_cred_rwlock s) (po_locks s) (po_dram s) (po_errno s) (po_ticks s).
Definition set_po_locks x (s : pool) := Pool (po_pm s) (po_tx s) (po_vnodes s) (po_inode_map s) (po_root s) (po_cwd s)
  (po_umask s) (po_cred s) (po_cred_rwlock s) x (po_dram s) (po_errno s) (po_ticks s).
Definition set_po_dram x (s : pool) := Pool (po_pm s) (po_tx s) (po_vnodes s) (po_inode_map s) (po_root s) (po_cwd s)
  (po_umask s) (po_cred s) (po_cred_rwlock s) (po_locks s) x (po_errno s) (po_ticks s).
Definition set_po_errno x (s : pool) := Pool (po_pm s) (po_tx s) (po_vnodes s) (po_inode_map s) (po_root s) (po_cwd s)
  (po_umask s) (po_cred s) (po_cred_rwlock s) (po_locks s) (po_dram s) x (po_ticks s).
Definition set_po_ticks x (s : pool) := Pool (po_pm s) (po_tx s) (po_vnodes s) (po_inode_map s) (po_root s) (po_cwd s)
  (po_umask s) (po_cred s) (po_cred_rwlock s) (po_locks s) (po_dram s) (po_errno s) x.

(** The part creds.c works on. *)
Definition pool_cstate (s : pool) : cstate := CState (po_cred s) (po_cred_rwlock s) (po_errno s) (po_dram s).
Definition set_pool_cstate (c : cstate) (s : pool) : pool :=
  Pool (po_pm s) (po_tx s) (po_vnodes s) (po_inode_map s) (po_root s) (po_cwd s) (po_umask s)
    (cs_cred c) (cs_rwlock c) (po_locks s) (cs_dram c) (cs_errno c) (po_ticks s).

Definition set_pp_inodes x (p : ppool) := PPool x (pp_dirs p) (pp_inode_arrays p) (pp_chars p) (pp_super p).
Definition set_pp_dirs x (p : ppool) := PPool (pp_inodes p) x (pp_inode_arrays p) (pp_chars p) (pp_super p).
Definition set_pp_inode_arrays x (p : ppool) := PPool (pp_inodes p) (pp_dirs p) x (pp_chars p) (pp_super p).
Definition set_pp_chars x (p : ppool) := PPool (pp_inodes p) (pp_dirs p) (pp_inode_arrays p) x (pp_super p).
Definition set_pp_super x (p : ppool) := PPool (pp_inodes p) (pp_dirs p) (pp_inode_arrays p) (pp_chars p) x.
Definition set_de_inode x (e : dirent) := Dirent x (de_name e).
Definition set_de_name x (e : dirent) := Dirent (de_inode e) x.
Definition set_d_next x (d : dir) := Dir (d_version d) (d_num_elements d) x (d_dirents d).
Definition set_d_dirents x (d : dir) := Dir (d_version d) (d_num_elements d) (d_next d) x.
Definition set_mi_inode x (i : minode) := Minode x (mi_data i).
Definition set_mi_data x (i : minode) := Minode (mi_inode i) x.
Definition set_ia_used x (a : inode_array) := InodeArray (ia_version a) x (ia_prev a) (ia_next a) (ia_inodes a).
Definition set_ia_prev x (a : inode_array) := InodeArray (ia_version a) (ia_used a) x (ia_next a) (ia_inodes a).
Definition set_ia_next x (a : inode_array) := InodeArray (ia_version a) (ia_used a) (ia_prev a) x (ia_inodes a).
Definition set_ia_inodes x (a : inode_array) := InodeArray (ia_version a) (ia_used a) (ia_prev a) (ia_next a) x.

(** ** Access to objects *)

Definition dir_lookup (p : ppool) (d : dirp) : option dir :=
  match d with
  | InInode i => match pp_inodes p !! i with Some (Minode _ (DataDir x)) => Some x | _ => None end
  | DirObj o => pp_dirs p !! o
  end.

Definition data_dir_upd (f : dir → dir) (i : minode) : minode :=
  match mi_data i with DataDir d => set_mi_data (DataDir (f d)) i | _ => i end.

Definition dir_upd (d : dirp) (f : dir → dir) (p : ppool) : ppool :=
  match d with
  | InInode i => set_pp_inodes (alter (data_dir_upd f) i (pp_inodes p)) p
  | DirObj o => set_pp_dirs (alter f o (pp_dirs p)) p
  end.

Definition dirent_lookup (p : ppool) (e : deptr) : option dirent := d ← dir_lookup p e.1; d_dirents d !! e.2.
Definition dirent_upd (e : deptr) (f : dirent → dirent) (p : ppool) : ppool :=
  dir_upd e.1 (λ d, set_d_dirents (alter f e.2 (d_dirents d)) d) p.

Definition inode_lookup (p : ppool) (i : oid) : option inode := mi_inode <$> pp_inodes p !! i.
Definition inode_upd (i : oid) (f : inode → inode) (p : ppool) : ppool :=
  set_pp_inodes (alter (λ x, set_mi_inode (f (mi_inode x)) x) i (pp_inodes p)) p.

Definition iarray_upd (a : oid) (f : inode_array → inode_array) (p : ppool) : ppool :=
  set_pp_inode_arrays (alter f a (pp_inode_arrays p)) p.

Definition pm_modify (f : ppool → ppool) : M pool unit := modify (λ s, set_po_pm (f (po_pm s)) s).

Definition dir_get (d : dirp) : M pool dir := p ← gets po_pm; of_option BadPointer (dir_lookup p d).
Definition dirent_get (e : deptr) : M pool dirent := p ← gets po_pm; of_option BadPointer (dirent_lookup p e).
Definition minode_get (i : oid) : M pool minode := p ← gets po_pm; of_option BadPointer (pp_inodes p !! i).
Definition inode_get (i : oid) : M pool inode := p ← gets po_pm; of_option BadPointer (inode_lookup p i).
Definition iarray_get (a : oid) : M pool inode_array := p ← gets po_pm; of_option BadPointer (pp_inode_arrays p !! a).
Definition vnode_get (v : positive) : M pool vnode := m ← gets po_vnodes; of_option BadPointer (m !! v).
Definition vnode_modify (v : positive) (f : vnode → vnode) : M pool unit :=
  _ ← vnode_get v; modify (λ s, set_po_vnodes (alter f v (po_vnodes s)) s).
(** [vinode->inode] *)
Definition vinode_inode (v : positive) : M pool inode := x ← vnode_get v; inode_get (vn_tinode x).

Definition set_errno (e : Z) : M pool unit := modify (set_po_errno e).
Definition get_errno : M pool Z := gets po_errno.
(** [errno = e; return -1;] *)
Definition pool_fail (e : Z) : M pool Z := set_errno e;; mret (-1).
(** Dereferencing a pointer that may be NULL. *)
Definition nonnull {A} (x : option A) : M pool A := of_option NullDeref x.

(** ** Locks: taking a lock that is held or releasing a free one is a fault *)

Definition lock (l : lockid) (m : lock_state) : M pool unit :=
  locks ← gets po_locks;
  assert_ (bool_decide (locks !! l = None));;
  modify (λ s, set_po_locks (<[l := m]> (po_locks s)) s).
Definition unlock (l : lockid) : M pool unit :=
  locks ← gets po_locks;
  assert_ (bool_decide (is_Some (locks !! l)));;
  modify (λ s, set_po_locks (delete l (po_locks s)) s).

(** ** Transactions *)

Definition ASSERT_IN_TX : M pool unit := t ← gets po_tx; assert_ (bool_decide (is_Some t)).
Definition ASSERT_NOT_IN_TX : M pool unit := t ← gets po_tx; assert_ (bool_decide (¬ is_Some t)).

Definition tx_modify (f : ptx → ptx) : M pool unit :=
  t ← gets po_tx;
  match t with
  | None => fault_ AssertFail
  | Some t => modify (set_po_tx (Some (f t)))
  end.

(** [pmemobj_tx_add_range_direct]: [snap old cur] is [cur] with the range as it is
    in [old]. *)
Definition tx_add (snap : ppool → ppool → ppool) : M pool unit :=
  p ← gets po_pm;
  tx_modify (λ t, PTx (snap p :: pt_log t) (pt_frees t) (pt_oncommit t) (pt_onabort t)).

(** [TX_FREE] *)
Definition tx_free (f : ppool → ppool) : M pool unit :=
  tx_modify (λ t, PTx (pt_log t) (f :: pt_frees t) (pt_oncommit t) (pt_onabort t)).

(** *** Callbacks (callbacks.c), for the two stages the code uses *)

Inductive tx_stage := OnCommit | OnAbort.

Definition cb_modify (stage : tx_stage) (f : callbacks → callbacks) : M pool unit :=
  tx_modify (λ t, match stage with
                  | OnCommit => PTx (pt_log t) (pt_frees t) (f (pt_oncommit t)) (pt_onabort t)
                  | OnAbort => PTx (pt_log t) (pt_frees t) (pt_oncommit t) (f (pt_onabort t))
                  end).

Definition cb_push_back (stage : tx_stage) (l : lockid) : M pool unit :=
  cb_modify stage (λ c, Callbacks (cb_forward c ++ [l]) (cb_backward c)).
Definition cb_push_front (stage : tx_stage) (l : lockid) : M pool unit :=
  cb_modify stage (λ c, Callbacks (cb_forward c) (cb_backward c ++ [l])).

Fixpoint run_unlocks (ls : list lockid) : M pool unit :=
  match ls with [] => mret tt | l :: ls' => unlock l;; run_unlocks ls' end.

(** First the callbacks pushed to the front, the last one first; then the others. *)
Definition cb_queue (c : callbacks) : M pool unit := run_unlocks (reverse (cb_backward c));; run_unlocks (cb_forward c).

(** [TX_BEGIN_CB(pop, cb_queue, pfp) { body } TX_ONABORT { on_abort } TX_END]: at
    an abort the log is undone, then the callbacks run, then the handler with
    errno set. *)
Definition tx_empty : ptx := PTx [] [] (Callbacks [] []) (Callbacks [] []).
Fixpoint undo_log (log : list (ppool → ppool)) (p : ppool) : ppool :=
  match log with [] => p | f :: log' => undo_log log' (f p) end.
Definition apply_frees (fs : list (ppool → ppool)) (p : ppool) : ppool := foldr (λ f p, f p) p fs.

Definition tx_begin_cb {A} (body : M pool A) (on_abort : Z → M pool A) : M pool A := λ s,
  match po_tx s with
  | Some _ => Fault AssertFail
  | None =>
      match body (set_po_tx (Some tx_empty) s) with
      | Ok a s' =>
          match po_tx s' with
          | Some t => (cb_queue (pt_oncommit t);; mret a) (set_po_tx None (set_po_pm (apply_frees (pt_frees t) (po_pm s')) s'))
          | None => Fault AssertFail
          end
      | Abort e s' =>
          match po_tx s' with
          | Some t =>
              (cb_queue (pt_onabort t);; set_errno e;; on_abort e)
                (set_po_tx None (set_po_pm (undo_log (pt_log t) (po_pm s')) s'))
          | None => Fault AssertFail
          end
      | Fault f => Fault f
      end
  end.

(** *** Transactional locks (locks.c) *)

Definition rwlock_tx_wlock (l : lockid) : M pool unit := ASSERT_IN_TX;; cb_push_front OnAbort l;; lock l WrLocked.
Definition rwlock_tx_unlock_on_commit (l : lockid) : M pool unit := ASSERT_IN_TX;; cb_push_back OnCommit l.
Definition mutex_tx_unlock_on_abort (l : lockid) : M pool unit := ASSERT_IN_TX;; cb_push_front OnAbort l.
Definition mutex_tx_lock (l : lockid) : M pool unit := cb_push_front OnAbort l;; lock l WrLocked.
Definition mutex_tx_unlock_on_commit (l : lockid) : M pool unit := ASSERT_IN_TX;; cb_push_back OnCommit l.

(** ** Transactional updates of an inode (inode.h): the valid slot of the field is
    added to the log, then written *)

Definition tx_inode (undo : inode → inode → inode) (f : inode → inode) (i : oid) : M pool unit :=
  x ← inode_get i;
  tx_add (λ _, inode_upd i (undo x));;
  pm_modify (inode_upd i f).

Definition undo_nlink (old : inode) (i : inode) :=
  set_i_nlink (sset (s_nlink (i_slots old)) (inode_get_nlink old) (i_nlink i)) i.
Definition undo_size (old : inode) (i : inode) :=
  set_i_size (sset (s_size (i_slots old)) (inode_get_size old) (i_size i)) i.
Definition undo_mtime (old : inode) (i : inode) :=
  set_i_mtime (sset (s_mtime (i_slots old)) (inode_get_mtime old) (i_mtime i)) i.
Definition undo_ctime (old : inode) (i : inode) :=
  set_i_ctime (sset (s_ctime (i_slots old)) (inode_get_ctime old) (i_ctime i)) i.
Definition undo_flags (old : inode) (i : inode) :=
  set_i_flags (sset (s_flags (i_slots old)) (inode_get_flags old) (i_flags i)) i.

Definition tx_inc_nlink : oid → M pool unit := tx_inode undo_nlink inode_tx_inc_nlink.
Definition tx_dec_nlink : oid → M pool unit := tx_inode undo_nlink inode_tx_dec_nlink.
Definition tx_set_inode_size (sz : Z) : oid → M pool unit := tx_inode undo_size (inode_tx_set_size sz).
Definition tx_set_inode_mtime (tm : pmemfile_time) : oid → M pool unit := tx_inode undo_mtime (inode_tx_set_mtime tm).
Definition tx_set_inode_ctime (tm : pmemfile_time) : oid → M pool unit := tx_inode undo_ctime (inode_tx_set_ctime tm).
Definition tx_set_inode_flags (f : Z) : oid → M pool unit := tx_inode undo_flags (inode_tx_set_flags f).

(** ** The persistent allocator: a parameter, as in [FileState] *)

Class PoolAlloc := { pool_palloc : ppool → Z → option oid }.

(** A new object is not one of those in use. *)
Class PoolAllocOk `{!PoolAlloc} : Prop := {
  pool_palloc_fresh p size o : pool_palloc p size = Some o →
    pp_inodes p !! o = None ∧ pp_dirs p !! o = None ∧ pp_inode_arrays p !! o = None ∧ pp_chars p !! o = None;
}.

Section alloc.
Context `{!PoolAlloc}.

(** [TX_XALLOC]: [put] stores the new object, [del] removes it on an abort. *)
Definition tx_xalloc (size : Z) (put del : oid → ppool → ppool) : M pool oid :=
  p ← gets po_pm;
  match pool_palloc p size with
  | None => tx_abort ENOMEM
  | Some o => tx_add (λ _, del o);; pm_modify (put o);; mret o
  end.

Definition tx_xalloc_inode (size : Z) (i : minode) : M pool oid :=
  tx_xalloc size (λ o p, set_pp_inodes (<[o := i]> (pp_inodes p)) p) (λ o p, set_pp_inodes (delete o (pp_inodes p)) p).
Definition tx_xalloc_dir (size : Z) (d : dir) : M pool oid :=
  tx_xalloc size (λ o p, set_pp_dirs (<[o := d]> (pp_dirs p)) p) (λ o p, set_pp_dirs (delete o (pp_dirs p)) p).
Definition tx_xalloc_inode_array (size : Z) (a : inode_array) : M pool oid :=
  tx_xalloc size (λ o p, set_pp_inode_arrays (<[o := a]> (pp_inode_arrays p)) p)
    (λ o p, set_pp_inode_arrays (delete o (pp_inode_arrays p)) p).
Definition tx_xalloc_char (size : Z) (c : cstring) : M pool oid :=
  tx_xalloc size (λ o p, set_pp_chars (<[o := c]> (pp_chars p)) p) (λ o p, set_pp_chars (delete o (pp_chars p)) p).
End alloc.

(** ** Volatile memory: [pf_calloc] returns an address that was not used before *)

Section dram.
Variable calloc_ok : nat → bool.

Definition pool_calloc : M pool (option positive) :=
  n ← gets (λ s, dram_tick (po_dram s));
  ok ← zoom po_dram set_po_dram (pf_calloc calloc_ok);
  if ok : bool then mret (Some (Pos.of_succ_nat n)) else set_errno ENOMEM;; mret None.
Definition pool_free : M pool unit := zoom po_dram set_po_dram pf_free.
End dram.

(** ** Rules for the primitives *)

Section pool_rules.
Implicit Types (s : pool).

Lemma wp_lock_ l m (Q : unit → pool → Prop) E s :
  po_locks s !! l = None → Q tt (set_po_locks (<[l := m]> (po_locks s)) s) → wp (lock l m) Q E s.
Proof. intros Hl HQ. unfold lock. apply wp_bind, wp_gets, wp_bind, wp_assert; [by apply bool_decide_eq_true|]. by apply wp_modify. Qed.

Lemma wp_unlock_ l (Q : unit → pool → Prop) E s :
  is_Some (po_locks s !! l) → Q tt (set_po_locks (delete l (po_locks s)) s) → wp (unlock l) Q E s.
Proof. intros Hl HQ. unfold unlock. apply wp_bind, wp_gets, wp_bind, wp_assert; [by apply bool_decide_eq_true|]. by apply wp_modify. Qed.

Lemma wp_ASSERT_IN_TX t (Q : unit → pool → Prop) E s : po_tx s = Some t → Q tt s → wp ASSERT_IN_TX Q E s.
Proof. intros Ht HQ. unfold ASSERT_IN_TX. apply wp_bind, wp_gets, wp_assert; [|done]. apply bool_decide_eq_true. by eexists. Qed.

Lemma wp_ASSERT_NOT_IN_TX (Q : unit → pool → Prop) E s : po_tx s = None → Q tt s → wp ASSERT_NOT_IN_TX Q E s.
Proof.
  intros Ht HQ. unfold ASSERT_NOT_IN_TX. apply wp_bind, wp_gets, wp_assert; [|done]. apply bool_decide_eq_true. rewrite Ht.
  by intros [].
Qed.

Lemma wp_tx_modify f t (Q : unit → pool → Prop) E s :
  po_tx s = Some t → Q tt (set_po_tx (Some (f t)) s) → wp (tx_modify f) Q E s.
Proof. intros Ht HQ. unfold tx_modify. apply wp_bind, wp_gets. rewrite Ht. by apply wp_modify. Qed.

Lemma wp_iarray_get a x (Q : inode_array → pool → Prop) E s :
  pp_inode_arrays (po_pm s) !! a = Some x → Q x s → wp (iarray_get a) Q E s.
Proof. intros Hx HQ. unfold iarray_get. apply wp_bind, wp_gets. by eapply wp_of_option. Qed.

Lemma wp_inode_get i x (Q : inode → pool → Prop) E s : inode_lookup (po_pm s) i = Some x → Q x s → wp (inode_get i) Q E s.
Proof. intros Hx HQ. unfold inode_get. apply wp_bind, wp_gets. by eapply wp_of_option. Qed.

Lemma wp_dir_get d x (Q : dir → pool → Prop) E s : dir_lookup (po_pm s) d = Some x → Q x s → wp (dir_get d) Q E s.
Proof. intros Hx HQ. unfold dir_get. apply wp_bind, wp_gets. by eapply wp_of_option. Qed.

Lemma wp_dirent_get e x (Q : dirent → pool → Prop) E s :
  dirent_lookup (po_pm s) e = Some x → Q x s → wp (dirent_get e) Q E s.
Proof. intros Hx HQ. unfold dirent_get. apply wp_bind, wp_gets. by eapply wp_of_option. Qed.

Lemma wp_vnode_get v x (Q : vnode → pool → Prop) E s : po_vnodes s !! v = Some x → Q x s → wp (vnode_get v) Q E s.
Proof. intros Hx HQ. unfold vnode_get. apply wp_bind, wp_gets. by eapply wp_of_option. Qed.

(** Inside a transaction: other persistent objects, transaction and locks. *)
Definition tx_state (s : pool) (pm : ppool) (t : ptx) (locks : gmap lockid lock_state) : pool :=
  set_po_locks locks (set_po_tx (Some t) (set_po_pm pm s)).

(** The transaction gained undo records and callbacks. *)
Definition tx_more (t : ptx) (us : list (ppool → ppool)) (fwd bwd : list lockid) : ptx :=
  PTx (us ++ pt_log t) (pt_frees t)
    (Callbacks (cb_forward (pt_oncommit t) ++ fwd) (cb_backward (pt_oncommit t)))
    (Callbacks (cb_forward (pt_onabort t)) (cb_backward (pt_onabort t) ++ bwd)).

Lemma tx_more_nil t : tx_more t [] [] [] = t.
Proof. destruct t as [? ? [] []]. unfold tx_more. cbn. by rewrite !app_nil_r. Qed.

Lemma tx_more_more t us fwd bwd us' fwd' bwd' :
  tx_more (tx_more t us fwd bwd) us' fwd' bwd' = tx_more t (us' ++ us) (fwd ++ fwd') (bwd ++ bwd').
Proof. unfold tx_more. cbn. by rewrite !app_assoc. Qed.

Lemma tx_state_id s t : po_tx s = Some t → tx_state s (po_pm s) t (po_locks s) = s.
Proof. destruct s. cbn. by intros ->. Qed.

Section in_tx.
Variables (s : pool) (pm : ppool) (t : ptx) (locks : gmap lockid lock_state).
Notation st := (tx_state s pm t locks).

Lemma wp_tx_add snap (Q : unit → pool → Prop) E :
  Q tt (tx_state s pm (tx_more t [snap pm] [] []) locks) → wp (tx_add snap) Q E st.
Proof.
  intros HQ. unfold tx_add. apply wp_bind, wp_gets. eapply wp_tx_modify; [done|]. unfold tx_more in HQ. rewrite !app_nil_r in HQ.
  by destruct t as [? ? [] []].
Qed.

Lemma wp_tx_free f (Q : unit → pool → Prop) E :
  Q tt (tx_state s pm (PTx (pt_log t) (f :: pt_frees t) (pt_oncommit t) (pt_onabort t)) locks) → wp (tx_free f) Q E st.
Proof. intros HQ. by eapply wp_tx_modify. Qed.

Lemma wp_pm_modify f (Q : unit → pool → Prop) E : Q tt (tx_state s (f pm) t locks) → wp (pm_modify f) Q E st.
Proof. done. Qed.

Lemma wp_on_commit l (Q : unit → pool → Prop) E :
  Q tt (tx_state s pm (tx_more t [] [l] []) locks) → wp (mutex_tx_unlock_on_commit l) Q E st.
Proof.
  intros HQ. apply wp_bind. eapply wp_ASSERT_IN_TX; [done|]. eapply wp_tx_modify; [done|].
  unfold tx_more in HQ. rewrite app_nil_r in HQ. by destruct t as [? ? [] []].
Qed.

Lemma wp_on_abort l (Q : unit → pool → Prop) E :
  Q tt (tx_state s pm (tx_more t [] [] [l]) locks) → wp (mutex_tx_unlock_on_abort l) Q E st.
Proof.
  intros HQ. apply wp_bind. eapply wp_ASSERT_IN_TX; [done|]. eapply wp_tx_modify; [done|].
  unfold tx_more in HQ. rewrite app_nil_r in HQ. by destruct t as [? ? [] []].
Qed.

Lemma wp_lock_tx l m (Q : unit → pool → Prop) E :
  locks !! l = None → Q tt (tx_state s pm t (<[l := m]> locks)) → wp (lock l m) Q E st.
Proof. intros Hl HQ. by apply wp_lock_. Qed.

Lemma wp_unlock_tx l (Q : unit → pool → Prop) E :
  is_Some (locks !! l) → Q tt (tx_state s pm t (delete l locks)) → wp (unlock l) Q E st.
Proof. intros Hl HQ. by apply wp_unlock_. Qed.

Lemma wp_mutex_tx_lock l (Q : unit → pool → Prop) E :
  locks !! l = None → Q tt (tx_state s pm (tx_more t [] [] [l]) (<[l := WrLocked]> locks)) → wp (mutex_tx_lock l) Q E st.
Proof.
  intros Hl HQ. apply wp_bind. eapply wp_tx_modify; [done|]. apply wp_lock_; [done|].
  unfold tx_more in HQ. rewrite app_nil_r in HQ. by destruct t as [? ? [] []].
Qed.

Lemma wp_rwlock_tx_wlock l (Q : unit → pool → Prop) E :
  locks !! l = None → Q tt (tx_state s pm (tx_more t [] [] [l]) (<[l := WrLocked]> locks)) → wp (rwlock_tx_wlock l) Q E st.
Proof. intros Hl HQ. apply wp_bind. eapply wp_ASSERT_IN_TX; [done|]. by apply wp_mutex_tx_lock. Qed.

End in_tx.

(** Allocation either aborts with ENOMEM or gives a fresh object. *)
Lemma wp_tx_xalloc `{!PoolAlloc} s pm t locks size put del (Q : oid → pool → Prop) (E : Z → pool → Prop) :
  E ENOMEM (tx_state s pm t locks) →
  (∀ o, pool_palloc pm size = Some o → Q o (tx_state s (put o pm) (tx_more t [del o] [] []) locks)) →
  wp (tx_xalloc size put del) Q E (tx_state s pm t locks).
Proof.
  intros HE HQ. unfold tx_xalloc. apply wp_bind, wp_gets. cbn [po_pm tx_state set_po_locks set_po_tx set_po_pm].
  destruct (pool_palloc pm size) as [o|] eqn:Ho; [|by apply wp_abort].
  apply wp_bind, wp_tx_add, wp_bind, wp_pm_modify, wp_ret. by apply HQ.
Qed.

(** *** Whole transactions *)

Definition unlock_all (ls : list lockid) (locks : gmap lockid lock_state) : gmap lockid lock_state :=
  foldl (λ m l, delete l m) locks ls.

Lemma wp_run_unlocks ls (Q : unit → pool → Prop) E s :
  NoDup ls → (∀ l, l ∈ ls → is_Some (po_locks s !! l)) →
  Q tt (set_po_locks (unlock_all ls (po_locks s)) s) → wp (run_unlocks ls) Q E s.
Proof.
  revert s. induction ls as [|l ls IH]; intros s Hnd Hin HQ; cbn [run_unlocks].
  { apply wp_ret. by destruct s. }
  apply NoDup_cons in Hnd as [Hl Hnd]. apply wp_bind, wp_unlock_; [apply Hin; by left|]. apply IH; [done| |done].
  intros l' Hl'. cbn. rewrite lookup_delete_ne by (intros ->; done). apply Hin. by right.
Qed.

Lemma wp_tx_begin_cb {A} (body : M pool A) h (Q : A → pool → Prop) E s :
  po_tx s = None →
  wp body
    (λ a s', ∃ t, po_tx s' = Some t ∧
      wp (cb_queue (pt_oncommit t)) (λ _, Q a) E (set_po_tx None (set_po_pm (apply_frees (pt_frees t) (po_pm s')) s')))
    (λ e s', ∃ t, po_tx s' = Some t ∧
      wp (cb_queue (pt_onabort t)) (λ _ s', wp (h e) Q E (set_po_errno e s')) E
        (set_po_tx None (set_po_pm (undo_log (pt_log t) (po_pm s')) s')))
    (tx_state s (po_pm s) tx_empty (po_locks s)) →
  wp (tx_begin_cb body h) Q E s.
Proof.
  intros Htx Hb. unfold tx_begin_cb, wp at 1. rewrite Htx.
  replace (set_po_tx (Some tx_empty) s) with (tx_state s (po_pm s) tx_empty (po_locks s)) by (by destruct s).
  unfold wp at 1 in Hb. destruct (body _) as [a s'|e s'|f]; [| |done]; destruct Hb as (t & Ht & Hq); rewrite Ht.
  - exact (wp_bind (cb_queue _) (λ _, mret a) Q E _ Hq).
  - exact (wp_bind (cb_queue _) (λ _, set_errno e;; h e) Q E _ Hq).
Qed.
End pool_rules.

(** ** Examples: an allocator that never fails, and an empty pool *)

Module ExPool.
Definition max_key {A} (m : gmap positive A) : positive := foldr (λ x, Pos.max x.1) 1%positive (map_to_list m).

Lemma max_key_le {A} (m : gmap positive A) k : is_Some (m !! k) → (k ≤ max_key m)%positive.
Proof.
  intros [a Ha]. apply elem_of_map_to_list in Ha. unfold max_key. induction (map_to_list m) as [|x l IH]; [by apply elem_of_nil in Ha|].
  cbn. apply elem_of_cons in Ha as [<-|Ha]; [cbn; lia|]. specialize (IH Ha). lia.
Qed.

Definition next_oid (p : ppool) : positive :=
  Pos.succ (Pos.max (Pos.max (max_key (pp_inodes p)) (max_key (pp_dirs p))) (Pos.max (max_key (pp_inode_arrays p)) (max_key (pp_chars p)))).

Lemma next_oid_fresh {A} (m : gmap positive A) n : (max_key m < n)%positive → m !! n = None.
Proof. intros Hn. destruct (m !! n) eqn:Hm; [|done]. pose proof (max_key_le m n (mk_is_Some _ _ Hm)). lia. Qed.

#[export] Instance palloc : PoolAlloc := { pool_palloc p _ := Some (next_oid p) }.
#[export] Instance palloc_ok : PoolAllocOk.
Proof. split. intros p _ o [= <-]. unfold next_oid. repeat split; apply next_oid_fresh; lia. Qed.

Definition cred0 : pmemfile_cred := Cred 0 0 0 0 0 0 GroupsNull 0 0.
Definition map0 : hash_map := match hash_map_alloc (λ _, true) (Dram 0 0) with Ok (Some m) _ => m | _ => HashMap 0 0 0 0 0 [] 0 end.
Definition super0 : super := Super 0 None None [None; None; None; None].
Definition pool0 : pool :=
  Pool (PPool ∅ ∅ ∅ ∅ super0) None ∅ map0 [] 1 0 cred0 Unlocked ∅ (Dram 2 2) 0 0.
End ExPool.
