(* ===== verification/InodeArray.v ===== *)
(** Arrays of inodes: inode_array.c.  Deleted files that are still open
    (orphaned inodes) and suspended inodes are registered in a chain of arrays of
    249 slots. *)
From S2P Require Import Prelude Layout Inode Blocks FileState Pool.

Inductive inode_array_lock := INODE_ARRAY_LOCK | INODE_ARRAY_NOLOCK.

Definition is_lock (l : inode_array_lock) : bool := match l with INODE_ARRAY_LOCK => true | _ => false end.

Definition PMEMFILE_INODE_ARRAY_VERSION (a : Z) : Z := Z.lor 0x00414E49 (Z.shiftl (a + 48) 24).

Definition zero_inode_array : inode_array :=
  InodeArray 0 0 None None (replicate NUMINODES_PER_ENTRY None).

(** The first of the slots that is free. *)
Fixpoint first_null (inodes : list (option oid)) (i : nat) : option nat :=
  match inodes with
  | [] => None
  | None :: _ => Some i
  | Some _ :: inodes' => first_null inodes' (S i)
  end.

(** [TX_ADD_DIRECT(&cur->inodes\[i\])] and [TX_ADD_DIRECT(&cur->used)] *)
Definition snap_slot (a : oid) (i : nat) (old cur : ppool) : ppool :=
  match pp_inode_arrays old !! a with
  | Some x => iarray_upd a (λ y, set_ia_inodes (match ia_inodes x !! i with Some v => <[i := v]> (ia_inodes y) | None => ia_inodes y end) y) cur
  | None => cur
  end.
Definition snap_used (a : oid) (old cur : ppool) : ppool :=
  match pp_inode_arrays old !! a with Some x => iarray_upd a (set_ia_used (ia_used x)) cur | None => cur end.

Definition set_slot (a : oid) (i : nat) (v : option oid) : ppool → ppool :=
  iarray_upd a (λ x, set_ia_inodes (<[i := v]> (ia_inodes x)) x).
Definition set_used (a : oid) (f : Z → Z) : ppool → ppool := iarray_upd a (λ x, set_ia_used (u32 (f (ia_used x))) x).

Definition inode_array_add_single (cur tinode : oid) : M pool (option (oid * nat)) :=
  ASSERT_IN_TX;;
  a ← iarray_get cur;
  match first_null (ia_inodes a) 0 with
  | None => mret None
  | Some i =>
      mutex_tx_unlock_on_abort (LArray cur);;
      tx_add (snap_slot cur i);;
      pm_modify (set_slot cur i (Some tinode));;
      tx_add (snap_used cur);;
      pm_modify (set_used cur (λ n, n + 1));;
      mret (Some (cur, i))
  end.

Section inode_array.
Context `{!PoolAlloc}.
Variable cfg : block_cfg.

Definition inode_array_alloc : M pool oid :=
  ASSERT_IN_TX;;
  let info := metadata_block_info cfg in
  array ← tx_xalloc_inode_array (bi_size info) zero_inode_array;
  pm_modify (iarray_upd array (λ a, InodeArray (PMEMFILE_INODE_ARRAY_VERSION 1) (ia_used a) (ia_prev a) (ia_next a) (ia_inodes a)));;
  mret array.

(** One round for one array: the position if the inode was stored, otherwise the
    next array. *)
Definition inode_array_add_round (array tinode : oid) (lk : inode_array_lock) : M pool (oid * nat + oid) :=
  let cur := array in
  (if is_lock lk then lock (LArray cur) WrLocked else mret tt);;
  a ← iarray_get cur;
  found ← (if ia_used a <? Z.of_nat NUMINODES_PER_ENTRY then inode_array_add_single cur tinode else mret None);
  '(next, modified) ←
    match found with
    | Some _ => mret (array, false)
    | None =>
        a ← iarray_get cur;
        match ia_next a with
        | None =>
            mutex_tx_unlock_on_abort (LArray cur);;
            next ← inode_array_alloc;
            pm_modify (iarray_upd cur (set_ia_next (Some next)));;
            pm_modify (iarray_upd next (set_ia_prev (Some array)));;
            mret (next, true)
        | Some next => mret (next, false)
        end
    end;
  (if is_lock lk then
     if bool_decide (is_Some found) || modified then mutex_tx_unlock_on_commit (LArray cur) else unlock (LArray cur)
   else mret tt);;
  mret (match found with Some pos => inl pos | None => inr next end).

Fixpoint inode_array_add_loop (fuel : nat) (array tinode : oid) (lk : inode_array_lock) : M pool (oid * nat) :=
  match fuel with
  | O => fault_ NoFuel
  | S fuel' =>
      r ← inode_array_add_round array tinode lk;
      match r with
      | inl pos => mret pos
      | inr next => inode_array_add_loop fuel' next tinode lk
      end
  end.

(** The chain has at most as many arrays as there are, and one may be added. *)
Definition inode_array_add_ (array tinode : oid) (lk : inode_array_lock) : M pool (oid * nat) :=
  ASSERT_IN_TX;;
  n ← gets (λ s, size (pp_inode_arrays (po_pm s)));
  inode_array_add_loop (S (S n)) array tinode lk.

Definition inode_array_add (array tinode : oid) : M pool (oid * nat) := inode_array_add_ array tinode INODE_ARRAY_LOCK.

Definition inode_array_unregister_ (cur : oid) (idx : nat) (lk : inode_array_lock) : M pool unit :=
  ASSERT_IN_TX;;
  (if is_lock lk then mutex_tx_lock (LArray cur) else mret tt);;
  a ← iarray_get cur;
  assert_ (0 <? ia_used a);;
  tx_add (snap_slot cur idx);;
  (if bool_decide (idx < length (ia_inodes a))%nat then mret tt else fault_ OutOfBounds);;
  pm_modify (set_slot cur idx None);;
  tx_add (snap_used cur);;
  pm_modify (set_used cur (λ n, n - 1));;
  (if is_lock lk then mutex_tx_unlock_on_commit (LArray cur) else mret tt).

Definition inode_array_unregister (cur : oid) (idx : nat) : M pool unit := inode_array_unregister_ cur idx INODE_ARRAY_LOCK.

(** The slots of one array: stops after [used] inodes. *)
Fixpoint traverse_inodes (inode_cb : oid → M pool unit) (inodes : Z) (slots : list (option oid)) : M pool unit :=
  match slots with
  | [] => mret tt
  | x :: slots' =>
      if inodes =? 0 then mret tt
      else
        match x with
        | None => traverse_inodes inode_cb inodes slots'
        | Some i => inode_cb i;; traverse_inodes inode_cb (inodes - 1) slots'
        end
  end.

Fixpoint inode_array_traverse_loop (fuel : nat) (cur : option oid) (inode_cb : oid → M pool unit) : M pool unit :=
  match cur with
  | None => mret tt
  | Some cur =>
      match fuel with
      | O => fault_ NoFuel
      | S fuel' =>
          a ← iarray_get cur;
          traverse_inodes inode_cb (ia_used a) (ia_inodes a);;
          a ← iarray_get cur;
          inode_array_traverse_loop fuel' (ia_next a) inode_cb
      end
  end.

Definition inode_array_traverse (arr : option oid) (inode_cb : oid → M pool unit) : M pool unit :=
  n ← gets (λ s, size (pp_inode_arrays (po_pm s)));
  inode_array_traverse_loop n arr inode_cb.

Fixpoint inode_array_free_loop (fuel : nat) (arr : option oid) : M pool unit :=
  match arr with
  | None => mret tt
  | Some o =>
      match fuel with
      | O => fault_ NoFuel
      | S fuel' =>
          a ← iarray_get o;
          tx_free (λ p, set_pp_inode_arrays (delete o (pp_inode_arrays p)) p);;
          inode_array_free_loop fuel' (ia_next a)
      end
  end.
Definition inode_array_free (arr : option oid) : M pool unit :=
  ASSERT_IN_TX;;
  n ← gets (λ s, size (pp_inode_arrays (po_pm s)));
  inode_array_free_loop n arr.

Fixpoint inode_array_empty_loop (fuel : nat) (arr : option oid) : M pool bool :=
  match arr with
  | None => mret true
  | Some o =>
      match fuel with
      | O => fault_ NoFuel
      | S fuel' =>
          a ← iarray_get o;
          if negb (ia_used a =? 0) then mret false else inode_array_empty_loop fuel' (ia_next a)
      end
  end.
Definition inode_array_empty (arr : option oid) : M pool bool :=
  n ← gets (λ s, size (pp_inode_arrays (po_pm s)));
  inode_array_empty_loop n arr.

Definition inode_array_is_small (arr : oid) : M pool bool :=
  a ← iarray_get arr; mret (bool_decide (ia_next a = None)).
End inode_array.

(** ** Well-formed arrays *)

Definition filled (l : list (option oid)) : nat := length (omap id l).

Record array_wf (a : inode_array) : Prop := {
  aw_length : length (ia_inodes a) = NUMINODES_PER_ENTRY;
  aw_used : ia_used a = Z.of_nat (filled (ia_inodes a));
}.

(** The chain of arrays from an address to the last. *)
Inductive iachain (arrs : gmap oid inode_array) : option oid → list oid → Prop :=
  | iachain_nil : iachain arrs None []
  | iachain_cons o a L : arrs !! o = Some a → array_wf a → o ∉ L → iachain arrs (ia_next a) L → iachain arrs (Some o) (o :: L).

(** The inode registered at a position. *)
Definition slot_at (arrs : gmap oid inode_array) (pos : oid * nat) : option oid :=
  a ← arrs !! pos.1; mjoin (ia_inodes a !! pos.2).

Lemma filled_le l : (filled l ≤ length l)%nat.
Proof. unfold filled. induction l as [|[x|] l IH]; cbn in *; lia. Qed.

Lemma filled_cons x l : filled (x :: l) = ((if x then 1 else 0) + filled l)%nat.
Proof. by destruct x. Qed.

Lemma filled_insert l i v : l !! i = Some None → filled (<[i := Some v]> l) = S (filled l).
Proof.
  revert i. induction l as [|x l IH]; intros [|i] Hi; cbn in Hi; [done|done| |].
  - by simplify_eq.
  - change (<[S i := Some v]> (x :: l)) with (x :: <[i := Some v]> l). rewrite !filled_cons, (IH i Hi). lia.
Qed.

Lemma filled_clear l i v : l !! i = Some (Some v) → filled l = S (filled (<[i := None]> l)).
Proof.
  intros Hi. rewrite <-(filled_insert (<[i := None]> l) i v).
  - by rewrite list_insert_insert_eq, list_insert_id.
  - apply list_lookup_insert_eq. by eapply lookup_lt_Some.
Qed.

Lemma first_null_Some l i k : first_null l i = Some k → ∃ j, k = (i + j)%nat ∧ l !! j = Some None.
Proof.
  revert i. induction l as [|[x|] l IH]; intros i; cbn; [done| |].
  - intros (j & -> & Hj)%IH. exists (S j). split; [lia|done].
  - intros [= <-]. exists 0%nat. split; [lia|done].
Qed.

Lemma first_null_None l i : first_null l i = None → filled l = length l.
Proof. revert i. induction l as [|[x|] l IH]; intros i; [done| |done]. intros H. rewrite filled_cons, (IH _ H). done. Qed.

Lemma iachain_size arrs p L : iachain arrs p L → (length L ≤ size arrs)%nat.
Proof.
  intros H. assert (NoDup L ∧ ∀ o, o ∈ L → is_Some (arrs !! o)) as [Hnd Hin].
  { induction H as [|o a L Ha _ Ho _ [IH1 IH2]]; [split; [constructor|by intros ? ?%elem_of_nil]|].
    split; [by constructor|]. intros o' [->|?]%elem_of_cons; [by eexists|auto]. }
  rewrite <-(length_map_to_list arrs), <-(length_fmap fst (map_to_list arrs)). apply submseteq_length, NoDup_submseteq; [done|].
  intros o Ho. destruct (Hin o Ho) as [a Ha]. apply list_elem_of_fmap. exists (o, a). split; [done|]. by apply elem_of_map_to_list.
Qed.

(** A chain does not see changes elsewhere. *)
Lemma iachain_frame arrs arrs' p L : iachain arrs p L → (∀ o, o ∈ L → arrs' !! o = arrs !! o) → iachain arrs' p L.
Proof.
  induction 1 as [|o a L Ha Hw Ho Hc IH]; intros Hf; [constructor|].
  econstructor; [rewrite Hf; [done|by left]|done|done|]. apply IH. intros o' ?. apply Hf. by right.
Qed.

Lemma iachain_update arrs p L o a a' :
  iachain arrs p L → arrs !! o = Some a → ia_next a' = ia_next a → array_wf a' → iachain (<[o := a']> arrs) p L.
Proof.
  intros Hc Ha Hn Hw. induction Hc as [|o' b L Hb Hwb Ho' Hc IH]; [constructor|].
  destruct (decide (o' = o)) as [->|Hne].
  - simplify_eq. econstructor; [by rewrite lookup_insert_eq|done|done|]. by rewrite Hn.
  - econstructor; [by rewrite lookup_insert_ne|done..].
Qed.

(** ** What registering does *)

(** The inode is at [pos], which was free; nothing else changed, except that a
    full chain has one more array. *)
Record registered (arrs : gmap oid inode_array) (first : oid) (L : list oid) (tinode : oid) (pos : oid * nat)
    (arrs' : gmap oid inode_array) (L' : list oid) : Prop := {
  rg_free : slot_at arrs pos = None;
  rg_slots q : slot_at arrs' q = if decide (q = pos) then Some tinode else slot_at arrs q;
  rg_chain : iachain arrs' (Some first) L';
  rg_in : pos.1 ∈ L';
  rg_frame o : o ∉ L' → arrs' !! o = arrs !! o;
  rg_grow : L' = L ∨ ∃ o, L' = L ++ [o] ∧ arrs !! o = None ∧ pos.1 = o;
}.

(** The arrays that stay locked until the commit. *)
Definition held_arrays (L L' : list oid) (pos : oid * nat) : list lockid :=
  if decide (L' = L) then [LArray pos.1] else match last L with Some o => [LArray o; LArray pos.1] | None => [] end.

Definition lock_all (ls : list lockid) (locks : gmap lockid lock_state) : gmap lockid lock_state :=
  foldl (λ m l, <[l := WrLocked]> m) locks ls.

Section proofs.
Context `{!PoolAlloc} `{!PoolAllocOk}.
Variable cfg : block_cfg.
Implicit Types (s : pool) (pm : ppool) (t : ptx) (arrs : gmap oid inode_array).

Definition set_arrs (arrs : gmap oid inode_array) (pm : ppool) : ppool := set_pp_inode_arrays arrs pm.

(** The array [a] with the inode in slot [i]. *)
Definition with_inode (a : inode_array) (i : nat) (tinode : oid) : inode_array :=
  InodeArray (ia_version a) (ia_used a + 1) (ia_prev a) (ia_next a) (<[i := Some tinode]> (ia_inodes a)).

Lemma with_inode_wf a i tinode : array_wf a → ia_inodes a !! i = Some None → array_wf (with_inode a i tinode).
Proof.
  intros [Hl Hu] Hi. unfold with_inode. split; cbn [ia_inodes ia_used]; [by rewrite length_insert|]. rewrite filled_insert by done. lia.
Qed.

Lemma used_bound a : array_wf a → 0 ≤ ia_used a ≤ 249.
Proof. intros [Hl Hu]. pose proof (filled_le (ia_inodes a)) as Hf. rewrite Hl in Hf. unfold NUMINODES_PER_ENTRY in Hf. lia. Qed.

Lemma set_arrs_insert pm o a f : pp_inode_arrays pm !! o = Some a → iarray_upd o f pm = set_arrs (<[o := f a]> (pp_inode_arrays pm)) pm.
Proof. intros Ha. unfold iarray_upd, set_arrs. f_equal. apply map_eq. intros o'. destruct (decide (o' = o)) as [->|].
  - by rewrite lookup_alter_eq, Ha, lookup_insert_eq.
  - by rewrite lookup_alter_ne, lookup_insert_ne.
Qed.

(** The two undo records of an insertion. *)
Definition add_undo (cur : oid) (i : nat) (pm : ppool) (tinode : oid) : list (ppool → ppool) :=
  [snap_used cur (set_slot cur i (Some tinode) pm); snap_slot cur i pm].

Lemma add_undo_ok cur i pm tinode a :
  pp_inode_arrays pm !! cur = Some a → ia_inodes a !! i = Some None →
  undo_log (add_undo cur i pm tinode) (set_arrs (<[cur := with_inode a i tinode]> (pp_inode_arrays pm)) pm) = pm.
Proof.
  intros Ha Hi. cbn. unfold snap_used, snap_slot. rewrite Ha. unfold set_slot, iarray_upd. cbn.
  rewrite lookup_alter_eq, Ha. cbn. rewrite Hi. destruct pm as [ino dirs arrs ch sup]. cbn in *. unfold set_arrs, set_pp_inode_arrays. cbn.
  f_equal. apply map_eq. intros o. destruct (decide (o = cur)) as [->|].
  - rewrite !lookup_alter_eq, lookup_insert_eq, Ha. cbn. unfold set_ia_inodes, set_ia_used. cbn.
    rewrite list_insert_insert_eq, list_insert_id by done. by destruct a.
  - by rewrite !lookup_alter_ne, lookup_insert_ne.
Qed.

Lemma wp_add_single s pm t locks cur tinode a (Q : option (oid * nat) → pool → Prop) E :
  pp_inode_arrays pm !! cur = Some a → array_wf a → ia_used a < 249 →
  (∀ i, ia_inodes a !! i = Some None →
    Q (Some (cur, i)) (tx_state s (set_arrs (<[cur := with_inode a i tinode]> (pp_inode_arrays pm)) pm)
      (tx_more t (add_undo cur i pm tinode) [] [LArray cur]) locks)) →
  wp (inode_array_add_single cur tinode) Q E (tx_state s pm t locks).
Proof.
  intros Ha Hw Hu HQ. unfold inode_array_add_single. apply wp_bind. eapply wp_ASSERT_IN_TX; [done|].
  apply wp_bind. eapply wp_iarray_get; [done|]. destruct (first_null (ia_inodes a) 0) as [k|] eqn:Hf.
  2:{ apply first_null_None in Hf. destruct Hw as [Hl Hus]. rewrite Hl in Hf. unfold NUMINODES_PER_ENTRY in Hf. lia. }
  apply first_null_Some in Hf as (i & -> & Hi). cbn [Nat.add].
  apply wp_bind, wp_on_abort, wp_bind, wp_tx_add, wp_bind, wp_pm_modify, wp_bind, wp_tx_add, wp_bind, wp_pm_modify, wp_ret.
  rewrite !tx_more_more. specialize (HQ i Hi). cbn [app]. unfold set_used at 1.
  erewrite (set_arrs_insert (set_slot cur i (Some tinode) pm) cur) by (unfold set_slot, iarray_upd; cbn; by rewrite lookup_alter_eq, Ha).
  unfold set_slot at 1 2. rewrite (set_arrs_insert _ _ _ _ Ha). unfold set_arrs in *. cbn in *. rewrite insert_insert_eq. unfold with_inode in HQ.
  pose proof (used_bound a Hw). unfold u32. rewrite Z.mod_small by lia. done.
Qed.
Lemma slot_at_insert arrs o a q : slot_at (<[o := a]> arrs) q = if decide (q.1 = o) then mjoin (ia_inodes a !! q.2) else slot_at arrs q.
Proof.
  unfold slot_at. destruct (decide (q.1 = o)) as [->|]; [by rewrite lookup_insert_eq|by rewrite lookup_insert_ne].
Qed.

Lemma with_inode_slots arrs o a i tinode q : arrs !! o = Some a → ia_inodes a !! i = Some None →
  slot_at (<[o := with_inode a i tinode]> arrs) q = if decide (q = (o, i)) then Some tinode else slot_at arrs q.
Proof.
  intros Ha Hi. rewrite slot_at_insert. destruct q as [o' i']. cbn. destruct (decide (o' = o)) as [->|Hne].
  - destruct (decide (i' = i)) as [->|Hne].
    + rewrite decide_True by done. rewrite list_lookup_insert_eq by (by eapply lookup_lt_Some). done.
    + rewrite decide_False by congruence. rewrite list_lookup_insert_ne by done. unfold slot_at. cbn. by rewrite Ha.
  - by rewrite decide_False by congruence.
Qed.

(** Storing into an array of the chain. *)
Lemma registered_here arrs o a L i tinode :
  iachain arrs (Some o) (o :: L) → arrs !! o = Some a → ia_inodes a !! i = Some None →
  registered arrs o (o :: L) tinode (o, i) (<[o := with_inode a i tinode]> arrs) (o :: L).
Proof.
  intros Hc Ha Hi. split.
  - unfold slot_at. cbn. rewrite Ha. cbn. by rewrite Hi.
  - intros q. by apply with_inode_slots.
  - eapply iachain_update; [done..|]. inv Hc. simplify_eq. by apply with_inode_wf.
  - by left.
  - intros o' Ho'. rewrite lookup_insert_ne; [done|]. intros ->. apply Ho'. by left.
  - by left.
Qed.

(** Storing further down the chain. *)
Lemma registered_there arrs cur a next L tinode pos arrs' L' :
  arrs !! cur = Some a → array_wf a → ia_next a = Some next → cur ∉ L →
  registered arrs next L tinode pos arrs' L' → registered arrs cur (cur :: L) tinode pos arrs' (cur :: L').
Proof.
  intros Ha Hw Hn Hcur [H1 H2 H3 H4 H5 H6].
  assert (cur ∉ L') as Hcur'.
  { destruct H6 as [->|(o & -> & Ho & _)]; [done|]. rewrite elem_of_app, list_elem_of_singleton. intros [?| ->]; [done|congruence]. }
  split; try done.
  - econstructor; [by rewrite H5|done|done|]. by rewrite Hn.
  - by right.
  - intros o Ho. apply H5. intros ?. apply Ho. by right.
  - destruct H6 as [->|(o & -> & Ho)]; [by left|]. right. by exists o.
Qed.

(** An empty array behind the last one of a full chain. *)
Definition new_array (prev : oid) : inode_array :=
  InodeArray (PMEMFILE_INODE_ARRAY_VERSION 1) 0 (Some prev) None (replicate NUMINODES_PER_ENTRY None).

Lemma new_array_wf prev : array_wf (new_array prev).
Proof. split; [by vm_compute|]. by vm_compute. Qed.

Definition grown (arrs : gmap oid inode_array) (cur : oid) (a : inode_array) (o : oid) : gmap oid inode_array :=
  <[o := new_array cur]> (<[cur := set_ia_next (Some o) a]> arrs).

Lemma no_inodes n i : mjoin (replicate n (None : option oid) !! i) = None.
Proof. destruct (replicate n None !! i) as [x|] eqn:Hx; [|done]. by apply lookup_replicate_1 in Hx as [-> _]. Qed.

Lemma grown_slots arrs cur a o q : arrs !! cur = Some a → arrs !! o = None → slot_at (grown arrs cur a o) q = slot_at arrs q.
Proof.
  intros Ha Ho. unfold grown. rewrite !slot_at_insert. destruct q as [o' i]. cbn [fst snd]. destruct (decide (o' = o)) as [->|Hne].
  - unfold slot_at, new_array. cbn [fst snd ia_inodes]. rewrite Ho, no_inodes. done.
  - destruct (decide (o' = cur)) as [->|]; [|done]. unfold slot_at. cbn. by rewrite Ha.
Qed.

Lemma registered_new arrs cur a o i tinode :
  arrs !! cur = Some a → array_wf a → ia_next a = None → arrs !! o = None → ia_inodes (new_array cur) !! i = Some None →
  registered arrs cur [cur] tinode (o, i) (<[o := with_inode (new_array cur) i tinode]> (grown arrs cur a o)) [cur; o].
Proof.
  intros Ha Hw Hn Ho Hi. assert (cur ≠ o) as Hne by (intros ->; congruence).
  assert (grown arrs cur a o !! o = Some (new_array cur)) as Hg by (unfold grown; by rewrite lookup_insert_eq).
  split.
  - unfold slot_at. cbn. by rewrite Ho.
  - intros q. rewrite with_inode_slots by done. by rewrite grown_slots.
  - econstructor; [rewrite lookup_insert_ne by done; unfold grown; by rewrite lookup_insert_ne, lookup_insert_eq|by destruct Hw| |].
    + by apply not_elem_of_cons; split; [|apply not_elem_of_nil].
    + cbn. econstructor; [by rewrite lookup_insert_eq|apply with_inode_wf; [apply new_array_wf|done]|apply not_elem_of_nil|constructor].
  - cbn. set_solver.
  - intros o' Ho'. unfold grown. rewrite !lookup_insert_ne by set_solver. done.
  - right. by exists o.
Qed.

Notation add_round cur tinode := (inode_array_add_round cfg cur tinode INODE_ARRAY_LOCK).

Lemma wp_round_found s pm t locks cur tinode a (Q : oid * nat + oid → pool → Prop) E :
  pp_inode_arrays pm !! cur = Some a → array_wf a → ia_used a < 249 → locks !! LArray cur = None →
  (∀ i, ia_inodes a !! i = Some None →
    Q (inl (cur, i)) (tx_state s (set_arrs (<[cur := with_inode a i tinode]> (pp_inode_arrays pm)) pm)
      (tx_more t (add_undo cur i pm tinode) [LArray cur] [LArray cur]) (<[LArray cur := WrLocked]> locks))) →
  wp (add_round cur tinode) Q E (tx_state s pm t locks).
Proof.
  intros Ha Hw Hu Hl HQ. unfold inode_array_add_round. cbn [is_lock]. apply wp_bind, wp_lock_tx; [done|].
  apply wp_bind. eapply wp_iarray_get; [done|]. rewrite (proj2 (Z.ltb_lt _ _)) by (unfold NUMINODES_PER_ENTRY; lia).
  apply wp_bind. eapply wp_add_single; [done..|]. intros i Hi. apply wp_bind, wp_ret.
  rewrite bool_decide_true by (by eexists). cbn [orb]. apply wp_bind, wp_on_commit, wp_ret. rewrite tx_more_more. by apply HQ.
Qed.

Lemma wp_round_skip s pm t locks cur tinode a next (Q : oid * nat + oid → pool → Prop) E :
  pp_inode_arrays pm !! cur = Some a → ia_used a = 249 → ia_next a = Some next → locks !! LArray cur = None →
  Q (inr next) (tx_state s pm t locks) → wp (add_round cur tinode) Q E (tx_state s pm t locks).
Proof.
  intros Ha Hu Hn Hl HQ. unfold inode_array_add_round. cbn [is_lock]. apply wp_bind, wp_lock_tx; [done|].
  apply wp_bind. eapply wp_iarray_get; [done|]. rewrite Hu. cbn [Z.ltb]. apply wp_bind, wp_ret, wp_bind, wp_bind.
  eapply wp_iarray_get; [done|]. rewrite Hn. apply wp_ret. apply wp_bind, wp_unlock_tx; [by rewrite lookup_insert_eq|].
  apply wp_ret. by rewrite delete_insert_id.
Qed.

Lemma wp_round_grow s pm t locks cur tinode a (Q : oid * nat + oid → pool → Prop) (E : Z → pool → Prop) :
  pp_inode_arrays pm !! cur = Some a → ia_used a = 249 → ia_next a = None → locks !! LArray cur = None →
  E ENOMEM (tx_state s pm (tx_more t [] [] [LArray cur]) (<[LArray cur := WrLocked]> locks)) →
  (∀ o us, pp_inode_arrays pm !! o = None →
    Q (inr o) (tx_state s (set_arrs (grown (pp_inode_arrays pm) cur a o) pm)
      (tx_more t us [LArray cur] [LArray cur]) (<[LArray cur := WrLocked]> locks))) →
  wp (add_round cur tinode) Q E (tx_state s pm t locks).
Proof.
  intros Ha Hu Hn Hl HE HQ. unfold inode_array_add_round. cbn [is_lock]. apply wp_bind, wp_lock_tx; [done|].
  apply wp_bind. eapply wp_iarray_get; [done|]. rewrite Hu. cbn [Z.ltb]. apply wp_bind, wp_ret, wp_bind, wp_bind.
  eapply wp_iarray_get; [done|]. rewrite Hn. apply wp_bind, wp_on_abort, wp_bind. unfold inode_array_alloc.
  apply wp_bind. eapply wp_ASSERT_IN_TX; [done|]. apply wp_bind, wp_tx_xalloc; [done|].
  intros o Ho. destruct (pool_palloc_fresh _ _ _ Ho) as (_ & _ & Hfr & _).
  apply wp_bind, wp_pm_modify, wp_ret, wp_bind, wp_pm_modify, wp_bind, wp_pm_modify, wp_ret.
  cbn [bool_decide orb is_Some_dec]. apply wp_bind, wp_on_commit, wp_ret. rewrite !tx_more_more. cbn [app].
  match goal with |- Q _ (tx_state _ ?p _ _) => replace p with (set_arrs (grown (pp_inode_arrays pm) cur a o) pm); [by apply HQ|] end.
  symmetry. assert (cur ≠ o) as Hne by (intros ->; congruence). unfold iarray_upd, set_arrs, set_pp_inode_arrays. cbn. f_equal.
  apply map_eq. intros x. unfold grown. destruct (decide (x = o)) as [->|].
  - rewrite lookup_alter_eq, lookup_alter_ne by done. rewrite lookup_alter_eq, !lookup_insert_eq. done.
  - rewrite lookup_alter_ne, lookup_insert_ne by done. destruct (decide (x = cur)) as [->|].
    + rewrite lookup_alter_eq, lookup_insert_eq, lookup_alter_ne, lookup_insert_ne by done. by rewrite Ha.
    + by rewrite !lookup_alter_ne, !lookup_insert_ne.
Qed.

Lemma held_cons cur L L' pos : L ≠ [] → held_arrays (cur :: L) (cur :: L') pos = held_arrays L L' pos.
Proof.
  intros HL. unfold held_arrays. destruct L as [|x L]; [done|]. rewrite last_cons_cons.
  destruct (decide (L' = x :: L)) as [->|Hne]; [by rewrite !decide_True|]. by rewrite !decide_False by congruence.
Qed.

Lemma wp_add_loop s pm t locks array tinode L fuel (Q : oid * nat → pool → Prop) (E : Z → pool → Prop) :
  iachain (pp_inode_arrays pm) (Some array) L → (length L < fuel)%nat →
  (∀ o, o ∈ L ∨ pp_inode_arrays pm !! o = None → locks !! LArray o = None) →
  (∀ o, E ENOMEM (tx_state s pm (tx_more t [] [] [LArray o]) (<[LArray o := WrLocked]> locks))) →
  (∀ pos arrs' L' us bwd, registered (pp_inode_arrays pm) array L tinode pos arrs' L' →
    (L' = L → undo_log us (set_arrs arrs' pm) = pm) →
    Q pos (tx_state s (set_arrs arrs' pm) (tx_more t us (held_arrays L L' pos) bwd) (lock_all (held_arrays L L' pos) locks))) →
  wp (inode_array_add_loop cfg fuel array tinode INODE_ARRAY_LOCK) Q E (tx_state s pm t locks).
Proof.
  revert array fuel Q. induction L as [|o L IH]; intros array fuel Q Hc Hf Hl HE HQ; [inv Hc|].
  inversion Hc as [|o' a L0 Ha Hw Ho Hc' Heq1 Heq2]; subst. destruct fuel as [|fuel]; [cbn in Hf; lia|]. cbn [inode_array_add_loop].
  assert (locks !! LArray o = None) as Hlo by (apply Hl; left; by left).
  pose proof (used_bound a Hw) as Hu. apply wp_bind. destruct (decide (ia_used a < 249)) as [Hlt|Hge].
  { eapply wp_round_found; [done..|]. intros i Hi. apply wp_ret.
    assert (held_arrays (o :: L) (o :: L) (o, i) = [LArray o]) as Hh by (unfold held_arrays; by rewrite decide_True).
    pose proof (HQ (o, i) _ (o :: L) (add_undo o i pm tinode) [LArray o] (registered_here _ _ _ _ _ tinode Hc Ha Hi)) as HQ'.
    rewrite Hh in HQ'. apply HQ'. intros _. by apply add_undo_ok. }
  assert (ia_used a = 249) as Hu' by lia. destruct (ia_next a) as [next|] eqn:Hn.
  - eapply wp_round_skip; [done..|]. cbn in Hf. apply (IH next); [done|lia| |done|].
    + intros x [?|?]; apply Hl; [left; by right|by right].
    + intros pos arrs' L' us bwd Hr Hund. assert (L ≠ []) as HL by (intros ->; inv Hc').
      rewrite <-(held_cons o) by done. apply HQ; [by eapply registered_there|]. intros [= ->]. by apply Hund.
  - inv Hc'. eapply wp_round_grow; [done..|by apply HE|]. intros n us Ho'. cbn in Hf. destruct fuel as [|fuel]; [lia|]. cbn [inode_array_add_loop].
    assert (o ≠ n) as Hne by (intros ->; congruence). apply wp_bind.
    eapply wp_round_found; [unfold set_arrs, grown; cbn; by rewrite lookup_insert_eq|apply new_array_wf|done| |].
    { rewrite lookup_insert_ne by congruence. apply Hl. by right. }
    intros i Hi. apply wp_ret. rewrite tx_more_more. cbn [app]. unfold set_arrs. cbn [pp_inode_arrays set_pp_inode_arrays].
    pose proof (HQ (n, i) _ [o; n] (add_undo n i (set_arrs (grown (pp_inode_arrays pm) o a n) pm) tinode ++ us)
      [LArray o; LArray n] (registered_new _ _ _ _ _ tinode Ha Hw Hn Ho' Hi) ltac:(done)) as HQ'.
    unfold held_arrays in HQ'. rewrite decide_False in HQ' by done. exact HQ'.
Qed.

Lemma wp_inode_array_add s pm t locks array tinode L (Q : oid * nat → pool → Prop) (E : Z → pool → Prop) :
  iachain (pp_inode_arrays pm) (Some array) L →
  (∀ o, o ∈ L ∨ pp_inode_arrays pm !! o = None → locks !! LArray o = None) →
  (∀ o, E ENOMEM (tx_state s pm (tx_more t [] [] [LArray o]) (<[LArray o := WrLocked]> locks))) →
  (∀ pos arrs' L' us bwd, registered (pp_inode_arrays pm) array L tinode pos arrs' L' →
    (L' = L → undo_log us (set_arrs arrs' pm) = pm) →
    Q pos (tx_state s (set_arrs arrs' pm) (tx_more t us (held_arrays L L' pos) bwd) (lock_all (held_arrays L L' pos) locks))) →
  wp (inode_array_add cfg array tinode) Q E (tx_state s pm t locks).
Proof.
  intros Hc Hl HE HQ. unfold inode_array_add, inode_array_add_. apply wp_bind. eapply wp_ASSERT_IN_TX; [done|].
  apply wp_bind, wp_gets. eapply wp_add_loop; try done. cbn. pose proof (iachain_size _ _ _ Hc). lia.
Qed.

(** The array [a] without the inode in slot [i]. *)
Definition without_inode (a : inode_array) (i : nat) : inode_array :=
  InodeArray (ia_version a) (ia_used a - 1) (ia_prev a) (ia_next a) (<[i := None]> (ia_inodes a)).

Lemma without_inode_wf a i v : array_wf a → ia_inodes a !! i = Some (Some v) → array_wf (without_inode a i).
Proof.
  intros [Hl Hu] Hi. unfold without_inode. split; cbn [ia_inodes ia_used]; [by rewrite length_insert|].
  rewrite (filled_clear _ _ _ Hi) in Hu. lia.
Qed.

Lemma wp_inode_array_unregister s pm t locks cur idx a v (Q : unit → pool → Prop) E :
  pp_inode_arrays pm !! cur = Some a → array_wf a → ia_inodes a !! idx = Some (Some v) → locks !! LArray cur = None →
  (∀ us, undo_log us (set_arrs (<[cur := without_inode a idx]> (pp_inode_arrays pm)) pm) = pm →
    Q tt (tx_state s (set_arrs (<[cur := without_inode a idx]> (pp_inode_arrays pm)) pm)
      (tx_more t us [LArray cur] [LArray cur]) (<[LArray cur := WrLocked]> locks))) →
  wp (inode_array_unregister cur idx) Q E (tx_state s pm t locks).
Proof.
  intros Ha Hw Hi Hl HQ. unfold inode_array_unregister, inode_array_unregister_. cbn [is_lock].
  apply wp_bind. eapply wp_ASSERT_IN_TX; [done|]. apply wp_bind, wp_mutex_tx_lock; [done|].
  apply wp_bind. eapply wp_iarray_get; [done|]. pose proof (filled_clear _ _ _ Hi) as Hf. pose proof (used_bound a Hw) as Hb.
  pose proof (aw_used _ Hw) as Hu. apply wp_bind, wp_assert; [apply Z.ltb_lt; lia|].
  apply wp_bind, wp_tx_add. rewrite bool_decide_true by (by eapply lookup_lt_Some).
  apply wp_bind, wp_ret, wp_bind, wp_pm_modify, wp_bind, wp_tx_add, wp_bind, wp_pm_modify, wp_on_commit.
  rewrite !tx_more_more. cbn [app]. unfold set_used at 1, set_slot at 1.
  erewrite (set_arrs_insert (iarray_upd cur _ pm) cur) by (unfold iarray_upd; cbn; by rewrite lookup_alter_eq, Ha).
  rewrite (set_arrs_insert _ _ _ _ Ha). unfold set_arrs in *. cbn in *. rewrite insert_insert_eq.
  unfold u32. rewrite Z.mod_small by lia. apply (HQ _). cbn. unfold snap_used, snap_slot, set_slot, iarray_upd. cbn.
  rewrite lookup_alter_eq, Ha. cbn. rewrite Hi. destruct pm as [ino dirs arrs ch sup]. cbn in *. unfold set_pp_inode_arrays. cbn.
  f_equal. apply map_eq. intros o. destruct (decide (o = cur)) as [->|].
  - rewrite !lookup_alter_eq, lookup_insert_eq, Ha. cbn. unfold set_ia_inodes, set_ia_used. cbn.
    rewrite list_insert_insert_eq, list_insert_id by done. by destruct a.
  - by rewrite !lookup_alter_ne, lookup_insert_ne.
Qed.

Lemma unlock_lock_all ls locks : NoDup ls → (∀ l, l ∈ ls → locks !! l = None) → unlock_all ls (lock_all ls locks) = locks.
Proof.
  revert locks. induction ls as [|l ls IH]; intros locks Hnd Hn; [done|]. apply NoDup_cons in Hnd as [Hl Hnd]. cbn.
  assert (∀ ls m, l ∉ ls → delete l (lock_all ls (<[l := WrLocked]> m)) = lock_all ls (delete l m)) as Hd.
  { clear. unfold lock_all. intros ls. induction ls as [|x ls IH]; intros m Hl; cbn [foldl]; [by rewrite delete_insert_eq|].
    apply not_elem_of_cons in Hl as [Hx Hl]. rewrite insert_insert_ne by done. rewrite IH by done. by rewrite delete_insert_ne. }
  change (unlock_all ls (delete l (lock_all ls (<[l := WrLocked]> locks))) = locks). rewrite Hd by done.
  rewrite delete_id by (apply Hn; by left). apply IH; [done|]. intros x ?. apply Hn. by right.
Qed.

Lemma lock_all_held ls locks l : l ∈ ls → is_Some (lock_all ls locks !! l).
Proof.
  assert (∀ ls m, is_Some (m !! l) → is_Some (lock_all ls m !! l)) as Hk.
  { clear. unfold lock_all. intros ls. induction ls as [|x ls IH]; intros m Hm; cbn [foldl]; [done|]. apply IH.
    destruct (decide (x = l)) as [->|]; [by rewrite lookup_insert_eq|by rewrite lookup_insert_ne]. }
  revert locks. induction ls as [|x ls IH]; intros locks Hin; [by apply elem_of_nil in Hin|]. cbn.
  apply elem_of_cons in Hin as [->|Hin]; [|by apply IH]. apply Hk. by rewrite lookup_insert_eq.
Qed.

(** The callbacks of a commit release what was locked. *)
Lemma wp_cb_queue_commit ls locks (Q : unit → pool → Prop) E s :
  NoDup ls → (∀ l, l ∈ ls → locks !! l = None) → po_locks s = lock_all ls locks →
  Q tt (set_po_locks locks s) → wp (cb_queue (Callbacks ls [])) Q E s.
Proof.
  intros Hnd Hn Hl HQ. unfold cb_queue. cbn [cb_backward cb_forward]. apply wp_bind. rewrite reverse_nil. apply wp_ret.
  apply wp_run_unlocks; [done| |]; rewrite Hl; [by intros; apply lock_all_held|]. by rewrite unlock_lock_all.
Qed.

Lemma registered_held arrs first L tinode pos arrs' L' : L ≠ [] →
  registered arrs first L tinode pos arrs' L' → iachain arrs (Some first) L →
  NoDup (held_arrays L L' pos) ∧ (∀ l, l ∈ held_arrays L L' pos → ∃ o, l = LArray o ∧ (o ∈ L ∨ arrs !! o = None)).
Proof.
  intros HL [_ _ _ Hin _ Hg] Hc. unfold held_arrays. destruct (decide (L' = L)) as [->|Hne].
  - split; [apply NoDup_singleton|]. intros l ->%list_elem_of_singleton. eauto.
  - destruct Hg as [?|(o & -> & Ho & <-)]; [done|]. destruct (last L) as [x|] eqn:Hx; [|by apply last_None in Hx].
    assert (x ∈ L) as HxL by (apply last_Some in Hx as [l' ->]; set_solver).
    assert (is_Some (arrs !! x)) as [a Ha].
    { clear -Hc HxL. induction Hc as [|o a L Ha _ _ _ IH]; [by apply elem_of_nil in HxL|].
      apply elem_of_cons in HxL as [->|?]; [by eexists|auto]. }
    split; [apply NoDup_cons; split; [|apply NoDup_singleton]; intros [= ->]%list_elem_of_singleton; congruence|].
    intros l [->|[->|?%elem_of_nil]%elem_of_cons]%elem_of_cons; eauto; done.
Qed.

(** A transaction that registers an inode. *)
Definition register_tx (array tinode : oid) : M pool (option (oid * nat)) :=
  tx_begin_cb (pos ← inode_array_add cfg array tinode; mret (Some pos)) (λ _, mret None).

Lemma wp_register_tx s array tinode L :
  po_tx s = None → iachain (pp_inode_arrays (po_pm s)) (Some array) L → (∀ o, po_locks s !! LArray o = None) →
  wp (register_tx array tinode)
    (λ r s', match r with
             | Some pos => ∃ arrs' L', registered (pp_inode_arrays (po_pm s)) array L tinode pos arrs' L' ∧
                 s' = set_po_pm (set_arrs arrs' (po_pm s)) s
             | None => s' = set_po_errno ENOMEM s
             end) noabort s.
Proof.
  intros Htx Hc Hl. unfold register_tx. apply wp_tx_begin_cb; [done|]. apply wp_bind.
  eapply wp_inode_array_add; [done|by intros o _; apply Hl| |].
  - intros o. eexists. split; [done|]. cbn [tx_more pt_onabort pt_log tx_empty app undo_log tx_state po_pm set_po_locks set_po_tx set_po_pm].
    unfold cb_queue. cbn [cb_backward cb_forward]. apply wp_bind. apply wp_run_unlocks; [apply NoDup_singleton| |].
    { intros l ->%list_elem_of_singleton. cbn. by rewrite lookup_insert_eq. }
    apply wp_ret, wp_ret. destruct s. cbn in *. subst. unfold set_po_errno, set_po_locks, set_po_tx, set_po_pm. cbn.
    by rewrite delete_insert_id.
  - intros pos arrs' L' us bwd Hr _. apply wp_ret. eexists. split; [done|].
    assert (L ≠ []) as HL by (intros ->; inv Hc). destruct (registered_held _ _ _ _ _ _ _ HL Hr Hc) as [Hnd Hh].
    eapply (wp_cb_queue_commit _ (po_locks s)); [done| |done|].
    { intros l Hin. destruct (Hh l Hin) as (o & -> & _). apply Hl. }
    exists arrs', L'. split; [done|]. destruct s. cbn in *. by subst.
Qed.
End proofs.

(** ** Main results *)


(** ** Examples *)

Module ExArray.
Definition full : inode_array := InodeArray (PMEMFILE_INODE_ARRAY_VERSION 1) 249 None None (replicate 249 (Some 7%positive)).
Definition empty : inode_array := InodeArray (PMEMFILE_INODE_ARRAY_VERSION 1) 0 None None (replicate 249 None).
Definition with_array (a : inode_array) : pool :=
  set_po_pm (set_pp_inode_arrays {[1%positive := a]} (po_pm ExPool.pool0)) ExPool.pool0.

Lemma chain a : array_wf a → ia_next a = None → iachain (pp_inode_arrays (po_pm (with_array a))) (Some 1%positive) [1%positive].
Proof.
  intros Hw Hn. econstructor; [cbn; apply lookup_singleton_eq|done|apply not_elem_of_nil|]. rewrite Hn. constructor.
Qed.

(** A transaction that registers an inode and is aborted later. *)
Definition register_and_abort : M pool unit :=
  tx_begin_cb (@inode_array_add ExPool.palloc default_cfg 1%positive 9%positive;; tx_abort ENOMEM) (λ _, mret tt).
End ExArray.



(** Without locking (as [vinode_suspend] calls it) an abort still runs the
    callback that releases the mutex of the array, which is not held. *)
Lemma inode_array_nolock_abort :
  tx_begin_cb (@inode_array_add_ ExPool.palloc default_cfg 1%positive 9%positive INODE_ARRAY_NOLOCK;; tx_abort ENOMEM) (λ _, mret tt)
    (ExArray.with_array ExArray.empty) = Fault AssertFail.
Proof. vm_compute. reflexivity. Qed.
