(* ===== verification/Vinode.v ===== *)
(** Volatile inodes and the life of persistent ones: inode.c.  A volatile inode
    exists while it is referenced; when the last reference to a file without
    links goes away, the file is freed. *)
From stdpp Require Import sorting.
From S2P Require Import Prelude Layout Inode Blocks FileState BlockArray HashMap Creds CString Pool InodeArray.

Definition PMEMFILE_INODE_VERSION (a : Z) : Z := Z.lor 0x00444E49 (Z.shiftl (a + 48) 24).
Definition PMEMFILE_DIR_VERSION (a : Z) : Z := Z.lor 0x00524944 (Z.shiftl (a + 48) 24).
Definition SIZEOF_DIR : Z := 24.
Definition SIZEOF_DIRENT : Z := 272.
Definition PMEMFILE_IN_INODE_STORAGE : Z := SIZEOF_DIR + 2 * SIZEOF_DIRENT + 8.

Definition NAME_BUFFER : nat := S PMEMFILE_MAX_FILE_NAME.
Definition zero_dirent : dirent := Dirent None (replicate NAME_BUFFER NUL).
Definition zero_time : pmemfile_time := Time 0 0.
Definition zero2 {A} (x : A) : slot2 A := Slot2 x x.
Definition zero_vinode : vinode := Vinode None None None 0 (None, None).

Definition set_vn_ref x (v : vnode) := Vnode x (vn_tinode v) (vn_parent v) (vn_orphaned v) (vn_suspended v) (vn_atime v) (vn_atime_dirty v) (vn_file v).
Definition set_vn_parent x (v : vnode) := Vnode (vn_ref v) (vn_tinode v) x (vn_orphaned v) (vn_suspended v) (vn_atime v) (vn_atime_dirty v) (vn_file v).
Definition set_vn_orphaned x (v : vnode) := Vnode (vn_ref v) (vn_tinode v) (vn_parent v) x (vn_suspended v) (vn_atime v) (vn_atime_dirty v) (vn_file v).

(** ** inode.h *)

Definition vinode_is_dir (v : positive) : M pool bool := i ← vinode_inode v; mret (inode_is_dir i).
Definition vinode_is_regular_file (v : positive) : M pool bool := i ← vinode_inode v; mret (inode_is_regular_file i).
Definition vinode_is_symlink (v : positive) : M pool bool := i ← vinode_inode v; mret (inode_is_symlink i).
Definition vinode_is_root (v : positive) : M pool bool :=
  d ← vinode_is_dir v; x ← vnode_get v; mret (d && bool_decide (vn_parent x = Some v)).

(** [_vinode_get_perms] and [vinode_get_perms] (creds.h) *)
Definition vinode_get_perms_locked (v : positive) : M pool inode_perms :=
  i ← vinode_inode v; mret (Perms (inode_get_flags i) (i_uid i) (i_gid i)).
Definition vinode_get_perms (v : positive) : M pool inode_perms :=
  lock (LVinode v) RdLocked;; p ← vinode_get_perms_locked v; unlock (LVinode v);; mret p.
Definition vinode_can_access_locked (cred : pmemfile_cred) (v : positive) (acc : Z) : M pool bool :=
  p ← vinode_get_perms_locked v; mret (can_access cred p acc).
Definition vinode_can_access (cred : pmemfile_cred) (v : positive) (acc : Z) : M pool bool :=
  p ← vinode_get_perms v; mret (can_access cred p acc).

(** ** Locking two or four inodes in the order of their addresses *)

Definition vinode_lock2 (m : lock_state) (v1 v2 : positive) : M pool unit :=
  if decide (v1 = v2) then lock (LVinode v2) m
  else if (v1 <? v2)%positive then lock (LVinode v1) m;; lock (LVinode v2) m
  else lock (LVinode v2) m;; lock (LVinode v1) m.
Definition vinode_rdlock2 : positive → positive → M pool unit := vinode_lock2 RdLocked.
Definition vinode_wrlock2 : positive → positive → M pool unit := vinode_lock2 WrLocked.
Definition vinode_unlock2 (v1 v2 : positive) : M pool unit :=
  if decide (v1 = v2) then unlock (LVinode v1) else unlock (LVinode v1);; unlock (LVinode v2).

Definition vinode_in_array (v : positive) (arr : list positive) : bool := existsb (Pos.eqb v) arr.
Definition add_vinode (v : option positive) (arr : list positive) : list positive :=
  match v with Some v => if vinode_in_array v arr then arr else arr ++ [v] | None => arr end.

(** [qsort] with [vinode_cmp] *)
Definition sort_vinodes (vs : list positive) : list positive := merge_sort Pos.le vs.
Fixpoint ascending (vs : list positive) : bool :=
  match vs with
  | v1 :: (v2 :: _) as vs' => (v1 <? v2)%positive && ascending vs'
  | _ => true
  end.
Fixpoint wrlock_all (vs : list positive) : M pool unit :=
  match vs with [] => mret tt | v :: vs' => lock (LVinode v) WrLocked;; wrlock_all vs' end.

(** The result is the NULL-terminated array [v]. *)
Definition vinode_wrlockN (v1 : positive) (v2 v3 v4 : option positive) : M pool (list positive) :=
  let vs := sort_vinodes (add_vinode v4 (add_vinode v3 (add_vinode v2 [v1]))) in
  assert_ (ascending vs);;
  wrlock_all vs;;
  mret vs.
Fixpoint vinode_unlockN (vs : list positive) : M pool unit :=
  match vs with [] => mret tt | v :: vs' => unlock (LVinode v);; vinode_unlockN vs' end.

(** ** References *)

Definition vinode_ref (v : option positive) : M pool positive :=
  v ← nonnull v;
  vnode_modify v (λ x, set_vn_ref (u32 (vn_ref x + 1)) x);;
  mret v.

Section vinode.
Context `{!PoolAlloc}.
Variables (cfg : block_cfg) (calloc_ok : nat → bool).
(** [get_current_time], and the variable PMEMFILE_IGNORE_INODE_FREE_ERRORS. *)
Variables (clock : nat → pmemfile_time) (ignore_free_errors : bool).

Definition current_time : M pool pmemfile_time :=
  n ← gets po_ticks; modify (set_po_ticks (S n));; mret (clock n).

Definition map_get (key : Z) : M pool (option positive) :=
  m ← gets po_inode_map; zoom po_dram set_po_dram (hash_map_get m key).
Definition map_put (key : Z) (value : positive) : M pool (option positive) :=
  m ← gets po_inode_map;
  '(r, e, m) ← zoom po_dram set_po_dram (hash_map_put calloc_ok m key value);
  modify (set_po_inode_map m);;
  (if negb (e =? 0) then set_errno e else mret tt);;
  mret r.
Definition map_remove (key : Z) (value : positive) : M pool Z :=
  m ← gets po_inode_map;
  '(r, m) ← zoom po_dram set_po_dram (hash_map_remove m key value);
  modify (set_po_inode_map m);;
  mret r.

(** The initialisation of a new volatile inode. *)
Definition vinode_init (v tinode : oid) (parent : option positive) : M pool unit :=
  i ← inode_get tinode;
  modify (λ s, set_po_vnodes (<[v := Vnode 0 tinode None None None (inode_get_atime i) false zero_vinode]> (po_vnodes s)) s);;
  match parent with
  | Some p => if inode_is_dir i then p ← vinode_ref (Some p); vnode_modify v (set_vn_parent (Some p)) else mret tt
  | None => mret tt
  end.

(** [inode_ref]; the debug path of a vinode is not modelled. *)
Definition inode_ref (inode : option oid) (parent : option positive) : M pool (option positive) :=
  ASSERT_NOT_IN_TX;;
  inode ← nonnull inode;
  i ← inode_get inode;
  if negb (i_version i =? PMEMFILE_INODE_VERSION 2) then set_errno EINVAL;; mret None
  else
    lock LInodeMap RdLocked;;
    found ← map_get (Zpos inode);
    match found with
    | Some v => v ← vinode_ref (Some v); unlock LInodeMap;; mret (Some v)
    | None =>
        unlock LInodeMap;;
        new ← pool_calloc calloc_ok;
        match new with
        | None => mret None
        | Some new =>
            lock LInodeMap WrLocked;;
            put ← map_put (Zpos inode) new;
            (if decide (put = Some new) then vinode_init new inode parent else pool_free);;
            v ← vinode_ref put;
            unlock LInodeMap;;
            mret (Some v)
        end
    end.

(** ** Freeing a file *)

Definition blocks_upd (i : oid) (f : gmap aid block_array → gmap oid bytes → gmap aid block_array * gmap oid bytes)
    (p : ppool) : ppool :=
  set_pp_inodes (alter (λ x, match mi_data x with
                             | DataBlocks a d => let '(a, d) := f a d in set_mi_data (DataBlocks a d) x
                             | _ => x end) i (pp_inodes p)) p.

(** [POBJ_FREE] of the data of every block of an array. *)
Definition trim_array (a : aid) (arr : block_array) (arrays : gmap aid block_array) (data : gmap oid bytes) :=
  (<[a := set_ba_blocks (set_bd_data None <$> ba_blocks arr) arr]> arrays,
   foldr (λ d m, match bd_data d with Some o => delete o m | None => m end) data (take (ba_length arr) (ba_blocks arr))).

Fixpoint inode_trim_reg_file (fuel : nat) (i : oid) (a : option aid) : M pool unit :=
  match a with
  | None => mret tt
  | Some a =>
      match fuel with
      | O => fault_ NoFuel
      | S fuel' =>
          x ← minode_get i;
          match mi_data x with
          | DataBlocks arrays data =>
              arr ← of_option BadPointer (arrays !! a);
              pm_modify (blocks_upd i (trim_array a arr));;
              inode_trim_reg_file fuel' i (Some <$> ba_next arr)
          | _ => fault_ BadPointer
          end
      end
  end.

Definition inode_trim (tinode : oid) : M pool unit :=
  ASSERT_NOT_IN_TX;;
  x ← minode_get tinode;
  if inode_is_regular_file (mi_inode x) then
    match mi_data x with
    | DataBlocks arrays _ => inode_trim_reg_file (size arrays) tinode (Some None)
    | _ => fault_ BadPointer
    end
  else mret tt.

(** The entries of one part of a directory must be free. *)
Definition no_entries (d : dir) : bool := forallb (λ e, bool_decide (de_inode e = None)) (take (d_num_elements d) (d_dirents d)).

Fixpoint inode_free_dir (fuel : nat) (d : option dirp) : M pool unit :=
  match d with
  | None => mret tt
  | Some d =>
      match fuel with
      | O => fault_ NoFuel
      | S fuel' =>
          x ← dir_get d;
          assert_ (no_entries x);;
          match d with
          | DirObj o => tx_free (λ p, set_pp_dirs (delete o (pp_dirs p)) p)
          | InInode _ => mret tt
          end;;
          inode_free_dir fuel' (DirObj <$> d_next x)
      end
  end.

(** [TX_FREE] of the data of every block and of the arrays behind the first. *)
Fixpoint inode_free_reg_file (fuel : nat) (i : oid) (a : option aid) : M pool unit :=
  match a with
  | None => mret tt
  | Some a =>
      match fuel with
      | O => fault_ NoFuel
      | S fuel' =>
          x ← minode_get i;
          match mi_data x with
          | DataBlocks arrays data =>
              arr ← of_option BadPointer (arrays !! a);
              tx_free (blocks_upd i (λ arrays data,
                (arrays, foldr (λ d m, match bd_data d with Some o => delete o m | None => m end) data (take (ba_length arr) (ba_blocks arr)))));;
              match a with Some _ => tx_free (blocks_upd i (λ arrays data, (delete a arrays, data))) | None => mret tt end;;
              inode_free_reg_file fuel' i (Some <$> ba_next arr)
          | _ => fault_ BadPointer
          end
      end
  end.

(** [inode_free_symlink]: nothing to be done. *)
Definition inode_free (tinode : oid) : M pool unit :=
  ASSERT_IN_TX;;
  x ← minode_get tinode;
  n ← gets (λ s, size (pp_dirs (po_pm s)));
  (if inode_is_dir (mi_inode x) then inode_free_dir (S n) (Some (InInode tinode))
   else if inode_is_regular_file (mi_inode x) then
     match mi_data x with
     | DataBlocks arrays _ => inode_free_reg_file (size arrays) tinode (Some None)
     | _ => fault_ BadPointer
     end
   else if inode_is_symlink (mi_inode x) then mret tt
   else fault_ AssertFail);;
  tx_free (λ p, set_pp_inodes (delete tinode (pp_inodes p)) p).

Definition vinode_free_pmem (v : positive) : M pool unit :=
  x ← vnode_get v;
  inode_trim (vn_tinode x);;
  tx_begin_cb
    ('(arr, idx) ← nonnull (vn_orphaned x);
     inode_array_unregister arr idx;;
     inode_free (vn_tinode x))
    (λ _, if ignore_free_errors then mret tt else fault_ AssertFail).

(** The volatile atime is written back to the slot that is not valid, then the
    slot is switched. *)
Definition write_back_atime (tinode : oid) (atime : pmemfile_time) : ppool → ppool :=
  inode_upd tinode (λ i,
    let slot := inode_next_atime_slot i in
    let i := set_i_atime (sset slot atime (i_atime i)) i in
    set_i_slots (let b := i_slots i in Slots slot (s_ctime b) (s_mtime b) (s_nlink b) (s_size b) (s_allocated_space b) (s_flags b)) i).

(** One round of the loop: the reference to [v] is dropped; the result is the
    parent whose reference has to be dropped next. *)
Definition vinode_unref_round (v : positive) : M pool (option positive) :=
  vnode_modify v (λ x, set_vn_ref (u32 (vn_ref x - 1)) x);;
  x ← vnode_get v;
  if negb (vn_ref x =? 0) then mret None
  else
    i ← inode_get (vn_tinode x);
    (if (i_suspended_references i =? 0) && (inode_get_nlink i =? 0) then vinode_free_pmem v
     else if vn_atime_dirty x then pm_modify (write_back_atime (vn_tinode x) (vn_atime x))
     else mret tt);;
    let next := match vn_parent x with Some p => if decide (p = v) then None else Some p | None => None end in
    r ← map_remove (Zpos (vn_tinode x)) v;
    (if negb (r =? 0) then fault_ AssertFail else mret tt);;
    (match v_blocks (vn_file x) with Some m => zoom po_dram set_po_dram (OffsetMap.offset_map_delete m) | None => mret tt end);;
    modify (λ s, set_po_vnodes (delete v (po_vnodes s)) s);;
    pool_free;;
    mret next.

Fixpoint vinode_unref_loop (fuel : nat) (v : option positive) : M pool unit :=
  match v with
  | None => mret tt
  | Some v =>
      match fuel with
      | O => fault_ NoFuel
      | S fuel' => next ← vinode_unref_round v; vinode_unref_loop fuel' next
      end
  end.

(** Every round but the last removes a volatile inode. *)
Definition vinode_unref (v : option positive) : M pool unit :=
  ASSERT_NOT_IN_TX;;
  lock LInodeMap WrLocked;;
  n ← gets (λ s, size (po_vnodes s));
  vinode_unref_loop (S n) v;;
  unlock LInodeMap.

Definition vinode_cleanup (v : option positive) (preserve_errno : bool) : M pool unit :=
  error ← get_errno;
  vinode_unref v;;
  if preserve_errno then set_errno error else mret tt.

(** ** New inodes *)

Definition new_file_data (flags : Z) : file_data :=
  let fmt := Z.land flags PMEMFILE_S_IFMT in
  if fmt =? PMEMFILE_S_IFREG then
    let n := Z.to_nat ((PMEMFILE_IN_INODE_STORAGE - SIZEOF_BLOCK_ARRAY) / SIZEOF_BLOCK_DESC) in
    DataBlocks {[None := BlockArray (PMEMFILE_BLOCK_ARRAY_VERSION 1) None n (replicate n zero_desc)]} ∅
  else if fmt =? PMEMFILE_S_IFDIR then
    let n := Z.to_nat ((PMEMFILE_IN_INODE_STORAGE - SIZEOF_DIR) / SIZEOF_DIRENT) in
    DataDir (Dir (PMEMFILE_DIR_VERSION 1) n None (replicate n zero_dirent))
  else DataShortSymlink [].

Definition new_inode (cred : pmemfile_cred) (flags : Z) (t : pmemfile_time) : minode :=
  Minode
    (Inode (PMEMFILE_INODE_VERSION 2) (euid cred) (egid cred) 0 (Slot2 flags 0) (zero2 0)
       (Slot2 (if Z.land flags PMEMFILE_S_IFMT =? PMEMFILE_S_IFDIR then bi_size (metadata_block_info cfg) else 0) 0) (zero2 0)
       (Slot2 t zero_time) (Slot2 t zero_time) (Slot2 t zero_time) (Slots false false false false false false false))
    (new_file_data flags).

Definition zero_minode : minode :=
  Minode (Inode 0 0 0 0 (zero2 0) (zero2 0) (zero2 0) (zero2 0) (zero2 zero_time) (zero2 zero_time) (zero2 zero_time)
    (Slots false false false false false false false)) (DataShortSymlink []).

(** The stores to the new object do not need the log. *)
Definition inode_alloc (cred : pmemfile_cred) (flags : Z) : M pool oid :=
  ASSERT_IN_TX;;
  let info := metadata_block_info cfg in
  tinode ← tx_xalloc_inode (bi_size info) zero_minode;
  t ← current_time;
  pm_modify (λ p, set_pp_inodes (<[tinode := new_inode cred flags t]> (pp_inodes p)) p);;
  mret tinode.

(** ** Orphaned inodes *)

Definition orphaned_inodes : M pool oid := o ← gets (λ s, su_orphaned_inodes (pp_super (po_pm s))); nonnull o.

Definition vinode_orphan_unlocked (v : positive) : M pool unit :=
  ASSERT_IN_TX;;
  x ← vnode_get v;
  assert_ (bool_decide (vn_orphaned x = None));;
  i ← inode_get (vn_tinode x);
  if 0 <? i_suspended_references i then mret tt
  else
    orphaned ← orphaned_inodes;
    pos ← inode_array_add cfg orphaned (vn_tinode x);
    vnode_modify v (set_vn_orphaned (Some pos)).

Definition inode_orphan (tinode : oid) : M pool (oid * nat) :=
  ASSERT_IN_TX;;
  orphaned ← orphaned_inodes;
  inode_array_add cfg orphaned tinode.

Definition vinode_orphan (v : positive) : M pool unit :=
  rwlock_tx_wlock LSuper;;
  vinode_orphan_unlocked v;;
  rwlock_tx_unlock_on_commit LSuper.
End vinode.
