(* ===== verification/Dir.v ===== *)
(** Directories: dir.c, with the entries of a directory in a chain of parts, the
    first one embedded in the inode; looking up, adding and removing entries
    (also unlink.c, rmdir.c), and resolving paths. *)
From S2P Require Import Prelude Layout Inode Blocks FileState HashMap Creds CString Pool InodeArray Vinode.

Definition PMEMFILE_PATH_MAX : nat := 4096.
Definition PMEMFILE_OPEN_PARENT_STOP_AT_ROOT : Z := Z.shiftl 1 0.
Definition PMEMFILE_OPEN_PARENT_SYMLINK_FOLLOW : Z := Z.shiftl 1 1.
Definition PMEMFILE_OPEN_PARENT_USE_EACCESS : Z := Z.shiftl 1 2.
Definition PMEMFILE_OPEN_PARENT_USE_RACCESS : Z := Z.shiftl 2 2.
Definition PMEMFILE_OPEN_PARENT_ACCESS_MASK : Z := Z.shiftl 3 2.

(** ** Entries *)

(** The first entry of one part, from index [i] on, that satisfies [f]. *)
Fixpoint find_dirent (f : dirent → bool) (es : list dirent) (i : nat) : option nat :=
  match es with
  | [] => None
  | e :: es' => if f e then Some i else find_dirent f es' (S i)
  end.

Definition has_name (name : cstring) (namelen : nat) (e : dirent) : bool := str_compare (de_name e) name namelen =? 0.
Definition name_empty (e : dirent) : bool := bool_decide (char_at (de_name e) 0 = NUL).
Definition used_dirents (d : dir) : list dirent := take (d_num_elements d) (d_dirents d).

(** The number of parts a directory can have. *)
Definition dir_fuel : M pool nat := gets (λ s, S (size (pp_dirs (po_pm s)))).

(** [pmemobj_tx_add_range_direct(dirent, sizeof(dirent->inode) + n)] *)
Definition snap_dirent (e : deptr) (n : nat) (old cur : ppool) : ppool :=
  match dirent_lookup old e with
  | Some x => dirent_upd e (λ y, Dirent (de_inode x) (take n (de_name x) ++ drop n (de_name y))) cur
  | None => cur
  end.
(** [pmemobj_tx_add_range_direct(dirent->name, n)] *)
Definition snap_name (e : deptr) (n : nat) (old cur : ppool) : ppool :=
  match dirent_lookup old e with
  | Some x => dirent_upd e (λ y, Dirent (de_inode y) (take n (de_name x) ++ drop n (de_name y))) cur
  | None => cur
  end.
(** [TX_ADD_DIRECT(&dirent->inode)] *)
Definition snap_dirent_inode (e : deptr) (old cur : ppool) : ppool :=
  match dirent_lookup old e with Some x => dirent_upd e (set_de_inode (de_inode x)) cur | None => cur end.
(** [TX_ADD_DIRECT(&dir->next)] *)
Definition snap_dir_next (d : dirp) (old cur : ppool) : ppool :=
  match dir_lookup old d with Some x => dir_upd d (set_d_next (d_next x)) cur | None => cur end.

(** [strncpy(buf, name, n); buf\[n\] = 0] *)
Definition write_name (name : cstring) (n : nat) (buf : cstring) : cstring := take n name ++ NUL :: drop (S n) buf.

(** [name\[0\] = 0; inode = NULL] *)
Definition clear_dirent (e : dirent) : dirent := Dirent None (<[0%nat := NUL]> (de_name e)).

(** [struct pmemfile_path_info] *)
Record path_info := PathInfo { pi_parent : option positive; pi_remaining : option cstring; pi_error : Z }.

Section dir.
Context `{!PoolAlloc}.
Variables (cfg : block_cfg) (calloc_ok : nat → bool) (clock : nat → pmemfile_time) (ignore_free_errors : bool).

(** A new part behind [d] for the directory [parent]. *)
Definition add_dir_part (parent : oid) (d : dirp) : M pool oid :=
  let info := metadata_block_info cfg in
  tx_add (snap_dir_next d);;
  next ← tx_xalloc_dir (bi_size info) (Dir 0 0 None (replicate (Z.to_nat ((bi_size info - SIZEOF_DIR) / SIZEOF_DIRENT)) zero_dirent));
  pm_modify (dir_upd d (set_d_next (Some next)));;
  pm_modify (dir_upd (DirObj next) (λ x, Dir (PMEMFILE_DIR_VERSION 1) (d_num_elements x) (d_next x) (d_dirents x)));;
  let sz := METADATA_BLOCK_SIZE in
  i ← inode_get parent;
  tx_set_inode_size (u64 (inode_get_size i + sz)) parent;;
  pm_modify (dir_upd (DirObj next) (λ x, Dir (d_version x) (Z.to_nat ((sz - SIZEOF_DIR) / SIZEOF_DIRENT)) (d_next x) (d_dirents x)));;
  mret next.

(** The loop of [inode_add_dirent]: all parts are searched for the name; the
    first free entry is remembered, and a part is added if there is none. *)
Fixpoint find_free_dirent (fuel : nat) (parent : oid) (d : dirp) (name : cstring) (namelen : nat) (dirent : option deptr)
    : M pool (option deptr) :=
  match fuel with
  | O => fault_ NoFuel
  | S fuel' =>
      x ← dir_get d;
      (if existsb (has_name name namelen) (used_dirents x) then tx_abort EEXIST else mret tt);;
      let dirent :=
        match dirent with
        | Some e => Some e
        | None => (λ i, (d, i)) <$> find_dirent name_empty (used_dirents x) 0
        end in
      next ←
        match dirent, d_next x with
        | None, None => o ← add_dir_part parent d; mret (Some o)
        | _, next => mret next
        end;
      match next with
      | Some o => find_free_dirent fuel' parent (DirObj o) name namelen dirent
      | None => mret dirent
      end
  end.

Definition inode_add_dirent (parent : oid) (name : cstring) (namelen : nat) (child : oid) (tm : pmemfile_time) : M pool unit :=
  ASSERT_IN_TX;;
  (if (PMEMFILE_MAX_FILE_NAME <? namelen)%nat then tx_abort ENAMETOOLONG else mret tt);;
  (if str_contains name namelen SLASH then fault_ AssertFail else mret tt);;
  i ← inode_get parent;
  (if (inode_get_nlink i =? 0) && negb (str_compare (cstr ".") name namelen =? 0) then tx_abort ENOENT else mret tt);;
  fuel ← dir_fuel;
  dirent ← find_free_dirent (S fuel) parent (InInode parent) name namelen None;
  match dirent with
  | None => fault_ AssertFail
  | Some e =>
      tx_add (snap_dirent e (S namelen));;
      pm_modify (dirent_upd e (λ x, Dirent (Some child) (write_name name namelen (de_name x))));;
      tx_inc_nlink child;;
      tx_set_inode_ctime tm child;;
      tx_set_inode_mtime tm parent;;
      tx_set_inode_ctime tm parent
  end.

(** ** Looking up *)

Fixpoint lookup_loop (fuel : nat) (f : dirent → bool) (d : option dirp) : M pool (option deptr) :=
  match d with
  | None => mret None
  | Some d =>
      match fuel with
      | O => fault_ NoFuel
      | S fuel' =>
          x ← dir_get d;
          match find_dirent f (used_dirents x) 0 with
          | Some i => mret (Some (d, i))
          | None => lookup_loop fuel' f (DirObj <$> d_next x)
          end
      end
  end.

Definition vinode_lookup_dirent_by_name_locked (parent : positive) (name : cstring) (namelen : nat) : M pool (option deptr) :=
  iparent ← vinode_inode parent;
  if negb (inode_is_dir iparent) then set_errno ENOTDIR;; mret None
  else if (PMEMFILE_MAX_FILE_NAME <? namelen)%nat then set_errno ENAMETOOLONG;; mret None
  else
    assert_ (negb (namelen =? 0)%nat);;
    assert_ (negb (bool_decide (char_at name 0 = NUL)));;
    x ← vnode_get parent;
    fuel ← dir_fuel;
    r ← lookup_loop fuel (has_name name namelen) (Some (InInode (vn_tinode x)));
    match r with
    | Some e => mret (Some e)
    | None => set_errno ENOENT;; mret None
    end.

(** [struct pmemfile_dirent_info]: the volatile inode and the entry. *)
Definition vinode_lookup_vinode_by_name_locked (parent : positive) (name : cstring) (namelen : nat)
    : M pool (option positive * option deptr) :=
  ASSERT_NOT_IN_TX;;
  dirent ← vinode_lookup_dirent_by_name_locked parent name namelen;
  match dirent with
  | None => mret (None, None)
  | Some e =>
      x ← dirent_get e;
      v ← inode_ref calloc_ok (de_inode x) (Some parent);
      mret (v, Some e)
  end.

Definition vinode_lookup_dirent_by_vinode_locked (parent child : positive) : M pool (option deptr) :=
  iparent ← vinode_inode parent;
  if negb (inode_is_dir iparent) then set_errno ENOTDIR;; mret None
  else
    x ← vnode_get parent;
    c ← vnode_get child;
    fuel ← dir_fuel;
    r ← lookup_loop fuel (λ e, bool_decide (de_inode e = Some (vn_tinode c))) (Some (InInode (vn_tinode x)));
    match r with
    | Some e => mret (Some e)
    | None => set_errno ENOENT;; mret None
    end.

Definition vinode_lookup_dirent (parent : positive) (name : cstring) (namelen : nat) (flags : Z) : M pool (option positive) :=
  ASSERT_NOT_IN_TX;;
  if (namelen =? 0)%nat then set_errno ENOENT;; mret None
  else
    let dotdot := str_compare (cstr "..") name namelen =? 0 in
    root ← (if negb (Z.land flags PMEMFILE_OPEN_PARENT_STOP_AT_ROOT =? 0) then vinode_is_root parent else mret false);
    if root && dotdot then set_errno EXDEV;; mret None
    else
      lock (LVinode parent) RdLocked;;
      v ←
        (if dotdot then x ← vnode_get parent; v ← vinode_ref (vn_parent x); mret (Some v)
         else '(v, _) ← vinode_lookup_vinode_by_name_locked parent name namelen; mret v);
      unlock (LVinode parent);;
      mret v.

(** ** Resolving paths *)

(** [get_symlink] (symlink.c) *)
Definition get_symlink (v : positive) : M pool cstring :=
  x ← vnode_get v;
  i ← minode_get (vn_tinode x);
  if inode_is_longsymlink (mi_inode i) then
    match mi_data i with
    | DataLongSymlink o => p ← gets po_pm; of_option BadPointer (pp_chars p !! o)
    | _ => fault_ BadPointer
    end
  else
    match mi_data i with DataShortSymlink t => mret t | _ => fault_ BadPointer end.

(** [pf_malloc] and [strdup] *)
Definition pool_malloc : M pool bool := r ← pool_calloc calloc_ok; mret (bool_decide (is_Some r)).

(** The permission to search a directory on the way. *)
Definition search_permission (flags : Z) : Z :=
  if negb (Z.land flags PMEMFILE_OPEN_PARENT_USE_EACCESS =? 0) then Z.lor PFILE_WANT_EXECUTE PFILE_USE_EACCESS
  else if negb (Z.land flags PMEMFILE_OPEN_PARENT_USE_RACCESS =? 0) then Z.lor PFILE_WANT_EXECUTE PFILE_USE_RACCESS
  else PFILE_WANT_EXECUTE.

(** The end of [resolve_pathat_nested]: the loop stopped at [parent] with [path]
    left. *)
Definition resolve_end (parent : positive) (path : cstring) (error : Z) : M pool path_info :=
  ok ← pool_malloc;
  let remaining := if ok : bool then Some (until_nul path) else None in
  if negb (error =? 0) then mret (PathInfo (Some parent) remaining error)
  else
    d ← vinode_is_dir parent;
    if negb d then mret (PathInfo (Some parent) remaining ENOTDIR)
    else
      path ← nonnull remaining;
      mret (PathInfo (Some parent) remaining (if more_than_1_component path then ENOENT else 0)).

(** The loop over the components of [path], which gets shorter in each round;
    [nested] resolves a path through a symbolic link; [ending] is the length of
    the slashes at the end of the path. *)
Fixpoint resolve_loop (nested : option positive → cstring → M pool path_info) (cred : pmemfile_cred) (flags : Z)
    (ending : nat) (fuel : nat) (parent : positive) (path : cstring) : M pool path_info :=
  match fuel with
  | O => fault_ NoFuel
  | S fuel' =>
      match strchr path SLASH with
      | None => resolve_end parent path 0
      | Some slash =>
          if (strlen slash =? ending)%nat then resolve_end parent path 0
          else
            let namelen := (strlen path - strlen slash)%nat in
            if (PMEMFILE_MAX_FILE_NAME <? namelen)%nat then resolve_end parent path ENAMETOOLONG
            else
              child ← vinode_lookup_dirent parent path namelen flags;
              match child with
              | None => e ← get_errno; resolve_end parent path e
              | Some child =>
                  lock (LVinode child) RdLocked;;
                  child_perms ← vinode_get_perms_locked child;
                  if Z.land (p_flags child_perms) PMEMFILE_S_IFMT =? PMEMFILE_S_IFLNK then
                    symlink_target ← get_symlink child;
                    ok ← pool_malloc;
                    e ← (if ok : bool then mret 0 else get_errno);
                    unlock (LVinode child);;
                    vinode_unref ignore_free_errors (Some child);;
                    r ← (if e =? 0 then nested (Some parent) (until_nul symlink_target ++ SLASH :: until_nul (tail slash))
                         else mret (PathInfo None None e));
                    vinode_unref ignore_free_errors (Some parent);;
                    (if ok : bool then pool_free else mret tt);;
                    mret r
                  else
                    unlock (LVinode child);;
                    if (Z.land (p_flags child_perms) PMEMFILE_S_IFMT =? PMEMFILE_S_IFDIR)
                       && negb (can_access cred child_perms (search_permission flags)) then
                      vinode_unref ignore_free_errors (Some child);;
                      resolve_end parent path EACCES
                    else
                      vinode_unref ignore_free_errors (Some parent);;
                      resolve_loop nested cred flags ending fuel' child (skip_slashes (tail slash))
              end
      end
  end.

(** The slashes at the end of a path. *)
Definition ending_slashes (path : cstring) : nat := (strlen path - length (skip_slashes (reverse (until_nul path))))%nat.

(** [levels] is [41 - nest_level]. *)
Fixpoint resolve_pathat_nested (levels : nat) (cred : pmemfile_cred) (parent : option positive) (path : cstring) (flags : Z)
    : M pool path_info :=
  ASSERT_NOT_IN_TX;;
  match levels with
  | O => mret (PathInfo None None ELOOP)
  | S levels' =>
      if bool_decide (char_at path 0 = NUL) then mret (PathInfo None None ENOENT)
      else
        root ← gets (λ s, head (po_root s));
        let abs := bool_decide (char_at path 0 = SLASH) in
        let parent := if abs then root else parent in
        let path := if abs then skip_slashes path else path in
        parent ← vinode_ref parent;
        resolve_loop (λ parent path, resolve_pathat_nested levels' cred parent path flags) cred flags
          (ending_slashes path) (S (length path)) parent path
  end.

Definition resolve_pathat (cred : pmemfile_cred) (parent : option positive) (path : cstring) (flags : Z) : M pool path_info :=
  ASSERT_NOT_IN_TX;;
  resolve_pathat_nested 40 cred parent path flags.

Definition path_info_cleanup (info : path_info) : M pool unit :=
  ASSERT_NOT_IN_TX;;
  (if pi_parent info then vinode_unref ignore_free_errors (pi_parent info) else mret tt);;
  (if pi_remaining info then pool_free else mret tt).

(** The new path information replaces the old one. *)
Definition resolve_symlink (cred : pmemfile_cred) (v : positive) (info : path_info) : M pool path_info :=
  ASSERT_NOT_IN_TX;;
  lock (LVinode v) RdLocked;;
  i ← vinode_inode v;
  let size := Z.to_nat (inode_get_size i) in
  target ← get_symlink v;
  let symlink_target := take (S size) target in
  assert_ (bool_decide (char_at symlink_target size = NUL));;
  unlock (LVinode v);;
  vinode_unref ignore_free_errors (Some v);;
  info2 ← resolve_pathat cred (pi_parent info) symlink_target 0;
  path_info_cleanup info;;
  mret info2.

(** [resolve_pathat_full]: the loop follows the symbolic link at the end of the
    path; nothing bounds the number of rounds, so [fuel] stands for the time the
    caller waits. *)
Fixpoint resolve_full_loop (fuel : nat) (cred : pmemfile_cred) (info : path_info) (resolve_last : bool)
    : M pool (option positive * path_info) :=
  match fuel with
  | O => fault_ NoFuel
  | S fuel' =>
      let fail e := mret (None, PathInfo (pi_parent info) (pi_remaining info) e) in
      if negb (pi_error info =? 0) then mret (None, info)
      else
        remaining ← nonnull (pi_remaining info);
        parent ← nonnull (pi_parent info);
        let namelen := component_length remaining in
        if (PMEMFILE_MAX_FILE_NAME <? namelen)%nat then fail ENAMETOOLONG
        else if (namelen =? 0)%nat then
          r ← vinode_is_root parent;
          assert_ r;;
          v ← vinode_ref (Some parent);
          mret (Some v, info)
        else
          v ← vinode_lookup_dirent parent remaining namelen 0;
          match v with
          | None => fail ENOENT
          | Some v =>
              reg ← vinode_is_regular_file v;
              if reg && bool_decide (char_at remaining namelen = SLASH) then
                vinode_unref ignore_free_errors (Some v);;
                fail ENOTDIR
              else
                sym ← vinode_is_symlink v;
                if sym && resolve_last then
                  info ← resolve_symlink cred v info;
                  resolve_full_loop fuel' cred info resolve_last
                else mret (Some v, info)
          end
  end.

Definition resolve_pathat_full (fuel : nat) (cred : pmemfile_cred) (parent : option positive) (path : cstring) (flags : Z)
    (resolve_last : bool) : M pool (option positive * path_info) :=
  ASSERT_NOT_IN_TX;;
  info ← resolve_pathat cred parent path flags;
  resolve_full_loop fuel cred info resolve_last.

(** ** Locking the inodes of an entry *)

(** [struct pmemfile_dirent_info] *)
Notation dirent_info := (option positive * option deptr)%type (only parsing).

Definition dirent_is (e : option deptr) (v : positive) : M pool bool :=
  match e with
  | None => mret false
  | Some e => x ← dirent_get e; y ← vnode_get v; mret (bool_decide (de_inode x = Some (vn_tinode y)))
  end.

(** The result is 0, a negated errno, or 1 after a race. *)
Definition lock_parent_and_child (path : path_info) : M pool (Z * dirent_info) :=
  ASSERT_NOT_IN_TX;;
  remaining ← nonnull (pi_remaining path);
  parent ← nonnull (pi_parent path);
  let src_namelen := component_length remaining in
  lock (LVinode parent) RdLocked;;
  '(v, _) ← vinode_lookup_vinode_by_name_locked parent remaining src_namelen;
  match v with
  | None => error ← get_errno; unlock (LVinode parent);; mret (- error, (None, None))
  | Some v =>
      unlock (LVinode parent);;
      vinode_wrlock2 parent v;;
      dirent ← vinode_lookup_dirent_by_name_locked parent remaining src_namelen;
      same ← dirent_is dirent v;
      if same : bool then mret (0, (Some v, dirent))
      else
        vinode_unlock2 parent v;;
        vinode_unref ignore_free_errors (Some v);;
        mret (1, (None, None))
  end.

(** The loop of the callers around it: without other threads there is no race. *)
Definition lock_parent_and_child_loop (path : path_info) : M pool (Z * dirent_info) :=
  '(error, info) ← lock_parent_and_child path;
  if error =? 1 then fault_ NoFuel else mret (error, info).

(** The checks after all inodes are locked: nothing changed. *)
Definition children_unchanged (src_v : positive) (src_e : option deptr) (dst_v : option positive) (dst_e : option deptr) : M pool bool :=
  src_same ← dirent_is src_e src_v;
  if negb src_same then mret false
  else
    match dst_v with
    | None => mret (bool_decide (dst_e = None))
    | Some v => dirent_is dst_e v
    end.

Definition lock_parents_and_children (src dst : path_info) : M pool (Z * dirent_info * dirent_info * list positive) :=
  ASSERT_NOT_IN_TX;;
  src_remaining ← nonnull (pi_remaining src);
  dst_remaining ← nonnull (pi_remaining dst);
  src_parent ← nonnull (pi_parent src);
  dst_parent ← nonnull (pi_parent dst);
  let src_namelen := component_length src_remaining in
  let dst_namelen := component_length dst_remaining in
  let none := (None, None) in
  vinode_rdlock2 src_parent dst_parent;;
  '(src_v, _) ← vinode_lookup_vinode_by_name_locked src_parent src_remaining src_namelen;
  match src_v with
  | None => error ← get_errno; vinode_unlock2 src_parent dst_parent;; mret (- error, none, none, [])
  | Some src_v =>
      '(dst_v, dst_e) ← vinode_lookup_vinode_by_name_locked dst_parent dst_remaining dst_namelen;
      if bool_decide (is_Some dst_e) && bool_decide (dst_v = None) then
        error ← get_errno;
        vinode_unlock2 src_parent dst_parent;;
        vinode_unref ignore_free_errors (Some src_v);;
        mret (- error, none, none, [])
      else
        vinode_unlock2 src_parent dst_parent;;
        vinodes ← vinode_wrlockN src_parent (Some src_v) (Some dst_parent) dst_v;
        src_e ← vinode_lookup_dirent_by_name_locked src_parent src_remaining src_namelen;
        dst_e ← vinode_lookup_dirent_by_name_locked dst_parent dst_remaining dst_namelen;
        ok ← children_unchanged src_v src_e dst_v dst_e;
        if ok : bool then mret (0, (Some src_v, src_e), (dst_v, dst_e), vinodes)
        else
          vinode_unlockN vinodes;;
          vinode_unref ignore_free_errors (Some src_v);;
          (if dst_v then vinode_unref ignore_free_errors dst_v else mret tt);;
          mret (1, none, none, [])
  end.

Definition lock_parents_and_children_loop (src dst : path_info) : M pool (Z * dirent_info * dirent_info * list positive) :=
  '(error, src_info, dst_info, vinodes) ← lock_parents_and_children src dst;
  if error =? 1 then fault_ NoFuel else mret (error, src_info, dst_info, vinodes).

(** ** The current directory *)

(** A directory argument: [PMEMFILE_AT_CWD], NULL or an open file. *)
Inductive at_dir := AtCwd | AtNull | AtFile (v : positive).

Definition pool_get_cwd : M pool positive :=
  lock LCwd RdLocked;;
  cwd ← gets po_cwd;
  v ← vinode_ref (Some cwd);
  unlock LCwd;;
  mret v.

(** The flag tells whether the caller has to release the result. *)
Definition pool_get_dir_for_path (dir : at_dir) (path : cstring) : M pool (option positive * bool) :=
  if bool_decide (char_at path 0 = SLASH) then mret (None, false)
  else match dir with
       | AtCwd => v ← pool_get_cwd; mret (Some v, true)
       | AtFile v => mret (Some v, false)
       | AtNull => fault_ NullDeref
       end.

(** ** The path of a directory *)

(** The loop of [_pmemfile_get_dir_path]: the names are written from the end of
    the buffer to its start; [cur] is what is there already.  [None] is
    ERANGE. *)
Fixpoint dir_path_loop (fuel : nat) (buf_size : nat) (child : positive) (parent : option positive) (cur : cstring)
    : M pool (positive * option cstring) :=
  match parent with
  | None => mret (child, Some cur)
  | Some parent =>
      match fuel with
      | O => fault_ NoFuel
      | S fuel' =>
          lock (LVinode parent) RdLocked;;
          dirent ← vinode_lookup_dirent_by_vinode_locked parent child;
          dirent ← nonnull dirent;
          x ← dirent_get dirent;
          let len := strlen (de_name x) in
          if (buf_size <? length cur + len + 1)%nat then
            unlock (LVinode parent);;
            vinode_unref ignore_free_errors (Some parent);;
            mret (child, None)
          else
            let cur := SLASH :: until_nul (de_name x) ++ cur in
            root ← vinode_is_root parent;
            grandparent ←
              (if root : bool then mret None
               else y ← vnode_get parent; v ← vinode_ref (vn_parent y); mret (Some v));
            unlock (LVinode parent);;
            vinode_unref ignore_free_errors (Some child);;
            dir_path_loop fuel' buf_size parent grandparent cur
      end
  end.

(** [buf] says whether the caller passed a buffer; the result is the string
    written to it. *)
Definition get_dir_path (vinode : positive) (buf : bool) (buf_size : nat) : M pool (option cstring) :=
  ASSERT_NOT_IN_TX;;
  let fail e := vinode_unref ignore_free_errors (Some vinode);; set_errno e;; mret None in
  if buf && (buf_size =? 0)%nat then fail EINVAL
  else
    lock (LVinode vinode) RdLocked;;
    x ← vnode_get vinode;
    if vn_orphaned x then unlock (LVinode vinode);; fail ENOENT
    else
      root ← vinode_is_root vinode;
      parent ← (if root : bool then mret None else v ← vinode_ref (vn_parent x); mret (Some v));
      unlock (LVinode vinode);;
      let buf_size := if (buf_size =? 0)%nat then PMEMFILE_PATH_MAX else buf_size in
      ok ← (if buf then mret true else pool_malloc);
      if negb ok then
        oerrno ← get_errno; fail oerrno
      else
        let range_err child :=
          vinode_unref ignore_free_errors (Some child);;
          (if buf then mret tt else pool_free);;
          set_errno ERANGE;;
          mret None in
        match parent with
        | None => if (buf_size <? 2)%nat then range_err vinode
                  else vinode_unref ignore_free_errors (Some vinode);; mret (Some [SLASH])
        | Some _ =>
            n ← gets (λ s, size (po_vnodes s));
            '(child, r) ← dir_path_loop (S n) buf_size vinode parent [NUL];
            match r with
            | None => range_err child
            | Some cur => vinode_unref ignore_free_errors (Some child);; mret (Some (until_nul cur))
            end
        end.

Definition pmemfile_get_dir_path (dir : at_dir) (buf : bool) (buf_size : nat) : M pool (option cstring) :=
  match dir with
  | AtNull => set_errno EFAULT;; mret None
  | AtCwd => v ← pool_get_cwd; get_dir_path v buf buf_size
  | AtFile v => v ← vinode_ref (Some v); get_dir_path v buf buf_size
  end.

Definition pmemfile_getcwd (buf : bool) (buf_size : nat) : M pool (option cstring) :=
  v ← pool_get_cwd; get_dir_path v buf buf_size.
End dir.
