(* ===== verification/PoolTx.v ===== *)
(** Reasoning about transactions on the persistent objects of a pool: lookups
    and updates of inodes and directories, and a judgement for code in a
    transaction that says what it does to the objects and that its part of the
    undo log takes them back to where they were. *)
From S2P Require Import Prelude Layout Inode Blocks FileState HashMap Creds CString Pool InodeArray Vinode Dir.

(** ** Reading and updating directories *)

Section updates.
Implicit Types (p : ppool) (d : dirp).

Lemma dir_lookup_inode_upd p i f d : dir_lookup (inode_upd i f p) d = dir_lookup p d.
Proof.
  destruct d as [j|o]; [|done]. unfold dir_lookup, inode_upd. cbn. destruct (decide (i = j)) as [->|Hne].
  - rewrite lookup_alter_eq. by destruct (pp_inodes p !! j) as [[? []]|].
  - by rewrite lookup_alter_ne.
Qed.

Lemma dir_lookup_upd p d f x : dir_lookup p d = Some x → dir_lookup (dir_upd d f p) d = Some (f x).
Proof.
  destruct d as [j|o]; cbn.
  - rewrite lookup_alter_eq. destruct (pp_inodes p !! j) as [[? []]|]; cbn; try done. by intros [= ->].
  - intros Hx. by rewrite lookup_alter_eq, Hx.
Qed.

Lemma dir_lookup_upd_ne p d d' f : d ≠ d' → dir_lookup (dir_upd d f p) d' = dir_lookup p d'.
Proof. destruct d as [i|o], d' as [j|o']; cbn; intros Hne; [..|done|]; try rewrite lookup_alter_ne by congruence; done. Qed.

Lemma inode_lookup_dir_upd p d f i : inode_lookup (dir_upd d f p) i = inode_lookup p i.
Proof.
  destruct d as [j|o]; [|done]. unfold inode_lookup. cbn. destruct (decide (i = j)) as [->|Hne].
  - rewrite lookup_alter_eq. by destruct (pp_inodes p !! j) as [[? []]|].
  - by rewrite lookup_alter_ne.
Qed.

Lemma inode_lookup_inode_upd p i f : inode_lookup (inode_upd i f p) i = f <$> inode_lookup p i.
Proof. unfold inode_lookup, inode_upd. cbn. rewrite lookup_alter_eq. by destruct (pp_inodes p !! i). Qed.

Lemma inode_lookup_inode_upd_ne p i j f : i ≠ j → inode_lookup (inode_upd i f p) j = inode_lookup p j.
Proof. intros Hne. unfold inode_lookup, inode_upd. cbn. by rewrite lookup_alter_ne. Qed.

(** The inode after an update of any other one. *)
Lemma inode_lookup_upd p i j f :
  inode_lookup (inode_upd i f p) j = if decide (i = j) then f <$> inode_lookup p j else inode_lookup p j.
Proof. case_decide as Hij; [subst; apply inode_lookup_inode_upd|by apply inode_lookup_inode_upd_ne]. Qed.

Lemma dirent_lookup_upd p (e : deptr) f x : dirent_lookup p e = Some x → dirent_lookup (dirent_upd e f p) e = Some (f x).
Proof.
  unfold dirent_lookup, dirent_upd. intros (y & Hy & Hx)%bind_Some. rewrite (dir_lookup_upd _ _ _ _ Hy). cbn.
  by rewrite list_lookup_alter_eq, Hx.
Qed.

(** *** Undoing *)

Lemma set_pp_inodes_id p : set_pp_inodes (pp_inodes p) p = p.
Proof. by destruct p. Qed.
Lemma set_pp_dirs_id p : set_pp_dirs (pp_dirs p) p = p.
Proof. by destruct p. Qed.

Lemma dir_upd_upd p d f g : dir_upd d g (dir_upd d f p) = dir_upd d (g ∘ f) p.
Proof.
  destruct d as [i|o]; unfold dir_upd; cbn.
  - unfold set_pp_inodes. cbn. f_equal. rewrite alter_alter_eq. apply alter_ext. intros x _. cbn.
    unfold data_dir_upd. by destruct x as [? []].
  - unfold set_pp_dirs. cbn. f_equal. by rewrite alter_alter_eq.
Qed.

Lemma dir_upd_id p d x f : dir_lookup p d = Some x → f x = x → dir_upd d f p = p.
Proof.
  destruct d as [i|o]; cbn; intros Hx Hf.
  - transitivity (set_pp_inodes (pp_inodes p) p); [f_equal|apply set_pp_inodes_id]. apply alter_id. intros y Hy. rewrite Hy in Hx. unfold data_dir_upd.
    destruct y as [? []]; try done. cbn. injection Hx as ->. unfold set_mi_data. cbn. by rewrite Hf.
  - transitivity (set_pp_dirs (pp_dirs p) p); [f_equal|apply set_pp_dirs_id]. apply alter_id. intros y Hy. by simplify_eq.
Qed.

Lemma inode_upd_upd p i f g : inode_upd i g (inode_upd i f p) = inode_upd i (g ∘ f) p.
Proof. unfold inode_upd, set_pp_inodes. cbn. f_equal. by rewrite alter_alter_eq. Qed.

Lemma inode_upd_id p i x f : inode_lookup p i = Some x → f x = x → inode_upd i f p = p.
Proof.
  unfold inode_lookup, inode_upd. intros (y & Hy & ->)%fmap_Some Hf. transitivity (set_pp_inodes (pp_inodes p) p); [f_equal|apply set_pp_inodes_id].
  apply alter_id. intros z Hz. assert (z = y) as -> by congruence. unfold set_mi_inode. rewrite Hf. by destruct y.
Qed.

(** An update of an entry and what restores it. *)
Lemma dirent_upd_undo p (e : deptr) x f g :
  dirent_lookup p e = Some x → g (f x) = x → dirent_upd e g (dirent_upd e f p) = p.
Proof.
  unfold dirent_lookup, dirent_upd. intros (y & Hy & Hx)%bind_Some Hg. rewrite dir_upd_upd. eapply dir_upd_id; [done|].
  cbn. unfold set_d_dirents. cbn. rewrite list_alter_alter_eq. rewrite (list_alter_ext _ id _ (d_dirents y)); [rewrite list_alter_id by done; by destruct y| |done].
  intros z Hz. cbn. by simplify_eq.
Qed.

Lemma inode_upd_undo p i x f g : inode_lookup p i = Some x → g (f x) = x → inode_upd i g (inode_upd i f p) = p.
Proof. intros Hx Hg. rewrite inode_upd_upd. by eapply inode_upd_id. Qed.

(** Updates of an inode and of a directory do not interfere. *)
Lemma inode_dir_comm p i f d g : inode_upd i f (dir_upd d g p) = dir_upd d g (inode_upd i f p).
Proof.
  destruct d as [j|o]; [|done]. unfold inode_upd, dir_upd, set_pp_inodes. cbn. f_equal.
  destruct (decide (i = j)) as [->|Hne]; [|by apply alter_alter_ne].
  rewrite !alter_alter_eq. apply alter_ext. intros [x []] _; done.
Qed.

Lemma inode_dirent_comm p i f e g : inode_upd i f (dirent_upd e g p) = dirent_upd e g (inode_upd i f p).
Proof. apply inode_dir_comm. Qed.

Lemma dirent_lookup_inode_upd p i f e : dirent_lookup (inode_upd i f p) e = dirent_lookup p e.
Proof. unfold dirent_lookup. by rewrite dir_lookup_inode_upd. Qed.

Lemma inode_lookup_dirent_upd p e f i : inode_lookup (dirent_upd e f p) i = inode_lookup p i.
Proof. apply inode_lookup_dir_upd. Qed.

Lemma undo_log_app us vs p : undo_log (us ++ vs) p = undo_log vs (undo_log us p).
Proof. revert p. induction us as [|u us IH]; intros p; [done|]. apply IH. Qed.
End updates.

(** *** Restoring a field of an inode *)

Lemma undo_set {A} b (x y : A) (s : slot2 A) : sset b x (sset b y s) = sset b x s.
Proof. by destruct b, s. Qed.
Lemma sset_get {A} b (s : slot2 A) : sset b (sget b s) s = s.
Proof. by destruct b, s. Qed.

Lemma undo_nlink_set x n : undo_nlink x (set_i_nlink (sset (s_nlink (i_slots x)) n (i_nlink x)) x) = x.
Proof. destruct x. unfold undo_nlink, set_i_nlink, inode_get_nlink. cbn. by rewrite undo_set, sset_get. Qed.
Lemma undo_size_set x n : undo_size x (inode_tx_set_size n x) = x.
Proof. destruct x. unfold undo_size, inode_tx_set_size, set_i_size, inode_get_size. cbn. by rewrite undo_set, sset_get. Qed.
Lemma undo_mtime_set x n : undo_mtime x (inode_tx_set_mtime n x) = x.
Proof. destruct x. unfold undo_mtime, inode_tx_set_mtime, set_i_mtime, inode_get_mtime. cbn. by rewrite undo_set, sset_get. Qed.
Lemma undo_ctime_set x n : undo_ctime x (inode_tx_set_ctime n x) = x.
Proof. destruct x. unfold undo_ctime, inode_tx_set_ctime, set_i_ctime, inode_get_ctime. cbn. by rewrite undo_set, sset_get. Qed.
Lemma undo_flags_set x n : undo_flags x (inode_tx_set_flags n x) = x.
Proof. destruct x. unfold undo_flags, inode_tx_set_flags, set_i_flags, inode_get_flags. cbn. by rewrite undo_set, sset_get. Qed.

(** ** Code in a transaction *)

Definition tx_at (s : pool) (n : nat) (pm : ppool) (t : ptx) (locks : gmap lockid lock_state) : pool :=
  tx_state (set_po_ticks n s) pm t locks.

(** [m], started with the persistent objects [pm], returns with [P] or aborts
    with [E]; in both cases its undo records restore [pm].  It takes no locks
    and changes no volatile state but the clock. *)
Definition txop {A} (m : M pool A) (s : pool) (pm : ppool) (P : A → ppool → Prop) (E : Z → Prop) : Prop :=
  ∀ n t locks,
    wp m (λ a s', ∃ n' us pm', s' = tx_at s n' pm' (tx_more t us [] []) locks ∧ undo_log us pm' = pm ∧ P a pm')
      (λ e s', ∃ n' us pm', s' = tx_at s n' pm' (tx_more t us [] []) locks ∧ undo_log us pm' = pm ∧ E e)
      (tx_at s n pm t locks).

Section txop.
Implicit Types (s : pool) (pm : ppool) (E : Z → Prop).

Lemma txop_ret {A} (a : A) s pm (P : A → ppool → Prop) E : P a pm → txop (mret a) s pm P E.
Proof. intros HP n t locks. apply wp_ret. exists n, [], pm. by rewrite tx_more_nil. Qed.

Lemma txop_mono {A} (m : M pool A) s pm (P P' : A → ppool → Prop) E E' :
  txop m s pm P E → (∀ a pm', P a pm' → P' a pm') → (∀ e, E e → E' e) → txop m s pm P' E'.
Proof. intros Hm HP HE n t locks. eapply wp_mono; [apply Hm|naive_solver..]. Qed.

Lemma txop_bind {A B} (m : M pool A) (k : A → M pool B) s pm (P' : A → ppool → Prop) (P : B → ppool → Prop) E :
  txop m s pm P' E → (∀ a pm', P' a pm' → txop (k a) s pm' P E) → txop (m ≫= k) s pm P E.
Proof.
  intros Hm Hk n t locks. apply wp_bind. eapply wp_mono; [apply Hm|..]; [|naive_solver].
  intros a s' (n1 & us & pm1 & -> & Hu & HP). eapply wp_mono; [by apply (Hk a pm1 HP)|..].
  - intros b s' (n2 & us2 & pm2 & -> & Hu2 & HP2). exists n2, (us2 ++ us), pm2.
    rewrite tx_more_more, undo_log_app, Hu2. by repeat split.
  - intros e s' (n2 & us2 & pm2 & -> & Hu2 & HP2). exists n2, (us2 ++ us), pm2.
    rewrite tx_more_more, undo_log_app, Hu2. by repeat split.
Qed.

Lemma txop_abort {A} e s pm (P : A → ppool → Prop) E : E e → txop (tx_abort e) s pm P E.
Proof. intros HE n t locks. apply wp_abort. exists n, [], pm. by rewrite tx_more_nil. Qed.

Lemma txop_gets {A} (f : pool → A) v s pm (P : A → ppool → Prop) E :
  (∀ n t locks, f (tx_at s n pm t locks) = v) → P v pm → txop (gets f) s pm P E.
Proof. intros Hf HP n t locks. apply wp_gets. exists n, [], pm. rewrite tx_more_nil, Hf. done. Qed.

Lemma txop_of_option {A} f (o : option A) a s pm (P : A → ppool → Prop) E : o = Some a → P a pm → txop (of_option f o) s pm P E.
Proof. intros -> HP. by apply txop_ret. Qed.

Lemma txop_assert b s pm (P : unit → ppool → Prop) E : b = true → P tt pm → txop (assert_ b) s pm P E.
Proof. intros -> HP. by apply txop_ret. Qed.

Lemma txop_in_tx s pm (P : unit → ppool → Prop) E : P tt pm → txop ASSERT_IN_TX s pm P E.
Proof. intros HP n t locks. eapply wp_ASSERT_IN_TX; [done|]. exists n, [], pm. by rewrite tx_more_nil. Qed.

Lemma txop_inode_get i x s pm (P : inode → ppool → Prop) E : inode_lookup pm i = Some x → P x pm → txop (inode_get i) s pm P E.
Proof.
  intros Hx HP. eapply txop_bind with (P' := λ v pm', v = pm ∧ pm' = pm); [by apply (txop_gets _ pm)|].
  intros ? ? [-> ->]. by eapply txop_of_option.
Qed.

Lemma txop_dir_get d x s pm (P : dir → ppool → Prop) E : dir_lookup pm d = Some x → P x pm → txop (dir_get d) s pm P E.
Proof.
  intros Hx HP. eapply txop_bind with (P' := λ v pm', v = pm ∧ pm' = pm); [by apply (txop_gets _ pm)|].
  intros ? ? [-> ->]. by eapply txop_of_option.
Qed.

Lemma txop_dirent_get e x s pm (P : dirent → ppool → Prop) E : dirent_lookup pm e = Some x → P x pm → txop (dirent_get e) s pm P E.
Proof.
  intros Hx HP. eapply txop_bind with (P' := λ v pm', v = pm ∧ pm' = pm); [by apply (txop_gets _ pm)|].
  intros ? ? [-> ->]. by eapply txop_of_option.
Qed.

Lemma txop_vnode_get v x s pm (P : vnode → ppool → Prop) E : po_vnodes s !! v = Some x → P x pm → txop (vnode_get v) s pm P E.
Proof.
  intros Hx HP. eapply txop_bind with (P' := λ m pm', m = po_vnodes s ∧ pm' = pm); [by apply (txop_gets _ (po_vnodes s))|].
  intros ? ? [-> ->]. by eapply txop_of_option.
Qed.

(** A range is added to the log and then written. *)
Lemma txop_upd snap f s pm (P : unit → ppool → Prop) E :
  snap pm (f pm) = pm → P tt (f pm) → txop (tx_add snap;; pm_modify f) s pm P E.
Proof. intros Hs HP n t locks. apply wp_bind, wp_tx_add, wp_pm_modify. exists n, [snap pm], (f pm). by repeat split. Qed.

Lemma txop_inode undo f i x s pm (P : unit → ppool → Prop) E :
  inode_lookup pm i = Some x → undo x (f x) = x → P tt (inode_upd i f pm) → txop (tx_inode undo f i) s pm P E.
Proof.
  intros Hx Hu HP. eapply txop_bind; [by eapply (txop_inode_get _ _ _ _ (λ y pm', y = x ∧ pm' = pm))|].
  intros ? ? [-> ->]. apply txop_upd; [|done]. by apply (inode_upd_undo _ _ x).
Qed.

Lemma txop_xalloc `{!PoolAlloc} size put del s pm (P : oid → ppool → Prop) E :
  E ENOMEM → (∀ o, pool_palloc pm size = Some o → del o (put o pm) = pm ∧ P o (put o pm)) →
  txop (tx_xalloc size put del) s pm P E.
Proof.
  intros HE HP n t locks. apply wp_tx_xalloc.
  - exists n, [], pm. by rewrite tx_more_nil.
  - intros o Ho. destruct (HP o Ho) as [Hd HP']. exists n, [del o], (put o pm). by repeat split.
Qed.

Lemma txop_current_time clock s pm (P : pmemfile_time → ppool → Prop) E :
  (∀ tm, P tm pm) → txop (current_time clock) s pm P E.
Proof.
  intros HP n t locks. apply wp_bind, wp_gets, wp_bind, wp_modify, wp_ret. exists (S n), [], pm. by rewrite tx_more_nil.
Qed.
End txop.

Section txop_more.
Implicit Types (s : pool) (pm : ppool) (E : Z → Prop).

(** Rules for the head of a sequence. *)
Lemma txop_upd_seq {A} snap f (k : M pool A) s pm (P : A → ppool → Prop) E :
  snap pm (f pm) = pm → txop k s (f pm) P E → txop (tx_add snap;; pm_modify f;; k) s pm P E.
Proof.
  intros Hs Hk n t locks. apply wp_assoc.
  eapply (txop_bind (tx_add snap;; pm_modify f) (λ _, k) s pm (λ _ q, q = f pm)); [by apply txop_upd|]. by intros _ ? ->.
Qed.

Lemma txop_inode_seq {A} undo f i (k : M pool A) s pm (P : A → ppool → Prop) E :
  is_Some (inode_lookup pm i) → (∀ x, undo x (f x) = x) → txop k s (inode_upd i f pm) P E →
  txop (tx_inode undo f i;; k) s pm P E.
Proof.
  intros [x Hx] Hu Hk. eapply (txop_bind _ _ _ _ (λ _ q, q = inode_upd i f pm)); [by eapply txop_inode|]. by intros _ ? ->.
Qed.

Lemma txop_inode_last undo f i s pm (P : unit → ppool → Prop) E :
  is_Some (inode_lookup pm i) → (∀ x, undo x (f x) = x) → P tt (inode_upd i f pm) → txop (tx_inode undo f i) s pm P E.
Proof. intros [x Hx] Hu HP. by eapply txop_inode. Qed.

Lemma txop_pure_seq {A B} (m : M pool A) (k : A → M pool B) a s pm (P : B → ppool → Prop) E :
  txop m s pm (λ b q, b = a ∧ q = pm) E → txop (k a) s pm P E → txop (m ≫= k) s pm P E.
Proof. intros Hm Hk. eapply txop_bind; [done|]. by intros ? ? [-> ->]. Qed.

Lemma is_Some_inode_upd p i f j : is_Some (inode_lookup p j) → is_Some (inode_lookup (inode_upd i f p) j).
Proof. rewrite inode_lookup_upd. intros [x ->]. case_decide; by eexists. Qed.
Lemma is_Some_dir_upd p d f j : is_Some (inode_lookup p j) → is_Some (inode_lookup (dir_upd d f p) j).
Proof. by rewrite inode_lookup_dir_upd. Qed.

Lemma is_Some_dirent_upd p e f j : is_Some (inode_lookup p j) → is_Some (inode_lookup (dirent_upd e f p) j).
Proof. by rewrite inode_lookup_dirent_upd. Qed.

End txop_more.

Create HintDb pooltx.
#[export] Hint Resolve is_Some_inode_upd is_Some_dir_upd is_Some_dirent_upd : pooltx.
