(* ===== verification/DirRep.v ===== *)
(** The entries of a directory as a finite map from names to inodes, and the
    refinement of the operations of dir.c on one directory. *)
From S2P Require Import Prelude Layout Inode Blocks FileState HashMap Creds CString Pool InodeArray Vinode Dir PoolTx.

(** ** The parts of a directory *)

Inductive dir_chain (p : ppool) : dirp → list dirp → Prop :=
  | chain_last d x : dir_lookup p d = Some x → d_next x = None → dir_chain p d [d]
  | chain_next d x o ps : dir_lookup p d = Some x → d_next x = Some o → dir_chain p (DirObj o) ps → dir_chain p d (d :: ps).

Definition part_dirents (p : ppool) (d : dirp) : list dirent :=
  match dir_lookup p d with Some x => d_dirents x | None => [] end.

(** All entries, used or free, in the order of the parts. *)
Definition all_dirents (p : ppool) (ps : list dirp) : list dirent := ps ≫= part_dirents p.

(** A free entry has no inode and the empty name. *)
Definition dirent_ok (e : dirent) : Prop :=
  length (de_name e) = NAME_BUFFER ∧
  match de_inode e with
  | None => char_at (de_name e) 0 = NUL
  | Some _ => name_ok (until_nul (de_name e))
  end.

Definition part_ok (x : dir) : Prop :=
  d_num_elements x = length (d_dirents x) ∧ d_dirents x ≠ [] ∧ Forall dirent_ok (d_dirents x).

(** What an entry contributes. *)
Definition binding (e : dirent) : option (cstring * oid) := (λ o, (until_nul (de_name e), o)) <$> de_inode e.
Definition bindings (es : list dirent) : list (cstring * oid) := omap binding es.

(** The directory [i] consists of the parts [ps] and holds the entries [m]. *)
Record dir_rep (p : ppool) (i : oid) (ps : list dirp) (m : gmap cstring oid) : Prop := {
  dr_chain : dir_chain p (InInode i) ps;
  dr_nodup : NoDup ps;
  dr_parts : ∀ d x, d ∈ ps → dir_lookup p d = Some x → part_ok x;
  dr_names : NoDup (bindings (all_dirents p ps)).*1;
  dr_map : m = list_to_map (bindings (all_dirents p ps));
}.

Section chain.
Implicit Types (p : ppool) (d : dirp) (ps : list dirp).

Lemma chain_lookup p d ps d' : dir_chain p d ps → d' ∈ ps → is_Some (dir_lookup p d').
Proof.
  induction 1 as [d x Hx _|d x o ps Hx _ _ IH]; intros Hin.
  - apply list_elem_of_singleton in Hin as ->. by eexists.
  - apply elem_of_cons in Hin as [->|Hin]; [by eexists|auto].
Qed.

Lemma chain_head p d ps : dir_chain p d ps → ∃ ps', ps = d :: ps'.
Proof. destruct 1; eauto. Qed.

(** The parts behind the first are objects. *)
Lemma chain_tail p d ps : dir_chain p d ps → ∃ os, ps = d :: (DirObj <$> os).
Proof.
  induction 1 as [d x Hx Hn|d x o ps Hx Hn Hc [os ->]]; [by exists []|]. by exists (o :: os).
Qed.

Lemma chain_frame p p' d ps : dir_chain p d ps → (∀ d', d' ∈ ps → dir_lookup p' d' = dir_lookup p d') → dir_chain p' d ps.
Proof.
  induction 1 as [d x Hx Hn|d x o ps Hx Hn _ IH]; intros Hf.
  - eapply chain_last; [|done]. rewrite Hf; [done|]. by left.
  - eapply chain_next; [|done|].
    + rewrite Hf; [done|]. by left.
    + apply IH. intros d' Hd'. apply Hf. by right.
Qed.

Lemma all_dirents_frame p p' ps : (∀ d', d' ∈ ps → dir_lookup p' d' = dir_lookup p d') → all_dirents p' ps = all_dirents p ps.
Proof.
  intros Hf. unfold all_dirents. induction ps as [|d ps IH]; [done|]. cbn. unfold part_dirents at 1 3.
  rewrite Hf by (by left). f_equal. apply IH. intros d' Hd'. apply Hf. by right.
Qed.

(** A directory depends only on its parts. *)
Lemma dir_rep_frame p p' i ps m :
  dir_rep p i ps m → (∀ d, d ∈ ps → dir_lookup p' d = dir_lookup p d) → dir_rep p' i ps m.
Proof.
  intros [Hc Hn Hp Hk Hm] Hf. split; [by eapply chain_frame|done|..].
  - intros d x Hd Hx. rewrite Hf in Hx by done. by eapply Hp.
  - by rewrite (all_dirents_frame _ _ _ Hf).
  - by rewrite (all_dirents_frame _ _ _ Hf).
Qed.

(** The chain is not longer than there are objects. *)
Lemma chain_length p i ps : dir_chain p (InInode i) ps → NoDup ps → (length ps ≤ S (size (pp_dirs p)))%nat.
Proof.
  intros Hc Hnd. destruct (chain_tail _ _ _ Hc) as [os ->]. cbn [length]. rewrite length_fmap. apply le_n_S.
  apply NoDup_cons in Hnd as [_ Hnd]. apply NoDup_fmap_1 in Hnd.
  rewrite <-(size_list_to_set (C := gset oid) os Hnd), <-size_dom. apply subseteq_size. intros o Ho. apply elem_of_list_to_set in Ho.
  apply elem_of_dom. destruct (chain_lookup _ _ _ (DirObj o) Hc) as [x Hx]; [|by exists x].
  right. apply list_elem_of_fmap. eauto.
Qed.
End chain.

(** ** Searching *)

Section search.
Implicit Types (p : ppool) (d : dirp) (ps : list dirp) (f : dirent → bool).

Lemma find_dirent_spec f es i :
  match find_dirent f es i with
  | Some k => ∃ j e, k = (i + j)%nat ∧ es !! j = Some e ∧ f e = true
  | None => ∀ e, e ∈ es → f e = false
  end.
Proof.
  revert i. induction es as [|e es IH]; intros i; cbn [find_dirent].
  - intros e He. by apply elem_of_nil in He.
  - destruct (f e) eqn:Hf.
    + exists 0%nat, e. split; [lia|done].
    + specialize (IH (S i)). destruct (find_dirent f es (S i)) as [k|].
      * destruct IH as (j & e' & -> & Hj & He'). exists (S j), e'. split; [lia|done].
      * intros e' [->|He']%elem_of_cons; [done|auto].
Qed.

(** What a search through the parts [ps] may return. *)
Definition found p ps f (r : option deptr) : Prop :=
  match r with
  | Some e => e.1 ∈ ps ∧ ∃ x, dirent_lookup p e = Some x ∧ f x = true
  | None => ∀ x, x ∈ all_dirents p ps → f x = false
  end.

Lemma part_ok_used x : part_ok x → used_dirents x = d_dirents x.
Proof. intros (Hn & _). unfold used_dirents. rewrite Hn. by apply take_ge. Qed.

Lemma elem_of_all_dirents p d ps x : x ∈ all_dirents p (d :: ps) ↔ x ∈ part_dirents p d ∨ x ∈ all_dirents p ps.
Proof. unfold all_dirents. cbn. by rewrite elem_of_app. Qed.

Lemma find_in_part p d x f :
  dir_lookup p d = Some x → part_ok x →
  match find_dirent f (used_dirents x) 0 with
  | Some k => ∃ e, dirent_lookup p (d, k) = Some e ∧ f e = true
  | None => ∀ e, e ∈ part_dirents p d → f e = false
  end.
Proof.
  intros Hx Hok. rewrite (part_ok_used _ Hok). pose proof (find_dirent_spec f (d_dirents x) 0) as Hs.
  unfold part_dirents, dirent_lookup. cbn. rewrite Hx. cbn.
  destruct (find_dirent f (d_dirents x) 0) as [k|]; [|done]. destruct Hs as (j & e & -> & Hj & He). by exists e.
Qed.

Lemma wp_lookup_loop s f d ps fuel (Q : option deptr → pool → Prop) E :
  dir_chain (po_pm s) d ps → (∀ d x, d ∈ ps → dir_lookup (po_pm s) d = Some x → part_ok x) → (length ps ≤ fuel)%nat →
  (∀ r, found (po_pm s) ps f r → Q r s) → wp (lookup_loop fuel f (Some d)) Q E s.
Proof.
  intros Hc. revert fuel Q. remember (po_pm s) as p eqn:Hp.
  induction Hc as [d x Hx Hn|d x o ps Hx Hn Hc IH]; intros fuel Q Hok Hfuel HQ;
    (destruct fuel as [|fuel]; [cbn in Hfuel; lia|]); cbn [lookup_loop];
    (apply wp_bind; eapply wp_dir_get; [by rewrite <-Hp|]);
    pose proof (find_in_part _ _ _ f Hx (Hok d x ltac:(by left) Hx)) as Hf; destruct (find_dirent _ _ _) as [k|].
  - apply wp_ret, HQ. split; [apply elem_of_cons; by left|done].
  - rewrite Hn. cbn. destruct fuel; apply wp_ret, HQ; intros y; unfold all_dirents; cbn; rewrite app_nil_r; apply Hf.
  - apply wp_ret, HQ. split; [apply elem_of_cons; by left|done].
  - rewrite Hn. cbn. apply IH.
    + intros d' x' Hd'. apply Hok. by right.
    + cbn in Hfuel. lia.
    + intros [e|] Hr; apply HQ.
      * destruct Hr as [He Hr]. split; [apply elem_of_cons; by right|done].
      * intros y [Hy|Hy]%elem_of_all_dirents; [by apply Hf|by apply Hr].
Qed.

(** *** Entries and names *)

Lemma all_dirents_ok p i ps m x : dir_rep p i ps m → x ∈ all_dirents p ps → dirent_ok x.
Proof.
  intros Hr (d & Hx & Hd)%list_elem_of_bind. unfold part_dirents in Hx.
  destruct (dir_lookup p d) as [y|] eqn:Hy; [|by apply elem_of_nil in Hx].
  destruct (dr_parts _ _ _ _ Hr d y Hd Hy) as (_ & _ & Hok). by eapply Forall_forall.
Qed.

Lemma dirent_in_all p ps e x : e.1 ∈ ps → dirent_lookup p e = Some x → x ∈ all_dirents p ps.
Proof.
  unfold dirent_lookup. intros He (y & Hy & Hx)%bind_Some. apply list_elem_of_bind. exists e.1. split; [|done].
  unfold part_dirents. rewrite Hy. by eapply list_elem_of_lookup_2.
Qed.

Lemma elem_of_bindings es b : b ∈ bindings es ↔ ∃ x, x ∈ es ∧ de_inode x = Some b.2 ∧ until_nul (de_name x) = b.1.
Proof.
  unfold bindings. rewrite list_elem_of_omap. unfold binding. split.
  - intros (x & Hx & (o & Ho & ->)%fmap_Some). by exists x.
  - intros (x & Hx & Ho & Hn). exists x. rewrite Ho. cbn. split; [done|]. destruct b. cbn in *. by subst.
Qed.

Lemma dir_rep_lookup p i ps m name o :
  dir_rep p i ps m → m !! name = Some o ↔ ∃ x, x ∈ all_dirents p ps ∧ de_inode x = Some o ∧ until_nul (de_name x) = name.
Proof.
  intros Hr. rewrite (dr_map _ _ _ _ Hr). rewrite <-elem_of_list_to_map by apply Hr. by rewrite elem_of_bindings.
Qed.

(** The name an argument [name] of length [n] stands for. *)
Definition name_arg (name : cstring) (n : nat) (k : cstring) : Prop := take n name = k ∧ (n ≤ length name)%nat ∧ NUL ∉ k ∧ k ≠ [].

Lemma has_name_spec name n k e : name_arg name n k → has_name name n e = bool_decide (until_nul (de_name e) = k).
Proof. intros (<- & Hn & Hk & _). unfold has_name. by apply str_compare_zero. Qed.

Lemma until_nul_free s : char_at s 0 = NUL → until_nul s = [].
Proof. destruct s as [|c s]; [done|]. cbn. intros ->. by rewrite decide_True. Qed.

(** The entry with a given non-empty name is in use. *)
Lemma named_in_use e k : dirent_ok e → until_nul (de_name e) = k → k ≠ [] → is_Some (de_inode e).
Proof. intros [_ Hok] <- Hk. destruct (de_inode e); [by eexists|]. by apply until_nul_free in Hok. Qed.

(** Searching for a name is looking it up in the map. *)
Lemma found_name p i ps m name n k r :
  dir_rep p i ps m → name_arg name n k → found p ps (has_name name n) r →
  match r with
  | Some e => e.1 ∈ ps ∧ ∃ x o, dirent_lookup p e = Some x ∧ de_inode x = Some o ∧ until_nul (de_name x) = k ∧ m !! k = Some o
  | None => m !! k = None
  end.
Proof.
  intros Hr Hk Hf. destruct r as [e|]; cbn in Hf.
  - destruct Hf as (He & x & Hx & Hn). rewrite (has_name_spec _ _ _ _ Hk) in Hn. apply bool_decide_eq_true in Hn.
    pose proof (dirent_in_all _ _ _ _ He Hx) as Hin. destruct Hk as (_ & _ & _ & Hk).
    destruct (named_in_use x k (all_dirents_ok _ _ _ _ _ Hr Hin) Hn Hk) as [o Ho].
    split; [done|]. exists x, o. split_and!; [done..|]. apply (dir_rep_lookup _ _ _ _ _ _ Hr). eauto.
  - destruct (m !! k) as [o|] eqn:Hm; [|done]. apply (dir_rep_lookup _ _ _ _ _ _ Hr) in Hm as (x & Hx & Ho & Hn).
    specialize (Hf x Hx). rewrite (has_name_spec _ _ _ _ Hk) in Hf. by apply bool_decide_eq_false in Hf.
Qed.
End search.

(** ** Changing an entry *)

Section change.
Implicit Types (p : ppool) (d : dirp) (ps : list dirp).

Lemma chain_same_next p p' d ps :
  dir_chain p d ps →
  (∀ d' x, d' ∈ ps → dir_lookup p d' = Some x → ∃ x', dir_lookup p' d' = Some x' ∧ d_next x' = d_next x) →
  dir_chain p' d ps.
Proof.
  induction 1 as [d x Hx Hn|d x o ps Hx Hn _ IH]; intros Hf.
  - destruct (Hf d x) as (x' & Hx' & Hn'); [by left|done|]. apply (chain_last _ _ x'); [done|by rewrite Hn'].
  - destruct (Hf d x) as (x' & Hx' & Hn'); [by left|done|]. apply (chain_next _ _ x' o); [done|by rewrite Hn'|].
    apply IH. intros d' y Hd'. apply Hf. by right.
Qed.

Lemma part_dirents_upd_ne p (e : deptr) f d : d ≠ e.1 → part_dirents (dirent_upd e f p) d = part_dirents p d.
Proof. intros Hne. unfold part_dirents, dirent_upd. by rewrite dir_lookup_upd_ne. Qed.

Lemma all_dirents_upd_notin p ps (e : deptr) f : e.1 ∉ ps → all_dirents (dirent_upd e f p) ps = all_dirents p ps.
Proof. intros He. apply all_dirents_frame. intros d' Hd'. apply dir_lookup_upd_ne. intros Heq. apply He. by rewrite Heq. Qed.

Lemma all_dirents_upd p ps (e : deptr) f x :
  NoDup ps → e.1 ∈ ps → dirent_lookup p e = Some x →
  ∃ l1 l2, all_dirents p ps = l1 ++ x :: l2 ∧ all_dirents (dirent_upd e f p) ps = l1 ++ f x :: l2.
Proof.
  intros Hnd He Hx. induction ps as [|d ps IH]; [by apply elem_of_nil in He|].
  apply NoDup_cons in Hnd as [Hd Hnd]. unfold all_dirents. cbn [mbind list_bind]. fold (all_dirents p ps).
  fold (all_dirents (dirent_upd e f p) ps). destruct (decide (e.1 = d)) as [<-|Hne].
  - rewrite all_dirents_upd_notin by done. unfold dirent_lookup in Hx. apply bind_Some in Hx as (y & Hy & Hx).
    unfold part_dirents, dirent_upd. rewrite (dir_lookup_upd _ _ _ _ Hy), Hy. cbn.
    destruct (list_elem_of_split_length (d_dirents y) e.2 x Hx) as (l1 & l2 & -> & Hl).
    exists l1, (l2 ++ all_dirents p ps). rewrite Hl, <-!app_assoc. split; [done|].
    replace (length l1) with (length l1 + 0)%nat by lia. by rewrite alter_app_r, <-app_assoc.
  - apply elem_of_cons in He as [?|He]; [done|]. destruct (IH Hnd He) as (l1 & l2 & -> & ->).
    exists (part_dirents p d ++ l1), l2. rewrite part_dirents_upd_ne by done. by rewrite <-!app_assoc.
Qed.

Lemma bindings_app l1 l2 : bindings (l1 ++ l2) = bindings l1 ++ bindings l2.
Proof. apply omap_app. Qed.

(** The map without an entry, and with one more. *)
Definition forget (b : option (cstring * oid)) (m : gmap cstring oid) : gmap cstring oid :=
  match b with Some b => delete b.1 m | None => m end.
Definition learn (b : option (cstring * oid)) (m : gmap cstring oid) : gmap cstring oid :=
  match b with Some b => <[b.1 := b.2]> m | None => m end.

Lemma bindings_perm l1 x l2 : bindings (l1 ++ x :: l2) ≡ₚ option_list (binding x) ++ bindings (l1 ++ l2).
Proof.
  rewrite !bindings_app. unfold bindings at 2. cbn. destruct (binding x) as [b|]; cbn; [|done].
  by rewrite <-Permutation_middle.
Qed.

Lemma learn_perm b l : NoDup (option_list b ++ l).*1 → list_to_map (option_list b ++ l) = learn b (list_to_map l : gmap cstring oid).
Proof. by destruct b as [[]|]. Qed.

Lemma dir_rep_change p i ps m (e : deptr) f x :
  dir_rep p i ps m → e.1 ∈ ps → dirent_lookup p e = Some x → dirent_ok (f x) →
  (∀ b, binding (f x) = Some b → forget (binding x) m !! b.1 = None) →
  dir_rep (dirent_upd e f p) i ps (learn (binding (f x)) (forget (binding x) m)).
Proof.
  intros [Hc Hn Hp Hk Hm] He Hx Hok Hb. destruct (all_dirents_upd p ps e f x Hn He Hx) as (l1 & l2 & Ha & Ha').
  rewrite Ha in Hk, Hm. rewrite (bindings_perm l1 x l2) in Hk.
  assert (forget (binding x) m = list_to_map (bindings (l1 ++ l2))) as Hfm.
  { rewrite Hm, (list_to_map_proper (bindings (l1 ++ x :: l2)) _ ltac:(by rewrite bindings_perm) (bindings_perm l1 x l2)), learn_perm by done.
    destruct (binding x) as [[k o]|]; [|done]. cbn. rewrite delete_insert_id; [done|].
    apply not_elem_of_list_to_map_1. rewrite fmap_app in Hk. cbn in Hk. by apply NoDup_cons in Hk as [? _]. }
  assert (NoDup (option_list (binding (f x)) ++ bindings (l1 ++ l2)).*1) as Hnd.
  { rewrite fmap_app in Hk |- *. apply NoDup_app in Hk as (_ & _ & Hk).
    destruct (binding (f x)) as [b|]; [|done]. cbn. apply NoDup_cons. split; [|done].
    specialize (Hb b eq_refl). rewrite Hfm in Hb. by apply not_elem_of_list_to_map_2 in Hb. }
  assert (∀ d y, d ∈ ps → dir_lookup p d = Some y → ∃ y', dir_lookup (dirent_upd e f p) d = Some y' ∧ d_next y' = d_next y ∧
    d_num_elements y' = d_num_elements y ∧ (y' = y ∨ d = e.1 ∧ y' = set_d_dirents (alter f e.2 (d_dirents y)) y)) as Hl.
  { intros d y Hd Hy. destruct (decide (e.1 = d)) as [<-|Hne].
    - unfold dirent_upd. rewrite (dir_lookup_upd _ _ _ _ Hy). eexists. split; [done|]. split_and!; [done..|by right].
    - unfold dirent_upd. rewrite dir_lookup_upd_ne by done. exists y. split_and!; auto. }
  split.
  - eapply chain_same_next; [done|]. intros d y Hd Hy. destruct (Hl d y Hd Hy) as (y' & ? & ? & _). eauto.
  - done.
  - intros d y' Hd Hy'. destruct (chain_lookup _ _ _ d Hc Hd) as [y Hy].
    destruct (Hl d y Hd Hy) as (y'' & Hy'' & _ & Hnum & Hcase). simplify_eq. destruct (Hp d y Hd Hy) as (H1 & H2 & H3).
    destruct Hcase as [->|[-> ->]]; [done|]. cbn in *. unfold part_ok. cbn. rewrite length_alter. split; [done|]. split.
    + intros Hnil%(f_equal length). rewrite length_alter in Hnil. by destruct (d_dirents y).
    + apply Forall_alter; [done|]. intros z Hz _. unfold dirent_lookup in Hx. rewrite Hy in Hx. cbn in Hx. by simplify_eq.
  - rewrite Ha'. by rewrite (bindings_perm l1 (f x) l2).
  - rewrite Ha', (list_to_map_proper (bindings (l1 ++ f x :: l2)) _ ltac:(by rewrite bindings_perm) (bindings_perm l1 (f x) l2)), learn_perm by done.
    by rewrite Hfm.
Qed.
End change.

(** ** A new part *)

Definition new_part : dir :=
  Dir (PMEMFILE_DIR_VERSION 1) (Z.to_nat ((METADATA_BLOCK_SIZE - SIZEOF_DIR) / SIZEOF_DIRENT)) None
    (replicate (Z.to_nat ((METADATA_BLOCK_SIZE - SIZEOF_DIR) / SIZEOF_DIRENT)) zero_dirent).

(** The directory [parent] after its last part [d] got the successor [o]. *)
Definition grown (parent : oid) (d : dirp) (o : oid) (p : ppool) : ppool :=
  inode_upd parent (λ i, inode_tx_set_size (u64 (inode_get_size i + METADATA_BLOCK_SIZE)) i)
    (dir_upd d (set_d_next (Some o)) (set_pp_dirs (<[o := new_part]> (pp_dirs p)) p)).

Definition del_dir (o : oid) (p : ppool) : ppool := set_pp_dirs (delete o (pp_dirs p)) p.

Section grow.
Implicit Types (p : ppool) (d : dirp) (ps : list dirp).

Lemma del_dir_upd_same p o f : del_dir o (dir_upd (DirObj o) f p) = del_dir o p.
Proof. unfold del_dir, dir_upd, set_pp_dirs. cbn. by rewrite delete_alter_eq. Qed.

Lemma del_dir_upd_ne p o d f : d ≠ DirObj o → del_dir o (dir_upd d f p) = dir_upd d f (del_dir o p).
Proof.
  intros Hne. destruct d as [i|o']; [done|]. unfold del_dir, dir_upd, set_pp_dirs. cbn. by rewrite delete_alter_ne by congruence.
Qed.

Lemma del_dir_put p o x : pp_dirs p !! o = None → del_dir o (set_pp_dirs (<[o := x]> (pp_dirs p)) p) = p.
Proof. intros Ho. unfold del_dir, set_pp_dirs. cbn. rewrite delete_insert_id by done. by destruct p. Qed.

(** Two updates of a new object are one. *)
Lemma dir_upd_put p o x f : dir_upd (DirObj o) f (set_pp_dirs (<[o := x]> (pp_dirs p)) p) = set_pp_dirs (<[o := f x]> (pp_dirs p)) p.
Proof. unfold dir_upd, set_pp_dirs. cbn. by rewrite alter_insert_eq. Qed.

Lemma inode_upd_ext p i x f g : inode_lookup p i = Some x → f x = g x → inode_upd i f p = inode_upd i g p.
Proof.
  unfold inode_lookup, inode_upd. intros (y & Hy & ->)%fmap_Some Hf. f_equal. apply alter_ext. intros z Hz.
  assert (z = y) as -> by congruence. by rewrite Hf.
Qed.

Lemma dir_upd_comm p d d' f g : d ≠ d' → dir_upd d f (dir_upd d' g p) = dir_upd d' g (dir_upd d f p).
Proof.
  intros Hne. destruct d as [i|o], d' as [j|o']; try done; unfold dir_upd, set_pp_inodes, set_pp_dirs; cbn;
    f_equal; apply alter_alter_ne; congruence.
Qed.
End grow.

Section add_part.
Context `{!PoolAlloc} `{!PoolAllocOk}.
Variables (cfg : block_cfg).
Hypothesis Hcfg : bi_size (metadata_block_info cfg) = METADATA_BLOCK_SIZE.

Lemma txop_add_dir_part s pm parent d x i (P : oid → ppool → Prop) (E : Z → Prop) :
  dir_lookup pm d = Some x → d_next x = None → inode_lookup pm parent = Some i → E ENOMEM →
  (∀ o, pp_dirs pm !! o = None → P o (grown parent d o pm)) →
  txop (add_dir_part cfg parent d) s pm P E.
Proof.
  intros Hx Hn Hi HE HP k t locks. unfold add_dir_part. rewrite Hcfg. apply wp_bind, wp_tx_add, wp_bind, wp_tx_xalloc.
  { exists k, [snap_dir_next d pm], pm. split_and!; [done| |done]. cbn. unfold snap_dir_next. rewrite Hx.
    by apply (dir_upd_id _ _ x); [|destruct x]. }
  intros o Ho. destruct (pool_palloc_fresh _ _ _ Ho) as (_ & Hfresh & _).
  assert (d ≠ DirObj o) as Hd by (intros ->; cbn in Hx; congruence).
  apply wp_bind, wp_pm_modify, wp_bind, wp_pm_modify, wp_bind. eapply wp_inode_get.
  { cbn [po_pm tx_state set_po_locks set_po_tx set_po_pm]. rewrite !inode_lookup_dir_upd. done. }
  unfold tx_set_inode_size, tx_inode. apply wp_bind, wp_bind. eapply wp_inode_get.
  { cbn [po_pm tx_state set_po_locks set_po_tx set_po_pm]. rewrite !inode_lookup_dir_upd. done. }
  apply wp_bind, wp_tx_add, wp_pm_modify, wp_bind, wp_pm_modify, wp_ret. rewrite !tx_more_more.
  eexists k, _, (grown parent d o pm). split_and!; [| |by apply HP].
  - f_equal. unfold grown. rewrite <-inode_dir_comm, (dir_upd_comm _ (DirObj o) d), dir_upd_comm by congruence.
    rewrite !dir_upd_put. apply (inode_upd_ext _ _ i); [|done]. by rewrite inode_lookup_dir_upd.
  - cbn [undo_log]. change (snap_dir_next d pm (del_dir o (inode_upd parent (undo_size i) (grown parent d o pm))) = pm).
    unfold grown. rewrite (inode_upd_undo _ _ i) by (by rewrite ?inode_lookup_dir_upd || apply undo_size_set).
    rewrite del_dir_upd_ne, del_dir_put by done. unfold snap_dir_next. rewrite Hx, dir_upd_upd.
    by apply (dir_upd_id _ _ x); [|destruct x].
Qed.
End add_part.

(** *** The directory with a new part *)

Section grown.
Implicit Types (p : ppool) (d : dirp) (ps : list dirp).

Lemma grown_lookup p i d o d' x :
  pp_dirs p !! o = None → dir_lookup p d = Some x →
  dir_lookup (grown i d o p) d' =
    if decide (d' = DirObj o) then Some new_part else if decide (d' = d) then Some (set_d_next (Some o) x) else dir_lookup p d'.
Proof.
  intros Ho Hx. unfold grown. rewrite dir_lookup_inode_upd. assert (d ≠ DirObj o) as Hd by (intros ->; cbn in Hx; congruence).
  case_decide as H1; [subst d'; rewrite dir_lookup_upd_ne by done; apply lookup_insert_eq|].
  assert (∀ d0, d0 ≠ DirObj o → dir_lookup (set_pp_dirs (<[o := new_part]> (pp_dirs p)) p) d0 = dir_lookup p d0) as Hput.
  { intros [j|o'] Hne; [done|]. cbn. apply lookup_insert_ne. congruence. }
  case_decide as H2; [subst d'|rewrite dir_lookup_upd_ne by done; by apply Hput].
  apply dir_lookup_upd. by rewrite Hput.
Qed.

Lemma chain_snoc p p' d ps dl o x :
  dir_chain p d ps → NoDup ps → last ps = Some dl → dir_lookup p' (DirObj o) = Some x → d_next x = None →
  (∀ y, dir_lookup p dl = Some y → dir_lookup p' dl = Some (set_d_next (Some o) y)) →
  (∀ d', d' ∈ ps → d' ≠ dl → dir_lookup p' d' = dir_lookup p d') → dir_chain p' d (ps ++ [DirObj o]).
Proof.
  intros Hc Hnd Hl Hx Hn Hdl Ho. induction Hc as [d y Hy Hny|d y o' ps Hy Hny Hc IH].
  - injection Hl as <-. cbn. eapply (chain_next _ _ (set_d_next (Some o) y)); [by apply Hdl|done|]. by eapply chain_last.
  - destruct (chain_head _ _ _ Hc) as [ps' ->]. apply NoDup_cons in Hnd as [Hd Hnd].
    assert (dl ∈ DirObj o' :: ps') as Hin by (by apply last_Some_elem_of).
    cbn. apply (chain_next _ _ y o'); [|done|].
    + rewrite Ho; [done|by left|]. by intros ->.
    + apply IH; [done|done|]. intros d' Hd'. apply Ho. by right.
Qed.

Lemma bindings_zero n : bindings (replicate n zero_dirent) = [].
Proof. induction n as [|n IH]; [done|]. exact IH. Qed.

Lemma part_dirents_grown p i d o d' x :
  pp_dirs p !! o = None → dir_lookup p d = Some x → d' ≠ DirObj o → part_dirents (grown i d o p) d' = part_dirents p d'.
Proof.
  intros Ho Hx Hne. unfold part_dirents. rewrite (grown_lookup _ _ _ _ _ _ Ho Hx), decide_False by done.
  case_decide; [|done]. subst d'. by rewrite Hx.
Qed.

Lemma new_part_ok : part_ok new_part.
Proof.
  unfold new_part. replace (Z.to_nat _) with 14%nat by reflexivity. split_and!; cbn [d_num_elements d_dirents].
  - by rewrite length_replicate.
  - done.
  - apply Forall_replicate. split; [|done]. cbn [zero_dirent de_name]. by rewrite length_replicate.
Qed.

Lemma dir_rep_grown p i ps m dl o :
  dir_rep p i ps m → last ps = Some dl → pp_dirs p !! o = None → dir_rep (grown i dl o p) i (ps ++ [DirObj o]) m.
Proof.
  intros [Hc Hn Hp Hk Hm] Hl Ho. assert (dl ∈ ps) as Hdl by (by apply last_Some_elem_of).
  destruct (chain_lookup _ _ _ _ Hc Hdl) as [x Hx].
  assert (∀ d, d ∈ ps → d ≠ DirObj o) as Hno.
  { intros d Hd ->. destruct (chain_lookup _ _ _ _ Hc Hd) as [y Hy]. cbn in Hy. congruence. }
  assert (bindings (all_dirents (grown i dl o p) (ps ++ [DirObj o])) = bindings (all_dirents p ps)) as Hb.
  { unfold all_dirents. rewrite bind_app, bindings_app. cbn. rewrite app_nil_r.
    unfold part_dirents at 2. rewrite (grown_lookup _ _ _ _ _ _ Ho Hx), decide_True by done. cbn [new_part d_dirents].
    rewrite bindings_zero, app_nil_r. f_equal. clear -Ho Hx Hno. induction ps as [|d ps IH]; [done|]. cbn.
    rewrite (part_dirents_grown _ _ _ _ _ _ Ho Hx) by (apply Hno; by left). f_equal. apply IH. intros d' Hd'. apply Hno. by right. }
  split.
  - eapply (chain_snoc p); [done|done|done|..].
    + by rewrite (grown_lookup _ _ _ _ _ _ Ho Hx), decide_True.
    + done.
    + intros y Hy. rewrite (grown_lookup _ _ _ _ _ _ Ho Hx), decide_False, decide_True by auto. congruence.
    + intros d' Hd' Hne. by rewrite (grown_lookup _ _ _ _ _ _ Ho Hx), !decide_False by auto.
  - apply NoDup_app. split; [done|]. split; [|apply NoDup_singleton]. intros d Hd Hd'. apply list_elem_of_singleton in Hd'.
    by apply (Hno d).
  - intros d y Hd. rewrite (grown_lookup _ _ _ _ _ _ Ho Hx). case_decide; [intros [= <-]; apply new_part_ok|].
    apply elem_of_app in Hd as [Hd|Hd]; [|by apply list_elem_of_singleton in Hd].
    case_decide; [subst d; intros [= <-]; exact (Hp dl x Hdl Hx)|by apply Hp].
  - by rewrite Hb.
  - by rewrite Hb.
Qed.
End grown.

(** ** Adding an entry *)

Definition free_at (p : ppool) (ps : list dirp) (e : deptr) : Prop :=
  e.1 ∈ ps ∧ ∃ x, dirent_lookup p e = Some x ∧ name_empty x = true.

(** The directory as it was, or with a new part. *)
Definition room (p : ppool) (i : oid) (ps : list dirp) (p' : ppool) (ps' : list dirp) : Prop :=
  (p' = p ∧ ps' = ps) ∨
  (∃ dl o, last ps = Some dl ∧ pp_dirs p !! o = None ∧ p' = grown i dl o p ∧ ps' = ps ++ [DirObj o]).

Lemma dir_rep_room p i ps m p' ps' : dir_rep p i ps m → room p i ps p' ps' → dir_rep p' i ps' m.
Proof. intros Hr [[-> ->]|(dl & o & Hl & Ho & -> & ->)]; [done|by apply dir_rep_grown]. Qed.

Lemma existsb_false {A} (f : A → bool) l : existsb f l = false → ∀ x, x ∈ l → f x = false.
Proof.
  intros Hf x Hx. destruct (f x) eqn:Hfx; [|done]. rewrite <-Hf. symmetry. apply existsb_exists. exists x.
  by rewrite <-list_elem_of_In.
Qed.

Section add_dirent.
Context `{!PoolAlloc} `{!PoolAllocOk}.
Variables (cfg : block_cfg).
Hypothesis Hcfg : bi_size (metadata_block_info cfg) = METADATA_BLOCK_SIZE.

(** The errors of [inode_add_dirent]. *)
Definition add_error (m : gmap cstring oid) (k : cstring) (nlink : Z) (n : nat) (e : Z) : Prop :=
  e = ENOMEM ∨ (e = EEXIST ∧ is_Some (m !! k)) ∨ (e = ENAMETOOLONG ∧ (PMEMFILE_MAX_FILE_NAME < n)%nat) ∨
  (e = ENOENT ∧ nlink = 0 ∧ k ≠ cstr ".").

Section find_free.
Variables (s : pool) (pm : ppool) (parent : oid) (ps : list dirp) (m : gmap cstring oid) (i : inode).
Variables (name k : cstring) (n : nat) (E : Z → Prop).
Hypothesis Hr : dir_rep pm parent ps m.
Hypothesis Hk : name_arg name n k.
Hypothesis Hi : inode_lookup pm parent = Some i.
Hypothesis Hnomem : E ENOMEM.
Hypothesis Hexist : is_Some (m !! k) → E EEXIST.

(** The entry found is the one found before, if any. *)
Definition free_found (before r : option deptr) (pm' : ppool) : Prop :=
  m !! k = None ∧ (∀ e, before = Some e → r = Some e) ∧
  ∃ e ps', r = Some e ∧ room pm parent ps pm' ps' ∧ free_at pm' ps' e.

(** The free entry known after the part [d]. *)
Definition first_of (d : dirp) (dirent : option deptr) : option deptr :=
  match dirent with
  | Some e => Some e
  | None => match dir_lookup pm d with
            | Some x => (λ i, (d, i)) <$> find_dirent name_empty (used_dirents x) 0
            | None => None
            end
  end.

(** The round on a part that was just added. *)
Lemma txop_find_free_new dl o fuel :
  last ps = Some dl → pp_dirs pm !! o = None → m !! k = None →
  txop (find_free_dirent cfg (S fuel) parent (DirObj o) name n None) s (grown parent dl o pm) (λ r pm', pm' = grown parent dl o pm ∧ free_found None r pm') E.
Proof.
  intros Hl Ho Hm. destruct (chain_lookup _ _ _ dl (dr_chain _ _ _ _ Hr)) as [x Hx]; [by apply last_Some_elem_of|].
  assert (dir_lookup (grown parent dl o pm) (DirObj o) = Some new_part) as Hnew
    by (by rewrite (grown_lookup _ _ _ _ _ _ Ho Hx), decide_True).
  cbn [find_free_dirent]. eapply txop_bind; [by eapply (txop_dir_get _ _ _ _ (λ y q, y = new_part ∧ q = grown parent dl o pm))|].
  intros ? ? [-> ->]. assert (existsb (has_name name n) (used_dirents new_part) = false) as ->.
  { destruct (existsb _ _) eqn:He; [|done]. apply existsb_exists in He as (e & He & Hn). apply list_elem_of_In in He.
    rewrite (has_name_spec _ _ _ _ Hk) in Hn. apply bool_decide_eq_true in Hn. destruct Hk as (_ & _ & _ & Hk').
    rewrite (part_ok_used _ new_part_ok) in He. apply elem_of_replicate in He as [-> _]. exfalso. apply Hk'. rewrite <-Hn. by apply until_nul_free. }
  eapply (txop_bind _ _ _ _ (λ _ q, q = grown parent dl o pm)); [by apply txop_ret|]. intros _ ? ->. cbn -[grown].
  eapply (txop_bind _ _ _ _ (λ r q, r = None ∧ q = grown parent dl o pm)); [by apply txop_ret|]. intros ? ? [-> ->].
  apply txop_ret. split; [done|]. split; [done|]. split; [done|]. exists (DirObj o, 0%nat), (ps ++ [DirObj o]). split; [done|]. split.
  - right. by exists dl, o.
  - split; [apply elem_of_app; right; cbn; by left|]. exists zero_dirent. split; [|done]. unfold dirent_lookup. cbn [fst snd].
    by rewrite Hnew.
Qed.

Lemma has_name_exists e : e ∈ all_dirents pm ps → has_name name n e = true → is_Some (m !! k).
Proof.
  intros He Hn. rewrite (has_name_spec _ _ _ _ Hk) in Hn. apply bool_decide_eq_true in Hn.
  destruct (named_in_use e k (all_dirents_ok _ _ _ _ _ Hr He) Hn) as [o Ho]; [apply Hk|].
  exists o. apply (dir_rep_lookup _ _ _ _ _ _ Hr). eauto.
Qed.

(** One part: the name is not there, or the transaction aborts. *)
Lemma txop_find_round d x dirent fuel P :
  d ∈ ps → dir_lookup pm d = Some x → (∀ e, dirent = Some e → free_at pm ps e) →
  (∀ dirent', (∀ e, dirent' = Some e → free_at pm ps e) → (∀ e, e ∈ part_dirents pm d → has_name name n e = false) →
    dirent' = match dirent with Some e => Some e | None => (λ i, (d, i)) <$> find_dirent name_empty (used_dirents x) 0 end →
    txop (next ← match dirent', d_next x with
                 | None, None => o ← add_dir_part cfg parent d; mret (Some o)
                 | _, next => mret next
                 end;
          match next with
          | Some o => find_free_dirent cfg fuel parent (DirObj o) name n dirent'
          | None => mret dirent'
          end) s pm P E) →
  txop (find_free_dirent cfg (S fuel) parent d name n dirent) s pm P E.
Proof.
  intros Hd Hx Hfree Hrest. cbn [find_free_dirent].
  eapply txop_bind; [by eapply (txop_dir_get _ _ _ _ (λ y q, y = x ∧ q = pm))|]. intros ? ? [-> ->].
  pose proof (dr_parts _ _ _ _ Hr d x Hd Hx) as Hok. pose proof (find_in_part pm d x name_empty Hx Hok) as Hf.
  rewrite (part_ok_used _ Hok) in Hf, Hrest |- *. assert (part_dirents pm d = d_dirents x) as Hpd by (unfold part_dirents; by rewrite Hx).
  destruct (existsb (has_name name n) (d_dirents x)) eqn:Hex.
  - apply existsb_exists in Hex as (e & He & Hne). apply list_elem_of_In in He.
    eapply txop_bind; [apply (txop_abort _ _ _ (λ _ _, False)), Hexist|done]. apply (has_name_exists e); [|done].
    apply list_elem_of_bind. exists d. by rewrite Hpd.
  - eapply (txop_bind _ _ _ _ (λ _ q, q = pm)); [by apply txop_ret|]. intros _ ? ->. apply Hrest.
    + intros e. destruct dirent as [e0|]; [apply Hfree|]. destruct (find_dirent _ _ _) as [j|]; [|done].
      intros [= <-]. by split.
    + rewrite Hpd. by apply existsb_false.
    + done.
Qed.

Lemma txop_find_free ps2 d : ∀ ps1 dirent fuel,
  dir_chain pm d ps2 → ps = ps1 ++ ps2 → (∀ x, x ∈ all_dirents pm ps1 → has_name name n x = false) →
  (∀ e, dirent = Some e → free_at pm ps e) → (length ps2 < fuel)%nat →
  txop (find_free_dirent cfg fuel parent d name n dirent) s pm (free_found (first_of d dirent)) E.
Proof.
  intros ps1 dirent fuel Hc. revert ps1 dirent fuel. induction Hc as [d x Hx Hn|d x o ps2 Hx Hn Hc IH];
    intros ps1 dirent fuel Hps Hno Hfree Hfuel; (destruct fuel as [|fuel]; [lia|]);
    (assert (d ∈ ps) as Hd by (rewrite Hps; apply elem_of_app; right; by left));
    (apply (txop_find_round d x); [done..|]); intros dirent' Hfree' Hnod Hfirst; rewrite Hn;
    (assert (first_of d dirent = dirent') as Hkeep by (unfold first_of; by rewrite Hx)); rewrite Hkeep;
    (assert (∀ e, e ∈ all_dirents pm (ps1 ++ [d]) → has_name name n e = false) as Hno1
      by (intros e; unfold all_dirents; rewrite bind_app, elem_of_app; cbn; rewrite app_nil_r; intros [?|?]; auto)).
  - assert (m !! k = None) as Hm.
    { rewrite <-Hps in Hno1. destruct (m !! k) as [o|] eqn:Hm; [|done].
      apply (dir_rep_lookup _ _ _ _ _ _ Hr) in Hm as (y & Hy & _ & Hnm). specialize (Hno1 y Hy).
      rewrite (has_name_spec _ _ _ _ Hk) in Hno1. by apply bool_decide_eq_false in Hno1. }
    assert (last ps = Some d) as Hl by (by rewrite Hps, last_snoc). destruct dirent' as [e|].
    + eapply (txop_bind _ _ _ _ (λ r q, r = None ∧ q = pm)); [by apply txop_ret|]. intros ? ? [-> ->]. apply txop_ret.
      split; [done|]. split; [done|]. exists e, ps. split; [done|]. split; [by left|by apply Hfree'].
    + eapply (txop_bind _ _ _ _ (λ r q, ∃ o, r = Some o ∧ pp_dirs pm !! o = None ∧ q = grown parent d o pm)).
      { eapply txop_bind.
        - by eapply (txop_add_dir_part cfg Hcfg _ _ _ _ _ _ (λ o q, pp_dirs pm !! o = None ∧ q = grown parent d o pm)).
        - intros o ? [Ho ->]. apply txop_ret. eauto. }
      intros ? ? (o & -> & Ho & ->). destruct fuel as [|fuel]; [cbn in Hfuel; lia|].
      eapply txop_mono; [by apply txop_find_free_new| |done]. intros r q (_ & Hq). exact Hq.
  - eapply (txop_bind _ _ _ _ (λ r q, r = Some o ∧ q = pm)); [destruct dirent'; by apply txop_ret|]. intros ? ? [-> ->].
    eapply txop_mono; [apply (IH (ps1 ++ [d])); [by rewrite <-app_assoc|done|done|]; cbn in Hfuel; lia| |done].
    intros r q (? & Hq & ?). split; [done|]. split; [|done]. intros e ->. by apply Hq.
Qed.

End find_free.
End add_dirent.

(** ** What an operation on a directory leaves alone *)

(** Fields of an inode that the operations on names do not touch. *)
Definition same_meta (x y : inode) : Prop :=
  i_version y = i_version x ∧ i_uid y = i_uid x ∧ i_gid y = i_gid x ∧
  i_suspended_references y = i_suspended_references x ∧ i_flags y = i_flags x ∧
  i_allocated_space y = i_allocated_space x ∧ i_atime y = i_atime x ∧ i_slots y = i_slots x.

#[global] Instance same_meta_preorder : PreOrder same_meta.
Proof.
  split; [intros x; by split_and!|].
  intros x y z (?&?&?&?&?&?&?&?) (?&?&?&?&?&?&?&?). split_and!; congruence.
Qed.

Lemma same_meta_set x :
  (∀ s, same_meta x (set_i_nlink s x)) ∧ (∀ s, same_meta x (set_i_size s x)) ∧
  (∀ s, same_meta x (set_i_mtime s x)) ∧ (∀ s, same_meta x (set_i_ctime s x)).
Proof. by split_and!. Qed.

(** The contents of an inode that is not a directory. *)
Definition plain_data (p : ppool) (j : oid) : option (option file_data) :=
  (λ x, match mi_data x with DataDir _ => None | d => Some d end) <$> pp_inodes p !! j.

(** [p'] differs from [p] in directories, and in the link counts by [δ]. *)
Record names_upd (p p' : ppool) (δ : oid → Z) : Prop := {
  nu_inodes : ∀ j, option_Forall2 (λ x y, same_meta x y ∧ inode_get_nlink y = inode_get_nlink x + δ j) (inode_lookup p j) (inode_lookup p' j);
  nu_data : ∀ j, plain_data p' j = plain_data p j;
  nu_arrays : pp_inode_arrays p' = pp_inode_arrays p;
  nu_chars : pp_chars p' = pp_chars p;
  nu_super : pp_super p' = pp_super p;
}.

Definition no_links : oid → Z := λ _, 0.
Definition one_link (i : oid) : oid → Z := λ j, if decide (j = i) then 1 else 0.

Section names_upd.
Implicit Types (p : ppool).

Lemma names_upd_refl p : names_upd p p no_links.
Proof.
  split; try done. intros j. destruct (inode_lookup p j); constructor. split; [reflexivity|]. unfold no_links. lia.
Qed.

Lemma names_upd_trans p1 p2 p3 δ1 δ2 : names_upd p1 p2 δ1 → names_upd p2 p3 δ2 → names_upd p1 p3 (λ j, δ1 j + δ2 j).
Proof.
  intros [H1 H2 H3 H4 H5] [G1 G2 G3 G4 G5]. split; [|congruence..]. intros j. specialize (H1 j). specialize (G1 j).
  destruct H1 as [x y [Hxy Hn]|]; [|inversion G1; constructor]. inversion G1 as [? z [Hyz Hn'] Ha Hb|]; subst. constructor.
  split; [by etrans|]. lia.
Qed.

Lemma names_upd_ext p p' δ δ' : names_upd p p' δ → (∀ j, δ j = δ' j) → names_upd p p' δ'.
Proof. intros [H1 H2 H3 H4 H5] Hd. split; try done. intros j. rewrite <-Hd. apply H1. Qed.

Lemma plain_data_inode_upd p i f j : plain_data (inode_upd i f p) j = plain_data p j.
Proof.
  unfold plain_data, inode_upd. cbn. destruct (decide (i = j)) as [->|Hne]; [|by rewrite lookup_alter_ne].
  rewrite lookup_alter_eq. by destruct (pp_inodes p !! j) as [[]|].
Qed.

Lemma plain_data_dir_upd p d f j : plain_data (dir_upd d f p) j = plain_data p j.
Proof.
  destruct d as [i|o]; [|done]. unfold plain_data, dir_upd. cbn. destruct (decide (i = j)) as [->|Hne]; [|by rewrite lookup_alter_ne].
  rewrite lookup_alter_eq. by destruct (pp_inodes p !! j) as [[? []]|].
Qed.

Lemma names_upd_inode p i f δ :
  (∀ x, same_meta x (f x)) → (∀ x, inode_lookup p i = Some x → inode_get_nlink (f x) = inode_get_nlink x + δ i) →
  (∀ j, j ≠ i → δ j = 0) → names_upd p (inode_upd i f p) δ.
Proof.
  intros Hf Hn Hd. split; try done; [|intros j; apply plain_data_inode_upd]. intros j. rewrite inode_lookup_upd.
  destruct (inode_lookup p j) as [x|] eqn:Hx; case_decide as Hij; cbn; constructor.
  - subst j. split; [apply Hf|by apply Hn].
  - split; [reflexivity|]. rewrite Hd by done. lia.
Qed.

Lemma names_upd_dir p d f : names_upd p (dir_upd d f p) no_links.
Proof.
  split; try (by destruct d).
  - intros j. rewrite inode_lookup_dir_upd. destruct (inode_lookup p j); constructor. split; [reflexivity|]. unfold no_links. lia.
  - intros j. apply plain_data_dir_upd.
Qed.

Lemma names_upd_new_dir p o x : names_upd p (set_pp_dirs (<[o := x]> (pp_dirs p)) p) no_links.
Proof. by destruct (names_upd_refl p). Qed.

Lemma names_upd_grown p i d o : names_upd p (grown i d o p) no_links.
Proof.
  unfold grown. eapply names_upd_ext; [eapply names_upd_trans; [apply names_upd_new_dir|]|].
  - eapply names_upd_trans; [apply names_upd_dir|]. apply (names_upd_inode _ _ _ no_links); [|by intros x _; rewrite Z.add_0_r|done].
    intros x. apply same_meta_set.
  - intros j. unfold no_links. lia.
Qed.

Lemma names_upd_room p i ps p' ps' : room p i ps p' ps' → names_upd p p' no_links.
Proof. intros [[-> ->]|(dl & o & _ & _ & -> & _)]; [apply names_upd_refl|apply names_upd_grown]. Qed.
End names_upd.

(** ** [inode_add_dirent] *)

Lemma str_contains_not name n c : (n ≤ length name)%nat → c ∉ take n name → str_contains name n c = false.
Proof.
  revert name. induction n as [|n IH]; intros name Hl Hc; [done|]. destruct name as [|x name]; [cbn in Hl; lia|].
  rewrite firstn_cons in Hc. apply not_elem_of_cons in Hc as [Hx Hc]. cbn [str_contains]. unfold char_at. cbn [nth].
  rewrite decide_False by congruence. cbn. apply IH; [|done]. cbn in Hl. lia.
Qed.

(** A name written into the buffer of a free entry, and back. *)
Lemma write_name_spec name n k buf :
  name_arg name n k → (n ≤ PMEMFILE_MAX_FILE_NAME)%nat → length buf = NAME_BUFFER →
  until_nul (write_name name n buf) = k ∧ length (write_name name n buf) = NAME_BUFFER ∧
  take (S n) buf ++ drop (S n) (write_name name n buf) = buf.
Proof.
  intros (<- & Hl & Hk & _) Hn Hb. unfold write_name. split_and!.
  - by apply until_nul_app.
  - rewrite length_app. cbn. rewrite length_take, length_drop, Hb. unfold NAME_BUFFER. lia.
  - rewrite cons_middle, app_assoc. rewrite (drop_app_length' (take n name ++ [NUL])); [apply take_drop|].
    rewrite length_app, length_take. cbn. lia.
Qed.

Lemma name_arg_length name n k : name_arg name n k → length k = n.
Proof. intros (<- & Hl & _). rewrite length_take. lia. Qed.

(** The entry [e] gets the name and the inode; [child] gets a link. *)
Definition entry_added (parent : oid) (e : deptr) (name : cstring) (n : nat) (child : oid) (tm : pmemfile_time) (p : ppool) : ppool :=
  inode_upd parent (inode_tx_set_ctime tm) (inode_upd parent (inode_tx_set_mtime tm)
    (inode_upd child (inode_tx_set_ctime tm) (inode_upd child inode_tx_inc_nlink
      (dirent_upd e (λ x, Dirent (Some child) (write_name name n (de_name x))) p)))).

Lemma names_upd_is_Some p p' δ j : names_upd p p' δ → is_Some (inode_lookup p j) → is_Some (inode_lookup p' j).
Proof. intros Hu [x Hx]. pose proof (nu_inodes _ _ _ Hu j) as H. rewrite Hx in H. inversion H. by eexists. Qed.
Section inode_add_dirent.
Context `{!PoolAlloc} `{!PoolAllocOk}.
Variables (cfg : block_cfg).
Hypothesis Hcfg : bi_size (metadata_block_info cfg) = METADATA_BLOCK_SIZE.

Lemma txop_dir_fuel s pm (P : nat → ppool → Prop) E : P (S (size (pp_dirs pm))) pm → txop dir_fuel s pm P E.
Proof. intros HP. by apply (txop_gets _ (S (size (pp_dirs pm)))). Qed.

(** The first free entry of the part in the inode is used, if there is one. *)
Definition first_free (pm : ppool) (parent : oid) (e : deptr) : Prop :=
  ∀ x j, dir_lookup pm (InInode parent) = Some x → find_dirent name_empty (used_dirents x) 0 = Some j → e = (InInode parent, j).

Lemma txop_inode_add_dirent s pm parent ps m i name n k child tm (P : unit → ppool → Prop) (E : Z → Prop) :
  dir_rep pm parent ps m → name_arg name n k → SLASH ∉ k → inode_lookup pm parent = Some i → is_Some (inode_lookup pm child) →
  (∀ e, add_error m k (inode_get_nlink i) n e → E e) →
  (∀ e pm1 ps1, (n ≤ PMEMFILE_MAX_FILE_NAME)%nat → m !! k = None → room pm parent ps pm1 ps1 → free_at pm1 ps1 e →
    first_free pm parent e → (inode_get_nlink i = 0 → k = cstr ".") → P tt (entry_added parent e name n child tm pm1)) →
  txop (inode_add_dirent cfg parent name n child tm) s pm P E.
Proof.
  intros Hr Hk Hs Hi Hc HE HP. unfold inode_add_dirent. eapply txop_bind; [by apply (txop_in_tx _ _ (λ _ q, q = pm))|]. intros _ ? ->.
  destruct (Nat.ltb_spec PMEMFILE_MAX_FILE_NAME n) as [Hlong|Hlong].
  { eapply txop_bind; [apply (txop_abort _ _ _ (λ _ _, False)), HE; right; right; by left|done]. }
  eapply (txop_pure_seq _ _ tt); [by apply txop_ret|].
  destruct Hk as (Htake & Hl & Hnul & Hne). rewrite str_contains_not by (by rewrite ?Htake).
  assert (name_arg name n k) as Hk by done.
  eapply (txop_pure_seq _ _ tt); [by apply txop_ret|]. eapply (txop_pure_seq _ _ i); [by eapply txop_inode_get|].
  destruct ((inode_get_nlink i =? 0) && negb (str_compare (cstr ".") name n =? 0)) eqn:Hdel.
  { eapply txop_bind; [apply (txop_abort _ _ _ (λ _ _, False)), HE|done].
    rewrite (str_compare_zero _ name n), Htake in Hdel by (by rewrite ?Htake). apply andb_prop in Hdel as [H1%Z.eqb_eq H2%negb_true_iff].
    right; right; right. split_and!; [done..|]. apply bool_decide_eq_false in H2. by intros ->. }
  assert (inode_get_nlink i = 0 → k = cstr ".") as Hlive.
  { intros H1. rewrite H1, (str_compare_zero _ name n), Htake in Hdel by (by rewrite ?Htake). cbn [Z.eqb andb] in Hdel.
    by apply negb_false_iff, bool_decide_eq_true in Hdel. }
  eapply (txop_pure_seq _ _ tt); [by apply txop_ret|]. eapply (txop_pure_seq _ _ (S (size (pp_dirs pm)))); [by apply txop_dir_fuel|].
  eapply txop_bind.
  { eapply (txop_find_free cfg Hcfg s pm parent ps m i name k n E Hr Hk Hi) with (ps1 := []) (ps2 := ps); try done.
    - apply HE. by left.
    - intros Hm. apply HE. right. by left.
    - apply Hr.
    - intros x Hx. by apply elem_of_nil in Hx.
    - pose proof (chain_length _ _ _ (dr_chain _ _ _ _ Hr) (dr_nodup _ _ _ _ Hr)). lia. }
  intros r pm1 (Hm & Hfirst & e & ps1 & -> & Hroom & Hfree). cbn [from_option].
  pose proof (dir_rep_room _ _ _ _ _ _ Hr Hroom) as Hr1. pose proof (names_upd_room _ _ _ _ _ Hroom) as Hu.
  destruct Hfree as (He & x & Hx & Hempty).
  destruct (all_dirents_ok _ _ _ _ _ Hr1 (dirent_in_all _ _ _ _ He Hx)) as [Hbuf _].
  destruct (write_name_spec name n k (de_name x) Hk Hlong Hbuf) as (_ & _ & Hundo).
  assert (is_Some (inode_lookup pm1 parent)) as Hp1 by (eapply names_upd_is_Some; [done|by eexists]).
  assert (is_Some (inode_lookup pm1 child)) as Hc1 by (by eapply names_upd_is_Some).
  apply txop_upd_seq.
  { unfold snap_dirent. rewrite Hx. apply (dirent_upd_undo _ _ x); [done|]. cbn. rewrite Hundo. by destruct x. }
  unfold tx_inc_nlink, tx_set_inode_ctime, tx_set_inode_mtime.
  apply txop_inode_seq; [by auto with pooltx|intros; apply undo_nlink_set|].
  apply txop_inode_seq; [by auto with pooltx|intros; apply undo_ctime_set|].
  apply txop_inode_seq; [by auto with pooltx|intros; apply undo_mtime_set|].
  apply txop_inode_last; [by auto 6 with pooltx|intros; apply undo_ctime_set|]. apply (HP e pm1 ps1); [done..|by split; eauto| |done].
  intros y j Hy Hj. unfold first_of in Hfirst. rewrite Hy, Hj in Hfirst. specialize (Hfirst _ eq_refl). congruence.
Qed.
End inode_add_dirent.

(** ** The effect on all directories *)

(** Directories that share no part with the changed one stay as they are. *)
Definition other_dirs (p p' : ppool) (ps ps' : list dirp) : Prop :=
  ∀ j ps2 m2, dir_rep p j ps2 m2 → ps2 ## ps → dir_rep p' j ps2 m2 ∧ ps2 ## ps'.

Section effects.
Implicit Types (p : ppool) (ps : list dirp).

Lemma dir_rep_inode_upd p i f j ps m : dir_rep p j ps m → dir_rep (inode_upd i f p) j ps m.
Proof. intros Hr. eapply dir_rep_frame; [done|]. intros d _. apply dir_lookup_inode_upd. Qed.

Lemma other_dirs_refl p ps : other_dirs p p ps ps.
Proof. done. Qed.

Lemma other_dirs_trans p1 p2 p3 ps1 ps2 ps3 : other_dirs p1 p2 ps1 ps2 → other_dirs p2 p3 ps2 ps3 → other_dirs p1 p3 ps1 ps3.
Proof. intros H1 H2 j q m Hr Hd. destruct (H1 j q m Hr Hd). by apply H2. Qed.

Lemma other_dirs_inode p i f ps : other_dirs p (inode_upd i f p) ps ps.
Proof. intros j q m Hr Hd. split; [by apply dir_rep_inode_upd|done]. Qed.

Lemma other_dirs_dirent p (e : deptr) f ps : e.1 ∈ ps → other_dirs p (dirent_upd e f p) ps ps.
Proof.
  intros He j q m Hr Hd. split; [|done]. eapply dir_rep_frame; [done|]. intros d Hq. apply dir_lookup_upd_ne.
  intros <-. by apply (Hd e.1).
Qed.

Lemma other_dirs_room p i ps p' ps' m : dir_rep p i ps m → room p i ps p' ps' → other_dirs p p' ps ps'.
Proof.
  intros Hr [[-> ->]|(dl & o & Hl & Ho & -> & ->)]; [apply other_dirs_refl|]. intros j q m2 Hq Hd.
  assert (dl ∈ ps) as Hdl by (by apply last_Some_elem_of).
  destruct (chain_lookup _ _ _ _ (dr_chain _ _ _ _ Hr) Hdl) as [x Hx].
  assert (∀ d, d ∈ q → d ≠ DirObj o) as Hno.
  { intros d Hdq ->. destruct (chain_lookup _ _ _ _ (dr_chain _ _ _ _ Hq) Hdq) as [y Hy]. cbn in Hy. congruence. }
  split.
  - eapply dir_rep_frame; [done|]. intros d Hdq. rewrite (grown_lookup _ _ _ _ _ _ Ho Hx), !decide_False; [done| |by apply Hno].
    intros ->. by apply (Hd dl).
  - intros d Hdq [?|Hdo]%elem_of_app; [by apply (Hd d)|]. apply list_elem_of_singleton in Hdo. by apply (Hno d).
Qed.

Lemma name_empty_free x : dirent_ok x → name_empty x = true → binding x = None.
Proof.
  intros [_ Hok] He%bool_decide_eq_true. unfold binding. destruct (de_inode x); [|done]. destruct Hok as [Hne _].
  by apply until_nul_free in He.
Qed.

Lemma binding_used o nm : binding (Dirent (Some o) nm) = Some (until_nul nm, o).
Proof. done. Qed.

(** The directory with the new entry. *)
Lemma dir_rep_entry_added p i ps m e name n k child tm :
  dir_rep p i ps m → name_arg name n k → SLASH ∉ k → (n ≤ PMEMFILE_MAX_FILE_NAME)%nat → m !! k = None → free_at p ps e →
  dir_rep (entry_added i e name n child tm p) i ps (<[k := child]> m).
Proof.
  intros Hr Hk Hs Hn Hm (He & x & Hx & Hempty). unfold entry_added. do 4 apply dir_rep_inode_upd.
  pose proof (all_dirents_ok _ _ _ _ _ Hr (dirent_in_all _ _ _ _ He Hx)) as Hok.
  destruct (write_name_spec name n k (de_name x) Hk Hn (proj1 Hok)) as (Hu & Hl & _).
  pose proof (name_arg_length _ _ _ Hk) as Hlen. destruct Hk as (_ & _ & Hnul & Hne).
  pose proof (dir_rep_change p i ps m e (λ x, Dirent (Some child) (write_name name n (de_name x))) x Hr He Hx) as Hc.
  cbn beta in Hc. rewrite (name_empty_free x Hok Hempty), binding_used, Hu in Hc. cbn [forget learn fst snd] in Hc. apply Hc.
  - split; [done|]. cbn [de_inode de_name]. rewrite Hu. split_and!; [done|by rewrite Hlen|done|done].
  - by intros b [= <-].
Qed.

Lemma inc_nlink_spec x : 0 ≤ inode_get_nlink x < UINT64_MAX → inode_get_nlink (inode_tx_inc_nlink x) = inode_get_nlink x + 1.
Proof.
  intros Hx. unfold inode_tx_inc_nlink. unfold inode_get_nlink at 1. cbn. rewrite sget_sset. apply Z.mod_small. unfold UINT64_MAX in *. lia.
Qed.

(** Updates of times and sizes. *)
Lemma names_upd_after p p' i f δ :
  names_upd p p' δ → (∀ x, same_meta x (f x)) → (∀ x, inode_get_nlink (f x) = inode_get_nlink x) → names_upd p (inode_upd i f p') δ.
Proof.
  intros Hu Hf Hn. eapply names_upd_ext; [eapply names_upd_trans; [done|]|].
  - apply (names_upd_inode _ _ _ no_links); [done|intros x _; by rewrite Hn, Z.add_0_r|done].
  - intros j. unfold no_links. lia.
Qed.

Lemma names_upd_entry_added p i e name n child tm :
  (∀ x, inode_lookup p child = Some x → 0 ≤ inode_get_nlink x < UINT64_MAX) →
  names_upd p (entry_added i e name n child tm p) (one_link child).
Proof.
  intros Hc. unfold entry_added. do 3 (apply names_upd_after; [|intros x; apply same_meta_set|done]).
  eapply names_upd_ext; [eapply names_upd_trans; [apply names_upd_dir|]|].
  - apply (names_upd_inode _ _ _ (one_link child)); [intros x; apply same_meta_set|..].
    + intros x Hx. rewrite inode_lookup_dir_upd in Hx. unfold one_link. rewrite decide_True by done. by apply inc_nlink_spec, Hc.
    + intros j Hj. unfold one_link. by rewrite decide_False.
  - intros j. unfold no_links. lia.
Qed.
End effects.

(** ** The theorems *)

Section theorems.
Context `{!PoolAlloc} `{!PoolAllocOk}.
Variables (cfg : block_cfg).
Hypothesis Hcfg : bi_size (metadata_block_info cfg) = METADATA_BLOCK_SIZE.

(** C20: [inode_add_dirent] adds exactly the given entry to the directory and one
    link to the inode, in a free entry of the directory or in a new part; other
    directories, file contents and all other inode fields but times and sizes
    stay as they are.  It fails only if the name exists, is too long, the
    directory was deleted or the pool is full.  In every case its undo records
    restore the pool. *)
Theorem inode_add_dirent_correct s pm parent ps m i c name n k child tm :
  dir_rep pm parent ps m → name_arg name n k → SLASH ∉ k →
  inode_lookup pm parent = Some i → inode_lookup pm child = Some c → 0 ≤ inode_get_nlink c < UINT64_MAX →
  txop (inode_add_dirent cfg parent name n child tm) s pm
    (λ _ pm', m !! k = None ∧ names_upd pm pm' (one_link child) ∧
      ∃ ps', dir_rep pm' parent ps' (<[k := child]> m) ∧ other_dirs pm pm' ps ps')
    (add_error m k (inode_get_nlink i) n).
Proof.
  intros Hr Hk Hs Hi Hc Hn. eapply (txop_inode_add_dirent cfg Hcfg s pm parent ps m i name n k child); [done..|by eexists|done|].
  intros e pm1 ps1 Hlong Hm Hroom Hfree _ _. pose proof (dir_rep_room _ _ _ _ _ _ Hr Hroom) as Hr1.
  pose proof (names_upd_room _ _ _ _ _ Hroom) as Hu. split; [done|]. split.
  - eapply names_upd_ext; [eapply names_upd_trans; [done|apply names_upd_entry_added]|].
    + intros x Hx. pose proof (nu_inodes _ _ _ Hu child) as H1. rewrite Hc, Hx in H1. inv H1. unfold no_links in *. lia.
    + intros j. unfold no_links. lia.
  - exists ps1. split; [by apply dir_rep_entry_added|]. eapply other_dirs_trans; [by eapply other_dirs_room|].
    unfold entry_added. eapply other_dirs_trans; [apply other_dirs_dirent, Hfree|].
    do 3 (eapply other_dirs_trans; [apply other_dirs_inode|]). apply other_dirs_inode.
Qed.

(** The search for a name, with the directory locked. *)
Lemma wp_lookup_by_name s v x i ps m name n k (Q : option deptr → pool → Prop) E :
  po_vnodes s !! v = Some x → inode_lookup (po_pm s) (vn_tinode x) = Some i → inode_is_dir i = true →
  dir_rep (po_pm s) (vn_tinode x) ps m → name_arg name n k →
  match m !! k with
  | Some o => (n ≤ PMEMFILE_MAX_FILE_NAME)%nat → ∀ e y, e.1 ∈ ps → dirent_lookup (po_pm s) e = Some y → de_inode y = Some o →
                until_nul (de_name y) = k → Q (Some e) s
  | None => ∀ err, err = ENOENT ∨ (err = ENAMETOOLONG ∧ (PMEMFILE_MAX_FILE_NAME < n)%nat) → Q None (set_po_errno err s)
  end →
  wp (vinode_lookup_dirent_by_name_locked v name n) Q E s.
Proof.
  intros Hv Hi Hd Hr Hk HQ. unfold vinode_lookup_dirent_by_name_locked, vinode_inode. apply wp_bind, wp_bind.
  eapply wp_vnode_get; [done|]. eapply wp_inode_get; [done|]. rewrite Hd. cbn [negb].
  pose proof (name_arg_length _ _ _ Hk) as Hlen. destruct (Nat.ltb_spec PMEMFILE_MAX_FILE_NAME n) as [Hlong|Hlong].
  { destruct (m !! k) as [o|] eqn:Hm; [|apply wp_bind, wp_modify, wp_ret; apply HQ; by right]. exfalso.
    apply (dir_rep_lookup _ _ _ _ _ _ Hr) in Hm as (y & Hy & Ho & Hname).
    destruct (all_dirents_ok _ _ _ _ _ Hr Hy) as [_ Hok]. rewrite Ho, Hname in Hok. destruct Hok as (_ & ? & _). lia. }
  assert (n ≠ 0%nat) as Hn0 by (destruct Hk as (? & _ & _ & ?); intros ->; by subst k).
  apply wp_bind, wp_assert; [by rewrite (proj2 (Nat.eqb_neq _ _))|].
  apply wp_bind, wp_assert.
  { destruct Hk as (Htake & _ & Hnul & _). rewrite bool_decide_eq_false_2; [done|]. intros Hc. apply Hnul. rewrite <-Htake.
    destruct name as [|c name]; [by rewrite take_nil in Htake; subst k; destruct n|]. unfold char_at in Hc. cbn in Hc. subst c.
    destruct n; [done|]. rewrite firstn_cons. by left. }
  apply wp_bind. eapply wp_vnode_get; [done|]. apply wp_bind. unfold dir_fuel. apply wp_gets, wp_bind.
  eapply wp_lookup_loop; [apply Hr|apply Hr|by eapply chain_length; apply Hr|]. intros r Hf.
  pose proof (found_name _ _ _ _ _ _ _ _ Hr Hk Hf) as Hf'. destruct r as [e|].
  - destruct Hf' as (He & y & o & Hy & Ho & Hname & Hm). rewrite Hm in HQ. apply wp_ret. by eapply HQ.
  - rewrite Hf' in HQ. apply wp_bind, wp_modify, wp_ret. apply HQ. by left.
Qed.
End theorems.

(** ** An example: a directory without entries, and a file *)

Module ExDir.
Definition dir_inode : minode :=
  let x := new_inode default_cfg ExPool.cred0 (Z.lor PMEMFILE_S_IFDIR 0x1ff) (Time 1 0) in
  set_mi_inode (set_i_nlink (zero2 2) (mi_inode x)) x.
Definition file_inode : minode := new_inode default_cfg ExPool.cred0 (Z.lor PMEMFILE_S_IFREG 0x1ff) (Time 1 0).
Definition pm : ppool := PPool {[1%positive := dir_inode; 2%positive := file_inode]} ∅ ∅ ∅ ExPool.super0.
Definition st : pool := set_po_pm pm ExPool.pool0.

Lemma exdir_rep : dir_rep pm 1 [InInode 1] ∅.
Proof.
  split.
  - by eapply chain_last.
  - apply NoDup_singleton.
  - intros d x Hd. apply list_elem_of_singleton in Hd as ->. intros [= <-].
    unfold part_ok. cbn [d_num_elements d_dirents]. split_and!; [done|done|].
    apply Forall_replicate. split; [|done]. cbn [zero_dirent de_name]. by rewrite length_replicate.
  - apply NoDup_nil_2.
  - done.
Qed.

Lemma exdir_name : name_arg (cstr "a") 1 (cstr "a").
Proof. split_and!; [done|cbn; lia| |done]. cbn. intros H. apply list_elem_of_singleton in H. discriminate H. Qed.

Lemma exdir_no_slash : SLASH ∉ cstr "a".
Proof. cbn. intros H. apply list_elem_of_singleton in H. discriminate H. Qed.
End ExDir.

Lemma inode_add_dirent_witness :
  txop (@inode_add_dirent ExPool.palloc default_cfg 1 (cstr "a") 1 2 (Time 2 0)) ExDir.st ExDir.pm
    (λ _ pm', (∅ : gmap cstring oid) !! cstr "a" = None ∧ names_upd ExDir.pm pm' (one_link 2) ∧
      ∃ ps', dir_rep pm' 1 ps' {[cstr "a" := 2%positive]} ∧ other_dirs ExDir.pm pm' [InInode 1] ps')
    (add_error ∅ (cstr "a") 2 1).
Proof.
  eapply (@inode_add_dirent_correct ExPool.palloc ExPool.palloc_ok default_cfg eq_refl ExDir.st ExDir.pm 1 [InInode 1] ∅
    (mi_inode ExDir.dir_inode) (mi_inode ExDir.file_inode) (cstr "a") 1 (cstr "a") 2 (Time 2 0)).
  - exact ExDir.exdir_rep.
  - exact ExDir.exdir_name.
  - exact ExDir.exdir_no_slash.
  - reflexivity.
  - reflexivity.
  - cbn. unfold UINT64_MAX. lia.
Defined.
