(* ===== verification/NameSpec.v ===== *)
(** The abstract name space: which entry of which directory names which inode,
    and what each operation does to it.  A well-formed name space is a forest of
    directories under the roots in which ".." leads to the parent; every
    operation keeps it well formed. *)
From S2P Require Import Prelude Layout CString.
From stdpp Require Import relations.

(** Directories by their inodes, and the entries of all of them. *)
Record ns := Ns { ns_dirs : gset oid; ns_ents : gmap (oid * cstring) oid }.

Definition dot : cstring := cstr ".".
Definition dotdot : cstring := cstr "..".
Definition dots (k : cstring) : Prop := k = dot ∨ k = dotdot.

#[global] Instance dots_dec k : Decision (dots k).
Proof. unfold dots. apply _. Defined.

Notation "N @ x" := (ns_ents N !! x) (at level 20, x at level 9).

(** The number of entries that refer to an inode. *)
Definition links (N : ns) (j : oid) : nat := size (filter (λ b, b.2 = j) (ns_ents N)).

(** A directory that was not removed. *)
Definition live (N : ns) (i : oid) : Prop := N @ (i, dot) = Some i.

(** From a directory to its parent. *)
Definition up (N : ns) (a b : oid) : Prop := N @ (a, dotdot) = Some b.

Record ns_wf (roots : gset oid) (N : ns) : Prop := {
  nw_root : ∀ r, r ∈ roots → live N r ∧ up N r r;
  nw_dir : ∀ i k j, N @ (i, k) = Some j → i ∈ ns_dirs N ∧ live N i ∧ ∃ p, up N i p;
  nw_dot : ∀ i j, N @ (i, dot) = Some j → j = i;
  nw_up : ∀ i p, up N i p → i ∉ roots → ∃ k, ¬ dots k ∧ N @ (p, k) = Some i;
  nw_down : ∀ i k c, N @ (i, k) = Some c → ¬ dots k → c ∈ ns_dirs N → c ∉ roots ∧ up N c i;
  nw_unique : ∀ i k k' c, N @ (i, k) = Some c → N @ (i, k') = Some c → ¬ dots k → ¬ dots k' → c ∈ ns_dirs N → k = k';
  nw_tree : ∀ i, live N i → ∃ r, r ∈ roots ∧ rtc (up N) i r;
}.

(** ** The operations *)

(** A link to an inode that is not a directory. *)
Definition ns_link (i : oid) (k : cstring) (c : oid) (N : ns) : ns := Ns (ns_dirs N) (<[(i, k) := c]> (ns_ents N)).

Definition ns_mkdir (i : oid) (k : cstring) (c : oid) (N : ns) : ns :=
  Ns ({[c]} ∪ ns_dirs N) (<[(i, k) := c]> (<[(c, dotdot) := i]> (<[(c, dot) := c]> (ns_ents N)))).

Definition ns_unlink (i : oid) (k : cstring) (N : ns) : ns := Ns (ns_dirs N) (delete (i, k) (ns_ents N)).

Definition ns_rmdir (i : oid) (k : cstring) (c : oid) (N : ns) : ns :=
  Ns (ns_dirs N) (delete (i, k) (delete (c, dotdot) (delete (c, dot) (ns_ents N)))).

(** An entry moves; the directory it names gets a new parent. *)
Definition ns_move (i : oid) (k : cstring) (i' : oid) (k' : cstring) (c : oid) (N : ns) : ns :=
  Ns (ns_dirs N)
    (let es := <[(i', k') := c]> (delete (i, k) (ns_ents N)) in
     if decide (c ∈ ns_dirs N) then <[(c, dotdot) := i']> es else es).

(** Where each operation applies. *)
Inductive ns_step (roots : gset oid) (N : ns) : ns → Prop :=
  | step_link i k c : live N i → N @ (i, k) = None → ¬ dots k → c ∉ ns_dirs N → ns_step roots N (ns_link i k c N)
  | step_mkdir i k c : live N i → N @ (i, k) = None → ¬ dots k → c ∉ ns_dirs N → (∀ x, N @ x ≠ Some c) →
      ns_step roots N (ns_mkdir i k c N)
  | step_unlink i k c : N @ (i, k) = Some c → ¬ dots k → c ∉ ns_dirs N → ns_step roots N (ns_unlink i k N)
  | step_rmdir i k c : N @ (i, k) = Some c → ¬ dots k → c ∈ ns_dirs N → (∀ k', ¬ dots k' → N @ (c, k') = None) →
      ns_step roots N (ns_rmdir i k c N)
  | step_move i k i' k' c : N @ (i, k) = Some c → ¬ dots k → ¬ dots k' → live N i' → N @ (i', k') = None →
      (c ∈ ns_dirs N → ¬ rtc (up N) i' c) → ns_step roots N (ns_move i k i' k' c N).

(** ** Every step keeps the name space well formed *)

Section wf.
Context {roots : gset oid} {N : ns} (HN : ns_wf roots N).

Lemma not_dots_dot k : ¬ dots k → k ≠ dot ∧ k ≠ dotdot.
Proof. unfold dots. tauto. Qed.

Lemma dot_dotdot : dot ≠ dotdot.
Proof. done. Qed.

(** What is not a directory has no entries. *)
Lemma no_entries_of c k : c ∉ ns_dirs N → N @ (c, k) = None.
Proof. intros Hc. destruct (N @ (c, k)) eqn:He; [|done]. by apply (nw_dir _ _ HN) in He as [? _]. Qed.

(** A directory below a root is not its own parent, and nothing above the roots. *)
Lemma up_root r p : r ∈ roots → up N r p → p = r.
Proof. intros Hr Hp. destruct (nw_root _ _ HN r Hr) as [_ Hup]. unfold up in *. congruence. Qed.

Lemma up_irreflexive c : up N c c → c ∈ roots.
Proof.
  intros Hc. destruct (nw_dir _ _ HN c dotdot c Hc) as (_ & Hl & _). destruct (nw_tree _ _ HN c Hl) as (r & Hr & Hrtc).
  assert (∀ a, rtc (up N) c a → a = c) as Hstuck.
  { intros a Ha. remember c as b eqn:Hb in Ha at 1. revert Hb. induction Ha as [|x y z Hxy _ IH]; [done|]. intros ->.
    apply IH. unfold up in *. congruence. }
  by rewrite <-(Hstuck r Hrtc).
Qed.

(** The parent of a live directory is live. *)
Lemma up_live a b : up N a b → live N b.
Proof.
  intros Hab. destruct (decide (a ∈ roots)) as [Hr|Hr].
  - rewrite (up_root _ _ Hr Hab). by apply (nw_root _ _ HN).
  - destruct (nw_up _ _ HN a b Hab Hr) as (k & _ & Hk). by apply (nw_dir _ _ HN) in Hk as (_ & ? & _).
Qed.

Lemma link_wf i k c : live N i → N @ (i, k) = None → ¬ dots k → c ∉ ns_dirs N → ns_wf roots (ns_link i k c N).
Proof.
  intros Hl Hk [Hd1 Hd2]%not_dots_dot Hc. assert (∀ j, live (ns_link i k c N) j ↔ live N j) as Hlive.
  { intros j. unfold live, ns_link. cbn [ns_ents ns_dirs]. by rewrite lookup_insert_ne by congruence. }
  assert (∀ a b, up (ns_link i k c N) a b ↔ up N a b) as Hup.
  { intros a b. unfold up, ns_link. cbn [ns_ents ns_dirs]. by rewrite lookup_insert_ne by congruence. }
  split.
  - intros r Hr. rewrite Hlive, Hup. by apply HN.
  - intros i2 k2 j. unfold ns_link at 1. cbn [ns_ents ns_dirs]. rewrite lookup_insert_Some. intros H. rewrite Hlive. setoid_rewrite Hup.
    destruct H as [[[= <- <-] _]|[_ H]]; [by apply (nw_dir _ _ HN _ _ _ Hl)|by eapply HN].
  - intros i2 j. unfold ns_link. cbn [ns_ents ns_dirs]. rewrite lookup_insert_ne by congruence. apply HN.
  - intros i2 p. rewrite Hup. intros Hp Hr. destruct (nw_up _ _ HN i2 p Hp Hr) as (k2 & Hk2 & He). exists k2. split; [done|].
    unfold ns_link. cbn [ns_ents ns_dirs]. rewrite lookup_insert_ne by congruence. done.
  - intros i2 k2 c2. unfold ns_link at 1. cbn [ns_ents ns_dirs]. rewrite lookup_insert_Some, Hup. intros [[_ <-]|[_ He]] Hk2 Hc2; [done|].
    by apply (nw_down _ _ HN i2 k2).
  - intros i2 k2 k3 c2. unfold ns_link. cbn [ns_ents ns_dirs]. rewrite !lookup_insert_Some. intros [[_ H1]|[_ He]] [[_ H2]|[_ He']] ? ? Hc2; subst; try done.
    by eapply HN.
  - intros j. rewrite Hlive. intros Hj. destruct (nw_tree _ _ HN j Hj) as (r & Hr & Hrtc). exists r. split; [done|].
    eapply rtc_subrel; [|done]. intros a b. apply Hup.
Qed.

Section mkdir.
Context (i c : oid) (k : cstring).
Hypothesis Hl : live N i.
Hypothesis Hk : N @ (i, k) = None.
Hypothesis Hd : ¬ dots k.
Hypothesis Hc : c ∉ ns_dirs N.
Hypothesis Href : ∀ x, N @ x ≠ Some c.
Notation N' := (ns_mkdir i k c N).

Lemma mkdir_lookup a b j :
  N' @ (a, b) = Some j ↔
    ((a, b) = (i, k) ∧ j = c) ∨ ((a, b) = (c, dotdot) ∧ j = i) ∨ ((a, b) = (c, dot) ∧ j = c) ∨ (a ≠ c ∧ N @ (a, b) = Some j).
Proof.
  pose proof (not_dots_dot _ Hd) as [Hd1 Hd2]. pose proof dot_dotdot as Hdd. pose proof (no_entries_of c b Hc) as Hnone.
  unfold ns_mkdir. cbn [ns_ents]. rewrite !lookup_insert_Some. split.
  - intros [[<- <-]|(_ & [[<- <-]|(_ & [[<- <-]|[_ He]])])]; auto. right; right; right. split; [|done]. intros ->. congruence.
  - intros [[-> ->]|[[-> ->]|[[-> ->]|[Hne He]]]].
    + by left.
    + right. split; [congruence|]. by left.
    + right. split; [congruence|]. right. split; [congruence|]. by left.
    + destruct (decide ((i, k) = (a, b))) as [[= <- <-]|]; [congruence|]. right. split; [done|]. right. split; [congruence|].
      right. split; [congruence|done].
Qed.

Lemma mkdir_old a b j : N @ (a, b) = Some j → N' @ (a, b) = Some j.
Proof. intros He. apply mkdir_lookup. right; right; right. split; [|done]. intros ->. by rewrite no_entries_of in He. Qed.

Lemma mkdir_new : live N' c ∧ up N' c i ∧ N' @ (i, k) = Some c.
Proof. split_and!; apply mkdir_lookup; auto. Qed.

Lemma mkdir_up a b : up N' a b → (a = c ∧ b = i) ∨ up N a b.
Proof.
  pose proof (not_dots_dot _ Hd) as [Hd1 Hd2]. pose proof dot_dotdot as Hdd.
  intros [[? _]|[[[= ->] ->]|[[? _]|[_ H]]]]%mkdir_lookup; try (exfalso; congruence); auto.
Qed.

Lemma mkdir_tree a : live N a → ∃ r, r ∈ roots ∧ rtc (up N') a r.
Proof.
  intros Ha. destruct (nw_tree _ _ HN a Ha) as (r & Hr & Hrtc). exists r. split; [done|]. eapply rtc_subrel; [|done].
  intros x y. apply mkdir_old.
Qed.

Lemma mkdir_wf : ns_wf roots N'.
Proof.
  pose proof (not_dots_dot _ Hd) as [Hd1 Hd2]. pose proof dot_dotdot as Hdd. destruct mkdir_new as (Hlc & Hupc & Hkc).
  split.
  - intros r Hr. destruct (nw_root _ _ HN r Hr). split; by apply mkdir_old.
  - intros a b j Hab. assert (a = c ∨ (a ∈ ns_dirs N ∧ live N a ∧ ∃ p, up N a p)) as [->|(? & ? & p & ?)].
    { apply mkdir_lookup in Hab as [[[= -> ->] _]|[[[= ->] _]|[[[= ->] _]|[_ He]]]]; auto; right.
      - by apply (nw_dir _ _ HN _ _ _ Hl).
      - by apply (nw_dir _ _ HN _ _ _ He). }
    + split_and!; [set_solver|done|by exists i].
    + split_and!; [set_solver|by apply mkdir_old|]. exists p. by apply mkdir_old.
  - intros a j [[? ?]|[[? ?]|[[? ?]|[_ He]]]]%mkdir_lookup; [exfalso; congruence..|congruence|by apply (nw_dot _ _ HN)].
  - intros a p [[-> ->]|Hp]%mkdir_up Hr; [by exists k|].
    destruct (nw_up _ _ HN a p Hp Hr) as (k2 & Hk2 & He). exists k2. split; [done|]. by apply mkdir_old.
  - intros a b j [[[= -> ->] ->]|[[[= -> ->] _]|[[[= -> ->] _]|[Hne He]]]]%mkdir_lookup Hb Hj;
      [|exfalso; apply Hb; by right|exfalso; apply Hb; by left|].
    + split; [|done]. intros Hr. destruct (nw_root _ _ HN c Hr) as [Hlc' _]. by apply (Href (c, dot)).
    + destruct (decide (j = c)) as [->|Hjc]; [by apply Href in He|].
      destruct (nw_down _ _ HN a b j He Hb) as [? ?]; [set_solver|]. split; [done|by apply mkdir_old].
  - intros a b b' j H1 H2 Hb Hb' Hj. apply mkdir_lookup in H1, H2.
    destruct H1 as [[[= -> ->] ->]|[[[= -> ->] _]|[[[= -> ->] _]|[Hne He]]]];
      [|exfalso; apply Hb; by right|exfalso; apply Hb; by left|].
    + destruct H2 as [[? _]|[[? _]|[[? _]|[_ He']]]]; [congruence..|by apply Href in He'].
    + destruct H2 as [[_ ->]|[[[= -> ->] _]|[[[= -> ->] _]|[_ He']]]];
        [by apply Href in He|exfalso; apply Hb'; by right|exfalso; apply Hb'; by left|].
      destruct (decide (j = c)) as [->|]; [by apply Href in He|]. eapply (nw_unique _ _ HN a b b' j); try done. set_solver.
  - intros a [[? _]|[[? _]|[[[= ->] _]|[_ Ha]]]]%mkdir_lookup; [exfalso; congruence..| |by apply mkdir_tree].
    destruct (mkdir_tree i Hl) as (r & Hr & Hrtc). exists r. split; [done|]. by eapply rtc_l.
Qed.
End mkdir.

Lemma unlink_wf i k c : N @ (i, k) = Some c → ¬ dots k → c ∉ ns_dirs N → ns_wf roots (ns_unlink i k N).
Proof.
  intros Hk [Hd1 Hd2]%not_dots_dot Hc. assert (∀ j, live (ns_unlink i k N) j ↔ live N j) as Hlive.
  { intros j. unfold live, ns_unlink. cbn [ns_ents ns_dirs]. by rewrite lookup_delete_ne by congruence. }
  assert (∀ a b, up (ns_unlink i k N) a b ↔ up N a b) as Hup.
  { intros a b. unfold up, ns_unlink. cbn [ns_ents ns_dirs]. by rewrite lookup_delete_ne by congruence. }
  assert (∀ x j, ns_unlink i k N @ x = Some j → N @ x = Some j) as Hent.
  { intros x j. unfold ns_unlink. cbn [ns_ents]. by intros [_ ?]%lookup_delete_Some. }
  split.
  - intros r Hr. rewrite Hlive, Hup. by apply HN.
  - intros a b j He%Hent. rewrite Hlive. setoid_rewrite Hup. by apply (nw_dir _ _ HN _ _ _ He).
  - intros a j He%Hent. by apply (nw_dot _ _ HN).
  - intros a p. rewrite Hup. intros Hp Hr. destruct (nw_up _ _ HN a p Hp Hr) as (k2 & Hk2 & He). exists k2. split; [done|].
    unfold ns_unlink. cbn [ns_ents]. rewrite lookup_delete_ne; [done|]. intros [= -> ->]. apply Hc.
    rewrite He in Hk. injection Hk as <-. by apply (nw_dir _ _ HN) in Hp as [? _].
  - intros a b j He%Hent. rewrite Hup. by apply HN.
  - intros a b b' j He%Hent He'%Hent. by apply (nw_unique _ _ HN _ _ _ _ He He').
  - intros j. rewrite Hlive. intros Hj. destruct (nw_tree _ _ HN j Hj) as (r & Hr & Hrtc). exists r. split; [done|].
    eapply rtc_subrel; [|done]. intros a b. apply Hup.
Qed.

Section rmdir.
Context (i c : oid) (k : cstring).
Hypothesis Hk : N @ (i, k) = Some c.
Hypothesis Hd : ¬ dots k.
Hypothesis Hc : c ∈ ns_dirs N.
Hypothesis Hempty : ∀ k', ¬ dots k' → N @ (c, k') = None.

Lemma rmdir_parent : c ∉ roots ∧ up N c i ∧ i ≠ c.
Proof.
  destruct (nw_down _ _ HN i k c Hk Hd Hc) as [Hr Hup]. split_and!; [done..|]. intros ->. by apply Hr, up_irreflexive.
Qed.

(** Nothing is below an empty directory. *)
Lemma rmdir_no_child a : ¬ up N a c.
Proof.
  intros Ha. destruct rmdir_parent as (Hr & _). destruct (decide (a ∈ roots)) as [Har|Har].
  - by rewrite (up_root _ _ Har Ha) in Hr.
  - destruct (nw_up _ _ HN a c Ha Har) as (k2 & Hk2 & He). by rewrite Hempty in He.
Qed.

Lemma rmdir_lookup a b j : ns_rmdir i k c N @ (a, b) = Some j ↔ a ≠ c ∧ (a, b) ≠ (i, k) ∧ N @ (a, b) = Some j.
Proof.
  unfold ns_rmdir. cbn [ns_ents]. rewrite !lookup_delete_Some. split.
  - intros (H1 & H2 & H3 & He). split_and!; [|congruence|done]. intros ->. destruct (decide (dots b)) as [[->| ->]|Hb]; try done.
    by rewrite Hempty in He.
  - intros (H1 & H2 & He). split_and!; congruence.
Qed.

Lemma rmdir_up a b : up (ns_rmdir i k c N) a b ↔ a ≠ c ∧ up N a b.
Proof. unfold up. rewrite rmdir_lookup. apply not_dots_dot in Hd as [??]. split; [tauto|]. intros [??]. split_and!; [done|congruence|done]. Qed.

Lemma rmdir_live a : live (ns_rmdir i k c N) a ↔ a ≠ c ∧ live N a.
Proof. unfold live. rewrite rmdir_lookup. apply not_dots_dot in Hd as [??]. split; [tauto|]. intros [??]. split_and!; [done|congruence|done]. Qed.

Lemma rmdir_wf : ns_wf roots (ns_rmdir i k c N).
Proof.
  destruct rmdir_parent as (Hr & Hup & Hic). split.
  - intros r Hrr. rewrite rmdir_live, rmdir_up. destruct (nw_root _ _ HN r Hrr). split_and!; try done; by intros ->.
  - intros a b j (Ha & _ & He)%rmdir_lookup. rewrite rmdir_live. setoid_rewrite rmdir_up.
    destruct (nw_dir _ _ HN _ _ _ He) as (? & ? & p & ?). split_and!; [done..|]. by exists p.
  - intros a j (_ & _ & He)%rmdir_lookup. by apply (nw_dot _ _ HN).
  - intros a p [Ha Hp]%rmdir_up Har. destruct (nw_up _ _ HN a p Hp Har) as (k2 & Hk2 & He). exists k2. split; [done|].
    apply rmdir_lookup. split_and!; [|congruence|done]. intros ->. by apply (rmdir_no_child a).
  - intros a b j (Ha & Hne & He)%rmdir_lookup Hb Hj. destruct (nw_down _ _ HN a b j He Hb Hj) as [? Hj']. split; [done|].
    apply rmdir_up. split; [|done]. intros ->. assert (a = i) as -> by (unfold up in *; congruence).
    apply Hne. f_equal. by apply (nw_unique _ _ HN i b k c).
  - intros a b b' j (_ & _ & He)%rmdir_lookup (_ & _ & He')%rmdir_lookup. by apply (nw_unique _ _ HN _ _ _ _ He He').
  - intros j [Hj Hl]%rmdir_live. destruct (nw_tree _ _ HN j Hl) as (r & Hrr & Hrtc). exists r. split; [done|].
    clear Hl. induction Hrtc as [|x y z Hxy _ IH]; [done|]. eapply rtc_l; [by apply rmdir_up|]. apply IH; try done.
    intros ->. by apply (rmdir_no_child x).
Qed.
End rmdir.

Section move.
Context (i i' c : oid) (k k' : cstring).
Hypothesis Hk : N @ (i, k) = Some c.
Hypothesis Hd : ¬ dots k.
Hypothesis Hd' : ¬ dots k'.
Hypothesis Hl : live N i'.
Hypothesis Hk' : N @ (i', k') = None.
Hypothesis Htree : c ∈ ns_dirs N → ¬ rtc (up N) i' c.
Notation N' := (ns_move i k i' k' c N).

(** The entries after the move. *)
Lemma move_lookup a b j :
  N' @ (a, b) = Some j ↔
    ((a, b) = (i', k') ∧ j = c) ∨ (c ∈ ns_dirs N ∧ (a, b) = (c, dotdot) ∧ j = i') ∨
    ((a, b) ≠ (i, k) ∧ (c ∈ ns_dirs N → (a, b) ≠ (c, dotdot)) ∧ N @ (a, b) = Some j).
Proof.
  pose proof (not_dots_dot _ Hd') as [H1 H2]. unfold ns_move. cbn [ns_ents]. case_decide as Hc.
  - rewrite !lookup_insert_Some, lookup_delete_Some. split.
    + intros [[<- <-]|(Hne & [[<- <-]|(Hne' & Hne2 & He)])]; [auto..|]. right; right. split_and!; congruence.
    + intros [[-> ->]|[(_ & -> & ->)|(Ha & Hb & He)]].
      * right. split; [congruence|]. by left.
      * by left.
      * right. split; [intros Heq; by apply Hb|]. right. split_and!; congruence.
  - rewrite lookup_insert_Some, lookup_delete_Some. split.
    + intros [[<- <-]|(Hne & Hne' & He)]; [auto|]. right; right. split_and!; congruence.
    + intros [[-> ->]|[(? & _)|(Ha & Hb & He)]]; [by left|done|]. right. split_and!; congruence.
Qed.

Lemma move_live a : live N' a ↔ live N a.
Proof.
  unfold live. rewrite move_lookup. pose proof (not_dots_dot _ Hd) as [? ?]. pose proof (not_dots_dot _ Hd') as [? ?].
  pose proof dot_dotdot. split.
  - intros [[? ?]|[(_ & ? & _)|(_ & _ & ?)]]; [exfalso; congruence|exfalso; congruence|done].
  - intros Ha. right; right. split_and!; [congruence|intros _; congruence|done].
Qed.

Lemma move_up a b : up N' a b ↔ (c ∈ ns_dirs N ∧ a = c ∧ b = i') ∨ ((c ∈ ns_dirs N → a ≠ c) ∧ up N a b).
Proof.
  unfold up. rewrite move_lookup. pose proof (not_dots_dot _ Hd) as [? ?]. pose proof (not_dots_dot _ Hd') as [? ?]. split.
  - intros [[? ?]|[(? & [= ->] & ?)|(_ & Hne & ?)]]; [exfalso; congruence|auto|]. right. split; [|done]. intros Hc ->. by apply Hne.
  - intros [(? & -> & ->)|[Hne He]]; [auto|]. right; right. split_and!; [congruence| |done]. intros Hc [= ->]. by apply Hne.
Qed.

(** The path from a directory that is not below the moved one to its root. *)
Lemma move_path a r : rtc (up N) a r → (c ∈ ns_dirs N → ¬ rtc (up N) a c) → rtc (up N') a r.
Proof.
  intros Hrtc. induction Hrtc as [|x y z Hxy _ IH]; intros Hn; [done|]. eapply rtc_l.
  - apply move_up. right. split; [|done]. intros Hc ->. by apply Hn.
  - apply IH. intros Hc Hy. apply (Hn Hc). by eapply rtc_l.
Qed.

Lemma move_tree a : live N a → ∃ r, r ∈ roots ∧ rtc (up N') a r.
Proof.
  intros Ha. destruct (nw_tree _ _ HN a Ha) as (r & Hr & Hrtc). clear Ha.
  induction Hrtc as [x|x y z Hxy _ IH]; [by exists x|]. destruct (IH Hr) as (r' & Hr' & Hy).
  destruct (decide (c ∈ ns_dirs N ∧ x = c)) as [[Hc ->]|Hne].
  - destruct (nw_tree _ _ HN i' Hl) as (r2 & Hr2 & Hi'). exists r2. split; [done|].
    eapply rtc_l; [apply move_up; by left|]. by apply move_path.
  - exists r'. split; [done|]. eapply rtc_l; [|done]. apply move_up. right. split; [|done]. intros ? ->. by apply Hne.
Qed.

Lemma move_wf : ns_wf roots N'.
Proof.
  split.
  - intros r Hr. destruct (nw_root _ _ HN r Hr) as [Hlr Hur]. split; [by apply move_live|]. apply move_up. right. split; [|done].
    intros Hc ->. by destruct (nw_down _ _ HN i k c Hk Hd Hc).
  - intros a b j Hab. change (ns_dirs N') with (ns_dirs N). rewrite move_live.
    assert (a ∈ ns_dirs N ∧ live N a ∧ ∃ p, up N a p) as (Hda & Hla & p & Hp).
    { apply move_lookup in Hab as [([= -> ->] & _)|[(Hc & [= -> ->] & _)|(_ & _ & He)]].
      - by apply (nw_dir _ _ HN _ _ _ Hl).
      - destruct (nw_down _ _ HN i k c Hk Hd Hc) as [_ Hup]. by apply (nw_dir _ _ HN _ _ _ Hup).
      - by apply (nw_dir _ _ HN _ _ _ He). }
    split_and!; [done..|]. setoid_rewrite move_up. destruct (decide (c ∈ ns_dirs N ∧ a = c)) as [[Hc ->]|Hne].
    + exists i'. by left.
    + exists p. right. split; [|done]. intros ? ->. by apply Hne.
  - intros a j Ha. apply move_lookup in Ha as [(? & _)|[(_ & ? & _)|(_ & _ & He)]].
    + apply not_dots_dot in Hd' as [??]. exfalso. congruence.
    + pose proof dot_dotdot. exfalso. congruence.
    + by apply (nw_dot _ _ HN).
  - intros a p [(Hc & -> & ->)|[Hne Hp]]%move_up Har.
    + exists k'. split; [done|]. apply move_lookup. by left.
    + destruct (nw_up _ _ HN a p Hp Har) as (k2 & Hk2 & He). exists k2. split; [done|]. apply move_lookup. right; right. split_and!.
      * intros [= -> ->]. assert (a = c) as -> by congruence. apply Hne; [|done]. by apply (nw_dir _ _ HN) in Hp as [? _].
      * intros _ [= -> ->]. apply Hk2. by right.
      * done.
  - intros a b j Hab Hb Hj. change (ns_dirs N') with (ns_dirs N) in Hj. rewrite move_up.
    apply move_lookup in Hab as [([= -> ->] & ->)|[(Hc & [= -> ->] & _)|(Hne & _ & He)]].
    + destruct (nw_down _ _ HN i k c Hk Hd Hj). auto.
    + exfalso. apply Hb. by right.
    + destruct (nw_down _ _ HN a b j He Hb Hj) as [? Hj']. split; [done|]. right. split; [|done]. intros _ ->.
      destruct (nw_down _ _ HN i k c Hk Hd Hj) as [_ Hci]. assert (a = i) as -> by (unfold up in *; congruence).
      apply Hne. f_equal. by apply (nw_unique _ _ HN i b k c).
  - intros a b b' j H1 H2 Hb Hb' Hj. change (ns_dirs N') with (ns_dirs N) in Hj. apply move_lookup in H1, H2.
    assert (∀ x, N @ (a, x) = Some c → ¬ dots x → (a, x) ≠ (i, k) → j = c → False) as Honly.
    { intros x Hx Hdx Hne ->. destruct (nw_down _ _ HN i k c Hk Hd Hj) as [_ Hci].
      destruct (nw_down _ _ HN a x c Hx Hdx Hj) as [_ Hca]. assert (a = i) as -> by (unfold up in *; congruence).
      apply Hne. f_equal. by apply (nw_unique _ _ HN i x k c). }
    destruct H1 as [([= -> ->] & ->)|[(_ & [= -> ->] & _)|(Hne & _ & He)]]; [|exfalso; apply Hb; by right|].
    + destruct H2 as [([= ->] & _)|[(_ & [= -> ->] & _)|(Hne & _ & He')]]; [done|exfalso; apply Hb'; by right|].
      exfalso. by apply (Honly b').
    + destruct H2 as [([= -> ->] & ->)|[(_ & [= -> ->] & _)|(Hne' & _ & He')]]; [|exfalso; apply Hb'; by right|].
      * exfalso. by apply (Honly b).
      * by apply (nw_unique _ _ HN a b b' j).
  - intros a Ha%move_live. by apply move_tree.
Qed.
End move.
End wf.

(** Every operation keeps the name space a forest. *)
Lemma ns_step_wf roots N N' : ns_wf roots N → ns_step roots N N' → ns_wf roots N'.
Proof.
  intros HN [i k c ? ? ? ?|i k c ? ? ? ? ?|i k c ? ? ?|i k c ? ? ? ?|i k i' k' c ? ? ? ? ? ?].
  - by apply link_wf.
  - by apply mkdir_wf.
  - by eapply unlink_wf.
  - by apply rmdir_wf.
  - by apply move_wf.
Qed.

Lemma ns_steps_wf roots N N' : ns_wf roots N → rtc (ns_step roots) N N' → ns_wf roots N'.
Proof. intros HN Hs. induction Hs; eauto using ns_step_wf. Qed.

(** ** Counting links *)

Lemma size_filter_insert (es : gmap (oid * cstring) oid) x c j :
  es !! x = None → size (filter (λ b, b.2 = j) (<[x := c]> es)) = (size (filter (λ b, b.2 = j) es) + if decide (c = j) then 1 else 0)%nat.
Proof.
  intros Hx. case_decide as Hc.
  - rewrite map_filter_insert_True by done. rewrite map_size_insert_None; [lia|]. apply map_lookup_filter_None. by left.
  - rewrite map_filter_insert_False by done. rewrite delete_id by done. lia.
Qed.

Lemma size_filter_delete (es : gmap (oid * cstring) oid) x c j :
  es !! x = Some c → size (filter (λ b, b.2 = j) es) = (size (filter (λ b, b.2 = j) (delete x es)) + if decide (c = j) then 1 else 0)%nat.
Proof. intros Hx. rewrite <-(insert_delete_id es x c Hx) at 1. apply size_filter_insert, lookup_delete_eq. Qed.

Lemma links_zero N j x : links N j = 0%nat → N @ x ≠ Some j.
Proof.
  intros Hl Hx. unfold links in Hl. apply map_size_empty_inv in Hl. by apply (map_filter_empty_not_lookup _ _ x j) in Hl.
Qed.

(** An empty directory has two links: its own "." and the entry of its parent. *)
Lemma empty_dir_links roots N i k c :
  ns_wf roots N → N @ (i, k) = Some c → ¬ dots k → c ∈ ns_dirs N → (∀ k', ¬ dots k' → N @ (c, k') = None) → links N c = 2%nat.
Proof.
  intros HN Hk Hd Hc Hempty. destruct (rmdir_parent HN i c k Hk Hd Hc) as (Hr & Hup & Hic).
  pose proof (nw_dir _ _ HN _ _ _ Hup) as (_ & Hlive & _). unfold links.
  rewrite (size_filter_delete _ (i, k) c) by done. rewrite (size_filter_delete _ (c, dot) c).
  2: { rewrite lookup_delete_ne by congruence. done. }
  rewrite decide_True by done. assert (filter (λ b, b.2 = c) (delete (c, dot) (delete (i, k) (ns_ents N))) = ∅) as ->; [|by rewrite map_size_empty].
  apply map_empty_filter_2. intros [a b] j Hj. apply lookup_delete_Some in Hj as [Hne1 [Hne2 Hj]%lookup_delete_Some]. cbn. intros ->.
  destruct (decide (dots b)) as [[->| ->]|Hb].
  - apply (nw_dot _ _ HN) in Hj. congruence.
  - by apply (rmdir_no_child HN i c k Hk Hd Hc Hempty a).
  - destruct (nw_down _ _ HN a b c Hj Hb Hc) as [_ Hca]. assert (a = i) as -> by (unfold up in *; congruence).
    apply Hne2. f_equal. by apply (nw_unique _ _ HN i k b c).
Qed.
