(* ===== verification/Namespace.v ===== *)
(** Operations on names: unlink.c, rmdir.c, mkdir.c, link.c, symlink.c, rename.c. *)
From S2P Require Import Prelude Layout Inode Blocks FileState HashMap Creds CString Pool InodeArray Vinode Dir.

Definition PMEMFILE_AT_REMOVEDIR : Z := 0x200.
Definition PMEMFILE_AT_SYMLINK_FOLLOW : Z := 0x400.
Definition PMEMFILE_AT_EMPTY_PATH : Z := 0x1000.
Definition PMEMFILE_RENAME_NOREPLACE : Z := Z.shiftl 1 0.
Definition PMEMFILE_RENAME_EXCHANGE : Z := Z.shiftl 1 1.
Definition PMEMFILE_RENAME_WHITEOUT : Z := Z.shiftl 1 2.
Definition PMEMFILE_RENAME_KNOWN_FLAGS : Z :=
  Z.lor (Z.lor PMEMFILE_RENAME_EXCHANGE PMEMFILE_RENAME_NOREPLACE) PMEMFILE_RENAME_WHITEOUT.

Definition has (flags f : Z) : bool := negb (Z.land flags f =? 0).

(** [strcmp(s1, s2) == 0] *)
Definition str_equal (s1 s2 : cstring) : bool := bool_decide (until_nul s1 = until_nul s2).

(** All entries of a part from index [k] on are free. *)
Definition free_from (k : nat) (d : dir) : bool := forallb (λ e, bool_decide (de_inode e = None)) (drop k (used_dirents d)).

Section namespace.
Context `{!PoolAlloc}.
Variables (cfg : block_cfg) (calloc_ok : nat → bool) (clock : nat → pmemfile_time) (ignore_free_errors : bool).

(** ** Common parts of the calls *)

Definition on_cred {A} (m : M cstate A) : M pool A := zoom pool_cstate set_pool_cstate m.

(** [if (error) { errno = error; return -1; } return 0;] *)
Definition return_error (error : Z) : M pool Z := if negb (error =? 0) then pool_fail error else mret 0.

(** The code from the label [end] on. *)
Definition path_end (cred : pmemfile_cred) (info : path_info) (error : Z) : M pool Z :=
  path_info_cleanup ignore_free_errors info;;
  on_cred (cred_release cred);;
  return_error error.

(** [struct pmemfile_cred cred; if (cred_acquire(pfp, &cred)) return -1;] *)
Definition with_cred (body : pmemfile_cred → M pool Z) : M pool Z :=
  '(r, cred) ← on_cred (cred_acquire calloc_ok);
  if negb (r =? 0) then mret (-1) else body cred.

(** [TX_ONABORT { if (errno == ENOMEM) errno = ENOSPC; error = errno; }] *)
Definition onabort_nospc (e : Z) : M pool Z :=
  let e := if e =? ENOMEM then ENOSPC else e in set_errno e;; mret e.
(** [TX_ONABORT { error = errno; }] *)
Definition onabort_errno (e : Z) : M pool Z := mret e.

(** The public calls with a directory argument. *)
Definition with_dir (dir : at_dir) (path : cstring) (body : option positive → M pool Z) : M pool Z :=
  '(at_, at_unref) ← pool_get_dir_for_path dir path;
  ret ← body at_;
  (if at_unref : bool then vinode_cleanup ignore_free_errors at_ (negb (ret =? 0)) else mret tt);;
  mret ret.

Definition bad_dir (dir : at_dir) (path : cstring) : bool :=
  negb (bool_decide (char_at path 0 = SLASH)) && match dir with AtNull => true | _ => false end.

(** ** unlink.c *)

Definition vinode_unlink_file (parent : positive) (dirent : deptr) (v : positive) (tm : pmemfile_time) : M pool unit :=
  ASSERT_IN_TX;;
  x ← dirent_get dirent;
  tinode ← nonnull (de_inode x);
  i ← inode_get tinode;
  assert_ (0 <? inode_get_nlink i);;
  tx_add (λ _, inode_upd tinode (undo_nlink i));;
  tx_add (snap_dirent dirent 1);;
  pm_modify (inode_upd tinode inode_tx_dec_nlink);;
  i ← inode_get tinode;
  y ← vnode_get v;
  (if 0 <? inode_get_nlink i then tx_set_inode_ctime tm (vn_tinode y) else mret tt);;
  p ← vnode_get parent;
  tx_set_inode_mtime tm (vn_tinode p);;
  pm_modify (dirent_upd dirent clear_dirent).

Definition unlinkat_ (dir : option positive) (pathname : cstring) : M pool Z :=
  with_cred (λ cred,
    info ← resolve_pathat calloc_ok ignore_free_errors cred dir pathname 0;
    if negb (pi_error info =? 0) then path_end cred info (pi_error info)
    else
      remaining ← nonnull (pi_remaining info);
      if strchr remaining SLASH then path_end cred info ENOTDIR
      else
        '(error, (v, dirent)) ← lock_parent_and_child_loop calloc_ok ignore_free_errors info;
        if error <? 0 then path_end cred info (- error)
        else
          parent ← nonnull (pi_parent info);
          v ← nonnull v;
          error ←
            (acc ← vinode_can_access_locked cred parent PFILE_WANT_WRITE;
             if negb acc then mret EACCES
             else
               d ← vinode_is_dir v;
               if d : bool then mret EISDIR
               else
                 ASSERT_NOT_IN_TX;;
                 t ← current_time clock;
                 tx_begin_cb
                   (dirent ← nonnull dirent;
                    vinode_unlink_file parent dirent v t;;
                    i ← vinode_inode v;
                    (if inode_get_nlink i =? 0 then vinode_orphan cfg v else mret tt);;
                    mret 0)
                   onabort_errno);
          vinode_unlock2 v parent;;
          vinode_unref ignore_free_errors (Some v);;
          path_end cred info error).

(** ** rmdir.c *)

Fixpoint parts_free (fuel : nat) (d : option dirp) : M pool bool :=
  match d with
  | None => mret true
  | Some d =>
      match fuel with
      | O => fault_ NoFuel
      | S fuel' =>
          x ← dir_get d;
          if free_from 0 x then parts_free fuel' (DirObj <$> d_next x) else mret false
      end
  end.

(** [pmemobj_tx_add_range_direct(e, sizeof(e->inode) + 1); e->name\[0\] = 0;
    e->inode = NULL] *)
Definition tx_clear_dirent (e : deptr) : M pool unit :=
  tx_add (snap_dirent e 1);; pm_modify (dirent_upd e clear_dirent).

Definition vinode_unlink_dir (vparent : positive) (dirent : deptr) (vdir : positive) (tm : pmemfile_time) : M pool unit :=
  p ← vnode_get vparent;
  d ← vnode_get vdir;
  let iparent := vn_tinode p in
  let idir := vn_tinode d in
  ASSERT_IN_TX;;
  ddir ← dir_get (InInode idir);
  let dirdot := (InInode idir, 0%nat) in
  let dirdotdot := (InInode idir, 1%nat) in
  x ← dirent_get dirdot;
  y ← dirent_get dirdotdot;
  assert_ (str_equal (de_name x) (cstr "."));;
  assert_ (bool_decide (de_inode x = Some idir));;
  assert_ (str_equal (de_name y) (cstr ".."));;
  assert_ (bool_decide (de_inode y = Some iparent));;
  (if free_from 2 ddir then mret tt else tx_abort ENOTEMPTY);;
  fuel ← dir_fuel;
  free ← parts_free fuel (DirObj <$> d_next ddir);
  (if free : bool then mret tt else tx_abort ENOTEMPTY);;
  tx_clear_dirent dirdot;;
  tx_clear_dirent dirdotdot;;
  i ← inode_get idir;
  assert_ (inode_get_nlink i =? 2);;
  tx_add (λ _, inode_upd idir (undo_nlink i));;
  pm_modify (inode_upd idir (λ i, set_i_nlink (sset (s_nlink (i_slots i)) 0 (i_nlink i)) i));;
  tx_clear_dirent dirent;;
  tx_dec_nlink iparent;;
  tx_set_inode_ctime tm iparent;;
  tx_set_inode_mtime tm iparent.

Definition pmemfile_rmdirat (dir : option positive) (path : cstring) : M pool Z :=
  with_cred (λ cred,
    info ← resolve_pathat calloc_ok ignore_free_errors cred dir path 0;
    if negb (pi_error info =? 0) then path_end cred info (pi_error info)
    else
      remaining ← nonnull (pi_remaining info);
      parent ← nonnull (pi_parent info);
      let namelen := component_length remaining in
      if str_compare (cstr ".") remaining namelen =? 0 then path_end cred info EINVAL
      else if str_compare (cstr "..") remaining namelen =? 0 then path_end cred info ENOTEMPTY
      else if (namelen =? 0)%nat then r ← vinode_is_root parent; assert_ r;; path_end cred info EBUSY
      else
        '(error, (v, dirent)) ← lock_parent_and_child_loop calloc_ok ignore_free_errors info;
        if error <? 0 then path_end cred info (- error)
        else
          v ← nonnull v;
          error ←
            (d ← vinode_is_dir v;
             if negb d then mret ENOTDIR
             else
               acc ← vinode_can_access_locked cred parent PFILE_WANT_WRITE;
               if negb acc then mret EACCES
               else
                 ASSERT_NOT_IN_TX;;
                 t ← current_time clock;
                 tx_begin_cb
                   (dirent ← nonnull dirent;
                    vinode_unlink_dir parent dirent v t;;
                    vinode_orphan cfg v;;
                    mret 0)
                   onabort_errno);
          vinode_unlock2 v parent;;
          vinode_unref ignore_free_errors (Some v);;
          path_end cred info error).

Definition pmemfile_rmdir (pfp : bool) (path : option cstring) : M pool Z :=
  if negb pfp then pool_fail EFAULT
  else match path with
       | None => pool_fail ENOENT
       | Some path => with_dir AtCwd path (λ at_, pmemfile_rmdirat at_ path)
       end.

Definition pmemfile_unlinkat (pfp : bool) (dir : at_dir) (pathname : option cstring) (flags : Z) : M pool Z :=
  if negb pfp then pool_fail EFAULT
  else match pathname with
       | None => pool_fail ENOENT
       | Some pathname =>
           if bad_dir dir pathname then pool_fail EFAULT
           else
             with_dir dir pathname (λ at_,
               if has flags PMEMFILE_AT_REMOVEDIR then pmemfile_rmdirat at_ pathname
               else if negb (flags =? 0) then pool_fail EINVAL
               else unlinkat_ at_ pathname)
       end.

Definition pmemfile_unlink (pfp : bool) (pathname : option cstring) : M pool Z := pmemfile_unlinkat pfp AtCwd pathname 0.

(** ** mkdir.c *)

(** [parent = None] is the creation of a root directory. *)
Definition vinode_new_dir (parent : option positive) (name : cstring) (namelen : nat) (cred : pmemfile_cred) (mode : Z) : M pool oid :=
  ASSERT_IN_TX;;
  (if negb (Z.ldiff mode PMEMFILE_ACCESSPERMS =? 0) then tx_abort EINVAL else mret tt);;
  umask ← gets po_umask;
  let mode := Z.ldiff mode umask in
  tchild ← inode_alloc cfg clock cred (Z.lor PMEMFILE_S_IFDIR mode);
  child ← inode_get tchild;
  let t := inode_get_ctime child in
  inode_add_dirent cfg tchild (cstr ".") 1 tchild t;;
  match parent with
  | None => inode_add_dirent cfg tchild (cstr "..") 2 tchild t
  | Some parent =>
      p ← vnode_get parent;
      inode_add_dirent cfg tchild (cstr "..") 2 (vn_tinode p) t;;
      inode_add_dirent cfg (vn_tinode p) name namelen tchild t
  end;;
  mret tchild.

Definition mkdirat_ (dir : option positive) (path : cstring) (mode : Z) : M pool Z :=
  with_cred (λ cred,
    info ← resolve_pathat calloc_ok ignore_free_errors cred dir path 0;
    if negb (pi_error info =? 0) then path_end cred info (pi_error info)
    else
      remaining ← nonnull (pi_remaining info);
      parent ← nonnull (pi_parent info);
      let namelen := component_length remaining in
      if (namelen =? 0)%nat || ((namelen =? 1)%nat && bool_decide (char_at remaining 0 = "."%char)) then path_end cred info EEXIST
      else
        lock (LVinode parent) WrLocked;;
        ASSERT_NOT_IN_TX;;
        error ← tx_begin_cb
          (acc ← vinode_can_access_locked cred parent PFILE_WANT_WRITE;
           (if negb acc then tx_abort EACCES else mret tt);;
           _ ← vinode_new_dir (Some parent) remaining namelen cred mode;
           mret 0)
          onabort_nospc;
        unlock (LVinode parent);;
        path_end cred info error).

Definition pmemfile_mkdirat (pfp : bool) (dir : at_dir) (path : option cstring) (mode : Z) : M pool Z :=
  if negb pfp then pool_fail EFAULT
  else match path with
       | None => pool_fail EFAULT
       | Some path =>
           if bad_dir dir path then pool_fail EFAULT
           else with_dir dir path (λ at_, mkdirat_ at_ path mode)
       end.

Definition pmemfile_mkdir (pfp : bool) (path : option cstring) (mode : Z) : M pool Z := pmemfile_mkdirat pfp AtCwd path mode.

(** ** link.c; [fuel] bounds the symbolic links followed at the end of [oldpath] *)

Definition linkat_ (fuel : nat) (olddir : option positive) (oldpath : cstring) (newdir : option positive) (newpath : cstring)
    (flags : Z) : M pool Z :=
  if negb (Z.ldiff flags (Z.lor PMEMFILE_AT_SYMLINK_FOLLOW PMEMFILE_AT_EMPTY_PATH) =? 0) then pool_fail EINVAL
  else
    with_cred (λ cred,
      let end_ (src dst : path_info) (src_v : option positive) (error : Z) : M pool Z :=
        path_info_cleanup ignore_free_errors dst;;
        path_info_cleanup ignore_free_errors src;;
        on_cred (cred_release cred);;
        ASSERT_NOT_IN_TX;;
        match src_v with Some _ => vinode_unref ignore_free_errors src_v | None => mret tt end;;
        return_error error in
      let none := PathInfo None None 0 in
      '(src_v, src) ←
        (if bool_decide (char_at oldpath 0 = NUL) && has flags PMEMFILE_AT_EMPTY_PATH then
           v ← vinode_ref olddir; mret (Some v, none)
         else
           resolve_pathat_full calloc_ok ignore_free_errors fuel cred olddir oldpath 0 (has flags PMEMFILE_AT_SYMLINK_FOLLOW));
      if negb (pi_error src =? 0) then end_ src none src_v (pi_error src)
      else
        v ← nonnull src_v;
        d ← vinode_is_dir v;
        if d : bool then end_ src none src_v EPERM
        else
          dst ← resolve_pathat calloc_ok ignore_free_errors cred newdir newpath 0;
          if negb (pi_error dst =? 0) then end_ src dst src_v (pi_error dst)
          else
            remaining ← nonnull (pi_remaining dst);
            parent ← nonnull (pi_parent dst);
            let dst_namelen := component_length remaining in
            vinode_wrlock2 parent v;;
            ASSERT_NOT_IN_TX;;
            error ← tx_begin_cb
              (acc ← vinode_can_access_locked cred parent PFILE_WANT_WRITE;
               (if negb acc then tx_abort EACCES else mret tt);;
               t ← current_time clock;
               p ← vnode_get parent;
               x ← vnode_get v;
               inode_add_dirent cfg (vn_tinode p) remaining dst_namelen (vn_tinode x) t;;
               mret 0)
              onabort_nospc;
            vinode_unlock2 parent v;;
            end_ src dst src_v error).

(** The end of the calls with two directories. *)
Definition release_dirs (olddir newdir : option positive * bool) (ret : Z) : M pool Z :=
  error ← get_errno;
  ASSERT_NOT_IN_TX;;
  (if snd olddir then vinode_unref ignore_free_errors (fst olddir) else mret tt);;
  (if snd newdir then vinode_unref ignore_free_errors (fst newdir) else mret tt);;
  (if negb (ret =? 0) then set_errno error else mret tt);;
  mret ret.

Definition with_dirs (olddir : at_dir) (oldpath : option cstring) (newdir : at_dir) (newpath : option cstring)
    (body : option positive → cstring → option positive → cstring → M pool Z) : M pool Z :=
  match oldpath, newpath with
  | Some oldpath, Some newpath =>
      if bad_dir olddir oldpath then pool_fail EFAULT
      else if bad_dir newdir newpath then pool_fail EFAULT
      else
        olddir_at ← pool_get_dir_for_path olddir oldpath;
        newdir_at ← pool_get_dir_for_path newdir newpath;
        ret ← body (fst olddir_at) oldpath (fst newdir_at) newpath;
        release_dirs olddir_at newdir_at ret
  | _, _ => pool_fail ENOENT
  end.

(** The calls relative to the current directory. *)
Definition with_cwd (oldpath newpath : option cstring) (body : option positive → cstring → option positive → cstring → M pool Z)
    : M pool Z :=
  match oldpath, newpath with
  | Some oldpath, Some newpath =>
      at_ ← (if bool_decide (char_at oldpath 0 = SLASH) && bool_decide (char_at newpath 0 = SLASH) then mret None
             else v ← pool_get_cwd; mret (Some v));
      ret ← body at_ oldpath at_ newpath;
      match at_ with Some _ => vinode_cleanup ignore_free_errors at_ (negb (ret =? 0)) | None => mret tt end;;
      mret ret
  | _, _ => pool_fail ENOENT
  end.

Definition pmemfile_linkat (fuel : nat) (pfp : bool) (olddir : at_dir) (oldpath : option cstring) (newdir : at_dir)
    (newpath : option cstring) (flags : Z) : M pool Z :=
  if negb pfp then pool_fail EFAULT
  else with_dirs olddir oldpath newdir newpath (λ o op n np, linkat_ fuel o op n np flags).

Definition pmemfile_link (fuel : nat) (pfp : bool) (oldpath newpath : option cstring) : M pool Z :=
  if negb pfp then pool_fail EFAULT
  else with_cwd oldpath newpath (λ o op n np, linkat_ fuel o op n np 0).

(** ** symlink.c *)

(** What the transaction stores in the new inode. *)
Definition set_symlink (tinode : oid) (flags : Z → Z) (data : file_data) (len : Z) (p : ppool) : ppool :=
  set_pp_inodes (alter (λ x,
    Minode (inode_tx_set_size len (set_i_flags (Slot2 (flags (slot0 (i_flags (mi_inode x)))) (slot1 (i_flags (mi_inode x)))) (mi_inode x))) data)
    tinode (pp_inodes p)) p.

Definition symlink_tx (cred : pmemfile_cred) (vparent : positive) (target remaining : cstring) (namelen : nat)
    (block_info : pmem_block_info) : M pool Z :=
  let len := strlen target in
  let str := until_nul target ++ [NUL] in
  acc ← vinode_can_access_locked cred vparent PFILE_WANT_WRITE;
  (if negb acc then tx_abort EACCES else mret tt);;
  tinode ← inode_alloc cfg clock cred (Z.lor PMEMFILE_S_IFLNK PMEMFILE_ACCESSPERMS);
  (if Z.of_nat len + 1 <=? PMEMFILE_IN_INODE_STORAGE then pm_modify (set_symlink tinode id (DataShortSymlink str) (Z.of_nat len))
   else
     o ← tx_xalloc_char (bi_size block_info) str;
     pm_modify (set_symlink tinode (λ f, Z.lor f PMEMFILE_S_LONGSYMLINK) (DataLongSymlink o) (Z.of_nat len)));;
  i ← inode_get tinode;
  p ← vnode_get vparent;
  inode_add_dirent cfg (vn_tinode p) remaining namelen tinode (inode_get_ctime i);;
  mret 0.

Definition symlinkat_ (target : cstring) (dir : option positive) (linkpath : cstring) : M pool Z :=
  with_cred (λ cred,
    info ← resolve_pathat calloc_ok ignore_free_errors cred dir linkpath 0;
    let end_ (v : option positive) (error : Z) : M pool Z :=
      path_info_cleanup ignore_free_errors info;;
      on_cred (cred_release cred);;
      ASSERT_NOT_IN_TX;;
      match v with Some _ => vinode_unref ignore_free_errors v | None => mret tt end;;
      return_error error in
    if negb (pi_error info =? 0) then end_ None (pi_error info)
    else
      remaining ← nonnull (pi_remaining info);
      vparent ← nonnull (pi_parent info);
      let namelen := component_length remaining in
      v ← vinode_lookup_dirent calloc_ok vparent remaining namelen 0;
      if (v : option positive) then end_ v EEXIST
      else
        let len := Z.of_nat (strlen target) in
        block_info ← data_block_info cfg (len + 1) (MAX_BLOCK_SIZE cfg);
        if Z.of_nat PMEMFILE_PATH_MAX <? len + 1 then end_ None ENAMETOOLONG
        else if bi_size block_info <? len + 1 then end_ None ENAMETOOLONG
        else
          lock (LVinode vparent) WrLocked;;
          ASSERT_NOT_IN_TX;;
          error ← tx_begin_cb (symlink_tx cred vparent target remaining namelen block_info) onabort_nospc;
          unlock (LVinode vparent);;
          end_ None error).

Definition pmemfile_symlinkat (pfp : bool) (target : option cstring) (newdir : at_dir) (linkpath : option cstring) : M pool Z :=
  if negb pfp then pool_fail EFAULT
  else match target, linkpath with
       | Some target, Some linkpath =>
           if bad_dir newdir linkpath then pool_fail EFAULT
           else with_dir newdir linkpath (λ at_, symlinkat_ target at_ linkpath)
       | _, _ => pool_fail EFAULT
       end.

Definition pmemfile_symlink (pfp : bool) (target linkpath : option cstring) : M pool Z :=
  pmemfile_symlinkat pfp target AtCwd linkpath.

(** ** rename.c *)

(** [TX_ADD_DIRECT(&dirent->inode); dirent->inode = o] *)
Definition tx_set_dirent_inode (e : deptr) (o : oid) : M pool unit :=
  tx_add (snap_dirent_inode e);; pm_modify (dirent_upd e (set_de_inode (Some o))).

Definition vinode_update_parent (v src_parent dst_parent : positive) : M pool unit :=
  ASSERT_IN_TX;;
  x ← vnode_get v;
  sp ← vnode_get src_parent;
  dp ← vnode_get dst_parent;
  fuel ← dir_fuel;
  e ← lookup_loop fuel (λ e, str_equal (de_name e) (cstr "..")) (Some (InInode (vn_tinode x)));
  match e with
  | None => fault_ AssertFail
  | Some e =>
      d ← dirent_get e;
      assert_ (bool_decide (de_inode d = Some (vn_tinode sp)));;
      assert_ (bool_decide (vn_parent x = Some src_parent));;
      tx_dec_nlink (vn_tinode sp);;
      tx_inc_nlink (vn_tinode dp);;
      tx_set_dirent_inode e (vn_tinode dp);;
      p ← vinode_ref (Some dst_parent);
      vnode_modify v (set_vn_parent (Some p))
  end.

(** The entry ".." of an exchanged directory gets its new parent. *)
Definition exchange_parent (v new_parent : positive) (np : oid) : M pool unit :=
  e ← vinode_lookup_dirent_by_name_locked v (cstr "..") 2;
  e ← nonnull e;
  tx_set_dirent_inode e np;;
  vnode_modify v (set_vn_parent (Some new_parent)).

Definition exchange_tx (src_parent src_v : positive) (src_e : deptr) (dst_parent dst_v : positive) (dst_e : deptr)
    (src_is_dir dst_is_dir : bool) : M pool Z :=
  x ← vnode_get src_v;
  y ← vnode_get dst_v;
  sp ← vnode_get src_parent;
  dp ← vnode_get dst_parent;
  tx_add (snap_dirent_inode src_e);;
  tx_add (snap_dirent_inode dst_e);;
  pm_modify (dirent_upd src_e (set_de_inode (Some (vn_tinode y))));;
  pm_modify (dirent_upd dst_e (set_de_inode (Some (vn_tinode x))));;
  (if (src_is_dir || dst_is_dir) && negb (bool_decide (src_parent = dst_parent)) then
     (if negb (Bool.eqb src_is_dir dst_is_dir) then
        if src_is_dir then tx_dec_nlink (vn_tinode sp);; tx_inc_nlink (vn_tinode dp)
        else tx_inc_nlink (vn_tinode sp);; tx_dec_nlink (vn_tinode dp)
      else mret tt);;
     (if src_is_dir then exchange_parent src_v dst_parent (vn_tinode dp) else mret tt);;
     (if dst_is_dir then exchange_parent dst_v src_parent (vn_tinode sp) else mret tt)
   else mret tt);;
  mret 0.

Definition vinode_exchange (src_parent src_v : positive) (src_e : deptr) (dst_parent dst_v : positive) (dst_e : deptr) : M pool Z :=
  ASSERT_NOT_IN_TX;;
  src_is_dir ← vinode_is_dir src_v;
  dst_is_dir ← vinode_is_dir dst_v;
  x ← vnode_get src_v;
  y ← vnode_get dst_v;
  let src_oldparent := vn_parent x in
  let dst_oldparent := vn_parent y in
  error ← tx_begin_cb (exchange_tx src_parent src_v src_e dst_parent dst_v dst_e src_is_dir dst_is_dir) onabort_nospc;
  (if (error =? 0) && negb (bool_decide (src_parent = dst_parent)) then
     (if src_is_dir : bool then x ← vnode_get src_v; _ ← vinode_ref (vn_parent x); vinode_unref ignore_free_errors src_oldparent else mret tt);;
     (if dst_is_dir : bool then y ← vnode_get dst_v; _ ← vinode_ref (vn_parent y); vinode_unref ignore_free_errors dst_oldparent else mret tt)
   else mret tt);;
  mret error.

(** The destination that is replaced. *)
Definition rename_replace (dst_parent dst_v : positive) (dst_e : deptr) (t : pmemfile_time) : M pool unit :=
  d ← vinode_is_dir dst_v;
  (if d : bool then vinode_unlink_dir dst_parent dst_e dst_v t else vinode_unlink_file dst_parent dst_e dst_v t);;
  i ← vinode_inode dst_v;
  if inode_get_nlink i =? 0 then vinode_orphan_unlocked cfg dst_v else mret tt.

Definition rename_tx (src_parent src_v : positive) (src_e : deptr) (dst_parent : positive) (dst : option (positive * deptr))
    (dst_remaining : cstring) (t : pmemfile_time) : M pool Z :=
  let new_name_len := component_length dst_remaining in
  match dst with Some (dst_v, dst_e) => rename_replace dst_parent dst_v dst_e t | None => mret tt end;;
  x ← vnode_get src_v;
  sp ← vnode_get src_parent;
  dp ← vnode_get dst_parent;
  (if decide (src_parent = dst_parent) then
     (if (PMEMFILE_MAX_FILE_NAME <? new_name_len)%nat then tx_abort ENAMETOOLONG else mret tt);;
     tx_add (snap_name src_e (S new_name_len));;
     pm_modify (dirent_upd src_e (λ y, set_de_name (write_name dst_remaining new_name_len (de_name y)) y));;
     tx_set_inode_mtime t (vn_tinode sp);;
     tx_set_inode_ctime t (vn_tinode x)
   else
     inode_add_dirent cfg (vn_tinode dp) dst_remaining new_name_len (vn_tinode x) t;;
     vinode_unlink_file src_parent src_e src_v t;;
     d ← vinode_is_dir src_v;
     (if d : bool then vinode_update_parent src_v src_parent dst_parent else mret tt));;
  mret 0.

Definition vinode_rename (src_parent src_v : positive) (src_e : deptr) (dst_parent : positive) (dst : option (positive * deptr))
    (dst_remaining : cstring) : M pool Z :=
  ASSERT_NOT_IN_TX;;
  d ← vinode_is_dir src_v;
  dd ← match dst with Some (dst_v, _) => b ← vinode_is_dir dst_v; mret (Some b) | None => mret None end;
  if d && bool_decide (dd = Some false) then mret ENOTDIR
  else if negb d && bool_decide (dd = Some true) then mret EISDIR
  else
    t ← current_time clock;
    error ← tx_begin_cb (rename_tx src_parent src_v src_e dst_parent dst dst_remaining t) onabort_errno;
    d ← vinode_is_dir src_v;
    (if (error =? 0) && negb (bool_decide (src_parent = dst_parent)) && d then vinode_unref ignore_free_errors (Some src_parent)
     else mret tt);;
    mret error.

Fixpoint dir_is_parent_of (fuel : nat) (possible_parent v : positive) : M pool bool :=
  match fuel with
  | O => fault_ NoFuel
  | S fuel' =>
      root ← vinode_is_root v;
      if root : bool then mret false
      else if decide (v = possible_parent) then mret true
      else x ← vnode_get v; p ← nonnull (vn_parent x); dir_is_parent_of fuel' possible_parent p
  end.

(** The checks of [_pmemfile_renameat2] once all inodes are locked: the result
    is an error, or [None] if the names are to be changed. *)
Definition rename_checks (cred : pmemfile_cred) (src_parent : positive) (src_remaining : cstring) (src_v : positive)
    (dst_parent : positive) (dst_remaining : cstring) (dst_v : option positive) (flags : Z) : M pool (option Z) :=
  if has flags PMEMFILE_RENAME_EXCHANGE && bool_decide (dst_v = None) then mret (Some ENOENT)
  else
    acc1 ← vinode_can_access_locked cred src_parent PFILE_WANT_WRITE;
    if negb acc1 then mret (Some EACCES)
    else
      acc2 ← vinode_can_access_locked cred dst_parent PFILE_WANT_WRITE;
      if negb acc2 then mret (Some EACCES)
      else if decide (dst_v = Some src_v) then mret (Some 0)
      else if bool_decide (is_Some dst_v) && has flags PMEMFILE_RENAME_NOREPLACE then mret (Some EEXIST)
      else
        n ← gets (λ s, S (size (po_vnodes s)));
        loop1 ←
          (if decide (src_parent = dst_parent) then mret false
           else d ← vinode_is_dir src_v; if d : bool then dir_is_parent_of n src_v dst_parent else mret false);
        if loop1 : bool then mret (Some EINVAL)
        else
          loop2 ←
            (if decide (src_parent = dst_parent) then mret false
             else if negb (has flags PMEMFILE_RENAME_EXCHANGE) then mret false
             else
               v ← nonnull dst_v;
               d ← vinode_is_dir v; if d : bool then dir_is_parent_of n v src_parent else mret false);
          if loop2 : bool then mret (Some EINVAL)
          else if str_equal src_remaining (cstr ".") || str_equal src_remaining (cstr "..")
                  || str_equal dst_remaining (cstr ".") || str_equal dst_remaining (cstr "..") then mret (Some EINVAL)
          else mret None.

Definition renameat2_ (olddir : option positive) (oldpath : cstring) (newdir : option positive) (newpath : cstring) (flags : Z) : M pool Z :=
  if negb (Z.ldiff flags PMEMFILE_RENAME_KNOWN_FLAGS =? 0) then pool_fail EINVAL
  else if has flags PMEMFILE_RENAME_WHITEOUT then pool_fail EINVAL
  else if has flags PMEMFILE_RENAME_EXCHANGE && has flags PMEMFILE_RENAME_NOREPLACE then pool_fail EINVAL
  else
    with_cred (λ cred,
      src ← resolve_pathat calloc_ok ignore_free_errors cred olddir oldpath 0;
      dst ← resolve_pathat calloc_ok ignore_free_errors cred newdir newpath 0;
      let end_ (error : Z) : M pool Z := path_info_cleanup ignore_free_errors dst;; path_end cred src error in
      if negb (pi_error src =? 0) then end_ (pi_error src)
      else if negb (pi_error dst =? 0) then end_ (pi_error dst)
      else
        '(error, (src_v, src_e), (dst_v, dst_e), vinodes) ← lock_parents_and_children_loop calloc_ok ignore_free_errors src dst;
        if error <? 0 then end_ (- error)
        else
          assert_ (Bool.eqb (bool_decide (is_Some dst_v)) (bool_decide (is_Some dst_e)));;
          src_parent ← nonnull (pi_parent src);
          dst_parent ← nonnull (pi_parent dst);
          src_remaining ← nonnull (pi_remaining src);
          dst_remaining ← nonnull (pi_remaining dst);
          sv ← nonnull src_v;
          (if decide (src_parent = dst_parent) then mret tt else lock LSuper WrLocked);;
          check ← rename_checks cred src_parent src_remaining sv dst_parent dst_remaining dst_v flags;
          error ←
            match check with
            | Some error => mret error
            | None =>
                se ← nonnull src_e;
                if has flags PMEMFILE_RENAME_EXCHANGE then
                  dv ← nonnull dst_v; de ← nonnull dst_e; vinode_exchange src_parent sv se dst_parent dv de
                else
                  vinode_rename src_parent sv se dst_parent
                    (match dst_v, dst_e with Some v, Some e => Some (v, e) | _, _ => None end) dst_remaining
            end;
          (if decide (src_parent = dst_parent) then mret tt else unlock LSuper);;
          vinode_unlockN vinodes;;
          ASSERT_NOT_IN_TX;;
          match dst_v with Some _ => vinode_unref ignore_free_errors dst_v | None => mret tt end;;
          vinode_unref ignore_free_errors src_v;;
          end_ error).

Definition pmemfile_rename (pfp : bool) (old_path new_path : option cstring) : M pool Z :=
  if negb pfp then pool_fail EFAULT
  else with_cwd old_path new_path (λ o op n np, renameat2_ o op n np 0).

Definition pmemfile_renameat2 (pfp : bool) (old_at : at_dir) (old_path : option cstring) (new_at : at_dir) (new_path : option cstring)
    (flags : Z) : M pool Z :=
  if negb pfp then pool_fail EFAULT
  else with_dirs old_at old_path new_at new_path (λ o op n np, renameat2_ o op n np flags).

Definition pmemfile_renameat (pfp : bool) (old_at : at_dir) (old_path : option cstring) (new_at : at_dir) (new_path : option cstring)
    : M pool Z := pmemfile_renameat2 pfp old_at old_path new_at new_path 0.
End namespace.
