(* ===== verification/NameRep.v ===== *)
(** The persistent directories of a pool as an abstract name space: the relation
    between the two, what a change of one entry does to it, and the transactions
    that add and remove one entry. *)
From S2P Require Import Prelude Layout Inode Blocks FileState HashMap Creds CString Pool InodeArray Vinode Dir PoolTx DirRep Namespace NameSpec.

(** ** Changing one entry of the name space *)

Definition ns_forget (i : oid) (b : option (cstring * oid)) (es : gmap (oid * cstring) oid) : gmap (oid * cstring) oid :=
  match b with Some b => delete (i, b.1) es | None => es end.
Definition ns_learn (i : oid) (b : option (cstring * oid)) (es : gmap (oid * cstring) oid) : gmap (oid * cstring) oid :=
  match b with Some b => <[(i, b.1) := b.2]> es | None => es end.
Definition ns_upd (i : oid) (old new : option (cstring * oid)) (N : ns) : ns :=
  Ns (ns_dirs N) (ns_learn i new (ns_forget i old (ns_ents N))).

(** The entries "." and ".." are the first two of the inode. *)
Definition dots_index (k : cstring) : option nat :=
  if decide (k = dot) then Some 0%nat else if decide (k = dotdot) then Some 1%nat else None.

Lemma dots_index_none k : ¬ dots k → dots_index k = None.
Proof. intros [H1 H2]%not_dots_dot. unfold dots_index. by rewrite !decide_False. Qed.

(** An entry in use, by its name. *)
Definition entry_at (p : ppool) (e : deptr) (k : cstring) : Prop :=
  ∃ x o, dirent_lookup p e = Some x ∧ binding x = Some (k, o).

(** The directories of the pool, [D] being their parts. *)
Record dirs_rep (p : ppool) (D : gmap oid (list dirp)) (N : ns) : Prop := {
  ds_dom : ∀ i, is_Some (D !! i) ↔ i ∈ ns_dirs N;
  ds_only : ∀ i k j, N @ (i, k) = Some j → i ∈ ns_dirs N;
  ds_dir : ∀ i ps, D !! i = Some ps → ∃ m, dir_rep p i ps m ∧ ∀ k, m !! k = N @ (i, k);
  ds_disj : ∀ i j ps qs, D !! i = Some ps → D !! j = Some qs → i ≠ j → ps ## qs;
  ds_dots : ∀ i k j, dots_index k = Some j → is_Some (N @ (i, k)) → entry_at p (InInode i, j) k;
}.

(** The inodes, with their link counts. *)
Record inodes_rep (p : ppool) (N : ns) : Prop := {
  is_kind : ∀ j x, inode_lookup p j = Some x → inode_is_dir x = bool_decide (j ∈ ns_dirs N);
  is_links : ∀ j x, inode_lookup p j = Some x → inode_get_nlink x = Z.of_nat (links N j);
  is_ref : ∀ x j, N @ x = Some j → is_Some (inode_lookup p j);
}.

Definition fs_rep (p : ppool) (D : gmap oid (list dirp)) (N : ns) : Prop := dirs_rep p D N ∧ inodes_rep p N.

Section dirs.
Implicit Types (p : ppool) (D : gmap oid (list dirp)) (N : ns).

Lemma dirent_lookup_upd_ne p (e e' : deptr) f : e ≠ e' → dirent_lookup (dirent_upd e f p) e' = dirent_lookup p e'.
Proof.
  intros Hne. unfold dirent_lookup, dirent_upd. destruct (decide (e.1 = e'.1)) as [He|He]; [|by rewrite dir_lookup_upd_ne].
  rewrite <-He. destruct (dir_lookup p e.1) as [x|] eqn:Hx.
  - rewrite (dir_lookup_upd _ _ _ _ Hx). cbn. rewrite list_lookup_alter_ne; [done|]. intros ?. by destruct e, e'; simplify_eq/=.
  - assert (dir_lookup (dir_upd e.1 (λ d, set_d_dirents (alter f e.2 (d_dirents d)) d) p) e.1 = None) as ->; [|done].
    destruct (e.1) as [j|o]; cbn in *; rewrite lookup_alter_eq; [|by rewrite Hx]. by destruct (pp_inodes p !! j) as [[? []]|].
Qed.

Lemma dirs_rep_ext p p' D N : dirs_rep p D N → (∀ d, dir_lookup p' d = dir_lookup p d) → dirs_rep p' D N.
Proof.
  intros [H1 H2 H3 H4 H5] Hd. split; try done.
  - intros i ps Hi. destruct (H3 i ps Hi) as (m & Hm & Hk). exists m. split; [|done]. by eapply dir_rep_frame.
  - intros i k j Hk Hs. destruct (H5 i k j Hk Hs) as (x & o & Hx & Hb). exists x, o. split; [|done]. unfold dirent_lookup in *. by rewrite Hd.
Qed.

Lemma dirs_rep_inode_upd p D N i f : dirs_rep p D N → dirs_rep (inode_upd i f p) D N.
Proof. intros H. eapply dirs_rep_ext; [done|]. intros d. apply dir_lookup_inode_upd. Qed.

Lemma ns_upd_other (i : oid) (old new : option (cstring * oid)) N (j : oid) k : j ≠ i → ns_upd i old new N @ (j, k) = N @ (j, k).
Proof.
  intros Hne. unfold ns_upd. cbn [ns_ents]. destruct new as [[]|], old as [[]|]; cbn [ns_learn ns_forget fst snd];
    rewrite ?lookup_insert_ne, ?lookup_delete_ne by congruence; done.
Qed.

Lemma ns_upd_same (i : oid) (old new : option (cstring * oid)) N (m : gmap cstring oid) k :
  (∀ k, m !! k = N @ (i, k)) → learn new (forget old m) !! k = ns_upd i old new N @ (i, k).
Proof.
  intros Hm. unfold ns_upd. cbn [ns_ents]. assert (∀ k, forget old m !! k = ns_forget i old (ns_ents N) !! (i, k)) as Hf.
  { intros k'. destruct old as [[k0 o]|]; cbn [forget ns_forget fst]; [|done]. destruct (decide (k0 = k')) as [->|Hne].
    - by rewrite !lookup_delete_eq.
    - rewrite !lookup_delete_ne by congruence. done. }
  destruct new as [[k0 o]|]; cbn [learn ns_learn fst snd]; [|done]. destruct (decide (k0 = k)) as [->|Hne].
  - by rewrite !lookup_insert_eq.
  - rewrite !lookup_insert_ne by congruence. done.
Qed.

Lemma ns_upd_Some i old new N k j :
  ns_upd i old new N @ (i, k) = Some j →
  (∃ b, new = Some b ∧ b.1 = k ∧ b.2 = j) ∨ ((∀ b, old = Some b → b.1 ≠ k) ∧ (∀ b, new = Some b → b.1 ≠ k) ∧ N @ (i, k) = Some j).
Proof.
  unfold ns_upd. cbn [ns_ents]. intros H. destruct new as [[k1 o1]|]; cbn [ns_learn fst snd] in H.
  - apply lookup_insert_Some in H as [[[= ->] ->]|[Hne H]]; [left; by eexists|]. right.
    assert (k1 ≠ k) by congruence. destruct old as [[k0 o0]|]; cbn [ns_forget fst snd] in H.
    + apply lookup_delete_Some in H as [Hne' H]. split_and!; [intros b [= <-]; cbn; congruence|by intros b [= <-]|done].
    + split_and!; [done|by intros b [= <-]|done].
  - right. destruct old as [[k0 o0]|]; cbn [ns_forget fst snd] in H; [|done].
    apply lookup_delete_Some in H as [Hne' H]. split_and!; [intros b [= <-]; cbn; congruence|done|done].
Qed.

(** One entry of a directory changes. *)
Lemma dirs_rep_entry p D N i ps (e : deptr) f x :
  dirs_rep p D N → D !! i = Some ps → e.1 ∈ ps → dirent_lookup p e = Some x → dirent_ok (f x) →
  (∀ b, binding (f x) = Some b → ns_forget i (binding x) (ns_ents N) !! (i, b.1) = None) →
  (∀ b j, binding (f x) = Some b → dots_index b.1 = Some j → e = (InInode i, j)) →
  dirs_rep (dirent_upd e f p) D (ns_upd i (binding x) (binding (f x)) N).
Proof.
  intros [H1 H2 H3 H4 H5] Hi He Hx Hok Hb Hdots. assert (i ∈ ns_dirs N) as Hin by (by apply H1; eexists). split; try done.
  - intros j k o Ho. destruct (decide (j = i)) as [->|Hne]; [done|]. rewrite ns_upd_other in Ho by done. by eapply H2.
  - intros j qs Hj. destruct (H3 j qs Hj) as (m & Hm & Hk). destruct (decide (j = i)) as [->|Hne].
    + assert (qs = ps) as -> by congruence. exists (learn (binding (f x)) (forget (binding x) m)). split.
      * apply dir_rep_change; [done..|]. intros b Hbx. specialize (Hb b Hbx).
        pose proof (ns_upd_same i (binding x) None N m b.1 Hk) as Hs. by rewrite <-Hb.
      * intros k. by apply ns_upd_same.
    + exists m. split; [|intros k; by rewrite ns_upd_other]. eapply dir_rep_frame; [done|]. intros d Hd. apply dir_lookup_upd_ne.
      intros <-. by eapply (H4 i j).
  - intros j k n Hn [o Ho]. destruct (decide (j = i)) as [->|Hne].
    + apply ns_upd_Some in Ho as [(b & Hbx & <- & _)|(Hold & _ & Ho)].
      * rewrite (Hdots b n Hbx Hn) in *. exists (f x), b.2. split; [by apply dirent_lookup_upd|]. rewrite Hbx. by destruct b.
      * destruct (H5 i k n Hn) as (y & o' & Hy & Hyb); [by eexists|]. exists y, o'. split; [|done].
        rewrite dirent_lookup_upd_ne; [done|]. intros ->. assert (y = x) as -> by congruence. by apply (Hold _ Hyb).
    + rewrite ns_upd_other in Ho by done. destruct (H5 j k n Hn) as (y & o' & Hy & Hyb); [by eexists|]. exists y, o'. split; [|done].
      rewrite dirent_lookup_upd_ne; [done|]. intros ->. assert (is_Some (D !! j)) as [qs Hqs] by (apply H1; by eapply H2).
      destruct (H3 j qs Hqs) as (m & Hm & _). destruct (chain_head _ _ _ (dr_chain _ _ _ _ Hm)) as [qs' ->].
      apply (H4 i j ps _ Hi Hqs ltac:(done) (InInode j)); [done|by left].
Qed.
End dirs.

Section inodes.
Implicit Types (p : ppool) (N : ns).

(** The links an entry gives. *)
Definition link_of (b : option (cstring * oid)) : oid → Z :=
  match b with Some b => one_link b.2 | None => no_links end.

Lemma links_upd i old new N j :
  (∀ b, old = Some b → N @ (i, b.1) = Some b.2) → (∀ b, new = Some b → ns_forget i old (ns_ents N) !! (i, b.1) = None) →
  Z.of_nat (links (ns_upd i old new N) j) = Z.of_nat (links N j) - link_of old j + link_of new j.
Proof.
  intros Hold Hnew. unfold links, ns_upd. cbn [ns_ents].
  assert (Z.of_nat (size (filter (λ b, b.2 = j) (ns_forget i old (ns_ents N)))) = Z.of_nat (size (filter (λ b, b.2 = j) (ns_ents N))) - link_of old j) as Hf.
  { destruct old as [[k o]|]; cbn [ns_forget link_of]; [|unfold no_links; lia]. cbn [fst snd] in *.
    rewrite (size_filter_delete (ns_ents N) (i, k) o) by (by apply (Hold (k, o))). unfold one_link. repeat case_decide; subst; try done; lia. }
  destruct new as [[k o]|]; cbn [ns_learn link_of fst snd]; [|unfold no_links; lia]. rewrite size_filter_insert by (by apply (Hnew (k, o))).
  unfold one_link. repeat case_decide; subst; try done; lia.
Qed.

Lemma is_dir_same x y : same_meta x y → inode_is_dir y = inode_is_dir x.
Proof. intros (_ & _ & _ & _ & Hf & _ & _ & Hs). unfold inode_is_dir, inode_get_flags. by rewrite Hf, Hs. Qed.

Lemma inodes_rep_upd p p' N N' δ :
  inodes_rep p N → names_upd p p' δ → ns_dirs N' = ns_dirs N → (∀ j, Z.of_nat (links N' j) = Z.of_nat (links N j) + δ j) →
  (∀ x j, N' @ x = Some j → is_Some (inode_lookup p j)) → inodes_rep p' N'.
Proof.
  intros [H1 H2 H3] Hu Hd Hl Href.
  assert (∀ j y, inode_lookup p' j = Some y → ∃ x, inode_lookup p j = Some x ∧ same_meta x y ∧ inode_get_nlink y = inode_get_nlink x + δ j) as Hback.
  { intros j y Hy. pose proof (nu_inodes _ _ _ Hu j) as Hj. rewrite Hy in Hj. inversion Hj as [x ? [??]|]; subst. eauto. }
  split.
  - intros j y (x & Hx & Hs & _)%Hback. rewrite (is_dir_same _ _ Hs), (H1 _ _ Hx). by rewrite Hd.
  - intros j y (x & Hx & _ & Hn)%Hback. by rewrite Hn, (H2 _ _ Hx), Hl.
  - intros x j Hx. eapply names_upd_is_Some; [done|]. by eapply Href.
Qed.

Lemma dir_first_part p i ps m : dir_rep p i ps m → InInode i ∈ ps.
Proof. intros Hm. destruct (chain_head _ _ _ (dr_chain _ _ _ _ Hm)) as [? ->]. by left. Qed.

Lemma dir_has_inode p i ps m : dir_rep p i ps m → is_Some (inode_lookup p i).
Proof.
  intros Hm. destruct (chain_lookup _ _ _ (InInode i) (dr_chain _ _ _ _ Hm)) as [y Hy]; [by eapply dir_first_part|].
  unfold inode_lookup. cbn in Hy. by destruct (pp_inodes p !! i).
Qed.

Lemma links_le_size N j : (links N j ≤ size (ns_ents N))%nat.
Proof. unfold links. apply map_subseteq_size, map_filter_subseteq. Qed.
End inodes.

Section grow.
Implicit Types (p : ppool) (D : gmap oid (list dirp)) (N : ns).

Lemma entry_at_room p i ps p' ps' m e k : dir_rep p i ps m → room p i ps p' ps' → entry_at p e k → entry_at p' e k.
Proof.
  intros Hr [[-> ->]|(dl & o & Hl & Ho & -> & ->)] (x & c & Hx & Hb); [by exists x, c|]. exists x, c. split; [|done].
  assert (dl ∈ ps) as Hdl by (by apply last_Some_elem_of). destruct (chain_lookup _ _ _ _ (dr_chain _ _ _ _ Hr) Hdl) as [y Hy].
  unfold dirent_lookup in *. rewrite (grown_lookup _ _ _ _ _ _ Ho Hy). case_decide as H1; [rewrite H1 in Hx; cbn in Hx; by rewrite Ho in Hx|].
  case_decide as H2; [rewrite H2, Hy in Hx|]; done.
Qed.

Lemma dirs_rep_room p D N i ps p' ps' :
  dirs_rep p D N → D !! i = Some ps → room p i ps p' ps' → dirs_rep p' (<[i := ps']> D) N.
Proof.
  intros [H1 H2 H3 H4 H5] Hi Hroom. destruct (H3 i ps Hi) as (m & Hm & Hk). pose proof (other_dirs_room _ _ _ _ _ _ Hm Hroom) as Hother.
  assert (∀ j qs, D !! j = Some qs → j ≠ i → (∃ m, dir_rep p' j qs m ∧ ∀ k, m !! k = N @ (j, k)) ∧ qs ## ps') as Ho.
  { intros j qs Hj Hne. destruct (H3 j qs Hj) as (mj & Hmj & Hkj). destruct (Hother j qs mj Hmj); [by eapply H4|]. split; [by exists mj|done]. }
  split; try done.
  - intros j. rewrite <-H1. destruct (decide (j = i)) as [->|Hne]; [rewrite lookup_insert_eq, Hi; by split|by rewrite lookup_insert_ne].
  - intros j qs. rewrite lookup_insert_Some. intros [[<- <-]|[Hne Hj]]; [|by apply Ho]. exists m. split; [|done]. by eapply dir_rep_room.
  - intros a b qa qb. rewrite !lookup_insert_Some. intros [[? ?]|[Hna Ha]] [[? ?]|[Hnb Hb]] Hab; subst; try done.
    + intros d Hda Hdb. by apply (proj2 (Ho _ _ Hb ltac:(done)) d).
    + by eapply Ho.
    + by eapply H4.
  - intros j k n Hn Hs. eapply entry_at_room; [done..|]. by apply H5.
Qed.

(** The other parts stay. *)
Lemma room_frame p i ps p' ps' m d : dir_rep p i ps m → room p i ps p' ps' → d ∉ ps' → dir_lookup p' d = dir_lookup p d.
Proof.
  intros Hr [[-> ->]|(dl & o & Hl & Ho & -> & ->)] Hd; [done|]. assert (dl ∈ ps) as Hdl by (by apply last_Some_elem_of).
  destruct (chain_lookup _ _ _ _ (dr_chain _ _ _ _ Hr) Hdl) as [y Hy]. apply not_elem_of_app in Hd as [Hd1 Hd2].
  rewrite (grown_lookup _ _ _ _ _ _ Ho Hy), !decide_False; [done| |]; [by intros ->|intros ->; apply Hd2; by left].
Qed.

(** The entries of the first part, which an added part does not change. *)
Lemma first_part_room p i ps p' ps' m x :
  dir_rep p i ps m → room p i ps p' ps' → dir_lookup p (InInode i) = Some x →
  ∃ x', dir_lookup p' (InInode i) = Some x' ∧ d_dirents x' = d_dirents x ∧ d_num_elements x' = d_num_elements x.
Proof.
  intros Hr [[-> ->]|(dl & o & Hl & Ho & -> & ->)] Hx; [by exists x|].
  assert (dl ∈ ps) as Hdl by (by apply last_Some_elem_of). destruct (chain_lookup _ _ _ _ (dr_chain _ _ _ _ Hr) Hdl) as [y Hy].
  rewrite (grown_lookup _ _ _ _ _ _ Ho Hy), decide_False by done. case_decide as H2; [|by exists x].
  exists (set_d_next (Some o) y). rewrite <-H2, Hx in Hy. by injection Hy as ->.
Qed.
End grow.

(** ** Adding an entry *)

Section add.
Context `{!PoolAlloc} `{!PoolAllocOk}.
Variables (cfg : block_cfg).
Hypothesis Hcfg : bi_size (metadata_block_info cfg) = METADATA_BLOCK_SIZE.

(** What [inode_add_dirent] may abort with. *)
Definition fs_add_error (N : ns) (i : oid) (k : cstring) (e : Z) : Prop :=
  e = ENOMEM ∨ (e = EEXIST ∧ is_Some (N @ (i, k))) ∨ (e = ENAMETOOLONG ∧ (PMEMFILE_MAX_FILE_NAME < length k)%nat) ∨
  (e = ENOENT ∧ links N i = 0%nat ∧ k ≠ dot).

(** The place for "." and ".." is the first free one. *)
Definition dots_placed (pm : ppool) (i : oid) (k : cstring) : Prop :=
  ∀ j, dots_index k = Some j → ∃ x, dir_lookup pm (InInode i) = Some x ∧ find_dirent name_empty (used_dirents x) 0 = Some j.

(** What happened to the part in the inode. *)
Definition first_part_added (pm pm' : ppool) (i : oid) (name : cstring) (n : nat) (c : oid) : Prop :=
  ∀ x j, dir_lookup pm (InInode i) = Some x → find_dirent name_empty (used_dirents x) 0 = Some j →
    ∃ x', dir_lookup pm' (InInode i) = Some x' ∧ d_num_elements x' = d_num_elements x ∧
      d_dirents x' = alter (λ y, Dirent (Some c) (write_name name n (de_name y))) j (d_dirents x).

Lemma dirs_rep_entry_added p D N i ps e name n k c tm :
  dirs_rep p D N → D !! i = Some ps → name_arg name n k → SLASH ∉ k → (n ≤ PMEMFILE_MAX_FILE_NAME)%nat → N @ (i, k) = None →
  free_at p ps e → (∀ j, dots_index k = Some j → e = (InInode i, j)) →
  dirs_rep (entry_added i e name n c tm p) D (ns_link i k c N).
Proof.
  intros Hd Hi Hk Hs Hn Hnone (He & x & Hx & Hempty) Hplace. unfold entry_added. do 4 apply dirs_rep_inode_upd.
  destruct (ds_dir _ _ _ Hd i ps Hi) as (m & Hm & _). pose proof (all_dirents_ok _ _ _ _ _ Hm (dirent_in_all _ _ _ _ He Hx)) as Hok.
  destruct (write_name_spec name n k (de_name x) Hk Hn (proj1 Hok)) as (Hu & Hl & _). pose proof (name_arg_length _ _ _ Hk) as Hlen.
  pose proof (dirs_rep_entry p D N i ps e (λ x, Dirent (Some c) (write_name name n (de_name x))) x Hd Hi He Hx) as Hent. cbn beta in Hent.
  rewrite (name_empty_free x Hok Hempty), binding_used, Hu in Hent. apply Hent.
  - split; [done|]. cbn [de_inode de_name]. rewrite Hu. destruct Hk as (_ & _ & Hnul & Hne). split_and!; [done|by rewrite Hlen|done|done].
  - by intros b [= <-].
  - intros b j [= <-]. apply Hplace.
Qed.

Lemma first_part_entry_added p ps p1 ps1 m i e name n c tm :
  dir_rep p i ps m → room p i ps p1 ps1 → first_free p i e → first_part_added p (entry_added i e name n c tm p1) i name n c.
Proof.
  intros Hr Hroom Hfirst x j Hx Hj. rewrite (Hfirst x j Hx Hj). destruct (first_part_room _ _ _ _ _ _ x Hr Hroom Hx) as (x1 & Hx1 & Hd & Hn).
  unfold entry_added. rewrite !dir_lookup_inode_upd. unfold dirent_upd. cbn [fst snd]. rewrite (dir_lookup_upd _ _ _ _ Hx1).
  eexists. split; [done|]. cbn. by rewrite Hd.
Qed.

Lemma txop_add_entry s pm D N i ps name n k c tm (P : unit → ppool → Prop) (E : Z → Prop) :
  fs_rep pm D N → D !! i = Some ps → name_arg name n k → SLASH ∉ k → is_Some (inode_lookup pm c) →
  Z.of_nat (size (ns_ents N)) < UINT64_MAX → dots_placed pm i k → (∀ e, fs_add_error N i k e → E e) →
  (∀ pm' ps', N @ (i, k) = None → fs_rep pm' (<[i := ps']> D) (ns_link i k c N) → names_upd pm pm' (one_link c) →
     first_part_added pm pm' i name n c → (∀ d, d ∉ ps' → dir_lookup pm' d = dir_lookup pm d) →
     (links N i = 0%nat → k = dot) → P tt pm') →
  txop (inode_add_dirent cfg i name n c tm) s pm P E.
Proof.
  intros [Hd Hi] HDi Hk Hs Hc Hsize Hdots HE HP. destruct (ds_dir _ _ _ Hd i ps HDi) as (m & Hm & HmN).
  destruct (dir_has_inode _ _ _ _ Hm) as [x Hx].
  eapply (txop_inode_add_dirent cfg Hcfg s pm i ps m x name n k c); [done..| |].
  - intros e He. apply HE. pose proof (name_arg_length _ _ _ Hk) as Hlen. unfold add_error in He. rewrite HmN in He.
    rewrite (is_links _ _ Hi i x Hx) in He. unfold fs_add_error. rewrite Hlen. destruct He as [?|[?|[?|(? & ? & ?)]]]; auto.
    right; right; right. split_and!; [done|lia|done].
  - intros e pm1 ps1 Hlong Hnone Hroom Hfree Hfirst Hlive. rewrite HmN in Hnone. pose proof (names_upd_room _ _ _ _ _ Hroom) as Hu.
    assert (names_upd pm (entry_added i e name n c tm pm1) (one_link c)) as Hu1.
    { eapply names_upd_ext; [eapply names_upd_trans; [done|apply names_upd_entry_added]|intros j; unfold no_links; lia].
      intros y Hy. pose proof (nu_inodes _ _ _ Hu c) as Huc. rewrite Hy in Huc. destruct Hc as [z Hz]. rewrite Hz in Huc. inv Huc.
      unfold no_links in *. rewrite (is_links _ _ Hi c z Hz) in *. pose proof (links_le_size N c). lia. }
    apply (HP _ ps1); [done| |done|by eapply first_part_entry_added| |].
    2: { intros d Hd1. unfold entry_added. rewrite !dir_lookup_inode_upd. unfold dirent_upd.
         rewrite dir_lookup_upd_ne by (intros <-; by apply Hd1, Hfree). by eapply room_frame. }
    2: { intros Hl0. apply Hlive. by rewrite (is_links _ _ Hi i x Hx), Hl0. }
    split.
    + eapply dirs_rep_entry_added; [by eapply dirs_rep_room|by rewrite lookup_insert_eq|done..|].
      intros j Hj. destruct (Hdots j Hj) as (y & Hy & Hf). by apply (Hfirst y).
    + eapply (inodes_rep_upd pm); [done|done|done| |].
      * intros j. etrans; [apply (links_upd i None (Some (k, c)) N j); [done|by intros b [= <-]]|]. cbn. unfold no_links. lia.
      * intros y j. unfold ns_link. cbn [ns_ents]. rewrite lookup_insert_Some. intros [[_ <-]|[_ ?]]; [done|by eapply Hi].
Qed.
End add.

(** ** Code that logs a range and writes it later *)

(** As [txop], with the undo records [us] pending that take the objects to [pm0]. *)
Definition txfrom {A} (us : list (ppool → ppool)) (pm0 : ppool) (m : M pool A) (s : pool) (pm : ppool) (P : A → ppool → Prop) (E : Z → Prop) : Prop :=
  ∀ n t locks,
    wp m (λ a s', ∃ n' us' pm', s' = tx_at s n' pm' (tx_more t us' [] []) locks ∧ undo_log us' pm' = pm0 ∧ P a pm')
      (λ e s', ∃ n' us' pm', s' = tx_at s n' pm' (tx_more t us' [] []) locks ∧ undo_log us' pm' = pm0 ∧ E e)
      (tx_at s n pm (tx_more t us [] []) locks).

Section txfrom.
Context (us : list (ppool → ppool)) (pm0 : ppool).
Implicit Types (s : pool) (pm : ppool) (E : Z → Prop).

Lemma txop_from {A} (m : M pool A) s (P : A → ppool → Prop) E : txfrom [] pm0 m s pm0 P E → txop m s pm0 P E.
Proof. intros Hm n t locks. specialize (Hm n t locks). by rewrite tx_more_nil in Hm. Qed.

Lemma txfrom_op {A} (m : M pool A) s pm (P : A → ppool → Prop) E : undo_log us pm = pm0 → txop m s pm P E → txfrom us pm0 m s pm P E.
Proof.
  intros Hu Hm n t locks. eapply wp_mono; [apply Hm|..].
  - intros a s' (n' & us' & pm' & -> & Hu' & HP). exists n', (us' ++ us), pm'. rewrite tx_more_more, undo_log_app, Hu'. done.
  - intros a s' (n' & us' & pm' & -> & Hu' & HP). exists n', (us' ++ us), pm'. rewrite tx_more_more, undo_log_app, Hu'. done.
Qed.

Lemma txfrom_add {A} snap (k : M pool A) s pm (P : A → ppool → Prop) E :
  txfrom (snap pm :: us) pm0 k s pm P E → txfrom us pm0 (tx_add snap;; k) s pm P E.
Proof. intros Hk n t locks. apply wp_bind, wp_tx_add. rewrite tx_more_more. apply Hk. Qed.

Lemma txfrom_mod {A} f (k : M pool A) s pm (P : A → ppool → Prop) E :
  txfrom us pm0 k s (f pm) P E → txfrom us pm0 (pm_modify f;; k) s pm P E.
Proof. intros Hk n t locks. apply wp_bind, wp_pm_modify. apply Hk. Qed.

Lemma txfrom_mod_last f s pm (P : unit → ppool → Prop) E :
  undo_log us (f pm) = pm0 → P tt (f pm) → txfrom us pm0 (pm_modify f) s pm P E.
Proof. intros Hu HP n t locks. apply wp_pm_modify. by exists n, us, (f pm). Qed.

Lemma txfrom_bind_pure {A B} (m : M pool A) (k : A → M pool B) a s pm (P : B → ppool → Prop) E :
  (∀ n t locks, wp m (λ b s', b = a ∧ s' = tx_at s n pm t locks) (λ _ _, False) (tx_at s n pm t locks)) →
  txfrom us pm0 (k a) s pm P E → txfrom us pm0 (m ≫= k) s pm P E.
Proof. intros Hm Hk n t locks. apply wp_bind. eapply wp_mono; [apply Hm|..]; [|done]. intros ? ? [-> ->]. apply Hk. Qed.

Lemma txfrom_inode_get {B} (k : inode → M pool B) i x s pm (P : B → ppool → Prop) E :
  inode_lookup pm i = Some x → txfrom us pm0 (k x) s pm P E → txfrom us pm0 (inode_get i ≫= k) s pm P E.
Proof. intros Hx. apply txfrom_bind_pure. intros n t locks. by eapply wp_inode_get. Qed.

Lemma txfrom_vnode_get {B} (k : vnode → M pool B) v x s pm (P : B → ppool → Prop) E :
  po_vnodes s !! v = Some x → txfrom us pm0 (k x) s pm P E → txfrom us pm0 (vnode_get v ≫= k) s pm P E.
Proof. intros Hx. apply txfrom_bind_pure. intros n t locks. by eapply wp_vnode_get. Qed.
End txfrom.

Section txfrom_inode.
Implicit Types (s : pool) (pm : ppool) (E : Z → Prop).

Lemma txfrom_inode {A} us pm0 undo f i x (k : M pool A) s pm (P : A → ppool → Prop) E :
  inode_lookup pm i = Some x → txfrom (inode_upd i (undo x) :: us) pm0 k s (inode_upd i f pm) P E →
  txfrom us pm0 (tx_inode undo f i;; k) s pm P E.
Proof.
  intros Hx Hk n t locks. apply wp_bind, wp_bind. eapply wp_inode_get; [done|]. apply wp_bind, wp_tx_add, wp_pm_modify.
  rewrite tx_more_more. apply Hk.
Qed.
End txfrom_inode.

(** ** Removing an entry *)

Section remove.
Implicit Types (p : ppool) (D : gmap oid (list dirp)) (N : ns).

Lemma clear_dirent_ok x : dirent_ok x → dirent_ok (clear_dirent x).
Proof.
  intros [Hl _]. split; [by cbn; rewrite length_insert|]. cbn. destruct (de_name x); [|done]. by cbn in Hl.
Qed.

Lemma clear_dirent_undo x : dirent_ok x → Dirent (de_inode x) (take 1 (de_name x) ++ drop 1 (de_name (clear_dirent x))) = x.
Proof. intros [Hl _]. destruct x as [o [|c nm]]; [by cbn in Hl|]. done. Qed.

Lemma binding_clear x : binding (clear_dirent x) = None.
Proof. done. Qed.

Lemma dirs_rep_cleared p D N i ps (e : deptr) x k c :
  dirs_rep p D N → D !! i = Some ps → e.1 ∈ ps → dirent_lookup p e = Some x → binding x = Some (k, c) →
  dirs_rep (dirent_upd e clear_dirent p) D (ns_unlink i k N).
Proof.
  intros Hd Hi He Hx Hb. destruct (ds_dir _ _ _ Hd i ps Hi) as (m & Hm & _).
  pose proof (all_dirents_ok _ _ _ _ _ Hm (dirent_in_all _ _ _ _ He Hx)) as Hok.
  pose proof (dirs_rep_entry p D N i ps e clear_dirent x Hd Hi He Hx (clear_dirent_ok _ Hok)) as Hent.
  rewrite binding_clear, Hb in Hent. by apply Hent.
Qed.

(** An entry of a directory, as the name space has it. *)
Lemma entry_bound p D N i ps (e : deptr) x k c :
  dirs_rep p D N → D !! i = Some ps → e.1 ∈ ps → dirent_lookup p e = Some x → binding x = Some (k, c) → N @ (i, k) = Some c.
Proof.
  intros Hd Hi He Hx Hb. destruct (ds_dir _ _ _ Hd i ps Hi) as (m & Hm & Hk). rewrite <-Hk. apply (dir_rep_lookup _ _ _ _ _ _ Hm).
  unfold binding in Hb. apply fmap_Some in Hb as (o & Ho & [= -> ->]). exists x. split; [by eapply dirent_in_all|done].
Qed.

Lemma dec_nlink_spec x : 0 < inode_get_nlink x ≤ UINT64_MAX → inode_get_nlink (inode_tx_dec_nlink x) = inode_get_nlink x - 1.
Proof.
  intros Hx. unfold inode_tx_dec_nlink. unfold inode_get_nlink at 1. cbn. rewrite sget_sset. apply Z.mod_small. unfold UINT64_MAX in *. lia.
Qed.

Lemma links_unlink N i k c j :
  N @ (i, k) = Some c → Z.of_nat (links (ns_unlink i k N) j) = Z.of_nat (links N j) - one_link c j.
Proof.
  intros Hk. etrans; [apply (links_upd i (Some (k, c)) None N j); [by intros b [= <-]|done]|]. cbn. unfold no_links. lia.
Qed.

Lemma links_pos N x c : N @ x = Some c → (0 < links N c)%nat.
Proof. intros Hx. destruct (links N c) eqn:Hl; [|lia]. by apply (links_zero _ _ x) in Hl. Qed.

End remove.

Section unlink_file.
Implicit Types (p : ppool) (D : gmap oid (list dirp)) (N : ns).

Definition lost_link (c : oid) : oid → Z := λ j, - one_link c j.

(** The objects after [vinode_unlink_file]. *)
Definition entry_removed (i : oid) (e : deptr) (c : oid) (v : option oid) (tm : pmemfile_time) (p : ppool) : ppool :=
  dirent_upd e clear_dirent (inode_upd i (inode_tx_set_mtime tm)
    (from_option (λ v, inode_upd v (inode_tx_set_ctime tm)) id v (inode_upd c inode_tx_dec_nlink p))).

Lemma names_upd_entry_removed p i e c v tm :
  (∀ x, inode_lookup p c = Some x → 0 < inode_get_nlink x ≤ UINT64_MAX) →
  names_upd p (entry_removed i e c v tm p) (lost_link c).
Proof.
  intros Hc. unfold entry_removed. eapply names_upd_ext; [eapply names_upd_trans; [|apply names_upd_dir]|].
  - apply names_upd_after; [|intros x; apply same_meta_set|done].
    assert (names_upd p (inode_upd c inode_tx_dec_nlink p) (lost_link c)) as Hd.
    { apply names_upd_inode; [intros x; apply same_meta_set|..].
      - intros x Hx. unfold lost_link, one_link. rewrite decide_True by done. rewrite dec_nlink_spec by auto. lia.
      - intros j Hj. unfold lost_link, one_link. by rewrite decide_False. }
    destruct v as [v|]; [|done]. apply names_upd_after; [done|intros x; apply same_meta_set|done].
  - intros j. unfold no_links. lia.
Qed.

Lemma fs_rep_entry_removed p D N i ps e x k c v tm :
  fs_rep p D N → D !! i = Some ps → e.1 ∈ ps → dirent_lookup p e = Some x → binding x = Some (k, c) →
  Z.of_nat (size (ns_ents N)) < UINT64_MAX →
  fs_rep (entry_removed i e c v tm p) D (ns_unlink i k N) ∧ names_upd p (entry_removed i e c v tm p) (lost_link c).
Proof.
  intros [Hd Hi] HDi He Hx Hb Hsize. pose proof (entry_bound _ _ _ _ _ _ _ _ _ Hd HDi He Hx Hb) as Hk.
  assert (names_upd p (entry_removed i e c v tm p) (lost_link c)) as Hu.
  { apply names_upd_entry_removed. intros y Hy. rewrite (is_links _ _ Hi c y Hy). pose proof (links_pos _ _ _ Hk).
    pose proof (links_le_size N c). lia. }
  split; [|done]. split.
  - unfold entry_removed. destruct v as [v|]; cbn [from_option]; unfold id; rewrite <-!inode_dirent_comm; repeat apply dirs_rep_inode_upd;
      by eapply dirs_rep_cleared.
  - eapply inodes_rep_upd; [done..| |].
    + intros j. rewrite (links_unlink _ _ _ c) by done. unfold lost_link. lia.
    + intros y j. unfold ns_unlink. cbn [ns_ents]. intros [_ Hy]%lookup_delete_Some. by eapply Hi.
Qed.

(** What [vinode_unlink_file] logged restores the objects. *)
Lemma entry_removed_undo p i e c (v : option (oid * inode)) tm x xc xi :
  dirent_lookup p e = Some x → dirent_ok x → inode_lookup p c = Some xc →
  (∀ v' xv, v = Some (v', xv) → inode_lookup (inode_upd c inode_tx_dec_nlink p) v' = Some xv) →
  inode_lookup (from_option (λ v, inode_upd v.1 (inode_tx_set_ctime tm)) id v (inode_upd c inode_tx_dec_nlink p)) i = Some xi →
  undo_log (inode_upd i (undo_mtime xi) :: from_option (λ v, [inode_upd v.1 (undo_ctime v.2)]) [] v ++
            [snap_dirent e 1 p; inode_upd c (undo_nlink xc)])
    (entry_removed i e c (fst <$> v) tm p) = p.
Proof.
  intros Hx Hok Hc Hv Hi. unfold entry_removed. cbn [undo_log]. rewrite <-inode_dirent_comm.
  rewrite (inode_upd_undo _ i xi); [|by rewrite inode_lookup_dirent_upd; destruct v|apply undo_mtime_set].
  assert (∀ q, q = dirent_upd e clear_dirent (inode_upd c inode_tx_dec_nlink p) →
    undo_log [snap_dirent e 1 p; inode_upd c (undo_nlink xc)] q = p) as Hlast.
  { intros q ->. cbn [undo_log]. unfold snap_dirent. rewrite Hx, (dirent_upd_undo _ e x); [|by rewrite dirent_lookup_inode_upd|by apply clear_dirent_undo].
    apply (inode_upd_undo _ _ xc); [done|apply undo_nlink_set]. }
  destruct v as [[v xv]|]; cbn [from_option app fmap option_fmap option_map fst snd undo_log]; apply Hlast; [|done].
  rewrite <-inode_dirent_comm. apply (inode_upd_undo _ _ xv); [|apply undo_ctime_set]. rewrite inode_lookup_dirent_upd. by apply Hv.
Qed.

Lemma txop_unlink_file s pm D N vp (p : vnode) i ps e x k c v y tm (P : unit → ppool → Prop) E :
  fs_rep pm D N → po_vnodes s !! vp = Some p → vn_tinode p = i → D !! i = Some ps → e.1 ∈ ps →
  dirent_lookup pm e = Some x → binding x = Some (k, c) → po_vnodes s !! v = Some y → vn_tinode y = c →
  Z.of_nat (size (ns_ents N)) < UINT64_MAX →
  (∀ pm', fs_rep pm' D (ns_unlink i k N) → names_upd pm pm' (lost_link c) → (∀ d, d ∉ ps → dir_lookup pm' d = dir_lookup pm d) → P tt pm') →
  txop (vinode_unlink_file vp e v tm) s pm P E.
Proof.
  intros Hfs Hvp Hip HDi He Hx Hb Hv Hvc Hsize HP. destruct (Hfs) as [Hd Hi].
  pose proof (entry_bound _ _ _ _ _ _ _ _ _ Hd HDi He Hx Hb) as Hk. destruct (is_ref _ _ Hi _ _ Hk) as [xc Hc].
  destruct (ds_dir _ _ _ Hd i ps HDi) as (m & Hm & _). pose proof (all_dirents_ok _ _ _ _ _ Hm (dirent_in_all _ _ _ _ He Hx)) as Hok.
  destruct (dir_has_inode _ _ _ _ Hm) as [xi Hxi].
  unfold vinode_unlink_file. eapply (txop_pure_seq _ _ tt); [by apply txop_in_tx|].
  eapply (txop_pure_seq _ _ x); [by eapply txop_dirent_get|]. assert (de_inode x = Some c) as Hxc.
  { unfold binding in Hb. by apply fmap_Some in Hb as (o & Ho & [= _ ->]). }
  eapply (txop_pure_seq _ _ c); [by eapply txop_of_option|]. eapply (txop_pure_seq _ _ xc); [by eapply txop_inode_get|].
  eapply (txop_pure_seq _ _ tt).
  { apply txop_assert; [|done]. rewrite (is_links _ _ Hi c xc Hc). pose proof (links_pos _ _ _ Hk). lia. }
  apply txop_from. apply txfrom_add, txfrom_add, txfrom_mod.
  eapply (txfrom_inode_get _ _ _ c (inode_tx_dec_nlink xc)); [by rewrite inode_lookup_inode_upd, Hc|].
  eapply txfrom_vnode_get; [done|]. rewrite Hvc.
  assert (∀ v', (v' = None ∨ v' = Some (c, inode_tx_dec_nlink xc)) →
    txfrom (from_option (λ v, [inode_upd v.1 (undo_ctime v.2)]) [] v' ++ [snap_dirent e 1 pm; inode_upd c (undo_nlink xc)]) pm
     (p ← vnode_get vp; tx_set_inode_mtime tm (vn_tinode p);; pm_modify (dirent_upd e clear_dirent)) s
     (from_option (λ v, inode_upd v.1 (inode_tx_set_ctime tm)) id v' (inode_upd c inode_tx_dec_nlink pm)) P E) as Htail.
  { intros v' Hv'. eapply txfrom_vnode_get; [done|]. rewrite Hip.
    assert (is_Some (inode_lookup (from_option (λ v, inode_upd v.1 (inode_tx_set_ctime tm)) id v' (inode_upd c inode_tx_dec_nlink pm)) i)) as [xm Hxm].
    { destruct Hv' as [->| ->]; cbn; auto with pooltx. }
    eapply txfrom_inode; [done|]. apply txfrom_mod_last.
    - etrans; [|apply (entry_removed_undo pm i e c v' tm x xc xm); try done]; [by destruct v'|]. intros w xw. destruct Hv' as [->| ->]; [done|]. intros [= <- <-]. by rewrite inode_lookup_inode_upd, Hc.
    - destruct (fs_rep_entry_removed pm D N i ps e x k c (fst <$> v') tm) as [Hf Hu]; [done..|].
      replace (dirent_upd _ _ _) with (entry_removed i e c (fst <$> v') tm pm) by (by destruct v'). apply HP; [done..|].
      intros d Hdps. unfold entry_removed, dirent_upd. rewrite dir_lookup_upd_ne by (by intros <-).
      destruct v'; cbn; by rewrite !dir_lookup_inode_upd. }
  destruct (0 <? _).
  - eapply txfrom_inode; [by rewrite inode_lookup_inode_upd, Hc|]. apply (Htail (Some (c, inode_tx_dec_nlink xc))). by right.
  - eapply (txfrom_bind_pure _ _ _ _ tt); [intros; by apply wp_ret|]. apply (Htail None). by left.
Qed.
End unlink_file.

(** ** Removing an empty directory *)

Section entries.
Implicit Types (p : ppool) (D : gmap oid (list dirp)) (N : ns).

(** A name is in one entry of a directory only. *)
Lemma entry_unique p i ps m (e e' : deptr) x x' k o o' :
  dir_rep p i ps m → e.1 ∈ ps → e'.1 ∈ ps → dirent_lookup p e = Some x → dirent_lookup p e' = Some x' →
  binding x = Some (k, o) → binding x' = Some (k, o') → e = e'.
Proof.
  intros Hm He He' Hx Hx' Hb Hb'. destruct (decide (e = e')) as [|Hne]; [done|]. exfalso.
  pose proof (all_dirents_ok _ _ _ _ _ Hm (dirent_in_all _ _ _ _ He Hx)) as Hok.
  pose proof (dir_rep_change p i ps m e clear_dirent x Hm He Hx (clear_dirent_ok _ Hok) ltac:(done)) as Hc.
  rewrite binding_clear, Hb in Hc. cbn [learn forget fst] in Hc.
  assert (delete k m !! k = Some o') as Hl; [|by rewrite lookup_delete_eq in Hl].
  apply (dir_rep_lookup _ _ _ _ _ _ Hc). unfold binding in Hb'. apply fmap_Some in Hb' as (o2 & Ho2 & [= -> ->]). exists x'.
  split; [|done]. apply (dirent_in_all _ _ e'); [done|]. by rewrite dirent_lookup_upd_ne.
Qed.

Definition unused (x : dirent) : bool := bool_decide (de_inode x = None).

Lemma unused_binding x : unused x = true ↔ binding x = None.
Proof. unfold unused, binding. rewrite bool_decide_eq_true. by destruct (de_inode x). Qed.

(** An entry behind the first two has another name. *)
Lemma used_entry p D N i ps (e : deptr) x :
  dirs_rep p D N → D !! i = Some ps → is_Some (N @ (i, dot)) → is_Some (N @ (i, dotdot)) → e.1 ∈ ps → dirent_lookup p e = Some x → unused x = false →
  e ≠ (InInode i, 0%nat) → e ≠ (InInode i, 1%nat) → ∃ k, ¬ dots k ∧ is_Some (N @ (i, k)).
Proof.
  intros Hd Hi Hdot Hdd He Hx Hu H0 H1. destruct (binding x) as [[k o]|] eqn:Hb; [|by apply unused_binding in Hb; congruence].
  pose proof (entry_bound _ _ _ _ _ _ _ _ _ Hd Hi He Hx Hb) as Hk. exists k. split; [|by eexists].
  destruct (ds_dir _ _ _ Hd i ps Hi) as (m & Hm & _). pose proof (dir_first_part _ _ _ _ Hm) as Hin.
  intros [->| ->].
  - destruct (ds_dots _ _ _ Hd i dot 0 eq_refl Hdot) as (y & o' & Hy & Hyb). apply H0. by eapply (entry_unique p i ps m e (InInode i, 0%nat)).
  - destruct (ds_dots _ _ _ Hd i dotdot 1 eq_refl Hdd) as (y & o' & Hy & Hyb). apply H1. by eapply (entry_unique p i ps m e (InInode i, 1%nat)).
Qed.

(** If all others are free, the directory is empty. *)
Lemma unused_empty p D N i os x :
  dirs_rep p D N → D !! i = Some (InInode i :: os) → dir_lookup p (InInode i) = Some x → is_Some (N @ (i, dot)) → is_Some (N @ (i, dotdot)) →
  Forall (λ y, unused y = true) (drop 2 (d_dirents x)) → Forall (λ y, unused y = true) (all_dirents p os) →
  ∀ k, ¬ dots k → N @ (i, k) = None.
Proof.
  intros Hd Hi Hx Hdot Hdd H2 Ho k Hk. destruct (N @ (i, k)) as [c|] eqn:Hc; [|done]. exfalso.
  destruct (ds_dir _ _ _ Hd _ _ Hi) as (m & Hm & HmN). rewrite <-HmN in Hc. apply (dir_rep_lookup _ _ _ _ _ _ Hm) in Hc as (y & Hy & Hyi & Hyk).
  assert (binding y = Some (k, c)) as Hb by (unfold binding; by rewrite Hyi, <-Hyk).
  assert (∀ l, Forall (λ y, unused y = true) l → y ∉ l) as Hno.
  { intros l Hl Hin. eapply Forall_forall in Hl; [|done]. apply unused_binding in Hl. congruence. }
  apply elem_of_all_dirents in Hy as [Hy|Hy]; [|by apply (Hno _ Ho)]. unfold part_dirents in Hy. rewrite Hx in Hy.
  apply list_elem_of_lookup in Hy as [n Hn]. assert (∀ z, dirent_lookup p (InInode i, n) = Some z → z = y) as Hz.
  { intros z. unfold dirent_lookup. cbn [fst snd]. rewrite Hx. cbn. congruence. }
  destruct n as [|[|n]].
  - destruct (ds_dots _ _ _ Hd i dot 0 eq_refl Hdot) as (z & o' & Hzl & Hzb). rewrite (Hz _ Hzl), Hb in Hzb. injection Hzb as -> _. apply Hk. by left.
  - destruct (ds_dots _ _ _ Hd i dotdot 1 eq_refl Hdd) as (z & o' & Hzl & Hzb). rewrite (Hz _ Hzl), Hb in Hzb. injection Hzb as -> _. apply Hk. by right.
  - apply (Hno _ H2), list_elem_of_lookup. exists n. by rewrite lookup_drop.
Qed.

Lemma free_from_spec k x : part_ok x → free_from k x = forallb unused (drop k (d_dirents x)).
Proof. intros Hok. unfold free_from. by rewrite (part_ok_used _ Hok). Qed.

Lemma txop_parts_free s p d ps fuel E :
  dir_chain p d ps → (∀ d x, d ∈ ps → dir_lookup p d = Some x → part_ok x) → (length ps ≤ fuel)%nat →
  txop (parts_free fuel (Some d)) s p (λ b q, b = forallb unused (all_dirents p ps) ∧ q = p) E.
Proof.
  intros Hc. revert fuel. induction Hc as [d x Hx Hn|d x o ps Hx Hn Hc IH]; intros fuel Hok Hf; (destruct fuel as [|fuel]; [cbn in Hf; lia|]);
    cbn [parts_free]; (eapply (txop_pure_seq _ _ x); [by eapply txop_dir_get|]);
    (assert (part_dirents p d = d_dirents x) as Hp by (unfold part_dirents; by rewrite Hx));
    rewrite Hn, free_from_spec, drop_0 by (apply (Hok d); [by left|done]); unfold all_dirents; cbn [mbind list_bind].
  - rewrite Hp, app_nil_r. destruct (forallb _ _); cbn; [destruct fuel|]; by apply txop_ret.
  - rewrite Hp, forallb_app. destruct (forallb unused (d_dirents x)); cbn [andb]; [|by apply txop_ret]. apply IH; [|cbn in Hf; lia].
    intros d' x' Hd'. apply Hok. by right.
Qed.

Lemma txop_tx_clear_seq {A} s p e x (k : M pool A) (P : A → ppool → Prop) E :
  dirent_lookup p e = Some x → dirent_ok x → txop k s (dirent_upd e clear_dirent p) P E → txop (tx_clear_dirent e;; k) s p P E.
Proof.
  intros Hx Hok Hk. eapply (txop_bind _ _ _ _ (λ _ q, q = dirent_upd e clear_dirent p)); [|by intros _ ? ->]. apply txop_upd; [|done].
  unfold snap_dirent. rewrite Hx. apply (dirent_upd_undo _ _ x); [done|by apply clear_dirent_undo].
Qed.

Lemma forallb_Forall {A} (f : A → bool) l : forallb f l = true ↔ Forall (λ x, f x = true) l.
Proof. induction l as [|x l IH]; cbn; [by split|]. by rewrite andb_true_iff, Forall_cons, IH. Qed.
Lemma forallb_false {A} (f : A → bool) l : forallb f l = false → ∃ x, x ∈ l ∧ f x = false.
Proof.
  induction l as [|x l IH]; cbn; [done|]. destruct (f x) eqn:Hx; cbn.
  - intros (y & Hy & Hfy)%IH. exists y. split; [by right|done].
  - intros _. exists x. split; [by left|done].
Qed.

Lemma in_all_dirents p ps x : x ∈ all_dirents p ps → ∃ e : deptr, e.1 ∈ ps ∧ dirent_lookup p e = Some x.
Proof.
  intros (d & Hx & Hd)%list_elem_of_bind. unfold part_dirents in Hx. destruct (dir_lookup p d) as [y|] eqn:Hy; [|by apply elem_of_nil in Hx].
  apply list_elem_of_lookup in Hx as [n Hn]. exists (d, n). split; [done|]. unfold dirent_lookup. cbn [fst snd]. by rewrite Hy.
Qed.
End entries.
