(* ===== verification/NameTx.v ===== *)
(** The transactions of mkdir.c, unlink.c, rmdir.c, link.c and rename.c on the
    name space: on success each makes one step of it, otherwise its undo records
    take the pool back to where it was. *)
From S2P Require Import Prelude Layout Inode Blocks FileState HashMap Creds CString Pool InodeArray Vinode Dir PoolTx DirRep Namespace NameSpec NameRep.

Section unlink_dir.
Implicit Types (p : ppool) (D : gmap oid (list dirp)) (N : ns).

Definition set_nlink0 (i : inode) : inode := set_i_nlink (sset (s_nlink (i_slots i)) 0 (i_nlink i)) i.

(** The objects after [vinode_unlink_dir]. *)
Definition dir_removed (i : oid) (e : deptr) (c : oid) (tm : pmemfile_time) (p : ppool) : ppool :=
  inode_upd i (inode_tx_set_mtime tm) (inode_upd i (inode_tx_set_ctime tm) (inode_upd i inode_tx_dec_nlink
    (dirent_upd e clear_dirent (inode_upd c set_nlink0
      (dirent_upd (InInode c, 1%nat) clear_dirent (dirent_upd (InInode c, 0%nat) clear_dirent p)))))).

Context (roots : gset oid) (pm : ppool) (D : gmap oid (list dirp)) (N : ns) (i c : oid) (k : cstring) (ps qs : list dirp) (e : deptr) (x : dirent).
Hypothesis HN : ns_wf roots N.
Hypothesis Hfs : fs_rep pm D N.
Hypothesis Hi : D !! i = Some ps.
Hypothesis Hc : D !! c = Some qs.
Hypothesis He : e.1 ∈ ps.
Hypothesis Hx : dirent_lookup pm e = Some x.
Hypothesis Hb : binding x = Some (k, c).
Hypothesis Hk : ¬ dots k.
Hypothesis Hsize : Z.of_nat (size (ns_ents N)) < UINT64_MAX.

Lemma ud_bound : N @ (i, k) = Some c.
Proof. by eapply entry_bound; [apply Hfs|..]. Qed.
Lemma ud_dir : c ∈ ns_dirs N.
Proof. apply (ds_dom _ _ _ (proj1 Hfs)). by eexists. Qed.
Lemma ud_parent : c ∉ roots ∧ up N c i ∧ i ≠ c.
Proof. exact (rmdir_parent HN i c k ud_bound Hk ud_dir). Qed.
Lemma ud_live : live N c.
Proof. destruct ud_parent as (_ & Hup & _). by apply (nw_dir _ _ HN) in Hup as (_ & ? & _). Qed.

Lemma ud_child : e.1 ≠ InInode c.
Proof.
  intros H1. destruct (ds_dir _ _ _ (proj1 Hfs) c qs Hc) as (m & Hm & _). destruct ud_parent as (_ & _ & Hne).
  apply (ds_disj _ _ _ (proj1 Hfs) i c ps qs Hi Hc Hne e.1); [done|]. rewrite H1. by eapply dir_first_part.
Qed.

(** The entries "." and "..". *)
Lemma ud_dot : ∃ y, dirent_lookup pm (InInode c, 0%nat) = Some y ∧ binding y = Some (dot, c) ∧ dirent_ok y.
Proof.
  destruct (ds_dir _ _ _ (proj1 Hfs) c qs Hc) as (m & Hm & _). pose proof (dir_first_part _ _ _ _ Hm) as Hin.
  destruct (ds_dots _ _ _ (proj1 Hfs) c dot 0 eq_refl ltac:(eexists; apply ud_live)) as (y & o & Hy & Hyb). exists y. split; [done|].
  pose proof (entry_bound _ _ _ _ _ (InInode c, 0%nat) _ _ _ (proj1 Hfs) Hc Hin Hy Hyb) as Ho. rewrite ud_live in Ho. injection Ho as <-.
  split; [done|]. apply (all_dirents_ok _ _ _ _ _ Hm). by apply (dirent_in_all _ _ (InInode c, 0%nat)).
Qed.

Lemma ud_dotdot : ∃ y, dirent_lookup pm (InInode c, 1%nat) = Some y ∧ binding y = Some (dotdot, i) ∧ dirent_ok y.
Proof.
  destruct (ds_dir _ _ _ (proj1 Hfs) c qs Hc) as (m & Hm & _). pose proof (dir_first_part _ _ _ _ Hm) as Hin.
  destruct ud_parent as (_ & Hup & _). unfold up in Hup.
  destruct (ds_dots _ _ _ (proj1 Hfs) c dotdot 1 eq_refl ltac:(by eexists)) as (y & o & Hy & Hyb). exists y. split; [done|].
  pose proof (entry_bound _ _ _ _ _ (InInode c, 1%nat) _ _ _ (proj1 Hfs) Hc Hin Hy Hyb) as Ho. rewrite Hup in Ho. injection Ho as <-.
  split; [done|]. apply (all_dirents_ok _ _ _ _ _ Hm). by apply (dirent_in_all _ _ (InInode c, 1%nat)).
Qed.

Lemma ud_entry_ok : dirent_ok x.
Proof. destruct (ds_dir _ _ _ (proj1 Hfs) i ps Hi) as (m & Hm & _). apply (all_dirents_ok _ _ _ _ _ Hm). by apply (dirent_in_all _ _ e). Qed.

Lemma ud_lookup1 : ∃ y, dirent_lookup (dirent_upd (InInode c, 0%nat) clear_dirent pm) (InInode c, 1%nat) = Some y ∧ binding y = Some (dotdot, i) ∧ dirent_ok y.
Proof. destruct ud_dotdot as (y & Hy & ?). exists y. by rewrite dirent_lookup_upd_ne. Qed.

Lemma ud_lookup2 f :
  dirent_lookup (inode_upd c f (dirent_upd (InInode c, 1%nat) clear_dirent (dirent_upd (InInode c, 0%nat) clear_dirent pm))) e = Some x.
Proof.
  rewrite dirent_lookup_inode_upd. pose proof ud_child. rewrite !dirent_lookup_upd_ne; [done|..]; intros <-; by cbn in *.
Qed.

Lemma dirs_rep_dir_removed tm : dirs_rep (dir_removed i e c tm pm) D (ns_rmdir i k c N).
Proof.
  destruct (ds_dir _ _ _ (proj1 Hfs) c qs Hc) as (m & Hm & _). pose proof (dir_first_part _ _ _ _ Hm) as Hin.
  destruct ud_dot as (y & Hy & Hyb & _). destruct ud_lookup1 as (z & Hz & Hzb & _).
  pose proof (dirs_rep_cleared _ _ _ _ _ _ _ _ _ (proj1 Hfs) Hc (Hin : (InInode c, 0%nat).1 ∈ qs) Hy Hyb) as H1.
  pose proof (dirs_rep_cleared _ _ _ _ _ _ _ _ _ H1 Hc (Hin : (InInode c, 1%nat).1 ∈ qs) Hz Hzb) as H2.
  apply (dirs_rep_inode_upd _ _ _ c set_nlink0) in H2. unfold dir_removed. do 3 apply dirs_rep_inode_upd.
  by apply (dirs_rep_cleared _ _ _ _ _ _ _ _ _ H2 Hi He (ud_lookup2 _) Hb).
Qed.

Hypothesis Hempty : ∀ k', ¬ dots k' → N @ (c, k') = None.

Lemma ud_nlink y : inode_lookup pm c = Some y → inode_get_nlink y = 2.
Proof. intros Hy. rewrite (is_links _ _ (proj2 Hfs) c y Hy), (empty_dir_links roots N i k c); [done..|apply HN|apply ud_bound|done|apply ud_dir|done]. Qed.

Definition rmdir_links : oid → Z := λ j, -2 * one_link c j - one_link i j.

Lemma names_upd_dir_removed tm : names_upd pm (dir_removed i e c tm pm) rmdir_links.
Proof.
  destruct ud_parent as (_ & Hup & Hne). unfold dir_removed. do 2 (apply names_upd_after; [|intros y; apply same_meta_set|done]).
  set (p1 := dirent_upd (InInode c, 1%nat) clear_dirent _). assert (names_upd pm p1 no_links) as Hu1.
  { eapply names_upd_ext; [eapply names_upd_trans; apply names_upd_dir|done]. }
  assert (names_upd p1 (inode_upd c set_nlink0 p1) (λ j, -2 * one_link c j)) as Hu2.
  { apply names_upd_inode; [intros y; apply same_meta_set|..].
    - intros y. unfold p1. rewrite !inode_lookup_dirent_upd. intros Hy. rewrite (ud_nlink y Hy). unfold one_link. rewrite decide_True by done.
      unfold inode_get_nlink, set_nlink0. cbn. by rewrite sget_sset.
    - intros j Hj. unfold one_link. by rewrite decide_False. }
  eapply names_upd_ext; [eapply names_upd_trans; [exact Hu1|eapply names_upd_trans; [exact Hu2|eapply names_upd_trans; [apply names_upd_dir|]]]|].
  - apply (names_upd_inode _ _ _ (lost_link i)); [intros y; apply same_meta_set|..].
    + intros y. unfold p1. rewrite inode_lookup_dir_upd, inode_lookup_inode_upd_ne, !inode_lookup_dirent_upd by done. intros Hy.
      unfold lost_link, one_link. rewrite decide_True, dec_nlink_spec by done || (rewrite (is_links _ _ (proj2 Hfs) i y Hy);
        pose proof (links_pos _ _ _ Hup); pose proof (links_le_size N i); lia). lia.
    + intros j Hj. unfold lost_link, one_link. by rewrite decide_False.
  - intros j. unfold no_links, lost_link, rmdir_links. lia.
Qed.

Lemma fs_rep_dir_removed tm : fs_rep (dir_removed i e c tm pm) D (ns_rmdir i k c N).
Proof.
  split; [apply dirs_rep_dir_removed|]. destruct ud_parent as (_ & Hup & Hne). pose proof ud_live as Hl.
  eapply inodes_rep_upd; [apply Hfs|apply names_upd_dir_removed|done| |].
  - intros j. change (ns_rmdir i k c N) with (ns_unlink i k (ns_unlink c dotdot (ns_unlink c dot N))).
    pose proof dot_dotdot. rewrite (links_unlink _ i k c), (links_unlink _ c dotdot i), (links_unlink _ c dot c); unfold rmdir_links; [lia|done|..];
      unfold ns_unlink; cbn [ns_ents]; rewrite !lookup_delete_ne by congruence; [done|apply ud_bound].
  - intros y j. unfold ns_rmdir. cbn [ns_ents]. intros [_ [_ [_ Hy]%lookup_delete_Some]%lookup_delete_Some]%lookup_delete_Some.
    by eapply (is_ref _ _ (proj2 Hfs)).
Qed.
End unlink_dir.

Section unlink_dir_tx.
Context (roots : gset oid) (s : pool) (pm : ppool) (D : gmap oid (list dirp)) (N : ns).
Context (i c : oid) (k : cstring) (ps qs : list dirp) (e : deptr) (x : dirent) (vp vd : positive) (p d : vnode) (tm : pmemfile_time).
Hypothesis HN : ns_wf roots N.
Hypothesis Hfs : fs_rep pm D N.
Hypothesis Hvp : po_vnodes s !! vp = Some p.
Hypothesis Hpi : vn_tinode p = i.
Hypothesis Hvd : po_vnodes s !! vd = Some d.
Hypothesis Hdc : vn_tinode d = c.
Hypothesis Hi : D !! i = Some ps.
Hypothesis Hc : D !! c = Some qs.
Hypothesis He : e.1 ∈ ps.
Hypothesis Hx : dirent_lookup pm e = Some x.
Hypothesis Hb : binding x = Some (k, c).
Hypothesis Hk : ¬ dots k.
Hypothesis Hsize : Z.of_nat (size (ns_ents N)) < UINT64_MAX.

(** The writes, for an empty directory. *)
Lemma txop_unlink_dir_writes (P : unit → ppool → Prop) E :
  (∀ k', ¬ dots k' → N @ (c, k') = None) → P tt (dir_removed i e c tm pm) →
  txop (tx_clear_dirent (InInode c, 0%nat);; tx_clear_dirent (InInode c, 1%nat);;
    j ← inode_get c; assert_ (inode_get_nlink j =? 2);;
    tx_add (λ _, inode_upd c (undo_nlink j));; pm_modify (inode_upd c set_nlink0);;
    tx_clear_dirent e;; tx_dec_nlink i;; tx_set_inode_ctime tm i;; tx_set_inode_mtime tm i) s pm P E.
Proof using All.
  intros Hempty HP. destruct (ud_dot roots pm D N i c k ps qs e x) as (y & Hy & _ & Hyok); [done..|].
  destruct (ud_lookup1 roots pm D N i c k ps qs e x) as (z & Hz & _ & Hzok); [done..|].
  destruct (ds_dir _ _ _ (proj1 Hfs) c qs Hc) as (m & Hm & _). destruct (dir_has_inode _ _ _ _ Hm) as [xc Hxc].
  destruct (ds_dir _ _ _ (proj1 Hfs) i ps Hi) as (m' & Hm' & _). pose proof (dir_has_inode _ _ _ _ Hm') as Hxi.
  eapply txop_tx_clear_seq; [done..|]. eapply txop_tx_clear_seq; [done..|].
  eapply (txop_pure_seq _ _ xc); [eapply txop_inode_get; [by rewrite !inode_lookup_dirent_upd|done]|].
  eapply (txop_pure_seq _ _ tt); [apply txop_assert; [|done]; by rewrite (ud_nlink roots pm D N i c k ps qs e x)|].
  apply txop_upd_seq; [apply (inode_upd_undo _ _ xc); [by rewrite !inode_lookup_dirent_upd|apply undo_nlink_set]|].
  eapply txop_tx_clear_seq; [by eapply (ud_lookup2 roots pm D N i c k ps qs e x)|by eapply (ud_entry_ok pm D N i ps e x)|].
  apply txop_inode_seq; [by auto 6 with pooltx|intros; apply undo_nlink_set|].
  apply txop_inode_seq; [by auto 7 with pooltx|intros; apply undo_ctime_set|].
  apply txop_inode_last; [by auto 8 with pooltx|intros; apply undo_mtime_set|]. exact HP.
Qed.

Lemma binding_name (y : dirent) k' o : binding y = Some (k', o) → until_nul (de_name y) = k' ∧ de_inode y = Some o.
Proof. unfold binding. by intros (o' & -> & [= -> ->])%fmap_Some. Qed.

(** The directory is removed, or there are entries in it. *)
Lemma txop_unlink_dir (P : unit → ppool → Prop) (E : Z → Prop) :
  ((∃ k', ¬ dots k' ∧ is_Some (N @ (c, k'))) → E ENOTEMPTY) →
  (∀ pm', (∀ k', ¬ dots k' → N @ (c, k') = None) → fs_rep pm' D (ns_rmdir i k c N) → names_upd pm pm' (rmdir_links i c) → P tt pm') →
  txop (vinode_unlink_dir vp e vd tm) s pm P E.
Proof using All.
  intros HE HP. unfold vinode_unlink_dir.
  destruct (ud_dot roots pm D N i c k ps qs e x) as (y & Hy & [Hyn Hyi]%binding_name & _); [done..|].
  destruct (ud_dotdot roots pm D N i c k ps qs e x) as (z & Hz & [Hzn Hzi]%binding_name & _); [done..|].
  pose proof (ud_live roots pm D N i c k ps qs e x) as Hlive. destruct (ud_parent roots pm D N i c k ps qs e x) as (_ & Hup & _); [done..|].
  destruct (ds_dir _ _ _ (proj1 Hfs) c qs Hc) as (m & Hm & _). pose proof (dir_first_part _ _ _ _ Hm) as Hin.
  destruct (chain_lookup _ _ _ _ (dr_chain _ _ _ _ Hm) Hin) as [w Hw]. pose proof (dr_parts _ _ _ _ Hm _ _ Hin Hw) as Hwok.
  eapply (txop_pure_seq _ _ p); [by eapply txop_vnode_get|]. eapply (txop_pure_seq _ _ d); [by eapply txop_vnode_get|]. rewrite Hpi, Hdc.
  eapply (txop_pure_seq _ _ tt); [by apply txop_in_tx|]. eapply (txop_pure_seq _ _ w); [by eapply txop_dir_get|].
  eapply (txop_pure_seq _ _ y); [by eapply txop_dirent_get|]. eapply (txop_pure_seq _ _ z); [by eapply txop_dirent_get|].
  eapply (txop_pure_seq _ _ tt); [apply txop_assert; [|done]; unfold str_equal; by rewrite Hyn|].
  eapply (txop_pure_seq _ _ tt); [apply txop_assert; [by rewrite Hyi, bool_decide_eq_true_2|done]|].
  eapply (txop_pure_seq _ _ tt); [apply txop_assert; [|done]; unfold str_equal; by rewrite Hzn|].
  eapply (txop_pure_seq _ _ tt); [apply txop_assert; [by rewrite Hzi, bool_decide_eq_true_2|done]|].
  assert (∀ (e' : deptr) u, e'.1 ∈ qs → dirent_lookup pm e' = Some u → unused u = false → e' ≠ (InInode c, 0%nat) → e' ≠ (InInode c, 1%nat) → E ENOTEMPTY) as Hfull.
  { intros e' u ? ? ? ? ?. apply HE. eapply (used_entry pm D N c qs e' u); [apply Hfs|done|eexists; by apply Hlive|by eexists|done..]. }
  rewrite (free_from_spec 2 w Hwok). destruct (forallb unused (drop 2 (d_dirents w))) eqn:H2.
  2: { apply forallb_false in H2 as (u & [n Hn]%list_elem_of_lookup & Hu). rewrite lookup_drop in Hn.
       eapply txop_bind; [apply (txop_abort _ _ _ (λ _ _, False)), (Hfull (InInode c, 2 + n)%nat u)|done]; try done; [|intros [= ?]; lia..].
       unfold dirent_lookup. cbn [fst snd]. by rewrite Hw. }
  eapply (txop_pure_seq _ _ tt); [by apply txop_ret|]. eapply (txop_pure_seq _ _ (S (size (pp_dirs pm)))); [by apply txop_dir_fuel|].
  destruct (chain_tail _ _ _ (dr_chain _ _ _ _ Hm)) as [os Hqs].
  eapply (txop_pure_seq _ _ (forallb unused (all_dirents pm (DirObj <$> os)))).
  { pose proof (chain_length _ _ _ (dr_chain _ _ _ _ Hm) (dr_nodup _ _ _ _ Hm)) as Hlen. rewrite Hqs in Hlen. cbn in Hlen.
    pose proof (dr_chain _ _ _ _ Hm) as Hch. rewrite Hqs in Hch. inversion Hch as [? ? Hw' Hnx|? w' o os' Hw' Hnx Hrest]; subst.
    - rewrite Hw in Hw'. injection Hw' as <-. rewrite Hnx. cbn. destruct os; [|done]. by apply txop_ret.
    - rewrite Hw in Hw'. injection Hw' as <-. rewrite Hnx. cbn [fmap option_fmap option_map]. apply txop_parts_free; [done| |lia].
      intros d' x' Hd'. apply (dr_parts _ _ _ _ Hm). by right. }
  destruct (forallb unused (all_dirents pm (DirObj <$> os))) eqn:Ho.
  2: { apply forallb_false in Ho as (u & (e' & He' & Hu')%in_all_dirents & Hu). eapply txop_bind; [apply (txop_abort _ _ _ (λ _ _, False)), (Hfull e' u)|done]; try done.
       - rewrite Hqs. by right.
       - intros ->. by apply list_elem_of_fmap in He' as (? & [=] & _).
       - intros ->. by apply list_elem_of_fmap in He' as (? & [=] & _). }
  eapply (txop_pure_seq _ _ tt); [by apply txop_ret|]. apply forallb_Forall in H2, Ho.
  assert (∀ k', ¬ dots k' → N @ (c, k') = None) as Hempty.
  { eapply (unused_empty pm D N c); [apply Hfs|by rewrite Hc, Hqs|done|eexists; by apply Hlive|by eexists|done..]. }
  apply txop_unlink_dir_writes; [done|]. apply HP; [done|by eapply fs_rep_dir_removed|by eapply names_upd_dir_removed].
Qed.
End unlink_dir_tx.

(** ** New inodes and directories *)

Definition put_inode (o : oid) (x : minode) (pm : ppool) : ppool := set_pp_inodes (<[o := x]> (pp_inodes pm)) pm.

Section new_inode.
Context `{!PoolAlloc} `{!PoolAllocOk}.
Variables (cfg : block_cfg) (clock : nat → pmemfile_time).

Lemma txop_inode_alloc s pm cred flags (P : oid → ppool → Prop) (E : Z → Prop) :
  E ENOMEM → (∀ o t, pp_inodes pm !! o = None → P o (put_inode o (new_inode cfg cred flags t) pm)) →
  txop (inode_alloc cfg clock cred flags) s pm P E.
Proof.
  intros HE HP. unfold inode_alloc. eapply (txop_pure_seq _ _ tt); [by apply txop_in_tx|].
  intros n t locks. apply wp_bind, wp_tx_xalloc; [exists n, [], pm; by rewrite tx_more_nil|]. intros o Ho.
  destruct (pool_palloc_fresh _ _ _ Ho) as (Hno & _). apply wp_bind. unfold current_time. apply wp_bind, wp_gets, wp_bind, wp_modify, wp_ret.
  apply wp_bind, wp_modify, wp_ret.
  exists (S n), [λ p, set_pp_inodes (delete o (pp_inodes p)) p], (put_inode o (new_inode cfg cred flags (clock n)) pm). split_and!.
  - unfold tx_at, tx_state, put_inode, set_pp_inodes. cbn. by rewrite insert_insert_eq.
  - unfold put_inode, set_pp_inodes. cbn. rewrite delete_insert_id by done. by destruct pm.
  - by apply HP.
Qed.

End new_inode.

Section new_dir.
Implicit Types (pm : ppool) (D : gmap oid (list dirp)) (N : ns).

Lemma inode_lookup_with o x pm j : inode_lookup (put_inode o x pm) j = if decide (j = o) then Some (mi_inode x) else inode_lookup pm j.
Proof.
  unfold inode_lookup, put_inode. cbn. case_decide; [subst; by rewrite lookup_insert_eq|by rewrite lookup_insert_ne].
Qed.

Lemma dir_lookup_with o x pm d : d ≠ InInode o → dir_lookup (put_inode o x pm) d = dir_lookup pm d.
Proof. destruct d as [j|]; [|done]. intros Hne. cbn. rewrite lookup_insert_ne; [done|]. congruence. Qed.

Lemma not_a_dir pm D N o : fs_rep pm D N → pp_inodes pm !! o = None → o ∉ ns_dirs N ∧ (∀ x, N @ x ≠ Some o) ∧ links N o = 0%nat.
Proof.
  intros [Hd Hi] Ho. assert (∀ x, N @ x ≠ Some o) as Hno.
  { intros x Hx. destruct (is_ref _ _ Hi _ _ Hx) as [y Hy]. unfold inode_lookup in Hy. by rewrite Ho in Hy. }
  split_and!; [|done|].
  - intros [ps Hps]%(ds_dom _ _ _ Hd). destruct (ds_dir _ _ _ Hd _ _ Hps) as (m & Hm & _). destruct (dir_has_inode _ _ _ _ Hm) as [y Hy].
    unfold inode_lookup in Hy. by rewrite Ho in Hy.
  - unfold links. rewrite map_empty_filter_2; [by apply map_size_empty|]. intros x j Hx. cbn. intros ->. by apply (Hno x).
Qed.

Lemma dirs_rep_with pm D N o x :
  fs_rep pm D N → pp_inodes pm !! o = None → dirs_rep (put_inode o x pm) D N.
Proof.
  intros Hfs Ho. destruct (not_a_dir _ _ _ _ Hfs Ho) as (Hno & _). destruct Hfs as [Hd _].
  assert (∀ i ps, D !! i = Some ps → ∀ d, d ∈ ps → dir_lookup (put_inode o x pm) d = dir_lookup pm d) as Hsame.
  { intros i ps Hi d Hd'. apply dir_lookup_with. intros ->. destruct (ds_dir _ _ _ Hd i ps Hi) as (m & Hm & _).
    destruct (chain_lookup _ _ _ _ (dr_chain _ _ _ _ Hm) Hd') as [y Hy]. cbn in Hy. by rewrite Ho in Hy. }
  destruct Hd as [H1 H2 H3 H4 H5]. split; try done.
  - intros i ps Hi. destruct (H3 i ps Hi) as (m & Hm & Hk). exists m. split; [|done]. eapply dir_rep_frame; [done|]. by eapply Hsame.
  - intros i k j Hk Hs. destruct (H5 i k j Hk Hs) as (y & c & Hy & Hb). exists y, c. split; [|done]. unfold dirent_lookup in *.
    rewrite dir_lookup_with; [done|]. intros [= ->]. cbn in Hy. by rewrite Ho in Hy.
Qed.

Lemma inodes_rep_with pm D N o x N' :
  fs_rep pm D N → pp_inodes pm !! o = None → ns_ents N' = ns_ents N → (∀ j, j ≠ o → j ∈ ns_dirs N' ↔ j ∈ ns_dirs N) →
  inode_is_dir (mi_inode x) = bool_decide (o ∈ ns_dirs N') → inode_get_nlink (mi_inode x) = 0 → inodes_rep (put_inode o x pm) N'.
Proof.
  intros Hfs Ho He Hd Hx Hn. destruct (not_a_dir _ _ _ _ Hfs Ho) as (_ & _ & Hl). destruct Hfs as [_ [H1 H2 H3]].
  assert (∀ j, links N' j = links N j) as Hlinks by (intros j; unfold links; by rewrite He). split.
  - intros j y. rewrite inode_lookup_with. destruct (decide (j = o)) as [->|Hj]; [intros ?; by simplify_eq|]. intros Hy. rewrite (H1 _ _ Hy). apply bool_decide_ext. symmetry. by apply Hd.
  - intros j y. rewrite inode_lookup_with, Hlinks. destruct (decide (j = o)) as [->|Hj]; [intros [= <-]; by rewrite Hn, Hl|]. by apply H2.
  - intros y j. rewrite He, inode_lookup_with. intros Hy. destruct (decide (j = o)); [by eexists|]. by eapply H3.
Qed.

(** A new file. *)
Lemma fs_rep_new_file cfg pm D N o cred flags t :
  fs_rep pm D N → pp_inodes pm !! o = None → Z.land flags PMEMFILE_S_IFMT ≠ PMEMFILE_S_IFDIR →
  fs_rep (put_inode o (new_inode cfg cred flags t) pm) D N.
Proof.
  intros Hfs Ho Hf. split; [by apply dirs_rep_with|]. destruct (not_a_dir _ _ _ _ Hfs Ho) as (Hno & _).
  eapply inodes_rep_with; [done|done|done|done| |done]. cbn. unfold inode_is_dir, inode_get_flags. cbn. rewrite bool_decide_eq_false_2 by done. by apply Z.eqb_neq.
Qed.

(** A new directory has no entries. *)
Definition ns_new (o : oid) (N : ns) : ns := Ns ({[o]} ∪ ns_dirs N) (ns_ents N).

Definition new_dir : dir :=
  let n := Z.to_nat ((PMEMFILE_IN_INODE_STORAGE - SIZEOF_DIR) / SIZEOF_DIRENT) in Dir (PMEMFILE_DIR_VERSION 1) n None (replicate n zero_dirent).

Lemma new_dir_ok : part_ok new_dir ∧ bindings (d_dirents new_dir) = [].
Proof.
  unfold new_dir. replace (Z.to_nat _) with 2%nat by reflexivity. split; [|apply bindings_zero]. split_and!; cbn [d_num_elements d_dirents].
  - by rewrite length_replicate.
  - done.
  - apply Forall_replicate. split; [|done]. cbn [zero_dirent de_name]. by rewrite length_replicate.
Qed.

Lemma fs_rep_new_dir pm D N o x :
  fs_rep pm D N → pp_inodes pm !! o = None → mi_data x = DataDir new_dir → inode_is_dir (mi_inode x) = true → inode_get_nlink (mi_inode x) = 0 →
  fs_rep (put_inode o x pm) (<[o := [InInode o]]> D) (ns_new o N).
Proof.
  intros Hfs Ho Hx Hdir Hn. destruct (not_a_dir _ _ _ _ Hfs Ho) as (Hno & _). pose proof (dirs_rep_with pm D N o x Hfs Ho) as Hd.
  assert (dir_lookup (put_inode o x pm) (InInode o) = Some new_dir) as Hl.
  { cbn. rewrite lookup_insert_eq. destruct x as [? []]; cbn in Hx; congruence. }
  assert (part_dirents (put_inode o x pm) (InInode o) = d_dirents new_dir) as Hp by (unfold part_dirents; by rewrite Hl).
  assert (∀ k, N @ (o, k) = None) as Hnone.
  { intros k. destruct (N @ (o, k)) eqn:Hk; [|done]. by apply (ds_only _ _ _ Hd) in Hk. }
  assert (∀ i ps, D !! i = Some ps → InInode o ∉ ps) as Hfresh.
  { intros i ps Hi Hin. destruct (ds_dir _ _ _ (proj1 Hfs) i ps Hi) as (m & Hm & _).
    destruct (chain_lookup _ _ _ _ (dr_chain _ _ _ _ Hm) Hin) as [y Hy]. cbn in Hy. by rewrite Ho in Hy. }
  split.
  - destruct Hd as [H1 H2 H3 H4 H5]. split.
    + intros i. cbn. rewrite elem_of_union, elem_of_singleton, <-H1, lookup_insert_is_Some. destruct (decide (o = i)); naive_solver.
    + intros i k j Hk. cbn. apply elem_of_union. right. by eapply H2.
    + intros i ps. rewrite lookup_insert_Some. intros [[<- <-]|[Hne Hi]]; [|by apply H3]. exists ∅. split; [|intros k; by rewrite lookup_empty; cbn; rewrite Hnone].
      split; [by eapply chain_last|apply NoDup_singleton|..]; unfold all_dirents; cbn; rewrite ?Hp, ?app_nil_r, ?(proj2 new_dir_ok); try done; [|constructor].
      intros d y ->%list_elem_of_singleton. rewrite Hl. intros [= <-]. apply new_dir_ok.
    + intros i j ps qs. rewrite !lookup_insert_Some. intros [[? ?]|[Hne1 Hi]] [[? ?]|[Hne2 Hj]] Hij; subst; try done.
      * intros d ->%list_elem_of_singleton. by eapply Hfresh.
      * intros d Hd' ->%list_elem_of_singleton. by eapply Hfresh.
      * by eapply (H4 i j).
    + done.
  - eapply inodes_rep_with; [done|done|done|..|done].
    + intros j Hj. cbn. set_solver.
    + rewrite Hdir. symmetry. apply bool_decide_eq_true. cbn. set_solver.
Qed.
End new_dir.

Section mkdir.
Context `{!PoolAlloc} `{!PoolAllocOk}.
Variables (cfg : block_cfg) (clock : nat → pmemfile_time).
Hypothesis Hcfg : bi_size (metadata_block_info cfg) = METADATA_BLOCK_SIZE.
Implicit Types (s : pool) (pm : ppool) (D : gmap oid (list dirp)) (N : ns).

Lemma dir_flags mode umask :
  Z.ldiff mode PMEMFILE_ACCESSPERMS = 0 → Z.land (Z.lor PMEMFILE_S_IFDIR (Z.ldiff mode umask)) PMEMFILE_S_IFMT = PMEMFILE_S_IFDIR.
Proof.
  intros Hm. rewrite Z.land_lor_distr_l. replace (Z.land (Z.ldiff mode umask) PMEMFILE_S_IFMT) with 0; [done|].
  rewrite <-(Z.lor_ldiff_and mode PMEMFILE_ACCESSPERMS), Hm, Z.lor_0_l. apply Z.bits_inj'. intros n Hn.
  rewrite Z.bits_0, Z.land_spec, Z.ldiff_spec, Z.land_spec.
  assert (Z.testbit PMEMFILE_ACCESSPERMS n && Z.testbit PMEMFILE_S_IFMT n = false) as Hb.
  { rewrite <-Z.land_spec. replace (Z.land _ _) with 0 by reflexivity. apply Z.bits_0. }
  destruct (Z.testbit mode n), (Z.testbit PMEMFILE_ACCESSPERMS n), (Z.testbit umask n), (Z.testbit PMEMFILE_S_IFMT n); done.
Qed.

(** The new inode with its entry ".". *)
Lemma txop_new_dir_dot {A} s pm D N cred flags (k : oid → pmemfile_time → M pool A) (P : A → ppool → Prop) (E : Z → Prop) :
  fs_rep pm D N → Z.of_nat (size (ns_ents N)) + 3 < UINT64_MAX → Z.land flags PMEMFILE_S_IFMT = PMEMFILE_S_IFDIR → E ENOMEM →
  (∀ o t pm' ps, pp_inodes pm !! o = None → fs_rep pm' (<[o := ps]> D) (ns_link o dot o (ns_new o N)) → dots_placed pm' o dotdot →
     (∀ j, is_Some (inode_lookup pm j) → is_Some (inode_lookup pm' j)) → is_Some (inode_lookup pm' o) →
     txop (k o t) s pm' P E) →
  txop (o ← inode_alloc cfg clock cred flags; x ← inode_get o; inode_add_dirent cfg o (cstr ".") 1 o (inode_get_ctime x);; k o (inode_get_ctime x)) s pm P E.
Proof.
  intros Hfs Hsize Hflags HE HP. eapply (txop_bind _ _ _ _ (λ o q, pp_inodes pm !! o = None ∧ ∃ t, q = put_inode o (new_inode cfg cred flags t) pm)).
  { apply txop_inode_alloc; [done|]. eauto. }
  intros o ? (Ho & t & ->). set (x := new_inode cfg cred flags t). destruct (not_a_dir _ _ _ _ Hfs Ho) as (Hno & Hnone & Hl).
  assert (mi_data x = DataDir new_dir) as Hdata by (unfold x; cbn; unfold new_file_data; by rewrite Hflags).
  assert (fs_rep (put_inode o x pm) (<[o := [InInode o]]> D) (ns_new o N)) as Hfs1.
  { apply fs_rep_new_dir; [done..| |done]. unfold x, inode_is_dir, inode_get_flags. cbn. by rewrite Hflags. }
  assert (dir_lookup (put_inode o x pm) (InInode o) = Some new_dir) as Hdl.
  { cbn. rewrite lookup_insert_eq. destruct x as [? d]. cbn in Hdata. by subst d. }
  eapply (txop_pure_seq _ _ (mi_inode x)); [eapply txop_inode_get; [by rewrite inode_lookup_with, decide_True|done]|].
  eapply (txop_bind _ _ _ _ (λ _ q, txop (k o (inode_get_ctime (mi_inode x))) s q P E)); [|by intros].
  eapply (txop_add_entry cfg Hcfg s _ _ _ o [InInode o] (cstr ".") 1 dot o); [done|by rewrite lookup_insert_eq|..].
  - by split_and!; [done|cbn; lia|set_solver|].
  - set_solver.
  - rewrite inode_lookup_with, decide_True by done. by eexists.
  - cbn. lia.
  - intros j [= <-]. exists new_dir. done.
  - intros e [->|[[_ [c Hc]]|[[_ Hlen]|(_ & _ & Hd)]]]; [done|exfalso|exfalso|done].
    + cbn in Hc. apply (ds_only _ _ _ (proj1 Hfs)) in Hc. done.
    + cbn in Hlen. unfold PMEMFILE_MAX_FILE_NAME in Hlen. lia.
  - intros pm' ps' _ Hfs2 Hu Hfirst _ _. rewrite insert_insert_eq in Hfs2. apply (HP o _ _ ps'); [done|done|..].
    + intros j [= <-]. destruct (Hfirst new_dir 0%nat Hdl eq_refl) as (y & Hy & Hnum & Hdir). exists y. split; [done|].
      unfold used_dirents. rewrite Hnum, Hdir. reflexivity.
    + intros j Hj. eapply names_upd_is_Some; [done|]. rewrite inode_lookup_with. case_decide; [by eexists|done].
    + eapply names_upd_is_Some; [done|]. rewrite inode_lookup_with, decide_True by done. by eexists.
Qed.

(** What [vinode_new_dir] may abort with. *)
Definition mkdir_error (N : ns) (i : oid) (k : cstring) (mode e : Z) : Prop :=
  e = ENOMEM ∨ (e = EEXIST ∧ is_Some (N @ (i, k))) ∨ (e = ENAMETOOLONG ∧ (PMEMFILE_MAX_FILE_NAME < length k)%nat) ∨
  (e = EINVAL ∧ Z.ldiff mode PMEMFILE_ACCESSPERMS ≠ 0).

(** The entry ".." of the new directory and its entry in the parent. *)
Lemma txop_new_dir_links s pm D N i ps qs o t name n k (P : unit → ppool → Prop) (E : Z → Prop) :
  fs_rep pm (<[o := qs]> D) (ns_link o dot o (ns_new o N)) → D !! i = Some ps → i ≠ o → (∀ k', N @ (o, k') = None) →
  dots_placed pm o dotdot → is_Some (inode_lookup pm i) → is_Some (inode_lookup pm o) →
  name_arg name n k → SLASH ∉ k → ¬ dots k → Z.of_nat (size (ns_ents N)) + 3 < UINT64_MAX → E ENOMEM →
  (is_Some (N @ (i, k)) → E EEXIST) → ((PMEMFILE_MAX_FILE_NAME < length k)%nat → E ENAMETOOLONG) →
  (∀ pm' D', N @ (i, k) = None → fs_rep pm' D' (ns_mkdir i k o N) → P tt pm') →
  txop (inode_add_dirent cfg o (cstr "..") 2 i t;; inode_add_dirent cfg i name n o t) s pm P E.
Proof.
  intros Hfs1 Hi Hio Hoent Hplaced Hin Ho1 Hk Hs Hdots Hsize Hnomem Hexist Hlong HP.
  assert (size (ns_ents (ns_link o dot o (ns_new o N))) = S (size (ns_ents N))) as Hsz1.
  { cbn. by rewrite map_size_insert_None by apply Hoent. }
  assert (ns_link o dot o (ns_new o N) @ (o, dotdot) = None) as Hdd.
  { unfold ns_link. cbn [ns_ents]. rewrite lookup_insert_ne; [apply Hoent|]. pose proof dot_dotdot. congruence. }
  eapply (txop_bind _ _ _ _ (λ _ q', (∃ qs', fs_rep q' (<[o := qs']> D) (ns_link o dotdot i (ns_link o dot o (ns_new o N)))) ∧ is_Some (inode_lookup q' o))).
  - eapply (txop_add_entry cfg Hcfg s _ _ _ o qs (cstr "..") 2 dotdot i); [done|by rewrite lookup_insert_eq|..].
    + by split_and!; [done|cbn; lia|set_solver|].
    + set_solver.
    + done.
    + lia.
    + done.
    + intros e [->|[[_ Hc]|[[_ Hlen]|(_ & Hl0 & _)]]]; [done|exfalso..].
      * rewrite Hdd in Hc. by destruct Hc.
      * cbn in Hlen. unfold PMEMFILE_MAX_FILE_NAME in Hlen. lia.
      * apply (links_zero _ _ (o, dot) Hl0), lookup_insert_eq.
    + intros q' qs' _ Hfs2 Hu _ _ _. rewrite insert_insert_eq in Hfs2. split; [by exists qs'|by eapply names_upd_is_Some].
  - intros _ q' [[qs' Hfs2] Ho2]. set (N2 := ns_link o dotdot i (ns_link o dot o (ns_new o N))) in *.
    assert (N2 @ (i, k) = N @ (i, k)) as HN2 by (unfold N2, ns_link, ns_new; cbn [ns_ents]; by rewrite !lookup_insert_ne by congruence).
    assert (size (ns_ents N2) = S (S (size (ns_ents N)))) as Hsz2.
    { unfold N2 at 1. unfold ns_link at 1. cbn [ns_ents]. rewrite map_size_insert_None by exact Hdd. by rewrite Hsz1. }
    eapply (txop_add_entry cfg Hcfg s _ _ _ i ps name n k o); [done|by rewrite lookup_insert_ne|done..|lia| | |].
    + intros j Hj. by rewrite dots_index_none in Hj.
    + intros e [->|[[-> Hc]|[[-> Hlen]|(_ & Hl0 & _)]]]; [done| |by apply Hlong|].
      * apply Hexist. by rewrite HN2 in Hc.
      * exfalso. apply (links_zero _ _ (o, dotdot) Hl0), lookup_insert_eq.
    + intros q3 ps' Hk0 Hfs3 _ _ _ _. rewrite HN2 in Hk0. by eapply HP.
Qed.

Lemma txop_new_dir s pm D N vp (p : vnode) i ps name n k cred mode (P : oid → ppool → Prop) (E : Z → Prop) :
  fs_rep pm D N → po_vnodes s !! vp = Some p → vn_tinode p = i → D !! i = Some ps → name_arg name n k → SLASH ∉ k → ¬ dots k →
  Z.of_nat (size (ns_ents N)) + 3 < UINT64_MAX → (∀ e, mkdir_error N i k mode e → E e) →
  (∀ o pm' D', pp_inodes pm !! o = None → N @ (i, k) = None → fs_rep pm' D' (ns_mkdir i k o N) → P o pm') →
  txop (vinode_new_dir cfg clock (Some vp) name n cred mode) s pm P E.
Proof.
  intros Hfs Hvp Hpi Hi Hk Hs Hdots Hsize HE HP. unfold vinode_new_dir. eapply (txop_pure_seq _ _ tt); [by apply txop_in_tx|].
  destruct (Z.eqb_spec (Z.ldiff mode PMEMFILE_ACCESSPERMS) 0) as [Hmode|Hmode]; cbn [negb].
  2: { eapply txop_bind; [apply (txop_abort _ _ _ (λ _ _, False)), HE; unfold mkdir_error; naive_solver|done]. }
  eapply (txop_pure_seq _ _ tt); [by apply txop_ret|]. eapply (txop_pure_seq _ _ (po_umask s)); [by apply (txop_gets _ (po_umask s))|].
  destruct (ds_dir _ _ _ (proj1 Hfs) i ps Hi) as (m & Hm & _). pose proof (dir_has_inode _ _ _ _ Hm) as Hxi.
  assert (E ENOMEM) as Hnomem by (apply HE; by left).
  eapply (txop_new_dir_dot s pm D N cred _ (λ o t, (p ← vnode_get vp; inode_add_dirent cfg o (cstr "..") 2 (vn_tinode p) t;;
    inode_add_dirent cfg (vn_tinode p) name n o t);; mret o) P E Hfs Hsize (dir_flags _ _ Hmode) Hnomem).
  intros o t q qs Ho Hfs1 Hplaced Hin Ho1. destruct (not_a_dir _ _ _ _ Hfs Ho) as (Hno & Hnone & Hl).
  eapply (txop_bind _ _ _ _ (λ _ q', N @ (i, k) = None ∧ ∃ D', fs_rep q' D' (ns_mkdir i k o N))).
  2: { intros _ q' (Hk0 & D' & Hfs'). apply txop_ret. by apply (HP o q' D'). }
  eapply (txop_pure_seq _ _ p); [by eapply txop_vnode_get|]. rewrite Hpi. eapply txop_new_dir_links; [done|done| | |done|by apply Hin|done|done|done|done|done|done| | |by eauto].
  - intros ->. apply Hno, (ds_dom _ _ _ (proj1 Hfs)). by eexists.
  - intros k'. destruct (N @ (o, k')) eqn:Hk'; [|done]. by apply (ds_only _ _ _ (proj1 Hfs)) in Hk'.
  - intros Hex. apply HE. right. by left.
  - intros Hlong. apply HE. right. right. by left.
Qed.
End mkdir.

(** ** Renaming *)

Section rename_same.
Implicit Types (p : ppool) (D : gmap oid (list dirp)) (N : ns).

(** The entry [e] of the directory [i] with its new name. *)
Definition entry_renamed (i : oid) (e : deptr) (name : cstring) (n : nat) (c : oid) (tm : pmemfile_time) (p : ppool) : ppool :=
  inode_upd c (inode_tx_set_ctime tm) (inode_upd i (inode_tx_set_mtime tm)
    (dirent_upd e (λ y, set_de_name (write_name name n (de_name y)) y) p)).

Lemma fs_rep_entry_renamed p D N i ps e x k c name n k' tm :
  fs_rep p D N → D !! i = Some ps → e.1 ∈ ps → dirent_lookup p e = Some x → binding x = Some (k, c) → ¬ dots k' →
  name_arg name n k' → SLASH ∉ k' → (n ≤ PMEMFILE_MAX_FILE_NAME)%nat → N @ (i, k') = None →
  fs_rep (entry_renamed i e name n c tm p) D (ns_upd i (Some (k, c)) (Some (k', c)) N).
Proof.
  intros [Hd Hi] HDi He Hx Hb Hdots Hk' Hs Hn Hnone. destruct (ds_dir _ _ _ Hd i ps HDi) as (m & Hm & _).
  pose proof (all_dirents_ok _ _ _ _ _ Hm (dirent_in_all _ _ _ _ He Hx)) as Hok. destruct (binding_name _ _ _ Hb) as [Hxn Hxi].
  destruct (write_name_spec name n k' (de_name x) Hk' Hn (proj1 Hok)) as (Hu & Hl & _). pose proof (name_arg_length _ _ _ Hk') as Hlen.
  pose proof (entry_bound _ _ _ _ _ _ _ _ _ Hd HDi He Hx Hb) as Hk. set (f := λ y, set_de_name (write_name name n (de_name y)) y).
  assert (binding (f x) = Some (k', c)) as Hfb by (unfold binding, f; cbn; by rewrite Hxi, Hu).
  assert (ns_forget i (Some (k, c)) (ns_ents N) !! (i, k') = None) as Hfree.
  { cbn [ns_forget fst]. rewrite lookup_delete_None. by right. }
  split.
  - unfold entry_renamed. do 2 apply dirs_rep_inode_upd. pose proof (dirs_rep_entry p D N i ps e f x Hd HDi He Hx) as Hent.
    rewrite Hb, Hfb in Hent. apply Hent.
    + split; [by unfold f; cbn|]. unfold f. cbn. rewrite Hxi, Hu. destruct Hk' as (_ & _ & Hnul & Hne). split_and!; [done|by rewrite Hlen|done|done].
    + by intros b [= <-].
    + intros b j [= <-] Hj. by rewrite dots_index_none in Hj.
  - eapply (inodes_rep_upd p); [done| |done|..].
    + unfold entry_renamed. do 2 (apply names_upd_after; [|intros y; apply same_meta_set|done]). apply names_upd_dir.
    + intros j. etrans; [apply (links_upd i (Some (k, c)) (Some (k', c)) N j); by intros b [= <-]|]. unfold no_links. cbn. lia.
    + intros y j. unfold ns_upd. cbn [ns_ents ns_learn ns_forget fst snd]. rewrite lookup_insert_Some.
      intros [[_ <-]|[_ [_ Hy]%lookup_delete_Some]]; by eapply Hi.
Qed.
End rename_same.

(** Moving an entry within a directory. *)
Lemma ns_move_same roots N i k k' c :
  ns_wf roots N → N @ (i, k) = Some c → ¬ dots k → ¬ dots k' → ns_move i k i k' c N = ns_upd i (Some (k, c)) (Some (k', c)) N.
Proof.
  intros HN Hk Hd [Hd1 Hd2]%not_dots_dot. apply not_dots_dot in Hd as Hd'. unfold ns_move, ns_upd. f_equal. cbn [ns_learn ns_forget fst snd].
  case_decide as Hc; [|done]. apply insert_id. destruct (nw_down _ _ HN i k c Hk Hd Hc) as [_ Hup].
  rewrite lookup_insert_ne, lookup_delete_ne by (destruct Hd'; congruence). done.
Qed.

(** Moving an entry, one step at a time. *)
Lemma ns_move_other N i k i' k' c :
  N @ (i', k') = None → N @ (i, k) = Some c →
  ns_move i k i' k' c N =
    if decide (c ∈ ns_dirs N) then Ns (ns_dirs N) (<[(c, dotdot) := i']> (ns_ents (ns_unlink i k (ns_link i' k' c N))))
    else ns_unlink i k (ns_link i' k' c N).
Proof.
  intros Hn Hk. assert ((i, k) ≠ (i', k')) as Hne by congruence. unfold ns_move, ns_unlink, ns_link. cbn [ns_dirs ns_ents].
  rewrite delete_insert_ne by done. by case_decide.
Qed.

(** ** The entry ".." of a directory that moves *)

Section update_parent.
Implicit Types (p : ppool) (D : gmap oid (list dirp)) (N : ns).

(** The objects after [vinode_update_parent]. *)
Definition parent_updated (c i i' : oid) (p : ppool) : ppool :=
  dirent_upd (InInode c, 1%nat) (set_de_inode (Some i')) (inode_upd i' inode_tx_inc_nlink (inode_upd i inode_tx_dec_nlink p)).

Lemma names_upd_parent_updated p c i i' :
  i ≠ i' → (∀ x, inode_lookup p i = Some x → 0 < inode_get_nlink x ≤ UINT64_MAX) →
  (∀ x, inode_lookup p i' = Some x → 0 ≤ inode_get_nlink x < UINT64_MAX) →
  names_upd p (parent_updated c i i' p) (λ j, one_link i' j - one_link i j).
Proof.
  intros Hne Hi Hi'. unfold parent_updated. eapply names_upd_ext; [eapply names_upd_trans; [|apply names_upd_dir]|].
  - eapply names_upd_trans; [apply (names_upd_inode p i inode_tx_dec_nlink (lost_link i))|apply (names_upd_inode _ i' inode_tx_inc_nlink (one_link i'))];
      try (intros x; apply same_meta_set); try (intros j Hj; unfold lost_link, one_link; by rewrite decide_False).
    + intros x Hx. unfold lost_link, one_link. rewrite decide_True, dec_nlink_spec by auto. lia.
    + intros x. rewrite inode_lookup_inode_upd_ne by done. intros Hx. unfold one_link. rewrite decide_True, inc_nlink_spec by auto. lia.
  - intros j. unfold no_links, lost_link. lia.
Qed.

Lemma fs_rep_parent_updated p D N c qs i i' :
  fs_rep p D N → D !! c = Some qs → N @ (c, dotdot) = Some i → i ≠ i' → is_Some (inode_lookup p i') →
  Z.of_nat (size (ns_ents N)) < UINT64_MAX →
  fs_rep (parent_updated c i i' p) D (Ns (ns_dirs N) (<[(c, dotdot) := i']> (ns_ents N))).
Proof.
  intros [Hd Hi] Hc Hup Hne Hi' Hsize. destruct (ds_dir _ _ _ Hd c qs Hc) as (m & Hm & _). pose proof (dir_first_part _ _ _ _ Hm) as Hin.
  destruct (ds_dots _ _ _ Hd c dotdot 1 eq_refl ltac:(by eexists)) as (y & o & Hy & Hyb).
  pose proof (entry_bound _ _ _ _ _ (InInode c, 1%nat) _ _ _ Hd Hc Hin Hy Hyb) as Ho. rewrite Hup in Ho. injection Ho as <-.
  pose proof (all_dirents_ok _ _ _ _ (y : dirent) Hm (dirent_in_all _ _ (InInode c, 1%nat) _ Hin Hy)) as Hok.
  destruct (binding_name _ _ _ Hyb) as [Hyn Hyi].
  assert (binding (set_de_inode (Some i') y) = Some (dotdot, i')) as Hfb by (unfold binding; cbn; by rewrite Hyn).
  assert (Ns (ns_dirs N) (<[(c, dotdot) := i']> (ns_ents N)) = ns_upd c (Some (dotdot, i)) (Some (dotdot, i')) N) as ->.
  { unfold ns_upd. f_equal. cbn [ns_learn ns_forget fst snd]. by rewrite insert_delete_eq. }
  split.
  - unfold parent_updated. rewrite <-!inode_dirent_comm. do 2 apply dirs_rep_inode_upd.
    pose proof (dirs_rep_entry p D N c qs (InInode c, 1%nat) (set_de_inode (Some i')) y Hd Hc Hin Hy) as Hent.
    rewrite Hyb, Hfb in Hent. apply Hent.
    + destruct Hok as [Hl Hok]. rewrite Hyi in Hok. by split.
    + intros b [= <-]. apply lookup_delete_eq.
    + by intros b j [= <-] [= <-].
  - eapply (inodes_rep_upd p); [done| |done|..].
    + apply names_upd_parent_updated; [done|..]; intros x Hx; rewrite (is_links _ _ Hi _ _ Hx); [pose proof (links_pos _ _ _ Hup)|];
        pose proof (links_le_size N i); pose proof (links_le_size N i'); lia.
    + intros j. etrans; [apply (links_upd c (Some (dotdot, i)) (Some (dotdot, i')) N j); [by intros b [= <-]|intros b [= <-]; apply lookup_delete_eq]|].
      cbn. lia.
    + intros z j. unfold ns_upd. cbn [ns_ents ns_learn ns_forget fst snd]. rewrite lookup_insert_Some.
      intros [[_ <-]|[_ [_ Hz]%lookup_delete_Some]]; [done|by eapply Hi].
Qed.
End update_parent.

(** As [txop], for code that also changes volatile inodes. *)
Definition txopv {A} (m : M pool A) (s : pool) (pm : ppool) (P : A → ppool → gmap positive vnode → Prop) (E : Z → Prop) : Prop :=
  ∀ n t locks,
    wp m (λ a s', ∃ n' us pm' vn, s' = tx_at (set_po_vnodes vn s) n' pm' (tx_more t us [] []) locks ∧ undo_log us pm' = pm ∧ P a pm' vn)
      (λ e s', ∃ n' us pm' vn, s' = tx_at (set_po_vnodes vn s) n' pm' (tx_more t us [] []) locks ∧ undo_log us pm' = pm ∧ E e)
      (tx_at s n pm t locks).

Section txopv.
Implicit Types (s : pool) (pm : ppool) (E : Z → Prop).

Lemma set_po_vnodes_id s : set_po_vnodes (po_vnodes s) s = s.
Proof. by destruct s. Qed.

Lemma txopv_bind {A B} (m : M pool A) (k : A → M pool B) s pm (P' : A → ppool → Prop) (P : B → ppool → gmap positive vnode → Prop) E :
  txop m s pm P' E → (∀ a pm', P' a pm' → txopv (k a) s pm' P E) → txopv (m ≫= k) s pm P E.
Proof.
  intros Hm Hk n t locks. apply wp_bind. eapply wp_mono; [apply Hm|..].
  - intros a s' (n1 & us & pm1 & -> & Hu & HP). eapply wp_mono; [by apply (Hk a pm1 HP)|..].
    + intros b s' (n2 & us2 & pm2 & vn & -> & Hu2 & HP2). exists n2, (us2 ++ us), pm2, vn.
      rewrite tx_more_more, undo_log_app, Hu2. by repeat split.
    + intros e s' (n2 & us2 & pm2 & vn & -> & Hu2 & HP2). exists n2, (us2 ++ us), pm2, vn.
      rewrite tx_more_more, undo_log_app, Hu2. by repeat split.
  - intros e s' (n1 & us & pm1 & -> & Hu & HE). exists n1, us, pm1, (po_vnodes s). rewrite set_po_vnodes_id. done.
Qed.

Lemma txopv_op {A} (m : M pool A) s pm (P : A → ppool → gmap positive vnode → Prop) E :
  txop m s pm (λ a q, P a q (po_vnodes s)) E → txopv m s pm P E.
Proof.
  intros Hm n t locks. eapply wp_mono; [apply Hm|..].
  - intros a s' (n1 & us & pm1 & -> & Hu & HP). exists n1, us, pm1, (po_vnodes s). rewrite set_po_vnodes_id. done.
  - intros e s' (n1 & us & pm1 & -> & Hu & HE). exists n1, us, pm1, (po_vnodes s). rewrite set_po_vnodes_id. done.
Qed.

Lemma txopv_pure {A B} (m : M pool A) (k : A → M pool B) a s pm (P : B → ppool → gmap positive vnode → Prop) E :
  txop m s pm (λ b q, b = a ∧ q = pm) E → txopv (k a) s pm P E → txopv (m ≫= k) s pm P E.
Proof. intros Hm Hk. eapply txopv_bind; [done|]. by intros ? ? [-> ->]. Qed.

(** Nothing but a value follows. *)
Lemma txopv_last {A B} (m : M pool A) (b : B) s pm (P : B → ppool → gmap positive vnode → Prop) E :
  txopv m s pm (λ _, P b) E → txopv (m ≫= λ _, mret b) s pm P E.
Proof. intros Hm n t locks. apply wp_bind. eapply wp_mono; [apply Hm|..]; [|done]. intros a s' HP. by apply wp_ret. Qed.
End txopv.

(** The volatile inodes after [vinode_update_parent]. *)
Definition reparented (v dst_parent : positive) (vn : gmap positive vnode) : gmap positive vnode :=
  alter (set_vn_parent (Some dst_parent)) v (alter (λ x, set_vn_ref (u32 (vn_ref x + 1)) x) dst_parent vn).

Section update_parent_tx.
Context (s : pool) (D : gmap oid (list dirp)) (N : ns).
Context (v src_parent dst_parent : positive) (x sp dp : vnode) (c i i' : oid) (qs : list dirp).
Hypothesis Hv : po_vnodes s !! v = Some x.
Hypothesis Hsp : po_vnodes s !! src_parent = Some sp.
Hypothesis Hdp : po_vnodes s !! dst_parent = Some dp.
Hypothesis Hxc : vn_tinode x = c.
Hypothesis Hspi : vn_tinode sp = i.
Hypothesis Hdpi : vn_tinode dp = i'.
Hypothesis Hpar : vn_parent x = Some src_parent.
Hypothesis Hc : D !! c = Some qs.
Hypothesis Hup : N @ (c, dotdot) = Some i.

(** The search for ".." finds the second entry of the inode. *)
Lemma txop_find_dotdot pm E :
  fs_rep pm D N →
  txop (fuel ← dir_fuel; lookup_loop fuel (λ e, str_equal (de_name e) (cstr "..")) (Some (InInode c))) s pm
    (λ r q, r = Some (InInode c, 1%nat) ∧ q = pm) E.
Proof using All.
  intros Hfs. destruct (ds_dir _ _ _ (proj1 Hfs) c qs Hc) as (m & Hm & _). pose proof (dir_first_part _ _ _ _ Hm) as Hin.
  destruct (ds_dots _ _ _ (proj1 Hfs) c dotdot 1 eq_refl ltac:(by eexists)) as (y & o & Hy & Hyb).
  eapply (txop_pure_seq _ _ (S (size (pp_dirs pm)))); [by apply txop_dir_fuel|]. intros n t locks.
  apply (wp_lookup_loop _ _ _ qs); [apply Hm|apply Hm| |].
  { pose proof (chain_length _ _ _ (dr_chain _ _ _ _ Hm) (dr_nodup _ _ _ _ Hm)). lia. }
  intros r Hr. exists n, [], pm. rewrite tx_more_nil. split; [done|]. split; [done|]. split; [|done]. destruct r as [e|]; cbn in Hr.
  - destruct Hr as (He & z & Hz & Hzn). apply bool_decide_eq_true in Hzn. change (until_nul (cstr "..")) with dotdot in Hzn. f_equal.
    pose proof (all_dirents_ok _ _ _ _ _ Hm (dirent_in_all _ _ _ _ He Hz)) as Hok.
    destruct (named_in_use z dotdot Hok Hzn) as [o' Ho']; [done|].
    eapply (entry_unique pm c qs m e (InInode c, 1%nat) z y dotdot o' o); [done|done|done|done|done| |done]. unfold binding. by rewrite Ho', Hzn.
  - specialize (Hr y (dirent_in_all _ _ (InInode c, 1%nat) _ Hin Hy)). destruct (binding_name _ _ _ Hyb) as [Hyn _].
    unfold str_equal in Hr. by rewrite Hyn in Hr.
Qed.

Lemma txopv_update_parent pm (P : unit → ppool → gmap positive vnode → Prop) E :
  fs_rep pm D N → i ≠ i' → is_Some (inode_lookup pm i') → Z.of_nat (size (ns_ents N)) < UINT64_MAX →
  (∀ pm', fs_rep pm' D (Ns (ns_dirs N) (<[(c, dotdot) := i']> (ns_ents N))) → P tt pm' (reparented v dst_parent (po_vnodes s))) →
  txopv (vinode_update_parent v src_parent dst_parent) s pm P E.
Proof using All.
  intros Hfs Hne Hi' Hsize HP. destruct (ds_dir _ _ _ (proj1 Hfs) c qs Hc) as (m & Hm & _). pose proof (dir_first_part _ _ _ _ Hm) as Hin.
  destruct (ds_dots _ _ _ (proj1 Hfs) c dotdot 1 eq_refl ltac:(by eexists)) as (y & o & Hy & Hyb).
  pose proof (entry_bound _ _ _ _ _ (InInode c, 1%nat) _ _ _ (proj1 Hfs) Hc Hin Hy Hyb) as Ho. rewrite Hup in Ho. injection Ho as <-.
  destruct (binding_name _ _ _ Hyb) as [Hyn Hyi]. pose proof (is_ref _ _ (proj2 Hfs) _ _ Hup) as Hi.
  unfold vinode_update_parent. eapply (txopv_pure _ _ tt); [by apply txop_in_tx|].
  eapply (txopv_pure _ _ x); [by eapply txop_vnode_get|]. eapply (txopv_pure _ _ sp); [by eapply txop_vnode_get|].
  eapply (txopv_pure _ _ dp); [by eapply txop_vnode_get|]. rewrite Hxc, Hspi, Hdpi. intros n t locks. apply wp_assoc. revert n t locks.
  eapply (txopv_pure _ _ (Some (InInode c, 1%nat))); [by apply txop_find_dotdot|]. eapply (txopv_pure _ _ y); [by eapply txop_dirent_get|].
  eapply (txopv_pure _ _ tt); [apply txop_assert; [by rewrite Hyi, bool_decide_eq_true_2|done]|].
  eapply (txopv_pure _ _ tt); [apply txop_assert; [by rewrite Hpar, bool_decide_eq_true_2|done]|].
  eapply (txopv_bind _ _ _ _ (λ _ q, q = inode_upd i inode_tx_dec_nlink pm)); [by apply txop_inode_last; [|intros; apply undo_nlink_set|]|]. intros _ ? ->.
  eapply (txopv_bind _ _ _ _ (λ _ q, q = inode_upd i' inode_tx_inc_nlink (inode_upd i inode_tx_dec_nlink pm))).
  { apply txop_inode_last; [by auto with pooltx|intros; apply undo_nlink_set|done]. }
  intros _ ? ->. eapply (txopv_bind _ _ _ _ (λ _ q, q = parent_updated c i i' pm)).
  { apply txop_upd; [|done]. unfold snap_dirent_inode. rewrite !dirent_lookup_inode_upd, Hy.
    apply (dirent_upd_undo _ _ y); [by rewrite !dirent_lookup_inode_upd|by destruct y]. }
  intros _ ? ->. intros n t locks. apply wp_bind. unfold vinode_ref. apply wp_bind, wp_ret, wp_bind. unfold vnode_modify.
  apply wp_bind. eapply wp_vnode_get; [done|]. apply wp_modify, wp_ret. apply wp_bind.
  assert (is_Some (alter (λ x, set_vn_ref (u32 (vn_ref x + 1)) x) dst_parent (po_vnodes s) !! v)) as [x' Hx'].
  { destruct (decide (v = dst_parent)) as [->|Hvd]; [rewrite lookup_alter_eq, Hdp|rewrite lookup_alter_ne by done]; by eexists. }
  eapply (wp_vnode_get v x'); [done|]. apply wp_modify. exists n, [], (parent_updated c i i' pm), (reparented v dst_parent (po_vnodes s)).
  rewrite tx_more_nil. split; [done|]. split; [done|]. apply HP. by eapply fs_rep_parent_updated.
Qed.
End update_parent_tx.

(** A directory that something refers to was not removed. *)
Lemma links_live roots N j : ns_wf roots N → j ∈ ns_dirs N → links N j ≠ 0%nat → live N j.
Proof.
  intros HN Hj Hl. destruct (decide (filter (λ b : oid * cstring * oid, b.2 = j) (ns_ents N) = ∅)) as [He|He].
  { exfalso. apply Hl. unfold links. by rewrite He, map_size_empty. }
  apply map_choose in He as ([a k] & j' & [Hk Hj']%map_lookup_filter_Some). cbn in Hj'. subst j'.
  destruct (decide (dots k)) as [[->| ->]|Hd].
  - pose proof (nw_dot _ _ HN _ _ Hk) as ->. exact Hk.
  - by eapply up_live.
  - destruct (nw_down _ _ HN a k j Hk Hd Hj) as [_ Hup]. by apply (nw_dir _ _ HN) in Hup as (_ & ? & _).
Qed.

Section rename_tx.
Context `{!PoolAlloc} `{!PoolAllocOk}.
Variables (cfg : block_cfg).
Hypothesis Hcfg : bi_size (metadata_block_info cfg) = METADATA_BLOCK_SIZE.
Context (roots : gset oid) (s : pool) (pm : ppool) (D : gmap oid (list dirp)) (N : ns).
Context (src_parent src_v dst_parent : positive) (sp x dp : vnode) (i c i' : oid) (e : deptr) (y : dirent) (ps ps' : list dirp).
Context (k k' : cstring) (dst_remaining : cstring) (t : pmemfile_time).
Hypothesis HN : ns_wf roots N.
Hypothesis Hfs : fs_rep pm D N.
Hypothesis Hsp : po_vnodes s !! src_parent = Some sp.
Hypothesis Hx : po_vnodes s !! src_v = Some x.
Hypothesis Hdp : po_vnodes s !! dst_parent = Some dp.
Hypothesis Hspi : vn_tinode sp = i.
Hypothesis Hxc : vn_tinode x = c.
Hypothesis Hdpi : vn_tinode dp = i'.
Hypothesis Hinj : src_parent ≠ dst_parent → i ≠ i'.
Hypothesis Hi : D !! i = Some ps.
Hypothesis Hi' : D !! i' = Some ps'.
Hypothesis He : e.1 ∈ ps.
Hypothesis Hy : dirent_lookup pm e = Some y.
Hypothesis Hb : binding y = Some (k, c).
Hypothesis Hk : ¬ dots k.
Hypothesis Hk' : ¬ dots k'.
Hypothesis Hname : name_arg dst_remaining (component_length dst_remaining) k'.
Hypothesis Hslash : SLASH ∉ k'.
Hypothesis Hnone : N @ (i', k') = None.
Hypothesis Hsize : Z.of_nat (size (ns_ents N)) + 1 < UINT64_MAX.
Hypothesis Hpar : c ∈ ns_dirs N → vn_parent x = Some src_parent.

Definition rename_error (e : Z) : Prop :=
  e = ENOMEM ∨ (e = ENAMETOOLONG ∧ (PMEMFILE_MAX_FILE_NAME < length k')%nat) ∨ (e = ENOENT ∧ ¬ live N i').

Notation new_len := (component_length dst_remaining).

Lemma txop_rename_same (P : unit → ppool → Prop) :
  i = i' → (∀ pm', fs_rep pm' D (ns_move i k i' k' c N) → P tt pm') →
  txop ((if (PMEMFILE_MAX_FILE_NAME <? new_len)%nat then tx_abort ENAMETOOLONG else mret tt);;
    tx_add (snap_name e (S new_len));; pm_modify (dirent_upd e (λ y, set_de_name (write_name dst_remaining new_len (de_name y)) y));;
    tx_set_inode_mtime t i;; tx_set_inode_ctime t c) s pm P rename_error.
Proof using All.
  intros Hii HP. rewrite <-Hii in *. pose proof (name_arg_length _ _ _ Hname) as Hlen.
  destruct (Nat.ltb_spec PMEMFILE_MAX_FILE_NAME new_len) as [Hlong|Hlong].
  { eapply txop_bind; [apply (txop_abort _ _ _ (λ _ _, False))|done]. right. left. split; [done|lia]. }
  eapply (txop_pure_seq _ _ tt); [by apply txop_ret|]. destruct (ds_dir _ _ _ (proj1 Hfs) i ps Hi) as (m & Hm & _).
  destruct (all_dirents_ok _ _ _ _ _ Hm (dirent_in_all _ _ _ _ He Hy)) as [Hbuf _].
  destruct (write_name_spec dst_remaining new_len k' (de_name y) Hname Hlong Hbuf) as (_ & _ & Hundo).
  pose proof (entry_bound _ _ _ _ _ _ _ _ _ (proj1 Hfs) Hi He Hy Hb) as Hbound.
  apply txop_upd_seq.
  { unfold snap_name. rewrite Hy. apply (dirent_upd_undo _ _ y); [done|]. cbn. rewrite Hundo. by destruct y. }
  apply txop_inode_seq; [apply is_Some_dirent_upd; by eapply dir_has_inode|intros; apply undo_mtime_set|].
  apply txop_inode_last; [apply is_Some_inode_upd, is_Some_dirent_upd; by eapply (is_ref _ _ (proj2 Hfs))|intros; apply undo_ctime_set|].
  apply HP. rewrite (ns_move_same roots) by done. by apply (fs_rep_entry_renamed pm D N i ps e y).
Qed.

Lemma txop_rename_move (P : unit → ppool → Prop) :
  i ≠ i' →
  (∀ pm' qs, live N i' → fs_rep pm' (<[i' := qs]> D) (ns_unlink i k (ns_link i' k' c N)) → is_Some (inode_lookup pm' i') → P tt pm') →
  txop (inode_add_dirent cfg i' dst_remaining new_len c t;; vinode_unlink_file src_parent e src_v t) s pm P rename_error.
Proof using All.
  intros Hne HP. pose proof (entry_bound _ _ _ _ _ _ _ _ _ (proj1 Hfs) Hi He Hy Hb) as Hbound.
  assert (i' ∈ ns_dirs N) as Hi'd by (apply (ds_dom _ _ _ (proj1 Hfs)); by eexists).
  assert (size (ns_ents (ns_link i' k' c N)) = S (size (ns_ents N))) as Hsz by (cbn; by rewrite map_size_insert_None).
  assert (links N i' ≠ 0%nat → live N i') as Hlinks by (intros ?; by eapply links_live).
  set (Q := λ (_ : unit) q, live N i' ∧ (∃ qs, fs_rep q (<[i' := qs]> D) (ns_link i' k' c N) ∧ dirent_lookup q e = Some y ∧ e.1 ∉ qs) ∧ is_Some (inode_lookup q i')).
  eapply (txop_bind _ _ _ _ Q); unfold Q; clear Q.
  - destruct (ds_dir _ _ _ (proj1 Hfs) i' ps' Hi') as (m & Hm & _). pose proof (dir_has_inode _ _ _ _ Hm) as Hxi.
    eapply (txop_add_entry cfg Hcfg s pm D N i' ps'); [done|done|done|done|by eapply (is_ref _ _ (proj2 Hfs))|lia|..].
    + intros j Hj. by rewrite dots_index_none in Hj.
    + unfold fs_add_error, rename_error. rewrite Hnone. intros e' [?|[[_ []%is_Some_None]|[?|(? & Hl0 & _)]]]; auto.
      right. right. split; [done|]. intros Hl. by apply (links_zero _ _ (i', dot)) in Hl0.
    + intros q qs _ Hfs1 Hu _ Hframe Hl. apply not_dots_dot in Hk' as [Hk1 _]. split; [apply Hlinks; by intros H1; apply Hl in H1|].
      assert (e.1 ∉ qs) as Heq.
      { intros Hin. apply (ds_disj _ _ _ (proj1 Hfs1) i i' ps qs) with e.1; [by rewrite lookup_insert_ne|by rewrite lookup_insert_eq|done..]. }
      split; [|by eapply names_upd_is_Some]. exists qs. split; [done|]. split; [|done]. unfold dirent_lookup in *. by rewrite Hframe.
  - intros _ q (Hlive & (qs & Hfs1 & Hy1 & Heq) & Hi1).
    eapply (txop_unlink_file s q (<[i' := qs]> D) _ src_parent sp i ps e y k c src_v x); [done|done|done|by rewrite lookup_insert_ne|done..|lia|].
    intros q' Hfs2 Hu _. apply (HP q' qs); [done|done|]. by eapply names_upd_is_Some.
Qed.

Lemma txop_is_dir q (P : bool → ppool → Prop) E : (∀ z, inode_lookup q c = Some z → P (inode_is_dir z) q) → is_Some (inode_lookup q c) → txop (vinode_is_dir src_v) s q P E.
Proof using Hx Hxc.
  intros HP [z Hz]. unfold vinode_is_dir, vinode_inode. eapply (txop_pure_seq _ _ z); [|by apply txop_ret, HP].
  eapply (txop_pure_seq _ _ x); [by eapply txop_vnode_get|]. rewrite Hxc. by eapply txop_inode_get.
Qed.

(** The volatile inodes after the transaction. *)
Definition rename_vnodes : gmap positive vnode :=
  if decide (src_parent ≠ dst_parent ∧ c ∈ ns_dirs N) then reparented src_v dst_parent (po_vnodes s) else po_vnodes s.

Lemma txopv_rename (P : Z → ppool → gmap positive vnode → Prop) :
  (∀ pm' D', live N i' → fs_rep pm' D' (ns_move i k i' k' c N) → P 0 pm' rename_vnodes) →
  txopv (rename_tx cfg src_parent src_v e dst_parent None dst_remaining t) s pm P rename_error.
Proof using All.
  intros HP. unfold rename_tx. eapply (txopv_pure _ _ tt); [by apply txop_ret|]. eapply (txopv_pure _ _ x); [by eapply txop_vnode_get|].
  eapply (txopv_pure _ _ sp); [by eapply txop_vnode_get|]. eapply (txopv_pure _ _ dp); [by eapply txop_vnode_get|]. rewrite Hspi, Hxc, Hdpi.
  apply txopv_last. pose proof (entry_bound _ _ _ _ _ _ _ _ _ (proj1 Hfs) Hi He Hy Hb) as Hbound. unfold rename_vnodes in HP.
  destruct (decide (src_parent = dst_parent)) as [Heq|Hne].
  - assert (i = i') as Hii by congruence. apply txopv_op, txop_rename_same; [done|]. intros pm' Hfs'. rewrite decide_False in HP by tauto. eapply HP; [|done].
    rewrite <-Hii. by apply (nw_dir _ _ HN) in Hbound as (_ & ? & _).
  - pose proof (Hinj Hne) as Hii. intros n' t' l'. apply wp_assoc. revert n' t' l'. eapply txopv_bind.
    { apply (txop_rename_move (λ _ q, live N i' ∧ (∃ qs, fs_rep q (<[i' := qs]> D) (ns_unlink i k (ns_link i' k' c N))) ∧ is_Some (inode_lookup q i'))); [done|]. eauto. }
    intros _ q (Hlive & (qs & Hfs1) & Hi1). set (N1 := ns_unlink i k (ns_link i' k' c N)) in *.
    assert (N1 @ (i', k') = Some c) as Hk1 by (unfold N1, ns_unlink, ns_link; cbn [ns_ents]; rewrite lookup_delete_ne, lookup_insert_eq by congruence; done).
    eapply (txopv_bind _ _ _ _ (λ b q', b = bool_decide (c ∈ ns_dirs N) ∧ q' = q)).
    { apply txop_is_dir; [|by eapply (is_ref _ _ (proj2 Hfs1))]. intros z Hz. split; [|done]. apply (is_kind _ _ (proj2 Hfs1) c z Hz). }
    intros ? ? [-> ->]. pose proof (ns_move_other N i k i' k' c Hnone Hbound) as Hmove. destruct (decide (c ∈ ns_dirs N)) as [Hcd|Hcd].
    + rewrite bool_decide_eq_true_2 by done. rewrite decide_True in HP by done. assert (is_Some (<[i' := qs]> D !! c)) as [qc Hqc].
      { destruct (decide (i' = c)) as [->|]; [rewrite lookup_insert_eq; by eexists|]. rewrite lookup_insert_ne by done. by apply (ds_dom _ _ _ (proj1 Hfs)). }
      destruct (nw_down _ _ HN i k c Hbound Hk Hcd) as [_ Hup]. assert (size (ns_ents N1) ≤ S (size (ns_ents N)))%nat as Hsz.
      { unfold N1, ns_unlink, ns_link. cbn [ns_ents]. etrans; [apply map_subseteq_size, delete_subseteq|]. by rewrite map_size_insert_None. }
      assert (N1 @ (c, dotdot) = Some i) as Hup1.
      { unfold N1, ns_unlink, ns_link. cbn [ns_ents]. apply not_dots_dot in Hk as [? ?], Hk' as [? ?]. rewrite lookup_delete_ne, lookup_insert_ne by congruence. done. }
      eapply (txopv_update_parent s (<[i' := qs]> D) N1 src_v src_parent dst_parent x sp dp c i i' qc); try done; [by apply Hpar|lia|].
      intros pm' Hfs2. apply (HP pm' (<[i' := qs]> D)); [done|]. rewrite Hmove. exact Hfs2.
    + rewrite bool_decide_eq_false_2 by done. rewrite decide_False in HP by tauto. apply txopv_op, txop_ret. apply (HP q (<[i' := qs]> D)); [done|]. by rewrite Hmove.
Qed.
End rename_tx.
