(* ===== verification/NameOps.v ===== *)
(** The operations on names as transactions: each either commits one step of
    the well-formed name space or leaves the persistent objects as they were. *)
From stdpp Require Import relations.
From S2P Require Import Prelude Layout Inode Blocks FileState HashMap Creds CString Pool InodeArray Vinode Dir PoolTx DirRep Namespace NameSpec NameRep NameTx.

(** The transaction made the step to a name space in [Next], or nothing but
    volatile state changed and its result is an error in [Err]. *)
Definition step_or_undone (roots : gset oid) (s : pool) (N : ns) (Next : ns → Prop) (Err : Z → Prop) (r : Z) (s' : pool) : Prop :=
  po_tx s' = None ∧ po_locks s' = po_locks s ∧
  ((r = 0 ∧ ∃ N' D', Next N' ∧ ns_step roots N N' ∧ ns_wf roots N' ∧ fs_rep (po_pm s') D' N') ∨ (Err r ∧ po_pm s' = po_pm s)).

Section outcome.
Context (roots : gset oid) (s : pool) (N : ns).

Lemma wp_tx_txopv {A} (body : M pool A) h (P : A → ppool → gmap positive vnode → Prop) (E : Z → Prop) (Q : A → pool → Prop) (E' : Z → pool → Prop) :
  po_tx s = None → txopv body s (po_pm s) P E →
  (∀ a n pm' vn, P a pm' vn → Q a (set_po_ticks n (set_po_pm pm' (set_po_vnodes vn s)))) →
  (∀ e n vn, E e → wp (h e) Q E' (set_po_errno e (set_po_ticks n (set_po_vnodes vn s)))) → wp (tx_begin_cb body h) Q E' s.
Proof.
  intros Htx Hb HQ HE. apply wp_tx_begin_cb; [done|]. specialize (Hb (po_ticks s) tx_empty (po_locks s)).
  replace (tx_at s (po_ticks s) (po_pm s) tx_empty (po_locks s)) with (tx_state s (po_pm s) tx_empty (po_locks s)) in Hb by (by destruct s).
  eapply wp_mono; [exact Hb|..].
  - intros a s' (n & us & pm' & vn & -> & Hu & HP). eexists. split; [done|]. cbn [tx_more pt_oncommit pt_frees tx_empty apply_frees foldr].
    unfold cb_queue. cbn. apply wp_ret. specialize (HQ a n pm' vn HP). destruct s. cbn in *. subst. exact HQ.
  - intros e s' (n & us & pm' & vn & -> & Hu & He). eexists. split; [done|]. cbn [tx_more pt_onabort pt_log tx_empty].
    unfold cb_queue. cbn [cb_backward cb_forward app]. apply wp_ret. specialize (HE e n vn He). cbn -[undo_log] in *.
    rewrite app_nil_r, Hu. destruct s. cbn in *. subst. exact HE.
Qed.

(** A body that makes a step. *)
Lemma wp_step_tx (body : M pool Z) h (Next : ns → Prop) (E Err : Z → Prop) :
  po_tx s = None → ns_wf roots N → (∀ e s, E e → ∃ r s', h e s = Ok r s' ∧ po_pm s' = po_pm s ∧ po_tx s' = po_tx s ∧ po_locks s' = po_locks s ∧ Err r) →
  txopv body s (po_pm s) (λ r pm' _, r = 0 ∧ ∃ N' D', Next N' ∧ ns_step roots N N' ∧ fs_rep pm' D' N') E →
  wp (tx_begin_cb body h) (step_or_undone roots s N Next Err) noabort s.
Proof.
  intros Htx HN Hh Hb. eapply wp_tx_txopv; [done|exact Hb|..].
  - intros r n pm' vn (-> & N' & D' & Hnext & Hstep & Hfs). split_and!; [done..|]. left. split; [done|]. exists N', D'.
    split_and!; [done|done|by eapply ns_step_wf|done].
  - intros e n vn He. destruct (Hh e (set_po_errno e (set_po_ticks n (set_po_vnodes vn s))) He) as (r & s' & Hr & Hpm & Htx' & Hl & Herr).
    unfold wp. rewrite Hr. split_and!; [by rewrite Htx'|by rewrite Hl|]. right. split; [done|]. by rewrite Hpm.
Qed.

Lemma onabort_errno_ok (E : Z → Prop) e s0 : E e → ∃ r s', onabort_errno e s0 = Ok r s' ∧ po_pm s' = po_pm s0 ∧ po_tx s' = po_tx s0 ∧ po_locks s' = po_locks s0 ∧ E r.
Proof. intros He. exists e, s0. done. Qed.

(** ENOMEM is reported as ENOSPC. *)
Definition nospc (E : Z → Prop) (r : Z) : Prop := ∃ e, E e ∧ r = if e =? ENOMEM then ENOSPC else e.

Lemma onabort_nospc_ok (E : Z → Prop) e s0 : E e → ∃ r s', onabort_nospc e s0 = Ok r s' ∧ po_pm s' = po_pm s0 ∧ po_tx s' = po_tx s0 ∧ po_locks s' = po_locks s0 ∧ nospc E r.
Proof.
  intros He. eexists _, (set_po_errno (if e =? ENOMEM then ENOSPC else e) s0). split; [reflexivity|]. split_and!; [done..|]. by exists e.
Qed.
End outcome.

(** ** The theorems *)

Section theorems.
Context `{!PoolAlloc} `{!PoolAllocOk}.
Variables (cfg : block_cfg) (clock : nat → pmemfile_time).
Hypothesis Hcfg : bi_size (metadata_block_info cfg) = METADATA_BLOCK_SIZE.




(** C3: renaming an entry to a name that does not exist moves exactly that entry;
    a directory that moves gets the new directory as its "..".  It fails only if
    the name is too long, the new directory was removed or the pool is full, and
    then changes nothing. *)
Theorem rename_step roots s D N src_parent src_v dst_parent (sp x dp : vnode) i c i' e y ps ps' k k' dst_remaining t :
  po_tx s = None → ns_wf roots N → fs_rep (po_pm s) D N →
  po_vnodes s !! src_parent = Some sp → po_vnodes s !! src_v = Some x → po_vnodes s !! dst_parent = Some dp →
  vn_tinode sp = i → vn_tinode x = c → vn_tinode dp = i' → (src_parent ≠ dst_parent → i ≠ i') → (c ∈ ns_dirs N → vn_parent x = Some src_parent) →
  D !! i = Some ps → D !! i' = Some ps' → e.1 ∈ ps → dirent_lookup (po_pm s) e = Some y → binding y = Some (k, c) →
  ¬ dots k → ¬ dots k' → name_arg dst_remaining (component_length dst_remaining) k' → SLASH ∉ k' → N @ (i', k') = None →
  (c ∈ ns_dirs N → ¬ rtc (up N) i' c) → Z.of_nat (size (ns_ents N)) + 1 < UINT64_MAX →
  wp (tx_begin_cb (rename_tx cfg src_parent src_v e dst_parent None dst_remaining t) onabort_errno)
    (step_or_undone roots s N (λ N', N' = ns_move i k i' k' c N) (rename_error N i' k')) noabort s.
Proof.
  intros Htx HN Hfs Hsp Hx Hdp Hspi Hxc Hdpi Hinj Hpar Hi Hi' He Hy Hb Hk Hk' Hname Hs Hnone Hloop Hsize.
  eapply wp_step_tx; [done|done|apply (onabort_errno_ok (rename_error N i' k'))|].
  eapply (txopv_rename cfg Hcfg roots s (po_pm s) D N src_parent src_v dst_parent sp x dp i c i' e y ps ps' k k'); try done.
  intros pm' D' Hlive Hfs'. split; [done|]. exists (ns_move i k i' k' c N), D'. split_and!; [done| |done].
  apply step_move; [|done..]. eapply entry_bound; [apply Hfs|done..].
Qed.
End theorems.

(** ** An example: the root with a file "a" and a directory "d" *)

Module ExName.
Definition ent (k : cstring) (o : oid) : dirent := Dirent (Some o) (write_name k (length k) (de_name zero_dirent)).
Definition minode0 (flags nlink : Z) (d : file_data) : minode :=
  let x := new_inode default_cfg ExPool.cred0 flags (Time 1 0) in Minode (set_i_nlink (zero2 nlink) (mi_inode x)) d.
Definition dir0 (es : list dirent) : file_data := DataDir (Dir (PMEMFILE_DIR_VERSION 1) (length es) None es).
Definition a : cstring := cstr "a".
Definition d : cstring := cstr "d".
Definition root_entries : list dirent := [ent dot 1; ent dotdot 1; ent a 2; ent d 3].
Definition d_entries : list dirent := [ent dot 3; ent dotdot 1].
Definition pm : ppool :=
  PPool {[1%positive := minode0 (Z.lor PMEMFILE_S_IFDIR 0x1ff) 3 (dir0 root_entries);
          2%positive := minode0 (Z.lor PMEMFILE_S_IFREG 0x1ff) 1 (DataShortSymlink []);
          3%positive := minode0 (Z.lor PMEMFILE_S_IFDIR 0x1ff) 2 (dir0 d_entries)]} ∅ ∅ ∅ ExPool.super0.
Definition vnode0 (o : oid) (parent : option positive) : vnode := Vnode 1 o parent None None (Time 0 0) false zero_vinode.
Definition st : pool :=
  set_po_vnodes {[1%positive := vnode0 1 None; 2%positive := vnode0 2 None; 3%positive := vnode0 3 (Some 1%positive)]}
    (set_po_pm pm ExPool.pool0).
Definition D : gmap oid (list dirp) := {[1%positive := [InInode 1]; 3%positive := [InInode 3]]}.
Definition ents : list (oid * cstring * oid) :=
  [((1, dot), 1); ((1, dotdot), 1); ((1, a), 2); ((1, d), 3); ((3, dot), 3); ((3, dotdot), 1)]%positive.
Definition N : ns := Ns {[1; 3]}%positive (list_to_map ents).
Definition roots : gset oid := {[1]}%positive.
End ExName.

Lemma exname_part es : Forall dirent_ok es → es ≠ [] → part_ok (Dir (PMEMFILE_DIR_VERSION 1) (length es) None es).
Proof. intros He Hne. split_and!; done. Qed.

Lemma exname_ent k o : name_ok k → dirent_ok (ExName.ent k o) ∧ binding (ExName.ent k o) = Some (k, o).
Proof.
  intros (Hne & Hl & Hn & Hs). destruct (write_name_spec k (length k) k (de_name zero_dirent)) as (Hu & Hlen & _); [|done|done|].
  { split_and!; [by apply take_ge|done|done|done]. }
  unfold dirent_ok, binding. cbn [ExName.ent de_inode de_name]. rewrite Hu. by split_and!.
Qed.

Lemma exname_ok k : forallb (λ c, negb (bool_decide (c = NUL)) && negb (bool_decide (c = SLASH))) k && negb (bool_decide (k = [])) && (length k <=? PMEMFILE_MAX_FILE_NAME)%nat = true → name_ok k.
Proof.
  intros [[Hc Hne]%andb_prop Hl]%andb_prop. apply Nat.leb_le in Hl. apply negb_true_iff, bool_decide_eq_false in Hne.
  assert (∀ c, c ∈ k → c ≠ NUL ∧ c ≠ SLASH) as Hall.
  { intros c Hin. rewrite forallb_forall in Hc. specialize (Hc c ltac:(by apply list_elem_of_In)). apply andb_prop in Hc as [H1 H2].
    apply negb_true_iff, bool_decide_eq_false in H1, H2. done. }
  split_and!; [done|done|..]; intros Hin; by destruct (Hall _ Hin).
Qed.

Lemma exname_dir p i x m :
  dir_lookup p (InInode i) = Some x → d_next x = None → part_ok x → NoDup (bindings (d_dirents x)).*1 → m = list_to_map (bindings (d_dirents x)) →
  dir_rep p i [InInode i] m.
Proof.
  intros Hx Hn Hok Hnd Hm. assert (all_dirents p [InInode i] = d_dirents x) as Ha.
  { unfold all_dirents, part_dirents. cbn [mbind list_bind]. by rewrite Hx, app_nil_r. }
  split; rewrite ?Ha; [by eapply chain_last|apply NoDup_singleton| |done|done].
  intros d y ->%list_elem_of_singleton. rewrite Hx. by intros [= <-].
Qed.

Lemma exname_forall :
  Forall dirent_ok ExName.root_entries ∧ Forall dirent_ok ExName.d_entries ∧
  bindings ExName.root_entries = [(dot, 1); (dotdot, 1); (ExName.a, 2); (ExName.d, 3)]%positive ∧
  bindings ExName.d_entries = [(dot, 3); (dotdot, 1)]%positive.
Proof.
  assert (name_ok dot ∧ name_ok dotdot ∧ name_ok ExName.a ∧ name_ok ExName.d) as (H1 & H2 & H3 & H4)
    by (split_and!; apply exname_ok; reflexivity).
  pose proof (λ o, exname_ent _ o H1) as E1. pose proof (λ o, exname_ent _ o H2) as E2.
  pose proof (λ o, exname_ent _ o H3) as E3. pose proof (λ o, exname_ent _ o H4) as E4.
  unfold bindings, ExName.root_entries, ExName.d_entries. cbn [omap list_omap]. rewrite !(proj2 (E1 _)), !(proj2 (E2 _)), (proj2 (E3 _)), (proj2 (E4 _)).
  split_and!; [..|done|done]; repeat constructor; apply E1 || apply E2 || apply E3 || apply E4.
Qed.

Lemma exname_nodup : NoDup ExName.ents.*1.
Proof. by apply (bool_decide_unpack _). Qed.

Lemma exname_lookup x j : ExName.N @ x = Some j ↔ (x, j) ∈ ExName.ents.
Proof. symmetry. apply elem_of_list_to_map, exname_nodup. Qed.

Ltac ex_cases := repeat match goal with
  | H : _ ∈ _ :: _ |- _ => apply elem_of_cons in H as [H|H]
  | H : _ ∈ [] |- _ => by apply elem_of_nil in H
  end.

Ltac ex_in := repeat first [by left|right].

Lemma exname_map i (l : list (cstring * oid)) :
  NoDup l.*1 → (∀ k o, (k, o) ∈ l ↔ ((i, k), o) ∈ ExName.ents) → ∀ k, (list_to_map l : gmap cstring oid) !! k = ExName.N @ (i, k).
Proof. intros Hnd Hl k. apply option_eq. intros o. rewrite exname_lookup, <-Hl. symmetry. by apply elem_of_list_to_map. Qed.

Lemma exname_dirs : dirs_rep ExName.pm ExName.D ExName.N.
Proof.
  destruct exname_forall as (Hr & Hd & Hbr & Hbd). split.
  - intros i. unfold ExName.D, ExName.N. cbn [ns_dirs]. rewrite lookup_insert_is_Some, lookup_singleton_is_Some. set_solver.
  - intros i k j Hj%exname_lookup. unfold ExName.ents in Hj. ex_cases; simplify_eq; cbn [ns_dirs ExName.N]; set_solver.
  - intros i ps. unfold ExName.D. rewrite lookup_insert_Some, lookup_singleton_Some. intros [[<- <-]|[_ [<- <-]]].
    + exists (list_to_map (bindings ExName.root_entries)). split.
      * eapply exname_dir; [done|done|by apply exname_part| |done]. cbn [d_dirents]. rewrite Hbr. by apply (bool_decide_unpack _).
      * rewrite Hbr. apply exname_map; [by apply (bool_decide_unpack _)|]. intros k o. unfold ExName.ents.
        split; intros Hin; ex_cases; simplify_eq; ex_in.
    + exists (list_to_map (bindings ExName.d_entries)). split.
      * eapply exname_dir; [done|done|by apply exname_part| |done]. cbn [d_dirents]. rewrite Hbd. by apply (bool_decide_unpack _).
      * rewrite Hbd. apply exname_map; [by apply (bool_decide_unpack _)|]. intros k o. unfold ExName.ents.
        split; intros Hin; ex_cases; simplify_eq; ex_in.
  - intros i j ps qs. unfold ExName.D. rewrite !lookup_insert_Some, !lookup_singleton_Some. intros [[? ?]|[? [? ?]]] [[? ?]|[? [? ?]]] Hne; subst; try done;
      intros x ->%list_elem_of_singleton Hx%list_elem_of_singleton; congruence.
  - intros i k j Hj [o Ho%exname_lookup]. unfold ExName.ents in Ho. ex_cases; simplify_eq; injection Hj as <-;
      eexists _, _; (split; [reflexivity|]); apply exname_ent, exname_ok; reflexivity.
Qed.

Lemma exname_inodes : inodes_rep ExName.pm ExName.N.
Proof.
  assert (∀ j x, inode_lookup ExName.pm j = Some x → j = 1%positive ∧ x = mi_inode (ExName.minode0 (Z.lor PMEMFILE_S_IFDIR 0x1ff) 3 (ExName.dir0 ExName.root_entries)) ∨
    j = 2%positive ∧ x = mi_inode (ExName.minode0 (Z.lor PMEMFILE_S_IFREG 0x1ff) 1 (DataShortSymlink [])) ∨
    j = 3%positive ∧ x = mi_inode (ExName.minode0 (Z.lor PMEMFILE_S_IFDIR 0x1ff) 2 (ExName.dir0 ExName.d_entries))) as Hall.
  { intros j x (y & Hy & ->)%fmap_Some. unfold ExName.pm in Hy. cbn [pp_inodes] in Hy. rewrite !lookup_insert_Some, lookup_singleton_Some in Hy.
    destruct Hy as [[<- <-]|[_ [[<- <-]|[_ [<- <-]]]]]; auto. }
  split.
  - intros j x [[-> ->]|[[-> ->]|[-> ->]]]%Hall; symmetry; [apply bool_decide_eq_true|apply bool_decide_eq_false|apply bool_decide_eq_true]; cbn [ns_dirs ExName.N]; set_solver.
  - intros j x [[-> ->]|[[-> ->]|[-> ->]]]%Hall; vm_compute; reflexivity.
  - intros x j Hj%exname_lookup. unfold ExName.ents in Hj. ex_cases; simplify_eq; by eexists.
Qed.

Lemma exname_wf : ns_wf ExName.roots ExName.N.
Proof.
  split.
  - intros r ->%elem_of_singleton. split; apply exname_lookup; unfold ExName.ents; ex_in.
  - intros i k j Hj%exname_lookup. unfold ExName.ents in Hj. ex_cases; simplify_eq; (split; [cbn [ns_dirs ExName.N]; set_solver|]);
      (split; [apply exname_lookup; unfold ExName.ents; ex_in|]); exists 1%positive; apply exname_lookup; unfold ExName.ents; ex_in.
  - intros i j Hj%exname_lookup. unfold ExName.ents in Hj. pose proof dot_dotdot. ex_cases; by simplify_eq.
  - intros i p Hp%exname_lookup Hr. unfold ExName.ents in Hp. pose proof dot_dotdot. ex_cases; simplify_eq; try (by exfalso; apply Hr; set_solver).
    exists ExName.d. split; [by intros [?|?]|]. apply exname_lookup. unfold ExName.ents. ex_in.
  - intros i k c Hc%exname_lookup Hk Hdir. unfold ExName.ents in Hc. ex_cases; simplify_eq; try (by exfalso; apply Hk; (by left) || (by right)).
    split; [by intros ?%elem_of_singleton|]. apply exname_lookup. unfold ExName.ents. ex_in.
  - intros i k k' c Hc%exname_lookup Hc'%exname_lookup Hk Hk' Hdir. unfold ExName.ents in Hc, Hc'.
    ex_cases; simplify_eq; try done; exfalso; first [by apply Hk; left|by apply Hk; right|by apply Hk'; left|by apply Hk'; right].
  - intros i Hi%exname_lookup. unfold ExName.ents in Hi. exists 1%positive. split; [set_solver|]. ex_cases; simplify_eq; [reflexivity|].
    apply rtc_once, exname_lookup. unfold ExName.ents. ex_in.
Qed.

Lemma exname_fs : fs_rep (po_pm ExName.st) ExName.D ExName.N.
Proof. split; [apply exname_dirs|apply exname_inodes]. Qed.

Lemma exname_size : Z.of_nat (size (ns_ents ExName.N)) + 3 < UINT64_MAX.
Proof. reflexivity. Qed.

Lemma exname_arg k : name_ok k → name_arg k (length k) k.
Proof. intros (Hne & _ & Hn & _). split_and!; [by apply take_ge|done|done|done]. Qed.




(** "a" to "d/b". *)
Lemma rename_step_witness :
  wp (tx_begin_cb (@rename_tx ExPool.palloc default_cfg 1 2 (InInode 1, 2%nat) 3 None (cstr "b") (Time 5 0)) onabort_errno)
    (step_or_undone ExName.roots ExName.st ExName.N (λ N', N' = ns_move 1 ExName.a 3 (cstr "b") 2 ExName.N)
      (rename_error ExName.N 3 (cstr "b"))) noabort ExName.st.
Proof.
  apply (@rename_step ExPool.palloc ExPool.palloc_ok default_cfg eq_refl ExName.roots ExName.st ExName.D ExName.N 1 2 3
    (ExName.vnode0 1 None) (ExName.vnode0 2 None) (ExName.vnode0 3 (Some 1%positive)) 1 2 3 (InInode 1, 2%nat) (ExName.ent ExName.a 2) [InInode 1] [InInode 3]).
  - reflexivity.
  - apply exname_wf.
  - apply exname_fs.
  - reflexivity.
  - reflexivity.
  - reflexivity.
  - reflexivity.
  - reflexivity.
  - reflexivity.
  - done.
  - intros [?%elem_of_singleton|?%elem_of_singleton]%elem_of_union; done.
  - reflexivity.
  - reflexivity.
  - by left.
  - reflexivity.
  - apply exname_ent, exname_ok. reflexivity.
  - by intros [?|?].
  - by intros [?|?].
  - split_and!; [done|by apply Nat.leb_le| |done]. intros Hc%list_elem_of_singleton. discriminate Hc.
  - intros Hc%list_elem_of_singleton. discriminate Hc.
  - reflexivity.
  - intros [?%elem_of_singleton|?%elem_of_singleton]%elem_of_union; done.
  - reflexivity.
Defined.

(** A directory that was removed still accepts new directories: the entry ".."
    of the new one gives it a link before its link count is examined. *)
Lemma mkdir_in_removed_directory :
  match (_ ← tx_begin_cb (vinode_unlink_dir 1 (InInode 1, 3%nat) 3 (Time 5 0);; mret 0) onabort_errno;
         tx_begin_cb (_ ← @vinode_new_dir ExPool.palloc default_cfg (λ _, Time 5 0) (Some 3%positive) (cstr "b") 1 ExPool.cred0 0x1ed; mret 0)
           onabort_nospc) ExName.st with
  | Ok r s => r = 0 ∧ (inode_get_nlink <$> inode_lookup (po_pm s) 3) = Some 1 ∧ de_inode <$> dirent_lookup (po_pm s) (InInode 1, 3%nat) = Some None
  | _ => False
  end.
Proof. vm_compute. repeat split. Qed.
