(* ===== verification/PoolFile.v ===== *)
(** Creating, opening, closing, suspending and resuming a pool: pool.c and the
    functions of inode.c that only it calls. *)
From S2P Require Import Prelude Layout Inode Blocks OffsetMap FileState HashMap Creds CString Pool InodeArray Vinode Dir Namespace.

Definition PMEMFILE_ROOT_COUNT : nat := 4.
Definition ENODEV : Z := 19.

Definition PMEMFILE_SUPER_VERSION (a b : Z) : Z :=
  Z.lor 0x000056454C494650 (Z.lor (Z.shiftl (a + 48) 48) (Z.shiftl (b + 48) 56)).

Definition set_su_root_inode (i : nat) (o : oid) (s : super) : super :=
  Super (su_version s) (su_orphaned_inodes s) (su_suspended_inodes s) (<[i := Some o]> (su_root_inode s)).
Definition set_su_version v (s : super) : super := Super v (su_orphaned_inodes s) (su_suspended_inodes s) (su_root_inode s).
Definition set_su_orphaned o (s : super) : super := Super (su_version s) o (su_suspended_inodes s) (su_root_inode s).
Definition set_su_suspended o (s : super) : super := Super (su_version s) (su_orphaned_inodes s) o (su_root_inode s).
Definition super_upd (f : super → super) (p : ppool) : ppool := set_pp_super (f (pp_super p)) p.
Definition set_po_root x (s : pool) := Pool (po_pm s) (po_tx s) (po_vnodes s) (po_inode_map s) x (po_cwd s)
  (po_umask s) (po_cred s) (po_cred_rwlock s) (po_locks s) (po_dram s) (po_errno s) (po_ticks s).
Definition set_suspended_references x (i : inode) : inode :=
  Inode (i_version i) (i_uid i) (i_gid i) x (i_flags i) (i_allocated_space i) (i_size i) (i_nlink i) (i_atime i) (i_ctime i) (i_mtime i) (i_slots i).
Definition set_vn_suspended x (v : vnode) := Vnode (vn_ref v) (vn_tinode v) (vn_parent v) (vn_orphaned v) x (vn_atime v) (vn_atime_dirty v) (vn_file v).
Definition set_vn_file x (v : vnode) := Vnode (vn_ref v) (vn_tinode v) (vn_parent v) (vn_orphaned v) (vn_suspended v) (vn_atime v) (vn_atime_dirty v) x.
Definition set_vn_atime t dirty (v : vnode) := Vnode (vn_ref v) (vn_tinode v) (vn_parent v) (vn_orphaned v) (vn_suspended v) t dirty (vn_file v).

Section poolfile.
Context `{!PoolAlloc}.
Variables (cfg : block_cfg) (calloc_ok : nat → bool) (clock : nat → pmemfile_time) (ignore_free_errors : bool).
(** The version the library was built with. *)
Variables (MAJOR MINOR : Z).

Definition PMEMFILE_CUR_VERSION : Z := PMEMFILE_SUPER_VERSION MAJOR MINOR.

Definition inode_map_free : M pool unit :=
  m ← gets po_inode_map;
  ref_leaks ← hash_map_traverse (λ _ _, mret tt) m;
  (if negb (ref_leaks =? 0) then fault_ AssertFail else mret tt);;
  zoom po_dram set_po_dram (hash_map_free m).

(** The root directories, from number [i] on. *)
Fixpoint new_roots (cred : pmemfile_cred) (n i : nat) : M pool unit :=
  match n with
  | O => mret tt
  | S n' =>
      o ← vinode_new_dir cfg clock None (cstr "/") 1 cred PMEMFILE_ACCESSPERMS;
      pm_modify (super_upd (set_su_root_inode i o));;
      new_roots cred n' (S i)
  end.

Definition super_tx (cred : pmemfile_cred) : M pool Z :=
  tx_add (λ old, super_upd (λ _, pp_super old));;
  new_roots cred PMEMFILE_ROOT_COUNT 0;;
  pm_modify (super_upd (set_su_version PMEMFILE_CUR_VERSION));;
  orphaned ← inode_array_alloc cfg;
  pm_modify (super_upd (set_su_orphaned (Some orphaned)));;
  suspended ← inode_array_alloc cfg;
  pm_modify (super_upd (set_su_suspended (Some suspended)));;
  mret 0.

(** Volatile inodes for the roots: the result is an error code. *)
Fixpoint ref_roots (roots : list (option oid)) : M pool Z :=
  match roots with
  | [] => mret 0
  | o :: roots' =>
      v ← inode_ref calloc_ok o None;
      match v with
      | None => get_errno
      | Some v =>
          modify (λ s, set_po_root (po_root s ++ [v]) s);;
          vnode_modify v (set_vn_parent (Some v));;
          ref_roots roots'
      end
  end.

(** [initialize_super_block]; the allocation classes are part of [cfg]. *)
Definition initialize_super_block : M pool Z :=
  ASSERT_NOT_IN_TX;;
  super ← gets (λ s, pp_super (po_pm s));
  root0 ← of_option OutOfBounds (head (su_root_inode super));
  if bool_decide (is_Some root0) && negb (su_version super =? PMEMFILE_CUR_VERSION) then pool_fail EINVAL
  else
    '(r, cred) ← on_cred (cred_acquire calloc_ok);
    if negb (r =? 0) then e ← get_errno; pool_fail e
    else
      m ← zoom po_dram set_po_dram (hash_map_alloc calloc_ok);
      match m with
      | None => on_cred (cred_release cred);; pool_fail ENOMEM
      | Some m =>
          modify (set_po_inode_map m);;
          let fail (error : Z) : M pool Z := inode_map_free;; on_cred (cred_release cred);; pool_fail error in
          error ← (if bool_decide (root0 = None) then tx_begin_cb (super_tx cred) (λ e, mret e) else mret 0);
          if negb (error =? 0) then fail error
          else
            super ← gets (λ s, pp_super (po_pm s));
            error ← ref_roots (su_root_inode super);
            if negb (error =? 0) then fail error
            else
              root ← gets (λ s, head (po_root s));
              cwd ← vinode_ref root;
              modify (set_po_cwd cwd);;
              on_cred (cred_release cred);;
              mret 0
      end.

(** [pmemfile_pool_create] and [pmemfile_pool_open]: [pop] and [super] tell
    whether libpmemobj gave the pool and its root object, whose contents are in
    the state already. *)
Definition pmemfile_pool_create (pop : option Z) (super : bool) : M pool bool :=
  p ← pool_calloc calloc_ok;
  match p with
  | None => mret false
  | Some _ =>
      let fail (e : Z) : M pool bool := pool_free;; set_errno e;; mret false in
      match pop with
      | Some error => fail error
      | None =>
          if negb super then fail ENODEV
          else
            r ← initialize_super_block;
            if negb (r =? 0) then e ← get_errno; fail e else mret true
      end
  end.

Definition inode_trim_cb (inode : oid) : M pool unit :=
  i ← inode_get inode;
  assert_ (inode_get_nlink i =? 0);;
  inode_trim inode.

Definition inode_free_cb (inode : oid) : M pool unit :=
  i ← inode_get inode;
  assert_ (inode_get_nlink i =? 0);;
  inode_free inode.

(** The files deleted while they were open go away when the pool is opened. *)
Definition clean_orphaned : M pool unit :=
  orphaned ← gets (λ s, su_orphaned_inodes (pp_super (po_pm s)));
  empty ← inode_array_empty orphaned;
  o ← nonnull orphaned;
  small ← (if empty : bool then inode_array_is_small o else mret false);
  if empty && small then mret tt
  else
    inode_array_traverse orphaned inode_trim_cb;;
    tx_begin_cb
      (tx_add (λ old, super_upd (set_su_orphaned (su_orphaned_inodes (pp_super old))));;
       inode_array_traverse orphaned inode_free_cb;;
       inode_array_free orphaned;;
       new ← inode_array_alloc cfg;
       pm_modify (super_upd (set_su_orphaned (Some new))))
      (λ _, fault_ AssertFail).

Definition pmemfile_pool_open (pop : option Z) (super : bool) : M pool bool :=
  p ← pool_calloc calloc_ok;
  match p with
  | None => mret false
  | Some _ =>
      let fail (e : Z) : M pool bool := pool_free;; set_errno e;; mret false in
      match pop with
      | Some error => fail error
      | None =>
          if negb super then fail ENODEV
          else
            r ← initialize_super_block;
            if negb (r =? 0) then e ← get_errno; fail e
            else clean_orphaned;; mret true
      end
  end.

Fixpoint unref_all (vs : list positive) : M pool unit :=
  match vs with [] => mret tt | v :: vs' => vinode_unref ignore_free_errors (Some v);; unref_all vs' end.

Definition pmemfile_pool_close : M pool unit :=
  c ← gets po_cred;
  on_cred (cred_release c);;
  cwd ← gets po_cwd;
  vinode_unref ignore_free_errors (Some cwd);;
  roots ← gets po_root;
  unref_all roots;;
  inode_map_free;;
  pool_free.

(** ** Suspending and resuming; objects keep their addresses here, the code adds
    the distance between the two mappings *)

Definition vinode_suspend (v : positive) : M pool unit :=
  x ← vnode_get v;
  let tinode := vn_tinode x in
  tx_inode (λ old, set_suspended_references (i_suspended_references old))
    (λ i, set_suspended_references (u32 (i_suspended_references i + 1)) i) tinode;;
  (if vn_atime_dirty x then
     tx_inode (λ old i, set_i_atime (sset (s_atime (i_slots old)) (inode_get_atime old) (i_atime i)) i)
       (λ i, set_i_atime (sset (s_atime (i_slots i)) (vn_atime x) (i_atime i)) i) tinode
   else mret tt);;
  suspended ← gets (λ s, su_suspended_inodes (pp_super (po_pm s)));
  arr ← nonnull suspended;
  pos ← inode_array_add_ cfg arr tinode INODE_ARRAY_NOLOCK;
  vnode_modify v (set_vn_suspended (Some pos));;
  match v_blocks (vn_file x) with
  | Some m => zoom po_dram set_po_dram (offset_map_delete m)
  | None => mret tt
  end;;
  vnode_modify v (λ x, set_vn_file (set_blocks None (set_first_free None (set_first_block None (vn_file x)))) x).

Definition inode_resume (v : positive) : M pool unit :=
  x ← vnode_get v;
  match vn_suspended x with
  | None => fault_ AssertFail
  | Some (arr, idx) =>
      i ← inode_get (vn_tinode x);
      assert_ (0 <? i_suspended_references i);;
      tx_inode (λ old, set_suspended_references (i_suspended_references old))
        (λ i, set_suspended_references (u32 (i_suspended_references i - 1)) i) (vn_tinode x);;
      inode_array_unregister_ arr idx INODE_ARRAY_NOLOCK
  end.

Definition vinode_resume (v : positive) : M pool unit :=
  vnode_modify v (set_vn_suspended None);;
  x ← vnode_get v;
  i ← inode_get (vn_tinode x);
  vnode_modify v (set_vn_atime (inode_get_atime i) false).

(** [pmemfile_pool_resume] once libpmemobj has opened the pool again. *)
Definition pmemfile_pool_resume : M pool Z :=
  m ← gets po_inode_map;
  error ← tx_begin_cb (_ ← hash_map_traverse (λ _ v, inode_resume v) m; mret 0) (λ _, mret (-1));
  if negb (error =? 0) then mret (-1)
  else _ ← hash_map_traverse (λ _ v, vinode_resume v) m; mret 0.

Definition pmemfile_pool_suspend : M pool Z :=
  m ← gets po_inode_map;
  error ← tx_begin_cb (_ ← hash_map_traverse (λ _ v, vinode_suspend v) m; mret 0) (λ _, mret (-1));
  if negb (error =? 0) then mret (-1) else mret 0.
End poolfile.
