(* ===== verification/File.v ===== *)
(** Open files: file.c, fcntl.c, mknod.c, the path part of truncate.c, and the
    calls that are not supported (copy_file_range.c, flock.c, mmap.c); with the
    operations of an open regular file ([FileIO]) inside the state of a pool. *)
From S2P Require Import Prelude Layout Inode Blocks OffsetMap FileState BlockArray Data FileIO HashMap Creds CString Pool InodeArray Vinode Dir Namespace PoolFile.

Definition PMEMFILE_O_RDONLY : Z := 0x0.
Definition PMEMFILE_O_WRONLY : Z := 0x1.
Definition PMEMFILE_O_RDWR : Z := 0x2.
Definition PMEMFILE_O_ACCMODE : Z := 0x3.
Definition PMEMFILE_O_CREAT : Z := 0x40.
Definition PMEMFILE_O_EXCL : Z := 0x80.
Definition PMEMFILE_O_NOCTTY : Z := 0x100.
Definition PMEMFILE_O_TRUNC : Z := 0x200.
Definition PMEMFILE_O_APPEND : Z := 0x400.
Definition PMEMFILE_O_NONBLOCK : Z := 0x800.
Definition PMEMFILE_O_DSYNC : Z := 0x1000.
Definition PMEMFILE_O_SYNC : Z := 0x101000.
Definition PMEMFILE_O_ASYNC : Z := 0x2000.
Definition PMEMFILE_O_DIRECT : Z := 0x4000.
Definition PMEMFILE_O_LARGEFILE : Z := 0.
Definition PMEMFILE_O_DIRECTORY : Z := 0x10000.
Definition PMEMFILE_O_NOFOLLOW : Z := 0x20000.
Definition PMEMFILE_O_NOATIME : Z := 0x40000.
Definition PMEMFILE_O_CLOEXEC : Z := 0x80000.
Definition PMEMFILE_O_PATH : Z := 0x200000.
Definition PMEMFILE_O_TMPFILE : Z := Z.lor 0x400000 PMEMFILE_O_DIRECTORY.
Definition ENOTSUP : Z := EOPNOTSUPP.

Definition PMEMFILE_ALLPERMS : Z := 0xfff.
Definition PMEMFILE_S_ISUID : Z := 0x800.
Definition PMEMFILE_S_ISGID : Z := 0x400.

(** ** An open file ([struct pmemfile_file]) *)

(** [pf_io] holds the fields used for regular files, [pf_dir] and [pf_dir_id]
    the position in a directory.  The mutex is free between the calls. *)
Record pmemfile_file := PMEMfile {
  pf_vinode : positive;
  pf_io : pfile;
  pf_dir : option dirp;
  pf_dir_id : Z;
}.

Definition pf_flags (f : pmemfile_file) : Z := f_flags (pf_io f).
Definition pf_offset (f : pmemfile_file) : Z := f_offset (pf_io f).
Definition set_pf_io x (f : pmemfile_file) := PMEMfile (pf_vinode f) x (pf_dir f) (pf_dir_id f).
Definition set_pf_flags x (f : pmemfile_file) :=
  set_pf_io (PFile x (f_offset (pf_io f)) (f_block_pointer_cache (pf_io f)) (f_last_block_pointer_invalidation_observed (pf_io f))) f.

(** ** The data path of a file of the pool *)

(** The state of the vinode [v] with the handle [f]; inodes of other types have
    no blocks. *)
Definition pool_io (v : positive) (f : pfile) (s : pool) : option io :=
  x ← po_vnodes s !! v;
  i ← pp_inodes (po_pm s) !! vn_tinode x;
  let '(arrays, data) := match mi_data i with DataBlocks a d => (a, d) | _ => (∅, ∅) end in
  Some (Io (FState (Pmem arrays data (mi_inode i)) None (vn_file x) (po_dram s)) (vn_atime x) (vn_atime_dirty x) f
          (default Unlocked (po_locks s !! LVinode v)) false (po_errno s) (po_ticks s)).

Definition set_vn_io (w : io) (x : vnode) : vnode :=
  Vnode (vn_ref x) (vn_tinode x) (vn_parent x) (vn_orphaned x) (vn_suspended x) (io_atime w) (io_atime_dirty w) (fs_v (io_fs w)).
Definition set_mi_io (w : io) (i : minode) : minode :=
  let p := fs_pm (io_fs w) in
  Minode (pm_inode p) (match mi_data i with DataBlocks _ _ => DataBlocks (pm_arrays p) (pm_data p) | d => d end).
Definition set_lock_io (v : positive) (w : io) (l : gmap lockid lock_state) : gmap lockid lock_state :=
  match io_rwlock w with Unlocked => delete (LVinode v) l | m => <[LVinode v := m]> l end.

Definition io_pool (v : positive) (w : io) (s : pool) : pool :=
  let tinode := from_option vn_tinode 1%positive (po_vnodes s !! v) in
  set_po_ticks (io_ticks w) (set_po_errno (io_errno w) (set_po_dram (fs_dram (io_fs w)) (set_po_locks (set_lock_io v w (po_locks s))
    (set_po_pm (set_pp_inodes (alter (set_mi_io w) tinode (pp_inodes (po_pm s))) (po_pm s))
      (set_po_vnodes (alter (set_vn_io w) v (po_vnodes s)) s))))).

(** A call on the data of [v]; its transactions are its own. *)
Definition on_io {A} (v : positive) (f : pfile) (m : M io A) : M pool (A * pfile) := λ s,
  match po_tx s, pool_io v f s with
  | None, Some w =>
      match m w with
      | Ok a w' => Ok (a, io_file w') (io_pool v w' s)
      | Abort e w' => Abort e (io_pool v w' s)
      | Fault f => Fault f
      end
  | Some _, _ => Fault AssertFail
  | None, None => Fault BadPointer
  end.

(** A call on an open file. *)
Definition on_pmemfile {A} (file : pmemfile_file) (m : M io A) : M pool (A * pmemfile_file) :=
  '(a, f) ← on_io (pf_vinode file) (pf_io file) m; mret (a, set_pf_io f file).

Definition zero_pfile : pfile := PFile 0 0 None 0.

(** ** file.c *)

Definition is_tmpfile (flags : Z) : bool := Z.land flags PMEMFILE_O_TMPFILE =? PMEMFILE_O_TMPFILE.

(** [if (flags & f) flags &= ~f;] *)
Definition drop_flag (f flags : Z) : Z := if has flags f then Z.ldiff flags f else flags.

(** [check_flags]; [false] is the return value -1 with errno EINVAL. *)
Definition check_flags (flags : Z) : bool :=
  let flags := drop_flag PMEMFILE_O_APPEND flags in
  if has flags PMEMFILE_O_ASYNC then false
  else
    let flags := drop_flag PMEMFILE_O_CREAT flags in
    let flags := drop_flag PMEMFILE_O_CLOEXEC flags in
    let flags := drop_flag PMEMFILE_O_DIRECT flags in
    let flags := if is_tmpfile flags then Z.ldiff flags PMEMFILE_O_TMPFILE else flags in
    let flags := drop_flag PMEMFILE_O_DIRECTORY flags in
    let flags := drop_flag PMEMFILE_O_DSYNC flags in
    let flags := drop_flag PMEMFILE_O_EXCL flags in
    let flags := drop_flag PMEMFILE_O_NOCTTY flags in
    let flags := drop_flag PMEMFILE_O_NOATIME flags in
    let flags := drop_flag PMEMFILE_O_NOFOLLOW flags in
    let flags := drop_flag PMEMFILE_O_NONBLOCK flags in
    let flags := drop_flag PMEMFILE_O_PATH flags in
    let flags := drop_flag PMEMFILE_O_SYNC flags in
    let flags := drop_flag PMEMFILE_O_TRUNC flags in
    let flags := if Z.land flags PMEMFILE_O_ACCMODE =? PMEMFILE_O_RDONLY then flags - PMEMFILE_O_RDONLY else flags in
    let flags := if Z.land flags PMEMFILE_O_ACCMODE =? PMEMFILE_O_WRONLY then flags - PMEMFILE_O_WRONLY else flags in
    let flags := if Z.land flags PMEMFILE_O_ACCMODE =? PMEMFILE_O_RDWR then flags - PMEMFILE_O_RDWR else flags in
    flags =? 0.

Section file.
Context `{!PoolAlloc} `{!Pobj}.
Variables (cfg : block_cfg) (calloc_ok : nat → bool) (overallocate_on_append : bool) (clock : nat → pmemfile_time) (ignore_free_errors : bool).

Notation unref v := (vinode_unref ignore_free_errors v).
(** [if (v) vinode_unref(pfp, v);] *)
Definition unref_opt (v : option positive) : M pool unit := match v with Some _ => unref v | None => mret tt end.

(** The loop of [_pmemfile_openat] that looks the file up and follows symbolic
    links: error, vinode, vparent and path information at its end.  Nothing bounds the
    number of links, [fuel] stands for the time the caller waits.  In the first
    round [vparent] is NULL. *)
Fixpoint open_resolve (fuel : nat) (cred : pmemfile_cred) (flags : Z) (info : path_info) (vparent : option positive)
    : M pool (Z * option positive * option positive * path_info) :=
  match fuel with
  | O => fault_ NoFuel
  | S fuel' =>
      if negb (pi_error info =? 0) then mret (pi_error info, None, vparent, info)
      else
        vparent ← vinode_ref (pi_parent info);
        remaining ← nonnull (pi_remaining info);
        let namelen := component_length remaining in
        vinode ←
          (if (namelen =? 0)%nat then
             r ← vinode_is_root vparent;
             assert_ r;;
             v ← vinode_ref (Some vparent);
             mret (Some v)
           else vinode_lookup_dirent calloc_ok vparent remaining namelen 0);
        sym ← match vinode with Some v => vinode_is_symlink v | None => mret false end;
        match vinode with
        | Some v =>
            if sym : bool then
              if has flags PMEMFILE_O_NOFOLLOW then mret (ELOOP, vinode, Some vparent, info)
              else if Z.land flags (Z.lor PMEMFILE_O_CREAT PMEMFILE_O_EXCL) =? Z.lor PMEMFILE_O_CREAT PMEMFILE_O_EXCL then
                mret (0, vinode, Some vparent, info)
              else
                info ← resolve_symlink calloc_ok ignore_free_errors cred v info;
                unref (Some vparent);;
                open_resolve fuel' cred flags info (Some vparent)
            else mret (0, vinode, Some vparent, info)
        | None => mret (0, vinode, Some vparent, info)
        end
  end.

(** The checks that depend on whether the file exists. *)
Definition open_check_name (flags : Z) (tmpfile : bool) (vinode : option positive) (vparent : positive) (remaining : cstring) : M pool Z :=
  isdir ← match vinode with Some v => vinode_is_dir v | None => mret false end;
  if bool_decide (is_Some vinode) && negb isdir && bool_decide (is_Some (strchr remaining SLASH)) then mret ENOTDIR
  else if tmpfile then
    if bool_decide (vinode = None) then mret ENOENT
    else if negb isdir then mret ENOTDIR
    else if Z.land flags PMEMFILE_O_ACCMODE =? PMEMFILE_O_RDONLY then mret EINVAL
    else mret 0
  else if Z.land flags (Z.lor PMEMFILE_O_CREAT PMEMFILE_O_EXCL) =? Z.lor PMEMFILE_O_CREAT PMEMFILE_O_EXCL then
    if bool_decide (is_Some vinode) then mret EEXIST
    else d ← vinode_is_dir vparent; if negb d then mret ENOTDIR else mret 0
  else if Z.land flags PMEMFILE_O_CREAT =? PMEMFILE_O_CREAT then mret 0
  else if bool_decide (vinode = None) then mret ENOENT
  else mret 0.

(** The checks on an existing file. *)
Definition open_check_file (cred : pmemfile_cred) (flags : Z) (v : positive) : M pool Z :=
  let accmode := Z.land flags PMEMFILE_O_ACCMODE in
  error ←
    (if negb (has flags PMEMFILE_O_PATH) then
       if accmode =? PMEMFILE_O_ACCMODE then mret EINVAL
       else
         let acc2 :=
           if accmode =? PMEMFILE_O_RDWR then Z.lor PFILE_WANT_READ PFILE_WANT_WRITE
           else if accmode =? PMEMFILE_O_RDONLY then PFILE_WANT_READ
           else PFILE_WANT_WRITE in
         acc ← vinode_can_access cred v acc2;
         if negb acc then mret EACCES else mret 0
     else mret 0);
  if negb (error =? 0) then mret error
  else
    isdir ← vinode_is_dir v;
    if has flags PMEMFILE_O_DIRECTORY && negb isdir then mret ENOTDIR
    else if ((accmode =? PMEMFILE_O_WRONLY) || (accmode =? PMEMFILE_O_RDWR)) && isdir then mret EISDIR
    else if has flags PMEMFILE_O_TRUNC then
      reg ← vinode_is_regular_file v;
      if negb reg then mret EINVAL
      else if accmode =? PMEMFILE_O_RDONLY then mret EACCES
      else mret 0
    else mret 0.

Definition open_file_flags (flags : Z) : Z :=
  let accmode := Z.land flags PMEMFILE_O_ACCMODE in
  let f :=
    if has flags PMEMFILE_O_PATH then PFILE_PATH
    else if accmode =? PMEMFILE_O_RDONLY then PFILE_READ
    else if accmode =? PMEMFILE_O_WRONLY then PFILE_WRITE
    else if accmode =? PMEMFILE_O_RDWR then Z.lor PFILE_READ PFILE_WRITE
    else 0 in
  let f := if has flags PMEMFILE_O_NOATIME then Z.lor f PFILE_NOATIME else f in
  if has flags PMEMFILE_O_APPEND then Z.lor f PFILE_APPEND else f.

(** The transaction that creates the file. *)
Definition create_tx (cred : pmemfile_cred) (mode : Z) (tmpfile : bool) (vparent : positive) (remaining : cstring) (namelen : nat)
    : M pool (Z * option (oid * option (oid * nat))) :=
  tinode ← inode_alloc cfg clock cred (Z.lor PMEMFILE_S_IFREG mode);
  if tmpfile then pos ← inode_orphan cfg tinode; mret (0, Some (tinode, Some pos))
  else
    i ← inode_get tinode;
    p ← vnode_get vparent;
    inode_add_dirent cfg (vn_tinode p) remaining namelen tinode (inode_get_ctime i);;
    mret (0, Some (tinode, None)).

Definition open_create (cred : pmemfile_cred) (mode : Z) (tmpfile : bool) (vparent : positive) (remaining : cstring) (namelen : nat)
    : M pool (Z * option positive) :=
  lock (LVinode vparent) WrLocked;;
  acc ← vinode_can_access_locked cred vparent PFILE_WANT_WRITE;
  if negb acc then unlock (LVinode vparent);; mret (EACCES, None)
  else
    (if tmpfile then lock LSuper WrLocked else mret tt);;
    '(error, created) ←
      tx_begin_cb (create_tx cred mode tmpfile vparent remaining namelen) (λ e, e ← onabort_nospc e; mret (e, None));
    (if tmpfile then unlock LSuper else mret tt);;
    match created with
    | None => unlock (LVinode vparent);; mret (error, None)
    | Some (tinode, orphan_info) =>
        vinode ← inode_ref calloc_ok (Some tinode) (Some vparent);
        match vinode with
        | None => error ← get_errno; unlock (LVinode vparent);; mret (error, None)
        | Some v =>
            (if tmpfile then vnode_modify v (set_vn_orphaned orphan_info) else mret tt);;
            unlock (LVinode vparent);;
            mret (0, Some v)
        end
    end.

(** Truncation and the set-id bits of an existing file. *)
Definition open_existing (cred : pmemfile_cred) (flags file_flags : Z) (v : positive) : M pool Z :=
  error ←
    (if has flags PMEMFILE_O_TRUNC then
       lock (LVinode v) WrLocked;;
       '(error, _) ← on_io v zero_pfile (vinode_truncate cfg calloc_ok overallocate_on_append clock 0);
       unlock (LVinode v);;
       mret error
     else mret 0);
  if negb (error =? 0) then mret error
  else if has file_flags PFILE_WRITE then
    let clrflags := Z.lor PMEMFILE_S_ISUID PMEMFILE_S_ISGID in
    x ← vnode_get v;
    i ← inode_get (vn_tinode x);
    let iflags := inode_get_flags i in
    if has iflags clrflags && negb (fsuid cred =? i_uid i) then
      tx_begin_cb (tx_inode undo_flags (inode_tx_set_flags (Z.ldiff iflags clrflags)) (vn_tinode x);; mret 0) onabort_errno
    else mret 0
  else mret 0.

(** [_pmemfile_openat]; [mode] is the variadic argument. *)
Definition openat_ (fuel : nat) (dir : option positive) (pathname : cstring) (flags mode : Z) : M pool (option pmemfile_file) :=
  let flags := if has flags PMEMFILE_O_PATH then Z.land flags (Z.lor PMEMFILE_O_PATH (Z.lor PMEMFILE_O_NOFOLLOW PMEMFILE_O_CLOEXEC)) else flags in
  if negb (check_flags flags) then set_errno EINVAL;; mret None
  else
    let tmpfile := is_tmpfile flags in
    umask ← gets po_umask;
    let mode := if has flags PMEMFILE_O_CREAT || tmpfile then Z.ldiff (Z.land mode PMEMFILE_ALLPERMS) umask else 0 in
    '(r, cred) ← on_cred (cred_acquire calloc_ok);
    if negb (r =? 0) then mret None
    else
      info ← resolve_pathat calloc_ok ignore_free_errors cred dir pathname 0;
      '(error, vinode, vparent, info) ← open_resolve fuel cred flags info None;
      (* the code from the label end on *)
      let end_ (error : Z) (vinode vparent : option positive) (file : option pmemfile_file) (allocated : bool) : M pool (option pmemfile_file) :=
        unref_opt vparent;;
        path_info_cleanup ignore_free_errors info;;
        on_cred (cred_release cred);;
        if negb (error =? 0) then
          unref_opt vinode;;
          (if allocated then pool_free else mret tt);;
          set_errno error;;
          mret None
        else mret file in
      if negb (error =? 0) then end_ error vinode vparent None false
      else
        remaining ← nonnull (pi_remaining info);
        let namelen := component_length remaining in
        vp ← nonnull vparent;
        error ← open_check_name flags tmpfile vinode vp remaining;
        if negb (error =? 0) then end_ error vinode vparent None false
        else
          (if tmpfile then unref vparent else mret tt);;
          let '(vinode, vparent) := if tmpfile then (None, vinode) else (vinode, vparent) in
          error ← match vinode with Some v => open_check_file cred flags v | None => mret 0 end;
          if negb (error =? 0) then end_ error vinode vparent None false
          else
            file ← pool_calloc calloc_ok;
            match file with
            | None => error ← get_errno; end_ error vinode vparent None false
            | Some _ =>
                let file_flags := open_file_flags flags in
                ASSERT_NOT_IN_TX;;
                '(error, vinode) ←
                  match vinode with
                  | None => vp ← nonnull vparent; open_create cred mode tmpfile vp remaining namelen
                  | Some v => error ← open_existing cred flags file_flags v; mret (error, vinode)
                  end;
                if negb (error =? 0) then end_ error vinode vparent None true
                else
                  v ← nonnull vinode;
                  x ← vnode_get v;
                  d ← vinode_is_dir v;
                  end_ 0 vinode vparent (Some (PMEMfile v (PFile file_flags 0 None 0) (if d : bool then Some (InInode (vn_tinode x)) else None) 0)) true
            end.

(** The public calls with a directory argument; [failed] tells whether errno has to be kept. *)
Definition with_dir_for {A} (failed : A → bool) (dir : at_dir) (path : cstring) (body : option positive → M pool A) : M pool A :=
  '(at_, at_unref) ← pool_get_dir_for_path dir path;
  ret ← body at_;
  (if at_unref : bool then vinode_cleanup ignore_free_errors at_ (failed ret) else mret tt);;
  mret ret.

Definition is_null {A} (x : option A) : bool := match x with None => true | Some _ => false end.

Definition pmemfile_openat (fuel : nat) (pfp : bool) (dir : at_dir) (pathname : option cstring) (flags mode : Z) : M pool (option pmemfile_file) :=
  if negb pfp then set_errno EFAULT;; mret None
  else match pathname with
       | None => set_errno ENOENT;; mret None
       | Some pathname =>
           if bad_dir dir pathname then set_errno EFAULT;; mret None
           else
             let mode := if has flags PMEMFILE_O_CREAT || is_tmpfile flags then mode else 0 in
             with_dir_for is_null dir pathname (λ at_, openat_ fuel at_ pathname flags mode)
       end.

Definition pmemfile_open (fuel : nat) (pfp : bool) (pathname : option cstring) (flags mode : Z) : M pool (option pmemfile_file) :=
  let mode := if has flags PMEMFILE_O_CREAT || is_tmpfile flags then mode else 0 in
  pmemfile_openat fuel pfp AtCwd pathname flags mode.

Definition pmemfile_pool_root_count (pfp : bool) : nat := if pfp then PMEMFILE_ROOT_COUNT else 0.

Definition pmemfile_open_root (fuel : nat) (pfp : bool) (index : nat) (flags : Z) : M pool (option pmemfile_file) :=
  if negb (flags =? 0) || (pmemfile_pool_root_count pfp <=? index)%nat then set_errno EINVAL;; mret None
  else
    roots ← gets po_root;
    root ← of_option OutOfBounds (roots !! index);
    openat_ fuel (Some root) (cstr ".") PMEMFILE_O_PATH 0.

Definition pmemfile_create (fuel : nat) (pfp : bool) (pathname : option cstring) (mode : Z) : M pool (option pmemfile_file) :=
  pmemfile_open fuel pfp pathname (Z.lor PMEMFILE_O_CREAT (Z.lor PMEMFILE_O_WRONLY PMEMFILE_O_TRUNC)) mode.

(** The loop of [pmemfile_open_parent]. *)
Fixpoint open_parent_loop (fuel : nat) (cred : pmemfile_cred) (flags : Z) (info : path_info) : M pool (Z * path_info) :=
  match fuel with
  | O => fault_ NoFuel
  | S fuel' =>
      match pi_parent info with
      | None => mret (ELOOP, info)
      | Some vparent =>
          if negb (has flags PMEMFILE_OPEN_PARENT_SYMLINK_FOLLOW) then mret (0, info)
          else
            remaining ← nonnull (pi_remaining info);
            let namelen := component_length remaining in
            if more_than_1_component remaining then mret (0, info)
            else if (namelen =? 0)%nat then mret (0, info)
            else
              vinode ← vinode_lookup_dirent calloc_ok vparent remaining namelen 0;
              match vinode with
              | None => mret (0, info)
              | Some v =>
                  sym ← vinode_is_symlink v;
                  if sym : bool then
                    info ← resolve_symlink calloc_ok ignore_free_errors cred v info;
                    open_parent_loop fuel' cred flags info
                  else unref (Some v);; mret (0, info)
              end
      end
  end.

(** The part of the path that was not resolved, cut to the caller's buffer. *)
Definition parent_rest (remaining : cstring) (path_size : Z) : M pool cstring :=
  let len := Z.of_nat (strlen remaining) in
  let len := if path_size <=? len then u64 (path_size - 1) else len in
  if Z.of_nat (length remaining) <? len then fault_ OutOfBounds else mret (take (Z.to_nat len) remaining).

(** The second result is what [path] holds afterwards. *)
Definition pmemfile_open_parent (fuel : nat) (pfp : bool) (dir : at_dir) (path : option cstring) (path_size flags : Z)
    : M pool (option (pmemfile_file * cstring)) :=
  if negb pfp then set_errno EFAULT;; mret None
  else match path with
       | None => set_errno ENOENT;; mret None
       | Some path =>
           if bad_dir dir path then set_errno EFAULT;; mret None
           else if Z.land flags PMEMFILE_OPEN_PARENT_ACCESS_MASK =? PMEMFILE_OPEN_PARENT_ACCESS_MASK then set_errno EINVAL;; mret None
           else if negb (Z.ldiff flags (Z.lor PMEMFILE_OPEN_PARENT_STOP_AT_ROOT
                           (Z.lor PMEMFILE_OPEN_PARENT_SYMLINK_FOLLOW PMEMFILE_OPEN_PARENT_ACCESS_MASK)) =? 0) then set_errno EINVAL;; mret None
           else
             '(r, cred) ← on_cred (cred_acquire calloc_ok);
             if negb (r =? 0) then mret None
             else
               '(at_, at_unref) ← pool_get_dir_for_path dir path;
               info ← resolve_pathat calloc_ok ignore_free_errors cred at_ path flags;
               '(error, info) ← open_parent_loop fuel cred flags info;
               '(error, ret) ←
                 (if negb (error =? 0) then mret (error, None)
                  else
                    file ← pool_calloc calloc_ok;
                    match file with
                    | None => error ← get_errno; mret (error, None)
                    | Some _ =>
                        v ← vinode_ref (pi_parent info);
                        remaining ← nonnull (pi_remaining info);
                        rest ← parent_rest remaining path_size;
                        mret (0, Some (PMEMfile v (PFile (Z.lor PFILE_READ PFILE_NOATIME) 0 None 0) None 0, rest))
                    end);
               path_info_cleanup ignore_free_errors info;;
               on_cred (cred_release cred);;
               (if at_unref : bool then unref at_ else mret tt);;
               if negb (error =? 0) then set_errno error;; mret None else mret ret
       end.

Definition pmemfile_close (file : pmemfile_file) : M pool unit := unref (Some (pf_vinode file));; pool_free.

Definition pmemfile_umask (mask : Z) : M pool Z :=
  prev_umask ← gets po_umask; modify (set_po_umask mask);; mret prev_umask.

(** ** mknod.c *)

Definition pmemfile_mknodat (fuel : nat) (pfp : bool) (dir : at_dir) (path : option cstring) (mode : Z) : M pool Z :=
  let fmt := Z.land mode PMEMFILE_S_IFMT in
  if (fmt =? PMEMFILE_S_IFREG) || (fmt =? 0) then
    f ← pmemfile_openat fuel pfp dir path (Z.lor PMEMFILE_O_CREAT PMEMFILE_O_EXCL) mode;
    match f with
    | None => mret (-1)
    | Some f => pmemfile_close f;; mret 0
    end
  else pool_fail ENOTSUP.

(** ** truncate.c *)

Definition pmemfile_truncate (fuel : nat) (pfp : bool) (path : option cstring) (length : Z) : M pool Z :=
  if negb pfp then pool_fail EFAULT
  else match path with
       | None => pool_fail EFAULT
       | Some path =>
           if length <? 0 then pool_fail EINVAL
           else
             with_cred calloc_ok (λ cred,
               '(vparent, unref_vparent) ←
                 (if bool_decide (char_at path 0 = SLASH) then
                    roots ← gets po_root; root ← of_option OutOfBounds (roots !! 0%nat); mret (root, false)
                  else v ← pool_get_cwd; mret (v, true));
               '(vinode, info) ← resolve_pathat_full calloc_ok ignore_free_errors fuel cred (Some vparent) path 0 true;
               error ←
                 (if negb (pi_error info =? 0) then mret (pi_error info)
                  else
                    v ← nonnull vinode;
                    acc ← vinode_can_access_locked cred v PFILE_WANT_WRITE;
                    if negb acc then mret EACCES
                    else
                      d ← vinode_is_dir v;
                      if d : bool then mret EISDIR
                      else '(error, _) ← on_io v zero_pfile (ftruncate_vinode cfg calloc_ok overallocate_on_append clock (u64 length)); mret error);
               path_info_cleanup ignore_free_errors info;;
               on_cred (cred_release cred);;
               ASSERT_NOT_IN_TX;;
               unref_opt vinode;;
               (if unref_vparent : bool then unref (Some vparent) else mret tt);;
               return_error error)
       end.

(** ** fcntl.c *)

Definition PMEMFILE_F_GETFD : Z := 1.
Definition PMEMFILE_F_SETFD : Z := 2.
Definition PMEMFILE_F_GETFL : Z := 3.
Definition PMEMFILE_F_SETFL : Z := 4.
Definition PMEMFILE_F_GETLK : Z := 5.
Definition PMEMFILE_F_SETLK : Z := 6.
Definition PMEMFILE_F_SETLKW : Z := 7.
Definition PMEMFILE_F_UNLCK : Z := 2.
Definition PMEMFILE_FD_CLOEXEC : Z := 1.

(** [F_GETFL] *)
Definition fcntl_getfl (flags : Z) : Z :=
  if has flags PFILE_PATH then PMEMFILE_O_PATH
  else
    let ret := PMEMFILE_O_LARGEFILE in
    let ret := if has flags PFILE_APPEND then Z.lor ret PMEMFILE_O_APPEND else ret in
    let ret := if has flags PFILE_NOATIME then Z.lor ret PMEMFILE_O_NOATIME else ret in
    if Z.land flags (Z.lor PFILE_READ PFILE_WRITE) =? Z.lor PFILE_READ PFILE_WRITE then Z.lor ret PMEMFILE_O_RDWR
    else if Z.land flags PFILE_READ =? PFILE_READ then Z.lor ret PMEMFILE_O_RDONLY
    else if Z.land flags PFILE_WRITE =? PFILE_WRITE then Z.lor ret PMEMFILE_O_WRONLY
    else ret.

(** [F_SETFL]: the new flags of the handle, or [None] for EINVAL. *)
Definition fcntl_setfl (flags fl_flags : Z) : option Z :=
  let fl_flags := Z.ldiff fl_flags (Z.lor PMEMFILE_O_ACCMODE (Z.lor PMEMFILE_O_CREAT (Z.lor PMEMFILE_O_EXCL (Z.lor PMEMFILE_O_NOCTTY
                    (Z.lor PMEMFILE_O_TRUNC (Z.lor PMEMFILE_O_SYNC PMEMFILE_O_DSYNC)))))) in
  if has fl_flags PMEMFILE_O_ASYNC then None
  else
    let supported_flags := Z.lor PMEMFILE_O_APPEND (Z.lor PMEMFILE_O_DIRECT (Z.lor PMEMFILE_O_NOATIME PMEMFILE_O_NONBLOCK)) in
    if negb (Z.ldiff fl_flags supported_flags =? 0) then None
    else
      let flags := if has fl_flags PMEMFILE_O_APPEND then Z.lor flags PFILE_APPEND else Z.ldiff flags PFILE_APPEND in
      Some (if has fl_flags PMEMFILE_O_NOATIME then Z.lor flags PFILE_NOATIME else Z.ldiff flags PFILE_NOATIME).

(** The second result is the handle afterwards, the third what [F_GETLK] stores
    in [l_type]; [arg] is the integer argument of the commands that have one. *)
Definition pmemfile_fcntl (pfp : bool) (file : option pmemfile_file) (cmd arg : Z) : M pool (Z * option pmemfile_file * option Z) :=
  let fail e := r ← pool_fail e; mret (r, file, None) in
  if negb pfp then fail EFAULT
  else match file with
       | None => fail EFAULT
       | Some f =>
           if (cmd =? PMEMFILE_F_SETLKW) || (cmd =? PMEMFILE_F_SETLK) then
             if has (pf_flags f) PFILE_PATH then fail EBADF else mret (0, file, None)
           else if cmd =? PMEMFILE_F_GETLK then
             if has (pf_flags f) PFILE_PATH then fail EBADF else mret (0, file, Some PMEMFILE_F_UNLCK)
           else if cmd =? PMEMFILE_F_GETFL then mret (fcntl_getfl (pf_flags f), file, None)
           else if cmd =? PMEMFILE_F_SETFL then
             match fcntl_setfl (pf_flags f) arg with
             | None => fail EINVAL
             | Some flags => mret (0, Some (set_pf_flags flags f), None)
             end
           else if cmd =? PMEMFILE_F_GETFD then mret (PMEMFILE_FD_CLOEXEC, file, None)
           else if cmd =? PMEMFILE_F_SETFD then
             if negb (has arg PMEMFILE_FD_CLOEXEC) then fail EINVAL
             else if negb (Z.ldiff arg PMEMFILE_FD_CLOEXEC =? 0) then fail EINVAL
             else mret (0, file, None)
           else fail ENOTSUP
       end.

(** ** Calls that are not supported *)

Definition pmemfile_copy_file_range : M pool Z := pool_fail ENOTSUP.
Definition pmemfile_flock : M pool Z := pool_fail ENOTSUP.
(** [None] is PMEMFILE_MAP_FAILED. *)
Definition pmemfile_mmap : M pool (option positive) := set_errno ENOTSUP;; mret None.
Definition pmemfile_munmap : M pool Z := pool_fail ENOTSUP.
Definition pmemfile_mremap : M pool (option positive) := set_errno ENOTSUP;; mret None.
Definition pmemfile_msync : M pool Z := pool_fail ENOTSUP.
Definition pmemfile_mprotect : M pool Z := pool_fail ENOTSUP.
End file.
