(* ===== verification/Attr.v ===== *)
(** Attributes of files: access.c, chdir.c, chmod.c, chown.c, timestamps.c,
    stat.c, readlink.c and statfs.c. *)
From S2P Require Import Prelude Layout Inode Blocks OffsetMap FileState BlockArray Data FileIO HashMap Creds CString Pool InodeArray Vinode Dir Namespace PoolFile File.

Definition EOVERFLOW : Z := 75.
Definition PMEMFILE_AT_SYMLINK_NOFOLLOW : Z := 0x100.
Definition PMEMFILE_AT_NO_AUTOMOUNT : Z := 0x800.
Definition PMEMFILE_AT_EACCESS : Z := 0x200.
Definition PMEMFILE_R_OK : Z := 4.
Definition PMEMFILE_W_OK : Z := 2.
Definition PMEMFILE_X_OK : Z := 1.
Definition PMEMFILE_UTIME_NOW : Z := Z.shiftl 1 30 - 1.
Definition PMEMFILE_UTIME_OMIT : Z := Z.shiftl 1 30 - 2.

(** [(pmemfile_uid_t)-1] *)
Definition NO_ID : Z := UINT32_MAX.

Definition undo_atime (old : inode) (i : inode) :=
  set_i_atime (sset (s_atime (i_slots old)) (inode_get_atime old) (i_atime i)) i.
Definition set_i_ids (uid gid : Z) (i : inode) : inode :=
  Inode (i_version i) uid gid (i_suspended_references i) (i_flags i) (i_allocated_space i) (i_size i) (i_nlink i)
    (i_atime i) (i_ctime i) (i_mtime i) (i_slots i).

Section attr.
Context `{!PoolAlloc} `{!Pobj}.
Variables (cfg : block_cfg) (calloc_ok : nat → bool) (overallocate_on_append : bool) (clock : nat → pmemfile_time) (ignore_free_errors : bool).

Notation unref v := (vinode_unref ignore_free_errors v).

(** The end of the calls that looked [vinode] up. *)
Definition vinode_end (cred : pmemfile_cred) (info : path_info) (vinode : option positive) (error : Z) : M pool Z :=
  path_info_cleanup ignore_free_errors info;;
  on_cred (cred_release cred);;
  ASSERT_NOT_IN_TX;;
  unref_opt ignore_free_errors vinode;;
  return_error error.

(** [resolve_pathat_full] and, unless it failed, [body]. *)
Definition with_vinode (fuel : nat) (cred : pmemfile_cred) (dir : option positive) (path : cstring) (resolve_flags : Z) (resolve_last : bool)
    (body : positive → M pool Z) : M pool Z :=
  '(vinode, info) ← resolve_pathat_full calloc_ok ignore_free_errors fuel cred dir path resolve_flags resolve_last;
  error ← (if negb (pi_error info =? 0) then mret (pi_error info) else v ← nonnull vinode; body v);
  vinode_end cred info vinode error.

(** The public calls with a directory argument: [missing] is errno for a NULL path. *)
Definition path_call (missing : Z) (pfp : bool) (dir : at_dir) (path : option cstring) (body : option positive → cstring → M pool Z) : M pool Z :=
  if negb pfp then pool_fail EFAULT
  else match path with
       | None => pool_fail missing
       | Some path =>
           if bad_dir dir path then pool_fail EFAULT
           else with_dir_for ignore_free_errors (λ r, negb (r =? 0)) dir path (λ at_, body at_ path)
       end.

(** ** access.c *)

(** The access asked for. *)
Definition access_mode (mode flags : Z) : Z :=
  let acc := 0 in
  let acc := if has mode PMEMFILE_R_OK then Z.lor acc PFILE_WANT_READ else acc in
  let acc := if has mode PMEMFILE_W_OK then Z.lor acc PFILE_WANT_WRITE else acc in
  let acc := if has mode PMEMFILE_X_OK then Z.lor acc PFILE_WANT_EXECUTE else acc in
  if has flags PMEMFILE_AT_EACCESS then Z.lor acc PFILE_USE_EACCESS else Z.lor acc PFILE_USE_RACCESS.

Definition faccessat_ (fuel : nat) (dir : option positive) (path : cstring) (mode flags : Z) : M pool Z :=
  if negb (Z.ldiff flags (Z.lor PMEMFILE_AT_EACCESS PMEMFILE_AT_SYMLINK_NOFOLLOW) =? 0) then pool_fail EINVAL
  else
    with_cred calloc_ok (λ cred,
      let resolve_flags := if has flags PMEMFILE_AT_EACCESS then PMEMFILE_OPEN_PARENT_USE_EACCESS else PMEMFILE_OPEN_PARENT_USE_RACCESS in
      with_vinode fuel cred dir path resolve_flags (negb (has flags PMEMFILE_AT_SYMLINK_NOFOLLOW)) (λ v,
        acc ← vinode_can_access cred v (access_mode mode flags);
        mret (if acc : bool then 0 else EACCES))).

Definition pmemfile_faccessat (fuel : nat) (pfp : bool) (dir : at_dir) (pathname : option cstring) (mode flags : Z) : M pool Z :=
  path_call ENOENT pfp dir pathname (λ at_ path, faccessat_ fuel at_ path mode flags).
Definition pmemfile_access (fuel : nat) (pfp : bool) (path : option cstring) (mode : Z) : M pool Z :=
  pmemfile_faccessat fuel pfp AtCwd path mode 0.
Definition pmemfile_euidaccess (fuel : nat) (pfp : bool) (path : option cstring) (mode : Z) : M pool Z :=
  pmemfile_faccessat fuel pfp AtCwd path mode PMEMFILE_AT_EACCESS.

(** ** chdir.c *)

(** [_pmemfile_chdir] takes over the reference to [dir]. *)
Definition chdir_ (cred : pmemfile_cred) (dir : positive) : M pool Z :=
  ASSERT_NOT_IN_TX;;
  dir_perms ← vinode_get_perms dir;
  if negb (Z.land (p_flags dir_perms) PMEMFILE_S_IFMT =? PMEMFILE_S_IFDIR) then unref (Some dir);; pool_fail ENOTDIR
  else if negb (can_access cred dir_perms PFILE_WANT_EXECUTE) then unref (Some dir);; pool_fail EACCES
  else
    lock LCwd WrLocked;;
    old_cwd ← gets po_cwd;
    modify (set_po_cwd dir);;
    unlock LCwd;;
    unref (Some old_cwd);;
    mret 0.

Definition pmemfile_chdir (fuel : nat) (pfp : bool) (path : option cstring) : M pool Z :=
  if negb pfp then pool_fail EFAULT
  else match path with
       | None => pool_fail ENOENT
       | Some path =>
           with_cred calloc_ok (λ cred,
             '(at_, at_unref) ← pool_get_dir_for_path AtCwd path;
             '(dir, info) ← resolve_pathat_full calloc_ok ignore_free_errors fuel cred at_ path 0 true;
             '(ret, error) ←
               (if negb (pi_error info =? 0) then mret (-1, pi_error info)
                else
                  dir ← nonnull dir;
                  ret ← chdir_ cred dir;
                  if negb (ret =? 0) then error ← get_errno; mret (ret, error) else mret (ret, 0));
             path_info_cleanup ignore_free_errors info;;
             on_cred (cred_release cred);;
             ASSERT_NOT_IN_TX;;
             (if at_unref : bool then unref at_ else mret tt);;
             (if negb (error =? 0) then set_errno error else mret tt);;
             mret ret)
       end.

Definition pmemfile_fchdir (pfp : bool) (dir : option pmemfile_file) : M pool Z :=
  if negb pfp then pool_fail EFAULT
  else match dir with
       | None => pool_fail EFAULT
       | Some dir =>
           with_cred calloc_ok (λ cred,
             v ← vinode_ref (Some (pf_vinode dir));
             ret ← chdir_ cred v;
             on_cred (cred_release cred);;
             mret ret)
       end.

(** ** chmod.c *)

(** The file type and permissions after [vinode_chmod]. *)
Definition chmod_flags (cred : pmemfile_cred) (i : inode) (mode : Z) : Z :=
  let flags := Z.lor (Z.ldiff (inode_get_flags i) PMEMFILE_ALLPERMS) mode in
  if negb (i_gid i =? fsgid cred) && negb (gid_in_list cred (i_gid i)) && negb (has (caps cred) (Z.shiftl 1 PMEMFILE_CAP_FSETID))
  then Z.ldiff flags PMEMFILE_S_ISGID else flags.

Definition vinode_chmod (v : positive) (mode : Z) (cred : pmemfile_cred) : M pool Z :=
  ASSERT_NOT_IN_TX;;
  x ← vnode_get v;
  let tinode := vn_tinode x in
  lock (LVinode v) WrLocked;;
  error ← tx_begin_cb
    (i ← inode_get tinode;
     (if negb (i_uid i =? fsuid cred) && negb (has (caps cred) (Z.shiftl 1 PMEMFILE_CAP_FOWNER)) then tx_abort EPERM else mret tt);;
     tm ← current_time clock;
     tx_set_inode_ctime tm tinode;;
     i ← inode_get tinode;
     tx_inode undo_flags (inode_tx_set_flags (chmod_flags cred i mode)) tinode;;
     mret 0)
    onabort_errno;
  unlock (LVinode v);;
  mret error.

Definition fchmodat_ (fuel : nat) (dir : option positive) (path : cstring) (mode flags : Z) : M pool Z :=
  let mode := Z.land mode PMEMFILE_ALLPERMS in
  if has flags PMEMFILE_AT_SYMLINK_NOFOLLOW then pool_fail ENOTSUP
  else if negb (Z.ldiff flags PMEMFILE_AT_SYMLINK_NOFOLLOW =? 0) then pool_fail EINVAL
  else with_cred calloc_ok (λ cred, with_vinode fuel cred dir path 0 true (λ v, vinode_chmod v mode cred)).

Definition pmemfile_fchmodat (fuel : nat) (pfp : bool) (dir : at_dir) (pathname : option cstring) (mode flags : Z) : M pool Z :=
  path_call ENOENT pfp dir pathname (λ at_ path, fchmodat_ fuel at_ path mode flags).
Definition pmemfile_chmod (fuel : nat) (pfp : bool) (path : option cstring) (mode : Z) : M pool Z :=
  pmemfile_fchmodat fuel pfp AtCwd path mode 0.

(** The calls on an open file that O_PATH does not allow. *)
Definition file_call (pfp : bool) (file : option pmemfile_file) (body : pmemfile_cred → positive → M pool Z) : M pool Z :=
  if negb pfp then pool_fail EFAULT
  else match file with
       | None => pool_fail EFAULT
       | Some file =>
           if has (pf_flags file) PFILE_PATH then pool_fail EBADF
           else
             with_cred calloc_ok (λ cred,
               ret ← body cred (pf_vinode file);
               on_cred (cred_release cred);;
               return_error ret)
       end.

Definition pmemfile_fchmod (pfp : bool) (file : option pmemfile_file) (mode : Z) : M pool Z :=
  file_call pfp file (λ cred v, vinode_chmod v mode cred).

(** ** chown.c *)

(** Whether the caller may change the owner and the group. *)
Definition chown_allowed (cred : pmemfile_cred) (i : inode) (owner group : Z) : bool :=
  if has (caps cred) (Z.shiftl 1 PMEMFILE_CAP_CHOWN) then true
  else if negb (i_uid i =? fsuid cred) then false
  else if negb (owner =? NO_ID) && negb (owner =? i_uid i) then false
  else if negb (group =? NO_ID) && negb (group =? i_gid i) then (group =? fsgid cred) || gid_in_list cred group
  else true.

Definition chown_ids (owner group : Z) (i : inode) : inode :=
  set_i_ids (if negb (owner =? NO_ID) then owner else i_uid i) (if negb (group =? NO_ID) then group else i_gid i) i.

Definition vinode_chown (cred : pmemfile_cred) (v : positive) (owner group : Z) : M pool Z :=
  ASSERT_NOT_IN_TX;;
  if (owner =? NO_ID) && (group =? NO_ID) then mret 0
  else
    x ← vnode_get v;
    let tinode := vn_tinode x in
    lock (LVinode v) WrLocked;;
    i ← inode_get tinode;
    error ←
      (if negb (chown_allowed cred i owner group) then mret EPERM
       else
         tx_begin_cb
           (tx_inode (λ old, set_i_ids (i_uid old) (i_gid old)) (chown_ids owner group) tinode;;
            tm ← current_time clock;
            tx_set_inode_ctime tm tinode;;
            mret 0)
           onabort_errno);
    unlock (LVinode v);;
    mret error.

Definition fchownat_ (fuel : nat) (dir : option positive) (path : cstring) (owner group flags : Z) : M pool Z :=
  if negb (Z.ldiff flags (Z.lor PMEMFILE_AT_EMPTY_PATH PMEMFILE_AT_SYMLINK_NOFOLLOW) =? 0) then pool_fail EINVAL
  else
    with_cred calloc_ok (λ cred,
      if bool_decide (char_at path 0 = NUL) && has flags PMEMFILE_AT_EMPTY_PATH then
        v ← vinode_ref dir;
        error ← vinode_chown cred v owner group;
        vinode_end cred (PathInfo None None 0) (Some v) error
      else with_vinode fuel cred dir path 0 (negb (has flags PMEMFILE_AT_SYMLINK_NOFOLLOW)) (λ v, vinode_chown cred v owner group)).

Definition pmemfile_fchownat (fuel : nat) (pfp : bool) (dir : at_dir) (pathname : option cstring) (owner group flags : Z) : M pool Z :=
  path_call ENOENT pfp dir pathname (λ at_ path, fchownat_ fuel at_ path owner group flags).
Definition pmemfile_chown (fuel : nat) (pfp : bool) (pathname : option cstring) (owner group : Z) : M pool Z :=
  pmemfile_fchownat fuel pfp AtCwd pathname owner group 0.
Definition pmemfile_lchown (fuel : nat) (pfp : bool) (pathname : option cstring) (owner group : Z) : M pool Z :=
  pmemfile_fchownat fuel pfp AtCwd pathname owner group PMEMFILE_AT_SYMLINK_NOFOLLOW.
Definition pmemfile_fchown (pfp : bool) (file : option pmemfile_file) (owner group : Z) : M pool Z :=
  file_call pfp file (λ cred v, vinode_chown cred v owner group).

(** ** timestamps.c *)

Definition is_tm_valid (tm : pmemfile_time) : bool := (0 <=? tm_nsec tm) && (tm_nsec tm <=? 999999999).

(** One of the two times with the macros resolved; [None] is EINVAL. *)
Definition utime_resolve (tm : pmemfile_time) : M pool (option pmemfile_time) :=
  if tm_nsec tm =? PMEMFILE_UTIME_NOW then t ← current_time clock; mret (Some t)
  else if tm_nsec tm =? PMEMFILE_UTIME_OMIT then mret (Some tm)
  else mret (if is_tm_valid tm then Some tm else None).

(** The times to set; [utm] is UTIME_MACROS_ENABLED. *)
Definition times_to_set (tm : option (pmemfile_time * pmemfile_time)) (utm : bool) : M pool (option (pmemfile_time * pmemfile_time)) :=
  match tm with
  | None => t ← current_time clock; mret (Some (t, t))
  | Some (tm0, tm1) =>
      if utm then
        r0 ← utime_resolve tm0;
        match r0 with
        | None => mret None
        | Some t0 => r1 ← utime_resolve tm1; mret ((λ t1, (t0, t1)) <$> r1)
        end
      else mret (Some (tm0, tm1))
  end.

Definition set_vn_atime (tm : pmemfile_time) (dirty : bool) (v : vnode) : vnode :=
  Vnode (vn_ref v) (vn_tinode v) (vn_parent v) (vn_orphaned v) (vn_suspended v) tm dirty (vn_file v).

Definition vinode_file_time_set (v : positive) (tm : option (pmemfile_time * pmemfile_time)) (utm : bool) : M pool Z :=
  times ← times_to_set tm utm;
  match times with
  | None => pool_fail EINVAL
  | Some (tm0, tm1) =>
      lock (LVinode v) WrLocked;;
      x ← vnode_get v;
      let set_atime := negb utm || negb (tm_nsec tm0 =? PMEMFILE_UTIME_OMIT) in
      let set_mtime := negb utm || negb (tm_nsec tm1 =? PMEMFILE_UTIME_OMIT) in
      error ← tx_begin_cb
        ((if set_atime then tx_inode undo_atime (inode_tx_set_atime tm0) (vn_tinode x) else mret tt);;
         (if set_mtime then tx_set_inode_mtime tm1 (vn_tinode x) else mret tt);;
         mret 0)
        onabort_errno;
      (if (error =? 0) && set_atime then vnode_modify v (set_vn_atime tm0 false) else mret tt);;
      unlock (LVinode v);;
      return_error error
  end.

Definition pmemfile_file_time_set (fuel : nat) (pfp : bool) (dir : at_dir) (filename : option cstring) (tm : option (pmemfile_time * pmemfile_time))
    (resolve_last utm : bool) : M pool Z :=
  if negb pfp then pool_fail EFAULT
  else match filename with
       | None => pool_fail ENOENT
       | Some filename =>
           if bad_dir dir filename then pool_fail EFAULT
           else
             omit ← (if utm then '(tm0, tm1) ← nonnull tm; mret ((tm_nsec tm0 =? PMEMFILE_UTIME_OMIT) && (tm_nsec tm1 =? PMEMFILE_UTIME_OMIT))
                     else mret false);
             if omit : bool then mret 0
             else
               with_cred calloc_ok (λ cred,
                 '(at_, at_unref) ← pool_get_dir_for_path dir filename;
                 '(vinode, info) ← resolve_pathat_full calloc_ok ignore_free_errors fuel cred at_ filename 0 resolve_last;
                 error ←
                   (if negb (pi_error info =? 0) then mret (pi_error info)
                    else
                      v ← nonnull vinode;
                      r ← vinode_file_time_set v tm utm;
                      if negb (r =? 0) then get_errno else mret 0);
                 path_info_cleanup ignore_free_errors info;;
                 on_cred (cred_release cred);;
                 ASSERT_NOT_IN_TX;;
                 unref_opt ignore_free_errors vinode;;
                 (if at_unref : bool then vinode_cleanup ignore_free_errors at_ (negb (error =? 0)) else mret tt);;
                 return_error error)
       end.

(** [pmemfile_utimbuf_t] as the pair of actime and modtime. *)
Definition pmemfile_utime (fuel : nat) (pfp : bool) (filename : option cstring) (times : option (Z * Z)) : M pool Z :=
  pmemfile_file_time_set fuel pfp AtCwd filename ((λ t, (Time t.1 0, Time t.2 0)) <$> times) true false.

(** [pmemfile_timeval_t] as the pair of tv_sec and tv_usec. *)
Definition is_timeval_valid (tm : Z * Z) : bool := (0 <=? tm.2) && (tm.2 <=? 999999).
Definition timeval_to_time (times : (Z * Z) * (Z * Z)) : option (pmemfile_time * pmemfile_time) :=
  let conv (t : Z * Z) := Time t.1 (t.2 * 1000) in
  if is_timeval_valid times.1 && is_timeval_valid times.2 then Some (conv times.1, conv times.2) else None.

(** The calls with an array of timeval. *)
Definition with_timeval (times : option ((Z * Z) * (Z * Z))) (body : option (pmemfile_time * pmemfile_time) → M pool Z) : M pool Z :=
  match times with
  | None => body None
  | Some times => match timeval_to_time times with None => pool_fail EINVAL | tm => body tm end
  end.

Definition pmemfile_utimes (fuel : nat) (pfp : bool) (filename : option cstring) (times : option ((Z * Z) * (Z * Z))) : M pool Z :=
  with_timeval times (λ tm, pmemfile_file_time_set fuel pfp AtCwd filename tm true false).
Definition pmemfile_futimes (pfp : bool) (file : option pmemfile_file) (tv : option ((Z * Z) * (Z * Z))) : M pool Z :=
  if negb pfp then pool_fail EFAULT
  else match file with
       | None => pool_fail EFAULT
       | Some file => with_timeval tv (λ tm, vinode_file_time_set (pf_vinode file) tm false)
       end.
Definition pmemfile_lutimes (fuel : nat) (pfp : bool) (filename : option cstring) (tv : option ((Z * Z) * (Z * Z))) : M pool Z :=
  with_timeval tv (λ tm, pmemfile_file_time_set fuel pfp AtCwd filename tm false false).
Definition pmemfile_futimesat (fuel : nat) (pfp : bool) (dir : at_dir) (pathname : option cstring) (tv : option ((Z * Z) * (Z * Z))) : M pool Z :=
  with_timeval tv (λ tm, pmemfile_file_time_set fuel pfp dir pathname tm true false).

(** [pmemfile_timespec_t] has the fields of [pmemfile_time]. *)
Definition pmemfile_utimensat (fuel : nat) (pfp : bool) (dir : at_dir) (pathname : option cstring) (times : option (pmemfile_time * pmemfile_time))
    (flags : Z) : M pool Z :=
  if negb (Z.ldiff flags PMEMFILE_AT_SYMLINK_NOFOLLOW =? 0) then pool_fail EINVAL
  else
    let last_symlink := negb (has flags PMEMFILE_AT_SYMLINK_NOFOLLOW) in
    pmemfile_file_time_set fuel pfp dir pathname times last_symlink (negb (is_null times)).
Definition pmemfile_futimens (pfp : bool) (file : option pmemfile_file) (times : option (pmemfile_time * pmemfile_time)) : M pool Z :=
  if negb pfp then pool_fail EFAULT
  else match file with
       | None => pool_fail EFAULT
       | Some file => vinode_file_time_set (pf_vinode file) times (negb (is_null times))
       end.

(** ** stat.c *)

(** [pmemfile_stat_t]; [pfp->dev] is an argument. *)
Record pmemfile_stat := Stat {
  st_dev : Z; st_ino : Z; st_mode : Z; st_nlink : Z; st_uid : Z; st_gid : Z; st_rdev : Z; st_size : Z; st_blksize : Z; st_blocks : Z;
  st_atim : pmemfile_time; st_mtim : pmemfile_time; st_ctim : pmemfile_time;
}.

(** The error and what [buf] holds afterwards. *)
Definition vinode_stat (dev : Z) (v : positive) (buf : bool) : M pool (Z * option pmemfile_stat) :=
  x ← vnode_get v;
  i ← inode_get (vn_tinode x);
  if negb buf then mret (EFAULT, None)
  else
    let st size blksize blocks at_ mt ct :=
      Some (Stat dev (Zpos (vn_tinode x)) (Z.land (inode_get_flags i) (Z.lor PMEMFILE_S_IFMT PMEMFILE_ALLPERMS)) (inode_get_nlink i)
              (i_uid i) (i_gid i) 0 size blksize blocks at_ mt ct) in
    if i64 (inode_get_size i) <? 0 then mret (EOVERFLOW, st 0 0 0 zero_time zero_time zero_time)
    else
      blks ←
        (if inode_is_regular_file i then mret (i64 (inode_get_allocated_space i / 512))
         else if inode_is_dir i then mret (i64 (inode_get_size i / 512))
         else if inode_is_symlink i then mret 0
         else fault_ AssertFail);
      mret (0, st (i64 (inode_get_size i)) 1 blks (vn_atime x) (inode_get_mtime i) (inode_get_ctime i)).

(** [if (error) { errno = error; return -1; } return 0;] with the buffer *)
Definition return_stat (r : Z * option pmemfile_stat) : M pool (Z * option pmemfile_stat) := z ← return_error r.1; mret (z, r.2).

Definition fstatat_ (dev : Z) (fuel : nat) (dir : option positive) (path : cstring) (buf : bool) (flags : Z) : M pool (Z * option pmemfile_stat) :=
  if bool_decide (char_at path 0 = NUL) && has flags PMEMFILE_AT_EMPTY_PATH then
    v ← nonnull dir;
    r ← vinode_stat dev v buf;
    return_stat r
  else if negb (Z.ldiff flags (Z.lor PMEMFILE_AT_NO_AUTOMOUNT (Z.lor PMEMFILE_AT_SYMLINK_NOFOLLOW PMEMFILE_AT_EMPTY_PATH)) =? 0) then
    return_stat (EINVAL, None)
  else
    '(r, cred) ← on_cred (cred_acquire calloc_ok);
    if negb (r =? 0) then error ← get_errno; return_stat (error, None)
    else
      '(vinode, info) ← resolve_pathat_full calloc_ok ignore_free_errors fuel cred dir path 0 (negb (has flags PMEMFILE_AT_SYMLINK_NOFOLLOW));
      '(error, st) ← (if negb (pi_error info =? 0) then mret (pi_error info, None) else v ← nonnull vinode; vinode_stat dev v buf);
      ret ← vinode_end cred info vinode error;
      mret (ret, st).

Definition pmemfile_fstatat (dev : Z) (fuel : nat) (pfp : bool) (dir : at_dir) (path : option cstring) (buf : bool) (flags : Z)
    : M pool (Z * option pmemfile_stat) :=
  if negb pfp then r ← pool_fail EFAULT; mret (r, None)
  else match path with
       | None => r ← pool_fail EFAULT; mret (r, None)
       | Some path =>
           if bad_dir dir path then r ← pool_fail EFAULT; mret (r, None)
           else with_dir_for ignore_free_errors (λ r, negb (r.1 =? 0)) dir path (λ at_, fstatat_ dev fuel at_ path buf flags)
       end.
Definition pmemfile_stat_path (dev : Z) (fuel : nat) (pfp : bool) (path : option cstring) (buf : bool) : M pool (Z * option pmemfile_stat) :=
  pmemfile_fstatat dev fuel pfp AtCwd path buf 0.
Definition pmemfile_fstat (dev : Z) (pfp : bool) (file : option pmemfile_file) (buf : bool) : M pool (Z * option pmemfile_stat) :=
  if negb pfp then r ← pool_fail EFAULT; mret (r, None)
  else match file with
       | None => r ← pool_fail EFAULT; mret (r, None)
       | Some file => r ← vinode_stat dev (pf_vinode file) buf; return_stat r
       end.
Definition pmemfile_lstat (dev : Z) (fuel : nat) (pfp : bool) (path : option cstring) (buf : bool) : M pool (Z * option pmemfile_stat) :=
  pmemfile_fstatat dev fuel pfp AtCwd path buf PMEMFILE_AT_SYMLINK_NOFOLLOW.

(** ** readlink.c *)

(** The target, cut to the buffer. *)
Definition readlink_copy (v : positive) (bufsiz : Z) : M pool (Z * cstring) :=
  lock (LVinode v) RdLocked;;
  data ← get_symlink v;
  i ← vinode_inode v;
  let len := inode_get_size i in
  let len := if bufsiz <? len then bufsiz else len in
  (if (Z.to_nat len <=? length data)%nat then mret tt else fault_ OutOfBounds);;
  unlock (LVinode v);;
  mret (i64 len, take (Z.to_nat len) data).

(** The result and the characters stored in [buf]. *)
Definition readlinkat_ (dir : option positive) (pathname : cstring) (bufsiz : Z) : M pool (Z * cstring) :=
  '(r, cred) ← on_cred (cred_acquire calloc_ok);
  if negb (r =? 0) then mret (-1, [])
  else
    info ← resolve_pathat calloc_ok ignore_free_errors cred dir pathname 0;
    let end_ (vinode : option positive) (error : Z) (ret : Z * cstring) : M pool (Z * cstring) :=
      z ← vinode_end cred info vinode error; mret (if negb (error =? 0) then (z, []) else ret) in
    if negb (pi_error info =? 0) then end_ None (pi_error info) (-1, [])
    else
      remaining ← nonnull (pi_remaining info);
      parent ← nonnull (pi_parent info);
      vinode ← vinode_lookup_dirent calloc_ok parent remaining (component_length remaining) 0;
      match vinode with
      | None => end_ None ENOENT (-1, [])
      | Some v =>
          sym ← vinode_is_symlink v;
          if negb sym then end_ vinode EINVAL (-1, [])
          else if bool_decide (is_Some (strchr remaining SLASH)) then end_ vinode ENOTDIR (-1, [])
          else ret ← readlink_copy v bufsiz; end_ vinode 0 ret
      end.

Definition pmemfile_readlinkat (pfp : bool) (dir : at_dir) (pathname : option cstring) (buf : bool) (bufsiz : Z) : M pool (Z * cstring) :=
  let fail e := r ← pool_fail e; mret (r, []) in
  if negb pfp then fail EFAULT
  else if negb buf then fail EFAULT
  else match pathname with
       | None => fail ENOENT
       | Some pathname =>
           if bad_dir dir pathname then fail EFAULT
           else with_dir_for ignore_free_errors (λ r, r.1 <? 0) dir pathname (λ at_, readlinkat_ at_ pathname bufsiz)
       end.
Definition pmemfile_readlink (pfp : bool) (pathname : option cstring) (buf : bool) (bufsiz : Z) : M pool (Z * cstring) :=
  pmemfile_readlinkat pfp AtCwd pathname buf bufsiz.
End attr.

(** ** statfs.c *)

(** The fields of [pmemfile_statfs_t] that are not zero. *)
Record pmemfile_statfs := Statfs { f_type : Z; f_namelen : Z; f_frsize : Z; f_bsize : Z; f_fs_flags : Z; f_blocks : Z }.

Definition pmemfile_statfs_call (pfp buf : bool) : M pool (Z * option pmemfile_statfs) :=
  if negb pfp || negb buf then r ← pool_fail EFAULT; mret (r, None)
  else mret (0, Some (Statfs (PMEMFILE_SUPER_VERSION 0 0) (Z.of_nat PMEMFILE_MAX_FILE_NAME) (Z.of_nat PMEMFILE_PATH_MAX) MIN_BLOCK_SIZE
                        (Z.lor 4 (Z.lor 8 (Z.lor 4096 16))) 1)).
