(* ===== verification/Stats.v ===== *)
(** Statistics of a pool: stats.c.  The objects of the pool are what the iteration
    POBJ_FOREACH of libpmemobj visits, each with its type number, its usable size
    and, for a metadata block, the first word. *)
From S2P Require Import Prelude Layout Blocks BlockArray InodeArray Vinode.

Record pool_object := PoolObject { ob_type_num : Z; ob_usable_size : Z; ob_word : Z }.

Record pmemfile_stats := Stats { st_inodes : Z; st_dirs : Z; st_block_arrays : Z; st_inode_arrays : Z; st_blocks : Z }.

Definition inc_inodes (s : pmemfile_stats) := Stats (u32 (st_inodes s + 1)) (st_dirs s) (st_block_arrays s) (st_inode_arrays s) (st_blocks s).
Definition inc_dirs (s : pmemfile_stats) := Stats (st_inodes s) (u32 (st_dirs s + 1)) (st_block_arrays s) (st_inode_arrays s) (st_blocks s).
Definition inc_block_arrays (s : pmemfile_stats) := Stats (st_inodes s) (st_dirs s) (u32 (st_block_arrays s + 1)) (st_inode_arrays s) (st_blocks s).
Definition inc_inode_arrays (s : pmemfile_stats) := Stats (st_inodes s) (st_dirs s) (st_block_arrays s) (u32 (st_inode_arrays s + 1)) (st_blocks s).
Definition inc_blocks (s : pmemfile_stats) := Stats (st_inodes s) (st_dirs s) (st_block_arrays s) (st_inode_arrays s) (u32 (st_blocks s + 1)).

(** [cmp]: the low 24 bits. *)
Definition cmp (version requested_version : Z) : bool := Z.land version 0xFFFFFF =? Z.land requested_version 0xFFFFFF.

Section stats.
(** The type numbers libpmemobj's macros give to the types of the layout. *)
Variables (inode_num dir_num block_array_num inode_array_num char_num : Z).
Variable (cfg : block_cfg).

Definition stats_header (t : Z) : M pmemfile_stats unit :=
  if t =? inode_num then modify inc_inodes
  else if t =? dir_num then modify inc_dirs
  else if t =? block_array_num then modify inc_block_arrays
  else if t =? inode_array_num then modify inc_inode_arrays
  else if t =? char_num then modify inc_blocks
  else fault_ AssertFail.

Definition stats_alloc_class (o : pool_object) : M pmemfile_stats unit :=
  let size := ob_usable_size o in
  if size =? METADATA_BLOCK_SIZE then
    let v := ob_word o in
    if cmp v (PMEMFILE_INODE_VERSION 0) then modify inc_inodes
    else if cmp v (PMEMFILE_DIR_VERSION 0) then modify inc_dirs
    else if cmp v (PMEMFILE_BLOCK_ARRAY_VERSION 0) then modify inc_block_arrays
    else if cmp v (PMEMFILE_INODE_ARRAY_VERSION 0) then modify inc_inode_arrays
    else fault_ AssertFail
  else
    b ← data_block_info cfg size (MAX_BLOCK_SIZE cfg);
    if bi_size b =? size then modify inc_blocks else fault_ AssertFail.

Fixpoint stats_foreach (os : list pool_object) : M pmemfile_stats unit :=
  match os with
  | [] => mret tt
  | o :: os' =>
      (if negb (ob_type_num o =? 0) then stats_header (ob_type_num o) else stats_alloc_class o);;
      stats_foreach os'
  end.

Definition pmemfile_stats_call (os : list pool_object) : M pmemfile_stats unit :=
  modify (λ _, Stats 0 0 0 0 0);; stats_foreach os.

(** The sum of the counters. *)
Definition stats_total (s : pmemfile_stats) : Z := st_inodes s + st_dirs s + st_block_arrays s + st_inode_arrays s + st_blocks s.
Definition stats_fit (n : Z) (s : pmemfile_stats) : Prop :=
  stats_total s = n ∧ 0 ≤ st_inodes s ∧ 0 ≤ st_dirs s ∧ 0 ≤ st_block_arrays s ∧ 0 ≤ st_inode_arrays s ∧ 0 ≤ st_blocks s.

Lemma inc_fit f n s : f ∈ [inc_inodes; inc_dirs; inc_block_arrays; inc_inode_arrays; inc_blocks] →
  stats_fit n s → n < UINT32_MAX → stats_fit (n + 1) (f s).
Proof.
  unfold stats_fit, stats_total. rewrite !elem_of_cons, elem_of_nil.
  intros H (Hs & H1 & H2 & H3 & H4 & H5) Hn.
  destruct H as [-> | [-> | [-> | [-> | [-> | []]]]]]; simpl; unfold u32, UINT32_MAX in *; rewrite Z.mod_small; lia.
Qed.

Lemma data_block_loop_state {S} prev bs size limit (s : S) b s' : data_block_loop prev bs size limit s = Ok b s' → s' = s.
Proof.
  revert prev. induction bs as [| x bs IH]; intros prev; simpl; [discriminate |].
  destruct (bi_size x =? 0), (limit <? bi_size x), (size <=? bi_size x); try apply IH; try destruct prev; intros H; by inversion H.
Qed.

(** One object, if it is of a known kind, adds one to one counter. *)
Lemma stats_object o s s' : (if negb (ob_type_num o =? 0) then stats_header (ob_type_num o) else stats_alloc_class o) s = Ok tt s' →
  ∃ f, f ∈ [inc_inodes; inc_dirs; inc_block_arrays; inc_inode_arrays; inc_blocks] ∧ s' = f s.
Proof.
  assert (K : ∀ f, f ∈ [inc_inodes; inc_dirs; inc_block_arrays; inc_inode_arrays; inc_blocks] → modify f s = Ok tt s' →
    ∃ f, f ∈ [inc_inodes; inc_dirs; inc_block_arrays; inc_inode_arrays; inc_blocks] ∧ s' = f s).
  { intros f Hf [= <-]. by exists f. }
  unfold stats_header, stats_alloc_class. intros H.
  repeat (case_match; try discriminate H); try (eapply K; [| exact H]; set_solver).
  apply bind_ok in H as (b & s1 & (b0 & s2 & Hb0 & (u & s3 & Hu & Hb)%bind_ok)%bind_ok & H).
  apply data_block_loop_state in Hb as ->.
  assert (s2 = s) as -> by (clear -Hb0; destruct (head (data_blocks cfg)); by inversion Hb0).
  assert (s3 = s) as -> by (clear -Hu; destruct (bi_size b0 <=? MAX_BLOCK_SIZE cfg); by inversion Hu).
  case_match; [eapply K; [| exact H]; set_solver | discriminate H].
Qed.

Lemma stats_foreach_fit os n s s' : stats_foreach os s = Ok tt s' → stats_fit n s → n + Z.of_nat (length os) ≤ UINT32_MAX →
  stats_fit (n + Z.of_nat (length os)) s'.
Proof.
  revert n s. induction os as [| o os IH]; intros n s; simpl.
  - intros [= <-]. by rewrite Z.add_0_r.
  - intros (u & s1 & Ho & H)%bind_ok Hn Hl. destruct u.
    apply stats_object in Ho as (f & Hf & ->).
    replace (n + Z.of_nat (S (length os))) with (n + 1 + Z.of_nat (length os)) by lia.
    apply (IH _ _ H); [by apply inc_fit; [..| lia] | lia].
Qed.

(** The counters add up to the number of objects. *)
Lemma pmemfile_stats_total os s s' : pmemfile_stats_call os s = Ok tt s' → Z.of_nat (length os) ≤ UINT32_MAX →
  stats_total s' = Z.of_nat (length os).
Proof.
  intros (u & s1 & [= <- <-] & H)%bind_ok Hl.
  eapply (stats_foreach_fit _ 0) in H as [H _]; [exact H | by unfold stats_fit | lia].
Qed.
End stats.
