(* ===== verification/Getdents.v ===== *)
(** Listing a directory (getdents.c): the position of a handle in a directory,
    the two record formats, and the calls. *)
From S2P Require Import Prelude Layout Inode Blocks OffsetMap FileState BlockArray Data FileIO HashMap Creds CString Pool InodeArray Vinode Dir Namespace PoolFile File.

Definition INT_MAX : Z := 2 ^ 31 - 1.
Definition PMEMFILE_DT_DIR : Z := 4.
Definition PMEMFILE_DT_REG : Z := 8.
Definition PMEMFILE_DT_LNK : Z := 10.

Definition DIRENT_ID_MASK : Z := 0xffffffff.
Definition DIR_ID (offset : Z) : Z := Z.shiftr offset 32.
Definition DIRENT_ID (offset : Z) : Z := Z.land offset DIRENT_ID_MASK.
(** [((size_t)dir_id) << 32 | dirent] *)
Definition dir_offset (dir_id dirent : Z) : Z := Z.lor (u64 (Z.shiftl dir_id 32)) dirent.

Definition set_pf_offset x (f : pmemfile_file) := set_pf_io (set_f_offset x (pf_io f)) f.
Definition set_pf_dir d id (f : pmemfile_file) := PMEMfile (pf_vinode f) (pf_io f) d id.

(** ** Positions *)

(** The first loop of [file_seek_dir]: from the part [d] with number [dir_id] to
    the part with number [want]. *)
Fixpoint seek_part (fuel : nat) (want : Z) (d : dirp) (dir_id : Z) : M pool (option (dirp * Z)) :=
  match fuel with
  | O => fault_ NoFuel
  | S fuel' =>
      if want =? dir_id then mret (Some (d, dir_id))
      else
        x ← dir_get d;
        match d_next x with
        | None => mret None
        | Some o => seek_part fuel' want (DirObj o) (u32 (dir_id + 1))
        end
  end.

(** The second loop: an index behind the end of a part is one in the next. *)
Fixpoint seek_dirent (fuel : nat) (file : pmemfile_file) (d : dirp) (dirent : Z) : M pool (option (dirp * Z) * pmemfile_file) :=
  match fuel with
  | O => fault_ NoFuel
  | S fuel' =>
      x ← dir_get d;
      let n := Z.of_nat (d_num_elements x) in
      if n <=? dirent then
        match d_next x with
        | None => mret (None, file)
        | Some o => seek_dirent fuel' (set_pf_dir (Some (DirObj o)) (u32 (pf_dir_id file + 1)) file) (DirObj o) (dirent - n)
        end
      else mret (Some (d, dirent), file)
  end.

(** [file_seek_dir]; [None] is the return value 0. *)
Definition file_seek_dir (file : pmemfile_file) : M pool (option (dirp * Z) * pmemfile_file) :=
  x ← vnode_get (pf_vinode file);
  let first := InInode (vn_tinode x) in
  fuel ← dir_fuel;
  '(dir, file) ←
    (if pf_offset file =? 0 then mret (Some first, set_pf_dir (Some first) 0 file)
     else if DIR_ID (pf_offset file) =? pf_dir_id file then mret (pf_dir file, file)
     else
       r ← seek_part fuel (DIR_ID (pf_offset file)) first 0;
       match r with
       | None => mret (None, file)
       | Some (d, id) => mret (Some d, set_pf_dir (Some d) id file)
       end);
  match dir with
  | None => mret (None, file)
  | Some d =>
      '(r, file) ← seek_dirent fuel file d (DIRENT_ID (pf_offset file));
      match r with
      | None => mret (None, file)
      | Some (d, dirent) => mret (Some (d, dirent), set_pf_offset (dir_offset (pf_dir_id file) dirent) file)
      end
  end.

(** ** Records *)

Definition inode_type (i : inode) : M pool Z :=
  if inode_is_regular_file i then mret PMEMFILE_DT_REG
  else if inode_is_symlink i then mret PMEMFILE_DT_LNK
  else if inode_is_dir i then mret PMEMFILE_DT_DIR
  else fault_ AssertFail.

(** The padding and the new length. *)
Definition align_dirent_size (slen : Z) : Z * Z :=
  let alignment := 8 - Z.land slen 7 in
  let alignment := if alignment =? 8 then 0 else alignment in
  (alignment, (slen + alignment) mod 2 ^ 16).

Definition get_next_dirent_off (file : pmemfile_file) (d : dir) (dirent_id : Z) : Z :=
  let next_off := u64 (pf_offset file + 1) in
  if Z.of_nat (d_num_elements d) <=? u32 (dirent_id + 1) then u64 (Z.shiftl (u64 (Z.shiftr next_off 32 + 1)) 32) else next_off.

(** The [n] bytes of a number in memory, and the bytes of a name. *)
Fixpoint le_bytes (n : nat) (x : Z) : list Z :=
  match n with O => [] | S n' => x mod 256 :: le_bytes n' (x / 256) end.
Definition char_bytes (s : cstring) : list Z := (λ c, Z.of_nat (nat_of_ascii c)) <$> s.

(** One record, [None] if it does not fit: its bytes.  [d64] selects the format of
    [fill_dirent64]. *)
Definition fill_dirent (d64 : bool) (e : dirent) (next_off left : Z) : M pool (option (list Z)) :=
  let namelen := Z.of_nat (strlen (de_name e)) in
  let slen := (8 + 8 + 2 + 1 + namelen + 1) mod 2 ^ 16 in
  let '(alignment, slen) := align_dirent_size slen in
  if left <? slen then mret None
  else
    o ← nonnull (de_inode e);
    i ← inode_get o;
    t ← inode_type i;
    let head := le_bytes 8 (Zpos o) ++ le_bytes 8 next_off ++ le_bytes 2 slen in
    let name := char_bytes (until_nul (de_name e)) ++ [0] in
    let pad := replicate (Z.to_nat alignment) 0 in
    mret (Some (if d64 then head ++ [t] ++ name ++ pad else head ++ name ++ pad ++ [t])).

(** ** The listing *)

Inductive listed := Full (data : list Z) (file : pmemfile_file) | PartDone (data : list Z) (dirent_id : Z) (file : pmemfile_file).

(** The entries [es] of the part [d] from the index [dirent_id] on. *)
Fixpoint list_part (d64 : bool) (count : Z) (d : dir) (es : list dirent) (dirent_id : Z) (data : list Z) (file : pmemfile_file) : M pool listed :=
  match es with
  | [] => mret (PartDone data dirent_id file)
  | e :: es' =>
      let next_file := set_pf_offset (u64 (pf_offset file + 1)) file in
      if bool_decide (de_inode e = None) then list_part d64 count d es' (u32 (dirent_id + 1)) data next_file
      else
        r ← fill_dirent d64 e (get_next_dirent_off file d dirent_id) (u32 (count - Z.of_nat (length data)));
        match r with
        | None => mret (Full data file)
        | Some rec => list_part d64 count d es' (u32 (dirent_id + 1)) (data ++ rec) next_file
        end
  end.

(** The loop of [pmemfile_getdents_worker]; the flag tells whether it stopped
    because the buffer was full. *)
Fixpoint list_parts (fuel : nat) (d64 : bool) (count : Z) (d : dirp) (dirent_id : Z) (data : list Z) (file : pmemfile_file)
    : M pool (bool * list Z * pmemfile_file) :=
  match fuel with
  | O => fault_ NoFuel
  | S fuel' =>
      x ← dir_get d;
      r ← list_part d64 count x (drop (Z.to_nat dirent_id) (used_dirents x)) dirent_id data file;
      match r with
      | Full data file => mret (true, data, file)
      | PartDone data _ file =>
          match d_next x with
          | None => mret (false, data, file)
          | Some o =>
              let id := u32 (pf_dir_id file + 1) in
              list_parts fuel' d64 count (DirObj o) 0 data (set_pf_offset (dir_offset id 0) (set_pf_dir (Some (DirObj o)) id file))
          end
      end
  end.

Definition pmemfile_getdents_worker (d64 : bool) (file : pmemfile_file) (count : Z) : M pool (Z * list Z * pmemfile_file) :=
  '(pos, file) ← file_seek_dir file;
  match pos with
  | None => mret (0, [], file)
  | Some (d, dirent_id) =>
      fuel ← dir_fuel;
      '(full, data, file) ← list_parts fuel d64 count d dirent_id [] file;
      let read1 := Z.of_nat (length data) in
      if read1 =? 0 then mret (if full : bool then - EINVAL else - ENOENT, [], file) else mret (read1, data, file)
  end.

(** The result, the bytes stored and the handle afterwards. *)
Definition pmemfile_getdents_generic (d64 pfp : bool) (file : option pmemfile_file) (data : bool) (count : Z)
    : M pool (Z * list Z * option pmemfile_file) :=
  let fail e := r ← pool_fail e; mret (r, [], file) in
  if negb pfp then fail EFAULT
  else match file with
       | None => fail EFAULT
       | Some f =>
           if negb data then fail EFAULT
           else
             d ← vinode_is_dir (pf_vinode f);
             if negb d then fail ENOTDIR
             else if negb (has (pf_flags f) PFILE_READ) then fail EBADF
             else
               let count := if INT_MAX <? count then INT_MAX else count in
               lock (LVinode (pf_vinode f)) RdLocked;;
               '(read, bytes, f) ← pmemfile_getdents_worker d64 f count;
               unlock (LVinode (pf_vinode f));;
               if read <? 0 then r ← pool_fail (- read); mret (r, bytes, Some f)
               else assert_ (read <=? count);; mret (read, bytes, Some f)
       end.

Definition pmemfile_getdents : bool → option pmemfile_file → bool → Z → M pool (Z * list Z * option pmemfile_file) := pmemfile_getdents_generic false.
Definition pmemfile_getdents64 : bool → option pmemfile_file → bool → Z → M pool (Z * list Z * option pmemfile_file) := pmemfile_getdents_generic true.
