(* ===== verification/GetdentsRep.v ===== *)
(** What a listing of a directory returns: the records in the order of the
    entries, the position a handle is left at, and the decoding of the records. *)
From S2P Require Import Prelude Layout Inode Blocks OffsetMap FileState BlockArray Data FileIO HashMap Creds CString Pool InodeArray Vinode Dir PoolTx DirRep NameSpec Namespace NameRep NameTx NameOps PoolFile File Getdents.

(** ** Numbers in memory *)

Fixpoint le_value (bs : list Z) : Z :=
  match bs with [] => 0 | b :: bs' => b + 256 * le_value bs' end.

Lemma le_bytes_length n x : length (le_bytes n x) = n.
Proof. revert x. induction n as [|n IH]; intros x; [done|]. cbn. by rewrite IH. Qed.

Lemma le_value_bytes n x : le_value (le_bytes n x) = x mod 256 ^ Z.of_nat n.
Proof.
  revert x. induction n as [|n IH]; intros x; cbn [le_bytes le_value]; [by rewrite Z.mod_1_r|].
  rewrite IH, Nat2Z.inj_succ, Z.pow_succ_r by lia. rewrite Z.rem_mul_r by lia. lia.
Qed.

Lemma char_bytes_inj s t : char_bytes s = char_bytes t → s = t.
Proof.
  apply list_fmap_eq_inj. intros a b Hab%Nat2Z.inj. rewrite <-(ascii_nat_embedding a), <-(ascii_nat_embedding b). by rewrite Hab.
Qed.

(** ** One record *)

(** The length of the record of an entry, and the type its inode gives it. *)
Definition reclen (e : dirent) : Z := 8 * ((20 + Z.of_nat (strlen (de_name e)) + 7) / 8).

Definition dt_of (i : inode) : option Z :=
  if inode_is_regular_file i then Some PMEMFILE_DT_REG
  else if inode_is_symlink i then Some PMEMFILE_DT_LNK
  else if inode_is_dir i then Some PMEMFILE_DT_DIR else None.

(** The bytes of the record for an entry with inode [o] of type [t]. *)
Definition record (d64 : bool) (o : oid) (t next : Z) (name : cstring) : list Z :=
  let n := Z.of_nat (length name) in
  let len := 8 * ((20 + n + 7) / 8) in
  let head := le_bytes 8 (Zpos o) ++ le_bytes 8 next ++ le_bytes 2 len in
  let pad := replicate (Z.to_nat (len - (20 + n))) 0 in
  if d64 then head ++ [t] ++ (char_bytes name ++ [0]) ++ pad else head ++ (char_bytes name ++ [0]) ++ pad ++ [t].

(** The size of the padding that rounds a length up to a multiple of eight. *)
Lemma align_dirent_size_round n : 0 ≤ n ≤ 2 ^ 15 →
  align_dirent_size n = (8 * ((n + 7) / 8) - n, 8 * ((n + 7) / 8)).
Proof.
  intros Hn. unfold align_dirent_size. change (Z.land n 7) with (Z.land n (Z.ones 3)). rewrite Z.land_ones by lia. change (2 ^ 3) with 8.
  pose proof (Z.mod_pos_bound n 8 ltac:(lia)). pose proof (Z.div_mod n 8 ltac:(lia)).
  destruct (decide (n mod 8 = 0)) as [Hz|Hz].
  - rewrite Hz. change (8 - 0 =? 8) with true. cbv iota zeta. replace ((n + 7) / 8) with (n / 8); [|apply (Z.div_unique _ _ _ 7); lia].
    replace (n + 0) with n by lia. rewrite Z.mod_small by lia. f_equal; lia.
  - replace (8 - n mod 8 =? 8) with false by lia. replace ((n + 7) / 8) with (n / 8 + 1); [|apply (Z.div_unique _ _ _ (n mod 8 - 1)); lia].
    rewrite (Z.mod_small (n + _)) by lia. f_equal; lia.
Qed.

Lemma reclen_bounds e : (strlen (de_name e) ≤ 255)%nat →
  0 < reclen e ≤ 280 ∧ reclen e = 8 * ((20 + Z.of_nat (strlen (de_name e)) + 7) / 8) ∧ 20 + Z.of_nat (strlen (de_name e)) ≤ reclen e.
Proof.
  intros H. unfold reclen. pose proof (Z.div_mod (20 + Z.of_nat (strlen (de_name e)) + 7) 8 ltac:(lia)).
  pose proof (Z.mod_pos_bound (20 + Z.of_nat (strlen (de_name e)) + 7) 8 ltac:(lia)). split_and!; lia.
Qed.

Lemma record_length d64 o t next name :
  Z.of_nat (length (record d64 o t next name)) = 8 * ((20 + Z.of_nat (length name) + 7) / 8).
Proof.
  pose proof (Z.div_mod (20 + Z.of_nat (length name) + 7) 8 ltac:(lia)).
  pose proof (Z.mod_pos_bound (20 + Z.of_nat (length name) + 7) 8 ltac:(lia)).
  unfold record, char_bytes. destruct d64; rewrite !length_app, !le_bytes_length, ?length_app, length_replicate, length_fmap; cbn [length]; lia.
Qed.

(** What an entry of the pool [p] needs to be listed. *)
Definition listable (p : ppool) (e : dirent) : Prop :=
  (strlen (de_name e) ≤ 255)%nat ∧ ∀ o, de_inode e = Some o → ∃ i t, inode_lookup p o = Some i ∧ dt_of i = Some t.

(** The inode and its type, as the record shows them. *)
Definition entry_type (p : ppool) (o : oid) : Z := default 0 (inode_lookup p o ≫= dt_of).
Definition entry_record (p : ppool) (d64 : bool) (e : dirent) (next : Z) : list Z :=
  match de_inode e with
  | None => []
  | Some o => record d64 o (entry_type p o) next (until_nul (de_name e))
  end.

Lemma wp_inode_type i t (Q : Z → pool → Prop) E s : dt_of i = Some t → Q t s → wp (inode_type i) Q E s.
Proof.
  unfold dt_of, inode_type. intros Ht HQ. destruct (inode_is_regular_file i); [by simplify_eq|].
  destruct (inode_is_symlink i); [by simplify_eq|]. destruct (inode_is_dir i); by simplify_eq.
Qed.

Lemma wp_fill_dirent d64 e next left (Q : option (list Z) → pool → Prop) E s :
  listable (po_pm s) e → is_Some (de_inode e) →
  Q (if left <? reclen e then None else Some (entry_record (po_pm s) d64 e next)) s →
  wp (fill_dirent d64 e next left) Q E s.
Proof.
  intros [Hlen Hl] [o Ho] HQ. unfold fill_dirent. rewrite Z.mod_small by lia.
  replace (8 + 8 + 2 + 1 + Z.of_nat (strlen (de_name e)) + 1) with (20 + Z.of_nat (strlen (de_name e))) by lia.
  rewrite align_dirent_size_round by lia. fold (reclen e). destruct (left <? reclen e); [by apply wp_ret|].
  destruct (Hl _ Ho) as (i & t & Hi & Ht).
  apply wp_bind. unfold nonnull. eapply wp_of_option; [done|]. apply wp_bind. eapply wp_inode_get; [done|].
  apply wp_bind. eapply wp_inode_type; [done|]. apply wp_ret. revert HQ.
  unfold entry_record, record, entry_type. rewrite Ho, Hi. cbn [mbind option_bind]. rewrite Ht. cbn [default].
  unfold reclen, strlen. destruct d64; by rewrite <-?app_assoc.
Qed.

Lemma entry_record_length p d64 e next : is_Some (de_inode e) → Z.of_nat (length (entry_record p d64 e next)) = reclen e.
Proof. intros [o Ho]. unfold entry_record. rewrite Ho. apply record_length. Qed.

(** ** The entries of a directory from a position on *)

(** The file offset of entry [j] of part [k]. *)
Definition cookie (k j : nat) : Z := Z.of_nat k * 2 ^ 32 + Z.of_nat j.

(** An entry, the offset it is at and the offset its record names as the next. *)
Record item := Item { it_pos : Z; it_next : Z; it_entry : dirent }.

Definition item_at (k n j : nat) (e : dirent) : item :=
  Item (cookie k j) (if (n <=? S j)%nat then cookie (S k) 0 else cookie k (S j)) e.

Definition is_used (it : item) : bool := bool_decide (is_Some (de_inode (it_entry it))).

(** The entries of part number [k] with [n] entries, from index [j] on. *)
Fixpoint part_items (k n j : nat) (es : list dirent) : list item :=
  match es with [] => [] | e :: es' => item_at k n j e :: part_items k n (S j) es' end.

(** All entries of the parts [ps], the first of them number [k]. *)
Fixpoint chain_items (p : ppool) (k : nat) (ps : list dirp) : list item :=
  match ps with
  | [] => []
  | d :: ps' => let es := part_dirents p d in part_items k (length es) 0 es ++ chain_items p (S k) ps'
  end.

(** The entries from entry [j] of part [k] on. *)
Definition items_from (p : ppool) (ps : list dirp) (k j : nat) : list item :=
  match drop k ps with
  | [] => []
  | d :: ps' => let es := part_dirents p d in part_items k (length es) j (drop j es) ++ chain_items p (S k) ps'
  end.

(** The entries whose records fit into [room] bytes, and the others. *)
Fixpoint fit (room : Z) (l : list item) : list item * list item :=
  match l with
  | [] => ([], [])
  | it :: l' =>
      if negb (is_used it) then let '(l1, l2) := fit room l' in (it :: l1, l2)
      else if room <? reclen (it_entry it) then ([], l)
      else let '(l1, l2) := fit (room - reclen (it_entry it)) l' in (it :: l1, l2)
  end.

Definition item_record (p : ppool) (d64 : bool) (it : item) : list Z := entry_record p d64 (it_entry it) (it_next it).
Definition records (p : ppool) (d64 : bool) (l : list item) : list Z := l ≫= item_record p d64.

Lemma cookie_dir_offset k j : Z.of_nat k < 2 ^ 32 → Z.of_nat j < 2 ^ 32 → dir_offset (Z.of_nat k) (Z.of_nat j) = cookie k j.
Proof.
  intros Hk Hj. unfold dir_offset, cookie. rewrite Z.shiftl_mul_pow2 by lia. unfold u64. rewrite Z.mod_small by lia.
  rewrite <-Z.add_lor_land, (Z.bits_inj_0 (Z.land _ _)); [lia|]. intros i. rewrite Z.land_spec.
  destruct (decide (i < 32)) as [Hi|Hi].
  - rewrite Z.mul_pow2_bits_low by done. done.
  - rewrite andb_false_iff. right. rewrite <-(Z.mod_small (Z.of_nat j) (2 ^ 32)) by lia. apply Z.mod_pow2_bits_high. lia.
Qed.

Lemma cookie_parts k j : Z.of_nat k < 2 ^ 32 → Z.of_nat j < 2 ^ 32 → DIR_ID (cookie k j) = Z.of_nat k ∧ DIRENT_ID (cookie k j) = Z.of_nat j.
Proof.
  intros Hk Hj. unfold DIR_ID, DIRENT_ID, DIRENT_ID_MASK, cookie. change 0xffffffff with (Z.ones 32).
  rewrite Z.shiftr_div_pow2, Z.land_ones by lia. split.
  - rewrite Z.div_add_l, Z.div_small by lia. lia.
  - rewrite Z.add_comm, Z.mod_add, Z.mod_small by lia. done.
Qed.

Lemma fit_split room l : l = (fit room l).1 ++ (fit room l).2.
Proof.
  revert room. induction l as [|it l IH]; intros room; [done|]. cbn [fit]. destruct (negb (is_used it)).
  - specialize (IH room). destruct (fit room l). cbn in *. by rewrite <-IH.
  - destruct (room <? _); [done|]. specialize (IH (room - reclen (it_entry it))). destruct (fit _ l). cbn in *. by rewrite <-IH.
Qed.

Lemma fit_rest room l : match (fit room l).2 with [] => True | it :: _ => is_used it = true end.
Proof.
  revert room. induction l as [|it l IH]; intros room; [done|]. cbn [fit]. destruct (is_used it) eqn:Hu; cbn [negb].
  - destruct (room <? _); [done|]. specialize (IH (room - reclen (it_entry it))). by destruct (fit _ l).
  - specialize (IH room). by destruct (fit room l).
Qed.

Lemma item_record_length p d64 it : Z.of_nat (length (item_record p d64 it)) = if is_used it then reclen (it_entry it) else 0.
Proof.
  unfold item_record, is_used. case_bool_decide as Hu; [by apply entry_record_length|].
  apply eq_None_not_Some in Hu. unfold entry_record. by rewrite Hu.
Qed.

Lemma free_record p d64 it : de_inode (it_entry it) = None → item_record p d64 it = [].
Proof. unfold item_record, entry_record. by intros ->. Qed.

Lemma records_cons p d64 it l : records p d64 (it :: l) = item_record p d64 it ++ records p d64 l.
Proof. done. Qed.
Lemma records_app p d64 l l' : records p d64 (l ++ l') = records p d64 l ++ records p d64 l'.
Proof. apply bind_app. Qed.

Lemma fit_fits p d64 room l : 0 ≤ room → Z.of_nat (length (records p d64 (fit room l).1)) ≤ room.
Proof.
  revert room. induction l as [|it l IH]; intros room Hr; [done|]. cbn [fit].
  pose proof (item_record_length p d64 it) as Hl. destruct (is_used it); cbn [negb].
  - destruct (Z.ltb_spec room (reclen (it_entry it))); [done|]. specialize (IH (room - reclen (it_entry it)) ltac:(lia)).
    destruct (fit _ l). cbn [fst] in *. rewrite records_cons, length_app. lia.
  - specialize (IH room Hr). destruct (fit room l). cbn [fst] in *. rewrite records_cons, length_app. lia.
Qed.

(** Filling up over two pieces. *)
Lemma fit_app p d64 room l l' :
  fit room (l ++ l') =
    if decide ((fit room l).2 = []) then
      let r := fit (room - Z.of_nat (length (records p d64 l))) l' in (l ++ r.1, r.2)
    else ((fit room l).1, (fit room l).2 ++ l').
Proof.
  revert room. induction l as [|it l IH]; intros room.
  - cbn. rewrite Z.sub_0_r. by destruct (fit room l').
  - cbn [fit app]. rewrite records_cons, length_app, Nat2Z.inj_add, item_record_length. destruct (is_used it); cbn [negb].
    + destruct (room <? reclen (it_entry it)); [done|]. rewrite IH. rewrite Z.sub_add_distr.
      destruct (fit (room - _) l) as [a b]; cbn [fst snd]. by destruct (decide (b = [])).
    + rewrite IH. replace (room - (0 + Z.of_nat (length (records p d64 l)))) with (room - Z.of_nat (length (records p d64 l))) by lia.
      destruct (fit room l) as [a b]; cbn [fst snd]. by destruct (decide (b = [])).
Qed.

Lemma part_items_length k n j es : length (part_items k n j es) = length es.
Proof. revert j. induction es as [|e es IH]; intros j; [done|]. cbn. by rewrite IH. Qed.

Lemma part_items_split k n j es l1 l2 :
  part_items k n j es = l1 ++ l2 → l2 = part_items k n (j + length l1) (drop (length l1) es).
Proof.
  revert j es. induction l1 as [|it l1 IH]; intros j es Heq; cbn in *; [by rewrite Nat.add_0_r|].
  destruct es as [|e es]; [done|]. injection Heq as _ Heq. rewrite (IH _ _ Heq). cbn. f_equal. lia.
Qed.

Lemma items_from_0 p ps k : items_from p ps k 0 = chain_items p k (drop k ps).
Proof. unfold items_from. destruct (drop k ps) as [|d l]; [done|]. cbn. by rewrite drop_0. Qed.

Lemma items_from_part p ps k j d :
  ps !! k = Some d →
  items_from p ps k j = part_items k (length (part_dirents p d)) j (drop j (part_dirents p d)) ++ items_from p ps (S k) 0.
Proof. intros Hd. rewrite items_from_0. unfold items_from. by rewrite (drop_S _ _ _ Hd). Qed.

Lemma items_from_end p ps k d : ps !! k = Some d → items_from p ps k (length (part_dirents p d)) = items_from p ps (S k) 0.
Proof. intros Hd. rewrite (items_from_part _ _ _ _ _ Hd). by rewrite drop_all. Qed.

Lemma items_from_none p ps k : ps !! S k = None → items_from p ps (S k) 0 = [].
Proof. intros Hd%lookup_ge_None. rewrite items_from_0. by rewrite drop_ge. Qed.

(** The place where a filled buffer stops is a position of the directory. *)
Lemma items_from_rest p ps k j d it l1 l2 :
  ps !! k = Some d →
  part_items k (length (part_dirents p d)) j (drop j (part_dirents p d)) = l1 ++ it :: l2 →
  it_pos it = cookie k (j + length l1) ∧ (j + length l1 < length (part_dirents p d))%nat ∧
  items_from p ps k (j + length l1) = it :: l2 ++ items_from p ps (S k) 0.
Proof.
  intros Hd Heq. pose proof (f_equal length Heq) as Hlen. rewrite part_items_length, length_drop, length_app in Hlen. cbn in Hlen.
  pose proof (part_items_split _ _ _ _ _ _ Heq) as Hl2. rewrite drop_drop in Hl2.
  rewrite (items_from_part _ _ _ _ _ Hd), <-Hl2. split_and!; [|lia|done].
  destruct (drop (j + length l1) _); [discriminate Hl2|]. by injection Hl2 as -> _.
Qed.

(** ** The loops *)

Lemma set_pf_offset_set a b f : set_pf_offset a (set_pf_offset b f) = set_pf_offset a f.
Proof. by destruct f as [v [] d i]. Qed.
Lemma set_pf_offset_id a f : pf_offset f = a → set_pf_offset a f = f.
Proof. intros <-. by destruct f as [v [] d i]. Qed.
Lemma set_pf_offset_dir a d i f : set_pf_dir d i (set_pf_offset a f) = set_pf_offset a (set_pf_dir d i f).
Proof. by destruct f as [v [] ? ?]. Qed.
Lemma pf_offset_set a f : pf_offset (set_pf_offset a f) = a.
Proof. by destruct f as [v [] d i]. Qed.

Lemma pf_offset_set_dir d i f : pf_offset (set_pf_dir d i f) = pf_offset f.
Proof. done. Qed.

(** The numbers of a directory that a file offset can hold. *)
Definition small_part (k n : nat) : Prop := Z.of_nat k + 1 < 2 ^ 32 ∧ Z.of_nat n < 2 ^ 32.

Lemma next_off_item f x k j e :
  small_part k (d_num_elements x) → (j < d_num_elements x)%nat → pf_offset f = cookie k j →
  get_next_dirent_off f x (Z.of_nat j) = it_next (item_at k (d_num_elements x) j e).
Proof.
  intros [Hk Hn] Hj Hf. unfold get_next_dirent_off, item_at. rewrite Hf. cbn [it_next].
  replace (u64 (cookie k j + 1)) with (cookie k (S j)); [|unfold u64, cookie; rewrite Z.mod_small by lia; lia].
  replace (u32 (Z.of_nat j + 1)) with (Z.of_nat (S j)); [|unfold u32; rewrite Z.mod_small by lia; lia].
  destruct (Nat.leb_spec (d_num_elements x) (S j)) as [Hle|Hle]; 
    destruct (Z.leb_spec (Z.of_nat (d_num_elements x)) (Z.of_nat (S j))); try lia.
  rewrite Z.shiftr_div_pow2, Z.shiftl_mul_pow2 by lia.
  destruct (decide (Z.of_nat (S j) < 2 ^ 32)) as [Hs|Hs]; [|lia].
  replace (cookie k (S j) / 2 ^ 32) with (Z.of_nat k); [|unfold cookie; rewrite Z.div_add_l, Z.div_small by lia; lia].
  unfold u64, cookie. rewrite (Z.mod_small (Z.of_nat k + 1)), Z.mod_small by lia. lia.
Qed.

Definition part_result (p : ppool) (d64 : bool) (count : Z) (k n : nat) (data : list Z) (f : pmemfile_file) (l : list item) : listed :=
  let r := fit (count - Z.of_nat (length data)) l in
  match r.2 with
  | [] => PartDone (data ++ records p d64 r.1) (Z.of_nat n) (set_pf_offset (cookie k n) f)
  | it :: _ => Full (data ++ records p d64 r.1) (set_pf_offset (it_pos it) f)
  end.

Section loops.
Context (s : pool) (d64 : bool) (count : Z) (Hcount : count < 2 ^ 32).
Local Notation p := (po_pm s).

Lemma wp_list_part x k (Q : listed → pool → Prop) E es j data f :
  small_part k (d_num_elements x) → (j + length es)%nat = d_num_elements x → Z.of_nat (length data) ≤ count →
  pf_offset f = cookie k j → Forall (listable p) es →
  Q (part_result p d64 count k (d_num_elements x) data f (part_items k (d_num_elements x) j es)) s →
  wp (list_part d64 count x es (Z.of_nat j) data f) Q E s.
Proof.
  intros Hsm. revert j data f. induction es as [|e es IH]; intros j data f Hn Hd Hf Hl HQ; cbn [list_part].
  - apply wp_ret. revert HQ. unfold part_result. cbn. cbn in Hn. rewrite Nat.add_0_r in Hn. subst j.
    by rewrite app_nil_r, set_pf_offset_id.
  - apply Forall_cons in Hl as [He Hl]. cbn in Hn. destruct Hsm as [Hk Hlt].
    assert (Hnext : u32 (Z.of_nat j + 1) = Z.of_nat (S j)) by (unfold u32; rewrite Z.mod_small; lia).
    assert (Hoff : u64 (pf_offset f + 1) = cookie k (S j)) by (rewrite Hf; unfold u64, cookie; rewrite Z.mod_small; lia).
    rewrite Hnext, Hoff. revert HQ. unfold part_result. cbn [part_items fit].
    assert (Hu : is_used (item_at k (d_num_elements x) j e) = bool_decide (is_Some (de_inode e))) by done. rewrite Hu. clear Hu.
    change (it_entry (item_at _ _ j e)) with e. destruct (de_inode e) as [o|] eqn:Ho.
    + rewrite (bool_decide_eq_false_2 (Some o = None)) by done. rewrite bool_decide_eq_true_2 by (by eexists). cbn [negb]. intros HQ.
      apply wp_bind. apply wp_fill_dirent; [done|by eexists|]. rewrite (next_off_item _ _ k _ e) by (done || lia).
      replace (u32 (count - Z.of_nat (length data))) with (count - Z.of_nat (length data)) by (unfold u32; rewrite Z.mod_small; lia).
      revert HQ. destruct (Z.ltb_spec (count - Z.of_nat (length data)) (reclen e)) as [Hlt'|Hge]; intros HQ.
      * apply wp_ret. revert HQ. cbn [fst snd it_pos]. change (records p d64 []) with (@nil Z). by rewrite app_nil_r, set_pf_offset_id.
      * pose proof (entry_record_length p d64 e (it_next (item_at k (d_num_elements x) j e)) ltac:(by eexists)) as Hlen.
        apply IH; [lia|rewrite length_app; lia|by rewrite pf_offset_set|done|]. unfold part_result. rewrite length_app, Nat2Z.inj_add, Z.sub_add_distr, Hlen.
        revert HQ. destruct (fit (count - _ - _) _) as [l1 [|it l2]]; cbn [fst snd]; rewrite records_cons, <-app_assoc, !set_pf_offset_set; exact id.
    + rewrite (bool_decide_eq_true_2 (None = None)) by done. rewrite bool_decide_eq_false_2 by (by intros []). cbn [negb]. intros HQ.
      apply IH; [lia|done|by rewrite pf_offset_set|done|]. unfold part_result. revert HQ.
      destruct (fit (count - _) _) as [l1 [|it l2]]; cbn [fst snd]; rewrite records_cons, (free_record p d64 (item_at k (d_num_elements x) j e) Ho), !set_pf_offset_set; exact id.
Qed.

(** The handle [f] at entry [j] of part [k]. *)
Definition moved (ps : list dirp) (k j : nat) (f : pmemfile_file) : pmemfile_file :=
  set_pf_offset (cookie k j) (set_pf_dir (ps !! k) (Z.of_nat k) f).

(** The parts as the listing needs them. *)
Definition parts_listable (ps : list dirp) : Prop :=
  ∀ k d, ps !! k = Some d →
    ∃ x, dir_lookup p d = Some x ∧ part_ok x ∧ small_part k (d_num_elements x) ∧ Forall (listable p) (d_dirents x).

Lemma chain_drop q d0 ps k d : dir_chain q d0 ps → ps !! k = Some d → dir_chain q d (drop k ps).
Proof.
  intros Hc. revert k d. induction Hc as [d0 x Hx Hn|d0 x o ps Hx Hn Hc IH]; intros [|k] d Hd; cbn in Hd; simplify_eq/=.
  - by eapply chain_last.
  - by eapply chain_next.
  - by apply IH.
Qed.

Lemma chain_next_lookup q d0 ps k d x :
  dir_chain q d0 ps → ps !! k = Some d → dir_lookup q d = Some x → ps !! S k = DirObj <$> d_next x.
Proof.
  intros Hc Hd Hx. pose proof (chain_drop _ _ _ _ _ Hc Hd) as Hc'. rewrite (drop_S _ _ _ Hd) in Hc'.
  rewrite <-(Nat.add_0_r (S k)), <-lookup_drop. inversion Hc' as [? y Hy Hn Heq1 Heq2|? y o l Hy Hn Hl Heq1 Heq2]; simplify_eq; [by rewrite Hn|].
  rewrite Hn. destruct (chain_head _ _ _ Hl) as [l' ->]. done.
Qed.

Lemma moved_moved ps k j k' j' f : moved ps k j (moved ps k' j' f) = moved ps k j f.
Proof. by destruct f as [v [] d i]. Qed.

Lemma wp_list_parts d0 ps (Q : bool * list Z * pmemfile_file → pool → Prop) E f fuel k j d data :
  dir_chain p d0 ps → parts_listable ps → ps !! k = Some d → (length ps ≤ fuel + k)%nat → (j ≤ length (part_dirents p d))%nat →
  Z.of_nat (length data) ≤ count →
  (∀ k' j' d', let r := fit (count - Z.of_nat (length data)) (items_from p ps k j) in
     ps !! k' = Some d' → (j' ≤ length (part_dirents p d'))%nat → items_from p ps k' j' = r.2 →
     Q (negb (bool_decide (r.2 = [])), data ++ records p d64 r.1, moved ps k' j' f) s) →
  wp (list_parts fuel d64 count d (Z.of_nat j) data (moved ps k j f)) Q E s.
Proof.
  intros Hc Hps. revert k j d data. induction fuel as [|fuel IH]; intros k j d data Hd Hfuel Hj Hdata HQ.
  { apply lookup_lt_Some in Hd. lia. }
  cbn [list_parts]. destruct (Hps _ _ Hd) as (x & Hx & Hok & Hsm & Hl). pose proof Hok as (Hn & Hne & _).
  assert (Hpd : part_dirents p d = d_dirents x) by (unfold part_dirents; by rewrite Hx). rewrite Hpd in Hj.
  apply wp_bind. eapply wp_dir_get; [done|]. apply wp_bind. rewrite Nat2Z.id, part_ok_used by done.
  apply (wp_list_part x k); [done|rewrite length_drop; lia|done|apply pf_offset_set|by apply Forall_drop|].
  pose proof (items_from_part p ps k j d Hd) as Hitems. rewrite Hpd, <-Hn in Hitems.
  unfold part_result. set (l := part_items k (d_num_elements x) j (drop j (d_dirents x))) in *.
  set (room := count - Z.of_nat (length data)) in *. rewrite Hitems, (fit_app p d64) in HQ.
  pose proof (fit_split room l) as Hsplit. pose proof (fit_fits p d64 room l ltac:(lia)) as Hfit.
  destruct (fit room l) as [l1 [|it l2]] eqn:Hr; cbn [fst snd] in *.
  - rewrite app_nil_r in Hsplit. subst l1. rewrite decide_True in HQ by done. cbn [fst snd] in HQ.
    pose proof (chain_next_lookup _ _ _ _ _ _ Hc Hd Hx) as Hnext. destruct (d_next x) as [o|]; cbn [fmap option_fmap option_map] in Hnext.
    + replace (set_pf_offset (cookie k (d_num_elements x)) (moved ps k j f)) with (moved ps k (d_num_elements x) f) by (by destruct f as [? [] ? ?]).
      assert (Hk : u32 (pf_dir_id (moved ps k (d_num_elements x) f) + 1) = Z.of_nat (S k)).
      { destruct Hsm. unfold u32. cbn. rewrite Z.mod_small by lia. lia. }
      rewrite Hk. replace (dir_offset (Z.of_nat (S k)) 0) with (cookie (S k) 0); [|symmetry; apply (cookie_dir_offset (S k) 0); destruct Hsm; lia].
      replace (set_pf_offset _ _) with (moved ps (S k) 0 f) by (unfold moved; rewrite Hnext; by destruct f as [? [] ? ?]).
      apply (IH (S k) 0%nat); [done|lia|lia|rewrite length_app; lia|]. rewrite length_app, Nat2Z.inj_add, Z.sub_add_distr. fold room.
      intros k' j' d' Hk' Hj' Hi'. specialize (HQ k' j' d' Hk' Hj' Hi'). by rewrite records_app, app_assoc in HQ.
    + apply wp_ret. rewrite (items_from_none _ _ _ Hnext) in HQ. cbn in HQ. rewrite app_nil_r in HQ.
      replace (set_pf_offset (cookie k (d_num_elements x)) (moved ps k j f)) with (moved ps k (d_num_elements x) f) by (by destruct f as [? [] ? ?]).
      apply (HQ k (d_num_elements x) d); [done|by rewrite Hpd; lia|]. rewrite Hn, <-Hpd. rewrite (items_from_end _ _ _ _ Hd). by apply items_from_none.
  - rewrite decide_False in HQ by done. cbn [fst snd] in HQ. apply wp_ret.
    destruct (items_from_rest p ps k j d it l1 l2 Hd) as (Hpos & Hlt & Hrest); [by rewrite Hpd, <-Hn|].
    rewrite Hpos. replace (set_pf_offset (cookie k (j + length l1)) (moved ps k j f)) with (moved ps k (j + length l1) f) by (by destruct f as [? [] ? ?]).
    rewrite bool_decide_eq_false_2 in HQ by done. apply (HQ _ _ d); [done|lia|]. by rewrite Hrest.
Qed.
End loops.

(** ** Finding the position *)

(** A handle remembers a part of the directory; its offset names an entry, the end
    of a part, or the end of the directory. *)
Definition cached (ps : list dirp) (f : pmemfile_file) : Prop :=
  ∃ k, (k < length ps)%nat ∧ pf_dir f = ps !! k ∧ pf_dir_id f = Z.of_nat k.

Definition valid_pos (p : ppool) (ps : list dirp) (k j : nat) : Prop :=
  match ps !! k with
  | Some d => (j ≤ length (part_dirents p d))%nat
  | None => k = length ps ∧ j = 0%nat
  end.

Record handle_at (p : ppool) (ps : list dirp) (k j : nat) (f : pmemfile_file) : Prop := {
  ha_cached : cached ps f;
  ha_offset : pf_offset f = cookie k j;
  ha_valid : valid_pos p ps k j;
}.

Lemma moved_at p ps k j d f : ps !! k = Some d → (j ≤ length (part_dirents p d))%nat → handle_at p ps k j (moved ps k j f).
Proof.
  intros Hd Hj. split; [|apply pf_offset_set|].
  - exists k. split; [by eapply lookup_lt_Some|]. done.
  - unfold valid_pos. by rewrite Hd.
Qed.

Section seek.
Context (s : pool) (i : oid) (ps : list dirp).
Local Notation p := (po_pm s).
Hypothesis (Hchain : dir_chain p (InInode i) ps) (Hparts : parts_listable s ps).

Lemma wp_seek_part want fuel d k (Q : option (dirp * Z) → pool → Prop) E :
  ps !! k = Some d → (k ≤ want ≤ length ps)%nat → (length ps ≤ fuel + k)%nat →
  Q (match ps !! want with Some d' => Some (d', Z.of_nat want) | None => None end) s →
  wp (seek_part fuel (Z.of_nat want) d (Z.of_nat k)) Q E s.
Proof.
  revert d k. induction fuel as [|fuel IH]; intros d k Hd Hk Hfuel HQ; [apply lookup_lt_Some in Hd; lia|]. cbn [seek_part].
  destruct (decide (want = k)) as [->|Hne].
  - rewrite Z.eqb_refl. apply wp_ret. by rewrite Hd in HQ.
  - replace (Z.of_nat want =? Z.of_nat k) with false by lia. destruct (Hparts _ _ Hd) as (x & Hx & Hok & [Hsm _] & _).
    apply wp_bind. eapply wp_dir_get; [done|]. pose proof (chain_next_lookup _ _ _ _ _ _ Hchain Hd Hx) as Hnext.
    destruct (d_next x) as [o|]; cbn [fmap option_fmap option_map] in Hnext.
    + replace (u32 (Z.of_nat k + 1)) with (Z.of_nat (S k)) by (unfold u32; rewrite Z.mod_small; lia).
      apply IH; [done|lia|lia|done].
    + apply wp_ret. apply lookup_ge_None in Hnext. by rewrite (lookup_ge_None_2 ps want) in HQ by lia.
Qed.

(** The end of a part is the start of the next one. *)
Lemma wp_seek_dirent f k j d fuel (Q : option (dirp * Z) * pmemfile_file → pool → Prop) E :
  ps !! k = Some d → (j ≤ length (part_dirents p d))%nat → (2 ≤ fuel ∨ (1 ≤ fuel ∧ length ps = S k))%nat →
  (items_from p ps k j = [] → Q (None, set_pf_dir (ps !! k) (Z.of_nat k) f) s) →
  (∀ k' j' d', items_from p ps k' j' = items_from p ps k j → items_from p ps k j ≠ [] → ps !! k' = Some d' →
     (j' < length (part_dirents p d'))%nat → Q (Some (d', Z.of_nat j'), set_pf_dir (ps !! k') (Z.of_nat k') f) s) →
  wp (seek_dirent fuel (set_pf_dir (ps !! k) (Z.of_nat k) f) d (Z.of_nat j)) Q E s.
Proof.
  intros Hd Hj Hfuel Hnone Hsome. destruct fuel as [|fuel]; [lia|]. cbn [seek_dirent].
  destruct (Hparts _ _ Hd) as (x & Hx & (Hn & Hne & _) & [Hsm _] & _).
  assert (Hpd : part_dirents p d = d_dirents x) by (unfold part_dirents; by rewrite Hx). rewrite Hpd in Hj.
  apply wp_bind. eapply wp_dir_get; [done|]. destruct (Z.leb_spec (Z.of_nat (d_num_elements x)) (Z.of_nat j)) as [Hle|Hlt].
  - assert (j = length (d_dirents x)) as -> by lia. pose proof (items_from_end p ps k d Hd) as Hend. rewrite Hpd in Hend.
    pose proof (chain_next_lookup _ _ _ _ _ _ Hchain Hd Hx) as Hnext. destruct (d_next x) as [o|]; cbn [fmap option_fmap option_map] in Hnext.
    + destruct fuel as [|fuel]; [apply lookup_lt_Some in Hnext; lia|]. cbn [seek_dirent].
      destruct (Hparts _ _ Hnext) as (y & Hy & (Hny & Hney & _) & _).
      assert (Hpy : part_dirents p (DirObj o) = d_dirents y) by (unfold part_dirents; by rewrite Hy).
      assert (0 < length (d_dirents y))%nat by (destruct (d_dirents y); [done|cbn; lia]).
      apply wp_bind. eapply wp_dir_get; [done|]. rewrite Hn, Z.sub_diag.
      replace (Z.of_nat (d_num_elements y) <=? 0) with false by lia. apply wp_ret.
      replace (u32 (pf_dir_id _ + 1)) with (Z.of_nat (S k)); [|cbn; unfold u32; rewrite Z.mod_small; lia].
      rewrite <-Hnext. replace (set_pf_dir _ _ (set_pf_dir _ _ f)) with (set_pf_dir (ps !! S k) (Z.of_nat (S k)) f) by (by destruct f).
      apply (Hsome (S k) 0%nat); [done| |done|rewrite Hpy; lia].
      rewrite Hend, (items_from_part _ _ _ _ _ Hnext), Hpy, drop_0. by destruct (d_dirents y).
    + apply wp_ret, Hnone. rewrite Hend. by apply items_from_none.
  - apply wp_ret. apply Hsome; [done| |done|rewrite Hpd; lia].
    rewrite (items_from_part _ _ _ _ _ Hd), Hpd. destruct (drop j (d_dirents x)) eqn:Hdrop; [|done].
    apply (f_equal length) in Hdrop. rewrite length_drop in Hdrop. cbn in Hdrop. lia.
Qed.

Lemma cached_part f : cached ps f → ∃ k d, ps !! k = Some d ∧ pf_dir f = Some d ∧ pf_dir_id f = Z.of_nat k ∧ f = set_pf_dir (ps !! k) (Z.of_nat k) f.
Proof.
  intros (k & Hk & Hd & Hid). destruct (lookup_lt_is_Some_2 ps k Hk) as [d Hk']. exists k, d.
  rewrite Hk' in *. split_and!; [done..|]. destruct f; cbn in *. by subst.
Qed.

Lemma pos_range k j : valid_pos p ps k j → Z.of_nat k < 2 ^ 32 ∧ Z.of_nat j < 2 ^ 32 ∧ (k ≤ length ps)%nat.
Proof using Hchain Hparts.
  intros Hval. destruct (chain_head _ _ _ Hchain) as [ps' Hhead]. unfold valid_pos in Hval. destruct (ps !! k) as [d|] eqn:Hk.
  - destruct (Hparts _ _ Hk) as (y & Hy & (Hn & _) & [Hs1 Hs2] & _). unfold part_dirents in Hval. rewrite Hy in Hval.
    apply lookup_lt_Some in Hk. lia.
  - destruct Hval as [-> ->]. destruct (lookup_lt_is_Some_2 ps (length ps - 1)) as [d Hd]; [rewrite Hhead; cbn; lia|].
    destruct (Hparts _ _ Hd) as (y & Hy & _ & [Hs1 Hs2] & _). rewrite Hhead in *. cbn in *. lia.
Qed.

Lemma wp_file_seek_dir f k j x (Q : option (dirp * Z) * pmemfile_file → pool → Prop) E :
  NoDup ps → handle_at p ps k j f → po_vnodes s !! pf_vinode f = Some x → vn_tinode x = i →
  (items_from p ps k j = [] → ∀ k', (k' < length ps)%nat → Q (None, set_pf_dir (ps !! k') (Z.of_nat k') f) s) →
  (∀ k' j' d', items_from p ps k' j' = items_from p ps k j → items_from p ps k j ≠ [] → ps !! k' = Some d' →
     (j' < length (part_dirents p d'))%nat → Q (Some (d', Z.of_nat j'), moved ps k' j' f) s) →
  wp (file_seek_dir f) Q E s.
Proof.
  intros Hnd [Hca Hoff Hval] Hv Hi Hnone Hsome. unfold file_seek_dir.
  apply wp_bind. eapply wp_vnode_get; [done|]. rewrite Hi. apply wp_bind. unfold dir_fuel. apply wp_gets, wp_bind.
  pose proof (chain_length _ _ _ Hchain Hnd) as Hlen. destruct (chain_head _ _ _ Hchain) as [ps' Hhead].
  assert (H0 : ps !! 0%nat = Some (InInode i)) by (by rewrite Hhead).
  pose proof (pos_range k j Hval) as Hrange.
  destruct Hrange as (Hk & Hj & Hkl). rewrite Hoff. destruct (cookie_parts k j Hk Hj) as [HD HE]. rewrite HD.
  (* the part with number [k] *)
  assert (Hfrom : ∀ d, ps !! k = Some d → wp
    ('(r, file) ← seek_dirent (S (size (pp_dirs p))) (set_pf_dir (ps !! k) (Z.of_nat k) f) d (DIRENT_ID (cookie k j));
     match r with
     | None => mret (None, file)
     | Some (d, dirent) => mret (Some (d, dirent), set_pf_offset (dir_offset (pf_dir_id file) dirent) file)
     end) Q E s).
  { intros d Hd. unfold valid_pos in Hval. rewrite Hd in Hval. apply wp_bind. rewrite HE. apply wp_seek_dirent; [done|done| | |].
    - apply lookup_lt_Some in Hd. lia.
    - intros Hnil. apply wp_ret. apply Hnone; [done|by eapply lookup_lt_Some].
    - intros k' j' d' Hit Hne Hd' Hj'. apply wp_ret. cbn [pf_dir_id set_pf_dir].
      destruct (Hparts _ _ Hd') as (y & Hy & (Hn & _) & [Hs1 Hs2] & _). unfold part_dirents in Hj'. rewrite Hy in Hj'.
      rewrite cookie_dir_offset by lia. apply (Hsome k' j' d'); [done..|]. unfold part_dirents. by rewrite Hy. }
  destruct (Z.eqb_spec (cookie k j) 0) as [Hz|Hz].
  - assert (k = 0%nat ∧ j = 0%nat) as [-> ->] by (unfold cookie in Hz; lia). apply wp_ret.
    rewrite <-H0. change 0 with (Z.of_nat 0). specialize (Hfrom _ H0). rewrite pf_offset_set_dir, Hoff. rewrite H0 in *. exact Hfrom.
  - destruct (Z.eqb_spec (Z.of_nat k) (pf_dir_id f)) as [Hid|Hid].
    + destruct (cached_part f Hca) as (k0 & d & Hk0 & Hdir & Hid0 & Hf). assert (k0 = k) as -> by lia.
      apply wp_ret. rewrite Hdir, Hoff. specialize (Hfrom _ Hk0). by rewrite <-Hf in Hfrom.
    + apply wp_bind. change 0 with (Z.of_nat 0). apply wp_seek_part; [done|lia|lia|].
      destruct (ps !! k) as [d|] eqn:Hd; apply wp_ret.
      * rewrite pf_offset_set_dir, Hoff. by apply Hfrom.
      * apply wp_ret. destruct (cached_part f Hca) as (k0 & d & Hk0 & _ & _ & Hf). rewrite Hf. apply Hnone; [|by eapply lookup_lt_Some].
        unfold items_from. by rewrite drop_ge by (by apply lookup_ge_None).
Qed.
End seek.

(** ** One call *)

(** A handle at another position of its directory. *)
Definition repositioned (f g : pmemfile_file) : Prop := ∃ o d id, g = set_pf_offset o (set_pf_dir d id f).

(** The result of a call that found the entries [l] and split them into [r],
    the first half of it taking [n] bytes. *)
Definition dents_code (l : list item) (r : list item * list item) (n : Z) : Z :=
  if n =? 0 then match l with [] => 0 | _ => match r.2 with [] => - ENOENT | _ => - EINVAL end end else n.

(** The directory [i] has the parts [ps], all of them fit for listing, and the
    handle [f] is open on it. *)
Record listing (s : pool) (ps : list dirp) (f : pmemfile_file) : Prop := {
  ls_vnode : ∃ x i, po_vnodes s !! pf_vinode f = Some x ∧ inode_lookup (po_pm s) (vn_tinode x) = Some i ∧ inode_is_dir i = true ∧
    dir_chain (po_pm s) (InInode (vn_tinode x)) ps;
  ls_nodup : NoDup ps;
  ls_parts : parts_listable s ps;
  ls_read : has (pf_flags f) PFILE_READ = true;
  ls_lock : po_locks s !! LVinode (pf_vinode f) = None;
}.

Section call.
Context (s : pool) (ps : list dirp).
Local Notation p := (po_pm s).

Lemma repositioned_flags f g : repositioned f g → pf_vinode g = pf_vinode f ∧ pf_flags g = pf_flags f.
Proof. intros (o & d & id & ->). by destruct f as [v [] ? ?]. Qed.

Lemma wp_getdents_worker d64 f i x k j count (Q : Z * list Z * pmemfile_file → pool → Prop) E :
  dir_chain p (InInode i) ps → NoDup ps → parts_listable s ps → po_vnodes s !! pf_vinode f = Some x → vn_tinode x = i →
  handle_at p ps k j f → 0 ≤ count < 2 ^ 32 →
  (∀ g k' j', let l := items_from p ps k j in let r := fit count l in
     handle_at p ps k' j' g → repositioned f g → items_from p ps k' j' = r.2 →
     Q (dents_code l r (Z.of_nat (length (records p d64 r.1))), records p d64 r.1, g) s) →
  wp (pmemfile_getdents_worker d64 f count) Q E s.
Proof.
  intros Hc Hnd Hps Hv Hi Hat Hcount HQ. unfold pmemfile_getdents_worker. pose proof Hat as [_ Hoff Hval].
  apply wp_bind. eapply (wp_file_seek_dir s i ps Hc Hps f k j x); [done..| |].
  - intros Hnil k' Hk'. apply wp_ret. specialize (HQ (set_pf_dir (ps !! k') (Z.of_nat k') f) k j). rewrite Hnil in HQ. cbn in HQ.
    apply HQ; [|exists (pf_offset f), (ps !! k'), (Z.of_nat k'); by destruct f as [? [] ? ?]|done].
    split; [by exists k'|by rewrite pf_offset_set_dir|done].
  - intros k' j' d' Hit Hne Hd' Hj'. apply wp_bind. unfold dir_fuel. apply wp_gets, wp_bind.
    pose proof (chain_length _ _ _ Hc Hnd) as Hlen.
    apply (wp_list_parts s d64 count ltac:(lia) (InInode i) ps); [done|done|done|lia|lia|cbn; lia|].
    intros k2 j2 d2 r Hk2 Hj2 Hi2. specialize (HQ (moved ps k2 j2 f) k2 j2). subst r. cbn [length] in *. rewrite Z.sub_0_r, Hit in *.
    specialize (HQ (moved_at _ _ _ _ _ _ Hk2 Hj2) ltac:(by eexists _, _, _) Hi2). unfold dents_code in HQ.
    cbn [app]. destruct (items_from p ps k j) as [|it l]; [done|]. clear Hne.
    destruct (Z.eqb_spec (Z.of_nat (length (records p d64 (fit count (it :: l)).1))) 0) as [Hz|Hz]; apply wp_ret; [|done].
    destruct (records p d64 (fit count (it :: l)).1); [|cbn in Hz; lia].
    destruct ((fit count (it :: l)).2); [by rewrite bool_decide_eq_true_2 in * by done|by rewrite bool_decide_eq_false_2 in * by done].
Qed.
End call.

(** What one call returns and where it leaves the handle. *)
Definition getdents_post (s : pool) (ps : list dirp) (d64 : bool) (k j : nat) (f : pmemfile_file) (count : Z)
    (res : Z * list Z * option pmemfile_file) (s' : pool) : Prop :=
  let l := items_from (po_pm s) ps k j in
  let r := fit (if INT_MAX <? count then INT_MAX else count) l in
  let bytes := records (po_pm s) d64 r.1 in
  let code := dents_code l r (Z.of_nat (length bytes)) in
  ∃ g k' j', res = (if code <? 0 then -1 else code, bytes, Some g) ∧ s' = (if code <? 0 then set_po_errno (- code) s else s) ∧
    handle_at (po_pm s) ps k' j' g ∧ repositioned f g ∧ items_from (po_pm s) ps k' j' = r.2.

Lemma wp_getdents s ps d64 f k j count (Q : Z * list Z * option pmemfile_file → pool → Prop) E :
  listing s ps f → handle_at (po_pm s) ps k j f → 0 ≤ count < 2 ^ 32 →
  (∀ res s', getdents_post s ps d64 k j f count res s' → Q res s') →
  wp (pmemfile_getdents_generic d64 true (Some f) true count) Q E s.
Proof.
  intros [(x & i & Hx & Hi & Hdir & Hc) Hnd Hps Hread Hlock] Hat Hcount HQ. unfold pmemfile_getdents_generic. cbn [negb].
  apply wp_bind. unfold vinode_is_dir, vinode_inode. apply wp_bind, wp_bind. eapply wp_vnode_get; [done|]. eapply wp_inode_get; [done|].
  apply wp_ret. rewrite Hdir, Hread. cbn [negb]. apply wp_bind. apply wp_lock_; [done|]. apply wp_bind.
  set (s1 := set_po_locks _ s). assert (Hpm : po_pm s1 = po_pm s) by done.
  set (n := if INT_MAX <? count then INT_MAX else count).
  assert (Hn : 0 ≤ n < 2 ^ 31) by (unfold n, INT_MAX; destruct (Z.ltb_spec (2 ^ 31 - 1) count); lia).
  eapply (wp_getdents_worker s1 ps d64 f (vn_tinode x) x k j n); [done..|lia|]. rewrite Hpm. intros g k' j' l r Hg Hrep Hrest.
  apply wp_bind. rewrite (proj1 (repositioned_flags _ _ Hrep)). apply wp_unlock_; [cbn; rewrite lookup_insert_eq; by eexists|].
  assert (Hs : set_po_locks (delete (LVinode (pf_vinode f)) (po_locks s1)) s1 = s).
  { cbn. rewrite delete_insert_id by done. by destruct s. }
  rewrite Hs. set (code := dents_code _ _ _).
  assert (Hpost : getdents_post s ps d64 k j f count (if code <? 0 then -1 else code, records (po_pm s) d64 r.1, Some g) (if code <? 0 then set_po_errno (- code) s else s)).
  { exists g, k', j'. done. }
  specialize (HQ _ _ Hpost). clear Hpost. destruct (Z.ltb_spec code 0) as [Hneg|Hpos].
  - apply wp_bind. unfold pool_fail, set_errno. apply wp_bind, wp_modify, wp_ret, wp_ret. done.
  - apply wp_bind, wp_assert; [|by apply wp_ret].
    pose proof (fit_fits (po_pm s) d64 n l ltac:(lia)) as Hfit. fold r in Hfit. unfold code, dents_code in *.
    destruct (_ =? 0); [|lia]. destruct l; [lia|]. by destruct (r.2).
Qed.

(** ** Reading records back *)

(** A record as a program sees it: inode number, offset of the next record, type
    and name. *)
Record dent := Dent { dn_ino : Z; dn_off : Z; dn_type : Z; dn_name : list Z }.

Fixpoint until_zero (bs : list Z) : list Z :=
  match bs with [] => [] | b :: bs' => if b =? 0 then [] else b :: until_zero bs' end.

Definition decode_one (d64 : bool) (r : list Z) : dent :=
  Dent (le_value (take 8 r)) (le_value (take 8 (drop 8 r)))
    (if d64 then nth 18 r 0 else List.last r 0) (until_zero (drop (if d64 then 19 else 18) r)).

(** The records of a buffer, by their lengths; [None] for a malformed buffer. *)
Fixpoint decode (fuel : nat) (d64 : bool) (bs : list Z) : option (list dent) :=
  match bs with
  | [] => Some []
  | _ =>
      let len := Z.to_nat (le_value (take 2 (drop 16 bs))) in
      match fuel with
      | O => None
      | S fuel' =>
          if (len <? 20)%nat || (length bs <? len)%nat then None
          else ds ← decode fuel' d64 (drop len bs); Some (decode_one d64 (take len bs) :: ds)
      end
  end.

(** The records of the used entries. *)
Definition item_dent (p : ppool) (it : item) : option dent :=
  o ← de_inode (it_entry it); Some (Dent (Zpos o) (it_next it) (entry_type p o) (char_bytes (until_nul (de_name (it_entry it))))).

(** The values of an entry fit into their fields. *)
Definition encodable (it : item) : Prop :=
  (strlen (de_name (it_entry it)) ≤ 255)%nat ∧ 0 ≤ it_next it < 2 ^ 64 ∧ ∀ o, de_inode (it_entry it) = Some o → Zpos o < 2 ^ 64.

Lemma char_bytes_nonzero s : NUL ∉ s → 0 ∉ char_bytes s.
Proof.
  intros Hn (c & Hc & Hin)%list_elem_of_fmap. assert (c = NUL) as ->; [|done].
  rewrite <-(ascii_nat_embedding c). replace (nat_of_ascii c) with 0%nat by lia. done.
Qed.

Lemma until_zero_app bs l : 0 ∉ bs → until_zero (bs ++ 0 :: l) = bs.
Proof.
  induction bs as [|b bs IH]; cbn; [done|]. intros [Hb Hbs]%not_elem_of_cons. destruct (Z.eqb_spec b 0); [by subst|]. by rewrite IH.
Qed.

Lemma le_value_small n x l : 0 ≤ x < 256 ^ Z.of_nat n → le_value (take n (le_bytes n x ++ l)) = x.
Proof. intros Hx. rewrite take_app_length' by (by rewrite le_bytes_length). rewrite le_value_bytes. by apply Z.mod_small. Qed.

Lemma drop_le_bytes n m x l : drop (n + m) (le_bytes n x ++ l) = drop m l.
Proof. rewrite drop_app_ge by (rewrite le_bytes_length; lia). f_equal. rewrite le_bytes_length. lia. Qed.

Lemma decode_record d64 o t next name :
  Zpos o < 2 ^ 64 → 0 ≤ next < 2 ^ 64 → NUL ∉ name →
  decode_one d64 (record d64 o t next name) = Dent (Zpos o) next t (char_bytes name).
Proof.
  intros Ho Hnext Hname. unfold decode_one, record. set (pad := replicate _ 0). set (len := 8 * _).
  assert (Hz : 0 ∉ char_bytes name) by (by apply char_bytes_nonzero). destruct d64; rewrite <-!app_assoc.
  - f_equal.
    + apply le_value_small. cbn; lia.
    + rewrite (drop_le_bytes 8 0). apply le_value_small. cbn; lia.
    + change 19%nat with (8 + (8 + (2 + 1)))%nat. rewrite 3!drop_le_bytes. cbn. by apply until_zero_app.
  - f_equal.
    + apply le_value_small. cbn; lia.
    + rewrite (drop_le_bytes 8 0). apply le_value_small. cbn; lia.
    + rewrite !app_assoc. apply last_last.
    + change 18%nat with (8 + (8 + (2 + 0)))%nat. rewrite 3!drop_le_bytes. cbn. by apply until_zero_app.
Qed.

Lemma record_reclen d64 o t next name l : (length name ≤ 255)%nat →
  le_value (take 2 (drop 16 (record d64 o t next name ++ l))) = 8 * ((20 + Z.of_nat (length name) + 7) / 8).
Proof.
  intros Hl. unfold record. pose proof (Z.div_mod (20 + Z.of_nat (length name) + 7) 8 ltac:(lia)).
  pose proof (Z.mod_pos_bound (20 + Z.of_nat (length name) + 7) 8 ltac:(lia)).
  destruct d64; rewrite <-!app_assoc; change 16%nat with (8 + (8 + 0))%nat; rewrite 2!drop_le_bytes; cbn [drop]; apply le_value_small; cbn; lia.
Qed.

(** Both formats round trip: the records of a list of entries decode to these
    entries. *)
Lemma decode_records p d64 l fuel : Forall encodable l → (length l ≤ fuel)%nat → decode fuel d64 (records p d64 l) = Some (omap (item_dent p) l).
Proof.
  revert fuel. induction l as [|it l IH]; intros fuel Hl Hfuel; [by destruct fuel|].
  apply Forall_cons in Hl as [(Hlen & Hnext & Ho) Hl]. destruct fuel as [|fuel]; [cbn in Hfuel; lia|]. cbn [length] in Hfuel.
  rewrite records_cons. cbn [omap list_omap]. destruct (de_inode (it_entry it)) as [o|] eqn:Hi.
  - assert (Hr : item_record p d64 it = record d64 o (entry_type p o) (it_next it) (until_nul (de_name (it_entry it)))).
    { unfold item_record, entry_record. by rewrite Hi. }
    pose proof (record_length d64 o (entry_type p o) (it_next it) (until_nul (de_name (it_entry it)))) as Hrl.
    pose proof (record_reclen d64 o (entry_type p o) (it_next it) (until_nul (de_name (it_entry it))) (records p d64 l) Hlen) as Hre.
    destruct (reclen_bounds (it_entry it) Hlen) as (Hb1 & Hb2 & Hb3). unfold strlen in *. rewrite <-Hb2, <-Hr in Hrl, Hre.
    assert (Hid : item_dent p it = Some (decode_one d64 (item_record p d64 it))).
    { unfold item_dent. rewrite Hi. cbn. rewrite Hr, decode_record; [done|by apply Ho|done|apply until_nul_no_nul]. }
    rewrite Hid. clear Hr Hid. destruct (item_record p d64 it) as [|b bs] eqn:Hbs; [cbn in Hrl; lia|]. rewrite <-Hbs in *.
    assert (Hcons : ∃ b' bs', item_record p d64 it ++ records p d64 l = b' :: bs') by (rewrite Hbs; cbn; eauto).
    destruct Hcons as (b' & bs' & Hcons). cbn [decode]. rewrite Hcons, <-Hcons. rewrite Hre.
    replace (Z.to_nat (reclen (it_entry it))) with (length (item_record p d64 it)) by lia.
    rewrite drop_app_length, take_app_length, IH by (done || lia).
    rewrite (proj2 (orb_false_iff _ _)); [done|]. rewrite !Nat.ltb_ge, length_app. lia.
  - unfold item_dent at 1. rewrite (free_record p d64 it Hi), Hi. cbn [mbind option_bind app]. apply IH; [done|lia].
Qed.

(** ** A complete listing *)

(** Calls until the result is not positive, as [readdir] and [ls] make them. *)
Fixpoint readdir (fuel : nat) (d64 : bool) (f : pmemfile_file) (count : Z) : M pool (Z * list Z * pmemfile_file) :=
  match fuel with
  | O => fault_ NoFuel
  | S fuel' =>
      '(r, bytes, g) ← pmemfile_getdents_generic d64 true (Some f) true count;
      g ← nonnull g;
      if r <=? 0 then mret (r, [], g)
      else '(r', bytes', g') ← readdir fuel' d64 g count; mret (r', bytes ++ bytes', g')
  end.

Lemma fit_full p d64 room l it l2 :
  (fit room l).2 = it :: l2 → room < Z.of_nat (length (records p d64 (fit room l).1)) + reclen (it_entry it).
Proof.
  revert room. induction l as [|it' l IH]; intros room Hr; [done|]. cbn [fit] in *.
  pose proof (item_record_length p d64 it') as Hl. destruct (is_used it'); cbn [negb] in *.
  - destruct (Z.ltb_spec room (reclen (it_entry it'))); [by simplify_eq/=|]. specialize (IH (room - reclen (it_entry it'))).
    destruct (fit _ l). cbn [fst snd] in *. specialize (IH Hr). rewrite records_cons, length_app. lia.
  - specialize (IH room). destruct (fit room l). cbn [fst snd] in *. specialize (IH Hr). rewrite records_cons, length_app. lia.
Qed.

Lemma records_nil p d64 l : (∀ it, it ∈ l → (strlen (de_name (it_entry it)) ≤ 255)%nat) → records p d64 l = [] ↔ filter is_used l = [].
Proof.
  intros Hl. induction l as [|it l IH]; [done|]. rewrite records_cons, filter_cons.
  pose proof (item_record_length p d64 it) as Hlen. destruct (reclen_bounds (it_entry it)) as (Hb & _); [apply Hl; by left|].
  destruct (is_used it); cbn [decide Is_true_dec] in *.
  - split; [|done]. intros Hnil. apply app_eq_nil in Hnil as [Hnil _]. rewrite Hnil in Hlen. cbn in Hlen. lia.
  - destruct (item_record p d64 it); [|cbn in Hlen; lia]. cbn [app]. apply IH. intros it' Hit. apply Hl. by right.
Qed.

Lemma part_items_entries k n j es : it_entry <$> part_items k n j es = es.
Proof. revert j. induction es as [|e es IH]; intros j; [done|]. cbn. by rewrite IH. Qed.

Lemma chain_items_entries p k ps : it_entry <$> chain_items p k ps = all_dirents p ps.
Proof.
  revert k. induction ps as [|d ps IH]; intros k; [done|]. cbn [chain_items]. rewrite fmap_app, part_items_entries, IH. done.
Qed.

Lemma items_from_elem p ps k j it : it ∈ items_from p ps k j → ∃ k' d, ps !! k' = Some d ∧ it_entry it ∈ part_dirents p d.
Proof.
  intros Hit%(list_elem_of_fmap_2 it_entry). destruct (ps !! k) as [d|] eqn:Hd; cycle 1.
  { unfold items_from in Hit. rewrite drop_ge in Hit by (by apply lookup_ge_None). by apply elem_of_nil in Hit. }
  rewrite (items_from_part _ _ _ _ _ Hd), fmap_app, part_items_entries, items_from_0, chain_items_entries in Hit.
  apply elem_of_app in Hit as [Hit|Hit].
  - exists k, d. split; [done|]. rewrite <-(take_drop j (part_dirents p d)). apply elem_of_app. by right.
  - unfold all_dirents in Hit. apply list_elem_of_bind in Hit as (d' & Hin & Hd'). apply list_elem_of_lookup in Hd' as [n Hn].
    rewrite lookup_drop in Hn. eauto.
Qed.

Lemma items_from_listable s ps k j it : parts_listable s ps → it ∈ items_from (po_pm s) ps k j → listable (po_pm s) (it_entry it).
Proof.
  intros Hps (k' & d & Hd & Hin)%items_from_elem. destruct (Hps _ _ Hd) as (x & Hx & _ & _ & Hl).
  unfold part_dirents in Hin. rewrite Hx in Hin. by eapply Forall_forall.
Qed.

Lemma listing_repositioned s ps f g : listing s ps f → repositioned f g → listing s ps g.
Proof.
  intros [Hv Hnd Hps Hr Hl] Hrep. destruct (repositioned_flags _ _ Hrep) as [Hvn Hfl]. split; [by rewrite Hvn|done..|by rewrite Hfl|by rewrite Hvn].
Qed.

Definition used_count (l : list item) : nat := length (filter is_used l).

Lemma wp_readdir s ps d64 count fuel f k j :
  listing s ps f → handle_at (po_pm s) ps k j f → 280 ≤ count < 2 ^ 32 → (used_count (items_from (po_pm s) ps k j) < fuel)%nat →
  wp (readdir fuel d64 f count)
    (λ res s', (res.1.1 = 0 ∧ s' = s ∨ res.1.1 = -1 ∧ s' = set_po_errno ENOENT s) ∧
               res.1.2 = records (po_pm s) d64 (items_from (po_pm s) ps k j)) (λ _ _, False) s.
Proof.
  intros Hls Hat Hcount. revert f k j Hls Hat. induction fuel as [|fuel IH]; intros f k j Hls Hat Hfuel; [lia|]. cbn [readdir].
  apply wp_bind. eapply wp_getdents; [done|done|lia|]. intros res s' (g & k' & j' & -> & -> & Hat' & Hrep & Hrest).
  apply wp_bind. unfold nonnull. eapply wp_of_option; [done|]. set (n := if INT_MAX <? count then INT_MAX else count) in *.
  assert (Hn : 280 ≤ n) by (unfold n, INT_MAX; destruct (Z.ltb_spec (2 ^ 31 - 1) count); lia).
  set (l := items_from (po_pm s) ps k j) in *. pose proof (fit_split n l) as Hsplit. set (bytes := records (po_pm s) d64 (fit n l).1) in *.
  assert (Hnil : bytes = [] → filter is_used (fit n l).1 = []).
  { apply records_nil. intros it Hit. apply (items_from_listable s ps k j); [by destruct Hls|]. fold l. rewrite Hsplit. apply elem_of_app. by left. }
  assert (Hrec : records (po_pm s) d64 l = bytes ++ records (po_pm s) d64 (fit n l).2) by (rewrite Hsplit at 1; apply records_app).
  destruct bytes as [|b bs] eqn:Hbytes.
  - unfold dents_code. cbn [length]. change (Z.of_nat 0 =? 0) with true. cbv iota. destruct l as [|it l'] eqn:Hl.
    { change (0 <? 0) with false. cbv iota. change (0 <=? 0) with true. cbv iota. apply wp_ret. split; [by left|done]. }
    destruct ((fit n (it :: l')).2) as [|it2 l2] eqn:Hr2.
    + change (- ENOENT <? 0) with true. change (-1 <=? 0) with true. cbv iota. apply wp_ret. split; [by right|done].
    + exfalso. pose proof (fit_full (po_pm s) d64 _ _ _ _ Hr2) as Hfull. fold bytes in Hfull. rewrite Hbytes in Hfull. cbn [length] in Hfull.
      destruct (items_from_listable s ps k j it2) as [Hlen _]; [by destruct Hls| |destruct (reclen_bounds _ Hlen); lia].
      fold l. rewrite Hl, Hsplit. apply elem_of_app. right. by left.
  - assert (Hcode : dents_code l (fit n l) (Z.of_nat (length (b :: bs))) = Z.of_nat (length (b :: bs))) by done.
    rewrite Hcode. rewrite (proj2 (Z.ltb_ge _ _)) by lia. rewrite (proj2 (Z.leb_gt _ _)) by (cbn [length]; lia).
    apply wp_bind. eapply wp_conseq; [eapply (IH g k' j'); [by eapply listing_repositioned|done|]|].
    + rewrite Hrest. assert (used_count l = (used_count (fit n l).1 + used_count (fit n l).2)%nat) as Hc.
      { unfold used_count. rewrite Hsplit at 1. by rewrite filter_app, length_app. }
      assert (used_count (fit n l).1 ≠ 0%nat); [|lia]. intros Hz%length_zero_iff_nil. apply records_nil with (p := po_pm s) (d64 := d64) in Hz.
      * unfold bytes in Hbytes. congruence.
      * intros it Hit. apply (items_from_listable s ps k j); [by destruct Hls|]. fold l. rewrite Hsplit. apply elem_of_app. by left.
    + intros [[r' bytes'] g'] s' [Hr Hb]. cbn in Hr, Hb. apply wp_ret. cbn. split; [done|]. rewrite Hrec, Hb, Hrest. done.
Qed.

(** The offset a record names is the position behind its entry. *)
Lemma items_next p ps k j l1 it l2 :
  items_from p ps k j = l1 ++ it :: l2 →
  ∃ k' j', it_next it = cookie k' j' ∧ valid_pos p ps k' j' ∧ items_from p ps k' j' = l2.
Proof.
  remember (length ps - k)%nat as n eqn:Hn. revert k j l1 Hn. induction n as [|n IH]; intros k j l1 Hn Heq.
  { unfold items_from in Heq. rewrite drop_ge in Heq by lia. by destruct l1. }
  destruct (lookup_lt_is_Some_2 ps k) as [d Hd]; [lia|]. pose proof Heq as Heq'. rewrite (items_from_part _ _ _ _ _ Hd) in Heq'.
  apply app_eq_inv in Heq' as [(l & Hl1 & Hl2)|(l & Hl1 & Hl2)]; cycle 1.
  { eapply (IH (S k) 0%nat l); [lia|done]. }
  destruct l as [|it' l]; cbn in Hl2; [eapply (IH (S k) 0%nat []); [lia|done]|]. injection Hl2 as <- ->.
  destruct (items_from_rest p ps k j d it l1 l Hd Hl1) as (_ & Hlt & Hrest).
  rewrite (items_from_part _ _ _ _ _ Hd) in Hrest. destruct (drop (j + length l1) (part_dirents p d)) as [|e es] eqn:Hdrop.
  { apply (f_equal length) in Hdrop. rewrite length_drop in Hdrop. cbn in Hdrop. lia. }
  cbn [part_items app] in Hrest. injection Hrest as <- Htail. unfold item_at. cbn [it_next].
  apply (f_equal (drop 1)) in Hdrop as Hes. rewrite drop_drop in Hes. cbn in Hes.
  destruct (Nat.leb_spec (length (part_dirents p d)) (S (j + length l1))) as [Hle|Hgt].
  - exists (S k), 0%nat. split_and!; [done| |].
    + unfold valid_pos. apply lookup_lt_Some in Hd. destruct (ps !! S k) eqn:HSk; [lia|]. apply lookup_ge_None in HSk. lia.
    + rewrite <-Htail. rewrite drop_0 in Hes. rewrite <-Hes, drop_ge by lia. done.
  - exists k, (S (j + length l1)). split_and!; [done|unfold valid_pos; rewrite Hd; lia|].
    rewrite (items_from_part _ _ _ _ _ Hd), <-Htail. rewrite drop_0 in Hes. rewrite <-Hes. do 3 f_equal. lia.
Qed.

(** ** Directories with a representation *)

(** The handle [f] is open for reading on the directory [i], which holds the
    entries [m]; the numbers of the directory fit into their fields. *)
Record open_dir (s : pool) (i : oid) (ps : list dirp) (m : gmap cstring oid) (f : pmemfile_file) : Prop := {
  od_rep : dir_rep (po_pm s) i ps m;
  od_vnode : vn_tinode <$> po_vnodes s !! pf_vinode f = Some i;
  od_dir : inode_is_dir <$> inode_lookup (po_pm s) i = Some true;
  od_length : Z.of_nat (length ps) < 2 ^ 32;
  od_small : ∀ d, d ∈ ps → Z.of_nat (length (part_dirents (po_pm s) d)) < 2 ^ 32;
  od_inodes : map_Forall (λ _ o, Zpos o < 2 ^ 64 ∧ is_Some (inode_lookup (po_pm s) o ≫= dt_of)) m;
  od_read : has (pf_flags f) PFILE_READ = true;
  od_lock : po_locks s !! LVinode (pf_vinode f) = None;
}.

Section open_dir.
Context {s : pool} {i : oid} {ps : list dirp} {m : gmap cstring oid} {f : pmemfile_file} (Hod : open_dir s i ps m f).
Local Notation p := (po_pm s).

Lemma open_dir_entry d e : d ∈ ps → e ∈ part_dirents p d →
  (strlen (de_name e) ≤ 255)%nat ∧ ∀ o, de_inode e = Some o → Zpos o < 2 ^ 64 ∧ is_Some (inode_lookup p o ≫= dt_of).
Proof.
  intros Hd He. destruct Hod as [[Hc Hnd Hp Hk Hm] _ _ _ _ Hin _ _].
  destruct (chain_lookup _ _ _ d Hc Hd) as [x Hx]. destruct (Hp _ _ Hd Hx) as (_ & _ & Hok).
  assert (He' : e ∈ d_dirents x) by (unfold part_dirents in He; by rewrite Hx in He).
  pose proof (proj1 (Forall_forall _ _) Hok e He') as [Hlen Hname]. split.
  - destruct (de_inode e) as [o|]; [by destruct Hname as (_ & Hl & _)|]. unfold strlen, char_at in *.
    destruct (de_name e) as [|c l]; [done|]. cbn in Hname. subst c. cbn [until_nul]. rewrite decide_True by done. cbn. lia.
  - intros o Ho. apply (Hin (until_nul (de_name e)) o). rewrite Hm. apply elem_of_list_to_map_1; [done|].
    unfold bindings. apply list_elem_of_omap. exists e. split; [|unfold binding; by rewrite Ho].
    unfold all_dirents. apply list_elem_of_bind. eauto.
Qed.

Lemma open_dir_listing : listing s ps f.
Proof.
  pose proof open_dir_entry as Hent. destruct Hod as [[Hc Hnd Hp Hk Hm] Hv Hi Hl Hsm Hin Hr Hlk]. split; [|done| |done|done].
  - destruct (po_vnodes s !! pf_vinode f) as [x|]; cbn in Hv; [|done]. injection Hv as Hv.
    destruct (inode_lookup p i) as [y|] eqn:Hy; cbn in Hi; [|done]. exists x, y. rewrite Hv. injection Hi as Hi. done.
  - intros k d Hd. assert (Hdin : d ∈ ps) by (by eapply list_elem_of_lookup_2). destruct (chain_lookup _ _ _ d Hc Hdin) as [x Hx].
    pose proof (Hp _ _ Hdin Hx) as Hok. assert (Hpd : part_dirents p d = d_dirents x) by (unfold part_dirents; by rewrite Hx).
    specialize (Hsm _ Hdin). specialize (Hent d). rewrite Hpd in *. exists x. split_and!; [done|done| |].
    + apply lookup_lt_Some in Hd. destruct Hok as (Hn & _). split; lia.
    + apply Forall_forall. intros e He. destruct (Hent e Hdin He) as [Hlen Ho]. split; [done|]. intros o Heo.
      destruct (Ho o Heo) as [_ [t Ht]]. destruct (inode_lookup p o) as [y|]; cbn in Ht; [|done]. eauto.
Qed.

Lemma open_dir_encodable k j it : it ∈ items_from p ps k j → encodable it.
Proof.
  intros Hit. pose proof Hit as (k' & d & Hd & He)%items_from_elem. destruct (open_dir_entry d (it_entry it)) as [Hlen Ho]; [by eapply list_elem_of_lookup_2|done|].
  split; [done|]. split; [|intros o Heo; by apply Ho]. apply list_elem_of_split in Hit as (l1 & l2 & Hit).
  destruct (items_next _ _ _ _ _ _ _ Hit) as (k2 & j2 & -> & Hval & _).
  destruct (pos_range s i ps (dr_chain _ _ _ _ (od_rep _ _ _ _ _ Hod)) (ls_parts _ _ _ open_dir_listing) _ _ Hval). unfold cookie. lia.
Qed.
End open_dir.

(** C21: one call of [pmemfile_getdents]/[pmemfile_getdents64] on a directory
    returns the records of the longest run of entries from the handle's position
    on that fits the buffer, in order, and leaves the handle at the first entry it
    did not return; it returns 0 at the end of the directory, fails with [EINVAL]
    when the buffer is too small for the next record, and with [ENOENT] when only
    free entries are left. *)
Theorem getdents_call s i ps m d64 f k j count :
  open_dir s i ps m f → handle_at (po_pm s) ps k j f → 0 ≤ count < 2 ^ 32 →
  wp (pmemfile_getdents_generic d64 true (Some f) true count) (getdents_post s ps d64 k j f count) (λ _ _, False) s.
Proof. intros Hod Hat Hcount. eapply wp_getdents; [by eapply open_dir_listing|done|done|done]. Qed.

Lemma open_dir_perm s i ps m f : open_dir s i ps m f →
  (λ d, (dn_name d, dn_ino d, dn_type d)) <$> omap (item_dent (po_pm s)) (items_from (po_pm s) ps 0 0) ≡ₚ
  (λ b : cstring * oid, (char_bytes b.1, Zpos b.2, entry_type (po_pm s) b.2)) <$> map_to_list m.
Proof.
  intros [[Hc Hnd Hp Hk Hm] _ _ _ _ _ _ _]. rewrite Hm, map_to_list_to_map by done. rewrite items_from_0, drop_0.
  rewrite <-(chain_items_entries (po_pm s) 0 ps). generalize (chain_items (po_pm s) 0 ps) as l. intros l.
  induction l as [|it l IH]; [done|]. cbn [fmap list_fmap bindings omap list_omap]. unfold item_dent at 1, binding at 1.
  destruct (de_inode (it_entry it)) as [o|]; cbn; [|done]. by apply perm_skip.
Qed.

(** C4: calling [pmemfile_getdents] until it returns no more, with a buffer that
    holds one record of any size, ends, and the buffers decode to the entries of
    the directory: every name once, with its inode number and its type. *)
Theorem readdir_lists_directory s i ps m d64 f count :
  open_dir s i ps m f → cached ps f → pf_offset f = 0 → 280 ≤ count < 2 ^ 32 →
  wp (readdir (S (length (all_dirents (po_pm s) ps))) d64 f count)
    (λ res s', (res.1.1 = 0 ∧ s' = s ∨ res.1.1 = -1 ∧ s' = set_po_errno ENOENT s) ∧
       ∃ ds, decode (length (all_dirents (po_pm s) ps)) d64 res.1.2 = Some ds ∧
         (λ d, (dn_name d, dn_ino d, dn_type d)) <$> ds ≡ₚ
         (λ b : cstring * oid, (char_bytes b.1, Zpos b.2, entry_type (po_pm s) b.2)) <$> map_to_list m)
    (λ _ _, False) s.
Proof.
  intros Hod Hca Hoff Hcount. assert (Hlen : length (items_from (po_pm s) ps 0 0) = length (all_dirents (po_pm s) ps)).
  { rewrite items_from_0, drop_0, <-(chain_items_entries _ 0). by rewrite length_fmap. }
  eapply wp_conseq; [eapply (wp_readdir s ps d64 count _ f 0 0)|].
  - by eapply open_dir_listing.
  - split; [done|done|]. unfold valid_pos. destruct Hca as (k & Hk & _). destruct (ps !! 0%nat) eqn:H0; [lia|]. apply lookup_ge_None in H0. lia.
  - done.
  - rewrite <-Hlen. apply Nat.lt_succ_r, length_filter.
  - intros [[r bytes] g] s' [Hr Hb]. cbn [fst snd] in *. split; [done|]. rewrite <-Hlen. eexists. split.
    + rewrite Hb. apply decode_records; [|done]. apply Forall_forall. intros it Hit. by eapply open_dir_encodable.
    + by eapply open_dir_perm.
Qed.

(** C22: the offset in a record is a position: a handle moved there with [lseek],
    whatever part it remembers, continues with the entries behind the record. *)
Theorem getdents_resumes s i ps m d64 f k j l1 it l2 count :
  open_dir s i ps m f → cached ps f → items_from (po_pm s) ps k j = l1 ++ it :: l2 → 0 ≤ count ≤ INT_MAX →
  wp (pmemfile_getdents_generic d64 true (Some (set_pf_offset (it_next it) f)) true count)
    (λ res _, res.1.2 = records (po_pm s) d64 (fit count l2).1) (λ _ _, False) s.
Proof.
  intros Hod Hca Hit Hcount. destruct (items_next _ _ _ _ _ _ _ Hit) as (k' & j' & Hnext & Hval & Hl2).
  assert (Hat : handle_at (po_pm s) ps k' j' (set_pf_offset (it_next it) f)) by (split; [exact Hca|by rewrite pf_offset_set|done]).
  eapply wp_getdents; [|exact Hat|unfold INT_MAX in Hcount; lia|].
  - eapply listing_repositioned; [by eapply open_dir_listing|]. exists (it_next it), (pf_dir f), (pf_dir_id f). by destruct f.
  - intros res s' (g & k2 & j2 & -> & _). cbn [fst snd]. rewrite Hl2. destruct (Z.ltb_spec INT_MAX count); [lia|done].
Qed.

(** ** An example *)

Module ExDents.
Definition f : pmemfile_file := PMEMfile 1 (PFile PFILE_READ 0 None 0) (Some (InInode 1)) 0.
Definition m : gmap cstring oid := list_to_map (bindings ExName.root_entries).
End ExDents.

Lemma exdents_open : open_dir ExName.st 1 [InInode 1] ExDents.m ExDents.f.
Proof.
  destruct exname_forall as (Hr & _ & Hb & _). split; try reflexivity.
  - eapply exname_dir; [reflexivity|reflexivity|by apply exname_part|cbn [d_dirents]; rewrite Hb; by apply (bool_decide_unpack _)|done].
  - intros d ->%list_elem_of_singleton. vm_compute. reflexivity.
  - unfold ExDents.m. rewrite Hb. apply map_Forall_lookup. intros n o Ho. apply elem_of_list_to_map in Ho; [|by apply (bool_decide_unpack _)].
    ex_cases; simplify_eq; (split; [lia|vm_compute; by eexists]).
Qed.

Lemma exdents_cached : cached [InInode 1] ExDents.f.
Proof. exists 0%nat. split; [cbn; lia|done]. Qed.

Lemma getdents_call_witness :
  wp (pmemfile_getdents_generic true true (Some ExDents.f) true 100) (getdents_post ExName.st [InInode 1] true 0 0 ExDents.f 100) (λ _ _, False) ExName.st.
Proof.
  apply (getdents_call ExName.st 1 [InInode 1] ExDents.m); [exact exdents_open| |lia].
  split; [exact exdents_cached|reflexivity|]. vm_compute. lia.
Defined.

Lemma readdir_lists_directory_witness :
  wp (readdir 5 false ExDents.f 280)
    (λ res s', (res.1.1 = 0 ∧ s' = ExName.st ∨ res.1.1 = -1 ∧ s' = set_po_errno ENOENT ExName.st) ∧
       ∃ ds, decode 4 false res.1.2 = Some ds ∧
         (λ d, (dn_name d, dn_ino d, dn_type d)) <$> ds ≡ₚ
         (λ b : cstring * oid, (char_bytes b.1, Zpos b.2, entry_type (po_pm ExName.st) b.2)) <$> map_to_list ExDents.m)
    (λ _ _, False) ExName.st.
Proof.
  apply (readdir_lists_directory ExName.st 1 [InInode 1] ExDents.m false ExDents.f 280); [exact exdents_open|exact exdents_cached|reflexivity|lia].
Defined.

Lemma getdents_resumes_witness :
  wp (pmemfile_getdents_generic true true (Some (set_pf_offset 2 ExDents.f)) true 100)
    (λ res _, res.1.2 = records (po_pm ExName.st) true (fit 100 (items_from (po_pm ExName.st) [InInode 1] 0 2)).1) (λ _ _, False) ExName.st.
Proof.
  apply (getdents_resumes ExName.st 1 [InInode 1] ExDents.m true ExDents.f 0 0
    [item_at 0 4 0 (ExName.ent dot 1)] (item_at 0 4 1 (ExName.ent dotdot 1)) (items_from (po_pm ExName.st) [InInode 1] 0 2) 100);
    [exact exdents_open|exact exdents_cached|reflexivity|unfold INT_MAX; lia].
Defined.
