(* ===== verification/VfdTable.v ===== *)
(** The table of the file descriptors an application holds on pmemfile files
    (libpmemfile/vfd_table.c), and the acquiring and releasing of pools
    (libpmemfile/preload.c).  The kernel and libpmemfile-posix below it are
    parameters. *)
From S2P Require Import Prelude CString.

Definition ENFILE : Z := 23.
Definition AT_FDCWD : Z := -100.
Definition O_CLOEXEC : Z := 0x80000.
Definition O_NONBLOCK : Z := 0x800.
(** [O_DIRECTORY | O_PATH | O_NOCTTY] *)
Definition O_CHDIR : Z := Z.lor 0x10000 (Z.lor 0x200000 0x100).

(** ** The environment *)

(** The state of the kernel and of the pools, and the calls the table makes: system
    calls return a result or a negative error number, [pm_fchdir] 0 or an error
    number, [pm_openat] a file or an error number, [pm_resume] and [pm_suspend] 0
    or not. *)
Class VfdEnv := {
  world : Type;
  sys_dup : Z → world → Z * world;
  sys_fcntl_dupfd : Z → Z → world → Z * world;
  sys_dup2 : Z → Z → world → Z * world;
  sys_close : Z → world → Z * world;
  sys_fchdir : Z → world → Z * world;
  sys_open_cwd : world → Z * world;
  sys_open_null : world → Z * world;
  sys_memfd_create : cstring → world → Z * world;
  sys_openat : Z → cstring → Z → world → Z * world;
  pm_openat : positive → option positive → cstring → Z → Z → world → (option positive * Z) * world;
  pm_fchdir : positive → positive → world → Z * world;
  pm_close : positive → positive → world → unit * world;
  pm_resume : positive → world → Z * world;
  pm_suspend : positive → world → Z * world;
}.

(** ** State *)

(** An entry: the pool and the file, or a directory of the kernel that is the
    current one. *)
Record vfile_description := VDesc {
  vd_pool : option positive;
  vd_file : option positive;
  vd_kernel_cwd_fd : Z;
  vd_is_special_cwd_desc : bool;
  vd_ref_count : Z;
}.
Definition vd_zero : vfile_description := VDesc None None 0 false 0.
Definition set_vd_ref_count x (d : vfile_description) :=
  VDesc (vd_pool d) (vd_file d) (vd_kernel_cwd_fd d) (vd_is_special_cwd_desc d) x.

Record pool_description := PoolDesc { pd_ref_cnt : Z; pd_suspended : bool }.

Inductive vlock := LTable | LFree | LPool (p : positive).
#[global] Instance vlock_eq : EqDecision vlock.
Proof. solve_decision. Defined.

(** [vs_store] is the array of entries, [vs_free] the stack of free ones with its
    top first, [vs_opened] and [vs_closed] the files [pmemfile_openat] returned and
    [pmemfile_close] was given so far. *)
Record vfd_state `{VfdEnv} := VState {
  vs_store : gmap Z vfile_description;
  vs_table : gmap Z Z;
  vs_cwd : option Z;
  vs_free : list Z;
  vs_memfd : bool;
  vs_switching : bool;
  vs_pools : gmap positive pool_description;
  vs_locks : list vlock;
  vs_opened : list (positive * positive);
  vs_closed : list (positive * positive);
  vs_world : world;
}.

Section vfd.
Context `{E : VfdEnv}.

Definition set_vs_store x (s : vfd_state) := VState _ x (vs_table s) (vs_cwd s) (vs_free s) (vs_memfd s) (vs_switching s) (vs_pools s) (vs_locks s) (vs_opened s) (vs_closed s) (vs_world s).
Definition set_vs_table x (s : vfd_state) := VState _ (vs_store s) x (vs_cwd s) (vs_free s) (vs_memfd s) (vs_switching s) (vs_pools s) (vs_locks s) (vs_opened s) (vs_closed s) (vs_world s).
Definition set_vs_cwd x (s : vfd_state) := VState _ (vs_store s) (vs_table s) x (vs_free s) (vs_memfd s) (vs_switching s) (vs_pools s) (vs_locks s) (vs_opened s) (vs_closed s) (vs_world s).
Definition set_vs_free x (s : vfd_state) := VState _ (vs_store s) (vs_table s) (vs_cwd s) x (vs_memfd s) (vs_switching s) (vs_pools s) (vs_locks s) (vs_opened s) (vs_closed s) (vs_world s).
Definition set_vs_memfd x (s : vfd_state) := VState _ (vs_store s) (vs_table s) (vs_cwd s) (vs_free s) x (vs_switching s) (vs_pools s) (vs_locks s) (vs_opened s) (vs_closed s) (vs_world s).
Definition set_vs_pools x (s : vfd_state) := VState _ (vs_store s) (vs_table s) (vs_cwd s) (vs_free s) (vs_memfd s) (vs_switching s) x (vs_locks s) (vs_opened s) (vs_closed s) (vs_world s).
Definition set_vs_locks x (s : vfd_state) := VState _ (vs_store s) (vs_table s) (vs_cwd s) (vs_free s) (vs_memfd s) (vs_switching s) (vs_pools s) x (vs_opened s) (vs_closed s) (vs_world s).
Definition set_vs_opened x (s : vfd_state) := VState _ (vs_store s) (vs_table s) (vs_cwd s) (vs_free s) (vs_memfd s) (vs_switching s) (vs_pools s) (vs_locks s) x (vs_closed s) (vs_world s).
Definition set_vs_closed x (s : vfd_state) := VState _ (vs_store s) (vs_table s) (vs_cwd s) (vs_free s) (vs_memfd s) (vs_switching s) (vs_pools s) (vs_locks s) (vs_opened s) x (vs_world s).
Definition set_vs_world x (s : vfd_state) := VState _ (vs_store s) (vs_table s) (vs_cwd s) (vs_free s) (vs_memfd s) (vs_switching s) (vs_pools s) (vs_locks s) (vs_opened s) (vs_closed s) x.

Definition VFD_TABLE_SIZE : Z := 0x8000.

(** A call into the environment. *)
Definition call {A} (f : world → A * world) : M vfd_state A := λ s,
  let '(r, w) := f (vs_world s) in Ok r (set_vs_world w s).

(** [util_mutex_lock] and [util_mutex_unlock] around [m]; locking a mutex twice
    would not return. *)
Definition locked {A} (l : vlock) (m : M vfd_state A) : M vfd_state A :=
  ls ← gets vs_locks;
  assert_ (negb (bool_decide (l ∈ ls)));;
  modify (set_vs_locks (l :: ls));;
  r ← m;
  modify (λ s, set_vs_locks (filter (λ x, x ≠ l) (vs_locks s)) s);;
  mret r.

Definition entry_get (e : Z) : M vfd_state vfile_description := st ← gets vs_store; of_option BadPointer (st !! e).
Definition entry_set (e : Z) (d : vfile_description) : M vfd_state unit := modify (λ s, set_vs_store (<[e := d]> (vs_store s)) s).

(** [vfd_table\[vfd\]] and a store to it; [None] is NULL. *)
Definition table_at (vfd : Z) : M vfd_state (option Z) :=
  if (0 <=? vfd) && (vfd <? VFD_TABLE_SIZE) then gets (λ s, vs_table s !! vfd) else fault_ OutOfBounds.
Definition table_store (vfd : Z) (e : option Z) : M vfd_state unit :=
  if (0 <=? vfd) && (vfd <? VFD_TABLE_SIZE) then
    modify (λ s, set_vs_table (match e with Some e => <[vfd := e]> (vs_table s) | None => delete vfd (vs_table s) end) s)
  else fault_ OutOfBounds.

(** ** Pools *)

Definition pool_get (p : positive) : M vfd_state pool_description := m ← gets vs_pools; of_option BadPointer (m !! p).
Definition pool_set (p : positive) (d : pool_description) : M vfd_state unit := modify (λ s, set_vs_pools (<[p := d]> (vs_pools s)) s).

Definition pool_acquire (pool : option positive) : M vfd_state unit :=
  sw ← gets vs_switching;
  if negb sw then mret tt
  else
    p ← of_option NullDeref pool;
    locked (LPool p) (
      d ← pool_get p;
      let n := pd_ref_cnt d + 1 in
      pool_set p (PoolDesc n (pd_suspended d));;
      if (n =? 1) && pd_suspended d then
        r ← call (pm_resume p);
        assert_ (r =? 0);;
        pool_set p (PoolDesc n false)
      else mret tt).

Definition pool_release (pool : option positive) : M vfd_state unit :=
  sw ← gets vs_switching;
  if negb sw then mret tt
  else
    p ← of_option NullDeref pool;
    locked (LPool p) (
      d ← pool_get p;
      let n := pd_ref_cnt d - 1 in
      pool_set p (PoolDesc n (pd_suspended d));;
      if (n =? 0) && negb (pd_suspended d) then
        r ← call (pm_suspend p);
        assert_ (r =? 0);;
        pool_set p (PoolDesc n true)
      else mret tt).

(** ** Entries *)

Definition vf_ref_count_inc (e : Z) : M vfd_state unit :=
  d ← entry_get e; entry_set e (set_vd_ref_count (vd_ref_count d + 1) d).
Definition ref_entry (e : option Z) : M vfd_state unit := match e with None => mret tt | Some e => vf_ref_count_inc e end.
Definition vf_ref_count_dec_and_fetch (e : Z) : M vfd_state Z :=
  d ← entry_get e; entry_set e (set_vd_ref_count (vd_ref_count d - 1) d);; mret (vd_ref_count d - 1).

Definition mark_as_free_file_slot (e : Z) : M vfd_state unit :=
  locked LFree (
    d ← entry_get e;
    assert_ (vd_ref_count d =? 0);;
    fr ← gets vs_free;
    if VFD_TABLE_SIZE <=? Z.of_nat (length fr) then fault_ OutOfBounds
    else modify (set_vs_free (e :: fr))).

Definition fetch_free_file_slot : M vfd_state (option Z) :=
  locked LFree (
    fr ← gets vs_free;
    match fr with
    | [] => mret None
    | e :: fr' => modify (set_vs_free fr');; mret (Some e)
    end).

Definition pmemfile_close_call (pool file : option positive) : M vfd_state unit :=
  p ← of_option NullDeref pool;
  f ← of_option NullDeref file;
  call (pm_close p f);;
  modify (λ s, set_vs_closed ((p, f) :: vs_closed s) s).

Definition unref_entry (entry : option Z) : M vfd_state unit :=
  match entry with
  | None => mret tt
  | Some e =>
      n ← vf_ref_count_dec_and_fetch e;
      if n =? 0 then
        d ← entry_get e;
        (if vd_is_special_cwd_desc d then call (sys_close (vd_kernel_cwd_fd d));; mret tt
         else
           pool_acquire (vd_pool d);;
           pmemfile_close_call (vd_pool d) (vd_file d);;
           pool_release (vd_pool d));;
        mark_as_free_file_slot e
      else mret tt
  end.

(** ** References *)

Record vfd_reference := VfdRef { vr_pool : option positive; vr_file : option positive; vr_kernel_fd : Z; vr_internal : option Z }.

Definition pmemfile_ref_vfd_under_mutex (vfd : Z) : M vfd_state vfd_reference :=
  entry ← table_at vfd;
  match entry with
  | None => mret (VfdRef None None vfd None)
  | Some e => vf_ref_count_inc e;; d ← entry_get e; mret (VfdRef (vd_pool d) (vd_file d) 0 (Some e))
  end.

Definition is_in_vfd_table_range (number : Z) : bool := (0 <=? number) && (number <? VFD_TABLE_SIZE).

Definition can_be_in_vfd_table (vfd : Z) : M vfd_state bool :=
  if negb (is_in_vfd_table_range vfd) then mret false else e ← table_at vfd; mret (bool_decide (is_Some e)).

Definition pmemfile_vfd_ref (vfd : Z) : M vfd_state vfd_reference :=
  b ← can_be_in_vfd_table vfd;
  if negb b then mret (VfdRef None None vfd None) else locked LTable (pmemfile_ref_vfd_under_mutex vfd).

Definition get_fdcwd_reference : M vfd_state vfd_reference :=
  locked LTable (
    c ← gets vs_cwd;
    e ← of_option NullDeref c;
    vf_ref_count_inc e;;
    d ← entry_get e;
    mret (VfdRef (vd_pool d) (vd_file d) (vd_kernel_cwd_fd d) (Some e))).

Definition pmemfile_vfd_at_ref (vfd : Z) : M vfd_state vfd_reference :=
  if vfd =? AT_FDCWD then get_fdcwd_reference else pmemfile_vfd_ref vfd.

Definition pmemfile_vfd_unref (ref : vfd_reference) : M vfd_state unit := unref_entry (vr_internal ref).

(** ** Duplicating *)

Definition vfd_dup2_under_mutex (old_vfd new_vfd : Z) : M vfd_state Z :=
  if new_vfd <? 0 then mret new_vfd
  else if old_vfd =? new_vfd then mret new_vfd
  else if negb (is_in_vfd_table_range new_vfd) then call (sys_close new_vfd);; mret (- ENOMEM)
  else
    o ← table_at old_vfd;
    n ← table_at new_vfd;
    if decide (o = n) then mret new_vfd
    else
      ref_entry o;;
      unref_entry n;;
      o ← table_at old_vfd;
      table_store new_vfd o;;
      mret new_vfd.

Definition pmemfile_vfd_dup (vfd : Z) : M vfd_state Z :=
  b ← can_be_in_vfd_table vfd;
  if negb b then call (sys_dup vfd)
  else locked LTable (new_vfd ← call (sys_dup vfd); vfd_dup2_under_mutex vfd new_vfd).

Definition pmemfile_vfd_fcntl_dup (vfd min_new_vfd : Z) : M vfd_state Z :=
  b ← can_be_in_vfd_table vfd;
  if negb b then call (sys_fcntl_dupfd vfd min_new_vfd)
  else locked LTable (new_vfd ← call (sys_fcntl_dupfd vfd min_new_vfd); vfd_dup2_under_mutex vfd new_vfd).

Definition pmemfile_vfd_dup2 (old_vfd new_vfd : Z) : M vfd_state Z :=
  b1 ← can_be_in_vfd_table old_vfd;
  b2 ← (if negb b1 then can_be_in_vfd_table new_vfd else mret true);
  if negb b1 && negb b2 then call (sys_dup2 old_vfd new_vfd)
  else
    locked LTable (
      result ← call (sys_dup2 old_vfd new_vfd);
      assert_ (result =? new_vfd);;
      vfd_dup2_under_mutex old_vfd new_vfd;;
      mret result).

Definition pmemfile_vfd_dup3 (old_vfd new_vfd flags : Z) : M vfd_state Z :=
  if old_vfd =? new_vfd then mret (- EINVAL)
  else if negb (Z.ldiff flags O_CLOEXEC =? 0) then mret (- EINVAL)
  else pmemfile_vfd_dup2 old_vfd new_vfd.

(** ** Closing *)

(** The part of [pmemfile_vfd_close] under the mutex: the entry taken out of the
    table, and the result of the system call. *)
Definition vfd_close_take (vfd : Z) : M vfd_state (option Z * Z) :=
  locked LTable (
    entry ← table_at vfd;
    table_store vfd None;;
    result ← call (sys_close vfd);
    mret (entry, result)).

Definition vfd_close_drop (entry : option Z) (result : Z) : M vfd_state Z :=
  match entry with
  | None => mret result
  | Some e =>
      d ← entry_get e;
      assert_ (negb (vd_is_special_cwd_desc d));;
      unref_entry (Some e);;
      mret 0
  end.

Definition pmemfile_vfd_close (vfd : Z) : M vfd_state Z :=
  '(entry, result) ← vfd_close_take vfd;
  vfd_close_drop entry result.

(** ** The current directory and new descriptors *)

(** [exit_with_msg] does not return. *)
Definition setup_cwd : M vfd_state unit :=
  fd ← call sys_open_cwd;
  assert_ (0 <=? fd);;
  slot ← fetch_free_file_slot;
  e ← of_option AssertFail slot;
  entry_set e (VDesc None None fd true 1);;
  modify (set_vs_cwd (Some e)).

(** [setup_free_slots]: the entries of the array, in order. *)
Fixpoint mark_all_free (es : list Z) : M vfd_state unit :=
  match es with [] => mret tt | e :: es' => mark_as_free_file_slot e;; mark_all_free es' end.
Definition setup_free_slots : M vfd_state unit := mark_all_free (seqZ 0 (VFD_TABLE_SIZE - 1)).

Definition check_memfd_syscall : M vfd_state unit :=
  fd ← call (sys_memfd_create (cstr "check"));
  if 0 <=? fd then modify (set_vs_memfd true);; call (sys_close fd);; mret tt else mret tt.

Definition pmemfile_vfd_table_init : M vfd_state unit :=
  check_memfd_syscall;; setup_free_slots;; setup_cwd.

(** A new entry as the current directory; the old one is to be dropped. *)
Definition install_cwd (d : vfile_description) : M vfd_state (option (option Z)) :=
  slot ← fetch_free_file_slot;
  match slot with
  | None => mret None
  | Some e =>
      entry_set e d;;
      old ← gets vs_cwd;
      modify (set_vs_cwd (Some e));;
      mret (Some old)
  end.

Definition pmemfile_vfd_chdir_pf (pool file : positive) : M vfd_state Z :=
  pool_acquire (Some pool);;
  '(result, old_cwd_entry) ← locked LTable (
    err ← call (pm_fchdir pool file);
    if negb (err =? 0) then mret (- err, None)
    else
      r ← install_cwd (VDesc (Some pool) (Some file) (-1) false 1);
      match r with
      | Some old => mret (0, old)
      | None => mret (- ENOMEM, None)
      end);
  unref_entry old_cwd_entry;;
  pool_release (Some pool);;
  mret result.

Definition pmemfile_vfd_chdir_kernel_fd (fd : Z) : M vfd_state Z :=
  '(result, old_cwd_entry) ← locked LTable (
    result ← call (sys_fchdir fd);
    if result =? 0 then
      r ← install_cwd (VDesc None None fd true 1);
      match r with
      | Some old => mret (result, old)
      | None => mret (- ENOMEM, None)
      end
    else mret (result, None));
  unref_entry old_cwd_entry;;
  mret result.

Definition pmemfile_acquire_new_fd (path : cstring) : M vfd_state Z :=
  av ← gets vs_memfd;
  fd ← (if av : bool then
          fd ← call (sys_memfd_create path);
          if fd <? 0 then call sys_open_null else mret fd
        else call sys_open_null);
  if VFD_TABLE_SIZE <=? fd then call (sys_close fd);; mret (- ENFILE) else mret fd.

Definition pmemfile_vfd_assign (vfd : Z) (pool file : positive) : M vfd_state Z :=
  slot ← fetch_free_file_slot;
  match slot with
  | None => mret (- ENOMEM)
  | Some e =>
      entry_set e (VDesc (Some pool) (Some file) (-1) false 1);;
      locked LTable (table_store vfd (Some e));;
      mret vfd
  end.

Definition fchdir_pmemfile (e : Z) : M vfd_state (Z * option Z) :=
  cwd ← entry_get e;
  pool_acquire (vd_pool cwd);;
  p ← of_option NullDeref (vd_pool cwd);
  f ← of_option NullDeref (vd_file cwd);
  err ← call (pm_fchdir p f);
  pool_release (vd_pool cwd);;
  if err =? 0 then
    vf_ref_count_inc e;;
    old ← gets vs_cwd;
    modify (set_vs_cwd (Some e));;
    mret (0, old)
  else mret (- err, None).

Definition fchdir_kernel (vfd : Z) : M vfd_state (Z * option Z) :=
  new_fd ← call (sys_dup vfd);
  result ← (if 0 <=? new_fd then call (sys_fchdir new_fd) else mret new_fd);
  if result =? 0 then
    r ← install_cwd (VDesc None None new_fd true 1);
    match r with
    | Some old => mret (0, old)
    | None => call (sys_close new_fd);; mret (- ENOMEM, None)
    end
  else mret (result, None).

Definition pmemfile_vfd_fchdir (vfd : Z) : M vfd_state Z :=
  '(result, old_cwd_entry) ← locked LTable (
    entry ← (if is_in_vfd_table_range vfd then table_at vfd else mret None);
    match entry with
    | Some e => fchdir_pmemfile e
    | None => fchdir_kernel vfd
    end);
  unref_entry old_cwd_entry;;
  mret result.

(** ** Opening files and changing directories (preload.c) *)

(** A path resolved to a directory of the kernel or of a pool. *)
Record resolved := Resolved { at_kernel : Z; at_pool : option positive; at_dir : option positive; at_path : cstring }.

(** [pmemfile_openat]: a file, or NULL and an error number. *)
Definition pmemfile_openat_call (pool : positive) (dir : option positive) (path : cstring) (flags mode : Z) : M vfd_state (option positive * Z) :=
  '(file, errno) ← call (pm_openat pool dir path flags mode);
  match file with
  | None => mret (None, errno)
  | Some f => modify (λ s, set_vs_opened ((pool, f) :: vs_opened s) s);; mret (Some f, errno)
  end.

Definition openat_helper (pool : positive) (dir : option positive) (path : cstring) (flags mode : Z) : M vfd_state Z :=
  fd ← pmemfile_acquire_new_fd path;
  if fd <? 0 then mret fd
  else
    pool_acquire (Some pool);;
    '(file, errno) ← pmemfile_openat_call pool dir path (Z.ldiff flags O_NONBLOCK) mode;
    pool_release (Some pool);;
    match file with
    | None => call (sys_close fd);; mret (- errno)
    | Some f =>
        r ← pmemfile_vfd_assign fd pool f;
        (if r <? 0 then
           pool_acquire (Some pool);;
           pmemfile_close_call (Some pool) (Some f);;
           pool_release (Some pool);;
           call (sys_close fd);; mret tt
         else mret tt);;
        mret r
    end.

(** [hook_chdir] behind the resolution of its path. *)
Definition chdir_resolved (target : resolved) : M vfd_state Z :=
  match at_pool target with
  | None =>
      fd ← call (sys_openat (at_kernel target) (at_path target) O_CHDIR);
      if 0 <=? fd then pmemfile_vfd_chdir_kernel_fd fd else mret fd
  | Some pool =>
      pool_acquire (Some pool);;
      '(file, errno) ← pmemfile_openat_call pool (at_dir target) (at_path target) O_CHDIR 0;
      result ←
        match file with
        | None => mret (- errno)
        | Some f =>
            r ← pmemfile_vfd_chdir_pf pool f;
            (if negb (r =? 0) then pmemfile_close_call (Some pool) (Some f) else mret tt);;
            mret r
        end;
      pool_release (Some pool);;
      mret result
  end.
End vfd.
