(* ===== verification/VfdRep.v ===== *)
(** The reference counts of the file descriptor table: every entry counts the
    descriptors, the current directory and the references that denote it, and the
    file of an entry is closed once, with its last reference. *)
From S2P Require Import Prelude CString VfdTable.

(** ** What is assumed of the kernel *)

(** A system call that returns a new descriptor returns one that was not open. *)
Definition new_fd (before : gset Z) (r : Z) (after : gset Z) : Prop :=
  r < 0 ∧ after = before ∨ 0 ≤ r ∧ r ∉ before ∧ after = {[r]} ∪ before.

(** [w_open] are the descriptors open in the kernel.  The pools can be resumed and
    suspended. *)
Class VfdEnvOk `{E : VfdEnv} := {
  w_open : world → gset Z;
  dup_ok fd w : new_fd (w_open w) (sys_dup fd w).1 (w_open (sys_dup fd w).2);
  fcntl_dupfd_ok fd m w : new_fd (w_open w) (sys_fcntl_dupfd fd m w).1 (w_open (sys_fcntl_dupfd fd m w).2);
  open_cwd_ok w : new_fd (w_open w) (sys_open_cwd w).1 (w_open (sys_open_cwd w).2);
  open_null_ok w : new_fd (w_open w) (sys_open_null w).1 (w_open (sys_open_null w).2);
  memfd_create_ok path w : new_fd (w_open w) (sys_memfd_create path w).1 (w_open (sys_memfd_create path w).2);
  openat_ok fd path fl w : new_fd (w_open w) (sys_openat fd path fl w).1 (w_open (sys_openat fd path fl w).2);
  pm_openat_ok p d path fl m w : w_open (pm_openat p d path fl m w).2 = w_open w;
  pm_openat_errno p d path fl m w : (pm_openat p d path fl m w).1.1 = None → 0 < (pm_openat p d path fl m w).1.2;
  dup2_ok old new w :
    (sys_dup2 old new w).1 < 0 ∧ w_open (sys_dup2 old new w).2 = w_open w ∨
    (sys_dup2 old new w).1 = new ∧ 0 ≤ new ∧ w_open (sys_dup2 old new w).2 = {[new]} ∪ w_open w;
  close_ok fd w : w_open (sys_close fd w).2 = w_open w ∖ {[fd]};
  fchdir_ok fd w : w_open (sys_fchdir fd w).2 = w_open w;
  pm_fchdir_ok p f w : w_open (pm_fchdir p f w).2 = w_open w;
  pm_close_ok p f w : w_open (pm_close p f w).2 = w_open w;
  pm_resume_ok p w : (pm_resume p w).1 = 0 ∧ w_open (pm_resume p w).2 = w_open w;
  pm_suspend_ok p w : (pm_suspend p w).1 = 0 ∧ w_open (pm_suspend p w).2 = w_open w;
}.

(** ** The invariant *)

(** How often an entry occurs in a list of references. *)
Definition occ (e : Z) (l : list Z) : Z := Z.of_nat (length (filter (e =.) l)).

(** The file, or the kernel's directory, an entry in use stands for. *)
Definition live_file (d : vfile_description) : option (positive * positive) :=
  if (0 <? vd_ref_count d) && negb (vd_is_special_cwd_desc d) then p ← vd_pool d; f ← vd_file d; Some (p, f) else None.
Definition live_fd (d : vfile_description) : option Z :=
  if (0 <? vd_ref_count d) && vd_is_special_cwd_desc d then Some (vd_kernel_cwd_fd d) else None.
Definition live_files (store : gmap Z vfile_description) : gmap Z (positive * positive) := omap live_file store.

Section inv.
Context `{E : VfdEnv} {EO : VfdEnvOk}.
Implicit Types (s : vfd_state) (T : gmap Z Z) (D : gset Z) (held : list (Z * vfile_description)).

(** The references to entries: from the table [T], the current directory and the
    users. *)
Definition holders T s held : list Z := held.*1 ++ option_list (vs_cwd s) ++ (map_to_list T).*2.

(** A reference remembers what its entry stood for when it was taken: all of it but
    the count. *)
Definition vd_id (d : vfile_description) : vfile_description := set_vd_ref_count 0 d.
Definition held_ok (store : gmap Z vfile_description) held : Prop :=
  ∀ e k, (e, k) ∈ held → vd_id <$> store !! e = Some k.

(** [T] is the table, [D] are the descriptors kept for it, [held] the references
    handed out and not yet returned, [opened] the files that were given to the
    table. *)
Record vfd_inv T D held (opened : list (positive * positive)) s : Prop := {
  vi_count : ∀ e d, vs_store s !! e = Some d → vd_ref_count d = occ e (holders T s held);
  vi_held : held_ok (vs_store s) held;
  vi_dom : ∀ e, e ∈ holders T s held → is_Some (vs_store s !! e);
  vi_free : ∀ e, e ∈ vs_free s ↔ is_Some (vs_store s !! e) ∧ e ∉ holders T s held;
  vi_nodup : NoDup (vs_free s);
  vi_size : Z.of_nat (size (vs_store s)) < VFD_TABLE_SIZE;
  vi_kind : ∀ e d, vs_store s !! e = Some d → 0 < vd_ref_count d → is_Some (live_file d) ∨ is_Some (live_fd d);
  vi_files : opened ≡ₚ vs_closed s ++ (map_to_list (live_files (vs_store s))).*2;
  vi_pools : ∀ p f, (p, f) ∈ opened → is_Some (vs_pools s !! p);
  vi_table : ∀ vfd e, T !! vfd = Some e → vfd ∈ D ∧ is_Some (live_files (vs_store s) !! e);
  vi_range : ∀ vfd, vfd ∈ D → 0 ≤ vfd < VFD_TABLE_SIZE;
  vi_open : ∀ vfd, vfd ∈ D → vfd ∈ w_open (vs_world s);
  vi_fds : ∀ e d fd, vs_store s !! e = Some d → live_fd d = Some fd → fd ∈ w_open (vs_world s) ∧ fd ∉ D;
  vi_fds_inj : ∀ e d e' d' fd, vs_store s !! e = Some d → vs_store s !! e' = Some d' → live_fd d = Some fd → live_fd d' = Some fd → e = e';
}.

(** The state between operations. *)
Record vfd_ok held (opened : list (positive * positive)) s : Prop := {
  vk_inv : vfd_inv (vs_table s) (dom (vs_table s)) held opened s;
  vk_cwd : is_Some (vs_cwd s);
  vk_locks : vs_locks s = [];
}.
End inv.

Lemma occ_cons e x l : occ e (x :: l) = (if decide (e = x) then 1 else 0) + occ e l.
Proof. unfold occ. rewrite filter_cons. destruct (decide (e = x)); cbn; lia. Qed.
Lemma occ_perm e l l' : l ≡ₚ l' → occ e l = occ e l'.
Proof. intros Hp. unfold occ. by rewrite Hp. Qed.
Lemma occ_pos e l : 0 < occ e l ↔ e ∈ l.
Proof.
  unfold occ. induction l as [|x l IH]; [split; [cbn; lia|by intros ?%elem_of_nil]|]. rewrite filter_cons, elem_of_cons.
  destruct (decide (e = x)) as [->|Hne]; cbn [length]; [split; [by left|lia]|]. rewrite IH. naive_solver.
Qed.
Lemma occ_nonneg e l : 0 ≤ occ e l.
Proof. unfold occ. lia. Qed.
Lemma occ_zero e l : occ e l = 0 ↔ e ∉ l.
Proof. rewrite <-occ_pos. pose proof (occ_nonneg e l). lia. Qed.

Section inv_lemmas.
Context `{E : VfdEnv} {EO : VfdEnvOk}.
Implicit Types (s : vfd_state) (T : gmap Z Z) (D : gset Z) (held : list (Z * vfile_description)) (opened : list (positive * positive)).

(** The parts of the state that only the table operations themselves change. *)
Record frame s s' : Prop := {
  fr_table : vs_table s' = vs_table s;
  fr_cwd : vs_cwd s' = vs_cwd s;
  fr_locks : vs_locks s' = vs_locks s;
  fr_pools : ∀ p, is_Some (vs_pools s !! p) → is_Some (vs_pools s' !! p);
}.

Lemma vframe_refl s : frame s s.
Proof. done. Qed.
Lemma vframe_trans s1 s2 s3 : frame s1 s2 → frame s2 s3 → frame s1 s3.
Proof. intros [] []. split; [congruence..|auto]. Qed.

Lemma holders_frame T s s' held : vs_cwd s' = vs_cwd s → holders T s' held = holders T s held.
Proof. unfold holders. by intros ->. Qed.

Lemma live_file_special d x : live_file d = Some x → vd_is_special_cwd_desc d = false ∧ vd_pool d = Some x.1 ∧ vd_file d = Some x.2 ∧ 0 < vd_ref_count d.
Proof.
  unfold live_file. destruct (Z.ltb_spec 0 (vd_ref_count d)); [|done]. destruct (vd_is_special_cwd_desc d); [done|]. cbn.
  destruct (vd_pool d), (vd_file d); cbn; intros; by simplify_eq.
Qed.
Lemma live_fd_special d fd : live_fd d = Some fd → vd_is_special_cwd_desc d = true ∧ vd_kernel_cwd_fd d = fd ∧ 0 < vd_ref_count d ∧ live_file d = None.
Proof.
  unfold live_fd, live_file. destruct (Z.ltb_spec 0 (vd_ref_count d)); [|done]. destruct (vd_is_special_cwd_desc d); [|done].
  cbn. intros. by simplify_eq.
Qed.

(** Changing a positive count to a positive count changes nothing else. *)
Lemma live_file_count d n : 0 < vd_ref_count d → 0 < n → live_file (set_vd_ref_count n d) = live_file d.
Proof. intros H1 H2. unfold live_file. cbn. by rewrite !(proj2 (Z.ltb_lt _ _)). Qed.
Lemma live_fd_count d n : 0 < vd_ref_count d → 0 < n → live_fd (set_vd_ref_count n d) = live_fd d.
Proof. intros H1 H2. unfold live_fd. cbn. by rewrite !(proj2 (Z.ltb_lt _ _)). Qed.
Lemma live_zero d : live_file (set_vd_ref_count 0 d) = None ∧ live_fd (set_vd_ref_count 0 d) = None.
Proof. done. Qed.

Lemma live_files_insert store e d : live_files (<[e := d]> store) = match live_file d with Some x => <[e := x]> (live_files store) | None => delete e (live_files store) end.
Proof. unfold live_files. destruct (live_file d) as [x|] eqn:Hx; [by apply omap_insert_Some|by apply omap_insert_None]. Qed.
Lemma live_files_lookup store e : live_files store !! e = store !! e ≫= live_file.
Proof. apply lookup_omap. Qed.

(** The references may move between holders. *)
Lemma inv_move T D held T' D' held' opened s :
  vfd_inv T D held opened s → holders T' s held' ≡ₚ holders T s held → held_ok (vs_store s) held' → D' ⊆ D →
  (∀ vfd e, T' !! vfd = Some e → vfd ∈ D' ∧ is_Some (live_files (vs_store s) !! e)) → vfd_inv T' D' held' opened s.
Proof.
  intros [Hc Hhd Hd Hf Hn Hs Hk Hfi Hp Ht Hr Ho Hfd Hi] Hh Hhd' HD HT. split; try done.
  - intros e d He. rewrite (Hc _ _ He). symmetry. by apply occ_perm.
  - intros e He. apply Hd. by rewrite <-Hh.
  - intros e. by rewrite Hf, Hh.
  - intros vfd Hv. apply Hr. set_solver.
  - intros vfd Hv. apply Ho. set_solver.
  - intros e d fd H1 H2. destruct (Hfd _ _ _ H1 H2). split; [done|set_solver].
Qed.

(** The state may change where the invariant does not look. *)
Lemma inv_frame T D held opened s s' :
  vfd_inv T D held opened s → vs_cwd s' = vs_cwd s → vs_store s' = vs_store s → vs_free s' = vs_free s → vs_closed s' = vs_closed s →
  (∀ fd, fd ∈ w_open (vs_world s) → fd ∈ D ∨ (∃ e d, vs_store s !! e = Some d ∧ live_fd d = Some fd) → fd ∈ w_open (vs_world s')) →
  (∀ p, is_Some (vs_pools s !! p) → is_Some (vs_pools s' !! p)) →
  vfd_inv T D held opened s'.
Proof.
  intros [Hc Hhd Hd Hf Hn Hs Hk Hfi Hp Ht Hr Ho Hfd Hi] Hcwd Hst Hfr Hcl Hop Hpo.
  split; rewrite ?(holders_frame _ _ _ _ Hcwd), ?Hst, ?Hfr, ?Hcl; try done.
  - intros p f Hpf. apply Hpo. by eapply Hp.
  - intros vfd Hv. apply Hop; [by apply Ho|by left].
  - intros e d fd H1 H2. destruct (Hfd _ _ _ H1 H2). split; [|done]. apply Hop; [done|]. right. eauto.
Qed.

Section count.
Context T D held opened s s' (e : Z) (d : vfile_description).
Hypotheses (Hinv : vfd_inv T D held opened s) (Hcwd : vs_cwd s' = vs_cwd s) (Hfree : vs_free s' = vs_free s) (Hclosed : vs_closed s' = vs_closed s).
Hypotheses (Hopen : w_open (vs_world s') = w_open (vs_world s)) (Hpools : ∀ p, is_Some (vs_pools s !! p) → is_Some (vs_pools s' !! p)).

(** A count that stays positive. *)
Lemma inv_recount n held' :
  vs_store s !! e = Some d → vs_store s' = <[e := set_vd_ref_count n d]> (vs_store s) → e ∈ holders T s held → e ∈ holders T s held' →
  held_ok (vs_store s) held' → n = occ e (holders T s held') → (∀ x, x ≠ e → occ x (holders T s held') = occ x (holders T s held)) →
  vfd_inv T D held' opened s'.
Proof using Hclosed Hcwd Hfree Hinv Hopen Hpools.
  intros He Hst Hin Hin' Hhd' Hn Hocc. destruct Hinv as [Hc Hhd Hd Hf Hnd Hs Hk Hfi Hp Ht Hr Ho Hfd Hi].
  assert (Hpos : 0 < vd_ref_count d) by (rewrite (Hc _ _ He); by apply occ_pos).
  assert (Hpos' : 0 < n) by (rewrite Hn; by apply occ_pos).
  assert (Hmem : ∀ x, x ∈ holders T s held' ↔ x ∈ holders T s held).
  { intros x. destruct (decide (x = e)) as [->|Hne]; [done|]. by rewrite <-!occ_pos, Hocc. }
  assert (Hlf : live_files (vs_store s') = live_files (vs_store s)).
  { rewrite Hst, live_files_insert, live_file_count by done. pose proof (live_files_lookup (vs_store s) e) as Hl. rewrite He in Hl. cbn in Hl.
    destruct (live_file d); [by apply insert_id|by apply delete_id]. }
  assert (Hlook : ∀ x y, vs_store s' !! x = Some y → ∃ y', vs_store s !! x = Some y' ∧ live_fd y = live_fd y' ∧ live_file y = live_file y' ∧ (x = e ∧ y = set_vd_ref_count n d ∨ x ≠ e ∧ y = y')).
  { intros x y. rewrite Hst, lookup_insert_Some. intros [[<- <-]|[Hne Hx]]; [exists d|exists y; naive_solver].
    rewrite live_file_count, live_fd_count by done. naive_solver. }
  split; rewrite ?(holders_frame _ _ _ _ Hcwd), ?Hlf, ?Hfree, ?Hclosed, ?Hopen; try done.
  - intros x y Hx. destruct (Hlook _ _ Hx) as (y' & Hy' & _ & _ & [[-> ->]|[Hne ->]]); [done|]. rewrite Hocc by done. by apply Hc.
  - intros x k Hx. rewrite <-(Hhd' _ _ Hx), Hst. destruct (decide (e = x)) as [<-|]; [by rewrite lookup_insert_eq, He|by rewrite lookup_insert_ne].
  - intros x Hx. rewrite Hst. apply Hmem in Hx. destruct (Hd _ Hx). apply lookup_insert_is_Some. destruct (decide (e = x)); [by left|by right].
  - intros x. rewrite Hf, Hmem, Hst, lookup_insert_is_Some. split; [|naive_solver]. intros [Hx Hni]. split; [|done]. right. split; [by intros ->|done].
  - rewrite Hst, map_size_insert_Some by (by eexists). done.
  - intros x y Hx Hy. destruct (Hlook _ _ Hx) as (y' & Hy' & -> & -> & Hor). apply (Hk _ _ Hy'). destruct Hor as [[-> ->]|[_ ->]]; [|done]. by simplify_eq.
  - intros p f Hpf. apply Hpools. by eapply Hp.
  - intros x y fd Hx Hy. destruct (Hlook _ _ Hx) as (y' & Hy' & Heq & _). rewrite Heq in Hy. by eapply Hfd.
  - intros x y x' z fd Hx Hz H1 H2. destruct (Hlook _ _ Hx) as (y' & Hy' & Heq & _). destruct (Hlook _ _ Hz) as (z' & Hz' & Heq' & _).
    rewrite Heq in H1. rewrite Heq' in H2. by eapply Hi.
Qed.
End count.

Lemma holders_table T s held vfd e : T !! vfd = Some e → e ∈ holders T s held.
Proof. intros Hv. unfold holders. rewrite !elem_of_app. right. right. apply list_elem_of_fmap. exists (vfd, e). split; [done|]. by apply elem_of_map_to_list. Qed.

Lemma holders_held T s held e k : (e, k) ∈ held → e ∈ holders T s held.
Proof. intros He. unfold holders. rewrite !elem_of_app. left. apply list_elem_of_fmap. by exists (e, k). Qed.

(** The two ways an entry ends: its file is closed, or the kernel's directory. *)
Definition dropped s s' (d : vfile_description) : Prop :=
  (∃ x, live_file d = Some x ∧ vs_closed s' = x :: vs_closed s ∧ w_open (vs_world s') = w_open (vs_world s)) ∨
  (∃ fd, live_fd d = Some fd ∧ vs_closed s' = vs_closed s ∧ w_open (vs_world s') = w_open (vs_world s) ∖ {[fd]}).

Lemma inv_last T D held opened s s' e k d :
  vfd_inv T D ((e, k) :: held) opened s → e ∉ holders T s held → vs_store s !! e = Some d →
  vs_store s' = <[e := set_vd_ref_count 0 d]> (vs_store s) → vs_free s' = e :: vs_free s → vs_cwd s' = vs_cwd s →
  (∀ p, is_Some (vs_pools s !! p) → is_Some (vs_pools s' !! p)) → dropped s s' d → vfd_inv T D held opened s'.
Proof.
  intros [Hc Hhd Hd Hf Hnd Hs Hk Hfi Hp Ht Hr Ho Hfd Hi] Hni He Hst Hfree Hcwd Hpools Hdrop.
  assert (Hh : holders T s ((e, k) :: held) = e :: holders T s held) by done. rewrite Hh in *.
  assert (Hlf : live_files (vs_store s') = delete e (live_files (vs_store s))) by (rewrite Hst, live_files_insert; done).
  assert (Hlook : ∀ x y, vs_store s' !! x = Some y → 0 < vd_ref_count y → x ≠ e ∧ vs_store s !! x = Some y).
  { intros x y. rewrite Hst, lookup_insert_Some. intros [[<- <-]|[Hne Hx]]; [cbn; lia|done]. }
  assert (Hlive : ∀ y fd, live_fd y = Some fd → 0 < vd_ref_count y) by (intros y fd Hy; by destruct (live_fd_special _ _ Hy) as (_ & _ & ? & _)).
  assert (Hwo : ∀ fd, fd ∈ w_open (vs_world s) → live_fd d ≠ Some fd → fd ∈ w_open (vs_world s')).
  { intros fd Hin Hne. destruct Hdrop as [(x & _ & _ & ->)|(fd' & Hfd' & _ & ->)]; [done|]. apply elem_of_difference. split; [done|].
    intros ->%elem_of_singleton. done. }
  split; rewrite ?(holders_frame _ _ _ _ Hcwd), ?Hlf, ?Hfree; try done.
  - intros x y. rewrite Hst, lookup_insert_Some. intros [[<- <-]|[Hne Hx]]; cbn; [symmetry; by apply occ_zero|].
    rewrite (Hc _ _ Hx), occ_cons, decide_False by done. lia.
  - intros x k' Hx. rewrite Hst, lookup_insert_ne; [by apply Hhd; right|]. intros ->. apply Hni. by eapply holders_held.
  - intros x Hx. rewrite Hst, lookup_insert_is_Some. right. split; [by intros ->|]. apply Hd. by right.
  - intros x. rewrite elem_of_cons, Hf, Hst, lookup_insert_is_Some, not_elem_of_cons. destruct (decide (x = e)) as [->|]; naive_solver.
  - apply NoDup_cons. split; [|done]. rewrite Hf. intros [_ Hx]. apply Hx. by left.
  - rewrite Hst, map_size_insert_Some by (by eexists). done.
  - intros x y Hx Hy. destruct (Hlook _ _ Hx Hy) as [_ Hx']. by eapply Hk.
  - rewrite Hfi. destruct Hdrop as [(x & Hx & -> & _)|(fd & Hx & -> & _)].
    + assert (Hl : live_files (vs_store s) !! e = Some x) by (rewrite live_files_lookup, He; done).
      rewrite <-(map_to_list_delete _ _ _ Hl). cbn. by rewrite Permutation_middle.
    + destruct (live_fd_special _ _ Hx) as (_ & _ & _ & Hnone). rewrite delete_id; [done|]. by rewrite live_files_lookup, He.
  - intros p f Hpf. apply Hpools. by eapply Hp.
  - intros vfd x Hx. destruct (Ht _ _ Hx) as [HD Hl]. split; [done|]. rewrite lookup_delete_ne; [done|].
    intros ->. apply Hni. by eapply holders_table.
  - intros vfd HD. apply Hwo; [by apply Ho|]. intros Hfd'. by destruct (Hfd _ _ _ He Hfd').
  - intros x y fd Hx Hy. destruct (Hlook _ _ Hx) as [Hne Hx']; [by eapply Hlive|]. destruct (Hfd _ _ _ Hx' Hy) as [Hin HD]. split; [|done].
    apply Hwo; [done|]. intros Hdf. apply Hne. by eapply Hi.
  - intros x y x' y' fd Hx Hx' Hy Hy'. destruct (Hlook _ _ Hx) as [_ H1]; [by eapply Hlive|]. destruct (Hlook _ _ Hx') as [_ H2]; [by eapply Hlive|]. by eapply Hi.
Qed.

(** A fresh entry. *)
Definition started s s' D (d : vfile_description) (opened opened' : list (positive * positive)) : Prop :=
  (∃ x, live_file d = Some x ∧ opened' = x :: opened ∧ is_Some (vs_pools s' !! x.1)) ∨
  (∃ fd, live_fd d = Some fd ∧ opened' = opened ∧ fd ∈ w_open (vs_world s) ∧ fd ∉ D ∧
     ∀ e d', vs_store s !! e = Some d' → live_fd d' ≠ Some fd).

Lemma inv_new T D held opened opened' s s' e fr d :
  vfd_inv T D held opened s → vs_free s = e :: fr → vd_ref_count d = 1 → vs_store s' = <[e := d]> (vs_store s) → vs_free s' = fr →
  vs_cwd s' = vs_cwd s → vs_closed s' = vs_closed s → w_open (vs_world s') = w_open (vs_world s) →
  (∀ p, is_Some (vs_pools s !! p) → is_Some (vs_pools s' !! p)) → started s s' D d opened opened' → vfd_inv T D ((e, vd_id d) :: held) opened' s'.
Proof.
  intros [Hc Hhd Hd Hf Hnd Hs Hk Hfi Hp Ht Hr Ho Hfd Hi] Hfree Hone Hst Hfree' Hcwd Hclosed Hopen Hpools Hstart.
  destruct (proj1 (Hf e)) as [[d0 He] Hni]; [rewrite Hfree; by left|]. rewrite Hfree in *. apply NoDup_cons in Hnd as [Hnfr Hnd].
  assert (Hz : vd_ref_count d0 = 0) by (rewrite (Hc _ _ He); by apply occ_zero).
  assert (Hnone : live_files (vs_store s) !! e = None) by (rewrite live_files_lookup, He; cbn; unfold live_file; by rewrite Hz).
  assert (Hh : holders T s ((e, vd_id d) :: held) = e :: holders T s held) by done.
  assert (Hnl : ∀ x y, x ≠ e → live_files (vs_store s) !! x = Some y → live_files (vs_store s') !! x = Some y).
  { intros x y Hne Hx. rewrite Hst, live_files_insert. destruct (live_file d); [by rewrite lookup_insert_ne|by rewrite lookup_delete_ne]. }
  split; rewrite ?(holders_frame _ _ _ _ Hcwd), ?Hfree', ?Hclosed, ?Hopen, ?Hh; try done.
  - intros x y. rewrite Hst, lookup_insert_Some, occ_cons. intros [[<- <-]|[Hne Hx]].
    + rewrite decide_True, (proj2 (occ_zero _ _)) by done. lia.
    + rewrite decide_False by done. by apply Hc.
  - intros x k [Hx|Hx]%elem_of_cons; rewrite Hst; [simplify_eq; by rewrite lookup_insert_eq|]. rewrite lookup_insert_ne; [by apply Hhd|].
    intros ->. apply Hni. by eapply holders_held.
  - intros x [->|Hx]%elem_of_cons; rewrite Hst, lookup_insert_is_Some; [by left|]. destruct (decide (e = x)); [by left|right; auto].
  - intros x. rewrite Hst, lookup_insert_is_Some, not_elem_of_cons. specialize (Hf x). rewrite elem_of_cons in Hf.
    destruct (decide (x = e)) as [->|]; naive_solver.
  - rewrite Hst, map_size_insert_Some by (by eexists). done.
  - intros x y. rewrite Hst, lookup_insert_Some. intros [[<- <-]|[Hne Hx]]; [|by eapply Hk]. intros _.
    destruct Hstart as [(z & Hz' & _)|(fd & Hfd' & _)]; [left|right]; by eexists.
  - rewrite Hst, live_files_insert. destruct Hstart as [(z & -> & -> & _)|(fd & Hfd' & -> & _)].
    + rewrite map_to_list_insert by done. cbn. by rewrite <-Permutation_middle, Hfi.
    + destruct (live_fd_special _ _ Hfd') as (_ & _ & _ & ->). by rewrite delete_id.
  - intros p f Hpf. destruct Hstart as [(z & _ & -> & Hz')|(fd & _ & -> & _)]; [|by eapply Hpools, Hp].
    apply elem_of_cons in Hpf as [<-|Hpf]; [done|by eapply Hpools, Hp].
  - intros vfd x Hx. destruct (Ht _ _ Hx) as [HD [y Hy]]. split; [done|]. exists y. apply Hnl; [|done]. intros ->. congruence.
  - intros x y fd. rewrite Hst, lookup_insert_Some. intros [[<- <-]|[Hne Hx]] Hy; [|by eapply Hfd].
    destruct Hstart as [(z & Hz' & _)|(fd' & Hfd' & _ & Hin & HD & _)]; [destruct (live_fd_special _ _ Hy) as (_ & _ & _ & ?); congruence|]. by simplify_eq.
  - intros x y x' y' fd. rewrite Hst, !lookup_insert_Some. intros Hx Hx' Hy Hy'. pose proof (live_fd_special d) as Hsp.
    destruct Hstart as [(z & Hz' & _)|(fd' & Hfd' & _ & _ & _ & Hno)]; destruct Hx as [[<- <-]|[Hne Hx]], Hx' as [[<- <-]|[Hne' Hx']]; naive_solver.
Qed.
End inv_lemmas.

(** ** The operations *)

Section ops.
Context `{E : VfdEnv} {EO : VfdEnvOk}.
Implicit Types (s : vfd_state) (T : gmap Z Z) (D : gset Z) (held : list (Z * vfile_description)) (opened : list (positive * positive)).

(** Nothing the invariant speaks of has changed. *)
Record quiet s s' : Prop := {
  qu_frame : frame s s';
  qu_store : vs_store s' = vs_store s;
  qu_free : vs_free s' = vs_free s;
  qu_closed : vs_closed s' = vs_closed s;
  qu_open : w_open (vs_world s') = w_open (vs_world s);
}.

Lemma quiet_refl s : quiet s s.
Proof. done. Qed.
Lemma quiet_trans s1 s2 s3 : quiet s1 s2 → quiet s2 s3 → quiet s1 s3.
Proof. intros [] []. split; [by eapply vframe_trans|congruence..]. Qed.

Lemma inv_quiet T D held opened s s' : vfd_inv T D held opened s → quiet s s' → vfd_inv T D held opened s'.
Proof.
  intros Hinv [[_ Hc _ Hp] Hst Hfr Hcl Ho]. eapply inv_frame; [done..| |done]. intros fd Hfd _. by rewrite Ho.
Qed.

Lemma wp_call {A} (f : world → A * world) (Q : A → vfd_state → Prop) X s :
  Q (f (vs_world s)).1 (set_vs_world (f (vs_world s)).2 s) → wp (call f) Q X s.
Proof. unfold wp, call. by destruct (f (vs_world s)). Qed.

Lemma wp_locked {A} l (m : M vfd_state A) (Q : A → vfd_state → Prop) X s :
  l ∉ vs_locks s →
  wp m (λ a s', vs_locks s' = l :: vs_locks s ∧ Q a (set_vs_locks (vs_locks s) s')) X (set_vs_locks (l :: vs_locks s) s) →
  wp (locked l m) Q X s.
Proof.
  intros Hl Hm. unfold locked. apply wp_bind, wp_gets, wp_bind, wp_assert; [by rewrite bool_decide_eq_false_2|].
  apply wp_bind, wp_modify, wp_bind. eapply wp_conseq; [exact Hm|]. intros a s' [Hs' HQ]. apply wp_bind, wp_modify, wp_ret.
  rewrite Hs'. rewrite filter_cons_False by (intros H; by apply H). replace (filter _ _) with (vs_locks s); [done|].
  clear -Hl. induction (vs_locks s) as [|x ls IH]; [done|]. apply not_elem_of_cons in Hl as [Hx Hl]. rewrite filter_cons_True by congruence. by rewrite <-IH.
Qed.

Lemma quiet_pool s p d : quiet s (set_vs_pools (<[p := d]> (vs_pools s)) s).
Proof. split; [split|..]; try done. intros q Hq. cbn. apply lookup_insert_is_Some. destruct (decide (p = q)); [by left|by right]. Qed.
Lemma quiet_world s w : w_open w = w_open (vs_world s) → quiet s (set_vs_world w s).
Proof. intros Hw. split; [split|..]; done. Qed.
Lemma quiet_locks s s' ls : quiet (set_vs_locks ls s) s' → quiet s (set_vs_locks (vs_locks s) s').
Proof. intros [[] ? ? ? ?]. split; [split|..]; done. Qed.

(** What acquiring and releasing a pool has in common. *)
Lemma wp_pool_section p (f : pool_description → bool) (n : pool_description → Z) g b (Q : unit → vfd_state → Prop) X s :
  is_Some (vs_pools s !! p) → LPool p ∉ vs_locks s → (∀ w, (g w).1 = 0 ∧ w_open (g w).2 = w_open w) →
  (∀ s', quiet s s' → Q tt s') →
  wp (locked (LPool p) (
      d ← pool_get p;
      pool_set p (PoolDesc (n d) (pd_suspended d));;
      if f d then
        r ← call g;
        assert_ (r =? 0);;
        pool_set p (PoolDesc (n d) b)
      else mret tt)) Q X s.
Proof.
  intros [d Hd] Hl Hg HQ. apply wp_locked; [done|]. apply wp_bind, wp_bind, wp_gets. eapply wp_of_option; [exact Hd|].
  apply wp_bind, wp_modify. cbn [vs_pools set_vs_locks]. set (s1 := set_vs_pools _ _).
  assert (H1 : quiet (set_vs_locks (LPool p :: vs_locks s) s) s1) by apply (quiet_pool (set_vs_locks _ s)).
  destruct (f d); [|apply wp_ret; split; [by rewrite (fr_locks _ _ (qu_frame _ _ H1))|]; by apply HQ, (quiet_locks s _ (LPool p :: vs_locks s))].
  apply wp_bind, wp_call. destruct (Hg (vs_world s1)) as [H0 Ho]. set (s2 := set_vs_world _ s1).
  assert (H2 : quiet s1 s2) by (by apply quiet_world). apply wp_bind, wp_assert; [by rewrite H0|]. apply wp_modify.
  set (s3 := set_vs_pools _ s2). assert (H3 : quiet s2 s3) by apply quiet_pool.
  assert (H4 : quiet (set_vs_locks (LPool p :: vs_locks s) s) s3) by (eapply quiet_trans; [exact H1|by eapply quiet_trans]).
  split; [by rewrite (fr_locks _ _ (qu_frame _ _ H4))|]. by apply HQ, (quiet_locks s _ (LPool p :: vs_locks s)).
Qed.

Lemma wp_pool_acquire p (Q : unit → vfd_state → Prop) X s :
  is_Some (vs_pools s !! p) → LPool p ∉ vs_locks s → (∀ s', quiet s s' → Q tt s') → wp (pool_acquire (Some p)) Q X s.
Proof.
  intros Hp Hl HQ. unfold pool_acquire. apply wp_bind, wp_gets. destruct (vs_switching s); cbn [negb]; [|apply wp_ret, HQ, quiet_refl].
  apply wp_bind. eapply wp_of_option; [done|]. eapply (wp_pool_section p (λ d, (pd_ref_cnt d + 1 =? 1) && pd_suspended d) (λ d, pd_ref_cnt d + 1) (pm_resume p) false); [done|done|apply pm_resume_ok|done].
Qed.

Lemma wp_pool_release p (Q : unit → vfd_state → Prop) X s :
  is_Some (vs_pools s !! p) → LPool p ∉ vs_locks s → (∀ s', quiet s s' → Q tt s') → wp (pool_release (Some p)) Q X s.
Proof.
  intros Hp Hl HQ. unfold pool_release. apply wp_bind, wp_gets. destruct (vs_switching s); cbn [negb]; [|apply wp_ret, HQ, quiet_refl].
  apply wp_bind. eapply wp_of_option; [done|]. eapply (wp_pool_section p (λ d, (pd_ref_cnt d - 1 =? 0) && negb (pd_suspended d)) (λ d, pd_ref_cnt d - 1) (pm_suspend p) true); [done|done|apply pm_suspend_ok|done].
Qed.

Lemma wp_entry_get e d (Q : vfile_description → vfd_state → Prop) X s : vs_store s !! e = Some d → Q d s → wp (entry_get e) Q X s.
Proof. intros He HQ. unfold entry_get. apply wp_bind, wp_gets. by eapply wp_of_option. Qed.

(** Locks that the release of an entry takes. *)
Definition unlocked s : Prop := LFree ∉ vs_locks s ∧ ∀ p, LPool p ∉ vs_locks s.

Lemma unlocked_frame s s' : unlocked s → frame s s' → unlocked s'.
Proof. intros Hu Hf. unfold unlocked. by rewrite (fr_locks _ _ Hf). Qed.

Lemma free_room T D held opened s e :
  vfd_inv T D held opened s → e ∈ holders T s held → VFD_TABLE_SIZE <=? Z.of_nat (length (vs_free s)) = false.
Proof.
  intros [Hc _ Hd Hf Hnd Hs _ _ _ _ _ _ _ _] He. apply Z.leb_gt. eapply Z.le_lt_trans; [|exact Hs]. apply inj_le.
  rewrite <-size_dom, <-(size_list_to_set (C := gset Z) (vs_free s)) by done. apply subseteq_size. intros x. rewrite elem_of_list_to_set, elem_of_dom, Hf. by intros [].
Qed.

Lemma wp_mark_free e d (Q : unit → vfd_state → Prop) X s :
  LFree ∉ vs_locks s → vs_store s !! e = Some d → vd_ref_count d = 0 → VFD_TABLE_SIZE <=? Z.of_nat (length (vs_free s)) = false →
  Q tt (set_vs_free (e :: vs_free s) s) → wp (mark_as_free_file_slot e) Q X s.
Proof.
  intros Hl He Hd Hroom HQ. apply wp_locked; [done|]. apply wp_bind. eapply wp_entry_get; [exact He|].
  apply wp_bind, wp_assert; [by rewrite Hd|]. apply wp_bind, wp_gets. cbn [vs_free set_vs_locks]. rewrite Hroom. apply wp_modify. split; [done|].
  by destruct s.
Qed.

Lemma wp_fetch_slot (Q : option Z → vfd_state → Prop) X s :
  LFree ∉ vs_locks s → (vs_free s = [] → Q None s) → (∀ e fr, vs_free s = e :: fr → Q (Some e) (set_vs_free fr s)) →
  wp fetch_free_file_slot Q X s.
Proof.
  intros Hl Hnone Hsome. apply wp_locked; [done|]. apply wp_bind, wp_gets. cbn [vs_free set_vs_locks].
  destruct (vs_free s) as [|e fr] eqn:Hf.
  - apply wp_ret. split; [done|]. specialize (Hnone eq_refl). by destruct s.
  - apply wp_bind, wp_modify, wp_ret. split; [done|]. specialize (Hsome e fr eq_refl). by destruct s.
Qed.

(** Closing the file, or the kernel's directory, of an entry. *)
Lemma wp_drop_entry d (Q : unit → vfd_state → Prop) X s :
  unlocked s → is_Some (live_file d) ∨ is_Some (live_fd d) → (∀ x, live_file d = Some x → is_Some (vs_pools s !! x.1)) →
  (∀ s', frame s s' → vs_store s' = vs_store s → vs_free s' = vs_free s → dropped s s' d → Q tt s') →
  wp (if vd_is_special_cwd_desc d then call (sys_close (vd_kernel_cwd_fd d));; mret tt
      else
        pool_acquire (vd_pool d);;
        pmemfile_close_call (vd_pool d) (vd_file d);;
        pool_release (vd_pool d)) Q X s.
Proof.
  intros [Hlf Hlp] Hkind Hpool HQ. destruct (live_file d) as [[p f]|] eqn:Hf.
  - destruct (live_file_special _ _ Hf) as (-> & -> & -> & _). cbn [fst snd]. specialize (Hpool _ eq_refl). cbn in Hpool.
    apply wp_bind. apply wp_pool_acquire; [done|done|]. intros s1 H1. apply wp_bind. unfold pmemfile_close_call.
    apply wp_bind. eapply wp_of_option; [done|]. apply wp_bind. eapply wp_of_option; [done|]. apply wp_bind, wp_call, wp_modify.
    set (s2 := set_vs_closed _ _). assert (H2 : frame s1 s2) by (split; done). pose proof (vframe_trans _ _ _ (qu_frame _ _ H1) H2) as H12.
    apply wp_pool_release; [by apply (fr_pools _ _ H12)|by rewrite (fr_locks _ _ H12)|]. intros s3 H3.
    apply HQ; [by eapply vframe_trans, H3|rewrite (qu_store _ _ H3); apply (qu_store _ _ H1)|rewrite (qu_free _ _ H3); apply (qu_free _ _ H1)|].
    left. exists (p, f). split_and!; [done|rewrite (qu_closed _ _ H3); cbn; by rewrite (qu_closed _ _ H1)|].
    rewrite (qu_open _ _ H3). cbn. rewrite pm_close_ok. apply (qu_open _ _ H1).
  - destruct Hkind as [[? ?]|[fd Hfd]]; [done|]. destruct (live_fd_special _ _ Hfd) as (-> & Hk & _). rewrite Hk.
    apply wp_bind, wp_call, wp_ret. apply HQ; [by split|done|done|]. right. exists fd. split_and!; [done..|]. cbn. apply close_ok.
Qed.

(** Dropping a reference. *)
Lemma wp_unref_entry T D held opened e k (Q : unit → vfd_state → Prop) X s :
  vfd_inv T D ((e, k) :: held) opened s → unlocked s → (∀ s', vfd_inv T D held opened s' → frame s s' → Q tt s') →
  wp (unref_entry (Some e)) Q X s.
Proof.
  intros Hinv Hun HQ. destruct (vi_dom _ _ _ _ _ Hinv e) as [d He]; [by left|]. unfold unref_entry, vf_ref_count_dec_and_fetch.
  pose proof (vi_count _ _ _ _ _ Hinv e d He) as Hcount. change (holders T s ((e, k) :: held)) with (e :: holders T s held) in Hcount.
  rewrite occ_cons, decide_True in Hcount by done.
  apply wp_bind, wp_bind. eapply wp_entry_get; [exact He|]. apply wp_bind, wp_modify, wp_ret.
  set (d' := set_vd_ref_count _ d). set (s1 := set_vs_store _ s). destruct (Z.eqb_spec (vd_ref_count d - 1) 0) as [Hz|Hnz]; cycle 1.
  { apply wp_ret. pose proof (occ_nonneg e (holders T s held)). apply HQ; [|by split]. eapply (inv_recount T D ((e, k) :: held) opened s s1 e d); try done.
    - by left.
    - apply occ_pos. lia.
    - intros x k' Hx. apply (vi_held _ _ _ _ _ Hinv). by right.
    - lia.
    - intros x Hx. change (holders T s ((e, k) :: held)) with (e :: holders T s held). rewrite occ_cons, decide_False by done. lia. }
  assert (Hni : e ∉ holders T s held) by (apply occ_zero; lia).
  assert (Hkind : is_Some (live_file d) ∨ is_Some (live_fd d)) by (eapply vi_kind; [done|done|lia]).
  assert (He1 : vs_store s1 !! e = Some d') by apply lookup_insert_eq.
  apply wp_bind. eapply wp_entry_get; [exact He1|]. apply wp_bind.
  change (wp (if vd_is_special_cwd_desc d then call (sys_close (vd_kernel_cwd_fd d));; mret tt else pool_acquire (vd_pool d);; pmemfile_close_call (vd_pool d) (vd_file d);; pool_release (vd_pool d))
    (λ _ s', wp (mark_as_free_file_slot e) Q X s') X s1).
  apply wp_drop_entry; [done|done| |].
  { intros x Hx. apply (vi_pools _ _ _ _ _ Hinv x.1 x.2). rewrite <-surjective_pairing, (vi_files _ _ _ _ _ Hinv). apply elem_of_app. right.
    apply list_elem_of_fmap. exists (e, x). split; [done|]. apply elem_of_map_to_list. by rewrite live_files_lookup, He. }
  intros s2 Hfr Hst Hfree Hdrop. eapply wp_mark_free; [by destruct (unlocked_frame s1 s2 Hun Hfr)|by rewrite Hst|cbn; lia| |].
  - rewrite Hfree. apply (free_room T D ((e, k) :: held) opened s e); [done|by left].
  - apply HQ; [|by destruct Hfr]. eapply (inv_last T D held opened s _ e k d); [done|done|done| | | | |].
    + cbn. rewrite Hst. unfold s1, d'. cbn. by rewrite Hz.
    + cbn. by rewrite Hfree.
    + apply (fr_cwd _ _ Hfr).
    + apply (fr_pools _ _ Hfr).
    + exact Hdrop.
Qed.

(** Taking a reference to an entry that is in use. *)
Lemma wp_ref_inc T D held opened e (Q : unit → vfd_state → Prop) X s :
  vfd_inv T D held opened s → e ∈ holders T s held →
  (∀ d, vs_store s !! e = Some d → let s' := set_vs_store (<[e := set_vd_ref_count (vd_ref_count d + 1) d]> (vs_store s)) s in
    vfd_inv T D ((e, vd_id d) :: held) opened s' → Q tt s') →
  wp (vf_ref_count_inc e) Q X s.
Proof.
  intros Hinv Hin HQ. destruct (vi_dom _ _ _ _ _ Hinv e Hin) as [d He]. unfold vf_ref_count_inc. apply wp_bind. eapply wp_entry_get; [exact He|].
  apply wp_modify. apply HQ; [done|]. eapply (inv_recount T D held opened s _ e d); try done.
  - by right.
  - intros x k [Hx|Hx]%elem_of_cons; [simplify_eq; by rewrite He|by apply (vi_held _ _ _ _ _ Hinv)].
  - change (holders T s ((e, vd_id d) :: held)) with (e :: holders T s held). rewrite occ_cons, decide_True by done. rewrite (vi_count _ _ _ _ _ Hinv _ _ He). lia.
  - intros x Hx. change (holders T s ((e, vd_id d) :: held)) with (e :: holders T s held). rewrite occ_cons, decide_False by done. lia.
Qed.
End ops.
