(* ===== verification/VfdOps.v ===== *)
(** The operations of the file descriptor table keep its invariant. *)
From S2P Require Import Prelude CString VfdTable VfdRep.

Section vfd_ops.
Context `{E : VfdEnv} {EO : VfdEnvOk}.
Implicit Types (s : vfd_state) (T : gmap Z Z) (D : gset Z) (held : list (Z * vfile_description)) (opened : list (positive * positive)).

(** ** Sections under the mutex of the table *)

Lemma inv_locks T D held opened s ls : vfd_inv T D held opened s → vfd_inv T D held opened (set_vs_locks ls s).
Proof. intros Hinv. by eapply inv_frame. Qed.

Lemma wp_section {A} (m : M vfd_state A) (Q : A → vfd_state → Prop) X s :
  vs_locks s = [] → wp m (λ a s', vs_locks s' = [LTable] ∧ Q a (set_vs_locks [] s')) X (set_vs_locks [LTable] s) → wp (locked LTable m) Q X s.
Proof. intros Hl Hm. apply wp_locked; rewrite Hl; [apply not_elem_of_nil|done]. Qed.

Lemma unlocked_nil s : vs_locks s = [] → unlocked s.
Proof. intros Hl. unfold unlocked. rewrite Hl. split; [|intros p]; apply not_elem_of_nil. Qed.
Lemma unlocked_table s : vs_locks s = [LTable] → unlocked s.
Proof. intros Hl. unfold unlocked. rewrite Hl. split; [|intros p]; intros H%list_elem_of_singleton; done. Qed.

Lemma ok_range held opened s vfd e : vfd_ok held opened s → vs_table s !! vfd = Some e → is_in_vfd_table_range vfd = true.
Proof.
  intros [Hinv _ _] Ht. destruct (vi_table _ _ _ _ _ Hinv _ _ Ht) as [HD _]. pose proof (vi_range _ _ _ _ _ Hinv _ HD).
  unfold is_in_vfd_table_range. apply andb_true_iff. split; [apply Z.leb_le|apply Z.ltb_lt]; lia.
Qed.

Lemma wp_table_at vfd (Q : option Z → vfd_state → Prop) X s :
  is_in_vfd_table_range vfd = true → Q (vs_table s !! vfd) s → wp (table_at vfd) Q X s.
Proof. intros Hr HQ. unfold table_at. unfold is_in_vfd_table_range in Hr. rewrite Hr. by apply wp_gets. Qed.

Lemma wp_can_be vfd held opened (Q : bool → vfd_state → Prop) X s :
  vfd_ok held opened s → Q (bool_decide (is_Some (vs_table s !! vfd))) s → wp (can_be_in_vfd_table vfd) Q X s.
Proof.
  intros Hok HQ. unfold can_be_in_vfd_table. destruct (is_in_vfd_table_range vfd) eqn:Hr; cbn [negb].
  - apply wp_bind. apply wp_table_at; [done|]. by apply wp_ret.
  - apply wp_ret. destruct (vs_table s !! vfd) as [e|] eqn:He; [|done]. rewrite (ok_range _ _ _ _ _ Hok He) in Hr. done.
Qed.

(** An entry of the table denotes a file that is open. *)
Lemma table_live T D held opened s vfd e :
  vfd_inv T D held opened s → T !! vfd = Some e → e ∈ holders T s held ∧
  ∃ d x, vs_store s !! e = Some d ∧ live_file d = Some x ∧ live_files (vs_store s) !! e = Some x.
Proof.
  intros Hinv Ht. split; [by eapply holders_table|]. destruct (vi_table _ _ _ _ _ Hinv _ _ Ht) as [_ [x Hx]]. pose proof Hx as Hl. rewrite live_files_lookup in Hx.
  destruct (vs_store s !! e) as [d|]; [|done]. cbn in Hx. eauto.
Qed.

(** ** References *)

(** The reference [r] to an entry that stood for [k]. *)
Definition tokens (r : vfd_reference) (k : vfile_description) : list (Z * vfile_description) := (λ e, (e, k)) <$> option_list (vr_internal r).
Definition denotes (r : vfd_reference) (k : vfile_description) : Prop := is_Some (vr_internal r) → vr_pool r = vd_pool k ∧ vr_file r = vd_file k.

Lemma wp_vfd_ref vfd held opened (Q : vfd_reference → vfd_state → Prop) X s :
  vfd_ok held opened s →
  (vs_table s !! vfd = None → Q (VfdRef None None vfd None) s) →
  (∀ e k x s', vs_table s !! vfd = Some e → vd_id <$> vs_store s !! e = Some k → live_files (vs_store s) !! e = Some x → vfd_ok ((e, k) :: held) opened s' →
     vs_table s' = vs_table s → vs_cwd s' = vs_cwd s → vd_pool k = Some x.1 → vd_file k = Some x.2 → Q (VfdRef (Some x.1) (Some x.2) 0 (Some e)) s') →
  wp (pmemfile_vfd_ref vfd) Q X s.
Proof.
  intros Hok Hnone Hsome. unfold pmemfile_vfd_ref. apply wp_bind. eapply wp_can_be; [done|].
  destruct (vs_table s !! vfd) as [e|] eqn:He; cycle 1.
  { rewrite bool_decide_eq_false_2 by (by intros []). apply wp_ret. by apply Hnone. }
  rewrite bool_decide_eq_true_2 by (by eexists). cbn [negb]. pose proof Hok as [Hinv Hcwd Hlk].
  apply wp_section; [done|]. unfold pmemfile_ref_vfd_under_mutex. apply wp_bind. apply wp_table_at; [by eapply ok_range|].
  cbn [vs_table set_vs_locks]. rewrite He. destruct (table_live _ _ _ _ _ _ _ Hinv He) as (Hin & d & x & Hd & Hlive & Hlf).
  apply wp_bind. eapply wp_ref_inc; [by apply inv_locks|done|]. intros d' Hd' s1 Hinv1. cbn [vs_store set_vs_locks] in Hd'. assert (d' = d) as -> by congruence.
  apply wp_bind. eapply wp_entry_get; [apply lookup_insert_eq|]. apply wp_ret. split; [done|]. cbn [vd_pool vd_file set_vd_ref_count].
  destruct (live_file_special _ _ Hlive) as (_ & Hp & Hf & Hpos). rewrite Hp, Hf. eapply (Hsome e (vd_id d) x); [done|by rewrite Hd|done| |done..].
  split; [by apply (inv_locks _ _ _ _ s1)|done|done].
Qed.

Lemma holders_cwd T s held c : vs_cwd s = Some c → c ∈ holders T s held.
Proof. intros Hc. unfold holders. rewrite Hc. cbn. apply elem_of_app. right. by left. Qed.

Lemma wp_at_ref vfd held opened (Q : vfd_reference → vfd_state → Prop) X s :
  vfd_ok held opened s →
  (∀ r k s', vfd_ok (tokens r k ++ held) opened s' → denotes r k → vs_table s' = vs_table s → vs_cwd s' = vs_cwd s → Q r s') →
  wp (pmemfile_vfd_at_ref vfd) Q X s.
Proof.
  intros Hok HQ. unfold pmemfile_vfd_at_ref. destruct (vfd =? AT_FDCWD); cycle 1.
  { eapply wp_vfd_ref; [done| |].
    - intros _. apply (HQ (VfdRef None None vfd None) vd_zero); [done|by intros []|done|done].
    - intros e k x s' _ _ _ Hok' Ht Hc Hp Hf. apply (HQ (VfdRef (Some x.1) (Some x.2) 0 (Some e)) k); [done| |done|done]. by intros _. }
  destruct Hok as [Hinv [c Hc] Hlk]. apply wp_section; [done|]. apply wp_bind, wp_gets. apply wp_bind. eapply wp_of_option; [exact Hc|].
  apply wp_bind. eapply wp_ref_inc; [by apply inv_locks|by apply holders_cwd|]. intros d Hd s1 Hinv1.
  apply wp_bind. eapply wp_entry_get; [apply lookup_insert_eq|]. apply wp_ret. split; [done|].
  apply (HQ _ (vd_id d)); [|by intros _|done|done]. split; [by apply (inv_locks _ _ _ _ s1)|by exists c|done].
Qed.

Lemma wp_vfd_unref r k held opened (Q : unit → vfd_state → Prop) X s :
  vfd_ok (tokens r k ++ held) opened s →
  (∀ s', vfd_ok held opened s' → vs_table s' = vs_table s → vs_cwd s' = vs_cwd s → Q tt s') → wp (pmemfile_vfd_unref r) Q X s.
Proof.
  intros [Hinv Hc Hl] HQ. unfold pmemfile_vfd_unref, tokens in *. destruct (vr_internal r) as [e|]; cycle 1.
  { apply wp_ret, HQ; [by split|done|done]. }
  eapply wp_unref_entry; [exact Hinv|by apply unlocked_nil|]. intros s' Hinv' [Ht Hc' Hl' _]. apply HQ; [|done|done].
  split; [by rewrite Ht|by rewrite Hc'|by rewrite Hl'].
Qed.

(** ** Duplicating *)

(** The reference the table [T] holds for a descriptor. *)
Definition slot (n : option Z) (k : vfile_description) : list (Z * vfile_description) := (λ e, (e, k)) <$> option_list n.

Lemma wp_unref_opt T D held opened n k (Q : unit → vfd_state → Prop) X s :
  vfd_inv T D (slot n k ++ held) opened s → unlocked s → (∀ s', vfd_inv T D held opened s' → frame s s' → Q tt s') → wp (unref_entry n) Q X s.
Proof.
  intros Hinv Hun HQ. destruct n as [e|]; [eapply wp_unref_entry; [exact Hinv|done|done]|]. apply wp_ret, HQ; [done|apply vframe_refl].
Qed.

Lemma wp_ref_opt T D held opened n (Q : unit → vfd_state → Prop) X s :
  vfd_inv T D held opened s → (∀ e, n = Some e → e ∈ holders T s held) →
  (∀ k s', vfd_inv T D (slot n k ++ held) opened s' → frame s s' → vs_world s' = vs_world s → Q tt s') → wp (ref_entry n) Q X s.
Proof.
  intros Hinv Hin HQ. destruct n as [e|]; [|apply wp_ret; apply (HQ vd_zero); [done|apply vframe_refl|done]].
  cbn [ref_entry]. eapply wp_ref_inc; [done|by apply Hin|]. intros d _ s' Hinv'. by apply (HQ (vd_id d)).
Qed.

(** No entry holds [fd] as the kernel's current directory. *)
Definition not_cwd_fd fd s : Prop := ∀ e d, vs_store s !! e = Some d → live_fd d ≠ Some fd.

Lemma inv_keep T D held opened s fd :
  vfd_inv T D held opened s → is_in_vfd_table_range fd = true → fd ∈ w_open (vs_world s) → not_cwd_fd fd s → vfd_inv T ({[fd]} ∪ D) held opened s.
Proof.
  intros [Hc Hhd Hd Hf Hn Hs Hk Hfi Hp Ht Hr Ho Hfd Hi] Hrange Hopen Hno. split; try done.
  - intros vfd e Hv. destruct (Ht _ _ Hv). split; [set_solver|done].
  - intros vfd [->%elem_of_singleton|HD]%elem_of_union; [|by apply Hr]. apply andb_true_iff in Hrange as [H1 H2]. apply Z.leb_le in H1. apply Z.ltb_lt in H2. lia.
  - intros vfd [->%elem_of_singleton|HD]%elem_of_union; [done|by apply Ho].
  - intros e d x He Hx. destruct (Hfd _ _ _ He Hx) as [H1 H2]. split; [done|]. apply not_elem_of_union. split; [|done].
    intros ->%elem_of_singleton. by eapply Hno.
Qed.

Lemma holders_delete T s held new k : holders (delete new T) s (slot (T !! new) k ++ held) ≡ₚ holders T s held.
Proof.
  unfold holders, slot. destruct (T !! new) as [e|] eqn:He; cbn [option_list app fmap list_fmap fst]; [|by rewrite delete_id].
  rewrite <-(map_to_list_delete T new e) by done. cbn. rewrite Permutation_middle. f_equiv. by rewrite Permutation_middle.
Qed.

Lemma held_app store held held' : held_ok store (held ++ held') → held_ok store held'.
Proof. intros Hh e k Hin. apply Hh. apply elem_of_app. by right. Qed.

(** The table's own reference, as a reference of a user. *)
Lemma slot_file T D held opened s vfd : vfd_inv T D held opened s →
  ∃ k, held_ok (vs_store s) (slot (T !! vfd) k ++ held) ∧ (is_Some (T !! vfd) → vd_is_special_cwd_desc k = false).
Proof.
  intros Hinv. destruct (T !! vfd) as [e|] eqn:He; [|exists vd_zero; split; [apply (vi_held _ _ _ _ _ Hinv)|by intros []]].
  destruct (table_live _ _ _ _ _ _ _ Hinv He) as (_ & d & x & Hd & Hx & _). exists (vd_id d). destruct (live_file_special _ _ Hx) as (Hsp & _). split; [|done].
  intros y k [Hy|Hy]%elem_of_cons; [simplify_eq; by rewrite Hd|by apply (vi_held _ _ _ _ _ Hinv)].
Qed.

(** The table after descriptor [new] was made a duplicate of [old]. *)
Definition table_dup T (old new : Z) : gmap Z Z := match T !! old with Some e => <[new := e]> T | None => delete new T end.

Lemma holders_dup T s held old new k : old ≠ new → holders (table_dup T old new) s held ≡ₚ holders (delete new T) s (slot (T !! old) k ++ held).
Proof.
  intros Hne. unfold table_dup, slot. destruct (T !! old) as [e|]; [|done]. rewrite <-insert_delete_eq. unfold holders.
  rewrite map_to_list_insert by apply lookup_delete_eq. cbn. rewrite Permutation_middle. f_equiv. by rewrite Permutation_middle.
Qed.

Lemma table_dup_lookup T old new vfd e : old ≠ new → table_dup T old new !! vfd = Some e → delete new T !! vfd = Some e ∨ vfd = new ∧ delete new T !! old = Some e.
Proof.
  intros Hne. unfold table_dup. destruct (T !! old) as [x|] eqn:Hx; [|by left]. rewrite lookup_insert_Some. intros [[<- <-]|[Hn Hv]].
  - right. split; [done|]. by rewrite lookup_delete_ne.
  - left. by rewrite lookup_delete_ne.
Qed.

Lemma table_dup_dom T old new : dom (table_dup T old new) ⊆ {[new]} ∪ dom T.
Proof. unfold table_dup. destruct (T !! old); [by rewrite dom_insert|]. rewrite dom_delete. set_solver. Qed.

(** The invariant over the two changes of [vfd_dup2_under_mutex]. *)
Lemma wp_dup2_mutex old new held opened (Q : Z → vfd_state → Prop) X s :
  vfd_inv (vs_table s) (dom (vs_table s)) held opened s → vs_locks s = [LTable] → 0 ≤ new →
  is_in_vfd_table_range old = true → new ∈ w_open (vs_world s) → not_cwd_fd new s →
  (∀ r s', vfd_inv (vs_table s') (dom (vs_table s')) held opened s' → vs_locks s' = [LTable] → vs_cwd s' = vs_cwd s →
     (r = new ∧ vs_table s' = table_dup (vs_table s) old new ∨ r = - ENOMEM ∧ is_in_vfd_table_range new = false ∧ vs_table s' = vs_table s) →
     Q r s') →
  wp (vfd_dup2_under_mutex old new) Q X s.
Proof.
  intros Hinv Hl Hnew Hold Hopen Hno HQ. unfold vfd_dup2_under_mutex. replace (new <? 0) with false by lia.
  destruct (Z.eqb_spec old new) as [->|Hne].
  { apply wp_ret, HQ; [done..|]. left. split; [done|]. unfold table_dup. destruct (vs_table s !! new) eqn:Hn; [by rewrite insert_id|by rewrite delete_id]. }
  destruct (is_in_vfd_table_range new) eqn:Hrange; cbn [negb]; cycle 1.
  { apply wp_bind, wp_call, wp_ret, HQ; [|done|done|by right]. eapply inv_frame; [exact Hinv|done..| |done]. cbn. intros fd Hfd Hor. rewrite close_ok.
    apply elem_of_difference. split; [done|]. intros ->%elem_of_singleton. destruct Hor as [HD|(e & d & He & Hd)]; [|by eapply Hno].
    apply (vi_range _ _ _ _ _ Hinv) in HD. unfold is_in_vfd_table_range in Hrange. lia. }
  apply wp_bind. apply wp_table_at; [done|]. apply wp_bind. apply wp_table_at; [done|].
  destruct (decide (vs_table s !! old = vs_table s !! new)) as [Heq|Hdiff].
  { apply wp_ret, HQ; [done..|]. left. split; [done|]. unfold table_dup. destruct (vs_table s !! old) eqn:Hn; [by rewrite insert_id|by rewrite delete_id]. }
  apply wp_bind. eapply wp_ref_opt; [by apply inv_keep|intros e He; by eapply holders_table|]. intros ko s1 Hinv1 Hf1 Hw1.
  destruct (slot_file _ _ _ _ s1 new Hinv1) as (kn & Hkn & _).
  apply wp_bind. eapply (wp_unref_opt (delete new (vs_table s)) ({[new]} ∪ dom (vs_table s)) (slot (vs_table s !! old) ko ++ held) opened _ kn); [|apply unlocked_table; by rewrite (fr_locks _ _ Hf1)|].
  { eapply inv_move; [exact Hinv1|apply holders_delete|done|done|]. intros vfd e [_ Hv]%lookup_delete_Some. by apply (vi_table _ _ _ _ _ Hinv1). }
  intros s2 Hinv2 Hf2. pose proof (vframe_trans _ _ _ Hf1 Hf2) as [Ht Hc Hl2 _]. apply wp_bind. apply wp_table_at; [done|]. rewrite Ht.
  apply wp_bind. unfold table_store. unfold is_in_vfd_table_range in Hrange. rewrite Hrange. apply wp_modify, wp_ret.
  replace (match vs_table s !! old with Some e => <[new:=e]> (vs_table s2) | None => delete new (vs_table s2) end) with (table_dup (vs_table s) old new) by (by rewrite Ht).
  apply HQ; [|cbn; congruence|cbn; congruence|by left]. cbn [vs_table set_vs_table].
  assert (Hfin : vfd_inv (table_dup (vs_table s) old new) (dom (table_dup (vs_table s) old new)) held opened s2).
  { eapply inv_move; [exact Hinv2|by apply holders_dup|apply (held_app _ _ _ (vi_held _ _ _ _ _ Hinv2))|apply table_dup_dom|]. intros vfd e Hv. split; [by eapply elem_of_dom_2|].
    apply table_dup_lookup in Hv as [Hv|[-> Hv]]; [| |done]; by apply (vi_table _ _ _ _ _ Hinv2) in Hv as [_ ?]. }
  by eapply inv_frame.
Qed.

Lemma inv_world T D held opened s w : vfd_inv T D held opened s → w_open (vs_world s) ⊆ w_open w → vfd_inv T D held opened (set_vs_world w s).
Proof. intros Hinv Hw. eapply inv_frame; [done..| |done]. intros fd Hfd _. by apply Hw. Qed.
Lemma ok_world held opened s w : vfd_ok held opened s → w_open (vs_world s) ⊆ w_open w → vfd_ok held opened (set_vs_world w s).
Proof. intros [Hinv Hc Hl] Hw. split; [by apply inv_world|done|done]. Qed.
Lemma ok_open held opened s vfd : vfd_ok held opened s → vfd ∉ w_open (vs_world s) → vs_table s !! vfd = None.
Proof.
  intros [Hinv _ _] Hv. destruct (vs_table s !! vfd) as [e|] eqn:He; [|done]. destruct (vi_table _ _ _ _ _ Hinv _ _ He) as [HD _].
  destruct Hv. by apply (vi_open _ _ _ _ _ Hinv).
Qed.
Lemma ok_new_fd held opened s fd : vfd_ok held opened s → fd ∉ w_open (vs_world s) → not_cwd_fd fd s.
Proof. intros [Hinv _ _] Hv e d He Hd. destruct (vi_fds _ _ _ _ _ Hinv _ _ _ He Hd). done. Qed.

(** A duplicate on a new descriptor [r], or an error. *)
Definition dup_post vfd held opened s (r : Z) s' : Prop :=
  vfd_ok held opened s' ∧ vs_cwd s' = vs_cwd s ∧
  (r < 0 ∧ vs_table s' = vs_table s ∨
   0 ≤ r ∧ r ∉ w_open (vs_world s) ∧ vs_table s' = table_dup (vs_table s) vfd r).

Lemma wp_dup_with vfd g held opened X s :
  vfd_ok held opened s → (∀ w, new_fd (w_open w) (g w).1 (w_open (g w).2)) →
  wp (b ← can_be_in_vfd_table vfd;
      if negb b then call g
      else locked LTable (new_vfd ← call g; vfd_dup2_under_mutex vfd new_vfd)) (dup_post vfd held opened s) X s.
Proof.
  intros Hok Hg. apply wp_bind. eapply wp_can_be; [done|]. specialize (Hg (vs_world s)). destruct (g (vs_world s)) as [r w] eqn:Hgw; cbn [fst snd] in Hg.
  assert (Hsub : w_open (vs_world s) ⊆ w_open w) by (destruct Hg as [[_ ->]|(_ & _ & ->)]; set_solver).
  destruct (vs_table s !! vfd) as [e|] eqn:He; cycle 1.
  { rewrite bool_decide_eq_false_2 by (by intros []). apply wp_call. rewrite Hgw. cbn [fst snd]. split_and!; [by apply ok_world|done|].
    destruct Hg as [[Hr _]|(Hr & Hn & _)]; [by left|right]. split_and!; [done|done|]. unfold table_dup. rewrite He. rewrite delete_id; [done|]. by eapply ok_open. }
  rewrite bool_decide_eq_true_2 by (by eexists). cbn [negb]. pose proof Hok as [Hinv Hc Hl]. apply wp_section; [done|].
  apply wp_bind, wp_call. cbn [vs_world set_vs_locks]. rewrite Hgw. cbn [fst snd]. set (s1 := set_vs_world w _).
  assert (Hinv1 : vfd_inv (vs_table s1) (dom (vs_table s1)) held opened s1) by (by apply inv_world, Hsub; apply inv_locks).
  destruct Hg as [[Hr _]|(Hr & Hn & Hw)].
  { unfold vfd_dup2_under_mutex. rewrite (proj2 (Z.ltb_lt _ _)) by done. apply wp_ret. split; [done|].
    split_and!; [|done|by left]. split; [by apply (inv_locks _ _ _ _ s1)|done|done]. }
  eapply wp_dup2_mutex; [exact Hinv1|done|done|by eapply ok_range|cbn; rewrite Hw; set_solver|by eapply (ok_new_fd held opened s)|].
  intros r' s2 Hinv2 Hl2 Hc2 Ht2. split; [done|]. split_and!; [|done|].
  - split; [by apply (inv_locks _ _ _ _ s2)|cbn; by rewrite Hc2|done].
  - destruct Ht2 as [[-> Ht2]|(-> & _ & Ht2)]; [right; by split_and!|]. left. split; [done|exact Ht2].
Qed.

(** ** Closing *)

(** Descriptors of the application: inside the table, and none the table holds for
    itself. *)
Definition app_fd vfd s : Prop := is_in_vfd_table_range vfd = true ∧ not_cwd_fd vfd s.

Lemma wp_close_take vfd held opened (Q : option Z * Z → vfd_state → Prop) X s :
  vfd_ok held opened s → app_fd vfd s →
  (∀ result k s', vfd_ok (slot (vs_table s !! vfd) k ++ held) opened s' → (is_Some (vs_table s !! vfd) → vd_is_special_cwd_desc k = false) → vs_table s' = delete vfd (vs_table s) → vs_cwd s' = vs_cwd s →
     Q (vs_table s !! vfd, result) s') →
  wp (vfd_close_take vfd) Q X s.
Proof.
  intros [Hinv Hc Hl] [Hr Hno] HQ. apply wp_section; [done|]. apply wp_bind. apply wp_table_at; [done|]. apply wp_bind.
  unfold table_store. unfold is_in_vfd_table_range in Hr. rewrite Hr. apply wp_modify. apply wp_bind, wp_call, wp_ret. cbn [vs_table set_vs_locks].
  split; [done|]. destruct (slot_file _ _ _ _ _ vfd Hinv) as (k & Hk & Hsp). apply (HQ _ k); [|done..]. split; [|done|done]. cbn [vs_table set_vs_locks set_vs_world set_vs_table].
  assert (Hmove : vfd_inv (delete vfd (vs_table s)) (dom (delete vfd (vs_table s))) (slot (vs_table s !! vfd) k ++ held) opened s).
  { eapply inv_move; [exact Hinv|apply holders_delete|done|rewrite dom_delete; set_solver|]. intros x e Hx. split; [by eapply elem_of_dom_2|].
    apply lookup_delete_Some in Hx as [_ Hx]. by apply (vi_table _ _ _ _ _ Hinv) in Hx as [_ ?]. }
  eapply inv_frame; [exact Hmove|done..| |done]. cbn. intros fd Hfd Hor. rewrite close_ok. apply elem_of_difference. split; [done|].
  intros ->%elem_of_singleton. destruct Hor as [HD|(e & d & He & Hd)]; [|by eapply Hno]. rewrite dom_delete in HD. set_solver.
Qed.

Lemma wp_close_drop entry k result held opened (Q : Z → vfd_state → Prop) X s :
  vfd_ok (slot entry k ++ held) opened s → (is_Some entry → vd_is_special_cwd_desc k = false) →
  (∀ s', vfd_ok held opened s' → vs_table s' = vs_table s → vs_cwd s' = vs_cwd s → Q (if entry then 0 else result) s') →
  wp (vfd_close_drop entry result) Q X s.
Proof.
  intros [Hinv Hc Hl] Hsp HQ. unfold vfd_close_drop. destruct entry as [e|]; [|apply wp_ret, HQ; [by split|done|done]].
  pose proof (vi_held _ _ _ _ _ Hinv e k ltac:(by left)) as Hk. destruct (vs_store s !! e) as [d|] eqn:He; [|done].
  injection Hk as <-. specialize (Hsp ltac:(by eexists)).
  apply wp_bind. eapply wp_entry_get; [done|]. apply wp_bind, wp_assert; [by apply negb_true_iff|].
  apply wp_bind. eapply wp_unref_entry; [exact Hinv|by apply unlocked_nil|]. intros s' Hinv' [Ht Hc' Hl' _]. apply wp_ret, HQ; [|done|done].
  split; [by rewrite Ht|by rewrite Hc'|by rewrite Hl'].
Qed.

(** ** New entries and the current directory *)

(** A user's reference becomes the current directory, and the old one his. *)
Lemma inv_set_cwd T D held opened s e k c :
  vfd_inv T D ((e, k) :: held) opened s → vs_cwd s = Some c →
  ∃ kc, vfd_inv T D ((c, kc) :: held) opened (set_vs_cwd (Some e) s).
Proof.
  intros Hinv Hc. destruct (vi_dom _ _ _ _ _ Hinv c) as [dc Hdc]; [by apply holders_cwd|]. exists (vd_id dc).
  assert (Hh : holders T (set_vs_cwd (Some e) s) ((c, vd_id dc) :: held) ≡ₚ holders T s ((e, k) :: held)).
  { unfold holders. rewrite Hc. cbn. rewrite !(Permutation_middle _ _ _). rewrite <-!Permutation_middle. apply perm_swap. }
  destruct Hinv as [Hct Hhd Hd Hf Hn Hs Hk Hfi Hp Ht Hr Ho Hfd Hi]. split; try done.
  - intros x d Hx. cbn in Hx. rewrite (Hct _ _ Hx). symmetry. by apply occ_perm.
  - intros x k' [Hx|Hx]%elem_of_cons; [simplify_eq; cbn; by rewrite Hdc|]. apply Hhd. by right.
  - intros x Hx. apply Hd. by rewrite <-Hh.
  - intros x. cbn. by rewrite Hf, Hh.
Qed.

Lemma wp_install_cwd d T D held opened opened' c (Q : option (option Z) → vfd_state → Prop) X s :
  vfd_inv T D held opened s → unlocked s → vs_cwd s = Some c → vd_ref_count d = 1 → started s s D d opened opened' →
  (vs_free s = [] → Q None s) →
  (∀ e kc s', vfd_inv T D ((c, kc) :: held) opened' s' → vs_cwd s' = Some e → vs_table s' = vs_table s → vs_locks s' = vs_locks s → vs_world s' = vs_world s →
     vs_pools s' = vs_pools s → Q (Some (Some c)) s') →
  wp (install_cwd d) Q X s.
Proof.
  intros Hinv [Hun _] Hc Hone Hstart Hnone Hsome. unfold install_cwd. apply wp_bind. apply wp_fetch_slot; [done|by intros ?; apply wp_ret, Hnone|].
  intros e fr Hfr. apply wp_bind, wp_modify, wp_bind, wp_gets, wp_bind, wp_modify, wp_ret. set (s1 := set_vs_store _ (set_vs_free fr s)).
  assert (Hinv1 : vfd_inv T D ((e, vd_id d) :: held) opened' s1) by (by eapply (inv_new T D held opened opened' s s1 e fr d)).
  destruct (inv_set_cwd _ _ _ _ _ _ _ c Hinv1) as [kc Hinv2]; [done|]. change (vs_cwd s1) with (vs_cwd s). rewrite Hc. by eapply Hsome.
Qed.

Lemma wp_assign vfd pool file held opened (Q : Z → vfd_state → Prop) X s :
  vfd_ok held opened s → app_fd vfd s → vfd ∈ w_open (vs_world s) → vs_table s !! vfd = None → is_Some (vs_pools s !! pool) →
  Q (- ENOMEM) s →
  (∀ e s', vfd_ok held ((pool, file) :: opened) s' → vs_table s' = <[vfd := e]> (vs_table s) → live_files (vs_store s') !! e = Some (pool, file) → vs_cwd s' = vs_cwd s → Q vfd s') →
  wp (pmemfile_vfd_assign vfd pool file) Q X s.
Proof.
  intros [Hinv Hc Hl] [Hr Hno] Hopen Hnone Hpool Hfull HQ. unfold pmemfile_vfd_assign. apply wp_bind.
  apply wp_fetch_slot; [by apply (unlocked_nil s Hl)|by intros _; apply wp_ret|]. intros e fr Hfr.
  apply wp_bind, wp_modify, wp_bind. set (d := VDesc (Some pool) (Some file) (-1) false 1). set (s1 := set_vs_store _ (set_vs_free fr s)).
  assert (Hinv1 : vfd_inv (vs_table s) ({[vfd]} ∪ dom (vs_table s)) ((e, vd_id d) :: held) ((pool, file) :: opened) s1).
  { eapply (inv_new _ _ held opened _ s s1 e fr d); try done; [by apply inv_keep|]. left. by exists (pool, file). }
  assert (Hlive : live_files (vs_store s1) !! e = Some (pool, file)) by (cbn; rewrite live_files_insert; apply lookup_insert_eq).
  apply wp_section; [done|]. unfold table_store. unfold is_in_vfd_table_range in Hr. rewrite Hr. apply wp_modify. split; [done|].
  apply wp_ret. apply (HQ e); [|done|done|done]. split; [|done|done]. cbn [vs_table set_vs_locks set_vs_table set_vs_store set_vs_free].
  assert (Hfin : vfd_inv (<[vfd := e]> (vs_table s)) (dom (<[vfd := e]> (vs_table s))) held ((pool, file) :: opened) s1); [|by eapply inv_frame].
  eapply inv_move; [exact Hinv1| |by apply (held_app _ [(e, vd_id d)]), (vi_held _ _ _ _ _ Hinv1)|by rewrite dom_insert|].
  - unfold holders. rewrite map_to_list_insert by done. cbn. rewrite <-!Permutation_middle. done.
  - intros x y Hx. split; [by eapply elem_of_dom_2|]. apply lookup_insert_Some in Hx as [[<- <-]|[_ Hx]]; [by eexists|]. by apply (vi_table _ _ _ _ _ Hinv1) in Hx as [_ ?].
Qed.

(** The calls of [dup2] that the table handles: the kernel can make the duplicate,
    and the old descriptor is a number of the table. *)
Definition dup2_pre old new s : Prop :=
  is_in_vfd_table_range old = true ∧ (sys_dup2 old new (vs_world s)).1 = new ∧ not_cwd_fd new s.

Definition dup2_post old new held opened s (r : Z) s' : Prop :=
  vfd_ok held opened s' ∧ vs_cwd s' = vs_cwd s ∧
  (vs_table s' = vs_table s ∧ (vs_table s !! old = None ∧ vs_table s !! new = None ∨ is_in_vfd_table_range new = false) ∨
   r = new ∧ vs_table s' = table_dup (vs_table s) old new).

Lemma dup2_grows old new w : w_open w ⊆ w_open (sys_dup2 old new w).2.
Proof. destruct (dup2_ok old new w) as [[_ ->]|(_ & _ & ->)]; set_solver. Qed.

Lemma wp_dup2_locked old new held opened X s :
  vfd_ok held opened s → dup2_pre old new s → is_Some (vs_table s !! old) ∨ is_Some (vs_table s !! new) →
  wp (locked LTable (result ← call (sys_dup2 old new); assert_ (result =? new);; vfd_dup2_under_mutex old new;; mret result))
    (dup2_post old new held opened s) X s.
Proof.
  intros Hok (Hold & Hres & Hno) Hsome. pose proof Hok as [Hinv Hc Hl]. apply wp_section; [done|].
  apply wp_bind, wp_call. cbn [vs_world set_vs_locks]. rewrite Hres. set (s1 := set_vs_world _ _). apply wp_bind, wp_assert; [by rewrite Z.eqb_refl|].
  destruct (dup2_ok old new (vs_world s)) as [[Hneg Hw]|(_ & Hpos & Hw)].
  - unfold vfd_dup2_under_mutex. rewrite Hres in Hneg. rewrite (proj2 (Z.ltb_lt _ _)) by done. apply wp_bind, wp_ret, wp_ret. split; [done|].
    split_and!; [|done|left; split; [done|]].
    + split; [|done|done]. apply (inv_locks _ _ _ _ s1), inv_world; [by apply inv_locks|apply dup2_grows].
    + right. unfold is_in_vfd_table_range. rewrite (proj2 (Z.leb_gt _ _)) by done. done.
  - apply wp_bind. eapply wp_dup2_mutex; [|done|done|done|cbn; rewrite Hw; set_solver|done|].
    + apply inv_world; [by apply inv_locks|apply dup2_grows].
    + intros r s2 Hinv2 Hl2 Hc2 Ht2. apply wp_ret. split; [done|]. split_and!; [split; [by apply (inv_locks _ _ _ _ s2)|cbn; by rewrite Hc2|done]|done|].
      destruct Ht2 as [[_ Ht2]|(_ & Hr & Ht2)]; [by right|left]. split; [exact Ht2|by right].
Qed.

Lemma wp_vfd_dup2 old new held opened X s :
  vfd_ok held opened s → (is_Some (vs_table s !! old) ∨ is_Some (vs_table s !! new) → dup2_pre old new s) →
  wp (pmemfile_vfd_dup2 old new) (dup2_post old new held opened s) X s.
Proof.
  intros Hok Hpre. unfold pmemfile_vfd_dup2. apply wp_bind. eapply wp_can_be; [done|]. apply wp_bind.
  pose proof (λ H, wp_dup2_locked old new held opened X s Hok (Hpre H) H) as Hlocked. destruct (vs_table s !! old) as [e|] eqn:He.
  - rewrite bool_decide_eq_true_2 by (by eexists). apply wp_ret. apply Hlocked. left. by eexists.
  - rewrite bool_decide_eq_false_2 by (by intros []). eapply wp_can_be; [done|]. destruct (vs_table s !! new) as [e|] eqn:Hn.
    + rewrite bool_decide_eq_true_2 by (by eexists). apply Hlocked. right. by eexists.
    + rewrite bool_decide_eq_false_2 by (by intros []). apply wp_call. split_and!; [by apply ok_world, dup2_grows|done|]. left. split; [done|by left].
Qed.

(** ** Changing the directory *)

(** Dropping the old current directory behind the section. *)
Lemma wp_drop_old old k held opened (Q : unit → vfd_state → Prop) X s :
  vfd_inv (vs_table s) (dom (vs_table s)) (slot old k ++ held) opened s → is_Some (vs_cwd s) → vs_locks s = [] →
  (∀ s', vfd_ok held opened s' → frame s s' → Q tt s') → wp (unref_entry old) Q X s.
Proof.
  intros Hinv Hc Hl HQ. eapply wp_unref_opt; [done|by apply unlocked_nil|]. intros s' Hinv' Hf. apply HQ; [|done].
  destruct Hf as [Ht Hc' Hl' _]. split; [by rewrite Ht|by rewrite Hc'|by rewrite Hl'].
Qed.

Lemma quiet_ok held opened s s' : vfd_ok held opened s → quiet s s' → vfd_ok held opened s'.
Proof.
  intros [Hinv Hc Hl] Hq. pose proof (qu_frame _ _ Hq) as [Ht Hc' Hl' _].
  split; [rewrite Ht; by eapply inv_quiet|by rewrite Hc'|by rewrite Hl'].
Qed.

Lemma wp_chdir_kernel_fd fd held opened (Q : Z → vfd_state → Prop) X s :
  vfd_ok held opened s → fd ∈ w_open (vs_world s) → not_cwd_fd fd s → vs_table s !! fd = None →
  (∀ r s', vfd_ok held opened s' → vs_table s' = vs_table s → (r ≠ 0 → vs_cwd s' = vs_cwd s) → Q r s') →
  wp (pmemfile_vfd_chdir_kernel_fd fd) Q X s.
Proof.
  intros [Hinv [c Hc] Hl] Hopen Hno Hnone HQ. unfold pmemfile_vfd_chdir_kernel_fd. apply wp_bind, wp_section; [done|].
  apply wp_bind, wp_call. cbn [vs_world set_vs_locks]. set (r := (sys_fchdir fd (vs_world s)).1). set (s1 := set_vs_world _ _).
  assert (Hinv1 : vfd_inv (vs_table s) (dom (vs_table s)) held opened s1) by (by apply inv_world; [apply inv_locks|cbn; rewrite fchdir_ok]).
  assert (Hfail : ∀ r', r' ≠ 0 → wp (mret (r', None)) (λ a s', vs_locks s' = [LTable] ∧ wp (let '(result, old) := a in unref_entry old;; mret result) Q X (set_vs_locks [] s')) X s1).
  { intros r' Hr'. apply wp_ret. split; [done|]. apply wp_bind, wp_ret, wp_ret, HQ; [|done|done]. split; [by apply inv_locks|by exists c|done]. }
  destruct (Z.eqb_spec r 0) as [Hr|Hr]; [|by apply Hfail].
  apply wp_bind. eapply (wp_install_cwd _ _ _ held opened opened c); [exact Hinv1|by apply unlocked_table|done|done| | |].
  - right. exists fd. cbn. rewrite fchdir_ok, not_elem_of_dom. done.
  - intros _. by apply Hfail.
  - intros e kc s2 Hinv2 Hc2 Ht2 Hl2 _ _. apply wp_ret. split; [done|]. apply wp_bind.
    eapply (wp_drop_old (Some c) kc held opened); [cbn [vs_table set_vs_locks]; rewrite Ht2; by apply (inv_locks _ _ _ _ s2)|by exists e|done|].
    intros s3 Hok3 [Ht3 _ _ _]. apply wp_ret, HQ; [done|by rewrite Ht3|done].
Qed.

Lemma no_pool_lock s p : vs_locks s = [] → LPool p ∉ vs_locks s.
Proof. intros ->. apply not_elem_of_nil. Qed.

(** On success the table owns the file. *)
Lemma wp_chdir_pf pool file held opened (Q : Z → vfd_state → Prop) X s :
  vfd_ok held opened s → is_Some (vs_pools s !! pool) →
  (∀ r s', vfd_ok held (if r =? 0 then (pool, file) :: opened else opened) s' → vs_table s' = vs_table s → (r ≠ 0 → vs_cwd s' = vs_cwd s) →
     (∀ p, is_Some (vs_pools s !! p) → is_Some (vs_pools s' !! p)) → Q r s') →
  wp (pmemfile_vfd_chdir_pf pool file) Q X s.
Proof.
  intros Hok Hpool HQ. unfold pmemfile_vfd_chdir_pf. apply wp_bind. apply wp_pool_acquire; [done|by apply no_pool_lock, Hok|]. intros s1 Hq1.
  pose proof (quiet_ok _ _ _ _ Hok Hq1) as [Hinv [c Hc] Hl]. pose proof (qu_frame _ _ Hq1) as Hf1.
  apply wp_bind, wp_section; [done|]. apply wp_bind, wp_call. cbn [vs_world set_vs_locks]. set (r := (pm_fchdir pool file (vs_world s1)).1). set (s2 := set_vs_world _ _).
  assert (Hinv2 : vfd_inv (vs_table s1) (dom (vs_table s1)) held opened s2) by (by apply inv_world; [apply inv_locks|cbn; rewrite pm_fchdir_ok]).
  (* behind the section: the old directory is dropped and the pool released *)
  assert (Hend : ∀ r' old k opened' s3, vfd_inv (vs_table s1) (dom (vs_table s1)) (slot old k ++ held) opened' s3 → vs_table s3 = vs_table s1 → is_Some (vs_cwd s3) →
    (r' ≠ 0 → vs_cwd s3 = vs_cwd s1) → (∀ p, is_Some (vs_pools s1 !! p) → is_Some (vs_pools s3 !! p)) → opened' = (if r' =? 0 then (pool, file) :: opened else opened) →
    wp (unref_entry old;; pool_release (Some pool);; mret r') Q X (set_vs_locks [] s3)).
  { intros r' old k opened' s3 Hinv3 Ht3 Hc3 Hcr Hp3 ->. apply wp_bind.
    eapply (wp_drop_old old k held); [cbn [vs_table set_vs_locks]; rewrite Ht3; by apply inv_locks|done|done|]. intros s4 Hok4 Hf4.
    apply wp_bind. apply wp_pool_release; [by apply (fr_pools _ _ Hf4), Hp3, (fr_pools _ _ Hf1)|by apply no_pool_lock, Hok4|]. intros s5 Hq5.
    apply wp_ret, HQ; [by eapply quiet_ok| | |].
    - rewrite (fr_table _ _ (qu_frame _ _ Hq5)), (fr_table _ _ Hf4). cbn. rewrite Ht3. apply (fr_table _ _ Hf1).
    - intros Hr'. rewrite (fr_cwd _ _ (qu_frame _ _ Hq5)), (fr_cwd _ _ Hf4). cbn. rewrite (Hcr Hr'). apply (fr_cwd _ _ Hf1).
    - intros p Hp. by apply (fr_pools _ _ (qu_frame _ _ Hq5)), (fr_pools _ _ Hf4), Hp3, (fr_pools _ _ Hf1). }
  destruct (Z.eqb_spec r 0) as [Hr|Hr]; cbn [negb]; cycle 1.
  { apply wp_ret. split; [done|]. apply (Hend _ None vd_zero opened); [done..|by exists c|done|done|]. by rewrite (proj2 (Z.eqb_neq _ _)) by lia. }
  apply wp_bind. eapply (wp_install_cwd _ _ _ held opened ((pool, file) :: opened) c); [exact Hinv2|by apply unlocked_table|done|done| | |].
  - left. exists (pool, file). cbn. split_and!; [done..|]. by apply (fr_pools _ _ Hf1).
  - intros _. apply wp_ret. split; [done|]. by apply (Hend _ None vd_zero opened); [..|exists c|done|done|].
  - intros e kc s3 Hinv3 Hc3 Ht3 Hl3 _ Hp3. apply wp_ret. split; [done|]. apply (Hend _ (Some c) kc ((pool, file) :: opened)); [done|done|by exists e|done| |done].
    intros p Hp. by rewrite Hp3.
Qed.

(** ** The log of opened files *)

(** Only [pmemfile_openat] adds to it. *)
Definition opens_none {A} (m : M vfd_state A) : Prop :=
  ∀ s, match m s with Ok _ s' => vs_opened s' = vs_opened s | _ => True end.

Lemma opens_none_ret {A} (a : A) : opens_none (mret a).
Proof. done. Qed.
Lemma opens_none_bind {A B} (m : M vfd_state A) (f : A → M vfd_state B) : opens_none m → (∀ a, opens_none (f a)) → opens_none (m ≫= f).
Proof.
  intros Hm Hf s. unfold mbind, M_bind. specialize (Hm s). destruct (m s) as [a s1|e s1|x]; [|done|done].
  specialize (Hf a s1). destruct (f a s1); [congruence|done|done].
Qed.
Lemma opens_none_gets {A} (f : vfd_state → A) : opens_none (gets f).
Proof. done. Qed.
Lemma opens_none_modify f : (∀ s, vs_opened (f s) = vs_opened s) → opens_none (modify f).
Proof. intros Hf s. apply Hf. Qed.
Lemma opens_none_assert b : opens_none (assert_ b).
Proof. intros s. by destruct b. Qed.
Lemma opens_none_of_option {A} x (o : option A) : opens_none (of_option x o).
Proof. intros s. by destruct o. Qed.
Lemma opens_none_fault {A} x : opens_none (A := A) (fault_ x).
Proof. done. Qed.
Lemma opens_none_call {A} (f : world → A * world) : opens_none (call f).
Proof. intros s. unfold call. by destruct (f (vs_world s)). Qed.
Lemma opens_none_locked {A} l (m : M vfd_state A) : opens_none m → opens_none (locked l m).
Proof.
  intros Hm. unfold locked. apply opens_none_bind; [apply opens_none_gets|intros ls]. apply opens_none_bind; [apply opens_none_assert|intros _].
  apply opens_none_bind; [by apply opens_none_modify|intros _]. apply opens_none_bind; [done|intros a]. apply opens_none_bind; [by apply opens_none_modify|intros _]. apply opens_none_ret.
Qed.

End vfd_ops.

Ltac head_of t := lazymatch t with ?f _ => head_of f | _ => t end.
Ltac opens_none_step :=
  lazymatch goal with
  | |- opens_none (mret _) => apply opens_none_ret
  | |- opens_none (_ ≫= _) => apply opens_none_bind; [|intros ?]
  | |- opens_none (gets _) => apply opens_none_gets
  | |- opens_none (modify _) => by apply opens_none_modify
  | |- opens_none (assert_ _) => apply opens_none_assert
  | |- opens_none (of_option _ _) => apply opens_none_of_option
  | |- opens_none (fault_ _) => apply opens_none_fault
  | |- opens_none (call _) => apply opens_none_call
  | |- opens_none (locked _ _) => apply opens_none_locked
  | |- opens_none (if ?b then _ else _) => destruct b
  | |- opens_none (match ?x with _ => _ end) => destruct x
  | |- opens_none ?m => let h := head_of m in unfold h
  end.
Ltac opens_none := repeat opens_none_step.

Section vfd_open.
Context `{E : VfdEnv} {EO : VfdEnvOk}.
Implicit Types (s : vfd_state) (T : gmap Z Z) (D : gset Z) (held : list (Z * vfile_description)) (opened : list (positive * positive)).

Lemma wp_opens_none {A} (m : M vfd_state A) (Q : A → vfd_state → Prop) X s : opens_none m → wp m (λ a s', vs_opened s' = vs_opened s → Q a s') X s → wp m Q X s.
Proof. unfold wp. intros Hk Hm. specialize (Hk s). destruct (m s); auto. Qed.

Lemma opens_none_unref e : opens_none (unref_entry e).
Proof. opens_none. Qed.
Lemma opens_none_assign vfd p f : opens_none (pmemfile_vfd_assign vfd p f).
Proof. opens_none. Qed.
Lemma opens_none_chdir_pf p f : opens_none (pmemfile_vfd_chdir_pf p f).
Proof. opens_none. Qed.
Lemma opens_none_chdir_kernel_fd fd : opens_none (pmemfile_vfd_chdir_kernel_fd fd).
Proof. opens_none. Qed.
Lemma opens_none_acquire_new_fd path : opens_none (pmemfile_acquire_new_fd path).
Proof. opens_none. Qed.
Lemma opens_none_dup2 old new : opens_none (pmemfile_vfd_dup2 old new).
Proof. opens_none. Qed.
Lemma opens_none_pool_acquire p : opens_none (pool_acquire p).
Proof. opens_none. Qed.
Lemma opens_none_pool_release p : opens_none (pool_release p).
Proof. opens_none. Qed.

(** ** Opening *)

(** A descriptor the kernel has open for the application but not in the table. *)
Definition spare fd s : Prop := app_fd fd s ∧ fd ∈ w_open (vs_world s) ∧ vs_table s !! fd = None.

Lemma ok_close_spare held opened s fd :
  vfd_ok held opened s → not_cwd_fd fd s → vs_table s !! fd = None → vfd_ok held opened (set_vs_world (sys_close fd (vs_world s)).2 s).
Proof.
  intros [Hinv Hc Hl] Hno Hnone. split; [|done|done]. eapply inv_frame; [exact Hinv|done..| |done]. cbn. intros x Hx Hor. rewrite close_ok.
  apply elem_of_difference. split; [done|]. intros ->%elem_of_singleton. destruct Hor as [HD|(e & d & He & Hd)]; [|by eapply Hno].
  by apply elem_of_dom in HD as [? ?]; simplify_eq.
Qed.

Lemma quiet_spare fd s s' : spare fd s → quiet s s' → spare fd s'.
Proof.
  intros [[Hr Hno] [Hop Hn]] [[Ht _ _ _] Hst _ _ Ho]. split; [split; [done|]|by rewrite Ho, Ht]. unfold not_cwd_fd. by rewrite Hst.
Qed.

(** One system call for a descriptor. *)
Lemma ok_new held opened s r w :
  vfd_ok held opened s → new_fd (w_open (vs_world s)) r (w_open w) →
  vfd_ok held opened (set_vs_world w s) ∧ (0 ≤ r → not_cwd_fd r s ∧ vs_table s !! r = None ∧ r ∈ w_open w).
Proof.
  intros Hok Hw. split; [apply ok_world; [done|]; destruct Hw as [[_ ->]|(_ & _ & ->)]; set_solver|].
  intros Hr. destruct Hw as [[? _]|(_ & Hn & ->)]; [lia|]. split_and!; [by eapply ok_new_fd|by eapply ok_open|set_solver].
Qed.

Lemma wp_acquire_new_fd path held opened (Q : Z → vfd_state → Prop) X s :
  vfd_ok held opened s →
  (∀ r s', vfd_ok held opened s' → frame s s' → (0 ≤ r → spare r s') → Q r s') → wp (pmemfile_acquire_new_fd path) Q X s.
Proof.
  intros Hok HQ. unfold pmemfile_acquire_new_fd. apply wp_bind, wp_gets, wp_bind.
  assert (Hend : ∀ r s1, vfd_ok held opened s1 → frame s s1 → (0 ≤ r → not_cwd_fd r s1 ∧ vs_table s1 !! r = None ∧ r ∈ w_open (vs_world s1)) →
    wp (if VFD_TABLE_SIZE <=? r then call (sys_close r);; mret (- ENFILE) else mret r) Q X s1).
  { intros r s1 Hok1 Hf1 Hr. destruct (Z.leb_spec VFD_TABLE_SIZE r) as [Hbig|Hsmall].
    - destruct Hr as (Hno & Hn & _); [unfold VFD_TABLE_SIZE in Hbig; lia|]. apply wp_bind, wp_call, wp_ret, HQ; [by apply ok_close_spare|by destruct Hf1|done].
    - apply wp_ret, HQ; [done|done|]. intros Hpos. destruct (Hr Hpos) as (Hno & Hn & Ho). split; [|done]. split; [|done].
      apply andb_true_iff. split; [by apply Z.leb_le|by apply Z.ltb_lt]. }
  assert (Hnull : ∀ s1, vfd_ok held opened s1 → frame s s1 → wp (call sys_open_null)
    (λ r s2, wp (if VFD_TABLE_SIZE <=? r then call (sys_close r);; mret (- ENFILE) else mret r) Q X s2) X s1).
  { intros s1 Hok1 Hf1. apply wp_call. destruct (ok_new _ _ _ _ _ Hok1 (open_null_ok (vs_world s1))) as [Hok2 Hr]. apply Hend; [done|by destruct Hf1|done]. }
  destruct (vs_memfd s); [|apply Hnull; [done|apply vframe_refl]]. apply wp_bind, wp_call.
  destruct (ok_new _ _ _ _ _ Hok (memfd_create_ok path (vs_world s))) as [Hok1 Hr]. destruct (_ <? 0); [apply Hnull; [done|by split]|].
  apply wp_ret, Hend; [done|by split|done].
Qed.

Lemma ok_closed held opened s p f :
  vfd_ok held opened s → is_Some (vs_pools s !! p) → vfd_ok held ((p, f) :: opened) (set_vs_closed ((p, f) :: vs_closed s) s).
Proof.
  intros [Hinv Hc Hl] Hp. split; [|done|done]. destruct Hinv as [Hct Hhd Hd Hf Hn Hs Hk Hfi Hpo Ht Hr Ho Hfd Hi]. split; try done.
  - cbn. by rewrite Hfi.
  - intros q g [Hq|Hq]%elem_of_cons; [by simplify_eq|by eapply Hpo].
Qed.

(** [pmemfile_close] of a file that is not in the table. *)
Lemma wp_close_call pool file held opened (Q : unit → vfd_state → Prop) X s :
  vfd_ok held opened s → is_Some (vs_pools s !! pool) →
  (∀ s', vfd_ok held ((pool, file) :: opened) s' → frame s s' → vs_store s' = vs_store s → w_open (vs_world s') = w_open (vs_world s) → Q tt s') →
  wp (pmemfile_close_call (Some pool) (Some file)) Q X s.
Proof.
  intros Hok Hp HQ. unfold pmemfile_close_call. apply wp_bind. eapply wp_of_option; [done|]. apply wp_bind. eapply wp_of_option; [done|].
  apply wp_bind, wp_call, wp_modify. apply HQ; [|by split|done|apply pm_close_ok].
  apply (ok_closed _ _ (set_vs_world _ s)); [apply ok_world; [done|by rewrite pm_close_ok]|done].
Qed.

Lemma wp_openat_call pool dir path flags mode (Q : option positive * Z → vfd_state → Prop) X s :
  (∀ file errno s', quiet s s' → vs_opened s' = (match file with Some f => (pool, f) :: vs_opened s | None => vs_opened s end) →
     (file = None → 0 < errno) → Q (file, errno) s') →
  wp (pmemfile_openat_call pool dir path flags mode) Q X s.
Proof.
  intros HQ. unfold pmemfile_openat_call. apply wp_bind, wp_call. pose proof (pm_openat_ok pool dir path flags mode (vs_world s)) as Ho.
  pose proof (pm_openat_errno pool dir path flags mode (vs_world s)) as He. destruct (pm_openat _ _ _ _ _ _) as [[[f|] errno] w]; cbn [fst snd] in *.
  - apply wp_bind, wp_modify, wp_ret, HQ; [|done|done]. by split.
  - apply wp_ret, HQ; [by apply quiet_world|done|auto].
Qed.

(** A file that [pmemfile_openat] returned is given back to [pmemfile_close]. *)
Lemma wp_close_unused pool file held (Q : unit → vfd_state → Prop) X s :
  vfd_ok held (tail (vs_opened s)) s → vs_opened s = (pool, file) :: tail (vs_opened s) → is_Some (vs_pools s !! pool) →
  (∀ s', vfd_ok held (vs_opened s') s' → frame s s' → vs_store s' = vs_store s → Q tt s') →
  wp (pmemfile_close_call (Some pool) (Some file)) Q X s.
Proof.
  intros Hok Hop Hp HQ. apply wp_opens_none; [opens_none|]. eapply wp_close_call; [done|done|]. intros s' Hok' Hf Hst _ Hke. apply HQ; [|done|done].
  by rewrite Hke, Hop.
Qed.

(** What a call of [openat] does to the table: nothing, or a new descriptor for a
    file that was just opened. *)
Definition openat_post (pool : positive) held s (r : Z) s' : Prop :=
  vfd_ok held (vs_opened s') s' ∧ vs_cwd s' = vs_cwd s ∧
  (r < 0 ∧ vs_table s' = vs_table s ∨
   ∃ e file, vs_opened s' = (pool, file) :: vs_opened s ∧ vs_table s !! r = None ∧ vs_table s' = <[r := e]> (vs_table s) ∧
     live_files (vs_store s') !! e = Some (pool, file)).

Lemma wp_openat_assign pool file fd held (Q : Z → vfd_state → Prop) X s opened :
  vfd_ok held opened s → vs_opened s = (pool, file) :: opened → is_Some (vs_pools s !! pool) → spare fd s →
  (∀ r s', vfd_ok held (vs_opened s') s' → vs_cwd s' = vs_cwd s →
     (r < 0 ∧ vs_table s' = vs_table s ∨ r = fd ∧ vs_opened s' = vs_opened s ∧
        ∃ e, vs_table s' = <[r := e]> (vs_table s) ∧ live_files (vs_store s') !! e = Some (pool, file)) → Q r s') →
  wp (r ← pmemfile_vfd_assign fd pool file;
      (if r <? 0 then
         pool_acquire (Some pool);; pmemfile_close_call (Some pool) (Some file);; pool_release (Some pool);; call (sys_close fd);; mret tt
       else mret tt);;
      mret r) Q X s.
Proof.
  intros Hok Hop Hp ([Hr Hno] & Ho & Hn) HQ. apply wp_bind. apply wp_opens_none; [apply opens_none_assign|].
  eapply (wp_assign fd pool file held opened); [done|by split|done|done|done| |].
  - intros _. change (- ENOMEM <? 0) with true. cbv iota. apply wp_bind, wp_bind. apply wp_opens_none; [apply opens_none_pool_acquire|].
    apply wp_pool_acquire; [done|by apply no_pool_lock, Hok|]. intros s1 Hq1 Ho1. pose proof (qu_frame _ _ Hq1) as Hf1.
    apply wp_bind. eapply (wp_close_unused pool file held); [rewrite Ho1, Hop; by eapply quiet_ok|by rewrite Ho1, Hop|by apply (fr_pools _ _ Hf1)|].
    intros s2 Hok2 Hf2 Hst2. pose proof (vframe_trans _ _ _ Hf1 Hf2) as Hf02. apply wp_bind. apply wp_opens_none; [apply opens_none_pool_release|].
    apply wp_pool_release; [by apply (fr_pools _ _ Hf02)|by apply no_pool_lock, Hok2|]. intros s3 Hq3 Ho3.
    pose proof (vframe_trans _ _ _ Hf02 (qu_frame _ _ Hq3)) as Hf3. apply wp_bind, wp_call, wp_ret, wp_ret.
    apply HQ; [apply ok_close_spare; [cbn; rewrite Ho3; by eapply quiet_ok| |]|apply Hf3|left; split; [done|apply Hf3]].
    + unfold not_cwd_fd. rewrite (qu_store _ _ Hq3), Hst2, (qu_store _ _ Hq1). done.
    + by rewrite (fr_table _ _ Hf3).
  - intros e s1 Hok1 Ht1 Hl1 Hc1 Ho1. apply andb_true_iff in Hr as [Hr _]. apply Z.leb_le in Hr. rewrite (proj2 (Z.ltb_ge _ _)) by done.
    apply wp_bind, wp_ret, wp_ret, HQ; [by rewrite Ho1, Hop|done|]. right. eauto.
Qed.

Lemma wp_openat_helper pool dir path flags mode held X s :
  vfd_ok held (vs_opened s) s → is_Some (vs_pools s !! pool) → wp (openat_helper pool dir path flags mode) (openat_post pool held s) X s.
Proof.
  intros Hok Hp. unfold openat_helper. apply wp_bind. apply wp_opens_none; [apply opens_none_acquire_new_fd|]. eapply wp_acquire_new_fd; [done|]. intros fd s1 Hok1 Hf1 Hsp Ho1.
  destruct (Z.ltb_spec fd 0) as [Hneg|Hpos].
  { apply wp_ret. split_and!; [by rewrite Ho1|apply Hf1|left; split; [done|apply Hf1]]. }
  specialize (Hsp Hpos). apply wp_bind. apply wp_opens_none; [apply opens_none_pool_acquire|]. apply wp_pool_acquire; [by apply (fr_pools _ _ Hf1)|by apply no_pool_lock, Hok1|]. intros s2 Hq2 Ho2.
  apply wp_bind. apply wp_openat_call. intros file errno s3 Hq3 Ho3 Herr. pose proof (quiet_trans _ _ _ Hq2 Hq3) as Hq13. rewrite Ho2, Ho1 in Ho3. clear Hq2 Hq3 Ho2 s2.
  pose proof (vframe_trans _ _ _ Hf1 (qu_frame _ _ Hq13)) as Hf3. apply wp_bind. apply wp_opens_none; [apply opens_none_pool_release|].
  apply wp_pool_release; [by apply (fr_pools _ _ Hf3)|by apply no_pool_lock; apply (quiet_ok _ _ _ _ Hok1 Hq13)|]. intros s4 Hq4 Ho4. rewrite Ho3 in Ho4.
  pose proof (quiet_trans _ _ _ Hq13 Hq4) as Hq14. pose proof (vframe_trans _ _ _ Hf3 (qu_frame _ _ Hq4)) as Hf4.
  pose proof (quiet_ok _ _ _ _ Hok1 Hq14) as Hok4. pose proof (quiet_spare _ _ _ Hsp Hq14) as Hsp4. clear Hq13 Hq4 Hf3 Ho3 s3 Hq14 Hsp.
  destruct file as [file|].
  - eapply (wp_openat_assign pool file fd held); [exact Hok4|done|by apply (fr_pools _ _ Hf4)|done|]. intros r s5 Hok5 Hc5 Hor.
    split_and!; [done|rewrite Hc5; apply Hf4|]. rewrite (fr_table _ _ Hf4) in Hor. destruct Hor as [[Hr Ht]|(-> & Ho5 & e & Ht & Hl)]; [by left|right].
    exists e, file. rewrite Ho5, Ho4. split_and!; [done| |done|done]. rewrite <-(fr_table _ _ Hf4). by destruct Hsp4 as (_ & _ & ?).
  - specialize (Herr eq_refl). destruct Hsp4 as ([Hr Hno] & Hop & Hn). apply wp_bind, wp_call, wp_ret.
    split_and!; [by apply ok_close_spare; [cbn; rewrite Ho4|..]|apply Hf4|left; split; [lia|apply Hf4]].
Qed.

Lemma wp_chdir_resolved t held X s :
  vfd_ok held (vs_opened s) s → (∀ p, at_pool t = Some p → is_Some (vs_pools s !! p)) →
  wp (chdir_resolved t) (λ _ s', vfd_ok held (vs_opened s') s' ∧ vs_table s' = vs_table s) X s.
Proof.
  intros Hok Hp. unfold chdir_resolved. destruct (at_pool t) as [pool|]; cycle 1.
  { apply wp_bind, wp_call. set (g := sys_openat _ _ _ _). destruct (ok_new _ _ _ _ _ Hok (openat_ok (at_kernel t) (at_path t) O_CHDIR (vs_world s))) as [Hok1 Hr]. fold g in Hok1, Hr.
    destruct (Z.leb_spec 0 g.1) as [Hpos|Hneg]; [|by apply wp_ret]. destruct (Hr Hpos) as (Hno & Hn & Ho). apply wp_opens_none; [apply opens_none_chdir_kernel_fd|].
    eapply wp_chdir_kernel_fd; [done|done|done|done|]. intros r s2 Hok2 Ht2 _ Ho2. by rewrite Ho2. }
  specialize (Hp pool eq_refl). apply wp_bind. apply wp_opens_none; [apply opens_none_pool_acquire|]. apply wp_pool_acquire; [done|by apply no_pool_lock, Hok|]. intros s1 Hq1 Ho1.
  apply wp_bind. apply wp_openat_call. intros file errno s2 Hq2 Ho2 _. pose proof (quiet_trans _ _ _ Hq1 Hq2) as Hq. rewrite Ho1 in Ho2. clear Hq1 Hq2 Ho1 s1.
  pose proof (quiet_ok _ _ _ _ Hok Hq) as Hok2. pose proof (fr_pools _ _ (qu_frame _ _ Hq) _ Hp) as Hp2.
  assert (Hend : ∀ r s3, vfd_ok held (vs_opened s3) s3 → vs_table s3 = vs_table s → is_Some (vs_pools s3 !! pool) →
    wp (pool_release (Some pool);; mret r) (λ (_ : Z) s', vfd_ok held (vs_opened s') s' ∧ vs_table s' = vs_table s) X s3).
  { intros r s3 Hok3 Ht3 Hp3. apply wp_bind. apply wp_opens_none; [apply opens_none_pool_release|]. apply wp_pool_release; [done|by apply no_pool_lock, Hok3|]. intros s4 Hq4 Ho4.
    apply wp_ret. split; [rewrite Ho4; by eapply quiet_ok|]. by rewrite (fr_table _ _ (qu_frame _ _ Hq4)). }
  destruct file as [file|]; cycle 1.
  { apply wp_bind, wp_ret. apply Hend; [by rewrite Ho2|apply (fr_table _ _ (qu_frame _ _ Hq))|done]. }
  apply wp_bind, wp_bind. apply wp_opens_none; [apply opens_none_chdir_pf|]. eapply wp_chdir_pf; [done|done|]. intros r s3 Hok3 Ht3 _ Hp3 Ho3. rewrite (fr_table _ _ (qu_frame _ _ Hq)) in Ht3.
  rewrite Ho2 in Ho3. destruct (Z.eqb_spec r 0) as [->|Hr]; cbn [negb].
  - apply wp_bind, wp_ret, wp_ret. apply Hend; [by rewrite Ho3|done|by apply Hp3].
  - apply wp_bind. eapply (wp_close_unused pool file held); [by rewrite Ho3|by rewrite Ho3|by apply Hp3|]. intros s4 Hok4 Hf4 _. apply wp_ret.
    apply Hend; [done|by rewrite (fr_table _ _ Hf4)|by apply (fr_pools _ _ Hf4), Hp3].
Qed.

(** The two cases of [fchdir], in the section; the old directory is returned. *)
Lemma wp_fchdir_pmemfile vfd e held opened (Q : Z * option Z → vfd_state → Prop) X s :
  vfd_inv (vs_table s) (dom (vs_table s)) held opened s → vs_locks s = [LTable] → is_Some (vs_cwd s) → vs_table s !! vfd = Some e →
  (∀ r old k s', vfd_inv (vs_table s) (dom (vs_table s)) (slot old k ++ held) opened s' → vs_table s' = vs_table s → vs_locks s' = vs_locks s →
     is_Some (vs_cwd s') → (r = 0 → vs_cwd s' = Some e) → Q (r, old) s') →
  wp (fchdir_pmemfile e) Q X s.
Proof.
  intros Hinv Hl [c Hc] Ht HQ. unfold fchdir_pmemfile. destruct (table_live _ _ _ _ _ _ _ Hinv Ht) as (Hin & d & [p f] & Hd & Hlive & Hlf).
  apply wp_bind. eapply wp_entry_get; [done|]. destruct (live_file_special _ _ Hlive) as (_ & -> & -> & _). cbn [fst snd].
  assert (Hp : is_Some (vs_pools s !! p)).
  { apply (vi_pools _ _ _ _ _ Hinv p f). rewrite (vi_files _ _ _ _ _ Hinv). apply elem_of_app. right. apply list_elem_of_fmap. exists (e, (p, f)). split; [done|]. by apply elem_of_map_to_list. }
  assert (Hlp : ∀ s', frame s s' → LPool p ∉ vs_locks s') by (intros s' Hf; rewrite (fr_locks _ _ Hf), Hl; by intros ?%list_elem_of_singleton).
  apply wp_bind. apply wp_pool_acquire; [done|by apply Hlp|]. intros s1 Hq1. apply wp_bind. eapply wp_of_option; [done|]. apply wp_bind. eapply wp_of_option; [done|].
  apply wp_bind, wp_call. set (r := (pm_fchdir p f (vs_world s1)).1). set (s2 := set_vs_world _ s1).
  assert (Hq2 : quiet s s2) by (eapply quiet_trans; [exact Hq1|apply quiet_world, pm_fchdir_ok]).
  apply wp_bind. apply wp_pool_release; [by apply (fr_pools _ _ (qu_frame _ _ Hq2))|by apply Hlp, Hq2|]. intros s3 Hq3. pose proof (quiet_trans _ _ _ Hq2 Hq3) as Hq.
  pose proof (inv_quiet _ _ _ _ _ _ Hinv Hq) as Hinv3. pose proof (qu_frame _ _ Hq) as [Ht3 Hc3 Hl3 _].
  destruct (Z.eqb_spec r 0) as [Hr|Hr]; cycle 1.
  { apply wp_ret. apply (HQ _ None vd_zero); [done|done|done|by rewrite Hc3; exists c|]. intros H. lia. }
  apply wp_bind. eapply wp_ref_inc; [exact Hinv3|by eapply holders_table|]. intros d' _ s4 Hinv4. apply wp_bind, wp_gets, wp_bind, wp_modify, wp_ret.
  destruct (inv_set_cwd _ _ _ _ _ _ _ c Hinv4) as [kc Hinv5]; [cbn; congruence|]. replace (vs_cwd s4) with (Some c) by (cbn; congruence).
  apply (HQ _ (Some c) kc); [done|done|done|by exists e|done].
Qed.

Lemma wp_fchdir_kernel vfd held opened (Q : Z * option Z → vfd_state → Prop) X s :
  vfd_inv (vs_table s) (dom (vs_table s)) held opened s → vs_locks s = [LTable] → is_Some (vs_cwd s) →
  (∀ r old k s', vfd_inv (vs_table s) (dom (vs_table s)) (slot old k ++ held) opened s' → vs_table s' = vs_table s → vs_locks s' = vs_locks s →
     is_Some (vs_cwd s') → Q (r, old) s') →
  wp (fchdir_kernel vfd) Q X s.
Proof.
  intros Hinv Hl [c Hc] HQ. unfold fchdir_kernel. apply wp_bind, wp_call. pose proof (dup_ok vfd (vs_world s)) as Hdup.
  destruct (sys_dup vfd (vs_world s)) as [n w]. cbn [fst snd] in *. set (s1 := set_vs_world w s).
  assert (Hinv1 : vfd_inv (vs_table s) (dom (vs_table s)) held opened s1) by (apply inv_world; [done|]; destruct Hdup as [[_ ->]|(_ & _ & ->)]; set_solver).
  destruct (Z.leb_spec 0 n) as [Hpos|Hneg]; cycle 1.
  { apply wp_bind, wp_ret. rewrite (proj2 (Z.eqb_neq _ _)) by lia. apply wp_ret. apply (HQ _ None vd_zero); [done|done|done|by exists c]. }
  destruct Hdup as [[? _]|(_ & Hn & Hw)]; [lia|]. apply wp_bind, wp_call. set (r := (sys_fchdir n (vs_world s1)).1). set (s2 := set_vs_world _ s1).
  assert (Hw2 : w_open (vs_world s2) = {[n]} ∪ w_open (vs_world s)) by (cbn; by rewrite fchdir_ok, Hw).
  assert (Hinv2 : vfd_inv (vs_table s) (dom (vs_table s)) held opened s2) by (by apply inv_world; [|cbn; rewrite fchdir_ok]).
  assert (Hno : not_cwd_fd n s) by (intros e d He Hd; by destruct (vi_fds _ _ _ _ _ Hinv _ _ _ He Hd)).
  assert (HnD : n ∉ dom (vs_table s)) by (intros HD; by apply Hn, (vi_open _ _ _ _ _ Hinv)).
  destruct (Z.eqb_spec r 0) as [Hr|Hr]; [|apply wp_ret; apply (HQ _ None vd_zero); [done|done|done|by exists c]].
  apply wp_bind. eapply (wp_install_cwd _ _ _ held opened opened c); [exact Hinv2|by apply unlocked_table|done|done| | |].
  - right. exists n. split_and!; [done|done|rewrite Hw2; set_solver|done|done].
  - intros _. apply wp_bind, wp_call, wp_ret. apply (HQ _ None vd_zero); [|done|done|by exists c].
    eapply inv_frame; [exact Hinv|done..| |done]. cbn [vs_world set_vs_world]. intros fd Hfd _. rewrite close_ok. change (vs_world s2) with (vs_world s2). rewrite Hw2. set_solver.
  - intros e kc s3 Hinv3 Hc3 Ht3 Hl3 _ _. apply wp_ret. apply (HQ _ (Some c) kc); [done|done|done|by exists e].
Qed.

Lemma wp_vfd_fchdir vfd held opened (Q : Z → vfd_state → Prop) X s :
  vfd_ok held opened s →
  (∀ r s', vfd_ok held opened s' → vs_table s' = vs_table s → (∀ e, vs_table s !! vfd = Some e → r = 0 → vs_cwd s' = Some e) → Q r s') →
  wp (pmemfile_vfd_fchdir vfd) Q X s.
Proof.
  intros Hok HQ. pose proof Hok as [Hinv [c Hc] Hl]. unfold pmemfile_vfd_fchdir. apply wp_bind, wp_section; [done|]. apply wp_bind.
  set (s0 := set_vs_locks [LTable] s). assert (Hinv0 : vfd_inv (vs_table s0) (dom (vs_table s0)) held opened s0) by (by apply inv_locks).
  assert (Hend : ∀ r old k s1, vfd_inv (vs_table s) (dom (vs_table s)) (slot old k ++ held) opened s1 → vs_table s1 = vs_table s → vs_locks s1 = [LTable] →
    is_Some (vs_cwd s1) → (∀ e, vs_table s !! vfd = Some e → r = 0 → vs_cwd s1 = Some e) →
    vs_locks s1 = [LTable] ∧ wp (unref_entry old;; mret r) Q X (set_vs_locks [] s1)).
  { intros r old k s1 Hinv1 Ht1 Hl1 Hc1 Hr. split; [done|]. apply wp_bind. eapply (wp_drop_old old k held opened); [cbn [vs_table set_vs_locks]; rewrite Ht1; by apply inv_locks|done|done|].
    intros s2 Hok2 [Ht2 Hc2 _ _]. apply wp_ret, HQ; [done|rewrite Ht2; done|]. intros e He Hr0. rewrite Hc2. by apply (Hr e). }
  assert (Hentry : ∀ Q', Q' (vs_table s !! vfd) s0 → wp (if is_in_vfd_table_range vfd then table_at vfd else mret None) Q' X s0).
  { intros Q' HQ'. destruct (is_in_vfd_table_range vfd) eqn:Hr; [by apply wp_table_at|]. apply wp_ret.
    destruct (vs_table s !! vfd) as [e|] eqn:He; [|done]. by rewrite (ok_range _ _ _ _ _ Hok He) in Hr. }
  apply Hentry. destruct (vs_table s !! vfd) as [e|] eqn:He.
  - eapply (wp_fchdir_pmemfile vfd); [exact Hinv0|done|by exists c|done|]. intros r old k s1 Hinv1 Ht1 Hl1 Hc1 Hr. apply (Hend r old k); [done..|]. intros e' [= <-] Hr0. auto.
  - eapply wp_fchdir_kernel; [exact Hinv0|done|by exists c|]. intros r old k s1 Hinv1 Ht1 Hl1 Hc1. by apply (Hend r old k).
Qed.
End vfd_open.
