(* ===== verification/VfdSpec.v ===== *)
(** The file descriptor table as a transition system: the operations in any order,
    with references held by their users, and what holds in every state. *)
From stdpp Require Import relations.
From S2P Require Import Prelude CString VfdTable VfdRep VfdOps.

(** ** Start *)

Section init.
Context `{E : VfdEnv} {EO : VfdEnvOk}.
Implicit Types (s : vfd_state).

(** The state the process starts in: static storage is zero. *)
Definition zero_store : gmap Z vfile_description := list_to_map ((λ e, (e, vd_zero)) <$> seqZ 0 (VFD_TABLE_SIZE - 1)).
Definition vfd_start (switching : bool) (pools : gmap positive pool_description) (w : world) : vfd_state :=
  VState _ zero_store ∅ None [] false switching pools [] [] [] w.

Lemma zero_store_lookup e d : zero_store !! e = Some d ↔ (0 ≤ e < VFD_TABLE_SIZE - 1) ∧ d = vd_zero.
Proof.
  unfold zero_store. rewrite <-elem_of_list_to_map.
  - rewrite list_elem_of_fmap. split; [intros (x & Hx & Hin); simplify_eq; by apply elem_of_seqZ in Hin as [? ?]; split; [lia|]|].
    intros [Hr ->]. exists e. split; [done|]. apply elem_of_seqZ. lia.
  - rewrite <-list_fmap_compose. rewrite (list_fmap_ext _ id); [rewrite list_fmap_id; apply NoDup_seqZ|done].
Qed.

Lemma zero_store_size : Z.of_nat (size zero_store) < VFD_TABLE_SIZE.
Proof.
  unfold zero_store. rewrite <-size_dom, dom_list_to_map_L, <-list_fmap_compose, (list_fmap_ext _ id), list_fmap_id by done.
  rewrite size_list_to_set by apply NoDup_seqZ. rewrite length_seqZ. unfold VFD_TABLE_SIZE. lia.
Qed.

#[local] Opaque zero_store.

Lemma wp_mark_all es (Q : unit → vfd_state → Prop) X s :
  vs_locks s = [] → (∀ e, e ∈ es → vs_store s !! e = Some vd_zero) → Z.of_nat (length (vs_free s) + length es) ≤ VFD_TABLE_SIZE →
  Q tt (set_vs_free (reverse es ++ vs_free s) s) → wp (mark_all_free es) Q X s.
Proof.
  intros Hl. revert s Hl. induction es as [|e es IH]; intros s Hl He Hlen HQ; cbn [mark_all_free].
  - apply wp_ret. by destruct s.
  - cbn [length] in Hlen. apply wp_bind. eapply wp_mark_free; [rewrite Hl; apply not_elem_of_nil|apply He; by left|done|apply Z.leb_gt; lia|].
    apply IH; [done|intros x Hx; apply He; by right|cbn [vs_free set_vs_free length]; lia|].
    revert HQ. rewrite reverse_cons, <-app_assoc. exact id.
Qed.

(** With all entries free and no current directory yet. *)
Lemma inv_start s :
  (∀ e d, vs_store s !! e = Some d → d = vd_zero) → Z.of_nat (size (vs_store s)) < VFD_TABLE_SIZE →
  (∀ e, e ∈ vs_free s ↔ is_Some (vs_store s !! e)) → NoDup (vs_free s) → vs_cwd s = None → vs_closed s = [] → vfd_inv ∅ ∅ [] [] s.
Proof.
  intros Hz Hsize Hfree Hnd Hcwd Hclosed.
  assert (Hh : holders ∅ s [] = []) by (unfold holders; by rewrite Hcwd).
  assert (Hlf : live_files (vs_store s) = ∅).
  { apply map_eq. intros e. rewrite live_files_lookup, lookup_empty. destruct (vs_store s !! e) as [d|] eqn:He; [|done]. by apply Hz in He as ->. }
  split; rewrite ?Hh, ?Hlf, ?Hclosed; try done.
  - intros e d He. by apply Hz in He as ->.
  - intros e k Hin. by apply elem_of_nil in Hin.
  - intros e Hin. by apply elem_of_nil in Hin.
  - intros e. rewrite Hfree. split; [|by intros [? _]]. intros Hr. split; [done|apply not_elem_of_nil].
  - intros e d He Hpos. apply Hz in He as ->. cbn in Hpos. lia.
  - intros p f Hin. by apply elem_of_nil in Hin.
  - intros e d fd He. by apply Hz in He as ->.
  - intros e d e' d' fd He. by apply Hz in He as ->.
Qed.

Lemma inv_first_cwd T D held opened s e k :
  vfd_inv T D ((e, k) :: held) opened s → vs_cwd s = None → vfd_inv T D held opened (set_vs_cwd (Some e) s).
Proof.
  intros Hinv Hc. assert (Hh : holders T (set_vs_cwd (Some e) s) held ≡ₚ holders T s ((e, k) :: held)).
  { unfold holders. rewrite Hc. cbn. by rewrite <-Permutation_middle. }
  destruct Hinv as [Hct Hhd Hd Hf Hn Hs Hk Hfi Hp Ht Hr Ho Hfd Hi]. split; try done.
  - intros x d Hx. cbn in Hx. rewrite (Hct _ _ Hx). symmetry. by apply occ_perm.
  - intros x k' Hx. apply Hhd. by right.
  - intros x Hx. apply Hd. by rewrite <-Hh.
  - intros x. cbn. by rewrite Hf, Hh.
Qed.

Lemma wp_check_memfd (Q : unit → vfd_state → Prop) X s : (∀ b w, Q tt (set_vs_memfd b (set_vs_world w s))) → wp check_memfd_syscall Q X s.
Proof.
  intros HQ. unfold check_memfd_syscall. apply wp_bind, wp_call. destruct (0 <=? _).
  - apply wp_bind, wp_modify, wp_bind, wp_call, wp_ret. set (w := (sys_close _ _).2). apply (HQ true w).
  - apply wp_ret. specialize (HQ (vs_memfd s) (sys_memfd_create (cstr "check") (vs_world s)).2). by destruct s.
Qed.

(** The first current directory. *)
Lemma wp_setup_cwd (Q : unit → vfd_state → Prop) X s :
  vfd_inv ∅ ∅ [] [] s → vs_locks s = [] → vs_cwd s = None → vs_table s = ∅ → vs_free s ≠ [] → 0 ≤ (sys_open_cwd (vs_world s)).1 →
  (∀ s', vfd_ok [] [] s' → vs_opened s' = vs_opened s → vs_table s' = ∅ → vs_pools s' = vs_pools s → Q tt s') → wp setup_cwd Q X s.
Proof.
  intros Hinv Hl Hc Ht Hne Hcwd HQ. unfold setup_cwd. apply wp_bind, wp_call. pose proof (open_cwd_ok (vs_world s)) as Hnew.
  destruct (sys_open_cwd (vs_world s)) as [fd w]. cbn [fst snd] in *. set (s1 := set_vs_world w s).
  apply wp_bind, wp_assert; [by apply Z.leb_le|]. apply wp_bind. apply wp_fetch_slot; [cbn; rewrite Hl; apply not_elem_of_nil|by intros Hnil|].
  intros e fr Hfr. apply wp_bind. eapply wp_of_option; [done|]. apply wp_bind, wp_modify, wp_modify. set (d := VDesc _ _ _ _ _).
  destruct Hnew as [[? _]|(_ & Hn & Hw)]; [lia|].
  assert (Hinv1 : vfd_inv ∅ ∅ [] [] s1) by (apply inv_world; [done|rewrite Hw; set_solver]). set (s2 := set_vs_store _ (set_vs_free fr s1)).
  assert (Hinv2 : vfd_inv ∅ ∅ [(e, vd_id d)] [] s2).
  { eapply (inv_new ∅ ∅ [] [] [] s1 s2 e fr d); try done. right. exists fd. split_and!; [done|done|cbn; rewrite Hw; set_solver|set_solver|].
    intros x y Hx Hy. destruct (vi_fds _ _ _ _ _ Hinv _ _ _ Hx Hy). done. }
  apply HQ; [|done|done|done]. split; [|by exists e|done]. cbn [vs_table set_vs_cwd]. change (vs_table s2) with (vs_table s). rewrite Ht, dom_empty_L. by eapply inv_first_cwd.
Qed.

Lemma wp_table_init s X :
  vs_store s = zero_store → vs_free s = [] → vs_cwd s = None → vs_table s = ∅ → vs_closed s = [] → vs_opened s = [] → vs_locks s = [] →
  (∀ w, 0 ≤ (sys_open_cwd w).1) →
  wp pmemfile_vfd_table_init (λ _ s', vfd_ok [] [] s' ∧ vs_opened s' = [] ∧ vs_table s' = ∅ ∧ vs_pools s' = vs_pools s) X s.
Proof.
  intros Hst Hfree Hc Ht Hclosed Hop Hl Hcwd. unfold pmemfile_vfd_table_init. apply wp_bind. apply wp_check_memfd. intros b w.
  pose proof zero_store_lookup as Hlook. pose proof zero_store_size as Hsize. rewrite <-Hst in Hlook, Hsize. clear Hst.
  apply wp_bind. unfold setup_free_slots. pose proof (elem_of_seqZ 0 (VFD_TABLE_SIZE - 1)) as Hin. pose proof (NoDup_seqZ 0 (VFD_TABLE_SIZE - 1)) as Hnd.
  pose proof (length_seqZ 0 (VFD_TABLE_SIZE - 1)) as Hlen. generalize dependent (seqZ 0 (VFD_TABLE_SIZE - 1)). intros slots Hin Hnd Hlen. unfold VFD_TABLE_SIZE in Hlen.
  apply wp_mark_all; [done| | |].
  - intros e He. apply Hin in He. apply Hlook. split; [lia|done].
  - cbn [vs_free set_vs_memfd set_vs_world]. rewrite Hlen, Hfree. unfold VFD_TABLE_SIZE. cbn [length]. lia.
  - cbn [vs_free set_vs_memfd set_vs_world]. rewrite Hfree, app_nil_r. apply wp_setup_cwd; [|done|done|done| |apply Hcwd|].
    + apply inv_start; [by intros e d [_ ->]%Hlook|done| |cbn [vs_free set_vs_free]; by rewrite reverse_Permutation|done|done].
      intros e. cbn [vs_free set_vs_free]. rewrite elem_of_reverse, Hin. split.
      * intros Hr. exists vd_zero. apply Hlook. split; [lia|done].
      * intros [d [Hr _]%Hlook]. lia.
    + cbn [vs_free set_vs_free]. intros Hnil. apply (f_equal length) in Hnil. rewrite length_reverse, Hlen in Hnil. cbn [length] in Hnil. lia.
    + intros s' Hok Ho Ht' Hp. by rewrite Ho, Hp.
Qed.
End init.

(** ** The transition system *)

(** The references that are out, each with the entry it was taken from as it stood
    then, the entries that [pmemfile_vfd_close] took out of the table and has not
    dropped yet, and the state. *)
Record vconf `{E : VfdEnv} := VConf {
  vc_refs : list (vfd_reference * vfile_description);
  vc_taken : list (Z * vfile_description);
  vc_state : vfd_state;
}.

Section system.
Context `{E : VfdEnv} {EO : VfdEnvOk}.
Implicit Types (s : vfd_state) (c : vconf).

Definition vc_held c : list (Z * vfile_description) := (vc_refs c ≫= λ x, tokens x.1 x.2) ++ vc_taken c.

(** What an entry stands for. *)
Definition stands_for s (e : option Z) (k : vfile_description) : Prop := match e with Some e => vd_id <$> vs_store s !! e = Some k | None => True end.

(** What the system calls the application makes by itself may not do: close the
    descriptors the table depends on. *)
Definition env_keeps s (w : world) : Prop :=
  dom (vs_table s) ⊆ w_open w ∧ ∀ e d fd, vs_store s !! e = Some d → live_fd d = Some fd → fd ∈ w_open w.

(** The steps: one operation, or the part of [pmemfile_vfd_close] inside or behind
    the mutex.  The guards are the calls the operations are written for. *)
Inductive vfd_step : vconf → vconf → Prop :=
  | st_ref refs taken s vfd r k s' : pmemfile_vfd_ref vfd s = Ok r s' → stands_for s' (vr_internal r) k →
      vfd_step (VConf _ refs taken s) (VConf _ ((r, k) :: refs) taken s')
  | st_at_ref refs taken s vfd r k s' : pmemfile_vfd_at_ref vfd s = Ok r s' → stands_for s' (vr_internal r) k →
      vfd_step (VConf _ refs taken s) (VConf _ ((r, k) :: refs) taken s')
  | st_unref refs refs' taken s r k s' : refs ≡ₚ (r, k) :: refs' → pmemfile_vfd_unref r s = Ok tt s' →
      vfd_step (VConf _ refs taken s) (VConf _ refs' taken s')
  | st_dup refs taken s vfd r s' : pmemfile_vfd_dup vfd s = Ok r s' → vfd_step (VConf _ refs taken s) (VConf _ refs taken s')
  | st_fcntl_dup refs taken s vfd m r s' : pmemfile_vfd_fcntl_dup vfd m s = Ok r s' → vfd_step (VConf _ refs taken s) (VConf _ refs taken s')
  | st_dup2 refs taken s old new r s' : dup2_pre old new s → pmemfile_vfd_dup2 old new s = Ok r s' →
      vfd_step (VConf _ refs taken s) (VConf _ refs taken s')
  | st_dup3 refs taken s old new fl r s' : dup2_pre old new s → pmemfile_vfd_dup3 old new fl s = Ok r s' →
      vfd_step (VConf _ refs taken s) (VConf _ refs taken s')
  | st_close_take refs taken s vfd entry k result s' : app_fd vfd s → vfd_close_take vfd s = Ok (entry, result) s' → stands_for s' entry k →
      vfd_step (VConf _ refs taken s) (VConf _ refs (slot entry k ++ taken) s')
  | st_close_drop refs taken taken' s e k result r s' : taken ≡ₚ (e, k) :: taken' → vfd_close_drop (Some e) result s = Ok r s' →
      vfd_step (VConf _ refs taken s) (VConf _ refs taken' s')
  | st_openat refs taken s pool dir path flags mode r s' : is_Some (vs_pools s !! pool) → openat_helper pool dir path flags mode s = Ok r s' →
      vfd_step (VConf _ refs taken s) (VConf _ refs taken s')
  | st_chdir refs taken s t r s' : (∀ p, at_pool t = Some p → is_Some (vs_pools s !! p)) → chdir_resolved t s = Ok r s' →
      vfd_step (VConf _ refs taken s) (VConf _ refs taken s')
  | st_fchdir refs taken s vfd r s' : pmemfile_vfd_fchdir vfd s = Ok r s' → vfd_step (VConf _ refs taken s) (VConf _ refs taken s')
  | st_env refs taken s w : env_keeps s w → vfd_step (VConf _ refs taken s) (VConf _ refs taken (set_vs_world w s)).

Record vconf_ok c : Prop := {
  co_ok : vfd_ok (vc_held c) (vs_opened (vc_state c)) (vc_state c);
  co_refs : Forall (λ x, denotes x.1 x.2) (vc_refs c);
  co_taken : Forall (λ x, vd_is_special_cwd_desc x.2 = false) (vc_taken c);
}.

Lemma wp_run {A} (m : M vfd_state A) (Q : A → vfd_state → Prop) X s a s' : wp m Q X s → m s = Ok a s' → Q a s'.
Proof. intros H Hm. unfold wp in H. by rewrite Hm in H. Qed.

Lemma inv_held_perm T D held held' opened s : held ≡ₚ held' → vfd_inv T D held opened s → vfd_inv T D held' opened s.
Proof.
  intros Hp Hinv. eapply inv_move; [done|unfold holders; by rewrite Hp| |done|apply Hinv]. intros e k Hin. apply (vi_held _ _ _ _ _ Hinv). by rewrite Hp.
Qed.
Lemma ok_perm held held' opened s : held ≡ₚ held' → vfd_ok held opened s → vfd_ok held' opened s.
Proof. intros Hp [Hinv Hc Hl]. split; [by eapply inv_held_perm|done|done]. Qed.

(** A reference just taken. *)
Definition ref_taken held s (r : vfd_reference) s' : Prop :=
  ∃ k, vfd_ok (tokens r k ++ held) (vs_opened s') s' ∧ denotes r k ∧ vs_table s' = vs_table s ∧ vs_cwd s' = vs_cwd s.

Lemma wp_ref_taken vfd held X s : vfd_ok held (vs_opened s) s → wp (pmemfile_vfd_ref vfd) (ref_taken held s) X s.
Proof.
  intros Hok. apply wp_opens_none; [opens_none|]. eapply wp_vfd_ref; [done| |].
  - intros _ _. exists vd_zero. split_and!; [done|by intros []|done|done].
  - intros e k x s' _ _ _ Hok' Ht Hc Hp Hf Ho. exists k. rewrite Ho. split_and!; [done|by intros _|done|done].
Qed.
Lemma wp_at_ref_taken vfd held X s : vfd_ok held (vs_opened s) s → wp (pmemfile_vfd_at_ref vfd) (ref_taken held s) X s.
Proof.
  intros Hok. apply wp_opens_none; [opens_none|]. eapply wp_at_ref; [done|]. intros r k s' Hok' Hd Ht Hc Ho. exists k. by rewrite Ho.
Qed.

Lemma slot_unique held opened s e k k' : vfd_ok (slot e k' ++ held) opened s → stands_for s e k → slot e k = slot e k' ∧ (is_Some e → k = k').
Proof.
  intros Hok Hk. destruct e as [e|]; [|by split; [|intros []]]. assert (k = k') as ->; [|done].
  apply Some_inj. cbn in Hk. rewrite <-Hk. eapply (vi_held _ _ _ _ _ (vk_inv _ _ _ Hok)). by left.
Qed.

Lemma step_ref_ok refs taken s r k s' :
  vconf_ok (VConf _ refs taken s) → ref_taken ((refs ≫= λ x, tokens x.1 x.2) ++ taken) s r s' → stands_for s' (vr_internal r) k →
  vconf_ok (VConf _ ((r, k) :: refs) taken s').
Proof.
  intros [_ Hr Ht] (k' & Hok & Hd & _) Hk. destruct (slot_unique _ _ _ (vr_internal r) k k' Hok Hk) as [Hslot Heq].
  split; cbn [vc_refs vc_taken vc_state]; [|constructor; [|done]|done].
  - unfold vc_held. cbn. change (tokens r k) with (slot (vr_internal r) k). by rewrite Hslot, <-app_assoc.
  - intros Hi. cbn. rewrite (Heq Hi). by apply Hd.
Qed.

Lemma step_same_ok refs taken s s' :
  vconf_ok (VConf _ refs taken s) → (vfd_ok ((refs ≫= λ x, tokens x.1 x.2) ++ taken) (vs_opened s) s → vfd_ok ((refs ≫= λ x, tokens x.1 x.2) ++ taken) (vs_opened s') s') →
  vconf_ok (VConf _ refs taken s').
Proof. intros [Hok Hr Ht] Hs. split; [by apply Hs|done|done]. Qed.

Lemma step_opens_none_ok {A} (m : M vfd_state A) held s a s' :
  opens_none m → wp m (λ _ s', vfd_ok held (vs_opened s) s') noabort s → m s = Ok a s' → vfd_ok held (vs_opened s') s'.
Proof. intros Hk Hm Hrun. specialize (Hk s). rewrite Hrun in Hk. rewrite Hk. revert Hrun. by apply (wp_run _ (λ _ s', vfd_ok held (vs_opened s) s') noabort). Qed.

Lemma opens_none_dup vfd : opens_none (pmemfile_vfd_dup vfd).
Proof. opens_none. Qed.
Lemma opens_none_fcntl_dup vfd m : opens_none (pmemfile_vfd_fcntl_dup vfd m).
Proof. opens_none. Qed.
Lemma opens_none_fchdir vfd : opens_none (pmemfile_vfd_fchdir vfd).
Proof. opens_none. Qed.
Lemma opens_none_close_take vfd : opens_none (vfd_close_take vfd).
Proof. opens_none. Qed.
Lemma opens_none_close_drop e r : opens_none (vfd_close_drop e r).
Proof. opens_none. Qed.

Lemma wp_dup vfd held opened X s : vfd_ok held opened s → wp (pmemfile_vfd_dup vfd) (dup_post vfd held opened s) X s.
Proof. intros Hok. apply wp_dup_with; [done|apply dup_ok]. Qed.
Lemma wp_fcntl_dup vfd m held opened X s : vfd_ok held opened s → wp (pmemfile_vfd_fcntl_dup vfd m) (dup_post vfd held opened s) X s.
Proof. intros Hok. apply wp_dup_with; [done|apply fcntl_dupfd_ok]. Qed.

Lemma step_unref_ok refs refs' taken s r k s' :
  vconf_ok (VConf _ refs taken s) → refs ≡ₚ (r, k) :: refs' → pmemfile_vfd_unref r s = Ok tt s' → vconf_ok (VConf _ refs' taken s').
Proof.
  intros [Hok Hr Ht] Hp Hrun. cbn [vc_refs vc_taken vc_state] in *. rewrite Hp in Hr. apply Forall_cons in Hr as [_ Hr]. split; [|done|done].
  eapply step_opens_none_ok; [apply opens_none_unref| |exact Hrun]. eapply (wp_vfd_unref r k); [|by intros s2 Hok2 _ _].
  eapply ok_perm; [|exact Hok]. unfold vc_held. cbn. rewrite Hp. cbn. by rewrite <-app_assoc.
Qed.

Lemma step_close_take_ok refs taken s vfd entry k result s' :
  vconf_ok (VConf _ refs taken s) → app_fd vfd s → vfd_close_take vfd s = Ok (entry, result) s' → stands_for s' entry k →
  vconf_ok (VConf _ refs (slot entry k ++ taken) s').
Proof.
  intros [Hok Hr Ht] Happ Hrun Hk. cbn [vc_refs vc_taken vc_state] in *. set (held := vc_held (VConf _ refs taken s)) in *.
  set (P := λ (a : option Z * Z) s2, ∃ k', vfd_ok (slot a.1 k' ++ held) (vs_opened s) s2 ∧ (is_Some a.1 → vd_is_special_cwd_desc k' = false)).
  assert (Hpost : P (entry, result) s').
  { revert Hrun. apply (wp_run _ P noabort). eapply wp_close_take; [done|done|]. intros r k' s2 Hok2 Hsp _ _. by exists k'. }
  destruct Hpost as (k' & Hok' & Hsp). cbn [fst] in *. destruct (slot_unique _ _ _ _ _ _ Hok' Hk) as [Hslot Heq].
  pose proof (opens_none_close_take vfd s) as Hke. rewrite Hrun in Hke. split; cbn [vc_refs vc_taken vc_state]; [|done|].
  - rewrite Hke. eapply ok_perm; [|exact Hok']. rewrite Hslot. unfold held, vc_held. cbn. rewrite !app_assoc. f_equiv. apply Permutation_app_comm.
  - apply Forall_app. split; [|done]. destruct entry as [e|]; [|done]. constructor; [|done]. cbn. rewrite Heq by (by eexists). apply Hsp. by eexists.
Qed.

Lemma step_close_drop_ok refs taken taken' s e k result r s' :
  vconf_ok (VConf _ refs taken s) → taken ≡ₚ (e, k) :: taken' → vfd_close_drop (Some e) result s = Ok r s' → vconf_ok (VConf _ refs taken' s').
Proof.
  intros [Hok Hr Ht] Hp Hrun. cbn [vc_refs vc_taken vc_state] in *. rewrite Hp in Ht. apply Forall_cons in Ht as [Hsp Ht]. split; [|done|done].
  eapply step_opens_none_ok; [apply opens_none_close_drop| |exact Hrun]. eapply (wp_close_drop (Some e) k); [|by intros _|by intros s2 Hok2 _ _].
  eapply ok_perm; [|exact Hok]. unfold vc_held. cbn. rewrite Hp. by rewrite <-Permutation_middle.
Qed.

Lemma step_ok c c' : vconf_ok c → vfd_step c c' → vconf_ok c'.
Proof.
  intros Hco Hstep. destruct Hstep as
    [refs taken s vfd r k s' Hrun Hk|refs taken s vfd r k s' Hrun Hk|refs refs' taken s r k s' Hp Hrun|refs taken s vfd r s' Hrun|refs taken s vfd m r s' Hrun
    |refs taken s old new r s' Hpre Hrun|refs taken s old new fl r s' Hpre Hrun|refs taken s vfd entry k result s' Happ Hrun Hk|refs taken taken' s e k result r s' Hp Hrun
    |refs taken s pool dir path flags mode r s' Hpool Hrun|refs taken s t r s' Hpool Hrun|refs taken s vfd r s' Hrun|refs taken s w Hw].
  - eapply step_ref_ok; [done| |done]. eapply wp_run; [|done]. apply wp_ref_taken with (X := noabort), Hco.
  - eapply step_ref_ok; [done| |done]. eapply wp_run; [|done]. apply wp_at_ref_taken with (X := noabort), Hco.
  - by eapply step_unref_ok.
  - eapply step_same_ok; [done|]. intros Hok. eapply step_opens_none_ok; [apply opens_none_dup| |done]. eapply wp_conseq; [by apply wp_dup|]. by intros a s2 [? _].
  - eapply step_same_ok; [done|]. intros Hok. eapply step_opens_none_ok; [apply opens_none_fcntl_dup| |done]. eapply wp_conseq; [by apply wp_fcntl_dup|]. by intros a s2 [? _].
  - eapply step_same_ok; [done|]. intros Hok. eapply step_opens_none_ok; [apply opens_none_dup2| |done]. eapply wp_conseq; [by apply wp_vfd_dup2|]. by intros a s2 [? _].
  - eapply step_same_ok; [done|]. intros Hok. unfold pmemfile_vfd_dup3 in Hrun. destruct (old =? new); [by injection Hrun as _ <-|].
    destruct (negb _); [by injection Hrun as _ <-|]. eapply step_opens_none_ok; [apply opens_none_dup2| |done]. eapply wp_conseq; [by apply wp_vfd_dup2|]. by intros a s2 [? _].
  - by eapply step_close_take_ok.
  - by eapply step_close_drop_ok.
  - eapply step_same_ok; [done|]. intros Hok. by destruct (wp_run _ _ _ _ _ _ (wp_openat_helper pool dir path flags mode _ noabort s Hok Hpool) Hrun) as [? _].
  - eapply step_same_ok; [done|]. intros Hok. by destruct (wp_run _ _ _ _ _ _ (wp_chdir_resolved t _ noabort s Hok Hpool) Hrun) as [? _].
  - eapply step_same_ok; [done|]. intros Hok. eapply step_opens_none_ok; [apply opens_none_fchdir| |done]. by eapply wp_vfd_fchdir.
  - eapply step_same_ok; [done|]. intros [Hinv Hc Hl]. split; [|done|done]. destruct Hw as [Hw1 Hw2].
    eapply inv_frame; [done..| |done]. cbn. intros fd _ [HD|(e & d & He & Hd)]; [by apply Hw1|by eapply Hw2].
Qed.
End system.

Section claims.
Context `{E : VfdEnv} {EO : VfdEnvOk} (Hcwd : ∀ w, 0 ≤ (sys_open_cwd w).1).
Implicit Types (s : vfd_state) (c : vconf).

#[local] Opaque zero_store.

(** Reachable by the operations after the start of the process. *)
Definition vfd_reachable c : Prop :=
  ∃ sw pools w s, pmemfile_vfd_table_init (vfd_start sw pools w) = Ok tt s ∧ rtc vfd_step (VConf _ [] [] s) c.

Lemma init_conf sw pools w : ∃ s, pmemfile_vfd_table_init (vfd_start sw pools w) = Ok tt s ∧ vconf_ok (VConf _ [] [] s) ∧ vs_pools s = pools.
Proof using Hcwd EO.
  assert (Hwp := wp_table_init (vfd_start sw pools w) noabort eq_refl eq_refl eq_refl eq_refl eq_refl eq_refl eq_refl Hcwd).
  apply wp_ok in Hwp as ([] & s & Hrun & Hok & Ho & _ & Hp).
  exists s. split_and!; [done| |done]. split; cbn [vc_refs vc_taken vc_state]; [|done|done]. unfold vc_held. cbn. by rewrite Ho.
Qed.

Lemma reachable_ok c : vfd_reachable c → vconf_ok c.
Proof using Hcwd EO.
  intros (sw & pools & w & s & Hinit & Hsteps). destruct (init_conf sw pools w) as (s' & Hrun & Hok & _). rewrite Hrun in Hinit. injection Hinit as ->.
  induction Hsteps as [|c1 c2 c3 Hstep _ IH]; [done|]. apply IH. by eapply step_ok.
Qed.
End claims.

(** C23: in every reachable state the reference count of an entry is the number of
    descriptors, references and current directories that denote it, and the free
    slots are, once each, the entries that nothing denotes. *)
Theorem vfd_counts `{E : VfdEnv} {EO : VfdEnvOk} (Hcwd : ∀ w, 0 ≤ (sys_open_cwd w).1) c :
  vfd_reachable c → let s := vc_state c in
  NoDup (vs_free s) ∧
  ∀ e d, vs_store s !! e = Some d →
    vd_ref_count d = occ e ((vc_held c).*1 ++ option_list (vs_cwd s) ++ (map_to_list (vs_table s)).*2) ∧ (e ∈ vs_free s ↔ vd_ref_count d = 0).
Proof.
  intros Hc. apply reachable_ok in Hc as [[Hinv _ _] _ _]; [|done]. cbn. split; [apply Hinv|]. intros e d Hd.
  rewrite (vi_count _ _ _ _ _ Hinv _ _ Hd). split; [done|]. rewrite (vi_free _ _ _ _ _ Hinv), occ_zero. naive_solver.
Qed.

(** C5: in every reachable state each file that was opened has been closed exactly
    once or is the file of exactly one entry that is still referenced; the entries
    of the table are such entries, and a reference that was handed out still
    denotes the entry with the file it named. *)
Theorem vfd_files_closed_once `{E : VfdEnv} {EO : VfdEnvOk} (Hcwd : ∀ w, 0 ≤ (sys_open_cwd w).1) c :
  vfd_reachable c → let s := vc_state c in
  vs_opened s ≡ₚ vs_closed s ++ (map_to_list (live_files (vs_store s))).*2 ∧
  (∀ vfd e, vs_table s !! vfd = Some e → is_Some (live_files (vs_store s) !! e)) ∧
  (∀ r k e, (r, k) ∈ vc_refs c → vr_internal r = Some e →
     ∃ d, vs_store s !! e = Some d ∧ 0 < vd_ref_count d ∧ vd_pool d = vr_pool r ∧ vd_file d = vr_file r).
Proof.
  intros Hc. apply reachable_ok in Hc as [[Hinv _ _] Hr _]; [|done]. cbn. split; [apply Hinv|]. split; [intros vfd e Ht; by apply (vi_table _ _ _ _ _ Hinv) in Ht as [_ ?]|].
  intros r k e Hin He. assert (Hheld : (e, k) ∈ vc_held c).
  { unfold vc_held. apply elem_of_app. left. apply list_elem_of_bind. exists (r, k). split; [|done]. unfold tokens. cbn [fst snd]. rewrite He. by left. }
  pose proof (vi_held _ _ _ _ _ Hinv _ _ Hheld) as Hk. destruct (vs_store (vc_state c) !! e) as [d|] eqn:Hd; [|done]. injection Hk as <-. exists d.
  rewrite Forall_forall in Hr. destruct (Hr _ Hin ltac:(by eexists)) as [Hp Hf]. split_and!; [done| |done|done].
  rewrite (vi_count _ _ _ _ _ Hinv _ _ Hd). apply occ_pos. by eapply holders_held.
Qed.


(** ** A duplicate outlives its original *)

Section dup_close.
Context `{E : VfdEnv} {EO : VfdEnvOk}.
Implicit Types (s : vfd_state).

(** A descriptor is duplicated and closed, and the duplicate used. *)
Definition dup_close_ref (vfd : Z) : M vfd_state (Z * vfd_reference * vfd_reference) :=
  r0 ← pmemfile_vfd_ref vfd;
  n ← pmemfile_vfd_dup vfd;
  if n <? 0 then mret (n, r0, r0)
  else pmemfile_vfd_close vfd;; r1 ← pmemfile_vfd_ref n; mret (n, r0, r1).

Lemma table_app_fd held opened s vfd e : vfd_ok held opened s → vs_table s !! vfd = Some e → app_fd vfd s.
Proof.
  intros Hok Ht. split; [by eapply ok_range|]. intros x d Hx Hd. destruct (vi_fds _ _ _ _ _ (vk_inv _ _ _ Hok) _ _ _ Hx Hd) as [_ HD].
  apply HD. by eapply elem_of_dom_2.
Qed.

Lemma wp_vfd_close vfd held opened (Q : Z → vfd_state → Prop) X s :
  vfd_ok held opened s → app_fd vfd s →
  (∀ r s', vfd_ok held opened s' → vs_table s' = delete vfd (vs_table s) → Q r s') → wp (pmemfile_vfd_close vfd) Q X s.
Proof.
  intros Hok Happ HQ. unfold pmemfile_vfd_close. apply wp_bind. eapply wp_close_take; [done|done|]. intros result k s1 Hok1 Hsp Ht1 Hc1.
  eapply wp_close_drop; [done|done|]. intros s2 Hok2 Ht2 _. apply HQ; [done|]. congruence.
Qed.

Lemma wp_dup_close held s vfd :
  vfd_ok held (vs_opened s) s → is_Some (vs_table s !! vfd) →
  wp (dup_close_ref vfd) (λ a s', a.2 = a.1.2 ∧ (0 ≤ a.1.1 → vs_table s' !! vfd = None)) noabort s.
Proof.
  intros Hok [e He]. unfold dup_close_ref. apply wp_bind. eapply wp_vfd_ref; [exact Hok|congruence|].
  intros e' k x s1 He' Hk Hx Hok1 Ht1 Hc1 Hp Hf. assert (e' = e) as -> by congruence. set (r0 := VfdRef _ _ _ _).
  apply wp_bind. eapply wp_conseq; [by apply wp_dup|]. intros n s2 (Hok2 & Hc2 & Hdup). destruct (Z.ltb_spec n 0) as [Hneg|Hpos].
  { apply wp_ret. cbn. split; [done|lia]. }
  destruct Hdup as [[? _]|(_ & Hnew & Ht2)]; [lia|]. rewrite Ht1 in Ht2.
  assert (Hne : n ≠ vfd).
  { intros ->. apply Hnew. apply (vi_open _ _ _ _ _ (vk_inv _ _ _ Hok1)). rewrite Ht1. by eapply elem_of_dom_2. }
  assert (Hv2 : vs_table s2 !! vfd = Some e ∧ vs_table s2 !! n = Some e).
  { rewrite Ht2. unfold table_dup. rewrite He, lookup_insert_ne, lookup_insert_eq by done. done. }
  destruct Hv2 as [Hv2 Hn2]. apply wp_bind. eapply wp_vfd_close; [exact Hok2|by eapply table_app_fd|]. intros r s3 Hok3 Ht3.
  assert (Hn3 : vs_table s3 !! n = Some e) by (rewrite Ht3, lookup_delete_ne by done; done).
  apply wp_bind. eapply wp_vfd_ref; [exact Hok3|congruence|]. intros e' k' x' s4 He3 Hk3 Hx3 Hok4 Ht4 Hc4 Hp4 Hf4. assert (e' = e) as -> by congruence.
  apply wp_ret. cbn [fst snd]. assert (k' = k) as ->.
  { apply Some_inj. rewrite <-Hk3. apply (vi_held _ _ _ _ _ (vk_inv _ _ _ Hok3)). by left. }
  split; [unfold r0; congruence|]. intros _. rewrite Ht4, Ht3. apply lookup_delete_eq.
Qed.
End dup_close.

(** After [dup] and [close] of the original, the duplicate denotes the same
    entry and the same open file, and the original descriptor denotes nothing. *)
Theorem vfd_dup_survives_close `{E : VfdEnv} {EO : VfdEnvOk} held s vfd :
  vfd_ok held (vs_opened s) s → is_Some (vs_table s !! vfd) →
  wp (dup_close_ref vfd) (λ a s', a.2 = a.1.2 ∧ (0 ≤ a.1.1 → vs_table s' !! vfd = None)) noabort s.
Proof. apply wp_dup_close. Qed.

(** ** Arguments the operations are not written for *)

(** [pmemfile_vfd_close] does not check its argument: [close(-1)] reads and writes in
    front of the table. *)
Lemma close_out_of_range `{E : VfdEnv} vfd s :
  vs_locks s = [] → is_in_vfd_table_range vfd = false → pmemfile_vfd_close vfd s = Fault OutOfBounds.
Proof.
  intros Hl Hr. unfold pmemfile_vfd_close, vfd_close_take, locked, mbind, M_bind, gets. rewrite Hl.
  unfold table_at. unfold is_in_vfd_table_range in Hr. rewrite Hr. done.
Qed.

(** [dup2] of a descriptor the kernel refuses onto one of the table is not an error
    but a failed assertion. *)
Lemma dup2_bad_descriptor `{E : VfdEnv} old new e s :
  vs_locks s = [] → is_in_vfd_table_range new = true → is_in_vfd_table_range old = false → vs_table s !! new = Some e →
  (sys_dup2 old new (vs_world s)).1 ≠ new → pmemfile_vfd_dup2 old new s = Fault AssertFail.
Proof.
  intros Hl Hn Ho He Hd. unfold pmemfile_vfd_dup2, can_be_in_vfd_table, mbind, M_bind. rewrite Ho, Hn. cbn [negb].
  unfold table_at, gets, mret, M_ret. unfold is_in_vfd_table_range in Hn. rewrite Hn. cbn [negb]. cbv beta iota. rewrite He.
  rewrite bool_decide_eq_true_2 by (by eexists). cbn [negb andb]. unfold locked, mbind, M_bind, gets. rewrite Hl.
  rewrite bool_decide_eq_false_2 by apply not_elem_of_nil. cbn [negb assert_ modify]. unfold call. cbn [vs_world set_vs_locks].
  destruct (sys_dup2 old new (vs_world s)) as [r w]. cbn [fst] in Hd. unfold assert_. by rewrite (proj2 (Z.eqb_neq _ _) Hd).
Qed.

(** ** An example environment *)

Module ExVfd.
(** The world is the set of open descriptors; a new one is above all of them. *)
Definition next (w : gset Z) : Z := set_fold (λ x a, Z.max (x + 1) a) 0 w.
Definition open_new (w : gset Z) : Z * gset Z := (next w, {[next w]} ∪ w).
Definition ebadf : Z := -9.

#[global] Instance env : VfdEnv := {|
  world := gset Z;
  sys_dup fd w := if decide (fd ∈ w) then open_new w else (ebadf, w);
  sys_fcntl_dupfd fd _ w := if decide (fd ∈ w) then open_new w else (ebadf, w);
  sys_dup2 old new w := if decide (old ∈ w ∧ 0 ≤ new) then (new, {[new]} ∪ w) else (ebadf, w);
  sys_close fd w := (0, w ∖ {[fd]});
  sys_fchdir _ w := (0, w);
  sys_open_cwd w := open_new w;
  sys_open_null w := open_new w;
  sys_memfd_create _ w := open_new w;
  sys_openat _ _ _ w := open_new w;
  pm_openat _ _ _ _ _ w := ((Some 1%positive, 0), w);
  pm_fchdir _ _ w := (0, w);
  pm_close _ _ w := (tt, w);
  pm_resume _ w := (0, w);
  pm_suspend _ w := (0, w);
|}.

Lemma next_spec (w : gset Z) : 0 ≤ next w ∧ ∀ x, x ∈ w → x < next w.
Proof.
  apply (set_fold_ind_L (λ n X, 0 ≤ n ∧ ∀ x, x ∈ X → x < n)).
  - split; [lia|]. intros x Hx. by apply elem_of_empty in Hx.
  - intros x X n _ [H0 Hn]. split; [lia|]. intros y [->%elem_of_singleton|Hy]%elem_of_union; [lia|]. specialize (Hn _ Hy). lia.
Qed.

Lemma open_new_ok (w : gset Z) : new_fd w (open_new w).1 (open_new w).2.
Proof. right. destruct (next_spec w) as [H0 Hn]. split_and!; [done| |done]. intros Hin. by apply (Z.lt_irrefl (next w)), Hn. Qed.

#[global] Instance env_ok : VfdEnvOk (E := env).
Proof.
  refine (Build_VfdEnvOk env (λ w : gset Z, w) _ _ _ _ _ _ _ _ _ _ _ _ _ _ _); cbn; try (intros; split_and!; done); try (intros; apply open_new_ok); try done.
  - intros fd w. destruct (decide _); [apply open_new_ok|by left].
  - intros fd _ w. destruct (decide _); [apply open_new_ok|by left].
  - intros old new w. destruct (decide _) as [[_ ?]|]; [by right|by left].
Defined.

Definition pools : gmap positive pool_description := {[1%positive := PoolDesc 0 true]}.

Lemma cwd_ok (w : world) : 0 ≤ (sys_open_cwd w).1.
Proof. apply next_spec. Qed.

(** A table of three entries, and a file opened in it. *)
Definition s0 : vfd_state :=
  VState _ (list_to_map [(0, vd_zero); (1, vd_zero); (2, vd_zero)]) ∅ None [0; 1; 2] true true pools [] [] [] ({[0; 1; 2]} : gset Z).
Definition prog : M vfd_state Z := setup_cwd;; openat_helper 1 None [] 0 0.
Definition s1 : vfd_state := match prog s0 with Ok _ s => s | _ => s0 end.

Lemma s0_inv : vfd_inv ∅ ∅ [] [] s0.
Proof.
  apply inv_start; [|done| |by apply (bool_decide_unpack _)|done|done]; cbn [vs_store vs_free s0].
  - intros e d Hd. apply elem_of_list_to_map_2 in Hd. repeat (apply elem_of_cons in Hd as [Hd|Hd]; [by simplify_eq|]). by apply elem_of_nil in Hd.
  - intros e. rewrite <-elem_of_dom, dom_list_to_map, elem_of_list_to_set. done.
Qed.

Lemma s1_ok : vfd_ok [] (vs_opened s1) s1 ∧ is_Some (vs_table s1 !! 4).
Proof.
  split; [|vm_compute; by eexists]. assert (Hrun : ∃ fd, prog s0 = Ok fd s1).
  { assert (Hret : match prog s0 with Ok _ _ => true | _ => false end = true) by (vm_compute; reflexivity).
    unfold s1. destruct (prog s0) as [fd s| |]; [by exists fd|discriminate Hret|discriminate Hret]. }
  destruct Hrun as [fd Hrun].
  refine (wp_run prog (λ _ s, vfd_ok [] (vs_opened s) s) noabort s0 fd s1 _ Hrun). unfold prog. apply wp_bind.
  apply wp_setup_cwd; [exact s0_inv|done|done|done|done|apply cwd_ok|]. intros s Hok Ho _ Hp. eapply wp_conseq; [apply wp_openat_helper; [by rewrite Ho|rewrite Hp; by eexists]|].
  by intros a s' [? _].
Qed.

Lemma reached : ∃ s, vfd_reachable (VConf _ [] [] s).
Proof. destruct (init_conf cwd_ok true pools ({[0; 1; 2]} : gset Z)) as (s & Hinit & _). exists s, true, pools, ({[0; 1; 2]} : gset Z), s. split; [done|apply rtc_refl]. Qed.
End ExVfd.

Lemma vfd_dup_survives_close_witness :
  wp (dup_close_ref 4) (λ a s', a.2 = a.1.2 ∧ (0 ≤ a.1.1 → vs_table s' !! 4 = None)) noabort ExVfd.s1.
Proof. apply (vfd_dup_survives_close [] ExVfd.s1 4); [exact (proj1 ExVfd.s1_ok)|exact (proj2 ExVfd.s1_ok)]. Defined.

Lemma vfd_counts_witness : ∃ s, NoDup (vs_free s) ∧
  ∀ e d, vs_store s !! e = Some d →
    vd_ref_count d = occ e ([] ++ option_list (vs_cwd s) ++ (map_to_list (vs_table s)).*2) ∧ (e ∈ vs_free s ↔ vd_ref_count d = 0).
Proof.
  destruct ExVfd.reached as [s Hs]. exists s. exact (vfd_counts ExVfd.cwd_ok (VConf _ [] [] s) Hs).
Defined.

Lemma vfd_files_closed_once_witness : ∃ s, vs_opened s ≡ₚ vs_closed s ++ (map_to_list (live_files (vs_store s))).*2.
Proof.
  destruct ExVfd.reached as [s Hs]. exists s. exact (proj1 (vfd_files_closed_once ExVfd.cwd_ok (VConf _ [] [] s) Hs)).
Defined.

