(* ===== verification/PathResolve.v ===== *)
(** Resolving a path over the kernel's directories and the mounted pools
    (libpmemfile/path_resolve.c), and opening a pool when a path first leads into
    it (preload.c).  The kernel and libpmemfile-posix are parameters. *)
From S2P Require Import Prelude CString VfdTable.

Definition EIO : Z := 5.
Definition EAGAIN : Z := 11.
Definition ENOTSUP : Z := 95.
Definition PATH_MAX : Z := 4096.
Definition AT_SYMLINK_NOFOLLOW : Z := 0x100.
Definition RESOLVE_LAST_SLINK : Z := 1.
Definition NO_RESOLVE_LAST_SLINK : Z := 2.
Definition RESOLVE_LAST_SLINK_MASK : Z := 3.
Definition NO_AT_PATH : Z := Z.shiftl 1 30.
Definition CAP_CHOWN : Z := 0.
Definition CAP_FOWNER : Z := 3.
Definition CAP_FSETID : Z := 4.

(** ** The environment *)

(** The fields of [struct stat] that are used. *)
Record kstat := KStat { st_dev : Z; st_ino : Z; st_mode : Z }.
Definition zero_stat : kstat := KStat 0 0 0.
Definition S_ISLNK (mode : Z) : bool := Z.land mode 0xF000 =? 0xA000.
Definition S_ISDIR (mode : Z) : bool := Z.land mode 0xF000 =? 0x4000.
Definition same_inode (st1 st2 : kstat) : bool := (st_ino st1 =? st_ino st2) && (st_dev st1 =? st_dev st2).

(** The fields of a [pool_description] that are set once at the start. *)
Record mount := Mount { mp_pool : positive; mp_path : cstring; mp_fd : Z; mp_stat : kstat }.

(** Numbers of system calls. *)
Inductive sysno :=
  | SYS_access | SYS_chdir | SYS_chmod | SYS_chown | SYS_close | SYS_creat | SYS_faccessat | SYS_fadvise64 | SYS_fallocate
  | SYS_fchmodat | SYS_fchdir | SYS_fchmod | SYS_fchownat | SYS_fchown | SYS_fcntl | SYS_fdatasync | SYS_fgetxattr | SYS_flock
  | SYS_fsetxattr | SYS_fstat | SYS_fstatfs | SYS_fsync | SYS_ftruncate | SYS_futimesat | SYS_getcwd | SYS_getdents64
  | SYS_getdents | SYS_getxattr | SYS_lchown | SYS_lgetxattr | SYS_linkat | SYS_link | SYS_lseek | SYS_lsetxattr | SYS_lstat
  | SYS_mkdirat | SYS_mkdir | SYS_mknod | SYS_mknodat | SYS_newfstatat | SYS_openat | SYS_open | SYS_pread64 | SYS_preadv
  | SYS_preadv2 | SYS_pwrite64 | SYS_pwritev | SYS_pwritev2 | SYS_read | SYS_readlinkat | SYS_readlink | SYS_readv
  | SYS_renameat2 | SYS_renameat | SYS_rename | SYS_rmdir | SYS_setxattr | SYS_setfsuid | SYS_setfsgid | SYS_setgid
  | SYS_setgroups | SYS_setregid | SYS_setresgid | SYS_setresuid | SYS_setreuid | SYS_setuid | SYS_stat | SYS_statfs
  | SYS_symlinkat | SYS_symlink | SYS_syncfs | SYS_truncate | SYS_umask | SYS_unlinkat | SYS_unlink | SYS_utime | SYS_utimensat
  | SYS_utimes | SYS_write | SYS_writev | SYS_bind | SYS_chroot | SYS_copy_file_range | SYS_dup2 | SYS_dup3 | SYS_dup
  | SYS_execveat | SYS_execve | SYS_flistxattr | SYS_fremovexattr | SYS_listxattr | SYS_llistxattr | SYS_lremovexattr | SYS_mmap
  | SYS_name_to_handle_at | SYS_readahead | SYS_removexattr | SYS_sendfile | SYS_splice
  | SYS_other (n : Z).

(** System calls and calls of libpmemfile-posix that return a number.  Directories
    of a pool are [None] for PMEMFILE_AT_CWD; paths are NULL or a string; calls
    without a directory or a path have [None] there. *)
Inductive syscall :=
  | K_getuid | K_geteuid | K_getgid | K_getegid | K_setfsuid (uid : Z) | K_setfsgid (gid : Z) | K_umask (mask : Z)
  | K_getgroups0 | K_cap_get_proc | K_cap_get_flag (cap : Z)
  | K_execveat (at_ : Z) (path : cstring) (argv : Z) (envp : list cstring) (flags : Z)
  | K_path (nr : sysno) (at_ : option Z) (path : option cstring) (args : list Z)
  | K_path2 (nr : sysno) (at0 : Z) (path0 : cstring) (at1 : Z) (path1 : cstring) (args : list Z)
  | K_symlinkat (target : cstring) (at_ : Z) (path : cstring)
  | K_args (nr : sysno) (args : list Z).
Inductive pmcall :=
  | P_setreuid (ruid euid : Z) | P_setregid (rgid egid : Z) | P_setfsuid (fsuid : Z) | P_setfsgid (fsgid : Z)
  | P_setuid (uid : Z) | P_setgid (gid : Z) | P_setgroups (list : list Z) | P_umask (mask : Z)
  | P_setcap (cap : Z) | P_clrcap (cap : Z) | P_pool_set_device (dev : Z) | P_pool_close
  | P_path (nr : sysno) (dir : option positive) (path : option cstring) (args : list Z)
  | P_path2 (nr : sysno) (dir0 : option positive) (path0 : cstring) (dir1 : option positive) (path1 : cstring) (args : list Z)
  | P_symlinkat (target : cstring) (dir : option positive) (path : cstring)
  | P_file (nr : sysno) (file : option positive) (args : list Z).

(** [sys_call] returns the result of a system call, [pm_call] that of a call on a
    pool: a failure is a negative error number.  The calls with other results
    return 0 or a negative error number and the result. *)
Class PathEnv `{E : VfdEnv} := {
  pools : list mount;
  sys_call : syscall → world → Z * world;
  sys_getgroups : Z → world → (Z * list Z) * world;
  sys_newfstatat : Z → cstring → Z → world → (Z * kstat) * world;
  sys_readlinkat : Z → cstring → Z → world → (Z * cstring) * world;
  pm_call : positive → pmcall → world → Z * world;
  pm_pool_open : positive → world → Z * world;
  pm_fstatat : positive → option positive → cstring → Z → world → (Z * kstat) * world;
  pm_readlinkat : positive → option positive → cstring → Z → world → (Z * cstring) * world;
  sys_getcwd : Z → world → (Z * cstring) * world;
  pm_getcwd : positive → Z → world → (Z * cstring) * world;
}.

(** [hs_roots] holds the pools that are open ([pool->pool] is not NULL), with
    [pmem_stat]; [hs_cwd_mutex] tells whether [cwd_mutex] is held, and [hs_guard] is
    [guard_flag]. *)
Record hook_state `{E : VfdEnv} := HState {
  hs_vfd : vfd_state;
  hs_roots : gmap positive kstat;
  hs_cwd_mutex : bool;
  hs_guard : bool;
}.

Section path.
Context `{E : VfdEnv} {PE : PathEnv}.

Definition set_hs_vfd x (s : hook_state) := HState _ x (hs_roots s) (hs_cwd_mutex s) (hs_guard s).
Definition set_hs_roots x (s : hook_state) := HState _ (hs_vfd s) x (hs_cwd_mutex s) (hs_guard s).
Definition set_hs_cwd_mutex x (s : hook_state) := HState _ (hs_vfd s) (hs_roots s) x (hs_guard s).
Definition set_hs_guard x (s : hook_state) := HState _ (hs_vfd s) (hs_roots s) (hs_cwd_mutex s) x.

Definition on_vfd {A} (m : M vfd_state A) : M hook_state A := zoom hs_vfd set_hs_vfd m.
Definition hcall {A} (f : world → A * world) : M hook_state A := on_vfd (call f).

(** A call on a pool whose memory is unmapped while it is suspended. *)
Definition pcall {A} (p : positive) (f : world → A * world) : M hook_state A :=
  sw ← on_vfd (gets vs_switching);
  d ← on_vfd (pool_get p);
  if sw && pd_suspended d then fault_ BadPointer else hcall f.

(** ** Opening a pool (preload.c) *)

Definition update_capability (p : positive) (cap : Z) : M hook_state unit :=
  v ← hcall (sys_call (K_cap_get_flag cap));
  assert_ (0 <=? v);;
  hcall (pm_call p (if negb (v =? 0) then P_setcap cap else P_clrcap cap));;
  mret tt.

Definition update_capabilities (p : positive) : M hook_state unit :=
  c ← hcall (sys_call K_cap_get_proc);
  assert_ (0 <=? c);;
  update_capability p CAP_CHOWN;;
  update_capability p CAP_FOWNER;;
  update_capability p CAP_FSETID.

(** The loop that waits for another process to give the pool up. *)
Fixpoint pool_open_loop (fuel : nat) (p : positive) : M hook_state bool :=
  match fuel with
  | O => fault_ NoFuel
  | S fuel' =>
      r ← hcall (pm_pool_open p);
      sw ← on_vfd (gets vs_switching);
      if (r <? 0) && sw && (r =? - EAGAIN) then pool_open_loop fuel' p else mret (0 <=? r)
  end.

(** [setfsuid(id)] returns the id that was set; it is set back at once. *)
Definition current_id (get : syscall) (set : Z → syscall) : M hook_state Z :=
  e ← hcall (sys_call get);
  id ← hcall (sys_call (set e));
  hcall (sys_call (set id));;
  mret id.

(** The groups of the process, if it has any; [None] is a failure. *)
Definition process_groups (malloc_ok : bool) : M hook_state (option (option (list Z))) :=
  gnum ← hcall (sys_call K_getgroups0);
  if 0 <? gnum then
    if negb malloc_ok then mret None
    else
      '(n, groups) ← hcall (sys_getgroups gnum);
      mret (if negb (n =? gnum) then None else Some (Some groups))
  else mret (if gnum <? 0 then None else Some None).

(** What [open_new_pool_under_lock] does with the pool it opened; [None] is
    [goto err]. *)
Definition setup_new_pool (malloc_ok : bool) (m : mount) : M hook_state (option kstat) :=
  let p := mp_pool m in
  let step (r : Z) (k : M hook_state (option kstat)) : M hook_state (option kstat) := if negb (r =? 0) then mret None else k in
  ruid ← hcall (sys_call K_getuid);
  euid ← hcall (sys_call K_geteuid);
  r ← hcall (pm_call p (P_setreuid ruid euid));
  step r (
  fsuid ← current_id K_geteuid K_setfsuid;
  r ← hcall (pm_call p (P_setfsuid fsuid));
  if r <? 0 then mret None else
  rgid ← hcall (sys_call K_getgid);
  egid ← hcall (sys_call K_getegid);
  r ← hcall (pm_call p (P_setregid rgid egid));
  step r (
  fsgid ← current_id K_getegid K_setfsgid;
  r ← hcall (pm_call p (P_setfsgid fsgid));
  if r <? 0 then mret None else
  groups ← process_groups malloc_ok;
  match groups with
  | None => mret None
  | Some groups =>
      r ← match groups with Some l => hcall (pm_call p (P_setgroups l)) | None => mret 0 end;
      step r (
      um ← hcall (sys_call (K_umask 0));
      hcall (sys_call (K_umask um));;
      hcall (pm_call p (P_umask um));;
      update_capabilities p;;
      hcall (pm_call p (P_pool_set_device (st_dev (mp_stat m))));;
      '(r, st) ← hcall (pm_fstatat p None (cstr "/") 0);
      step r (mret (Some st)))
  end)).

Definition open_new_pool (fuel : nat) (malloc_ok : bool) (m : mount) : M hook_state unit :=
  let p := mp_pool m in
  roots ← gets hs_roots;
  if bool_decide (is_Some (roots !! p)) then mret tt
  else
    opened ← pool_open_loop fuel p;
    if negb opened then mret tt
    else
      st ← setup_new_pool malloc_ok m;
      match st with
      | Some st => modify (λ s, set_hs_roots (<[p := st]> (hs_roots s)) s)
      | None => hcall (pm_call p P_pool_close);; mret tt
      end.

(** [lookup_pd_by_inode]: the mount point with the inode, its pool opened. *)
Definition lookup_pd_by_inode (fuel : nat) (malloc_ok : bool) (st : kstat) : M hook_state (option mount) :=
  match list_find (λ m, same_inode (mp_stat m) st) pools with
  | None => mret None
  | Some (_, m) => open_new_pool fuel malloc_ok m;; mret (Some m)
  end.

(** ** The buffer of a path *)

(** [struct resolved_path]; [rp_path] is the array of [PATH_MAX] characters. *)
Record resolved_path := RPath {
  rp_error : Z;
  rp_at_kernel : Z;
  rp_at_pool : option positive;
  rp_at_dir : option positive;
  rp_path : list ascii;
}.
Definition set_rp_error x (r : resolved_path) := RPath x (rp_at_kernel r) (rp_at_pool r) (rp_at_dir r) (rp_path r).
Definition set_rp_path x (r : resolved_path) := RPath (rp_error r) (rp_at_kernel r) (rp_at_pool r) (rp_at_dir r) x.
Definition set_rp_pool p d (r : resolved_path) := RPath (rp_error r) (rp_at_kernel r) p d (rp_path r).
Definition set_rp_kernel k (r : resolved_path) := RPath (rp_error r) k None (rp_at_dir r) (rp_path r).

(** [b\[i\]] and [b\[i\] = c]; indices are of type size_t. *)
Definition buf_get {S} (b : list ascii) (i : Z) : M S ascii := of_option OutOfBounds (b !! Z.to_nat i).
Definition buf_set {S} (b : list ascii) (i : Z) (c : ascii) : M S (list ascii) :=
  if i <? Z.of_nat (length b) then mret (<[Z.to_nat i := c]> b) else fault_ OutOfBounds.

(** [n] characters of [src] stored from [b + dst] on. *)
Definition splice (dst : Z) (src : list ascii) (n : Z) (b : list ascii) : list ascii :=
  take (Z.to_nat dst) b ++ take (Z.to_nat n) src ++ drop (Z.to_nat (dst + n)) b.
(** [memmove(b + dst, b + src, n)] and [memcpy(b + dst, src, n)] *)
Definition buf_move {S} (b : list ascii) (dst src n : Z) : M S (list ascii) :=
  if (dst + n <=? Z.of_nat (length b)) && (src + n <=? Z.of_nat (length b)) then mret (splice dst (drop (Z.to_nat src) b) n b)
  else fault_ OutOfBounds.
Definition buf_copy {S} (b : list ascii) (dst : Z) (src : list ascii) (n : Z) : M S (list ascii) :=
  if (dst + n <=? Z.of_nat (length b)) && (n <=? Z.of_nat (length src)) then mret (splice dst src n b) else fault_ OutOfBounds.

(** The number of characters before the first that [stop] accepts; [None] if the
    array ends before it. *)
Fixpoint scan (stop : ascii → bool) (b : list ascii) : option Z :=
  match b with [] => None | c :: b' => if stop c then Some 0 else Z.succ <$> scan stop b' end.
Definition buf_scan {S} (stop : ascii → bool) (b : list ascii) (i : Z) : M S Z := of_option OutOfBounds (scan stop (drop (Z.to_nat i) b)).
Definition is_nul (c : ascii) : bool := bool_decide (c = NUL).
Definition is_slash (c : ascii) : bool := bool_decide (c = SLASH).
(** [strspn(b + i, "/")], [strlen(b + i)] *)
Definition buf_strspn {S} (b : list ascii) (i : Z) : M S Z := buf_scan (λ c, negb (is_slash c)) b i.
Definition buf_strlen {S} (b : list ascii) (i : Z) : M S Z := buf_scan is_nul b i.

(** The string in a buffer, as a callee sees it. *)
Definition buf_string {S} (b : list ascii) : M S cstring := n ← buf_strlen b 0; mret (take (Z.to_nat n) b).

(** ** path_resolve.c *)

(** The result and the buffer of [stat]. *)
Definition get_stat (result : resolved_path) : M hook_state (Z * kstat * resolved_path) :=
  path ← buf_string (rp_path result);
  match rp_at_pool result with
  | None =>
      '(error_code, st) ← hcall (sys_newfstatat (rp_at_kernel result) path AT_SYMLINK_NOFOLLOW);
      mret (if error_code =? 0 then (0, st, result) else (-1, st, set_rp_error error_code result))
  | Some p =>
      on_vfd (pool_acquire (Some p));;
      '(r, st) ← pcall p (pm_fstatat p (rp_at_dir result) path AT_SYMLINK_NOFOLLOW);
      on_vfd (pool_release (Some p));;
      mret (if r =? 0 then (0, st, result) else (-1, st, set_rp_error r result))
  end.

(** The target of the symbolic link the path names, or the error code. *)
Definition read_link (result : resolved_path) : M hook_state (Z + cstring) :=
  path ← buf_string (rp_path result);
  match rp_at_pool result with
  | None =>
      '(link_len, link) ← hcall (sys_readlinkat (rp_at_kernel result) path (PATH_MAX - 1));
      mret (if link_len <? 0 then inl (- link_len) else inr link)
  | Some p =>
      on_vfd (pool_acquire (Some p));;
      '(link_len, link) ← pcall p (pm_readlinkat p (rp_at_dir result) path (PATH_MAX - 1));
      on_vfd (pool_release (Some p));;
      mret (if link_len <? 0 then inl link_len else inr link)
  end.

(** The result, and [*resolved] and [*size] afterwards. *)
Definition resolve_symlink (result : resolved_path) (resolved end_ size : Z) (is_last_component : bool) : M hook_state (resolved_path * Z * Z) :=
  b ← buf_set (rp_path result) end_ NUL;
  let result := set_rp_path b result in
  link ← read_link result;
  match link with
  | inl error_code => mret (set_rp_error error_code result, resolved, size)
  | inr link_buf =>
      b ← (if negb is_last_component then buf_set (rp_path result) end_ SLASH else mret (rp_path result));
      let result := set_rp_path b result in
      let link_len := Z.of_nat (length link_buf) in
      assert_ (link_len <? PATH_MAX);;
      assert_ (0 <? link_len);;
      let absolute := is_slash (char_at link_buf 0) in
      let link_insert := if absolute then 0 else resolved in
      let postfix_insert := link_insert + link_len in
      let postfix_len := u64 (size - end_ + 1) in
      if PATH_MAX <=? u64 (postfix_insert + postfix_len) then mret (set_rp_error (- ENOMEM) result, resolved, size)
      else
        b ← buf_move (rp_path result) postfix_insert end_ postfix_len;
        b ← buf_copy b link_insert link_buf link_len;
        let result := set_rp_path b result in
        mret (if absolute then set_rp_pool None (rp_at_dir result) result else result, link_insert, u64 (postfix_insert + postfix_len - 1))
  end.

(** The result, and [*size] afterwards; [*resolved] is 1. *)
Definition enter_pool (result : resolved_path) (pool : positive) (end_ size : Z) : M hook_state (resolved_path * Z) :=
  b ← buf_move (rp_path result) 0 end_ (u64 (size - end_));
  b ← buf_set b 0 SLASH;
  let size := u64 (size - end_) in
  let size := if size =? 0 then 1 else size in
  b ← buf_set b size NUL;
  mret (set_rp_pool (Some pool) None (set_rp_path b result), size).

Definition pool_mount (p : positive) : option mount := snd <$> list_find (λ m, mp_pool m = p) pools.

Definition exit_pool (result : resolved_path) (resolved size : Z) : M hook_state (resolved_path * Z) :=
  p ← of_option NullDeref (rp_at_pool result);
  m ← of_option BadPointer (pool_mount p);
  b ← buf_move (rp_path result) 0 resolved (u64 (size - resolved + 1));
  mret (set_rp_kernel (mp_fd m) (set_rp_path b result), u64 (size - resolved)).

(** [pool->pmem_stat] *)
Definition pmem_stat (p : positive) : M hook_state kstat := gets (λ s, from_option id zero_stat (hs_roots s !! p)).

(** How the loop ends: [true] is a jump behind it, [false] a return. *)
Definition loop_end : Type := bool * resolved_path * Z * option positive.

Section resolve.
(** The number of times [pmemfile_pool_open] is tried, and whether there is memory
    for the groups. *)
Variables (open_fuel : nat) (malloc_ok : bool) (flags : Z).

Fixpoint resolve_loop (fuel : nat) (result : resolved_path) (resolved size num_symlinks : Z) (at_pmem_root : bool) (last_pool : option positive)
    : M hook_state loop_end :=
  match fuel with
  | O => fault_ NoFuel
  | S fuel' =>
      let continue result resolved size num_symlinks at_pmem_root last_pool :=
        n ← buf_strspn (rp_path result) resolved;
        resolve_loop fuel' result (resolved + n) size num_symlinks at_pmem_root last_pool in
      c ← buf_get (rp_path result) resolved;
      if is_nul c || negb (rp_error result =? 0) then mret (true, result, size, last_pool)
      else
        n ← buf_scan (λ c, is_nul c || is_slash c) (rp_path result) resolved;
        let end_ := resolved + n in
        c ← buf_get (rp_path result) end_;
        let is_last_component := is_nul c in
        if is_last_component && (Z.land flags RESOLVE_LAST_SLINK_MASK =? NO_RESOLVE_LAST_SLINK) then mret (true, result, size, last_pool)
        else
          b ← buf_set (rp_path result) end_ NUL;
          '(r, stat_buf, result) ← get_stat (set_rp_path b result);
          if negb (r =? 0) then mret (true, result, size, last_pool)
          else
            b ← (if negb is_last_component then buf_set (rp_path result) end_ SLASH else mret (rp_path result));
            let result := set_rp_path b result in
            if at_pmem_root && (u64 (end_ - resolved) =? 2) && bool_decide (take 2 (drop (Z.to_nat resolved) b) = cstr "..") then
              let last_pool := rp_at_pool result in
              '(result, size) ← exit_pool result resolved size;
              continue result resolved size num_symlinks false last_pool
            else if S_ISLNK (st_mode stat_buf) then
              '(result, resolved, size) ← resolve_symlink result resolved end_ size is_last_component;
              let num_symlinks := num_symlinks + 1 in
              if 40 <? num_symlinks then mret (true, set_rp_error (- ELOOP) result, size, last_pool)
              else continue result resolved size num_symlinks false last_pool
            else if negb (S_ISDIR (st_mode stat_buf)) then
              mret (true, if negb is_last_component then set_rp_error (- ENOTDIR) result else result, size, last_pool)
            else
              let next at_pmem_root :=
                n ← buf_strspn (rp_path result) end_;
                continue result (end_ + n) size num_symlinks at_pmem_root last_pool in
              match rp_at_pool result with
              | None =>
                  pool ← lookup_pd_by_inode open_fuel malloc_ok stat_buf;
                  match pool with
                  | Some m =>
                      roots ← gets hs_roots;
                      if bool_decide (roots !! mp_pool m = None) then mret (false, set_rp_error (- EIO) result, size, last_pool)
                      else
                        '(result, size) ← enter_pool result (mp_pool m) end_ size;
                        continue result 1 size num_symlinks true last_pool
                  | None => next false
                  end
              | Some p => st ← pmem_stat p; next (same_inode stat_buf st)
              end
  end.

(** The path copied into the buffer, and whether it fits. *)
Definition copy_path (path : cstring) (b : list ascii) : bool * list ascii :=
  if PATH_MAX <=? Z.of_nat (length path) then (false, take (Z.to_nat (PATH_MAX - 1)) path ++ drop (Z.to_nat (PATH_MAX - 1)) b)
  else (true, path ++ drop (length path) b).

(** The length without the slashes at the end. *)
Fixpoint trim_size (b : list ascii) (size : nat) : nat :=
  match size with
  | S ((S _) as size') => if is_slash (nth size' b NUL) then trim_size b size' else size
  | _ => size
  end.

(** [num_symlinks] grows to 41 at most, and between two symbolic links every round
    consumes a component or leaves a pool; one more round sees the end. *)
Definition walk_fuel : nat := Z.to_nat (42 * (2 * PATH_MAX + 2)).
Definition resolve_fuel : nat := S walk_fuel.

(** [NO_AT_PATH]: the path behind the mount point it is relative to. *)
Definition prepend_mount_point (result : resolved_path) (last_pool : option positive) : M hook_state resolved_path :=
  match last_pool with
  | Some p =>
      if (rp_error result =? 0) && bool_decide (rp_at_pool result = None) && negb (Z.land flags NO_AT_PATH =? 0) then
        m ← of_option BadPointer (pool_mount p);
        rem_len ← buf_strlen (rp_path result) 0;
        let mnt_len := Z.of_nat (length (mp_path m)) in
        if PATH_MAX <? mnt_len + 1 + rem_len + 1 then mret (set_rp_error ENAMETOOLONG result)
        else
          b ← buf_move (rp_path result) (mnt_len + 1) 0 (rem_len + 1);
          b ← buf_copy b 0 (mp_path m) mnt_len;
          b ← buf_set b mnt_len SLASH;
          mret (set_rp_path b result)
      else mret result
  | None => mret result
  end.

(** [_resolve_path]; [result] is what the caller's variable holds before. *)
Definition resolve_path_ (at_ : vfd_reference) (path : option cstring) (result : resolved_path) : M hook_state resolved_path :=
  match path with
  | None => mret (set_rp_error (- EFAULT) result)
  | Some path =>
      let path := until_nul path in
      b ← buf_set (rp_path result) 0 "."%char;
      b ← buf_set b 1 NUL;
      let result := RPath 0 (vr_kernel_fd at_) (vr_pool at_) (vr_file at_) b in
      '(r, stat_buf, result) ← get_stat result;
      if negb (r =? 0) then mret result
      else
        at_pmem_root ← match vr_pool at_ with Some p => st ← pmem_stat p; mret (same_inode stat_buf st) | None => mret false end;
        match copy_path path (rp_path result) with
        | (false, b) => mret (set_rp_error (- ENAMETOOLONG) (set_rp_path b result))
        | (true, b) =>
            if bool_decide (path = []) then mret (set_rp_error (- ENOTDIR) (set_rp_path b result))
            else
              let size := length path in
              let last_component_is_dir := is_slash (nth (size - 1) b NUL) in
              let size := Z.of_nat (if last_component_is_dir then trim_size b size else size) in
              b ← buf_set b size NUL;
              let result := set_rp_path b result in
              let result := if is_slash (char_at path 0) then set_rp_pool None (rp_at_dir result) result else result in
              resolved ← buf_strspn (rp_path result) 0;
              '(go_on, result, size, last_pool) ← resolve_loop resolve_fuel result resolved size 0 at_pmem_root None;
              if negb go_on then mret result
              else
                c ← buf_get (rp_path result) (u64 (size - 1));
                b ← (if last_component_is_dir && negb (is_slash c) then
                       b ← buf_set (rp_path result) size SLASH; buf_set b (size + 1) NUL
                     else mret (rp_path result));
                prepend_mount_point (set_rp_path b result) last_pool
        end
  end.

Definition resolve_path (at_ : vfd_reference) (path : option cstring) (result : resolved_path) : M hook_state resolved_path :=
  (if bool_decide (is_Some (vr_pool at_)) then on_vfd (pool_acquire (vr_pool at_)) else mret tt);;
  result ← resolve_path_ at_ path result;
  (if bool_decide (is_Some (vr_pool at_)) then on_vfd (pool_release (vr_pool at_)) else mret tt);;
  mret result.
End resolve.
End path.
