(* ===== verification/PathRep.v ===== *)
(** What path_resolve.c computes: a walk over strings, one component at a time,
    that the code does in place in a buffer. *)
From S2P Require Import Prelude CString VfdTable VfdRep VfdOps PathResolve.

(** ** The reference *)

(** A string split at its first slash, and behind its leading slashes. *)
Fixpoint span_comp (p : cstring) : cstring * cstring :=
  match p with
  | [] => ([], [])
  | c :: p' => if is_slash c then ([], p) else let '(a, b) := span_comp p' in (c :: a, b)
  end.
Fixpoint span_slashes (p : cstring) : cstring * cstring :=
  match p with
  | [] => ([], [])
  | c :: p' => if is_slash c then let '(a, b) := span_slashes p' in (c :: a, b) else ([], p)
  end.

(** Where a path starts, the part of it that was followed, and the rest. *)
Record cursor := Cursor {
  cu_kernel : Z;
  cu_pool : option positive;
  cu_dir : option positive;
  cu_done : cstring;
  cu_rest : cstring;
}.
Definition set_cu (d r : cstring) (c : cursor) : cursor := Cursor (cu_kernel c) (cu_pool c) (cu_dir c) d r.

(** The end of a walk: an error code, the last cursor and the pool left last, or a
    component ".." that path_resolve.c does not handle: one that leaves a pool
    behind more than one character, and one that follows the first slash when the
    walk started at the root of a pool. *)
Inductive walked := WError (e : Z) | WDone (c : cursor) (last_pool : option positive) | WStray.

Section walk.
Context `{E : VfdEnv} {PE : PathEnv}.

(** The state and the target of a file by its path; not 0 is an error code. *)
Definition stat_at (c : cursor) (path : cstring) : M hook_state (Z * kstat) :=
  match cu_pool c with
  | None => hcall (sys_newfstatat (cu_kernel c) path AT_SYMLINK_NOFOLLOW)
  | Some p =>
      on_vfd (pool_acquire (Some p));;
      r ← pcall p (pm_fstatat p (cu_dir c) path AT_SYMLINK_NOFOLLOW);
      on_vfd (pool_release (Some p));;
      mret r
  end.
Definition link_at (c : cursor) (path : cstring) : M hook_state (Z + cstring) :=
  match cu_pool c with
  | None =>
      '(n, link) ← hcall (sys_readlinkat (cu_kernel c) path (PATH_MAX - 1));
      mret (if n <? 0 then inl (- n) else inr link)
  | Some p =>
      on_vfd (pool_acquire (Some p));;
      '(n, link) ← pcall p (pm_readlinkat p (cu_dir c) path (PATH_MAX - 1));
      on_vfd (pool_release (Some p));;
      mret (if n <? 0 then inl n else inr link)
  end.

(** The cursor at the start of [path]. *)
Definition at_start (c : cursor) (path : cstring) : cursor := let '(d, r) := span_slashes path in set_cu d r c.

(** A symbolic link in place of the component before [after]. *)
Definition follow (c : cursor) (link after : cstring) : walked + cursor :=
  let absolute := is_slash (char_at link 0) in
  let d := if absolute then [] else cu_done c in
  if PATH_MAX <=? Z.of_nat (length (d ++ link ++ after)) + 1 then inl (WError (- ENOMEM))
  else inr (if absolute then at_start (Cursor (cu_kernel c) None (cu_dir c) [] []) (link ++ after) else set_cu d (link ++ after) c).

Definition into_pool (p : positive) (c : cursor) (after : cstring) : cursor :=
  at_start (Cursor (cu_kernel c) (Some p) None [] []) (if bool_decide (after = []) then [SLASH] else after).

Definition next (c : cursor) (comp after : cstring) : cursor :=
  let '(d, r) := span_slashes after in set_cu (cu_done c ++ comp ++ d) r c.

Section params.
Variables (open_fuel : nat) (malloc_ok : bool) (flags : Z).

Fixpoint walk (fuel : nat) (c : cursor) (nlinks : Z) (at_root : bool) (last_pool : option positive) : M hook_state walked :=
  match fuel with
  | O => fault_ NoFuel
  | S fuel' =>
      if bool_decide (cu_rest c = []) then mret (WDone c last_pool)
      else
        let '(comp, after) := span_comp (cu_rest c) in
        if bool_decide (after = []) && (Z.land flags RESOLVE_LAST_SLINK_MASK =? NO_RESOLVE_LAST_SLINK) then mret (WDone c last_pool)
        else
          '(r, st) ← stat_at c (cu_done c ++ comp);
          if negb (r =? 0) then mret (WError r)
          else if at_root && bool_decide (comp = cstr "..") then
            match cu_pool c with
            | None => mret WStray
            | Some p =>
                m ← of_option BadPointer (pool_mount p);
                if (1 <? length (cu_done c))%nat then mret WStray
                else walk fuel' (Cursor (mp_fd m) None (cu_dir c) [] (cu_rest c)) nlinks false (Some p)
            end
          else if S_ISLNK (st_mode st) then
            link ← link_at c (cu_done c ++ comp);
            if 40 <? nlinks + 1 then mret (WError (- ELOOP))
            else
              match link with
              | inl e => mret (WError e)
              | inr link => match follow c link after with inl w => mret w | inr c' => walk fuel' c' (nlinks + 1) false last_pool end
              end
          else if negb (S_ISDIR (st_mode st)) then mret (if bool_decide (after = []) then WDone c last_pool else WError (- ENOTDIR))
          else
            match cu_pool c with
            | None =>
                pool ← lookup_pd_by_inode open_fuel malloc_ok st;
                match pool with
                | Some m =>
                    roots ← gets hs_roots;
                    if bool_decide (roots !! mp_pool m = None) then mret (WError (- EIO))
                    else walk fuel' (into_pool (mp_pool m) c after) nlinks true last_pool
                | None => walk fuel' (next c comp after) nlinks false last_pool
                end
            | Some p => rst ← pmem_stat p; walk fuel' (next c comp after) nlinks (same_inode st rst) last_pool
            end
  end.

(** The string without the slashes at its end, but for a first one. *)
Fixpoint strip (p : cstring) : cstring :=
  match p with
  | c :: (_ :: _) as p' => if is_slash c then strip p' else p
  | _ => p
  end.
Definition trim (p : cstring) : cstring := reverse (strip (reverse p)).
Definition ends_in_slash (p : cstring) : bool := is_slash (default NUL (last p)).

(** The path a walk ends with: with the slash it had at its end, and behind the
    mount point it is relative to. *)
Definition finish (dir : bool) (w : walked) : M hook_state walked :=
  match w with
  | WDone c last_pool =>
      let path := cu_done c ++ cu_rest c in
      let path := if dir && negb (ends_in_slash path) then path ++ [SLASH] else path in
      match last_pool with
      | Some p =>
          if bool_decide (cu_pool c = None) && negb (Z.land flags NO_AT_PATH =? 0) then
            m ← of_option BadPointer (pool_mount p);
            if PATH_MAX <? Z.of_nat (length (mp_path m) + length path) + 2 then mret (WError ENAMETOOLONG)
            else mret (WDone (set_cu [] (mp_path m ++ [SLASH] ++ path) c) last_pool)
          else mret (WDone (set_cu [] path c) last_pool)
      | None => mret (WDone (set_cu [] path c) last_pool)
      end
  | w => mret w
  end.

Definition walk_path (at_ : vfd_reference) (path : option cstring) : M hook_state walked :=
  match path with
  | None => mret (WError (- EFAULT))
  | Some path =>
      let path := until_nul path in
      let c := Cursor (vr_kernel_fd at_) (vr_pool at_) (vr_file at_) [] [] in
      '(r, st) ← stat_at c (cstr ".");
      if negb (r =? 0) then mret (WError r)
      else
        at_root ← match vr_pool at_ with Some p => rst ← pmem_stat p; mret (same_inode st rst) | None => mret false end;
        if PATH_MAX <=? Z.of_nat (length path) then mret (WError (- ENAMETOOLONG))
        else if bool_decide (path = []) then mret (WError (- ENOTDIR))
        else
          let c := if is_slash (char_at path 0) then Cursor (vr_kernel_fd at_) None (vr_file at_) [] [] else c in
          w ← walk walk_fuel (at_start c (trim path)) 0 at_root None;
          finish (ends_in_slash path) w
  end.
End params.
End walk.

(** ** Strings in a buffer *)

Lemma is_slash_true c : is_slash c = true ↔ c = SLASH.
Proof. apply bool_decide_eq_true. Qed.
Lemma is_slash_false c : is_slash c = false ↔ c ≠ SLASH.
Proof. apply bool_decide_eq_false. Qed.
Lemma is_nul_false c : is_nul c = false ↔ c ≠ NUL.
Proof. apply bool_decide_eq_false. Qed.

(** What is behind a component. *)
Definition tail_ok (after : cstring) : Prop := after = [] ∨ ∃ a, after = SLASH :: a.

Lemma span_comp_spec p : let '(a, b) := span_comp p in p = a ++ b ∧ SLASH ∉ a ∧ tail_ok b.
Proof.
  induction p as [|c p IH]; cbn; [split_and!; [done|apply not_elem_of_nil|by left]|].
  destruct (is_slash c) eqn:Hc.
  - apply is_slash_true in Hc as ->. split_and!; [done|apply not_elem_of_nil|right; by eexists].
  - apply is_slash_false in Hc. destruct (span_comp p) as [a b], IH as (-> & Ha & Hb).
    split_and!; [done|by apply not_elem_of_cons|done].
Qed.
Lemma span_slashes_spec p : let '(a, b) := span_slashes p in p = a ++ b ∧ Forall (eq SLASH) a ∧ head b ≠ Some SLASH.
Proof.
  induction p as [|c p IH]; cbn; [done|]. destruct (is_slash c) eqn:Hc.
  - apply is_slash_true in Hc as ->. destruct (span_slashes p) as [a b], IH as (-> & Ha & Hb). split_and!; [done|by constructor|done].
  - apply is_slash_false in Hc. split_and!; [done|constructor|cbn; congruence].
Qed.

Lemma scan_app stop a c b : Forall (λ x, stop x = false) a → stop c = true → scan stop (a ++ c :: b) = Some (Z.of_nat (length a)).
Proof.
  intros Ha Hc. induction Ha as [|x a Hx _ IH]; cbn; [by rewrite Hc|]. rewrite Hx, IH. cbn. f_equal. lia.
Qed.

(** A buffer of [PATH_MAX] characters that starts with the string [s]. *)
Definition holds (b : list ascii) (s : cstring) : Prop := Z.of_nat (length b) = PATH_MAX ∧ NUL ∉ s ∧ ∃ t, b = s ++ NUL :: t.

Lemma holds_length b s : holds b s → Z.of_nat (length s) < PATH_MAX.
Proof. intros (Hl & _ & t & ->). rewrite length_app in Hl. cbn in Hl. lia. Qed.

Lemma no_nul s : NUL ∉ s → Forall (λ c, is_nul c = false) s.
Proof. intros Hs. apply Forall_forall. intros c Hc. apply is_nul_false. by intros ->. Qed.

Lemma drop_at {A} (a b : list A) : drop (Z.to_nat (Z.of_nat (length a))) (a ++ b) = b.
Proof. by rewrite Nat2Z.id, drop_app_length. Qed.

Section buf_runs.
Context {S : Type}.
Implicit Types (s : S) (b : list ascii).

Lemma string_run b p s : holds b p → buf_string b s = Ok p s.
Proof.
  intros (Hl & Hp & t & ->). unfold buf_string. erewrite bind_run.
  2: { unfold buf_strlen, buf_scan. change (Z.to_nat 0) with 0%nat. rewrite drop_0, (scan_app is_nul p NUL t) by (by auto using no_nul). done. }
  by rewrite Nat2Z.id, take_app_length.
Qed.

(** The first character behind [d]. *)
Lemma get_run b d r i s : holds b (d ++ r) → i = Z.of_nat (length d) → buf_get b i s = Ok (default NUL (head r)) s.
Proof.
  intros (Hl & Hp & t & ->) ->. unfold buf_get. rewrite Nat2Z.id, <-app_assoc, lookup_app_r, Nat.sub_diag by lia.
  by destruct r.
Qed.

(** Slashes and components. *)
Lemma strspn_run b d r i s : holds b (d ++ r) → i = Z.of_nat (length d) →
  buf_strspn b i s = Ok (Z.of_nat (length (span_slashes r).1)) s.
Proof.
  intros (Hl & Hp & t & ->) ->. pose proof (span_slashes_spec r) as Hr. destruct (span_slashes r) as [a q], Hr as (-> & Ha & Hq). cbn [fst].
  unfold buf_strspn, buf_scan. rewrite <-!app_assoc, drop_at.
  assert (∃ c u, q ++ NUL :: t = c :: u ∧ c ≠ SLASH) as (c & u & -> & Hc).
  { destruct q as [|c q]; [by exists NUL, t|]. exists c, (q ++ NUL :: t). split; [done|]. intros ->. done. }
  rewrite scan_app; [done| |by apply negb_true_iff, is_slash_false].
  eapply Forall_impl; [exact Ha|]. intros x <-. done.
Qed.
Lemma comp_run b d comp after i s : holds b (d ++ comp ++ after) → SLASH ∉ comp → tail_ok after → i = Z.of_nat (length d) →
  buf_scan (λ c, is_nul c || is_slash c) b i s = Ok (Z.of_nat (length comp)) s.
Proof.
  intros (Hl & Hp & t & ->) Hs Ha ->. unfold buf_scan. rewrite <-!app_assoc, drop_at.
  assert (∃ c u, after ++ NUL :: t = c :: u ∧ is_nul c || is_slash c = true) as (c & u & -> & Hc).
  { destruct Ha as [->|[a ->]]; [by exists NUL, t|by exists SLASH, (a ++ NUL :: t)]. }
  rewrite scan_app; [done| |done]. apply Forall_forall. intros x Hx. apply orb_false_iff. split.
  - apply is_nul_false. intros ->. apply Hp. rewrite !elem_of_app. auto.
  - apply is_slash_false. by intros ->.
Qed.

Lemma set_run b i c s : i < Z.of_nat (length b) → buf_set b i c s = Ok (<[Z.to_nat i := c]> b) s.
Proof. intros Hi. unfold buf_set. by rewrite (proj2 (Z.ltb_lt _ _) Hi). Qed.
End buf_runs.

(** The path cut behind a component, and the slash put back. *)
Lemma holds_cut b d comp after : holds b (d ++ comp ++ after) → holds (<[(length d + length comp)%nat := NUL]> b) (d ++ comp).
Proof.
  intros (Hl & Hp & t & ->). split; [by rewrite length_insert|]. split; [set_solver|].
  rewrite app_assoc, <-!app_assoc, app_assoc, <-length_app, insert_app_r_alt, Nat.sub_diag by lia. destruct after as [|c a]; cbn; eauto.
Qed.
Lemma cut_restored b d comp a : holds b (d ++ comp ++ SLASH :: a) →
  <[(length d + length comp)%nat := SLASH]> (<[(length d + length comp)%nat := NUL]> b) = b.
Proof.
  intros (_ & _ & t & ->). rewrite list_insert_insert_eq. apply list_insert_id.
  replace ((d ++ comp ++ SLASH :: a) ++ NUL :: t) with ((d ++ comp) ++ SLASH :: a ++ NUL :: t) by (by rewrite <-!app_assoc).
  rewrite <-length_app, lookup_app_r, Nat.sub_diag by lia. done.
Qed.
Lemma cut_last b d comp : holds b (d ++ comp) → <[(length d + length comp)%nat := NUL]> b = b.
Proof.
  intros (_ & _ & t & ->). apply list_insert_id. rewrite <-length_app, lookup_app_r, Nat.sub_diag by lia. done.
Qed.

(** ** Moving strings in a buffer *)

Lemma splice_app x y z src n : (length y = n)%nat → splice (Z.of_nat (length x)) src (Z.of_nat n) (x ++ y ++ z) = x ++ take n src ++ z.
Proof.
  intros <-. unfold splice. rewrite <-Nat2Z.inj_add, !Nat2Z.id, take_app_length, <-length_app, (app_assoc x y z), drop_app_length. done.
Qed.

(** [after] moved behind a prefix [d] and the link stored between them. *)
Lemma splice_link b d0 d link after t k :
  b = d ++ t → d0 = [] ∨ d0 = d → (length (d0 ++ link ++ after) < length b)%nat → (k + length after < length b)%nat →
  take (S (length after)) (drop k b) = after ++ [NUL] →
  ∃ u, splice (Z.of_nat (length d0)) link (Z.of_nat (length link))
         (splice (Z.of_nat (length d0) + Z.of_nat (length link)) (drop k b) (Z.of_nat (S (length after))) b) =
       (d0 ++ link ++ after) ++ NUL :: u ∧ length ((d0 ++ link ++ after) ++ NUL :: u) = length b.
Proof.
  intros Hb Hd Hlen Hk Htake. rewrite !length_app in Hlen.
  set (n := (length d0 + length link)%nat). set (u := drop (n + S (length after)) b).
  assert (Hin : splice (Z.of_nat (length d0) + Z.of_nat (length link)) (drop k b) (Z.of_nat (S (length after))) b = take n b ++ (after ++ [NUL]) ++ u).
  { unfold splice. rewrite <-Nat2Z.inj_add, <-Nat2Z.inj_add, !Nat2Z.id, Htake. done. }
  assert (Hd0 : take (length d0) b = d0) by (destruct Hd as [->| ->]; [done|by rewrite Hb, take_app_length]).
  assert (Hn : take n b = d0 ++ take (length link) (drop (length d0) b)).
  { unfold n. rewrite <-take_take_drop, Hd0. done. }
  exists u. rewrite Hin, Hn. split.
  - rewrite <-app_assoc, splice_app; [by rewrite firstn_all, <-!app_assoc|]. rewrite length_take, length_drop. lia.
  - rewrite !length_app. cbn [length]. unfold u. rewrite length_drop. unfold n. lia.
Qed.

(** ** The laws of the environment *)

Definition link_ok (link : cstring) : Prop := link ≠ [] ∧ NUL ∉ link ∧ Z.of_nat (length link) < PATH_MAX.

(** Paths of mount points are strings; a symbolic link that can be read is not empty and fits the buffer; ".." is not a
    symbolic link; capabilities can be asked for, and pools are not in use by
    another process; what is asked closes no descriptor. *)
Class PathEnvOk `{PE : PathEnv} {EO : VfdEnvOk} : Prop := {
  pools_path_ok m : m ∈ pools → NUL ∉ mp_path m;
  sys_readlinkat_ok fd path n w : 0 ≤ (sys_readlinkat fd path n w).1.1 → link_ok (sys_readlinkat fd path n w).1.2;
  pm_readlinkat_ok p d path n w : 0 ≤ (pm_readlinkat p d path n w).1.1 → link_ok (pm_readlinkat p d path n w).1.2;
  sys_dotdot_ok fd w : S_ISLNK (st_mode (sys_newfstatat fd (cstr "..") AT_SYMLINK_NOFOLLOW w).1.2) = false;
  sys_cap_ok c w : 0 ≤ (sys_call K_cap_get_proc w).1 ∧ 0 ≤ (sys_call (K_cap_get_flag c) w).1;
  pm_pool_open_ok p w : (pm_pool_open p w).1 ≠ - EAGAIN;
  sys_call_opens c w : w_open w ⊆ w_open (sys_call c w).2;
  sys_getgroups_opens n w : w_open w ⊆ w_open (sys_getgroups n w).2;
  sys_newfstatat_opens fd path f w : w_open w ⊆ w_open (sys_newfstatat fd path f w).2;
  sys_readlinkat_opens fd path n w : w_open w ⊆ w_open (sys_readlinkat fd path n w).2;
  pm_call_opens p c w : w_open w ⊆ w_open (pm_call p c w).2;
  pm_pool_open_opens p w : w_open w ⊆ w_open (pm_pool_open p w).2;
  pm_fstatat_opens p d path f w : w_open w ⊆ w_open (pm_fstatat p d path f w).2;
  pm_readlinkat_opens p d path n w : w_open w ⊆ w_open (pm_readlinkat p d path n w).2;
  sys_getcwd_opens n w : w_open w ⊆ w_open (sys_getcwd n w).2;
  pm_getcwd_opens p n w : w_open w ⊆ w_open (pm_getcwd p n w).2;
}.

(** ** The parts of a round *)

Section rounds.
Context `{E : VfdEnv} {PE : PathEnv} {EO : VfdEnvOk} {PO : PathEnvOk}.
Implicit Types (s : hook_state) (rp : resolved_path) (c : cursor).

(** [rp] names its path from where [c] does. *)
Definition at_cursor c rp : Prop := rp_at_kernel rp = cu_kernel c ∧ rp_at_pool rp = cu_pool c ∧ rp_at_dir rp = cu_dir c.

Lemma get_stat_run c rp path s r st s' : at_cursor c rp → holds (rp_path rp) path → stat_at c path s = Ok (r, st) s' →
  get_stat rp s = Ok (if r =? 0 then (0, st, rp) else (-1, st, set_rp_error r rp)) s'.
Proof.
  intros (Hk & Hp & Hd) Hh. unfold get_stat, stat_at. rewrite (bind_run _ _ _ _ _ (string_run _ _ _ Hh)), Hk, Hp, Hd.
  destruct (cu_pool c) as [p|].
  - intros (u & s1 & H1 & ([r1 st1] & s2 & H2 & (v & s3 & H3 & [= -> -> ->])%bind_ok)%bind_ok)%bind_ok. destruct u, v.
    rewrite (bind_run _ _ _ _ _ H1), (bind_run _ _ _ _ _ H2), (bind_run _ _ _ _ _ H3). done.
  - intros H. by rewrite (bind_run _ _ _ _ _ H).
Qed.

Lemma read_link_run c rp path s l s' : at_cursor c rp → holds (rp_path rp) path → link_at c path s = Ok l s' → read_link rp s = Ok l s'.
Proof.
  intros (Hk & Hp & Hd) Hh. unfold read_link, link_at. by rewrite (bind_run _ _ _ _ _ (string_run _ _ _ Hh)), Hk, Hp, Hd.
Qed.

(** What [link_at] returns. *)
Lemma hcall_ok {A} (f : world → A * world) s a s' : hcall f s = Ok a s' → a = (f (vs_world (hs_vfd s))).1.
Proof. unfold hcall, on_vfd, zoom, call. destruct (f _). by intros [= <- _]. Qed.
Lemma pcall_ok {A} p (f : world → A * world) s a s' : pcall p f s = Ok a s' → ∃ w, a = (f w).1.
Proof.
  unfold pcall. intros (sw & s1 & _ & (d & s2 & _ & H)%bind_ok)%bind_ok. destruct (sw && _); [done|]. eexists. by apply hcall_ok in H.
Qed.
Lemma link_at_ok c path s l s' : link_at c path s = Ok l s' → match l with inl e => e ≠ 0 | inr link => link_ok link end.
Proof.
  unfold link_at. destruct (cu_pool c) as [p|].
  - intros (u & s1 & _ & ([n link] & s2 & (w & Hw)%pcall_ok & (v & s3 & _ & [= <- _])%bind_ok)%bind_ok)%bind_ok.
    destruct (Z.ltb_spec n 0); [lia|]. pose proof (pm_readlinkat_ok p (cu_dir c) path (PATH_MAX - 1) w) as Hl. rewrite <-Hw in Hl. by apply Hl.
  - intros ([n link] & s1 & Hw%hcall_ok & [= <- _])%bind_ok. destruct (Z.ltb_spec n 0); [lia|].
    pose proof (sys_readlinkat_ok (cu_kernel c) path (PATH_MAX - 1) (vs_world (hs_vfd s))) as Hl. rewrite <-Hw in Hl. by apply Hl.
Qed.

(** The slash behind a component that is not the last is put back. *)
Definition restored (b : list ascii) (after : cstring) (end_ : Z) : M hook_state (list ascii) :=
  if negb (bool_decide (after = [])) then buf_set b end_ SLASH else mret b.
Lemma restored_run b d comp after s : holds b (d ++ comp ++ after) → tail_ok after →
  restored (<[(length d + length comp)%nat := NUL]> b) after (Z.of_nat (length d + length comp)) s = Ok b s.
Proof.
  intros Hh Ha. pose proof (holds_length _ _ Hh) as Hl. destruct Hh as (Hb & Hrest). unfold restored.
  destruct Ha as [->|[a ->]].
  - rewrite bool_decide_true by done. cbn [negb]. rewrite app_nil_r in *. by rewrite cut_last.
  - rewrite bool_decide_false by done. cbn [negb]. rewrite set_run by (rewrite length_insert; rewrite !length_app in Hl; lia).
    rewrite Nat2Z.id. by rewrite (cut_restored b d comp a).
Qed.

Lemma last_char after : tail_ok after → is_nul (default NUL (head after)) = bool_decide (after = []).
Proof. by intros [->|[a ->]]. Qed.

(** The cursor behind a link, before its leading slashes are skipped. *)
Definition link_done c (link : cstring) : cstring := if is_slash (char_at link 0) then [] else cu_done c.
Definition link_cursor c (link : cstring) : cursor :=
  if is_slash (char_at link 0) then Cursor (cu_kernel c) None (cu_dir c) [] [] else c.

Lemma holds_at b d comp after : holds b (d ++ comp ++ after) →
  take (S (length after)) (drop (length d + length comp) b) = after ++ [NUL] ∧ (length d + length comp + length after < length b)%nat.
Proof.
  intros (_ & _ & t & ->). replace ((d ++ comp ++ after) ++ NUL :: t) with ((d ++ comp) ++ (after ++ [NUL]) ++ t) by (by rewrite <-!app_assoc).
  rewrite <-length_app, drop_app_length. split.
  - replace (S (length after)) with (length (after ++ [NUL])) by (rewrite length_app; cbn; lia). by rewrite take_app_length.
  - rewrite !length_app. cbn. lia.
Qed.

Lemma link_stored b d comp after c link s : holds b (d ++ comp ++ after) → cu_done c = d → link_ok link →
  Z.of_nat (length (link_done c link ++ link ++ after)) + 1 < PATH_MAX →
  ∃ b1 b2, let d0 := Z.of_nat (length (link_done c link)) in
    buf_move b (d0 + Z.of_nat (length link)) (Z.of_nat (length d + length comp)) (Z.of_nat (S (length after))) s = Ok b1 s ∧
    buf_copy b1 d0 link (Z.of_nat (length link)) s = Ok b2 s ∧ holds b2 (link_done c link ++ link ++ after).
Proof.
  intros Hh Hd (_ & Hnul & _) Hfit. destruct (holds_at _ _ _ _ Hh) as [Htake Hlt]. pose proof Hh as (Hb & Hs & t & Ht).
  assert (Hd0 : link_done c link = [] ∨ link_done c link = d) by (unfold link_done; destruct (is_slash _); auto).
  rewrite !length_app in Hfit. destruct (splice_link b (link_done c link) d link after ((comp ++ after) ++ NUL :: t) (length d + length comp)) as (u & Hu & Hul);
    [by rewrite Ht, <-app_assoc|done|rewrite !length_app; lia|lia|done|].
  eexists _, _. cbn zeta. split; [|split].
  - unfold buf_move. rewrite (proj2 (andb_true_iff _ _)) by (split; apply Z.leb_le; lia). rewrite Nat2Z.id. reflexivity.
  - unfold buf_copy. rewrite (proj2 (andb_true_iff _ _)) by (split; apply Z.leb_le; [|lia]; unfold splice; rewrite !length_app, !length_take, length_drop, length_drop; lia).
    reflexivity.
  - rewrite Hu. split; [rewrite Hul; done|]. split; [|by eexists].
    rewrite !not_elem_of_app in Hs |- *. split_and!; [destruct Hd0 as [->| ->]; [apply not_elem_of_nil|tauto]|done|tauto].
Qed.

Lemma symlink_run c rp d comp after s l s' :
  at_cursor c rp → rp_error rp = 0 → cu_done c = d → holds (rp_path rp) (d ++ comp ++ after) → tail_ok after → link_at c (d ++ comp) s = Ok l s' →
  ∃ rp' d' size', let size := Z.of_nat (length (d ++ comp ++ after)) in
    resolve_symlink rp (Z.of_nat (length d)) (Z.of_nat (length d + length comp)) size (bool_decide (after = [])) s = Ok (rp', Z.of_nat (length d'), size') s' ∧
    match l with
    | inl e => rp_error rp' = e ∧ d' = d ∧ size' = size ∧ holds (rp_path rp') (d ++ comp)
    | inr link =>
        if PATH_MAX <=? Z.of_nat (length (link_done c link ++ link ++ after)) + 1 then
          rp_error rp' = - ENOMEM ∧ d' = d ∧ size' = size ∧ holds (rp_path rp') (d ++ comp ++ after)
        else rp_error rp' = 0 ∧ d' = link_done c link ∧ size' = Z.of_nat (length (link_done c link ++ link ++ after)) ∧
             holds (rp_path rp') (link_done c link ++ link ++ after) ∧ at_cursor (link_cursor c link) rp'
    end.
Proof.
  intros Hat He Hd Hh Ha Hl. pose proof (link_at_ok _ _ _ _ _ Hl) as Hlink. pose proof (holds_cut _ _ _ _ Hh) as Hcut.
  pose proof (holds_length _ _ Hh) as Hlen. pose proof Hh as (Hb & _). rewrite !length_app in *.
  unfold resolve_symlink. erewrite bind_run by (apply set_run; lia). rewrite Nat2Z.id.
  rewrite (bind_run _ _ _ _ _ (read_link_run c (set_rp_path _ rp) _ _ _ _ Hat Hcut Hl)).
  destruct l as [e|link]; [by eexists _, d, _|].
  rewrite (bind_run _ _ _ _ _ (restored_run (rp_path rp) d comp after s' Hh Ha)). destruct Hlink as (Hne & Hnul & Hmax).
  assert (Hpos : (0 < length link)%nat) by (destruct link; [done|cbn; lia]).
  rewrite (proj2 (Z.ltb_lt _ _) Hmax), (proj2 (Z.ltb_lt 0 (Z.of_nat (length link)))) by lia.
  rewrite !(bind_run (assert_ true) _ _ tt s') by done. cbn [rp_path set_rp_path].
  set (d0 := link_done c link).
  assert (Hd0 : (if is_slash (char_at link 0) then 0 else Z.of_nat (length d)) = Z.of_nat (length d0)) by (unfold d0, link_done; rewrite Hd; by destruct (is_slash _)).
  rewrite !Hd0. assert (Hdle : (length d0 ≤ length d)%nat) by (unfold d0, link_done; rewrite Hd; destruct (is_slash _); cbn; lia).
  replace (u64 (Z.of_nat (length d + (length comp + length after)) - Z.of_nat (length d + length comp) + 1)) with (Z.of_nat (S (length after)))
    by (unfold u64, PATH_MAX in *; rewrite Z.mod_small; lia).
  replace (u64 (Z.of_nat (length d0) + Z.of_nat (length link) + Z.of_nat (S (length after)))) with (Z.of_nat (length d0 + (length link + length after)) + 1)
    by (unfold u64, PATH_MAX in *; rewrite Z.mod_small; lia).
  destruct (Z.leb_spec PATH_MAX (Z.of_nat (length d0 + (length link + length after)) + 1)) as [Hbig|Hfit].
  { eexists _, d, _. split; [reflexivity|]. rewrite !length_app, (proj2 (Z.leb_le _ _) Hbig). done. }
  destruct (link_stored (rp_path rp) d comp after c link s') as (b1 & b2 & H1 & H2 & H3); [done|done|done|rewrite !length_app; fold d0; lia|].
  fold d0 in H1, H2, H3. rewrite (bind_run _ _ _ _ _ H1), (bind_run _ _ _ _ _ H2). eexists _, d0, _. split; [reflexivity|].
  destruct Hat as (Hk & Hp & Hdd). rewrite !length_app, (proj2 (Z.leb_gt _ _) Hfit).
  split; [by destruct (is_slash _)|]. split; [done|]. split; [unfold u64, PATH_MAX in *; rewrite Z.mod_small; lia|].
  split; [by destruct (is_slash _)|]. unfold link_cursor. by destruct (is_slash _).
Qed.

Lemma insert_mid {A} (a b : list A) x y : <[length a := x]> (a ++ y :: b) = a ++ x :: b.
Proof. by rewrite insert_app_r_alt, Nat.sub_diag by lia. Qed.

(** The path that is left inside a pool. *)
Definition inner_path (after : cstring) : cstring := if bool_decide (after = []) then [SLASH] else after.

Lemma enter_run c rp d comp after p s :
  at_cursor c rp → rp_error rp = 0 → holds (rp_path rp) (d ++ comp ++ after) → tail_ok after →
  ∃ rp', enter_pool rp p (Z.of_nat (length d + length comp)) (Z.of_nat (length (d ++ comp ++ after))) s = Ok (rp', Z.of_nat (length (inner_path after))) s ∧
    rp_error rp' = 0 ∧ at_cursor (Cursor (cu_kernel c) (Some p) None [] []) rp' ∧ holds (rp_path rp') (inner_path after).
Proof.
  intros (Hk & _ & _) He Hh Ha. destruct (holds_at _ _ _ _ Hh) as [Htake Hlt]. pose proof Hh as (Hb & Hs & _). set (b := rp_path rp) in *.
  pose proof (holds_length _ _ Hh) as Hl. rewrite !length_app in *. unfold enter_pool, buf_move. fold b.
  replace (u64 (Z.of_nat (length d + (length comp + length after)) - Z.of_nat (length d + length comp))) with (Z.of_nat (length after))
    by (unfold u64, PATH_MAX in *; rewrite Z.mod_small; lia).
  rewrite (proj2 (andb_true_iff _ _)) by (split; apply Z.leb_le; lia).
  assert (splice 0 (drop (Z.to_nat (Z.of_nat (length d + length comp))) b) (Z.of_nat (length after)) b = after ++ drop (length after) b) as ->.
  { unfold splice. rewrite Z.add_0_l, !Nat2Z.id. change (take (Z.to_nat 0) b) with (@nil ascii).
    apply (f_equal (take (length after))) in Htake. rewrite take_take, Nat.min_l, take_app_length in Htake by lia. by rewrite Htake. }
  rewrite (bind_run (mret _) _ s _ s) by done.
  assert (Hdrop : ∃ x u, drop (length after) b = x :: u ∧ (length after + S (length u) = length b)%nat).
  { destruct (drop (length after) b) as [|x u] eqn:Hu; apply (f_equal length) in Hu; rewrite length_drop in Hu; cbn in Hu; [lia|]. exists x, u. split; [done|lia]. }
  destruct Hdrop as (x & u & -> & Hlu). destruct Ha as [->|[a ->]].
  - cbn [app length] in *. erewrite bind_run by (apply set_run; cbn [length]; lia). change (<[Z.to_nat 0 := SLASH]> (x :: u)) with (SLASH :: u).
    change (Z.of_nat 0 =? 0) with true. cbv iota.
    destruct u as [|y u]; [unfold PATH_MAX in *; cbn in Hlu; lia|]. erewrite bind_run by (apply set_run; cbn [length]; lia).
    change (<[Z.to_nat 1 := NUL]> (SLASH :: y :: u)) with ([SLASH] ++ NUL :: u). eexists. split; [reflexivity|].
    cbn [set_rp_pool set_rp_path rp_error rp_path]. split; [done|]. split; [done|].
    split; [rewrite length_app; cbn [length] in *; lia|]. split; [set_solver|]. by exists u.
  - erewrite bind_run by (apply set_run; rewrite length_app; cbn [length]; lia). change (<[Z.to_nat 0 := SLASH]> ((SLASH :: a) ++ x :: u)) with (SLASH :: a ++ x :: u).
    rewrite (proj2 (Z.eqb_neq _ 0)) by (cbn [length]; lia). erewrite bind_run by (apply set_run; cbn [length]; rewrite length_app; cbn [length] in *; lia).
    eexists. split; [reflexivity|]. cbn [set_rp_pool set_rp_path rp_error rp_path]. split; [done|]. split; [done|].
    change (SLASH :: a ++ x :: u) with ((SLASH :: a) ++ x :: u). rewrite Nat2Z.id, insert_mid. split; [rewrite length_app; cbn [length] in *; lia|].
    split; [set_solver|]. by exists u.
Qed.

Lemma exit_run c rp d rest p m s :
  at_cursor c rp → rp_error rp = 0 → cu_pool c = Some p → pool_mount p = Some m → holds (rp_path rp) (d ++ rest) →
  ∃ rp', exit_pool rp (Z.of_nat (length d)) (Z.of_nat (length (d ++ rest))) s = Ok (rp', Z.of_nat (length rest)) s ∧
    rp_error rp' = 0 ∧ at_cursor (Cursor (mp_fd m) None (cu_dir c) [] []) rp' ∧ holds (rp_path rp') rest.
Proof.
  intros (Hk & Hp & Hd) He Hcp Hm Hh. pose proof (holds_at (rp_path rp) d [] rest Hh) as [Htake Hlt]. pose proof Hh as (Hb & Hs & _).
  pose proof (holds_length _ _ Hh) as Hl. unfold exit_pool. rewrite Hp, Hcp. rewrite (bind_run (of_option _ (Some p)) _ s p s) by done.
  rewrite Hm, (bind_run (of_option _ (Some m)) _ s m s) by done. set (b := rp_path rp) in *. rewrite !length_app in *. cbn [length] in *.
  unfold buf_move. replace (u64 (Z.of_nat (length d + length rest) - Z.of_nat (length d) + 1)) with (Z.of_nat (S (length rest)))
    by (unfold u64, PATH_MAX in *; rewrite Z.mod_small; lia).
  replace (u64 (Z.of_nat (length d + length rest) - Z.of_nat (length d))) with (Z.of_nat (length rest)) by (unfold u64, PATH_MAX in *; rewrite Z.mod_small; lia).
  rewrite (proj2 (andb_true_iff _ _)) by (split; apply Z.leb_le; lia). rewrite (bind_run (mret _) _ s _ s) by done.
  eexists. split; [reflexivity|]. cbn [set_rp_kernel set_rp_path rp_error rp_path]. split; [done|]. split; [by split_and!|].
  assert (splice 0 (drop (Z.to_nat (Z.of_nat (length d))) b) (Z.of_nat (S (length rest))) b = rest ++ NUL :: drop (S (length rest)) b) as ->.
  { unfold splice. rewrite Z.add_0_l, !Nat2Z.id. rewrite Nat.add_0_r in Htake. rewrite Htake. by rewrite <-app_assoc. }
  split; [rewrite length_app; cbn [length]; rewrite length_drop; lia|]. split; [set_solver|]. by eexists.
Qed.

(** ** The walk and the loop *)

(** The code stands at the second character of the ".." that left a pool. *)
Definition left_pool c (at_root : bool) (resolved : Z) : Prop :=
  at_root = false ∧ resolved = 1 ∧ cu_pool c = None ∧ cu_done c = [] ∧ ∃ after, cu_rest c = cstr ".." ++ after ∧ tail_ok after.

Record sim (lim : Z) (at_root : bool) c rp (resolved size : Z) : Prop := {
  sm_error : rp_error rp = 0;
  sm_at : at_cursor c rp;
  sm_holds : holds (rp_path rp) (cu_done c ++ cu_rest c);
  sm_size : size = Z.of_nat (length (cu_done c ++ cu_rest c));
  sm_lim : 1 ≤ size ≤ lim;
  sm_head : head (cu_rest c) ≠ Some SLASH;
  sm_pos : resolved = Z.of_nat (length (cu_done c)) ∨ left_pool c at_root resolved;
}.

Definition ended (lim : Z) (w : walked) (o : loop_end) : Prop :=
  let '(go_on, rp, size, lp) := o in
  match w with
  | WError e => rp_error rp = e ∧ e ≠ 0 ∧ (go_on = true → Z.of_nat (length (rp_path rp)) = PATH_MAX ∧ 1 ≤ size ≤ lim)
  | WDone c last => go_on = true ∧ lp = last ∧ rp_error rp = 0 ∧ at_cursor c rp ∧ holds (rp_path rp) (cu_done c ++ cu_rest c) ∧
      size = Z.of_nat (length (cu_done c ++ cu_rest c)) ∧ 1 ≤ size ≤ lim
  | WStray => True
  end.

(** The start of a round. *)
Lemma round_start lim at_root c rp resolved size comp after s :
  sim lim at_root c rp resolved size → cu_rest c ≠ [] → span_comp (cu_rest c) = (comp, after) →
  holds (rp_path rp) (cu_done c ++ comp ++ after) ∧ tail_ok after ∧ SLASH ∉ comp ∧
  (∃ ch, buf_get (rp_path rp) resolved s = Ok ch s ∧ is_nul ch = false) ∧
  ∃ n, buf_scan (λ ch, is_nul ch || is_slash ch) (rp_path rp) resolved s = Ok n s ∧ resolved + n = Z.of_nat (length (cu_done c) + length comp).
Proof.
  intros [He Hat Hh Hsz Hlim Hhd Hpos] Hne Hsp. pose proof (span_comp_spec (cu_rest c)) as Hc. rewrite Hsp in Hc. destruct Hc as (Hr & Hs & Ha).
  rewrite Hr in Hh. split_and!; [done|done|done|..].
  - destruct Hpos as [->|(_ & -> & _ & Hd & a & Hd2 & _)].
    + eexists. split; [by eapply get_run|]. destruct comp as [|ch comp]; cbn.
      * rewrite Hr in Hhd, Hne. destruct Ha as [->|[a ->]]; done.
      * apply is_nul_false. intros ->. destruct Hh as (_ & Hn & _). set_solver.
    + exists "."%char. rewrite Hd, <-Hr, Hd2 in Hh. split; [|done]. by eapply (get_run _ ["."%char] ("."%char :: a)).
  - destruct Hpos as [->|(_ & -> & _ & Hd & a & Hd2 & Ha2)].
    + exists (Z.of_nat (length comp)). split; [by eapply comp_run|lia].
    + assert (comp = cstr ".." ∧ after = a) as [-> ->].
      { rewrite Hd2 in Hsp. destruct Ha2 as [->|[b ->]]; by injection Hsp as <- <-. }
      exists 1. rewrite Hd in *. split; [|done]. eapply (comp_run _ ["."%char] ["."%char] a); [done|set_solver|done|done].
Qed.

Lemma span_slashes_none p : head p ≠ Some SLASH → span_slashes p = ([], p).
Proof. destruct p as [|ch p]; [done|]. cbn. intros H. rewrite (proj2 (is_slash_false ch)); [done|congruence]. Qed.

(** The start of a path, behind [d]. *)
Lemma sim_from lim at_root c rp d r :
  rp_error rp = 0 → at_cursor c rp → holds (rp_path rp) (d ++ r) → 1 ≤ Z.of_nat (length (d ++ r)) ≤ lim →
  sim lim at_root (let '(a, q) := span_slashes r in set_cu (d ++ a) q c) rp (Z.of_nat (length d) + Z.of_nat (length (span_slashes r).1)) (Z.of_nat (length (d ++ r))).
Proof.
  intros He Hat Hh Hl. pose proof (span_slashes_spec r) as Hr. destruct (span_slashes r) as [a q], Hr as (-> & Ha & Hq). cbn.
  rewrite app_assoc in Hh, Hl |- *. split; cbn; try done. left. rewrite length_app. lia.
Qed.
Lemma sim_at_start lim at_root c rp p :
  rp_error rp = 0 → at_cursor c rp → holds (rp_path rp) p → 1 ≤ Z.of_nat (length p) ≤ lim →
  sim lim at_root (at_start c p) rp (0 + Z.of_nat (length (span_slashes p).1)) (Z.of_nat (length p)).
Proof. intros He Hat Hh Hl. exact (sim_from lim at_root c rp [] p He Hat Hh Hl). Qed.

(** The test for ".." *)
Lemma exit_test b d comp after : holds b (d ++ comp ++ after) →
  (u64 (Z.of_nat (length d + length comp) - Z.of_nat (length d)) =? 2) && bool_decide (take 2 (drop (Z.to_nat (Z.of_nat (length d))) b) = cstr "..") =
  bool_decide (comp = cstr "..").
Proof.
  intros Hh. pose proof (holds_length _ _ Hh) as Hl. rewrite !length_app in Hl. destruct Hh as (_ & _ & t & ->).
  replace (u64 _) with (Z.of_nat (length comp)) by (unfold u64, PATH_MAX in *; rewrite Z.mod_small; lia).
  rewrite <-!app_assoc, drop_at. destruct (Z.eqb_spec (Z.of_nat (length comp)) 2) as [H2|H2]; cbn [andb].
  - replace 2%nat with (length comp) by lia. by rewrite take_app_length.
  - symmetry. apply bool_decide_eq_false. by intros ->.
Qed.

Lemma rp_path_back b rp : set_rp_path (rp_path rp) (set_rp_path b rp) = rp.
Proof. by destruct rp. Qed.

(** Only ".." itself is named by it. *)
Lemma left_not_link c at_root resolved comp after s st s' :
  left_pool c at_root resolved → span_comp (cu_rest c) = (comp, after) → stat_at c (cu_done c ++ comp) s = Ok (0, st) s' → S_ISLNK (st_mode st) = false.
Proof.
  intros (_ & _ & Hp & Hd & a & Hr & Ha) Hsp. assert (comp = cstr "..") as ->.
  { rewrite Hr in Hsp. destruct Ha as [->|[b ->]]; by injection Hsp as <- <-. }
  unfold stat_at. rewrite Hp, Hd. intros Hs%hcall_ok. pose proof (sys_dotdot_ok (cu_kernel c) (vs_world (hs_vfd s))) as H. cbn [app] in Hs. by rewrite <-Hs in H.
Qed.

Section loop.
Variables (open_fuel : nat) (malloc_ok : bool) (flags : Z).
Notation resolve_loop := (resolve_loop open_fuel malloc_ok flags).
Notation walk := (walk open_fuel malloc_ok flags).

Lemma error_continue fuel rp d r size n root last s : rp_error rp ≠ 0 → holds (rp_path rp) (d ++ r) →
  (k ← buf_strspn (rp_path rp) (Z.of_nat (length d)); resolve_loop (S fuel) rp (Z.of_nat (length d) + k) size n root last) s = Ok (true, rp, size, last) s.
Proof.
  intros He Hh. rewrite (bind_run _ _ _ _ _ (strspn_run _ _ _ _ s Hh eq_refl)). cbn [PathResolve.resolve_loop].
  pose proof (span_slashes_spec r) as Hr. destruct (span_slashes r) as [a q], Hr as (-> & _ & _). rewrite app_assoc in Hh.
  erewrite bind_run by (eapply get_run; [exact Hh|cbn; rewrite length_app; lia]).
  rewrite (proj2 (Z.eqb_neq _ _) He), orb_true_r. done.
Qed.

Definition simulated fuel : Prop := ∀ lim c rp resolved size n root last s w s',
  PATH_MAX - 2 ≤ lim → sim lim root c rp resolved size → walk fuel c n root last s = Ok w s' → w ≠ WStray →
  ∃ o, resolve_loop (S fuel) rp resolved size n root last s = Ok o s' ∧ ended lim w o.

(** The next round behind [d]. *)
Lemma next_round fuel lim c rp d r n root last s w s' : simulated fuel →
  PATH_MAX - 2 ≤ lim → rp_error rp = 0 → at_cursor c rp → holds (rp_path rp) (d ++ r) → 1 ≤ Z.of_nat (length (d ++ r)) ≤ lim →
  walk fuel (let '(a, q) := span_slashes r in set_cu (d ++ a) q c) n root last s = Ok w s' → w ≠ WStray →
  ∃ o, (k ← buf_strspn (rp_path rp) (Z.of_nat (length d)); resolve_loop (S fuel) rp (Z.of_nat (length d) + k) (Z.of_nat (length (d ++ r))) n root last) s = Ok o s' ∧ ended lim w o.
Proof.
  intros IH Hlim He Hat Hh Hl Hw Hs. rewrite (bind_run _ _ _ _ _ (strspn_run _ _ _ _ s Hh eq_refl)).
  eapply IH; [done|by apply sim_from|done|done].
Qed.

Lemma link_round fuel lim c rp comp after n last s w s' : simulated fuel →
  PATH_MAX - 2 ≤ lim → rp_error rp = 0 → at_cursor c rp → holds (rp_path rp) (cu_done c ++ comp ++ after) → tail_ok after →
  1 ≤ Z.of_nat (length (cu_done c ++ comp ++ after)) ≤ lim →
  (link ← link_at c (cu_done c ++ comp);
   if 40 <? n + 1 then mret (WError (- ELOOP))
   else match link with
        | inl e => mret (WError e)
        | inr link => match follow c link after with inl w => mret w | inr c' => walk fuel c' (n + 1) false last end
        end) s = Ok w s' → w ≠ WStray →
  ∃ o, ('(result, resolved, size) ← resolve_symlink rp (Z.of_nat (length (cu_done c))) (Z.of_nat (length (cu_done c) + length comp))
            (Z.of_nat (length (cu_done c ++ comp ++ after))) (bool_decide (after = []));
        if 40 <? n + 1 then mret (true, set_rp_error (- ELOOP) result, size, last)
        else k ← buf_strspn (rp_path result) resolved; resolve_loop (S fuel) result (resolved + k) size (n + 1) false last) s = Ok o s' ∧ ended lim w o.
Proof.
  intros IH Hlim He Hat Hh Ha Hl (l & s1 & Hlink & Hw)%bind_ok Hs. pose proof (link_at_ok _ _ _ _ _ Hlink) as Hlok.
  destruct (symlink_run c rp _ comp after s l s1 Hat He eq_refl Hh Ha Hlink) as (rp' & d' & size' & Hrun & Hpost). cbn zeta in Hrun, Hpost.
  rewrite (bind_run _ _ _ _ _ Hrun). cbn iota. clear Hrun.
  assert (Hsize : 1 ≤ size' ≤ lim ∧ Z.of_nat (length (rp_path rp')) = PATH_MAX).
  { destruct l as [e|link]; [destruct Hpost as (_ & _ & -> & Hh'); split; [done|apply Hh']|].
    destruct (Z.leb_spec PATH_MAX (Z.of_nat (length (link_done c link ++ link ++ after)) + 1)) as [|Hfit].
    - destruct Hpost as (_ & _ & -> & Hh'). split; [done|apply Hh'].
    - destruct Hpost as (_ & _ & -> & Hh' & _). split; [|apply Hh']. destruct Hlok as (Hne & _). destruct link; [done|]. rewrite !length_app in *. cbn [length] in *. lia. }
  destruct (40 <? n + 1); [injection Hw as <- <-; eexists; split; [reflexivity|]; cbn; naive_solver|].
  destruct l as [e|link].
  - injection Hw as <- <-. destruct Hpost as (He' & -> & -> & Hh'). rewrite error_continue with (r := comp) by (done || by rewrite He').
    eexists. split; [reflexivity|]. cbn. naive_solver.
  - unfold follow in Hw. fold (link_done c link) in Hw.
    destruct (Z.leb_spec PATH_MAX (Z.of_nat (length (link_done c link ++ link ++ after)) + 1)) as [|Hfit].
    + injection Hw as <- <-. destruct Hpost as (He' & -> & -> & Hh'). rewrite error_continue with (r := comp ++ after) by (done || by rewrite He').
      eexists. split; [reflexivity|]. cbn. naive_solver.
    + destruct Hpost as (He' & -> & -> & Hh' & Hat'). destruct Hsize as [Hsize _]. eapply (next_round _ lim (link_cursor c link)); try done.
      rewrite <-Hw. unfold link_done, link_cursor, at_start. destruct (is_slash (char_at link 0)) eqn:Hsl; [done|].
      rewrite span_slashes_none; [by rewrite app_nil_r|]. destruct Hlok as (Hne & _). destruct link as [|ch link]; [done|].
      cbn in Hsl |- *. apply is_slash_false in Hsl. congruence.
Qed.

(** A directory that is not a mount point. *)
Lemma next_step fuel lim c rp comp after n root last s w s' : simulated fuel →
  PATH_MAX - 2 ≤ lim → rp_error rp = 0 → at_cursor c rp → holds (rp_path rp) (cu_done c ++ comp ++ after) → 1 ≤ Z.of_nat (length (cu_done c ++ comp ++ after)) ≤ lim →
  walk fuel (next c comp after) n root last s = Ok w s' → w ≠ WStray →
  ∃ o, (k ← buf_strspn (rp_path rp) (Z.of_nat (length (cu_done c) + length comp));
        k' ← buf_strspn (rp_path rp) (Z.of_nat (length (cu_done c) + length comp) + k);
        resolve_loop (S fuel) rp (Z.of_nat (length (cu_done c) + length comp) + k + k') (Z.of_nat (length (cu_done c ++ comp ++ after))) n root last) s = Ok o s' ∧ ended lim w o.
Proof.
  intros IH Hlim He Hat Hh Hl Hw Hs. unfold next in Hw. rewrite app_assoc in Hh, Hl |- *.
  rewrite (bind_run _ _ _ _ _ (strspn_run _ (cu_done c ++ comp) after _ s Hh ltac:(by rewrite length_app))).
  pose proof (span_slashes_spec after) as Hr. destruct (span_slashes after) as [a q], Hr as (-> & _ & Hq). cbn [fst].
  rewrite app_assoc in Hh, Hl |- *. rewrite (app_assoc (cu_done c)) in Hw. set (d := (cu_done c ++ comp) ++ a) in *.
  replace (Z.of_nat (length (cu_done c) + length comp) + Z.of_nat (length a)) with (Z.of_nat (length d)) by (unfold d; rewrite !length_app; lia).
  eapply next_round; try done. rewrite span_slashes_none by done. by rewrite app_nil_r.
Qed.

Lemma dir_round fuel lim c rp comp after n last st s w s' : simulated fuel →
  PATH_MAX - 2 ≤ lim → rp_error rp = 0 → at_cursor c rp → holds (rp_path rp) (cu_done c ++ comp ++ after) → tail_ok after →
  1 ≤ Z.of_nat (length (cu_done c ++ comp ++ after)) ≤ lim →
  (match cu_pool c with
   | None =>
       pool ← lookup_pd_by_inode open_fuel malloc_ok st;
       match pool with
       | Some m => roots ← gets hs_roots;
           if bool_decide (roots !! mp_pool m = None) then mret (WError (- EIO)) else walk fuel (into_pool (mp_pool m) c after) n true last
       | None => walk fuel (next c comp after) n false last
       end
   | Some p => rst ← pmem_stat p; walk fuel (next c comp after) n (same_inode st rst) last
   end) s = Ok w s' → w ≠ WStray →
  let end_ := Z.of_nat (length (cu_done c) + length comp) in let size := Z.of_nat (length (cu_done c ++ comp ++ after)) in
  let go root := k ← buf_strspn (rp_path rp) end_; k' ← buf_strspn (rp_path rp) (end_ + k); resolve_loop (S fuel) rp (end_ + k + k') size n root last in
  ∃ o, (match rp_at_pool rp with
        | None =>
            pool ← lookup_pd_by_inode open_fuel malloc_ok st;
            match pool with
            | Some m => roots ← gets hs_roots;
                if bool_decide (roots !! mp_pool m = None) then mret (false, set_rp_error (- EIO) rp, size, last)
                else '(result, size) ← enter_pool rp (mp_pool m) end_ size;
                     k ← buf_strspn (rp_path result) 1; resolve_loop (S fuel) result (1 + k) size n true last
            | None => go false
            end
        | Some p => rst ← pmem_stat p; go (same_inode st rst)
        end) s = Ok o s' ∧ ended lim w o.
Proof.
  intros IH Hlim He Hat Hh Ha Hl Hw Hs. cbn zeta. rewrite (proj1 (proj2 Hat)). destruct (cu_pool c) as [p|].
  - apply bind_ok in Hw as (rst & s1 & Hr & Hw). rewrite (bind_run _ _ _ _ _ Hr). by eapply next_step.
  - apply bind_ok in Hw as (pool & s1 & Hpool & Hw). rewrite (bind_run _ _ _ _ _ Hpool). destruct pool as [m|]; [|by eapply next_step].
    apply bind_ok in Hw as (roots & s2 & Hroots & Hw). rewrite (bind_run _ _ _ _ _ Hroots).
    destruct (bool_decide (roots !! mp_pool m = None)).
    { injection Hw as <- <-. eexists. split; [reflexivity|]. cbn. split_and!; [done|done|by intros]. }
    destruct (enter_run c rp (cu_done c) comp after (mp_pool m) s2) as (rp' & Hrun & He' & Hat' & Hh'); [done..|]. rewrite (bind_run _ _ _ _ _ Hrun). cbn iota.
    assert (Hin : ∃ q, inner_path after = [SLASH] ++ q).
    { unfold inner_path. destruct Ha as [->|[a ->]]; [by exists []|by exists a]. }
    unfold into_pool in Hw. fold (inner_path after) in Hw. destruct Hin as (q & Hq). rewrite Hq in Hh', Hw |- *.
    change 1 with (Z.of_nat (length [SLASH])) at 1 2. eapply next_round; try done.
    + destruct Ha as [->|[a ->]]; unfold inner_path in Hq; cbn in Hq; injection Hq as <-; [cbn; unfold PATH_MAX in *; lia|]. rewrite !length_app in Hl. cbn in *. lia.
    + unfold at_start in Hw. cbn [app span_slashes] in Hw. rewrite (proj2 (is_slash_true SLASH) eq_refl) in Hw. destruct (span_slashes q). done.
Qed.

Lemma exit_round fuel lim c rp after n p m s w s' : simulated fuel →
  PATH_MAX - 2 ≤ lim → rp_error rp = 0 → at_cursor c rp → holds (rp_path rp) (cu_done c ++ cstr ".." ++ after) → tail_ok after →
  1 ≤ Z.of_nat (length (cu_done c ++ cstr ".." ++ after)) ≤ lim → cu_pool c = Some p → pool_mount p = Some m → (length (cu_done c) ≤ 1)%nat →
  walk fuel (Cursor (mp_fd m) None (cu_dir c) [] (cstr ".." ++ after)) n false (Some p) s = Ok w s' → w ≠ WStray →
  ∃ o, ('(result, size) ← exit_pool rp (Z.of_nat (length (cu_done c))) (Z.of_nat (length (cu_done c ++ cstr ".." ++ after)));
        k ← buf_strspn (rp_path result) (Z.of_nat (length (cu_done c)));
        resolve_loop (S fuel) result (Z.of_nat (length (cu_done c)) + k) size n false (rp_at_pool rp)) s = Ok o s' ∧ ended lim w o.
Proof.
  intros IH Hlim He Hat Hh Ha Hl Hp Hm Hd Hw Hs. rewrite (proj1 (proj2 Hat)), Hp.
  destruct (exit_run c rp (cu_done c) (cstr ".." ++ after) p m s) as (rp' & Hrun & He' & Hat' & Hh'); [done..|]. rewrite (bind_run _ _ _ _ _ Hrun). cbn iota.
  assert (Hk : buf_strspn (rp_path rp') (Z.of_nat (length (cu_done c))) s = Ok 0 s).
  { destruct (cu_done c) as [|x [|y l]]; cbn in Hd; [|..|lia].
    - by erewrite (strspn_run _ [] (cstr ".." ++ after)).
    - by erewrite (strspn_run _ ["."%char] (["."%char] ++ after)). }
  rewrite (bind_run _ _ _ _ _ Hk), Z.add_0_r. eapply IH; [done| |done|done].
  split; cbn [cu_done cu_rest app]; try done.
  - rewrite !length_app in Hl. cbn in *. lia.
  - destruct (cu_done c) as [|x [|y l]]; cbn in Hd; [by left| |lia]. right. split_and!; try done. by exists after.
Qed.

Lemma loop_sim fuel : simulated fuel.
Proof.
  induction fuel as [|fuel IH]; intros lim c rp resolved size n root last s w s' Hlim Hsim Hw Hs; [done|]. cbn [PathRep.walk] in Hw.
  remember (S fuel) as fuel1 eqn:Hf. cbn [PathResolve.resolve_loop].
  destruct (decide (cu_rest c = [])) as [Hnil|Hne].
  { rewrite bool_decide_true in Hw by done. injection Hw as <- <-. destruct Hsim as [He Hat Hh Hsz Hl Hhd [->|(_ & _ & _ & _ & a & Hr & _)]]; [|by rewrite Hnil in Hr].
    erewrite bind_run by (eapply get_run; [exact Hh|done]). rewrite Hnil. eexists. split; [reflexivity|]. unfold ended. split_and!; first [done|lia]. }
  rewrite bool_decide_false in Hw by done. destruct (span_comp (cu_rest c)) as [comp after] eqn:Hsp.
  destruct (round_start _ _ _ _ _ _ _ _ s Hsim Hne Hsp) as (Hh & Ha & Hsl & (ch & Hch & Hnul) & k & Hk & Hend).
  pose proof (span_comp_spec (cu_rest c)) as Hr. rewrite Hsp in Hr. destruct Hr as (Hr & _ & _).
  pose proof Hsim as [He Hat _ Hsz Hl Hhd Hpos]. rewrite Hr in Hsz. pose proof (holds_length _ _ Hh) as Hlen. pose proof (holds_cut _ _ _ _ Hh) as Hcut.
  rewrite (bind_run _ _ _ _ _ Hch), Hnul, He. cbn [orb negb Z.eqb]. rewrite (bind_run _ _ _ _ _ Hk), Hend.
  erewrite bind_run by (eapply (get_run _ (cu_done c ++ comp) after); [by rewrite <-app_assoc|by rewrite length_app]). rewrite last_char by done.
  destruct (bool_decide (after = []) && _).
  { injection Hw as <- <-. eexists. split; [reflexivity|]. cbn. rewrite Hr. split_and!; first [done|lia|apply Hat]. }
  erewrite bind_run by (apply set_run; rewrite !length_app in Hlen; destruct Hh as [-> _]; lia). rewrite Nat2Z.id.
  apply bind_ok in Hw as ([r st] & s1 & Hst & Hw). rewrite (bind_run _ _ _ _ _ (get_stat_run c (set_rp_path _ rp) _ _ _ _ _ Hat Hcut Hst)).
  destruct (Z.eqb_spec r 0) as [->|Hr0]; cbn [negb Z.eqb] in Hw |- *.
  2: { injection Hw as <- <-. eexists. split; [reflexivity|]. cbn. split_and!; [done|done|]. intros _. split; [apply Hcut|done]. }
  cbn [rp_path set_rp_path]. rewrite (bind_run _ _ _ _ _ (restored_run (rp_path rp) (cu_done c) comp after s1 Hh Ha)).
  cbv beta zeta. cbn [rp_error rp_at_kernel rp_at_pool rp_at_dir rp_path set_rp_path]. rewrite !rp_path_back. rewrite Hsz in Hl |- *.
  assert (Htest : root && (u64 (Z.of_nat (length (cu_done c) + length comp) - resolved) =? 2) && bool_decide (take 2 (drop (Z.to_nat resolved) (rp_path rp)) = cstr "..")
                  = root && bool_decide (comp = cstr "..")).
  { destruct Hpos as [->|(-> & _)]; [|done]. by rewrite <-andb_assoc, (exit_test _ _ _ _ Hh). }
  rewrite Htest. clear Htest. destruct (root && bool_decide (comp = cstr "..")) eqn:Hexit.
  - apply andb_true_iff in Hexit as [-> ->%bool_decide_eq_true]. destruct Hpos as [->|(? & _)]; [|done]. destruct (cu_pool c) as [p|] eqn:Hp; [|by injection Hw as <- _].
    apply bind_ok in Hw as (m & s2 & Hm & Hw). destruct (pool_mount p) as [m'|] eqn:Hpm; [|done]. injection Hm as -> ->.
    destruct (Nat.ltb_spec 1 (length (cu_done c))); [by injection Hw as <- _|]. subst fuel1. rewrite Hr in Hw. by eapply exit_round.
  - destruct (S_ISLNK (st_mode st)) eqn:Hlnk.
    { destruct Hpos as [->|Hleft]; [|by rewrite (left_not_link _ _ _ _ _ _ _ _ Hleft Hsp Hst) in Hlnk]. subst fuel1. by eapply link_round. }
    destruct (negb (S_ISDIR (st_mode st))).
    { injection Hw as <- <-. eexists. split; [reflexivity|]. destruct Ha as [->|[a ->]]; cbn.
      - rewrite Hr. split_and!; first [done|lia|apply Hat].
      - split_and!; [done|done|]. intros _. split; [apply Hh|done]. }
    subst fuel1. by eapply dir_round.
Qed.
End loop.

(** ** Whole paths *)

Lemma strip_suffix p : ∃ z, p = z ++ strip p ∧ (is_slash (default NUL (head p)) = false → z = []).
Proof.
  induction p as [|x [|y p] IH]; [by exists []|by exists []|]. cbn [strip head]. destruct (is_slash x) eqn:Hx; [|by exists []].
  destruct IH as (z & Hz & _). exists (x :: z). cbn [app]. split; [by f_equal|]. cbn. congruence.
Qed.
Lemma strip_ne p : p ≠ [] → strip p ≠ [].
Proof. induction p as [|x [|y p] IH]; [done|done|]. intros _. cbn [strip]. destruct (is_slash x); [by apply IH|done]. Qed.

Lemma trim_prefix p : ∃ z, p = trim p ++ z ∧ (ends_in_slash p = false → z = []).
Proof.
  unfold trim, ends_in_slash. destruct (strip_suffix (reverse p)) as (z & Hz & Hn). exists (reverse z).
  rewrite <-reverse_app, <-Hz, reverse_involutive. split; [done|]. intros Hs. rewrite Hn; [done|]. rewrite head_reverse. done.
Qed.

Lemma strip_length p : (length (strip p) ≤ length p)%nat.
Proof. destruct (strip_suffix p) as (z & Hz & _). rewrite Hz at 2. rewrite length_app. lia. Qed.
Lemma trim_ne p : p ≠ [] → trim p ≠ [].
Proof.
  unfold trim. intros Hp Hs. apply (f_equal reverse) in Hs. rewrite reverse_involutive in Hs. apply strip_ne in Hs; [done|].
  intros Hr. apply Hp. by rewrite <-(reverse_involutive p), Hr.
Qed.
Lemma trim_shorter p : ends_in_slash p = true → (length (trim p) < length p ∨ length (trim p) ≤ 1)%nat.
Proof.
  unfold trim, ends_in_slash. rewrite <-head_reverse, length_reverse, <-(length_reverse p). destruct (reverse p) as [|x [|y q]]; [done|cbn; lia|].
  change (default NUL (head (x :: y :: q))) with x. intros Hx. change (strip (x :: y :: q)) with (if is_slash x then strip (y :: q) else x :: y :: q). rewrite Hx. pose proof (strip_length (y :: q)). change (length (x :: y :: q)) with (S (length (y :: q))). lia.
Qed.

Lemma trim_size_last b n x : (0 < n)%nat → b !! n = Some x → trim_size b (S n) = if is_slash x then trim_size b n else S n.
Proof. intros Hn Hx. destruct n; [lia|]. cbn [trim_size]. by rewrite (nth_lookup_Some _ _ _ _ Hx). Qed.
Lemma trim_size_spec p t : p ≠ [] → trim_size (p ++ t) (length p) = length (trim p).
Proof.
  unfold trim. rewrite length_reverse. revert t. induction p as [|x p IH] using rev_ind; [done|]. intros t _. rewrite reverse_snoc, length_app, Nat.add_1_r.
  destruct (decide (p = [])) as [->|Hp]; [done|]. rewrite <-app_assoc.
  erewrite trim_size_last; [|by destruct p; cbn; try lia|by rewrite lookup_app_r, Nat.sub_diag by lia].
  rewrite IH by done. cbn [strip]. rewrite <-(length_reverse p). destruct (reverse p) as [|y q] eqn:Hq; [|by destruct (is_slash x)].
  apply (f_equal reverse) in Hq. by rewrite reverse_involutive in Hq.
Qed.

(** The result names the path the walk ends with. *)
Definition agrees (w : walked) rp : Prop :=
  match w with
  | WError e => rp_error rp = e ∧ e ≠ 0
  | WDone c _ => rp_error rp = 0 ∧ at_cursor c rp ∧ holds (rp_path rp) (cu_done c ++ cu_rest c)
  | WStray => False
  end.

Lemma ends_in_slash_snoc p x : ends_in_slash (p ++ [x]) = is_slash x.
Proof. unfold ends_in_slash. by rewrite last_snoc. Qed.

(** The slash at the end is put back. *)
Definition with_slash (dir : bool) (p : cstring) : cstring := if dir && negb (ends_in_slash p) then p ++ [SLASH] else p.
Lemma last_run b p size (s : hook_state) : holds b p → size = Z.of_nat (length p) → 1 ≤ size →
  buf_get b (u64 (size - 1)) s = Ok (default NUL (last p)) s.
Proof.
  intros Hh -> Hl. pose proof (holds_length _ _ Hh) as Hm. destruct p as [|x p _] using rev_ind; [cbn in Hl; lia|]. rewrite last_snoc.
  rewrite length_app in *. cbn [length] in *. erewrite (get_run b p [x]); [done|done|]. unfold u64, PATH_MAX in *. rewrite Z.mod_small; lia.
Qed.
Lemma slash_run b p size (dir : bool) s : holds b p → size = Z.of_nat (length p) → size + (if dir then 1 else 0) < PATH_MAX →
  ∃ b', (if dir && negb (is_slash (default NUL (last p))) then b ← buf_set b size SLASH; buf_set b (size + 1) NUL else mret b) s = Ok b' s ∧
        holds b' (with_slash dir p).
Proof.
  intros Hh -> Hl. unfold with_slash, ends_in_slash. destruct (dir && _) eqn:Hd; [|by exists b].
  destruct dir; [|done]. destruct Hh as (Hb & Hn & t & ->). destruct t as [|x t]; [rewrite length_app in Hb; cbn in Hb; lia|].
  erewrite bind_run by (apply set_run; lia). rewrite set_run by (rewrite length_insert; lia). eexists. split; [done|].
  rewrite Nat2Z.id, insert_mid. replace (Z.to_nat (Z.of_nat (length p) + 1)) with (length (p ++ [SLASH])) by (rewrite length_app; cbn; lia).
  change (p ++ SLASH :: x :: t) with (p ++ [SLASH] ++ x :: t). rewrite app_assoc, insert_mid. split; [rewrite !length_app in *; cbn in *; lia|]. split; [set_solver|by exists t].
Qed.

(** The mount point stored before the path, a slash between them. *)
Lemma splice_mount b p mp t : b = p ++ NUL :: t → (length mp + length p + 2 ≤ length b)%nat →
  ∃ b1 u, splice (Z.of_nat (length mp) + 1) b (Z.of_nat (length p) + 1) b = b1 ∧ length b1 = length b ∧
    <[length mp := SLASH]> (splice 0 mp (Z.of_nat (length mp)) b1) = (mp ++ SLASH :: p) ++ NUL :: u ∧
    length ((mp ++ SLASH :: p) ++ NUL :: u) = length b.
Proof.
  intros Hb Hl. set (u := drop (length mp + 1 + length p + 1) b). set (y := take (length mp) b).
  assert (Hy : length y = length mp) by (unfold y; rewrite length_take; lia).
  assert (∃ z, take (length mp + 1) b = y ++ [z]) as [z Hz].
  { destruct (lookup_lt_is_Some_2 b (length mp)) as [z Hz]; [lia|]. exists z. rewrite Nat.add_1_r. by apply take_S_r. }
  assert (Hu : (length mp + 1 + length p + 1 + length u = length b)%nat) by (unfold u; rewrite length_drop; lia).
  exists (y ++ z :: p ++ NUL :: u), u. split_and!.
  - unfold splice. replace (Z.to_nat (Z.of_nat (length mp) + 1)) with (length mp + 1)%nat by lia. rewrite Hz.
    replace (Z.to_nat (Z.of_nat (length p) + 1)) with (length (p ++ [NUL])) by (rewrite length_app; cbn; lia).
    replace (Z.to_nat _) with (length mp + 1 + length p + 1)%nat by lia. fold u. rewrite Hb at 1.
    change (p ++ NUL :: t) with (p ++ [NUL] ++ t). rewrite (app_assoc p [NUL] t), take_app_length. by rewrite <-!app_assoc.
  - rewrite length_app. cbn [length]. rewrite length_app. cbn [length]. lia.
  - change 0 with (Z.of_nat (length (@nil ascii))). pose proof (splice_app [] y (z :: p ++ NUL :: u) mp (length mp) Hy) as Hs. cbn [app] in Hs. rewrite Hs.
    rewrite firstn_all, insert_mid. by rewrite <-app_assoc.
  - rewrite !length_app. cbn [length]. lia.
Qed.

Section whole.
Variables (open_fuel : nat) (malloc_ok : bool) (flags : Z).
Notation finish := (finish flags).
Notation prepend_mount_point := (prepend_mount_point flags).

Lemma pool_mount_in q m : pool_mount q = Some m → m ∈ pools ∧ mp_pool m = q.
Proof. unfold pool_mount. intros ([i m'] & (Hi & Hm & _)%list_find_Some & ->)%fmap_Some. split; [by eapply list_elem_of_lookup_2|done]. Qed.
Lemma pool_mount_path q m : pool_mount q = Some m → NUL ∉ mp_path m.
Proof. intros [Hm _]%pool_mount_in. by apply pools_path_ok. Qed.

Lemma finish_error dir e : finish dir (WError e) = mret (WError e).
Proof. done. Qed.

Lemma prepend_error rp last s : rp_error rp ≠ 0 → prepend_mount_point rp last s = Ok rp s.
Proof. intros He. unfold PathResolve.prepend_mount_point. rewrite (proj2 (Z.eqb_neq _ _) He). by destruct last. Qed.

Lemma prepend_run c rp last dir p s w s' :
  rp_error rp = 0 → at_cursor c rp → holds (rp_path rp) (with_slash dir (cu_done c ++ cu_rest c)) →
  finish dir (WDone c last) s = Ok w s' → p = with_slash dir (cu_done c ++ cu_rest c) →
  ∃ rp', prepend_mount_point rp last s = Ok rp' s' ∧ agrees w rp'.
Proof.
  intros He Hat Hh Hf Hp. unfold PathRep.finish in Hf. fold (with_slash dir (cu_done c ++ cu_rest c)) in Hf. rewrite <-Hp in *.
  unfold PathResolve.prepend_mount_point. rewrite He, (proj1 (proj2 Hat)). cbn [Z.eqb andb].
  destruct last as [q|]; [|injection Hf as <- <-; by eexists]. destruct (bool_decide (cu_pool c = None) && _); [|injection Hf as <- <-; by eexists].
  apply bind_ok in Hf as (m & s1 & Hq & Hf). destruct (pool_mount q) as [m'|] eqn:Hpm; [|done]. injection Hq as -> ->.
  rewrite (bind_run (of_option _ (Some m)) _ s1 m s1) by done. pose proof (pool_mount_path q m Hpm) as Hm. pose proof Hh as (Hb & Hn & t & Ht).
  erewrite bind_run.
  2: { unfold buf_strlen, buf_scan. rewrite Ht. change (Z.to_nat 0) with 0%nat. rewrite drop_0, (scan_app is_nul p NUL t) by (by auto using no_nul). done. }
  rewrite Nat2Z.inj_add in Hf. set (mp := mp_path m) in *.
  replace (Z.of_nat (length mp) + 1 + Z.of_nat (length p) + 1) with (Z.of_nat (length mp) + Z.of_nat (length p) + 2) by lia.
  destruct (Z.ltb_spec PATH_MAX (Z.of_nat (length mp) + Z.of_nat (length p) + 2)) as [|Hfit]; injection Hf as <- <-; [by eexists|].
  destruct (splice_mount (rp_path rp) p mp t Ht) as (b1 & u & H1 & Hl1 & H2 & Hl2); [lia|].
  unfold buf_move. rewrite (proj2 (andb_true_iff _ _)) by (split; apply Z.leb_le; lia). change (Z.to_nat 0) with 0%nat. rewrite drop_0, H1.
  rewrite (bind_run (mret b1) _ s1 b1 s1) by done. unfold buf_copy. rewrite (proj2 (andb_true_iff _ _)) by (split; apply Z.leb_le; lia).
  rewrite (bind_run (mret _) _ s1 _ s1) by done.
  assert (Hlen : Z.of_nat (length mp) < Z.of_nat (length (splice 0 mp (Z.of_nat (length mp)) b1))).
  { apply (f_equal length) in H2. rewrite length_insert in H2. clear -H2 Hl2 Hb Hfit. lia. }
  erewrite bind_run by (by apply set_run). rewrite Nat2Z.id, H2. eexists. split; [reflexivity|]. split; [done|]. split; [by destruct c|].
  split; [exact (eq_trans (f_equal Z.of_nat Hl2) Hb)|]. split; [cbn; set_solver|by exists u].
Qed.

(** [_resolve_path] computes what the walk does. *)
Lemma start_run rp s : Z.of_nat (length (rp_path rp)) = PATH_MAX →
  ∃ b, (b ← buf_set (rp_path rp) 0 "."%char; buf_set b 1 NUL) s = Ok b s ∧ holds b (cstr ".").
Proof.
  intros Hb. destruct (rp_path rp) as [|x [|y t]]; [cbn in Hb; unfold PATH_MAX in Hb; lia..|].
  erewrite bind_run by (apply set_run; cbn [length]; lia). rewrite set_run by (rewrite length_insert; cbn [length]; lia). eexists. split; [reflexivity|].
  split; [by rewrite !length_insert|]. split; [set_solver|]. by exists t.
Qed.

Lemma copy_run path b b' : NUL ∉ path → path ≠ [] → Z.of_nat (length b) = PATH_MAX → copy_path path b = (true, b') →
  let dir := is_slash (nth (length path - 1) b' NUL) in
  let size := Z.of_nat (if dir then trim_size b' (length path) else length path) in
  dir = ends_in_slash path ∧ size = Z.of_nat (length (trim path)) ∧ 1 ≤ size ∧ size + (if dir then 1 else 0) < PATH_MAX ∧ holds (<[Z.to_nat size := NUL]> b') (trim path).
Proof.
  intros Hn Hne Hb. unfold copy_path. destruct (Z.leb_spec PATH_MAX (Z.of_nat (length path))) as [|Hl]; [done|]. intros [= <-].
  set (t := drop (length path) b). assert (Hdir : is_slash (nth (length path - 1) (path ++ t) NUL) = ends_in_slash path).
  { clearbody t. destruct path as [|x q _] using rev_ind; [done|]. rewrite ends_in_slash_snoc, length_app, <-app_assoc. change (length [x]) with 1%nat.
    rewrite Nat.add_sub. change ([x] ++ t) with (x :: t). by rewrite nth_middle. }
  cbn zeta. rewrite Hdir. destruct (trim_prefix path) as (z & Hz & Hz0).
  assert (Hsize : (if ends_in_slash path then trim_size (path ++ t) (length path) else length path) = length (trim path)).
  { destruct (ends_in_slash path) eqn:Hs; [by apply trim_size_spec|]. rewrite Hz0, app_nil_r in Hz by done. by rewrite <-Hz. }
  rewrite Hsize. pose proof (trim_ne path Hne) as Hpos. split_and!; [done|done|destruct (trim path); [done|cbn; lia]|..].
  - destruct (ends_in_slash path) eqn:Hs; [pose proof (trim_shorter path Hs); unfold PATH_MAX in *; lia|rewrite Hz, length_app in Hl; lia].
  - split; [rewrite length_insert, length_app; unfold t; rewrite length_drop; lia|]. split; [rewrite Hz in Hn; set_solver|].
    assert (∃ x u, z ++ t = x :: u) as (x & u & Hu).
    { destruct (z ++ t) as [|x u] eqn:Hu; [|by eexists _, _]. apply app_nil in Hu as [_ Hu]. apply (f_equal length) in Hu. unfold t in Hu. rewrite length_drop in Hu. cbn in Hu. lia. }
    exists u. rewrite Nat2Z.id. rewrite Hz at 2. by rewrite <-app_assoc, Hu, insert_mid.
Qed.

(** What [_resolve_path] does behind the loop. *)
Definition behind (dir : bool) (o : loop_end) : M hook_state resolved_path :=
  let '(go_on, result, size, last_pool) := o in
  if negb go_on then mret result
  else
    c ← buf_get (rp_path result) (u64 (size - 1));
    b ← (if dir && negb (is_slash c) then b ← buf_set (rp_path result) size SLASH; buf_set b (size + 1) NUL else mret (rp_path result));
    prepend_mount_point (set_rp_path b result) last_pool.

Lemma behind_run dir lim o w w' s s' : PATH_MAX - 2 ≤ lim → lim + (if dir : bool then 1 else 0) < PATH_MAX → ended lim w o → w ≠ WStray →
  finish dir w s = Ok w' s' → ∃ rp', behind dir o s = Ok rp' s' ∧ agrees w' rp'.
Proof.
  destruct o as [[[go_on rp] size] last]. intros _ Hlim He Hs Hf. assert (lim < PATH_MAX) by (destruct dir; lia). destruct w as [e|c lp|]; [|..|done]; unfold ended in He; cbv iota in He; cbn [behind].
  - injection Hf as <- <-. destruct He as (<- & He & Hgo). destruct go_on; [|by exists rp]. destruct (Hgo eq_refl) as [Hb Hl]. cbn [negb].
    destruct (lookup_lt_is_Some_2 (rp_path rp) (Z.to_nat (size - 1))) as [x Hx]; [lia|].
    assert (Hg : buf_get (rp_path rp) (u64 (size - 1)) s = Ok x s).
    { unfold buf_get, u64. rewrite Z.mod_small by (unfold PATH_MAX in *; lia). by rewrite Hx. }
    rewrite (bind_run _ _ _ _ _ Hg). destruct (dir && _) eqn:Hd.
    + destruct dir; [|done]. erewrite bind_run; [|erewrite bind_run by (apply set_run; lia); apply set_run; rewrite length_insert; lia].
      rewrite prepend_error by done. by eexists.
    + rewrite (bind_run (mret _) _ s _ s) by done. rewrite prepend_error by done. by eexists.
  - destruct He as (-> & -> & He & Hat & Hh & Hsz & Hl). cbn [negb]. erewrite bind_run by (eapply last_run; [exact Hh|done|lia]).
    destruct (slash_run (rp_path rp) _ size dir s Hh Hsz) as (b & Hr & Hh'); [lia|]. rewrite (bind_run _ _ _ _ _ Hr). by eapply prepend_run.
Qed.

Lemma resolve_run at_ path rp s w s' : Z.of_nat (length (rp_path rp)) = PATH_MAX →
  walk_path open_fuel malloc_ok flags at_ path s = Ok w s' → w ≠ WStray →
  ∃ rp', resolve_path_ open_fuel malloc_ok flags at_ path rp s = Ok rp' s' ∧ agrees w rp'.
Proof.
  intros Hb Hw Hs. unfold resolve_path_. unfold walk_path in Hw. destruct path as [path0|]; [|injection Hw as <- <-; by eexists].
  cbn zeta in Hw |- *. set (path := until_nul path0) in *. destruct (start_run rp s Hb) as (b & Hrun & Hh).
  apply bind_ok in Hrun as (b0 & s0 & H0 & H1). rewrite (bind_run _ _ _ _ _ H0), (bind_run _ _ _ _ _ H1). clear H0 H1.
  set (c := Cursor (vr_kernel_fd at_) (vr_pool at_) (vr_file at_) [] []) in *.
  apply bind_ok in Hw as ([r st] & s1 & Hst & Hw). rewrite (bind_run _ _ _ _ _ (get_stat_run c (RPath 0 _ _ _ b) _ _ _ _ _ ltac:(done) Hh Hst)).
  destruct (Z.eqb_spec r 0) as [->|Hr]; cbn [negb Z.eqb] in Hw |- *; [|injection Hw as <- <-; by eexists].
  apply bind_ok in Hw as (root & s2 & Hroot & Hw). rewrite (bind_run _ _ _ _ _ Hroot).
  destruct (copy_path path b) as [[] b1] eqn:Hcopy; cbn [rp_path] in *; rewrite Hcopy.
  2: { unfold copy_path in Hcopy. destruct (PATH_MAX <=? _); [|done]. injection Hw as <- <-. by eexists. }
  assert (Hfit : (PATH_MAX <=? Z.of_nat (length path)) = false) by (unfold copy_path in Hcopy; by destruct (PATH_MAX <=? _)). rewrite Hfit in Hw.
  destruct (decide (path = [])) as [Hnil|Hne]; [rewrite bool_decide_true in Hw |- * by done; injection Hw as <- <-; by eexists|].
  rewrite bool_decide_false in Hw |- * by done.
  destruct (copy_run path b b1 (until_nul_no_nul path0) Hne (proj1 Hh) Hcopy) as (Hdir & Hsz & Hpos & Hlim & Hh1). rewrite Hdir in *. rewrite Hsz in *.
  apply bind_ok in Hw as (w1 & s3 & Hwalk & Hfin). assert (Hs1 : w1 ≠ WStray) by (intros ->; by injection Hfin as <- _).
  assert (Hb1 : Z.of_nat (length b1) = PATH_MAX) by (destruct Hh1 as (Hl & _); by rewrite length_insert in Hl).
  assert (Z.of_nat (length (trim path)) < PATH_MAX) by (clear -Hlim; destruct (ends_in_slash path); lia).
  erewrite bind_run by (apply set_run; rewrite Hb1; done).
  set (c1 := if is_slash (char_at path 0) then _ else _) in Hwalk.
  set (rp1 := if is_slash (char_at path 0) then set_rp_pool None _ _ else _).
  assert (Hrp1 : rp_error rp1 = 0 ∧ at_cursor c1 rp1 ∧ rp_path rp1 = <[Z.to_nat (Z.of_nat (length (trim path))) := NUL]> b1)
    by (unfold rp1, c1; by destruct (is_slash _)). clearbody rp1 c1. destruct Hrp1 as (He & Hat & Hrp1). rewrite <-Hrp1 in Hh1.
  rewrite (bind_run _ _ _ _ _ (strspn_run _ [] (trim path) 0 s2 Hh1 eq_refl)).
  set (lim := PATH_MAX - (if ends_in_slash path then 2 else 1)).
  assert (Hl : PATH_MAX - 2 ≤ lim ∧ lim + (if ends_in_slash path then 1 else 0) < PATH_MAX ∧ Z.of_nat (length (trim path)) ≤ lim)
    by (unfold lim; clear -Hlim; destruct (ends_in_slash path); lia). clearbody lim. destruct Hl as (Hl1 & Hl2 & Hl3).
  pose proof (sim_at_start lim root c1 rp1 (trim path) He Hat Hh1 (conj Hpos Hl3)) as Hsim.
  destruct (loop_sim open_fuel malloc_ok flags walk_fuel _ _ _ _ _ 0 root None s2 w1 s3 Hl1 Hsim Hwalk Hs1) as (o & Hloop & Hend).
  unfold resolve_fuel. rewrite (bind_run _ _ _ _ _ Hloop). by eapply (behind_run (ends_in_slash path)).
Qed.
End whole.
End rounds.
