(* ===== verification/PathSpec.v ===== *)
(** Path resolution returns: the walk of PathRep ends within its fuel, leaves the
    pools as they were used before, and path_resolve.c returns what it ends with. *)
From S2P Require Import Prelude CString VfdTable VfdRep VfdOps VfdSpec PathResolve PathRep.

(** ** States between two steps of a resolution *)

Section calm.
Context `{E : VfdEnv} {PE : PathEnv} {EO : VfdEnvOk} {PO : PathEnvOk}.
Implicit Types (s : hook_state) (p : positive).

(** A pool that is in use is in use as often as before, and is not suspended. *)
Definition pool_kept (d d' : pool_description) : Prop :=
  pd_ref_cnt d' = pd_ref_cnt d ∧ (0 < pd_ref_cnt d → pd_suspended d' = pd_suspended d).

Record vsteady (s s' : vfd_state) : Prop := {
  vt_store : vs_store s' = vs_store s;
  vt_table : vs_table s' = vs_table s;
  vt_cwd : vs_cwd s' = vs_cwd s;
  vt_free : vs_free s' = vs_free s;
  vt_switching : vs_switching s' = vs_switching s;
  vt_locks : vs_locks s' = vs_locks s;
  vt_opened : vs_opened s' = vs_opened s;
  vt_closed : vs_closed s' = vs_closed s;
  vt_open : w_open (vs_world s) ⊆ w_open (vs_world s');
  vt_pools : ∀ p, option_Forall2 pool_kept (vs_pools s !! p) (vs_pools s' !! p);
  vt_off : vs_switching s = false → vs_pools s' = vs_pools s;
}.
Record steady s s' : Prop := {
  st_vfd : vsteady (hs_vfd s) (hs_vfd s');
  st_roots : dom (hs_roots s) ⊆ dom (hs_roots s');
  st_cwd_mutex : hs_cwd_mutex s' = hs_cwd_mutex s;
  st_guard : hs_guard s' = hs_guard s;
}.

#[global] Instance pool_kept_refl : Reflexive pool_kept.
Proof. by split. Qed.
#[global] Instance pool_kept_trans : Transitive pool_kept.
Proof. intros d1 d2 d3 [H1 H2] [H3 H4]. split; [congruence|]. intros H. rewrite H4 by lia. by apply H2. Qed.
#[global] Instance vsteady_pre : PreOrder vsteady.
Proof.
  split.
  - intros s. split; done.
  - intros s1 s2 s3 [] []. split; [congruence..|by etrans| |].
    + intros p. etrans; [apply vt_pools0|apply vt_pools1].
    + intros Hoff. rewrite vt_off1 by congruence. auto.
Qed.
#[global] Instance steady_pre : PreOrder steady.
Proof. split; [intros s; by split|]. intros s1 s2 s3 [] []. split; [by etrans|by etrans|congruence..]. Qed.

(** No lock is held, the pools of the mount points are known, and a pool that is
    in use is not suspended. *)
Record hok s : Prop := {
  hk_locks : vs_locks (hs_vfd s) = [];
  hk_mounts p : is_Some (pool_mount p) → is_Some (vs_pools (hs_vfd s) !! p);
  hk_pools p d : vs_pools (hs_vfd s) !! p = Some d → 0 ≤ pd_ref_cnt d ∧ (0 < pd_ref_cnt d → pd_suspended d = false);
}.
Lemma hok_steady s s' : hok s → steady s s' → hok s'.
Proof.
  intros [Hl Hm Hp] [[] _ _ _]. split; [congruence|..].
  - intros p [d Hd]%Hm. specialize (vt_pools0 p). rewrite Hd in vt_pools0. inversion vt_pools0. by eexists.
  - intros p d' Hd'. specialize (vt_pools0 p). rewrite Hd' in vt_pools0. inversion vt_pools0 as [d ? [H1 H2] Hd|]; subst. symmetry in Hd.
    destruct (Hp p d Hd) as [H3 H4]. split; [lia|]. intros. rewrite H2 by lia. apply H4. lia.
Qed.

(** [m] returns a result with [P] and changes nothing else. *)
Definition calm {A} (m : M hook_state A) (P : A → Prop) : Prop := ∀ s, hok s → wp m (λ a s', P a ∧ steady s s') noabort s.

Lemma calm_ret {A} (a : A) (P : A → Prop) : P a → calm (mret a) P.
Proof. intros HP s _. by apply wp_ret. Qed.
Lemma calm_bind {A B} (m : M hook_state A) (f : A → M hook_state B) P P' :
  calm m P → (∀ a, P a → calm (f a) P') → calm (m ≫= f) P'.
Proof.
  intros Hm Hf s Hok. apply wp_bind. eapply wp_conseq; [by apply Hm|]. intros a s1 [Ha H1]. eapply wp_conseq; [apply Hf; [done|by eapply hok_steady]|].
  intros b s2 [Hb H2]. split; [done|by etrans].
Qed.
Lemma calm_weaken {A} (m : M hook_state A) (P P' : A → Prop) : calm m P → (∀ a, P a → P' a) → calm m P'.
Proof. intros Hm HP s Hok. eapply wp_conseq; [by apply Hm|]. intros a s' [Ha Hs]. auto. Qed.
Lemma calm_gets {A} (f : hook_state → A) : calm (gets f) (λ _, True).
Proof. intros s _. apply wp_gets. done. Qed.
Lemma calm_option {A} f (o : option A) : is_Some o → calm (of_option f o) (λ a, o = Some a).
Proof. intros [a Ha] s _. by eapply wp_of_option. Qed.
Lemma calm_assert b : b = true → calm (assert_ b) (λ _, True).
Proof. intros Hb s _. by apply wp_assert. Qed.

Lemma steady_world s w : w_open (vs_world (hs_vfd s)) ⊆ w_open w → steady s (set_hs_vfd (set_vs_world w (hs_vfd s)) s).
Proof. intros Hw. split; [|done..]. split; done. Qed.
Lemma calm_hcall {A} (f : world → A * world) : (∀ w, w_open w ⊆ w_open (f w).2) → calm (hcall f) (λ a, ∃ w, a = (f w).1).
Proof.
  intros Hf s _. apply wp_zoom. unfold wp, call. specialize (Hf (vs_world (hs_vfd s))). destruct (f (vs_world (hs_vfd s))) as [a w] eqn:Hw.
  split; [exists (vs_world (hs_vfd s)); by rewrite Hw|by apply steady_world].
Qed.

(** ** Calls of a pool *)

(** Only the descriptor of [p] changes. *)
Definition pool_changes (v v' : vfd_state) p (d : pool_description) : Prop :=
  vsteady (set_vs_pools ∅ v) (set_vs_pools ∅ v') ∧ vs_pools v' = <[p := d]> (vs_pools v).

Lemma pool_change_section p (f : pool_description → bool) (n : pool_description → Z) g b v d :
  vs_locks v = [] → vs_pools v !! p = Some d → (∀ w, (g w).1 = 0 ∧ w_open (g w).2 = w_open w) →
  wp (locked (LPool p) (
      d ← pool_get p;
      pool_set p (PoolDesc (n d) (pd_suspended d));;
      if f d then
        r ← call g;
        assert_ (r =? 0);;
        pool_set p (PoolDesc (n d) b)
      else mret tt)) (λ _ v', pool_changes v v' p (PoolDesc (n d) (if f d then b else pd_suspended d))) noabort v.
Proof.
  intros Hl Hd Hg. apply wp_locked; [rewrite Hl; apply not_elem_of_nil|]. apply wp_bind, wp_bind, wp_gets. eapply wp_of_option; [exact Hd|].
  apply wp_bind, wp_modify. cbn [vs_pools set_vs_locks]. destruct (f d).
  - apply wp_bind, wp_call. match goal with |- context [g ?w] => destruct (Hg w) as [H0 Ho] end. apply wp_bind, wp_assert; [by rewrite H0|]. apply wp_modify.
    split; [done|]. split; [|cbn; by rewrite insert_insert_eq]. split; try done. cbn in Ho |- *. by rewrite Ho.
  - apply wp_ret. split; [done|]. split; [|done]. split; done.
Qed.

Definition in_use p s : Prop := vs_switching (hs_vfd s) = true → ∃ d, vs_pools (hs_vfd s) !! p = Some d ∧ 0 < pd_ref_cnt d.

Lemma wp_acquire p s (Q : unit → hook_state → Prop) X : hok s → is_Some (pool_mount p) →
  (vs_switching (hs_vfd s) = false → Q tt s) →
  (∀ d v, vs_switching (hs_vfd s) = true → vs_pools (hs_vfd s) !! p = Some d → pool_changes (hs_vfd s) v p (PoolDesc (pd_ref_cnt d + 1) false) → Q tt (set_hs_vfd v s)) →
  wp (on_vfd (pool_acquire (Some p))) Q X s.
Proof.
  intros [Hl Hm Hp] Hk Hoff Hon. apply wp_zoom. unfold pool_acquire. apply wp_bind, wp_gets.
  destruct (vs_switching (hs_vfd s)) eqn:Hsw; cbn [negb]; [|apply wp_ret; destruct s; by apply Hoff].
  apply wp_bind. eapply wp_of_option; [done|]. destruct (Hm p Hk) as [d Hd]. destruct (Hp p d Hd) as [Hd0 Hd1].
  eapply wp_mono; [apply (pool_change_section p (λ d, (pd_ref_cnt d + 1 =? 1) && pd_suspended d) (λ d, pd_ref_cnt d + 1) (pm_resume p) false _ d Hl Hd), pm_resume_ok| |done].
  intros [] v Hv. apply (Hon d); [done|done|]. destruct (pd_suspended d) eqn:Hs; [|by rewrite andb_false_r in Hv].
  destruct (Z.eqb_spec (pd_ref_cnt d + 1) 1) as [|Hne]; [done|]. discriminate Hd1; lia.
Qed.
Lemma wp_release p d s (Q : unit → hook_state → Prop) X : vs_locks (hs_vfd s) = [] →
  (vs_switching (hs_vfd s) = false → Q tt s) →
  (vs_switching (hs_vfd s) = true → vs_pools (hs_vfd s) !! p = Some d ∧ pd_suspended d = false) →
  (∀ v, vs_switching (hs_vfd s) = true → pool_changes (hs_vfd s) v p (PoolDesc (pd_ref_cnt d - 1) (pd_ref_cnt d - 1 =? 0)) → Q tt (set_hs_vfd v s)) →
  wp (on_vfd (pool_release (Some p))) Q X s.
Proof.
  intros Hl Hoff Hd Hon. apply wp_zoom. unfold pool_release. apply wp_bind, wp_gets.
  destruct (vs_switching (hs_vfd s)) eqn:Hsw; cbn [negb]; [|apply wp_ret; destruct s; by apply Hoff].
  destruct (Hd eq_refl) as [Hp Hs]. apply wp_bind. eapply wp_of_option; [done|].
  eapply wp_mono; [apply (pool_change_section p (λ d, (pd_ref_cnt d - 1 =? 0) && negb (pd_suspended d)) (λ d, pd_ref_cnt d - 1) (pm_suspend p) true _ d Hl Hp), pm_suspend_ok| |done].
  intros [] v Hv. apply Hon; [done|]. cbn beta in Hv. rewrite Hs, andb_true_r in Hv. by destruct (_ =? 0).
Qed.

Lemma steady_within s v s2 v3 p d : vs_switching (hs_vfd s) = true →
  vs_pools (hs_vfd s) !! p = Some d → (0 < pd_ref_cnt d → pd_suspended d = false) →
  pool_changes (hs_vfd s) v p (PoolDesc (pd_ref_cnt d + 1) false) → steady (set_hs_vfd v s) s2 →
  pool_changes (hs_vfd s2) v3 p (PoolDesc (pd_ref_cnt d) (pd_ref_cnt d =? 0)) → steady s (set_hs_vfd v3 s2).
Proof.
  intros Hsw Hd Hs [[] Hp1] [H2 Hr Hm Hg] [[] Hp3]. destruct H2 as [? ? ? ? ? ? ? ? ? Hp2 _]. cbn in *. split; [split; cbn|done..]; try congruence.
  - by do 2 (etrans; [eassumption|]).
  - intros q. rewrite Hp3. destruct (decide (p = q)) as [<-|Hne].
    + rewrite lookup_insert_eq, Hd. constructor. split; [done|]. intros H. cbn. rewrite Hs by done. apply Z.eqb_neq. lia.
    + rewrite lookup_insert_ne by done. specialize (Hp2 q). by rewrite Hp1, lookup_insert_ne in Hp2.
Qed.

(** A pool in use around [m]. *)
Lemma wp_within {A} p (m : M hook_state A) (P : A → Prop) X s : is_Some (pool_mount p) → hok s →
  (∀ s1, hok s1 → in_use p s1 → (vs_switching (hs_vfd s1) = false → s1 = s) → wp m (λ a s', P a ∧ steady s1 s') X s1) →
  wp (on_vfd (pool_acquire (Some p));; r ← m; on_vfd (pool_release (Some p));; mret r) (λ a s', P a ∧ steady s s') X s.
Proof.
  intros Hk Hok Hm. apply wp_bind. apply wp_acquire; [done|done|..].
  - intros Hsw. apply wp_bind. eapply wp_conseq; [apply Hm; [done|congruence|done]|]. intros a s1 [Ha H1]. apply wp_bind.
    assert (vs_switching (hs_vfd s1) = false) as Hsw1 by (by rewrite (vt_switching _ _ (st_vfd _ _ H1))).
    apply (wp_release p (PoolDesc 0 false)); [by apply hok_steady in H1 as []|intros _; by apply wp_ret|congruence..].
  - intros d v Hsw Hd [Hv Hvp]. destruct (hk_pools _ Hok p d Hd) as [Hd0 Hd1]. set (s1 := set_hs_vfd v s).
    assert (Hok1 : hok s1).
    { destruct Hok as [Hl Hmt Hps]. split; cbn; rewrite ?Hvp.
      - by rewrite <-Hl; apply (vt_locks _ _ Hv).
      - intros q Hq. destruct (decide (p = q)) as [->|]; [rewrite lookup_insert_eq; by eexists|]. rewrite lookup_insert_ne by done. by apply Hmt.
      - intros q e. destruct (decide (p = q)) as [->|]; [rewrite lookup_insert_eq; intros [= <-]; cbn; lia|]. rewrite lookup_insert_ne by done. by apply Hps. }
    apply wp_bind. eapply wp_conseq; [apply Hm; [done| |]|].
    { intros _. exists (PoolDesc (pd_ref_cnt d + 1) false). cbn. rewrite Hvp, lookup_insert_eq. split; [done|lia]. }
    { intros Hoff. pose proof (vt_switching _ _ Hv) as X2. cbn in Hoff, X2. congruence. }
    intros a s2 [Ha H2]. apply wp_bind. pose proof (vt_pools _ _ (st_vfd _ _ H2) p) as Hp2. cbn in Hp2. rewrite Hvp, lookup_insert_eq in Hp2.
    inversion Hp2 as [? d2 [Hd2 Hs2] E1 E2|]; subst. cbn in Hd2, Hs2. apply (wp_release p d2).
    + by apply hok_steady in H2 as [].
    + intros Hoff. pose proof (vt_switching _ _ (st_vfd _ _ H2)) as X1. pose proof (vt_switching _ _ Hv) as X2. cbn in X1, X2. congruence.
    + intros _. split; [done|]. rewrite Hs2 by lia. done.
    + intros v3 _ H3. apply wp_ret. split; [done|]. rewrite Hd2, Z.add_simpl_r in H3. by eapply (steady_within s v s2 v3 p d).
Qed.
Lemma calm_within {A} p (m : M hook_state A) (P : A → Prop) : is_Some (pool_mount p) →
  (∀ s, hok s → in_use p s → wp m (λ a s', P a ∧ steady s s') noabort s) →
  calm (on_vfd (pool_acquire (Some p));; r ← m; on_vfd (pool_release (Some p));; mret r) P.
Proof. intros Hk Hm s Hok. apply wp_within; [done|done|]. intros s1 Hok1 Hu _. by apply Hm. Qed.

(** A call on a pool in a state where it is in use. *)
Lemma wp_pcall {A} p (f : world → A * world) X s : is_Some (pool_mount p) → hok s → in_use p s → (∀ w, w_open w ⊆ w_open (f w).2) →
  wp (pcall p f) (λ a s', (∃ w, a = (f w).1) ∧ steady s s') X s.
Proof.
  intros Hk Hok Hu Hf. unfold pcall. apply wp_bind, wp_zoom, wp_gets, wp_bind, wp_zoom. destruct (hk_mounts _ Hok p Hk) as [d Hd].
  assert (Hs : vs_switching (hs_vfd s) && pd_suspended d = false).
  { destruct (vs_switching (hs_vfd s)) eqn:Hsw; [|done]. destruct (Hu Hsw) as (d' & Hd' & Hpos). assert (d' = d) as -> by congruence. by apply (hk_pools _ Hok p). }
  apply wp_bind, wp_gets. eapply wp_of_option; [by destruct s|]. rewrite Hs. destruct s as [v r c g]. by eapply wp_mono; [apply (calm_hcall f Hf)| |].
Qed.

Lemma calm_call {A} p (f : world → A * world) : is_Some (pool_mount p) → (∀ w, w_open w ⊆ w_open (f w).2) →
  calm (on_vfd (pool_acquire (Some p));; r ← pcall p f; on_vfd (pool_release (Some p));; mret r) (λ a, ∃ w, a = (f w).1).
Proof. intros Hk Hf. apply calm_within; [done|]. intros s Hok Hu. by apply wp_pcall. Qed.

(** ** Opening a pool *)

Lemma calm_sys c : calm (hcall (sys_call c)) (λ a, ∃ w, a = (sys_call c w).1).
Proof. apply calm_hcall, sys_call_opens. Qed.
Lemma calm_pm p c : calm (hcall (pm_call p c)) (λ _, True).
Proof. eapply calm_weaken; [apply calm_hcall, pm_call_opens|done]. Qed.
Lemma calm_seq {A B} (m : M hook_state A) (f : A → M hook_state B) P P' : calm m P → (∀ a, calm (f a) P') → calm (m ≫= f) P'.
Proof. intros Hm Hf. eapply calm_bind; [exact Hm|]. intros a _. apply Hf. Qed.

Lemma calm_capability p cap : calm (update_capability p cap) (λ _, True).
Proof.
  eapply calm_bind; [apply calm_sys|]. intros v [w ->]. eapply calm_seq; [apply calm_assert, Z.leb_le, (proj2 (sys_cap_ok cap w))|]. intros _.
  eapply calm_seq; [apply calm_pm|]. intros _. by apply calm_ret.
Qed.
Lemma calm_capabilities p : calm (update_capabilities p) (λ _, True).
Proof.
  eapply calm_bind; [apply calm_sys|]. intros v [w ->]. eapply calm_seq; [apply calm_assert, Z.leb_le, (proj1 (sys_cap_ok 0 w))|]. intros _.
  eapply calm_seq; [apply calm_capability|]. intros _. eapply calm_seq; [apply calm_capability|]. intros _. apply calm_capability.
Qed.

Ltac calm_steps :=
  repeat first
    [ by apply calm_ret
    | apply calm_capabilities
    | eapply calm_seq; [first [apply calm_sys | apply calm_pm | apply calm_capabilities]|intros ?]
    | match goal with |- calm (if ?b then _ else _) _ => destruct b end ].

Lemma calm_current_id get set : calm (current_id get set) (λ _, True).
Proof. unfold current_id. calm_steps. Qed.
Lemma calm_groups malloc_ok : calm (process_groups malloc_ok) (λ _, True).
Proof.
  unfold process_groups. calm_steps. eapply calm_seq; [apply calm_hcall, sys_getgroups_opens|]. intros [n groups]. by apply calm_ret.
Qed.
Lemma calm_setup malloc_ok m : calm (setup_new_pool malloc_ok m) (λ _, True).
Proof.
  unfold setup_new_pool. cbn zeta. calm_steps. eapply calm_seq; [apply calm_current_id|]. intros fsuid. calm_steps.
  eapply calm_seq; [apply calm_current_id|]. intros fsgid. calm_steps. eapply calm_seq; [apply calm_groups|]. intros [groups|]; [|by apply calm_ret].
  eapply (calm_seq _ _ (λ _, True)); [destruct groups; [apply calm_pm|by apply calm_ret]|]. intros r. calm_steps.
  eapply calm_seq; [apply calm_hcall, pm_fstatat_opens|]. intros [r' st]. calm_steps.
Qed.

Section fuel.
Variables (open_fuel : nat) (malloc_ok : bool) (flags : Z).
Hypothesis open_fuel_pos : (0 < open_fuel)%nat.

Lemma calm_open_loop p : calm (pool_open_loop open_fuel p) (λ _, True).
Proof using open_fuel_pos PO.
  destruct open_fuel as [|fuel]; [lia|]. cbn [pool_open_loop]. eapply calm_bind; [apply calm_hcall, pm_pool_open_opens|]. intros r [w ->].
  eapply (calm_seq _ _ (λ _, True)); [intros s _; apply wp_zoom, wp_gets; by destruct s|]. intros sw.
  rewrite (proj2 (Z.eqb_neq _ _) (pm_pool_open_ok p w)), andb_false_r. by apply calm_ret.
Qed.

Lemma calm_open_new_pool m : calm (open_new_pool open_fuel malloc_ok m) (λ _, True).
Proof using open_fuel_pos PO.
  unfold open_new_pool. eapply calm_seq; [apply calm_gets|]. intros roots. case_bool_decide; [by apply calm_ret|].
  eapply calm_seq; [apply calm_open_loop|]. intros [|]; cbn [negb]; [|by apply calm_ret]. eapply calm_seq; [apply calm_setup|]. intros [st|]; [|calm_steps].
  intros s _. apply wp_modify. split; [done|]. split; [done| |done..]. cbn. set_solver.
Qed.

Lemma calm_lookup st : calm (lookup_pd_by_inode open_fuel malloc_ok st) (λ r, match r with Some m => is_Some (pool_mount (mp_pool m)) | None => True end).
Proof using open_fuel_pos PO.
  unfold lookup_pd_by_inode. destruct (list_find _ pools) as [[i m]|] eqn:Hf; [|by apply calm_ret].
  eapply calm_seq; [apply calm_open_new_pool|]. intros _. apply calm_ret. apply list_find_Some in Hf as (Hi & _). unfold pool_mount. apply fmap_is_Some.
  eapply list_find_elem_of; [by eapply list_elem_of_lookup_2|done].
Qed.

(** ** The walk *)

Definition known (p : option positive) : Prop := match p with Some p => is_Some (pool_mount p) | None => True end.
Definition walked_ok (w : walked) : Prop :=
  match w with WDone c last => known (cu_pool c) ∧ known last | _ => True end.

(** The links and the components that are left to follow. *)
Definition todo (c : cursor) (n : Z) : Z :=
  (41 - n) * (2 * PATH_MAX + 2) + 2 * Z.of_nat (length (cu_rest c)) + (if cu_pool c then 1 else 0).

Record cursor_ok (c : cursor) : Prop := {
  ck_pool : known (cu_pool c);
  ck_head : head (cu_rest c) ≠ Some SLASH;
  ck_len : Z.of_nat (length (cu_rest c)) < PATH_MAX;
}.

Lemma calm_stat c path : known (cu_pool c) → calm (stat_at c path) (λ _, True).
Proof.
  intros Hk. unfold stat_at. destruct (cu_pool c) as [p|].
  - eapply calm_weaken; [apply calm_call; [done|apply pm_fstatat_opens]|done].
  - eapply calm_weaken; [apply calm_hcall, sys_newfstatat_opens|done].
Qed.
Lemma calm_link c path : known (cu_pool c) → calm (link_at c path) (λ l, match l with inr link => link ≠ [] | inl _ => True end).
Proof.
  intros Hk s Hok. cut (wp (link_at c path) (λ _ s', steady s s') noabort s).
  { unfold wp. destruct (link_at c path s) as [l s'|e s'|] eqn:Hl; [|done..]. apply link_at_ok in Hl. destruct l as [|link]; [done|]. by destruct Hl. } unfold link_at. destruct (cu_pool c) as [p|].
  - pose proof (calm_call p (pm_readlinkat p (cu_dir c) path (PATH_MAX - 1)) Hk (pm_readlinkat_opens _ _ _ _) s Hok) as H.
    apply wp_bind_inv in H. apply wp_bind. eapply wp_conseq; [exact H|]. intros [] s1 H1. apply wp_bind_inv in H1. apply wp_bind. eapply wp_conseq; [exact H1|].
    intros [n link] s2 H2. apply wp_bind_inv in H2. apply wp_bind. eapply wp_conseq; [exact H2|]. intros [] s3 [_ H3]. by apply wp_ret.
  - eapply wp_conseq; [eapply (calm_seq _ _ _ (λ _, True)); [apply calm_hcall, sys_readlinkat_opens| |done]|by intros l s' []].
    intros [n link]. by apply calm_ret.
Qed.

Lemma at_start_ok c path : known (cu_pool c) → Z.of_nat (length path) < PATH_MAX →
  cursor_ok (at_start c path) ∧ cu_pool (at_start c path) = cu_pool c ∧ (length (cu_rest (at_start c path)) ≤ length path)%nat.
Proof.
  intros Hk Hl. unfold at_start. pose proof (span_slashes_spec path) as Hp. destruct (span_slashes path) as [a q], Hp as (-> & _ & Hq). rewrite length_app in *.
  split; [split; cbn; [done|done|lia]|]. cbn. split; [done|lia].
Qed.
Lemma next_ok c comp after : cursor_ok c → cu_rest c = comp ++ after → comp ≠ [] →
  cursor_ok (next c comp after) ∧ cu_pool (next c comp after) = cu_pool c ∧ (length (cu_rest (next c comp after)) < length (cu_rest c))%nat.
Proof.
  intros [Hk Hh Hl] Hr Hne. unfold next. pose proof (span_slashes_spec after) as Hp. destruct (span_slashes after) as [a q], Hp as (-> & _ & Hq).
  rewrite Hr, !length_app in *. destruct comp; [done|]. cbn [length] in *. split; [split; cbn; [done|done|lia]|]. cbn. split; [done|lia].
Qed.

Lemma follow_ok c link after c' : cursor_ok c → link ≠ [] → follow c link after = inr c' → cursor_ok c'.
Proof.
  intros [Hk Hh Hl] Hne. unfold follow. destruct (Z.leb_spec PATH_MAX (Z.of_nat (length ((if is_slash (char_at link 0) then [] else cu_done c) ++ link ++ after)) + 1)) as [|Hfit]; [done|].
  intros [= <-]. destruct (is_slash (char_at link 0)) eqn:Hs.
  - apply at_start_ok; [done|]. cbn [app] in Hfit. lia.
  - rewrite length_app in Hfit. split; cbn; [done| |lia]. destruct link as [|ch link]; [done|]. cbn in Hs |- *. apply is_slash_false in Hs. congruence.
Qed.

Lemma comp_ne c comp after : head (cu_rest c) ≠ Some SLASH → cu_rest c ≠ [] → cu_rest c = comp ++ after → tail_ok after → comp ≠ [].
Proof. intros Hh Hne Hr Ha ->. cbn in Hr. rewrite Hr in Hh, Hne. destruct Ha as [->|[a ->]]; done. Qed.

Lemma into_pool_ok p c after : is_Some (pool_mount p) → tail_ok after → Z.of_nat (length after) < PATH_MAX →
  cursor_ok (into_pool p c after) ∧ cu_pool (into_pool p c after) = Some p ∧ (length (cu_rest (into_pool p c after)) ≤ length after)%nat.
Proof.
  intros Hp Ha Hl. assert (∃ x, (if bool_decide (after = []) then [SLASH] else after) = SLASH :: x ∧ (length x ≤ length after)%nat) as (x & Hx & Hlx).
  { destruct Ha as [->|[a ->]]; [by exists []|]. exists a. split; [done|cbn; lia]. }
  unfold into_pool. rewrite Hx. unfold at_start. cbn [span_slashes]. rewrite (proj2 (is_slash_true SLASH) eq_refl).
  pose proof (span_slashes_spec x) as Hs. destruct (span_slashes x) as [a q], Hs as (-> & _ & Hq). rewrite length_app in Hlx.
  split; [split; cbn; [done|done|lia]|]. cbn. split; [done|lia].
Qed.

Lemma walk_returns fuel c n root last : cursor_ok c → known last → 0 ≤ n ≤ 40 → todo c n < Z.of_nat fuel →
  calm (walk open_fuel malloc_ok flags fuel c n root last) walked_ok.
Proof using open_fuel_pos PO.
  revert c n root last. induction fuel as [|fuel IH]; intros c n root last Hc Hk Hn Ht; unfold todo in Ht.
  { pose proof (ck_len _ Hc). destruct (cu_pool c); unfold PATH_MAX in *; lia. }
  cbn [walk]. pose proof Hc as [Hkc Hh Hl]. case_bool_decide as Hnil; [by apply calm_ret|].
  pose proof (span_comp_spec (cu_rest c)) as Hr. destruct (span_comp (cu_rest c)) as [comp after], Hr as (Hr & _ & Ha).
  pose proof (comp_ne _ _ _ Hh Hnil Hr Ha) as Hne. destruct (_ && _); [by apply calm_ret|].
  eapply calm_seq; [by apply calm_stat|]. intros [r st]. destruct (negb (r =? 0)); [by apply calm_ret|].
  destruct (root && _).
  { destruct (cu_pool c) as [p|]; [|by apply calm_ret]. eapply calm_seq; [by apply calm_option|]. intros m. destruct (1 <? _)%nat; [by apply calm_ret|].
    apply IH; [by split|done|done|]. unfold todo. cbn. lia. }
  destruct (S_ISLNK (st_mode st)).
  { eapply calm_bind; [by apply calm_link|]. intros l Hlink. destruct (Z.ltb_spec 40 (n + 1)); [by apply calm_ret|]. destruct l as [e|link]; [by apply calm_ret|].
    destruct (follow c link after) as [w|c'] eqn:Hf; [apply calm_ret; unfold follow in Hf; destruct (PATH_MAX <=? _); [by injection Hf as <-|done]|].
    pose proof (follow_ok _ _ _ _ Hc Hlink Hf) as Hc'. apply IH; [done|done|lia|]. pose proof (ck_len _ Hc'). unfold todo, PATH_MAX in *. destruct (cu_pool c), (cu_pool c'); lia. }
  destruct (negb (S_ISDIR (st_mode st))); [apply calm_ret; by case_bool_decide|].
  destruct (next_ok c comp after Hc Hr Hne) as (Hc' & Hp' & Hl').
  assert (Hstep : ∀ root', calm (walk open_fuel malloc_ok flags fuel (next c comp after) n root' last) walked_ok).
  { intros root'. apply IH; [done..|]. unfold todo. rewrite Hp'. lia. }
  destruct (cu_pool c) as [p|] eqn:Hp; [eapply calm_seq; [apply calm_gets|intros rst; apply Hstep]|].
  eapply calm_bind; [apply calm_lookup|]. intros [m|] Hm; [|apply Hstep]. eapply calm_seq; [apply calm_gets|]. intros roots.
  case_bool_decide; [by apply calm_ret|].
  destruct (into_pool_ok (mp_pool m) c after) as (Hc2 & Hp2 & Hl2); [done|done|rewrite Hr, length_app in Hl; lia|].
  apply IH; [done..|]. unfold todo. rewrite Hp2. rewrite Hr, length_app in Ht. destruct comp; [done|]. cbn [length] in *. lia.
Qed.

Lemma finish_returns dir w : walked_ok w → calm (finish flags dir w) walked_ok.
Proof.
  destruct w as [e|c [p|]|]; cbn [finish]; intros Hw; try by apply calm_ret. destruct (_ && _) in |- *; [|by apply calm_ret].
  eapply calm_seq; [apply calm_option, Hw|]. intros m. destruct (_ <? _); by apply calm_ret.
Qed.

Lemma walk_path_returns at_ path : known (vr_pool at_) → calm (walk_path open_fuel malloc_ok flags at_ path) walked_ok.
Proof using open_fuel_pos PO.
  intros Hk. unfold walk_path. destruct path as [path0|]; [|by apply calm_ret]. cbn zeta. set (path := until_nul path0).
  eapply calm_seq; [by apply calm_stat|]. intros [r st]. destruct (negb (r =? 0)); [by apply calm_ret|].
  eapply (calm_seq _ _ (λ _, True)).
  { destruct (vr_pool at_); [|by apply calm_ret]. eapply calm_seq; [apply calm_gets|]. intros rst. by apply calm_ret. }
  intros root. destruct (Z.leb_spec PATH_MAX (Z.of_nat (length path))) as [|Hl]; [by apply calm_ret|]. case_bool_decide; [by apply calm_ret|].
  eapply calm_bind; [|intros w; apply finish_returns].
  assert (Hlen : Z.of_nat (length (trim path)) < PATH_MAX). { destruct (trim_prefix path) as (z & Hz & _). rewrite Hz, length_app in Hl. lia. }
  set (c := if is_slash _ then _ else _). destruct (at_start_ok c (trim path)) as (Hc & _ & _); [unfold c; by destruct (is_slash _)|done|].
  apply walk_returns; [done|done|lia|]. pose proof (ck_len _ Hc). unfold todo, walk_fuel, PATH_MAX in *. destruct (cu_pool (at_start c (trim path))); lia.
Qed.

(** The walk from a directory whose pool is in use meanwhile. *)
Definition walk_from (at_ : vfd_reference) (path : option cstring) : M hook_state walked :=
  (if bool_decide (is_Some (vr_pool at_)) then on_vfd (pool_acquire (vr_pool at_)) else mret tt);;
  w ← walk_path open_fuel malloc_ok flags at_ path;
  (if bool_decide (is_Some (vr_pool at_)) then on_vfd (pool_release (vr_pool at_)) else mret tt);;
  mret w.

Lemma walk_from_returns at_ path : known (vr_pool at_) → calm (walk_from at_ path) walked_ok.
Proof using open_fuel_pos PO.
  intros Hk. unfold walk_from. destruct (vr_pool at_) as [p|] eqn:Hp.
  - rewrite bool_decide_eq_true_2 by (by eexists). apply calm_within; [done|]. intros s Hok _. apply walk_path_returns; [by rewrite Hp|done].
  - rewrite bool_decide_eq_false_2 by (by intros []). eapply calm_seq; [by apply (calm_ret _ (λ _, True))|]. intros _.
    eapply calm_bind; [apply walk_path_returns; by rewrite Hp|]. intros w Hw. eapply calm_seq; [by apply (calm_ret _ (λ _, True))|]. intros _. by apply calm_ret.
Qed.

(** ** Paths without ".." *)

Definition plain (path : cstring) : Prop := ∀ a b, path ≠ a ++ cstr ".." ++ b.
Lemma plain_app_r a b : plain (a ++ b) → plain b.
Proof. intros H x y ->. apply (H (a ++ x) y). by rewrite <-!app_assoc. Qed.
Lemma plain_app_l a b : plain (a ++ b) → plain a.
Proof. intros H x y ->. apply (H x (y ++ b)). by rewrite <-!app_assoc. Qed.
Lemma plain_cons x y a : x ≠ "."%char ∨ y ≠ "."%char → plain (y :: a) → plain (x :: y :: a).
Proof.
  intros Hxy H [|z l] b Hab.
  - injection Hab as Hx Hy _. by destruct Hxy.
  - injection Hab as _ Hab. by apply (H l b).
Qed.
Lemma plain_join a b : plain a → plain b → tail_ok b → plain (a ++ b).
Proof.
  intros Ha Hb Ht. induction a as [|x a IH]; [done|]. pose proof (plain_app_r [x] a Ha) as Ha'. specialize (IH Ha'). destruct a as [|y a]; cbn [app] in *.
  - destruct Ht as [->|[c ->]]; [done|]. apply plain_cons; [by right|done].
  - apply plain_cons; [|done]. destruct (decide (x = "."%char)) as [->|]; [right|by left]. intros ->. by apply (Ha [] a).
Qed.

(** Links lead nowhere by "..". *)
Definition plain_links : Prop :=
  (∀ fd path n w, plain (sys_readlinkat fd path n w).1.2) ∧ (∀ p d path n w, plain (pm_readlinkat p d path n w).1.2).

Lemma link_at_plain c path s link s' : plain_links → link_at c path s = Ok (inr link) s' → plain link.
Proof.
  intros [Hs Hp]. unfold link_at. destruct (cu_pool c) as [p|].
  - intros (u & s1 & _ & ([n l] & s2 & (w & Hw)%pcall_ok & (v & s3 & _ & H)%bind_ok)%bind_ok)%bind_ok.
    destruct (n <? 0); [done|]. injection H as -> _. pose proof (Hp p (cu_dir c) path (PATH_MAX - 1) w) as H. by rewrite <-Hw in H.
  - intros ([n l] & s1 & Hw%hcall_ok & H)%bind_ok. destruct (n <? 0); [done|]. injection H as -> _.
    pose proof (Hs (cu_kernel c) path (PATH_MAX - 1) (vs_world (hs_vfd s))) as H. by rewrite <-Hw in H.
Qed.

Lemma span_plain path : plain path → plain (span_slashes path).2 ∧ plain (span_comp path).2 ∧ (span_comp path).1 ≠ cstr "..".
Proof.
  intros H. pose proof (span_slashes_spec path) as H1. pose proof (span_comp_spec path) as H2. destruct (span_slashes path) as [a q], (span_comp path) as [x y]. cbn.
  destruct H1 as (-> & _), H2 as (E2 & _). split; [by eapply plain_app_r|]. split; [rewrite E2 in H; by eapply plain_app_r|]. intros ->. by apply (H [] y).
Qed.

Lemma walk_plain fuel c n root last s w s' : plain_links → plain (cu_rest c) →
  walk open_fuel malloc_ok flags fuel c n root last s = Ok w s' → w ≠ WStray.
Proof using PO.
  intros Hpl. revert c n root last s. induction fuel as [|fuel IH]; [done|]. intros c n root last s Hc. cbn [walk]. case_bool_decide; [by intros [= <- _]|].
  pose proof (span_plain _ Hc) as (_ & Hafter & Hcomp). pose proof (span_comp_spec (cu_rest c)) as Hsp. destruct (span_comp (cu_rest c)) as [comp after]. cbn in Hafter, Hcomp.
  destruct (_ && _); [by intros [= <- _]|]. intros ([r st] & s1 & _ & Hw)%bind_ok. destruct (negb (r =? 0)); [by injection Hw as <- _|].
  rewrite (bool_decide_eq_false_2 _ Hcomp), andb_false_r in Hw. destruct (S_ISLNK (st_mode st)).
  { apply bind_ok in Hw as (l & s2 & Hl & Hw). destruct (40 <? n + 1); [by injection Hw as <- _|]. destruct l as [e|link]; [by injection Hw as <- _|].
    pose proof (link_at_plain _ _ _ _ _ Hpl Hl) as Hlink. pose proof (plain_join _ _ Hlink Hafter (proj2 (proj2 Hsp))) as Hj.
    unfold follow in Hw. destruct (PATH_MAX <=? _); [by injection Hw as <- _|]. eapply IH; [|exact Hw]. destruct (is_slash _); [|done].
    unfold at_start. pose proof (span_plain _ Hj) as (Hq & _). by destruct (span_slashes (link ++ after)). }
  destruct (negb (S_ISDIR (st_mode st))); [case_bool_decide; by injection Hw as <- _|].
  assert (Hnext : plain (cu_rest (next c comp after))). { unfold next. pose proof (span_plain _ Hafter) as (Hq & _). by destruct (span_slashes after). }
  destruct (cu_pool c) as [p|]; [apply bind_ok in Hw as (rst & s2 & _ & Hw); by eapply IH|].
  apply bind_ok in Hw as ([m|] & s2 & _ & Hw); [|by eapply IH]. apply bind_ok in Hw as (roots & s3 & _ & Hw). case_bool_decide; [by injection Hw as <- _|].
  eapply IH; [|exact Hw]. unfold into_pool, at_start. case_bool_decide; [cbn; by intros [|[]] ?|].
  pose proof (span_plain _ Hafter) as (Hq & _). by destruct (span_slashes after).
Qed.

Lemma walk_path_plain at_ path s w s' : plain_links → plain (until_nul path) →
  walk_path open_fuel malloc_ok flags at_ (Some path) s = Ok w s' → w ≠ WStray.
Proof using PO.
  intros Hpl Hp. unfold walk_path. cbn zeta. intros ([r st] & s1 & _ & Hw)%bind_ok. destruct (negb (r =? 0)); [by injection Hw as <- _|].
  apply bind_ok in Hw as (root & s2 & _ & Hw). destruct (PATH_MAX <=? _); [by injection Hw as <- _|]. case_bool_decide; [by injection Hw as <- _|].
  apply bind_ok in Hw as (w1 & s3 & H1 & H2). apply walk_plain in H1; [|done|].
  - destruct w1 as [e|c [p|]|]; [by injection H2 as <- _| |by injection H2 as <- _|done]. cbn [finish] in H2. destruct (_ && _) in H2; [|by injection H2 as <- _].
    apply bind_ok in H2 as (m & s4 & _ & H2). destruct (PATH_MAX <? _); by injection H2 as <- _.
  - destruct (trim_prefix (until_nul path)) as (z & Hz & _). rewrite Hz in Hp. apply plain_app_l in Hp. apply span_plain in Hp as (Hq & _). unfold at_start. by destruct (span_slashes _).
Qed.
End fuel.

Lemma resolve_follows_walk open_fuel malloc_ok flags at_ path rp s :
  (0 < open_fuel)%nat → hok s → known (vr_pool at_) → Z.of_nat (length (rp_path rp)) = PATH_MAX →
  ∃ w s', walk_from open_fuel malloc_ok flags at_ path s = Ok w s' ∧ steady s s' ∧ walked_ok w ∧
    (w ≠ WStray → ∃ rp', resolve_path open_fuel malloc_ok flags at_ path rp s = Ok rp' s' ∧ agrees w rp').
Proof.
  intros Hf Hok Hk Hb. pose proof (walk_from_returns open_fuel malloc_ok flags Hf at_ path Hk s Hok) as Hw. unfold wp in Hw.
  destruct (walk_from open_fuel malloc_ok flags at_ path s) as [w s'| |] eqn:Hrun; [|done..]. exists w, s'. split; [done|]. split; [apply Hw|]. split; [apply Hw|].
  intros Hs. unfold walk_from in Hrun. apply bind_ok in Hrun as (u & s1 & H1 & Hrun). apply bind_ok in Hrun as (w1 & s2 & H2 & Hrun).
  apply bind_ok in Hrun as (u' & s3 & H3 & [= -> ->]). destruct (resolve_run _ _ _ _ _ _ _ _ _ Hb H2 Hs) as (rp' & H4 & Hag).
  exists rp'. split; [|done]. unfold resolve_path. rewrite (bind_run _ _ _ _ _ H1), (bind_run _ _ _ _ _ H4), (bind_run _ _ _ _ _ H3). done.
Qed.

(** What the hooks use of the result. *)
Definition path_plain (path : option cstring) : Prop := match path with Some path => plain (until_nul path) | None => True end.
Definition resolved_ok (rp : resolved_path) : Prop := rp_error rp = 0 → known (rp_at_pool rp) ∧ ∃ path, holds (rp_path rp) path.

Lemma calm_resolve open_fuel malloc_ok flags at_ path rp :
  (0 < open_fuel)%nat → known (vr_pool at_) → Z.of_nat (length (rp_path rp)) = PATH_MAX → plain_links → path_plain path →
  calm (resolve_path open_fuel malloc_ok flags at_ path rp) resolved_ok.
Proof.
  intros Hf Hk Hb Hpl Hp s Hok. destruct (resolve_follows_walk open_fuel malloc_ok flags at_ path rp s Hf Hok Hk Hb) as (w & s' & Hw & Hs & Hwok & Hr).
  destruct Hr as (rp' & Hrun & Hag).
  - apply bind_ok in Hw as (u & s1 & _ & Hw). apply bind_ok in Hw as (w1 & s2 & H2 & Hw). apply bind_ok in Hw as (u' & s3 & _ & [= -> _]).
    destruct path as [path|]; [by eapply walk_path_plain|by injection H2 as <- _].
  - unfold wp. rewrite Hrun. split; [|done]. intros He. destruct w as [e|c last|]; [by destruct Hag as [<- ?]| |done]. destruct Hag as (_ & (_ & -> & _) & Hh). split; [apply Hwok|by eexists].
Qed.


End calm.

(** ** An example environment *)

(** A directory of the kernel with a link and a mount point; in the pool, a
    directory that holds a file. *)
Module ExPath.
Definition dir (ino : Z) : kstat := KStat 1 ino 0x4000.
Definition link (ino : Z) : kstat := KStat 1 ino 0xA000.
Definition file (ino : Z) : kstat := KStat 1 ino 0x8000.
Definition stat_of (l : list (string * kstat)) (path : cstring) : Z * kstat :=
  match list_find (λ x, cstr x.1 = path) l with Some (_, x) => (0, x.2) | None => (- ENOENT, zero_stat) end.

Definition kernel_files : list (string * kstat) :=
  [("."%string, dir 10); (".."%string, dir 10); ("mnt"%string, dir 20); ("link"%string, link 30);
   ("../link"%string, link 30); ("../mnt"%string, dir 20); ("/.."%string, dir 1)].
Definition pool_files : list (string * kstat) :=
  [("/"%string, dir 100); ("."%string, dir 100); ("/a"%string, dir 101); ("/a/b"%string, file 102);
   ("a"%string, dir 101); (".."%string, dir 100); ("a/.."%string, dir 100); ("a/../.."%string, dir 100)].

#[global] Instance env : PathEnv (E := ExVfd.env) := {|
  pools := [Mount 1 (cstr "mnt") 5 (dir 20)];
  sys_call _ w := (0, w);
  sys_getgroups _ w := ((0, []), w);
  sys_newfstatat _ path _ w := (stat_of kernel_files path, w);
  sys_readlinkat _ _ _ w := ((5, cstr "mnt/a"), w);
  pm_call _ _ w := (0, w);
  pm_pool_open _ w := (0, w);
  pm_fstatat _ _ path _ w := (stat_of pool_files path, w);
  pm_readlinkat _ _ _ _ w := ((5, cstr "mnt/a"), w);
  sys_getcwd _ w := ((2, cstr "/"), w);
  pm_getcwd _ _ w := ((0, cstr "/a"), w);
|}.

#[global] Instance env_ok : PathEnvOk (E := ExVfd.env).
Proof.
  assert (Hl : link_ok (cstr "mnt/a")) by (split; [done|split; [apply (bool_decide_unpack _); vm_compute; exact I|done]]).
  split; try done.
  - intros m [->|[]%elem_of_nil]%elem_of_cons. apply (bool_decide_unpack _). vm_compute. exact I.
Qed.

(** The pool is not open yet, and is. *)
Definition s0 : hook_state := HState _ ExVfd.s0 ∅ false false.
Definition s1 : hook_state := HState _ ExVfd.s0 {[1%positive := dir 100]} false false.
Definition buffer : resolved_path := RPath 0 0 None None (replicate (Z.to_nat PATH_MAX) NUL).
Definition cwd : vfd_reference := VfdRef None None 3 None.
Definition in_pool : vfd_reference := VfdRef (Some 1%positive) (Some 1%positive) 0 None.
Definition run (at_ : vfd_reference) (path : string) (s : hook_state) : outcome hook_state resolved_path :=
  resolve_path 1 true RESOLVE_LAST_SLINK at_ (Some (cstr path)) buffer s.
Definition shown (o : outcome hook_state resolved_path) : option (Z * option positive * cstring) :=
  match o with Ok rp _ => Some (rp_error rp, rp_at_pool rp, until_nul (rp_path rp)) | _ => None end.

Lemma s0_hok : hok s0.
Proof.
  split; [done|..].
  - intros p [m Hm]. apply pool_mount_in in Hm as [[->|[]%elem_of_nil]%elem_of_cons <-]. by eexists.
  - intros p d Hd. change (ExVfd.pools !! p = Some d) in Hd. unfold ExVfd.pools in Hd. apply lookup_singleton_Some in Hd as [_ <-]. done.
Qed.
Lemma links_plain : plain_links.
Proof.
  assert (H : plain (cstr "mnt/a")) by (intros a b H; do 6 (destruct a as [|? a]; [by inversion H|]); by inversion H). split; intros; exact H.
Qed.
End ExPath.



