(* ===== verification/Hooks.v ===== *)
(** The hooks of libpmemfile (preload.c) and the table that selects the system calls
    they see (syscall_early_filter.c): every system call of the application is sent
    to the kernel, or to the pool its path or descriptor leads into. *)
From S2P Require Import Prelude CString VfdTable PathResolve.

Definition AT_REMOVEDIR : Z := 0x200.
Definition AT_SYMLINK_FOLLOW : Z := 0x400.
Definition O_WRONLY : Z := 1.
Definition O_CREAT : Z := 0x40.
Definition O_TRUNC : Z := 0x200.
Definition O_NOFOLLOW : Z := 0x20000.
Definition F_DUPFD : Z := 0.
Definition F_GETLK : Z := 5.
Definition F_SETLK : Z := 6.
Definition F_SETLKW : Z := 7.
Definition F_DUPFD_CLOEXEC : Z := 1030.
Definition RWF_FLAGS : Z := 7.
Definition AF_UNIX : Z := 1.
Definition INT_MAX : Z := 2 ^ 31 - 1.
(** The sizes of the structures that are checked. *)
Definition SIZEOF_SOCKADDR : Z := 16.
Definition SIZEOF_SOCKADDR_UN : Z := 110.
Definition SUN_PATH_SIZE : Z := 108.
(** How the process ends: [exit] with PMEMFILE_PRELOAD_EXIT_NOT_SUPPORTED, [abort]. *)
Definition EXIT_NOT_SUPPORTED : Z := 95.
Definition EXIT_FATAL : Z := 134.

(** The cast to [int]. *)
Definition i32 (z : Z) : Z := let w := u32 z in if w <? 2 ^ 31 then w else w - 2 ^ 32.

(** The memory of the application: the string, the long, the group id, the
    environment and the socket address at an address that is not NULL. *)
Record user_mem := UserMem {
  um_str : Z → cstring;
  um_long : Z → Z;
  um_gid : Z → Z;
  um_env : Z → list cstring;
  um_sockaddr : Z → Z * cstring;
}.

(** The argument [times] of utimensat: NULL, an array of the application, or the
    seconds and nanoseconds of an array of the hook. *)
Inductive times_arg := TNull | TUser (address : Z) | TSpec (l : list Z).
Definition times_args (t : times_arg) : list Z := match t with TNull => [0] | TUser a => [a] | TSpec l => l end.

Section hooks.
Context `{E : VfdEnv} {PE : PathEnv}.

(** [stack] is what a [struct resolved_path] of a hook holds before it is set; the
    last two tell whether the allocations of [hook_execveat_vfdref] succeed. *)
Variables (open_fuel : nat) (malloc_ok exit_on_ENOTSUP : bool) (stack : resolved_path) (mem : user_mem) (env_malloc_ok asprintf_ok : bool).

Notation resolve_path := (resolve_path open_fuel malloc_ok).

Definition cstr_at (a : Z) : option cstring := if a =? 0 then None else Some (um_str mem a).

Definition is_accessible (ptr len : Z) : bool := (len =? 0) || negb (ptr =? 0).
Definition is_str_accessible (str : option cstring) : bool := bool_decide (is_Some str).

Definition check_errno (e : Z) (syscall_no : sysno) : M hook_state Z :=
  if (e =? - ENOTSUP) && exit_on_ENOTSUP then tx_abort EXIT_NOT_SUPPORTED else mret e.

Definition lock_cwd : M hook_state unit :=
  b ← gets hs_cwd_mutex; assert_ (negb b);; modify (set_hs_cwd_mutex true).
Definition unlock_cwd : M hook_state unit :=
  b ← gets hs_cwd_mutex; assert_ b;; modify (set_hs_cwd_mutex false).

(** ** What the hooks with a path share *)

(** A reference to a directory around [k]. *)
Definition with_at (fd : Z) (k : vfd_reference → M hook_state Z) : M hook_state Z :=
  at_ ← on_vfd (pmemfile_vfd_at_ref fd);
  ret ← k at_;
  on_vfd (pmemfile_vfd_unref at_);;
  mret ret.

(** The path is resolved, and [k] gets the result if there was no error. *)
Definition with_path (fd : Z) (path : option cstring) (flags : Z) (k : resolved_path → M hook_state Z) : M hook_state Z :=
  with_at fd (λ at_,
    where_ ← resolve_path flags at_ path stack;
    if negb (rp_error where_ =? 0) then mret (rp_error where_) else k where_).

(** A pool in use around [m], and a call on it. *)
Definition within {A} (p : positive) (m : M hook_state A) : M hook_state A :=
  on_vfd (pool_acquire (Some p));;
  r ← m;
  on_vfd (pool_release (Some p));;
  mret r.
Definition pool_call (p : positive) (c : pmcall) : M hook_state Z := within p (pcall p (pm_call p c)).

(** The kernel's call for a path outside of the pools, else the pool's. *)
Definition send (where_ : resolved_path) (nr : sysno) (kernel : cstring → syscall) (pool : cstring → pmcall) : M hook_state Z :=
  path ← buf_string (rp_path where_);
  match rp_at_pool where_ with
  | None => hcall (sys_call (kernel path))
  | Some p => r ← pool_call p (pool path); check_errno r nr
  end.
(** The same for a call that pools do not support. *)
Definition send_kernel (where_ : resolved_path) (nr : sysno) (kernel : cstring → syscall) : M hook_state Z :=
  path ← buf_string (rp_path where_);
  match rp_at_pool where_ with
  | None => hcall (sys_call (kernel path))
  | Some _ => check_errno (- ENOTSUP) nr
  end.

Definition last_link (follow : bool) : Z := if follow then RESOLVE_LAST_SLINK else NO_RESOLVE_LAST_SLINK.
Definition has_flag (flags f : Z) : bool := negb (Z.land flags f =? 0).

(** ** Hooks with one path *)

Definition hook_unlinkat (fd : Z) (path : option cstring) (flags : Z) : M hook_state Z :=
  if negb (is_str_accessible path) then mret (- EFAULT)
  else with_path fd path NO_RESOLVE_LAST_SLINK (λ where_,
    send where_ SYS_unlinkat (λ p, K_path SYS_unlinkat (Some (rp_at_kernel where_)) (Some p) [flags])
      (λ p, P_path SYS_unlinkat (rp_at_dir where_) (Some p) [i32 flags])).

Definition hook_newfstatat (fd : Z) (path : option cstring) (st arg2 : Z) : M hook_state Z :=
  if negb (is_str_accessible path) then mret (- EFAULT)
  else if negb (is_accessible st 144) then mret (- EFAULT)
  else with_path fd path (last_link (negb (has_flag arg2 AT_SYMLINK_NOFOLLOW))) (λ where_,
    send where_ SYS_newfstatat (λ p, K_path SYS_newfstatat (Some (rp_at_kernel where_)) (Some p) [st; arg2])
      (λ p, P_path SYS_newfstatat (rp_at_dir where_) (Some p) [st; i32 arg2])).

Definition hook_faccessat (fd : Z) (path : option cstring) (mode : Z) : M hook_state Z :=
  if negb (is_str_accessible path) then mret (- EFAULT)
  else with_path fd path NO_RESOLVE_LAST_SLINK (λ where_,
    send where_ SYS_faccessat (λ p, K_path SYS_faccessat (Some (rp_at_kernel where_)) (Some p) [mode])
      (λ p, P_path SYS_faccessat (rp_at_dir where_) (Some p) [i32 mode; 0])).

Definition hook_getxattr (path : option cstring) (arg1 arg2 arg3 resolve_last : Z) : M hook_state Z :=
  if negb (is_str_accessible path) then mret (- EFAULT)
  else with_path AT_FDCWD path (Z.lor resolve_last NO_AT_PATH) (λ where_,
    send_kernel where_ SYS_getxattr (λ p, K_path SYS_getxattr None (Some p) [arg1; arg2; arg3])).

Definition hook_setxattr (path : option cstring) (arg1 arg2 arg3 arg4 resolve_last : Z) : M hook_state Z :=
  if negb (is_str_accessible path) then mret (- EFAULT)
  else with_path AT_FDCWD path (Z.lor resolve_last NO_AT_PATH) (λ where_,
    send_kernel where_ SYS_setxattr (λ p, K_path SYS_setxattr None (Some p) [arg1; arg2; arg3; arg4])).

Definition hook_mkdirat (fd : Z) (path : option cstring) (mode : Z) : M hook_state Z :=
  if negb (is_str_accessible path) then mret (- EFAULT)
  else with_path fd path NO_RESOLVE_LAST_SLINK (λ where_,
    send where_ SYS_mkdirat (λ p, K_path SYS_mkdirat (Some (rp_at_kernel where_)) (Some p) [mode])
      (λ p, P_path SYS_mkdirat (rp_at_dir where_) (Some p) [u32 mode])).

(** [openat_helper] itself exits when a pool does not support the flags. *)
Definition hook_openat (fd_at : Z) (path : option cstring) (flags mode : Z) : M hook_state Z :=
  if negb (is_str_accessible path) then mret (- EFAULT)
  else with_path fd_at path (last_link (negb (has_flag flags O_NOFOLLOW || has_flag flags O_CREAT))) (λ where_,
    path ← buf_string (rp_path where_);
    match rp_at_pool where_ with
    | None => hcall (sys_call (K_path SYS_openat (Some (rp_at_kernel where_)) (Some path) [flags; mode]))
    | Some p => r ← on_vfd (openat_helper p (rp_at_dir where_) path (i32 flags) (u32 mode)); check_errno r SYS_openat
    end).

Definition hook_truncate (path : option cstring) (length : Z) : M hook_state Z :=
  if negb (is_str_accessible path) then mret (- EFAULT)
  else with_path AT_FDCWD path (Z.lor RESOLVE_LAST_SLINK NO_AT_PATH) (λ where_,
    send where_ SYS_truncate (λ p, K_path SYS_truncate None (Some p) [length]) (λ p, P_path SYS_truncate None (Some p) [length])).

Definition hook_symlinkat (target : option cstring) (fd : Z) (linkpath : option cstring) : M hook_state Z :=
  match target with
  | None => mret (- EFAULT)
  | Some target =>
      if negb (is_str_accessible linkpath) then mret (- EFAULT)
      else with_path fd linkpath NO_RESOLVE_LAST_SLINK (λ where_,
        send where_ SYS_symlinkat (λ p, K_symlinkat target (rp_at_kernel where_) p) (λ p, P_symlinkat target (rp_at_dir where_) p))
  end.

Definition hook_fchmodat (fd : Z) (path : option cstring) (mode : Z) : M hook_state Z :=
  if negb (is_str_accessible path) then mret (- EFAULT)
  else with_path fd path RESOLVE_LAST_SLINK (λ where_,
    send where_ SYS_fchmodat (λ p, K_path SYS_fchmodat (Some (rp_at_kernel where_)) (Some p) [mode])
      (λ p, P_path SYS_fchmodat (rp_at_dir where_) (Some p) [mode; 0])).

Definition hook_fchownat (fd : Z) (path : option cstring) (owner group flags : Z) : M hook_state Z :=
  if negb (is_str_accessible path) then mret (- EFAULT)
  else with_path fd path (last_link (negb (has_flag flags AT_SYMLINK_NOFOLLOW))) (λ where_,
    send where_ SYS_fchownat (λ p, K_path SYS_fchownat (Some (rp_at_kernel where_)) (Some p) [owner; group; flags])
      (λ p, P_path SYS_fchownat (rp_at_dir where_) (Some p) [owner; group; flags])).

Definition hook_readlinkat (fd : Z) (path : option cstring) (buf bufsiz : Z) : M hook_state Z :=
  if negb (is_str_accessible path) then mret (- EFAULT)
  else if negb (is_accessible buf bufsiz) then mret (- EFAULT)
  else with_path fd path NO_RESOLVE_LAST_SLINK (λ where_,
    path ← buf_string (rp_path where_);
    match rp_at_pool where_ with
    | None => hcall (sys_call (K_path SYS_readlinkat (Some (rp_at_kernel where_)) (Some path) [buf; bufsiz]))
    | Some p =>
        r ← pool_call p (P_path SYS_readlinkat (rp_at_dir where_) (Some path) [buf; bufsiz]);
        assert_ (r <? INT_MAX);;
        check_errno r SYS_readlinkat
    end).

Definition nosup_syscall_with_path (syscall_number : sysno) (path : option cstring) (resolve_last arg1 arg2 arg3 arg4 arg5 : Z) : M hook_state Z :=
  if negb (is_str_accessible path) then mret (- EFAULT)
  else with_path AT_FDCWD path (Z.lor resolve_last NO_AT_PATH) (λ where_,
    send_kernel where_ syscall_number (λ p, K_path syscall_number None (Some p) [arg1; arg2; arg3; arg4; arg5])).

Definition hook_futimesat (fd : Z) (path : option cstring) (times : Z) : M hook_state Z :=
  if negb (is_str_accessible path) then mret (- EFAULT)
  else if negb (times =? 0) && negb (is_accessible times 32) then mret (- EFAULT)
  else with_path fd path NO_RESOLVE_LAST_SLINK (λ where_,
    send where_ SYS_futimesat (λ p, K_path SYS_futimesat (Some (rp_at_kernel where_)) (Some p) [times])
      (λ p, P_path SYS_futimesat (rp_at_dir where_) (Some p) [times])).

Definition hook_name_to_handle_at (fd : Z) (path : option cstring) (handle mount_id flags : Z) : M hook_state Z :=
  if negb (is_str_accessible path) then mret (- EFAULT)
  else with_path fd path (last_link (has_flag flags AT_SYMLINK_FOLLOW)) (λ where_,
    send_kernel where_ SYS_name_to_handle_at (λ p, K_path SYS_name_to_handle_at (Some (rp_at_kernel where_)) (Some p) [mount_id; flags])).

Definition hook_mknodat (fd : Z) (path : option cstring) (mode dev : Z) : M hook_state Z :=
  if negb (is_str_accessible path) then mret (- EFAULT)
  else with_path fd path NO_RESOLVE_LAST_SLINK (λ where_,
    send where_ SYS_mknodat (λ p, K_path SYS_mknodat (Some (rp_at_kernel where_)) (Some p) [mode; dev])
      (λ p, P_path SYS_mknodat (rp_at_dir where_) (Some p) [mode; dev])).

Definition hook_statfs (path : option cstring) (buf : Z) : M hook_state Z :=
  if negb (is_str_accessible path) then mret (- EFAULT)
  else if negb (is_accessible buf 120) then mret (- EFAULT)
  else with_path AT_FDCWD path (Z.lor RESOLVE_LAST_SLINK NO_AT_PATH) (λ where_,
    send where_ SYS_statfs (λ p, K_path SYS_statfs None (Some p) [buf]) (λ _, P_path SYS_statfs None None [buf])).

Definition hook_bind (sockfd addr addrlen : Z) : M hook_state Z :=
  if negb (is_accessible addr SIZEOF_SOCKADDR) then mret (- EFAULT)
  else
    let '(sa_family, sun_path) := um_sockaddr mem addr in
    if negb (sa_family =? AF_UNIX) || (addrlen <? SIZEOF_SOCKADDR_UN) then hcall (sys_call (K_args SYS_bind [sockfd; addr; addrlen]))
    else with_path AT_FDCWD (Some sun_path) (Z.lor NO_RESOLVE_LAST_SLINK NO_AT_PATH) (λ where_,
      path ← buf_string (rp_path where_);
      match rp_at_pool where_ with
      | Some _ => check_errno (- ENOTSUP) SYS_bind
      | None =>
          if SUN_PATH_SIZE <=? Z.of_nat (length path) then mret (- ENAMETOOLONG)
          else hcall (sys_call (K_path SYS_bind (Some sockfd) (Some path) [SIZEOF_SOCKADDR_UN]))
      end).

(** ** Hooks with two paths *)

(** Both paths are resolved before either result is looked at. *)
Definition with_paths (fd0 : Z) (path0 : option cstring) (flags0 fd1 : Z) (path1 : option cstring) (flags1 : Z)
    (k : resolved_path → resolved_path → M hook_state Z) : M hook_state Z :=
  at0 ← on_vfd (pmemfile_vfd_at_ref fd0);
  at1 ← on_vfd (pmemfile_vfd_at_ref fd1);
  where_old ← resolve_path flags0 at0 path0 stack;
  where_new ← resolve_path flags1 at1 path1 stack;
  ret ← (if negb (rp_error where_old =? 0) then mret (rp_error where_old)
         else if negb (rp_error where_new =? 0) then mret (rp_error where_new)
         else if bool_decide (rp_at_pool where_new ≠ rp_at_pool where_old) then mret (- EXDEV)
         else k where_old where_new);
  on_vfd (pmemfile_vfd_unref at0);;
  on_vfd (pmemfile_vfd_unref at1);;
  mret ret.

Definition send2 (old new : resolved_path) (nr : sysno) (kernel : cstring → cstring → syscall) (pool : cstring → cstring → pmcall) : M hook_state Z :=
  p0 ← buf_string (rp_path old);
  p1 ← buf_string (rp_path new);
  match rp_at_pool old with
  | None => hcall (sys_call (kernel p0 p1))
  | Some p => r ← pool_call p (pool p0 p1); check_errno r nr
  end.

Definition hook_linkat (fd0 : Z) (arg0 : option cstring) (fd1 : Z) (arg1 : option cstring) (flags : Z) : M hook_state Z :=
  if negb (is_str_accessible arg0) then mret (- EFAULT)
  else if negb (is_str_accessible arg1) then mret (- EFAULT)
  else with_paths fd0 arg0 RESOLVE_LAST_SLINK fd1 arg1 NO_RESOLVE_LAST_SLINK (λ old new,
    send2 old new SYS_linkat (λ p0 p1, K_path2 SYS_linkat (rp_at_kernel old) p0 (rp_at_kernel new) p1 [flags])
      (λ p0 p1, P_path2 SYS_linkat (rp_at_dir old) p0 (rp_at_dir new) p1 [i32 flags])).

Definition hook_renameat2 (fd_old : Z) (path_old : option cstring) (fd_new : Z) (path_new : option cstring) (flags : Z) : M hook_state Z :=
  if negb (is_str_accessible path_old) then mret (- EFAULT)
  else if negb (is_str_accessible path_new) then mret (- EFAULT)
  else with_paths fd_old path_old NO_RESOLVE_LAST_SLINK fd_new path_new NO_RESOLVE_LAST_SLINK (λ old new,
    send2 old new SYS_renameat2
      (λ p0 p1, if flags =? 0 then K_path2 SYS_renameat (rp_at_kernel old) p0 (rp_at_kernel new) p1 []
                else K_path2 SYS_renameat2 (rp_at_kernel old) p0 (rp_at_kernel new) p1 [flags])
      (λ p0 p1, P_path2 SYS_renameat2 (rp_at_dir old) p0 (rp_at_dir new) p1 [flags])).

(** ** Hooks with two descriptors, and mmap *)

Definition kernel_fds_only (nr : sysno) (fd_in fd_out : Z) (args : list Z) : M hook_state Z :=
  in_ ← on_vfd (pmemfile_vfd_at_ref fd_in);
  out ← on_vfd (pmemfile_vfd_at_ref fd_out);
  ret ← (if bool_decide (is_Some (vr_pool in_)) || bool_decide (is_Some (vr_pool out)) then check_errno (- ENOTSUP) nr
         else hcall (sys_call (K_args nr args)));
  on_vfd (pmemfile_vfd_unref out);;
  on_vfd (pmemfile_vfd_unref in_);;
  mret ret.
Definition hook_sendfile (out_fd in_fd offset count : Z) : M hook_state Z :=
  kernel_fds_only SYS_sendfile in_fd out_fd [out_fd; in_fd; offset; count].
Definition hook_splice (fd_in off_in fd_out off_out len flags : Z) : M hook_state Z :=
  kernel_fds_only SYS_splice fd_in fd_out [fd_in; off_in; fd_out; off_out; len; flags].
Definition hook_copy_file_range (fd_in off_in fd_out off_out len flags : Z) : M hook_state Z :=
  kernel_fds_only SYS_copy_file_range fd_in fd_out [fd_in; off_in; fd_out; off_out; len; flags].

Definition hook_mmap (arg0 arg1 arg2 arg3 fd arg5 : Z) : M hook_state Z :=
  file ← on_vfd (pmemfile_vfd_ref fd);
  ret ← (if bool_decide (is_Some (vr_pool file)) then check_errno (- ENOTSUP) SYS_mmap
         else hcall (sys_call (K_args SYS_mmap [arg0; arg1; arg2; arg3; vr_kernel_fd file; arg5])));
  on_vfd (pmemfile_vfd_unref file);;
  mret ret.

(** ** Times *)

Definition utimensat_helper (sc : sysno) (at_ : vfd_reference) (path : option cstring) (times : times_arg) (flags : Z) : M hook_state Z :=
  if bool_decide (vr_pool at_ = None) && bool_decide (path = None) then
    hcall (sys_call (K_path SYS_utimensat (Some (vr_kernel_fd at_)) None (times_args times ++ [flags])))
  else
    where_ ← resolve_path (last_link (negb (has_flag flags AT_SYMLINK_NOFOLLOW))) at_ path stack;
    if negb (rp_error where_ =? 0) then mret (rp_error where_)
    else
      p ← buf_string (rp_path where_);
      match rp_at_pool where_ with
      | None => hcall (sys_call (K_path SYS_utimensat (Some (rp_at_kernel where_)) (Some p) (times_args times ++ [flags])))
      | Some pool =>
          if bool_decide (path = None) && negb (Z.ldiff flags AT_SYMLINK_NOFOLLOW =? 0) then mret (- EINVAL)
          else
            r ← (if bool_decide (path = None) then pcall pool (pm_call pool (P_file SYS_utimensat (rp_at_dir where_) (times_args times)))
                 else pool_call pool (P_path SYS_utimensat (rp_at_dir where_) (Some p) (times_args times ++ [flags])));
            check_errno r sc
      end.

Definition hook_utime (path : option cstring) (times : Z) : M hook_state Z :=
  if bool_decide (path = None) then mret (- EFAULT)
  else if negb (times =? 0) && negb (is_accessible times 16) then mret (- EFAULT)
  else
    let timespec := if times =? 0 then TNull else TSpec [um_long mem times; 0; um_long mem (times + 8); 0] in
    with_at AT_FDCWD (λ at_, utimensat_helper SYS_utime at_ path timespec 0).

Definition hook_utimes (path : option cstring) (times : Z) : M hook_state Z :=
  if bool_decide (path = None) then mret (- EFAULT)
  else if negb (times =? 0) && negb (is_accessible times 16) then mret (- EFAULT)
  else
    let timespec := if times =? 0 then TNull
      else TSpec [um_long mem times; i64 (um_long mem (times + 8) * 1000); um_long mem (times + 16); i64 (um_long mem (times + 24) * 1000)] in
    with_at AT_FDCWD (λ at_, utimensat_helper SYS_utimes at_ path timespec 0).

Definition hook_utimensat (fd : Z) (path : option cstring) (times flags : Z) : M hook_state Z :=
  with_at fd (λ at_, utimensat_helper SYS_utimensat at_ path (if times =? 0 then TNull else TUser times) flags).

(** ** The current directory *)

Definition hook_chdir (path : option cstring) : M hook_state Z :=
  if negb (is_str_accessible path) then mret (- EFAULT)
  else
    lock_cwd;;
    result ← with_path AT_FDCWD path RESOLVE_LAST_SLINK (λ where_,
      p ← buf_string (rp_path where_);
      r ← on_vfd (chdir_resolved (Resolved (rp_at_kernel where_) (rp_at_pool where_) (rp_at_dir where_) p));
      if bool_decide (is_Some (rp_at_pool where_)) then check_errno r SYS_chdir else mret r);
    unlock_cwd;;
    mret result.

(** The result, and the string in the buffer if it is written. *)
Definition hook_pool_getcwd (pool : option positive) (buf size : Z) : M hook_state (Z * option cstring) :=
  match pool with
  | None => '(r, cwd) ← hcall (sys_getcwd size); mret (r, if 0 <? r then Some cwd else None)
  | Some p =>
      m ← of_option BadPointer (pool_mount p);
      let mlen := Z.of_nat (length (mp_path m)) in
      if size <=? mlen then mret (- ERANGE, None)
      else if negb (is_accessible buf size) then mret (- EFAULT, None)
      else
        within p (
          '(r, cwd) ← pcall p (pm_getcwd p (size - mlen));
          ret ← (if r <? 0 then check_errno r SYS_getcwd else mret 0);
          mret (ret, Some (if r <? 0 then mp_path m else mp_path m ++ cwd)))
  end.

Definition hook_getcwd (buf size : Z) : M hook_state (Z * option cstring) :=
  lock_cwd;;
  at_ ← on_vfd (pmemfile_vfd_at_ref AT_FDCWD);
  result ← hook_pool_getcwd (vr_pool at_) buf size;
  on_vfd (pmemfile_vfd_unref at_);;
  unlock_cwd;;
  mret result.

(** ** Executing a program *)

Definition PMEMFILE_CD : cstring := cstr "PMEMFILE_CD=".

(** The error number, or the environment with the current directory in the pool. *)
Definition hook_execveat_vfdref (cwd_pool : positive) (envp : list cstring) : M hook_state (Z + list cstring) :=
  if negb env_malloc_ok then mret (inl (- ENOMEM))
  else
    let new_envp := filter (λ e, take (length PMEMFILE_CD) e ≠ PMEMFILE_CD) envp in
    '(r, cwd) ← within cwd_pool (pcall cwd_pool (pm_getcwd cwd_pool 0));
    if r <? 0 then mret (inl r)
    else if negb asprintf_ok then mret (inl (- ENOMEM))
    else
      m ← of_option BadPointer (pool_mount cwd_pool);
      mret (inr (new_envp ++ [PMEMFILE_CD ++ mp_path m ++ [SLASH] ++ cwd])).

Definition hook_execveat (fd : Z) (path : option cstring) (argv : Z) (envp : list cstring) (flags : Z) : M hook_state Z :=
  if negb (is_str_accessible path) then mret (- EFAULT)
  else with_path fd path (last_link (negb (has_flag flags AT_SYMLINK_NOFOLLOW))) (λ where_,
    p ← buf_string (rp_path where_);
    match rp_at_pool where_ with
    | Some _ => check_errno (- ENOTSUP) SYS_execveat
    | None =>
        lock_cwd;;
        cwd ← on_vfd (pmemfile_vfd_at_ref AT_FDCWD);
        sw ← on_vfd (gets vs_switching);
        desc ← match vr_pool cwd with Some pool => if sw : bool then hook_execveat_vfdref pool envp else mret (inr envp) | None => mret (inr envp) end;
        on_vfd (pmemfile_vfd_unref cwd);;
        unlock_cwd;;
        match desc with
        | inl e => mret e
        | inr envp => hcall (sys_call (K_execveat (rp_at_kernel where_) p argv envp flags))
        end
    end).

(** ** User and group ids *)

(** [f] on the pools that are open. *)
Fixpoint on_open_pools (l : list mount) (f : positive → M hook_state unit) : M hook_state unit :=
  match l with
  | [] => mret tt
  | m :: l' =>
      roots ← gets hs_roots;
      (if bool_decide (is_Some (roots !! mp_pool m)) then f (mp_pool m) else mret tt);;
      on_open_pools l' f
  end.
Definition fatal_unless (b : bool) : M hook_state unit := if b then mret tt else tx_abort EXIT_FATAL.

(** The id the process has is read back by setting an invalid one. *)
Definition set_fs_id (set : Z → syscall) (pm_set : Z → pmcall) (id : Z) : M hook_state Z :=
  old ← hcall (sys_call (set id));
  now ← hcall (sys_call (set (-1)));
  if negb (now =? id) then mret old
  else
    on_open_pools pools (λ p, r ← hcall (pm_call p (pm_set id)); fatal_unless (r =? old);; update_capabilities p);;
    mret old.
Definition hook_setfsuid (fsuid : Z) : M hook_state Z := set_fs_id K_setfsuid P_setfsuid fsuid.
Definition hook_setfsgid (fsgid : Z) : M hook_state Z := set_fs_id K_setfsgid P_setfsgid fsgid.

Definition set_pool_ids (nr : sysno) (args : list Z) (c : pmcall) : M hook_state Z :=
  ret ← hcall (sys_call (K_args nr args));
  if negb (ret =? 0) then mret ret
  else
    on_open_pools pools (λ p, r ← hcall (pm_call p c); fatal_unless (r =? 0);; update_capabilities p);;
    mret 0.
Definition hook_setgid (gid : Z) : M hook_state Z := set_pool_ids SYS_setgid [gid] (P_setgid gid).
Definition hook_setgroups (size list : Z) : M hook_state Z :=
  set_pool_ids SYS_setgroups [size; list] (P_setgroups (map (λ i, um_gid mem (list + 4 * i)) (seqZ 0 size))).
Definition hook_setregid (rgid egid : Z) : M hook_state Z := set_pool_ids SYS_setregid [rgid; egid] (P_setregid rgid egid).
Definition hook_setresgid (rgid egid sgid : Z) : M hook_state Z := set_pool_ids SYS_setresgid [rgid; egid; sgid] (P_setregid rgid egid).
Definition hook_setresuid (ruid euid suid : Z) : M hook_state Z := set_pool_ids SYS_setresuid [ruid; euid; suid] (P_setreuid ruid euid).
Definition hook_setreuid (ruid euid : Z) : M hook_state Z := set_pool_ids SYS_setreuid [ruid; euid] (P_setreuid ruid euid).
Definition hook_setuid (uid : Z) : M hook_state Z := set_pool_ids SYS_setuid [uid] (P_setuid uid).

Definition hook_umask (mask : Z) : M hook_state Z :=
  ret ← hcall (sys_call (K_umask mask));
  on_open_pools pools (λ p, r ← hcall (pm_call p (P_umask mask)); fatal_unless (r =? ret));;
  mret ret.

(** ** Calls whose first argument is a descriptor *)

(** [fd_first_pmemfile_*] *)
Definition fd_first (nr : sysno) (file : vfd_reference) (args : list Z) : M hook_state Z :=
  p ← of_option NullDeref (vr_pool file);
  d ← on_vfd (pool_get p);
  assert_ (negb (pd_suspended d));;
  pcall p (pm_call p (P_file nr (vr_file file) args)).

Definition hook_fcntl (file : vfd_reference) (cmd arg : Z) : M hook_state Z :=
  p ← of_option NullDeref (vr_pool file);
  d ← on_vfd (pool_get p);
  assert_ (negb (pd_suspended d));;
  sw ← on_vfd (gets vs_switching);
  if sw && ((cmd =? F_SETLK) || (cmd =? F_SETLKW) || (cmd =? F_GETLK)) then mret (- ENOTSUP)
  else if (cmd =? F_GETLK) && negb (is_accessible arg 32) then mret (- EFAULT)
  else pcall p (pm_call p (P_file SYS_fcntl (vr_file file) [cmd; arg])).

Definition dispatch_syscall_fd_first (syscall_number : sysno) (arg0 : vfd_reference) (arg1 arg2 arg3 arg4 arg5 : Z) : M hook_state Z :=
  let buffer k := if negb (is_accessible arg1 (u64 arg2)) then mret (- EFAULT) else k in
  let flags k := if negb (Z.ldiff arg4 RWF_FLAGS =? 0) then mret (- EINVAL) else k in
  match syscall_number with
  | SYS_write => buffer (fd_first SYS_write arg0 [arg1; u64 arg2])
  | SYS_writev => fd_first SYS_writev arg0 [arg1; i32 arg2]
  | SYS_read => buffer (fd_first SYS_read arg0 [arg1; u64 arg2])
  | SYS_readv => fd_first SYS_readv arg0 [arg1; i32 arg2]
  | SYS_lseek => fd_first SYS_lseek arg0 [arg1; i32 arg2]
  | SYS_pread64 => buffer (fd_first SYS_pread64 arg0 [arg1; u64 arg2; arg3])
  | SYS_pwrite64 => buffer (fd_first SYS_pwrite64 arg0 [arg1; u64 arg2; arg3])
  | SYS_preadv2 => flags (fd_first SYS_preadv arg0 [arg1; i32 arg2; arg3])
  | SYS_preadv => fd_first SYS_preadv arg0 [arg1; i32 arg2; arg3]
  | SYS_pwritev2 => flags (fd_first SYS_pwritev arg0 [arg1; i32 arg2; arg3])
  | SYS_pwritev => fd_first SYS_pwritev arg0 [arg1; i32 arg2; arg3]
  | SYS_getdents => buffer (fd_first SYS_getdents arg0 [arg1; u32 arg2])
  | SYS_getdents64 => buffer (fd_first SYS_getdents64 arg0 [arg1; u32 arg2])
  | SYS_fcntl => hook_fcntl arg0 (i32 arg1) arg2
  | SYS_flock => fd_first SYS_flock arg0 [i32 arg1]
  | SYS_ftruncate => fd_first SYS_ftruncate arg0 [arg1]
  | SYS_fchmod => fd_first SYS_fchmod arg0 [u32 arg1]
  | SYS_fchown => fd_first SYS_fchown arg0 [u32 arg1; u32 arg2]
  | SYS_fallocate => fd_first SYS_fallocate arg0 [i32 arg1; arg2; arg3]
  | SYS_fstat => if negb (is_accessible arg1 144) then mret (- EFAULT) else fd_first SYS_fstat arg0 [arg1]
  | SYS_fstatfs =>
      if negb (is_accessible arg1 120) then mret (- EFAULT)
      else p ← of_option NullDeref (vr_pool arg0); pcall p (pm_call p (P_path SYS_statfs None None [arg1]))
  | _ => fault_ AssertFail
  end.

(** ** Dispatching *)

Definition dispatch_syscall (syscall_number : sysno) (arg0 arg1 arg2 arg3 arg4 arg5 : Z) : M hook_state Z :=
  let str := cstr_at in
  match syscall_number with
  | SYS_open => hook_openat AT_FDCWD (str arg0) arg1 arg2
  | SYS_creat => hook_openat AT_FDCWD (str arg0) (Z.lor O_WRONLY (Z.lor O_CREAT O_TRUNC)) arg1
  | SYS_openat => hook_openat (i32 arg0) (str arg1) arg2 arg3
  | SYS_rename => hook_renameat2 AT_FDCWD (str arg0) AT_FDCWD (str arg1) 0
  | SYS_renameat => hook_renameat2 (i32 arg0) (str arg1) (i32 arg2) (str arg3) 0
  | SYS_renameat2 => hook_renameat2 (i32 arg0) (str arg1) (i32 arg2) (str arg3) (u32 arg4)
  | SYS_link => hook_linkat AT_FDCWD (str arg0) AT_FDCWD (str arg1) 0
  | SYS_linkat => hook_linkat (i32 arg0) (str arg1) (i32 arg2) (str arg3) arg4
  | SYS_unlink => hook_unlinkat AT_FDCWD (str arg0) 0
  | SYS_unlinkat => hook_unlinkat (i32 arg0) (str arg1) arg2
  | SYS_rmdir => hook_unlinkat AT_FDCWD (str arg0) AT_REMOVEDIR
  | SYS_mkdir => hook_mkdirat AT_FDCWD (str arg0) arg1
  | SYS_mkdirat => hook_mkdirat (i32 arg0) (str arg1) arg2
  | SYS_access => hook_faccessat AT_FDCWD (str arg0) arg1
  | SYS_faccessat => hook_faccessat (i32 arg0) (str arg1) arg2
  | SYS_stat => hook_newfstatat AT_FDCWD (str arg0) arg1 0
  | SYS_lstat => hook_newfstatat AT_FDCWD (str arg0) arg1 AT_SYMLINK_NOFOLLOW
  | SYS_newfstatat => hook_newfstatat (i32 arg0) (str arg1) arg2 arg3
  | SYS_close => on_vfd (pmemfile_vfd_close (i32 arg0))
  | SYS_mmap => hook_mmap arg0 arg1 arg2 arg3 (i32 arg4) arg5
  | SYS_getxattr => hook_getxattr (str arg0) arg1 arg2 arg3 RESOLVE_LAST_SLINK
  | SYS_lgetxattr => hook_getxattr (str arg0) arg1 arg2 arg3 NO_RESOLVE_LAST_SLINK
  | SYS_setxattr => hook_setxattr (str arg0) arg1 arg2 arg3 arg4 RESOLVE_LAST_SLINK
  | SYS_lsetxattr => hook_setxattr (str arg0) arg1 arg2 arg3 arg4 NO_RESOLVE_LAST_SLINK
  | SYS_truncate => hook_truncate (str arg0) arg1
  | SYS_symlink => hook_symlinkat (str arg0) AT_FDCWD (str arg1)
  | SYS_symlinkat => hook_symlinkat (str arg0) (i32 arg1) (str arg2)
  | SYS_chmod => hook_fchmodat AT_FDCWD (str arg0) (u32 arg1)
  | SYS_fchmodat => hook_fchmodat (i32 arg0) (str arg1) (u32 arg2)
  | SYS_chown => hook_fchownat AT_FDCWD (str arg0) (u32 arg1) (u32 arg2) 0
  | SYS_lchown => hook_fchownat AT_FDCWD (str arg0) (u32 arg1) (u32 arg2) AT_SYMLINK_NOFOLLOW
  | SYS_fchownat => hook_fchownat (i32 arg0) (str arg1) (u32 arg2) (u32 arg3) (i32 arg4)
  | SYS_sendfile => hook_sendfile (i32 arg0) (i32 arg1) arg2 (u64 arg3)
  | SYS_mknod => hook_mknodat AT_FDCWD (str arg0) (u32 arg1) (u64 arg2)
  | SYS_mknodat => hook_mknodat (i32 arg0) (str arg1) (u32 arg2) (u64 arg3)
  | SYS_setfsuid => hook_setfsuid (u32 arg0)
  | SYS_setfsgid => hook_setfsgid (u32 arg0)
  | SYS_setgid => hook_setgid (u32 arg0)
  | SYS_setgroups => hook_setgroups (u64 arg0) arg1
  | SYS_setregid => hook_setregid (u32 arg0) (u32 arg1)
  | SYS_setresgid => hook_setresgid (u32 arg0) (u32 arg1) (u32 arg2)
  | SYS_setresuid => hook_setresuid (u32 arg0) (u32 arg1) (u32 arg2)
  | SYS_setreuid => hook_setreuid (u32 arg0) (u32 arg1)
  | SYS_setuid => hook_setuid (u32 arg0)
  | SYS_umask => hook_umask (u32 arg0)
  | SYS_chroot | SYS_listxattr | SYS_removexattr =>
      nosup_syscall_with_path syscall_number (str arg0) RESOLVE_LAST_SLINK arg1 arg2 arg3 arg4 arg5
  | SYS_llistxattr | SYS_lremovexattr =>
      nosup_syscall_with_path syscall_number (str arg0) NO_RESOLVE_LAST_SLINK arg1 arg2 arg3 arg4 arg5
  | SYS_readlink => hook_readlinkat AT_FDCWD (str arg0) arg1 (u64 arg2)
  | SYS_readlinkat => hook_readlinkat (i32 arg0) (str arg1) arg2 (u64 arg3)
  | SYS_splice => hook_splice (i32 arg0) arg1 (i32 arg2) arg3 (u64 arg4) (u32 arg5)
  | SYS_futimesat => hook_futimesat (i32 arg0) (str arg1) arg2
  | SYS_utime => hook_utime (str arg0) arg1
  | SYS_utimes => hook_utimes (str arg0) arg1
  | SYS_utimensat => hook_utimensat (i32 arg0) (str arg1) arg2 (i32 arg3)
  | SYS_name_to_handle_at => hook_name_to_handle_at (i32 arg0) (str arg1) arg2 arg3 (i32 arg4)
  | SYS_execve => hook_execveat AT_FDCWD (str arg0) arg1 (um_env mem arg2) 0
  | SYS_execveat => hook_execveat (i32 arg0) (str arg1) arg2 (um_env mem arg3) (i32 arg4)
  | SYS_copy_file_range => hook_copy_file_range (i32 arg0) arg1 (i32 arg2) arg3 (u64 arg4) (u32 arg5)
  | SYS_bind => hook_bind (i32 arg0) arg1 (u32 arg2)
  | SYS_dup => on_vfd (pmemfile_vfd_dup (i32 arg0))
  | SYS_dup2 => on_vfd (pmemfile_vfd_dup2 (i32 arg0) (i32 arg1))
  | SYS_dup3 => on_vfd (pmemfile_vfd_dup3 (i32 arg0) (i32 arg1) (i32 arg2))
  | SYS_statfs => hook_statfs (str arg0) arg1
  | _ => fault_ AssertFail
  end.
End hooks.

(** ** syscall_early_filter.c *)

Record syscall_early_filter_entry := FilterEntry {
  must_handle : bool;
  fd_first_arg : bool;
  returns_zero : bool;
  returns_ENOTSUP : bool;
}.

Definition get_early_filter_entry (syscall_number : sysno) : syscall_early_filter_entry :=
  match syscall_number with
  | SYS_access | SYS_chdir | SYS_chmod | SYS_chown | SYS_close | SYS_creat | SYS_faccessat | SYS_fchmodat | SYS_fchdir
  | SYS_fchownat | SYS_futimesat | SYS_getcwd | SYS_getxattr | SYS_lchown | SYS_lgetxattr | SYS_linkat | SYS_link
  | SYS_lsetxattr | SYS_lstat | SYS_mkdirat | SYS_mkdir | SYS_mknod | SYS_mknodat | SYS_newfstatat | SYS_openat | SYS_open
  | SYS_readlinkat | SYS_readlink | SYS_renameat2 | SYS_renameat | SYS_rename | SYS_rmdir | SYS_setxattr | SYS_setfsuid
  | SYS_setfsgid | SYS_setgid | SYS_setgroups | SYS_setregid | SYS_setresgid | SYS_setresuid | SYS_setreuid | SYS_setuid
  | SYS_stat | SYS_statfs | SYS_symlinkat | SYS_symlink | SYS_truncate | SYS_umask | SYS_unlinkat | SYS_unlink | SYS_utime
  | SYS_utimensat | SYS_utimes | SYS_bind | SYS_chroot | SYS_copy_file_range | SYS_dup2 | SYS_dup3 | SYS_dup | SYS_execveat
  | SYS_execve | SYS_listxattr | SYS_llistxattr | SYS_lremovexattr | SYS_mmap | SYS_name_to_handle_at | SYS_removexattr
  | SYS_sendfile | SYS_splice
      => FilterEntry true false false false
  | SYS_fadvise64 | SYS_fdatasync | SYS_fgetxattr | SYS_fsync | SYS_syncfs
      => FilterEntry true true true false
  | SYS_fallocate | SYS_fchmod | SYS_fchown | SYS_fcntl | SYS_flock | SYS_fstat | SYS_fstatfs | SYS_ftruncate
  | SYS_getdents64 | SYS_getdents | SYS_lseek | SYS_pread64 | SYS_preadv | SYS_preadv2 | SYS_pwrite64 | SYS_pwritev
  | SYS_pwritev2 | SYS_read | SYS_readv | SYS_write | SYS_writev
      => FilterEntry true true false false
  | SYS_fsetxattr | SYS_flistxattr | SYS_fremovexattr | SYS_readahead
      => FilterEntry true true false true
  | SYS_other _ => FilterEntry false false false false
  end.

(** ** The hook *)

Definition NOT_HOOKED : Z := 1.
Definition HOOKED : Z := 0.

Section hook.
Context `{E : VfdEnv} {PE : PathEnv}.
Variables (open_fuel : nat) (malloc_ok exit_on_ENOTSUP : bool) (stack : resolved_path) (mem : user_mem) (env_malloc_ok asprintf_ok : bool).

Notation check_errno := (check_errno exit_on_ENOTSUP).

(** The result, and the value of the system call. *)
Definition hook (filter_entry : syscall_early_filter_entry) (syscall_number : sysno) (arg0 arg1 arg2 arg3 arg4 arg5 : Z) : M hook_state (Z * Z) :=
  let hooked m := v ← m; mret (HOOKED, v) in
  let others :=
    if fd_first_arg filter_entry then
      file ← on_vfd (pmemfile_vfd_ref (i32 arg0));
      r ← match vr_pool file with
          | None => mret (NOT_HOOKED, 0)
          | Some p =>
              if returns_zero filter_entry then mret (HOOKED, 0)
              else if returns_ENOTSUP filter_entry then v ← check_errno (- ENOTSUP) syscall_number; mret (HOOKED, v)
              else
                v ← within p (v ← dispatch_syscall_fd_first syscall_number file arg1 arg2 arg3 arg4 arg5; check_errno v syscall_number);
                mret (HOOKED, v)
          end;
      on_vfd (pmemfile_vfd_unref file);;
      mret r
    else hooked (dispatch_syscall open_fuel malloc_ok exit_on_ENOTSUP stack mem env_malloc_ok asprintf_ok syscall_number arg0 arg1 arg2 arg3 arg4 arg5) in
  match syscall_number with
  | SYS_chdir => hooked (hook_chdir open_fuel malloc_ok exit_on_ENOTSUP stack (cstr_at mem arg0))
  | SYS_fchdir => hooked (unlock_cwd;; v ← on_vfd (pmemfile_vfd_fchdir (i32 arg0)); unlock_cwd;; mret v)
  | SYS_getcwd => '(v, _) ← hook_getcwd exit_on_ENOTSUP arg0 (u64 arg1); mret (HOOKED, v)
  | SYS_fcntl =>
      if (i32 arg1 =? F_DUPFD) || (i32 arg1 =? F_DUPFD_CLOEXEC) then hooked (on_vfd (pmemfile_vfd_fcntl_dup (i32 arg0) (i32 arg2)))
      else others
  | _ => others
  end.

(** System calls of the hooks themselves are not hooked. *)
Definition hook_reentrance_guard_wrapper (syscall_number : sysno) (arg0 arg1 arg2 arg3 arg4 arg5 : Z) : M hook_state (Z * Z) :=
  guard ← gets hs_guard;
  if guard : bool then mret (NOT_HOOKED, 0)
  else
    assert_ (negb (bool_decide (pools = [])));;
    let filter_entry := get_early_filter_entry syscall_number in
    if negb (must_handle filter_entry) then mret (NOT_HOOKED, 0)
    else
      modify (set_hs_guard true);;
      r ← hook filter_entry syscall_number arg0 arg1 arg2 arg3 arg4 arg5;
      modify (set_hs_guard false);;
      mret r.
End hook.
