(* ===== verification/HookSpec.v ===== *)
(** The hooks return what they take: every system call of the application leaves the
    references to descriptors, the uses of the pools and the mutex as it found them. *)
From S2P Require Import Prelude CString VfdTable VfdRep VfdOps VfdSpec PathResolve PathRep PathSpec Hooks.

(** ** Uses of pools by the descriptor table *)

(** How often a pool is in a list. *)
Definition uses (p : positive) (l : list (option positive)) : Z := Z.of_nat (length (filter (λ x, x = Some p) l)).

Section tame.
Context `{E : VfdEnv} {PE : PathEnv}.
Implicit Types (v : vfd_state) (l : list (option positive)).

(** A pool that is in use is not suspended. *)
Definition awake v : Prop := ∀ p d, vs_pools v !! p = Some d → 0 < pd_ref_cnt d → pd_suspended d = false.

(** The entry of a directory of the kernel has no pool. *)
Definition special_ok v : Prop := ∀ e d, vs_store v !! e = Some d → vd_is_special_cwd_desc d = true → vd_pool d = None.

(** Pool [p] is released [k p] times; files are opened only in pools that are
    mounted. *)
Record releases (k : positive → Z) v v' : Prop := {
  rl_switching : vs_switching v' = vs_switching v;
  rl_off : vs_switching v = false → vs_pools v' = vs_pools v;
  rl_awake : awake v → awake v';
  rl_count : vs_switching v = true → ∀ p, option_Forall2 (λ d d', pd_ref_cnt d' = pd_ref_cnt d - k p) (vs_pools v !! p) (vs_pools v' !! p);
  rl_opened : ∀ x, x ∈ vs_opened v' → x ∈ vs_opened v ∨ is_Some (pool_mount x.1);
  rl_special : special_ok v → special_ok v';
}.

(** [m] releases the pools of [l]. *)
Definition tame {A} l (m : M vfd_state A) : Prop := ∀ v, match m v with Ok _ v' => releases (λ p, uses p l) v v' | _ => True end.

Lemma releases_same v v' : vs_switching v' = vs_switching v → vs_pools v' = vs_pools v → vs_opened v' = vs_opened v → (special_ok v → special_ok v') →
  releases (λ p, uses p []) v v'.
Proof.
  intros Hs Hp Ho Hsp. split; [done|done|unfold awake; by rewrite Hp| |rewrite Ho; auto|done]. intros _ p. rewrite Hp. change (uses p []) with 0.
  destruct (vs_pools v !! p); constructor. lia.
Qed.
Lemma releases_trans k1 k2 k v1 v2 v3 : (∀ p, k p = k1 p + k2 p) → releases k1 v1 v2 → releases k2 v2 v3 → releases k v1 v3.
Proof.
  intros Hk [Hs1 Ho1 Ha1 Hc1 Hp1 Hx1] [Hs2 Ho2 Ha2 Hc2 Hp2 Hx2]. split; [congruence|..].
  - intros H. rewrite Ho2 by congruence. auto.
  - auto.
  - intros H p. specialize (Hc1 H p). rewrite <-Hs1 in H. specialize (Hc2 H p). inversion Hc1 as [d d' E1 X1 X2|X1 X2]; rewrite <-X2 in Hc2; inversion Hc2; subst; constructor.
    rewrite Hk. lia.
  - intros x [H|H]%Hp2; auto.
  - auto.
Qed.

Lemma tame_ret {A} (a : A) : tame [] (mret a).
Proof. intros v. by apply releases_same. Qed.
Lemma tame_seq {A B} l (m : M vfd_state A) (f : A → M vfd_state B) : tame [] m → (∀ a, tame l (f a)) → tame l (m ≫= f).
Proof.
  intros Hm Hf v. unfold mbind, M_bind. specialize (Hm v). destruct (m v) as [a v1|e v1|x]; [|done|done].
  specialize (Hf a v1). destruct (f a v1); [|done|done]. eapply releases_trans; [|done|done]. intros p. by change (uses p []) with 0.
Qed.
Lemma tame_gets {A} (f : vfd_state → A) : tame [] (gets f).
Proof. intros v. by apply releases_same. Qed.
Lemma tame_modify f :
  (∀ v, vs_switching (f v) = vs_switching v ∧ vs_pools (f v) = vs_pools v ∧ vs_opened (f v) = vs_opened v ∧ vs_store (f v) = vs_store v) → tame [] (modify f).
Proof. intros Hf v. destruct (Hf v) as (H1 & H2 & H3 & H4). apply releases_same; [done..|]. unfold special_ok. by rewrite H4. Qed.
Lemma tame_entry_set e d : (vd_is_special_cwd_desc d = true → vd_pool d = None) → tame [] (entry_set e d).
Proof.
  intros Hd v. apply releases_same; [done..|]. intros Hsp x y. cbn [vs_store set_vs_store]. intros [[_ <-]|[_ H]]%lookup_insert_Some; [done|by apply (Hsp x y)].
Qed.
Lemma tame_update {A} e (f : vfile_description → Z) (g : vfile_description → A) :
  tame [] (d ← entry_get e; entry_set e (set_vd_ref_count (f d) d);; mret (g d)).
Proof.
  intros v. unfold mbind at 1, M_bind at 1. unfold entry_get. destruct (vs_store v !! e) as [d|] eqn:He.
  - erewrite (bind_run (gets vs_store) _ v _ v eq_refl). rewrite He. cbn. apply releases_same; [done..|].
    intros Hsp x y. cbn [vs_store set_vs_store]. intros [[<- <-]|[_ H]]%lookup_insert_Some; [|by apply (Hsp x y)]. by apply (Hsp e d).
  - erewrite (bind_run (gets vs_store) _ v _ v eq_refl). by rewrite He.
Qed.
Lemma tame_assert b : tame [] (assert_ b).
Proof. intros v. destruct b; [by apply releases_same|done]. Qed.
Lemma tame_of_option {A} x (o : option A) : tame [] (of_option x o).
Proof. intros v. destruct o; [by apply releases_same|done]. Qed.
Lemma tame_fault {A} l x : tame l (fault_ (A := A) x).
Proof. done. Qed.
Lemma tame_call {A} (f : world → A * world) : tame [] (call f).
Proof. intros v. unfold call. destruct (f (vs_world v)). by apply releases_same. Qed.
Lemma tame_locked {A} k (m : M vfd_state A) : tame [] m → tame [] (locked k m).
Proof.
  intros Hm. unfold locked. apply tame_seq; [apply tame_gets|intros ls]. apply tame_seq; [apply tame_assert|intros _].
  apply tame_seq; [by apply tame_modify|intros _]. apply tame_seq; [done|intros a]. apply tame_seq; [by apply tame_modify|intros _]. apply tame_ret.
Qed.

Lemma locked_ok {A} k (m : M vfd_state A) v a v' : locked k m v = Ok a v' →
  ∃ v1, m (set_vs_locks (k :: vs_locks v) v) = Ok a v1 ∧ v' = set_vs_locks (filter (λ x, x ≠ k) (vs_locks v1)) v1.
Proof.
  unfold locked. intros (ls & v1 & [= <- <-] & (u & v2 & Ha & (u' & v3 & [= <- <-] & (a' & v4 & Hm & (u'' & v5 & [= <- <-] & [= -> <-])%bind_ok)%bind_ok)%bind_ok)%bind_ok)%bind_ok.
  destruct (negb _); [|done]. injection Ha as <- <-. by exists v4.
Qed.

(** The section that counts a use. *)
Lemma section_releases p (f : pool_description → bool) (n : pool_description → Z) g b j v : vs_switching v = true →
  (∀ d, n d = pd_ref_cnt d - j) → (∀ d, (0 < pd_ref_cnt d → pd_suspended d = false) → 0 < n d → (if f d then b else pd_suspended d) = false) →
  match locked (LPool p) (
      d ← pool_get p;
      pool_set p (PoolDesc (n d) (pd_suspended d));;
      if f d then
        r ← call g;
        assert_ (r =? 0);;
        pool_set p (PoolDesc (n d) b)
      else mret tt) v with
  | Ok _ v' => releases (λ q, if decide (p = q) then j else 0) v v'
  | _ => True
  end.
Proof.
  intros Hsw Hn Hf. destruct (locked _ _ v) as [u v'| |] eqn:Hrun; [|done..]. apply locked_ok in Hrun as (v1 & Hrun & ->).
  apply bind_ok in Hrun as (d & v2 & Hd & Hrun). apply bind_ok in Hd as (m & v3 & [= <- <-] & Hd). destruct (vs_pools _ !! p) as [d'|] eqn:Hp; [|done]. injection Hd as -> <-.
  apply bind_ok in Hrun as (u' & v4 & [= <- <-] & Hrun). cbn in Hp.
  assert (H : vs_switching v1 = true ∧ vs_opened v1 = vs_opened v ∧ vs_pools v1 = <[p := PoolDesc (n d) (if f d then b else pd_suspended d)]> (vs_pools v) ∧ vs_store v1 = vs_store v).
  { destruct (f d); [|by injection Hrun as _ <-]. apply bind_ok in Hrun as (r & v5 & Hr & Hrun). unfold call in Hr. destruct (g _) as [r' w]. injection Hr as _ <-.
    apply bind_ok in Hrun as (x & v6 & Hx & [= _ <-]). destruct (r =? 0); [|done]. injection Hx as _ <-. cbn. by rewrite insert_insert_eq. }
  destruct H as (Hs1 & Ho1 & Hp1 & Hst). split; cbn; [congruence|congruence| | |rewrite Ho1; auto|unfold special_ok; cbn; by rewrite Hst].
  - intros Haw q e. cbn [vs_pools set_vs_locks]. rewrite Hp1. destruct (decide (p = q)) as [<-|]; [|rewrite lookup_insert_ne by done; exact (Haw q e)].
    rewrite lookup_insert_eq. intros [= <-]. apply Hf. exact (Haw p d Hp).
  - intros _ q. rewrite Hp1. destruct (decide (p = q)) as [<-|]; [rewrite lookup_insert_eq, Hp; constructor; by rewrite <-Hn|].
    rewrite lookup_insert_ne by done. destruct (vs_pools v !! q); constructor. lia.
Qed.

Definition use_of (x : option positive) (q : positive) : Z := if decide (x = Some q) then 1 else 0.
Lemma uses_cons x l q : uses q (x :: l) = use_of x q + uses q l.
Proof. unfold uses, use_of. rewrite filter_cons. destruct (decide _); cbn [length]; lia. Qed.

Lemma off_releases k v : vs_switching v = false → releases k v v.
Proof. intros H. split; [done|done|done|congruence|auto|done]. Qed.
Lemma releases_eq k k' v v' : (∀ p, k p = k' p) → releases k v v' → releases k' v v'.
Proof. intros Hk [H1 H2 H3 H4 H5 H6]. split; [done..| |done|done]. intros Hs p. rewrite <-Hk. by apply H4. Qed.
Lemma section_tame p (f : pool_description → bool) n g b j v (m : M vfd_state unit) : vs_switching v = true →
  m = locked (LPool p) (
      d ← pool_get p;
      pool_set p (PoolDesc (n d) (pd_suspended d));;
      if f d then
        r ← call g;
        assert_ (r =? 0);;
        pool_set p (PoolDesc (n d) b)
      else mret tt) →
  (∀ d, n d = pd_ref_cnt d - j) → (∀ d, (0 < pd_ref_cnt d → pd_suspended d = false) → 0 < n d → (if f d then b else pd_suspended d) = false) →
  match m v with Ok _ v' => releases (λ q, j * use_of (Some p) q) v v' | _ => True end.
Proof.
  intros Hsw -> Hn Hf. pose proof (section_releases p f n g b j v Hsw Hn Hf) as H. destruct (locked _ _ v); [|done..].
  eapply releases_eq; [|exact H]. intros q. unfold use_of. destruct (decide (p = q)), (decide (Some p = Some q)); (lia || congruence).
Qed.

Lemma pool_acquire_releases x v : match pool_acquire x v with Ok _ v' => releases (λ q, -1 * use_of x q) v v' | _ => True end.
Proof.
  unfold pool_acquire. destruct (vs_switching v) eqn:Hsw; rewrite (bind_run (gets vs_switching) _ v _ v eq_refl), Hsw; cbn [negb]; [|by apply off_releases].
  destruct x as [p|]; [|done]. rewrite (bind_run (of_option _ (Some p)) _ v p v) by done.
  eapply (section_tame p (λ d, (pd_ref_cnt d + 1 =? 1) && pd_suspended d) (λ d, pd_ref_cnt d + 1)); [done|reflexivity|intros; lia|].
  intros d Hd Hpos. destruct (Z.eqb_spec (pd_ref_cnt d + 1) 1), (pd_suspended d); cbn; try done. apply Hd. lia.
Qed.
Lemma pool_release_releases x v : match pool_release x v with Ok _ v' => releases (λ q, 1 * use_of x q) v v' | _ => True end.
Proof.
  unfold pool_release. destruct (vs_switching v) eqn:Hsw; rewrite (bind_run (gets vs_switching) _ v _ v eq_refl), Hsw; cbn [negb]; [|by apply off_releases].
  destruct x as [p|]; [|done]. rewrite (bind_run (of_option _ (Some p)) _ v p v) by done.
  eapply (section_tame p (λ d, (pd_ref_cnt d - 1 =? 0) && negb (pd_suspended d)) (λ d, pd_ref_cnt d - 1)); [done|reflexivity|intros; lia|].
  intros d Hd Hpos. destruct (Z.eqb_spec (pd_ref_cnt d - 1) 0); [lia|]. cbn. apply Hd. lia.
Qed.

Lemma tame_acquire {A} x l (f : unit → M vfd_state A) : (∀ u, tame (x :: l) (f u)) → tame l (pool_acquire x ≫= f).
Proof.
  intros Hf v. unfold mbind, M_bind. pose proof (pool_acquire_releases x v) as Hm. destruct (pool_acquire x v) as [u v1| |]; [|done..].
  specialize (Hf u v1). destruct (f u v1); [|done..]. eapply releases_trans; [|done|done]. intros q. cbn beta. rewrite uses_cons. lia.
Qed.
Lemma tame_release {A} x l (f : unit → M vfd_state A) : (∀ u, tame l (f u)) → tame (x :: l) (pool_release x ≫= f).
Proof.
  intros Hf v. unfold mbind, M_bind. pose proof (pool_release_releases x v) as Hm. destruct (pool_release x v) as [u v1| |]; [|done..].
  specialize (Hf u v1). destruct (f u v1); [|done..]. eapply releases_trans; [|done|done]. intros q. cbn beta. rewrite uses_cons. lia.
Qed.
Lemma tame_release_last x : tame [x] (pool_release x).
Proof.
  intros v. pose proof (pool_release_releases x v) as Hm. destruct (pool_release x v); [|done..]. eapply releases_eq; [|done]. intros q. cbn beta. rewrite uses_cons.
  change (uses q []) with 0. lia.
Qed.

Lemma tame_openat_call pool dir path flags mode : is_Some (pool_mount pool) → tame [] (pmemfile_openat_call pool dir path flags mode).
Proof.
  intros Hp. unfold pmemfile_openat_call. apply tame_seq; [apply tame_call|]. intros [[f|] errno]; [|apply tame_ret]. apply tame_seq; [|intros; apply tame_ret].
  intros v. split; [done|done|done| | |done].
  - intros _ q. change (uses q []) with 0. cbn. destruct (vs_pools v !! q); constructor. lia.
  - cbn. intros x [->|H]%elem_of_cons; [by right|by left].
Qed.
Lemma tame_inc e : tame [] (vf_ref_count_inc e).
Proof.
  intros v. pose proof (tame_update e (λ d, vd_ref_count d + 1) (λ _, tt) v) as H. unfold vf_ref_count_inc, mbind, M_bind in *.
  destruct (entry_get e v) as [d v1| |]; [|done..]. exact H.
Qed.
End tame.

Ltac tame_step :=
  lazymatch goal with
  | |- tame _ (pool_acquire _ ≫= _) => apply tame_acquire; intros ?
  | |- tame _ (pool_release _ ≫= _) => apply tame_release; intros ?
  | |- tame _ (pool_release _) => apply tame_release_last
  | |- tame _ (mret _) => apply tame_ret
  | |- tame _ (_ ≫= _) => apply tame_seq; [|intros ?]
  | |- tame _ (gets _) => apply tame_gets
  | |- tame _ (modify _) => by apply tame_modify
  | |- tame _ (entry_set _ _) => by apply tame_entry_set
  | |- tame _ (vf_ref_count_inc _) => apply tame_inc
  | |- tame _ (vf_ref_count_dec_and_fetch _) => apply tame_update
  | |- tame _ (assert_ _) => apply tame_assert
  | |- tame _ (of_option _ _) => apply tame_of_option
  | |- tame _ (fault_ _) => apply tame_fault
  | |- tame _ (call _) => apply tame_call
  | |- tame _ (locked _ _) => apply tame_locked
  | |- tame _ (pmemfile_openat_call _ _ _ _ _) => by apply tame_openat_call
  | |- tame _ (if ?b then _ else _) => destruct b
  | |- tame _ (match ?x with _ => _ end) => destruct x
  | |- tame _ ?m => let h := head_of m in unfold h
  end.
Ltac tame := repeat tame_step.

Section tame_ops.
Context `{E : VfdEnv} {PE : PathEnv}.

Lemma tame_at_ref vfd : tame [] (pmemfile_vfd_at_ref vfd).
Proof. tame. Qed.
Lemma tame_ref vfd : tame [] (pmemfile_vfd_ref vfd).
Proof. tame. Qed.
Lemma tame_unref r : tame [] (pmemfile_vfd_unref r).
Proof. tame. Qed.
Lemma tame_close vfd : tame [] (pmemfile_vfd_close vfd).
Proof. tame. Qed.
Lemma tame_dup vfd : tame [] (pmemfile_vfd_dup vfd).
Proof. tame. Qed.
Lemma tame_dup2 old new : tame [] (pmemfile_vfd_dup2 old new).
Proof. tame. Qed.
Lemma tame_dup3 old new flags : tame [] (pmemfile_vfd_dup3 old new flags).
Proof. tame. Qed.
Lemma tame_fcntl_dup vfd n : tame [] (pmemfile_vfd_fcntl_dup vfd n).
Proof. tame. Qed.
Lemma tame_fchdir vfd : tame [] (pmemfile_vfd_fchdir vfd).
Proof. tame. Qed.
Lemma tame_openat_helper pool dir path flags mode : is_Some (pool_mount pool) → tame [] (openat_helper pool dir path flags mode).
Proof. intros Hp. tame. Qed.
Lemma tame_chdir_pf p f : tame [] (pmemfile_vfd_chdir_pf p f).
Proof. tame. Qed.
Lemma tame_chdir_resolved t : (∀ p, at_pool t = Some p → is_Some (pool_mount p)) → tame [] (chdir_resolved t).
Proof. intros Hp. unfold chdir_resolved. destruct (at_pool t) as [p|]; [specialize (Hp p eq_refl)|]; tame. Qed.
End tame_ops.

(** ** The state between two system calls *)

Section safe.
Context `{E : VfdEnv} {PE : PathEnv} {EO : VfdEnvOk} {PO : PathEnvOk}.
Implicit Types (s : hook_state) (held : list (Z * vfile_description)) (mu : bool).

(** [held] are the references that were taken and not returned yet, [mu] tells
    whether the mutex of the current directory is held. *)
Record hook_ok mu held s : Prop := {
  ho_vfd : vfd_ok held (vs_opened (hs_vfd s)) (hs_vfd s);
  ho_hok : hok s;
  ho_opened : ∀ x, x ∈ vs_opened (hs_vfd s) → is_Some (pool_mount x.1);
  ho_special : special_ok (hs_vfd s);
  ho_off : vs_switching (hs_vfd s) = false → ∀ p d, vs_pools (hs_vfd s) !! p = Some d → pd_suspended d = false;
  ho_mutex : hs_cwd_mutex s = mu;
}.

(** Pools are in use as often as before. *)
Record kept s s' : Prop := {
  kp_count : ∀ p, option_Forall2 (λ d d', pd_ref_cnt d' = pd_ref_cnt d) (vs_pools (hs_vfd s) !! p) (vs_pools (hs_vfd s') !! p);
  kp_guard : hs_guard s' = hs_guard s;
}.
#[global] Instance kept_pre : PreOrder kept.
Proof.
  split.
  - intros s. split; [|done]. intros p. destruct (vs_pools (hs_vfd s) !! p); by constructor.
  - intros s1 s2 s3 [H1 G1] [H2 G2]. split; [|congruence]. intros p. specialize (H1 p). specialize (H2 p).
    inversion H1 as [d d' E1 X1 X2|X1 X2]; rewrite <-X2 in H2; inversion H2; subst; constructor. congruence.
Qed.

(** How the process may end in a call: a pool and the kernel disagree, or, if the
    application asks for it, a call is not supported. *)
Definition exits (exit_on_ENOTSUP : bool) (e : Z) s : Prop := e = EXIT_FATAL ∨ exit_on_ENOTSUP = true ∧ e = EXIT_NOT_SUPPORTED.
Context {xit : bool}.

Definition safe {A} mu held (m : M hook_state A) (Q : A → bool → list (Z * vfile_description) → Prop) : Prop :=
  ∀ s, hook_ok mu held s → wp m (λ a s', ∃ mu' held', Q a mu' held' ∧ hook_ok mu' held' s' ∧ kept s s') (exits xit) s.
(** The references and the mutex are as before. *)
Definition back {A} mu held : A → bool → list (Z * vfile_description) → Prop := λ _ mu' held', mu' = mu ∧ held' = held.

Lemma safe_bind {A B} mu held (m : M hook_state A) (f : A → M hook_state B) Q Q' :
  safe mu held m Q → (∀ a mu' held', Q a mu' held' → safe mu' held' (f a) Q') → safe mu held (m ≫= f) Q'.
Proof.
  intros Hm Hf s Hok. apply wp_bind. eapply wp_conseq; [by apply Hm|]. intros a s1 (mu1 & held1 & HQ & Hok1 & Hk1).
  eapply wp_conseq; [by apply (Hf a mu1 held1)|]. intros b s2 (mu2 & held2 & HQ' & Hok2 & Hk2). exists mu2, held2. split_and!; [done|done|by etrans].
Qed.
Lemma safe_seq {A B} mu held (m : M hook_state A) (f : A → M hook_state B) Q' :
  safe mu held m (back mu held) → (∀ a, safe mu held (f a) Q') → safe mu held (m ≫= f) Q'.
Proof. intros Hm Hf. eapply safe_bind; [exact Hm|]. intros a mu' held' [-> ->]. apply Hf. Qed.
Lemma safe_ret {A} mu held (a : A) (Q : A → bool → list (Z * vfile_description) → Prop) : Q a mu held → safe mu held (mret a) Q.
Proof. intros HQ s Hok. apply wp_ret. by exists mu, held. Qed.

Lemma steady_kept s s' : steady s s' → kept s s'.
Proof.
  intros [Hv _ _ Hg]. split; [|done]. intros p. destruct (vt_pools _ _ Hv p) as [d d' [H _]|]; by constructor.
Qed.
Lemma vsteady_ok held opened v v' : vfd_ok held opened v → vsteady v v' → vfd_ok held opened v'.
Proof.
  intros [Hinv Hc Hl] [H1 H2 H3 H4 H5 H6 H7 H8 H9 H10 H11]. split; [|by rewrite H3|by rewrite H6]. rewrite H2.
  eapply inv_frame; [exact Hinv|done..|by intros fd ? _; apply H9|]. intros p. specialize (H10 p). intros [d Hd]. rewrite Hd in H10. inversion H10. by eexists.
Qed.
Lemma steady_hook_ok mu held s s' : hook_ok mu held s → steady s s' → hook_ok mu held s'.
Proof.
  intros [Hv Hh Ho Hs Hoff Hm] Hst. pose proof (st_vfd _ _ Hst) as Hvs. split.
  - rewrite (vt_opened _ _ Hvs). by eapply vsteady_ok.
  - by eapply hok_steady.
  - by rewrite (vt_opened _ _ Hvs).
  - unfold special_ok. by rewrite (vt_store _ _ Hvs).
  - rewrite (vt_switching _ _ Hvs). intros H. rewrite (vt_off _ _ Hvs H). by apply Hoff.
  - by rewrite (st_cwd_mutex _ _ Hst).
Qed.
Lemma safe_calm {A} mu held (m : M hook_state A) (P : A → Prop) : calm m P → safe mu held m (λ a mu' held', P a ∧ back mu held a mu' held').
Proof.
  intros Hm s Hok. eapply wp_mono; [apply Hm, Hok| |done]. intros a s' [Ha Hs]. exists mu, held. split; [by split|]. split; [by eapply steady_hook_ok|by apply steady_kept].
Qed.

(** ** The operations of the descriptor table *)

Lemma releases_hook_ok mu held held' s v : hook_ok mu held s → releases (λ p, uses p []) (hs_vfd s) v → vfd_ok held' (vs_opened v) v →
  hook_ok mu held' (set_hs_vfd v s) ∧ kept s (set_hs_vfd v s).
Proof.
  intros [Hv Hh Ho Hs Hoff Hm] [R1 R2 R3 R4 R5 R6] Hok.
  assert (Hcount : ∀ p, option_Forall2 (λ d d', pd_ref_cnt d' = pd_ref_cnt d) (vs_pools (hs_vfd s) !! p) (vs_pools v !! p)).
  { intros p. destruct (vs_switching (hs_vfd s)) eqn:Hsw.
    - destruct (R4 eq_refl p) as [d d' H|]; constructor. change (uses p []) with 0 in H. lia.
    - rewrite R2 by done. destruct (vs_pools (hs_vfd s) !! p); by constructor. }
  assert (Haw : awake v) by (apply R3; intros p d Hd; apply (hk_pools _ Hh p d Hd)).
  split; [|by split]. split; cbn; [done| |intros x [Hx|Hx]%R5; auto|auto| |done].
  - destruct Hh as [H1 H2 H3]. split; cbn; [apply Hok|..].
    + intros p [d Hd]%H2. specialize (Hcount p). rewrite Hd in Hcount. inversion Hcount. by eexists.
    + intros p d Hd. specialize (Hcount p). rewrite Hd in Hcount. inversion Hcount as [d0 d' Heq X|]; subst. symmetry in X. destruct (H3 p d0 X) as [Hpos _].
      split; [lia|by apply (Haw p d)].
  - rewrite R1. intros H. rewrite R2 by done. by apply Hoff.
Qed.

Lemma safe_vfd {A} mu held (m : M vfd_state A) (Q : A → list (Z * vfile_description) → Prop) : tame [] m →
  (∀ s, hook_ok mu held s → wp m (λ a v', ∃ held', Q a held' ∧ vfd_ok held' (vs_opened v') v') noabort (hs_vfd s)) →
  safe mu held (on_vfd m) (λ a mu' held', mu' = mu ∧ Q a held').
Proof.
  intros Ht Hm s Hok. apply wp_zoom. specialize (Hm s Hok). specialize (Ht (hs_vfd s)). unfold wp in *. destruct (m (hs_vfd s)) as [a v|e v|x]; [|done..].
  destruct Hm as (held' & HQ & Hv). destruct (releases_hook_ok mu held held' s v Hok Ht Hv) as [H1 H2]. by exists mu, held'.
Qed.
Lemma safe_vfd_back {A} mu held (m : M vfd_state A) : tame [] m →
  (∀ s, hook_ok mu held s → wp m (λ _ v', vfd_ok held (vs_opened v') v') noabort (hs_vfd s)) → safe mu held (on_vfd m) (back mu held).
Proof.
  intros Ht Hm. intros s Hok. eapply wp_conseq; [apply (safe_vfd mu held m (λ _ held', held' = held) Ht)|done].
  - intros s' Hok'. eapply wp_conseq; [by apply Hm|]. intros a v Hv. by exists held.
  - done.
Qed.

Lemma at_ref_internal vfd v r v' : pmemfile_vfd_at_ref vfd v = Ok r v' → vr_internal r = None → vr_pool r = None.
Proof.
  unfold pmemfile_vfd_at_ref. destruct (vfd =? AT_FDCWD).
  - intros (v1 & (c & v2 & _ & (e & v3 & _ & (u & v4 & _ & (d & v5 & _ & [= <- _])%bind_ok)%bind_ok)%bind_ok)%bind_ok & _)%locked_ok. done.
  - intros (b & v1 & _ & H)%bind_ok. destruct (negb b); [by injection H as <- _|]. apply locked_ok in H as (v2 & H & _).
    apply bind_ok in H as ([e|] & v3 & _ & H); [|by injection H as <- _]. apply bind_ok in H as (u & v4 & _ & H). apply bind_ok in H as (d & v5 & _ & [= <- _]). done.
Qed.

Lemma token_known r k held v : vfd_ok (tokens r k ++ held) (vs_opened v) v → special_ok v → (∀ x, x ∈ vs_opened v → is_Some (pool_mount x.1)) →
  denotes r k → (vr_internal r = None → vr_pool r = None) → known (vr_pool r).
Proof.
  intros [Hinv _ _] Hsp Hop Hd Hn. unfold tokens in Hinv. destruct (vr_internal r) as [e|] eqn:He; [|by rewrite Hn]. destruct Hd as [-> _]; [by eexists|]. cbn in Hinv.
  assert (Hk : vd_id <$> vs_store v !! e = Some k) by (apply (vi_held _ _ _ _ _ Hinv); by left).
  apply fmap_Some in Hk as (d & Hd & ->). change (vd_pool (vd_id d)) with (vd_pool d).
  assert (Hpos : 0 < vd_ref_count d).
  { rewrite (vi_count _ _ _ _ _ Hinv e d Hd). apply occ_pos. unfold holders. set_solver. }
  destruct (vi_kind _ _ _ _ _ Hinv e d Hd Hpos) as [[[p f] Hf]|[fd Hfd]].
  - assert ((p, f) ∈ vs_opened v) as Hin.
    { rewrite (vi_files _ _ _ _ _ Hinv). apply elem_of_app. right. apply list_elem_of_fmap. exists (e, (p, f)). split; [done|]. apply elem_of_map_to_list.
      unfold live_files. by rewrite lookup_omap, Hd. }
    unfold live_file in Hf. destruct (_ && _); [|done]. destruct (vd_pool d) as [p'|]; [|done]. cbn in Hf. destruct (vd_file d); [|done]. injection Hf as -> _. by apply (Hop (p, f)).
  - unfold live_fd in Hfd. destruct (vd_is_special_cwd_desc d) eqn:Hs; [|by rewrite andb_false_r in Hfd]. by rewrite (Hsp e d Hd Hs).
Qed.

(** A reference that was taken, with the pool it leads into. *)
Definition taken mu held (r : vfd_reference) (mu' : bool) (held' : list (Z * vfile_description)) : Prop :=
  mu' = mu ∧ known (vr_pool r) ∧ ∃ k, held' = tokens r k ++ held.

Lemma safe_taken mu held (m : M vfd_state vfd_reference) : tame [] m →
  (∀ v r v', m v = Ok r v' → vr_internal r = None → vr_pool r = None) →
  (∀ s, hook_ok mu held s → wp m (ref_taken held (hs_vfd s)) noabort (hs_vfd s)) → safe mu held (on_vfd m) (taken mu held).
Proof.
  intros Ht Hi Hm s Hok. apply wp_zoom. specialize (Hm s Hok). specialize (Ht (hs_vfd s)). specialize (Hi (hs_vfd s)). unfold wp in *.
  destruct (m (hs_vfd s)) as [r v|e v|x] eqn:Hrun; [|done..]. destruct Hm as (k & Hv & Hd & _). exists mu, (tokens r k ++ held).
  destruct (releases_hook_ok mu held _ s v Hok Ht Hv) as [H1 H2]. split; [|done]. split; [done|]. split; [|by exists k].
  eapply token_known; [exact Hv|apply H1|apply H1|done|by apply (Hi r v)].
Qed.
Lemma safe_at_ref mu held fd : safe mu held (on_vfd (pmemfile_vfd_at_ref fd)) (taken mu held).
Proof. apply safe_taken; [apply tame_at_ref|intros v r v'; apply at_ref_internal|]. intros s Hok. apply wp_at_ref_taken, Hok. Qed.
Lemma vfd_ref_internal vfd v r v' : pmemfile_vfd_ref vfd v = Ok r v' → vr_internal r = None → vr_pool r = None.
Proof.
  intros (b & v1 & _ & H)%bind_ok. destruct (negb b); [by injection H as <- _|]. apply locked_ok in H as (v2 & H & _).
  apply bind_ok in H as ([e|] & v3 & _ & H); [|by injection H as <- _]. apply bind_ok in H as (u & v4 & _ & H). apply bind_ok in H as (d & v5 & _ & [= <- _]). done.
Qed.
Lemma safe_ref mu held fd : safe mu held (on_vfd (pmemfile_vfd_ref fd)) (taken mu held).
Proof. apply safe_taken; [apply tame_ref|intros v r v'; apply vfd_ref_internal|]. intros s Hok. apply wp_ref_taken, Hok. Qed.

Lemma hook_ok_perm mu held held' s : held ≡ₚ held' → hook_ok mu held s → hook_ok mu held' s.
Proof. intros Hp [H1 H2 H3 H4 H5 H6]. split; [by eapply ok_perm|done..]. Qed.

Lemma safe_unref mu held held' r k : held ≡ₚ tokens r k ++ held' → safe mu held (on_vfd (pmemfile_vfd_unref r)) (back mu held').
Proof.
  intros Hp s Hok. apply (hook_ok_perm _ _ _ _ Hp) in Hok. revert s Hok. apply (safe_vfd mu _ _ (λ _ h, h = held')); [apply tame_unref|].
  intros s Hok. apply wp_opens_none; [apply opens_none_unref|]. eapply (wp_vfd_unref r k); [apply Hok|]. intros v Hv _ _ Ho. exists held'. split; [done|]. by rewrite Ho.
Qed.

End safe.

(** ** The parts of a hook *)

Section parts.
Context `{E : VfdEnv} {PE : PathEnv} {EO : VfdEnvOk} {PO : PathEnvOk}.
Variables (open_fuel : nat) (malloc_ok exit_on_ENOTSUP : bool) (stack : resolved_path) (mem : user_mem) (env_malloc_ok asprintf_ok : bool).
Hypotheses (open_fuel_pos : (0 < open_fuel)%nat) (stack_size : Z.of_nat (length (rp_path stack)) = PATH_MAX) (links_plain : plain_links).
Implicit Types (s : hook_state) (held : list (Z * vfile_description)) (mu : bool).
Notation safe := (safe (xit := exit_on_ENOTSUP)).

Lemma safe_calm_back {A} mu held (m : M hook_state A) P : calm m P → safe mu held m (back mu held).
Proof. intros Hm s Hok. eapply wp_conseq; [by apply (safe_calm mu held m P Hm)|]. intros a s' (mu' & held' & [_ Hb] & H). by exists mu', held'. Qed.
Lemma wp_check e nr s : wp (check_errno exit_on_ENOTSUP e nr) (λ _ s', steady s s') (exits exit_on_ENOTSUP) s.
Proof. unfold check_errno. destruct (_ && exit_on_ENOTSUP) eqn:He; [|by apply wp_ret]. apply andb_prop in He as [_ He]. right. by split. Qed.
Lemma safe_check mu held e nr : safe mu held (check_errno exit_on_ENOTSUP e nr) (back mu held).
Proof. intros s Hok. eapply wp_conseq; [by apply wp_check|]. intros a s' H. exists mu, held. split; [done|]. split; [by eapply steady_hook_ok|by apply steady_kept]. Qed.
Lemma safe_sys mu held c : safe mu held (hcall (sys_call c)) (back mu held).
Proof. eapply safe_calm_back, calm_sys. Qed.
Lemma calm_pool_call p c : is_Some (pool_mount p) → calm (pool_call p c) (λ r, ∃ w, r = (pm_call p c w).1).
Proof. intros Hp. by apply calm_call, pm_call_opens. Qed.
Lemma safe_string {A} mu held b path (f : cstring → M hook_state A) Q : holds b path → safe mu held (f path) Q → safe mu held (p ← buf_string b; f p) Q.
Proof. intros Hh Hf s Hok. apply wp_bind. unfold wp at 1. rewrite (string_run _ _ _ Hh). by apply Hf. Qed.

Lemma safe_pool_check mu held p c nr : is_Some (pool_mount p) →
  safe mu held (r ← pool_call p c; check_errno exit_on_ENOTSUP r nr) (back mu held).
Proof. intros Hp. eapply safe_seq; [eapply safe_calm_back; by apply calm_pool_call|]. intros r. apply safe_check. Qed.

Lemma safe_send mu held where_ nr kernel pool : resolved_ok where_ → rp_error where_ = 0 → safe mu held (send exit_on_ENOTSUP where_ nr kernel pool) (back mu held).
Proof.
  intros Hr He. destruct (Hr He) as [Hk [path Hh]]. eapply safe_string; [done|]. destruct (rp_at_pool where_); [by apply safe_pool_check|apply safe_sys].
Qed.
Lemma safe_send_kernel mu held where_ nr kernel : resolved_ok where_ → rp_error where_ = 0 → safe mu held (send_kernel exit_on_ENOTSUP where_ nr kernel) (back mu held).
Proof.
  intros Hr He. destruct (Hr He) as [Hk [path Hh]]. eapply safe_string; [done|]. destruct (rp_at_pool where_); [apply safe_check|apply safe_sys].
Qed.

Lemma safe_with_at mu held fd k :
  (∀ r held', known (vr_pool r) → safe mu held' (k r) (back mu held')) → safe mu held (with_at fd k) (back mu held).
Proof.
  intros Hk. eapply safe_bind; [apply safe_at_ref|]. intros r mu' held' (-> & Hr & t & ->). eapply safe_seq; [by apply Hk|]. intros ret.
  eapply safe_bind; [by eapply safe_unref|]. intros u mu' held' [-> ->]. by apply safe_ret.
Qed.

Lemma safe_resolve mu held flags at_ path : known (vr_pool at_) → path_plain path →
  safe mu held (resolve_path open_fuel malloc_ok flags at_ path stack) (λ rp mu' held', resolved_ok rp ∧ back mu held rp mu' held').
Proof using open_fuel_pos stack_size links_plain PO. intros Hk Hp. by apply safe_calm, calm_resolve. Qed.

Lemma safe_with_path mu held fd path flags k : path_plain path →
  (∀ where_ held', resolved_ok where_ → rp_error where_ = 0 → safe mu held' (k where_) (back mu held')) →
  safe mu held (with_path open_fuel malloc_ok stack fd path flags k) (back mu held).
Proof using open_fuel_pos stack_size links_plain PO.
  intros Hp Hk. apply safe_with_at. intros r held' Hr. eapply safe_bind; [by apply safe_resolve|]. intros where_ mu' held'' [Hw [-> ->]].
  destruct (Z.eqb_spec (rp_error where_) 0); cbn [negb]; [by apply Hk|by apply safe_ret].
Qed.

Lemma safe_with_paths mu held fd0 path0 flags0 fd1 path1 flags1 k : path_plain path0 → path_plain path1 →
  (∀ old new held', resolved_ok old → rp_error old = 0 → resolved_ok new → rp_error new = 0 → safe mu held' (k old new) (back mu held')) →
  safe mu held (with_paths open_fuel malloc_ok stack fd0 path0 flags0 fd1 path1 flags1 k) (back mu held).
Proof using open_fuel_pos stack_size links_plain PO.
  intros Hp0 Hp1 Hk. eapply safe_bind; [apply safe_at_ref|]. intros r0 mu' held0 (-> & Hr0 & t0 & ->).
  eapply safe_bind; [apply safe_at_ref|]. intros r1 mu' held1 (-> & Hr1 & t1 & ->).
  eapply safe_bind; [by apply safe_resolve|]. intros old mu' held2 [Ho [-> ->]]. eapply safe_bind; [by apply safe_resolve|]. intros new mu' held2 [Hn [-> ->]].
  eapply safe_seq.
  - destruct (Z.eqb_spec (rp_error old) 0); cbn [negb]; [|by apply safe_ret]. destruct (Z.eqb_spec (rp_error new) 0); cbn [negb]; [|by apply safe_ret].
    case_bool_decide; [by apply safe_ret|by apply Hk].
  - intros ret. eapply safe_bind; [apply (safe_unref _ _ (tokens r1 t1 ++ held) r0 t0)|].
    + rewrite !app_assoc. by rewrite (Permutation_app_comm (tokens r1 t1)).
    + intros u mu' held2 [-> ->]. eapply safe_bind; [by eapply safe_unref|]. intros u' mu' held2 [-> ->]. by apply safe_ret.
Qed.

Lemma safe_lock held : safe false held lock_cwd (back true held).
Proof.
  intros s [H1 H2 H3 H4 H5 H6]. apply wp_bind, wp_gets, wp_bind, wp_assert; [by rewrite H6|]. apply wp_modify. exists true, held. split; [done|]. split; [|split; [exact (kp_count s s (reflexivity s))|done]].
  split; try done. destruct H2. by split.
Qed.
Lemma safe_unlock held : safe true held unlock_cwd (back false held).
Proof.
  intros s [H1 H2 H3 H4 H5 H6]. apply wp_bind, wp_gets, wp_bind, wp_assert; [done|]. apply wp_modify. exists false, held. split; [done|]. split; [|split; [exact (kp_count s s (reflexivity s))|done]].
  split; try done. destruct H2. by split.
Qed.

(** ** The hooks *)

Ltac guards := repeat match goal with |- safe _ _ (if ?b then mret _ else _) _ => destruct b; [by apply safe_ret|] end.
Ltac path_hook := guards; apply safe_with_path; [done|]; intros where_ held' Hr He; first [by apply safe_send|by apply safe_send_kernel].

Lemma safe_unlinkat mu held fd path flags : path_plain path → safe mu held (hook_unlinkat open_fuel malloc_ok exit_on_ENOTSUP stack fd path flags) (back mu held).
Proof using open_fuel_pos stack_size links_plain PO. intros Hp. unfold hook_unlinkat. path_hook. Qed.
Lemma safe_newfstatat mu held fd path st arg2 : path_plain path → safe mu held (hook_newfstatat open_fuel malloc_ok exit_on_ENOTSUP stack fd path st arg2) (back mu held).
Proof using open_fuel_pos stack_size links_plain PO. intros Hp. unfold hook_newfstatat. path_hook. Qed.
Lemma safe_faccessat mu held fd path mode : path_plain path → safe mu held (hook_faccessat open_fuel malloc_ok exit_on_ENOTSUP stack fd path mode) (back mu held).
Proof using open_fuel_pos stack_size links_plain PO. intros Hp. unfold hook_faccessat. path_hook. Qed.
Lemma safe_getxattr mu held path a1 a2 a3 l : path_plain path → safe mu held (hook_getxattr open_fuel malloc_ok exit_on_ENOTSUP stack path a1 a2 a3 l) (back mu held).
Proof using open_fuel_pos stack_size links_plain PO. intros Hp. unfold hook_getxattr. path_hook. Qed.
Lemma safe_setxattr mu held path a1 a2 a3 a4 l : path_plain path → safe mu held (hook_setxattr open_fuel malloc_ok exit_on_ENOTSUP stack path a1 a2 a3 a4 l) (back mu held).
Proof using open_fuel_pos stack_size links_plain PO. intros Hp. unfold hook_setxattr. path_hook. Qed.
Lemma safe_mkdirat mu held fd path mode : path_plain path → safe mu held (hook_mkdirat open_fuel malloc_ok exit_on_ENOTSUP stack fd path mode) (back mu held).
Proof using open_fuel_pos stack_size links_plain PO. intros Hp. unfold hook_mkdirat. path_hook. Qed.
Lemma safe_truncate mu held path length : path_plain path → safe mu held (hook_truncate open_fuel malloc_ok exit_on_ENOTSUP stack path length) (back mu held).
Proof using open_fuel_pos stack_size links_plain PO. intros Hp. unfold hook_truncate. path_hook. Qed.
Lemma safe_symlinkat mu held target fd path : path_plain path → safe mu held (hook_symlinkat open_fuel malloc_ok exit_on_ENOTSUP stack target fd path) (back mu held).
Proof using open_fuel_pos stack_size links_plain PO. intros Hp. unfold hook_symlinkat. destruct target; [|by apply safe_ret]. path_hook. Qed.
Lemma safe_fchmodat mu held fd path mode : path_plain path → safe mu held (hook_fchmodat open_fuel malloc_ok exit_on_ENOTSUP stack fd path mode) (back mu held).
Proof using open_fuel_pos stack_size links_plain PO. intros Hp. unfold hook_fchmodat. path_hook. Qed.
Lemma safe_fchownat mu held fd path o g f : path_plain path → safe mu held (hook_fchownat open_fuel malloc_ok exit_on_ENOTSUP stack fd path o g f) (back mu held).
Proof using open_fuel_pos stack_size links_plain PO. intros Hp. unfold hook_fchownat. path_hook. Qed.
Lemma safe_nosup mu held nr path l a1 a2 a3 a4 a5 : path_plain path →
  safe mu held (nosup_syscall_with_path open_fuel malloc_ok exit_on_ENOTSUP stack nr path l a1 a2 a3 a4 a5) (back mu held).
Proof using open_fuel_pos stack_size links_plain PO. intros Hp. unfold nosup_syscall_with_path. path_hook. Qed.
Lemma safe_futimesat mu held fd path times : path_plain path → safe mu held (hook_futimesat open_fuel malloc_ok exit_on_ENOTSUP stack fd path times) (back mu held).
Proof using open_fuel_pos stack_size links_plain PO. intros Hp. unfold hook_futimesat. path_hook. Qed.
Lemma safe_name_to_handle_at mu held fd path h m f : path_plain path →
  safe mu held (hook_name_to_handle_at open_fuel malloc_ok exit_on_ENOTSUP stack fd path h m f) (back mu held).
Proof using open_fuel_pos stack_size links_plain PO. intros Hp. unfold hook_name_to_handle_at. path_hook. Qed.
Lemma safe_mknodat mu held fd path mode dev : path_plain path → safe mu held (hook_mknodat open_fuel malloc_ok exit_on_ENOTSUP stack fd path mode dev) (back mu held).
Proof using open_fuel_pos stack_size links_plain PO. intros Hp. unfold hook_mknodat. path_hook. Qed.
Lemma safe_statfs mu held path buf : path_plain path → safe mu held (hook_statfs open_fuel malloc_ok exit_on_ENOTSUP stack path buf) (back mu held).
Proof using open_fuel_pos stack_size links_plain PO. intros Hp. unfold hook_statfs. path_hook. Qed.

Lemma safe_assert mu held b : b = true → safe mu held (assert_ b) (back mu held).
Proof. intros Hb. eapply safe_calm_back. by apply calm_assert. Qed.

(** A pool returns at most as much as fits the buffer. *)
Hypothesis readlink_small : ∀ p d path args w, (pm_call p (P_path SYS_readlinkat d path args) w).1 < INT_MAX.

Lemma safe_readlinkat mu held fd path buf size : path_plain path →
  safe mu held (hook_readlinkat open_fuel malloc_ok exit_on_ENOTSUP stack fd path buf size) (back mu held).
Proof using open_fuel_pos stack_size links_plain PO readlink_small.
  intros Hp. unfold hook_readlinkat. guards. apply safe_with_path; [done|]. intros where_ held' Hr He. destruct (Hr He) as [Hk [q Hh]].
  eapply safe_string; [done|]. destruct (rp_at_pool where_) as [p|]; [|apply safe_sys]. eapply safe_bind; [eapply safe_calm, calm_pool_call; done|].
  intros r mu' held'' [[w ->] [-> ->]]. eapply safe_seq; [by apply safe_assert, Z.ltb_lt|]. intros _. apply safe_check.
Qed.

Lemma safe_openat_helper mu held p dir path flags mode : is_Some (pool_mount p) → safe mu held (on_vfd (openat_helper p dir path flags mode)) (back mu held).
Proof.
  intros Hp. apply safe_vfd_back; [by apply tame_openat_helper|]. intros s Hok. eapply wp_conseq; [apply wp_openat_helper; [apply Hok|by apply (hk_mounts _ (ho_hok _ _ _ Hok))]|].
  by intros a v [? _].
Qed.
Lemma safe_openat mu held fd path flags mode : path_plain path → safe mu held (hook_openat open_fuel malloc_ok exit_on_ENOTSUP stack fd path flags mode) (back mu held).
Proof using open_fuel_pos stack_size links_plain PO.
  intros Hp. unfold hook_openat. guards. apply safe_with_path; [done|]. intros where_ held' Hr He. destruct (Hr He) as [Hk [q Hh]].
  eapply safe_string; [done|]. destruct (rp_at_pool where_) as [p|]; [|apply safe_sys]. eapply safe_seq; [by apply safe_openat_helper|]. intros r. apply safe_check.
Qed.

Lemma safe_bind_hook mu held fd addr len : path_plain (Some (um_sockaddr mem addr).2) →
  safe mu held (hook_bind open_fuel malloc_ok exit_on_ENOTSUP stack mem fd addr len) (back mu held).
Proof using open_fuel_pos stack_size links_plain PO.
  intros Hp. unfold hook_bind. guards. destruct (um_sockaddr mem addr) as [family path]. destruct (_ || _); [apply safe_sys|].
  apply safe_with_path; [done|]. intros where_ held' Hr He. destruct (Hr He) as [Hk [q Hh]]. eapply safe_string; [done|].
  destruct (rp_at_pool where_); [apply safe_check|]. destruct (_ <=? _); [by apply safe_ret|apply safe_sys].
Qed.

Lemma safe_send2 mu held old new nr kernel pool : resolved_ok old → rp_error old = 0 → resolved_ok new → rp_error new = 0 →
  safe mu held (send2 exit_on_ENOTSUP old new nr kernel pool) (back mu held).
Proof.
  intros Ho He Hn He'. destruct (Ho He) as [Hk [q Hh]], (Hn He') as [_ [q' Hh']]. eapply safe_string; [done|]. eapply safe_string; [done|].
  destruct (rp_at_pool old); [by apply safe_pool_check|apply safe_sys].
Qed.
Lemma safe_linkat mu held fd0 path0 fd1 path1 flags : path_plain path0 → path_plain path1 →
  safe mu held (hook_linkat open_fuel malloc_ok exit_on_ENOTSUP stack fd0 path0 fd1 path1 flags) (back mu held).
Proof using open_fuel_pos stack_size links_plain PO.
  intros H0 H1. unfold hook_linkat. guards. apply safe_with_paths; [done|done|]. intros old new held' ????. by apply safe_send2.
Qed.
Lemma safe_renameat2 mu held fd0 path0 fd1 path1 flags : path_plain path0 → path_plain path1 →
  safe mu held (hook_renameat2 open_fuel malloc_ok exit_on_ENOTSUP stack fd0 path0 fd1 path1 flags) (back mu held).
Proof using open_fuel_pos stack_size links_plain PO.
  intros H0 H1. unfold hook_renameat2. guards. apply safe_with_paths; [done|done|]. intros old new held' ????. by apply safe_send2.
Qed.

Lemma safe_kernel_fds mu held nr fd0 fd1 args : safe mu held (kernel_fds_only exit_on_ENOTSUP nr fd0 fd1 args) (back mu held).
Proof.
  eapply safe_bind; [apply safe_at_ref|]. intros r0 mu' held0 (-> & Hr0 & t0 & ->). eapply safe_bind; [apply safe_at_ref|]. intros r1 mu' held1 (-> & Hr1 & t1 & ->).
  eapply safe_seq; [destruct (_ || _); [apply safe_check|apply safe_sys]|]. intros ret.
  eapply safe_bind; [by eapply safe_unref|]. intros u mu' held2 [-> ->]. eapply safe_bind; [by eapply safe_unref|]. intros u' mu' held2 [-> ->]. by apply safe_ret.
Qed.
Lemma safe_mmap mu held a0 a1 a2 a3 fd a5 : safe mu held (hook_mmap exit_on_ENOTSUP a0 a1 a2 a3 fd a5) (back mu held).
Proof.
  eapply safe_bind; [apply safe_ref|]. intros r mu' held' (-> & Hr & t & ->). eapply safe_seq; [case_bool_decide; [apply safe_check|apply safe_sys]|]. intros ret.
  eapply safe_bind; [by eapply safe_unref|]. intros u mu' held' [-> ->]. by apply safe_ret.
Qed.

Lemma calm_resolve_null flags at_ rp : known (vr_pool at_) → calm (resolve_path open_fuel malloc_ok flags at_ None rp) (λ r, rp_error r ≠ 0).
Proof.
  intros Hk. unfold resolve_path. destruct (vr_pool at_) as [p|].
  - rewrite bool_decide_eq_true_2 by (by eexists). apply calm_within; [done|]. intros s Hok _. by apply wp_ret.
  - rewrite bool_decide_eq_false_2 by (by intros []). intros s _. unfold wp. cbn. done.
Qed.

Lemma safe_utimensat_helper mu held sc at_ path times flags : known (vr_pool at_) → path_plain path →
  safe mu held (utimensat_helper open_fuel malloc_ok exit_on_ENOTSUP stack sc at_ path times flags) (back mu held).
Proof using open_fuel_pos stack_size links_plain PO.
  intros Hk Hp. unfold utimensat_helper. destruct (bool_decide (vr_pool at_ = None) && _); [apply safe_sys|]. destruct path as [path|].
  - eapply safe_bind; [by apply safe_resolve|]. intros where_ mu' held' [Hr [-> ->]]. destruct (Z.eqb_spec (rp_error where_) 0) as [He|]; cbn [negb]; [|by apply safe_ret].
    destruct (Hr He) as [Hk' [q Hh]]. eapply safe_string; [done|]. destruct (rp_at_pool where_); [|apply safe_sys]. rewrite bool_decide_eq_false_2 by done. by apply safe_pool_check.
  - eapply safe_bind; [by apply safe_calm, calm_resolve_null|]. intros where_ mu' held' [Hr [-> ->]]. rewrite (proj2 (Z.eqb_neq _ _) Hr). by apply safe_ret.
Qed.
Lemma safe_utime mu held path times : path_plain path → safe mu held (hook_utime open_fuel malloc_ok exit_on_ENOTSUP stack mem path times) (back mu held).
Proof using open_fuel_pos stack_size links_plain PO. intros Hp. unfold hook_utime. guards. apply safe_with_at. intros r held' Hr. by apply safe_utimensat_helper. Qed.
Lemma safe_utimes mu held path times : path_plain path → safe mu held (hook_utimes open_fuel malloc_ok exit_on_ENOTSUP stack mem path times) (back mu held).
Proof using open_fuel_pos stack_size links_plain PO. intros Hp. unfold hook_utimes. guards. apply safe_with_at. intros r held' Hr. by apply safe_utimensat_helper. Qed.
Lemma safe_utimensat mu held fd path times flags : path_plain path → safe mu held (hook_utimensat open_fuel malloc_ok exit_on_ENOTSUP stack fd path times flags) (back mu held).
Proof using open_fuel_pos stack_size links_plain PO. intros Hp. apply safe_with_at. intros r held' Hr. by apply safe_utimensat_helper. Qed.

Lemma safe_chdir held path : path_plain path → safe false held (hook_chdir open_fuel malloc_ok exit_on_ENOTSUP stack path) (back false held).
Proof using open_fuel_pos stack_size links_plain PO.
  intros Hp. unfold hook_chdir. guards. eapply safe_bind; [apply safe_lock|]. intros u mu' held' [-> ->]. eapply safe_seq.
  - apply safe_with_path; [done|]. intros where_ held' Hr He. destruct (Hr He) as [Hk [q Hh]]. eapply safe_string; [done|]. eapply safe_seq.
    + apply safe_vfd_back; [apply tame_chdir_resolved; cbn; by intros p Heq; rewrite Heq in Hk|]. intros s Hok.
      eapply wp_conseq; [apply wp_chdir_resolved; [apply Hok|]|by intros a v [? _]]. cbn. intros p Heq. rewrite Heq in Hk. by apply (hk_mounts _ (ho_hok _ _ _ Hok)).
    + intros r. case_bool_decide; [apply safe_check|by apply safe_ret].
  - intros r. eapply safe_bind; [apply safe_unlock|]. intros u' mu' held' [-> ->]. by apply safe_ret.
Qed.

(** Code on a pool in a state where it is in use. *)
Lemma safe_within {A} mu held p (m : M hook_state A) : is_Some (pool_mount p) →
  (∀ s, hok s → in_use p s → (vs_switching (hs_vfd s) = false → ∀ d, vs_pools (hs_vfd s) !! p = Some d → pd_suspended d = false) →
     wp m (λ _ s', steady s s') (exits exit_on_ENOTSUP) s) →
  safe mu held (within p m) (back mu held).
Proof.
  intros Hk Hm s Hok. eapply wp_conseq; [apply (wp_within p m (λ _, True)); [done|apply Hok|]|].
  - intros s1 Hok1 Hu Hoff. eapply wp_conseq; [apply Hm; [done|done|]|by intros a s' H].
    intros Hs1 d Hd. pose proof (Hoff Hs1) as ->. by apply (ho_off _ _ _ Hok Hs1 p).
  - intros a s' [_ Hs]. exists mu, held. split; [done|]. split; [by eapply steady_hook_ok|by apply steady_kept].
Qed.

Lemma safe_pool_getcwd mu held pool buf size : known pool → safe mu held (hook_pool_getcwd exit_on_ENOTSUP pool buf size) (back mu held).
Proof.
  intros Hk. unfold hook_pool_getcwd. destruct pool as [p|].
  - eapply safe_seq; [eapply safe_calm_back, calm_option, Hk|]. intros m. guards. apply safe_within; [done|]. intros s Hok Hu _. apply wp_bind.
    eapply wp_conseq; [apply wp_pcall; [done|done|done|apply pm_getcwd_opens]|]. intros [r cwd] s1 [_ H1]. apply wp_bind.
    apply (wp_conseq _ (λ _ s', steady s s')); [|intros ret s2 H2; by apply wp_ret]. destruct (r <? 0); [|by apply wp_ret].
    eapply wp_conseq; [apply wp_check|]. intros a s2 H2. by etrans.
  - eapply safe_seq; [eapply safe_calm_back, calm_hcall, sys_getcwd_opens|]. intros [r cwd]. by apply safe_ret.
Qed.
Lemma safe_getcwd held buf size : safe false held (hook_getcwd exit_on_ENOTSUP buf size) (back false held).
Proof.
  eapply safe_bind; [apply safe_lock|]. intros u mu' held' [-> ->]. eapply safe_bind; [apply safe_at_ref|]. intros r mu' held' (-> & Hr & t & ->).
  eapply safe_seq; [by apply safe_pool_getcwd|]. intros res. eapply safe_bind; [by eapply safe_unref|]. intros u1 mu' held' [-> ->].
  eapply safe_bind; [apply safe_unlock|]. intros u2 mu' held' [-> ->]. by apply safe_ret.
Qed.

Lemma safe_execveat_vfdref mu held p envp : is_Some (pool_mount p) →
  safe mu held (hook_execveat_vfdref env_malloc_ok asprintf_ok p envp) (back mu held).
Proof.
  intros Hp. unfold hook_execveat_vfdref. guards. eapply safe_seq; [eapply safe_calm_back, calm_call; [done|apply pm_getcwd_opens]|]. intros [r cwd]. guards.
  eapply safe_seq; [by eapply safe_calm_back, calm_option|]. intros m. by apply safe_ret.
Qed.
Lemma safe_execveat held fd path argv envp flags : path_plain path →
  safe false held (hook_execveat open_fuel malloc_ok exit_on_ENOTSUP stack env_malloc_ok asprintf_ok fd path argv envp flags) (back false held).
Proof using open_fuel_pos stack_size links_plain PO.
  intros Hp. unfold hook_execveat. guards. apply safe_with_path; [done|]. intros where_ held' Hr He. destruct (Hr He) as [Hk [q Hh]]. eapply safe_string; [done|].
  destruct (rp_at_pool where_); [apply safe_check|]. eapply safe_bind; [apply safe_lock|]. intros u mu' held0 [-> ->].
  eapply safe_bind; [apply safe_at_ref|]. intros r mu' held0 (-> & Hr' & t & ->).
  eapply safe_seq; [eapply safe_vfd_back; [apply tame_gets|]; intros s Hok; apply wp_gets, Hok|]. intros sw. eapply safe_seq.
  { destruct (vr_pool r); [destruct sw; [by apply safe_execveat_vfdref|by apply safe_ret]|by apply safe_ret]. }
  intros desc. eapply safe_bind; [by eapply safe_unref|]. intros u1 mu' held0 [-> ->]. eapply safe_bind; [apply safe_unlock|]. intros u2 mu' held0 [-> ->].
  destruct desc; [by apply safe_ret|apply safe_sys].
Qed.

(** *** User and group ids *)

Lemma safe_fatal mu held b : safe mu held (fatal_unless b) (back mu held).
Proof. destruct b; [by apply safe_ret|]. intros s Hok. by left. Qed.
Lemma safe_on_open_pools mu held l f : (∀ p, safe mu held (f p) (back mu held)) → safe mu held (on_open_pools l f) (back mu held).
Proof.
  intros Hf. induction l as [|m l IH]; [by apply safe_ret|]. cbn [on_open_pools]. eapply safe_seq; [eapply safe_calm_back, calm_gets|]. intros roots.
  eapply safe_seq; [case_bool_decide; [apply Hf|by apply safe_ret]|]. done.
Qed.
Lemma safe_pm mu held p c : safe mu held (hcall (pm_call p c)) (back mu held).
Proof. eapply safe_calm_back, calm_pm. Qed.
Lemma safe_capabilities mu held p : safe mu held (update_capabilities p) (back mu held).
Proof. eapply safe_calm_back, calm_capabilities. Qed.

Ltac id_steps :=
  repeat first
    [ by apply safe_ret | apply safe_sys | apply safe_pm | apply safe_fatal | apply safe_capabilities | apply safe_on_open_pools; intros ?
    | eapply safe_seq; [|intros ?] | match goal with |- safe _ _ (if ?b then _ else _) _ => destruct b end ].
Lemma safe_set_fs_id mu held set pm_set id : safe mu held (set_fs_id set pm_set id) (back mu held).
Proof. unfold set_fs_id. id_steps. Qed.
Lemma safe_set_pool_ids mu held nr args c : safe mu held (set_pool_ids nr args c) (back mu held).
Proof. unfold set_pool_ids. id_steps. Qed.
Lemma safe_umask mu held mask : safe mu held (hook_umask mask) (back mu held).
Proof. unfold hook_umask. id_steps. Qed.

(** *** Calls whose first argument is a descriptor *)

Definition pool_awake p s : Prop := ∀ d, vs_pools (hs_vfd s) !! p = Some d → pd_suspended d = false.

Lemma wp_awake {A} p (m : M hook_state A) Q X s : is_Some (pool_mount p) → hok s → pool_awake p s → wp m Q X s →
  wp (d ← on_vfd (pool_get p); assert_ (negb (pd_suspended d));; m) Q X s.
Proof.
  intros Hk Hok Ha Hm. destruct (hk_mounts _ Hok p Hk) as [d Hd]. apply wp_bind, wp_zoom, wp_bind, wp_gets. eapply wp_of_option; [done|].
  apply wp_bind, wp_assert; [by rewrite (Ha d)|]. by destruct s.
Qed.
Lemma wp_file_call p c s : is_Some (pool_mount p) → hok s → in_use p s → wp (pcall p (pm_call p c)) (λ _ s', steady s s') (exits exit_on_ENOTSUP) s.
Proof. intros Hk Hok Hu. eapply wp_conseq; [by apply wp_pcall, pm_call_opens|]. by intros a s' [_ H]. Qed.

Lemma wp_fd_first p nr file args s : vr_pool file = Some p → is_Some (pool_mount p) → hok s → in_use p s → pool_awake p s →
  wp (fd_first nr file args) (λ _ s', steady s s') (exits exit_on_ENOTSUP) s.
Proof.
  intros Hf Hk Hok Hu Ha. unfold fd_first. apply wp_bind. eapply wp_of_option; [done|]. by apply wp_awake, wp_file_call.
Qed.
Lemma wp_fcntl p file cmd arg s : vr_pool file = Some p → is_Some (pool_mount p) → hok s → in_use p s → pool_awake p s →
  wp (hook_fcntl file cmd arg) (λ _ s', steady s s') (exits exit_on_ENOTSUP) s.
Proof.
  intros Hf Hk Hok Hu Ha. unfold hook_fcntl. apply wp_bind. eapply wp_of_option; [done|]. apply wp_awake; [done..|]. apply wp_bind, wp_zoom, wp_gets.
  destruct (_ && _); [apply wp_ret; by destruct s|]. destruct (_ && _); [apply wp_ret; by destruct s|]. destruct s. by apply wp_file_call.
Qed.

(** The calls [dispatch_syscall_fd_first] handles. *)
Definition has_fd_first (nr : sysno) : bool :=
  let e := get_early_filter_entry nr in fd_first_arg e && negb (returns_zero e) && negb (returns_ENOTSUP e).

Lemma wp_dispatch_fd_first p nr file a1 a2 a3 a4 a5 s : has_fd_first nr = true →
  vr_pool file = Some p → is_Some (pool_mount p) → hok s → in_use p s → pool_awake p s →
  wp (dispatch_syscall_fd_first nr file a1 a2 a3 a4 a5) (λ _ s', steady s s') (exits exit_on_ENOTSUP) s.
Proof.
  intros Hn Hf Hk Hok Hu Ha. unfold dispatch_syscall_fd_first. destruct nr; try discriminate Hn; try (destruct (negb _); [by apply wp_ret|]);
    try (by eapply wp_fd_first); try (by eapply wp_fcntl).
  apply wp_bind. eapply wp_of_option; [done|]. by apply wp_file_call.
Qed.

(** *** Dispatching *)

Definition call_paths (nr : sysno) (a0 a1 a2 a3 : Z) : list (option cstring) :=
  let str := cstr_at mem in
  match nr with
  | SYS_open | SYS_creat | SYS_unlink | SYS_rmdir | SYS_mkdir | SYS_access | SYS_stat | SYS_lstat | SYS_getxattr | SYS_lgetxattr
  | SYS_setxattr | SYS_lsetxattr | SYS_truncate | SYS_chmod | SYS_chown | SYS_lchown | SYS_mknod | SYS_chroot | SYS_listxattr
  | SYS_removexattr | SYS_llistxattr | SYS_lremovexattr | SYS_readlink | SYS_utime | SYS_utimes | SYS_execve | SYS_statfs | SYS_chdir => [str a0]
  | SYS_openat | SYS_unlinkat | SYS_mkdirat | SYS_faccessat | SYS_newfstatat | SYS_fchmodat | SYS_fchownat | SYS_mknodat
  | SYS_readlinkat | SYS_futimesat | SYS_utimensat | SYS_name_to_handle_at | SYS_execveat | SYS_symlink => [str a1]
  | SYS_symlinkat => [str a2]
  | SYS_rename | SYS_link => [str a0; str a1]
  | SYS_renameat | SYS_renameat2 | SYS_linkat => [str a1; str a3]
  | SYS_bind => [Some (um_sockaddr mem a1).2]
  | _ => []
  end.

(** What the application has to respect: the paths have no component [..]; it
    leaves the descriptors of the library alone, those of current directories
    and those outside of the table. *)
Definition good_call (nr : sysno) (a0 a1 a2 a3 : Z) s : Prop :=
  Forall path_plain (call_paths nr a0 a1 a2 a3) ∧
  match nr with
  | SYS_fchdir => False
  | SYS_close => app_fd (i32 a0) (hs_vfd s)
  | SYS_dup2 | SYS_dup3 =>
      is_Some (vs_table (hs_vfd s) !! i32 a0) ∨ is_Some (vs_table (hs_vfd s) !! i32 a1) → dup2_pre (i32 a0) (i32 a1) (hs_vfd s)
  | _ => True
  end.

Definition comes_back {A} held (m : M hook_state A) s : Prop := wp m (λ _ s', hook_ok false held s' ∧ kept s s') (exits exit_on_ENOTSUP) s.

Lemma safe_comes_back {A} held (m : M hook_state A) s : safe false held m (back false held) → hook_ok false held s → comes_back held m s.
Proof. intros Hm Hok. eapply wp_conseq; [by apply Hm|]. by intros a s' (mu & held' & [-> ->] & H). Qed.
Lemma vfd_comes_back {A} held (m : M vfd_state A) s : tame [] m → hook_ok false held s →
  wp m (λ _ v', vfd_ok held (vs_opened v') v') noabort (hs_vfd s) → comes_back held (on_vfd m) s.
Proof.
  intros Ht Hok Hm. apply wp_zoom. specialize (Ht (hs_vfd s)). unfold wp in *. destruct (m (hs_vfd s)) as [a v|e v|x]; [|done..].
  by apply (releases_hook_ok false held held s v).
Qed.
Lemma hooked_comes_back {A B} held (m : M hook_state A) (f : A → B) s : comes_back held m s → comes_back held (a ← m; mret (f a)) s.
Proof. intros Hm. apply wp_bind. eapply wp_conseq; [exact Hm|]. intros a s' H. by apply wp_ret. Qed.

Lemma close_comes_back held fd s : hook_ok false held s → app_fd fd (hs_vfd s) → comes_back held (on_vfd (pmemfile_vfd_close fd)) s.
Proof.
  intros Hok Ha. apply vfd_comes_back; [apply tame_close|done|]. apply wp_opens_none; [unfold pmemfile_vfd_close; opens_none|]. eapply wp_vfd_close; [apply Hok|done|].
  intros r v Hv _ Ho. by rewrite Ho.
Qed.
Lemma dup_comes_back held fd s : hook_ok false held s → comes_back held (on_vfd (pmemfile_vfd_dup fd)) s.
Proof.
  intros Hok. apply vfd_comes_back; [apply tame_dup|done|]. apply wp_opens_none; [apply opens_none_dup|]. eapply wp_conseq; [apply wp_dup, Hok|].
  intros r v [Hv _] Ho. by rewrite Ho.
Qed.
Lemma fcntl_dup_comes_back held fd n s : hook_ok false held s → comes_back held (on_vfd (pmemfile_vfd_fcntl_dup fd n)) s.
Proof.
  intros Hok. apply vfd_comes_back; [apply tame_fcntl_dup|done|]. apply wp_opens_none; [apply opens_none_fcntl_dup|]. eapply wp_conseq; [apply wp_fcntl_dup, Hok|].
  intros r v [Hv _] Ho. by rewrite Ho.
Qed.
Lemma dup2_comes_back held old new s : hook_ok false held s →
  (is_Some (vs_table (hs_vfd s) !! old) ∨ is_Some (vs_table (hs_vfd s) !! new) → dup2_pre old new (hs_vfd s)) →
  comes_back held (on_vfd (pmemfile_vfd_dup2 old new)) s.
Proof.
  intros Hok Hp. apply vfd_comes_back; [apply tame_dup2|done|]. apply wp_opens_none; [apply opens_none_dup2|]. eapply wp_conseq; [apply wp_vfd_dup2; [apply Hok|done]|].
  intros r v [Hv _] Ho. by rewrite Ho.
Qed.
Lemma ret_comes_back {A} held (a : A) s : hook_ok false held s → comes_back held (mret a) s.
Proof. intros Hok. by apply wp_ret. Qed.
Lemma dup3_comes_back held old new flags s : hook_ok false held s →
  (is_Some (vs_table (hs_vfd s) !! old) ∨ is_Some (vs_table (hs_vfd s) !! new) → dup2_pre old new (hs_vfd s)) →
  comes_back held (on_vfd (pmemfile_vfd_dup3 old new flags)) s.
Proof.
  intros Hok Hp. unfold pmemfile_vfd_dup3. destruct (_ =? _); [apply wp_zoom, wp_ret; by destruct s|]. destruct (negb _); [apply wp_zoom, wp_ret; by destruct s|].
  by apply dup2_comes_back.
Qed.

Create HintDb hooks discriminated.
#[local] Hint Constants Opaque : hooks.
#[local] Hint Resolve safe_openat safe_renameat2 safe_linkat safe_unlinkat safe_mkdirat safe_faccessat safe_newfstatat safe_mmap safe_getxattr safe_setxattr
  safe_truncate safe_symlinkat safe_fchmodat safe_fchownat safe_kernel_fds safe_mknodat safe_set_fs_id safe_set_pool_ids safe_umask safe_nosup safe_readlinkat
  safe_futimesat safe_utime safe_utimes safe_utimensat safe_name_to_handle_at safe_execveat safe_bind_hook safe_statfs : hooks.

Ltac hook_unfold :=
  unfold hook_sendfile, hook_splice, hook_copy_file_range, hook_setfsuid, hook_setfsgid, hook_setgid, hook_setgroups, hook_setregid, hook_setresgid,
    hook_setresuid, hook_setreuid, hook_setuid.

(** The calls [dispatch_syscall] handles. *)
Definition has_hook (nr : sysno) : bool :=
  match nr with
  | SYS_chdir | SYS_fchdir | SYS_getcwd => false
  | _ => let e := get_early_filter_entry nr in must_handle e && negb (fd_first_arg e)
  end.

Lemma dispatch_comes_back held nr a0 a1 a2 a3 a4 a5 s : has_hook nr = true → hook_ok false held s → good_call nr a0 a1 a2 a3 s →
  comes_back held (dispatch_syscall open_fuel malloc_ok exit_on_ENOTSUP stack mem env_malloc_ok asprintf_ok nr a0 a1 a2 a3 a4 a5) s.
Proof using open_fuel_pos stack_size links_plain PO readlink_small.
  intros Hn Hok [Hp Hs]. destruct nr; try discriminate Hn; cbn [call_paths] in Hp; rewrite ?Forall_cons in Hp; cbn [dispatch_syscall];
    lazymatch goal with
    | |- comes_back _ (on_vfd (pmemfile_vfd_close _)) _ => by apply close_comes_back
    | |- comes_back _ (on_vfd (pmemfile_vfd_dup _)) _ => by apply dup_comes_back
    | |- comes_back _ (on_vfd (pmemfile_vfd_dup2 _ _)) _ => by apply dup2_comes_back
    | |- comes_back _ (on_vfd (pmemfile_vfd_dup3 _ _ _)) _ => by apply dup3_comes_back
    | _ => apply safe_comes_back; [|exact Hok]; destruct_and?; hook_unfold; eauto with hooks nocore
    end.
Qed.

(** *** The hook *)

Lemma safe_within_file mu held p nr file a1 a2 a3 a4 a5 : has_fd_first nr = true → vr_pool file = Some p → is_Some (pool_mount p) →
  safe mu held (within p (v ← dispatch_syscall_fd_first nr file a1 a2 a3 a4 a5; check_errno exit_on_ENOTSUP v nr)) (back mu held).
Proof.
  intros Hn Hf Hk. apply safe_within; [done|]. intros s Hok Hu Hoff. apply wp_bind.
  assert (Ha : pool_awake p s).
  { intros d Hd. destruct (vs_switching (hs_vfd s)) eqn:Hsw; [|by apply Hoff]. destruct (Hu Hsw) as (d' & Hd' & Hpos).
    assert (d' = d) as -> by congruence. by apply (hk_pools _ Hok p). }
  eapply wp_conseq; [by eapply wp_dispatch_fd_first|]. intros v s1 H1. eapply wp_conseq; [apply wp_check|]. intros v' s2 H2. etrans; [exact H1|exact H2].
Qed.

Notation hook nr a0 a1 a2 a3 a4 a5 :=
  (hook open_fuel malloc_ok exit_on_ENOTSUP stack mem env_malloc_ok asprintf_ok (get_early_filter_entry nr) nr a0 a1 a2 a3 a4 a5).

Lemma safe_file_hook mu held nr fd a1 a2 a3 a4 a5 : let e := get_early_filter_entry nr in fd_first_arg e = true →
  safe mu held (
    file ← on_vfd (pmemfile_vfd_ref fd);
    r ← match vr_pool file with
        | None => mret (NOT_HOOKED, 0)
        | Some p =>
            if returns_zero e then mret (HOOKED, 0)
            else if returns_ENOTSUP e then v ← check_errno exit_on_ENOTSUP (- ENOTSUP) nr; mret (HOOKED, v)
            else
              v ← within p (v ← dispatch_syscall_fd_first nr file a1 a2 a3 a4 a5; check_errno exit_on_ENOTSUP v nr);
              mret (HOOKED, v)
        end;
    on_vfd (pmemfile_vfd_unref file);;
    mret r) (back mu held).
Proof.
  intros e He. eapply safe_bind; [apply safe_ref|]. intros file mu' held' (-> & Hr & t & ->). eapply safe_seq.
  - destruct (vr_pool file) as [p|] eqn:Hp; [|by apply safe_ret]. destruct (returns_zero e) eqn:Hz; [by apply safe_ret|].
    destruct (returns_ENOTSUP e) eqn:Hs; [eapply safe_seq; [apply safe_check|by intros v; apply safe_ret]|].
    eapply safe_seq; [apply safe_within_file; [|done|done]|by intros v; apply safe_ret]. unfold has_fd_first. fold e. by rewrite He, Hz, Hs.
  - intros r. eapply safe_bind; [by eapply safe_unref|]. intros u mu' held' [-> ->]. by apply safe_ret.
Qed.

Lemma hook_comes_back held nr a0 a1 a2 a3 a4 a5 s : must_handle (get_early_filter_entry nr) = true → hook_ok false held s → good_call nr a0 a1 a2 a3 s →
  comes_back held (hook nr a0 a1 a2 a3 a4 a5) s.
Proof using open_fuel_pos stack_size links_plain PO readlink_small.
  intros Hm Hok Hg. destruct (has_hook nr) eqn:Hh.
  - pose proof (dispatch_comes_back held nr a0 a1 a2 a3 a4 a5 s Hh Hok Hg) as Hd. destruct nr; try discriminate Hh; by apply hooked_comes_back.
  - destruct (fd_first_arg (get_early_filter_entry nr)) eqn:Hf.
    + pose proof (safe_comes_back held _ s (safe_file_hook false held nr (i32 a0) a1 a2 a3 a4 a5 Hf) Hok) as Hd. destruct nr; try discriminate Hf; try exact Hd.
      unfold hook. destruct (_ || _); [|exact Hd]. by apply hooked_comes_back, fcntl_dup_comes_back.
    + destruct Hg as [Hp Hs]. destruct nr; try discriminate Hf; try discriminate Hh; try discriminate Hm; [|destruct Hs|].
      * apply hooked_comes_back, safe_comes_back; [|done]. apply safe_chdir. by apply Forall_inv in Hp.
      * apply safe_comes_back; [|done]. eapply safe_seq; [apply safe_getcwd|]. intros [v b]. by apply safe_ret.
Qed.

Lemma guard_ok mu held g s : hook_ok mu held s → hook_ok mu held (set_hs_guard g s).
Proof. intros [H1 H2 H3 H4 H5 H6]. split; try done. destruct H2. by split. Qed.

Notation wrapper := (hook_reentrance_guard_wrapper open_fuel malloc_ok exit_on_ENOTSUP stack mem env_malloc_ok asprintf_ok).

Lemma wrapper_comes_back held nr a0 a1 a2 a3 a4 a5 s : hook_ok false held s → hs_guard s = false → pools ≠ [] → good_call nr a0 a1 a2 a3 s →
  comes_back held (wrapper nr a0 a1 a2 a3 a4 a5) s.
Proof using open_fuel_pos stack_size links_plain PO readlink_small.
  intros Hok Hg Hp Hgood. unfold hook_reentrance_guard_wrapper. apply wp_bind, wp_gets. rewrite Hg. apply wp_bind, wp_assert; [by rewrite bool_decide_eq_false_2|].
  destruct (must_handle _) eqn:Hm; [|by apply wp_ret]. cbn [negb]. apply wp_bind, wp_modify, wp_bind.
  eapply wp_conseq; [apply (hook_comes_back held); [done|by apply guard_ok|exact Hgood]|]. intros r s' [Hok' [Hc _]]. apply wp_bind, wp_modify, wp_ret.
  split; [by apply guard_ok|]. by split.
Qed.

(** The calls that are for the kernel: those the filter does not select, and those
    on a descriptor that is not of a pool. *)
Definition for_kernel (nr : sysno) (a0 a1 : Z) s : bool :=
  let e := get_early_filter_entry nr in
  negb (must_handle e) ||
  fd_first_arg e && negb (match nr with SYS_fcntl => (i32 a1 =? F_DUPFD) || (i32 a1 =? F_DUPFD_CLOEXEC) | _ => false end)
    && bool_decide (vs_table (hs_vfd s) !! i32 a0 = None).

Lemma ref_kernel_run held opened fd v : vfd_ok held opened v → vs_table v !! fd = None → pmemfile_vfd_ref fd v = Ok (VfdRef None None fd None) v.
Proof.
  intros Hok Hn. unfold pmemfile_vfd_ref. rewrite (bind_run _ _ _ false v); [done|].
  pose proof (wp_can_be fd held opened (λ b v', b = false ∧ v' = v) noabort v Hok) as H. rewrite Hn in H. specialize (H ltac:(done)). unfold wp in H.
  destruct (can_be_in_vfd_table fd v); [|done..]. by destruct H as [-> ->].
Qed.
Lemma wrapper_for_kernel held nr a0 a1 a2 a3 a4 a5 s : hook_ok false held s → hs_guard s = false → pools ≠ [] → for_kernel nr a0 a1 s = true →
  wrapper nr a0 a1 a2 a3 a4 a5 s = Ok (NOT_HOOKED, 0) s.
Proof.
  intros Hok Hg Hp Hk. unfold hook_reentrance_guard_wrapper. rewrite (bind_run (gets hs_guard) _ s false s) by (by unfold gets; rewrite Hg).
  rewrite bool_decide_eq_false_2 by done. rewrite (bind_run (assert_ _) _ s tt s) by done. unfold for_kernel in Hk. destruct (must_handle _); [|done]. cbn [negb orb] in Hk |- *.
  apply andb_prop in Hk as [[Hf Hd]%andb_prop Hn%bool_decide_eq_true]. rewrite (bind_run (modify _) _ s tt (set_hs_guard true s)) by done.
  assert (Hh : hook nr a0 a1 a2 a3 a4 a5 (set_hs_guard true s) = Ok (NOT_HOOKED, 0) (set_hs_guard true s)).
  { destruct s as [v roots mu g]. cbn in Hn. pose proof (ref_kernel_run _ _ _ _ (ho_vfd _ _ _ Hok) Hn) as Hr. cbn in Hr.
    assert (Hz : on_vfd (pmemfile_vfd_ref (i32 a0)) (HState _ v roots mu true) = Ok (VfdRef None None (i32 a0) None) (HState _ v roots mu true)).
    { unfold on_vfd, zoom. cbn. by rewrite Hr. }
    destruct nr; try discriminate Hf; unfold hook; cbn [get_early_filter_entry fd_first_arg]; try (by rewrite (bind_run _ _ _ _ _ Hz)).
    apply negb_true_iff in Hd. rewrite Hd. by rewrite (bind_run _ _ _ _ _ Hz). }
  rewrite (bind_run _ _ _ _ _ Hh). destruct s as [v roots mu g]. cbn in Hg. by subst g.
Qed.
End parts.


(** ** Example *)

Module ExHook.
Definition mem : user_mem := UserMem (λ _, cstr "link/b") (λ _, 0) (λ _, 0) (λ _, []) (λ _, (0, [])).
Definition s : hook_state := HState _ ExVfd.s1 {[1%positive := ExPath.dir 100]} false false.

Lemma s_ok : hook_ok false [] s.
Proof.
  assert (Hp : vs_pools ExVfd.s1 = ExVfd.pools) by (vm_compute; reflexivity).
  assert (Ho : vs_opened ExVfd.s1 = [(1%positive, 1%positive)]) by (vm_compute; reflexivity).
  split; cbn [hs_vfd s].
  - exact (proj1 ExVfd.s1_ok).
  - split; cbn [hs_vfd s].
    + apply ExVfd.s1_ok.
    + intros p [m Hm]. apply pool_mount_in in Hm as [[->|[]%elem_of_nil]%elem_of_cons <-]. rewrite Hp. by eexists.
    + intros p d. rewrite Hp. unfold ExVfd.pools. intros [_ <-]%lookup_singleton_Some. done.
  - rewrite Ho. intros x [->|[]%elem_of_nil]%elem_of_cons. by eexists.
  - assert (Hall : map_Forall (λ _ d, vd_is_special_cwd_desc d = true → vd_pool d = None) (vs_store ExVfd.s1)).
    { apply (bool_decide_unpack _). vm_compute. exact I. }
    intros e d Hd. exact (Hall e d Hd).
  - intros H. vm_compute in H. discriminate H.
  - done.
Qed.
Lemma unlink_good : good_call mem SYS_unlink 1 0 0 0 s.
Proof.
  split; [|done]. apply Forall_singleton. intros a b H. change (until_nul _) with (cstr "link/b") in H. do 7 (destruct a as [|? a]; [by inversion H|]). by inversion H.
Qed.
End ExHook.

