(* ===== verification/Mount.v ===== *)
(** Mounting the pools of the configuration when the library is loaded (preload.c).
    A configuration is a list of pairs "mount_point:pool_file" separated by
    semicolons. *)
From S2P Require Import Prelude CString VfdTable PathResolve.

Definition COLON : ascii := ":"%char.
Definition SEMICOLON : ascii := ";"%char.
(** ARRAY_SIZE(pools) and ARRAY_SIZE(mount_point_fds) *)
Definition MAX_POOLS : Z := 0x100.
Definition PMEMFILE_MAX_FD : Z := 0x8000.
Definition O_RDONLY_DIRECTORY : Z := 0x10000.

(** ** The process ends *)

Definition EXIT_TOO_MANY_FDS : Z := 96.
Definition EXIT_POOL_OPEN_FAILED : Z := 99.
Definition EXIT_CONFIG_ERROR : Z := 100.

(** The messages, in the order of the source. *)
Inductive message :=
  | relative_mount_point | no_colon | long_mount_point | relative_pool_path | long_pool_path
  | cannot_open | fd_too_large | cannot_fstat | not_directory | opening_pool | opening_cwd | chdir_into_pool | too_many_pools.
Definition message_number (msg : message) : Z :=
  match msg with
  | relative_mount_point => 0 | no_colon => 1 | long_mount_point => 2 | relative_pool_path => 3 | long_pool_path => 4
  | cannot_open => 5 | fd_too_large => 6 | cannot_fstat => 7 | not_directory => 8 | opening_pool => 9 | opening_cwd => 10
  | chdir_into_pool => 11 | too_many_pools => 12
  end.
(** The exit status in the low byte, and the message. *)
Definition exit_code (ret : Z) (msg : message) : Z := ret + 0x100 * message_number msg.

(** ** The table of pools *)

(** The paths of a [pool_description]. *)
Record pool_paths := PoolPaths { mount_point : cstring; mount_point_parent : cstring; poolfile_path : cstring }.

(** [ss_pools] are the first [pool_count] elements of [pools]. *)
Record start_state `{E : VfdEnv} := SState {
  ss_hook : hook_state;
  ss_pools : list (mount * pool_paths);
  ss_mount_point_fds : gset Z;
}.

(** ** Parsing *)

(** The loop of [set_mount_point]; [b] is the array. *)
Fixpoint parent_length (b : list ascii) (len : nat) : nat :=
  match len with
  | O => O
  | S len' => if (1 <? Z.of_nat len) && negb (bool_decide (b !! len = Some SLASH)) then parent_length b len' else len
  end.
Definition set_mount_point (path : list ascii) (len : nat) (d : pool_paths) : pool_paths :=
  PoolPaths (take len path) (take (parent_length (take len path) len) (take len path)) (poolfile_path d).

Section mount.
Context `{E : VfdEnv} {PE : PathEnv}.

Definition exit_with_msg {A} (ret : Z) (msg : message) : M start_state A := tx_abort (exit_code ret msg).
Definition config_error {A} (msg : message) : M start_state A := exit_with_msg EXIT_CONFIG_ERROR msg.

(** The description, and the rest behind the colon. *)
Definition parse_mount_point (d : pool_paths) (conf : cstring) : M start_state (pool_paths * cstring) :=
  if negb (bool_decide (head conf = Some SLASH)) then config_error relative_mount_point
  else
    match list_find (λ c, c = COLON) conf with
    | None => config_error no_colon
    | Some (i, _) =>
        if PATH_MAX <=? Z.of_nat i then config_error long_mount_point
        else mret (set_mount_point conf i d, drop (S i) conf)
    end.

(** The loop of [parse_pool_path]: the characters copied, and the rest behind the
    semicolon. *)
Fixpoint copy_pool_path (i : Z) (conf : cstring) : M start_state (cstring * option cstring) :=
  match conf with
  | [] => mret ([], None)
  | c :: conf' =>
      if bool_decide (c = SEMICOLON) then mret ([], Some conf')
      else if PATH_MAX - 1 <=? i then config_error long_pool_path
      else '(path, rest) ← copy_pool_path (i + 1) conf'; mret (c :: path, rest)
  end.
Definition parse_pool_path (d : pool_paths) (conf : cstring) : M start_state (pool_paths * option cstring) :=
  if negb (bool_decide (head conf = Some SLASH)) then config_error relative_pool_path
  else
    '(path, rest) ← copy_pool_path 0 conf;
    mret (PoolPaths (mount_point d) (mount_point_parent d) path, rest).

(** ** Mounting *)

(** [open_fuel] and [malloc_ok] are those of opening a pool; [sys_fstat] is the
    system call. *)
Variables (open_fuel : nat) (malloc_ok : bool) (sys_fstat : Z → world → (Z * kstat) * world).

Definition set_ss_hook x (s : start_state) := SState _ x (ss_pools s) (ss_mount_point_fds s).
Definition set_ss_pools x (s : start_state) := SState _ (ss_hook s) x (ss_mount_point_fds s).
Definition set_ss_mount_point_fds x (s : start_state) := SState _ (ss_hook s) (ss_pools s) x.
Definition on_hook {A} (m : M hook_state A) : M start_state A := zoom ss_hook set_ss_hook m.

Definition open_mount_point (d : pool_paths) : M start_state (Z * kstat) :=
  fd ← on_hook (hcall (sys_call (K_path SYS_open None (Some (mount_point d)) [O_RDONLY_DIRECTORY; 0])));
  if fd <? 0 then config_error cannot_open
  else if PMEMFILE_MAX_FD + 1 <=? fd then exit_with_msg EXIT_TOO_MANY_FDS fd_too_large
  else
    modify (λ s, set_ss_mount_point_fds ({[fd]} ∪ ss_mount_point_fds s) s);;
    '(r, st) ← on_hook (hcall (sys_fstat fd));
    if negb (r =? 0) then config_error cannot_fstat
    else if negb (S_ISDIR (st_mode st)) then config_error not_directory
    else mret (fd, st).

Definition open_pool_at_startup (m : mount) : M start_state unit :=
  let p := mp_pool m in
  on_hook (open_new_pool open_fuel malloc_ok m);;
  roots ← gets (hs_roots ∘ ss_hook);
  if negb (bool_decide (is_Some (roots !! p))) then exit_with_msg EXIT_POOL_OPEN_FAILED opening_pool
  else
    '(file, _) ← on_hook (on_vfd (pmemfile_openat_call p None (cstr ".") O_CHDIR 0));
    match file with
    | None => exit_with_msg EXIT_POOL_OPEN_FAILED opening_cwd
    | Some file =>
        r ← on_hook (on_vfd (pmemfile_vfd_chdir_pf p file));
        if negb (r =? 0) then exit_with_msg EXIT_POOL_OPEN_FAILED chdir_into_pool
        else
          sw ← gets (vs_switching ∘ hs_vfd ∘ ss_hook);
          if sw : bool then on_hook (on_vfd (pool_acquire (Some p)));; on_hook (on_vfd (pool_release (Some p))) else mret tt
    end.

(** The pool of element [i] of the array. *)
Definition pool_id (i : nat) : positive := Pos.of_succ_nat i.

Definition init_pool (d : pool_paths) (kernel_cwd_stat : kstat) : M start_state unit :=
  '(fd, st) ← open_mount_point d;
  l ← gets ss_pools;
  let m := Mount (pool_id (length l)) (mount_point d) fd st in
  modify (set_ss_pools (l ++ [(m, d)]));;
  if same_inode st kernel_cwd_stat then open_pool_at_startup m else mret tt.

Fixpoint mount_loop (fuel : nat) (config : cstring) (kernel_cwd_stat : kstat) : M start_state unit :=
  match fuel with
  | O => fault_ NoFuel
  | S fuel' =>
      l ← gets ss_pools;
      if MAX_POOLS <=? Z.of_nat (length l) then config_error too_many_pools
      else
        '(d, config) ← parse_mount_point (PoolPaths [] [] []) config;
        '(d, config) ← parse_pool_path d config;
        init_pool d kernel_cwd_stat;;
        match config with Some config => mount_loop fuel' config kernel_cwd_stat | None => mret tt end
  end.
Definition establish_mount_points (config : option cstring) (kernel_cwd_stat : kstat) : M start_state unit :=
  match config with
  | None | Some [] => mret tt
  | Some config => mount_loop (length config) config kernel_cwd_stat
  end.
End mount.
