(* ===== verification/MountSpec.v ===== *)
(** The configuration is read as it is documented, and start-up leaves a state in
    which system calls can be hooked. *)
From S2P Require Import Prelude CString VfdTable VfdRep VfdOps VfdSpec PathResolve PathRep PathSpec Hooks HookSpec Mount.

(** ** The syntax of a configuration *)

Implicit Types (x : cstring * cstring) (l : list (cstring * cstring)).

Record good_pair x : Prop := {
  gp_mount_absolute : head x.1 = Some SLASH;
  gp_mount_colon : COLON ∉ x.1;
  gp_mount_length : Z.of_nat (length x.1) < PATH_MAX;
  gp_pool_absolute : head x.2 = Some SLASH;
  gp_pool_semicolon : SEMICOLON ∉ x.2;
  gp_pool_length : Z.of_nat (length x.2) < PATH_MAX;
}.

Fixpoint config_of l : cstring :=
  match l with
  | [] => []
  | [x] => x.1 ++ COLON :: x.2
  | x :: l' => x.1 ++ COLON :: x.2 ++ SEMICOLON :: config_of l'
  end.
(** What is left of a configuration behind a pool path. *)
Definition more l : option cstring := match l with [] => None | _ => Some (config_of l) end.
Definition behind (rest : option cstring) : cstring := match rest with Some rest => SEMICOLON :: rest | None => [] end.

Lemma config_cons x l : config_of (x :: l) = x.1 ++ COLON :: x.2 ++ behind (more l).
Proof. destruct l; cbn; [by rewrite app_nil_r|done]. Qed.

Lemma find_first (c : ascii) a b : c ∉ a → list_find (λ y, y = c) (a ++ c :: b) = Some (length a, c).
Proof.
  intros Ha. apply list_find_Some. split_and!; [by rewrite list_lookup_middle|done|]. intros j y Hj Hlt ->. rewrite lookup_app_l in Hj by done.
  by apply Ha, list_elem_of_lookup_2 with j.
Qed.
Lemma find_first_inv (c : ascii) s i y : list_find (λ y, y = c) s = Some (i, y) → ∃ a b, s = a ++ c :: b ∧ length a = i ∧ c ∉ a.
Proof.
  intros (Hi & -> & Hn)%list_find_Some. exists (take i s), (drop (S i) s). pose proof (lookup_lt_Some _ _ _ Hi). split_and!; [by rewrite take_drop_middle|rewrite length_take; lia|].
  intros (j & Hj)%list_elem_of_lookup_1. apply lookup_take_Some in Hj as [Hj Hlt]. by apply (Hn j c).
Qed.

Lemma drop_middle (c : ascii) a b : drop (S (length a)) (a ++ c :: b) = b.
Proof. induction a; [done|]. exact IHa. Qed.

Section parse.
Context `{E : VfdEnv} {PE : PathEnv}.
Implicit Types (s : start_state).

Lemma head_app (a b : cstring) c : head a = Some c → head (a ++ b) = Some c.
Proof. by destruct a. Qed.
Lemma head_app_ne (a b : cstring) c d : head (a ++ d :: b) = Some c → c ≠ d → head a = Some c.
Proof. destruct a; cbn; [congruence|done]. Qed.

Lemma parse_mount_point_run d x rest s : good_pair x →
  ∃ d', parse_mount_point d (x.1 ++ COLON :: rest) s = Ok (d', rest) s ∧ mount_point d' = x.1.
Proof.
  intros [H1 H2 H3 _ _ _]. unfold parse_mount_point. rewrite bool_decide_eq_true_2 by by apply head_app. rewrite find_first by done. cbn [negb].
  rewrite (proj2 (Z.leb_gt _ _)) by done. eexists. split.
  - by rewrite drop_middle.
  - cbn. by rewrite take_app_length.
Qed.
Lemma parse_mount_point_inv d conf s d' rest s' : parse_mount_point d conf s = Ok (d', rest) s' →
  s' = s ∧ conf = mount_point d' ++ COLON :: rest ∧ head (mount_point d') = Some SLASH ∧ COLON ∉ mount_point d' ∧ Z.of_nat (length (mount_point d')) < PATH_MAX.
Proof.
  unfold parse_mount_point. case_bool_decide as Hh; [|done]. cbn [negb]. destruct (list_find _ conf) as [[i y]|] eqn:Hf; [|done].
  destruct (Z.leb_spec PATH_MAX (Z.of_nat i)); [done|]. intros [= <- <- <-]. apply find_first_inv in Hf as (a & b & -> & <- & Ha).
  cbn [mount_point set_mount_point]. rewrite take_app_length, drop_middle. split_and!; [done|done|by eapply head_app_ne|done|done].
Qed.

Lemma copy_pool_path_run a rest i s : SEMICOLON ∉ a → i + Z.of_nat (length a) < PATH_MAX → copy_pool_path i (a ++ behind rest) s = Ok (a, rest) s.
Proof.
  revert i. induction a as [|c a IH]; intros i Ha Hi.
  - destruct rest; cbn; [by rewrite bool_decide_eq_true_2|done].
  - apply not_elem_of_cons in Ha as [Hc Ha]. cbn [length] in Hi. cbn [app copy_pool_path]. rewrite bool_decide_eq_false_2 by congruence.
    rewrite (proj2 (Z.leb_gt _ _)) by lia. rewrite (bind_run _ _ _ _ _ (IH (i + 1) Ha ltac:(lia))). done.
Qed.
Lemma copy_pool_path_inv conf i s path rest s' : copy_pool_path i conf s = Ok (path, rest) s' → i < PATH_MAX →
  s' = s ∧ conf = path ++ behind rest ∧ SEMICOLON ∉ path ∧ i + Z.of_nat (length path) < PATH_MAX.
Proof.
  revert i path. induction conf as [|c conf IH]; intros i path Hrun Hi; cbn [copy_pool_path] in Hrun.
  - injection Hrun as <- <- <-. cbn. split_and!; [done|done|apply not_elem_of_nil|lia].
  - case_bool_decide as Hc; [injection Hrun as <- <- <-; subst c; cbn; split_and!; [done|done|apply not_elem_of_nil|lia]|].
    destruct (Z.leb_spec (PATH_MAX - 1) i); [done|]. apply bind_ok in Hrun as ([path' rest'] & s1 & Hrun & [= <- <- <-]).
    apply IH in Hrun as (-> & -> & Hn & Hl); [|lia]. split_and!; [done|done|by apply not_elem_of_cons|cbn [length]; lia].
Qed.

Lemma parse_pool_path_run d x rest s : good_pair x →
  parse_pool_path d (x.2 ++ behind rest) s = Ok (PoolPaths (mount_point d) (mount_point_parent d) x.2, rest) s.
Proof.
  intros [_ _ _ H1 H2 H3]. unfold parse_pool_path. rewrite bool_decide_eq_true_2 by by apply head_app. cbn [negb].
  by rewrite (bind_run _ _ _ _ _ (copy_pool_path_run _ _ 0 _ H2 H3)).
Qed.
Lemma parse_pool_path_inv d conf s d' rest s' : parse_pool_path d conf s = Ok (d', rest) s' →
  s' = s ∧ mount_point d' = mount_point d ∧ conf = poolfile_path d' ++ behind rest ∧
  head (poolfile_path d') = Some SLASH ∧ SEMICOLON ∉ poolfile_path d' ∧ Z.of_nat (length (poolfile_path d')) < PATH_MAX.
Proof.
  unfold parse_pool_path. case_bool_decide as Hh; [|done]. cbn [negb]. intros ([path rest'] & s1 & Hrun & [= <- <- <-])%bind_ok.
  apply copy_pool_path_inv in Hrun as (-> & -> & Hn & Hl); [|done]. cbn. split_and!; [done|done|done| |done|done].
  destruct rest'; cbn in Hh; [by eapply head_app_ne|by rewrite app_nil_r in Hh].
Qed.
End parse.

(** ** Mounting *)

(** The exits that are not about the syntax. *)
Definition system_exits : list Z :=
  [exit_code EXIT_CONFIG_ERROR cannot_open; exit_code EXIT_TOO_MANY_FDS fd_too_large; exit_code EXIT_CONFIG_ERROR cannot_fstat;
   exit_code EXIT_CONFIG_ERROR not_directory; exit_code EXIT_POOL_OPEN_FAILED opening_pool; exit_code EXIT_POOL_OPEN_FAILED opening_cwd;
   exit_code EXIT_POOL_OPEN_FAILED chdir_into_pool].

Section mount.
Context `{E : VfdEnv} {PE : PathEnv} {EO : VfdEnvOk} {PO : PathEnvOk}.
Variables (open_fuel : nat) (malloc_ok : bool) (sys_fstat : Z → world → (Z * kstat) * world).
Implicit Types (s : start_state).

Definition pairs s : list (cstring * cstring) := (λ y, (mount_point y.2, poolfile_path y.2)) <$> ss_pools s.

(** *** What is registered *)

Definition same_pools {A} (m : M start_state A) : Prop := ∀ s, match m s with Ok _ s' => ss_pools s' = ss_pools s | _ => True end.
Lemma same_bind {A B} (m : M start_state A) (f : A → M start_state B) : same_pools m → (∀ a, same_pools (f a)) → same_pools (m ≫= f).
Proof.
  intros Hm Hf s. unfold mbind, M_bind. specialize (Hm s). destruct (m s) as [a s1| |]; [|done..]. specialize (Hf a s1). destruct (f a s1); [congruence|done..].
Qed.
Lemma same_hook {A} (m : M hook_state A) : same_pools (on_hook m).
Proof. intros s. unfold on_hook, zoom. by destruct (m (ss_hook s)). Qed.
Lemma same_ret {A} (a : A) : same_pools (mret a).
Proof. done. Qed.
Lemma same_gets {A} (f : start_state → A) : same_pools (gets f).
Proof. done. Qed.
Lemma same_exit {A} ret msg : same_pools (exit_with_msg (A := A) ret msg).
Proof. done. Qed.
Lemma same_open_pool m : same_pools (open_pool_at_startup open_fuel malloc_ok m).
Proof.
  unfold open_pool_at_startup. apply same_bind; [apply same_hook|intros _]. apply same_bind; [apply same_gets|intros roots]. destruct (negb _); [apply same_exit|].
  apply same_bind; [apply same_hook|intros [[file|] ?]]; [|apply same_exit]. apply same_bind; [apply same_hook|intros r]. destruct (negb _); [apply same_exit|].
  apply same_bind; [apply same_gets|intros sw]. destruct sw; [apply same_bind; [|intros _]; apply same_hook|apply same_ret].
Qed.
Lemma same_open_mount_point d : same_pools (open_mount_point sys_fstat d).
Proof.
  unfold open_mount_point. apply same_bind; [apply same_hook|intros fd]. destruct (fd <? 0); [apply same_exit|]. destruct (_ <=? _); [apply same_exit|].
  apply same_bind; [done|intros _]. apply same_bind; [apply same_hook|intros [r st]]. destruct (negb _); [apply same_exit|]. destruct (negb _); [apply same_exit|apply same_ret].
Qed.
Lemma init_pool_pairs d st s u s' : init_pool open_fuel malloc_ok sys_fstat d st s = Ok u s' → pairs s' = pairs s ++ [(mount_point d, poolfile_path d)].
Proof.
  intros ([fd st'] & s1 & Hm & (l & s2 & [= <- <-] & (v & s3 & [= <- <-] & Hrun)%bind_ok)%bind_ok)%bind_ok.
  pose proof (same_open_mount_point d s) as H1. rewrite Hm in H1. set (m := Mount _ _ _ _) in Hrun. set (s3 := set_ss_pools _ _) in Hrun.
  assert (H2 : ss_pools s' = ss_pools s3).
  { destruct (same_inode st' st); [|by injection Hrun as _ <-]. pose proof (same_open_pool m s3) as H2. by rewrite Hrun in H2. }
  unfold pairs. rewrite H2. cbn. by rewrite fmap_app, H1.
Qed.

Lemma mount_loop_inv fuel config st s u s' : mount_loop open_fuel malloc_ok sys_fstat fuel config st s = Ok u s' →
  ∃ l, Forall good_pair l ∧ l ≠ [] ∧ config = config_of l ∧ pairs s' = pairs s ++ l.
Proof.
  revert config s. induction fuel as [|fuel IH]; intros config s Hrun; [done|]. cbn [mount_loop] in Hrun. apply bind_ok in Hrun as (l0 & s0 & [= <- <-] & Hrun).
  destruct (_ <=? _); [done|]. apply bind_ok in Hrun as ([d1 c1] & s1 & H1 & Hrun). apply parse_mount_point_inv in H1 as (-> & -> & G1 & G2 & G3).
  apply bind_ok in Hrun as ([d2 c2] & s2 & H2 & Hrun). apply parse_pool_path_inv in H2 as (-> & Hm & -> & G4 & G5 & G6).
  apply bind_ok in Hrun as (v & s3 & H3%init_pool_pairs & Hrun). rewrite Hm in H3.
  set (x := (mount_point d1, poolfile_path d2)) in *. assert (Hx : good_pair x) by by split.
  destruct c2 as [c2|].
  - apply IH in Hrun as (l & Hl & Hne & -> & Hp). exists (x :: l). split_and!; [by constructor|done| |].
    + rewrite config_cons. by destruct l.
    + rewrite Hp, H3. by rewrite <-app_assoc.
  - injection Hrun as _ <-. exists [x]. split_and!; [by constructor|done|by rewrite config_cons|done].
Qed.

(** *** Mounting returns *)

Hypotheses (open_fuel_pos : (0 < open_fuel)%nat) (fstat_opens : ∀ fd w, w_open w ⊆ w_open (sys_fstat fd w).2).

(** The start-up goes on, or the system does not let it. *)
Definition system_exit (e : Z) s : Prop := e ∈ system_exits.
Definition ready s s' : Prop := hook_ok false [] (ss_hook s') ∧ kept (ss_hook s) (ss_hook s').

Lemma wp_on_hook {A} (m : M hook_state A) (P : A → Prop) (Q : A → start_state → Prop) X s : calm m P → hook_ok false [] (ss_hook s) →
  (∀ a h, P a → hook_ok false [] h → kept (ss_hook s) h → Q a (set_ss_hook h s)) → wp (on_hook m) Q X s.
Proof.
  intros Hm Hok HQ. apply wp_zoom. eapply wp_mono; [apply Hm, Hok| |done]. intros a h [Ha Hs]. apply HQ; [done|by eapply steady_hook_ok|by apply steady_kept].
Qed.
Lemma wp_exit {A} ret msg (Q : A → start_state → Prop) s : exit_code ret msg ∈ system_exits → wp (exit_with_msg ret msg) Q system_exit s.
Proof. done. Qed.
#[local] Hint Extern 0 (exit_code _ _ ∈ system_exits) => (apply (bool_decide_unpack _); vm_compute; exact I) : core.

Lemma wp_open_mount_point d s : hook_ok false [] (ss_hook s) →
  wp (open_mount_point sys_fstat d) (λ _ s', ready s s' ∧ ss_pools s' = ss_pools s) system_exit s.
Proof using fstat_opens PO.
  intros Hok. unfold open_mount_point. apply wp_bind. eapply wp_on_hook; [apply calm_sys|done|]. intros fd h _ Hok1 Hk1.
  destruct (fd <? 0); [by apply wp_exit; auto|]. destruct (_ <=? fd); [by apply wp_exit; auto|]. apply wp_bind, wp_modify, wp_bind.
  eapply wp_on_hook; [apply calm_hcall, fstat_opens|done|]. intros [r st] h' _ Hok2 Hk2. destruct (negb _); [by apply wp_exit; auto|].
  destruct (negb _); [by apply wp_exit; auto|]. apply wp_ret. split; [|done]. split; [done|]. cbn in *. by etrans.
Qed.

(** A step of the descriptor table, with what it releases. *)
Lemma wp_tame {A} us (m : M vfd_state A) (Q : A → vfd_state → Prop) X v : tame us m →
  wp m (λ a v', releases (λ p, uses p us) v v' → Q a v') X v → wp m Q X v.
Proof. intros Ht Hm. specialize (Ht v). unfold wp in *. destruct (m v); auto. Qed.

(** The current directory moves into the pool. *)
Lemma wp_enter_pool p s : hook_ok false [] (ss_hook s) → is_Some (pool_mount p) →
  wp ('(file, _) ← on_hook (on_vfd (pmemfile_openat_call p None (cstr ".") O_CHDIR 0));
      match file with
      | None => exit_with_msg EXIT_POOL_OPEN_FAILED opening_cwd
      | Some file =>
          r ← on_hook (on_vfd (pmemfile_vfd_chdir_pf p file));
          if negb (r =? 0) then exit_with_msg EXIT_POOL_OPEN_FAILED chdir_into_pool
          else
            sw ← gets (vs_switching ∘ hs_vfd ∘ ss_hook);
            if sw : bool then on_hook (on_vfd (pool_acquire (Some p)));; on_hook (on_vfd (pool_release (Some p))) else mret tt
      end) (λ _ s', ready s s') system_exit s.
Proof.
  intros Hok Hp. destruct s as [h l fds]. cbn in Hok. pose proof (hk_mounts _ (ho_hok _ _ _ Hok) p Hp) as Hvp. pose proof (ho_vfd _ _ _ Hok) as Hv.
  apply wp_bind, wp_zoom, wp_zoom. eapply wp_tame; [by apply tame_openat_call|]. apply wp_openat_call. intros file errno v1 Hq1 Ho1 _ Hr1. cbn in *.
  destruct file as [file|]; [|by apply wp_exit; auto]. pose proof (quiet_ok _ _ _ _ Hv Hq1) as Hv1. pose proof (fr_pools _ _ (qu_frame _ _ Hq1) _ Hvp) as Hvp1.
  apply wp_bind, wp_zoom, wp_zoom. eapply wp_tame; [apply tame_chdir_pf|]. apply wp_opens_none; [apply opens_none_chdir_pf|].
  eapply wp_chdir_pf; [done|done|]. intros r v2 Hv2 _ _ Hvp2 Ho2 Hr2. cbn in *. destruct (Z.eqb_spec r 0) as [->|]; cbn [negb]; [|by apply wp_exit; auto].
  assert (Hok2 : vfd_ok [] (vs_opened v2) v2) by (rewrite Ho2, Ho1; exact Hv2). specialize (Hvp2 _ Hvp1).
  assert (Hr : releases (λ p, uses p []) (hs_vfd h) v2) by (by eapply releases_trans; [|exact Hr1|exact Hr2]).
  apply wp_bind, wp_gets. cbn. destruct (vs_switching v2); [|apply wp_ret; by apply (releases_hook_ok false [] [] h v2)].
  assert (Hac : wp (pool_acquire (Some p);; pool_release (Some p)) (λ _ v3, hook_ok false [] (set_hs_vfd v3 h) ∧ kept h (set_hs_vfd v3 h)) noabort v2).
  { eapply wp_tame; [apply tame_acquire; intros _; apply tame_release_last|]. apply wp_opens_none; [opens_none|].
    apply wp_bind, wp_pool_acquire; [done|by apply no_pool_lock, Hok2|]. intros v3 Hq3.
    apply wp_pool_release; [by apply (fr_pools _ _ (qu_frame _ _ Hq3))|rewrite (fr_locks _ _ (qu_frame _ _ Hq3)); by apply no_pool_lock, Hok2|]. intros v4 Hq4 Ho4 Hr4.
    apply (releases_hook_ok false [] []); [done|by eapply releases_trans; [|exact Hr|exact Hr4]|]. rewrite Ho4. eapply quiet_ok; [|exact Hq4]. by eapply quiet_ok. }
  apply wp_bind_inv in Hac. apply wp_bind, wp_zoom, wp_zoom. eapply wp_mono; [exact Hac| |done]. intros u v3 Hv3. apply wp_zoom, wp_zoom.
  eapply wp_mono; [exact Hv3| |done]. by intros u' v4 H4.
Qed.

Lemma wp_open_pool_at_startup m s : hook_ok false [] (ss_hook s) → is_Some (pool_mount (mp_pool m)) →
  wp (open_pool_at_startup open_fuel malloc_ok m) (λ _ s', ready s s') system_exit s.
Proof using open_fuel_pos PO.
  intros Hok Hp. unfold open_pool_at_startup. apply wp_bind. eapply wp_on_hook; [by apply calm_open_new_pool|done|]. intros u h _ Hok1 Hk1.
  apply wp_bind, wp_gets. destruct (negb _); [by apply wp_exit; auto|]. eapply wp_conseq; [by apply wp_enter_pool|].
  intros u' s' [Hok2 Hk2]. split; [done|]. cbn in *. by etrans.
Qed.

Lemma wp_init_pool d st s : hook_ok false [] (ss_hook s) → is_Some (pool_mount (pool_id (length (ss_pools s)))) →
  wp (init_pool open_fuel malloc_ok sys_fstat d st) (λ _ s', ready s s') system_exit s.
Proof using open_fuel_pos fstat_opens PO.
  intros Hok Hp. unfold init_pool. apply wp_bind. eapply wp_conseq; [by apply wp_open_mount_point|]. intros [fd st'] s1 [[Hok1 Hk1] Hl].
  apply wp_bind, wp_gets, wp_bind, wp_modify. rewrite Hl. destruct (same_inode st' st); [|by apply wp_ret].
  eapply wp_conseq; [by apply wp_open_pool_at_startup|]. intros u s2 [Hok2 Hk2]. split; [done|]. cbn in *. by etrans.
Qed.

(** The array has an element for each of the first [n] pools. *)
Definition numbered (n : nat) : Prop := ∀ i, (i < n)%nat → is_Some (pool_mount (pool_id i)).

Lemma wp_with_run {A} (m : M start_state A) (Q : A → start_state → Prop) X s : wp m (λ a s', m s = Ok a s' → Q a s') X s → wp m Q X s.
Proof. unfold wp. destruct (m s); auto. Qed.

Lemma wp_mount_loop l fuel st s : Forall good_pair l → l ≠ [] → (length (config_of l) ≤ fuel)%nat →
  Z.of_nat (length (ss_pools s) + length l) ≤ MAX_POOLS → numbered (length (ss_pools s) + length l) → hook_ok false [] (ss_hook s) →
  wp (mount_loop open_fuel malloc_ok sys_fstat fuel (config_of l) st) (λ _ s', ready s s' ∧ pairs s' = pairs s ++ l) system_exit s.
Proof using open_fuel_pos fstat_opens PO.
  revert l s. induction fuel as [|fuel IH]; intros [|x l] s Hg Hne Hfuel Hmax Hids Hok; try done.
  { rewrite config_cons, length_app in Hfuel. cbn in Hfuel. lia. }
  apply Forall_cons in Hg as [Hx Hg]. rewrite config_cons in Hfuel |- *. cbn [length] in *. cbn [mount_loop]. apply wp_bind, wp_gets.
  rewrite (proj2 (Z.leb_gt _ _)) by lia. destruct (parse_mount_point_run (PoolPaths [] [] []) x (x.2 ++ behind (more l)) s Hx) as (d & Hrun & Hd).
  apply wp_bind. unfold wp at 1. rewrite Hrun. apply wp_bind. unfold wp at 1. rewrite (parse_pool_path_run d x (more l) s Hx).
  apply wp_bind, wp_with_run. eapply wp_conseq; [apply wp_init_pool; [done|apply Hids; lia]|]. intros u s1 [Hok1 Hk1] Hp1%init_pool_pairs. cbn in Hp1.
  rewrite Hd, <-surjective_pairing in Hp1. destruct l as [|y l]; [by apply wp_ret|]. cbn [more].
  assert (Hn1 : length (ss_pools s1) = S (length (ss_pools s))).
  { apply (f_equal length) in Hp1. unfold pairs in Hp1. rewrite length_app, !length_fmap in Hp1. cbn in Hp1. lia. }
  eapply wp_conseq; [apply IH; [done|done| |rewrite Hn1; lia|rewrite Hn1; intros i Hi; apply Hids; lia|done]|].
  - rewrite !length_app in Hfuel. cbn [length behind more] in Hfuel. rewrite length_app in Hfuel. cbn [length] in Hfuel. lia.
  - intros u' s2 [[Hok2 Hk2] Hp2]. split; [split; [done|by etrans]|]. by rewrite Hp2, Hp1, <-app_assoc.
Qed.
End mount.

(** ** Start-up *)

(** Static storage is zero. *)
Definition zero_pools : gmap positive pool_description := list_to_map ((λ i, (pool_id i, PoolDesc 0 false)) <$> seq 0 (Z.to_nat MAX_POOLS)).
Definition start `{E : VfdEnv} (switching : bool) (w : world) : start_state := SState _ (HState _ (vfd_start switching zero_pools w) ∅ false false) [] ∅.

Lemma zero_pools_lookup p d : zero_pools !! p = Some d → d = PoolDesc 0 false.
Proof. intros Hd%elem_of_list_to_map_2. by apply list_elem_of_fmap in Hd as (i & [= _ ->] & _). Qed.
Lemma pool_id_inj i j : pool_id i = pool_id j → i = j.
Proof. apply SuccNat2Pos.inj. Qed.
Lemma zero_pools_id i : Z.of_nat i < MAX_POOLS → is_Some (zero_pools !! pool_id i).
Proof.
  intros Hi. exists (PoolDesc 0 false). apply elem_of_list_to_map_1.
  - rewrite <-list_fmap_compose. apply NoDup_fmap_2; [intros ??; apply pool_id_inj|apply NoDup_seq].
  - apply list_elem_of_fmap. exists i. split; [done|]. apply elem_of_seq. lia.
Qed.

Section start.
Context `{E : VfdEnv} {PE : PathEnv} {EO : VfdEnvOk} {PO : PathEnvOk}.

Lemma tame_mark_all es : tame [] (mark_all_free es).
Proof. induction es as [|e es IH]; cbn [mark_all_free]; [apply tame_ret|]. apply tame_seq; [tame|]. done. Qed.
Lemma tame_table_init : tame [] pmemfile_vfd_table_init.
Proof.
  unfold pmemfile_vfd_table_init. apply tame_seq; [tame|intros _]. apply tame_seq; [apply tame_mark_all|intros _]. unfold setup_cwd. tame.
Qed.

(** The pools of the mount points are the first [n] of the array. *)
Lemma pools_numbered n : mp_pool <$> pools = pool_id <$> seq 0 n → numbered n.
Proof.
  intros Hp i Hi. assert (Hin : pool_id i ∈ mp_pool <$> pools) by (rewrite Hp; apply list_elem_of_fmap; exists i; split; [done|]; apply elem_of_seq; lia).
  apply list_elem_of_fmap in Hin as (m & Hm & Hin). unfold pool_mount. apply fmap_is_Some. by eapply list_find_elem_of.
Qed.
Lemma pools_in_table n p : mp_pool <$> pools = pool_id <$> seq 0 n → Z.of_nat n ≤ MAX_POOLS → is_Some (pool_mount p) → is_Some (zero_pools !! p).
Proof.
  intros Hp Hn [m [Hm <-]%pool_mount_in]. apply (list_elem_of_fmap_2 mp_pool) in Hm. rewrite Hp in Hm. apply list_elem_of_fmap in Hm as (i & -> & Hi%elem_of_seq).
  apply zero_pools_id. lia.
Qed.

#[local] Opaque zero_store zero_pools.
Lemma wp_table_init_ready n sw w X : (∀ w, 0 ≤ (sys_open_cwd w).1) → mp_pool <$> pools = pool_id <$> seq 0 n → Z.of_nat n ≤ MAX_POOLS →
  wp (on_hook (on_vfd pmemfile_vfd_table_init)) (λ _ s', hook_ok false [] (ss_hook s') ∧ ss_pools s' = [] ∧ hs_guard (ss_hook s') = false) X (start sw w).
Proof.
  intros Hcwd Hp Hn. apply wp_zoom, wp_zoom. eapply wp_tame; [apply tame_table_init|]. eapply wp_conseq; [apply wp_table_init; [reflexivity..|exact Hcwd]|].
  intros u v (Hok & Ho & _ & Hpools) Hr. change (vs_pools v = zero_pools) in Hpools. split; [|split; reflexivity]. split; cbn [hs_vfd ss_hook set_ss_hook set_hs_vfd]; [by rewrite Ho| |by rewrite Ho; intros x []%elem_of_nil| | |done].
  - split; cbn [hs_vfd ss_hook set_ss_hook set_hs_vfd]; [apply Hok|..].
    + intros p Hm. rewrite Hpools. by eapply pools_in_table.
    + intros p d. rewrite Hpools. intros ->%zero_pools_lookup. done.
  - apply (rl_special _ _ _ Hr). intros e d Hd. change (zero_store !! e = Some d) in Hd. apply zero_store_lookup in Hd as [_ ->]. done.
  - intros _ p d. rewrite Hpools. by intros ->%zero_pools_lookup.
Qed.
End start.

(** The descriptor table is set up, then the pools of the configuration are mounted. *)
Definition start_up `{E : VfdEnv} {PE : PathEnv} (open_fuel : nat) (malloc_ok : bool) (sys_fstat : Z → world → (Z * kstat) * world)
    (config : option cstring) (st : kstat) : M start_state unit :=
  on_hook (on_vfd pmemfile_vfd_table_init);;
  establish_mount_points open_fuel malloc_ok sys_fstat config st.


(** ** Example *)

Module ExMount.
Definition pair : cstring * cstring := (cstr "/mnt", cstr "/pool").
Definition sys_fstat (fd : Z) (w : gset Z) : (Z * kstat) * gset Z := ((0, ExPath.dir 20), w).
Lemma good : good_pair pair.
Proof. split; try done; apply (bool_decide_unpack _); vm_compute; exact I. Qed.
End ExMount.

